(* ===== verification/_CoqProject ===== *)
-Q . S2P
Prelude.v
Text.v
Paths.v
ResultStore.v
ResponseLimit.v
Lexer.v
Outline.v
Modifiers.v
Erasure.v
Members.v
Locate.v
ProjectCache.v
Shell.v
Timestamp.v
Blocking.v
TextSearch.v
Ordering.v
Utf8.v
Redaction.v
Config.v
MavenProject.v
DependencyTree.v
MavenOutput.v
TestReports.v
EffectivePom.v
Coverage.v
Artifacts.v
ClassEntries.v
ClassFacts.v
Preflight.v
ReactorPom.v
IndexRecord.v
IndexBuild.v
IndexSearch.v
Contents.v
SourceLookup.v
ClassApi.v
Health.v
MavenEnvironment.v
ModelInputs.v
IndexCache.v
ClasspathManifest.v
IndexService.v
Invalidation.v
Hierarchy.v
LogEvents.v
LogSources.v
LogPrivacy.v
LogReport.v
RuntimeStatus.v
StatusWorld.v
StatusFiles.v
MavenRun.v
CoverageReports.v
PomDescriptor.v
ClassSource.v
RunnerTools.v
HeavyJobs.v
