(* ===== verification/Prelude.v ===== *)
(** * maven-mcp: verification development (root file)

    This library models the Rust server [maven-mcp] (the crate below [src/src]) and proves what
    its parts promise.  The server answers questions about a Maven project: it runs Maven with
    fixed argument vectors, reads what Maven prints, indexes every JAR and class directory of the
    classpath, and serves classes, sources and relations from that index within fixed budgets of
    memory, time and response size.

    ** Parts of the program and files of the library

    Shared ground:
    - [Prelude]: executions ([exec]: a value, a panic, or out of fuel), the assertion [wp] that
      excludes the last two, loops, machine-width helpers and tactics.
    - [Text], [TextSearch], [Utf8], [Ordering], [Paths]: the parts of Rust's standard library that
      the code uses: [str] as a list of scalar values with its UTF-8 lengths and encoding,
      substring operations, [Ord] with stable sorting and sets kept in order, and canonical paths.

    From project to index ([src/project.rs], [src/index.rs], [src/index/persisted.rs]):
    - [MavenProject]: reactor discovery and the argument vectors Maven is started with.
    - [MavenOutput]: the bounded pipes of a run, its status, redaction, reactor summary and
      classpath.  [MavenRun]: the processes of concurrent requests, their permit, time limits,
      process groups and traces ([src/project/run_trace.rs]).  [DependencyTree]: the dependency trees Maven prints.  [TestReports]: the reports
      of a focused test and the test classes.  [EffectivePom]: the run that writes the effective
      POM and the projects read from it.  [Coverage]: JaCoCo counters, summaries and gaps.
    - [Artifacts]: coordinates, repository layout, sources JARs, containment in the repository.
      [ReactorPom]: the coordinate of a module of the reactor.
    - [Preflight]: the budget charged for an archive before any library opens it.
    - [ClassEntries], [ClassFacts]: what is read from one archive.  [IndexRecord]: the record of
      an archive, stored and restored.  [IndexBuild]: the classpath, the loop over its archives,
      and the tables.  [IndexSearch], [Hierarchy]: the queries.
    - [Contents]: entries of archives and the searches over their texts.  [ClassApi]: descriptions
      of classes, the search of members and the comparison of two APIs.  [Health]: the files of an
      artifact directory.
    - [Lexer], [Outline], [Modifiers], [Members], [Erasure], [Locate]: the source text of one
      declaration, from tokens to a slice of lines
      ([src/index/declaration_source.rs] and its submodules).  [SourceLookup]: the declarations of
      a classfile and the answer to a question about one of them.

    The on-disk cache ([src/index_cache.rs] and its submodules):
    - [IndexCache]: the rows of the database, writes with their eviction, and the recovery of a
      damaged file between processes.
    - [MavenEnvironment], [ModelInputs]: the variables and the POMs a resolution by Maven depends
      on.  [ClasspathManifest]: the manifest of a resolution, and when its classpath is used again.

    Serving ([src/server.rs], [src/project_cache.rs], [src/blocking.rs]):
    - [IndexService]: how a request gets the index of its project, as a program of critical
      sections and questions; [Invalidation]: such requests side by side.
    - [ProjectCache]: which index a request gets, builds in flight, memory and eviction.
    - [Blocking]: the pool every heavy job runs in, as interleaved segments of its requests.
    - [ResponseLimit], [ResultStore]: the size boundary of a response and the store its oversized
      result is read from page by page.
    - [Config], [Redaction]: limits from the environment, bounded XML, and masking of secrets.

    Reports on agent logs ([src/log_analysis.rs] and its submodules, [src/bin/maven-agent-log.rs]):
    - [Shell], [Timestamp]: recorded commands and their times.
    - [LogEvents]: the budget of retained state, events, filters and deduplication.  [LogSources]:
      the events of JSON documents, lines, IntelliJ logs and databases.  [LogPrivacy]: what
      redaction hides.  [LogReport]: the run, the groups and the formats.

    Status files of running servers ([src/runtime_stats.rs]):
    - [RuntimeStatus]: the status files of servers, the coalescing of hits,
      and the report that removes stale files; [StatusWorld]: servers and readers as programs of
      single system calls that interleave, fail and reuse process numbers; [StatusFiles]: its
      invariant and what clean-up keeps.

    The parts interact as the code composes them: a classpath read by [MavenOutput] is classified
    by [IndexBuild] through [Artifacts] and [ReactorPom]; each archive passes [Preflight], is read
    by [ClassFacts] over [ClassEntries] or restored by [IndexRecord]; the tables are searched by
    [IndexSearch], [Hierarchy], [Contents] and [ClassApi]; [IndexService] runs these steps for a
    request inside the pool of [Blocking], keeps the index in [ProjectCache] and its records and
    classpath in [IndexCache]; and every answer leaves through [ResponseLimit].  The log report is
    a program of its own: [LogReport] reads logs with [LogSources], charges, merges and filters
    their events with [LogEvents], shows them through [LogPrivacy] and renders them.  A server
    publishes the counters of [ProjectCache] in a file that [RuntimeStatus] writes; other processes
    read and clean up these files, which is what [StatusFiles] interleaves.

    ** What the theorems show

    - Accounting: the state budget of a log report is charged for exactly what is retained, after
      every step and also when a step fails.
    - Types and invariants: restored records are well typed whatever bytes the cache file holds;
      outlines tile their tokens; brackets are nested; the tables of an index are exactly its
      records; the pool and the stores stay within their limits in every reachable state; a
      lookup in the on-disk cache gives what was last written, whatever processes did to it.
    - Refinement and equivalence: reusing persisted records is invisible; stored facts denote the
      classfiles; the wildcard matcher, the interpolation and the XML scan decide declarative
      definitions; reading a log line by line visits the lines of its text; the groups of a report
      are those of the original keys; comparing normalised timestamps compares times.
    - Round trips: paging an oversized result, persisting a record, JVM descriptors, repository
      paths, manifests, Maven commands, CSV reports.
    - Safety: no stale index is published, no cancelled job is answered with its value, no
      artifact or module is read outside its root, no secret property is shown, no index is
      answered whose files were not checked, no classpath is used again after a file Maven read
      has changed, no recovery deletes a database that another process created, no clean-up
      loses the status of a running server, and no run of Maven leaves a process of its group or
      runs beside another.
    - Liveness and termination: every request of the pool is answered; every loop ends, with the
      fuel given below; the manifest of a build is forgotten after a concurrent invalidation.
    - Functional correctness of searches, the hierarchy, argument vectors, coverage gaps and
      declaration slices, with their error paths; and a few theorems that pin down behaviour that
      differs from a comment or from what the code means to do.

    ** Conventions, bounds and fuel

    - An arithmetic overflow or underflow, an index out of range and a slice off a character
      boundary are [Panic], as in a build with overflow checks; [usize] and [u64] are [N], checked
      where the code adds and saturating where it saturates.  Positions in vectors that hold them
      in memory, and counters of requests, are unbounded.
    - A loop takes a fuel that its theorems show to be enough: the bytes left for the lexer, one
      unit per 46 bytes for a central directory, one per edge for the hierarchy, the declared
      depth limits of the code for recursion (templates, generic types, interpolation, modules).
    - A [HashMap] or [BTreeMap] is a [gmap], taken in key order where the code iterates over a
      [BTreeMap]; a [BTreeSet] whose order is seen is a strictly increasing list.
    - Code outside the repository is a class or an argument: Unicode tables, the [regex] engine,
      [serde_json] and compression, the classfile and ZIP libraries, tokio's semaphore and
      cancellation token, the file system, the environment, the clock.  Their laws are classes
      of their own ([...Laws]), and every theorem that uses one is applied to a concrete instance
      in its witness.

    ** What is not modelled

    - The tool router of [src/server.rs] and [src/main.rs]: parameter parsing and serialization
      by [rmcp] around the modelled operations; its two page handlers are in [ResponseLimit], the
      resolution of an index in [IndexService].
    - The SQL engine and file locks below [src/index_cache.rs]: its statements are given their
      meaning on the rows of the table, and its lock is the one of [IndexCache.recovery_step].
    - In the log reports, argument parsing and the writing of the report; JSON texts, SQLite, the
      regular expressions and the sizes of Rust types are classes.
    - Benchmarks, fixtures and the labels of builds and errors. *)

From stdpp Require Export base tactics gmap sets list strings numbers sorting.
From Stdlib Require Export Lia.

(** ** Executions

    A Rust computation either returns a value ([Done]), panics ([Panic]: an index or a slice
    out of range, an arithmetic overflow or underflow caught by the overflow checks) or is cut
    off by the fuel of the model ([Stuck], the model's stand-in for divergence).  Every theorem
    about an [exec] value below is stated with [wp], which excludes both failures. *)
Inductive exec (A : Type) : Type :=
| Done (a : A)
| Panic
| Stuck.
Arguments Done {A} a.
Arguments Panic {A}.
Arguments Stuck {A}.

#[export] Instance exec_ret : MRet exec := @Done.
#[export] Instance exec_bind : MBind exec := λ A B f m,
  match m with
  | Done a => f a
  | Panic => Panic
  | Stuck => Stuck
  end.
#[export] Instance exec_fmap : FMap exec := λ A B f m,
  match m with
  | Done a => Done (f a)
  | Panic => Panic
  | Stuck => Stuck
  end.

(** [wp m Q]: [m] terminates without panicking, and its value satisfies [Q]. *)
Definition wp {A} (m : exec A) (Q : A → Prop) : Prop :=
  match m with
  | Done a => Q a
  | _ => False
  end.

(** [m] terminates without panicking. *)
Abbreviation total m := (wp m (λ _, True)) (only parsing).

(** The value of an operation that panics when it has none, such as an index or a slice. *)
Definition or_panic {A} (o : option A) : exec A :=
  match o with
  | Some a => Done a
  | None => Panic
  end.

(** [l[i] = x]: a panic out of range. *)
Definition list_set {A} (i : nat) (x : A) (l : list A) : exec (list A) :=
  if decide (i < length l) then Done (<[i := x]> l) else Panic.

(** One iteration of a Rust [loop]: go on with a new loop state, or leave it with a value. *)
Inductive turn (S R : Type) : Type :=
| Continue (s : S)
| Break (r : R).
Arguments Continue {S R} s.
Arguments Break {S R} r.

Fixpoint loop {S R} (fuel : nat) (body : S → exec (turn S R)) (s : S) : exec R :=
  match fuel with
  | O => Stuck
  | S fuel =>
      t ← body s;
      match t with
      | Continue s' => loop fuel body s'
      | Break r => Done r
      end
  end.

(** [for] over a list with an early exit on failure. *)
Fixpoint for_each {A S} (body : S → A → exec S) (l : list A) (s : S) : exec S :=
  match l with
  | [] => Done s
  | a :: l => s' ← body s a; for_each body l s'
  end.

Section Wp.
Context {A B : Type}.
Implicit Types (m : exec A) (f : A → exec B).

Lemma wp_ret (a : A) (Q : A → Prop) : Q a → wp (Done a) Q.
Proof. done. Qed.

Lemma wp_mret (a : A) (Q : A → Prop) : Q a → wp (mret a) Q.
Proof. done. Qed.

Lemma wp_bind m f (Q : B → Prop) : wp m (λ a, wp (f a) Q) → wp (m ≫= f) Q.
Proof. by destruct m. Qed.

Lemma wp_bind_inv m f (Q : B → Prop) : wp (m ≫= f) Q → wp m (λ a, wp (f a) Q).
Proof. by destruct m. Qed.

Lemma wp_mono m (P Q : A → Prop) : wp m P → (∀ a, P a → Q a) → wp m Q.
Proof. destruct m; simpl; auto. Qed.

Lemma wp_and m (P Q : A → Prop) : wp m P → wp m Q → wp m (λ a, P a ∧ Q a).
Proof. by destruct m. Qed.

Lemma wp_Done m (Q : A → Prop) : wp m Q → ∃ a, m = Done a ∧ Q a.
Proof. destruct m; naive_solver. Qed.

Lemma wp_of_Done m (a : A) (Q : A → Prop) : m = Done a → wp m Q → Q a.
Proof. by intros ->. Qed.

Lemma wp_or_panic (o : option A) (a : A) (Q : A → Prop) : o = Some a → Q a → wp (or_panic o) Q.
Proof. by intros ->. Qed.
End Wp.

Lemma wp_list_set {A} i (x : A) l (Q : list A → Prop) :
  i < length l → Q (<[i := x]> l) → wp (list_set i x l) Q.
Proof. intros Hi HQ. unfold list_set. by rewrite decide_True. Qed.

(** Consequence under a bind: the shape every call of an already verified function has. *)
Lemma wp_call {A B} (m : exec A) (f : A → exec B) (P : A → Prop) (Q : B → Prop) :
  wp m P → (∀ a, P a → wp (f a) Q) → wp (m ≫= f) Q.
Proof. intros Hm Hf. apply wp_bind. by eapply wp_mono. Qed.

(** Total correctness of a loop: an invariant, and a measure that every further turn decreases
    below the fuel. *)
Lemma wp_loop {S R} (I : S → Prop) (m : S → nat) (Q : R → Prop) (body : S → exec (turn S R)) :
  (∀ s, I s → wp (body s) (λ t, match t with
                                | Continue s' => I s' ∧ m s' < m s
                                | Break r => Q r
                                end)) →
  ∀ fuel s, I s → m s < fuel → wp (loop fuel body s) Q.
Proof.
  intros Hbody fuel. induction fuel as [|fuel IH]; intros s Hs Hm; [lia|].
  simpl. eapply wp_call; [by apply Hbody|].
  intros [s'|r]; simpl; [|done]. intros [? ?]. apply IH; [done|lia].
Qed.

(** Partial correctness, for loops whose body may panic. *)
Lemma loop_Done {S R} (I : S → Prop) (Q : R → Prop) (body : S → exec (turn S R)) :
  (∀ s t, I s → body s = Done t → match t with Continue s' => I s' | Break r => Q r end) →
  ∀ fuel s r, I s → loop fuel body s = Done r → Q r.
Proof.
  intros Hbody fuel. induction fuel as [|fuel IH]; intros s r Hs Hrun; [done|]. simpl in Hrun.
  destruct (body s) as [t| |] eqn:Ht; simpl in Hrun; [|done..].
  specialize (Hbody s t Hs Ht). destruct t as [s'|r']; [by apply (IH s')|]. by injection Hrun as <-.
Qed.

(** A loop whose turns decrease a measure has one value, whatever the fuel above it. *)
Lemma loop_fuel {S R} (m : S → nat) (body : S → exec (turn S R)) :
  (∀ s s', body s = Done (Continue s') → m s' < m s) →
  ∀ f g s, m s < f → m s < g → loop f body s = loop g body s.
Proof.
  intros Hbody f. induction f as [|f IH]; intros g s Hf Hg; [lia|]. destruct g as [|g]; [lia|].
  simpl. destruct (body s) as [[s'|r]| |] eqn:Hs; simpl; [|done..].
  specialize (Hbody s s' Hs). apply IH; lia.
Qed.

Lemma bind_Done {A B} (m : exec A) (f : A → exec B) b :
  m ≫= f = Done b → ∃ a, m = Done a ∧ f a = Done b.
Proof. destruct m as [a| |]; simpl; [|done..]. by exists a. Qed.

Lemma fmap_Done {A B} (f : A → B) (m : exec A) b : f <$> m = Done b → ∃ a, m = Done a ∧ b = f a.
Proof. destruct m as [a| |]; simpl; [|done..]. intros; simplify_eq. by exists a. Qed.

(** A loop with an index that moves right towards a bound, the shape of the token scans. *)
Lemma wp_scan {X R} (bound : nat) (I : nat → X → Prop) (Q : R → Prop)
    (body : nat * X → exec (turn (nat * X) R)) i x :
  (∀ i x, I i x → wp (body (i, x)) (λ t, match t with
                                         | Continue (i', x') => i < bound ∧ i < i' ∧ I i' x'
                                         | Break r => Q r
                                         end)) →
  I i x → wp (loop (S (bound - i)) body (i, x)) Q.
Proof.
  intros Hbody Hx. apply (wp_loop (λ '(i, x), I i x) (λ '(i, _), bound - i)).
  - intros [j y] Hy. eapply wp_mono; [by apply Hbody|].
    intros [[j' y']|r]; [|done]. intros (? & ? & ?). split; [done|lia].
  - done.
  - lia.
Qed.

Lemma wp_for_each {A S} (I : list A → S → Prop) (body : S → A → exec S) :
  (∀ a l s, I (a :: l) s → wp (body s a) (I l)) →
  ∀ l s, I l s → wp (for_each body l s) (I []).
Proof.
  intros Hbody l. induction l as [|a l IH]; intros s Hs; simpl; [done|].
  eapply wp_call; [by apply Hbody|]. intros s' Hs'. by apply IH.
Qed.

Lemma wp_total {A} (m : exec A) (Q : A → Prop) : wp m Q → total m.
Proof. destruct m; naive_solver. Qed.

Lemma total_fmap {A B} (f : A → B) (m : exec A) : total m → total (f <$> m).
Proof. by destruct m. Qed.

(** Runs a call that is only known to be total. *)
Ltac call_total lem := eapply wp_call; [first [apply lem | eapply wp_total, lem] | intros ? ?].

(** Steps through the binds, returns and pattern matches of an execution. *)
Ltac wp_step :=
  match goal with
  | |- wp (Done _) _ => apply wp_ret
  | |- wp (mret _) _ => apply wp_mret
  | |- wp (_ ≫= _) _ => apply wp_bind
  | |- wp (match ?x with _ => _ end) _ => let E := fresh "E" in destruct x eqn:E
  end.
Ltac wp_steps := repeat (wp_step; simpl).

(** ** Options *)

Definition is_some {A} (o : option A) : bool := match o with Some _ => true | None => false end.

Lemma is_some_true {A} (o : option A) : is_some o = true ↔ is_Some o.
Proof. destruct o; split; [by eexists|done|done|by intros []]. Qed.

(** ** Lists *)

Lemma elem_of_drop_inv {A} (x : A) k l : x ∈ drop k l → x ∈ l.
Proof. intros H. rewrite <- (take_drop k l). apply elem_of_app. by right. Qed.

Lemma StronglySorted_drop {A} (R : A → A → Prop) k l :
  StronglySorted R l → StronglySorted R (drop k l).
Proof. revert l. induction k; intros l H; [done|]. destruct H; simpl; [constructor|auto]. Qed.
