(* ===== verification/Text.v ===== *)
(** * Text: Rust characters, strings and number formatting

    A Rust [str] is valid UTF-8, so it is modelled as the list of its Unicode scalar values;
    its byte length and byte offsets are computed with [len_utf8].  Only the [std] operations
    the modelled code uses are defined here.  The Unicode tables behind
    [char::is_alphanumeric], [char::is_lowercase] and [char::to_lowercase] are taken from the
    class [Unicode] outside ASCII; inside ASCII, and for [char::is_whitespace] everywhere,
    the values are written out. *)

From Stdlib Require Ascii String.
From S2P Require Import Prelude.

Abbreviation char := N (only parsing).
Abbreviation str := (list N) (only parsing).

(** A literal: the characters of an ASCII Rocq string. *)
Definition lit (s : string) : str := Ascii.N_of_ascii <$> String.list_ascii_of_string s.
Definition ch (s : string) : char := default 0%N (head (lit s)).

Definition usize_max : N := 2 ^ 64 - 1.
Definition u64_max : N := 2 ^ 64 - 1.

(** Machine arithmetic on [usize] and [u64] (64-bit targets only, see [lib.rs]). *)
Definition checked_add (a b : N) : option N :=
  if decide (a + b ≤ usize_max)%N then Some (a + b)%N else None.
Definition checked_sub (a b : N) : option N :=
  if decide (b ≤ a)%N then Some (a - b)%N else None.
Definition saturating_add (a b : N) : N := N.min usize_max (a + b).
Definition saturating_sub (a b : N) : N := (a - b)%N.
Definition saturating_mul (a b : N) : N := N.min usize_max (a * b)%N.

(** [a - 1] on an index held as a [nat]: a panic at zero. *)
Definition pred_index (a : nat) : exec nat :=
  match a with O => Panic | S a => Done a end.

(** ** Characters *)

Class Unicode := {
  unicode_alphanumeric : char → bool;
  unicode_lowercase : char → bool;
  unicode_to_lowercase : char → str;
}.

(** A concrete instance for examples and witnesses: no character outside ASCII is a letter. *)
Definition ascii_only : Unicode := {|
  unicode_alphanumeric := λ _, false;
  unicode_lowercase := λ _, false;
  unicode_to_lowercase := λ c, [c];
|}.

Definition between (lo c hi : N) : bool := ((lo <=? c) && (c <=? hi))%N.

Definition len_utf8 (c : char) : N :=
  if (c <? 128)%N then 1
  else if (c <? 2048)%N then 2
  else if (c <? 65536)%N then 3
  else 4.

Definition is_ascii_digit (c : char) : bool := between 48 c 57.
Definition is_ascii_uppercase (c : char) : bool := between 65 c 90.
Definition is_ascii_lowercase (c : char) : bool := between 97 c 122.
Definition is_ascii_alphabetic (c : char) : bool := is_ascii_uppercase c || is_ascii_lowercase c.
Definition to_ascii_lowercase (c : char) : char :=
  if is_ascii_uppercase c then (c + 32)%N else c.

(** The Unicode property White_Space. *)
Definition is_whitespace (c : char) : bool :=
  between 9 c 13 || (c =? 32)%N || (c =? 133)%N || (c =? 160)%N || (c =? 5760)%N
  || between 8192 c 8202 || (c =? 8232)%N || (c =? 8233)%N || (c =? 8239)%N
  || (c =? 8287)%N || (c =? 12288)%N.

Definition is_alphanumeric `{Unicode} (c : char) : bool :=
  if (c <? 128)%N then is_ascii_alphabetic c || is_ascii_digit c else unicode_alphanumeric c.
Definition is_lowercase `{Unicode} (c : char) : bool :=
  if (c <? 128)%N then is_ascii_lowercase c else unicode_lowercase c.
Definition to_lowercase `{Unicode} (s : str) : str :=
  mjoin ((λ c, if (c <? 128)%N then [to_ascii_lowercase c] else unicode_to_lowercase c) <$> s).

(** ** Strings *)

(** [str::len]: bytes. *)
Fixpoint blen (s : str) : N :=
  match s with
  | [] => 0
  | c :: s => len_utf8 c + blen s
  end.

(** [&s[n..]] and [&s[..n]]; [None] when [n] is not a character boundary of [s]. *)
Fixpoint byte_drop (n : N) (s : str) : option str :=
  if (n =? 0)%N then Some s
  else match s with
       | [] => None
       | c :: s => if (len_utf8 c <=? n)%N then byte_drop (n - len_utf8 c) s else None
       end.
Fixpoint byte_take (n : N) (s : str) : option str :=
  if (n =? 0)%N then Some []
  else match s with
       | [] => None
       | c :: s =>
           if (len_utf8 c <=? n)%N then cons c <$> byte_take (n - len_utf8 c) s else None
       end.

(** [&s[a..b]]: [None] is the panic of an inverted range or of a split character. *)
Definition byte_slice (a b : N) (s : str) : option str :=
  if (b <? a)%N then None else byte_drop a s ≫= byte_take (b - a).

Fixpoint starts_with (p s : str) : bool :=
  match p, s with
  | [], _ => true
  | a :: p, b :: s => (a =? b)%N && starts_with p s
  | _ :: _, [] => false
  end.
Fixpoint strip_prefix (p s : str) : option str :=
  match p, s with
  | [], _ => Some s
  | a :: p, b :: s => if (a =? b)%N then strip_prefix p s else None
  | _ :: _, [] => None
  end.
Definition ends_with (p s : str) : bool := starts_with (reverse p) (reverse s).
Definition strip_suffix (p s : str) : option str :=
  reverse <$> strip_prefix (reverse p) (reverse s).

Fixpoint contains (p s : str) : bool :=
  starts_with p s || match s with [] => false | _ :: s => contains p s end.
Definition contains_char (c : char) (s : str) : bool := existsb (N.eqb c) s.

(** [str::split] at a character predicate: always at least one piece. *)
Fixpoint split_at (sep : char → bool) (s : str) : list str :=
  match s with
  | [] => [[]]
  | c :: s =>
      if sep c then [] :: split_at sep s
      else match split_at sep s with
           | [] => [[c]]
           | piece :: rest => (c :: piece) :: rest
           end
  end.
Definition split_char (c : char) : str → list str := split_at (N.eqb c).

(** [str::split_once] at a character: around its first occurrence. *)
Fixpoint split_once (c : char) (s : str) : option (str * str) :=
  match s with
  | [] => None
  | x :: s =>
      if (x =? c)%N then Some ([], s)
      else '(a, b) ← split_once c s; Some (x :: a, b)
  end.

(** [rsplit(pred).next()]: the piece after the last separator. *)
Definition last_piece (sep : char → bool) (s : str) : str := default [] (last (split_at sep s)).

Fixpoint trim_start_matches (p : char → bool) (s : str) : str :=
  match s with
  | [] => []
  | c :: s' => if p c then trim_start_matches p s' else s
  end.
Definition trim_end_matches (p : char → bool) (s : str) : str :=
  reverse (trim_start_matches p (reverse s)).
Definition trim_matches (p : char → bool) (s : str) : str :=
  trim_end_matches p (trim_start_matches p s).
Definition trim : str → str := trim_matches is_whitespace.

(** [str::lines]: pieces ended by a line feed, without the line ending ([\n] or [\r\n]). *)
Definition strip_cr (line : str) : str := default line (strip_suffix [13%N] line).
Fixpoint lines_from (acc : str) (s : str) : list str :=
  match s with
  | [] => match acc with [] => [] | _ => [reverse acc] end
  | c :: s =>
      if (c =? 10)%N then strip_cr (reverse acc) :: lines_from [] s
      else lines_from (c :: acc) s
  end.
Definition lines : str → list str := lines_from [].

Fixpoint join (sep : str) (l : list str) : str :=
  match l with
  | [] => []
  | [s] => s
  | s :: l => s ++ sep ++ join sep l
  end.

Definition eq_ignore_ascii_case (a b : str) : bool :=
  bool_decide (to_ascii_lowercase <$> a = to_ascii_lowercase <$> b).

(** Lexicographic order on characters, which is also the byte order of UTF-8 and so the
    [Ord] of [str]. *)
Fixpoint str_cmp (a b : str) : comparison :=
  match a, b with
  | [], [] => Eq
  | [], _ => Lt
  | _, [] => Gt
  | x :: a, y :: b =>
      match N.compare x y with
      | Eq => str_cmp a b
      | c => c
      end
  end.
Definition str_ltb (a b : str) : bool := match str_cmp a b with Lt => true | _ => false end.
Definition str_leb (a b : str) : bool := match str_cmp a b with Gt => false | _ => true end.

Definition count_char (c : char) (s : str) : N := N.of_nat (length (filter (λ x, x = c) s)).

(** ** Numbers as text *)

Definition digit_char (d : N) : char := if (d <? 10)%N then (48 + d)%N else (87 + d)%N.
Definition digit_value (b c : N) : option N :=
  let d :=
    if is_ascii_digit c then Some (c - 48)%N
    else if is_ascii_lowercase c then Some (c - 87)%N
    else if is_ascii_uppercase c then Some (c - 55)%N
    else None in
  d ← d; if (d <? b)%N then Some d else None.

Fixpoint digits_from (b : N) (fuel : nat) (n : N) (acc : str) : str :=
  match fuel with
  | O => acc
  | S fuel =>
      let acc := digit_char (n mod b) :: acc in
      if (n / b =? 0)%N then acc else digits_from b fuel (n / b) acc
  end.

(** [{}] and [{:x}] of an unsigned integer: one digit per bit is fuel enough. *)
Definition to_digits (b n : N) : str := digits_from b (S (N.size_nat n)) n [].
Definition to_dec : N → str := to_digits 10.
Definition to_hex : N → str := to_digits 16.

(** [{:0w}] and [{:0wx}]. *)
Definition pad_zero (w : nat) (s : str) : str := replicate (w - length s) 48%N ++ s.

Fixpoint digits_value (b acc : N) (s : str) : option N :=
  match s with
  | [] => Some acc
  | c :: s => d ← digit_value b c; digits_value b (acc * b + d)%N s
  end.

(** [str::parse] to an unsigned integer: an optional [+], at least one digit, no overflow. *)
Definition parse_unsigned (max : N) (s : str) : option N :=
  let s := match s with 43%N :: s' => s' | _ => s end in
  match s with
  | [] => None
  | _ =>
      n ← digits_value 10 0 s;
      if (n <=? max)%N then Some n else None
  end.
Definition parse_usize : str → option N := parse_unsigned usize_max.

(** ** Sums *)

(** [Iterator::sum]. *)
Definition sum (l : list N) : N := foldr N.add 0%N l.

Lemma sum_cons x l : sum (x :: l) = (x + sum l)%N.
Proof. done. Qed.

Lemma sum_app l k : sum (l ++ k) = (sum l + sum k)%N.
Proof. induction l as [|x l IH]; simpl; [done|]. unfold sum in *. simpl. lia. Qed.

Lemma sum_perm l k : l ≡ₚ k → sum l = sum k.
Proof. unfold sum. induction 1; simpl; lia. Qed.

(** ** Lemmas: byte offsets *)

Lemma len_utf8_pos c : (0 < len_utf8 c)%N.
Proof. unfold len_utf8. repeat case_match; lia. Qed.

Lemma len_utf8_ascii c : (c < 128)%N → len_utf8 c = 1%N.
Proof. unfold len_utf8. intros. by destruct (N.ltb_spec c 128); [|lia]. Qed.

Lemma blen_app s t : blen (s ++ t) = (blen s + blen t)%N.
Proof. induction s as [|c s IH]; simpl; [done|]. rewrite IH. lia. Qed.

Lemma blen_nil_inv s : blen s = 0%N → s = [].
Proof. destruct s as [|c s]; simpl; [done|]. pose proof (len_utf8_pos c). lia. Qed.

Lemma length_le_blen s : (N.of_nat (length s) ≤ blen s)%N.
Proof. induction s as [|c s IH]; simpl; [lia|]. pose proof (len_utf8_pos c). lia. Qed.

Lemma blen_reverse s : blen (reverse s) = blen s.
Proof.
  induction s as [|c s IH]; [done|]. rewrite reverse_cons, blen_app, IH. simpl. lia.
Qed.

Lemma byte_drop_0 s : byte_drop 0 s = Some s.
Proof. by destruct s. Qed.

Lemma byte_take_0 s : byte_take 0 s = Some [].
Proof. by destruct s. Qed.

Lemma byte_drop_app s t n : byte_drop (blen s + n) (s ++ t) = byte_drop n t.
Proof.
  induction s as [|c s IH]; simpl; [done|]. pose proof (len_utf8_pos c).
  destruct (N.eqb_spec (len_utf8 c + blen s + n) 0); [lia|].
  destruct (N.leb_spec (len_utf8 c) (len_utf8 c + blen s + n)); [|lia].
  rewrite <- IH. f_equal. lia.
Qed.

Lemma byte_drop_prefix s t : byte_drop (blen s) (s ++ t) = Some t.
Proof. rewrite <- (N.add_0_r (blen s)), byte_drop_app. apply byte_drop_0. Qed.

Lemma byte_take_prefix s t : byte_take (blen s) (s ++ t) = Some s.
Proof.
  induction s as [|c s IH]; simpl; [apply byte_take_0|]. pose proof (len_utf8_pos c).
  destruct (N.eqb_spec (len_utf8 c + blen s) 0); [lia|].
  destruct (N.leb_spec (len_utf8 c) (len_utf8 c + blen s)); [|lia].
  replace (len_utf8 c + blen s - len_utf8 c)%N with (blen s) by lia. by rewrite IH.
Qed.

Lemma byte_drop_inv n s t : byte_drop n s = Some t → ∃ p, s = p ++ t ∧ blen p = n.
Proof.
  revert n. induction s as [|c s IH]; intros n; simpl.
  - destruct (N.eqb_spec n 0); intros; simplify_eq. by exists [].
  - destruct (N.eqb_spec n 0); intros; simplify_eq; [by exists []|].
    destruct (N.leb_spec (len_utf8 c) n); [|done].
    edestruct IH as (p & -> & Hp); [done|]. exists (c :: p). split; [done|]. simpl. lia.
Qed.

Lemma byte_take_inv n s t : byte_take n s = Some t → ∃ r, s = t ++ r ∧ blen t = n.
Proof.
  revert n t. induction s as [|c s IH]; intros n t; simpl.
  - destruct (N.eqb_spec n 0); intros; simplify_eq. by exists [].
  - destruct (N.eqb_spec n 0); intros; simplify_eq; [by eexists|].
    destruct (N.leb_spec (len_utf8 c) n); [|done].
    destruct (byte_take _ s) as [t'|] eqn:E; simpl in *; simplify_eq.
    edestruct IH as (r & -> & Hr); [done|]. exists r. split; [done|]. simpl. lia.
Qed.

(** [n] is a character boundary of [s]. *)
Definition boundary (s : str) (n : N) : Prop := ∃ p t, s = p ++ t ∧ blen p = n.

Lemma boundary_0 s : boundary s 0.
Proof. by exists [], s. Qed.

Lemma boundary_end s : boundary s (blen s).
Proof. exists s, []. by rewrite app_nil_r. Qed.

Lemma boundary_le s n : boundary s n → (n ≤ blen s)%N.
Proof. intros (p & t & -> & <-). rewrite blen_app. lia. Qed.

(** A slice between two boundaries in order exists and is the text between them. *)
Lemma byte_slice_app p m t : byte_slice (blen p) (blen p + blen m) (p ++ m ++ t) = Some m.
Proof.
  unfold byte_slice. destruct (N.ltb_spec (blen p + blen m) (blen p)); [lia|].
  rewrite byte_drop_prefix. simpl.
  replace (blen p + blen m - blen p)%N with (blen m) by lia. apply byte_take_prefix.
Qed.

Lemma app_split_le (p t q u : str) :
  p ++ t = q ++ u → (blen p ≤ blen q)%N → ∃ m, q = p ++ m ∧ t = m ++ u.
Proof.
  revert q. induction p as [|c p IH]; intros q Heq Hle; simpl in *; [by exists q|].
  destruct q as [|d q]; simpl in *.
  - pose proof (len_utf8_pos c). lia.
  - simplify_eq. destruct (IH q) as (m & -> & ->); [done|lia|]. by exists m.
Qed.

Lemma byte_slice_boundary s a b :
  boundary s a → boundary s b → (a ≤ b)%N →
  ∃ p m t, s = p ++ m ++ t ∧ blen p = a ∧ (blen p + blen m)%N = b ∧ byte_slice a b s = Some m.
Proof.
  intros (p & t & -> & <-) (q & u & Heq & <-) Hle.
  destruct (app_split_le p t q u Heq Hle) as (m & -> & ->).
  exists p, m, u. rewrite blen_app. split_and!; [done..|]. apply byte_slice_app.
Qed.

Lemma byte_slice_inv a b s m :
  byte_slice a b s = Some m →
  ∃ p t, s = p ++ m ++ t ∧ blen p = a ∧ (a + blen m)%N = b ∧ (a ≤ b)%N.
Proof.
  unfold byte_slice. destruct (N.ltb_spec b a); [done|].
  destruct (byte_drop a s) as [t|] eqn:E; simpl; [|done]. intros Ht.
  apply byte_drop_inv in E as (p & -> & Hp). apply byte_take_inv in Ht as (r & -> & Hr).
  exists p, r. split_and!; [done|done|lia|lia].
Qed.

(** ** Lemmas: prefixes, suffixes and pieces *)

Lemma starts_with_spec p s : starts_with p s = true ↔ ∃ t, s = p ++ t.
Proof.
  revert s. induction p as [|a p IH]; intros s; simpl; [naive_solver|].
  destruct s as [|b s]; simpl; [naive_solver|].
  rewrite andb_true_iff, N.eqb_eq, IH. naive_solver.
Qed.

Lemma strip_prefix_spec p s t : strip_prefix p s = Some t ↔ s = p ++ t.
Proof.
  revert s. induction p as [|a p IH]; intros s; simpl; [naive_solver|].
  destruct s as [|b s]; simpl; [naive_solver|].
  destruct (N.eqb_spec a b) as [->|]; [rewrite IH|]; naive_solver.
Qed.

Lemma strip_suffix_spec p s t : strip_suffix p s = Some t ↔ s = t ++ p.
Proof.
  unfold strip_suffix. rewrite fmap_Some. split.
  - intros (u & Hu & ->). apply strip_prefix_spec in Hu.
    rewrite <- (reverse_involutive s), Hu, reverse_app, reverse_involutive. done.
  - intros ->. exists (reverse t). rewrite reverse_involutive. split; [|done].
    apply strip_prefix_spec. apply reverse_app.
Qed.

Lemma strip_suffix_app (p s : str) : strip_suffix p (s ++ p) = Some s.
Proof. by apply strip_suffix_spec. Qed.

Lemma join_Forall (P : char → Prop) sep l : Forall P sep → Forall (Forall P) l → Forall P (join sep l).
Proof.
  intros Hsep. induction 1 as [|s l Hs Hl IH]; [constructor|]. cbn [join].
  destruct l; [done|]. by rewrite !Forall_app.
Qed.

Lemma split_at_ne sep s : split_at sep s ≠ [].
Proof. induction s as [|c s IH]; simpl; [done|]. repeat case_match; done. Qed.

(** Splitting what was joined: the pieces come back when none contains the separator. *)
Lemma split_at_piece sep piece c rest :
  Forall (λ x, sep x = false) piece → sep c = true →
  split_at sep (piece ++ c :: rest) = piece :: split_at sep rest.
Proof.
  intros Hp Hc. induction Hp as [|x piece Hx Hp IH]; simpl; [by rewrite Hc|].
  by rewrite Hx, IH.
Qed.

Lemma split_at_last sep piece : Forall (λ x, sep x = false) piece → split_at sep piece = [piece].
Proof. intros Hp. induction Hp as [|x piece Hx Hp IH]; simpl; [done|]. by rewrite Hx, IH. Qed.

Lemma existsb_false_Forall (sep : char → bool) (s : str) : existsb sep s = false → Forall (λ x, sep x = false) s.
Proof.
  induction s as [|x s IH]; simpl; [done|]. rewrite orb_false_iff. intros [? ?]. auto.
Qed.

Lemma split_at_two (sep : char → bool) (s : str) : existsb sep s = true → ∃ p q r, split_at sep s = p :: q :: r.
Proof.
  induction s as [|x s IH]; simpl; [done|]. destruct (sep x).
  - intros _. pose proof (split_at_ne sep s). destruct (split_at sep s); naive_solver.
  - simpl. intros (p & q & r & ->)%IH. eauto.
Qed.

Lemma last_piece_none sep s : Forall (λ x, sep x = false) s → last_piece sep s = s.
Proof. intros Hs. unfold last_piece. by rewrite split_at_last. Qed.

Lemma last_piece_cons sep x s :
  last_piece sep (x :: s)
  = if existsb sep s then last_piece sep s else if sep x then s else x :: s.
Proof.
  unfold last_piece. simpl. destruct (existsb sep s) eqn:E.
  - destruct (split_at_two _ _ E) as (p & q & r & ->). by destruct (sep x).
  - rewrite split_at_last by by apply existsb_false_Forall. by destruct (sep x).
Qed.

Lemma last_piece_sep sep a c b : sep c = true → last_piece sep (a ++ c :: b) = last_piece sep b.
Proof.
  intros Hc. induction a as [|x a IH]; simpl; rewrite last_piece_cons.
  - rewrite Hc. destruct (existsb sep b) eqn:E; [done|].
    by rewrite last_piece_none by by apply existsb_false_Forall.
  - assert (existsb sep (a ++ c :: b) = true) as ->; [|done].
    rewrite existsb_app. simpl. by rewrite Hc, orb_true_r.
Qed.

Lemma last_piece_app sep a b :
  Forall (λ x, sep x = false) b → ∃ t, last_piece sep (a ++ b) = t ++ b.
Proof.
  intros Hb. induction a as [|x a IH]; simpl; [exists []; by apply last_piece_none|].
  rewrite last_piece_cons. repeat case_match; [done|by exists a|by exists (x :: a)].
Qed.

Lemma split_once_spec c s a b :
  split_once c s = Some (a, b) ↔ s = a ++ c :: b ∧ c ∉ a.
Proof.
  revert a b. induction s as [|x s IH]; intros a b; simpl.
  - split; [done|]. intros [H _]. by destruct a.
  - destruct (N.eqb_spec x c) as [->|Hne].
    + split; [intros; simplify_eq; split; [done|apply not_elem_of_nil]|].
      intros [H Hn]. destruct a as [|y a]; simplify_eq/=; [done|]. set_solver.
    + rewrite bind_Some. split.
      * intros ([a' b'] & Hs & ?); simplify_eq. apply IH in Hs as [-> Hn]. set_solver.
      * intros [H Hn]. destruct a as [|y a]; simplify_eq/=.
        exists (a, b). rewrite IH. set_solver.
Qed.

(** ** Lemmas: lines *)

Lemma lines_from_ne acc s : acc ≠ [] ∨ s ≠ [] → lines_from acc s ≠ [].
Proof.
  revert acc. induction s as [|c s IH]; intros acc [Hne|Hne]; simpl; try done.
  - by destruct acc.
  - case_match; [done|]. apply IH. by left.
  - case_match; [done|]. apply IH. by left.
Qed.

(** A position with text behind it is on a line of the text. *)
Lemma lines_count p s : s ≠ [] → (count_char 10 p < N.of_nat (length (lines (p ++ s))))%N.
Proof.
  intros Hs. unfold lines. generalize (@nil char) as acc. induction p as [|c p IH]; intros acc.
  - pose proof (lines_from_ne acc s (or_intror Hs)). unfold count_char. simpl.
    destruct (lines_from acc s); simpl; [done|lia].
  - unfold count_char in *. simpl. destruct (N.eqb_spec c 10) as [->|Hne].
    + rewrite filter_cons_True by done. simpl. specialize (IH []). lia.
    + rewrite filter_cons_False by done. apply IH.
Qed.

(** ** Lemmas: digits *)

Lemma digit_value_char b d : (1 < b ≤ 36)%N → (d < b)%N → digit_value b (digit_char d) = Some d.
Proof.
  intros Hb Hd. unfold digit_value, digit_char, is_ascii_digit, is_ascii_lowercase, between.
  destruct (N.ltb_spec d 10).
  - destruct (N.leb_spec 48 (48 + d)); [|lia]. destruct (N.leb_spec (48 + d) 57); [|lia]. simpl.
    replace (48 + d - 48)%N with d by lia. by destruct (N.ltb_spec d b); [|lia].
  - destruct (N.leb_spec (87 + d) 57); [lia|]. rewrite andb_false_r.
    destruct (N.leb_spec 97 (87 + d)); [|lia]. destruct (N.leb_spec (87 + d) 122); [|lia]. simpl.
    replace (87 + d - 87)%N with d by lia. by destruct (N.ltb_spec d b); [|lia].
Qed.

Lemma digits_value_app b acc s t :
  digits_value b acc (s ++ t) = digits_value b acc s ≫= λ v, digits_value b v t.
Proof.
  revert acc. induction s as [|c s IH]; intros acc; simpl; [done|].
  destruct (digit_value b c); simpl; [apply IH|done].
Qed.

Lemma size_nat_div b n : (1 < b)%N → n ≠ 0%N → N.size_nat (n / b) < N.size_nat n.
Proof.
  intros Hb Hn.
  assert (∀ m, N.of_nat (N.size_nat m) = N.size m) as Hs.
  { intros [|p]; [done|]. simpl. induction p; simpl in *; lia. }
  enough (N.size (n / b) < N.size n)%N by (rewrite <- !Hs in *; lia).
  assert (N.size n = N.succ (N.log2 n)) as -> by by apply N.size_log2.
  destruct (decide (n / b = 0)%N) as [Hz|Hz]; [rewrite Hz; change (N.size 0) with 0%N; lia|].
  rewrite N.size_log2 by done. enough (N.log2 (n / b) < N.log2 n)%N by lia.
  apply N.log2_lt_pow2; [by apply N.neq_0_lt_0|]. apply N.Div0.div_lt_upper_bound.
  destruct (N.log2_spec n) as [_ Hl]; [lia|]. rewrite N.pow_succ_r' in Hl. nia.
Qed.

Lemma digits_from_app b fuel n acc : digits_from b fuel n acc = digits_from b fuel n [] ++ acc.
Proof.
  revert n acc. induction fuel as [|fuel IH]; intros n acc; simpl; [done|].
  case_match; [done|]. rewrite (IH _ (_ :: acc)), (IH _ [_]), <- app_assoc. done.
Qed.

Lemma digits_from_value b fuel n :
  (1 < b ≤ 36)%N → N.size_nat n < fuel → digits_value b 0 (digits_from b fuel n []) = Some n.
Proof.
  intros Hb. revert n. induction fuel as [|fuel IH]; intros n Hf; simpl; [lia|].
  assert (n mod b < b)%N as Hm by (apply N.mod_lt; lia).
  pose proof (N.div_mod n b ltac:(lia)) as Hdm.
  destruct (N.eqb_spec (n / b) 0) as [Hz|Hz].
  - simpl. rewrite digit_value_char by lia. simpl. f_equal. lia.
  - rewrite digits_from_app, digits_value_app, IH; simpl.
    + rewrite digit_value_char by lia. simpl. f_equal. lia.
    + assert (n ≠ 0%N) by (intros ->; by rewrite N.Div0.div_0_l in Hz).
      pose proof (size_nat_div b n ltac:(lia) ltac:(done)). lia.
Qed.

(** The digits of [n] read back as [n], so formatting is injective. *)
Lemma to_digits_value b n : (1 < b ≤ 36)%N → digits_value b 0 (to_digits b n) = Some n.
Proof. intros Hb. apply digits_from_value; [done|lia]. Qed.

#[export] Instance to_hex_inj : Inj (=) (=) to_hex.
Proof.
  intros a b H. unfold to_hex in H. apply (f_equal (digits_value 16 0)) in H.
  rewrite !to_digits_value in H by lia. by simplify_eq.
Qed.

#[export] Instance to_dec_inj : Inj (=) (=) to_dec.
Proof.
  intros a b H. unfold to_dec in H. apply (f_equal (digits_value 10 0)) in H.
  rewrite !to_digits_value in H by lia. by simplify_eq.
Qed.

Lemma to_digits_ne b n : to_digits b n ≠ [].
Proof.
  unfold to_digits. simpl. case_match; [done|]. rewrite digits_from_app.
  intros Hnil. by apply app_nil in Hnil as [_ ?].
Qed.

Lemma digits_from_Forall (P : char → Prop) b fuel n acc :
  (b ≠ 0)%N → (∀ d, (d < b)%N → P (digit_char d)) → Forall P acc →
  Forall P (digits_from b fuel n acc).
Proof.
  intros Hb HP. revert n acc. induction fuel as [|fuel IH]; intros n acc Hacc; simpl; [done|].
  assert (Forall P (digit_char (n mod b) :: acc)).
  { constructor; [|done]. apply HP. by apply N.mod_lt. }
  case_match; auto.
Qed.

Lemma to_dec_digits n : Forall (λ c, is_ascii_digit c = true) (to_dec n).
Proof.
  apply digits_from_Forall; [done| |done]. intros d Hd. unfold digit_char, is_ascii_digit, between.
  destruct (N.ltb_spec d 10); [|lia]. apply andb_true_iff. rewrite !N.leb_le. lia.
Qed.

(** A larger number has no fewer digits. *)
Lemma digits_from_length_mono b f g m n :
  (1 < b)%N → (m ≤ n)%N → N.size_nat m < f → N.size_nat n < g →
  length (digits_from b f m []) ≤ length (digits_from b g n []).
Proof.
  intros Hb. revert g m n. induction f as [|f IH]; intros g m n Hmn Hf Hg; [lia|].
  destruct g as [|g]; [lia|]. simpl.
  pose proof (N.Div0.div_le_mono m n b Hmn) as Hdiv.
  destruct (N.eqb_spec (m / b) 0) as [Hm|Hm], (N.eqb_spec (n / b) 0) as [Hn|Hn];
    rewrite ?(digits_from_app b _ _ [_]), ?length_app; simpl; [lia|lia|rewrite Hn in Hdiv; apply N.le_0_r in Hdiv; congruence|].
  assert (m ≠ 0%N) by (intros ->; by rewrite N.Div0.div_0_l in Hm).
  assert (n ≠ 0%N) by (intros ->; by rewrite N.Div0.div_0_l in Hn).
  pose proof (size_nat_div b m Hb ltac:(done)). pose proof (size_nat_div b n Hb ltac:(done)).
  enough (length (digits_from b f (m / b) []) ≤ length (digits_from b g (n / b) [])) by lia.
  apply IH; [done|lia|lia].
Qed.

Lemma to_digits_length_mono b m n :
  (1 < b)%N → (m ≤ n)%N → length (to_digits b m) ≤ length (to_digits b n).
Proof. intros. apply digits_from_length_mono; [done|done|lia|lia]. Qed.

(** A decimal number within the type's range parses back to itself. *)
Lemma parse_to_dec max n : (n ≤ max)%N → parse_unsigned max (to_dec n) = Some n.
Proof.
  intros Hn. unfold parse_unsigned.
  pose proof (to_dec_digits n) as Hd. pose proof (to_digits_ne 10 n) as Hne.
  change (to_digits 10 n) with (to_dec n) in Hne.
  destruct (to_dec n) as [|c s] eqn:E; [done|].
  assert (match c with 43%N => s | _ => c :: s end = c :: s) as ->.
  { apply Forall_cons in Hd as [Hc _]. repeat case_match; try done. }
  rewrite <- E. unfold to_dec. rewrite to_digits_value by lia. simpl.
  by destruct (N.leb_spec n max); [|lia].
Qed.

(** ** Lemmas: the order on strings *)

Lemma str_cmp_refl a : str_cmp a a = Eq.
Proof. induction a as [|x a IH]; simpl; [done|]. by rewrite N.compare_refl. Qed.

Lemma str_cmp_eq a b : str_cmp a b = Eq ↔ a = b.
Proof.
  split; [|intros ->; apply str_cmp_refl].
  revert b. induction a as [|x a IH]; intros [|y b]; simpl; try done.
  destruct (N.compare_spec x y) as [->| |]; try done. intros. f_equal. by apply IH.
Qed.

Lemma str_cmp_antisym a b : str_cmp b a = CompOpp (str_cmp a b).
Proof.
  revert b. induction a as [|x a IH]; intros [|y b]; simpl; try done.
  rewrite (N.compare_antisym x y). destruct (N.compare x y); simpl; auto.
Qed.

Lemma str_cmp_lt_trans a b c : str_cmp a b = Lt → str_cmp b c = Lt → str_cmp a c = Lt.
Proof.
  revert b c. induction a as [|x a IH]; intros [|y b] [|z c]; simpl; try done.
  destruct (N.compare_spec x y), (N.compare_spec y z); try done; subst; intros.
  - rewrite N.compare_refl. eauto.
  - by rewrite (proj2 (N.compare_lt_iff _ _)).
  - by rewrite (proj2 (N.compare_lt_iff _ _)).
  - by rewrite (proj2 (N.compare_lt_iff x z)) by lia.
Qed.
