(* ===== verification/Paths.v ===== *)
(** * Paths: canonical absolute paths

    The modelled components receive canonical absolute paths only ([Path::canonicalize] ran
    before), so a path is the list of its components below the root.  [Path] equality,
    [starts_with] and [join] work on components, as in [std::path]. *)

From S2P Require Import Prelude.
From S2P Require Import Text.

Abbreviation path := (list (list N)) (only parsing).

(** [path.as_os_str().len()]: every component is preceded by one separator. *)
Definition os_len (p : path) : N :=
  match p with
  | [] => 1
  | _ => foldr (λ c n, 1 + blen c + n)%N 0%N p
  end.

(** [Path::starts_with]. *)
Fixpoint path_starts_with (base p : path) : bool :=
  match base, p with
  | [], _ => true
  | b :: base, c :: p => bool_decide (b = c) && path_starts_with base p
  | _ :: _, [] => false
  end.

Definition file_name (p : path) : option str := last p.

(** [Path::join] of a relative text: its components after those of the directory. *)
Definition text_components (s : str) : path :=
  filter (λ c, c ≠ [] ∧ c ≠ lit ".") (split_char (ch "/") s).
Definition path_join (p : path) (s : str) : path :=
  if starts_with (lit "/") s then text_components s else p ++ text_components s.

Lemma path_starts_with_spec base p : path_starts_with base p = true ↔ ∃ rest, p = base ++ rest.
Proof.
  revert p. induction base as [|b base IH]; intros p; simpl; [naive_solver|].
  destruct p as [|c p]; [naive_solver|].
  rewrite andb_true_iff, bool_decide_eq_true, IH. naive_solver.
Qed.
