(* ===== verification/ResultStore.v ===== *)
(** * ResultStore: the bounded store of oversized tool results

    Models [src/server/result_store.rs]: the [VecDeque] of stored results, its byte and count
    budgets, expiry by age and eviction of the oldest.  An [Instant] is a number of
    nanoseconds on the monotonic clock. *)

From S2P Require Import Prelude.
From S2P Require Import Text.
From S2P Require Import Paths.

Open Scope N_scope.

Definition MAX_STORED_RESULTS : nat := 16.
Definition STORED_RESULT_TTL : N := 300 * 1000000000.

Record ResultTooLarge := {
  too_large_retained_bytes : N;
  too_large_limit : N;
}.

Record StoredResult := {
  id : str;
  project_root : path;
  json : str;
  stored_at : N;
  stored_retained_bytes : N;
}.

Record ResultStore := {
  entries : list StoredResult;
  max_bytes : N;
  retained_bytes : N;
  process_key : N;
  next_sequence : N;
}.

Definition with_process_key (max_bytes process_key : N) : ResultStore := {|
  entries := [];
  max_bytes := max_bytes;
  retained_bytes := 0;
  process_key := process_key;
  next_sequence := 0;
|}.

Definition retained_size (id : str) (project_root : path) (json : str) : N :=
  blen json + blen id + os_len project_root.

(** [format!("r{:016x}{:x}", key, sequence)]. *)
Definition format_id (key sequence : N) : str :=
  lit "r" ++ pad_zero 16 (to_hex key) ++ to_hex sequence.
Definition longest_result_id : str := format_id u64_max u64_max.

Definition evict_oldest (st : ResultStore) : exec ResultStore :=
  match entries st with
  | [] => Done st
  | evicted :: rest =>
      retained ← or_panic (checked_sub (retained_bytes st) (stored_retained_bytes evicted));
      Done {| entries := rest;
              max_bytes := max_bytes st;
              retained_bytes := retained;
              process_key := process_key st;
              next_sequence := next_sequence st |}
  end.

Definition is_expired (now : N) (entry : StoredResult) : bool :=
  STORED_RESULT_TTL <=? saturating_sub now (stored_at entry).

Definition expire (now : N) (st : ResultStore) : exec ResultStore :=
  loop (S (length (entries st))) (λ st,
    match entries st with
    | entry :: _ =>
        if is_expired now entry then st ← evict_oldest st; Done (Continue st)
        else Done (Break st)
    | [] => Done (Break st)
    end) st.

Definition next_id (st : ResultStore) : exec (str * ResultStore) :=
  let sequence := next_sequence st in
  next ← or_panic (checked_add sequence 1);
  Done (format_id (process_key st) sequence,
        {| entries := entries st;
           max_bytes := max_bytes st;
           retained_bytes := retained_bytes st;
           process_key := process_key st;
           next_sequence := next |}).

(** The [while] of [insert]: no room yet for [bytes] more. *)
Definition over_budget (bytes : N) (st : ResultStore) : bool :=
  Nat.leb MAX_STORED_RESULTS (length (entries st))
  || (max_bytes st <? saturating_add (retained_bytes st) bytes).

Definition make_room (bytes : N) (st : ResultStore) : exec ResultStore :=
  loop (S (length (entries st))) (λ st,
    if over_budget bytes st then st ← evict_oldest st; Done (Continue st)
    else Done (Break st)) st.

Definition push_back (entry : StoredResult) (st : ResultStore) : exec ResultStore :=
  retained ← or_panic (checked_add (retained_bytes st) (stored_retained_bytes entry));
  Done {| entries := entries st ++ [entry];
          max_bytes := max_bytes st;
          retained_bytes := retained;
          process_key := process_key st;
          next_sequence := next_sequence st |}.

Definition insert (st : ResultStore) (root : path) (text : str) (now : N)
    : exec (ResultStore * (ResultTooLarge + str)) :=
  st ← expire now st;
  '(new_id, st) ← next_id st;
  let bytes := retained_size new_id root text in
  if max_bytes st <? bytes then
    Done (st, inl {| too_large_retained_bytes := bytes; too_large_limit := max_bytes st |})
  else
    st ← make_room bytes st;
    st ← push_back {| id := new_id; project_root := root; json := text;
                      stored_at := now; stored_retained_bytes := bytes |} st;
    Done (st, inr new_id).

Definition get (st : ResultStore) (wanted : str) (root : path) (now : N)
    : exec (ResultStore * option str) :=
  st ← expire now st;
  let found := List.find (λ entry, bool_decide (id entry = wanted)
                                   && bool_decide (project_root entry = root)) (entries st) in
  Done (st, json <$> found).

(** ** Specification *)

Definition total_bytes (es : list StoredResult) : N :=
  foldr (λ e n, stored_retained_bytes e + n) 0 es.

(** What expiry leaves: the queue without its expired prefix. *)
Fixpoint live (now : N) (es : list StoredResult) : list StoredResult :=
  match es with
  | e :: rest => if is_expired now e then live now rest else es
  | [] => []
  end.

(** Room for one more result of [bytes] beside the results [es]. *)
Definition fits (limit bytes : N) (es : list StoredResult) : Prop :=
  (length es < MAX_STORED_RESULTS)%nat ∧ total_bytes es + bytes ≤ limit.

#[export] Instance fits_dec limit bytes es : Decision (fits limit bytes es).
Proof. unfold fits. apply _. Defined.

Record store_inv (st : ResultStore) : Prop := {
  inv_total : retained_bytes st = total_bytes (entries st);
  inv_budget : retained_bytes st ≤ max_bytes st;
  inv_count : (length (entries st) ≤ MAX_STORED_RESULTS)%nat;
  inv_limit : max_bytes st < usize_max;
  inv_sizes : Forall (λ e, stored_retained_bytes e
                           = retained_size (id e) (project_root e) (json e)) (entries st);
  inv_issued : Forall (λ e, ∃ n, n < next_sequence st ∧ id e = format_id (process_key st) n)
                      (entries st);
  inv_distinct : NoDup (id <$> entries st);
}.

(** Everything ever stored, newest first: identifier, project, text and time. *)
Abbreviation history := (list (str * path * str * N)).

(** The states a store can reach, with what was stored so far and the time of the last call;
    the clock never goes back. *)
Inductive reachable (limit key : N) : ResultStore → history → N → Prop :=
| reach_new now :
    limit < usize_max → reachable limit key (with_process_key limit key) [] now
| reach_insert st h last now root text st' new_id :
    reachable limit key st h last → last ≤ now →
    insert st root text now = Done (st', inr new_id) →
    reachable limit key st' ((new_id, root, text, now) :: h) now
| reach_reject st h last now root text st' e :
    reachable limit key st h last → last ≤ now →
    insert st root text now = Done (st', inl e) →
    reachable limit key st' h now
| reach_get st h last now wanted root st' r :
    reachable limit key st h last → last ≤ now →
    get st wanted root now = Done (st', r) →
    reachable limit key st' h now.

(** ** Lemmas *)

Lemma format_id_inj key a b : format_id key a = format_id key b → a = b.
Proof.
  unfold format_id. intros H. apply app_inv_head in H. apply app_inv_head in H.
  by apply (inj to_hex) in H.
Qed.

Lemma live_drop now es : ∃ k, (k ≤ length es)%nat ∧ live now es = drop k es.
Proof.
  induction es as [|e es (k & Hk & IH)]; simpl; [by exists 0%nat|].
  destruct (is_expired now e).
  - exists (S k). simpl. split; [lia|done].
  - exists 0%nat. split; [lia|done].
Qed.

Lemma total_bytes_app es fs : total_bytes (es ++ fs) = total_bytes es + total_bytes fs.
Proof. induction es as [|e es IH]; simpl; [done|]. rewrite IH. lia. Qed.

Lemma total_bytes_drop k es : total_bytes (drop k es) ≤ total_bytes es.
Proof. rewrite <- (take_drop k es) at 2. rewrite total_bytes_app. lia. Qed.

(** The store with another queue; every operation only drops from the front or appends. *)
Definition set_entries (st : ResultStore) (es : list StoredResult) (next : N) : ResultStore := {|
  entries := es;
  max_bytes := max_bytes st;
  retained_bytes := total_bytes es;
  process_key := process_key st;
  next_sequence := next;
|}.

Lemma set_entries_id st : store_inv st → set_entries st (entries st) (next_sequence st) = st.
Proof. intros []. destruct st; unfold set_entries; simpl in *. by f_equal. Qed.

Lemma set_entries_inv st k next :
  store_inv st → next_sequence st ≤ next → store_inv (set_entries st (drop k (entries st)) next).
Proof.
  intros [] Hn. pose proof (total_bytes_drop k (entries st)).
  split; simpl; [done|lia|rewrite length_drop; lia|done|by apply Forall_drop| |].
  - eapply Forall_impl; [by apply Forall_drop|]. simpl. intros e (n & ? & ?). exists n. split; [lia|done].
  - rewrite <- (take_drop k (entries st)), fmap_app in inv_distinct0.
    by apply NoDup_app in inv_distinct0 as (_ & _ & ?).
Qed.

Lemma evict_oldest_set st e es n :
  evict_oldest (set_entries st (e :: es) n) = Done (set_entries st es n).
Proof.
  unfold evict_oldest, set_entries, checked_sub. simpl.
  destruct (decide _) as [|Hn]; simpl; [|lia]. do 2 f_equal. lia.
Qed.

Lemma expire_set now st n es :
  expire now (set_entries st es n) = Done (set_entries st (live now es) n).
Proof.
  unfold expire. simpl entries. induction es as [|e es IH]; [done|].
  cbn -[loop evict_oldest set_entries]. 
  change (entries (set_entries st (e :: es) n)) with (e :: es).
  destruct (is_expired now e) eqn:He.
  - simpl length. cbn [loop]. change (entries (set_entries st (e :: es) n)) with (e :: es).
    cbn iota beta. rewrite He, evict_oldest_set. cbn. exact IH.
  - simpl length. cbn [loop]. change (entries (set_entries st (e :: es) n)) with (e :: es).
    cbn iota beta. by rewrite He.
Qed.

(** Making room drops the shortest sufficient prefix. *)
Lemma make_room_set bytes st n es :
  max_bytes st < usize_max → bytes ≤ max_bytes st →
  ∃ k, make_room bytes (set_entries st es n) = Done (set_entries st (drop k es) n)
       ∧ fits (max_bytes st) bytes (drop k es)
       ∧ ∀ j, (j < k)%nat → ¬ fits (max_bytes st) bytes (drop j es).
Proof.
  intros Hmax Hbytes. unfold make_room. simpl entries.
  assert (∀ es, over_budget bytes (set_entries st es n) = true ↔ ¬ fits (max_bytes st) bytes es)
    as Hover.
  { intros fs. unfold over_budget, fits, saturating_add.
    cbn [entries max_bytes retained_bytes set_entries].
    rewrite orb_true_iff, Nat.leb_le, N.ltb_lt. split; [intros [|] [? ?]; lia|].
    intros Hn. destruct (decide (MAX_STORED_RESULTS ≤ length fs)%nat); [by left|right].
    destruct (decide (total_bytes fs + bytes ≤ max_bytes st)); [|lia].
    exfalso. apply Hn. lia. }
  induction es as [|e es IH].
  - exists 0%nat. cbn [loop length].
    destruct (over_budget bytes (set_entries st [] n)) eqn:E.
    + apply Hover in E. exfalso. apply E. unfold fits, MAX_STORED_RESULTS. simpl. lia.
    + cbn. split; [done|split; [|lia]].
      apply not_true_iff_false in E. rewrite Hover in E. by apply dec_stable in E.
  - cbn [loop length]. destruct (over_budget bytes (set_entries st (e :: es) n)) eqn:E.
    + rewrite evict_oldest_set. apply Hover in E. cbn [mbind exec_bind].
      destruct IH as (k & Hrun & Hfit & Hmin). exists (S k). simpl drop.
      split; [done|split; [done|]]. intros [|j] Hj; [done|]. simpl. apply Hmin. lia.
    + exists 0%nat. cbn. split; [done|split; [|lia]].
      apply not_true_iff_false in E. rewrite Hover in E. by apply dec_stable in E.
Qed.

Lemma expire_live now st :
  store_inv st → ∃ k, expire now st = Done (set_entries st (drop k (entries st)) (next_sequence st))
                      ∧ live now (entries st) = drop k (entries st).
Proof.
  intros Hst. destruct (live_drop now (entries st)) as (k & _ & Hk). exists k. split; [|done].
  rewrite <- Hk. rewrite <- (set_entries_id st) at 1 by done. apply expire_set.
Qed.

Lemma next_id_set st es n :
  n < u64_max →
  next_id (set_entries st es n) = Done (format_id (process_key st) n, set_entries st es (n + 1)).
Proof.
  intros Hn. unfold next_id, checked_add, set_entries. simpl.
  destruct (decide _); [done|]. unfold u64_max, usize_max in *. lia.
Qed.

Lemma push_back_set st es n e :
  total_bytes es + stored_retained_bytes e ≤ usize_max →
  push_back e (set_entries st es n) = Done (set_entries st (es ++ [e]) n).
Proof.
  intros Hn. unfold push_back, checked_add, set_entries. simpl.
  destruct (decide _); [|lia]. simpl. do 2 f_equal. rewrite total_bytes_app. simpl. lia.
Qed.

(** [insert], run symbolically: what is left after expiry and eviction, and the new entry. *)
Lemma insert_run st root text now :
  store_inv st → next_sequence st < u64_max →
  let new_id := format_id (process_key st) (next_sequence st) in
  let bytes := retained_size new_id root text in
  let next := next_sequence st + 1 in
  let new := {| id := new_id; project_root := root; json := text; stored_at := now;
                stored_retained_bytes := bytes |} in
  if max_bytes st <? bytes then
    insert st root text now
    = Done (set_entries st (live now (entries st)) next,
            inl {| too_large_retained_bytes := bytes; too_large_limit := max_bytes st |})
  else
    ∃ k, insert st root text now
         = Done (set_entries st (drop k (live now (entries st)) ++ [new]) next, inr new_id)
       ∧ fits (max_bytes st) bytes (drop k (live now (entries st)))
       ∧ ∀ j, (j < k)%nat → ¬ fits (max_bytes st) bytes (drop j (live now (entries st))).
Proof.
  intros Hst Hseq new_id bytes next new.
  destruct (expire_live now st Hst) as (k0 & Hexp & Hlive). unfold insert.
  rewrite Hexp, <- Hlive. cbn [mbind exec_bind]. rewrite next_id_set by done.
  cbn [mbind exec_bind max_bytes set_entries]. fold new_id bytes next.
  destruct (N.ltb_spec (max_bytes st) bytes) as [|Hle]; [done|].
  destruct (make_room_set bytes st next (live now (entries st)))
    as (k & Hrun & Hfit & Hmin); [apply Hst|done|]. exists k.
  split; [|done]. change (set_entries _ _ _) with (set_entries st (live now (entries st)) next) at 1.
  rewrite Hrun. cbn [mbind exec_bind]. rewrite push_back_set; [done|].
  pose proof (inv_limit _ Hst). destruct Hfit as [_ ?]. simpl. fold bytes. lia.
Qed.

(** Appending the new result keeps the invariant. *)
Lemma set_entries_snoc st es e :
  store_inv (set_entries st es (next_sequence st + 1)) →
  fits (max_bytes st) (stored_retained_bytes e) es →
  id e = format_id (process_key st) (next_sequence st) →
  stored_retained_bytes e = retained_size (id e) (project_root e) (json e) →
  Forall (λ e', ∃ n, n < next_sequence st ∧ id e' = format_id (process_key st) n) es →
  store_inv (set_entries st (es ++ [e]) (next_sequence st + 1)).
Proof.
  intros [] [Hlen Htot] Hid Hsize Hold. simpl in *. split; simpl; [done| |..].
  - rewrite total_bytes_app. simpl. lia.
  - rewrite length_app. simpl. lia.
  - done.
  - apply Forall_app. by split; [|constructor].
  - apply Forall_app. split; [done|]. constructor; [|done]. exists (next_sequence st). split; [lia|done].
  - rewrite fmap_app. apply NoDup_app. split; [done|]. split; [|apply NoDup_singleton].
    intros i (e' & -> & He')%list_elem_of_fmap. simpl. rewrite list_elem_of_singleton.
    eapply Forall_forall in Hold as (n & Hn & ->); [|done]. rewrite Hid.
    intros ?%format_id_inj. lia.
Qed.

Lemma issued_live now st :
  store_inv st →
  Forall (λ e, ∃ n, n < next_sequence st ∧ id e = format_id (process_key st) n)
         (live now (entries st)).
Proof.
  intros Hst. destruct (live_drop now (entries st)) as (k & _ & ->).
  apply Forall_drop, Hst.
Qed.

Lemma set_live_inv now st k :
  store_inv st →
  store_inv (set_entries st (drop k (live now (entries st))) (next_sequence st + 1)).
Proof.
  intros Hst. destruct (live_drop now (entries st)) as (k0 & _ & ->). rewrite drop_drop.
  apply set_entries_inv; [done|lia].
Qed.

Lemma insert_inv st root text now :
  store_inv st → next_sequence st < u64_max →
  wp (insert st root text now) (λ '(st', _),
    store_inv st' ∧ max_bytes st' = max_bytes st ∧ process_key st' = process_key st
    ∧ next_sequence st' = next_sequence st + 1).
Proof.
  intros Hst Hseq. pose proof (insert_run st root text now Hst Hseq) as Hrun. cbv zeta in Hrun.
  destruct (_ <? _).
  - rewrite Hrun. split; [|done]. by apply (set_live_inv now st 0).
  - destruct Hrun as (k & -> & Hfit & _). split; [|done].
    apply set_entries_snoc; [by apply set_live_inv|done..|].
    by apply Forall_drop, issued_live.
Qed.

Lemma get_run st wanted root now :
  store_inv st →
  get st wanted root now
  = Done (set_entries st (live now (entries st)) (next_sequence st),
          json <$> List.find (λ e, bool_decide (id e = wanted) && bool_decide (project_root e = root))
                             (live now (entries st))).
Proof.
  intros Hst. unfold get. destruct (expire_live now st Hst) as (k & -> & <-). done.
Qed.

Lemma insert_Done_seq st root text now r :
  store_inv st → insert st root text now = Done r → next_sequence st < u64_max.
Proof.
  intros Hst Hins. destruct (decide (next_sequence st < u64_max)); [done|].
  unfold insert in Hins. destruct (expire_live now st Hst) as (k & Hexp & _).
  rewrite Hexp in Hins. unfold next_id, checked_add in Hins. simpl in Hins.
  destruct (decide _) as [H|]; [|done]. unfold u64_max, usize_max in *. lia.
Qed.

(** The queue a history describes, oldest first. *)
Definition stored_of (x : str * path * str * N) : StoredResult :=
  let '(i, r, j, t) := x in
  {| id := i; project_root := r; json := j; stored_at := t;
     stored_retained_bytes := retained_size i r j |}.
Definition entries_of (h : history) : list StoredResult := stored_of <$> reverse h.

Record trace_inv (limit key : N) (st : ResultStore) (h : history) (last : N) : Prop := {
  trace_store : store_inv st;
  trace_limit : max_bytes st = limit;
  trace_key : process_key st = key;
  trace_suffix : ∃ k, entries st = drop k (entries_of h);
  trace_times : StronglySorted (λ x y, y.2 ≤ x.2) h;
  trace_last : Forall (λ x, x.2 ≤ last) h;
  trace_issued : Forall (λ x, ∃ n, n < next_sequence st ∧ x.1.1.1 = format_id key n) h;
  trace_distinct : NoDup ((λ x, x.1.1.1) <$> h);
}.

Lemma trace_drop limit key st h last now k next :
  trace_inv limit key st h last → last ≤ now → next_sequence st ≤ next →
  trace_inv limit key (set_entries st (drop k (entries st)) next) h now.
Proof.
  intros [? ? ? [k0 Hk] ? Hlast Hiss ?] Hle Hn. split; simpl; try done.
  - by apply set_entries_inv.
  - exists (k0 + k)%nat. by rewrite Hk, drop_drop.
  - eapply Forall_impl; [exact Hlast|]. simpl. lia.
  - eapply Forall_impl; [exact Hiss|]. simpl. intros x (n & ? & ?). exists n. split; [lia|done].
Qed.

Lemma trace_snoc limit key st h last now root text k :
  trace_inv limit key st h last → last ≤ now → next_sequence st < u64_max →
  let new_id := format_id (process_key st) (next_sequence st) in
  fits (max_bytes st) (retained_size new_id root text) (drop k (live now (entries st))) →
  trace_inv limit key
    (set_entries st (drop k (live now (entries st)) ++ [stored_of (new_id, root, text, now)])
                 (next_sequence st + 1))
    ((new_id, root, text, now) :: h) now.
Proof.
  intros [Hst Hlim Hkey [k0 Hk] Htimes Hlast Hiss Hdist] Hle Hseq new_id Hfit.
  split.
  - apply set_entries_snoc; [by apply set_live_inv|exact Hfit|reflexivity|reflexivity|].
    by apply Forall_drop, issued_live.
  - exact Hlim.
  - exact Hkey.
  - destruct (live_drop now (entries st)) as (k1 & Hk1 & ->). rewrite Hk in *.
    rewrite !drop_drop. unfold entries_of. rewrite reverse_cons, fmap_app. cbn [entries set_entries].
    destruct (decide (k0 + (k1 + k) ≤ length (entries_of h))%nat).
    + exists (k0 + (k1 + k))%nat. by rewrite drop_app_le.
    + exists (length (entries_of h)). rewrite drop_app_le by done.
      rewrite drop_all, drop_ge by (unfold entries_of in *; lia). done.
  - constructor; [exact Htimes|]. eapply Forall_impl; [exact Hlast|]. simpl. lia.
  - constructor; [simpl; lia|]. eapply Forall_impl; [exact Hlast|]. simpl. lia.
  - constructor; [exists (next_sequence st); simpl; subst; split; [lia|done]|].
    eapply Forall_impl; [exact Hiss|]. simpl. intros x (n & ? & ?). exists n. split; [lia|done].
  - apply NoDup_cons. split; [|done]. intros ([[[i r] j] t] & Hi & Hin)%list_elem_of_fmap.
    eapply Forall_forall in Hiss as (n & Hn & Hf); [|done]. simpl in *. subst.
    apply format_id_inj in Hf. lia.
Qed.

Lemma reachable_inv limit key st h last :
  reachable limit key st h last → trace_inv limit key st h last.
Proof.
  intros Hr. induction Hr as [now Hl|st h last now root text st' new_id Hr IH Hle Hins
    |st h last now root text st' e Hr IH Hle Hins|st h last now wanted root st' r Hr IH Hle Hget].
  - split; simpl; try done; try constructor; simpl; try done; try lia; try (by constructor).
    by exists 0%nat.
  - pose proof (trace_store _ _ _ _ _ IH) as Hst.
    pose proof (insert_Done_seq _ _ _ _ _ Hst Hins) as Hseq.
    pose proof (insert_run st root text now Hst Hseq) as Hrun. cbv zeta in Hrun.
    destruct (_ <? _); [rewrite Hrun in Hins; simplify_eq|].
    destruct Hrun as (k & Hrun & Hfit & _). rewrite Hrun in Hins. simplify_eq.
    by eapply trace_snoc.
  - pose proof (trace_store _ _ _ _ _ IH) as Hst.
    pose proof (insert_Done_seq _ _ _ _ _ Hst Hins) as Hseq.
    pose proof (insert_run st root text now Hst Hseq) as Hrun. cbv zeta in Hrun.
    destruct (_ <? _); [|destruct Hrun as (k & Hrun & _); rewrite Hrun in Hins; simplify_eq].
    rewrite Hrun in Hins. simplify_eq. destruct (live_drop now (entries st)) as (k & _ & ->).
    eapply trace_drop; [done..|lia].
  - pose proof (trace_store _ _ _ _ _ IH) as Hst. rewrite (get_run st wanted root now Hst) in Hget.
    simplify_eq. destruct (live_drop now (entries st)) as (k & _ & ->).
    eapply trace_drop; [done..|lia].
Qed.

Lemma live_fresh now es :
  StronglySorted (λ a b, stored_at a ≤ stored_at b) es →
  Forall (λ e, now - stored_at e < STORED_RESULT_TTL) (live now es).
Proof.
  induction 1 as [|e es Hs IH He]; simpl; [done|].
  destruct (is_expired now e) eqn:E; [done|].
  unfold is_expired, saturating_sub in E. apply N.leb_gt in E.
  constructor; [done|]. eapply Forall_impl; [exact He|]. simpl. lia.
Qed.

Lemma live_incl now es e : e ∈ live now es → e ∈ es.
Proof.
  destruct (live_drop now es) as (k & _ & ->). apply elem_of_drop_inv.
Qed.

(** A result that has not expired stays behind the expired prefix. *)
Lemma live_keeps now es e : is_expired now e = false → ∃ es', live now (es ++ [e]) = es' ++ [e] ∧ es' ⊆ es.
Proof.
  intros He. induction es as [|e' es (es' & IH & Hsub)]; simpl; [rewrite He; by exists []|].
  destruct (is_expired now e'); [exists es'; split; [done|set_solver]|by exists (e' :: es)].
Qed.

Lemma sorted_history h :
  StronglySorted (λ x y : str * path * str * N, y.2 ≤ x.2) h →
  StronglySorted (λ a b, stored_at a ≤ stored_at b) (entries_of h).
Proof.
  unfold entries_of. induction 1 as [|x h Hs IH Hx]; [constructor|].
  rewrite reverse_cons, fmap_app. simpl.
  assert (Forall (λ e, stored_at e ≤ stored_at (stored_of x)) (stored_of <$> reverse h)) as Hall.
  { apply Forall_fmap, Forall_reverse. eapply Forall_impl; [exact Hx|].
    intros [[[? ?] ?] ?]. by destruct x as [[[? ?] ?] ?]. }
  clear Hx Hs. induction IH as [|e es Hs IH He]; simpl; [repeat constructor|].
  apply Forall_cons in Hall as [? ?]. constructor; [auto|]. apply Forall_app. by split; [|constructor].
Qed.

Lemma get_stored limit key st h last wanted root now :
  reachable limit key st h last → last ≤ now →
  wp (get st wanted root now) (λ '(_, found),
    ∀ text, found = Some text →
      ∃ t, (wanted, root, text, t) ∈ h ∧ now - t < STORED_RESULT_TTL).
Proof.
  intros Hr Hle. pose proof (reachable_inv _ _ _ _ _ Hr) as [Hst _ _ [k Hk] Htimes _ _ _].
  rewrite get_run by done. simpl. intros text (e & Hfind & ->)%fmap_Some.
  apply find_some in Hfind as [Hin%list_elem_of_In Hb].
  apply andb_true_iff in Hb as [<-%bool_decide_eq_true <-%bool_decide_eq_true].
  assert (now - stored_at e < STORED_RESULT_TTL) as Hfresh.
  { eapply (Forall_forall (λ e, now - stored_at e < STORED_RESULT_TTL)); [|exact Hin].
    apply live_fresh. rewrite Hk. by apply StronglySorted_drop, sorted_history. }
  apply live_incl in Hin. rewrite Hk in Hin.
  apply elem_of_drop_inv in Hin. unfold entries_of in Hin.
  apply list_elem_of_fmap in Hin as ([[[i' r'] j'] t'] & -> & Hi). rewrite elem_of_reverse in Hi.
  exists t'. split; [exact Hi|exact Hfresh].
Qed.

(** ** What users of the store rely on *)

(** The store holds a result until it expires. *)
Definition holds (st : ResultStore) (e : StoredResult) : Prop := store_inv st ∧ e ∈ entries st.

Lemma insert_holds st root text now new_id st' :
  store_inv st → insert st root text now = Done (st', inr new_id) →
  let e := {| id := new_id; project_root := root; json := text; stored_at := now;
              stored_retained_bytes := retained_size new_id root text |} in
  holds st' e ∧ new_id = format_id (process_key st) (next_sequence st)
  ∧ next_sequence st < u64_max ∧ blen text ≤ max_bytes st.
Proof.
  intros Hst Hins. pose proof (insert_Done_seq _ _ _ _ _ Hst Hins) as Hseq.
  pose proof (insert_inv st root text now Hst Hseq) as Hinv.
  rewrite Hins in Hinv. destruct Hinv as [Hst' _].
  pose proof (insert_run st root text now Hst Hseq) as Hrun. cbv zeta in Hrun.
  destruct (N.ltb_spec (max_bytes st)
              (retained_size (format_id (process_key st) (next_sequence st)) root text)) as [|Hle].
  - rewrite Hrun in Hins. simplify_eq.
  - destruct Hrun as (k & Hrun & _). rewrite Hrun in Hins. injection Hins as <- <-.
    split_and!; [split; [done|]|done|done|unfold retained_size in Hle; lia].
    apply elem_of_app. right. by left.
Qed.

Lemma live_elem now es e : e ∈ es → is_expired now e = false → e ∈ live now es.
Proof.
  intros Hin He. induction es as [|e' es IH]; [done|]. simpl. destruct (is_expired now e') eqn:E; [|done].
  apply elem_of_cons in Hin as [->|Hin]; [congruence|by apply IH].
Qed.

Lemma get_held st e now :
  holds st e → now < stored_at e + STORED_RESULT_TTL →
  ∃ st', get st (id e) (project_root e) now = Done (st', Some (json e)) ∧ holds st' e.
Proof.
  intros [Hst Hin] Hnow. eexists. rewrite get_run by done.
  assert (e ∈ live now (entries st)) as Hlive.
  { apply live_elem; [done|]. unfold is_expired, saturating_sub, STORED_RESULT_TTL in *. apply N.leb_gt. lia. }
  assert (store_inv (set_entries st (live now (entries st)) (next_sequence st))) as Hst'.
  { destruct (live_drop now (entries st)) as (k & _ & ->). by apply set_entries_inv. }
  split; [|done]. do 2 f_equal.
  destruct (List.find _ _) as [e'|] eqn:Hfind.
  - apply find_some in Hfind as [Hin'%list_elem_of_In Hb].
    apply andb_true_iff in Hb as [Hid%bool_decide_eq_true _].
    assert (e' = e) as ->; [|done].
    pose proof (inv_distinct _ Hst') as Hd. cbn [entries set_entries] in Hd.
    apply list_elem_of_lookup in Hin' as [i Hi]. apply list_elem_of_lookup in Hlive as [j Hj].
    assert (i = j) as ->; [|congruence].
    eapply (NoDup_lookup _ i j (id e) Hd); rewrite list_lookup_fmap; [rewrite Hi|rewrite Hj]; simpl; congruence.
  - exfalso. eapply find_none in Hfind; [|by apply list_elem_of_In].
    cbv beta in Hfind. by rewrite !bool_decide_true in Hfind by done.
Qed.

(** ** Properties *)

(** Every result a store of any reachable state hands out was stored under exactly that
    identifier for exactly that project with exactly that text, less than the time to live ago;
    the lookup itself never panics and never loops. *)
Theorem get_sound limit key st h last wanted root now :
  reachable limit key st h last → last ≤ now →
  wp (get st wanted root now) (λ '(_, found),
    ∀ text, found = Some text →
      ∃ t, (wanted, root, text, t) ∈ h ∧ now - t < STORED_RESULT_TTL).
Proof. apply get_stored. Qed.

(** No two results ever stored by one store share an identifier, so an identifier is bound
    to one project: asked for any other project the store answers nothing. *)
Theorem get_other_project limit key st h last new_id root root' text t now :
  reachable limit key st h last → last ≤ now →
  (new_id, root, text, t) ∈ h → root' ≠ root →
  wp (get st new_id root' now) (λ '(_, found), found = None).
Proof.
  intros Hr Hle Hin Hne. pose proof (get_stored _ _ _ _ _ new_id root' now Hr Hle) as Hget.
  eapply wp_mono; [exact Hget|]. intros [st' [text'|]] Hf; [|done]. exfalso.
  destruct (Hf text' eq_refl) as (t' & Hin' & _).
  pose proof (trace_distinct _ _ _ _ _ (reachable_inv _ _ _ _ _ Hr)) as Hd.
  apply list_elem_of_lookup in Hin as (i & Hi). apply list_elem_of_lookup in Hin' as (j & Hj).
  assert (i = j) as ->.
  { apply (NoDup_lookup _ i j new_id Hd).
    - by rewrite list_lookup_fmap, Hi.
    - by rewrite list_lookup_fmap, Hj. }
  congruence.
Qed.

(** A reachable store stays within both budgets, its byte counter is exactly the sum over
    the retained results, and storing one more keeps all of this without panicking or looping. *)
Theorem insert_bounded limit key st h last root text now :
  reachable limit key st h last → last ≤ now → next_sequence st < u64_max →
  wp (insert st root text now) (λ '(st', _),
    (length (entries st') ≤ MAX_STORED_RESULTS)%nat
    ∧ retained_bytes st' ≤ limit
    ∧ retained_bytes st'
      = foldr (λ e n, retained_size (id e) (project_root e) (json e) + n) 0 (entries st')).
Proof.
  intros Hr Hle Hseq. pose proof (reachable_inv _ _ _ _ _ Hr) as [Hst Hlim _ _ _ _ _ _].
  eapply wp_mono; [by apply (insert_inv st root text now)|]. intros [st' r] ([] & Hmax & _).
  split; [done|]. split; [lia|]. rewrite inv_total0. clear -inv_sizes0.
  induction inv_sizes0 as [|e es He Hes IH]; simpl; [done|]. by rewrite IH, He.
Qed.

(** Storing a result that fits the byte budget drops the expired results and then the
    fewest oldest ones that make room, and appends the new result; a result that does not fit
    is rejected and drops nothing but expired results. *)
Theorem insert_evicts_oldest st root text now :
  store_inv st → next_sequence st < u64_max →
  wp (insert st root text now) (λ '(st', r),
    let new_id := format_id (process_key st) (next_sequence st) in
    let bytes := retained_size new_id root text in
    match r with
    | inl rejected =>
        max_bytes st < bytes ∧ entries st' = live now (entries st)
        ∧ rejected = {| too_large_retained_bytes := bytes; too_large_limit := max_bytes st |}
    | inr issued =>
        issued = new_id ∧ bytes ≤ max_bytes st ∧
        ∃ k, entries st' = drop k (live now (entries st))
                           ++ [{| id := new_id; project_root := root; json := text;
                                  stored_at := now; stored_retained_bytes := bytes |}]
             ∧ fits (max_bytes st) bytes (drop k (live now (entries st)))
             ∧ ∀ j, (j < k)%nat → ¬ fits (max_bytes st) bytes (drop j (live now (entries st)))
    end).
Proof.
  intros Hst Hseq. pose proof (insert_run st root text now Hst Hseq) as Hrun. cbv zeta in Hrun.
  destruct (N.ltb_spec (max_bytes st)
              (retained_size (format_id (process_key st) (next_sequence st)) root text)).
  - by rewrite Hrun.
  - destruct Hrun as (k & -> & ? & ?). simpl. split; [done|]. split; [done|]. by exists k.
Qed.

(** Round trip: a stored result is returned to its project until it expires, as long as
    nothing else is stored. *)
Theorem insert_then_get st root text now new_id st' later :
  store_inv st → insert st root text now = Done (st', inr new_id) →
  later < now + STORED_RESULT_TTL →
  wp (get st' new_id root later) (λ '(_, found), found = Some text).
Proof.
  intros Hst Hins Hlater. destruct (insert_holds _ _ _ _ _ _ Hst Hins) as [Hheld _].
  destruct (get_held _ _ later Hheld Hlater) as (st2 & Hget & _).
  cbn [id project_root json] in Hget. by rewrite Hget.
Qed.

(** ** Witnesses *)

Definition demo_empty : ResultStore := with_process_key 1000 7.
Definition demo_id : str := format_id 7 0.
Definition demo_root : path := [lit "srv"; lit "app"].
Definition demo_full : ResultStore :=
  {| entries := [stored_of (demo_id, demo_root, lit "{}", 5)];
     max_bytes := 1000; retained_bytes := 28; process_key := 7; next_sequence := 1 |}.

Lemma demo_insert : insert demo_empty demo_root (lit "{}") 5 = Done (demo_full, inr demo_id).
Proof. vm_compute. reflexivity. Qed.

Lemma demo_reachable :
  reachable 1000 7 demo_full [(demo_id, demo_root, lit "{}", 5)] 5.
Proof.
  eapply reach_insert; [apply (reach_new 1000 7 0); done|done|apply demo_insert].
Qed.

Lemma get_sound_witness :
  (get demo_full demo_id demo_root 6 = Done (demo_full, Some (lit "{}")))
  ∧ wp (get demo_full demo_id demo_root 6) (λ '(_, found),
      ∀ text, found = Some text →
        ∃ t, (demo_id, demo_root, text, t) ∈ [(demo_id, demo_root, lit "{}", 5)]
             ∧ 6 - t < STORED_RESULT_TTL).
Proof.
  split; [vm_compute; reflexivity|].
  apply (get_sound 1000 7 demo_full _ 5); [exact demo_reachable|lia].
Defined.

Lemma get_other_project_witness :
  wp (get demo_full demo_id [lit "srv"] 6) (λ '(_, found), found = None).
Proof.
  apply (get_other_project 1000 7 demo_full [(demo_id, demo_root, lit "{}", 5)] 5
           demo_id demo_root [lit "srv"] (lit "{}") 5).
  - exact demo_reachable.
  - lia.
  - by left.
  - discriminate.
Defined.

Lemma insert_bounded_witness :
  wp (insert demo_full demo_root (lit "[1]") 9) (λ '(st', _),
    (length (entries st') ≤ MAX_STORED_RESULTS)%nat
    ∧ retained_bytes st' ≤ 1000
    ∧ retained_bytes st'
      = foldr (λ e n, retained_size (id e) (project_root e) (json e) + n) 0 (entries st')).
Proof.
  apply (insert_bounded 1000 7 demo_full [(demo_id, demo_root, lit "{}", 5)] 5);
    [exact demo_reachable|lia|reflexivity].
Defined.

Lemma insert_evicts_oldest_witness :
  store_inv demo_full ∧ next_sequence demo_full < u64_max ∧
  wp (insert demo_full demo_root (replicate 980 48) 9) (λ '(st', r),
    match r with inl _ => entries st' = live 9 (entries demo_full) | inr _ => False end).
Proof.
  pose proof (trace_store _ _ _ _ _ (reachable_inv _ _ _ _ _ demo_reachable)) as Hst.
  split; [exact Hst|]. split; [reflexivity|].
  eapply wp_mono;
    [exact (insert_evicts_oldest demo_full demo_root (replicate 980 48) 9 Hst eq_refl)|].
  intros [st' [r|r]]; [by intros (_ & ? & _)|]. intros (_ & Hle & _). vm_compute in Hle. by apply Hle.
Defined.

Lemma insert_then_get_witness :
  wp (get demo_full demo_id demo_root 300) (λ '(_, found), found = Some (lit "{}")).
Proof.
  apply (insert_then_get demo_empty demo_root (lit "{}") 5).
  - exact (trace_store 1000 7 demo_empty [] 0
             (reachable_inv 1000 7 demo_empty [] 0 (reach_new 1000 7 0 eq_refl))).
  - exact demo_insert.
  - reflexivity.
Defined.
