(* ===== verification/ResponseLimit.v ===== *)
(** * ResponseLimit: the size boundary of every tool result

    Models [src/server/response_limit.rs], and from [src/server.rs] the two places that use it:
    [bound_response], which stores a result that is too large and returns a marker instead, and
    [read_tool_result_page], which returns a stored result page by page.

    [serde_json] and [rmcp] are the class [Serde]; what the code relies on is the class
    [SerdeLaws].  Byte counts are checked, as in the overflow-checked build. *)

From S2P Require Import Prelude.
From S2P Require Import Text.
From S2P Require Import Paths.
From S2P Require ResultStore.

Open Scope N_scope.

(** ** JSON values *)

(** What a derived [Serialize] hands to the serializer. *)
Inductive Json :=
| JNull
| JBool (b : bool)
| JNumber (n : N)
| JString (s : str)
| JArray (l : list Json)
| JObject (l : list (str * Json)).

(** The escapes of a JSON string. *)
Definition escape (c : char) : str :=
  if (c =? 34) || (c =? 92) then [92; c]
  else if c =? 8 then lit "\b"
  else if c =? 12 then lit "\f"
  else if c =? 10 then lit "\n"
  else if c =? 13 then lit "\r"
  else if c =? 9 then lit "\t"
  else if c <? 32 then lit "\u" ++ pad_zero 4 (to_hex c)
  else [c].
Definition escaped (s : str) : str := s ≫= escape.
Definition quoted (s : str) : str := [34] ++ escaped s ++ [34].

(** The compact text of a value. *)
Fixpoint compact (v : Json) : str :=
  match v with
  | JNull => lit "null"
  | JBool b => if b then lit "true" else lit "false"
  | JNumber n => to_dec n
  | JString s => quoted s
  | JArray l => lit "[" ++ join (lit ",") (compact <$> l) ++ lit "]"
  | JObject l =>
      lit "{" ++ join (lit ",") ((λ '(k, v), quoted k ++ lit ":" ++ compact v) <$> l) ++ lit "}"
  end.

(** ** The libraries *)

Class Serde := {
  (** The sizes of the buffers the serializer writes for a value, and its own failure. *)
  chunks : Json → list N;
  failure : Json → option str;
  (** [Value::to_string]. *)
  to_text : Json → str;
  (** What [CallToolResult::structured] serializes to. *)
  structured : Json → Json;
}.

(** Plain data serializes, to compact JSON.  A structured tool result carries the value, and the
    text of the value once more as a JSON string, in a wrapper of constant size.  The members of
    an object may come in another order. *)
Class SerdeLaws `{Serde} := {
  serializes v : failure v = None;
  written v : sum (chunks v) = blen (compact v);
  to_text_compact v : to_text v ≡ₚ compact v;
  wrapper : N;
  written_structured v : sum (chunks (structured v))
    = wrapper + blen (compact v) + blen (quoted (to_text v));
}.

(** ** Errors and data *)

Inductive ErrorCode := InvalidParams | InternalError.
Record ErrorData := { code : ErrorCode; message : str }.
Definition invalid_params (m : str) : ErrorData := {| code := InvalidParams; message := m |}.
Definition internal_error (m : str) : ErrorData := {| code := InternalError; message := m |}.

Record CallToolResult := {
  serialized : Json;
  structured_content : option Json;
}.
Definition structured_call `{Serde} (v : Json) : CallToolResult :=
  {| serialized := structured v; structured_content := Some v |}.

Definition serialization_error (error : str) : ErrorData :=
  internal_error (lit "failed to serialize structured content: " ++ error).
Definition result_too_large (limit : N) : ErrorData :=
  internal_error (lit "the tool result exceeds MAX_MCP_RESULT_CACHE_BYTES (" ++ to_dec limit
    ++ lit " bytes), so it can be neither returned nor stored for read_tool_result_page; narrow the request, for example with a smaller limit or a selected jar").
Definition unavailable_result : ErrorData :=
  invalid_params (lit "result_id is unknown, expired, evicted, or belongs to another project; repeat the original tool call").
Definition invalid_cursor : ErrorData :=
  invalid_params (lit "cursor is not a next_cursor returned for this result_id; omit it to read the first page").

Definition READ_PAGE_TOOL : str := lit "read_tool_result_page".
Definition WIDEST_FRAGMENT_CHARACTER : char := 0x10FFFF.
Definition DEFERRED_INSTRUCTION : str := lit "This tool result is larger than one MCP response may be (MAX_MCP_RESPONSE_BYTES), so it was stored in this server process instead of being returned. Call read_tool_result_page with the same project_path and this result_id and no cursor, then call it again with each returned next_cursor until complete is true. Concatenating every fragment in order yields the original structured JSON of this tool exactly. The result_id is valid only in this server process and expires 300 seconds after this response; older results may be evicted earlier.".

Record DeferredResult := {
  result_id : str;
  tool : str;
  deferred_total_bytes : N;
  read_with : str;
  expires_in_seconds : N;
  instruction : str;
}.

Definition deferred_marker (tool result_id : str) (total_bytes : N) : DeferredResult := {|
  result_id := result_id;
  tool := tool;
  deferred_total_bytes := total_bytes;
  read_with := READ_PAGE_TOOL;
  expires_in_seconds := ResultStore.STORED_RESULT_TTL / 1000000000;
  instruction := DEFERRED_INSTRUCTION;
|}.

Record ToolResultPage := {
  offset : N;
  fragment : str;
  next_cursor : option str;
  complete : bool;
  total_bytes : N;
}.

(** The derived [Serialize] of [DeferredResultMarker] and of [ToolResultPage]. *)
Definition marker_json (m : DeferredResult) : Json :=
  JObject [(lit "deferred_result", JObject [
    (lit "result_id", JString (result_id m));
    (lit "tool", JString (tool m));
    (lit "total_bytes", JNumber (deferred_total_bytes m));
    (lit "read_with", JString (read_with m));
    (lit "expires_in_seconds", JNumber (expires_in_seconds m));
    (lit "instruction", JString (instruction m))])].

Definition page_json (p : ToolResultPage) : Json :=
  JObject [
    (lit "offset", JNumber (offset p));
    (lit "fragment", JString (fragment p));
    (lit "next_cursor", match next_cursor p with Some c => JString c | None => JNull end);
    (lit "complete", JBool (complete p));
    (lit "total_bytes", JNumber (total_bytes p))].

Inductive PageError := LimitTooSmall.

(** ** Counting *)

Record ByteCounter := { counted : N; counter_limit : N }.

(** [write]: the counter afterwards, and whether the buffer was accepted. *)
Definition write (buf : N) (c : ByteCounter) : bool * ByteCounter :=
  let c := {| counted := saturating_add (counted c) buf; counter_limit := counter_limit c |} in
  (negb (counter_limit c <? counted c), c).

(** [to_writer]: the serializer stops at the first refused buffer. *)
Fixpoint write_all (bufs : list N) (c : ByteCounter) : bool * ByteCounter :=
  match bufs with
  | [] => (true, c)
  | buf :: bufs =>
      let '(accepted, c) := write buf c in
      if accepted : bool then write_all bufs c else (false, c)
  end.

Section Limit.
Context `{Serde}.

Definition serialized_len_within (v : Json) (limit : N) : ErrorData + option N :=
  let '(accepted, counter) := write_all (chunks v) {| counted := 0; counter_limit := limit |} in
  match accepted, failure v with
  | true, None => inr (Some (counted counter))
  | false, _ => inr None
  | true, Some error => inl (serialization_error error)
  end.

Definition structured_result (v : Json) (limit : N) : ErrorData + CallToolResult :=
  match serialized_len_within v limit with
  | inl error => inl error
  | inr None => inl (result_too_large limit)
  | inr (Some _) =>
      match failure v with
      | Some error => inl (serialization_error error)
      | None => inr (structured_call v)
      end
  end.

Definition fits_response (result : CallToolResult) (limit : N) : ErrorData + bool :=
  match serialized_len_within (serialized result) limit with
  | inl error => inl error
  | inr len => inr (is_some len)
  end.

(** [serde_json::to_vec(..).len()] *)
Definition written_len (v : Json) : option N :=
  match failure v with Some _ => None | None => Some (sum (chunks v)) end.

Definition page_response_len (p : ToolResultPage) : PageError + N :=
  match structured_result (page_json p) usize_max with
  | inl _ => inl LimitTooSmall
  | inr result =>
      match written_len (serialized result) with
      | Some len => inr len
      | None => inl LimitTooSmall
      end
  end.

Definition serialized_response_len (v : Json) : option N :=
  match failure v with
  | Some _ => None
  | None => written_len (serialized (structured_call v))
  end.

(** ** Pages *)

Definition encode_cursor (result_id : str) (offset : N) : str :=
  result_id ++ lit "." ++ to_dec offset.

Definition is_char_boundary (s : str) (n : N) : bool := is_some (byte_drop n s).

Definition decode_cursor (result_id cursor json : str) : option N :=
  rest ← strip_prefix result_id cursor;
  rest ← strip_prefix (lit ".") rest;
  offset ← parse_usize rest;
  let canonical := bool_decide (encode_cursor result_id offset = cursor) in
  if canonical && (offset <? blen json) && is_char_boundary json offset then Some offset else None.

(** Bytes one fragment character adds to the tool result. *)
Definition response_cost (c : char) : N :=
  if (c =? 34) || (c =? 92) then 2 + 4
  else if (c =? 8) || (c =? 12) || (c =? 10) || (c =? 13) || (c =? 9) then 2 + 3
  else if c <? 32 then 6 + 7
  else 2 * len_utf8 c.

Definition page (json : str) (offset end_ : N) (result_id : str) : exec ToolResultPage :=
  let complete := end_ =? blen json in
  fragment ← or_panic (byte_slice offset end_ json);
  Done {| offset := offset;
          fragment := fragment;
          next_cursor := if complete then None else Some (encode_cursor result_id end_);
          complete := complete;
          total_bytes := blen json |}.

(** [(0..end).rev().find(..)], from [n] downwards. *)
Fixpoint previous_boundary_below (json : str) (n : nat) : N :=
  match n with
  | O => 0
  | S n =>
      if is_char_boundary json (N.of_nat n) then N.of_nat n else previous_boundary_below json n
  end.
Definition previous_boundary (json : str) (end_ : N) : N :=
  previous_boundary_below json (N.to_nat end_).

(** The [for] loop of [fit_page] over the remaining characters. *)
Fixpoint fit_end (budget : N) (characters : str) (end_ cost : N) : exec N :=
  match characters with
  | [] => Done end_
  | character :: characters =>
      next ← or_panic (checked_add cost (response_cost character));
      if budget <? next then Done end_
      else
        end_ ← or_panic (checked_add end_ (len_utf8 character));
        fit_end budget characters end_ next
  end.

(** The final [loop] of [fit_page]. *)
Definition shrink (json : str) (offset : N) (result_id : str) (limit end_ : N)
    : exec (PageError + ToolResultPage) :=
  loop (S (N.to_nat end_)) (λ end_,
    if end_ =? offset then Done (Break (inl LimitTooSmall))
    else
      p ← page json offset end_ result_id;
      match page_response_len p with
      | inl error => Done (Break (inl error))
      | inr len =>
          if len <=? limit then Done (Break (inr p))
          else Done (Continue (previous_boundary json end_))
      end) end_.

Definition skeleton (json : str) (offset : N) (result_id : str) : ToolResultPage := {|
  offset := offset;
  fragment := [];
  next_cursor := Some (encode_cursor result_id (blen json));
  complete := false;
  total_bytes := blen json;
|}.

Definition fit_page (json : str) (offset : N) (result_id : str) (limit : N)
    : exec (PageError + ToolResultPage) :=
  match page_response_len (skeleton json offset result_id) with
  | inl error => Done (inl error)
  | inr skeleton_len =>
      match checked_sub limit skeleton_len with
      | None => Done (inl LimitTooSmall)
      | Some budget =>
          rest ← or_panic (byte_drop offset json);
          end_ ← fit_end budget rest offset 0;
          shrink json offset result_id limit end_
      end
  end.

(** ** Startup validation *)

Inductive ConfigError :=
| Unserializable
| MarkerTooLarge (max_response_bytes marker_bytes : N)
| PageTooLarge (max_response_bytes page_bytes : N).

Definition largest_marker (max_result_bytes : N) (longest_tool_name : nat) : DeferredResult :=
  deferred_marker (replicate longest_tool_name (ch "t")) ResultStore.longest_result_id
    max_result_bytes.

Definition one_character_page (max_result_bytes : N) : ToolResultPage := {|
  offset := max_result_bytes;
  next_cursor := Some (encode_cursor ResultStore.longest_result_id max_result_bytes);
  fragment := [WIDEST_FRAGMENT_CHARACTER];
  complete := false;
  total_bytes := max_result_bytes;
|}.

Definition validate_response_limit (max_response_bytes max_result_bytes : N)
    (longest_tool_name : nat) : ConfigError + unit :=
  match serialized_response_len (marker_json (largest_marker max_result_bytes longest_tool_name)) with
  | None => inl Unserializable
  | Some marker_bytes =>
      if max_response_bytes <? marker_bytes then
        inl (MarkerTooLarge max_response_bytes marker_bytes)
      else
        match serialized_response_len (page_json (one_character_page max_result_bytes)) with
        | None => inl Unserializable
        | Some page_bytes =>
            if max_response_bytes <? page_bytes then
              inl (PageTooLarge max_response_bytes page_bytes)
            else inr tt
        end
  end.

(** ** The two users in the server *)

(** [bound_response] of a complete response; [trusted_root] is [trusted_project_root] of the
    call's project path. *)
Definition bound_response (tool_name : str) (trusted_root : ErrorData + path) (limit now : N)
    (result : CallToolResult) (store : ResultStore.ResultStore)
    : exec (ResultStore.ResultStore * (ErrorData + CallToolResult)) :=
  if bool_decide (tool_name = READ_PAGE_TOOL) then Done (store, inr result)
  else
    match fits_response result limit with
    | inl error => Done (store, inl error)
    | inr true => Done (store, inr result)
    | inr false =>
        match structured_content result with
        | None =>
            Done (store, inl (internal_error (lit "the tool result exceeds MAX_MCP_RESPONSE_BYTES ("
                                              ++ to_dec limit ++ lit " bytes)")))
        | Some value =>
            let json := to_text value in
            match trusted_root with
            | inl error => Done (store, inl error)
            | inr root =>
                '(store, inserted) ← ResultStore.insert store root json now;
                match inserted with
                | inl too_large =>
                    Done (store, inl (result_too_large (ResultStore.too_large_limit too_large)))
                | inr id =>
                    let marker := deferred_marker tool_name id (blen json) in
                    Done (store, structured_result (marker_json marker) usize_max)
                end
            end
        end
    end.

(** [read_tool_result_page] after the project was resolved. *)
Definition read_tool_result_page (root : path) (id : str) (cursor : option str) (limit now : N)
    (store : ResultStore.ResultStore)
    : exec (ResultStore.ResultStore * (ErrorData + ToolResultPage)) :=
  '(store, found) ← ResultStore.get store id root now;
  match found with
  | None => Done (store, inl unavailable_result)
  | Some json =>
      let offset := match cursor with
                    | None => Some 0
                    | Some cursor => decode_cursor id cursor json
                    end in
      match offset with
      | None => Done (store, inl invalid_cursor)
      | Some offset =>
          fitted ← fit_page json offset id limit;
          Done (store, match fitted with
                       | inr p => inr p
                       | inl _ =>
                           inl (internal_error (lit "MAX_MCP_RESPONSE_BYTES is too small for a result page"))
                       end)
      end
  end.

(** A client that follows [next_cursor] until [complete]; the k-th request is made at [times k].
    Every page has a character, so the stored text's length bounds the requests. *)
Fixpoint read_pages (fuel : nat) (root : path) (id : str) (cursor : option str) (limit : N)
    (times : nat → N) (store : ResultStore.ResultStore) : exec (ErrorData + list ToolResultPage) :=
  match fuel with
  | O => Stuck
  | S fuel =>
      '(store, response) ← read_tool_result_page root id cursor limit (times fuel) store;
      match response with
      | inl error => Done (inl error)
      | inr p =>
          if complete p then Done (inr [p])
          else
            rest ← read_pages fuel root id (next_cursor p) limit times store;
            Done (match rest with inl error => inl error | inr pages => inr (p :: pages) end)
      end
  end.
End Limit.

(** ** Lemmas: costs of texts *)

(** What a text costs a tool result: itself in the structured JSON, and escaped in [content]. *)
Definition text_cost (s : str) : N := blen s + blen (escaped s).
Definition fragment_cost (s : str) : N := sum (response_cost <$> s).

Lemma escaped_app s t : escaped (s ++ t) = escaped s ++ escaped t.
Proof. apply bind_app. Qed.

Lemma text_cost_app s t : text_cost (s ++ t) = text_cost s + text_cost t.
Proof. unfold text_cost. rewrite escaped_app, !blen_app. lia. Qed.

Lemma fragment_cost_app s t : fragment_cost (s ++ t) = fragment_cost s + fragment_cost t.
Proof. unfold fragment_cost. by rewrite fmap_app, sum_app. Qed.

Lemma fragment_cost_cons c s : fragment_cost (c :: s) = response_cost c + fragment_cost s.
Proof. done. Qed.

Lemma blen_perm (s t : str) : s ≡ₚ t → blen s = blen t.
Proof. induction 1; simpl; lia. Qed.

Lemma escaped_blen_perm s t : s ≡ₚ t → blen (escaped s) = blen (escaped t).
Proof. intros Hst. apply blen_perm. unfold escaped. by apply bind_Permutation. Qed.

(** The characters below 32 all get a four-digit escape or a short one. *)
Lemma control_cost :
  forallb (λ c, text_cost (escape c) =? response_cost c) (N.of_nat <$> seq 0 32) = true.
Proof. vm_compute. reflexivity. Qed.

Lemma response_cost_escape c : response_cost c = text_cost (escape c).
Proof.
  destruct (N.ltb_spec c 32) as [Hc|Hc].
  - symmetry. apply N.eqb_eq. refine (proj1 (forallb_forall _ _) control_cost c _).
    apply list_elem_of_In, list_elem_of_fmap. exists (N.to_nat c). rewrite N2Nat.id. split; [done|].
    apply elem_of_seq. lia.
  - destruct (N.eqb_spec c 34) as [->|H34]; [done|]. destruct (N.eqb_spec c 92) as [->|H92]; [done|].
    assert (escape c = [c]) as Hesc.
    { unfold escape. repeat (rewrite (proj2 (N.eqb_neq c _)) by lia).
      by rewrite (proj2 (N.ltb_ge c 32)) by done. }
    rewrite Hesc. unfold text_cost, escaped. csimpl. rewrite Hesc.
    unfold response_cost. repeat (rewrite (proj2 (N.eqb_neq c _)) by lia).
    rewrite (proj2 (N.ltb_ge c 32)) by done. simpl. lia.
Qed.

Lemma escaped_cost s : text_cost (escaped s) = fragment_cost s.
Proof.
  induction s as [|c s IH]; [done|].
  change (escaped (c :: s)) with (escape c ++ escaped s).
  rewrite text_cost_app, IH, <- response_cost_escape. done.
Qed.

Lemma quoted_cost s : text_cost (quoted s) = 6 + fragment_cost s.
Proof. unfold quoted. rewrite !text_cost_app, escaped_cost. change (text_cost [34]) with 3. lia. Qed.


(** ** Lemmas: counting *)

Lemma write_all_within bufs n limit :
  n ≤ usize_max → n ≤ limit →
  if limit <? N.min usize_max (n + sum bufs) then
    (write_all bufs {| counted := n; counter_limit := limit |}).1 = false
  else write_all bufs {| counted := n; counter_limit := limit |}
       = (true, {| counted := N.min usize_max (n + sum bufs); counter_limit := limit |}).
Proof.
  revert n. induction bufs as [|buf bufs IH]; intros n Hn Hlimit; cbn [write_all].
  - change (sum []) with 0. rewrite N.add_0_r, N.min_r by done.
    destruct (N.ltb_spec limit n); [lia|]. done.
  - unfold write. cbn [counted counter_limit]. unfold saturating_add.
    change (sum (buf :: bufs)) with (buf + sum bufs).
    destruct (N.ltb_spec limit (N.min usize_max (n + buf))) as [Hlt|Hge]; cbn [negb].
    + destruct (N.ltb_spec limit (N.min usize_max (n + (buf + sum bufs)))); [done|lia].
    + specialize (IH (N.min usize_max (n + buf)) ltac:(lia) Hge).
      assert (N.min usize_max (N.min usize_max (n + buf) + sum bufs)
              = N.min usize_max (n + (buf + sum bufs))) as E by lia.
      by rewrite E in IH.
Qed.

Lemma serialized_len_spec `{Serde} v limit :
  serialized_len_within v limit
  = if limit <? N.min usize_max (sum (chunks v)) then inr None
    else match failure v with
         | Some error => inl (serialization_error error)
         | None => inr (Some (N.min usize_max (sum (chunks v))))
         end.
Proof.
  unfold serialized_len_within. pose proof (write_all_within (chunks v) 0 limit ltac:(lia) ltac:(lia)) as Hw.
  rewrite N.add_0_l in Hw. destruct (_ <? _).
  - destruct (write_all _ _) as [b c]. simpl in Hw. by rewrite Hw.
  - rewrite Hw. by destruct (failure v).
Qed.

Section Laws.
Context `{SerdeLaws}.

Lemma response_len v : sum (chunks (structured v)) = wrapper + 2 + text_cost (compact v).
Proof.
  rewrite written_structured. unfold quoted, text_cost. rewrite !blen_app.
  rewrite (escaped_blen_perm _ _ (to_text_compact v)). change (blen [34]) with 1. lia.
Qed.

Lemma structured_result_max v : structured_result v usize_max = inr (structured_call v).
Proof.
  unfold structured_result. rewrite serialized_len_spec.
  destruct (N.ltb_spec usize_max (N.min usize_max (sum (chunks v)))); [lia|].
  by rewrite (serializes v).
Qed.

(** The length of a page's tool result. *)
Definition page_len (p : ToolResultPage) : N := sum (chunks (structured (page_json p))).

Lemma page_response_len_eq p : page_response_len p = inr (page_len p).
Proof.
  unfold page_response_len. rewrite structured_result_max. unfold written_len, structured_call.
  cbn [serialized]. by rewrite (serializes _).
Qed.

Lemma serialized_response_len_eq v : serialized_response_len v = Some (wrapper + 2 + text_cost (compact v)).
Proof.
  unfold serialized_response_len, written_len, structured_call. cbn [serialized].
  rewrite !(serializes _), response_len. done.
Qed.

Definition key (k : string) : str := quoted (lit k) ++ lit ":".
Definition page_frame : N :=
  wrapper + 2 + text_cost (lit "{") + text_cost (key "offset") + text_cost (lit ",") * 4
  + text_cost (key "fragment") + text_cost (key "next_cursor") + text_cost (key "complete")
  + text_cost (key "total_bytes") + text_cost (lit "}").
Definition cursor_cost (cursor : option str) : N :=
  match cursor with Some c => 6 + fragment_cost c | None => 8 end.

Lemma page_len_eq p :
  page_len p = page_frame + text_cost (to_dec (offset p)) + (6 + fragment_cost (fragment p))
               + cursor_cost (next_cursor p) + (if complete p then 8 else 10)
               + text_cost (to_dec (total_bytes p)).
Proof.
  unfold page_len. rewrite response_len. unfold page_json, page_frame, key.
  cbn [compact fmap list_fmap join]. rewrite !text_cost_app, !quoted_cost.
  assert (text_cost (compact match next_cursor p with Some c => JString c | None => JNull end)
          = cursor_cost (next_cursor p)) as ->.
  { destruct (next_cursor p); [apply quoted_cost|done]. }
  assert (text_cost (if complete p then lit "true" else lit "false") = if complete p then 8 else 10) as ->.
  { by destruct (complete p). }
  lia.
Qed.
End Laws.

(** ** Lemmas: digits *)

Definition plain (c : char) : bool := (33 <=? c) && (c <? 127) && negb (c =? 34) && negb (c =? 92).

Lemma plain_cost c : plain c = true → response_cost c = 2.
Proof.
  unfold plain. rewrite !andb_true_iff, !negb_true_iff, N.leb_le, N.ltb_lt, !N.eqb_neq.
  intros [[[H1 H2] H3] H4]. unfold response_cost.
  repeat (rewrite (proj2 (N.eqb_neq c _)) by lia). cbn [orb]. rewrite (proj2 (N.ltb_ge c 32)) by lia.
  by rewrite len_utf8_ascii by lia.
Qed.

Lemma plain_escape c : plain c = true → escape c = [c].
Proof.
  unfold plain. rewrite !andb_true_iff, !negb_true_iff, N.leb_le, N.ltb_lt, !N.eqb_neq.
  intros [[[H1 H2] H3] H4]. unfold escape.
  repeat (rewrite (proj2 (N.eqb_neq c _)) by lia). cbn [orb]. by rewrite (proj2 (N.ltb_ge c 32)) by lia.
Qed.

Lemma plain_fragment_cost s : Forall (λ c, plain c = true) s → fragment_cost s = 2 * N.of_nat (length s).
Proof.
  induction 1 as [|c s Hc _ IH]; [done|]. rewrite fragment_cost_cons, IH, plain_cost by done. simpl length. lia.
Qed.

Lemma plain_text_cost s : Forall (λ c, plain c = true) s → text_cost s = fragment_cost s.
Proof.
  intros Hs. rewrite <- escaped_cost. f_equal. unfold escaped.
  induction Hs as [|c s Hc _ IH]; [done|]. csimpl. by rewrite plain_escape, <- IH.
Qed.

Lemma digit_plain c : is_ascii_digit c = true → plain c = true.
Proof.
  unfold is_ascii_digit, between, plain. rewrite !andb_true_iff, !negb_true_iff, !N.leb_le, N.ltb_lt, !N.eqb_neq. lia.
Qed.

Lemma to_dec_plain n : Forall (λ c, plain c = true) (to_dec n).
Proof. eapply Forall_impl; [apply to_dec_digits|]. apply digit_plain. Qed.

Lemma to_dec_cost n : text_cost (to_dec n) = 2 * N.of_nat (length (to_dec n))
  ∧ fragment_cost (to_dec n) = 2 * N.of_nat (length (to_dec n)).
Proof. rewrite plain_text_cost by apply to_dec_plain. by rewrite plain_fragment_cost by apply to_dec_plain. Qed.

(** ** Lemmas: fitting a page *)

Lemma is_char_boundary_spec s n : is_char_boundary s n = true ↔ boundary s n.
Proof.
  unfold is_char_boundary. rewrite is_some_true. split.
  - intros [t Ht]. apply byte_drop_inv in Ht as (p & -> & <-). by exists p, t.
  - intros (p & t & -> & <-). exists t. by rewrite byte_drop_prefix.
Qed.

Lemma previous_boundary_below_spec s k n :
  is_char_boundary s (N.of_nat k) = true → (k < n)%nat →
  is_char_boundary s (previous_boundary_below s n) = true
  ∧ N.of_nat k ≤ previous_boundary_below s n < N.of_nat n.
Proof.
  intros Hk. induction n as [|n IH]; intros Hn; [lia|]. cbn [previous_boundary_below].
  destruct (is_char_boundary s (N.of_nat n)) eqn:Hb; [split; [done|lia]|].
  destruct (decide (k = n)) as [->|]; [congruence|]. destruct IH; [lia|]. split; [done|lia].
Qed.

Lemma previous_boundary_spec s k n :
  boundary s k → k < n → boundary s (previous_boundary s n) ∧ k ≤ previous_boundary s n < n.
Proof.
  intros Hk Hn. destruct (previous_boundary_below_spec s (N.to_nat k) (N.to_nat n)) as [Hb Hr].
  - rewrite N2Nat.id. by apply is_char_boundary_spec.
  - lia.
  - rewrite !N2Nat.id in Hr. by apply is_char_boundary_spec in Hb.
Qed.

Lemma response_cost_le c : response_cost c ≤ 13.
Proof.
  unfold response_cost, len_utf8. repeat case_match; lia.
Qed.

Lemma response_cost_text c : 32 ≤ c → response_cost c ≤ 8.
Proof.
  unfold response_cost, len_utf8. destruct (N.eqb_spec c 8), (N.eqb_spec c 12), (N.eqb_spec c 10),
    (N.eqb_spec c 13), (N.eqb_spec c 9), (N.ltb_spec c 32); try lia; repeat case_match; lia.
Qed.

Lemma fit_end_spec budget rest end_ cost :
  cost ≤ budget → budget + 13 ≤ usize_max → end_ + blen rest ≤ usize_max →
  wp (fit_end budget rest end_ cost) (λ e, ∃ m t, rest = m ++ t ∧ e = end_ + blen m
    ∧ cost + fragment_cost m ≤ budget
    ∧ match t with [] => True | c :: _ => budget < cost + fragment_cost m + response_cost c end).
Proof.
  revert end_ cost. induction rest as [|c rest IH]; intros end_ cost Hcost Hbudget Hend; cbn [fit_end].
  - exists [], []. change (fragment_cost []) with 0. change (blen []) with 0. split_and!; [done|lia..|done].
  - pose proof (response_cost_le c). cbn [blen] in Hend. unfold checked_add.
    rewrite !decide_True by lia. simpl.
    destruct (N.ltb_spec budget (cost + response_cost c)) as [Hlt|Hge].
    + exists [], (c :: rest). change (fragment_cost []) with 0. change (blen []) with 0. split_and!; [done|lia..].
    + eapply wp_mono; [apply IH; lia|].
      intros e (m & t & -> & -> & Hm & Ht). exists (c :: m), t. rewrite fragment_cost_cons. cbn [blen].
      split_and!; [done|lia..|]. destruct t; [done|]. lia.
Qed.

(** The page of the piece [m] of [a ++ m ++ t]. *)
Definition page_of (id a m t : str) : ToolResultPage := {|
  offset := blen a;
  fragment := m;
  next_cursor := match t with [] => None | _ => Some (encode_cursor id (blen a + blen m)) end;
  complete := match t with [] => true | _ => false end;
  total_bytes := blen (a ++ m ++ t);
|}.

Lemma page_of_spec id a m t : page (a ++ m ++ t) (blen a) (blen a + blen m) id = Done (page_of id a m t).
Proof.
  unfold page. rewrite byte_slice_app. cbn [or_panic mbind exec_bind].
  assert ((blen a + blen m =? blen (a ++ m ++ t)) = match t with [] => true | _ => false end) as ->.
  { rewrite !blen_app. destruct t as [|c t]; [apply N.eqb_eq; simpl; lia|].
    apply N.eqb_neq. pose proof (len_utf8_pos c). simpl. lia. }
  by destruct t.
Qed.

(** The last loop ends, panics nowhere and lets no page through that is too long, whatever the
    serializer does. *)
Lemma shrink_spec `{Serde} id limit a m t :
  wp (shrink (a ++ m ++ t) (blen a) id limit (blen a + blen m)) (λ r, match r with
    | inl _ => True
    | inr p => ∃ m' t' len, m ++ t = m' ++ t' ∧ m' ≠ [] ∧ p = page_of id a m' t'
               ∧ page_response_len p = inr len ∧ len ≤ limit
    end).
Proof.
  unfold shrink. set (json := a ++ m ++ t).
  eapply (wp_loop (λ e, ∃ m' t', m ++ t = m' ++ t' ∧ e = blen a + blen m') N.to_nat).
  2: by exists m, t. 2: lia.
  intros e (m' & t' & Hmt & ->). destruct (N.eqb_spec (blen a + blen m') (blen a)); [done|].
  assert (m' ≠ []) by (intros ->; simpl in *; lia).
  assert (json = a ++ m' ++ t') as -> by (unfold json; by rewrite Hmt).
  rewrite page_of_spec. cbn [mbind exec_bind].
  destruct (page_response_len (page_of id a m' t')) as [|len] eqn:Hlen; [done|].
  destruct (N.leb_spec len limit); cbn [wp]; [by exists m', t', len|].
  destruct (previous_boundary_spec (a ++ m' ++ t') (blen a) (blen a + blen m')) as [(p & q & Hpq & Hp) Hle];
    [by exists a, (m' ++ t')|lia|].
  rewrite <- Hp in Hle |- *. split; [|lia].
  destruct (app_split_le a (m' ++ t') p q Hpq) as (r & -> & Hr); [lia|].
  exists r, q. rewrite blen_app. split; [congruence|done].
Qed.

Section Fit.
Context `{SerdeLaws}.

Lemma cursor_cost_encode id n :
  cursor_cost (Some (encode_cursor id n)) = 8 + fragment_cost id + 2 * N.of_nat (length (to_dec n)).
Proof.
  unfold cursor_cost, encode_cursor. rewrite !fragment_cost_app.
  rewrite (proj2 (to_dec_cost n)). change (fragment_cost (lit ".")) with 2. lia.
Qed.

Lemma to_dec_cost_mono m n : m ≤ n → text_cost (to_dec m) ≤ text_cost (to_dec n).
Proof.
  intros Hmn. rewrite (proj1 (to_dec_cost m)), (proj1 (to_dec_cost n)).
  pose proof (to_digits_length_mono 10 m n ltac:(done) Hmn). unfold to_dec. lia.
Qed.

Lemma page_of_len id a m t :
  page_len (page_of id a m t) ≤ page_len (skeleton (a ++ m ++ t) (blen a) id) + fragment_cost m.
Proof.
  rewrite !page_len_eq. cbn [page_of skeleton offset fragment next_cursor complete total_bytes].
  change (fragment_cost []) with 0. rewrite cursor_cost_encode.
  pose proof (to_digits_length_mono 10 (blen a + blen m) (blen (a ++ m ++ t)) ltac:(done)
                ltac:(rewrite !blen_app; lia)) as Hlen.
  change (to_digits 10) with to_dec in Hlen.
  destruct t as [|c t]; [cbn [cursor_cost]|rewrite cursor_cost_encode]; lia.
Qed.

Lemma skeleton_len json offset id : 13 ≤ page_len (skeleton json offset id).
Proof.
  rewrite page_len_eq. cbn [skeleton fragment complete]. lia.
Qed.

Lemma shrink_first id limit a m t :
  m ≠ [] → page_len (page_of id a m t) ≤ limit →
  shrink (a ++ m ++ t) (blen a) id limit (blen a + blen m) = Done (inr (page_of id a m t)).
Proof.
  intros Hm Hlen. unfold shrink. cbn [loop].
  destruct (N.eqb_spec (blen a + blen m) (blen a)).
  { assert (m = []) by (apply blen_nil_inv; lia). done. }
  rewrite page_of_spec. cbn [mbind exec_bind]. rewrite page_response_len_eq.
  by rewrite (proj2 (N.leb_le _ _)) by done.
Qed.

Lemma shrink_empty id limit a t :
  shrink (a ++ t) (blen a) id limit (blen a) = Done (inl LimitTooSmall).
Proof. unfold shrink. cbn [loop]. by rewrite N.eqb_refl. Qed.

Lemma fit_page_spec a c rest id limit :
  let json := a ++ c :: rest in
  let s := page_len (skeleton json (blen a) id) in
  blen json ≤ usize_max → limit ≤ usize_max →
  wp (fit_page json (blen a) id limit) (λ r, match r with
    | inl _ => limit < s + response_cost c
    | inr p => ∃ m t, c :: rest = m ++ t ∧ m ≠ [] ∧ p = page_of id a m t
        ∧ page_len p ≤ limit ∧ s + fragment_cost m ≤ limit
        ∧ match t with [] => True | c' :: _ => limit < s + fragment_cost m + response_cost c' end
    end).
Proof.
  intros json s Hjson Hlimit. unfold fit_page. rewrite page_response_len_eq. fold s.
  pose proof (skeleton_len json (blen a) id) as Hs. fold s in Hs. unfold checked_sub.
  case_decide as Hsub; cbn [wp]; [|lia].
  unfold json. rewrite byte_drop_prefix. cbn [or_panic mbind exec_bind].
  unfold json in Hjson. rewrite blen_app in Hjson.
  eapply wp_call; [apply fit_end_spec; [lia|lia|lia]|].
  intros e (m & t & Hmt & -> & Hfit & Hmax). rewrite N.add_0_l in Hfit, Hmax.
  destruct m as [|c0 m].
  - simpl in Hmt. subst t. rewrite N.add_0_r. rewrite shrink_empty. cbn [wp]. change (fragment_cost []) with 0 in Hmax. lia.
  - pose proof (page_of_len id a (c0 :: m) t) as Hle.
    assert (a ++ (c0 :: m) ++ t = json) as E by (unfold json; by rewrite Hmt).
    rewrite E in Hle. fold s in Hle. rewrite Hmt.
    rewrite shrink_first; [|done|lia]. cbn [wp]. exists (c0 :: m), t.
    split_and!; [done|done|done|lia|lia|]. destruct t; [done|lia].
Qed.
End Fit.

(** ** Lemmas: cursors *)

Lemma decode_cursor_spec id cursor json o :
  blen json ≤ usize_max →
  decode_cursor id cursor json = Some o
  ↔ cursor = encode_cursor id o ∧ o < blen json ∧ boundary json o.
Proof.
  intros Hlen. unfold decode_cursor. split.
  - intros (rest & Hr & (rest' & Hr' & (o' & Ho & Hif)%bind_Some)%bind_Some)%bind_Some.
    destruct (bool_decide _) eqn:Hb; [|done]. apply bool_decide_eq_true in Hb. simpl in Hif.
    destruct (N.ltb_spec o' (blen json)); [|done]. simpl in Hif.
    destruct (is_char_boundary json o') eqn:Hc; simplify_eq. by apply is_char_boundary_spec in Hc.
  - intros (-> & Hlt & Hbound). unfold encode_cursor.
    rewrite (proj2 (strip_prefix_spec id _ _) eq_refl). cbn [mbind option_bind].
    rewrite (proj2 (strip_prefix_spec (lit ".") _ _) eq_refl). cbn [mbind option_bind].
    unfold parse_usize. rewrite parse_to_dec by lia. cbn [mbind option_bind].
    rewrite bool_decide_true by done. rewrite (proj2 (N.ltb_lt _ _)) by done.
    by rewrite (proj2 (is_char_boundary_spec _ _)).
Qed.

(** ** Lemmas: compact texts *)

Lemma escape_no_control c : Forall (λ x, 32 ≤ x) (escape c).
Proof.
  destruct (N.ltb_spec c 32) as [Hc|Hc].
  - assert (forallb (λ c, forallb (λ x, 32 <=? x) (escape c)) (N.of_nat <$> seq 0 32) = true) as Hall
      by (vm_compute; reflexivity).
    pose proof (proj1 (forallb_forall _ _) Hall c) as Hx. cbv beta in Hx.
    apply Forall_forall. intros x Hin. apply N.leb_le.
    refine (proj1 (forallb_forall _ _) (Hx _) x _); [|by apply list_elem_of_In].
    apply list_elem_of_In, list_elem_of_fmap. exists (N.to_nat c). rewrite N2Nat.id.
    split; [done|apply elem_of_seq; lia].
  - unfold escape. destruct ((c =? 34) || (c =? 92)); [repeat constructor; [lia|done]|].
    repeat (rewrite (proj2 (N.eqb_neq c _)) by lia).
    rewrite (proj2 (N.ltb_ge c 32)) by done. by repeat constructor.
Qed.

Lemma quoted_no_control s : Forall (λ x, 32 ≤ x) (quoted s).
Proof.
  unfold quoted. apply Forall_app. split; [by repeat constructor|]. apply Forall_app.
  split; [|by repeat constructor]. unfold escaped. apply Forall_bind.
  apply Forall_true. intros c. apply escape_no_control.
Qed.

Lemma to_dec_no_control n : Forall (λ x, 32 ≤ x) (to_dec n).
Proof.
  eapply Forall_impl; [apply to_dec_plain|]. intros c. unfold plain.
  rewrite !andb_true_iff, N.leb_le. lia.
Qed.

(** Compact JSON contains no control character: strings escape them all. *)
Lemma compact_no_control : ∀ v, Forall (λ x, 32 ≤ x) (compact v).
Proof.
  fix IH 1. intros [|b|n|s|l|l]; cbn [compact].
  - by repeat constructor.
  - destruct b; by repeat constructor.
  - apply to_dec_no_control.
  - apply quoted_no_control.
  - rewrite !Forall_app. split; [by repeat constructor|]. split; [|by repeat constructor].
    apply join_Forall; [by repeat constructor|]. induction l as [|v l IHl]; constructor; [apply IH|apply IHl].
  - rewrite !Forall_app. split; [by repeat constructor|]. split; [|by repeat constructor].
    apply join_Forall; [by repeat constructor|]. induction l as [|[k v] l IHl]; constructor; [|apply IHl].
    rewrite !Forall_app. split; [apply quoted_no_control|]. split; [by repeat constructor|apply IH].
Qed.

Lemma compact_ne v : compact v ≠ [].
Proof. destruct v as [|[]| | | |]; try done. apply to_digits_ne. Qed.

(** ** Lemmas: identifiers *)

Lemma hex_plain n : Forall (λ c, plain c = true) (to_hex n).
Proof.
  apply digits_from_Forall; [done| |done]. intros d Hd.
  assert (forallb (λ d, plain (digit_char d)) (N.of_nat <$> seq 0 16) = true) as Hall
    by (vm_compute; reflexivity).
  refine (proj1 (forallb_forall _ _) Hall d _). apply list_elem_of_In, list_elem_of_fmap.
  exists (N.to_nat d). rewrite N2Nat.id. split; [done|apply elem_of_seq; lia].
Qed.

Lemma format_id_cost k n :
  k ≤ u64_max → n ≤ u64_max →
  fragment_cost (ResultStore.format_id k n) ≤ fragment_cost ResultStore.longest_result_id.
Proof.
  intros Hk Hn. unfold ResultStore.longest_result_id.
  assert (∀ k n, fragment_cost (ResultStore.format_id k n)
          = 2 + 2 * N.of_nat (16 `max` length (to_hex k) + length (to_hex n))) as Hcost.
  { intros k' n'. rewrite plain_fragment_cost.
    - unfold ResultStore.format_id, pad_zero. rewrite !length_app, length_replicate. simpl length. lia.
    - unfold ResultStore.format_id, pad_zero. rewrite !Forall_app. split; [by repeat constructor|].
      split; [|apply hex_plain]. split; [|apply hex_plain]. by apply Forall_replicate. }
  rewrite !Hcost. pose proof (to_digits_length_mono 16 k u64_max ltac:(done) Hk).
  pose proof (to_digits_length_mono 16 n u64_max ltac:(done) Hn). unfold to_hex. lia.
Qed.

(** ** Lemmas: validated limits *)

Lemma marker_cost_mono name name' id id' total total' :
  fragment_cost name ≤ fragment_cost name' → fragment_cost id ≤ fragment_cost id' →
  text_cost (to_dec total) ≤ text_cost (to_dec total') →
  text_cost (compact (marker_json (deferred_marker name id total)))
  ≤ text_cost (compact (marker_json (deferred_marker name' id' total'))).
Proof.
  intros Hname Hid Htotal. unfold marker_json, deferred_marker.
  cbn [compact fmap list_fmap join result_id tool deferred_total_bytes read_with expires_in_seconds instruction].
  generalize (quoted DEFERRED_INSTRUCTION), (quoted READ_PAGE_TOOL). intros s1 s2.
  rewrite !text_cost_app, !quoted_cost. lia.
Qed.

Section Validated.
Context `{SerdeLaws} (limit max_result : N) (longest : nat).
Context (Hvalid : validate_response_limit limit max_result longest = inr tt).

Lemma validated :
  wrapper + 2 + text_cost (compact (marker_json (largest_marker max_result longest))) ≤ limit
  ∧ page_len (one_character_page max_result) ≤ limit.
Proof.
  revert Hvalid. unfold validate_response_limit. rewrite !serialized_response_len_eq.
  destruct (N.ltb_spec limit (wrapper + 2 + text_cost (compact (marker_json (largest_marker max_result longest)))));
    [done|].
  unfold page_len. rewrite response_len. destruct (N.ltb_spec limit (wrapper + 2
    + text_cost (compact (page_json (one_character_page max_result))))); [done|]. done.
Qed.

Lemma validated_page json k n o c :
  blen json ≤ max_result → o ≤ blen json → k ≤ u64_max → n ≤ u64_max → 32 ≤ c →
  page_len (skeleton json o (ResultStore.format_id k n)) + response_cost c ≤ limit.
Proof.
  intros Hjson Ho Hk Hn Hc. etrans; [|apply validated]. rewrite !page_len_eq.
  cbn [skeleton one_character_page offset fragment next_cursor complete total_bytes].
  rewrite !cursor_cost_encode. change (fragment_cost []) with 0.
  change (fragment_cost [WIDEST_FRAGMENT_CHARACTER]) with 8.
  pose proof (format_id_cost k n Hk Hn). pose proof (response_cost_text c Hc).
  pose proof (to_dec_cost_mono (blen json) max_result Hjson).
  pose proof (to_dec_cost_mono o max_result ltac:(lia)).
  pose proof (proj1 (to_dec_cost (blen json))). pose proof (proj1 (to_dec_cost max_result)). lia.
Qed.

Lemma validated_marker name k n total :
  (length name ≤ longest)%nat → Forall (λ c, plain c = true) name →
  k ≤ u64_max → n ≤ u64_max → total ≤ max_result →
  sum (chunks (structured (marker_json
    (deferred_marker name (ResultStore.format_id k n) total)))) ≤ limit.
Proof.
  intros Hname Hplain Hk Hn Htotal. rewrite response_len. etrans; [|apply (proj1 validated)].
  apply N.add_le_mono_l. apply marker_cost_mono.
  - rewrite plain_fragment_cost by done. rewrite plain_fragment_cost by (by apply Forall_replicate).
    rewrite length_replicate. lia.
  - by apply format_id_cost.
  - by apply to_dec_cost_mono.
Qed.
End Validated.

(** ** Lemmas: reading all pages *)

Section Reading.
Context `{SerdeLaws} (limit max_result : N) (longest : nat).
Context (Hvalid : validate_response_limit limit max_result longest = inr tt).
Context (Hlimit : limit ≤ usize_max) (Hmax : max_result ≤ usize_max).

Lemma fit_page_progress a rest k n :
  rest ≠ [] → blen (a ++ rest) ≤ max_result → Forall (λ c, 32 ≤ c) rest → k ≤ u64_max → n ≤ u64_max →
  wp (fit_page (a ++ rest) (blen a) (ResultStore.format_id k n) limit) (λ r, ∃ m t,
    rest = m ++ t ∧ m ≠ [] ∧ r = inr (page_of (ResultStore.format_id k n) a m t)
    ∧ page_len (page_of (ResultStore.format_id k n) a m t) ≤ limit).
Proof.
  intros Hne Hlen Htext Hk Hn. destruct rest as [|c rest]; [done|].
  eapply wp_mono; [apply fit_page_spec; lia|]. intros [e|p].
  - intros Hlt. exfalso. apply Forall_cons in Htext as [Hc _].
    pose proof (validated_page limit max_result longest Hvalid (a ++ c :: rest) k n (blen a) c Hlen
                  ltac:(rewrite blen_app; lia) Hk Hn Hc). lia.
  - intros (m & t & ? & ? & -> & ? & _). by exists m, t.
Qed.

Lemma read_pages_spec (e : ResultStore.StoredResult) k n times :
  ResultStore.id e = ResultStore.format_id k n → k ≤ u64_max → n ≤ u64_max →
  blen (ResultStore.json e) ≤ max_result → Forall (λ c, 32 ≤ c) (ResultStore.json e) →
  (∀ i, times i < ResultStore.stored_at e + ResultStore.STORED_RESULT_TTL) →
  ∀ fuel store cursor a rest,
    ResultStore.holds store e → ResultStore.json e = a ++ rest → rest ≠ [] →
    (length rest ≤ fuel)%nat →
    match cursor with None => a = [] | Some c => c = encode_cursor (ResultStore.id e) (blen a) end →
    wp (read_pages fuel (ResultStore.project_root e) (ResultStore.id e) cursor limit times store)
      (λ r, ∃ pages, r = inr pages ∧ concat (fragment <$> pages) = rest
                     ∧ Forall (λ p, page_len p ≤ limit) pages).
Proof.
  intros Hid Hk Hn Hlen Htext Htimes fuel. induction fuel as [|fuel IH];
    intros store cursor a rest Hheld Hjson Hrest Hfuel Hcursor.
  { destruct rest; [done|simpl in Hfuel; lia]. }
  cbn [read_pages]. unfold read_tool_result_page.
  destruct (ResultStore.get_held store e (times fuel) Hheld (Htimes fuel)) as (store2 & -> & Hheld2).
  cbn [mbind exec_bind].
  assert (match cursor with None => Some 0 | Some c => decode_cursor (ResultStore.id e) c (ResultStore.json e) end
          = Some (blen a)) as ->.
  { destruct cursor as [c|]; [|by subst a]. apply decode_cursor_spec; [lia|]. split; [done|].
    rewrite Hjson, blen_app. split; [|by exists a, rest].
    assert (blen rest ≠ 0) by (intros ?%blen_nil_inv; done). lia. }
  rewrite Hjson in Htext, Hlen |- *. rewrite Hid.
  eapply wp_bind, wp_bind, wp_mono;
    [apply (fit_page_progress a rest k n Hrest Hlen (proj2 (proj1 (Forall_app _ _ _) Htext)) Hk Hn)|].
  intros r (m & t & Hmt & Hm & -> & Hfit). cbn [wp].
  destruct t as [|c t]; cbn [page_of complete next_cursor].
  - cbn [wp]. eexists. split; [done|]. rewrite app_nil_r in Hmt. subst rest. cbn.
    rewrite app_nil_r. split; [done|]. by repeat constructor.
  - eapply wp_call.
    + rewrite <- Hid. apply (IH store2 _ (a ++ m) (c :: t) Hheld2).
      * by rewrite Hjson, Hmt, app_assoc.
      * done.
      * rewrite Hmt, length_app in Hfuel. destruct m; [done|]. simpl in *. lia.
      * by rewrite blen_app, Hid.
    + intros r (pages & -> & Hcat & Hpages). cbn [wp]. eexists. split; [done|]. cbn.
      split; [by rewrite Hcat|]. by constructor.
Qed.
End Reading.

(** ** Properties *)

(** The cost a page charges for a character is exact: it is what the character adds to the
    tool result, escaped once in the structured JSON and escaped twice in the text repeating it. *)
Theorem response_cost_exact c : response_cost c = blen (escape c) + blen (escaped (escape c)).
Proof. apply response_cost_escape. Qed.

(** No page is longer than the limit, whatever the serializer does: the loops of [fit_page] end
    without a panic, and a returned page is a non-empty piece of the text from the offset on, ends
    at a character boundary, points to its own end, and its measured response fits. *)
Theorem fit_page_fits `{Serde} id a rest limit :
  blen (a ++ rest) ≤ usize_max → limit + 13 ≤ usize_max →
  wp (fit_page (a ++ rest) (blen a) id limit) (λ r, match r with
    | inl _ => True
    | inr p => ∃ m t len, rest = m ++ t ∧ m ≠ [] ∧ p = page_of id a m t
               ∧ page_response_len p = inr len ∧ len ≤ limit
    end).
Proof.
  intros Hjson Hlimit. unfold fit_page. destruct (page_response_len _) as [|s]; [done|].
  unfold checked_sub. case_decide; [|done]. rewrite byte_drop_prefix. cbn [or_panic mbind exec_bind].
  rewrite blen_app in Hjson. eapply wp_call; [apply fit_end_spec; lia|].
  intros e (m & t & -> & -> & _). apply shrink_spec.
Qed.

(** A page is as long as its budget allows: the fragment is the longest prefix that fits beside
    the frame with the longest cursor, and there is no page only if not even one character does. *)
Theorem fit_page_greedy `{SerdeLaws} id a c rest limit :
  let json := a ++ c :: rest in
  let frame := page_len (skeleton json (blen a) id) in
  blen json ≤ usize_max → limit ≤ usize_max →
  wp (fit_page json (blen a) id limit) (λ r, match r with
    | inl _ => limit < frame + response_cost c
    | inr p => ∃ m t, c :: rest = m ++ t ∧ m ≠ [] ∧ p = page_of id a m t
        ∧ page_len p ≤ limit ∧ frame + fragment_cost m ≤ limit
        ∧ match t with [] => True | c' :: _ => limit < frame + fragment_cost m + response_cost c' end
    end).
Proof. apply fit_page_spec. Qed.

(** The cursors accepted for a stored result are exactly those a page of it can have issued:
    the canonical encodings of the character boundaries before its end. *)
Theorem decode_cursor_iff id cursor json o :
  blen json ≤ usize_max →
  decode_cursor id cursor json = Some o
  ↔ cursor = encode_cursor id o ∧ o < blen json ∧ is_char_boundary json o = true.
Proof. rewrite is_char_boundary_spec. apply decode_cursor_spec. Qed.

(** Under validated limits every response fits: a tool result is returned as it is when it fits,
    replaced by a marker that fits when it was stored, and refused otherwise. *)
Theorem bound_response_fits `{SerdeLaws} name root limit now result store max_result longest :
  validate_response_limit limit max_result longest = inr tt →
  limit < usize_max → ResultStore.max_bytes store ≤ max_result →
  name ≠ READ_PAGE_TOOL → (length name ≤ longest)%nat → Forall (λ c, plain c = true) name →
  ResultStore.store_inv store → ResultStore.process_key store ≤ u64_max →
  ResultStore.next_sequence store < u64_max →
  wp (bound_response name root limit now result store) (λ '(_, r), match r with
    | inl _ => limit < sum (chunks (serialized result))
    | inr result' => sum (chunks (serialized result')) ≤ limit
    end).
Proof.
  intros Hvalid Hlimit Hmax Hname Hlen Hplain Hst Hk Hseq. unfold bound_response, fits_response.
  rewrite bool_decide_false by done. rewrite serialized_len_spec, (serializes _).
  destruct (N.ltb_spec limit (N.min usize_max (sum (chunks (serialized result))))) as [Hlt|Hge];
    cbn [is_some]; [|cbn [wp]; lia].
  assert (limit < sum (chunks (serialized result))) by lia.
  destruct (structured_content result) as [value|]; [|done]. destruct root as [|root]; [done|].
  pose proof (ResultStore.insert_inv store root (to_text value) now Hst Hseq) as Hrun.
  destruct (ResultStore.insert _ _ _ _) as [[store' [e|id]]| |] eqn:Hins; [done| |done..].
  destruct (ResultStore.insert_holds _ _ _ _ _ _ Hst Hins) as (_ & -> & Hn & Htext).
  cbn [mbind exec_bind]. rewrite structured_result_max. cbn [wp structured_call serialized].
  apply (validated_marker _ _ _ Hvalid); [done|done|done|lia|lia].
Qed.

(** C18: Round trip of a deferred result: after a result that is too large was stored, a client that
    reads page by page within the time to live gets pages that all fit the limit and whose
    fragments concatenate to exactly the JSON text of the result. *)
Theorem deferred_result_readable `{SerdeLaws} name root limit now result value store store' r
    max_result longest times :
  validate_response_limit limit max_result longest = inr tt →
  limit ≤ usize_max → max_result ≤ usize_max → ResultStore.max_bytes store ≤ max_result →
  ResultStore.store_inv store → ResultStore.process_key store ≤ u64_max →
  name ≠ READ_PAGE_TOOL → structured_content result = Some value →
  fits_response result limit = inr false →
  bound_response name (inr root) limit now result store = Done (store', inr r) →
  (∀ i, times i < now + ResultStore.STORED_RESULT_TTL) →
  ∃ id, r = structured_call (marker_json (deferred_marker name id (blen (to_text value))))
    ∧ wp (read_pages (length (to_text value)) root id None limit times store') (λ r, ∃ pages,
        r = inr pages ∧ concat (fragment <$> pages) = to_text value
        ∧ Forall (λ p, page_len p ≤ limit) pages).
Proof.
  intros Hvalid Hlimit Hmax Hbytes Hst Hk Hname Hvalue Hbig Hrun Htimes. unfold bound_response in Hrun.
  rewrite bool_decide_false in Hrun by done. rewrite Hbig, Hvalue in Hrun.
  apply bind_Done in Hrun as ([store2 [e|id]] & Hins & Hrun); [done|].
  rewrite structured_result_max in Hrun. injection Hrun as <- <-. exists id. split; [done|].
  destruct (ResultStore.insert_holds _ _ _ _ _ _ Hst Hins) as (Hheld & Hid & Hn & Htext).
  set (e := {| ResultStore.id := id; |}) in *.
  apply (read_pages_spec limit max_result longest Hvalid Hlimit Hmax e _ _ times Hid Hk
           (N.lt_le_incl _ _ Hn)) with (a := []); cbn [e ResultStore.json ResultStore.stored_at].
  - lia.
  - apply (Permutation_Forall (symmetry (to_text_compact value))), compact_no_control.
  - done.
  - exact Hheld.
  - done.
  - intros Hnil. pose proof (to_text_compact value) as Hp. rewrite Hnil in Hp.
    apply Permutation_nil_l in Hp. by apply (compact_ne value).
  - done.
  - done.
Qed.

(** The whole text is never returned in one page by a limit it just fits: the budget is measured
    against a frame with a cursor, which the complete page does not have. *)
Theorem exact_fit_split `{SerdeLaws} id c rest :
  let json := c :: rest in
  let whole := page_of id [] json [] in
  blen json ≤ usize_max → page_len whole ≤ usize_max →
  wp (fit_page json 0 id (page_len whole)) (λ r, r ≠ inr whole).
Proof.
  intros json whole Hjson Hlen.
  eapply wp_mono; [apply (fit_page_spec [] c rest id); [done|exact Hlen]|].
  intros [e|p]; [done|]. intros (m & t & Hmt & Hm & -> & _ & Hfit & _) [= Hm' Ht _]. subst m.
  revert Hfit. unfold whole. rewrite !page_len_eq.
  cbn [skeleton page_of offset fragment next_cursor complete total_bytes app].
  rewrite cursor_cost_encode. cbn [cursor_cost]. rewrite app_nil_r. change (fragment_cost []) with 0.
  fold json. lia.
Qed.

(** ** Witnesses *)

(** A serializer with the laws: one buffer per value, and the tool result written out. *)
Definition demo_structured (v : Json) : Json :=
  JObject [
    (lit "content", JArray [JObject [(lit "type", JString (lit "text"));
                                     (lit "text", JString (compact v))]]);
    (lit "structuredContent", v);
    (lit "isError", JBool false)].

#[local] Instance demo_serde : Serde := {
  chunks v := [blen (compact v)];
  failure _ := None;
  to_text := compact;
  structured := demo_structured;
}.

Lemma demo_structured_len v :
  blen (compact (demo_structured v)) = 74 + blen (compact v) + blen (quoted (compact v)).
Proof.
  unfold demo_structured. cbn [compact fmap list_fmap join]. rewrite !blen_app.
  generalize (blen (quoted (compact v))), (blen (compact v)). intros x y.
  repeat match goal with
         | |- context [blen (lit ?s)] =>
             let n := eval vm_compute in (blen (lit s)) in change (blen (lit s)) with n
         | |- context [blen (quoted (lit ?s))] =>
             let n := eval vm_compute in (blen (quoted (lit s))) in change (blen (quoted (lit s))) with n
         end.
  lia.
Qed.

#[local] Instance demo_laws : SerdeLaws.
Proof.
  refine {| wrapper := 74 |}.
  - done.
  - intros v. apply N.add_0_r.
  - done.
  - intros v. cbn [chunks structured to_text demo_serde]. rewrite <- demo_structured_len.
    apply N.add_0_r.
Defined.

Definition demo_value : Json := JObject [(lit "results", JArray [JString (lit "a b c"); JNumber 12])].
Definition demo_store : ResultStore.ResultStore := ResultStore.with_process_key 5000 7.
Definition demo_root : path := [lit "srv"].
Definition demo_big : CallToolResult :=
  structured_call (JObject [(lit "text", JString (replicate 1000 (ch "x")))]).

Lemma fit_page_fits_witness :
  wp (fit_page (lit "{}") 0 (lit "r1") 600) (λ r, match r with
    | inl _ => True
    | inr p => ∃ m t len, lit "{}" = m ++ t ∧ m ≠ [] ∧ p = page_of (lit "r1") [] m t
               ∧ page_response_len p = inr len ∧ len ≤ 600
    end).
Proof. apply (fit_page_fits (lit "r1") [] (lit "{}") 600); vm_compute; discriminate. Defined.

Lemma fit_page_greedy_witness :
  wp (fit_page (lit "{}") 0 (lit "r1") 600) (λ r, match r with
    | inl _ => 600 < page_len (skeleton (lit "{}") 0 (lit "r1")) + 2
    | inr p => page_len p ≤ 600
    end).
Proof.
  eapply wp_mono.
  - apply (fit_page_greedy (lit "r1") [] (ch "{") (lit "}") 600); vm_compute; discriminate.
  - intros [e|p]; [done|]. by intros (m & t & _ & _ & _ & ? & _).
Defined.

Lemma decode_cursor_iff_witness :
  decode_cursor (lit "r1") (lit "r1.1") (lit "{}") = Some 1
  ↔ lit "r1.1" = encode_cursor (lit "r1") 1 ∧ 1 < blen (lit "{}") ∧ is_char_boundary (lit "{}") 1 = true.
Proof. apply decode_cursor_iff. vm_compute. discriminate. Defined.

Lemma demo_valid : validate_response_limit 2000 5000 20 = inr tt.
Proof. vm_compute. reflexivity. Qed.

Lemma demo_store_inv : ResultStore.store_inv demo_store.
Proof. split; try done; try apply NoDup_nil_2; simpl; lia. Qed.

Lemma bound_response_fits_witness :
  wp (bound_response (lit "search") (inr demo_root) 2000 5 demo_big demo_store) (λ '(_, r), match r with
    | inl _ => 2000 < sum (chunks (serialized demo_big))
    | inr result' => sum (chunks (serialized result')) ≤ 2000
    end).
Proof.
  apply (bound_response_fits (lit "search") (inr demo_root) 2000 5 demo_big demo_store 5000 20).
  - exact demo_valid.
  - reflexivity.
  - vm_compute. discriminate.
  - discriminate.
  - apply Nat.leb_le. reflexivity.
  - by repeat constructor.
  - exact demo_store_inv.
  - vm_compute. discriminate.
  - reflexivity.
Defined.

Definition demo_bounded : exec (ResultStore.ResultStore * (ErrorData + CallToolResult)) :=
  bound_response (lit "search") (inr demo_root) 2000 5 demo_big demo_store.
Definition demo_stored : ResultStore.ResultStore :=
  match demo_bounded with Done (store, _) => store | _ => demo_store end.
Definition demo_marker : CallToolResult :=
  match demo_bounded with Done (_, inr r) => r | _ => demo_big end.
Definition demo_text : Json := JObject [(lit "text", JString (replicate 1000 (ch "x")))].

Lemma deferred_result_readable_witness :
  ∃ id, demo_marker = structured_call (marker_json (deferred_marker (lit "search") id (blen (to_text demo_text))))
    ∧ wp (read_pages (length (to_text demo_text)) demo_root id None 2000 (λ _, 9) demo_stored) (λ r, ∃ pages,
        r = inr pages ∧ concat (fragment <$> pages) = to_text demo_text
        ∧ Forall (λ p, page_len p ≤ 2000) pages).
Proof.
  apply (deferred_result_readable (lit "search") demo_root 2000 5 demo_big demo_text demo_store
           demo_stored demo_marker 5000 20 (λ _, 9)).
  - exact demo_valid.
  - vm_compute. discriminate.
  - vm_compute. discriminate.
  - vm_compute. discriminate.
  - exact demo_store_inv.
  - vm_compute. discriminate.
  - discriminate.
  - reflexivity.
  - vm_compute. reflexivity.
  - vm_compute. reflexivity.
  - intros _. reflexivity.
Defined.

Lemma exact_fit_split_witness :
  wp (fit_page (lit "{}") 0 (lit "r1") (page_len (page_of (lit "r1") [] (lit "{}") [])))
    (λ r, r ≠ inr (page_of (lit "r1") [] (lit "{}") [])).
Proof. apply (exact_fit_split (lit "r1") (ch "{") (lit "}")); vm_compute; discriminate. Defined.
