(* ===== verification/Lexer.v ===== *)
(** * Lexer: Java and Kotlin tokens

    Models [src/index/declaration_source/lexer.rs]: the lexer that separates code tokens from
    comments and literals, and the linking of brackets.  A lexer state is the Rust record; its
    [rest] slices the source at the byte position and so panics when that position is not a
    character boundary.  Loops run on the number of bytes left, nested string templates on
    [MAX_TEMPLATE_DEPTH]; [tokenize_sound] shows that both are enough. *)

From S2P Require Import Prelude.
From S2P Require Import Text.

(** Nesting limit of Kotlin string templates, and open brackets searched on recovery. *)
Definition MAX_TEMPLATE_DEPTH : nat := 32.
Definition MAX_BRACKET_RECOVERY : nat := 8.

Inductive SourceLanguage := Java | Kotlin.
#[export] Instance SourceLanguage_eq_dec : EqDecision SourceLanguage.
Proof. solve_decision. Defined.

Inductive TokenKind := Identifier | Punctuation | Literal.
#[export] Instance TokenKind_eq_dec : EqDecision TokenKind.
Proof. solve_decision. Defined.

Record Token := {
  kind : TokenKind;
  start : N;
  stop : N;
  line : N;
  end_line : N;
}.

Record Lexer := {
  source : str;
  position : N;
  current_line : N;
  language : SourceLanguage;
}.

Section Lexer.
Context `{Unicode}.

Definition is_identifier_char (c : char) : bool :=
  is_alphanumeric c || (c =? ch "_")%N || (c =? ch "$")%N.

Definition rest (lx : Lexer) : exec str := or_panic (byte_drop (position lx) (source lx)).

Definition looking_at (lx : Lexer) (text : str) : exec bool := starts_with text <$> rest lx.

Definition current (lx : Lexer) : exec (option char) := head <$> rest lx.

Definition bump_ascii (count : N) (lx : Lexer) : Lexer :=
  {| source := source lx; position := position lx + count;
     current_line := current_line lx; language := language lx |}.

Definition bump (lx : Lexer) : exec Lexer :=
  c ← current lx;
  match c with
  | Some c =>
      Done {| source := source lx;
              position := position lx + len_utf8 c;
              current_line := (if c =? 10 then current_line lx + 1 else current_line lx)%N;
              language := language lx |}
  | None => Done lx
  end.

(** Loop fuel: one turn per byte left, and one to stop. *)
Definition bytes_left (lx : Lexer) : nat := N.to_nat (blen (source lx) - position lx).
Definition lex_loop {R} (body : Lexer → exec (turn Lexer R)) (lx : Lexer) : exec R :=
  loop (S (bytes_left lx)) body lx.

(** [while self.current().is_some_and(p) { self.bump() }] *)
Definition bump_while (p : char → bool) : Lexer → exec Lexer :=
  lex_loop (λ lx,
    c ← current lx;
    if match c with Some c => p c | None => false end
    then lx ← bump lx; Done (Continue lx) else Done (Break lx)).

Definition skip_block_comment (lx : Lexer) : exec Lexer :=
  let nested := bool_decide (language lx = Kotlin) in
  loop (S (bytes_left lx)) (λ '(lx, depth),
    c ← current lx;
    match c with
    | None => Done (Break lx)
    | Some _ =>
        opens ← looking_at lx (lit "/*");
        closes ← looking_at lx (lit "*/");
        if opens && ((depth =? 0)%N || nested) then
          Done (Continue (bump_ascii 2 lx, (depth + 1)%N))
        else if (closes : bool) then
          let lx := bump_ascii 2 lx in
          depth ← or_panic (checked_sub depth 1);
          if (depth =? 0)%N then Done (Break lx) else Done (Continue (lx, depth))
        else lx ← bump lx; Done (Continue (lx, depth))
    end) (lx, 0%N).

Definition skip_trivia : Lexer → exec Lexer :=
  lex_loop (λ lx,
    c ← current lx;
    line_comment ← looking_at lx (lit "//");
    block_comment ← looking_at lx (lit "/*");
    if match c with Some c => is_whitespace c | None => false end then
      lx ← bump lx; Done (Continue lx)
    else if (line_comment : bool) then
      lx ← bump_while (λ c, negb (c =? 10)%N) lx; Done (Continue lx)
    else if (block_comment : bool) then
      lx ← skip_block_comment lx; Done (Continue lx)
    else Done (Break lx)).

Definition is_template_start (lx : Lexer) : exec bool :=
  dollar ← looking_at lx (lit "${");
  Done (bool_decide (language lx = Kotlin) && dollar).

Definition skip_text_block : Lexer → exec Lexer :=
  lex_loop (λ lx,
    c ← current lx;
    match c with
    | None => Done (Break lx)
    | Some c =>
        closes ← looking_at lx [34; 34; 34]%N;
        if (c =? 92)%N then lx ← bump lx; lx ← bump lx; Done (Continue lx)
        else if (closes : bool) then Done (Break (bump_ascii 3 lx))
        else lx ← bump lx; Done (Continue lx)
    end).

Definition skip_quoted (quote : char) (lx : Lexer) : exec Lexer :=
  lx ← bump lx;
  lex_loop (λ lx,
    c ← current lx;
    match c with
    | None => Done (Break lx)
    | Some c =>
        if (c =? 10)%N then Done (Break lx)
        else
          lx ← bump lx;
          if (c =? 92)%N then lx ← bump lx; Done (Continue lx)
          else if (c =? quote)%N then Done (Break lx)
          else Done (Continue lx)
    end) lx.

Definition skip_number : Lexer → exec Lexer :=
  lex_loop (λ lx,
    characters ← rest lx;
    match characters with
    | c :: next =>
        if is_identifier_char c then lx ← bump lx; Done (Continue lx)
        else if (c =? 46)%N
                && match next with d :: _ => is_ascii_digit d | [] => false end then
          lx ← bump lx; Done (Continue lx)
        else Done (Break lx)
    | [] => Done (Break lx)
    end).

(** The mutually recursive part: a string may contain templates, a template contains tokens.
    [next] is [next_token] one template deeper. *)
Section Template.
Context (next : Lexer → exec (option Token * Lexer)).

Definition skip_template (template_depth : nat) (lx : Lexer) : exec Lexer :=
  let lx := bump_ascii 2 lx in
  if Nat.leb MAX_TEMPLATE_DEPTH template_depth then Done lx
  else
    loop (S (bytes_left lx)) (λ '(lx, depth),
      '(token, lx) ← next lx;
      match token with
      | None => Done (Break lx)
      | Some token =>
          if decide (kind token = Punctuation) then
            text ← or_panic (byte_slice (start token) (stop token) (source lx));
            if decide (text = lit "{") then Done (Continue (lx, (depth + 1)%N))
            else if decide (text = lit "}") then
              depth ← or_panic (checked_sub depth 1);
              if (depth =? 0)%N then Done (Break lx) else Done (Continue (lx, depth))
            else Done (Continue (lx, depth))
          else Done (Continue (lx, depth))
      end) (lx, 1%N).

Definition skip_raw_string (template_depth : nat) : Lexer → exec Lexer :=
  lex_loop (λ lx,
    c ← current lx;
    match c with
    | None => Done (Break lx)
    | Some _ =>
        closes ← looking_at lx [34; 34; 34]%N;
        template ← is_template_start lx;
        if (closes : bool) then lx ← bump_while (N.eqb 34) lx; Done (Break lx)
        else if (template : bool) then lx ← skip_template template_depth lx; Done (Continue lx)
        else lx ← bump lx; Done (Continue lx)
    end).

Definition skip_string (template_depth : nat) (lx : Lexer) : exec Lexer :=
  block ← looking_at lx [34; 34; 34]%N;
  if (block : bool) then
    let lx := bump_ascii 3 lx in
    match language lx with
    | Java => skip_text_block lx
    | Kotlin => skip_raw_string template_depth lx
    end
  else
    lex_loop (λ lx,
      c ← current lx;
      match c with
      | None => Done (Break lx)
      | Some c =>
          template ← is_template_start lx;
          if (c =? 10)%N then Done (Break lx)
          else if (c =? 92)%N then lx ← bump lx; lx ← bump lx; Done (Continue lx)
          else if (c =? 34)%N then lx ← bump lx; Done (Break lx)
          else if (c =? ch "$")%N && template then
            lx ← skip_template template_depth lx; Done (Continue lx)
          else lx ← bump lx; Done (Continue lx)
      end) (bump_ascii 1 lx).

(** The [match] of [next_token] on the first character of the token. *)
Definition skip_token (template_depth : nat) (c : char) (lx : Lexer) : exec (TokenKind * Lexer) :=
  if (c =? 34)%N then lx ← skip_string template_depth lx; Done (Literal, lx)
  else if (c =? 39)%N then lx ← skip_quoted 39%N lx; Done (Literal, lx)
  else if (c =? 96)%N && bool_decide (language lx = Kotlin) then
    lx ← skip_quoted 96%N lx; Done (Identifier, lx)
  else if is_ascii_digit c then lx ← skip_number lx; Done (Literal, lx)
  else if is_identifier_char c then lx ← bump_while is_identifier_char lx; Done (Identifier, lx)
  else
    arrow ← looking_at lx (lit "->");
    if (arrow : bool) then Done (Punctuation, bump_ascii 2 lx)
    else lx ← bump lx; Done (Punctuation, lx).
End Template.

Fixpoint next_token (fuel : nat) (template_depth : nat) (lx : Lexer)
    : exec (option Token * Lexer) :=
  match fuel with
  | O => Stuck
  | S fuel =>
      lx ← skip_trivia lx;
      c ← current lx;
      match c with
      | None => Done (None, lx)
      | Some c =>
          '(token_kind, lx') ← skip_token (next_token fuel (S template_depth)) template_depth c lx;
          Done (Some {| kind := token_kind; start := position lx; stop := position lx';
                        line := current_line lx; end_line := current_line lx' |}, lx')
      end
  end.

Definition tokenize (text : str) (lang : SourceLanguage) : exec (list Token) :=
  let lx := {| source := text; position := 0; current_line := 0; language := lang |} in
  loop (S (bytes_left lx)) (λ '(lx, tokens),
    '(token, lx) ← next_token (S MAX_TEMPLATE_DEPTH) 0 lx;
    match token with
    | Some token => Done (Continue (lx, tokens ++ [token]))
    | None => Done (Break tokens)
    end) (lx, []).
End Lexer.

(** ** Brackets *)

Definition opener_of (text : str) : option str :=
  if decide (text = lit ")") then Some (lit "(")
  else if decide (text = lit "]") then Some (lit "[")
  else if decide (text = lit "}") then Some (lit "{")
  else None.
Definition is_opener (text : str) : bool :=
  bool_decide (text = lit "(") || bool_decide (text = lit "[") || bool_decide (text = lit "{").

(** The loop state of [match_brackets]: the links so far and the open brackets, the [Vec] being
    kept with its last element first. *)
Record Brackets := {
  matching : list (option nat);
  open : list (nat * str);
}.

(** One turn of [match_brackets] at the token [index] with the text [text]. *)
Definition match_token (index : nat) (text : str) (b : Brackets) : exec Brackets :=
  if is_opener text then Done {| matching := matching b; open := (index, text) :: open b |}
  else match opener_of text with
  | None => Done b
  | Some opener =>
      match list_find (λ '(_, value), value = opener) (take MAX_BRACKET_RECOVERY (open b)) with
      | None => Done b
      | Some (position, (first, _)) =>
          links ← list_set first (Some index) (matching b);
          links ← list_set index (Some first) links;
          Done {| matching := links; open := drop (S position) (open b) |}
      end
  end.

Definition match_brackets (text : str) (tokens : list Token) : exec (list (option nat)) :=
  b ← for_each (λ b '(index, token),
        if decide (kind token = Punctuation) then
          token_text ← or_panic (byte_slice (start token) (stop token) text);
          match_token index token_text b
        else Done b)
      (imap pair tokens) {| matching := replicate (length tokens) None; open := [] |};
  Done (matching b).

(** ** Specification *)

Definition newlines (s : str) : N := count_char 10 s.

(** A state in the middle of [p ++ t], right before [t]. *)
Definition at_ (lang : SourceLanguage) (p t : str) : Lexer := {|
  source := p ++ t;
  position := blen p;
  current_line := newlines p;
  language := lang;
|}.

(** [lx] is reached from [at_ lang p t] by consuming a prefix of [t]. *)
Definition consumed (lang : SourceLanguage) (p t : str) (lx : Lexer) : Prop :=
  ∃ m u, t = m ++ u ∧ lx = at_ lang (p ++ m) u.
Definition consumed_some (lang : SourceLanguage) (p t : str) (lx : Lexer) : Prop :=
  ∃ m u, t = m ++ u ∧ m ≠ [] ∧ lx = at_ lang (p ++ m) u.

(** [token] is the piece [m] of the text, after [p]. *)
Definition token_at (p m : str) (token : Token) : Prop :=
  start token = blen p ∧ stop token = blen (p ++ m)
  ∧ line token = newlines p ∧ end_line token = newlines (p ++ m).

(** White space and finished comments. *)
Inductive trivia : str → Prop :=
| trivia_nil : trivia []
| trivia_space c w : is_whitespace c = true → trivia w → trivia (c :: w)
| trivia_line m w :
    starts_with (lit "//") m = true → 10%N ∉ m → trivia w → trivia (m ++ w)
| trivia_block m w :
    starts_with (lit "/*") m = true → (∃ body, m = body ++ lit "*/") → trivia w → trivia (m ++ w).

(** What the text may end with: trivia, the last comment being possibly unfinished. *)
Definition trivia_at_end (w : str) : Prop :=
  trivia w ∨ ∃ v m, w = v ++ m ∧ trivia v ∧ starts_with (lit "/*") m = true.

(** What the piece [m] of a token looks like, by its kind. *)
Definition token_shape `{Unicode} (lang : SourceLanguage) (k : TokenKind) (m : str) : Prop :=
  match k with
  | Identifier =>
      (m ≠ [] ∧ Forall (λ c, is_identifier_char c = true) m)
      ∨ (lang = Kotlin ∧ head m = Some 96%N)
  | Punctuation =>
      m = lit "->" ∨ ∃ c, m = [c] ∧ is_identifier_char c = false ∧ is_whitespace c = false
  | Literal => ∃ c, head m = Some c ∧ (c = 34 ∨ c = 39 ∨ is_ascii_digit c = true)%N
  end.

(** The tokens of a text up to its piece [p], in order: each one is a non-empty piece of the text,
    and between two of them there is only trivia. *)
Inductive tokens_upto `{Unicode} (lang : SourceLanguage) : str → list Token → Prop :=
| tokens_nil : tokens_upto lang [] []
| tokens_snoc p skipped m token tokens :
    tokens_upto lang p tokens →
    trivia skipped → m ≠ [] → token_shape lang (kind token) m →
    token_at (p ++ skipped) m token →
    tokens_upto lang (p ++ skipped ++ m) (tokens ++ [token]).

(** ** Lemmas *)

Lemma newlines_app s t : newlines (s ++ t) = (newlines s + newlines t)%N.
Proof. unfold newlines, count_char. rewrite filter_app, length_app. lia. Qed.

Lemma consumed_refl lang p t : consumed lang p t (at_ lang p t).
Proof. exists [], t. by rewrite app_nil_r. Qed.

Lemma consumed_some_weaken lang p t lx : consumed_some lang p t lx → consumed lang p t lx.
Proof. intros (m & u & ? & _ & ?). by exists m, u. Qed.

Lemma consumed_trans lang p t m u lx :
  t = m ++ u → consumed lang (p ++ m) u lx → consumed lang p t lx.
Proof.
  intros -> (m' & u' & -> & ->). exists (m ++ m'), u'. by rewrite !app_assoc.
Qed.

Lemma consumed_some_trans lang p t m u lx :
  t = m ++ u → m ≠ [] → consumed lang (p ++ m) u lx → consumed_some lang p t lx.
Proof.
  intros -> Hm (m' & u' & -> & ->). exists (m ++ m'), u'. rewrite !app_assoc.
  split_and!; [done| |done]. by destruct m.
Qed.

Lemma consumed_then_some lang p t m u lx :
  t = m ++ u → consumed_some lang (p ++ m) u lx → consumed_some lang p t lx.
Proof.
  intros -> (m' & u' & -> & Hm & ->). exists (m ++ m'), u'. rewrite !app_assoc.
  split_and!; [done| |done]. by destruct m, m'.
Qed.

Section Steps.
Context (lang : SourceLanguage).
Implicit Types p t m u : str.

Lemma rest_at p t : rest (at_ lang p t) = Done t.
Proof. unfold rest, at_. simpl. by rewrite byte_drop_prefix. Qed.

Lemma current_at p t : current (at_ lang p t) = Done (head t).
Proof. unfold current. by rewrite rest_at. Qed.

Lemma looking_at_at p t text : looking_at (at_ lang p t) text = Done (starts_with text t).
Proof. unfold looking_at. by rewrite rest_at. Qed.

Lemma bump_at p c t : bump (at_ lang p (c :: t)) = Done (at_ lang (p ++ [c]) t).
Proof.
  unfold bump. rewrite current_at. simpl. unfold at_. simpl. f_equal.
  rewrite <- app_assoc, newlines_app, blen_app. simpl. f_equal; [lia|].
  unfold newlines, count_char. destruct (N.eqb_spec c 10) as [->|].
  - by rewrite filter_cons_True.
  - rewrite filter_cons_False by congruence. simpl. lia.
Qed.

Lemma bump_at_nil p : bump (at_ lang p []) = Done (at_ lang p []).
Proof. unfold bump. by rewrite current_at. Qed.

(** Skipping literal ASCII characters that are known to be there. *)
Lemma bump_ascii_at p m u :
  blen m = N.of_nat (length m) → newlines m = 0%N →
  bump_ascii (N.of_nat (length m)) (at_ lang p (m ++ u)) = at_ lang (p ++ m) u.
Proof.
  intros Hm Hn. unfold bump_ascii, at_. simpl.
  by rewrite <- app_assoc, newlines_app, blen_app, Hm, Hn, N.add_0_r.
Qed.

Lemma bytes_left_at p t : bytes_left (at_ lang p t) = N.to_nat (blen t).
Proof. unfold bytes_left, at_. simpl. rewrite blen_app. f_equal. lia. Qed.

Lemma bytes_left_app p m u : m ≠ [] → N.to_nat (blen u) < N.to_nat (blen (m ++ u)).
Proof.
  intros Hm. rewrite blen_app. destruct m as [|c m]; [done|]. simpl.
  pose proof (len_utf8_pos c). lia.
Qed.

(** The loop rule of the lexer, with an extra loop variable [x] and an invariant on the text [m]
    consumed so far, the text [u] left and [x]: every further turn consumes something. *)
Lemma wp_lex_loop {X R} (J : str → str → X → Prop) (body : Lexer * X → exec (turn (Lexer * X) R))
    (Q : R → Prop) p t x :
  (∀ m u x, t = m ++ u → J m u x →
    wp (body (at_ lang (p ++ m) u, x)) (λ o, match o with
      | Continue (lx, x') =>
          ∃ m' u', u = m' ++ u' ∧ m' ≠ [] ∧ lx = at_ lang (p ++ m ++ m') u' ∧ J (m ++ m') u' x'
      | Break r => Q r
      end)) →
  J [] t x →
  wp (loop (S (bytes_left (at_ lang p t))) body (at_ lang p t, x)) Q.
Proof.
  intros Hbody Hx.
  apply (wp_loop (λ '(lx, x), ∃ m u, t = m ++ u ∧ lx = at_ lang (p ++ m) u ∧ J m u x)
                 (λ '(lx, _), bytes_left lx)).
  - intros [lx x'] (m & u & Ht & -> & Hx'). eapply wp_mono; [by apply Hbody|].
    intros [[lx' x'']|r]; [|done]. intros (m' & u' & -> & Hne & -> & HJ).
    split; [exists (m ++ m'), u'; by rewrite Ht, <- app_assoc|].
    rewrite !bytes_left_at. by apply bytes_left_app.
  - exists [], t. by rewrite app_nil_r.
  - lia.
Qed.

(** The same for a loop over the lexer alone. *)
Lemma wp_lex_loop_inv {R} (J : str → str → Prop) (body : Lexer → exec (turn Lexer R))
    (Q : R → Prop) p t :
  (∀ m u, t = m ++ u → J m u →
    wp (body (at_ lang (p ++ m) u)) (λ o, match o with
      | Continue lx =>
          ∃ m' u', u = m' ++ u' ∧ m' ≠ [] ∧ lx = at_ lang (p ++ m ++ m') u' ∧ J (m ++ m') u'
      | Break r => Q r
      end)) →
  J [] t →
  wp (lex_loop body (at_ lang p t)) Q.
Proof.
  intros Hbody Ht. unfold lex_loop.
  apply (wp_loop (λ lx, ∃ m u, t = m ++ u ∧ lx = at_ lang (p ++ m) u ∧ J m u) bytes_left).
  - intros lx (m & u & Heq & -> & HJ). eapply wp_mono; [by apply Hbody|].
    intros [lx'|r]; [|done]. intros (m' & u' & -> & Hne & -> & HJ').
    split; [exists (m ++ m'), u'; by rewrite Heq, <- app_assoc|].
    rewrite !bytes_left_at. by apply bytes_left_app.
  - exists [], t. by rewrite app_nil_r.
  - lia.
Qed.

(** And for one that only moves the lexer and ends in a lexer state. *)
Lemma wp_lex_loop_state (body : Lexer → exec (turn Lexer Lexer)) p t :
  (∀ p u, wp (body (at_ lang p u)) (λ o, match o with
    | Continue lx => consumed_some lang p u lx
    | Break lx => consumed lang p u lx
    end)) →
  wp (lex_loop body (at_ lang p t)) (consumed lang p t).
Proof.
  intros Hbody. apply (wp_lex_loop_inv (λ _ _, True)); [|done]. intros m u Ht _.
  eapply wp_mono; [by apply Hbody|]. intros [lx|lx].
  - intros (m' & u' & -> & Hne & ->). exists m', u'. by rewrite <- app_assoc.
  - by apply consumed_trans.
Qed.
End Steps.

#[export] Hint Rewrite @rest_at @current_at @looking_at_at @bump_at @bump_at_nil : lexer.

(** Evaluates the observations of a state [at_ lang p (c :: t)] and the binds over them. *)
Ltac lex_simpl := repeat (progress (autorewrite with lexer; cbn [mbind exec_bind head])).

Section Skips.
Context `{Unicode} (lang : SourceLanguage).
Implicit Types p t m u : str.

Lemma consumed_one p c u : consumed_some lang p (c :: u) (at_ lang (p ++ [c]) u).
Proof. by exists [c], u. Qed.

Lemma consumed_end p : consumed lang p [] (at_ lang p []).
Proof. apply consumed_refl. Qed.

(** Bumping at most one character, as after a backslash. *)
Lemma bump_spec p u : wp (bump (at_ lang p u)) (consumed lang p u).
Proof.
  destruct u as [|c u]; lex_simpl; simpl; [apply consumed_refl|].
  apply consumed_some_weaken, consumed_one.
Qed.

Lemma bump_after p c u (Q : Lexer → Prop) :
  (∀ lx, consumed_some lang p (c :: u) lx → Q lx) → wp (bump (at_ lang (p ++ [c]) u)) Q.
Proof.
  intros HQ. eapply wp_mono; [apply bump_spec|]. intros lx Hlx. apply HQ.
  by apply (consumed_some_trans lang p (c :: u) [c] u).
Qed.

Lemma bump_while_spec f p t :
  wp (bump_while f (at_ lang p t)) (λ lx, ∃ m u,
    t = m ++ u ∧ lx = at_ lang (p ++ m) u ∧ Forall (λ c, f c = true) m
    ∧ match head u with Some c => f c = false | None => True end).
Proof.
  apply (wp_lex_loop_inv lang (λ m _, Forall (λ c, f c = true) m)); [|done].
  intros m [|c u] -> Hm; lex_simpl; [by exists m, []|]. destruct (f c) eqn:Ec; lex_simpl; cbn [wp].
  - exists [c], u. rewrite <- app_assoc. split_and!; [done..|]. apply Forall_app. auto.
  - by exists m, (c :: u).
Qed.

Lemma bump_while_some f p c u :
  f c = true →
  wp (bump_while f (at_ lang p (c :: u))) (λ lx, ∃ m v,
    c :: u = m ++ v ∧ m ≠ [] ∧ lx = at_ lang (p ++ m) v ∧ Forall (λ c, f c = true) m).
Proof.
  intros Hc. eapply wp_mono; [apply bump_while_spec|]. intros lx (m & v & Ht & -> & Hm & Hv).
  exists m, v. split_and!; [done| |done..]. intros ->. simpl in Ht. subst v. simpl in Hv. congruence.
Qed.

(** The states after a literal of plain characters. *)
Lemma starts_with_split text t : starts_with text t = true → ∃ u, t = text ++ u.
Proof. apply starts_with_spec. Qed.

(** A comment starts with its opening marker, so the nesting depth never goes below zero. *)
Lemma block_comment_spec p u :
  wp (skip_block_comment (at_ lang p (lit "/*" ++ u))) (λ lx, ∃ m v,
    lit "/*" ++ u = m ++ v ∧ m ≠ [] ∧ lx = at_ lang (p ++ m) v
    ∧ (v = [] ∨ ∃ body, m = body ++ lit "*/")).
Proof.
  unfold skip_block_comment.
  apply (wp_lex_loop lang
    (λ m v depth, (m = [] ∧ depth = 0%N ∧ starts_with (lit "/*") v = true)
                  ∨ (m ≠ [] ∧ (1 ≤ depth)%N))).
  - intros m v depth Ht HJ. lex_simpl. destruct v as [|c v]; cbn [head].
    { destruct HJ as [(_ & _ & ?)|[? _]]; [done|]. cbn [wp]. exists m, []. auto. }
    destruct (starts_with (lit "/*") (c :: v)) eqn:Eo.
    + apply starts_with_split in Eo as (w & Ew). rewrite Ew.
      change 2%N with (N.of_nat (length (lit "/*"))). rewrite bump_ascii_at by done.
      assert (∀ d', ∃ m' u', lit "/*" ++ w = m' ++ u' ∧ m' ≠ []
                ∧ at_ lang ((p ++ m) ++ lit "/*") w = at_ lang (p ++ m ++ m') u'
                ∧ ((m ++ m' = [] ∧ (d' + 1)%N = 0%N ∧ starts_with (lit "/*") u' = true)
                   ∨ (m ++ m' ≠ [] ∧ (1 ≤ d' + 1)%N))) as Hopen.
      { intros d'. exists (lit "/*"), w. rewrite <- app_assoc. split_and!; [done..|].
        right. split; [by destruct m|lia]. }
      destruct HJ as [(-> & -> & _)|[Hm Hd]]; cbn [andb orb N.eqb]; [apply Hopen|].
      destruct (N.eqb_spec depth 0); [lia|]. destruct (bool_decide _); cbn [andb orb]; [apply Hopen|].
      change (starts_with (lit "*/") (lit "/*" ++ w)) with false. cbn iota.
      change (lit "/*" ++ w) with (47%N :: lit "*" ++ w). lex_simpl. cbn [wp].
      exists [47%N], (lit "*" ++ w). rewrite <- app_assoc. split_and!; [done..|].
      right. split; [by destruct m|done].
    + destruct HJ as [(-> & _ & ?)|[Hm Hd]]; [congruence|]. cbn [andb].
      destruct (starts_with (lit "*/") (c :: v)) eqn:Ec.
      * apply starts_with_split in Ec as (w & Ew). rewrite Ew.
        change 2%N with (N.of_nat (length (lit "*/"))). rewrite bump_ascii_at by done.
        unfold checked_sub. destruct (decide _); [|lia]. cbn [or_panic mbind exec_bind].
        destruct (N.eqb_spec (depth - 1) 0); cbn [wp].
        -- exists (m ++ lit "*/"), w. rewrite Ht, Ew, !app_assoc.
           split_and!; [done|by destruct m|done|]. right. by exists m.
        -- exists (lit "*/"), w. rewrite <- app_assoc. split_and!; [done..|].
           right. split; [by destruct m|lia].
      * lex_simpl. cbn [wp]. exists [c], v. rewrite <- app_assoc.
        split_and!; [done..|]. right. split; [by destruct m|done].
  - left. split_and!; [done..|]. apply starts_with_spec. by exists u.
Qed.

(** Where trivia ends: at the end of the text or before something else. *)
Definition trivia_stops u : Prop :=
  match u with
  | [] => True
  | c :: _ => is_whitespace c = false
  end ∧ starts_with (lit "//") u = false ∧ starts_with (lit "/*") u = false.

Lemma trivia_app v w : trivia v → trivia w → trivia (v ++ w).
Proof.
  intros Hv Hw. induction Hv; rewrite <- ?app_assoc; simpl; [done|by apply trivia_space|..].
  - by apply trivia_line.
  - by apply trivia_block.
Qed.

Lemma starts_with_prefix q m u : starts_with q (m ++ u) = true → length q ≤ length m → starts_with q m = true.
Proof.
  revert m. induction q as [|c q IH]; intros [|d m]; simpl; try done; [lia|].
  rewrite !andb_true_iff. intros [? ?] ?. split; [done|]. apply IH; [done|lia].
Qed.

Lemma line_comment_spec p w :
  wp (bump_while (λ c, negb (c =? 10)%N) (at_ lang p (lit "//" ++ w))) (λ lx, ∃ m u,
    lit "//" ++ w = m ++ u ∧ m ≠ [] ∧ lx = at_ lang (p ++ m) u ∧ trivia m).
Proof.
  change (lit "//" ++ w) with (47%N :: 47%N :: w).
  eapply wp_mono; [apply bump_while_spec|]. intros lx (m & u & Ht & -> & Hm & Hu).
  exists m, u. destruct m as [|c [|d m]]; simplify_eq/=; try (subst; done).
  split_and!; [done..|]. rewrite <- (app_nil_r (_ :: _)). apply trivia_line; [done| |constructor].
  intros Hin. rewrite Forall_forall in Hm. by specialize (Hm _ Hin).
Qed.

Lemma skip_trivia_spec p t :
  wp (skip_trivia (at_ lang p t)) (λ lx, ∃ m u,
    t = m ++ u ∧ lx = at_ lang (p ++ m) u
    ∧ (trivia m ∧ trivia_stops u ∨ u = [] ∧ trivia_at_end m)).
Proof.
  apply (wp_lex_loop_inv lang (λ m u, trivia m ∨ u = [] ∧ trivia_at_end m)); [|left; constructor].
  intros m u Ht HJ. lex_simpl.
  assert (u = [] ∨ trivia m) as HJ' by naive_solver.
  destruct (match head u with Some c => is_whitespace c | None => false end) eqn:Ew.
  { destruct u as [|c u]; [done|]. destruct HJ' as [?|HJ']; [done|]. lex_simpl. cbn [wp].
    exists [c], u. rewrite <- app_assoc. split_and!; [done..|]. left.
    apply trivia_app; [done|]. apply trivia_space; [done|constructor]. }
  destruct (starts_with (lit "//") u) eqn:El.
  { apply starts_with_split in El as (w & ->). destruct HJ' as [?|HJ']; [done|].
    eapply wp_call; [apply line_comment_spec|]. intros lx (m' & u' & Hu & ? & -> & ?). cbn [wp].
    exists m', u'. rewrite <- app_assoc. split_and!; [done..|]. left. by apply trivia_app. }
  destruct (starts_with (lit "/*") u) eqn:Eb.
  - apply starts_with_split in Eb as (w & ->). destruct HJ' as [?|HJ']; [done|].
    eapply wp_call; [apply block_comment_spec|]. intros lx (m' & u' & Hu & ? & -> & Hend). cbn [wp].
    exists m', u'. rewrite <- app_assoc. split_and!; [done..|]. destruct Hend as [->|(body & ->)].
    + right. split; [done|]. right. exists m, m'. rewrite app_nil_r in Hu. rewrite <- Hu.
      split_and!; [done..|]. apply starts_with_spec. by exists w.
    + left. apply trivia_app; [done|]. rewrite <- (app_nil_r (body ++ _)).
      apply trivia_block; [|by exists body|constructor].
      apply (starts_with_prefix _ _ u'); [rewrite <- Hu; apply starts_with_spec; by exists w|].
      rewrite length_app. simpl. lia.
  - cbn [wp]. exists m, u. split; [done|]. split; [done|].
    destruct HJ as [HJ|HJ]; [left|by right]. split; [done|]. split; [|done]. by destruct u.
Qed.

Lemma skip_text_block_spec p t : wp (skip_text_block (at_ lang p t)) (consumed lang p t).
Proof.
  apply wp_lex_loop_state. intros q [|c u]; lex_simpl; [apply consumed_refl|].
  destruct (c =? 92)%N; [lex_simpl; apply wp_bind, bump_after; done|].
  destruct (starts_with _ (c :: u)) eqn:Es; [|lex_simpl; apply consumed_one].
  apply starts_with_split in Es as (w & ->). exists [34; 34; 34]%N, w. split; [done|].
  by apply (bump_ascii_at lang q [34; 34; 34]%N).
Qed.

Lemma skip_quoted_spec quote p c u :
  wp (skip_quoted quote (at_ lang p (c :: u))) (consumed_some lang p (c :: u)).
Proof.
  unfold skip_quoted. lex_simpl.
  eapply wp_mono; [apply wp_lex_loop_state|].
  - intros q [|d v]; lex_simpl; [apply consumed_refl|]. destruct (d =? 10)%N; [apply consumed_refl|].
    lex_simpl. destruct (d =? 92)%N; [apply wp_bind, bump_after; done|].
    destruct (d =? quote)%N; [apply consumed_some_weaken|]; apply consumed_one.
  - intros lx Hlx. by apply (consumed_some_trans lang p (c :: u) [c] u).
Qed.

Lemma skip_number_spec p t : wp (skip_number (at_ lang p t)) (consumed lang p t).
Proof.
  apply wp_lex_loop_state. intros q [|c u]; lex_simpl; [apply consumed_refl|].
  destruct (is_identifier_char c); [lex_simpl; apply consumed_one|].
  destruct (_ && _); [lex_simpl; apply consumed_one|apply consumed_refl].
Qed.

(** A number consumes at least its first digit. *)
Lemma skip_number_some p c u :
  is_ascii_digit c = true → wp (skip_number (at_ lang p (c :: u))) (consumed_some lang p (c :: u)).
Proof.
  intros Hc. assert (is_identifier_char c = true) as Hid.
  { unfold is_identifier_char, is_alphanumeric.
    assert (c <? 128 = true)%N as ->.
    { unfold is_ascii_digit, between in Hc. apply andb_true_iff in Hc as [_ ?%N.leb_le].
      apply N.ltb_lt. lia. }
    by rewrite Hc, orb_true_r. }
  unfold skip_number at 1, lex_loop. rewrite bytes_left_at. simpl blen. cbn [loop]. lex_simpl.
  rewrite Hid. lex_simpl. pose proof (len_utf8_pos c) as Hpos.
  apply (wp_loop (consumed_some lang p (c :: u)) bytes_left).
  - intros lx (m & v & Ht & Hm & ->). lex_simpl.
    destruct v as [|d v]; [by exists m, []|].
    assert (consumed_some lang p (c :: u) (at_ lang ((p ++ m) ++ [d]) v)
            ∧ bytes_left (at_ lang ((p ++ m) ++ [d]) v) < bytes_left (at_ lang (p ++ m) (d :: v))).
    { split; [by eapply consumed_then_some, consumed_one|]. rewrite !bytes_left_at.
      apply (bytes_left_app [] [d] v). done. }
    destruct (is_identifier_char d); [by lex_simpl|]. destruct (_ && _); [by lex_simpl|].
    by exists m, (d :: v).
  - apply consumed_one.
  - rewrite bytes_left_at. lia.
Qed.

Lemma is_template_start_at p t :
  is_template_start (at_ lang p t)
  = Done (bool_decide (lang = Kotlin) && starts_with (lit "${") t).
Proof. unfold is_template_start. by lex_simpl. Qed.

Section Template.
Context (next : Lexer → exec (option Token * Lexer)) (depth : nat).

(** What a call of [next_token] one level deeper promises. *)
Definition next_spec p t : Prop :=
  wp (next (at_ lang p t)) (λ '(token, lx), ∃ w m u,
    t = w ++ m ++ u ∧ lx = at_ lang (p ++ w ++ m) u ∧
    match token with
    | Some token => trivia w ∧ m ≠ [] ∧ token_shape lang (kind token) m ∧ token_at (p ++ w) m token
    | None => m = [] ∧ u = [] ∧ trivia_at_end w
    end).
Context (Hnext : depth < MAX_TEMPLATE_DEPTH → ∀ p t, next_spec p t).

Lemma token_slice p w m u token :
  token_at (p ++ w) m token → byte_slice (start token) (stop token) ((p ++ w ++ m) ++ u) = Some m.
Proof.
  intros (-> & -> & _). rewrite app_assoc, <- (app_assoc _ m u), (blen_app (p ++ w) m).
  apply byte_slice_app.
Qed.

Lemma skip_template_spec p u :
  wp (skip_template next depth (at_ lang p (lit "${" ++ u))) (consumed_some lang p (lit "${" ++ u)).
Proof.
  unfold skip_template. change 2%N with (N.of_nat (length (lit "${"))).
  rewrite bump_ascii_at by done.
  assert (∀ lx, consumed lang (p ++ lit "${") u lx → consumed_some lang p (lit "${" ++ u) lx) as Hfin.
  { intros lx Hlx. by apply (consumed_some_trans lang p _ (lit "${") u). }
  destruct (Nat.leb_spec MAX_TEMPLATE_DEPTH depth); [apply Hfin, consumed_refl|].
  apply (wp_lex_loop lang (λ _ _ d, 1 ≤ d)%N); [|lia].
  intros m v d Ht Hd. eapply wp_call; [by apply Hnext|].
  intros [[token|] lx] (w & m' & v' & -> & -> & Hm').
  - destruct Hm' as (_ & Hne & _ & Htok).
    assert (∀ d', (1 ≤ d')%N → ∃ m0 u0, w ++ m' ++ v' = m0 ++ u0 ∧ m0 ≠ []
              ∧ at_ lang ((p ++ lit "${") ++ m ++ w ++ m') v' = at_ lang ((p ++ lit "${") ++ m ++ m0) u0
              ∧ (1 ≤ d')%N) as Hgo.
    { intros d' Hd'. exists (w ++ m'), v'. rewrite <- app_assoc. split_and!; try done.
      by destruct w. }
    rewrite <- app_assoc. destruct (decide (kind token = Punctuation)); [|by apply Hgo].
    replace (source (at_ lang ((p ++ lit "${") ++ m ++ w ++ m') v'))
      with ((((p ++ lit "${") ++ m) ++ w ++ m') ++ v') by (simpl; by rewrite <- !app_assoc).
    rewrite (token_slice _ _ _ _ _ Htok). cbn [or_panic mbind exec_bind].
    destruct (decide (m' = lit "{")); [apply Hgo; lia|].
    destruct (decide (m' = lit "}")); [|by apply Hgo].
    unfold checked_sub. destruct (decide _); [|lia]. cbn [or_panic mbind exec_bind].
    destruct (N.eqb_spec (d - 1) 0); [|apply Hgo; lia].
    apply Hfin. exists (m ++ w ++ m'), v'. rewrite Ht, <- !app_assoc. done.
  - destruct Hm' as [-> _]. apply Hfin. exists (m ++ w), v'. rewrite Ht, app_nil_r, <- !app_assoc. done.
Qed.

Lemma skip_raw_string_spec p t : wp (skip_raw_string next depth (at_ lang p t)) (consumed lang p t).
Proof.
  apply wp_lex_loop_state. intros q u. lex_simpl. rewrite is_template_start_at. cbn [mbind exec_bind].
  destruct u as [|c u]; cbn [head]; [apply consumed_refl|].
  destruct (starts_with [34; 34; 34]%N (c :: u)).
  { eapply wp_call; [apply bump_while_spec|]. intros lx (m & v & ? & ? & _). by exists m, v. }
  destruct (bool_decide _ && starts_with (lit "${") (c :: u)) eqn:Et; [|lex_simpl; apply consumed_one].
  apply andb_true_iff in Et as [_ (w & ->)%starts_with_split].
  eapply wp_call; [apply skip_template_spec|]. done.
Qed.

Lemma skip_string_spec p u :
  wp (skip_string next depth (at_ lang p (34%N :: u))) (consumed_some lang p (34%N :: u)).
Proof.
  unfold skip_string. lex_simpl. destruct (starts_with _ (34%N :: u)) eqn:Es.
  - apply starts_with_split in Es as (w & Ew). rewrite Ew.
    change 3%N with (N.of_nat (length [34; 34; 34]%N)). rewrite bump_ascii_at by done.
    assert (∀ lx, consumed lang (p ++ [34; 34; 34]%N) w lx
              → consumed_some lang p ([34; 34; 34]%N ++ w) lx) as Hfin.
    { intros lx Hlx. by apply (consumed_some_trans lang p _ [34; 34; 34]%N w). }
    cbn [language at_]. pose proof (skip_text_block_spec (p ++ [34; 34; 34]%N) w) as Hblock.
    pose proof (skip_raw_string_spec (p ++ [34; 34; 34]%N) w) as Hraw.
    destruct lang; (eapply wp_mono; [eassumption|exact Hfin]).
  - change (34%N :: u) with ([34%N] ++ u). change 1%N with (N.of_nat (length [34%N])).
    rewrite bump_ascii_at by done.
    eapply wp_mono; [apply wp_lex_loop_state|].
    + intros q v. lex_simpl. destruct v as [|c v]; cbn [head]; [apply consumed_refl|].
      rewrite is_template_start_at. cbn [mbind exec_bind].
      destruct (c =? 10)%N; [apply consumed_refl|].
      destruct (c =? 92)%N; [lex_simpl; apply wp_bind, bump_after; done|].
      destruct (c =? 34)%N; [lex_simpl; apply consumed_some_weaken, consumed_one|].
      destruct (_ && (_ && starts_with (lit "${") (c :: v))) eqn:Et; [|lex_simpl; apply consumed_one].
      apply andb_true_iff in Et as [_ Et]. apply andb_true_iff in Et as [_ (w & ->)%starts_with_split].
      eapply wp_call; [apply skip_template_spec|]. done.
    + intros lx Hlx. by apply (consumed_some_trans lang p _ [34%N] u).
Qed.

Lemma skip_token_spec p c u :
  trivia_stops (c :: u) →
  wp (skip_token next depth c (at_ lang p (c :: u))) (λ '(k, lx), ∃ m v,
    c :: u = m ++ v ∧ m ≠ [] ∧ lx = at_ lang (p ++ m) v ∧ token_shape lang k m).
Proof.
  intros (Hspace & _ & _). unfold skip_token.
  assert (∀ k lx, consumed_some lang p (c :: u) lx →
            (∀ m, head m = Some c → token_shape lang k m) →
            ∃ m v, c :: u = m ++ v ∧ m ≠ [] ∧ lx = at_ lang (p ++ m) v ∧ token_shape lang k m) as Hend.
  { intros k lx (m & v & Ht & Hm & ->) Hk. exists m, v. split_and!; [done..|]. apply Hk.
    destruct m; [done|]. by simplify_eq/=. }
  destruct (N.eqb_spec c 34) as [->|].
  { eapply wp_call; [apply skip_string_spec|]. intros lx Hlx. cbn [wp].
    apply Hend; [done|]. intros m ?. exists 34%N. auto. }
  destruct (N.eqb_spec c 39) as [->|].
  { eapply wp_call; [apply skip_quoted_spec|]. intros lx Hlx. cbn [wp].
    apply Hend; [done|]. intros m ?. exists 39%N. auto. }
  destruct ((c =? 96)%N && bool_decide (language (at_ lang p (c :: u)) = Kotlin)) eqn:Eq.
  { eapply wp_call; [apply skip_quoted_spec|]. intros lx Hlx. cbn [wp].
    apply andb_true_iff in Eq as [->%N.eqb_eq Hl%bool_decide_eq_true].
    apply Hend; [done|]. intros m ?. right. auto. }
  destruct (is_ascii_digit c) eqn:Ed.
  { eapply wp_call; [by apply skip_number_some|]. intros lx Hlx. cbn [wp].
    apply Hend; [done|]. intros m ?. exists c. auto. }
  destruct (is_identifier_char c) eqn:Ei.
  { eapply wp_call; [by apply bump_while_some|]. intros lx (m & v & ? & ? & -> & ?). cbn [wp].
    exists m, v. split_and!; [done..|]. by left. }
  lex_simpl. destruct (starts_with (lit "->") (c :: u)) eqn:Ea; cbn [wp].
  - apply starts_with_split in Ea as (w & ->). change 2%N with (N.of_nat (length (lit "->"))).
    rewrite bump_ascii_at by done. exists (lit "->"), w. split_and!; [done..|]. by left.
  - exists [c], u. split_and!; [done..|]. right. by exists c.
Qed.
End Template.

(** Enough fuel for every template depth that can occur: the recursion of [next_token] is
    bounded by the template limit, not by the text. *)
Lemma next_token_spec fuel depth p t :
  depth ≤ MAX_TEMPLATE_DEPTH → S MAX_TEMPLATE_DEPTH ≤ fuel + depth →
  next_spec (next_token fuel depth) p t.
Proof.
  revert depth p t. induction fuel as [|fuel IH]; intros depth p t Hd Hf; [lia|].
  unfold next_spec. cbn [next_token]. eapply wp_call; [apply skip_trivia_spec|].
  intros lx (w & v & -> & -> & Hw). lex_simpl. destruct v as [|c v]; cbn [head].
  - exists w, [], []. rewrite !app_nil_r. split_and!; try done.
    destruct Hw as [[Hw _]|[_ Hw]]; [by left|done].
  - destruct Hw as [[Hw Hstop]|[? _]]; [|done]. eapply wp_call.
    + apply (skip_token_spec (next_token fuel (S depth)) depth); [|done].
      intros Hlt q s. apply IH; lia.
    + intros [k lx] (m & u & -> & Hm & -> & Hk). exists w, m, u. split; [done|].
      rewrite <- app_assoc. split; [done|]. split_and!; [done..|].
      unfold token_at. by rewrite <- app_assoc.
Qed.

Lemma tokenize_upto text :
  wp (tokenize text lang) (λ tokens, ∃ p rest,
    text = p ++ rest ∧ tokens_upto lang p tokens ∧ trivia_at_end rest).
Proof.
  unfold tokenize. change {| source := text; position := 0; current_line := 0; language := lang |}
    with (at_ lang [] text).
  apply (wp_lex_loop lang (λ m _ tokens, tokens_upto lang m tokens)); [|constructor].
  intros m u tokens -> Hm. eapply wp_call; [by apply next_token_spec; unfold MAX_TEMPLATE_DEPTH; lia|].
  intros [[token|] lx] (w & m' & v & -> & -> & Htok); cbn [wp].
  - destruct Htok as (? & ? & ? & ?). exists (w ++ m'), v. rewrite <- !app_assoc.
    split_and!; [done|by destruct w|done|]. by apply tokens_snoc.
  - destruct Htok as (-> & -> & Hend). exists m, w. by rewrite app_nil_r.
Qed.

(** Each token of a text is a piece of it. *)
Definition is_piece text (token : Token) m : Prop :=
  ∃ p rest, text = p ++ m ++ rest ∧ m ≠ [] ∧ token_shape lang (kind token) m ∧ token_at p m token.

Lemma is_piece_extend text rest token m : is_piece text token m → is_piece (text ++ rest) token m.
Proof.
  intros (p & rest' & -> & ?). exists p, (rest' ++ rest). by rewrite <- !app_assoc.
Qed.

Lemma tokens_upto_piece p tokens i token :
  tokens_upto lang p tokens → tokens !! i = Some token → ∃ m, is_piece p token m.
Proof.
  induction 1 as [|p skipped m last tokens ? IH]; [done|].
  intros [Hi|[? Hi]]%lookup_app_Some.
  - destruct IH as [m' ?]; [done|]. exists m'. by apply is_piece_extend.
  - apply list_lookup_singleton_Some in Hi as [_ <-]. exists m, (p ++ skipped), [].
    by rewrite app_nil_r, <- app_assoc.
Qed.

(** Tokens are in the order of the text and do not overlap. *)
Lemma tokens_upto_sorted p tokens i j ti tj :
  tokens_upto lang p tokens → tokens !! i = Some ti → tokens !! j = Some tj → i < j →
  (stop ti ≤ start tj)%N.
Proof.
  intros Hup. revert i j ti tj. induction Hup as [|p skipped m last tokens Hup IH]; [done|].
  intros i j ti tj Hi [Hj|[Hlen Hj]]%lookup_app_Some Hij.
  - apply (IH i j); [|done..]. rewrite lookup_app_l in Hi; [done|]. apply lookup_lt_Some in Hj. lia.
  - apply list_lookup_singleton_Some in Hj as [Hj <-].
    rewrite lookup_app_l in Hi by lia.
    destruct (tokens_upto_piece _ _ _ _ Hup Hi) as (m' & q & rest & -> & _ & _ & (_ & -> & _)).
    match goal with H : token_at _ _ last |- _ => destruct H as (-> & _) end.
    rewrite !blen_app. lia.
Qed.

Lemma is_piece_slice text token m :
  is_piece text token m → byte_slice (start token) (stop token) text = Some m.
Proof.
  intros (p & rest & -> & _ & _ & (-> & -> & _)). rewrite blen_app. apply byte_slice_app.
Qed.

(** Lexing never panics and always ends, on any text.  The tokens are non-empty pieces of the
    text in order, each with the lines it spans and a shape that fits its kind, and everything
    between and after them is white space or comments. *)
Theorem tokenize_sound text :
  wp (tokenize text lang) (λ tokens, ∃ p rest,
    text = p ++ rest ∧ tokens_upto lang p tokens ∧ trivia_at_end rest).
Proof. apply tokenize_upto. Qed.
End Skips.

Section Nesting.
Context `{Unicode} (lang : SourceLanguage).

(** The text of a punctuation token. *)
Definition punctuation (text : str) (tokens : list Token) (i : nat) : option str :=
  token ← tokens !! i;
  if decide (kind token = Punctuation) then byte_slice (start token) (stop token) text else None.

(** The links [links] pair an opening bracket with a later closing bracket of the same kind, are
    symmetric, and never cross. *)
Record well_linked (text : str) (tokens : list Token) (links : list (option nat)) : Prop := {
  linked_length : length links = length tokens;
  linked_symmetric i j : links !! i = Some (Some j) → links !! j = Some (Some i) ∧ i ≠ j;
  linked_kind i j : links !! i = Some (Some j) → i < j → ∃ opener closer,
    punctuation text tokens i = Some opener ∧ punctuation text tokens j = Some closer
    ∧ opener_of closer = Some opener ∧ is_opener opener = true;
  linked_nested i j k l :
    links !! i = Some (Some j) → links !! k = Some (Some l) → i < k < j → i < l < j;
}.

(** The loop invariant before token [n]. *)
Record brackets_inv (text : str) (tokens : list Token) (n : nat) (b : Brackets) : Prop := {
  brackets_linked : well_linked text tokens (matching b);
  brackets_seen i j : matching b !! i = Some (Some j) → i < n;
  brackets_sorted : StronglySorted (λ a c, c.1 < a.1) (open b);
  brackets_open i t : (i, t) ∈ open b →
    i < n ∧ matching b !! i = Some None ∧ punctuation text tokens i = Some t ∧ is_opener t = true;
  brackets_outside i j k t :
    matching b !! i = Some (Some j) → (k, t) ∈ open b → i < j → ¬ i < k < j;
}.

Lemma opener_not_closer t : is_opener t = true → opener_of t = None.
Proof.
  unfold is_opener. rewrite !orb_true_iff, !bool_decide_eq_true. by intros [[->| ->]| ->].
Qed.

Lemma brackets_next text tokens n b :
  brackets_inv text tokens n b → brackets_inv text tokens (S n) b.
Proof.
  intros []. split; try done; [naive_solver lia|].
  intros i t ?. destruct (brackets_open0 i t) as (? & ?); [done|]. split; [lia|done].
Qed.

(** The links after pairing [a] with [c]. *)
Lemma link_lookup (links : list (option nat)) a c i j :
  a ≠ c → a < length links → c < length links →
  <[c := Some a]> (<[a := Some c]> links) !! i = Some (Some j) ↔
  (i = c ∧ j = a) ∨ (i = a ∧ j = c) ∨ (i ≠ a ∧ i ≠ c ∧ links !! i = Some (Some j)).
Proof.
  intros Hne Ha Hc. rewrite list_lookup_insert_Some, length_insert, list_lookup_insert_Some.
  naive_solver.
Qed.

Lemma link_inv text tokens n b position first opener closer :
  brackets_inv text tokens n b → n < length tokens →
  punctuation text tokens n = Some closer → opener_of closer = Some opener →
  open b !! position = Some (first, opener) →
  brackets_inv text tokens (S n)
    {| matching := <[n := Some first]> (<[first := Some n]> (matching b));
       open := drop (S position) (open b) |}.
Proof.
  intros [[] ] Hn Hcloser Hopener Hpos.
  destruct (brackets_open0 first opener) as (Hfn & Hfree & Hfirst & Hop);
    [by eapply list_elem_of_lookup_2|].
  assert (matching b !! n = Some None) as Hfree_n.
  { destruct (lookup_lt_is_Some_2 (matching b) n) as [[j|] Hj]; [lia| |done].
    apply brackets_seen0 in Hj. lia. }
  assert (∀ i t, (i, t) ∈ drop (S position) (open b) → i < first ∧ (i, t) ∈ open b) as Hbelow.
  { intros i t Hin. split; [|by eapply elem_of_drop_inv].
    pose proof (StronglySorted_drop _ position _ brackets_sorted0) as Hs.
    rewrite (drop_S _ _ _ Hpos) in Hs. apply StronglySorted_inv in Hs as [_ Hs].
    rewrite Forall_forall in Hs. by apply (Hs (i, t)). }
  pose proof (λ i j, link_lookup (matching b) first n i j ltac:(lia) ltac:(lia) ltac:(lia)) as Hlook.
  assert (∀ i j, matching b !! i = Some (Some j) → i < n ∧ j < n ∧ i ≠ first ∧ j ≠ first) as Hold.
  { intros i j Hij. destruct (linked_symmetric0 _ _ Hij) as [Hji _].
    split; [by eapply brackets_seen0|]. split; [by eapply brackets_seen0|].
    split; intros ->; congruence. }
  split; [split|..]; simpl.
  - by rewrite !length_insert.
  - intros i j. rewrite !Hlook. intros [[-> ->]|[[-> ->]|(? & ? & Hij)]]; [naive_solver lia..|].
    destruct (linked_symmetric0 _ _ Hij). apply Hold in Hij. naive_solver lia.
  - intros i j. rewrite Hlook. intros [[-> ->]|[[-> ->]|(? & ? & Hij)]] Hlt; [lia| |by apply linked_kind0].
    by exists opener, closer.
  - intros i j k l. rewrite !Hlook.
    intros [[-> ->]|[[-> ->]|(? & ? & Hij)]] [[-> ->]|[[-> ->]|(? & ? & Hkl)]] Hk;
      try apply Hold in Hij as Hij'; try apply Hold in Hkl as Hkl'; try lia.
    + split; [|lia]. destruct (decide (first < l)); [done|exfalso].
      destruct (linked_symmetric0 _ _ Hkl) as [Hlk _].
      apply (brackets_outside0 l k first opener); [done|by eapply list_elem_of_lookup_2|lia|lia].
    + exfalso. eapply (brackets_outside0 i j first opener); [done|by eapply list_elem_of_lookup_2|lia|lia].
    + by apply (linked_nested0 i j k l).
  - intros i j. rewrite Hlook. intros [[-> ->]|[[-> ->]|(? & ? & Hij)]]; [lia..|].
    apply Hold in Hij. lia.
  - by apply StronglySorted_drop.
  - intros i t [Hi Hin]%Hbelow. destruct (brackets_open0 _ _ Hin) as (? & ? & ? & ?).
    split; [lia|]. rewrite !list_lookup_insert_ne by lia. done.
  - intros i j k t. rewrite Hlook. intros Hij [Hk Hin]%Hbelow.
    destruct Hij as [[-> ->]|[[-> ->]|(? & ? & Hij)]]; [lia..|]. by apply (brackets_outside0 i j k t).
Qed.

Lemma open_inv text tokens n b opener :
  brackets_inv text tokens n b → n < length tokens →
  punctuation text tokens n = Some opener → is_opener opener = true →
  brackets_inv text tokens (S n) {| matching := matching b; open := (n, opener) :: open b |}.
Proof.
  intros [] Hn Htext Hop. split; simpl; [done|..].
  - intros i j ?. assert (i < n) by eauto. lia.
  - constructor; [done|]. apply Forall_forall. intros [i t] Hin. by apply brackets_open0 in Hin as [? _].
  - intros i t [?|Hin]%elem_of_cons; simplify_eq.
    + split; [lia|]. split; [|done].
      destruct (lookup_lt_is_Some_2 (matching b) n) as [[j|] Hj]; [|apply brackets_seen0 in Hj; lia|done].
      by rewrite (linked_length _ _ _ brackets_linked0).
    + apply brackets_open0 in Hin as [? ?]. split; [lia|done].
  - intros i j k t Hij [?|Hin]%elem_of_cons ?; simplify_eq; [|by eauto].
    destruct (linked_symmetric _ _ _ brackets_linked0 _ _ Hij) as [?%brackets_seen0 _]. lia.
Qed.

Lemma match_token_inv text tokens n b piece :
  brackets_inv text tokens n b → n < length tokens → punctuation text tokens n = Some piece →
  wp (match_token n piece b) (brackets_inv text tokens (S n)).
Proof.
  intros Hb Hn Hpiece. unfold match_token.
  destruct (is_opener piece) eqn:Eo; [by apply open_inv|].
  destruct (opener_of piece) as [opener|] eqn:Ec; [|by apply brackets_next].
  destruct (list_find _ _) as [[position [first t]]|] eqn:Ef; [|by apply brackets_next].
  apply list_find_Some in Ef as (Hpos & -> & _).
  apply lookup_take_Some in Hpos as [Hpos _].
  pose proof Hb as [[Hlen _ _ _] _ _ Hopen _].
  destruct (Hopen first opener) as (? & _); [by eapply list_elem_of_lookup_2|].
  apply wp_bind, wp_list_set; [lia|]. apply wp_bind, wp_list_set; [rewrite length_insert; lia|].
  by apply (link_inv _ _ _ _ _ _ opener piece).
Qed.

Lemma match_brackets_spec text tokens :
  (∀ i token, tokens !! i = Some token → ∃ m, is_piece lang text token m) →
  wp (match_brackets text tokens) (well_linked text tokens).
Proof.
  intros Hpieces. unfold match_brackets.
  assert (brackets_inv text tokens 0
            {| matching := replicate (length tokens) None; open := [] |}) as Hinit.
  { split; [split|..]; simpl.
    - apply length_replicate.
    - intros i j [? ?]%lookup_replicate_1. done.
    - intros i j [? ?]%lookup_replicate_1. done.
    - intros i j k l [? ?]%lookup_replicate_1. done.
    - intros i j [? ?]%lookup_replicate_1. done.
    - constructor.
    - by intros i t ?%elem_of_nil.
    - intros i j k t _ ?%elem_of_nil. done. }
  eapply (wp_call _ _ (λ b, ∃ n, [] = drop n (imap pair tokens) ∧ brackets_inv text tokens n b)).
  - apply (wp_for_each (λ l b, ∃ n, l = drop n (imap pair tokens) ∧ brackets_inv text tokens n b)).
    + intros [i token] l b (n & Hl & Hb).
      assert (imap pair tokens !! n = Some (i, token)) as Hn.
      { rewrite <- (Nat.add_0_r n), <- lookup_drop, <- Hl. done. }
      rewrite list_lookup_imap in Hn. destruct (tokens !! n) as [token'|] eqn:Htok; simplify_eq/=.
      apply lookup_lt_Some in Htok as Hlt.
      assert (l = drop (S i) (imap pair tokens)) as ->.
      { rewrite <- (Nat.add_1_r i), <- drop_drop, <- Hl. done. }
      destruct (decide (kind token = Punctuation)) as [Hk|Hk].
      * destruct (Hpieces _ _ Htok) as [m Hm%is_piece_slice]. rewrite Hm. cbn [or_panic mbind exec_bind].
        eapply wp_mono; [apply (match_token_inv text tokens i); [done|done|]|by eauto].
        unfold punctuation. rewrite Htok. simpl. by rewrite decide_True.
      * exists (S i). split; [done|]. by apply brackets_next.
    + by exists 0.
  - intros b (n & _ & Hb). apply Hb.
Qed.

(** Linking the brackets of a lexed text never panics, and the links pair each opening bracket
    with a later closing bracket of its kind, symmetrically and without crossing. *)
Theorem match_brackets_nested text :
  wp (tokens ← tokenize text lang; links ← match_brackets text tokens; Done (tokens, links))
     (λ '(tokens, links), well_linked text tokens links).
Proof.
  eapply wp_call; [apply tokenize_upto|]. intros tokens (p & rest & -> & Hup & _).
  eapply wp_call; [apply match_brackets_spec|].
  - intros i token Hi. destruct (tokens_upto_piece _ _ _ _ _ Hup Hi) as [m Hm].
    exists m. by apply is_piece_extend.
  - done.
Qed.
End Nesting.
