(* ===== verification/Outline.v ===== *)
(** * Outline: the token outline of a source file

    Models the data and the token helpers of [src/index/declaration_source.rs]
    ([SourceOutline]).  Token indices are [nat]; every index here is at most the number of
    tokens plus three, far below the width of [usize].  A failing token slice is [None] in
    [text]; [text_defined] shows that it does not happen in a parsed outline. *)

From S2P Require Import Prelude.
From S2P Require Import Text.
From S2P Require Import Lexer.

Definition of_entry (entry : str) : SourceLanguage :=
  if ends_with (lit ".kt") entry then Kotlin else Java.

Record TypeDeclaration := {
  type_name : str;
  is_enum : bool;
  is_record : bool;
  is_companion : bool;
  type_type_parameters : option (nat * nat);
  primary_parameters : option (nat * nat);
  body : option (nat * nat);
}.

Record FunctionDeclaration := {
  function_name : str;
  is_constructor : bool;
  is_suspend : bool;
  function_type_parameters : option (nat * nat);
  receiver : option (nat * nat);
  parameters : nat * nat;
}.

Inductive MemberKind :=
| MType (declaration : TypeDeclaration)
| MFunction (function : FunctionDeclaration)
| MField (names : list str)
| MOther.

Record Member := {
  member_start : nat;
  member_end : nat;
  member_kind : MemberKind;
}.

(** Type variables in scope, with the half-open token range of their first bound. *)
Abbreviation TypeVariables := (gmap (list N) (option (nat * nat))) (only parsing).

(** The enclosing types of a located type, outermost first. *)
Abbreviation Owners := (list (TypeDeclaration * Member)) (only parsing).

Record SourceOutline := {
  outline_source : str;
  outline_language : SourceLanguage;
  tokens : list Token;
  matching : list (option nat);
}.

Definition parse `{Unicode} (source : str) (lang : SourceLanguage) : exec SourceOutline :=
  tokens ← tokenize source lang;
  matching ← match_brackets source tokens;
  Done {| outline_source := source; outline_language := lang;
          tokens := tokens; matching := matching |}.

(** [class_name.rsplit('.').next()], then one name per [$]; [None] for local classes. *)
Definition nested_type_path (class_name : str) : option (list str) :=
  let path := split_char (ch "$") (last_piece (N.eqb (ch ".")) class_name) in
  if forallb (λ segment, match segment with
                         | first :: _ => negb (is_ascii_digit first)
                         | [] => false
                         end) path
  then Some path else None.

Section Outline.
Context (o : SourceOutline).

Definition text (index : nat) : option str :=
  token ← tokens o !! index;
  byte_slice (start token) (stop token) (outline_source o).

Definition word (index : nat) : option str :=
  token ← tokens o !! index;
  if decide (kind token = Identifier) then text index else None.

(** An identifier with Kotlin backticks removed. *)
Definition identifier (index : nat) : option str := trim_matches (N.eqb 96) <$> word index.

Definition is_punct (index : nat) (value : str) : bool :=
  match tokens o !! index with
  | Some token => bool_decide (kind token = Punctuation)
  | None => false
  end && bool_decide (text index = Some value).

Definition any_punct (values : list str) (index : nat) : bool := existsb (is_punct index) values.

Definition is_closer : nat → bool := any_punct [lit ")"; lit "]"; lit "}"].

Definition closing (index : nat) : option nat := mjoin (matching o !! index).

(** The closer of a bracket opened at [index], or [index] for other tokens; an unclosed bracket
    extends to the last token before [stop]. *)
Definition group_end (index stop : nat) : nat :=
  if any_punct [lit "("; lit "["; lit "{"] index then
    match closing index with
    | Some close =>
        if bool_decide (index < close) && bool_decide (close < stop) then close
        else (stop - 1) `max` index
    | None => (stop - 1) `max` index
    end
  else index.

(** The [>] that closes the [<] at [first], or the last token before [stop]. *)
Definition angle_end (first stop : nat) : exec nat :=
  loop (S (stop - first)) (λ '(index, depth),
    if negb (Nat.ltb index stop) then Done (Break ((stop - 1) `max` first))
    else if is_punct index (lit "<") then Done (Continue (S (group_end index stop), S depth))
    else if is_punct index (lit ">") then
      if Nat.eqb (depth - 1) 0 then Done (Break index)
      else Done (Continue (S (group_end index stop), depth - 1))
    else if is_punct index (lit "{") || is_punct index (lit ";") then
      Done (Break ((index - 1) `max` first))
    else Done (Continue (S (group_end index stop), depth))) (first, 0).

(** The contents of the bracket pair [first]..[close], split at top-level commas. *)
Definition split_list (first close : nat) : exec (list (nat * nat)) :=
  parts ← loop (S (close - S first)) (λ '(index, (start, angle_depth, parts)),
    if negb (Nat.ltb index close) then Done (Break (parts ++ [(start, close)]))
    else
      let next := S (group_end index close) in
      if is_punct index (lit "<") then Done (Continue (next, (start, S angle_depth, parts)))
      else if is_punct index (lit ">") then
        Done (Continue (next, (start, angle_depth - 1, parts)))
      else if Nat.eqb angle_depth 0 && is_punct index (lit ",") then
        Done (Continue (next, (S index, angle_depth, parts ++ [(start, index)])))
      else Done (Continue (next, (start, angle_depth, parts))))
    (S first, (S first, 0, []));
  Done (filter (λ '(start, stop), start < stop) parts).
End Outline.

(** ** Specification *)

Section Specification.
Context `{Unicode} (o : SourceOutline).

(** What [parse] establishes: every token is a piece of the source and the links are nested. *)
Record outline_wf : Prop := {
  wf_pieces i token : tokens o !! i = Some token →
    ∃ m, is_piece (outline_language o) (outline_source o) token m;
  wf_linked : well_linked (outline_source o) (tokens o) (matching o);
}.

(** A range of tokens that ends at [stop] is followed by a closing bracket or by nothing, so a
    declaration cannot run past it. *)
Definition fence (stop : nat) : Prop :=
  stop = length (tokens o) ∨ (stop < length (tokens o) ∧ is_closer o stop = true).
End Specification.

(** ** Lemmas *)

Lemma parse_wf `{Unicode} source lang :
  wp (parse source lang) (λ o,
    outline_wf o ∧ outline_source o = source ∧ outline_language o = lang).
Proof.
  unfold parse. eapply wp_call; [apply tokenize_upto|]. intros tokens (p & rest & -> & Hup & _).
  assert (∀ i token, tokens !! i = Some token → ∃ m, is_piece lang (p ++ rest) token m) as Hpieces.
  { intros i token Hi. destruct (tokens_upto_piece _ _ _ _ _ Hup Hi) as [m Hm].
    exists m. by apply is_piece_extend. }
  eapply wp_call; [by apply (match_brackets_spec lang)|]. by intros matching Hlinked.
Qed.

(** In a parsed outline the slice of a token never fails. *)
Lemma text_defined `{Unicode} o i token :
  outline_wf o → tokens o !! i = Some token → is_Some (text o i).
Proof.
  intros Hwf Hi. destruct (wf_pieces o Hwf i token Hi) as [m Hm%is_piece_slice].
  unfold text. rewrite Hi. by exists m.
Qed.

(** The [<] and [<=] of the code as propositions. *)
Ltac to_props := repeat match goal with
  | H : negb _ = true |- _ => apply negb_true_iff in H
  | H : negb _ = false |- _ => apply negb_false_iff in H
  | H : Nat.ltb _ _ = true |- _ => apply Nat.ltb_lt in H
  | H : Nat.ltb _ _ = false |- _ => apply Nat.ltb_ge in H
  | H : Nat.leb _ _ = true |- _ => apply Nat.leb_le in H
  | H : Nat.leb _ _ = false |- _ => apply Nat.leb_gt in H
  | H : Nat.eqb _ _ = true |- _ => apply Nat.eqb_eq in H
  | H : Nat.eqb _ _ = false |- _ => apply Nat.eqb_neq in H
  | H : _ && _ = true |- _ => apply andb_true_iff in H as [? ?]
  | H : _ || _ = false |- _ => apply orb_false_iff in H as [? ?]
  | H : is_some _ = true |- _ => apply is_some_true in H
  end.

Section Facts.
Context (o : SourceOutline).
Notation len := (length (tokens o)).

Lemma is_punct_text i v : is_punct o i v = true → text o i = Some v.
Proof. unfold is_punct. intros [_ ?%bool_decide_eq_true]%andb_true_iff. done. Qed.

Lemma is_punct_lt i v : is_punct o i v = true → i < len.
Proof.
  unfold is_punct. destruct (tokens o !! i) eqn:E; [|done]. intros _. by eapply lookup_lt_Some.
Qed.

Lemma is_punct_punctuation i v :
  is_punct o i v = true ↔ punctuation (outline_source o) (tokens o) i = Some v.
Proof.
  unfold is_punct, punctuation, text. destruct (tokens o !! i) as [token|]; simpl; [|done].
  rewrite andb_true_iff, !bool_decide_eq_true. destruct (decide _); naive_solver.
Qed.

Lemma any_punct_spec vs i : any_punct o vs i = true ↔ ∃ v, v ∈ vs ∧ is_punct o i v = true.
Proof.
  unfold any_punct. rewrite existsb_exists. by setoid_rewrite list_elem_of_In.
Qed.

Lemma any_punct_lt vs i : any_punct o vs i = true → i < len.
Proof. intros (v & _ & ?)%any_punct_spec. by eapply is_punct_lt. Qed.

Lemma word_token i : is_Some (word o i) → ∃ token, tokens o !! i = Some token ∧ kind token = Identifier.
Proof.
  unfold word. intros [w Hw]. destruct (tokens o !! i) as [token|]; simplify_eq/=.
  exists token. split; [done|]. by destruct (decide _).
Qed.

Lemma identifier_word i : is_Some (identifier o i) → is_Some (word o i).
Proof. unfold identifier. by rewrite fmap_is_Some. Qed.

(** A token is not both an identifier and punctuation. *)
Lemma word_not_closer i : is_Some (word o i) → is_closer o i = false.
Proof.
  intros (token & Ht & Hk)%word_token. unfold is_closer, any_punct, is_punct. simpl.
  by rewrite Ht, Hk.
Qed.

Lemma not_closer_text i v :
  text o i = Some v → v ∉ [lit ")"; lit "]"; lit "}"] → is_closer o i = false.
Proof.
  intros Ht Hv. apply not_true_iff_false. intros (w & Hw & Hp)%any_punct_spec.
  apply is_punct_text in Hp. congruence.
Qed.

(** What a scan sees before a fence is inside the range. *)
Lemma fence_closer stop i : fence o stop → i ≤ stop → i < len → is_closer o i = false → i < stop.
Proof.
  intros [->|[_ Hs]] Hi Hlen Hc; [done|]. destruct (decide (i = stop)) as [->|]; [congruence|lia].
Qed.

Lemma fence_word stop i : fence o stop → is_Some (word o i) → i ≤ stop → i < stop.
Proof.
  intros Hf Hw Hi. destruct (word_token i Hw) as (token & Ht & _).
  eapply fence_closer; [done|done|by eapply lookup_lt_Some|by apply word_not_closer].
Qed.

Lemma fence_punct stop i v :
  fence o stop → is_punct o i v = true → existsb (λ w, bool_decide (w = v)) [lit ")"; lit "]"; lit "}"] = false →
  i ≤ stop → i < stop.
Proof.
  intros Hf Hp Hv Hi. eapply fence_closer; [done|done|by eapply is_punct_lt|].
  eapply not_closer_text; [by apply is_punct_text|]. intros Hin.
  apply not_true_iff_false in Hv. apply Hv, existsb_exists. exists v.
  split; [by apply list_elem_of_In|by apply bool_decide_eq_true].
Qed.

Lemma fence_any_punct stop i vs :
  fence o stop → any_punct o vs i = true →
  forallb (λ v, negb (existsb (λ w, bool_decide (w = v)) [lit ")"; lit "]"; lit "}"])) vs = true →
  i ≤ stop → i < stop.
Proof.
  intros Hf (v & Hv & Hp)%any_punct_spec Hall. eapply fence_punct; [done..|].
  rewrite forallb_forall in Hall. apply negb_true_iff, Hall. by apply list_elem_of_In.
Qed.

Lemma fence_le stop : fence o stop → stop ≤ len.
Proof. intros [->|[? _]]; lia. Qed.

Lemma fence_len : fence o len.
Proof. by left. Qed.

Lemma group_end_ge i stop : i ≤ group_end o i stop.
Proof. unfold group_end. repeat case_match; to_props; try lia.
  rewrite ?bool_decide_eq_true in *. lia. Qed.

Lemma group_end_lt i stop : i < stop → group_end o i stop < stop.
Proof. unfold group_end. repeat case_match; to_props; try lia.
  rewrite ?bool_decide_eq_true in *. lia. Qed.

Lemma identifier_Some i name : identifier o i = Some name → is_Some (word o i).
Proof. intros Hi. apply identifier_word. by eexists. Qed.

Lemma word_Some i w : word o i = Some w → is_Some (word o i).
Proof. by eexists. Qed.

Lemma word_lt i : is_Some (word o i) → i < len.
Proof. intros (token & ? & _)%word_token. by eapply lookup_lt_Some. Qed.
End Facts.

(** Adds what the scans need to know about the tokens they have looked at, and solves the
    arithmetic: bounds from fences, and the monotonicity of [group_end]. *)
Ltac learn_fact T tac := match goal with
  | _ : T |- _ => fail 1
  | _ => assert T by tac
  end.
Ltac token_facts := repeat match goal with
  | H : bool_decide (word _ _ = Some _) = true |- _ => apply bool_decide_eq_true in H
  | H : identifier ?o ?i = Some _ |- _ =>
      learn_fact constr:(is_Some (word o i)) ltac:(by eapply identifier_Some)
  | H : word ?o ?i = Some _ |- _ =>
      learn_fact constr:(is_Some (word o i)) ltac:(by eapply word_Some)
  | H : is_Some (identifier ?o ?i) |- _ =>
      learn_fact constr:(is_Some (word o i)) ltac:(by apply identifier_word)
  | H : is_Some (word ?o ?i) |- _ =>
      learn_fact constr:(i < length (tokens o)) ltac:(by apply word_lt)
  | H : is_punct ?o ?i _ = true |- _ =>
      learn_fact constr:(i < length (tokens o)) ltac:(by eapply is_punct_lt)
  | H : any_punct ?o _ ?i = true |- _ =>
      learn_fact constr:(i < length (tokens o)) ltac:(by eapply any_punct_lt)
  | F : fence ?o ?stop |- _ =>
      learn_fact constr:(stop ≤ length (tokens o)) ltac:(by apply fence_le)
  | F : fence ?o ?stop, H : is_Some (word ?o ?i) |- _ =>
      learn_fact constr:(i ≤ stop → i < stop) ltac:(by apply (fence_word o stop i))
  | F : fence ?o ?stop, H : is_punct ?o ?i ?v = true |- _ =>
      learn_fact constr:(i ≤ stop → i < stop) ltac:(by apply (fence_punct o stop i v))
  | F : fence ?o ?stop, H : any_punct ?o ?vs ?i = true |- _ =>
      learn_fact constr:(i ≤ stop → i < stop) ltac:(by apply (fence_any_punct o stop i vs))
  | |- context [group_end ?o ?i ?stop] =>
      learn_fact constr:(i ≤ group_end o i stop) ltac:(apply group_end_ge);
      learn_fact constr:(i < stop → group_end o i stop < stop) ltac:(apply group_end_lt)
  end.
Ltac scan_solve := to_props; token_facts; try lia.

(** Walks through the branches of a scan. *)
Ltac branch := match goal with
  | |- wp (if ?b then _ else _) _ => let E := fresh "E" in destruct b eqn:E
  | |- wp (match ?x with _ => _ end) _ => let E := fresh "E" in destruct x eqn:E
  | |- wp (Done _) _ => apply wp_ret
  | |- wp (mret _) _ => apply wp_mret
  end.
Ltac branches := repeat (branch; cbn [mbind exec_bind fmap exec_fmap]).

Section Scans.
Context (o : SourceOutline).

Lemma angle_end_spec first stop :
  wp (angle_end o first stop) (λ r, first ≤ r ∧ (first < stop → r < stop)).
Proof.
  unfold angle_end. apply (wp_scan stop (λ i _, first ≤ i)); [|lia].
  intros i depth Hi. branches; scan_solve.
Qed.

Lemma split_list_spec first close :
  wp (split_list o first close) (Forall (λ '(start, stop), first < start ∧ start < stop ∧ stop ≤ close)).
Proof.
  unfold split_list.
  eapply (wp_call _ _ (Forall (λ '(start, stop), first < start ∧ (start < stop → stop ≤ close)))).
  - apply (wp_scan close (λ i '(start, _, parts), first < start ∧ first < i ∧
      Forall (λ '(start, stop), first < start ∧ (start < stop → stop ≤ close)) parts)).
    + intros i [[start depth] parts] (Hstart & Hi & Hparts). branches; scan_solve.
      * apply Forall_app. split; [done|]. constructor; [|done]. lia.
      * split_and!; try lia; try done.
      * split_and!; try lia; try done.
      * split_and!; try lia. apply Forall_app. split; [done|]. constructor; [|done]. lia.
      * split_and!; try lia; try done.
    + split_and!; [lia..|constructor].
  - intros parts Hparts. cbn [wp]. apply Forall_forall. intros [start stop] Hin.
    apply list_elem_of_filter in Hin as [Hlt Hin]. rewrite Forall_forall in Hparts.
    specialize (Hparts _ Hin). simpl in *. lia.
Qed.
End Scans.
