(* ===== verification/Modifiers.v ===== *)
(** * Modifiers: annotations and declaration modifiers

    Models [skip_annotations] and [skip_modifiers] of
    [src/index/declaration_source/members.rs], which every declaration starts with. *)

From S2P Require Import Prelude.
From S2P Require Import Text.
From S2P Require Import Lexer.
From S2P Require Import Outline.

Definition JAVA_MODIFIERS : list str := lit <$>
  ["public"; "protected"; "private"; "static"; "final"; "abstract"; "transient"; "volatile";
   "synchronized"; "native"; "strictfp"; "default"; "sealed"]%string.

Definition KOTLIN_MODIFIERS : list str := lit <$>
  ["public"; "protected"; "private"; "internal"; "abstract"; "final"; "open"; "override";
   "sealed"; "data"; "inner"; "value"; "annotation"; "companion"; "const"; "lateinit";
   "inline"; "noinline"; "crossinline"; "suspend"; "tailrec"; "operator"; "infix"; "external";
   "expect"; "actual"; "vararg"]%string.

Record Modifiers := {
  mod_enum : bool;
  mod_suspend : bool;
  mod_companion : bool;
}.

Definition no_modifiers : Modifiers :=
  {| mod_enum := false; mod_suspend := false; mod_companion := false |}.

Section Modifiers.
Context (o : SourceOutline).

(** The qualified name of an annotation: identifiers joined by dots. *)
Definition skip_qualified_name (index : nat) : exec nat :=
  loop (S (length (tokens o) - index)) (λ '(index, _),
    if is_some (identifier o index) then
      let index := S index in
      if is_punct o index (lit ".") && is_some (identifier o (S index))
      then Done (Continue (S index, tt)) else Done (Break index)
    else Done (Break index)) (index, tt).

Definition skip_annotations (index stop : nat) : exec nat :=
  loop (S (stop - index)) (λ '(index, _),
    if Nat.ltb index stop && is_punct o index (lit "@")
       && negb (bool_decide (word o (S index) = Some (lit "interface"))) then
      let index := S index in
      let index :=
        if bool_decide (outline_language o = Kotlin) && is_some (identifier o index)
           && is_punct o (S index) (lit ":") then S (S index) else index in
      if is_punct o index (lit "[") then Done (Continue (S (group_end o index stop), tt))
      else
        index ← skip_qualified_name index;
        if is_punct o index (lit "(") then Done (Continue (S (group_end o index stop), tt))
        else Done (Continue (index, tt))
    else Done (Break index)) (index, tt).

Definition is_modifier (index : nat) (w : str) : bool :=
  match outline_language o with
  | Java => bool_decide (w ∈ JAVA_MODIFIERS)
  | Kotlin =>
      bool_decide (w ∈ KOTLIN_MODIFIERS)
      || bool_decide (w = lit "enum") && bool_decide (word o (S index) = Some (lit "class"))
  end.

Definition add_modifier (w : str) (m : Modifiers) : Modifiers := {|
  mod_enum := mod_enum m || bool_decide (w = lit "enum");
  mod_suspend := mod_suspend m || bool_decide (w = lit "suspend");
  mod_companion := mod_companion m || bool_decide (w = lit "companion");
|}.

Definition skip_modifiers (index stop : nat) : exec (nat * Modifiers) :=
  loop (S (stop - index)) (λ '(index, modifiers),
    index ← skip_annotations index stop;
    match word o index with
    | Some w =>
        if negb (Nat.ltb index stop) then Done (Break (index, modifiers))
        else if bool_decide (w = lit "non") && is_punct o (S index) (lit "-")
             && bool_decide (word o (2 + index) = Some (lit "sealed")) then
          Done (Continue (3 + index, modifiers))
        else if negb (is_modifier index w) then Done (Break (index, modifiers))
        else Done (Continue (S index, add_modifier w modifiers))
    | None => Done (Break (index, modifiers))
    end) (index, no_modifiers).
End Modifiers.

(** ** Lemmas *)

Section Lemmas.
Context (o : SourceOutline).

Lemma skip_qualified_name_spec index :
  wp (skip_qualified_name o index) (λ r,
    index ≤ r ∧ ∀ stop, fence o stop → index ≤ stop → r ≤ stop).
Proof.
  unfold skip_qualified_name.
  apply (wp_scan (length (tokens o)) (λ i _, index ≤ i ∧ ∀ stop, fence o stop → index ≤ stop → i ≤ stop)); [|done].
  intros i _ [Hi Hf]. branches; split_and?; try scan_solve; intros stop Hstop Hle; specialize (Hf stop Hstop Hle); scan_solve.
Qed.

Lemma skip_annotations_spec index stop :
  wp (skip_annotations o index stop) (λ r, index ≤ r ∧ (fence o stop → index ≤ stop → r ≤ stop)).
Proof.
  unfold skip_annotations.
  apply (wp_scan stop (λ i _, index ≤ i ∧ (fence o stop → index ≤ stop → i ≤ stop))); [|done].
  intros i _ [Hi Hf]. branch; [|by cbn [wp]]. to_props.
  set (j := if bool_decide _ && _ && _ then _ else _).
  assert (i < j ∧ (fence o stop → j ≤ stop)) as [Hj Hjf].
  { unfold j. destruct (_ && _ && _) eqn:E2; split; try lia; intros; scan_solve. }
  clearbody j. branch.
  - cbn [wp]. split_and!; try scan_solve. intros Hs ?. specialize (Hjf Hs). scan_solve.
  - eapply wp_call; [apply skip_qualified_name_spec|]. intros k [Hk Hkf]. cbn [mbind exec_bind].
    branch; cbn [wp]; split_and!; try scan_solve; intros Hs ?;
      specialize (Hkf stop Hs (Hjf Hs)); scan_solve.
Qed.

Lemma skip_modifiers_spec index stop :
  wp (skip_modifiers o index stop) (λ '(r, _), index ≤ r ∧ (fence o stop → index ≤ stop → r ≤ stop)).
Proof.
  unfold skip_modifiers.
  apply (wp_scan stop (λ i _, index ≤ i ∧ (fence o stop → index ≤ stop → i ≤ stop))); [|done].
  intros i modifiers [Hi Hf]. eapply wp_call; [apply skip_annotations_spec|].
  intros j [Hj Hjf]. branches; cbn [wp]; split_and?; try scan_solve; intros Hs ?;
    specialize (Hf Hs); specialize (Hjf Hs); scan_solve.
Qed.
End Lemmas.
