(* ===== verification/Erasure.v ===== *)
(** * Erasure: parameter types against classfile descriptors

    Models [src/index/declaration_source/erasure.rs]: the parameters of a JVM descriptor, the
    erasure of Java and Kotlin source types, and the comparison of the two.  The recursion of
    [kotlin_type] and [erase] is bounded by the code's own limits, which are the fuel. *)

From S2P Require Import Prelude.
From S2P Require Import Text.
From S2P Require Import Lexer.
From S2P Require Import Outline.
From S2P Require Import Modifiers.

Definition MAX_TYPE_NESTING : nat := 32.
Definition MAX_TYPE_VARIABLE_DEPTH : nat := 8.

(** An erased JVM parameter type: its simple name and array dimensions. *)
Record ErasedType := {
  erased_name : str;
  dimensions : nat;
}.
#[export] Instance ErasedType_eq_dec : EqDecision ErasedType.
Proof. solve_decision. Defined.

Definition erased_type (name : str) (dims : nat) : ErasedType :=
  {| erased_name := name; dimensions := dims |}.

Inductive DescriptorMatch := Proven | Possible | Excluded.
#[export] Instance DescriptorMatch_eq_dec : EqDecision DescriptorMatch.
Proof. solve_decision. Defined.

(** ** Descriptors *)

Definition primitive_name (descriptor : char) : option str :=
  if (descriptor =? ch "B")%N then Some (lit "byte")
  else if (descriptor =? ch "C")%N then Some (lit "char")
  else if (descriptor =? ch "D")%N then Some (lit "double")
  else if (descriptor =? ch "F")%N then Some (lit "float")
  else if (descriptor =? ch "I")%N then Some (lit "int")
  else if (descriptor =? ch "J")%N then Some (lit "long")
  else if (descriptor =? ch "S")%N then Some (lit "short")
  else if (descriptor =? ch "Z")%N then Some (lit "boolean")
  else None.

(** [by_ref().take_while(|value| *value != ';')]: the taken characters and the rest. *)
Definition take_class (characters : str) : str * str :=
  default (characters, []) (split_once (ch ";") characters).

Definition simple_binary_name (binary : str) : str :=
  last_piece (N.eqb (ch "$")) (last_piece (N.eqb (ch "/")) binary).

(** One turn of the loop of [descriptor_parameters]: the characters left, the array dimensions
    seen and the types read. *)
Definition descriptor_step : str * nat * list ErasedType →
    exec (turn (str * nat * list ErasedType) (option (list ErasedType))) :=
  λ '(characters, dims, result),
    match characters with
    | [] => Done (Break (if Nat.eqb dims 0 then Some result else None))
    | c :: characters =>
        if (c =? ch "[")%N then Done (Continue (characters, S dims, result))
        else if (c =? ch "L")%N then
          let '(binary, characters) := take_class characters in
          Done (Continue (characters, 0,
                          result ++ [erased_type (simple_binary_name binary) dims]))
        else match primitive_name c with
             | Some name => Done (Continue (characters, 0, result ++ [erased_type name dims]))
             | None => Done (Break None)
             end
    end.

Definition descriptor_types (parameters : str) : exec (option (list ErasedType)) :=
  loop (S (length parameters)) descriptor_step (parameters, 0, []).

Definition descriptor_parameters (descriptor : str) : exec (option (list ErasedType)) :=
  match strip_prefix (lit "(") descriptor with
  | None => Done None
  | Some inner =>
      match split_once (ch ")") inner with
      | None => Done None
      | Some (parameters, _) => descriptor_types parameters
      end
  end.

(** ** Kotlin names *)

Definition kotlin_primitive (name : str) : option (str * str) :=
  if decide (name = lit "Int") then Some (lit "int", lit "Integer")
  else if decide (name = lit "Long") then Some (lit "long", lit "Long")
  else if decide (name = lit "Short") then Some (lit "short", lit "Short")
  else if decide (name = lit "Byte") then Some (lit "byte", lit "Byte")
  else if decide (name = lit "Char") then Some (lit "char", lit "Character")
  else if decide (name = lit "Boolean") then Some (lit "boolean", lit "Boolean")
  else if decide (name = lit "Float") then Some (lit "float", lit "Float")
  else if decide (name = lit "Double") then Some (lit "double", lit "Double")
  else None.

Definition kotlin_mapped_name (name : str) : str :=
  if decide (name = lit "Any") then lit "Object"
  else if decide (name = lit "Nothing") then lit "Void"
  else if decide (name = lit "MutableList") then lit "List"
  else if decide (name = lit "MutableSet") then lit "Set"
  else if decide (name = lit "MutableMap") then lit "Map"
  else if decide (name = lit "MutableCollection") then lit "Collection"
  else if decide (name = lit "MutableIterable") then lit "Iterable"
  else if decide (name = lit "MutableIterator") then lit "Iterator"
  else if decide (name = lit "MutableListIterator") then lit "ListIterator"
  else if decide (name = lit "MutableEntry") then lit "Entry"
  else name.

Fixpoint kotlin_erased_name_fuel `{Unicode} (fuel : nat) (name : str) (boxed : bool)
    : exec ErasedType :=
  match fuel with
  | O => Stuck
  | S fuel =>
      match kotlin_primitive name with
      | Some (primitive, boxed_name) =>
          Done (erased_type (if boxed then boxed_name else primitive) 0)
      | None =>
          match strip_suffix (lit "Array") name with
          | Some element =>
              element ← kotlin_erased_name_fuel fuel element false;
              if match erased_name element with c :: _ => is_lowercase c | [] => false end
              then Done (erased_type (erased_name element) 1)
              else Done (erased_type (kotlin_mapped_name name) 0)
          | None => Done (erased_type (kotlin_mapped_name name) 0)
          end
      end
  end.
(** Every further turn strips the suffix [Array]. *)
Definition kotlin_erased_name `{Unicode} (name : str) (boxed : bool) : exec ErasedType :=
  kotlin_erased_name_fuel (S (length name)) name boxed.

Section Erasure.
Context `{Unicode} (o : SourceOutline).

(** ** Java types *)

(** The qualified type name at [index]: its last identifier and the index after it. *)
Definition java_type_name (index stop : nat) : exec (option (str * nat)) :=
  loop (S (stop - index)) (λ '(index, _),
    index ← skip_annotations o index stop;
    match identifier o index with
    | Some name =>
        if negb (Nat.ltb index stop) then Done (Break None)
        else
          let index := S index in
          index ← (if is_punct o index (lit "<")
                   then S <$> angle_end o index stop else Done index);
          if is_punct o index (lit ".") && is_some (identifier o (S index))
          then Done (Continue (S index, tt))
          else Done (Break (Some (name, index)))
    | None => Done (Break None)
    end) (index, tt).

Definition java_dimensions (index stop : nat) : exec (nat * nat) :=
  loop (S (length (tokens o) - index)) (λ '(index, dims),
    index ← skip_annotations o index stop;
    if is_punct o index (lit "[") && is_punct o (S index) (lit "]")
    then Done (Continue (2 + index, S dims)) else Done (Break (index, dims))) (index, 0).

Definition java_type (index stop : nat) : exec (option (ErasedType * nat)) :=
  found ← java_type_name index stop;
  match found with
  | None => Done None
  | Some (name, index) =>
      '(index, dims) ← java_dimensions index stop;
      if forallb (λ offset, is_punct o (index + offset) (lit ".")) [0; 1; 2]
      then Done (Some (erased_type name (S dims), 3 + index))
      else Done (Some (erased_type name dims, index))
  end.

Definition java_parameter_name_index (start stop : nat) : exec (option nat) :=
  '(index, _) ← skip_modifiers o start stop;
  found ← java_type index stop;
  Done ('(_, index) ← found;
        if Nat.ltb index stop && is_some (identifier o index) then Some index else None).

(** Erased type of one Java parameter; [Some None] for a receiver parameter. *)
Definition java_parameter (start stop : nat) : exec (option (option ErasedType)) :=
  '(index, _) ← skip_modifiers o start stop;
  found ← java_type index stop;
  match found with
  | None => Done None
  | Some (erased, index) =>
      if bool_decide (word o index = Some (lit "this"))
         || bool_decide (word o (2 + index) = Some (lit "this"))
      then Done (Some None)
      else
        dims ← loop (S (stop - index)) (λ '(cursor, dims),
          if Nat.ltb (S cursor) stop && is_punct o cursor (lit "[")
             && is_punct o (S cursor) (lit "]")
          then Done (Continue (2 + cursor, S dims)) else Done (Break dims))
          (S index, dimensions erased);
        Done (Some (Some (erased_type (erased_name erased) dims)))
  end.

(** ** Kotlin types *)

(** The first token from [index] on that is [value] at the top level, or a bound past [stop]. *)
Definition scan_to (value : str) (index stop : nat) : exec nat :=
  loop (S (stop - index)) (λ '(index, _),
    if Nat.ltb index stop && negb (is_punct o index value)
    then Done (Continue (S (group_end o index stop), tt)) else Done (Break index)) (index, tt).

Definition kotlin_function_type_arity (start stop : nat) : exec (option nat) :=
  index ← scan_to (lit "->") start stop;
  match index with
  | O => Done None
  | S close =>
      if negb (Nat.ltb index stop) || negb (is_punct o close (lit ")")) then Done None
      else match closing o close with
           | Some first =>
               if Nat.leb start first && Nat.ltb first close then
                 parts ← split_list o first close;
                 Done (Some (length parts + (if Nat.ltb start first then 1 else 0)))
               else Done None
           | None => Done None
           end
  end.

(** The qualified type name at [index]: its last segment and that segment's type arguments. *)
Definition kotlin_type_name (index stop : nat) (name : str)
    : exec (str * option (nat * nat)) :=
  loop (S (stop - index)) (λ '(index, (name, arguments)),
    let index := S index in
    '(index, arguments) ←
      (if is_punct o index (lit "<") then
         close ← angle_end o index stop; Done (S close, Some (index, close))
       else Done (index, arguments));
    match identifier o (S index) with
    | Some segment =>
        if is_punct o index (lit ".") && Nat.ltb (S index) stop
        then Done (Continue (S index, (segment, None)))
        else Done (Break (name, arguments))
    | None => Done (Break (name, arguments))
    end) (index, (name, None)).

(** [kotlin_array_type], given [kotlin_type] one level deeper. *)
Definition kotlin_array_type (kotlin_type : nat → nat → bool → exec (option ErasedType))
    (arguments : option (nat * nat)) : exec ErasedType :=
  parts ← match arguments with
          | Some (first, close) => split_list o first close
          | None => Done []
          end;
  element ← match parts with
            | (start, stop) :: _ =>
                let start :=
                  if bool_decide (word o start = Some (lit "out"))
                     || bool_decide (word o start = Some (lit "in")) then S start else start in
                kotlin_type start stop true
            | [] => Done None
            end;
  let element := default (erased_type (lit "Object") 0) element in
  Done (erased_type (erased_name element) (S (dimensions element))).

Fixpoint kotlin_type (fuel start stop : nat) (boxed : bool) (depth : nat)
    : exec (option ErasedType) :=
  match fuel with
  | O => Stuck
  | S fuel =>
      if Nat.leb MAX_TYPE_NESTING depth then Done None
      else
        index ← skip_annotations o start stop;
        let suspend := bool_decide (word o index = Some (lit "suspend")) in
        let index := if suspend then S index else index in
        nullable ← (if Nat.ltb index stop
                    then (λ last, is_punct o last (lit "?")) <$> pred_index stop
                    else Done false);
        arity ← kotlin_function_type_arity index stop;
        match arity with
        | Some arity =>
            let arity := arity + (if suspend then 1 else 0) in
            Done (Some (erased_type (lit "Function" ++ to_dec (N.of_nat arity)) 0))
        | None =>
            if is_punct o index (lit "(") then
              kotlin_type fuel (S index) (group_end o index stop) (boxed || nullable) (S depth)
            else match identifier o index with
            | Some name =>
                if negb (Nat.ltb index stop) then Done None
                else
                  '(name, arguments) ← kotlin_type_name index stop name;
                  if bool_decide (name = lit "Array") then
                    Some <$> kotlin_array_type
                      (λ start stop boxed, kotlin_type fuel start stop boxed (S depth)) arguments
                  else Some <$> kotlin_erased_name name (boxed || nullable)
            | None => Done None
            end
        end
  end.

Definition KOTLIN_TYPE_FUEL : nat := S MAX_TYPE_NESTING.

(** The modifiers of a Kotlin parameter, up to its name; also whether one was [vararg]. *)
Definition kotlin_parameter_modifiers (index stop : nat) : exec (nat * bool) :=
  loop (S (length (tokens o) - index)) (λ '(index, is_vararg),
    match word o index with
    | None => Done (Break (index, is_vararg))
    | Some w =>
        if negb (bool_decide (w = lit "val") || bool_decide (w = lit "var")
                 || bool_decide (w ∈ KOTLIN_MODIFIERS))
           || is_punct o (S index) (lit ":")
        then Done (Break (index, is_vararg))
        else
          index ← skip_annotations o (S index) stop;
          Done (Continue (index, is_vararg || bool_decide (w = lit "vararg")))
    end) (index, false).

Definition kotlin_parameter (start stop : nat) : exec (option ErasedType) :=
  index ← skip_annotations o start stop;
  '(index, is_vararg) ← kotlin_parameter_modifiers index stop;
  if negb (is_some (identifier o index)) || negb (is_punct o (S index) (lit ":")) then Done None
  else
    let type_start := 2 + index in
    type_end ← scan_to (lit "=") type_start stop;
    erased ← kotlin_type KOTLIN_TYPE_FUEL type_start (type_end `min` stop) false 0;
    Done (erased ← erased;
          Some (if is_vararg : bool
                then erased_type (erased_name erased) (S (dimensions erased)) else erased)).

(** ** Type variables *)

Definition collect_type_variable (start stop : nat) (variables : TypeVariables)
    : exec TypeVariables :=
  index ← skip_annotations o start stop;
  let index :=
    if bool_decide (word o index = Some (lit "reified"))
       || bool_decide (word o index = Some (lit "in"))
       || bool_decide (word o index = Some (lit "out")) then S index else index in
  match identifier o index with
  | None => Done variables
  | Some name =>
      let has_bound := bool_decide (word o (S index) = Some (lit "extends"))
                       || is_punct o (S index) (lit ":") in
      let bound_start := 2 + index in
      bound ← (if has_bound && Nat.ltb bound_start stop then
                 bound_end ← scan_to (lit "&") bound_start stop;
                 Done (Some (bound_start, bound_end `min` stop))
               else Done None);
      Done (<[name := bound]> variables)
  end.

Definition collect_type_variables (parameters : option (nat * nat)) (variables : TypeVariables)
    : exec TypeVariables :=
  match parameters with
  | None => Done variables
  | Some (first, close) =>
      parts ← split_list o first close;
      for_each (λ variables '(start, stop), collect_type_variable start stop variables)
        parts variables
  end.

Fixpoint erase_fuel (fuel : nat) (erased : ErasedType) (variables : TypeVariables) (depth : nat)
    : exec ErasedType :=
  match fuel with
  | O => Stuck
  | S fuel =>
      match variables !! erased_name erased with
      | None => Done erased
      | Some bound =>
          if Nat.leb MAX_TYPE_VARIABLE_DEPTH depth
          then Done (erased_type (lit "Object") (dimensions erased))
          else
            base ← match bound with
                   | None => Done None
                   | Some (start, stop) =>
                       match outline_language o with
                       | Java => fmap fst <$> java_type start stop
                       | Kotlin => kotlin_type KOTLIN_TYPE_FUEL start stop true 0
                       end
                   end;
            base ← match base with
                   | None => Done (erased_type (lit "Object") 0)
                   | Some base => erase_fuel fuel base variables (S depth)
                   end;
            Done (erased_type (erased_name base) (dimensions base + dimensions erased))
      end
  end.
Definition erase (erased : ErasedType) (variables : TypeVariables) : exec ErasedType :=
  erase_fuel (S MAX_TYPE_VARIABLE_DEPTH) erased variables 0.

(** ** Signatures *)

(** One source parameter appended to a signature, if it can be erased. *)
Definition push_parameter (variables : TypeVariables) (signature : option (list ErasedType))
    (part : nat * nat) : exec (option (list ErasedType)) :=
  match signature with
  | None => Done None
  | Some signature =>
      parameter ← match outline_language o with
                  | Java => java_parameter part.1 part.2
                  | Kotlin => fmap Some <$> kotlin_parameter part.1 part.2
                  end;
      match parameter with
      | None => Done None
      | Some None => Done (Some signature)
      | Some (Some parameter) =>
          erased ← erase parameter variables;
          Done (Some (signature ++ [erased]))
      end
  end.

Definition receiver_signature (function : FunctionDeclaration) (variables : TypeVariables)
    : exec (option (list ErasedType)) :=
  match receiver function with
  | None => Done (Some [])
  | Some (start, stop) =>
      erased ← kotlin_type KOTLIN_TYPE_FUEL start stop false 0;
      match erased with
      | None => Done None
      | Some erased => erased ← erase erased variables; Done (Some [erased])
      end
  end.

Definition erased_signature (function : FunctionDeclaration) (variables : TypeVariables)
    : exec (option (list ErasedType)) :=
  signature ← receiver_signature function variables;
  match signature with
  | None => Done None
  | Some _ =>
      parts ← split_list o (parameters function).1 (parameters function).2;
      signature ← for_each (push_parameter variables) parts signature;
      Done (signature ← signature;
            Some (if is_suspend function
                  then signature ++ [erased_type (lit "Continuation") 0] else signature))
  end.

Definition synthetic_constructor_prefix (owner : TypeDeclaration) (enclosing : option str)
    (actual expected : list ErasedType) : bool :=
  let inner :=
    match enclosing with
    | Some enclosing =>
        Nat.eqb (length expected) (length actual + 1)
        && bool_decide (expected !! 0 = Some (erased_type enclosing 0))
        && bool_decide (drop 1 expected = actual)
    | None => false
    end in
  let enumeration :=
    is_enum owner
    && Nat.eqb (length expected) (length actual + 2)
    && bool_decide (expected !! 0 = Some (erased_type (lit "String") 0))
    && bool_decide (expected !! 1 = Some (erased_type (lit "int") 0))
    && bool_decide (drop 2 expected = actual) in
  inner || enumeration.

Definition variables_in_scope (function : FunctionDeclaration) (owners : Owners)
    : exec TypeVariables :=
  variables ← for_each (λ variables '(owner, _),
                          collect_type_variables (type_type_parameters owner) variables)
                owners ∅;
  collect_type_variables (function_type_parameters function) variables.

Definition erased_parameters_match (function : FunctionDeclaration) (owners : Owners)
    (expected : list ErasedType) : exec bool :=
  variables ← variables_in_scope function owners;
  signature ← erased_signature function variables;
  match signature with
  | None => Done false
  | Some actual =>
      if bool_decide (actual = expected) then Done true
      else match last owners with
      | None => Done false
      | Some (owner, _) =>
          enclosing ← match length owners with
                      | S (S index) =>
                          '(outer, _) ← or_panic (owners !! index); Done (Some (type_name outer))
                      | _ => Done None
                      end;
          Done (is_constructor function
                && synthetic_constructor_prefix owner enclosing actual expected)
      end
  end.

Definition function_matches (member : Member) (owners : Owners) (expected : list ErasedType)
    : exec DescriptorMatch :=
  match member_kind member with
  | MFunction function =>
      if negb (is_punct o (parameters function).2 (lit ")")) then Done Possible
      else
        matches ← erased_parameters_match function owners expected;
        Done (if matches : bool then Proven else Excluded)
  | _ => Done Excluded
  end.
End Erasure.

(** ** Termination *)

Section Totality.
Context `{Unicode} (o : SourceOutline).

Lemma take_class_length characters :
  length (take_class characters).2 ≤ length characters.
Proof.
  unfold take_class. destruct (split_once _ _) as [[a b]|] eqn:E; simpl; [|lia].
  apply split_once_spec in E as [-> _]. rewrite length_app. simpl. lia.
Qed.

Lemma descriptor_types_total parameters : total (descriptor_types parameters).
Proof.
  apply (wp_loop (λ _, True) (λ '(characters, _, _), length characters)); [|done|lia].
  intros [[characters dims] result] _. destruct characters as [|c characters]; [done|].
  cbn [descriptor_step].
  pose proof (take_class_length characters). destruct (take_class characters) as [binary rest].
  branches; simpl in *; try done; (split; [done|lia]).
Qed.

Lemma descriptor_parameters_total descriptor : total (descriptor_parameters descriptor).
Proof. unfold descriptor_parameters. branches; [|done..]. apply descriptor_types_total. Qed.

Lemma kotlin_erased_name_total name boxed : total (kotlin_erased_name name boxed).
Proof.
  unfold kotlin_erased_name. assert (length name < S (length name)) as Hfuel by lia. revert Hfuel.
  generalize (S (length name)). intros fuel. revert name boxed.
  induction fuel as [|fuel IH]; intros name boxed Hfuel; [lia|]. simpl. branches; [done| |done].
  apply strip_suffix_spec in E0 as ->. rewrite length_app in Hfuel. simpl in Hfuel.
  call_total IH; [lia|]. branches; done.
Qed.

Lemma java_type_name_total index stop : total (java_type_name o index stop).
Proof.
  apply (wp_scan stop (λ _ _, True)); [|done]. intros i [] _.
  eapply wp_call; [apply skip_annotations_spec|]. intros j [Hj _].
  branches; [done| |done]. to_props.
  eapply (wp_call _ _ (λ k, S j ≤ k)).
  - branch; [|cbn [wp]; lia]. eapply wp_mono; [|intros ? Hk; exact Hk].
    pose proof (angle_end_spec o (S j) stop) as Hspec.
    destruct (angle_end o (S j) stop); simpl in *; [lia|done..].
  - intros k Hk. branches; [|done]. split_and!; [lia|lia|done].
Qed.

Lemma java_dimensions_total index stop : total (java_dimensions o index stop).
Proof.
  apply (wp_scan (length (tokens o)) (λ _ _, True)); [|done]. intros i dims _.
  eapply wp_call; [apply skip_annotations_spec|]. intros j [Hj _]. branches; [|done]. scan_solve.
Qed.

Lemma java_type_total index stop : total (java_type o index stop).
Proof.
  unfold java_type. call_total java_type_name_total. branches; [|done].
  call_total java_dimensions_total. branches; done.
Qed.

Lemma java_parameter_name_index_total start stop : total (java_parameter_name_index o start stop).
Proof.
  unfold java_parameter_name_index. call_total skip_modifiers_spec. branches.
  by call_total java_type_total.
Qed.

Lemma java_parameter_total start stop : total (java_parameter o start stop).
Proof.
  unfold java_parameter. call_total skip_modifiers_spec. branches. call_total java_type_total.
  branches; [done| |done]. eapply (wp_call _ _ (λ _, True)); [|done].
  match goal with |- context [loop _ _ (S ?n, _)] =>
    apply (wp_loop (λ _, True) (λ '(cursor, _), S stop - cursor)); [|done|lia] end.
  intros [cursor dims] _. branches; [|done]. to_props. split; [done|lia].
Qed.

Lemma scan_to_spec value index stop : wp (scan_to o value index stop) (λ r, index ≤ r).
Proof.
  apply (wp_scan stop (λ i _, index ≤ i)); [|lia]. intros i [] Hi. branches; scan_solve.
Qed.

Lemma kotlin_function_type_arity_total start stop : total (kotlin_function_type_arity o start stop).
Proof.
  unfold kotlin_function_type_arity. call_total scan_to_spec. branches; try done.
  by call_total split_list_spec.
Qed.

Lemma kotlin_type_name_total index stop name : total (kotlin_type_name o index stop name).
Proof.
  apply (wp_scan stop (λ _ _, True)); [|done]. intros i [name' arguments] _.
  eapply (wp_call _ _ (λ '(k, _), S i ≤ k)).
  - branch; [|cbn [wp]; lia]. eapply wp_call; [apply angle_end_spec|]. intros close [? _].
    cbn [wp]. lia.
  - intros [k arguments'] Hk. branches; try done. to_props. split_and!; [lia|lia|done].
Qed.

Lemma kotlin_array_type_total f arguments :
  (∀ start stop boxed, total (f start stop boxed)) → total (kotlin_array_type o f arguments).
Proof.
  intros Hf. unfold kotlin_array_type. eapply (wp_call _ _ (λ _, True)).
  - destruct arguments as [[first close]|]; [|done]. eapply wp_total, split_list_spec.
  - intros [|[start stop] parts] _; [done|]. by call_total Hf.
Qed.

Lemma kotlin_type_total fuel start stop boxed depth :
  S MAX_TYPE_NESTING ≤ fuel + depth → 0 < fuel → total (kotlin_type o fuel start stop boxed depth).
Proof.
  revert start stop boxed depth. induction fuel as [|fuel IH]; intros start stop boxed depth Hf H0; [lia|].
  cbn [kotlin_type]. branch; [done|]. to_props.
  assert (∀ start stop boxed, total (kotlin_type o fuel start stop boxed (S depth))) as Hrec.
  { intros. apply IH; lia. }
  call_total skip_annotations_spec.
  set (index := if bool_decide _ then _ else _). clearbody index.
  eapply (wp_call _ _ (λ _, True)).
  { branch; [|done]. to_props. apply total_fmap. destruct stop; [lia|done]. }
  intros nullable _. call_total kotlin_function_type_arity_total. branches; try done.
  eapply (wp_call _ _ (λ _, True)); [apply kotlin_type_name_total|]. intros [name arguments] _.
  branch; apply total_fmap; [|apply kotlin_erased_name_total].
  by apply kotlin_array_type_total.
Qed.

Lemma kotlin_type_fuel_total start stop boxed : total (kotlin_type o KOTLIN_TYPE_FUEL start stop boxed 0).
Proof. apply kotlin_type_total; unfold KOTLIN_TYPE_FUEL; lia. Qed.

Lemma kotlin_parameter_total start stop : total (kotlin_parameter o start stop).
Proof.
  unfold kotlin_parameter. call_total skip_annotations_spec. eapply (wp_call _ _ (λ _, True)).
  { apply (wp_scan (length (tokens o)) (λ _ _, True)); [|done]. intros i is_vararg _.
    branches; [done| |done]. eapply wp_call; [apply skip_annotations_spec|]. intros j [Hj _].
    scan_solve. split_and!; [lia|lia|done]. }
  intros [index is_vararg] _. branches; [done|]. call_total scan_to_spec.
  by call_total kotlin_type_fuel_total.
Qed.

Lemma collect_type_variable_total start stop variables :
  total (collect_type_variable o start stop variables).
Proof.
  unfold collect_type_variable. call_total skip_annotations_spec.
  set (index := if _ || _ then _ else _). clearbody index. branches; [|done].
  eapply (wp_call _ _ (λ _, True)); [|done]. branch; [|done]. by call_total scan_to_spec.
Qed.

Lemma collect_type_variables_total parameters variables :
  total (collect_type_variables o parameters variables).
Proof.
  unfold collect_type_variables. destruct parameters as [[first close]|]; [|done].
  call_total split_list_spec. apply (wp_for_each (λ _ _, True)); [|done].
  intros [start stop] l s _. apply collect_type_variable_total.
Qed.

Lemma erase_fuel_total fuel erased variables depth :
  depth ≤ MAX_TYPE_VARIABLE_DEPTH → S MAX_TYPE_VARIABLE_DEPTH ≤ fuel + depth →
  total (erase_fuel o fuel erased variables depth).
Proof.
  revert erased depth. induction fuel as [|fuel IH]; intros erased depth Hd Hf; [lia|].
  cbn [erase_fuel]. branches; [done| |done]. to_props. eapply (wp_call _ _ (λ _, True)).
  { branches; try done; [apply total_fmap, java_type_total|apply kotlin_type_fuel_total]. }
  intros base _. eapply (wp_call _ _ (λ _, True)); [|done].
  destruct base; [|done]. apply IH; lia.
Qed.

Lemma erase_total erased variables : total (erase o erased variables).
Proof. apply erase_fuel_total; lia. Qed.

Lemma push_parameter_total variables signature part :
  total (push_parameter o variables signature part).
Proof.
  unfold push_parameter. branches; [|done]. eapply (wp_call _ _ (λ _, True)).
  - destruct (outline_language o); [apply java_parameter_total|].
    apply total_fmap, kotlin_parameter_total.
  - intros parameter _. branches; try done. by call_total erase_total.
Qed.

Lemma erased_signature_total function variables : total (erased_signature o function variables).
Proof.
  unfold erased_signature. eapply (wp_call _ _ (λ _, True)).
  - unfold receiver_signature. branches; [|done]. call_total kotlin_type_fuel_total.
    branches; [|done]. by call_total erase_total.
  - intros signature _. branches; [|done]. call_total split_list_spec.
    eapply (wp_call _ _ (λ _, True)); [|done]. apply (wp_for_each (λ _ _, True)); [|done].
    intros. apply push_parameter_total.
Qed.

Lemma erased_parameters_match_total function owners expected :
  total (erased_parameters_match o function owners expected).
Proof.
  unfold erased_parameters_match. eapply (wp_call _ _ (λ _, True)).
  - unfold variables_in_scope. eapply (wp_call _ _ (λ _, True)).
    + apply (wp_for_each (λ _ _, True)); [|done]. intros [owner m] l s _.
      apply collect_type_variables_total.
    + intros variables _. apply collect_type_variables_total.
  - intros variables _. call_total erased_signature_total. branches; try done.
    eapply (wp_call _ _ (λ _, True)); [|done]. destruct (length owners) as [|[|index]] eqn:Hlen; [done..|].
    destruct (lookup_lt_is_Some_2 owners index) as [[outer outer_member] Ho]; [lia|]. by rewrite Ho.
Qed.

Lemma function_matches_total member owners expected :
  total (function_matches o member owners expected).
Proof.
  unfold function_matches. branches; try done. by call_total erased_parameters_match_total.
Qed.
End Totality.

(** ** Descriptors of known types *)

(** A JVM type: a primitive by its letter, or a class by the part of its binary name up to the
    last [/] or [$] and its simple name; with its array dimensions. *)
Inductive JvmType :=
| JPrimitive (letter : char)
| JClass (qualifier simple : str).

Definition encode_type (t : nat * JvmType) : str :=
  replicate t.1 (ch "[") ++
  match t.2 with
  | JPrimitive letter => [letter]
  | JClass qualifier simple => lit "L" ++ (qualifier ++ simple) ++ lit ";"
  end.

Definition encode_descriptor (ts : list (nat * JvmType)) (result : str) : str :=
  lit "(" ++ mjoin (encode_type <$> ts) ++ lit ")" ++ result.

Definition erase_jvm (t : nat * JvmType) : ErasedType :=
  match t.2 with
  | JPrimitive letter => erased_type (default [] (primitive_name letter)) t.1
  | JClass _ simple => erased_type simple t.1
  end.

Definition plain (forbidden : list char) (s : str) : Prop := Forall (λ c, c ∉ forbidden) s.

Definition jvm_ok (t : JvmType) : Prop :=
  match t with
  | JPrimitive letter => is_Some (primitive_name letter)
  | JClass qualifier simple =>
      (qualifier = [] ∨ ∃ q sep, qualifier = q ++ [sep] ∧ sep ∈ [ch "/"; ch "$"])
      ∧ plain [ch ";"; ch ")"] qualifier
      ∧ plain [ch ";"; ch ")"; ch "/"; ch "$"] simple
  end.

Lemma plain_sep forbidden c s :
  plain forbidden s → c ∈ forbidden → Forall (λ x, (c =? x)%N = false) s.
Proof.
  intros Hs Hc. eapply Forall_impl; [exact Hs|]. intros x Hx. simpl.
  apply N.eqb_neq. by intros ->.
Qed.

Lemma simple_binary_name_spec qualifier simple :
  jvm_ok (JClass qualifier simple) → simple_binary_name (qualifier ++ simple) = simple.
Proof.
  intros (Hq & _ & Hs). unfold simple_binary_name.
  pose proof (plain_sep _ (ch "/") _ Hs ltac:(set_solver)) as Hslash.
  pose proof (plain_sep _ (ch "$") _ Hs ltac:(set_solver)) as Hdollar.
  pose proof (last_piece_none _ _ Hslash) as Es. pose proof (last_piece_none _ _ Hdollar) as Ed.
  destruct Hq as [->|(q & sep & -> & Hsep)]; [simpl; congruence|].
  rewrite <- app_assoc. simpl.
  apply list_elem_of_In in Hsep as [<-|[<-|[]]].
  - rewrite last_piece_sep by done. congruence.
  - destruct (last_piece_app (N.eqb (ch "/")) q (ch "$" :: simple)) as [t ->]; [by constructor|].
    by rewrite last_piece_sep.
Qed.

Lemma primitive_name_plain letter :
  is_Some (primitive_name letter) →
  letter ≠ ch ")" ∧ (letter =? ch "[")%N = false ∧ (letter =? ch "L")%N = false.
Proof.
  rewrite !N.eqb_neq. intros Hp. split_and!; intros ->; by destruct Hp.
Qed.

(** One encoded type is read by as many turns as it has brackets, and one more. *)
Lemma descriptor_step_type fuel t rest dims result :
  jvm_ok t.2 →
  loop (S t.1 + fuel) descriptor_step (encode_type t ++ rest, dims, result)
  = loop fuel descriptor_step (rest, 0, result ++ [erase_jvm (dims + t.1, t.2)]).
Proof.
  destruct t as [n t]. intros Ht. simpl fst. simpl snd in Ht. unfold encode_type. cbn [fst snd].
  revert dims. induction n as [|n IH]; intros dims.
  - rewrite Nat.add_0_r. cbn [replicate app Nat.add loop]. destruct t as [letter|qualifier simple].
    + destruct (primitive_name_plain letter Ht) as (_ & Hb & Hl). destruct Ht as [name Hname].
      cbn [descriptor_step app]. rewrite Hb, Hl, Hname. unfold erase_jvm. cbn. by rewrite Hname.
    + cbn [descriptor_step]. change (lit "L") with [ch "L"]. rewrite <- !app_assoc. cbn [app].
      change (ch "L" =? ch "[")%N with false. rewrite N.eqb_refl. cbn iota.
      assert (take_class (qualifier ++ simple ++ lit ";" ++ rest) = (qualifier ++ simple, rest)) as ->.
      { unfold take_class. rewrite (proj2 (split_once_spec (ch ";") _ (qualifier ++ simple) rest)); [done|].
        split; [by rewrite <- app_assoc|]. destruct Ht as (_ & Hq & Hs).
        rewrite elem_of_app. unfold plain in *. rewrite Forall_forall in Hq, Hs.
        intros [Hin|Hin]; [apply (Hq _ Hin)|apply (Hs _ Hin)]; set_solver. }
      cbn [mbind exec_bind]. by rewrite simple_binary_name_spec.
  - cbn [replicate app]. change (S (S n) + fuel) with (S (S n + fuel)). cbn [loop descriptor_step].
    rewrite N.eqb_refl. cbn [mbind exec_bind]. by rewrite IH, Nat.add_succ_comm.
Qed.

Lemma descriptor_step_types ts fuel result :
  Forall (λ t, jvm_ok t.2) ts →
  loop (length (mjoin (encode_type <$> ts)) + S fuel) descriptor_step
    (mjoin (encode_type <$> ts), 0, result) = Done (Some (result ++ (erase_jvm <$> ts))).
Proof.
  intros Hts. revert fuel result. induction Hts as [|t ts Ht Hts IH]; intros fuel result.
  - simpl. by rewrite app_nil_r.
  - rewrite !fmap_cons.
    change (mjoin (encode_type t :: (encode_type <$> ts)))
      with (encode_type t ++ mjoin (encode_type <$> ts)). rewrite length_app.
    assert (S t.1 ≤ length (encode_type t)) as Hlen.
    { unfold encode_type. rewrite length_app, length_replicate. destruct t.2; simpl; [lia|].
      rewrite !length_app. simpl. lia. }
    replace (length (encode_type t) + length (mjoin (encode_type <$> ts)) + S fuel)
      with (S t.1 + (length (mjoin (encode_type <$> ts)) + S (fuel + (length (encode_type t) - S t.1)))) by lia.
    rewrite descriptor_step_type by done. rewrite IH, <- app_assoc. simpl. by destruct t.
Qed.

Lemma encode_types_plain ts :
  Forall (λ t, jvm_ok t.2) ts → ch ")" ∉ mjoin (encode_type <$> ts).
Proof.
  induction 1 as [|t ts Ht Hts IH]; simpl; [apply not_elem_of_nil|].
  rewrite elem_of_app. intros [Hin|Hin]; [|done]. unfold encode_type in Hin.
  apply elem_of_app in Hin as [Hin|Hin].
  - apply elem_of_replicate in Hin as [? _]. done.
  - destruct t.2 as [letter|qualifier simple]; simpl in Ht.
    + apply list_elem_of_singleton in Hin as <-. by destruct (primitive_name_plain (ch ")") Ht).
    + destruct Ht as (_ & Hq & Hs). unfold plain in *. rewrite Forall_forall in Hq, Hs.
      rewrite !elem_of_app in Hin. destruct Hin as [Hin|[[Hin|Hin]|Hin]].
      * vm_compute in Hin. set_solver.
      * apply (Hq _ Hin). set_solver.
      * apply (Hs _ Hin). set_solver.
      * vm_compute in Hin. set_solver.
Qed.

(** Round trip: reading the descriptor of any parameter types gives exactly their erasures, in
    order, with their array dimensions and the simple names of nested classes. *)
Theorem descriptor_round_trip ts result :
  Forall (λ t, jvm_ok t.2) ts →
  descriptor_parameters (encode_descriptor ts result) = Done (Some (erase_jvm <$> ts)).
Proof.
  intros Hts. unfold descriptor_parameters, encode_descriptor.
  rewrite (proj2 (strip_prefix_spec (lit "(") _ (mjoin (encode_type <$> ts) ++ lit ")" ++ result)))
    by done.
  rewrite (proj2 (split_once_spec (ch ")") _ (mjoin (encode_type <$> ts)) result)).
  - pose proof (descriptor_step_types ts 0 [] Hts) as Hrun. rewrite Nat.add_1_r in Hrun. exact Hrun.
  - split; [done|by apply encode_types_plain].
Qed.

Lemma descriptor_round_trip_witness :
  Forall (λ t, jvm_ok t.2) [(1, JPrimitive (ch "I")); (0, JClass (lit "java/util/Map$") (lit "Entry"))]
  ∧ descriptor_parameters (lit "([ILjava/util/Map$Entry;)V")
    = Done (Some [erased_type (lit "int") 1; erased_type (lit "Entry") 0]).
Proof.
  assert (Forall (λ t, jvm_ok t.2)
            [(1, JPrimitive (ch "I")); (0, JClass (lit "java/util/Map$") (lit "Entry"))]) as Hok.
  { apply Forall_cons; split; [by eexists|]. apply Forall_cons; split; [|constructor].
    split; [right; exists (lit "java/util/Map"), (ch "$"); split; [done|right; left]|].
    split; apply (bool_decide_eq_true_1 _); vm_compute; reflexivity. }
  split; [exact Hok|].
  exact (descriptor_round_trip
           [(1, JPrimitive (ch "I")); (0, JClass (lit "java/util/Map$") (lit "Entry"))] (lit "V") Hok).
Defined.
