(* ===== verification/Members.v ===== *)
(** * Members: the members of a Java or Kotlin type body

    Models [src/index/declaration_source/members.rs] (its modifiers are in Modifiers.v): where
    every member of a token range starts and ends, and what it declares. *)

From S2P Require Import Prelude.
From S2P Require Import Text.
From S2P Require Import Lexer.
From S2P Require Import Outline.
From S2P Require Import Modifiers.
From S2P Require Import Erasure.

Definition KOTLIN_CONTINUING_SUFFIXES : list str := lit <$>
  ["="; ","; "."; ":"; "->"; "+"; "-"; "*"; "/"; "%"; "&"; "|"; "<"]%string.
Definition KOTLIN_CONDITION_WORDS : list str := lit <$> ["if"; "while"; "for"]%string.
Definition KOTLIN_CONTINUING_PREFIXES : list str := lit <$>
  ["."; "?"; ":"; "="; "{"; "&"; "|"]%string.
Definition KOTLIN_CONTINUING_WORDS : list str := lit <$>
  ["where"; "by"; "else"; "catch"; "finally"]%string.

(** Start of a Java method or constructor. *)
Record JavaHeader := {
  header_start : nat;
  header_first : nat;
  header_type_parameters : option (nat * nat);
}.

Section Members.
Context (o : SourceOutline).

(** ** Kotlin statements *)

(** Whether the [>] at [close] closes a [<] opened since [from]. *)
Definition closes_type_arguments (from close : nat) : exec bool :=
  loop (S (close - from)) (λ '(index, depth),
    if negb (Nat.ltb index close) then Done (Break (Nat.ltb 0 depth))
    else
      let next := S (group_end o index close) in
      if is_punct o index (lit "<") then Done (Continue (next, S depth))
      else if is_punct o index (lit ">") then Done (Continue (next, depth - 1))
      else Done (Continue (next, depth))) (from, 0).

(** Whether a line ending at [previous] leaves the statement that starts at [from] open. *)
Definition line_end_continues (from previous : nat) : exec bool :=
  if any_punct o KOTLIN_CONTINUING_SUFFIXES previous
     || bool_decide (word o previous = Some (lit "else")) then Done true
  else if is_punct o previous (lit ">") then
    negb <$> closes_type_arguments from previous
  else
    Done (is_punct o previous (lit ")")
          && match (first ← closing o previous;
                    keyword ← match first with O => None | S keyword => Some keyword end;
                    word o keyword) with
             | Some keyword => bool_decide (keyword ∈ KOTLIN_CONDITION_WORDS)
             | None => false
             end).

Definition continues_statement (from previous next : nat) (is_property : bool) : exec bool :=
  line_end ← line_end_continues from previous;
  let continues :=
    line_end || any_punct o KOTLIN_CONTINUING_PREFIXES next
    || match word o next with
       | Some w => bool_decide (w ∈ KOTLIN_CONTINUING_WORDS)
       | None => false
       end in
  if continues || negb is_property then Done continues
  else
    '(accessor, _) ← skip_modifiers o next (length (tokens o));
    if bool_decide (word o accessor = Some (lit "get"))
       || bool_decide (word o accessor = Some (lit "set")) then
      if Nat.leb (length (tokens o)) (S accessor) || is_punct o (S accessor) (lit "(")
         || is_punct o (S accessor) (lit "=") then Done true
      else
        following ← or_panic (tokens o !! S accessor);
        this ← or_panic (tokens o !! accessor);
        Done (end_line this <? line following)%N
    else Done false.

(** Whether a newline between [previous] and [next] ends the statement that starts at [from]. *)
Definition ends_statement (from previous next : nat) (is_property : bool) : exec bool :=
  next_token ← or_panic (tokens o !! next);
  previous_token ← or_panic (tokens o !! previous);
  if (end_line previous_token <? line next_token)%N then
    negb <$> continues_statement from previous next is_property
  else Done false.

(** Last token of the Kotlin statement that starts at [from]. *)
Definition statement_end (from stop : nat) (is_property : bool) : exec nat :=
  let previous := group_end o from stop in
  loop (S (stop - S previous)) (λ '(index, previous),
    if negb (Nat.ltb index stop) then
      last ← pred_index stop; Done (Break (previous `min` last))
    else
      ends ← (if is_closer o index then Done true
              else ends_statement from previous index is_property);
      if ends : bool then Done (Break previous)
      else if is_punct o index (lit ";") then Done (Break index)
      else
        let previous := group_end o index stop in
        Done (Continue (S previous, previous))) (S previous, previous).

(** The body of a declaration whose header runs from [start] to [last]: its braces, and the last
    token of the declaration. *)
Definition find_body (start last stop : nat) : exec (option (nat * nat) * nat) :=
  let kotlin := bool_decide (outline_language o = Kotlin) in
  loop (S (stop - S last)) (λ '(index, previous),
    if negb (Nat.ltb index stop) then
      final ← pred_index stop; Done (Break (None, previous `min` final))
    else
      ends ← (if kotlin then ends_statement start previous index false else Done false);
      if ends : bool then Done (Break (None, previous))
      else if is_punct o index (lit "{") then
        match closing o index with
        | Some close =>
            if Nat.ltb close stop then Done (Break (Some (index, close), close))
            else final ← pred_index stop; Done (Break (Some (index, stop), final))
        | None => final ← pred_index stop; Done (Break (Some (index, stop), final))
        end
      else if is_punct o index (lit ";") then Done (Break (None, index))
      else if is_closer o index then Done (Break (None, previous))
      else if kotlin && is_punct o index (lit "=") then
        final ← statement_end index stop false; Done (Break (None, final))
      else
        let previous := group_end o index stop in
        Done (Continue (S previous, previous))) (S last, last).

(** ** Java members *)

Definition declarator_name_before (stop first : nat) : exec (option str) :=
  match stop with
  | O => Done None
  | S index =>
      loop (S index) (λ index,
        if Nat.ltb first index && is_punct o index (lit "]") then
          match index with
          | S (S index) => Done (Continue index)
          | _ => Done (Break None)
          end
        else Done (Break (if Nat.ltb first index then identifier o index else None))) index
  end.

Definition java_field_end (from stop : nat) : exec nat :=
  loop (S (stop - from)) (λ '(index, _),
    if negb (Nat.ltb index stop) then last ← pred_index stop; Done (Break last)
    else if is_punct o index (lit ";") then Done (Break index)
    else if is_closer o index then Done (Break ((index - 1) `max` from))
    else Done (Continue (S (group_end o index stop), tt))) (from, tt).

Definition java_statement_end (from stop : nat) : exec nat :=
  loop (S (stop - from)) (λ '(index, _),
    if negb (Nat.ltb index stop) then last ← pred_index stop; Done (Break last)
    else if is_punct o index (lit ";") || is_punct o index (lit "{") then
      Done (Break (group_end o index stop))
    else if is_closer o index then Done (Break ((index - 1) `max` from))
    else Done (Continue (S (group_end o index stop), tt))) (from, tt).

Definition java_field (start first from stop : nat) : exec Member :=
  last ← java_field_end from stop;
  name ← declarator_name_before from first;
  names ← loop (S (last - from)) (λ '(index, names),
    if negb (Nat.ltb index last) then Done (Break names)
    else
      let declarator :=
        if is_punct o index (lit ",")
           && any_punct o [lit "="; lit ","; lit ";"; lit "["] (2 + index)
        then identifier o (S index) else None in
      Done (Continue (S (group_end o index stop), names ++ option_list declarator)))
    (from, option_list name);
  Done {| member_start := start; member_end := last; member_kind := MField names |}.

Definition java_function (header : JavaHeader) (first stop : nat) (owner : option str)
    : exec Member :=
  let close := group_end o first stop in
  '(_, last) ← find_body (header_start header) close stop;
  name ← (if Nat.ltb (header_first header) first
          then identifier o <$> pred_index first else Done None);
  match name with
  | None => Done {| member_start := header_start header; member_end := last; member_kind := MOther |}
  | Some name =>
      before ← pred_index first;
      Done {| member_start := header_start header;
              member_end := last;
              member_kind := MFunction {|
                function_name := name;
                is_constructor := Nat.eqb before (header_first header)
                                  && bool_decide (owner = Some name);
                is_suspend := false;
                function_type_parameters := header_type_parameters header;
                receiver := None;
                parameters := (first, close) |} |}
  end.

Definition java_member (start index stop : nat) (owner : option str) : exec Member :=
  if is_punct o index (lit "{") || is_punct o index (lit ";") then
    Done {| member_start := start; member_end := group_end o index stop; member_kind := MOther |}
  else
    type_parameters ← (if is_punct o index (lit "<") then
                         close ← angle_end o index stop; Done (Some (index, close))
                       else Done None);
    let first := match type_parameters with Some (_, close) => S close | None => index end in
    found ← loop (S (stop - first)) (λ '(cursor, angle_depth),
      if negb (Nat.ltb cursor stop) then Done (Break None)
      else
        let next := S (group_end o cursor stop) in
        if is_punct o cursor (lit "<") then Done (Continue (next, S angle_depth))
        else if is_punct o cursor (lit ">") then Done (Continue (next, angle_depth - 1))
        else if Nat.eqb angle_depth 0 then
          if is_punct o cursor (lit "(") then
            member ← java_function {| header_start := start; header_first := first;
                                      header_type_parameters := type_parameters |}
                       cursor stop owner;
            Done (Break (Some member))
          else if any_punct o [lit ","; lit "="; lit ";"] cursor then
            member ← java_field start first cursor stop;
            Done (Break (Some member))
          else if is_punct o cursor (lit "{") || is_closer o cursor then Done (Break None)
          else Done (Continue (next, angle_depth))
        else Done (Continue (next, angle_depth))) (first, 0);
    match found with
    | Some member => Done member
    | None =>
        last ← java_statement_end index stop;
        Done {| member_start := start; member_end := last; member_kind := MOther |}
    end.

(** ** Kotlin members *)

Definition other (start last : nat) : Member :=
  {| member_start := start; member_end := last; member_kind := MOther |}.

(** The function name before the parameter list: [inl] when the header ends early. *)
Definition kotlin_function_name (cursor stop : nat) : exec (unit + nat) :=
  loop (S (stop - cursor)) (λ '(cursor, _),
    if Nat.ltb cursor stop
       && negb (is_some (identifier o cursor) && is_punct o (S cursor) (lit "(")) then
      if any_punct o [lit "{"; lit "="; lit ";"] cursor || is_closer o cursor
      then Done (Break (inl ()))
      else if is_punct o cursor (lit "<") then
        close ← angle_end o cursor stop; Done (Continue (S close, tt))
      else Done (Continue (S (group_end o cursor stop), tt))
    else Done (Break (inr cursor))) (cursor, tt).

Definition kotlin_function (start keyword stop : nat) (suspend : bool) : exec Member :=
  let cursor := S keyword in
  '(type_parameters, cursor) ←
    (if is_punct o cursor (lit "<") then
       close ← angle_end o cursor stop; Done (Some (cursor, close), S close)
     else Done (None, cursor));
  let receiver_start := cursor in
  found ← kotlin_function_name cursor stop;
  match found with
  | inl _ => last ← statement_end keyword stop false; Done (other start last)
  | inr cursor =>
      match identifier o cursor with
      | Some name =>
          if negb (Nat.ltb cursor stop) then last ← pred_index stop; Done (other start last)
          else
            let first := S cursor in
            let close := group_end o first stop in
            '(_, last) ← find_body keyword close stop;
            receiver ← (if Nat.ltb (S receiver_start) cursor
                        then (λ dot, Some (receiver_start, dot)) <$> pred_index cursor
                        else Done None);
            Done {| member_start := start;
                    member_end := last;
                    member_kind := MFunction {|
                      function_name := name;
                      is_constructor := false;
                      is_suspend := suspend;
                      function_type_parameters := type_parameters;
                      receiver := receiver;
                      parameters := (first, close) |} |}
      | None => last ← pred_index stop; Done (other start last)
      end
  end.

Definition kotlin_property (start keyword stop : nat) : exec Member :=
  last ← statement_end keyword stop true;
  name ← loop (S (S last - S keyword)) (λ '(cursor, name),
    if Nat.ltb last cursor then Done (Break name)
    else if any_punct o [lit ":"; lit "="] cursor
            || bool_decide (word o cursor = Some (lit "by")) then Done (Break name)
    else if is_punct o cursor (lit "<") then
      close ← angle_end o cursor stop; Done (Continue (S close, name))
    else
      let name := match identifier o cursor with Some found => Some found | None => name end in
      Done (Continue (S (group_end o cursor stop), name))) (S keyword, None);
  Done {| member_start := start; member_end := last; member_kind := MField (option_list name) |}.

Definition kotlin_constructor (start index stop : nat) (owner : option str) : exec Member :=
  let close := group_end o (S index) stop in
  '(_, last) ← find_body index close stop;
  Done {| member_start := start;
          member_end := last;
          member_kind := MFunction {|
            function_name := default [] owner;
            is_constructor := true;
            is_suspend := false;
            function_type_parameters := None;
            receiver := None;
            parameters := (S index, close) |} |}.

Definition kotlin_member (start index stop : nat) (owner : option str) (modifiers : Modifiers)
    : exec Member :=
  let statement := last ← statement_end index stop false; Done (other start last) in
  match word o index with
  | None => statement
  | Some w =>
      if decide (w = lit "fun") then kotlin_function start index stop (mod_suspend modifiers)
      else if bool_decide (w = lit "val") || bool_decide (w = lit "var") then
        kotlin_property start index stop
      else if bool_decide (w = lit "constructor") && is_punct o (S index) (lit "(") then
        kotlin_constructor start index stop owner
      else if bool_decide (w = lit "init") && is_punct o (S index) (lit "{") then
        Done (other start (group_end o (S index) stop))
      else statement
  end.

(** ** Types *)

(** The type keyword of a type declaration starting at [index]. *)
Definition type_keyword (index : nat) : option nat :=
  if is_punct o index (lit "@") && bool_decide (word o (S index) = Some (lit "interface"))
  then Some (S index)
  else
    w ← word o index;
    if bool_decide (w = lit "class") || bool_decide (w = lit "interface") then Some index
    else match outline_language o with
    | Java =>
        if decide (w = lit "enum") then Some index
        else if bool_decide (w = lit "record") && is_some (identifier o (S index))
                && (is_punct o (2 + index) (lit "(") || is_punct o (2 + index) (lit "<"))
        then Some index else None
    | Kotlin =>
        if decide (w = lit "object") then Some index
        else if bool_decide (w = lit "fun")
                && bool_decide (word o (S index) = Some (lit "interface"))
        then Some (S index) else None
    end.

(** Where the primary parameter list of a type would open. *)
Definition primary_parameters_open (index stop : nat) (record : bool) : exec (option nat) :=
  match outline_language o with
  | Java => Done (if record then Some index else None)
  | Kotlin =>
      '(after_modifiers, _) ← skip_modifiers o index stop;
      if bool_decide (word o after_modifiers = Some (lit "constructor"))
      then Done (Some (S after_modifiers))
      else if Nat.eqb after_modifiers index then Done (Some index)
      else Done None
  end.

Definition find_primary_parameters (index stop : nat) (record : bool)
    : exec (option (nat * nat)) :=
  found ← primary_parameters_open index stop record;
  match found with
  | None => Done None
  | Some first =>
      if Nat.ltb first stop && is_punct o first (lit "(")
      then Done (Some (first, group_end o first stop)) else Done None
  end.

Definition type_member (start keyword stop : nat) (modifiers : Modifiers) : exec Member :=
  let keyword_text := default [] (word o keyword) in
  let companion := mod_companion modifiers && bool_decide (keyword_text = lit "object") in
  let index := S keyword in
  let '(name, index) :=
    match identifier o index with
    | Some name =>
        if Nat.ltb index stop then (name, S index)
        else (if companion then lit "Companion" else [], index)
    | None => (if companion then lit "Companion" else [], index)
    end in
  '(type_parameters, index) ←
    (if is_punct o index (lit "<") then
       close ← angle_end o index stop; Done (Some (index, close), S close)
     else Done (None, index));
  let record := bool_decide (keyword_text = lit "record") in
  primary ← find_primary_parameters index stop record;
  let index := match primary with Some (_, close) => S close | None => index end in
  before ← pred_index index;
  '(body, last) ← find_body keyword before stop;
  Done {| member_start := start;
          member_end := last `max` keyword;
          member_kind := MType {|
            type_name := name;
            is_enum := mod_enum modifiers || bool_decide (keyword_text = lit "enum");
            is_record := record;
            is_companion := companion;
            type_type_parameters := type_parameters;
            primary_parameters := primary;
            body := body |} |}.

(** ** Bodies *)

Definition member_at (start stop : nat) (owner : option str) : exec Member :=
  '(index, modifiers) ← skip_modifiers o start stop;
  if Nat.leb stop index then last ← pred_index stop; Done (other start last)
  else match type_keyword index with
  | Some keyword => type_member start keyword stop modifiers
  | None =>
      match outline_language o with
      | Java => java_member start index stop owner
      | Kotlin => kotlin_member start index stop owner modifiers
      end
  end.

(** The enum entries from [index] on: their members and the index after them. *)
Definition scan_enum_entries (index stop : nat) (members : list Member)
    : exec (nat * list Member) :=
  loop (S (stop - index)) (λ '(index, members),
    if negb (Nat.ltb index stop) then Done (Break (index, members))
    else if is_punct o index (lit ";") then Done (Break (S index, members))
    else
      name_index ← skip_annotations o index stop;
      match (if Nat.ltb name_index stop then identifier o name_index else None) with
      | None => Done (Break (index, members))
      | Some name =>
          let next := S name_index in
          let follows_entry :=
            Nat.leb stop next || any_punct o [lit ","; lit ";"; lit "("; lit "{"] next in
          if negb follows_entry then Done (Break (index, members))
          else
            let next :=
              if is_punct o next (lit "(") then S (group_end o next stop) else next in
            let next :=
              if Nat.ltb next stop && is_punct o next (lit "{")
              then S (group_end o next stop) else next in
            last ← pred_index next;
            let members := members ++ [{| member_start := index; member_end := last;
                                          member_kind := MField [name] |}] in
            let next :=
              if Nat.ltb next stop && is_punct o next (lit ",") then S next else next in
            Done (Continue (next, members))
      end) (index, members).

Definition scan_members (start stop : nat) (owner : option str) (enum : bool)
    : exec (list Member) :=
  '(index, members) ← (if enum then scan_enum_entries start stop [] else Done (start, []));
  loop (S (stop - index)) (λ '(index, members),
    if negb (Nat.ltb index stop) then Done (Break members)
    else
      member ← member_at index stop owner;
      Done (Continue (S (member_end member `max` index), members ++ [member])))
    (index, members).
End Members.

Section MembersOf.
Context `{Unicode} (o : SourceOutline).

(** One Java record component or Kotlin [val]/[var] parameter. *)
Definition header_field (record : bool) (start stop : nat) : exec (option Member) :=
  '(index, _) ← skip_modifiers o start stop;
  name_index ←
    (if bool_decide (word o index = Some (lit "val")) || bool_decide (word o index = Some (lit "var"))
     then Done (Some (S index))
     else if record then java_parameter_name_index o start stop
     else Done None);
  match (name_index ← name_index; identifier o name_index) with
  | None => Done None
  | Some name =>
      last ← pred_index stop;
      Done (Some {| member_start := start; member_end := last; member_kind := MField [name] |})
  end.

Definition header_fields (first close : nat) (record : bool) : exec (list Member) :=
  parts ← split_list o first close;
  for_each (λ members '(start, stop),
    field ← header_field record start stop; Done (members ++ option_list field)) parts [].

Definition members_of (declaration : TypeDeclaration) (member : Member) : exec (list Member) :=
  header ← match primary_parameters declaration with
           | None => Done []
           | Some (first, close) =>
               let constructor :=
                 if is_record declaration then []
                 else [{| member_start := member_start member;
                          member_end := close;
                          member_kind := MFunction {|
                            function_name := type_name declaration;
                            is_constructor := true;
                            is_suspend := false;
                            function_type_parameters := None;
                            receiver := None;
                            parameters := (first, close) |} |}] in
               fields ← header_fields first close (is_record declaration);
               Done (constructor ++ fields)
           end;
  inside ← match body declaration with
           | None => Done []
           | Some (first, close) =>
               scan_members o (S first) close (Some (type_name declaration)) (is_enum declaration)
           end;
  Done (header ++ inside).
End MembersOf.

(** ** Specification *)

Section Ranges.
Context (o : SourceOutline).

(** The brackets a declaration records lie inside it, and its body ends at a fence. *)
Definition declaration_ok (m : Member) : Prop :=
  match member_kind m with
  | MType d =>
      (∀ first close, primary_parameters d = Some (first, close) →
        member_start m ≤ first ∧ first ≤ close ∧ close ≤ member_end m)
      ∧ (∀ first close, body d = Some (first, close) →
        member_start m ≤ first ∧ first < close ∧ close ≤ S (member_end m) ∧ fence o close)
  | _ => True
  end.

(** A member of the token range [lo, hi). *)
Definition member_ok (lo hi : nat) (m : Member) : Prop :=
  lo ≤ member_start m ∧ member_start m ≤ member_end m ∧ member_end m < hi ∧ declaration_ok m.

(** Members in order, one after another, from [lo] on and before [hi]. *)
Fixpoint ordered (lo hi : nat) (ms : list Member) : Prop :=
  match ms with
  | [] => True
  | m :: ms => member_ok lo hi m ∧ ordered (S (member_end m)) hi ms
  end.

(** Members that leave no token of [lo, hi) out: each starts right after the previous one. *)
Fixpoint tiles (lo hi : nat) (ms : list Member) : Prop :=
  match ms with
  | [] => lo = hi
  | m :: ms => member_start m = lo ∧ tiles (S (member_end m)) hi ms
  end.
End Ranges.

(** ** Lemmas *)

Section Scans.
Context `{Unicode} (o : SourceOutline) (Hwf : outline_wf o).
Notation len := (length (tokens o)).

Lemma token_lookup i : i < len → ∃ token, tokens o !! i = Some token.
Proof. intros Hi. by apply lookup_lt_is_Some_2. Qed.

Lemma wp_token i (Q : Token → Prop) :
  i < len → (∀ token, tokens o !! i = Some token → Q token) → wp (or_panic (tokens o !! i)) Q.
Proof. intros [token Ht]%token_lookup HQ. rewrite Ht. by apply HQ. Qed.

Lemma wp_pred {A} n (f : nat → exec A) (Q : A → Prop) :
  0 < n → (∀ r, S r = n → wp (f r) Q) → wp (pred_index n ≫= f) Q.
Proof. destruct n; simpl; [lia|]. auto. Qed.

Lemma closes_type_arguments_total from close : total (closes_type_arguments o from close).
Proof.
  apply (wp_scan close (λ _ _, True)); [|done]. intros i depth _. branches; scan_solve; split_and?; lia || done.
Qed.

Lemma continues_statement_total from previous next is_property :
  total (continues_statement o from previous next is_property).
Proof.
  unfold continues_statement. eapply (wp_call _ _ (λ _, True)).
  { unfold line_end_continues. branches; try done. apply total_fmap, closes_type_arguments_total. }
  intros line_end _. cbv zeta. branch; [done|].
  eapply wp_call; [apply skip_modifiers_spec|]. intros [accessor modifiers] _.
  destruct (_ || _) eqn:Eword in |- *; [|done].
  assert (accessor < len) as Hacc.
  { apply orb_true_iff in Eword as [Ew|Ew]; scan_solve. }
  branch; [done|]. to_props. apply wp_bind, wp_token; [lia|]. intros ? _.
  apply wp_bind, wp_token; done.
Qed.

Lemma ends_statement_total from previous next is_property :
  previous < len → next < len → total (ends_statement o from previous next is_property).
Proof.
  intros ??. unfold ends_statement. apply wp_bind, wp_token; [done|]. intros ? _.
  apply wp_bind, wp_token; [done|]. intros ? _. branches; [|done].
  apply total_fmap, continues_statement_total.
Qed.

Lemma statement_end_spec from stop is_property :
  from < stop → stop ≤ len →
  wp (statement_end o from stop is_property) (λ r, from ≤ r < stop).
Proof.
  intros Hfrom Hlen. unfold statement_end. cbv zeta.
  pose proof (group_end_ge o from stop). pose proof (group_end_lt o from stop Hfrom).
  apply (wp_scan stop (λ i previous, i = S previous ∧ from ≤ previous < stop)); [|lia].
  intros i previous [-> Hp]. branch.
  - apply wp_pred; [lia|]. intros last Hlast. cbn [wp]. to_props. lia.
  - to_props. eapply (wp_call _ _ (λ _, True)).
    + branch; [done|]. apply ends_statement_total; lia.
    + intros ends _. branches; scan_solve.
Qed.

(** A link from an opening bracket leads to a later closing one. *)
Lemma closing_after i j :
  any_punct o [lit "("; lit "["; lit "{"] i = true → closing o i = Some j →
  i < j ∧ j < len ∧ is_closer o j = true.
Proof.
  intros (v & Hv & Hp)%any_punct_spec Hij. apply is_punct_punctuation in Hp.
  destruct (wf_linked o Hwf) as [Hlen Hsym Hkind _]. unfold closing in Hij.
  destruct (matching o !! i) as [[k|]|] eqn:Hi; simplify_eq/=.
  destruct (Hsym _ _ Hi) as [Hji Hne].
  destruct (decide (i < j)) as [Hlt|].
  - destruct (Hkind _ _ Hi Hlt) as (opener & closer & _ & Hc & Hop & _).
    split; [done|]. split; [rewrite <- Hlen; by eapply lookup_lt_Some|].
    apply any_punct_spec. exists closer. rewrite is_punct_punctuation. split; [|done].
    unfold opener_of in Hop. repeat case_decide; subst; try done; set_solver.
  - destruct (Hkind _ _ Hji ltac:(lia)) as (opener & closer & _ & Hc & Hop & _).
    simplify_eq. exfalso. clear -Hv Hop. unfold opener_of in Hop.
    repeat case_decide; subst; try done; vm_compute in Hv; set_solver.
Qed.

Lemma find_body_spec start last stop :
  last < stop → fence o stop →
  wp (find_body o start last stop) (λ '(body, r),
    last ≤ r ∧ r < stop ∧ ∀ first close, body = Some (first, close) →
      last < first ∧ first < close ∧ close ≤ S r ∧ fence o close).
Proof.
  intros Hlast Hfence. pose proof (fence_le o stop Hfence). unfold find_body. cbv zeta.
  apply (wp_scan stop (λ i previous, i = S previous ∧ last ≤ previous < stop)); [|lia].
  intros i previous [-> Hp]. branch.
  { apply wp_pred; [lia|]. intros final ?. cbn [wp]. split_and!; [lia..|done]. }
  to_props. eapply (wp_call _ _ (λ _, True)).
  { branch; [|done]. apply ends_statement_total; lia. }
  intros ends _. branch; [by split_and!; [lia..|]|].
  assert (∀ r, S r = stop → last ≤ r ∧ r < stop ∧
            ∀ first close, Some (S previous, stop) = Some (first, close) →
              last < first ∧ first < close ∧ close ≤ S r ∧ fence o close) as Hunclosed.
  { intros r Hr. split_and!; [lia..|]. intros first close ?; simplify_eq. split_and!; [lia..|done]. }
  branch.
  { destruct (closing o (S previous)) as [close|] eqn:Ec;
      [|apply wp_pred; [lia|]; intros r Hr; by apply Hunclosed].
    branch; [|apply wp_pred; [lia|]; intros r Hr; by apply Hunclosed]. to_props. cbn [wp].
    destruct (closing_after (S previous) close) as (? & ? & ?); [|done|].
    { apply any_punct_spec. exists (lit "{"). split; [set_solver|done]. }
    split_and!; [lia..|]. intros ???; simplify_eq. split_and!; [lia..|by right]. }
  branch; [cbn [wp]; split_and!; [lia..|done]|].
  branch; [cbn [wp]; split_and!; [lia..|done]|].
  branch; [|cbn [wp]; scan_solve].
  eapply wp_call; [by apply statement_end_spec; lia|]. intros final [? ?]. cbn [wp].
  split_and!; [lia..|done].
Qed.

(** *** Java *)

Lemma declarator_name_before_total stop first : total (declarator_name_before o stop first).
Proof.
  unfold declarator_name_before. destruct stop as [|index]; [done|].
  apply (wp_loop (λ _, True) id); [|done|unfold id; lia]. intros i _. branches; try done.
  split; [done|]. unfold id. lia.
Qed.

Lemma java_field_end_spec from stop :
  from < stop → wp (java_field_end o from stop) (λ r, from ≤ r < stop).
Proof.
  intros Hfrom. apply (wp_scan stop (λ i _, from ≤ i)); [|lia]. intros i [] Hi.
  branch; [apply wp_pred; [lia|]; intros r ?; cbn [wp]; lia|]. branches; scan_solve.
Qed.

Lemma java_statement_end_spec from stop :
  from < stop → wp (java_statement_end o from stop) (λ r, from ≤ r < stop).
Proof.
  intros Hfrom. apply (wp_scan stop (λ i _, from ≤ i)); [|lia]. intros i [] Hi.
  branch; [apply wp_pred; [lia|]; intros r ?; cbn [wp]; lia|]. branches; scan_solve.
Qed.

(** The start and the end of a member that declares no type. *)
Lemma member_ok_plain lo hi m :
  lo ≤ member_start m → member_start m ≤ member_end m → member_end m < hi →
  (∀ d, member_kind m ≠ MType d) → member_ok o lo hi m.
Proof.
  intros ??? Hk. split_and!; [done..|]. unfold declaration_ok.
  destruct (member_kind m) eqn:E; [|done..]. by destruct (Hk declaration).
Qed.

(** What the scan of one member promises: it starts at [start] and ends before [stop]. *)
Definition scanned (start stop : nat) (m : Member) : Prop :=
  member_start m = start ∧ member_ok o start stop m.

Lemma scanned_plain start stop last k :
  start ≤ last → last < stop → (∀ d, k ≠ MType d) →
  scanned start stop {| member_start := start; member_end := last; member_kind := k |}.
Proof. intros. split; [done|]. by apply member_ok_plain. Qed.

Lemma java_field_spec start first from stop :
  start ≤ from → from < stop → wp (java_field o start first from stop) (scanned start stop).
Proof.
  intros Hstart Hfrom. unfold java_field.
  eapply wp_call; [by apply java_field_end_spec|]. intros last [? ?].
  call_total declarator_name_before_total. eapply (wp_call _ _ (λ _, True)).
  - apply (wp_scan last (λ _ _, True)); [|done]. intros i names _. branches; scan_solve; split_and!; lia || done.
  - intros names _. cbn [wp]. apply scanned_plain; [lia|lia|done].
Qed.

Lemma java_function_spec header first stop owner :
  header_start header ≤ first → first < stop → fence o stop →
  wp (java_function o header first stop owner) (scanned (header_start header) stop).
Proof.
  intros Hstart Hfirst Hfence. unfold java_function. cbv zeta.
  pose proof (group_end_ge o first stop). pose proof (group_end_lt o first stop Hfirst).
  eapply wp_call; [by apply find_body_spec|]. intros [b last] (? & ? & _).
  eapply (wp_call _ _ (λ name, name ≠ None → header_first header < first)).
  - branch; [|by intros []]. to_props. by destruct first as [|first]; [lia|intros _].
  - intros [name|] Hname; cbn [wp]; [|by apply scanned_plain; [lia|lia|]].
    apply wp_pred; [by assert (header_first header < first) by auto; lia|]. intros before _.
    cbn [wp]. apply scanned_plain; [lia|lia|done].
Qed.

Lemma java_member_spec start index stop owner :
  start ≤ index → index < stop → fence o stop →
  wp (java_member o start index stop owner) (scanned start stop).
Proof.
  intros Hstart Hindex Hfence. unfold java_member.
  pose proof (group_end_ge o index stop). pose proof (group_end_lt o index stop Hindex).
  branch; [cbn [wp]; apply scanned_plain; [lia|lia|done]|].
  eapply (wp_call _ _ (λ parameters, match parameters with
                                     | Some (_, close) => index ≤ close
                                     | None => True
                                     end)).
  { branch; [|done]. eapply wp_call; [apply angle_end_spec|]. intros close [? _]. done. }
  intros type_parameters Hparameters. cbv zeta.
  set (first := match type_parameters with Some (_, close) => S close | None => index end).
  assert (start ≤ first) by (unfold first; destruct type_parameters as [[]|]; lia). clearbody first.
  eapply (wp_call _ _ (λ found, match found with Some m => scanned start stop m | None => True end)).
  - apply (wp_scan stop (λ i _, first ≤ i)); [|lia]. intros i depth Hi.
    branch; [done|]. to_props. cbv zeta. branch; [cbn [wp]; scan_solve|].
    branch; [cbn [wp]; scan_solve|]. branch; [|cbn [wp]; scan_solve].
    branch; [eapply wp_call; [apply java_function_spec; simpl; [lia|done|done]|]; by intros m ?|].
    branch; [eapply wp_call; [apply java_field_spec; lia|]; by intros m ?|].
    branch; [done|]. cbn [wp]. scan_solve.
  - intros [m|] Hm; [done|]. eapply wp_call; [by apply java_statement_end_spec|].
    intros last [? ?]. cbn [wp]. apply scanned_plain; [lia|lia|done].
Qed.

(** *** Kotlin *)

Lemma kotlin_function_name_spec cursor stop :
  wp (kotlin_function_name o cursor stop) (λ found, match found with
    | inr r => cursor ≤ r ∧ (r < stop → is_punct o (S r) (lit "(") = true)
    | inl _ => True
    end).
Proof.
  apply (wp_scan stop (λ i _, cursor ≤ i)); [|lia]. intros i [] Hi.
  destruct (Nat.ltb i stop && _) eqn:E.
  - branch; [done|]. branch; [|cbn [wp]; scan_solve].
    eapply wp_call; [apply angle_end_spec|]. intros close [? _]. cbn [wp]. scan_solve.
  - cbn [wp]. split; [done|]. intros Hlt. apply Nat.ltb_lt in Hlt. rewrite Hlt in E. simpl in E.
    to_props. done.
Qed.

Lemma other_spec start stop m (Q : Member → Prop) :
  wp m (λ last, start ≤ last < stop) → (∀ m, scanned start stop m → Q m) →
  wp (last ← m; Done (other start last)) Q.
Proof.
  intros Hm HQ. eapply wp_call; [exact Hm|]. intros last [? ?]. apply HQ. apply scanned_plain; [lia..|done].
Qed.

Lemma kotlin_function_spec start keyword stop suspend :
  start ≤ keyword → keyword < stop → fence o stop →
  wp (kotlin_function o start keyword stop suspend) (scanned start stop).
Proof.
  intros Hstart Hkeyword Hfence. pose proof (fence_le o stop Hfence). unfold kotlin_function.
  cbv zeta. eapply (wp_call _ _ (λ '(_, cursor), keyword < cursor ∧ cursor ≤ stop)).
  { branch; [|cbn [wp]; lia]. token_facts. eapply wp_call; [apply angle_end_spec|].
    intros close [? ?]. cbn [wp]. lia. }
  intros [parameters receiver_start] [? ?].
  eapply wp_call; [apply kotlin_function_name_spec|]. intros [[]|cursor].
  { intros _. eapply other_spec; [|done].
    eapply wp_mono; [by apply statement_end_spec|]. simpl. lia. }
  intros [Hcursor Hopen].
  destruct (identifier o cursor) as [name|] eqn:Ename.
  - branch; [apply wp_pred; [lia|]; intros last ?; cbn [wp]; apply scanned_plain; [lia|lia|done]|].
    to_props. specialize (Hopen ltac:(lia)). token_facts.
    pose proof (group_end_ge o (S cursor) stop). pose proof (group_end_lt o (S cursor) stop ltac:(lia)).
    eapply wp_call; [apply find_body_spec; [lia|done]|]. intros [b last] (? & ? & _).
    eapply (wp_call _ _ (λ _, True)).
    { branch; [|done]. to_props. destruct cursor; [lia|done]. }
    intros receiver _. cbn [wp]. apply scanned_plain; [lia|lia|done].
  - apply wp_pred; [lia|]. intros last ?. cbn [wp]. apply scanned_plain; [lia|lia|done].
Qed.

Lemma kotlin_property_spec start keyword stop :
  start ≤ keyword → keyword < stop → stop ≤ len →
  wp (kotlin_property o start keyword stop) (scanned start stop).
Proof.
  intros Hstart Hkeyword Hlen. unfold kotlin_property.
  eapply wp_call; [by apply statement_end_spec|]. intros last [? ?].
  eapply (wp_call _ _ (λ _, True)).
  - apply (wp_scan (S last) (λ _ _, True)); [|done]. intros i name _.
    branch; [done|]. branch; [done|]. to_props. branch.
    + eapply wp_call; [apply angle_end_spec|]. intros close [? _]. cbn [wp]. scan_solve; split_and!; lia || done.
    + cbn [wp]. scan_solve; split_and!; lia || done.
  - intros name _. cbn [wp]. apply scanned_plain; [lia|lia|done].
Qed.

Lemma kotlin_constructor_spec start index stop owner :
  start ≤ index → S index < stop → fence o stop →
  wp (kotlin_constructor o start index stop owner) (scanned start stop).
Proof.
  intros Hstart Hindex Hfence. unfold kotlin_constructor. cbv zeta.
  pose proof (group_end_ge o (S index) stop). pose proof (group_end_lt o (S index) stop Hindex).
  eapply wp_call; [by apply find_body_spec|]. intros [b last] (? & ? & _).
  cbn [wp]. apply scanned_plain; [lia|lia|done].
Qed.

Lemma kotlin_member_spec start index stop owner modifiers :
  start ≤ index → index < stop → fence o stop →
  wp (kotlin_member o start index stop owner modifiers) (scanned start stop).
Proof.
  intros Hstart Hindex Hfence. pose proof (fence_le o stop Hfence). unfold kotlin_member. cbv zeta.
  assert (wp (last ← statement_end o index stop false; Done (other start last)) (scanned start stop))
    as Hstatement.
  { eapply other_spec; [|done]. eapply wp_mono; [by apply statement_end_spec|]. simpl. lia. }
  destruct (word o index) as [w|]; [|done].
  destruct (decide (w = lit "fun")); [by apply kotlin_function_spec|].
  branch; [by apply kotlin_property_spec|].
  branch; [to_props; token_facts; apply kotlin_constructor_spec; [done|lia|done]|].
  branch; [|done]. to_props. token_facts. cbn [wp].
  pose proof (group_end_ge o (S index) stop). pose proof (group_end_lt o (S index) stop ltac:(lia)).
  apply scanned_plain; [lia|lia|done].
Qed.

(** *** Types *)

Lemma type_keyword_spec index keyword stop :
  type_keyword o index = Some keyword → index < stop → fence o stop →
  index ≤ keyword ∧ keyword < stop.
Proof.
  unfold type_keyword. intros Hk Hindex Hfence. case_match; simplify_eq.
  { to_props. token_facts. lia. }
  destruct (word o index) as [w|]; simplify_eq/=. repeat case_match; simplify_eq; try lia.
  to_props. token_facts. lia.
Qed.

Lemma find_primary_parameters_spec index stop record :
  wp (find_primary_parameters o index stop record) (λ found, ∀ first close,
    found = Some (first, close) → index ≤ first ∧ first ≤ close ∧ close < stop).
Proof.
  unfold find_primary_parameters.
  eapply (wp_call _ _ (λ found, ∀ first, found = Some first → index ≤ first)).
  - unfold primary_parameters_open. destruct (outline_language o).
    + cbn [wp]. intros first ?. destruct record; simplify_eq. lia.
    + eapply wp_call; [apply skip_modifiers_spec|]. intros [after modifiers] [? _].
      branches; to_props; intros first ?; simplify_eq; lia.
  - intros [first|] Hfirst; [|done]. branch; [|done]. cbn [wp]. intros ???; simplify_eq. to_props.
    pose proof (group_end_ge o first0 stop). pose proof (group_end_lt o first0 stop).
    specialize (Hfirst _ eq_refl). lia.
Qed.

Lemma type_member_spec start keyword stop modifiers :
  start ≤ keyword → keyword < stop → fence o stop →
  wp (type_member o start keyword stop modifiers) (scanned start stop).
Proof.
  intros Hstart Hkeyword Hfence. unfold type_member. cbv zeta.
  set (named := match identifier o (S keyword) with Some _ => _ | None => _ end).
  assert (keyword < named.2 ∧ named.2 ≤ stop) as [Hn1 Hn2].
  { unfold named. repeat case_match; to_props; simpl; lia. }
  destruct named as [name index]. simpl in Hn1, Hn2.
  eapply (wp_call _ _ (λ '(_, cursor), index ≤ cursor ∧ cursor ≤ stop)).
  { branch; [|cbn [wp]; lia]. token_facts. eapply wp_call; [apply angle_end_spec|].
    intros close [? ?]. cbn [wp]. lia. }
  intros [type_parameters cursor] [? ?].
  eapply wp_call; [apply find_primary_parameters_spec|]. intros primary Hprimary.
  set (next := match primary with Some (_, close) => S close | None => cursor end).
  assert (cursor ≤ next ∧ next ≤ stop ∧ ∀ first close, primary = Some (first, close) → S close = next)
    as (? & ? & Hnext).
  { unfold next. destruct primary as [[first close]|]; [|naive_solver lia].
    destruct (Hprimary _ _ eq_refl) as (? & ? & ?). split_and!; [lia|lia|]. intros; by simplify_eq. }
  clearbody next. apply wp_pred; [lia|]. intros before Hbefore.
  eapply wp_call; [apply find_body_spec; [lia|done]|]. intros [b last] (? & ? & Hbody).
  cbn [wp]. split; [done|]. split_and!; simpl; [done|lia|lia|]. split; simpl.
  - intros first close Hp. destruct (Hprimary _ _ Hp) as (? & ? & ?). specialize (Hnext _ _ Hp). lia.
  - intros first close Hb. destruct (Hbody _ _ Hb) as (? & ? & ? & ?). split_and!; [lia..|done].
Qed.

(** *** Bodies *)

Lemma member_at_spec start stop owner :
  start < stop → fence o stop → wp (member_at o start stop owner) (scanned start stop).
Proof.
  intros Hstart Hfence. unfold member_at.
  eapply wp_call; [apply skip_modifiers_spec|]. intros [index modifiers] [? _].
  branch; [apply wp_pred; [lia|]; intros last ?; cbn [wp]; apply scanned_plain; [lia|lia|done]|].
  to_props. destruct (type_keyword o index) as [keyword|] eqn:Ek.
  - destruct (type_keyword_spec _ _ stop Ek) as [? ?]; [done..|]. by apply type_member_spec; [lia|..].
  - destruct (outline_language o); [by apply java_member_spec|by apply kotlin_member_spec].
Qed.

Lemma member_ok_widen lo lo' hi m : lo' ≤ lo → member_ok o lo hi m → member_ok o lo' hi m.
Proof. intros ? (? & ?). split; [lia|done]. Qed.

Lemma ordered_snoc lo hi ms m :
  ordered o lo hi ms → member_ok o lo hi m →
  Forall (λ m', member_end m' < member_start m) ms → ordered o lo hi (ms ++ [m]).
Proof.
  intros Hms Hm Hall. revert lo Hms Hm. induction Hall as [|m' ms Hm' Hall IH]; intros lo Hms Hm.
  - by split.
  - destruct Hms as [Hok Hms]. split; [done|]. apply IH; [done|].
    destruct Hm as (? & ? & ? & ?). split_and!; [lia..|done].
Qed.

(** The invariant of the two loops of [scan_members]: the members so far are in order and end
    before the next index. *)
Definition members_before (lo hi index : nat) (ms : list Member) : Prop :=
  lo ≤ index ∧ ordered o lo hi ms ∧ Forall (λ m, member_end m < index) ms.

Lemma members_before_snoc lo hi index next ms m :
  members_before lo hi index ms → scanned index hi m → member_end m < next →
  members_before lo hi next (ms ++ [m]).
Proof.
  intros (Hlo & Hms & Hall) [Hstart Hm] Hnext. pose proof Hm as (_ & ? & _ & _).
  split_and!; [lia| |].
  - apply ordered_snoc; [done|by eapply member_ok_widen|]. by rewrite Hstart.
  - apply Forall_app. split; [|by constructor]. eapply Forall_impl; [done|]. simpl. lia.
Qed.

Lemma scan_enum_entries_spec start stop :
  fence o stop →
  wp (scan_enum_entries o start stop []) (λ '(index, ms), members_before start stop index ms).
Proof.
  intros Hfence. unfold scan_enum_entries.
  apply (wp_scan stop (λ i ms, members_before start stop i ms)); [|by split_and!; [lia|..]].
  intros i ms Hms. branch; [done|]. to_props. branch.
  { destruct Hms as (? & ? & Hall). split_and!; [lia|done|].
    eapply Forall_impl; [exact Hall|]. simpl. lia. }
  eapply wp_call; [apply skip_annotations_spec|]. intros name_index [? _].
  destruct (if Nat.ltb name_index stop then _ else None) as [name|] eqn:En; [|done].
  assert (name_index < stop) by (case_match; [by to_props|done]).
  branch; [done|]. cbv zeta.
  set (next1 := if is_punct o (S name_index) (lit "(") then _ else _).
  assert (name_index < next1 ∧ next1 ≤ stop) as [? ?].
  { unfold next1. destruct (is_punct o (S name_index) (lit "(")) eqn:Ep; [|lia]. scan_solve. }
  clearbody next1.
  set (next2 := if Nat.ltb next1 stop && _ then _ else next1).
  assert (name_index < next2 ∧ next2 ≤ stop) as [? ?].
  { unfold next2. destruct (Nat.ltb next1 stop && _) eqn:Ep; [|lia]. scan_solve. }
  clearbody next2. apply wp_pred; [lia|]. intros last Hlast. cbn [wp].
  set (next3 := if Nat.ltb next2 stop && _ then _ else next2).
  assert (next2 ≤ next3) by (unfold next3; destruct (_ && _); lia).
  split_and!; [lia|lia|]. eapply members_before_snoc; [done| |simpl; lia].
  apply scanned_plain; [lia|lia|done].
Qed.

Lemma scan_members_spec start stop owner enum :
  fence o stop → wp (scan_members o start stop owner enum) (ordered o start stop).
Proof.
  intros Hfence. unfold scan_members.
  eapply (wp_call _ _ (λ '(index, ms), members_before start stop index ms)).
  { destruct enum; [by apply scan_enum_entries_spec|]. by split_and!; [lia|..]. }
  intros [index ms] Hms. apply (wp_scan stop (λ i ms, members_before start stop i ms)); [|done].
  intros i ms' Hms'. branch; [cbn [wp]; apply Hms'|]. to_props.
  eapply wp_call; [by apply member_at_spec|]. intros m Hm. cbn [wp].
  pose proof Hm as [? (_ & ? & _)]. split_and!; [lia|lia|].
  eapply members_before_snoc; [done|done|lia].
Qed.

Lemma tiles_snoc lo mid ms m :
  tiles lo mid ms → member_start m = mid → tiles lo (S (member_end m)) (ms ++ [m]).
Proof.
  revert lo. induction ms as [|m' ms IH]; intros lo; simpl; [by intros -> ->|].
  intros [? ?] ?. split; [done|]. by apply IH.
Qed.

Lemma scan_members_tiles start stop owner :
  start ≤ stop → fence o stop → wp (scan_members o start stop owner false) (tiles start stop).
Proof.
  intros Hle Hfence. unfold scan_members. cbn [mbind exec_bind].
  apply (wp_scan stop (λ i ms, i ≤ stop ∧ tiles start i ms)); [|done].
  intros i ms [Hi Hms]. branch; cbn [wp]; to_props; [by replace stop with i by lia|].
  eapply wp_call; [by apply member_at_spec|]. intros m [Hs (_ & ? & ? & _)]. cbn [wp].
  rewrite Nat.max_l by lia. split_and!; [lia|lia|lia|]. by apply tiles_snoc with i.
Qed.
End Scans.

Section MembersOfSpec.
Context `{Unicode} (o : SourceOutline) (Hwf : outline_wf o).

Lemma header_field_spec record start stop :
  start < stop →
  wp (header_field o record start stop) (λ field, ∀ m, field = Some m → member_ok o start stop m).
Proof.
  intros Hlt. unfold header_field. call_total skip_modifiers_spec. destruct a as [index modifiers].
  eapply (wp_call _ _ (λ _, True)).
  { branches; try done. apply java_parameter_name_index_total. }
  intros name_index _. destruct (name_index ← name_index; _); [|done].
  apply wp_pred; [lia|]. intros last ?. cbn [wp]. intros m ?; simplify_eq.
  apply member_ok_plain; simpl; [lia..|done].
Qed.

Lemma header_fields_spec first close record :
  wp (header_fields o first close record) (Forall (member_ok o first close)).
Proof.
  unfold header_fields. eapply wp_call; [apply split_list_spec|]. intros parts Hparts.
  eapply wp_mono; [apply (wp_for_each (λ l ms,
      Forall (λ '(start, stop), first < start ∧ start < stop ∧ stop ≤ close) l
      ∧ Forall (member_ok o first close) ms))|by intros ms [_ ?]].
  - intros [start stop] l ms [Hl Hms]. apply Forall_cons in Hl as [(? & ? & ?) Hl].
    eapply wp_call; [by apply header_field_spec|]. intros field Hfield. cbn [wp].
    split; [done|]. apply Forall_app. split; [done|]. destruct field as [m|]; [|done].
    constructor; [|done]. destruct (Hfield m eq_refl) as (? & ? & ? & ?). split_and!; [lia..|done].
  - done.
Qed.

(** The members of a type lie inside its declaration. *)
Lemma members_of_spec lo hi declaration m :
  member_ok o lo hi m → member_kind m = MType declaration →
  wp (members_of o declaration m) (Forall (member_ok o (member_start m) (S (member_end m)))).
Proof.
  intros (_ & ? & _ & Hok) Hk. unfold declaration_ok in Hok. rewrite Hk in Hok.
  destruct Hok as [Hprimary Hbody]. unfold members_of.
  eapply (wp_call _ _ (Forall (member_ok o (member_start m) (S (member_end m))))).
  - destruct (primary_parameters declaration) as [[first close]|]; [|by constructor].
    destruct (Hprimary first close eq_refl) as (? & ? & ?). cbv zeta.
    eapply wp_call; [apply header_fields_spec|]. intros fields Hfields. cbn [wp].
    apply Forall_app. split.
    + destruct (is_record declaration); constructor; [|done].
      apply member_ok_plain; simpl; [lia..|done].
    + eapply Forall_impl; [exact Hfields|]. intros f (? & ? & ? & ?). split_and!; [lia..|done].
  - intros header Hheader. eapply (wp_call _ _ (Forall (member_ok o (member_start m) (S (member_end m))))).
    + destruct (body declaration) as [[first close]|]; [|by constructor].
      destruct (Hbody first close eq_refl) as (? & ? & ? & ?).
      eapply wp_mono; [by apply scan_members_spec|]. intros ms Hms.
      assert (member_start m ≤ S first) as Hlo by lia. revert Hlo Hms. generalize (S first).
      induction ms as [|x ms IH]; intros from Hlo Hms; [done|]. destruct Hms as [(? & ? & ? & ?) Hms].
      constructor; [split_and!; [lia..|done]|]. apply (IH (S (member_end x))); [lia|done].
    + intros inside Hinside. cbn [wp]. by apply Forall_app.
Qed.
End MembersOfSpec.

Section Properties.
Context `{Unicode}.

(** The outline of any source file splits its tokens into members completely: scanning never
    panics and always ends, the members are in order, do not overlap, and leave no token out. *)
Theorem outline_complete source lang :
  wp (o ← parse source lang; ms ← scan_members o 0 (length (tokens o)) None false; Done (o, ms))
     (λ '(o, ms), tiles 0 (length (tokens o)) ms ∧ ordered o 0 (length (tokens o)) ms).
Proof.
  eapply wp_call; [apply parse_wf|]. intros o (Hwf & _).
  eapply wp_call; [apply wp_and;
    [apply scan_members_tiles; [done|lia|apply fence_len]|apply scan_members_spec; [done|apply fence_len]]|].
  by intros ms Hms.
Qed.
End Properties.
