(* ===== verification/Locate.v ===== *)
(** * Locate: the source slice of one declaration

    Models [SourceOutline::locate] and its helpers in [src/index/declaration_source.rs]. *)

From S2P Require Import Prelude.
From S2P Require Import Text.
From S2P Require Import Lexer.
From S2P Require Import Outline.
From S2P Require Import Modifiers.
From S2P Require Import Erasure.
From S2P Require Import Members.

Inductive DeclarationKind := KClass | KField | KMethod.

Record DeclarationCandidate := {
  candidate_kind : DeclarationKind;
  candidate_name : str;
  descriptor : option str;
}.

Inductive UnresolvedDeclarationReason := NotFound | Ambiguous | Unproven | SourceEntryMissing.

Record SourceSlice := {
  slice_start_line : N;
  slice_end_line : N;
  slice_source : str;
}.

Inductive SliceOutcome :=
| Found (s : SourceSlice)
| Unresolved (reason : UnresolvedDeclarationReason) (candidate_lines : list N).

Definition not_found : SliceOutcome := Unresolved NotFound [].

(** [Vec::dedup]. *)
Fixpoint dedup (l : list N) : list N :=
  match l with
  | x :: rest =>
      match rest with
      | y :: _ => if (x =? y)%N then dedup rest else x :: dedup rest
      | [] => [x]
      end
  | [] => []
  end.

Section Locate.
Context `{Unicode} (o : SourceOutline).

Definition slice (first last : nat) : exec SourceSlice :=
  first_token ← or_panic (tokens o !! first);
  last_token ← or_panic (tokens o !! last);
  let start_line := line first_token in
  let stop_line := N.max (end_line last_token) start_line in
  count ← or_panic (checked_sub stop_line start_line);
  Done {| slice_start_line := start_line + 1;
          slice_end_line := stop_line + 1;
          slice_source := join [10%N] (take (N.to_nat (count + 1))
                                  (drop (N.to_nat start_line) (lines (outline_source o)))) |}.

Definition found_slice (member : Member) : exec SliceOutcome :=
  Found <$> slice (member_start member) (member_end member).

Definition member_lines (members : list Member) : exec (list N) :=
  lines ← for_each (λ lines member,
            token ← or_panic (tokens o !! member_start member);
            Done (lines ++ [(line token + 1)%N])) members [];
  Done (dedup (merge_sort N.le lines)).

Definition unresolved_members (members : list Member) : exec SliceOutcome :=
  match members with
  | [] => Done not_found
  | _ => lines ← member_lines members; Done (Unresolved Ambiguous lines)
  end.

Definition is_companion_type (member : Member) : option TypeDeclaration :=
  match member_kind member with
  | MType declaration => if is_companion declaration then Some declaration else None
  | _ => None
  end.

(** Direct members accepted by [accept], or those of the companion objects when there are none. *)
Definition direct_or_companion (members : list Member) (accept : Member → bool)
    : exec (list Member) :=
  match List.filter accept members with
  | [] =>
      companions ← for_each (λ found member,
        match is_companion_type member with
        | Some declaration =>
            inside ← members_of o declaration member; Done (found ++ inside)
        | None => Done found
        end) members [];
      Done (List.filter accept companions)
  | direct => Done direct
  end.

Definition is_field_named (name : str) (member : Member) : bool :=
  match member_kind member with
  | MField names => existsb (λ value, bool_decide (value = name)) names
  | _ => false
  end.

Definition is_function_named (name : str) (member : Member) : bool :=
  match member_kind member with
  | MFunction function => bool_decide (function_name function = name)
  | _ => false
  end.

Definition is_type_named (name : str) (member : Member) : bool :=
  match member_kind member with
  | MType declaration => bool_decide (type_name declaration = name)
  | _ => false
  end.

Definition locate_field (members : list Member) (name : str) : exec SliceOutcome :=
  found ← direct_or_companion members (is_field_named name);
  match found with
  | [member] => found_slice member
  | _ => unresolved_members found
  end.

(** The overloads of [found] split by how they match the descriptor. *)
Definition match_overloads (owners : Owners) (expected : list ErasedType) (found : list Member)
    : exec (list Member * list Member) :=
  for_each (λ '(proven, possible) member,
    matched ← function_matches o member owners expected;
    match matched with
    | Proven => Done (proven ++ [member], possible)
    | Possible => Done (proven, possible ++ [member])
    | Excluded => Done (proven, possible)
    end) found ([], []).

Definition locate_function (members : list Member) (owners : Owners)
    (candidate : DeclarationCandidate) (is_compiler_generated : bool) : exec SliceOutcome :=
  found ← direct_or_companion members (is_function_named (candidate_name candidate));
  let unproven := lines ← member_lines found; Done (Unresolved Unproven lines) in
  match found with
  | [] => Done not_found
  | _ =>
      if is_compiler_generated then unproven
      else match descriptor candidate with
      | None =>
          match found with
          | [member] => found_slice member
          | _ => unresolved_members found
          end
      | Some descriptor =>
          expected ← descriptor_parameters descriptor;
          match expected with
          | None => unproven
          | Some expected =>
              '(proven, possible) ← match_overloads owners expected found;
              match proven, possible with
              | [member], [] => found_slice member
              | [], _ => unproven
              | _, _ => unresolved_members (proven ++ possible)
              end
          end
      end
  end.

(** The [for] over the path of [locate]: the owners and the members of the last one, or the
    outcome of an early return. *)
Fixpoint enter_types (path : list str) (owners : Owners) (members : list Member)
    : exec (SliceOutcome + Owners * list Member) :=
  match path with
  | [] => Done (inr (owners, members))
  | segment :: path =>
      match List.filter (is_type_named segment) members with
      | [member] =>
          match member_kind member with
          | MType declaration =>
              members ← members_of o declaration member;
              enter_types path (owners ++ [(declaration, member)]) members
          | _ => Done (inl not_found)
          end
      | found => outcome ← unresolved_members found; Done (inl outcome)
      end
  end.

Definition locate (class_name : str) (candidate : DeclarationCandidate)
    (is_compiler_generated : bool) : exec SliceOutcome :=
  match nested_type_path class_name with
  | None => Done not_found
  | Some path =>
      members ← scan_members o 0 (length (tokens o)) None false;
      entered ← enter_types path [] members;
      match entered with
      | inl outcome => Done outcome
      | inr (owners, members) =>
          match last owners with
          | None => Done not_found
          | Some (_, owner_member) =>
              match candidate_kind candidate with
              | KClass => found_slice owner_member
              | KField => locate_field members (candidate_name candidate)
              | KMethod => locate_function members owners candidate is_compiler_generated
              end
          end
      end
  end.
End Locate.

(** [SourceOutline::parse(source, language).locate(..)], as [index.rs] calls it. *)
Definition locate_in `{Unicode} (source : str) (lang : SourceLanguage) (class_name : str)
    (candidate : DeclarationCandidate) (is_compiler_generated : bool) : exec SliceOutcome :=
  o ← parse source lang;
  locate o class_name candidate is_compiler_generated.

(** ** Specification *)

Definition line_count (source : str) : N := N.of_nat (length (lines source)).

(** A slice is a range of whole lines of the source. *)
Definition slice_ok (source : str) (s : SourceSlice) : Prop :=
  (1 ≤ slice_start_line s ≤ slice_end_line s)%N ∧ (slice_start_line s ≤ line_count source)%N
  ∧ slice_source s
    = join [10%N] (take (N.to_nat (slice_end_line s - slice_start_line s + 1))
                     (drop (N.to_nat (slice_start_line s - 1)) (lines source))).

(** What every answer of [locate] promises about the lines it reports. *)
Definition outcome_ok (source : str) (outcome : SliceOutcome) : Prop :=
  match outcome with
  | Found s => slice_ok source s
  | Unresolved reason ls =>
      StronglySorted N.lt ls ∧ Forall (λ l, 1 ≤ l ≤ line_count source)%N ls
      ∧ match reason with
        | NotFound => ls = []
        | Ambiguous | Unproven => ls ≠ []
        | SourceEntryMissing => False
        end
  end.

(** ** Lemmas *)

Lemma elem_of_dedup x l : x ∈ dedup l ↔ x ∈ l.
Proof.
  induction l as [|y l IH]; [done|]. cbn [dedup]. destruct l as [|z l]; [done|].
  destruct (N.eqb_spec y z) as [->|]; [|set_solver]. rewrite IH. set_solver.
Qed.

Lemma dedup_sorted l : StronglySorted N.le l → StronglySorted N.lt (dedup l).
Proof.
  induction 1 as [|y l Hl IH Hy]; [constructor|]. cbn [dedup]. destruct l as [|z l]; [repeat constructor|].
  destruct (N.eqb_spec y z) as [|Hne]; [done|]. constructor; [done|].
  apply Forall_forall. intros x Hx. apply (elem_of_dedup x (z :: l)) in Hx.
  assert (z ≤ x)%N.
  { apply StronglySorted_inv in Hl as [_ Hz]. rewrite Forall_forall in Hz.
    apply elem_of_cons in Hx as [->|Hx]; [lia|by apply Hz]. }
  apply Forall_cons in Hy as [? _]. lia.
Qed.

Lemma dedup_ne l : l ≠ [] → dedup l ≠ [].
Proof.
  intros Hl Hd. destruct l as [|x l]; [done|].
  assert (x ∈ dedup (x :: l)) as Hx by (apply elem_of_dedup; left).
  rewrite Hd in Hx. by apply elem_of_nil in Hx.
Qed.

#[export] Instance le_total_order : Total N.le.
Proof. intros x y. lia. Qed.

Lemma merge_sort_le l : StronglySorted N.le (merge_sort N.le l).
Proof. apply Sorted_StronglySorted; [|apply (Sorted_merge_sort N.le)]. intros x y z. lia. Qed.

Section Totality.
Context `{Unicode} (o : SourceOutline) (Hwf : outline_wf o).
Notation len := (length (tokens o)).
Notation member_in := (member_ok o 0 len).

Lemma token_line i token :
  tokens o !! i = Some token → (line token + 1 ≤ line_count (outline_source o))%N.
Proof.
  intros Hi. destruct (wf_pieces o Hwf i token Hi) as (m & p & rest & -> & Hm & _ & (_ & _ & -> & _)).
  unfold newlines, line_count. pose proof (lines_count p (m ++ rest)) as Hlt.
  assert (m ++ rest ≠ []) as Hne by by destruct m. specialize (Hlt Hne). lia.
Qed.

Lemma slice_spec first last :
  first < len → last < len → wp (slice o first last) (slice_ok (outline_source o)).
Proof.
  intros Hfirst Hlast. unfold slice.
  destruct (lookup_lt_is_Some_2 (tokens o) first Hfirst) as [ft Hft].
  destruct (lookup_lt_is_Some_2 (tokens o) last Hlast) as [lt Hlt]. rewrite Hft, Hlt.
  cbn [or_panic mbind exec_bind]. cbv zeta. unfold checked_sub. rewrite decide_True by lia.
  cbn [or_panic mbind exec_bind wp]. pose proof (token_line _ _ Hft).
  unfold slice_ok. simpl. split_and!; [lia|lia|lia|].
  do 2 f_equal; [lia|]. f_equal. lia.
Qed.

Lemma found_slice_spec m : member_in m → wp (found_slice o m) (outcome_ok (outline_source o)).
Proof.
  intros (_ & ? & ? & _). unfold found_slice.
  pose proof (slice_spec (member_start m) (member_end m) ltac:(lia) ltac:(lia)) as Hs.
  by destruct (slice o _ _).
Qed.

Lemma member_lines_spec ms :
  Forall member_in ms → ms ≠ [] →
  wp (member_lines o ms) (λ ls,
    StronglySorted N.lt ls ∧ Forall (λ l, 1 ≤ l ≤ line_count (outline_source o))%N ls ∧ ls ≠ []).
Proof.
  intros Hms Hne. unfold member_lines.
  eapply (wp_call _ _ (λ ls, Forall (λ l, 1 ≤ l ≤ line_count (outline_source o))%N ls ∧ ls ≠ [])).
  - eapply wp_mono; [apply (wp_for_each (λ l ls, Forall member_in l ∧ (l = [] → ls ≠ [])
        ∧ Forall (λ l, 1 ≤ l ≤ line_count (outline_source o))%N ls))|naive_solver].
    + intros m l ls ([(_ & ? & ? & _) Hl]%Forall_cons & _ & Hls).
      destruct (lookup_lt_is_Some_2 (tokens o) (member_start m)) as [token Ht]; [lia|].
      rewrite Ht. cbn. split_and!; [done|by destruct ls|].
      pose proof (token_line _ _ Ht). apply Forall_app. split; [done|]. constructor; [lia|done].
    + done.
  - intros ls [Hls Hne']. cbn [wp]. pose proof (merge_sort_Permutation N.le ls) as Hp.
    split_and!.
    + apply dedup_sorted, merge_sort_le.
    + apply Forall_forall. intros l Hl. apply (proj1 (elem_of_dedup _ _)) in Hl.
      rewrite Forall_forall in Hls. apply Hls.
      by rewrite <- Hp.
    + apply dedup_ne. intros Hnil. rewrite Hnil in Hp. by apply Permutation_nil_l in Hp.
Qed.

Lemma unresolved_members_spec ms :
  Forall member_in ms → wp (unresolved_members o ms) (outcome_ok (outline_source o)).
Proof.
  intros Hms. unfold unresolved_members. destruct ms as [|m ms]; [by split_and!; [constructor..|]|].
  eapply wp_call; [by apply member_lines_spec|]. by intros ls (? & ? & ?).
Qed.

Lemma member_ok_in lo hi m : hi ≤ len → member_ok o lo hi m → member_in m.
Proof. intros ? (? & ? & ? & ?). split_and!; [lia..|done]. Qed.

Lemma members_in m declaration :
  member_in m → member_kind m = MType declaration →
  wp (members_of o declaration m) (Forall member_in).
Proof.
  intros Hm Hk. eapply wp_mono; [by eapply members_of_spec|]. intros ms Hms.
  eapply Forall_impl; [exact Hms|]. intros x. apply member_ok_in. destruct Hm as (_ & _ & ? & _). lia.
Qed.

Lemma Forall_List_filter {A} (P : A → Prop) f l : Forall P l → Forall P (List.filter f l).
Proof. induction 1; simpl; [done|]. case_match; auto. Qed.

Lemma direct_or_companion_spec ms accept :
  Forall member_in ms → wp (direct_or_companion o ms accept) (Forall member_in).
Proof.
  intros Hms. unfold direct_or_companion. pose proof (Forall_List_filter _ accept _ Hms) as Hd.
  destruct (List.filter accept ms); [|done].
  eapply (wp_call _ _ (Forall member_in)); [|intros ? ?; by apply Forall_List_filter].
  eapply wp_mono; [apply (wp_for_each (λ l found, Forall member_in l ∧ Forall member_in found))|naive_solver].
  - intros m l found [[Hm Hl]%Forall_cons Hfound].
    unfold is_companion_type. destruct (member_kind m) as [declaration|?|?|] eqn:Hk; try done.
    destruct (is_companion declaration); [|done].
    eapply wp_call; [by apply members_in|]. intros inside Hinside. cbn [wp].
    split; [done|]. by apply Forall_app.
  - done.
Qed.

Lemma match_overloads_spec owners expected found :
  wp (match_overloads o owners expected found) (λ '(proven, possible),
    proven ⊆ found ∧ possible ⊆ found).
Proof.
  unfold match_overloads.
  eapply wp_mono; [apply (wp_for_each (λ l '(proven, possible),
    l ⊆ found ∧ proven ⊆ found ∧ possible ⊆ found))|].
  - intros m l [proven possible] (? & ? & ?). call_total function_matches_total.
    destruct a; cbn [wp]; set_solver.
  - set_solver.
  - by intros [proven possible] (_ & ? & ?).
Qed.

Lemma locate_function_spec ms owners candidate generated :
  Forall member_in ms → wp (locate_function o ms owners candidate generated) (outcome_ok (outline_source o)).
Proof.
  intros Hms. unfold locate_function.
  eapply wp_call; [by apply direct_or_companion_spec|]. intros found Hfound. cbv zeta.
  destruct found as [|m found]; [by split_and!; [constructor..|]|].
  assert (wp (lines ← member_lines o (m :: found); Done (Unresolved Unproven lines))
            (outcome_ok (outline_source o))) as Hunproven.
  { eapply wp_call; [by apply member_lines_spec|]. by intros ls (? & ? & ?). }
  destruct generated; [done|]. destruct (descriptor candidate) as [descriptor|].
  - call_total descriptor_parameters_total. destruct a as [expected|]; [|done].
    eapply wp_call; [apply match_overloads_spec|]. intros [proven possible] [Hp Hq].
    assert (∀ l, l ⊆ m :: found → Forall member_in l) as Hsub.
    { intros l Hl. apply Forall_forall. intros x Hx%Hl. rewrite Forall_forall in Hfound. auto. }
    destruct proven as [|x [|y proven]]; [done| |].
    + destruct possible; [|apply unresolved_members_spec, Forall_app; split; by apply Hsub].
      apply found_slice_spec. apply Hsub in Hp. by apply Forall_cons in Hp as [? _].
    + apply unresolved_members_spec, Forall_app; split; by apply Hsub.
  - destruct found; [|by apply unresolved_members_spec].
    apply found_slice_spec. by apply Forall_cons in Hfound as [? _].
Qed.

Lemma enter_types_spec path owners ms :
  Forall member_in ms → Forall (λ owner, member_in owner.2) owners →
  wp (enter_types o path owners ms) (λ entered, match entered with
    | inl outcome => outcome_ok (outline_source o) outcome
    | inr (owners, ms) => Forall member_in ms ∧ Forall (λ owner, member_in owner.2) owners
    end).
Proof.
  revert owners ms. induction path as [|segment path IH]; intros owners ms Hms Howners; [done|].
  cbn [enter_types]. pose proof (Forall_List_filter _ (is_type_named segment) _ Hms) as Hfound.
  destruct (List.filter _ ms) as [|m [|m' found]].
  - eapply wp_call; [by apply unresolved_members_spec|]. done.
  - apply Forall_cons in Hfound as [Hm _]. destruct (member_kind m) as [declaration|?|?|] eqn:Hk;
      try (by split_and!; [constructor..|]).
    eapply wp_call; [by apply members_in|]. intros inside Hinside. apply IH; [done|].
    apply Forall_app. split; [done|]. by constructor.
  - eapply wp_call; [by apply unresolved_members_spec|]. done.
Qed.

Lemma locate_spec class_name candidate generated :
  wp (locate o class_name candidate generated) (outcome_ok (outline_source o)).
Proof.
  unfold locate. destruct (nested_type_path class_name) as [path|]; [|by split_and!; [constructor..|]].
  eapply wp_call; [apply scan_members_spec; [done|apply fence_len]|]. intros ms Hms.
  assert (Forall member_in ms) as Hin.
  { assert (0 ≤ 0) as Hlo by lia. revert Hlo Hms. generalize 0 at 2 3 as lo. induction ms as [|m ms IH]; intros lo Hlo Hms; [done|].
    destruct Hms as [Hm Hms]. constructor; [by eapply member_ok_widen|].
    apply (IH (S (member_end m))); [lia|done]. }
  eapply wp_call; [by apply enter_types_spec|]. intros [outcome|[owners inside]]; [done|].
  intros [Hinside Howners]. destruct (last owners) as [[declaration m]|] eqn:Hlast;
    [|by split_and!; [constructor..|]].
  destruct (candidate_kind candidate).
  - apply found_slice_spec. rewrite Forall_forall in Howners.
    apply (Howners (declaration, m)). by apply last_Some_elem_of.
  - unfold locate_field. eapply wp_call; [by apply direct_or_companion_spec|]. intros found Hfound.
    destruct found as [|x [|y found]]; try by apply unresolved_members_spec.
    apply found_slice_spec. by apply Forall_cons in Hfound as [? _].
  - by apply locate_function_spec.
Qed.
End Totality.

(** *** Uniqueness *)

Section Unique.
Context `{Unicode} (o : SourceOutline) (owners : Owners) (expected : list ErasedType).
Notation matched m r := (function_matches o m owners expected = Done r).

(** One overload of the loop of [match_overloads]. *)
Notation step := (λ '(proven, possible) member,
  matched ← function_matches o member owners expected;
  match matched with
  | Proven => Done (proven ++ [member], possible)
  | Possible => Done (proven, possible ++ [member])
  | Excluded => Done (proven, possible)
  end).

Lemma overloads_excluded l p q :
  Forall (λ m, matched m Excluded) l → for_each step l (p, q) = Done (p, q).
Proof. induction 1 as [|m l Hm Hl IH]; [done|]. cbn [for_each]. rewrite Hm. cbn. exact IH. Qed.

Lemma overloads_grow l p q p' q' :
  for_each step l (p, q) = Done (p', q') →
  ∃ p1 q1, p' = p ++ p1 ∧ q' = q ++ q1 ∧ (p1 = [] → q1 = [] → Forall (λ m, matched m Excluded) l).
Proof.
  revert p q. induction l as [|m l IH]; intros p q; cbn [for_each].
  - intros; simplify_eq. exists [], []. by rewrite !app_nil_r.
  - destruct (function_matches o m owners expected) as [[| |]| |] eqn:Hm; cbn; try done; intros Hrun;
      apply IH in Hrun as (p1 & q1 & -> & -> & Hex).
    + exists (m :: p1), q1. by rewrite <- app_assoc.
    + exists p1, (m :: q1). by rewrite <- app_assoc.
    + exists p1, q1. split_and!; [done..|]. intros. constructor; auto.
Qed.

Lemma match_overloads_single found m :
  match_overloads o owners expected found = Done ([m], []) ↔
  ∃ before after, found = before ++ m :: after ∧ matched m Proven
                  ∧ Forall (λ m', matched m' Excluded) (before ++ after).
Proof.
  unfold match_overloads. split.
  - induction found as [|x found IH]; cbn [for_each]; [done|].
    destruct (function_matches o x owners expected) as [[| |]| |] eqn:Hx; cbn; try done; intros Hrun.
    + apply overloads_grow in Hrun as (p1 & q1 & Hp & Hq & Hex). simplify_eq/=.
      exists [], found. split_and!; [done..|]. by apply Hex.
    + apply overloads_grow in Hrun as (p1 & q1 & _ & Hq & _). done.
    + destruct (IH Hrun) as (before & after & -> & ? & ?). exists (x :: before), after.
      split_and!; [done..|]. by constructor.
  - intros (before & after & -> & Hm & [Hb Ha]%Forall_app).
    assert (∀ l1 l2 s s', for_each step l1 s = Done s' → for_each step (l1 ++ l2) s = for_each step l2 s') as Happ.
    { clear. intros l1. induction l1 as [|x l1 IH]; intros l2 [p q] s' Hrun; [by simplify_eq/=|].
      cbn [for_each app] in *. destruct (function_matches o x owners expected) as [[| |]| |]; cbn in *; try done; by apply IH. }
    rewrite (Happ before _ _ ([], [])) by by apply overloads_excluded.
    cbn [for_each]. rewrite Hm. cbn. by apply overloads_excluded.
Qed.
End Unique.

Section Properties.
Context `{Unicode}.

(** C1: Locating any declaration in any source text, well-formed or not, never panics and always
    ends, and its answer is well formed: a slice of whole lines inside the file, or the sorted,
    distinct, existing lines of the candidates that could not be told apart. *)
Theorem locate_safe source lang class_name candidate generated :
  wp (locate_in source lang class_name candidate generated) (outcome_ok source).
Proof.
  unfold locate_in. eapply wp_call; [apply parse_wf|]. intros o (Hwf & <- & _).
  by apply locate_spec.
Qed.

(** C21: A method is never guessed.  Its slice is reported exactly when the method is not
    compiler-generated and one same-named function is the only candidate: the only one at all
    when no descriptor is known, and otherwise the only one whose erased parameters equal the
    descriptor's, all others being ruled out rather than merely unproven. *)
Theorem found_iff_unique o ms owners candidate generated s :
  locate_function o ms owners candidate generated = Done (Found s) ↔
  generated = false ∧ ∃ found m,
    direct_or_companion o ms (is_function_named (candidate_name candidate)) = Done found
    ∧ found_slice o m = Done (Found s)
    ∧ match descriptor candidate with
      | None => found = [m]
      | Some d => ∃ expected before after,
          descriptor_parameters d = Done (Some expected)
          ∧ found = before ++ m :: after
          ∧ function_matches o m owners expected = Done Proven
          ∧ Forall (λ m', function_matches o m' owners expected = Done Excluded) (before ++ after)
      end.
Proof.
  unfold locate_function.
  destruct (direct_or_companion o ms _) as [found| |]; cbn [mbind exec_bind]; cbv zeta; [|naive_solver..].
  assert (∀ (m : exec (list N)) reason, (lines ← m; Done (Unresolved reason lines)) ≠ Done (Found s)) as Hno.
  { by intros [] ?. }
  assert (∀ l, unresolved_members o l ≠ Done (Found s)) as Hno'.
  { intros []; [done|apply Hno]. }
  destruct found as [|x found].
  { split; [done|]. intros (_ & found & m & Hf & _ & Hd). simplify_eq.
    destruct (descriptor candidate); [|done]. destruct Hd as (? & [|] & ? & _ & ? & _); done. }
  destruct generated; [split; [by intros ?%Hno|by intros [? _]]|].
  destruct (descriptor candidate) as [d|].
  - destruct (descriptor_parameters d) as [[expected|]| |]; cbn [mbind exec_bind];
      [|split; [by intros ?%Hno|naive_solver]|naive_solver..].
    split.
    + destruct (match_overloads o owners expected (x :: found)) as [[proven possible]| |] eqn:Hm;
        cbn [mbind exec_bind]; try done.
      destruct proven as [|m [|]]; [by intros ?%Hno| |by intros ?%Hno'].
      destruct possible; [|by intros ?%Hno']. intros Hs.
      apply match_overloads_single in Hm as (before & after & ? & ? & ?).
      split; [done|]. exists (x :: found), m. split_and!; [done..|]. by exists expected, before, after.
    + intros (_ & found' & m & ? & Hs & expected' & before & after & ? & Hf & Hm & Hex). simplify_eq.
      rewrite (proj2 (match_overloads_single o owners _ (x :: found) m)); [done|].
      by exists before, after.
  - destruct found as [|y found].
    + split; [|naive_solver]. intros Hs. split; [done|]. by exists [x], x.
    + split; [by intros ?%Hno'|naive_solver].
Qed.
End Properties.
