(* ===== verification/ProjectCache.v ===== *)
(** * ProjectCache: validity and memory of the per-project caches

    Models [src/project_cache.rs].  Every [Arc] is an identity; [World] holds what the cache
    cannot see by itself: how many strong references exist outside the cache, which build locks
    are taken, and the sizes the shared objects report.  It may be different at every call, so
    requests can take and drop references between any two operations.  A [Weak] is the identity
    alone; it is alive when the world or the cache itself still holds a strong reference.
    Counters of requests and generations are unbounded; sums of bytes are checked. *)

From S2P Require Import Prelude.
From S2P Require Import Text.
From S2P Require Import Paths.

Open Scope N_scope.

Definition RUNNER_BASE_BYTES : N := 16 * 1024.
Definition PATH_ENTRY_OVERHEAD_BYTES : N := 96.

(** ** Fingerprints *)

Record FileStamp := {
  len : N;
  modified_ns : N;
}.
#[export] Instance FileStamp_eq_dec : EqDecision FileStamp.
Proof. solve_decision. Defined.

(** [ProjectFingerprint]: the stamps of a fixed set of paths. *)
Abbreviation ProjectFingerprint := (gmap (list (list N)) (option FileStamp)) (only parsing).

Section Fingerprint.
(** The file system: [stamp] of a path. *)
Context (stamp : path → option FileStamp).

Definition capture (paths : list path) : ProjectFingerprint :=
  list_to_map ((λ p, (p, stamp p)) <$> paths).

Definition fingerprint_is_current (fp : ProjectFingerprint) : bool :=
  forallb (λ '(p, recorded), bool_decide (stamp p = recorded)) (map_to_list fp).
End Fingerprint.

Definition SETTLED_AGE : N := 2 * 1000000000.

(** [was_settled_at] of [index/persisted.rs]; [moment] is in nanoseconds since the epoch, and a
    moment the subtraction takes before the epoch settles nothing. *)
Definition was_settled_at (modified moment : N) : bool :=
  (SETTLED_AGE <=? moment) && (modified <=? moment - SETTLED_AGE).

Definition fingerprint_was_settled_at (moment : N) (fp : ProjectFingerprint) : bool :=
  forallb (λ '(_, stamp), match stamp with
                          | Some stamp => was_settled_at (modified_ns stamp) moment
                          | None => true
                          end) (map_to_list fp).

Definition file_bytes (fp : ProjectFingerprint) : N :=
  sum ((λ '(_, stamp), match stamp with Some stamp => len stamp | None => 0 end)
         <$> map_to_list fp).

Definition estimated_bytes (fp : ProjectFingerprint) : N :=
  sum ((λ '(p, _), os_len p + PATH_ENTRY_OVERHEAD_BYTES) <$> map_to_list fp).

(** ** State *)

Record CacheLimits := {
  max_indexes : nat;
  max_runners : nat;
  max_bytes : N;
}.

Record CachedIndex := {
  index : N;
  project : ProjectFingerprint;
  artifacts : ProjectFingerprint;
  index_bytes : N;
  classpath_entries : N;
  build_duration : N;
}.

Record FinishedBuild := {
  build_artifacts : ProjectFingerprint;
  build_classpath_entries : N;
  duration : N;
}.

Record RunnerEntry := {
  runner : N;
  fingerprint : ProjectFingerprint;
  revalidate : bool;
}.
Abbreviation RunnerSnapshot := RunnerEntry (only parsing).

Record ReleasedRunner := {
  released_runner : N;
  fingerprint_bytes : N;
}.

Record InFlight := {
  in_flight_generation : N;
  cell : N;
  owner : N;
}.

Record ProjectState := {
  generation : N;
  state_runner : option RunnerEntry;
  state_index : option CachedIndex;
  in_flight : option InFlight;
  full_rebuild : bool;
  last_used_tick : N;
  last_used_unix_ms : N;
}.

Record PersistedCounters := {
  classpath_hits : N;
  record_hits : N;
  record_misses : N;
}.

Record ProjectCache := {
  limits : CacheLimits;
  states : gmap (list (list N)) ProjectState;
  released : list (N * N);
  released_runners : list ReleasedRunner;
  reservations : list (N * N);
  next_generation : N;
  tick : N;
  hits : N;
  misses : N;
  evictions : N;
  invalidations : N;
  persisted : PersistedCounters;
}.

Inductive IndexLookup :=
| Cached (entry : CachedIndex) (lookup_generation : N)
| Build (lookup_cell lookup_owner lookup_generation : N).

Inductive ReserveError :=
| ReserveStale
| OverBudget (needed limit : N).

Inductive Publication := Stale | Retained | Uncached.

(** What the cache cannot see by itself. *)
Record World := {
  index_refs : N → N;
  runner_refs : N → N;
  cell_refs : N → N;
  reservation_refs : N → N;
  lock_taken : N → bool;
  retained_test_result_bytes : N → N;
  index_estimated_bytes : N → N;
}.

Definition drop_reservation (reservation : N) (w : World) : World := {|
  index_refs := index_refs w;
  runner_refs := runner_refs w;
  cell_refs := cell_refs w;
  reservation_refs r := if r =? reservation then reservation_refs w r - 1 else reservation_refs w r;
  lock_taken := lock_taken w;
  retained_test_result_bytes := retained_test_result_bytes w;
  index_estimated_bytes := index_estimated_bytes w;
|}.

(** ** Updates of single fields *)

Definition new_state (generation now : N) : ProjectState := {|
  generation := generation;
  state_runner := None;
  state_index := None;
  in_flight := None;
  full_rebuild := false;
  last_used_tick := 0;
  last_used_unix_ms := now;
|}.

Definition with_index (i : option CachedIndex) (s : ProjectState) : ProjectState := {|
  generation := generation s; state_runner := state_runner s; state_index := i;
  in_flight := in_flight s; full_rebuild := full_rebuild s;
  last_used_tick := last_used_tick s; last_used_unix_ms := last_used_unix_ms s |}.
Definition with_runner (r : option RunnerEntry) (s : ProjectState) : ProjectState := {|
  generation := generation s; state_runner := r; state_index := state_index s;
  in_flight := in_flight s; full_rebuild := full_rebuild s;
  last_used_tick := last_used_tick s; last_used_unix_ms := last_used_unix_ms s |}.
Definition with_in_flight (f : option InFlight) (s : ProjectState) : ProjectState := {|
  generation := generation s; state_runner := state_runner s; state_index := state_index s;
  in_flight := f; full_rebuild := full_rebuild s;
  last_used_tick := last_used_tick s; last_used_unix_ms := last_used_unix_ms s |}.
Definition with_generation (g : N) (s : ProjectState) : ProjectState := {|
  generation := g; state_runner := state_runner s; state_index := state_index s;
  in_flight := in_flight s; full_rebuild := full_rebuild s;
  last_used_tick := last_used_tick s; last_used_unix_ms := last_used_unix_ms s |}.
Definition with_full_rebuild (b : bool) (s : ProjectState) : ProjectState := {|
  generation := generation s; state_runner := state_runner s; state_index := state_index s;
  in_flight := in_flight s; full_rebuild := b;
  last_used_tick := last_used_tick s; last_used_unix_ms := last_used_unix_ms s |}.
Definition used_at (tick : N) (s : ProjectState) : ProjectState := {|
  generation := generation s; state_runner := state_runner s; state_index := state_index s;
  in_flight := in_flight s; full_rebuild := full_rebuild s;
  last_used_tick := tick; last_used_unix_ms := last_used_unix_ms s |}.
Definition used_on (now : N) (s : ProjectState) : ProjectState := {|
  generation := generation s; state_runner := state_runner s; state_index := state_index s;
  in_flight := in_flight s; full_rebuild := full_rebuild s;
  last_used_tick := last_used_tick s; last_used_unix_ms := now |}.

Definition set_states (m : gmap (list (list N)) ProjectState) (c : ProjectCache) : ProjectCache := {|
  limits := limits c; states := m; released := released c;
  released_runners := released_runners c; reservations := reservations c;
  next_generation := next_generation c; tick := tick c; hits := hits c; misses := misses c;
  evictions := evictions c; invalidations := invalidations c; persisted := persisted c |}.
Definition set_released (l : list (N * N)) (c : ProjectCache) : ProjectCache := {|
  limits := limits c; states := states c; released := l;
  released_runners := released_runners c; reservations := reservations c;
  next_generation := next_generation c; tick := tick c; hits := hits c; misses := misses c;
  evictions := evictions c; invalidations := invalidations c; persisted := persisted c |}.
Definition set_released_runners (l : list ReleasedRunner) (c : ProjectCache) : ProjectCache := {|
  limits := limits c; states := states c; released := released c;
  released_runners := l; reservations := reservations c;
  next_generation := next_generation c; tick := tick c; hits := hits c; misses := misses c;
  evictions := evictions c; invalidations := invalidations c; persisted := persisted c |}.
Definition set_reservations (l : list (N * N)) (c : ProjectCache) : ProjectCache := {|
  limits := limits c; states := states c; released := released c;
  released_runners := released_runners c; reservations := l;
  next_generation := next_generation c; tick := tick c; hits := hits c; misses := misses c;
  evictions := evictions c; invalidations := invalidations c; persisted := persisted c |}.
(** [+= 1] on the counters: generation, tick, hits, misses, evictions, invalidations. *)
Definition count (g t h m e i : N) (c : ProjectCache) : ProjectCache := {|
  limits := limits c; states := states c; released := released c;
  released_runners := released_runners c; reservations := reservations c;
  next_generation := next_generation c + g; tick := tick c + t; hits := hits c + h;
  misses := misses c + m; evictions := evictions c + e;
  invalidations := invalidations c + i; persisted := persisted c |}.

Definition update_state (root : path) (f : ProjectState → ProjectState) (c : ProjectCache)
    : ProjectCache := set_states (alter f root (states c)) c.

Definition new (limits : CacheLimits) : ProjectCache := {|
  limits := limits;
  states := ∅;
  released := [];
  released_runners := [];
  reservations := [];
  next_generation := 0;
  tick := 0;
  hits := 0;
  misses := 0;
  evictions := 0;
  invalidations := 0;
  persisted := {| classpath_hits := 0; record_hits := 0; record_misses := 0 |};
|}.

Definition next_tick (c : ProjectCache) : N * ProjectCache := (tick c + 1, count 0 1 0 0 0 0 c).
Definition fresh_generation (c : ProjectCache) : N * ProjectCache :=
  (next_generation c + 1, count 1 0 0 0 0 0 c).

(** [self.states.entry(root).or_insert_with(..)] *)
Definition or_insert_state (root : path) (s : ProjectState) (c : ProjectCache) : ProjectCache :=
  match states c !! root with
  | Some _ => c
  | None => set_states (<[root := s]> (states c)) c
  end.

Definition record_persisted_use (classpath_hit : bool) (record_hit record_miss : N)
    (c : ProjectCache) : ProjectCache := {|
  limits := limits c; states := states c; released := released c;
  released_runners := released_runners c; reservations := reservations c;
  next_generation := next_generation c; tick := tick c; hits := hits c; misses := misses c;
  evictions := evictions c; invalidations := invalidations c;
  persisted := {| classpath_hits := classpath_hits (persisted c) + (if classpath_hit then 1 else 0);
                  record_hits := record_hits (persisted c) + record_hit;
                  record_misses := record_misses (persisted c) + record_miss |} |}.

Definition is_current (c : ProjectCache) (root : path) (g : N) : bool :=
  match states c !! root with
  | Some s => generation s =? g
  | None => false
  end.

(** ** Liveness and memory *)

Section Memory.
Context (w : World).

(** [Weak::strong_count() > 0] of an index and of a runner. *)
Definition index_alive (c : ProjectCache) (i : N) : bool :=
  (0 <? index_refs w i)
  || existsb (λ '(_, s), match state_index s with Some e => index e =? i | None => false end)
       (map_to_list (states c)).

Definition runner_alive (c : ProjectCache) (r : N) : bool :=
  (0 <? runner_refs w r)
  || existsb (λ '(_, s), match state_runner s with Some e => runner e =? r | None => false end)
       (map_to_list (states c)).

Definition reservation_alive (r : N) : bool := 0 <? reservation_refs w r.

(** The cache holds one reference to the cell itself; the owner's lock, not its reference
    count, tells whether the build still runs. *)
Definition is_live (f : InFlight) : bool := (0 <? cell_refs w (cell f)) || lock_taken w (owner f).

Definition in_flight_live (s : ProjectState) : bool :=
  match in_flight s with Some f => is_live f | None => false end.

Definition runner_bytes (r : N) (fp : ProjectFingerprint) : N :=
  RUNNER_BASE_BYTES + estimated_bytes fp + retained_test_result_bytes w r.
Definition runner_entry_bytes (e : RunnerEntry) : N := runner_bytes (runner e) (fingerprint e).

Definition release_runner (e : RunnerEntry) : ReleasedRunner :=
  {| released_runner := runner e; fingerprint_bytes := estimated_bytes (fingerprint e) |}.

Definition released_runner_bytes (c : ProjectCache) (r : ReleasedRunner) : N :=
  if runner_alive c (released_runner r)
  then RUNNER_BASE_BYTES + fingerprint_bytes r + retained_test_result_bytes w (released_runner r)
  else 0.

Definition state_bytes (s : ProjectState) : N :=
  match state_runner s with Some e => runner_entry_bytes e | None => 0 end
  + match state_index s with Some e => index_bytes e | None => 0 end.

(** The sum [retained_bytes] computes, without its width. *)
Definition total_bytes (c : ProjectCache) : N :=
  sum ((λ '(_, s), state_bytes s) <$> map_to_list (states c))
  + sum (snd <$> filter (λ '(i, _), index_alive c i) (released c))
  + sum (released_runner_bytes c <$> released_runners c)
  + sum (snd <$> filter (λ '(r, _), reservation_alive r) (reservations c)).

Definition retained_bytes (c : ProjectCache) : exec N := or_panic (checked_add (total_bytes c) 0).

(** ** Eviction *)

Definition prune (c : ProjectCache) : ProjectCache :=
  let c := set_released (filter (λ '(i, _), index_alive c i) (released c)) c in
  let c := set_released_runners
             (filter (λ r, runner_alive c (released_runner r)) (released_runners c)) c in
  let c := set_states
             ((λ s, if in_flight_live s then s else with_in_flight None s) <$> states c) c in
  set_reservations (filter (λ '(r, _), reservation_alive r) (reservations c)) c.

Definition release_index (root : path) (c : ProjectCache) : ProjectCache :=
  match states c !! root ≫= state_index with
  | None => c
  | Some entry =>
      let c := update_state root (with_index None) c in
      prune (set_released (released c ++ [(index entry, index_bytes entry)]) c)
  end.

Definition invalidate (root : path) (c : ProjectCache) : ProjectCache :=
  let '(g, c) := fresh_generation c in
  match states c !! root with
  | None => c
  | Some _ =>
      let c := update_state root (λ s, with_in_flight None (with_generation g s)) c in
      release_index root (count 0 0 0 0 0 1 c)
  end.

(** [min_by_key] of the states by their last use: the first minimum. *)
Fixpoint least_recently_used (l : list (path * ProjectState)) : option (path * ProjectState) :=
  match l with
  | [] => None
  | x :: l =>
      match least_recently_used l with
      | Some y => if last_used_tick x.2 <=? last_used_tick y.2 then Some x else Some y
      | None => Some x
      end
  end.

Definition unprotected (protect : option path) (root : path) : bool :=
  match protect with Some protected => negb (bool_decide (protected = root)) | None => true end.

Definition index_victim (protect : option path) (c : ProjectCache) : option path :=
  fst <$> least_recently_used
            (List.filter (λ '(root, s), is_some (state_index s) && unprotected protect root)
               (map_to_list (states c))).

Definition evict_least_recently_used_index (protect : option path) (c : ProjectCache)
    : bool * ProjectCache :=
  match index_victim protect c with
  | None => (false, c)
  | Some victim => (true, count 0 0 0 0 1 0 (release_index victim c))
  end.

Definition runner_victim (protect : option path) (c : ProjectCache) : option path :=
  fst <$> least_recently_used
            (List.filter (λ '(root, s), is_some (state_runner s) && negb (in_flight_live s)
                                        && unprotected protect root)
               (map_to_list (states c))).

(** [state.runner.take()], the taken runner going to [released_runners]. *)
Definition take_runner (root : path) (c : ProjectCache) : ProjectCache :=
  match states c !! root ≫= state_runner with
  | None => c
  | Some entry =>
      let c := update_state root (with_runner None) c in
      set_released_runners (released_runners c ++ [release_runner entry]) c
  end.

Definition evict_least_recently_used_runner (protect : option path) (c : ProjectCache)
    : bool * ProjectCache :=
  match runner_victim protect c with
  | None => (false, c)
  | Some victim => (true, take_runner victim c)
  end.

(** How many projects have an index, and a runner. *)
Definition index_count (c : ProjectCache) : nat :=
  length (List.filter (λ '(_, s), is_some (state_index s)) (map_to_list (states c))).
Definition runner_count (c : ProjectCache) : nat :=
  length (List.filter (λ '(_, s), is_some (state_runner s)) (map_to_list (states c))).

(** Evicting an index, or else a runner. *)
Definition evict_one (protect_index protect_runner : option path) (c : ProjectCache)
    : bool * ProjectCache :=
  let '(evicted, c') := evict_least_recently_used_index protect_index c in
  if evicted then (true, c') else evict_least_recently_used_runner protect_runner c.

Definition limit_indexes (protect : option path) (c : ProjectCache) : exec ProjectCache :=
  loop (S (index_count c)) (λ c,
    if Nat.ltb (max_indexes (limits c)) (index_count c) then
      let '(evicted, c) := evict_least_recently_used_index protect c in
      if evicted : bool then Done (Continue c) else Done (Break c)
    else Done (Break c)) c.

Definition limit_bytes (protect : option path) (c : ProjectCache) : exec ProjectCache :=
  loop (S (index_count c + runner_count c)) (λ c,
    retained ← retained_bytes c;
    if max_bytes (limits c) <? retained then
      let '(evicted, c) := evict_one protect protect c in
      if evicted : bool then Done (Continue c) else Done (Break c)
    else Done (Break c)) c.

Definition limit_runners (protect : option path) (c : ProjectCache) : exec ProjectCache :=
  loop (S (runner_count c)) (λ c,
    if Nat.ltb (max_runners (limits c)) (runner_count c) then
      let '(evicted, c) := evict_least_recently_used_runner protect c in
      if evicted : bool then Done (Continue c) else Done (Break c)
    else Done (Break c)) c.

Definition is_used (s : ProjectState) : bool :=
  is_some (state_runner s) || is_some (state_index s) || in_flight_live s.

Definition enforce (protect : option path) (c : ProjectCache) : exec ProjectCache :=
  let c := prune c in
  c ← limit_indexes protect c;
  c ← limit_bytes protect c;
  c ← limit_runners protect c;
  Done (set_states (filter (λ '(_, s), is_used s) (states c)) c).

(** ** Operations *)

Definition get_runner (root : path) (now : N) (c : ProjectCache)
    : option RunnerSnapshot * ProjectCache :=
  let '(t, c) := next_tick c in
  let c := update_state root (λ s, used_on now (used_at t s)) c in
  (states c !! root ≫= state_runner, c).

Definition install_runner (root : path) (new_runner : N) (fp : ProjectFingerprint) (now : N)
    (c : ProjectCache) : exec (RunnerSnapshot * ProjectCache) :=
  let changed := match states c !! root ≫= state_runner with
                 | Some previous => negb (bool_decide (fingerprint previous = fp))
                 | None => false
                 end in
  let c := if changed then invalidate root c else c in
  let '(t, c) := next_tick c in
  let '(g, c) := fresh_generation c in
  let c := or_insert_state root (new_state g now) c in
  let replaced := states c !! root ≫= state_runner in
  let entry := {| runner := new_runner; fingerprint := fp; revalidate := false |} in
  let c := update_state root (λ s, used_on now (used_at t (with_runner (Some entry) s))) c in
  let c := match replaced with
           | Some replaced =>
               set_released_runners (released_runners c ++ [release_runner replaced]) c
           | None => c
           end in
  c ← enforce (Some root) c;
  Done (entry, c).

Definition discard_project (root : path) (c : ProjectCache) : exec ProjectCache :=
  enforce None (take_runner root (invalidate root c)).

Definition invalidate_after_maven (root : path) (c : ProjectCache) : ProjectCache :=
  update_state root (λ s,
    with_runner ((λ e, {| runner := runner e; fingerprint := fingerprint e; revalidate := true |})
                   <$> state_runner s) s) (invalidate root c).

Definition require_full_rebuild (root : path) (now : N) (c : ProjectCache) : ProjectCache :=
  let '(g, c) := fresh_generation c in
  update_state root (with_full_rebuild true) (or_insert_state root (new_state g now) c).

Definition requires_full_rebuild (root : path) (c : ProjectCache) : bool :=
  match states c !! root with Some s => full_rebuild s | None => false end.

Definition finish_full_rebuild (root : path) (g : N) (c : ProjectCache) : ProjectCache :=
  update_state root (λ s, if generation s =? g then with_full_rebuild false s else s) c.

Definition invalidate_generation (root : path) (g : N) (c : ProjectCache) : ProjectCache :=
  if is_current c root g then invalidate root c else c.

(** [new_cell] and [new_owner] are the identities a new cell and its lock would get. *)
Definition lookup_build (root : path) (new_cell new_owner : N) (c : ProjectCache)
    : exec (IndexLookup * ProjectCache) :=
  let c := count 0 0 0 1 0 0 c in
  s ← or_panic (states c !! root);
  let g := generation s in
  let fresh :=
    let f := {| in_flight_generation := g; cell := new_cell; owner := new_owner |} in
    Done (Build new_cell new_owner g, update_state root (with_in_flight (Some f)) c) in
  match in_flight s with
  | Some f => if in_flight_generation f =? g then Done (Build (cell f) (owner f) g, c) else fresh
  | None => fresh
  end.

Definition lookup_index (root : path) (fp : ProjectFingerprint) (new_cell new_owner now : N)
    (c : ProjectCache) : exec (IndexLookup * ProjectCache) :=
  let '(t, c) := next_tick c in
  let '(g, c) := fresh_generation c in
  let c := or_insert_state root (new_state g now) c in
  let c := update_state root (used_at t) c in
  s ← or_panic (states c !! root);
  match state_index s with
  | Some entry =>
      if bool_decide (project entry = fp) then Done (Cached entry (generation s), c)
      else lookup_build root new_cell new_owner (invalidate root c)
  | None => lookup_build root new_cell new_owner c
  end.

Definition record_hit_for (root : path) (now : N) (c : ProjectCache) : ProjectCache :=
  let '(t, c) := next_tick (count 0 0 1 0 0 0 c) in
  update_state root (λ s, used_on now (used_at t s)) c.

(** The loop of [reserve]: [inl] with the bytes needed when nothing more can be evicted. *)
Definition make_room (root : path) (bytes : N) (c : ProjectCache)
    : exec ((N + unit) * ProjectCache) :=
  loop (S (index_count c + runner_count c)) (λ c,
    retained ← retained_bytes c;
    needed ← or_panic (checked_add retained bytes);
    if max_bytes (limits c) <? needed then
      let '(evicted, c) := evict_one None (Some root) c in
      if evicted : bool then Done (Continue c)
      else
        retained ← retained_bytes c;
        needed ← or_panic (checked_add retained bytes);
        Done (Break (inl needed, c))
    else Done (Break (inr tt, c))) c.

(** [reservation] is the identity of the new [Arc]. *)
Definition reserve (root : path) (g bytes reservation : N) (c : ProjectCache)
    : exec ((ReserveError + N) * ProjectCache) :=
  let c := prune c in
  if negb (is_current c root g) then Done (inl ReserveStale, c)
  else
    '(room, c) ← make_room root bytes c;
    match room with
    | inl needed => Done (inl (OverBudget needed (max_bytes (limits c))), c)
    | inr _ =>
        Done (inr reservation, set_reservations (reservations c ++ [(reservation, bytes)]) c)
    end.

(** [publish] after its reservation was dropped. *)
Definition publish_dropped (root : path) (g new_index : N) (build : FinishedBuild)
    (fp : ProjectFingerprint) (now : N) (c : ProjectCache) : exec (Publication * ProjectCache) :=
  let c := prune c in
  if negb (is_current c root g) then Done (Stale, c)
  else
    bytes ← or_panic (checked_add (index_estimated_bytes w new_index)
                                  (estimated_bytes (build_artifacts build)));
    if max_bytes (limits c) <? bytes then
      let c := update_state root (with_in_flight None) c in
      Done (Uncached, set_released (released c ++ [(new_index, bytes)]) c)
    else
      let entry := {| index := new_index; project := fp; artifacts := build_artifacts build;
                      index_bytes := bytes;
                      classpath_entries := build_classpath_entries build;
                      build_duration := duration build |} in
      let '(t, c) := next_tick c in
      let c := update_state root (λ s,
                 used_on now (used_at t (with_index (Some entry) (with_in_flight None s)))) c in
      c ← enforce (Some root) c;
      retained ← retained_bytes c;
      if max_bytes (limits c) <? retained then Done (Uncached, release_index root c)
      else Done (Retained, c).

Definition finish_failed (root : path) (g : N) (c : ProjectCache) : exec ProjectCache :=
  enforce None (update_state root
    (λ s, if generation s =? g then with_in_flight None s else s) c).
End Memory.

Definition publish (w : World) (root : path) (g new_index : N) (build : FinishedBuild)
    (fp : ProjectFingerprint) (reservation now : N) (c : ProjectCache)
    : exec (Publication * ProjectCache) :=
  publish_dropped (drop_reservation reservation w) root g new_index build fp now c.

(** ** What the operator sees *)

Inductive IndexState := Ready | Building | NotIndexed.

Record ProjectIndexStatus := {
  project_path : path;
  status_last_used_unix_ms : N;
  status_state : IndexState;
  status_index : option N;
  status_estimated_bytes : N;
  status_classpath_entries : option N;
  status_build_duration : option N;
}.

(** [runtime_status]; the index whose figures are shown stands for those figures. *)
Definition runtime_status (w : World) (root : path) (s : ProjectState)
    : option ProjectIndexStatus :=
  let status (st : IndexState) := {|
    project_path := root;
    status_last_used_unix_ms := last_used_unix_ms s;
    status_state := st;
    status_index := None;
    status_estimated_bytes := 0;
    status_classpath_entries := None;
    status_build_duration := None |} in
  match state_index s with
  | Some entry => Some {|
      project_path := root;
      status_last_used_unix_ms := last_used_unix_ms s;
      status_state := Ready;
      status_index := Some (index entry);
      status_estimated_bytes := index_bytes entry;
      status_classpath_entries := Some (classpath_entries entry);
      status_build_duration := Some (N.min u64_max (build_duration entry)) |}
  | None =>
      if in_flight_live w s then Some (status Building)
      else (λ _, status NotIndexed) <$> state_runner s
  end.

Record RuntimeCacheStatus := {
  rt_entries : nat;
  rt_hits : N;
  rt_misses : N;
  rt_evictions : N;
  rt_invalidations : N;
  rt_retained_bytes : N;
  rt_max_bytes : N;
  rt_runners : nat;
  rt_persisted : PersistedCounters;
}.

Definition runtime_cache (w : World) (c : ProjectCache) : exec RuntimeCacheStatus :=
  retained ← retained_bytes w c;
  Done {| rt_entries := index_count c; rt_hits := hits c; rt_misses := misses c;
          rt_evictions := evictions c; rt_invalidations := invalidations c;
          rt_retained_bytes := retained; rt_max_bytes := max_bytes (limits c);
          rt_runners := runner_count c; rt_persisted := persisted c |}.

(** ** Specification *)

(** One call of the public interface, with everything the caller passes. *)
Inductive op :=
| OpPersisted (classpath_hit : bool) (record_hit record_miss : N)
| OpRunner (root : path) (now : N)
| OpInstall (root : path) (r : N) (fp : ProjectFingerprint) (now : N)
| OpDiscard (root : path)
| OpAfterMaven (root : path)
| OpRequireRebuild (root : path) (now : N)
| OpFinishRebuild (root : path) (g : N)
| OpInvalidateGeneration (root : path) (g : N)
| OpLookup (root : path) (fp : ProjectFingerprint) (c o now : N)
| OpHit (root : path) (now : N)
| OpReserve (root : path) (g bytes reservation : N)
| OpPublish (root : path) (g i : N) (build : FinishedBuild) (fp : ProjectFingerprint) (r now : N)
| OpFinishFailed (root : path) (g : N).

Definition run_op (w : World) (o : op) (c : ProjectCache) : exec ProjectCache :=
  match o with
  | OpPersisted hit records misses => Done (record_persisted_use hit records misses c)
  | OpRunner root now => Done (get_runner root now c).2
  | OpInstall root r fp now => snd <$> install_runner w root r fp now c
  | OpDiscard root => discard_project w root c
  | OpAfterMaven root => Done (invalidate_after_maven w root c)
  | OpRequireRebuild root now => Done (require_full_rebuild root now c)
  | OpFinishRebuild root g => Done (finish_full_rebuild root g c)
  | OpInvalidateGeneration root g => Done (invalidate_generation w root g c)
  | OpLookup root fp cl ow now => snd <$> lookup_index w root fp cl ow now c
  | OpHit root now => Done (record_hit_for root now c)
  | OpReserve root g bytes r => snd <$> reserve w root g bytes r c
  | OpPublish root g i build fp r now => snd <$> publish w root g i build fp r now c
  | OpFinishFailed root g => finish_failed w root g c
  end.

(** A sequence of calls of any requests, the world being another one at every call. *)
Inductive calls (allowed : World → op → Prop) : ProjectCache → ProjectCache → Prop :=
| calls_nil c : calls allowed c c
| calls_cons c w o c' c'' :
    allowed w o → run_op w o c = Done c' → calls allowed c' c'' → calls allowed c c''.

(** What every call does to generations: they only grow, and a project gets no generation that was
    given out before. *)
Record evolves (c c' : ProjectCache) : Prop := {
  ev_limits : limits c' = limits c;
  ev_next : next_generation c ≤ next_generation c';
  ev_generation root s' : states c' !! root = Some s' →
    next_generation c < generation s'
    ∨ ∃ s, states c !! root = Some s ∧ generation s = generation s';
}.

(** What eviction does: only indexes, runners and build markers disappear, and never those of the
    protected project. *)
Record shrinks (w : World) (protect : option path) (c c' : ProjectCache) : Prop := {
  sh_limits : limits c' = limits c;
  sh_next : next_generation c' = next_generation c;
  sh_tick : tick c' = tick c;
  sh_states root s' : states c' !! root = Some s' → ∃ s, states c !! root = Some s
    ∧ generation s' = generation s ∧ last_used_tick s' = last_used_tick s
    ∧ full_rebuild s' = full_rebuild s
    ∧ (state_index s' = state_index s ∨ unprotected protect root = true ∧ state_index s' = None)
    ∧ (state_runner s' = state_runner s ∨ unprotected protect root = true ∧ state_runner s' = None)
    ∧ (in_flight s' = in_flight s ∨ in_flight s' = None ∧ in_flight_live w s = false);
  sh_kept root s : states c !! root = Some s → unprotected protect root = false →
    is_some (state_runner s) || is_some (state_index s) = true → is_Some (states c' !! root);
}.

Record cache_inv (c : ProjectCache) : Prop := {
  inv_generation root s : states c !! root = Some s → generation s ≤ next_generation c;
  inv_tick root s : states c !! root = Some s → last_used_tick s ≤ tick c;
  inv_used root s : states c !! root = Some s →
    is_some (state_runner s) || is_some (state_index s) = true → 0 < last_used_tick s;
  inv_distinct r1 r2 s1 s2 : states c !! r1 = Some s1 → states c !! r2 = Some s2 →
    last_used_tick s1 = last_used_tick s2 → 0 < last_used_tick s1 → r1 = r2;
}.

(** ** Lemmas: generations *)

#[export] Instance evolves_preorder : PreOrder evolves.
Proof.
  split.
  - intros c. split; [done|lia|]. intros root s ?. right. by exists s.
  - intros a b c [Hl1 Hn1 Hg1] [Hl2 Hn2 Hg2]. split; [congruence|lia|].
    intros root s Hs. destruct (Hg2 _ _ Hs) as [?|(s' & Hs' & <-)]; [left; lia|].
    destruct (Hg1 _ _ Hs') as [?|(s'' & ? & ?)]; [by left|]. right. exists s''. split; congruence.
Qed.

Lemma evolves_states c m :
  (∀ root s', m !! root = Some s' → ∃ s, states c !! root = Some s ∧ generation s' = generation s) →
  evolves c (set_states m c).
Proof.
  intros Hm. split; [done|simpl; lia|]. intros root s' Hs'. right.
  destruct (Hm root s' Hs') as (s & ? & ?). by exists s.
Qed.

Lemma evolves_update root f c :
  (∀ s, generation (f s) = generation s) → evolves c (update_state root f c).
Proof.
  intros Hf. apply evolves_states. intros r s'. rewrite lookup_alter_Some.
  intros [(-> & s & ? & ->)|[? ?]]; eauto.
Qed.

Lemma evolves_count g t h m e i c : evolves c (count g t h m e i c).
Proof. split; simpl; [done|lia|]. intros root s ?. right. by exists s. Qed.

Lemma evolves_released l c : evolves c (set_released l c).
Proof. split; simpl; [done|lia|]. intros root s ?. right. by exists s. Qed.

Lemma evolves_released_runners l c : evolves c (set_released_runners l c).
Proof. split; simpl; [done|lia|]. intros root s ?. right. by exists s. Qed.

Lemma evolves_reservations l c : evolves c (set_reservations l c).
Proof. split; simpl; [done|lia|]. intros root s ?. right. by exists s. Qed.

(** A new project state takes a fresh generation. *)
Lemma evolves_insert root now c :
  evolves c (or_insert_state root (new_state (next_generation c + 1) now) (count 1 0 0 0 0 0 c)).
Proof.
  unfold or_insert_state. simpl. destruct (states c !! root) as [s|] eqn:Hs; [apply evolves_count|].
  split; simpl; [done|lia|]. intros r s'. rewrite lookup_insert_Some.
  intros [[-> <-]|[? ?]]; [left; simpl; lia|]. right. by exists s'.
Qed.

Lemma shrinks_evolves w protect c c' : shrinks w protect c c' → evolves c c'.
Proof.
  intros [Hl Hn _ Hs _]. split; [done|lia|]. intros root s' Hs'. right.
  destruct (Hs _ _ Hs') as (s & ? & ? & _). by exists s.
Qed.

#[export] Instance shrinks_preorder w protect : PreOrder (shrinks w protect).
Proof.
  split.
  - intros c. split; [done..| |].
    + intros root s ?. exists s. naive_solver.
    + intros root s -> _ _. by eexists.
  - intros a b c [? ? ? H1 K1] [? ? ? H2 K2]. split; [congruence..| |].
    + intros root s Hs. destruct (H2 _ _ Hs) as (s' & Hs' & ? & ? & ? & Hi & Hr & Hf).
      destruct (H1 _ _ Hs') as (s2 & Hs2 & ? & ? & ? & Hi' & Hr' & Hf').
      exists s2. split_and!; [done|congruence..| | |].
      * destruct Hi as [->|]; [done|by right].
      * destruct Hr as [->|]; [done|by right].
      * unfold in_flight_live in *. destruct Hf as [Hf|[Hf Hl]], Hf' as [Hf'|[Hf' Hl']];
          rewrite ?Hf', ?Hf in *; auto.
    + intros root s Hs Hp Hu. destruct (K1 _ _ Hs Hp Hu) as [s' Hs'].
      destruct (H1 _ _ Hs') as (s2 & Hs2 & _ & _ & _ & Hi & Hr & _). simplify_eq.
      apply (K2 _ _ Hs' Hp). destruct Hi as [->|[? _]]; [|congruence].
      by destruct Hr as [->|[? _]]; [|congruence].
Qed.

Lemma shrinks_inv w protect c c' : shrinks w protect c c' → cache_inv c → cache_inv c'.
Proof.
  intros [Hl Hn Ht Hs _] []. split.
  - intros root s' Hs'. destruct (Hs _ _ Hs') as (s & ? & -> & _). rewrite Hn. eauto.
  - intros root s' Hs'. destruct (Hs _ _ Hs') as (s & ? & _ & -> & _). rewrite Ht. eauto.
  - intros root s' Hs' Hu. destruct (Hs _ _ Hs') as (s & Hss & _ & -> & _ & Hi & Hr & _).
    eapply inv_used0; [done|]. apply orb_true_iff in Hu as [Hu|Hu]; apply orb_true_iff.
    + left. destruct Hr as [<-|[_ Hr]]; [done|by rewrite Hr in Hu].
    + right. destruct Hi as [<-|[_ Hi]]; [done|by rewrite Hi in Hu].
  - intros r1 r2 s1 s2 Hs1 Hs2. destruct (Hs _ _ Hs1) as (s1' & ? & _ & -> & _).
    destruct (Hs _ _ Hs2) as (s2' & ? & _ & -> & _). eauto.
Qed.

(** *** Sums and counts over the project states *)

Section MapSums.
Context (f : path * ProjectState → N).
Implicit Types m : gmap (list (list N)) ProjectState.

Definition map_sum m : N := sum (f <$> map_to_list m).

Lemma map_sum_insert m k s : m !! k = None → map_sum (<[k := s]> m) = f (k, s) + map_sum m.
Proof.
  intros Hk. unfold map_sum. rewrite (sum_perm _ _ (fmap_Permutation f _ _ (map_to_list_insert m k s Hk))).
  done.
Qed.

Lemma map_sum_delete m k s : m !! k = Some s → map_sum m = f (k, s) + map_sum (delete k m).
Proof.
  intros Hk. rewrite <- (insert_delete_id m k s Hk) at 1. apply map_sum_insert, lookup_delete_eq.
Qed.

Lemma map_sum_alter m k g s :
  m !! k = Some s → map_sum (alter g k m) + f (k, s) = map_sum m + f (k, g s).
Proof.
  intros Hk. rewrite (map_sum_delete m k s Hk).
  rewrite (map_sum_delete (alter g k m) k (g s)) by (by rewrite lookup_alter_eq, Hk).
  rewrite delete_alter_eq. lia.
Qed.

Lemma map_sum_le m m' :
  (∀ k s', m' !! k = Some s' → ∃ s, m !! k = Some s ∧ f (k, s') ≤ f (k, s)) → map_sum m' ≤ map_sum m.
Proof.
  revert m. induction m' as [|k s' m' Hk IH] using map_ind; intros m Hm.
  - apply N.le_0_l.
  - rewrite map_sum_insert by done.
    destruct (Hm k s') as (s & Hs & Hle); [by rewrite lookup_insert_eq|].
    rewrite (map_sum_delete m k s Hs).
    enough (map_sum m' ≤ map_sum (delete k m)) by lia. apply IH. intros k' t' Ht'.
    assert (k ≠ k') by (intros ->; congruence).
    destruct (Hm k' t') as (t & Ht & ?); [by rewrite lookup_insert_ne|].
    exists t. by rewrite lookup_delete_ne.
Qed.
End MapSums.

(** A count is the sum of an indicator. *)
Definition indicator (p : ProjectState → bool) : path * ProjectState → N :=
  λ '(_, s), if p s then 1 else 0.

Lemma count_sum p m :
  N.of_nat (length (List.filter (λ '(_, s), p s) (map_to_list m))) = map_sum (indicator p) m.
Proof.
  unfold map_sum. induction (map_to_list m) as [|[k s] l IH]; [done|].
  rewrite fmap_cons, sum_cons, <- IH.
  cbn [List.filter indicator]. destruct (p s); cbn [length]; lia.
Qed.

Lemma index_count_sum c :
  N.of_nat (index_count c) = map_sum (indicator (λ s, is_some (state_index s))) (states c).
Proof. apply count_sum. Qed.

Lemma runner_count_sum c :
  N.of_nat (runner_count c) = map_sum (indicator (λ s, is_some (state_runner s))) (states c).
Proof. apply count_sum. Qed.

(** ** Lemmas: eviction *)

Lemma least_recently_used_spec l :
  match least_recently_used l with
  | Some x => x ∈ l ∧ ∀ y, y ∈ l → last_used_tick x.2 ≤ last_used_tick y.2
  | None => l = []
  end.
Proof.
  induction l as [|x l IH]; [done|]. cbn [least_recently_used].
  destruct (least_recently_used l) as [y|].
  - destruct IH as [Hy Hmin]. destruct (N.leb_spec (last_used_tick x.2) (last_used_tick y.2)).
    + split; [left|]. intros z [->|Hz%Hmin]%elem_of_cons; lia.
    + split; [by right|]. intros z [->|Hz%Hmin]%elem_of_cons; lia.
  - subst l. split; [left|]. intros z [->|?%elem_of_nil]%elem_of_cons; [lia|done].
Qed.

(** The victim among the states that satisfy [p]. *)
Lemma lru_victim (p : path * ProjectState → bool) (m : gmap (list (list N)) ProjectState) :
  match fst <$> least_recently_used (List.filter p (map_to_list m)) with
  | Some v => ∃ s, m !! v = Some s ∧ p (v, s) = true
              ∧ ∀ r s', m !! r = Some s' → p (r, s') = true → last_used_tick s ≤ last_used_tick s'
  | None => ∀ r s, m !! r = Some s → p (r, s) = false
  end.
Proof.
  pose proof (least_recently_used_spec (List.filter p (map_to_list m))) as Hspec.
  assert (∀ r s, m !! r = Some s → p (r, s) = true → (r, s) ∈ List.filter p (map_to_list m)) as Hin.
  { intros r s Hr Hp. apply list_elem_of_In, filter_In. split; [|done].
    by apply list_elem_of_In, elem_of_map_to_list. }
  destruct (least_recently_used _) as [[v s]|]; simpl.
  - destruct Hspec as [Hv Hmin]. apply list_elem_of_In, filter_In in Hv as [Hv Hp].
    apply list_elem_of_In, elem_of_map_to_list in Hv. exists s. split_and!; [done..|].
    intros r s' Hr Hp'. exact (Hmin _ (Hin _ _ Hr Hp')).
  - intros r s Hr. apply not_true_iff_false. intros Hp. specialize (Hin _ _ Hr Hp).
    rewrite Hspec in Hin. by apply elem_of_nil in Hin.
Qed.

Lemma sum_filter_le {A} (f : A → N) (P Q : A → Prop) `{∀ x, Decision (P x), ∀ x, Decision (Q x)} l :
  (∀ x, P x → Q x) → sum (f <$> filter P l) ≤ sum (f <$> filter Q l).
Proof.
  intros HPQ. induction l as [|x l IH]; [done|]. rewrite !filter_cons.
  destruct (decide (P x)), (decide (Q x)); rewrite ?fmap_cons, ?sum_cons; try lia. naive_solver.
Qed.

Lemma sum_filter_all {A} (f : A → N) (P : A → Prop) `{∀ x, Decision (P x)} l :
  sum (f <$> filter P l) ≤ sum (f <$> l).
Proof.
  induction l as [|x l IH]; [done|]. rewrite filter_cons.
  destruct (decide (P x)); rewrite ?fmap_cons, ?sum_cons; lia.
Qed.

Lemma sum_fmap_le {A} (f g : A → N) l : (∀ x, f x ≤ g x) → sum (f <$> l) ≤ sum (g <$> l).
Proof. intros Hfg. induction l as [|x l IH]; [done|]. rewrite !fmap_cons, !sum_cons. specialize (Hfg x). lia. Qed.

(** [c'] holds no index and no runner that [c] did not hold. *)
Definition holds_less (c c' : ProjectCache) : Prop :=
  ∀ root s', states c' !! root = Some s' → ∃ s, states c !! root = Some s
    ∧ (state_index s' = state_index s ∨ state_index s' = None)
    ∧ (state_runner s' = state_runner s ∨ state_runner s' = None).

Lemma shrinks_holds_less w protect c c' : shrinks w protect c c' → holds_less c c'.
Proof.
  intros [_ _ _ Hs _] root s' Hs'. destruct (Hs _ _ Hs') as (s & ? & _ & _ & _ & Hi & Hr & _).
  exists s. naive_solver.
Qed.

Section Evict.
Context (w : World).

Lemma index_alive_less c c' i :
  holds_less c c' → index_alive w c' i = true → index_alive w c i = true.
Proof.
  intros Hless. unfold index_alive. rewrite !orb_true_iff, !existsb_exists.
  intros [?|([root s'] & Hin & Hi)]; [by left|right].
  apply list_elem_of_In, elem_of_map_to_list in Hin.
  destruct (Hless _ _ Hin) as (s & Hs & Hsi & _). exists (root, s).
  split; [by apply list_elem_of_In, elem_of_map_to_list|].
  destruct Hsi as [<-|Hsi]; [done|by rewrite Hsi in Hi].
Qed.

Lemma runner_alive_less c c' r :
  holds_less c c' → runner_alive w c' r = true → runner_alive w c r = true.
Proof.
  intros Hless. unfold runner_alive. rewrite !orb_true_iff, !existsb_exists.
  intros [?|([root s'] & Hin & Hi)]; [by left|right].
  apply list_elem_of_In, elem_of_map_to_list in Hin.
  destruct (Hless _ _ Hin) as (s & Hs & _ & Hsr). exists (root, s).
  split; [by apply list_elem_of_In, elem_of_map_to_list|].
  destruct Hsr as [<-|Hsr]; [done|by rewrite Hsr in Hi].
Qed.

Lemma released_runner_bytes_less c c' r :
  holds_less c c' → released_runner_bytes w c' r ≤ released_runner_bytes w c r.
Proof.
  intros Hless. unfold released_runner_bytes.
  destruct (runner_alive w c' (released_runner r)) eqn:E; [|lia].
  by rewrite (runner_alive_less c c' _ Hless E).
Qed.

(** The four parts of [total_bytes]. *)
Definition states_bytes (c : ProjectCache) : N := map_sum (λ '(_, s), state_bytes w s) (states c).
Definition released_bytes (c : ProjectCache) (l : list (N * N)) : N :=
  sum (snd <$> filter (λ '(i, _), index_alive w c i) l).
Definition runners_bytes (c : ProjectCache) (l : list ReleasedRunner) : N :=
  sum (released_runner_bytes w c <$> l).
Definition reserved_bytes (l : list (N * N)) : N :=
  sum (snd <$> filter (λ '(r, _), reservation_alive w r) l).

Lemma total_bytes_parts c :
  total_bytes w c = states_bytes c + released_bytes c (released c)
                    + runners_bytes c (released_runners c) + reserved_bytes (reservations c).
Proof. done. Qed.

Lemma released_bytes_less c c' l : holds_less c c' → released_bytes c' l ≤ released_bytes c l.
Proof.
  intros Hless. apply sum_filter_le. intros [i b] Hi. apply Is_true_true in Hi. apply Is_true_true.
  by eapply index_alive_less.
Qed.

Lemma runners_bytes_less c c' l : holds_less c c' → runners_bytes c' l ≤ runners_bytes c l.
Proof. intros Hless. apply sum_fmap_le. intros r. by apply released_runner_bytes_less. Qed.

Lemma filter_le_released c (P : N * N → Prop) `{∀ x, Decision (P x)} l :
  released_bytes c (filter P l) ≤ released_bytes c l.
Proof.
  unfold released_bytes. induction l as [|x l IH]; [done|]. rewrite !filter_cons.
  repeat case_decide; rewrite ?filter_cons; repeat case_decide; rewrite ?fmap_cons, ?sum_cons; lia || done.
Qed.

Lemma filter_le_reserved (P : N * N → Prop) `{∀ x, Decision (P x)} l :
  reserved_bytes (filter P l) ≤ reserved_bytes l.
Proof.
  unfold reserved_bytes. induction l as [|x l IH]; [done|]. rewrite !filter_cons.
  repeat case_decide; rewrite ?filter_cons; repeat case_decide; rewrite ?fmap_cons, ?sum_cons; lia || done.
Qed.

(** *** [prune] *)

Lemma prune_states c :
  states (prune w c)
  = (λ s, if in_flight_live w s then s else with_in_flight None s) <$> states c.
Proof. done. Qed.

Lemma prune_shrinks protect c : shrinks w protect c (prune w c).
Proof.
  split; [done..| |].
  - intros root s'. rewrite prune_states, lookup_fmap, fmap_Some.
    intros (s & Hs & ->). exists s. destruct (in_flight_live w s); naive_solver.
  - intros root s Hs _ _. by rewrite prune_states, lookup_fmap, Hs.
Qed.

Lemma map_sum_fmap (f : path * ProjectState → N) (g : ProjectState → ProjectState) (m : gmap (list (list N)) ProjectState) :
  (∀ k s, f (k, g s) = f (k, s)) → map_sum f (g <$> m) = map_sum f m.
Proof.
  intros Hfg. unfold map_sum. rewrite map_to_list_fmap, <- list_fmap_compose.
  f_equal. apply list_fmap_ext. intros i [k s] _. simpl. by rewrite Hfg.
Qed.

Lemma prune_total c : total_bytes w (prune w c) ≤ total_bytes w c.
Proof.
  rewrite !total_bytes_parts.
  pose proof (shrinks_holds_less w None _ _ (prune_shrinks None c)) as Hless.
  assert (states_bytes (prune w c) = states_bytes c) as ->.
  { unfold states_bytes. rewrite prune_states. apply map_sum_fmap. intros k s.
    by destruct (in_flight_live w s). }
  assert (released_bytes (prune w c) (released (prune w c)) ≤ released_bytes c (released c)).
  { etrans; [apply released_bytes_less, Hless|]. apply filter_le_released. }
  assert (runners_bytes (prune w c) (released_runners (prune w c)) ≤ runners_bytes c (released_runners c)).
  { etrans; [apply runners_bytes_less, Hless|]. apply sum_filter_all. }
  pose proof (filter_le_reserved (λ '(r, _), reservation_alive w r) (reservations c)).
  change (reservations (prune w c)) with (filter (λ '(r, _), Is_true (reservation_alive w r)) (reservations c)).
  lia.
Qed.

Lemma prune_index_count c : index_count (prune w c) = index_count c.
Proof.
  apply (inj N.of_nat). rewrite !index_count_sum, prune_states. apply map_sum_fmap.
  intros k s. simpl. by destruct (in_flight_live w s).
Qed.

Lemma prune_runner_count c : runner_count (prune w c) = runner_count c.
Proof.
  apply (inj N.of_nat). rewrite !runner_count_sum, prune_states. apply map_sum_fmap.
  intros k s. simpl. by destruct (in_flight_live w s).
Qed.

(** *** Releasing one index, one runner *)

Lemma update_shrinks protect root f c :
  (∀ s, generation (f s) = generation s ∧ last_used_tick (f s) = last_used_tick s
        ∧ full_rebuild (f s) = full_rebuild s
        ∧ (state_index (f s) = state_index s ∨ unprotected protect root = true ∧ state_index (f s) = None)
        ∧ (state_runner (f s) = state_runner s ∨ unprotected protect root = true ∧ state_runner (f s) = None)
        ∧ in_flight (f s) = in_flight s) →
  shrinks w protect c (update_state root f c).
Proof.
  intros Hf. split; [done..| |].
  - intros r s'. simpl. rewrite lookup_alter_Some.
    intros [(<- & s & Hs & ->)|[? Hs]]; [|exists s'; naive_solver].
    exists s. destruct (Hf s) as (? & ? & ? & ? & ? & ?). split_and!; auto.
  - intros r s Hs _ _. simpl. rewrite lookup_alter_is_Some. by eexists.
Qed.

Lemma shrinks_set_released protect c c' l : shrinks w protect c c' → shrinks w protect c (set_released l c').
Proof. by intros []. Qed.

Lemma shrinks_set_released_runners protect c c' l :
  shrinks w protect c c' → shrinks w protect c (set_released_runners l c').
Proof. by intros []. Qed.

Lemma release_index_shrinks protect root c :
  unprotected protect root = true → shrinks w protect c (release_index w root c).
Proof.
  intros Hroot. unfold release_index. destruct (states c !! root ≫= state_index) as [e|]; [|done].
  etrans; [|apply prune_shrinks]. apply shrinks_set_released, update_shrinks.
  intros s. simpl. naive_solver.
Qed.

Lemma take_runner_shrinks protect root c :
  unprotected protect root = true → shrinks w protect c (take_runner root c).
Proof.
  intros Hroot. unfold take_runner. destruct (states c !! root ≫= state_runner) as [e|]; [|done].
  apply shrinks_set_released_runners, update_shrinks. intros s. simpl. naive_solver.
Qed.

Lemma release_index_total root c : total_bytes w (release_index w root c) ≤ total_bytes w c.
Proof.
  unfold release_index. destruct (states c !! root) as [s|] eqn:Hs; simpl; [|lia].
  destruct (state_index s) as [e|] eqn:He; simpl; [|lia].
  etrans; [apply prune_total|]. rewrite !total_bytes_parts.
  set (c' := set_released _ _).
  assert (holds_less c c') as Hless.
  { eapply (shrinks_holds_less w None), shrinks_set_released, update_shrinks. intros t. simpl. naive_solver. }
  change (released c') with (released c ++ [(index e, index_bytes e)]).
  change (released_runners c') with (released_runners c). change (reservations c') with (reservations c).
  assert (states_bytes c' + index_bytes e = states_bytes c).
  { unfold states_bytes. change (states c') with (alter (with_index None) root (states c)).
    pose proof (map_sum_alter (λ '(_, s), state_bytes w s) _ _ (with_index None) _ Hs) as Hsum.
    simpl in Hsum. unfold state_bytes in Hsum at 2 4. rewrite He in Hsum. simpl in Hsum. lia. }
  assert (released_bytes c' (released c ++ [(index e, index_bytes e)])
          ≤ released_bytes c (released c) + index_bytes e).
  { unfold released_bytes. rewrite filter_app, fmap_app, sum_app.
    pose proof (released_bytes_less c c' (released c) Hless) as Hl. unfold released_bytes in Hl.
    rewrite filter_cons. destruct (decide _); cbn; lia. }
  pose proof (runners_bytes_less c c' (released_runners c) Hless). lia.
Qed.

Lemma take_runner_total root c : total_bytes w (take_runner root c) ≤ total_bytes w c.
Proof.
  unfold take_runner. destruct (states c !! root) as [s|] eqn:Hs; simpl; [|lia].
  destruct (state_runner s) as [e|] eqn:He; simpl; [|lia]. rewrite !total_bytes_parts.
  set (c' := set_released_runners _ _).
  assert (holds_less c c') as Hless.
  { eapply (shrinks_holds_less w None), shrinks_set_released_runners, update_shrinks. intros t. simpl. naive_solver. }
  change (released_runners c') with (released_runners c ++ [release_runner e]).
  change (released c') with (released c). change (reservations c') with (reservations c).
  assert (states_bytes c' + runner_entry_bytes w e = states_bytes c).
  { unfold states_bytes. change (states c') with (alter (with_runner None) root (states c)).
    pose proof (map_sum_alter (λ '(_, s), state_bytes w s) _ _ (with_runner None) _ Hs) as Hsum.
    simpl in Hsum. unfold state_bytes in Hsum at 2 4. rewrite He in Hsum. simpl in Hsum. lia. }
  assert (runners_bytes c' (released_runners c ++ [release_runner e])
          ≤ runners_bytes c (released_runners c) + runner_entry_bytes w e).
  { unfold runners_bytes. rewrite fmap_app, sum_app.
    pose proof (runners_bytes_less c c' (released_runners c) Hless) as Hl. unfold runners_bytes in Hl.
    assert (released_runner_bytes w c' (release_runner e) ≤ runner_entry_bytes w e).
    { unfold released_runner_bytes, runner_entry_bytes, runner_bytes. simpl.
      destruct (runner_alive _ _ _); lia. }
    cbn. lia. }
  pose proof (released_bytes_less c c' (released c) Hless). lia.
Qed.

Lemma release_index_counts root c s e :
  states c !! root = Some s → state_index s = Some e →
  S (index_count (release_index w root c)) = index_count c
  ∧ runner_count (release_index w root c) = runner_count c.
Proof.
  intros Hs He. unfold release_index. rewrite Hs. simpl. rewrite He. simpl.
  rewrite prune_index_count, prune_runner_count. split; apply (inj N.of_nat).
  - rewrite Nat2N.inj_succ, !index_count_sum.
    pose proof (map_sum_alter (indicator (λ s, is_some (state_index s))) _ _ (with_index None) _ Hs) as Hsum.
    simpl in *. rewrite He in Hsum. simpl in Hsum. lia.
  - rewrite !runner_count_sum.
    pose proof (map_sum_alter (indicator (λ s, is_some (state_runner s))) _ _ (with_index None) _ Hs) as Hsum.
    simpl in *. lia.
Qed.

Lemma take_runner_counts root c s e :
  states c !! root = Some s → state_runner s = Some e →
  index_count (take_runner root c) = index_count c
  ∧ S (runner_count (take_runner root c)) = runner_count c.
Proof.
  intros Hs He. unfold take_runner. rewrite Hs. simpl. rewrite He. simpl.
  split; apply (inj N.of_nat).
  - rewrite !index_count_sum.
    pose proof (map_sum_alter (indicator (λ s, is_some (state_index s))) _ _ (with_runner None) _ Hs) as Hsum.
    simpl in *. lia.
  - rewrite Nat2N.inj_succ, !runner_count_sum.
    pose proof (map_sum_alter (indicator (λ s, is_some (state_runner s))) _ _ (with_runner None) _ Hs) as Hsum.
    simpl in *. rewrite He in Hsum. simpl in Hsum. lia.
Qed.
End Evict.

(** *** The eviction loops *)

(** Eviction: it shrinks the cache and never needs more memory. *)
Record frees (w : World) (protect : option path) (c c' : ProjectCache) : Prop := {
  fr_shrinks : shrinks w protect c c';
  fr_total : total_bytes w c' ≤ total_bytes w c;
  fr_indexes : (index_count c' ≤ index_count c)%nat;
  fr_runners : (runner_count c' ≤ runner_count c)%nat;
}.

#[export] Instance frees_preorder w protect : PreOrder (frees w protect).
Proof.
  split; [split; [done|lia..]|]. intros a b c [] []. split; [by etrans|lia..].
Qed.

Lemma frees_weaken w protect c c' : frees w protect c c' → frees w None c c'.
Proof.
  intros [[? ? ? Hs _] ? ? ?]. split; [|done..]. split; [done..| |by intros].
  intros root s' Hs'. destruct (Hs _ _ Hs') as (s & ? & ? & ? & ? & Hi & Hr & ?). exists s. naive_solver.
Qed.

(** Nothing left to evict: no unprotected index, and no unprotected runner of an idle project. *)
Definition no_index (protect : option path) (c : ProjectCache) : Prop :=
  ∀ root s, states c !! root = Some s → unprotected protect root = true → state_index s = None.
Definition no_runner (w : World) (protect : option path) (c : ProjectCache) : Prop :=
  ∀ root s, states c !! root = Some s → unprotected protect root = true →
    state_runner s = None ∨ in_flight_live w s = true.

Section Loops.
Context (w : World).

Lemma frees_prune protect c : frees w protect c (prune w c).
Proof.
  split; [apply prune_shrinks|apply prune_total|by rewrite prune_index_count|by rewrite prune_runner_count].
Qed.

Lemma is_some_false {A} (o : option A) : is_some o = false → o = None.
Proof. by destruct o. Qed.

Lemma frees_release_index protect root c :
  unprotected protect root = true → frees w protect c (release_index w root c).
Proof.
  intros Hp. split; [by apply release_index_shrinks|apply release_index_total|..].
  - destruct (states c !! root) as [s|] eqn:Hs; [destruct (state_index s) as [e|] eqn:He|].
    + destruct (release_index_counts w root c s e Hs He). lia.
    + unfold release_index. rewrite Hs. simpl. by rewrite He.
    + unfold release_index. by rewrite Hs.
  - destruct (states c !! root) as [s|] eqn:Hs; [destruct (state_index s) as [e|] eqn:He|].
    + destruct (release_index_counts w root c s e Hs He). lia.
    + unfold release_index. rewrite Hs. simpl. by rewrite He.
    + unfold release_index. by rewrite Hs.
Qed.

Lemma frees_take_runner protect root c s e :
  unprotected protect root = true → states c !! root = Some s → state_runner s = Some e →
  frees w protect c (take_runner root c).
Proof.
  intros Hp Hs He. destruct (take_runner_counts root c s e Hs He).
  split; [by apply take_runner_shrinks|apply take_runner_total|lia|lia].
Qed.

Lemma shrinks_eviction protect c c' : shrinks w protect c c' → shrinks w protect c (count 0 0 0 0 1 0 c').
Proof. intros []. split; simpl; rewrite ?N.add_0_r; done. Qed.

Lemma evict_index_spec protect c :
  let '(evicted, c') := evict_least_recently_used_index w protect c in
  if evicted then frees w protect c c' ∧ (index_count c' < index_count c)%nat
  else c' = c ∧ no_index protect c.
Proof.
  unfold evict_least_recently_used_index, index_victim.
  pose proof (lru_victim (λ '(root, s), is_some (state_index s) && unprotected protect root) (states c)) as Hv.
  destruct (fst <$> _) as [v|].
  - destruct Hv as (s & Hs & Hp & _). apply andb_true_iff in Hp as [[e He]%is_some_true Hp].
    destruct (release_index_counts w v c s e Hs He) as [Hi Hr].
    destruct (frees_release_index protect v c Hp) as [? ? ? ?].
    split; [split; [by apply shrinks_eviction|done..]|].
    change (index_count (count 0 0 0 0 1 0 (release_index w v c))) with (index_count (release_index w v c)).
    lia.
  - split; [done|]. intros root s Hs Hp. specialize (Hv _ _ Hs). simpl in Hv.
    rewrite Hp, andb_true_r in Hv. by apply is_some_false.
Qed.

Lemma evict_runner_spec protect c :
  let '(evicted, c') := evict_least_recently_used_runner w protect c in
  if evicted then frees w protect c c' ∧ index_count c' = index_count c
                  ∧ (runner_count c' < runner_count c)%nat
  else c' = c ∧ no_runner w protect c.
Proof.
  unfold evict_least_recently_used_runner, runner_victim.
  pose proof (lru_victim (λ '(root, s), is_some (state_runner s) && negb (in_flight_live w s)
                                        && unprotected protect root) (states c)) as Hv.
  destruct (fst <$> _) as [v|].
  - destruct Hv as (s & Hs & Hp & _). apply andb_true_iff in Hp as [[[e He]%is_some_true Hl]%andb_true_iff Hp].
    destruct (take_runner_counts v c s e Hs He). split; [by eapply frees_take_runner|lia].
  - split; [done|]. intros root s Hs Hp. specialize (Hv _ _ Hs). simpl in Hv.
    rewrite Hp, andb_true_r, andb_false_iff in Hv. destruct Hv as [Hv|Hv].
    + left. by apply is_some_false.
    + right. by apply negb_false_iff.
Qed.

Lemma evict_one_spec pi pr c :
  pi = pr ∨ pi = None →
  let '(evicted, c') := evict_one w pi pr c in
  if evicted then frees w pi c c' ∧ (index_count c' + runner_count c' < index_count c + runner_count c)%nat
  else c' = c ∧ no_index pi c ∧ no_runner w pr c.
Proof.
  intros Hpi. unfold evict_one. pose proof (evict_index_spec pi c) as Hi.
  destruct (evict_least_recently_used_index w pi c) as [[] c1].
  - destruct Hi as [[? ? ? ?] ?]. split; [done|lia].
  - destruct Hi as [-> Hi]. pose proof (evict_runner_spec pr c) as Hr.
    destruct (evict_least_recently_used_runner w pr c) as [[] c2].
    + destruct Hr as (? & ? & ?). split; [|lia].
      destruct Hpi as [->| ->]; [done|by eapply frees_weaken].
    + by destruct Hr as [-> ?].
Qed.

Lemma retained_bytes_spec c (Q : N → Prop) :
  total_bytes w c ≤ u64_max → Q (total_bytes w c) → wp (retained_bytes w c) Q.
Proof.
  intros Hc HQ. unfold retained_bytes, checked_add. rewrite N.add_0_r. by rewrite decide_True.
Qed.

Lemma limit_indexes_spec protect c :
  wp (limit_indexes w protect c) (λ c',
    frees w protect c c' ∧ ((index_count c' ≤ max_indexes (limits c))%nat ∨ no_index protect c')).
Proof.
  apply (wp_loop (frees w protect c) index_count); [|done|lia].
  intros c1 Hc1. pose proof (sh_limits _ _ _ _ (fr_shrinks _ _ _ _ Hc1)) as Hl.
  destruct (Nat.ltb_spec (max_indexes (limits c1)) (index_count c1)) as [Hlt|Hle].
  - pose proof (evict_index_spec protect c1) as He.
    destruct (evict_least_recently_used_index w protect c1) as [[] c2].
    + destruct He as [He ?]. split; [by etrans|lia].
    + destruct He as [-> ?]. split; [done|by right].
  - split; [done|]. left. by rewrite <- Hl.
Qed.

Lemma limit_bytes_spec protect c :
  total_bytes w c ≤ u64_max →
  wp (limit_bytes w protect c) (λ c', frees w protect c c'
    ∧ (total_bytes w c' ≤ max_bytes (limits c) ∨ no_index protect c' ∧ no_runner w protect c')).
Proof.
  intros Hsum. apply (wp_loop (frees w protect c) (λ c, index_count c + runner_count c)%nat); [|done|lia].
  intros c1 Hc1. pose proof (sh_limits _ _ _ _ (fr_shrinks _ _ _ _ Hc1)) as Hl.
  pose proof (fr_total _ _ _ _ Hc1).
  apply wp_bind, retained_bytes_spec; [lia|].
  destruct (N.ltb_spec (max_bytes (limits c1)) (total_bytes w c1)) as [Hlt|Hle].
  - pose proof (evict_one_spec protect protect c1 (or_introl eq_refl)) as He.
    destruct (evict_one w protect protect c1) as [[] c2].
    + destruct He as [He ?]. split; [by etrans|lia].
    + destruct He as [-> ?]. split; [done|by right].
  - split; [done|]. left. by rewrite <- Hl.
Qed.

Lemma limit_runners_spec protect c :
  wp (limit_runners w protect c) (λ c', frees w protect c c' ∧ index_count c' = index_count c
    ∧ (no_runner w protect c → c' = c)
    ∧ ((runner_count c' ≤ max_runners (limits c))%nat ∨ no_runner w protect c')).
Proof.
  apply (wp_loop (λ c', frees w protect c c' ∧ index_count c' = index_count c
                        ∧ (no_runner w protect c → c' = c)) runner_count); [|done|lia].
  intros c1 (Hc1 & Hi & Hsame). pose proof (sh_limits _ _ _ _ (fr_shrinks _ _ _ _ Hc1)) as Hl.
  destruct (Nat.ltb_spec (max_runners (limits c1)) (runner_count c1)) as [Hlt|Hle].
  - pose proof (evict_runner_spec protect c1) as He. unfold evict_least_recently_used_runner in *.
    destruct (runner_victim w protect c1) as [v|] eqn:Hv.
    + destruct He as (He & ? & ?). split; [|lia]. split_and!; [by etrans|lia|]. intros Hno.
      exfalso. rewrite (Hsame Hno) in Hv. unfold runner_victim in Hv.
      pose proof (lru_victim (λ '(root, s), is_some (state_runner s) && negb (in_flight_live w s)
                                        && unprotected protect root) (states c)) as Hvic.
      rewrite Hv in Hvic. destruct Hvic as (s & Hs & Hp & _).
      apply andb_true_iff in Hp as [[Hr Hlive]%andb_true_iff Hp].
      destruct (Hno _ _ Hs Hp) as [Hnone|Hlive']; [by rewrite Hnone in Hr|by rewrite Hlive' in Hlive].
    + destruct He as [_ ?]. split_and!; [done..|by right].
  - split_and!; [done..|]. left. by rewrite <- Hl.
Qed.

(** *** [enforce] *)

Definition retain_used (c : ProjectCache) : ProjectCache :=
  set_states (filter (λ '(_, s), is_used w s) (states c)) c.

Lemma retain_used_states c root s :
  states (retain_used c) !! root = Some s ↔ states c !! root = Some s ∧ is_used w s = true.
Proof. simpl. rewrite map_lookup_filter_Some. by rewrite Is_true_true. Qed.

Lemma frees_retain_used protect c : frees w protect c (retain_used c).
Proof.
  assert (shrinks w protect c (retain_used c)) as Hsh.
  { split; [done..| |].
    - intros root s [? _]%retain_used_states. exists s. naive_solver.
    - intros root s Hs _ Hu. exists s. apply retain_used_states. split; [done|].
      unfold is_used. by rewrite Hu. }
  assert (∀ f, map_sum f (states (retain_used c)) ≤ map_sum f (states c)) as Hsum.
  { intros f. apply map_sum_le. intros k s [? _]%retain_used_states. exists s. split; [done|lia]. }
  split; [done| |..].
  - pose proof (shrinks_holds_less _ _ _ _ Hsh) as Hless. rewrite !total_bytes_parts.
    pose proof (Hsum (λ '(_, s), state_bytes w s)).
    pose proof (released_bytes_less w _ _ (released c) Hless).
    pose proof (runners_bytes_less w _ _ (released_runners c) Hless).
    unfold states_bytes. simpl in *. lia.
  - pose proof (Hsum (indicator (λ s, is_some (state_index s)))) as Hi.
    rewrite <- !index_count_sum in Hi. lia.
  - pose proof (Hsum (indicator (λ s, is_some (state_runner s)))) as Hi.
    rewrite <- !runner_count_sum in Hi. lia.
Qed.

Lemma no_index_shrinks protect c c' : shrinks w protect c c' → no_index protect c → no_index protect c'.
Proof.
  intros [_ _ _ Hs _] Hno root s' Hs' Hp. destruct (Hs _ _ Hs') as (s & Hss & _ & _ & _ & [->|[_ ->]] & _); [by eapply Hno|done].
Qed.

Lemma no_runner_retain protect c : no_runner w protect c → no_runner w protect (retain_used c).
Proof. intros Hno root s [? _]%retain_used_states. by apply Hno. Qed.

Lemma enforce_spec protect c :
  total_bytes w c ≤ u64_max →
  wp (enforce w protect c) (λ c', frees w protect c c'
    ∧ (∀ root s, states c' !! root = Some s → is_used w s = true)
    ∧ ((index_count c' ≤ max_indexes (limits c))%nat ∨ no_index protect c')
    ∧ (total_bytes w c' ≤ max_bytes (limits c) ∨ no_index protect c' ∧ no_runner w protect c')
    ∧ ((runner_count c' ≤ max_runners (limits c))%nat ∨ no_runner w protect c')).
Proof.
  intros Hsum. unfold enforce. cbv zeta. pose proof (frees_prune protect c) as H0.
  eapply wp_call; [apply limit_indexes_spec|]. intros c1 [H1 Hidx].
  eapply wp_call; [apply limit_bytes_spec|].
  { pose proof (fr_total _ _ _ _ H0). pose proof (fr_total _ _ _ _ H1). lia. }
  intros c2 [H2 Hbytes]. eapply wp_call; [apply limit_runners_spec|]. intros c3 (H3 & Hi3 & Hsame & Hrun).
  cbn [wp]. change (set_states _ c3) with (retain_used c3).
  pose proof (frees_retain_used protect c3) as H4.
  assert (limits c1 = limits c) as Hl1 by (by rewrite (sh_limits _ _ _ _ (fr_shrinks _ _ _ _ H1))).
  assert (limits c2 = limits c) as Hl2 by (by rewrite (sh_limits _ _ _ _ (fr_shrinks _ _ _ _ H2))).
  change (limits (prune w c)) with (limits c) in *. rewrite Hl1 in Hbytes. rewrite Hl2 in Hrun.
  pose proof (fr_indexes _ _ _ _ H2). pose proof (fr_indexes _ _ _ _ H4).
  pose proof (fr_total _ _ _ _ H3). pose proof (fr_total _ _ _ _ H4). pose proof (fr_runners _ _ _ _ H4).
  split; [by do 4 (etrans; [eassumption|])|]. split; [by intros root s [_ ?]%retain_used_states|].
  assert (shrinks w protect c1 (retain_used c3)) as Hsh.
  { do 2 (etrans; [eapply fr_shrinks; eassumption|]). by eapply fr_shrinks. }
  split_and!.
  - destruct Hidx; [left; lia|right; by eapply no_index_shrinks].
  - destruct Hbytes as [|[Hni Hnr]]; [left; lia|right]. rewrite (Hsame Hnr).
    split; [|by apply no_runner_retain].
    eapply no_index_shrinks; [|exact Hni]. eapply fr_shrinks, frees_retain_used.
  - destruct Hrun; [left; lia|right; by apply no_runner_retain].
Qed.
End Loops.

(** ** Lemmas: every operation *)

Section Operations.
Context (w : World).

Lemma evict_one_frees pi pr c :
  pi = pr ∨ pi = None → frees w pi c (evict_one w pi pr c).2.
Proof.
  intros Hpi. pose proof (evict_one_spec w pi pr c Hpi) as He.
  destruct (evict_one w pi pr c) as [[] c']; [by destruct He|by destruct He as [-> _]].
Qed.

Lemma enforce_frees protect c c' : enforce w protect c = Done c' → frees w protect c c'.
Proof.
  unfold enforce. cbv zeta. intros (c1 & H1 & (c2 & H2 & (c3 & H3 & Hc')%bind_Done)%bind_Done)%bind_Done.
  injection Hc' as <-. change (set_states _ c3) with (retain_used w c3).
  etrans; [apply frees_prune|]. etrans; [|apply frees_retain_used].
  pose proof (limit_indexes_spec w protect (prune w c)) as Hi. rewrite H1 in Hi. destruct Hi as [Hi _].
  pose proof (limit_runners_spec w protect c2) as Hr. rewrite H3 in Hr. destruct Hr as [Hr _].
  etrans; [exact Hi|]. etrans; [|exact Hr]. revert H2.
  apply (loop_Done (frees w protect c1)); [|done]. intros c4 t H4 (n & _ & Hb)%bind_Done.
  destruct (_ <? n); [|by simplify_eq].
  pose proof (evict_one_frees protect protect c4 (or_introl eq_refl)) as He.
  destruct (evict_one w protect protect c4) as [[] c5]; simplify_eq/=; by etrans.
Qed.

Lemma enforce_evolves protect c c' : enforce w protect c = Done c' → evolves c c'.
Proof. intros ?%enforce_frees. by eapply shrinks_evolves, fr_shrinks. Qed.

Lemma release_index_evolves root c : evolves c (release_index w root c).
Proof. by eapply (shrinks_evolves w None), release_index_shrinks. Qed.

Lemma take_runner_evolves root c : evolves c (take_runner root c).
Proof. by eapply (shrinks_evolves w None), take_runner_shrinks. Qed.

Lemma prune_evolves c : evolves c (prune w c).
Proof. by eapply (shrinks_evolves w None), prune_shrinks. Qed.

(** An invalidated project gets a fresh generation, and neither an index nor a build. *)
Lemma invalidate_states root c r s' :
  states (invalidate w root c) !! r = Some s' →
  if decide (r = root)
  then generation s' = next_generation c + 1 ∧ state_index s' = None ∧ in_flight s' = None
  else ∃ s, states c !! r = Some s ∧ generation s' = generation s.
Proof.
  unfold invalidate. cbn [fresh_generation].
  change (states (count 1 0 0 0 0 0 c)) with (states c).
  destruct (states c !! root) as [s|] eqn:Hs.
  2: { intros Hr. simpl in Hr. destruct (decide (r = root)) as [->|]; [congruence|by exists s']. }
  intros Hr. set (c1 := count 0 0 0 0 0 1 _) in Hr.
  assert (states c1 = alter (λ s, with_in_flight None (with_generation (next_generation c + 1) s)) root
            (states c)) as Hc1 by done.
  destruct (decide (r = root)) as [->|Hne].
  - assert (∀ s1, states c1 !! root = Some s1 → generation s1 = next_generation c + 1 ∧ in_flight s1 = None)
      as H1. { intros s1. rewrite Hc1, lookup_alter_eq, Hs. simpl. intros; by simplify_eq/=. }
    pose proof (release_index_shrinks w None root c1 eq_refl) as [_ _ _ Hsh _].
    destruct (Hsh _ _ Hr) as (s1 & Hs1 & Hg & _ & _ & _ & _ & Hf). destruct (H1 _ Hs1) as [Hg1 Hf1].
    split_and!; [congruence| |destruct Hf as [|[? _]]; congruence]. clear Hsh.
    unfold release_index in Hr. rewrite Hs1 in Hr. simpl in Hr.
    destruct (state_index s1) as [e|] eqn:Hi; simpl in Hr; [|congruence].
    rewrite <- Hc1, lookup_fmap, lookup_alter_eq, Hs1 in Hr. simpl in Hr.
    by destruct (in_flight_live _ _); simplify_eq/=.
  - pose proof (release_index_shrinks w None root c1 eq_refl) as [_ _ _ Hsh _].
    destruct (Hsh _ _ Hr) as (s1 & Hs1 & Hg & _). rewrite Hc1, lookup_alter_ne in Hs1 by done. by exists s1.
Qed.

Lemma invalidate_next root c : next_generation (invalidate w root c) = next_generation c + 1.
Proof.
  unfold invalidate. cbn [fresh_generation]. change (states (count 1 0 0 0 0 0 c)) with (states c).
  destruct (states c !! root); [|done].
  rewrite (sh_next _ _ _ _ (release_index_shrinks w None root _ eq_refl)). simpl. lia.
Qed.

Lemma invalidate_evolves root c : evolves c (invalidate w root c).
Proof.
  split.
  - unfold invalidate. cbn [fresh_generation]. change (states (count 1 0 0 0 0 0 c)) with (states c).
    destruct (states c !! root); [|done].
    by rewrite (sh_limits _ _ _ _ (release_index_shrinks w None root _ eq_refl)).
  - rewrite invalidate_next. lia.
  - intros r s' Hr%invalidate_states. destruct (decide (r = root)) as [->|].
    + left. lia.
    + right. destruct Hr as (s & ? & ?). by exists s.
Qed.

Lemma lookup_build_evolves root cl ow c r c' :
  lookup_build root cl ow c = Done (r, c') → evolves c c'.
Proof.
  unfold lookup_build. cbv zeta. intros (s & _ & Hb)%bind_Done.
  assert (evolves c (count 0 0 0 1 0 0 c)) as Hc by apply evolves_count.
  assert (∀ f, evolves c (update_state root (with_in_flight f) (count 0 0 0 1 0 0 c))) as Hu.
  { intros f. etrans; [exact Hc|]. by apply evolves_update. }
  destruct (in_flight s) as [f|]; [destruct (_ =? _)|]; simplify_eq; done.
Qed.

Lemma touch_evolves root now t c :
  evolves c (update_state root (used_at t)
    (or_insert_state root (new_state (next_generation c + 1) now) (count 1 0 0 0 0 0 (count 0 1 0 0 0 0 c)))).
Proof.
  etrans; [|by apply evolves_update].
  etrans; [apply (evolves_count 0 1 0 0 0 0)|].
  pose proof (evolves_insert root now (count 0 1 0 0 0 0 c)) as Hi.
  change (next_generation (count 0 1 0 0 0 0 c)) with (next_generation c + 0) in Hi.
  by rewrite N.add_0_r in Hi.
Qed.

Lemma get_runner_evolves root now c : evolves c (get_runner root now c).2.
Proof.
  unfold get_runner. simpl. etrans; [apply (evolves_count 0 1 0 0 0 0)|]. by apply evolves_update.
Qed.

Lemma set_runner_evolves replaced c :
  evolves c (match replaced : option RunnerEntry with
             | Some replaced => set_released_runners (released_runners c ++ [release_runner replaced]) c
             | None => c
             end).
Proof. destruct replaced; [apply evolves_released_runners|done]. Qed.

Lemma insert_tick_evolves root now c :
  evolves c (or_insert_state root (new_state (next_generation c + 1) now)
               (count 1 0 0 0 0 0 (count 0 1 0 0 0 0 c))).
Proof.
  etrans; [apply (evolves_count 0 1 0 0 0 0)|].
  pose proof (evolves_insert root now (count 0 1 0 0 0 0 c)) as Hi.
  change (next_generation (count 0 1 0 0 0 0 c)) with (next_generation c + 0) in Hi.
  by rewrite N.add_0_r in Hi.
Qed.

Lemma install_runner_evolves root r fp now c e c' :
  install_runner w root r fp now c = Done (e, c') → evolves c c'.
Proof.
  unfold install_runner. cbv zeta.
  assert (∀ b : bool, evolves c (if b then invalidate w root c else c)) as H0.
  { intros []; [apply invalidate_evolves|done]. }
  match goal with |- context [if ?b then invalidate w root c else c] =>
    specialize (H0 b); set (c0 := if b then invalidate w root c else c) in * end.
  clearbody c0. cbn [next_tick fresh_generation]. intros (c1 & H1 & [= <- <-])%bind_Done.
  etrans; [exact H0|]. etrans; [|by eapply enforce_evolves].
  etrans; [|apply set_runner_evolves].
  etrans; [|by apply evolves_update].
  replace (next_generation (count 0 1 0 0 0 0 c0)) with (next_generation c0) by (simpl; lia).
  apply insert_tick_evolves.
Qed.

Lemma lookup_index_evolves root fp cl ow now c r c' :
  lookup_index w root fp cl ow now c = Done (r, c') → evolves c c'.
Proof.
  unfold lookup_index. cbn [next_tick fresh_generation].
  replace (next_generation (count 0 1 0 0 0 0 c)) with (next_generation c) by (simpl; lia).
  intros (s & _ & Hrun)%bind_Done. pose proof (touch_evolves root now (tick c + 1) c) as Ht.
  destruct (state_index s) as [entry|]; [case_bool_decide; [by simplify_eq|]|];
    apply lookup_build_evolves in Hrun; (etrans; [exact Ht|]); [|done].
  etrans; [apply invalidate_evolves|done].
Qed.

Lemma make_room_frees root bytes c r c' : make_room w root bytes c = Done (r, c') → frees w None c c'.
Proof.
  apply (loop_Done (frees w None c) (λ '(_, c'), frees w None c c')); [|done].
  intros c1 t H1 (n & _ & (n' & _ & Hb)%bind_Done)%bind_Done.
  pose proof (evict_one_frees None (Some root) c1 (or_intror eq_refl)) as He.
  destruct (_ <? n'); [|by simplify_eq].
  destruct (evict_one w None (Some root) c1) as [[] c2].
  - simplify_eq/=. by etrans.
  - apply bind_Done in Hb as (? & _ & (? & _ & Hb)%bind_Done). simplify_eq/=. by etrans.
Qed.

Lemma reserve_evolves root g bytes r c x c' : reserve w root g bytes r c = Done (x, c') → evolves c c'.
Proof.
  unfold reserve. cbv zeta. pose proof (prune_evolves c) as H0.
  destruct (negb _); [by intros; simplify_eq|].
  intros ([room c1] & H1%make_room_frees & Hrun)%bind_Done.
  assert (evolves c c1) as Hc1 by (etrans; [exact H0|]; by eapply shrinks_evolves, fr_shrinks).
  destruct room; simplify_eq; [done|]. etrans; [exact Hc1|apply evolves_reservations].
Qed.

Lemma publish_dropped_evolves root g i build fp now c p c' :
  publish_dropped w root g i build fp now c = Done (p, c') → evolves c c'.
Proof.
  unfold publish_dropped. cbv zeta. pose proof (prune_evolves c) as H0.
  destruct (negb _); [by intros; simplify_eq|].
  intros (bytes & _ & Hrun)%bind_Done. destruct (_ <? bytes).
  { simplify_eq. etrans; [exact H0|]. etrans; [|apply evolves_released]. by apply evolves_update. }
  cbn [next_tick] in Hrun. apply bind_Done in Hrun as (c1 & H1%enforce_evolves & (n & _ & Hrun)%bind_Done).
  assert (evolves c c1) as Hc1.
  { etrans; [exact H0|]. etrans; [|exact H1]. etrans; [apply (evolves_count 0 1 0 0 0 0)|].
    by apply evolves_update. }
  destruct (_ <? n); simplify_eq; [|done]. etrans; [exact Hc1|apply release_index_evolves].
Qed.
End Operations.

Lemma run_op_evolves w o c c' : run_op w o c = Done c' → evolves c c'.
Proof.
  destruct o; cbn [run_op]; intros Hrun; try (injection Hrun as <-).
  - split; simpl; [done|lia|]. intros root s ?. right. by exists s.
  - apply get_runner_evolves.
  - apply fmap_Done in Hrun as ([e c1] & H1 & ->). by eapply install_runner_evolves.
  - etrans; [|by eapply enforce_evolves]. etrans; [apply invalidate_evolves|apply (take_runner_evolves w)].
  - unfold invalidate_after_maven. etrans; [apply invalidate_evolves|by apply evolves_update].
  - unfold require_full_rebuild. cbn [fresh_generation].
    etrans; [apply evolves_insert|]. by apply evolves_update.
  - apply evolves_update. intros s. by destruct (generation s =? g).
  - unfold invalidate_generation. destruct (is_current c root g); [apply invalidate_evolves|done].
  - apply fmap_Done in Hrun as ([r c1] & H1 & ->). by eapply lookup_index_evolves.
  - unfold record_hit_for. cbn [next_tick]. etrans; [|by apply evolves_update].
    etrans; apply evolves_count.
  - apply fmap_Done in Hrun as ([r c1] & H1 & ->). by eapply reserve_evolves.
  - apply fmap_Done in Hrun as ([r' c1] & H1 & ->). by eapply publish_dropped_evolves.
  - unfold finish_failed in Hrun. etrans; [|by eapply enforce_evolves].
    apply evolves_update. intros s. by destruct (generation s =? g).
Qed.

Lemma calls_evolves allowed c c' : calls allowed c c' → evolves c c'.
Proof.
  induction 1 as [|c w o c1 c2 _ Hrun _ IH]; [done|]. etrans; [by eapply run_op_evolves|done].
Qed.

(** A generation that was given out and is not the project's current one never is again. *)
Lemma dead_generation root g c c' :
  evolves c c' → g ≤ next_generation c → is_current c root g = false → is_current c' root g = false.
Proof.
  intros [_ _ Hgen] Hg Hdead. unfold is_current in *. destruct (states c' !! root) as [s'|] eqn:Hs'; [|done].
  apply N.eqb_neq. intros <-. destruct (Hgen _ _ Hs') as [?|(s & Hs & Heq)]; [lia|].
  rewrite Hs, Heq, N.eqb_refl in Hdead. done.
Qed.

(** A lookup answers with the generation the project then has. *)
Lemma lookup_index_generation w root fp cl ow now c cl' ow' g c' :
  lookup_index w root fp cl ow now c = Done (Build cl' ow' g, c') → is_current c' root g = true.
Proof.
  unfold lookup_index. cbn [next_tick fresh_generation]. set (c1 := update_state root _ _). clearbody c1.
  assert (∀ c2, lookup_build root cl ow c2 = Done (Build cl' ow' g, c') → is_current c' root g = true) as Hb.
  { intros c2. unfold lookup_build. cbv zeta. intros (s & Hs & Hb)%bind_Done.
    change (states (count 0 0 0 1 0 0 c2)) with (states c2) in Hs.
    destruct (states c2 !! root) as [s'|] eqn:Hs'; simplify_eq/=.
    assert (∀ c3 s3, states c3 !! root = Some s3 → generation s3 = generation s → is_current c3 root (generation s) = true) as Hcur.
    { intros c3 s3 H3 Heq. unfold is_current. by rewrite H3, Heq, N.eqb_refl. }
    destruct (in_flight s) as [f|]; [destruct (_ =? _)|]; simplify_eq;
      (eapply Hcur; [simpl; rewrite ?lookup_alter_eq, Hs'; done|done]). }
  intros (s & Hs & Hrun)%bind_Done. destruct (state_index s); [case_bool_decide|]; [done|by eapply Hb..].
Qed.

Lemma is_current_le c root g : cache_inv c → is_current c root g = true → g ≤ next_generation c.
Proof.
  intros Hinv. unfold is_current. destruct (states c !! root) as [s|] eqn:Hs; [|done].
  intros <-%N.eqb_eq. by eapply inv_generation.
Qed.

(** ** Lemmas: the invariant *)

Lemma inv_new l : cache_inv (new l).
Proof. split; simpl; intros *; by rewrite lookup_empty. Qed.

(** Only the states and the two counters matter. *)
Lemma inv_grow c c' :
  cache_inv c → states c' = states c → next_generation c ≤ next_generation c' → tick c ≤ tick c' →
  cache_inv c'.
Proof.
  intros [] Hs Hn Ht. split; rewrite ?Hs; [| |done|done].
  - intros root s ?%inv_generation0. lia.
  - intros root s ?%inv_tick0. lia.
Qed.

Lemma inv_count g t h m e i c : cache_inv c → cache_inv (count g t h m e i c).
Proof. intros. eapply inv_grow; [done|done|simpl; lia|simpl; lia]. Qed.

(** A change of one project that keeps its generation and its last use. *)
Lemma inv_update root f c :
  cache_inv c →
  (∀ s, states c !! root = Some s → generation (f s) ≤ next_generation c
        ∧ last_used_tick (f s) = last_used_tick s
        ∧ (is_some (state_runner (f s)) || is_some (state_index (f s)) = true → 0 < last_used_tick s)) →
  cache_inv (update_state root f c).
Proof.
  intros [] Hf.
  assert (∀ r s', states (update_state root f c) !! r = Some s' → ∃ s, states c !! r = Some s
            ∧ last_used_tick s' = last_used_tick s ∧ (r = root ∧ s' = f s ∨ s' = s)) as Hl.
  { intros r s'. simpl. rewrite lookup_alter_Some. intros [(<- & s & Hs & ->)|[? Hs]].
    - exists s. destruct (Hf _ Hs) as (_ & -> & _). split_and!; [done..|by left].
    - exists s'. split_and!; [done..|by right]. }
  split.
  - intros r s' Hr. destruct (Hl _ _ Hr) as (s & Hs & _ & [[-> ->]| ->]); [by apply Hf|by eapply inv_generation0].
  - intros r s' Hr. destruct (Hl _ _ Hr) as (s & Hs & -> & _). by eapply inv_tick0.
  - intros r s' Hr Hu. destruct (Hl _ _ Hr) as (s & Hs & -> & [[-> ->]| ->]).
    + destruct (Hf _ Hs) as (_ & _ & Hpos). by apply Hpos.
    + by eapply inv_used0.
  - intros r1 r2 s1 s2 H1 H2. destruct (Hl _ _ H1) as (t1 & ? & -> & _).
    destruct (Hl _ _ H2) as (t2 & ? & -> & _). by eapply inv_distinct0.
Qed.

(** A use of one project at a new tick. *)
Lemma inv_touch root f c t :
  cache_inv c → (∀ r s, states c !! r = Some s → last_used_tick s < t) → t ≤ tick c →
  (∀ s, generation (f s) = generation s ∧ last_used_tick (f s) = t) →
  cache_inv (update_state root f c).
Proof.
  intros [] Hold Ht Hf.
  assert (∀ r s', states (update_state root f c) !! r = Some s' →
            (r = root ∧ last_used_tick s' = t ∧ ∃ s, states c !! r = Some s ∧ generation s' = generation s)
            ∨ (r ≠ root ∧ states c !! r = Some s')) as Hl.
  { intros r s'. simpl. rewrite lookup_alter_Some. intros [(<- & s & Hs & ->)|[? Hs]]; [left|by right].
    destruct (Hf s). eauto. }
  split.
  - intros r s' Hr. destruct (Hl _ _ Hr) as [(_ & _ & s & Hs & ->)|[_ Hs]]; by eapply inv_generation0.
  - intros r s' Hr. destruct (Hl _ _ Hr) as [(_ & -> & _)|[_ Hs]]; [done|by eapply inv_tick0].
  - intros r s' Hr Hu. destruct (Hl _ _ Hr) as [(_ & -> & s & Hs & _)|[_ Hs]]; [|by eapply inv_used0].
    specialize (Hold _ _ Hs). lia.
  - intros r1 r2 s1 s2 H1 H2 Heq Hpos.
    destruct (Hl _ _ H1) as [(-> & E1 & _)|[_ Hs1]], (Hl _ _ H2) as [(-> & E2 & _)|[_ Hs2]]; [done|..].
    + specialize (Hold _ _ Hs2). lia.
    + specialize (Hold _ _ Hs1). lia.
    + by eapply inv_distinct0.
Qed.

Lemma inv_insert root g now c :
  cache_inv c → g ≤ next_generation c → cache_inv (or_insert_state root (new_state g now) c).
Proof.
  intros Hinv Hg. unfold or_insert_state. destruct (states c !! root) as [s|] eqn:Hr; [done|]. destruct Hinv.
  split; simpl.
  - intros r s. rewrite lookup_insert_Some. intros [[_ <-]|[_ ?]]; [done|by eapply inv_generation0].
  - intros r s. rewrite lookup_insert_Some. intros [[_ <-]|[_ ?]]; [simpl; lia|by eapply inv_tick0].
  - intros r s. rewrite lookup_insert_Some. intros [[_ <-]|[_ ?]]; [done|by eapply inv_used0].
  - intros r1 r2 s1 s2. rewrite !lookup_insert_Some.
    intros [[<- <-]|[_ H1]] [[<- <-]|[_ H2]]; simpl; [done|lia|lia|by eapply inv_distinct0].
Qed.

Lemma or_insert_tick root s c : tick (or_insert_state root s c) = tick c.
Proof. unfold or_insert_state. by destruct (states c !! root). Qed.

Lemma ticks_old c c' root g now :
  cache_inv c → states c' = states c → tick c' = tick c + 1 →
  ∀ r s, states (or_insert_state root (new_state g now) c') !! r = Some s → last_used_tick s < tick c + 1.
Proof.
  intros [] Hs Ht r s. unfold or_insert_state. rewrite Hs.
  destruct (states c !! root) as [x|] eqn:Hr.
  - rewrite Hs. intros ?%inv_tick0. lia.
  - simpl. rewrite ?Hs, lookup_insert_Some. intros [[_ <-]|[_ ?%inv_tick0]]; simpl; lia.
Qed.

Section Invariant.
Context (w : World).

Lemma inv_frees protect c c' : frees w protect c c' → cache_inv c → cache_inv c'.
Proof. intros [? _ _ _]. by eapply shrinks_inv. Qed.

Lemma inv_release_index root c : cache_inv c → cache_inv (release_index w root c).
Proof. eapply shrinks_inv. by eapply (release_index_shrinks w None). Qed.

Lemma inv_take_runner root c : cache_inv c → cache_inv (take_runner root c).
Proof. eapply shrinks_inv. by eapply (take_runner_shrinks w None). Qed.

Lemma inv_prune c : cache_inv c → cache_inv (prune w c).
Proof. eapply shrinks_inv. by eapply (prune_shrinks w None). Qed.

Lemma inv_invalidate root c : cache_inv c → cache_inv (invalidate w root c).
Proof.
  intros Hinv. unfold invalidate. cbn [fresh_generation].
  destruct (states (count 1 0 0 0 0 0 c) !! root) as [s|] eqn:Hs; [|by apply inv_count].
  apply inv_release_index, inv_count, inv_update; [by apply inv_count|].
  intros s' Hs'. simpl. split_and!; [lia|done|]. intros Hu. by eapply (inv_used _ Hinv).
Qed.

Lemma inv_install_runner root r fp now c e c' :
  cache_inv c → install_runner w root r fp now c = Done (e, c') → cache_inv c'.
Proof.
  intros Hinv. unfold install_runner. cbv zeta.
  assert (∀ b : bool, cache_inv (if b then invalidate w root c else c)) as H0.
  { intros []; [by apply inv_invalidate|done]. }
  match goal with |- context [if ?b then invalidate w root c else c] =>
    specialize (H0 b); set (c0 := if b then invalidate w root c else c) in * end.
  clearbody c0. cbn [next_tick fresh_generation]. intros (c1 & H1%enforce_frees & [= <- <-])%bind_Done.
  eapply inv_frees; [exact H1|].
  set (c2 := update_state _ _ _).
  assert (cache_inv c2) as H2.
  { apply inv_touch with (tick c0 + 1);
      [|by eapply (ticks_old c0); [done|done|simpl; lia]| |done].
    - apply inv_insert; [by do 2 apply inv_count|simpl; lia].
    - rewrite or_insert_tick. simpl. lia. }
  clearbody c2. destruct (states _ !! root ≫= state_runner); [|done].
  by eapply inv_grow.
Qed.

Lemma inv_lookup_build root cl ow c r c' :
  cache_inv c → lookup_build root cl ow c = Done (r, c') → cache_inv c'.
Proof.
  intros Hinv. unfold lookup_build. cbv zeta. intros (s & _ & Hb)%bind_Done.
  assert (cache_inv (count 0 0 0 1 0 0 c)) as Hc by by apply inv_count.
  assert (∀ f, cache_inv (update_state root (with_in_flight f) (count 0 0 0 1 0 0 c))) as Hu.
  { intros f. apply inv_update; [done|]. intros s' Hs'. simpl.
    split_and!; [|done|by eapply (inv_used _ Hc)]. by eapply (inv_generation _ Hc). }
  destruct (in_flight s) as [f|]; [destruct (_ =? _)|]; simplify_eq; done.
Qed.

Lemma inv_lookup_index root fp cl ow now c r c' :
  cache_inv c → lookup_index w root fp cl ow now c = Done (r, c') → cache_inv c'.
Proof.
  intros Hinv. unfold lookup_index. cbn [next_tick fresh_generation].
  set (c1 := update_state root _ _).
  assert (cache_inv c1) as H1.
  { apply inv_touch with (tick c + 1);
      [|by eapply (ticks_old c); [done|done|simpl; lia]| |done].
    - apply inv_insert; [by do 2 apply inv_count|simpl; lia].
    - rewrite or_insert_tick. simpl. lia. }
  clearbody c1. intros (s & _ & Hrun)%bind_Done.
  destruct (state_index s) as [entry|]; [case_bool_decide; [by simplify_eq|]|];
    eapply inv_lookup_build; try exact Hrun; [by apply inv_invalidate|done].
Qed.

Lemma inv_reserve root g bytes r c x c' :
  cache_inv c → reserve w root g bytes r c = Done (x, c') → cache_inv c'.
Proof.
  intros Hinv%inv_prune. unfold reserve. cbv zeta. destruct (negb _); [by intros; simplify_eq|].
  intros ([room c1] & H1%make_room_frees & Hrun)%bind_Done.
  assert (cache_inv c1) as Hc1 by by eapply inv_frees.
  destruct room; simplify_eq; [done|]. by eapply inv_grow.
Qed.

Lemma inv_publish root g i build fp now c p c' :
  cache_inv c → publish_dropped w root g i build fp now c = Done (p, c') → cache_inv c'.
Proof.
  intros Hinv%inv_prune. unfold publish_dropped. cbv zeta. destruct (negb _); [by intros; simplify_eq|].
  intros (bytes & _ & Hrun)%bind_Done. destruct (_ <? bytes).
  { simplify_eq. eapply (inv_grow (update_state root (with_in_flight None) (prune w c)));
      [|done|simpl; lia|simpl; lia].
    apply inv_update; [done|]. intros s Hs. simpl. split_and!; [|done|by eapply (inv_used _ Hinv)].
    by eapply (inv_generation _ Hinv). }
  cbn [next_tick] in Hrun. apply bind_Done in Hrun as (c1 & H1%enforce_frees & (n & _ & Hrun)%bind_Done).
  assert (cache_inv c1) as Hc1.
  { eapply inv_frees; [exact H1|]. apply inv_touch with (tick (prune w c) + 1); [by apply inv_count| |simpl; lia|done].
    intros r s Hs. pose proof (inv_tick _ Hinv r s Hs). lia. }
  destruct (_ <? n); simplify_eq; [by apply inv_release_index|done].
Qed.
End Invariant.

Lemma inv_use root now t c :
  cache_inv c → t = tick c + 1 →
  cache_inv (update_state root (λ s, used_on now (used_at t s)) (count 0 1 0 0 0 0 c)).
Proof.
  intros Hinv ->. apply inv_touch with (tick c + 1); [by apply inv_count| |simpl; lia|done].
  intros r s Hs. pose proof (inv_tick _ Hinv r s Hs). lia.
Qed.

Lemma inv_keep root f c :
  cache_inv c →
  (∀ s, generation (f s) = generation s ∧ last_used_tick (f s) = last_used_tick s
        ∧ is_some (state_runner (f s)) = is_some (state_runner s)
        ∧ is_some (state_index (f s)) = is_some (state_index s)) →
  cache_inv (update_state root f c).
Proof.
  intros Hinv Hf. apply inv_update; [done|]. intros s Hs. destruct (Hf s) as (-> & -> & -> & ->).
  split_and!; [by eapply inv_generation|done|by eapply inv_used].
Qed.

Lemma run_op_inv w o c c' : cache_inv c → run_op w o c = Done c' → cache_inv c'.
Proof.
  intros Hinv. destruct o; cbn [run_op]; intros Hrun; try (injection Hrun as <-).
  - by eapply inv_grow.
  - by apply inv_use.
  - apply fmap_Done in Hrun as ([e c1] & H1 & ->). by eapply inv_install_runner.
  - apply enforce_frees in Hrun. eapply inv_frees; [done|]. by apply inv_take_runner, inv_invalidate.
  - apply inv_keep; [by apply inv_invalidate|]. intros s. simpl. by destruct (state_runner s).
  - unfold require_full_rebuild. cbn [fresh_generation]. apply inv_keep; [|done].
    apply inv_insert; [by apply inv_count|simpl; lia].
  - apply inv_keep; [done|]. intros s. by destruct (generation s =? g).
  - unfold invalidate_generation. destruct (is_current c root g); [by apply inv_invalidate|done].
  - apply fmap_Done in Hrun as ([r c1] & H1 & ->). by eapply inv_lookup_index.
  - unfold record_hit_for. cbn [next_tick]. apply inv_use; [by apply inv_count|simpl; lia].
  - apply fmap_Done in Hrun as ([r c1] & H1 & ->). by eapply inv_reserve.
  - apply fmap_Done in Hrun as ([r' c1] & H1 & ->). by eapply inv_publish.
  - apply enforce_frees in Hrun. eapply inv_frees; [done|].
    apply inv_keep; [done|]. intros s. by destruct (generation s =? g).
Qed.

Lemma calls_inv allowed c c' : calls allowed c c' → cache_inv c → cache_inv c'.
Proof. induction 1; intros; [done|]. eauto using run_op_inv. Qed.

(** ** Lemmas: the build of one generation *)

(** While the project is in generation [g], its build marker is [f]. *)
Definition marker (root : path) (g : N) (f : InFlight) (c : ProjectCache) : Prop :=
  g ≤ next_generation c ∧ in_flight_generation f = g
  ∧ ∀ s, states c !! root = Some s → generation s = g → in_flight s = Some f.

(** The calls that leave a running build alone: the build is really running, and it is neither
    published nor failed. *)
Definition build_runs (root : path) (g : N) (f : InFlight) (w : World) (o : op) : Prop :=
  is_live w f = true ∧
  match o with
  | OpPublish root' g' _ _ _ _ _ | OpFinishFailed root' g' => root' ≠ root ∨ g' ≠ g
  | _ => True
  end.

Section Marker.
Context (root : path) (g : N) (f : InFlight).
Notation marker := (marker root g f).

Lemma marker_grow c c' :
  marker c → states c' = states c → next_generation c ≤ next_generation c' → marker c'.
Proof. intros (? & ? & Hm) Hs ?. split_and!; [lia|done|]. by rewrite Hs. Qed.

Lemma marker_shrinks w protect c c' :
  shrinks w protect c c' → is_live w f = true → marker c → marker c'.
Proof.
  intros [? Hn _ Hs _] Hl (? & ? & Hm). split_and!; [lia|done|]. intros s' Hs' Hg.
  destruct (Hs _ _ Hs') as (s & Hss & Hgs & _ & _ & _ & _ & Hf).
  assert (in_flight s = Some f) as Hfs by (apply Hm; congruence).
  destruct Hf as [->|[_ Hf]]; [done|]. unfold in_flight_live in Hf. rewrite Hfs in Hf. congruence.
Qed.

Lemma marker_update root' h c :
  marker c →
  (∀ s, root' = root → states c !! root = Some s → in_flight s = Some f ∨ generation s ≠ g →
    generation (h s) = g → in_flight (h s) = Some f) →
  marker (update_state root' h c).
Proof.
  intros (? & ? & Hm) Hh. split_and!; [done..|]. intros s'. simpl. rewrite lookup_alter_Some.
  intros [(-> & s & Hs & ->)|[? Hs]]; [|by apply Hm]. apply Hh; [done|done|].
  destruct (decide (generation s = g)); [left; by apply Hm|by right].
Qed.

(** A change that touches neither the generation nor the marker. *)
Lemma marker_keep root' h c :
  marker c → (∀ s, generation (h s) = generation s ∧ in_flight (h s) = in_flight s) →
  marker (update_state root' h c).
Proof.
  intros Hm Hh. apply marker_update; [done|]. intros s _ Hs Hor. destruct (Hh s) as [-> ->]. naive_solver.
Qed.

Lemma marker_insert root' g' now c :
  marker c → g < g' → marker (or_insert_state root' (new_state g' now) c).
Proof.
  intros (? & ? & Hm) Hg. unfold or_insert_state. destruct (states c !! root'); [done|].
  split_and!; [done..|]. intros s. simpl. rewrite lookup_insert_Some.
  intros [[-> <-]|[_ ?]]; [simpl; lia|by apply Hm].
Qed.

Context (w : World) (Hlive : is_live w f = true).

Lemma marker_frees protect c c' : frees w protect c c' → marker c → marker c'.
Proof. intros [? _ _ _]. by eapply marker_shrinks. Qed.

Lemma marker_release_index root' c : marker c → marker (release_index w root' c).
Proof. eapply marker_shrinks; [by eapply (release_index_shrinks w None)|done]. Qed.

Lemma marker_take_runner root' c : marker c → marker (take_runner root' c).
Proof. eapply marker_shrinks; [by eapply (take_runner_shrinks w None)|done]. Qed.

Lemma marker_prune c : marker c → marker (prune w c).
Proof. eapply marker_shrinks; [by eapply (prune_shrinks w None)|done]. Qed.

Lemma marker_invalidate root' c : marker c → marker (invalidate w root' c).
Proof.
  intros Hm. unfold invalidate. cbn [fresh_generation].
  assert (marker (count 1 0 0 0 0 0 c)) as H1 by (eapply marker_grow; [done|done|simpl; lia]).
  destruct (states (count 1 0 0 0 0 0 c) !! root') as [s|]; [|done].
  apply marker_release_index.
  eapply (marker_grow (update_state root' _ (count 1 0 0 0 0 0 c))); [|done|simpl; lia].
  apply marker_update; [done|]. intros s' _ _ _. simpl. destruct Hm. lia.
Qed.

Lemma marker_insert_tick root' now c :
  marker c →
  marker (or_insert_state root' (new_state (next_generation (count 0 1 0 0 0 0 c) + 1) now)
            (count 1 0 0 0 0 0 (count 0 1 0 0 0 0 c))).
Proof.
  intros Hm. apply marker_insert; [|destruct Hm; simpl; lia].
  eapply marker_grow; [done|done|simpl; lia].
Qed.

Lemma marker_install root' r fp now c e c' :
  marker c → install_runner w root' r fp now c = Done (e, c') → marker c'.
Proof.
  intros Hm. unfold install_runner. cbv zeta.
  assert (∀ b : bool, marker (if b then invalidate w root' c else c)) as H0.
  { intros []; [by apply marker_invalidate|done]. }
  match goal with |- context [if ?b then invalidate w root' c else c] =>
    specialize (H0 b); set (c0 := if b then invalidate w root' c else c) in * end.
  clearbody c0. cbn [next_tick fresh_generation]. intros (c1 & H1%enforce_frees & [= <- <-])%bind_Done.
  eapply marker_frees; [exact H1|]. set (c2 := update_state _ _ _).
  assert (marker c2) as H2 by (apply marker_keep; [by apply marker_insert_tick|done]).
  clearbody c2. destruct (states _ !! root' ≫= state_runner); [|done]. by eapply marker_grow.
Qed.

Lemma marker_lookup_build root' cl ow c r c' :
  marker c → lookup_build root' cl ow c = Done (r, c') →
  marker c' ∧ (∀ cl' ow', root' = root → r = Build cl' ow' g → cl' = cell f ∧ ow' = owner f).
Proof.
  intros Hm. unfold lookup_build. cbv zeta. intros (s & Hs & Hb)%bind_Done.
  change (states (count 0 0 0 1 0 0 c)) with (states c) in Hs.
  assert (marker (count 0 0 0 1 0 0 c)) as Hc by (eapply marker_grow; [done|done|simpl; lia]).
  destruct (states c !! root') as [s'|] eqn:Hs'; simplify_eq/=.
  assert (∀ f', (root' = root → generation s ≠ g) →
    marker (update_state root' (with_in_flight (Some f')) (count 0 0 0 1 0 0 c))) as Hu.
  { intros f' Hne. apply marker_update; [done|]. intros s1 -> Hs1 _ Hg. simpl in Hs1, Hg.
    simplify_eq. by destruct (Hne eq_refl). }
  destruct Hm as (_ & Hfg & Hm).
  assert (root' = root → generation s = g → in_flight s = Some f) as Hin.
  { intros -> Hg. by apply Hm. }
  destruct (in_flight s) as [f0|] eqn:Hf0.
  - destruct (N.eqb_spec (in_flight_generation f0) (generation s)) as [Heq|Hne]; simplify_eq.
    + split; [done|]. intros cl' ow' -> [= <- <- Hg]. specialize (Hin eq_refl Hg). by simplify_eq.
    + assert (root' = root → generation s ≠ in_flight_generation f) as Hng.
      { intros -> Hg. specialize (Hin eq_refl Hg). by simplify_eq. }
      split; [by apply Hu|]. intros cl' ow' -> [= <- <- Hg]. by destruct (Hng eq_refl).
  - simplify_eq. assert (root' = root → generation s ≠ in_flight_generation f) as Hng.
    { intros -> Hg. by specialize (Hin eq_refl Hg). }
    split; [by apply Hu|]. intros cl' ow' -> [= <- <- Hg]. by destruct (Hng eq_refl).
Qed.

Lemma marker_lookup root' fp cl ow now c r c' :
  marker c → lookup_index w root' fp cl ow now c = Done (r, c') →
  marker c' ∧ (∀ cl' ow', root' = root → r = Build cl' ow' g → cl' = cell f ∧ ow' = owner f).
Proof.
  intros Hm. unfold lookup_index. cbn [next_tick fresh_generation]. set (c1 := update_state root' _ _).
  assert (marker c1) as H1 by (apply marker_keep; [by apply marker_insert_tick|done]).
  clearbody c1. intros (s & _ & Hrun)%bind_Done.
  destruct (state_index s) as [entry|]; [case_bool_decide; [by simplify_eq|]|];
    eapply marker_lookup_build; try exact Hrun; [by apply marker_invalidate|done].
Qed.

Lemma marker_publish root' g' i build fp now c p c' :
  root' ≠ root ∨ g' ≠ g → marker c →
  publish_dropped w root' g' i build fp now c = Done (p, c') → marker c'.
Proof.
  intros Hne Hm%marker_prune. unfold publish_dropped. cbv zeta.
  destruct (negb _) eqn:Ecur; [by intros; simplify_eq|]. apply negb_false_iff in Ecur.
  assert (∀ s, root' = root → states (prune w c) !! root = Some s → generation s ≠ g) as Hng.
  { intros s -> Hs. unfold is_current in Ecur. rewrite Hs in Ecur. apply N.eqb_eq in Ecur. naive_solver. }
  intros (bytes & _ & Hrun)%bind_Done. destruct (_ <? bytes).
  { simplify_eq. eapply (marker_grow (update_state root' (with_in_flight None) (prune w c)));
      [|done|simpl; lia].
    apply marker_update; [done|]. intros s Heq Hs _ Hg. by destruct (Hng s Heq Hs). }
  cbn [next_tick] in Hrun. apply bind_Done in Hrun as (c1 & H1%enforce_frees & (n & _ & Hrun)%bind_Done).
  assert (marker c1) as Hc1.
  { eapply marker_frees; [exact H1|]. apply marker_update.
    - eapply marker_grow; [done|done|simpl; lia].
    - intros s Heq Hs _ Hg. by destruct (Hng s Heq Hs). }
  destruct (_ <? n); simplify_eq; [by apply marker_release_index|done].
Qed.

End Marker.

Lemma marker_op root g f w o c c' :
  build_runs root g f w o → marker root g f c → run_op w o c = Done c' → marker root g f c'.
Proof.
  intros [Hlive Hallow] Hm. destruct o; cbn [run_op]; intros Hrun; try (injection Hrun as <-).
  - by eapply marker_grow.
  - apply marker_keep; [|done]. eapply marker_grow; [done|done|simpl; lia].
  - apply fmap_Done in Hrun as ([e c1] & H1 & ->). by eapply marker_install.
  - apply enforce_frees in Hrun. eapply marker_frees; [exact Hlive|exact Hrun|].
    by apply (marker_take_runner _ _ _ w Hlive), marker_invalidate.
  - apply marker_keep; [by apply marker_invalidate|done].
  - unfold require_full_rebuild. cbn [fresh_generation]. apply marker_keep; [|done].
    apply marker_insert; [|destruct Hm; simpl; lia]. eapply marker_grow; [done|done|simpl; lia].
  - apply marker_keep; [done|]. intros s. by destruct (generation s =? g0).
  - unfold invalidate_generation. destruct (is_current c root0 g0); [by apply marker_invalidate|done].
  - apply fmap_Done in Hrun as ([r c1] & H1 & ->). eapply marker_lookup; [exact Hlive|exact Hm|exact H1].
  - unfold record_hit_for. cbn [next_tick]. apply marker_keep; [|done].
    eapply marker_grow; [done|done|simpl; lia].
  - apply fmap_Done in Hrun as ([r c1] & Hres & ->). revert Hres. unfold reserve. cbv zeta.
    pose proof (marker_prune _ _ _ _ Hlive _ Hm) as Hp. destruct (negb _); [by intros; simplify_eq|].
    intros ([room c2] & H2%make_room_frees & Hb)%bind_Done.
    assert (marker root g f c2) by by (eapply marker_frees; done). destruct room; simplify_eq; [done|]. by eapply marker_grow.
  - apply fmap_Done in Hrun as ([p c1] & H1 & ->). unfold publish in H1.
    eapply (marker_publish root g f (drop_reservation r w)); [exact Hlive|exact Hallow|exact Hm|exact H1].
  - apply enforce_frees in Hrun. eapply marker_frees; [exact Hlive|exact Hrun|].
    apply marker_update; [done|]. intros s -> Hs Hor Hg.
    destruct (N.eqb_spec (generation s) g0); [|naive_solver]. simpl in Hg. naive_solver.
Qed.

(** ** Lemmas: publishing and reserving *)

Lemma drop_reservation_total r w c : total_bytes (drop_reservation r w) c ≤ total_bytes w c.
Proof.
  rewrite !total_bytes_parts.
  assert (reserved_bytes (drop_reservation r w) (reservations c) ≤ reserved_bytes w (reservations c)).
  { apply sum_filter_le. intros [x b]. unfold reservation_alive. simpl. rewrite !Is_true_true, !N.ltb_lt.
    destruct (x =? r); lia. }
  change (states_bytes (drop_reservation r w) c) with (states_bytes w c).
  change (released_bytes (drop_reservation r w) c (released c)) with (released_bytes w c (released c)).
  change (runners_bytes (drop_reservation r w) c (released_runners c))
    with (runners_bytes w c (released_runners c)). lia.
Qed.

(** The cache after a build was stored, before eviction. *)
Definition stored (root : path) (e : CachedIndex) (t now : N) (c : ProjectCache) : ProjectCache :=
  update_state root (λ s, used_on now (used_at t (with_index (Some e) (with_in_flight None s))))
    (count 0 1 0 0 0 0 c).

Lemma stored_total w root e t now c s :
  states c !! root = Some s → 0 < index_refs w (index e) →
  total_bytes w (stored root e t now c) ≤ total_bytes w c + index_bytes e.
Proof.
  intros Hs Hrefs. rewrite !total_bytes_parts. set (c' := stored _ _ _ _ _).
  assert (states c' = alter (λ s, used_on now (used_at t (with_index (Some e) (with_in_flight None s)))) root
                        (states c)) as Hstates by done.
  assert (states_bytes w c' ≤ states_bytes w c + index_bytes e).
  { unfold states_bytes. rewrite Hstates.
    pose proof (map_sum_alter (λ '(_, s), state_bytes w s) _ _
      (λ s, used_on now (used_at t (with_index (Some e) (with_in_flight None s)))) _ Hs) as Hsum.
    simpl in Hsum. unfold state_bytes in Hsum at 2 4. simpl in Hsum. lia. }
  assert (released_bytes w c' (released c') ≤ released_bytes w c (released c)).
  { apply sum_filter_le. intros [i b]. rewrite !Is_true_true. unfold index_alive.
    rewrite !orb_true_iff, !existsb_exists, N.ltb_lt. intros [?|([r s'] & Hin & Hi)]; [by left|].
    apply list_elem_of_In, elem_of_map_to_list in Hin. rewrite Hstates, lookup_alter_Some in Hin.
    destruct Hin as [(-> & s1 & Hs1 & ->)|[Hne Hr]].
    - left. simpl in Hi. by apply N.eqb_eq in Hi as <-.
    - right. exists (r, s'). split; [|done]. by apply list_elem_of_In, elem_of_map_to_list. }
  assert (runners_bytes w c' (released_runners c') ≤ runners_bytes w c (released_runners c)).
  { apply sum_fmap_le. intros x. unfold released_runner_bytes.
    destruct (runner_alive w c' (released_runner x)) eqn:E; [|lia].
    assert (runner_alive w c (released_runner x) = true) as ->; [|done].
    unfold runner_alive in *. rewrite orb_true_iff, existsb_exists in *.
    destruct E as [?|([r s'] & Hin & Hi)]; [by left|right].
    apply list_elem_of_In, elem_of_map_to_list in Hin. rewrite Hstates, lookup_alter_Some in Hin.
    destruct Hin as [(-> & s1 & Hs1 & ->)|[Hne Hr]].
    - exists (r, s1). split; [|done]. by apply list_elem_of_In, elem_of_map_to_list.
    - exists (r, s'). split; [|done]. by apply list_elem_of_In, elem_of_map_to_list. }
  change (reservations c') with (reservations c). lia.
Qed.

(** What eviction leaves of the protected project. *)
Lemma shrinks_protected w root c c' s :
  shrinks w (Some root) c c' → states c !! root = Some s →
  is_some (state_runner s) || is_some (state_index s) = true →
  ∃ s', states c' !! root = Some s' ∧ state_index s' = state_index s ∧ state_runner s' = state_runner s
        ∧ generation s' = generation s.
Proof.
  intros [_ _ _ Hs Hk] Hroot Hu.
  assert (unprotected (Some root) root = false) as Hp by (simpl; by rewrite bool_decide_true).
  destruct (Hk root s Hroot Hp Hu) as [s' Hs']. destruct (Hs _ _ Hs') as (s1 & ? & ? & _ & _ & Hi & Hr & _).
  simplify_eq. exists s'. split_and!; [done| | |done].
  - destruct Hi as [|[? _]]; congruence.
  - destruct Hr as [|[? _]]; congruence.
Qed.

Section Spec.
Context (w : World).

Lemma prune_is_current root g c : is_current (prune w c) root g = is_current c root g.
Proof.
  unfold is_current. rewrite prune_states, lookup_fmap. destruct (states c !! root) as [s|]; [|done].
  simpl. by destruct (in_flight_live w s).
Qed.

Lemma no_runner_shrinks protect protect' c c' :
  shrinks w protect' c c' → no_runner w protect c → no_runner w protect c'.
Proof.
  intros [_ _ _ Hs _] Hno root s' Hs' Hp.
  destruct (Hs _ _ Hs') as (s & Hss & _ & _ & _ & _ & Hr & Hf).
  destruct (Hno _ _ Hss Hp) as [Hn|Hl].
  - left. destruct Hr as [->|[_ ->]]; done.
  - right. unfold in_flight_live in *. destruct Hf as [->|[_ Hf]]; [done|congruence].
Qed.

(** Without the protected project's own index there is none at all. *)
Lemma release_last_index root c :
  no_index (Some root) c → no_index None (release_index w root c).
Proof.
  intros Hno r s' Hr _.
  destruct (sh_states _ _ _ _ (release_index_shrinks w None root c eq_refl) _ _ Hr)
    as (s & Hs & _ & _ & _ & Hi & _).
  destruct (decide (root = r)) as [->|Hne].
  - revert Hr. unfold release_index. rewrite Hs. simpl. destruct (state_index s) as [e|] eqn:He; simpl.
    + rewrite lookup_fmap, lookup_alter_eq, Hs. simpl. by destruct (in_flight_live _ _); intros; simplify_eq/=.
    + intros. congruence.
  - assert (state_index s = None) as Hnone.
    { apply (Hno r s Hs). simpl. by rewrite bool_decide_false. }
    destruct Hi as [->|[_ ->]]; done.
Qed.

Lemma publish_dropped_spec root g i build fp now c :
  let bytes := index_estimated_bytes w i + estimated_bytes (build_artifacts build) in
  total_bytes w c + bytes ≤ u64_max → 0 < index_refs w i →
  wp (publish_dropped w root g i build fp now c) (λ '(p, c'),
    match p with
    | Stale => is_current c root g = false ∧ c' = prune w c
    | Retained =>
        is_current c root g = true ∧ total_bytes w c' ≤ max_bytes (limits c)
        ∧ ∃ s e, states c' !! root = Some s ∧ state_index s = Some e ∧ index e = i ∧ project e = fp
    | Uncached =>
        is_current c root g = true
        ∧ (max_bytes (limits c) < bytes ∨ no_index None c' ∧ no_runner w (Some root) c')
    end).
Proof.
  intros bytes Hsum Hrefs. unfold publish_dropped. cbv zeta.
  pose proof (prune_is_current root g c) as Hcur. pose proof (prune_total w c) as Htot.
  destruct (is_current (prune w c) root g); cbn [negb]; [|by split].
  apply wp_bind. unfold checked_add. rewrite decide_True by (unfold bytes, u64_max, usize_max in *; lia).
  cbn [or_panic wp]. fold bytes. change (limits (prune w c)) with (limits c).
  destruct (N.ltb_spec (max_bytes (limits c)) bytes) as [Hbig|Hfit]; [cbn [wp]; auto|].
  cbn [next_tick]. change (update_state root _ (count 0 1 0 0 0 0 (prune w c)))
    with (stored root {| index := i; project := fp; artifacts := build_artifacts build;
            index_bytes := bytes; classpath_entries := build_classpath_entries build;
            build_duration := duration build |} (tick (prune w c) + 1) now (prune w c)).
  set (e := {| index := i |}). set (c2 := stored _ _ _ _ _).
  assert (∃ s, states (prune w c) !! root = Some s) as [s Hs].
  { symmetry in Hcur. rewrite <- prune_is_current in Hcur. unfold is_current in Hcur.
    destruct (states (prune w c) !! root) as [s|]; [by exists s|done]. }
  pose proof (stored_total w root e (tick (prune w c) + 1) now (prune w c) s Hs Hrefs) as H2.
  fold c2 in H2. change (index_bytes e) with bytes in H2.
  eapply wp_call; [apply enforce_spec; lia|]. intros c3 (H3 & _ & _ & Hbytes & _).
  change (limits c2) with (limits c) in Hbytes. pose proof (fr_total _ _ _ _ H3).
  apply wp_bind, retained_bytes_spec; [lia|].
  assert (limits c3 = limits c) as -> by exact (sh_limits _ _ _ _ (fr_shrinks _ _ _ _ H3)).
  destruct (N.ltb_spec (max_bytes (limits c)) (total_bytes w c3)) as [Hover|Hok]; cbn [wp].
  - split; [done|]. right. destruct Hbytes as [?|[Hi Hr]]; [lia|].
    split; [by apply release_last_index|]. eapply no_runner_shrinks; [|exact Hr].
    by eapply (release_index_shrinks w None).
  - split_and!; [done|done|].
    set (h := λ s, used_on now (used_at (tick (prune w c) + 1) (with_index (Some e) (with_in_flight None s)))).
    destruct (shrinks_protected w root c2 c3 (h s) (fr_shrinks _ _ _ _ H3)) as (s' & Hs' & Hi & _).
    + change (states c2) with (alter h root (states (prune w c))). by rewrite lookup_alter_eq, Hs.
    + simpl. by destruct (state_runner s).
    + exists s', e. rewrite Hi. done.
Qed.

Lemma reserve_spec root g bytes r c :
  total_bytes w c + bytes ≤ u64_max →
  wp (reserve w root g bytes r c) (λ '(x, c'),
    match x with
    | inl ReserveStale => is_current c root g = false
    | inl (OverBudget needed limit) =>
        limit = max_bytes (limits c) ∧ limit < needed ∧ needed = total_bytes w c' + bytes
        ∧ no_index None c' ∧ no_runner w (Some root) c'
    | inr r' =>
        r' = r ∧ is_current c root g = true ∧ ∃ before, reservations c' = before ++ [(r, bytes)]
        ∧ total_bytes w (set_reservations before c') + bytes ≤ max_bytes (limits c)
    end).
Proof.
  intros Hsum. unfold reserve. cbv zeta.
  pose proof (prune_is_current root g c) as Hcur. pose proof (prune_total w c) as Htot.
  destruct (is_current (prune w c) root g); cbn [negb]; [|done].
  set (c0 := prune w c) in *.
  eapply (wp_call _ _ (λ '(room, c'), frees w None c0 c' ∧ match room with
    | inl needed => max_bytes (limits c) < needed ∧ needed = total_bytes w c' + bytes
                    ∧ no_index None c' ∧ no_runner w (Some root) c'
    | inr _ => total_bytes w c' + bytes ≤ max_bytes (limits c)
    end)).
  - apply (wp_loop (frees w None c0) (λ c, index_count c + runner_count c)%nat); [|done|lia].
    intros c1 H1. pose proof (fr_total _ _ _ _ H1). apply wp_bind, retained_bytes_spec; [lia|].
    assert (limits c1 = limits c) as Hl by exact (sh_limits _ _ _ _ (fr_shrinks _ _ _ _ H1)).
    unfold checked_add. rewrite decide_True by (unfold u64_max, usize_max in *; lia). cbn [or_panic mbind exec_bind].
    rewrite Hl. destruct (N.ltb_spec (max_bytes (limits c)) (total_bytes w c1 + bytes)) as [Hlt|Hle]; [|done].
    pose proof (evict_one_spec w None (Some root) c1 (or_intror eq_refl)) as He.
    destruct (evict_one w None (Some root) c1) as [[] c2].
    + destruct He as [He ?]. split; [by etrans|done].
    + destruct He as (-> & Hi & Hr). apply wp_bind, retained_bytes_spec; [lia|].
      rewrite decide_True by (unfold u64_max, usize_max in *; lia). cbn [or_panic mbind exec_bind wp]. done.
  - intros [[needed|[]] c1] [H1 Hroom]; cbn [wp].
    + assert (limits c1 = limits c) as -> by exact (sh_limits _ _ _ _ (fr_shrinks _ _ _ _ H1)).
      naive_solver.
    + split_and!; [done..|]. exists (reservations c1). split; [done|].
      assert (set_reservations (reservations c1) (set_reservations (reservations c1 ++ [(r, bytes)]) c1) = c1)
        as -> by by destruct c1. done.
Qed.
End Spec.

(** A project with an index for the asked fingerprint is served from the cache. *)
Lemma lookup_cached w root fp cl ow now c s e :
  states c !! root = Some s → state_index s = Some e → project e = fp →
  wp (lookup_index w root fp cl ow now c) (λ '(r, _), r = Cached e (generation s)).
Proof.
  intros Hs He Hfp. unfold lookup_index. cbn [next_tick fresh_generation]. unfold or_insert_state.
  change (states (count 1 0 0 0 0 0 (count 0 1 0 0 0 0 c))) with (states c). rewrite Hs. simpl.
  rewrite lookup_alter_eq, Hs. simpl. rewrite He. by rewrite bool_decide_true.
Qed.

Lemma release_index_gone w root c c' s :
  release_index w root c = c' → states c' !! root = Some s → state_index s = None.
Proof.
  intros <-. unfold release_index. destruct (states c !! root) as [s0|] eqn:Hs; simpl; [|congruence].
  destruct (state_index s0) as [e|] eqn:He; simpl; [|congruence].
  rewrite lookup_fmap, lookup_alter_eq, Hs. simpl. by destruct (in_flight_live _ _); intros; simplify_eq/=.
Qed.

Lemma release_index_other w root r c s :
  r ≠ root → states (release_index w root c) !! r = Some s → ∃ s0, states c !! r = Some s0 ∧ state_index s = state_index s0.
Proof.
  intros Hne. unfold release_index. destruct (states c !! root ≫= state_index); [|by eauto].
  rewrite prune_states, lookup_fmap, fmap_Some. intros (s0 & Hs0 & ->). simpl in Hs0.
  rewrite lookup_alter_ne in Hs0 by done. exists s0. split; [done|]. by destruct (in_flight_live _ _).
Qed.

(** *** Installing a runner *)

Lemma invalidate_total w root c : total_bytes w (invalidate w root c) ≤ total_bytes w c.
Proof.
  unfold invalidate. cbn [fresh_generation].
  change (states (count 1 0 0 0 0 0 c)) with (states c). destruct (states c !! root) as [s|] eqn:Hs; [|done].
  etrans; [apply release_index_total|]. set (c1 := count 0 0 0 0 0 1 _).
  assert (states c1 = alter (λ s, with_in_flight None (with_generation (next_generation c + 1) s)) root
            (states c)) as Hc1 by done.
  assert (holds_less c c1) as Hless.
  { intros r s'. rewrite Hc1, lookup_alter_Some.
    intros [(-> & s0 & ? & ->)|[_ ?]]; (eexists; split; [done|]; simpl; auto). }
  rewrite !total_bytes_parts.
  pose proof (released_bytes_less w _ _ (released c) Hless).
  pose proof (runners_bytes_less w _ _ (released_runners c) Hless).
  assert (states_bytes w c1 ≤ states_bytes w c).
  { apply map_sum_le. intros k s'. rewrite Hc1, lookup_alter_Some.
    intros [(-> & s0 & ? & ->)|[_ ?]]; (eexists; split; [done|exact (N.le_refl _)]). }
  simpl in *. lia.
Qed.

(** A cache whose states hold at most the additional bytes [b]. *)
Lemma total_grow w b c c' :
  states_bytes w c' ≤ states_bytes w c + b →
  (∀ i, index_alive w c' i = true → index_alive w c i = true) →
  (∀ r, runner_alive w c' r = true → runner_alive w c r = true) →
  released c' = released c → released_runners c' = released_runners c → reservations c' = reservations c →
  total_bytes w c' ≤ total_bytes w c + b.
Proof.
  intros Hs Hi Hr E1 E2 E3. rewrite !total_bytes_parts, E1, E2, E3.
  assert (released_bytes w c' (released c) ≤ released_bytes w c (released c)).
  { apply sum_filter_le. intros [i n]. rewrite !Is_true_true. apply Hi. }
  assert (runners_bytes w c' (released_runners c) ≤ runners_bytes w c (released_runners c)).
  { apply sum_fmap_le. intros x. unfold released_runner_bytes.
    destruct (runner_alive w c' (released_runner x)) eqn:E; [by rewrite (Hr _ E)|lia]. }
  lia.
Qed.

Lemma alive_states w c c' :
  (∀ r s', states c' !! r = Some s' →
    (∃ s, states c !! r = Some s ∧ state_index s' = state_index s) ∨ state_index s' = None) →
  ∀ i, index_alive w c' i = true → index_alive w c i = true.
Proof.
  intros Hs i. unfold index_alive. rewrite !orb_true_iff, !existsb_exists.
  intros [?|([r s'] & Hin & Hi)]; [by left|right]. apply list_elem_of_In, elem_of_map_to_list in Hin.
  destruct (Hs _ _ Hin) as [(s & Hs' & Heq)|Hn]; [|by rewrite Hn in Hi].
  exists (r, s). split; [by apply list_elem_of_In, elem_of_map_to_list|]. by rewrite <- Heq.
Qed.

Lemma runner_alive_states w c c' new_runner :
  0 < runner_refs w new_runner →
  (∀ r s' e, states c' !! r = Some s' → state_runner s' = Some e → runner e = new_runner
     ∨ ∃ s, states c !! r = Some s ∧ state_runner s = Some e) →
  ∀ i, runner_alive w c' i = true → runner_alive w c i = true.
Proof.
  intros Hrefs Hs i. unfold runner_alive. rewrite !orb_true_iff, !existsb_exists, N.ltb_lt.
  intros [?|([r s'] & Hin & Hi)]; [by left|]. apply list_elem_of_In, elem_of_map_to_list in Hin.
  destruct (state_runner s') as [e|] eqn:He; [|done]. apply N.eqb_eq in Hi.
  destruct (Hs _ _ _ Hin He) as [Heq|(s & Hs' & He')]; [left; congruence|right].
  exists (r, s). split; [by apply list_elem_of_In, elem_of_map_to_list|]. rewrite He'. by apply N.eqb_eq.
Qed.

(** The cache with a new runner, the replaced one being released. *)
Definition installed (root : path) (e : RunnerEntry) (t g now : N) (c : ProjectCache) : ProjectCache :=
  let c1 := or_insert_state root (new_state g now) c in
  let c2 := update_state root (λ s, used_on now (used_at t (with_runner (Some e) s))) c1 in
  match states c1 !! root ≫= state_runner with
  | Some replaced => set_released_runners (released_runners c2 ++ [release_runner replaced]) c2
  | None => c2
  end.

Lemma installed_state root e t g now c :
  ∃ s, states (installed root e t g now c) !! root = Some s ∧ state_runner s = Some e.
Proof.
  unfold installed, or_insert_state. destruct (states c !! root) as [s0|] eqn:Hs.
  - exists (used_on now (used_at t (with_runner (Some e) s0))). rewrite Hs. simpl.
    destruct (state_runner s0); simpl; by rewrite lookup_alter_eq, Hs.
  - exists (used_on now (used_at t (with_runner (Some e) (new_state g now)))).
    simpl. rewrite lookup_insert_eq. simpl. by rewrite lookup_alter_eq, lookup_insert_eq.
Qed.

Lemma installed_limits root e t g now c : limits (installed root e t g now c) = limits c.
Proof.
  unfold installed, or_insert_state. destruct (states c !! root) as [s0|] eqn:Hs;
    destruct (_ ≫= state_runner); done.
Qed.

Lemma insert_state_total w root g now c :
  total_bytes w (or_insert_state root (new_state g now) c) ≤ total_bytes w c + 0.
Proof.
  unfold or_insert_state. destruct (states c !! root) as [s0|] eqn:Hs; [lia|].
  apply total_grow; [|..|done|done|done].
  - unfold states_bytes. simpl. rewrite map_sum_insert by done.
    change (state_bytes w (new_state g now)) with 0. lia.
  - apply alive_states. intros r s'. simpl. rewrite lookup_insert_Some.
    intros [[<- <-]|[_ ?]]; [by right|left; by exists s'].
  - intros i. unfold runner_alive. rewrite !orb_true_iff, !existsb_exists.
    intros [?|([r s'] & Hin & Hi)]; [by left|right].
    apply list_elem_of_In, elem_of_map_to_list in Hin. simpl in Hin. apply lookup_insert_Some in Hin.
    destruct Hin as [[<- <-]|[_ Hin]]; [done|]. exists (r, s'). split; [|done].
    by apply list_elem_of_In, elem_of_map_to_list.
Qed.

Lemma installed_total w root e t g now c :
  0 < runner_refs w (runner e) →
  total_bytes w (installed root e t g now c) ≤ total_bytes w c + runner_entry_bytes w e.
Proof.
  intros Hrefs. unfold installed. pose proof (insert_state_total w root g now c) as H1.
  set (c1 := or_insert_state root (new_state g now) c) in *. cbv zeta.
  set (h := λ s, used_on now (used_at t (with_runner (Some e) s))).
  assert (∃ s, states c1 !! root = Some s) as [s Hs].
  { unfold c1, or_insert_state. destruct (states c !! root) as [s|] eqn:Hs; [by exists s|].
    eexists. simpl. by rewrite lookup_insert_eq. }
  assert (total_bytes w (update_state root h c1)
          + match state_runner s with Some r => runner_entry_bytes w r | None => 0 end
          ≤ total_bytes w c1 + runner_entry_bytes w e) as H2.
  { assert (states_bytes w (update_state root h c1)
            + match state_runner s with Some r => runner_entry_bytes w r | None => 0 end
            = states_bytes w c1 + runner_entry_bytes w e) as Hsb.
    { unfold states_bytes. change (states (update_state root h c1)) with (alter h root (states c1)).
      pose proof (map_sum_alter (λ '(_, s), state_bytes w s) _ _ h _ Hs) as Hsum.
      simpl in Hsum. unfold state_bytes in Hsum at 2 4. simpl in Hsum. lia. }
    rewrite !total_bytes_parts.
    assert (released_bytes w (update_state root h c1) (released c1) ≤ released_bytes w c1 (released c1)).
    { apply sum_filter_le. intros [i n]. rewrite !Is_true_true. apply alive_states.
      intros r s'. simpl. rewrite lookup_alter_Some. intros [(-> & s0 & ? & ->)|[_ ?]]; left; eauto. }
    assert (runners_bytes w (update_state root h c1) (released_runners c1)
            ≤ runners_bytes w c1 (released_runners c1)).
    { apply sum_fmap_le. intros x. unfold released_runner_bytes.
      destruct (runner_alive w (update_state root h c1) (released_runner x)) eqn:E; [|lia].
      rewrite (runner_alive_states w c1 (update_state root h c1) (runner e) Hrefs); [done| |done].
      intros r s' e'. simpl. rewrite lookup_alter_Some. intros [(-> & s0 & ? & ->)|[_ ?]] He'.
      - left. simpl in He'. congruence.
      - right. by exists s'. }
    change (released (update_state root h c1)) with (released c1).
    change (released_runners (update_state root h c1)) with (released_runners c1).
    change (reservations (update_state root h c1)) with (reservations c1). lia. }
  rewrite Hs. simpl. destruct (state_runner s) as [r|]; [|lia].
  set (c2 := update_state root h c1) in *. rewrite !total_bytes_parts in *.
  assert (runners_bytes w (set_released_runners (released_runners c2 ++ [release_runner r]) c2)
            (released_runners c2 ++ [release_runner r])
          ≤ runners_bytes w c2 (released_runners c2) + runner_entry_bytes w r).
  { unfold runners_bytes. rewrite fmap_app, sum_app. cbn [fmap list_fmap].
    assert (released_runner_bytes w (set_released_runners (released_runners c2 ++ [release_runner r]) c2)
              (release_runner r) ≤ runner_entry_bytes w r).
    { unfold released_runner_bytes, runner_entry_bytes, runner_bytes. simpl. destruct (runner_alive _ _ _); lia. }
    change (released_runner_bytes w (set_released_runners (released_runners c2 ++ [release_runner r]) c2))
      with (released_runner_bytes w c2) in *.
    rewrite sum_cons. change (sum []) with 0. lia. }
  set (c3 := set_released_runners (released_runners c1 ++ [release_runner r]) c2).
  change (runners_bytes w c3 (released_runners c3)
          ≤ runners_bytes w c2 (released_runners c2) + runner_entry_bytes w r) in H.
  change (states_bytes w c3) with (states_bytes w c2).
  change (released_bytes w c3 (released c3)) with (released_bytes w c2 (released c2)).
  change (reservations c3) with (reservations c2).
  lia.
Qed.

(** A lookup that has to build leaves the marker it answers with. *)
Lemma lookup_index_marker w root fp cl ow now c cl' ow' g c' s :
  lookup_index w root fp cl ow now c = Done (Build cl' ow' g, c') → states c' !! root = Some s →
  in_flight s = Some {| in_flight_generation := g; cell := cl'; owner := ow' |}.
Proof.
  unfold lookup_index. cbn [next_tick fresh_generation]. set (c1 := update_state root _ _). clearbody c1.
  assert (∀ c2, lookup_build root cl ow c2 = Done (Build cl' ow' g, c') → states c' !! root = Some s →
            in_flight s = Some {| in_flight_generation := g; cell := cl'; owner := ow' |}) as Hb.
  { intros c2. unfold lookup_build. cbv zeta. intros (s1 & Hs1 & Hb)%bind_Done Hs.
    change (states (count 0 0 0 1 0 0 c2)) with (states c2) in Hs1.
    destruct (states c2 !! root) as [s2|] eqn:Hs2; simplify_eq/=.
    destruct (in_flight s1) as [f|] eqn:Hf; [destruct (N.eqb_spec (in_flight_generation f) (generation s1)) as [<-|]|];
      simplify_eq/=.
    - rewrite Hf. by destruct f.
    - rewrite lookup_alter_eq, Hs2 in Hs. by simplify_eq/=.
    - rewrite lookup_alter_eq, Hs2 in Hs. by simplify_eq/=. }
  intros (s1 & _ & Hrun)%bind_Done Hs.
  destruct (state_index s1); [case_bool_decide|]; [done|by eapply Hb..].
Qed.

(** ** Fingerprints and forgotten entries *)

Lemma capture_lookup stamp paths p s : capture stamp paths !! p = Some s ↔ p ∈ paths ∧ stamp p = s.
Proof.
  unfold capture. induction paths as [|q paths IH]; csimpl; [rewrite lookup_empty; set_solver|].
  rewrite lookup_insert_Some, IH, elem_of_cons.
  destruct (decide (q = p)) as [->|]; naive_solver.
Qed.

Lemma enforce_used w protect c c' root s :
  enforce w protect c = Done c' → states c' !! root = Some s → is_used w s = true.
Proof.
  unfold enforce. cbv zeta. intros (c1 & _ & H1)%bind_Done. apply bind_Done in H1 as (c2 & _ & H2).
  apply bind_Done in H2 as (c3 & _ & [= <-]). cbn [set_states states].
  rewrite map_lookup_filter_Some. intros [_ H]. by apply Is_true_true in H.
Qed.

(** ** Properties *)

Definition any_call (w : World) (o : op) : Prop := True.

(** C4: A build can only be published or reserve memory in the generation it was started in.  Once
    the project has left that generation - for whatever reason, and whatever any requests did in
    between - the build's memory reservation and its result are both refused, and no project's
    cached index changes. *)
Theorem stale_never_published l w0 w c0 c1 c2 c3 root fp cl ow now cl' ow' g :
  calls any_call (new l) c0 →
  lookup_index w0 root fp cl ow now c0 = Done (Build cl' ow' g, c1) →
  calls any_call c1 c2 → is_current c2 root g = false → calls any_call c2 c3 →
  (∀ bytes r, wp (reserve w root g bytes r c3) (λ '(x, _), x = inl ReserveStale))
  ∧ (∀ i build fp' r now', wp (publish w root g i build fp' r now' c3) (λ '(p, c4), p = Stale
      ∧ ∀ root', (states c4 !! root' ≫= state_index) = (states c3 !! root' ≫= state_index))).
Proof.
  intros H0 Hlook H12 Hdead H23.
  assert (cache_inv c1) as Hinv.
  { eapply inv_lookup_index; [|exact Hlook]. eapply calls_inv; [exact H0|apply inv_new]. }
  pose proof (is_current_le _ _ _ Hinv (lookup_index_generation _ _ _ _ _ _ _ _ _ _ _ Hlook)) as Hg.
  assert (is_current c3 root g = false) as Hcur.
  { eapply dead_generation; [by eapply calls_evolves| |done].
    pose proof (ev_next _ _ (calls_evolves _ _ _ H12)). lia. }
  split.
  - intros bytes r. unfold reserve. cbv zeta. by rewrite prune_is_current, Hcur.
  - intros i build fp' r now'. unfold publish, publish_dropped. cbv zeta.
    rewrite prune_is_current, Hcur. cbn [negb wp]. split; [done|]. intros root'.
    rewrite prune_states, lookup_fmap. destruct (states c3 !! root') as [s|]; [|done]. simpl.
    by destruct (in_flight_live _ _).
Qed.

(** Single flight: as long as the build of a generation really runs and is neither published
    nor reported as failed, every lookup that is told to build that generation gets the same cell
    and the same owner lock, whatever happens to this and the other projects in between. *)
Theorem lookups_join_the_build l w0 w c0 c1 c2 c3 root fp fp' cl ow now cl' ow' now' cl1 ow1 cl2 ow2 g :
  calls any_call (new l) c0 →
  lookup_index w0 root fp cl ow now c0 = Done (Build cl1 ow1 g, c1) →
  let f := {| in_flight_generation := g; cell := cl1; owner := ow1 |} in
  calls (build_runs root g f) c1 c2 → is_live w f = true →
  lookup_index w root fp' cl' ow' now' c2 = Done (Build cl2 ow2 g, c3) →
  cl2 = cl1 ∧ ow2 = ow1.
Proof.
  intros H0 Hlook f H12 Hlive Hlook2.
  assert (cache_inv c1) as Hinv.
  { eapply inv_lookup_index; [|exact Hlook]. eapply calls_inv; [exact H0|apply inv_new]. }
  pose proof (is_current_le _ _ _ Hinv (lookup_index_generation _ _ _ _ _ _ _ _ _ _ _ Hlook)) as Hg.
  assert (marker root g f c1) as H1.
  { split_and!; [done|done|]. intros s Hs _. by eapply lookup_index_marker. }
  assert (marker root g f c2) as H2.
  { revert H1. clear -H12. induction H12 as [|c w o c' c'' Hok Hrun _ IH]; [done|].
    intros Hm. apply IH. by eapply marker_op. }
  by apply (marker_lookup root g f w Hlive _ _ _ _ _ _ _ _ H2 Hlook2).
Qed.

(** Publishing a build never panics and always ends.  It is retained only if everything the
    process keeps for its projects then fits the budget, with the new index cached; it is turned
    away uncached only if it does not fit alone, or nothing else is left to evict; a stale build
    changes no project. *)
Theorem publish_within_budget w root g i build fp r now c :
  let bytes := index_estimated_bytes w i + estimated_bytes (build_artifacts build) in
  let w' := drop_reservation r w in
  total_bytes w c + bytes ≤ u64_max → 0 < index_refs w i →
  wp (publish w root g i build fp r now c) (λ '(p, c'),
    match p with
    | Stale => is_current c root g = false ∧ c' = prune w' c
    | Retained =>
        is_current c root g = true ∧ total_bytes w' c' ≤ max_bytes (limits c)
        ∧ ∃ s e, states c' !! root = Some s ∧ state_index s = Some e ∧ index e = i ∧ project e = fp
    | Uncached =>
        is_current c root g = true
        ∧ (max_bytes (limits c) < bytes ∨ no_index None c' ∧ no_runner w' (Some root) c')
    end).
Proof.
  intros bytes w' Hsum Hrefs. pose proof (drop_reservation_total r w c).
  apply (publish_dropped_spec w'); [|done]. fold w' in H. unfold bytes in Hsum. simpl in *. lia.
Qed.

(** Round trip: a retained index is what the next request of the same project model gets. *)
Theorem publish_then_lookup w root g i build fp r now c c' w2 cl ow later :
  publish w root g i build fp r now c = Done (Retained, c') →
  total_bytes w c + index_estimated_bytes w i + estimated_bytes (build_artifacts build) ≤ u64_max →
  0 < index_refs w i →
  wp (lookup_index w2 root fp cl ow later c') (λ '(found, _),
    ∃ e g', found = Cached e g' ∧ index e = i).
Proof.
  intros Hrun Hsum Hrefs. pose proof (drop_reservation_total r w c).
  assert (wp (publish w root g i build fp r now c) (λ '(p, c'), p = Retained →
            ∃ s e, states c' !! root = Some s ∧ state_index s = Some e ∧ index e = i ∧ project e = fp)) as Hpub.
  { eapply wp_mono; [apply (publish_dropped_spec (drop_reservation r w)); simpl; [lia|done]|].
    intros [p c1] Hp ->. by destruct Hp as (_ & _ & ?). }
  rewrite Hrun in Hpub. destruct (Hpub eq_refl) as (s & e & Hs & He & Hi & Hfp).
  eapply wp_mono; [by apply (lookup_cached w2 root fp cl ow later c' s e)|].
  intros [found c2] ->. by exists e, (generation s).
Qed.

(** A build may only start with a reservation that keeps the process within its budget.  When it
    is refused for memory, no index of any project is cached any more and every other runner
    belongs to a running build; the reported figures are the memory needed and the budget. *)
Theorem reserve_within_budget w root g bytes r c :
  total_bytes w c + bytes ≤ u64_max →
  wp (reserve w root g bytes r c) (λ '(x, c'),
    match x with
    | inl ReserveStale => is_current c root g = false
    | inl (OverBudget needed limit) =>
        limit = max_bytes (limits c) ∧ limit < needed ∧ needed = total_bytes w c' + bytes
        ∧ no_index None c' ∧ no_runner w (Some root) c'
    | inr r' =>
        r' = r ∧ is_current c root g = true ∧ ∃ before, reservations c' = before ++ [(r, bytes)]
        ∧ total_bytes w (set_reservations before c') + bytes ≤ max_bytes (limits c)
    end).
Proof. apply reserve_spec. Qed.

(** Evicting an index evicts the strictly least recently used one among the unprotected
    projects, and leaves every other project's index alone, in every reachable cache. *)
Theorem evicts_least_recently_used l w protect c c' :
  calls any_call (new l) c → evict_least_recently_used_index w protect c = (true, c') →
  ∃ victim s, states c !! victim = Some s ∧ is_some (state_index s) = true
    ∧ unprotected protect victim = true
    ∧ (∀ s', states c' !! victim = Some s' → state_index s' = None)
    ∧ (∀ r s', r ≠ victim → states c' !! r = Some s' →
        ∃ s0, states c !! r = Some s0 ∧ state_index s' = state_index s0)
    ∧ (∀ r s', r ≠ victim → states c !! r = Some s' → is_some (state_index s') = true →
        unprotected protect r = true → last_used_tick s < last_used_tick s').
Proof.
  intros Hcalls. pose proof (calls_inv _ _ _ Hcalls (inv_new l)) as Hinv.
  unfold evict_least_recently_used_index, index_victim.
  pose proof (lru_victim (λ '(root, s), is_some (state_index s) && unprotected protect root) (states c)) as Hv.
  destruct (fst <$> _) as [v|]; [|done]. intros [= <-].
  destruct Hv as (s & Hs & [Hi Hp]%andb_true_iff & Hmin). exists v, s. split_and!; [done..| | |].
  - intros s' Hs'. by apply (release_index_gone w v c _ s' eq_refl).
  - intros r s' Hne Hr. by apply (release_index_other w v r c s' Hne).
  - intros r s' Hne Hr Hir Hpr.
    assert (last_used_tick s ≤ last_used_tick s') by (apply (Hmin r); [done|by rewrite Hir, Hpr]).
    assert (0 < last_used_tick s) by (eapply inv_used; [done..|by rewrite Hi, orb_true_r]).
    destruct (decide (last_used_tick s = last_used_tick s')) as [Heq|]; [|lia].
    exfalso. apply Hne. symmetry. by eapply inv_distinct.
Qed.

(** Installing a runner never panics and always ends; the runner is then the project's cached
    one, and indexes, runners and bytes are within their limits unless only the project itself
    and running builds are left. *)
Theorem install_within_limits w root r fp now c :
  total_bytes w c + runner_bytes w r fp ≤ u64_max → 0 < runner_refs w r →
  wp (install_runner w root r fp now c) (λ '(_, c'),
    (states c' !! root ≫= state_runner) = Some {| runner := r; fingerprint := fp; revalidate := false |}
    ∧ ((index_count c' ≤ max_indexes (limits c))%nat ∨ no_index (Some root) c')
    ∧ ((runner_count c' ≤ max_runners (limits c))%nat ∨ no_runner w (Some root) c')
    ∧ (total_bytes w c' ≤ max_bytes (limits c) ∨ no_index (Some root) c' ∧ no_runner w (Some root) c')).
Proof.
  intros Hsum Hrefs. unfold install_runner. cbv zeta.
  assert (∀ b : bool, total_bytes w (if b then invalidate w root c else c) ≤ total_bytes w c
            ∧ limits (if b then invalidate w root c else c) = limits c) as H0.
  { intros []; [|split; [lia|done]].
    split; [apply invalidate_total|by apply (ev_limits _ _ (invalidate_evolves w root c))]. }
  match goal with |- context [if ?b then invalidate w root c else c] =>
    specialize (H0 b); set (c0 := if b then invalidate w root c else c) in * end.
  clearbody c0. destruct H0 as [H0 Hl0]. cbn [next_tick fresh_generation].
  set (e := {| runner := r; fingerprint := fp; revalidate := false |}).
  set (c1 := count 1 0 0 0 0 0 (count 0 1 0 0 0 0 c0)).
  set (g := next_generation (count 0 1 0 0 0 0 c0) + 1).
  change (match states (or_insert_state root (new_state g now) c1) !! root ≫= state_runner with
          | Some replaced => _ | None => _ end) with (installed root e (tick c0 + 1) g now c1).
  pose proof (installed_total w root e (tick c0 + 1) g now c1 Hrefs) as H1.
  change (total_bytes w c1) with (total_bytes w c0) in H1.
  change (runner_entry_bytes w e) with (runner_bytes w r fp) in H1.
  pose proof (installed_limits root e (tick c0 + 1) g now c1) as Hl1.
  destruct (installed_state root e (tick c0 + 1) g now c1) as (s & Hs & Hrun).
  eapply wp_call; [apply enforce_spec; lia|]. intros c2 (H2 & _ & Hi & Hb & Hr). cbn [wp].
  rewrite Hl1 in Hi, Hb, Hr. change (limits c1) with (limits c0) in Hi, Hb, Hr. rewrite Hl0 in Hi, Hb, Hr.
  split_and!; [|done..].
  destruct (shrinks_protected w root _ c2 s (fr_shrinks _ _ _ _ H2) Hs) as (s' & Hs' & _ & Hr' & _).
  { by rewrite Hrun. }
  rewrite Hs'. simpl. by rewrite Hr'.
Qed.

(** Fingerprints are sound and complete: the fingerprint of a set of paths is current exactly
    when every one of the paths still has the stamp (its length and its modification time, or its
    absence) that was captured. *)
Theorem fingerprint_current_iff before after paths :
  fingerprint_is_current after (capture before paths) = true
  ↔ ∀ p, p ∈ paths → after p = before p.
Proof.
  unfold fingerprint_is_current. rewrite forallb_forall. split.
  - intros Hall p Hp. apply (bool_decide_eq_true_1 (after p = before p)).
    refine (Hall (p, before p) _). apply list_elem_of_In, elem_of_map_to_list.
    by apply capture_lookup.
  - intros Hsame [p s] Hin. apply list_elem_of_In, elem_of_map_to_list, capture_lookup in Hin.
    destruct Hin as [Hp <-]. by apply bool_decide_eq_true_2, Hsame.
Qed.

(** An explicit refresh does not outlive its project's cache entry: when the build of a project
    that has no runner and no index fails, the request to read every archive again is forgotten
    with the entry, although no build was published. *)
Theorem full_rebuild_forgotten w root c c' s :
  states (require_full_rebuild root (last_used_unix_ms s) c) !! root = Some s →
  state_runner s = None → state_index s = None →
  finish_failed w root (generation s) (require_full_rebuild root (last_used_unix_ms s) c) = Done c' →
  requires_full_rebuild root (require_full_rebuild root (last_used_unix_ms s) c) = true
  ∧ requires_full_rebuild root c' = false.
Proof.
  set (c1 := require_full_rebuild _ _ _). intros Hs Hr Hi Hrun. split.
  { unfold requires_full_rebuild, c1, require_full_rebuild, or_insert_state. cbn [fresh_generation].
    destruct (states (count 1 0 0 0 0 0 c) !! root) as [s0|] eqn:Hs0; cbn [update_state set_states states].
    - by rewrite lookup_alter_eq, Hs0.
    - by rewrite lookup_alter_eq, lookup_insert_eq. }
  unfold requires_full_rebuild. destruct (states c' !! root) as [s'|] eqn:Hs'; [exfalso|done].
  pose proof (enforce_used _ _ _ _ _ _ Hrun Hs') as Hused.
  destruct (sh_states _ _ _ _ (fr_shrinks _ _ _ _ (enforce_frees _ _ _ _ Hrun)) _ _ Hs')
    as (s1 & Hs1 & _ & _ & _ & Hi' & Hr' & Hf').
  cbn [update_state set_states states] in Hs1. rewrite lookup_alter_eq, Hs in Hs1.
  cbn [fmap option_fmap option_map] in Hs1. rewrite N.eqb_refl in Hs1. injection Hs1 as <-.
  cbn [with_in_flight state_index state_runner in_flight] in Hi', Hr', Hf'. rewrite Hi in Hi'. rewrite Hr in Hr'.
  unfold is_used, in_flight_live in Hused.
  assert (state_index s' = None) as E1 by naive_solver.
  assert (state_runner s' = None) as E2 by naive_solver.
  assert (in_flight s' = None) as E3 by naive_solver.
  by rewrite E1, E2, E3 in Hused.
Qed.

(** ** Witnesses *)

Definition demo_world : World := {|
  index_refs _ := 1;
  runner_refs _ := 1;
  cell_refs _ := 1;
  reservation_refs _ := 1;
  lock_taken _ := true;
  retained_test_result_bytes _ := 0;
  index_estimated_bytes _ := 500;
|}.
Definition demo_limits : CacheLimits := {| max_indexes := 1; max_runners := 2; max_bytes := 50000 |}.
Definition demo_root : path := [lit "srv"].
Definition demo_other : path := [lit "lib"].
Definition demo_stamps (p : path) : option FileStamp :=
  if bool_decide (p = [lit "srv"; lit "pom.xml"]) then Some {| len := 10; modified_ns := 3 |} else None.
Definition demo_fp : ProjectFingerprint := capture demo_stamps [[lit "srv"; lit "pom.xml"]].
Definition demo_build : FinishedBuild :=
  {| build_artifacts := ∅; build_classpath_entries := 4; duration := 9 |}.
Definition cache_after {A} (x : exec (A * ProjectCache)) : ProjectCache :=
  match x with Done (_, c) => c | _ => new demo_limits end.

(** The first request of a project starts build 11 with lock 12 in generation 1. *)
Definition demo_building : ProjectCache :=
  cache_after (lookup_index demo_world demo_root demo_fp 11 12 100 (new demo_limits)).
Definition demo_marker : InFlight := {| in_flight_generation := 1; cell := 11; owner := 12 |}.
Definition demo_invalidated : ProjectCache := invalidate_generation demo_world demo_root 1 demo_building.
Definition demo_published : ProjectCache :=
  cache_after (publish demo_world demo_root 1 7 demo_build demo_fp 21 101 demo_building).

Lemma demo_lookup :
  lookup_index demo_world demo_root demo_fp 11 12 100 (new demo_limits)
  = Done (Build 11 12 1, demo_building).
Proof. vm_compute. reflexivity. Qed.

Lemma demo_publish :
  publish demo_world demo_root 1 7 demo_build demo_fp 21 101 demo_building
  = Done (Retained, demo_published).
Proof. vm_compute. reflexivity. Qed.

Lemma demo_published_calls : calls any_call (new demo_limits) demo_published.
Proof.
  apply (calls_cons _ _ demo_world (OpLookup demo_root demo_fp 11 12 100) demo_building);
    [done|vm_compute; reflexivity|].
  apply (calls_cons _ _ demo_world (OpPublish demo_root 1 7 demo_build demo_fp 21 101) demo_published);
    [done|vm_compute; reflexivity|].
  apply calls_nil.
Qed.

Lemma stale_never_published_witness :
  is_current demo_invalidated demo_root 1 = false ∧
  ((∀ bytes r, wp (reserve demo_world demo_root 1 bytes r demo_invalidated)
       (λ '(x, _), x = inl ReserveStale))
   ∧ (∀ i build fp' r now', wp (publish demo_world demo_root 1 i build fp' r now' demo_invalidated)
       (λ '(p, c4), p = Stale
         ∧ ∀ root', (states c4 !! root' ≫= state_index)
                    = (states demo_invalidated !! root' ≫= state_index)))).
Proof.
  assert (is_current demo_invalidated demo_root 1 = false) as H by (vm_compute; reflexivity).
  split; [exact H|].
  apply (stale_never_published demo_limits demo_world demo_world (new demo_limits) demo_building
           demo_invalidated demo_invalidated demo_root demo_fp 11 12 100 11 12 1).
  - apply calls_nil.
  - exact demo_lookup.
  - eapply (calls_cons _ _ demo_world (OpInvalidateGeneration demo_root 1)); [done|reflexivity|].
    apply calls_nil.
  - exact H.
  - apply calls_nil.
Defined.

Lemma lookups_join_the_build_witness : 11 = 11 ∧ 12 = 12.
Proof.
  apply (lookups_join_the_build demo_limits demo_world demo_world (new demo_limits) demo_building
           demo_building
           (cache_after (lookup_index demo_world demo_root demo_fp 31 32 102 demo_building))
           demo_root demo_fp demo_fp 11 12 100 31 32 102 11 12 11 12 1).
  - apply calls_nil.
  - exact demo_lookup.
  - apply calls_nil.
  - reflexivity.
  - vm_compute. reflexivity.
Defined.

Lemma publish_within_budget_witness :
  total_bytes demo_world demo_building + 500 ≤ u64_max ∧
  wp (publish demo_world demo_root 1 7 demo_build demo_fp 21 101 demo_building) (λ '(p, c'),
    p = Retained ∧ total_bytes (drop_reservation 21 demo_world) c' ≤ 50000).
Proof.
  split; [by apply (bool_decide_unpack (_ ≤ _)); vm_compute|].
  rewrite demo_publish.
  assert (H := publish_within_budget demo_world demo_root 1 7 demo_build demo_fp 21 101 demo_building).
  rewrite demo_publish in H. split; [done|]. apply H.
  - by apply (bool_decide_unpack (_ ≤ _)); vm_compute.
  - reflexivity.
Defined.

Lemma publish_then_lookup_witness :
  wp (lookup_index demo_world demo_root demo_fp 31 32 102 demo_published) (λ '(found, _),
    ∃ e g', found = Cached e g' ∧ index e = 7).
Proof.
  apply (publish_then_lookup demo_world demo_root 1 7 demo_build demo_fp 21 101 demo_building).
  - exact demo_publish.
  - by apply (bool_decide_unpack (_ ≤ _)); vm_compute.
  - reflexivity.
Defined.

Lemma reserve_within_budget_witness :
  wp (reserve demo_world demo_root 1 60000 22 demo_building) (λ '(x, c'),
    x = inl (OverBudget (total_bytes demo_world c' + 60000) 50000)).
Proof.
  eapply wp_mono.
  - apply (reserve_within_budget demo_world demo_root 1 60000 22 demo_building).
    by apply (bool_decide_unpack (_ ≤ _)); vm_compute.
  - intros [[[|needed limit]|r] c'].
    + intros H. exfalso. revert H. by vm_compute.
    + by intros (-> & _ & -> & _).
    + intros (_ & _ & before & _ & Hle). exfalso. revert Hle. apply N.lt_nge.
      change (max_bytes (limits demo_building)) with 50000. lia.
Defined.

Lemma evicted_pair w protect c :
  (evict_least_recently_used_index w protect c).1 = true →
  evict_least_recently_used_index w protect c
  = (true, (evict_least_recently_used_index w protect c).2).
Proof. destruct (evict_least_recently_used_index w protect c) as [b c']. by intros [= ->]. Qed.

Lemma demo_evicts : (evict_least_recently_used_index demo_world None demo_published).1 = true.
Proof. vm_compute. reflexivity. Qed.

Lemma evicts_least_recently_used_witness :
  ∃ victim s, states demo_published !! victim = Some s ∧ unprotected None victim = true.
Proof.
  destruct (evicts_least_recently_used demo_limits demo_world None demo_published _
              demo_published_calls (evicted_pair _ _ _ demo_evicts))
    as (victim & s & Hs & _ & Hp & _).
  exists victim, s. exact (conj Hs Hp).
Defined.

Lemma install_within_limits_witness :
  wp (install_runner demo_world demo_root 41 demo_fp 103 demo_published) (λ '(_, c'),
    (states c' !! demo_root ≫= state_runner)
    = Some {| runner := 41; fingerprint := demo_fp; revalidate := false |}).
Proof.
  eapply wp_mono.
  - apply (install_within_limits demo_world demo_root 41 demo_fp 103 demo_published);
      [by apply (bool_decide_unpack (_ ≤ _)); vm_compute|reflexivity].
  - by intros [e c'] (? & _).
Defined.

Definition demo_refreshed : ProjectCache := require_full_rebuild demo_root 0 (new demo_limits).

Lemma full_rebuild_forgotten_witness :
  requires_full_rebuild demo_root demo_refreshed = true
  ∧ requires_full_rebuild demo_root
      (match finish_failed demo_world demo_root 1 demo_refreshed with
       | Done c => c | _ => demo_refreshed end) = false.
Proof.
  apply (full_rebuild_forgotten demo_world demo_root (new demo_limits) _
           (with_full_rebuild true (new_state 1 0))).
  - vm_compute. reflexivity.
  - reflexivity.
  - reflexivity.
  - vm_compute. reflexivity.
Defined.
