(* ===== verification/Shell.v ===== *)
(** * Shell: recorded shell commands

    Models [src/log_analysis/shell.rs]: splitting a recorded command line into words, redirections
    and command boundaries without evaluating it, finding the commands it runs, reading the
    options of a Maven command and classifying the others.  The data types come from
    [src/log_analysis.rs].  A [BTreeMap] of properties is a [gmap]; nothing here depends on its
    order. *)

From S2P Require Import Prelude.
From S2P Require Import Text.

Open Scope N_scope.

(** ** Data *)

Inductive Token :=
| Word (w : str)
| Boundary
| Redirect.
#[export] Instance Token_eq_dec : EqDecision Token.
Proof. solve_decision. Defined.

Record MavenCommand := {
  executable : str;
  lifecycle_goals : list str;
  plugin_goals : list str;
  modules : list str;
  also_make : bool;
  also_make_dependents : bool;
  resume_from : option str;
  pom_file : option str;
  tests : list str;
  profiles : list str;
  properties : gmap (list N) (list N);
}.

Inductive CommandCategory :=
| Maven
| JarInspection
| ClassInspection
| PomInspection
| ResourceInspection
| Shell.

(** ** Splitting a command line *)

(** The locals of [tokens]. *)
Record Scan := {
  result : list Token;
  word : str;
  started : bool;
  plain_word : bool;
  quote : option char;
  chars : str;
}.

Definition quote_is (q : string) (s : Scan) : bool := bool_decide (quote s = Some (ch q)).
Definition double_quote : char := 34.
Definition in_double (s : Scan) : bool := bool_decide (quote s = Some double_quote).
Definition unquoted (s : Scan) : bool := negb (is_some (quote s)).

Definition peek (p : char → bool) (s : str) : bool :=
  match s with c :: _ => p c | [] => false end.
(** [chars.next()] where the next character is known to be there. *)
Definition advance (s : str) : str := tail s.

Definition is_any (set : str) (c : char) : bool := existsb (N.eqb c) set.

(** The word read so far, if any, goes to the result. *)
Definition push_word (s : Scan) : list Token :=
  if started s then result s ++ [Word (word s)] else result s.

(** One turn of the [while] of [tokens]; [Break] leaves with the value of the function. *)
Definition escaped_turn (rest : str) (s : Scan) : exec (turn Scan (option (list Token))) :=
  match rest with
  | [] => Done (Break None)
  | next :: rest =>
      let kept := if in_double s && negb (is_any [ch "$"; ch "`"; double_quote; ch "\"] next)
                  then [ch "\"] else [] in
      if next =? 10 then
        Done (Continue {| result := result s; word := word s; started := started s;
                          plain_word := false; quote := quote s; chars := rest |})
      else
        Done (Continue {| result := result s; word := word s ++ kept ++ [next]; started := true;
                          plain_word := false; quote := quote s; chars := rest |})
  end.

Definition redirect_turn (c : char) (rest : str) (s : Scan) : exec (turn Scan (option (list Token))) :=
  let result := if started s && negb (plain_word s && forallb is_ascii_digit (word s))
                then result s ++ [Word (word s)] else result s in
  let rest :=
    if c =? ch "&" then
      let rest := advance rest in
      if peek (N.eqb (ch ">")) rest then advance rest else rest
    else if peek (λ next,
      (c =? ch ">") && is_any (lit ">|&") next || (c =? ch "<") && is_any (lit "&>") next) rest
    then advance rest
    else rest in
  Done (Continue {| result := result ++ [Redirect]; word := []; started := false;
                    plain_word := true; quote := quote s; chars := rest |}).

(** [for next in chars.by_ref()] up to the end of the line. *)
Fixpoint skip_line (s : str) : str :=
  match s with
  | [] => []
  | c :: s => if c =? 10 then s else skip_line s
  end.

Definition comment_turn (rest : str) (s : Scan) : exec (turn Scan (option (list Token))) :=
  Done (Continue {| result := result s ++ [Boundary]; word := word s; started := started s;
                    plain_word := plain_word s; quote := quote s; chars := skip_line rest |}).

Definition separator_turn (c : char) (rest : str) (s : Scan) : exec (turn Scan (option (list Token))) :=
  let boundary := if negb (is_whitespace c) || (c =? 10) then [Boundary] else [] in
  Done (Continue {| result := push_word s ++ boundary;
                    word := if started s then [] else word s;
                    started := false;
                    plain_word := if started s then true else plain_word s;
                    quote := quote s; chars := rest |}).

Definition tokens_turn (s : Scan) : exec (turn Scan (option (list Token))) :=
  match chars s with
  | [] => Done (Break (if is_some (quote s) then None else Some (push_word s)))
  | c :: rest =>
      if (c =? ch "\") && negb (quote_is "'" s) then escaped_turn rest s
      else if bool_decide (Some c = quote s) then
        Done (Continue {| result := result s; word := word s; started := started s;
                          plain_word := plain_word s; quote := None; chars := rest |})
      else if quote_is "'" s then
        Done (Continue {| result := result s; word := word s ++ [c]; started := started s;
                          plain_word := plain_word s; quote := quote s; chars := rest |})
      else if (c =? ch "`") || ((c =? ch "$") && peek (N.eqb (ch "(")) rest)
              || (unquoted s && (c =? ch "<") && peek (N.eqb (ch "<")) rest) then
        Done (Break None)
      else if unquoted s && ((c =? ch "'") || (c =? double_quote)) then
        Done (Continue {| result := result s; word := word s; started := true;
                          plain_word := false; quote := Some c; chars := rest |})
      else if unquoted s && (is_any (lit "<>") c || ((c =? ch "&") && peek (N.eqb (ch ">")) rest)) then
        redirect_turn c rest s
      else if unquoted s && (c =? ch "#") && negb (started s) then comment_turn rest s
      else if unquoted s && (is_whitespace c || is_any (lit ";|&()") c) then separator_turn c rest s
      else
        Done (Continue {| result := result s; word := word s ++ [c]; started := true;
                          plain_word := plain_word s; quote := quote s; chars := rest |})
  end.

Definition tokens (command : str) : exec (option (list Token)) :=
  loop (S (length command)) tokens_turn
    {| result := []; word := []; started := false; plain_word := true; quote := None;
       chars := command |}.

(** ** Commands *)

Definition executable_name (value : str) : str := last_piece (is_any (lit "/\")) value.

Definition assignment (word : str) : bool :=
  match split_once (ch "=") word with
  | Some (key, _) =>
      match key with
      | [] => false
      | c :: key =>
          ((c =? ch "_") || is_ascii_alphabetic c)
          && forallb (λ c, (c =? ch "_") || is_ascii_alphabetic c || is_ascii_digit c) key
      end
  | None => false
  end.

(** [slice::split] at the boundaries. *)
Fixpoint segments (l : list Token) : list (list Token) :=
  match l with
  | [] => [[]]
  | Boundary :: l => [] :: segments l
  | t :: l =>
      match segments l with
      | [] => [[t]]
      | segment :: rest => (t :: segment) :: rest
      end
  end.

(** The words of a segment without the redirection operands; [None] when one is missing. *)
Fixpoint segment_words (skip_target : bool) (segment : list Token) : option (list str) :=
  match segment with
  | [] => if skip_target then None else Some []
  | Redirect :: segment => segment_words true segment
  | Word w :: segment =>
      if skip_target then segment_words false segment
      else cons w <$> segment_words false segment
  | Boundary :: segment => segment_words skip_target segment
  end.

Fixpoint skip_while (p : str → bool) (words : list str) : list str :=
  match words with
  | w :: rest => if p w then skip_while p rest else words
  | [] => []
  end.

Definition env_argument (w : str) : bool :=
  assignment w || bool_decide (w ∈ [lit "-i"; lit "--ignore-environment"; lit "--"]).

Definition strip_environment (words : list str) : list str :=
  match skip_while assignment words with
  | w :: rest =>
      if bool_decide (executable_name w = lit "env") then skip_while env_argument rest
      else w :: rest
  | [] => []
  end.

Definition segment_invocation (segment : list Token) : list (list str) :=
  match segment_words false segment with
  | None => []
  | Some words =>
      match strip_environment words with
      | [] => []
      | invocation => [invocation]
      end
  end.

Definition invocations (command : str) : exec (list (list str)) :=
  ts ← tokens command;
  Done (match ts with
        | None => []
        | Some ts => segments ts ≫= segment_invocation
        end).

(** ** Maven options *)

Definition csv (value : str) : list str :=
  List.filter (λ v, negb (bool_decide (v = []))) (split_char (ch ",") value).

Definition LIFECYCLE : list str := lit <$> [
  "pre-clean"; "clean"; "post-clean"; "validate"; "initialize"; "generate-sources";
  "process-sources"; "generate-resources"; "process-resources"; "compile"; "process-classes";
  "generate-test-sources"; "process-test-sources"; "generate-test-resources";
  "process-test-resources"; "test-compile"; "process-test-classes"; "test"; "prepare-package";
  "package"; "pre-integration-test"; "integration-test"; "post-integration-test"; "verify";
  "install"; "deploy"; "pre-site"; "site"; "post-site"; "site-deploy"]%string.

Definition MAVEN_EXECUTABLES : list str :=
  lit <$> ["mvn"; "mvn.cmd"; "mvnw"; "mvnw.cmd"; "mvnd"; "mvnd.cmd"]%string.

(** Options whose separate argument is skipped. *)
Definition SKIPPED_OPTIONS : list str :=
  lit <$> ["-s"; "--settings"; "-gs"; "--global-settings"; "-t"; "--toolchains"; "-gt";
           "--global-toolchains"; "-T"; "--threads"; "-l"; "--log-file"; "-b"; "--builder";
           "-emp"; "--encrypt-master-password"; "-ep"; "--encrypt-password"]%string.

Definition default_command (executable : str) : MavenCommand := {|
  executable := executable;
  lifecycle_goals := [];
  plugin_goals := [];
  modules := [];
  also_make := false;
  also_make_dependents := false;
  resume_from := None;
  pom_file := None;
  tests := [];
  profiles := [];
  properties := ∅;
|}.

Definition set_also_make (c : MavenCommand) : MavenCommand := {|
  executable := executable c; lifecycle_goals := lifecycle_goals c; plugin_goals := plugin_goals c;
  modules := modules c; also_make := true; also_make_dependents := also_make_dependents c;
  resume_from := resume_from c; pom_file := pom_file c; tests := tests c; profiles := profiles c;
  properties := properties c |}.
Definition set_also_make_dependents (c : MavenCommand) : MavenCommand := {|
  executable := executable c; lifecycle_goals := lifecycle_goals c; plugin_goals := plugin_goals c;
  modules := modules c; also_make := also_make c; also_make_dependents := true;
  resume_from := resume_from c; pom_file := pom_file c; tests := tests c; profiles := profiles c;
  properties := properties c |}.
Definition add_modules (l : list str) (c : MavenCommand) : MavenCommand := {|
  executable := executable c; lifecycle_goals := lifecycle_goals c; plugin_goals := plugin_goals c;
  modules := modules c ++ l; also_make := also_make c; also_make_dependents := also_make_dependents c;
  resume_from := resume_from c; pom_file := pom_file c; tests := tests c; profiles := profiles c;
  properties := properties c |}.
Definition set_resume_from (v : str) (c : MavenCommand) : MavenCommand := {|
  executable := executable c; lifecycle_goals := lifecycle_goals c; plugin_goals := plugin_goals c;
  modules := modules c; also_make := also_make c; also_make_dependents := also_make_dependents c;
  resume_from := Some v; pom_file := pom_file c; tests := tests c; profiles := profiles c;
  properties := properties c |}.
Definition add_profiles (l : list str) (c : MavenCommand) : MavenCommand := {|
  executable := executable c; lifecycle_goals := lifecycle_goals c; plugin_goals := plugin_goals c;
  modules := modules c; also_make := also_make c; also_make_dependents := also_make_dependents c;
  resume_from := resume_from c; pom_file := pom_file c; tests := tests c; profiles := profiles c ++ l;
  properties := properties c |}.
(** [properties.insert], and the tests a test property selects. *)
Definition define (key value : str) (c : MavenCommand) : MavenCommand := {|
  executable := executable c; lifecycle_goals := lifecycle_goals c; plugin_goals := plugin_goals c;
  modules := modules c; also_make := also_make c; also_make_dependents := also_make_dependents c;
  resume_from := resume_from c; pom_file := pom_file c;
  tests := tests c ++ (if bool_decide (key ∈ [lit "test"; lit "it.test"]) then csv value else []);
  profiles := profiles c; properties := <[key := value]> (properties c) |}.
Definition set_pom_file (v : str) (c : MavenCommand) : MavenCommand := {|
  executable := executable c; lifecycle_goals := lifecycle_goals c; plugin_goals := plugin_goals c;
  modules := modules c; also_make := also_make c; also_make_dependents := also_make_dependents c;
  resume_from := resume_from c; pom_file := Some v; tests := tests c; profiles := profiles c;
  properties := properties c |}.
Definition add_lifecycle_goal (g : str) (c : MavenCommand) : MavenCommand := {|
  executable := executable c; lifecycle_goals := lifecycle_goals c ++ [g];
  plugin_goals := plugin_goals c; modules := modules c; also_make := also_make c;
  also_make_dependents := also_make_dependents c; resume_from := resume_from c;
  pom_file := pom_file c; tests := tests c; profiles := profiles c; properties := properties c |}.
Definition add_plugin_goal (g : str) (c : MavenCommand) : MavenCommand := {|
  executable := executable c; lifecycle_goals := lifecycle_goals c;
  plugin_goals := plugin_goals c ++ [g]; modules := modules c; also_make := also_make c;
  also_make_dependents := also_make_dependents c; resume_from := resume_from c;
  pom_file := pom_file c; tests := tests c; profiles := profiles c; properties := properties c |}.

(** The closure [argument]: the value of an option and the index afterwards.  A missing separate
    argument has moved the index all the same. *)
Definition argument (words : list str) (token : str) (index : nat) (short long : string)
    : option str * nat :=
  if bool_decide (token = lit short) || bool_decide (token = lit long) then
    (words !! S index, S index)
  else
    let attached :=
      match strip_prefix (lit long ++ lit "=") token with
      | Some v => Some v
      | None =>
          match strip_prefix (lit short) token with
          | Some [] | None => None
          | Some v => Some v
          end
      end in
    (trim_start_matches (N.eqb (ch "=")) <$> attached, index).

(** One word at [index]: the command so far and the index of the next word. *)
Definition option_step (words : list str) (token : str) (index : nat) (c : MavenCommand)
    : MavenCommand * nat :=
  if bool_decide (token = lit "-am") || bool_decide (token = lit "--also-make") then
    (set_also_make c, S index)
  else if bool_decide (token = lit "-amd") || bool_decide (token = lit "--also-make-dependents") then
    (set_also_make_dependents c, S index)
  else
    let '(value, index) := argument words token index "-pl" "--projects" in
    match value with
    | Some value => (add_modules (csv value) c, S index)
    | None =>
    let '(value, index) := argument words token index "-rf" "--resume-from" in
    match value with
    | Some value => (set_resume_from value c, S index)
    | None =>
    let '(value, index) := argument words token index "-P" "--activate-profiles" in
    match value with
    | Some value => (add_profiles (csv value) c, S index)
    | None =>
    let '(value, index) := argument words token index "-D" "--define" in
    match value with
    | Some value =>
        let '(key, value) := default (value, lit "true") (split_once (ch "=") value) in
        (define key value c, S index)
    | None =>
    if bool_decide (token ∈ [lit "-ff"; lit "-fae"; lit "-fn"]) then (c, S index)
    else
    let '(value, index) := argument words token index "-f" "--file" in
    match value with
    | Some value => (set_pom_file value c, S index)
    | None =>
    if bool_decide (token ∈ SKIPPED_OPTIONS) then (c, S (S index))
    else if bool_decide (token ∈ LIFECYCLE) then (add_lifecycle_goal token c, S index)
    else if negb (starts_with (lit "-") token) && contains_char (ch ":") token
            && negb (contains_char (ch "/") token) && negb (contains_char (ch "=") token) then
      (add_plugin_goal token c, S index)
    else (c, S index)
    end end end end end.

Definition parse_words (words : list str) (c : MavenCommand) : exec MavenCommand :=
  loop (S (length words)) (λ '(index, c),
    match words !! index with
    | None => Done (Break c)
    | Some token =>
        let '(c, index) := option_step words token index c in
        Done (Continue (index, c))
    end) (1%nat, c).

Definition head_name (words : list str) : str := executable_name (default [] (head words)).

Definition parse_maven_command (command : str) : exec (option MavenCommand) :=
  commands ← invocations command;
  match List.find (λ words, bool_decide (head_name words ∈ MAVEN_EXECUTABLES)) commands with
  | None => Done None
  | Some words => Some <$> parse_words words (default_command (head_name words))
  end.

(** ** Other commands *)

Definition INSPECTION_COMMANDS : list str :=
  lit <$> ["find"; "jar"; "unzip"; "javap"; "grep"; "rg"]%string.

Definition categorize (relevant : list (list str)) : CommandCategory :=
  match relevant with
  | [] => Shell
  | _ =>
      let lower := join (lit " ") (map to_ascii_lowercase <$> concat relevant) in
      let has (s : string) := contains (lit s) lower in
      let runs (names : list str) := existsb (λ words, bool_decide (head_name words ∈ names)) relevant in
      if runs [lit "javap"] || has ".class" then ClassInspection
      else if has "pom.xml" || has ".pom" then PomInspection
      else if has "meta-inf" || has "resources"
              || (has ".jar" && existsb has [".xml"; ".properties"; ".yaml"; ".yml"; ".json"]%string)
      then ResourceInspection
      else if has ".jar" || has ".m2" || runs [lit "jar"; lit "unzip"] then JarInspection
      else Shell
  end.

Definition repository_category (command : str) : exec CommandCategory :=
  commands ← invocations command;
  Done (categorize
          (List.filter (λ words, bool_decide (head_name words ∈ INSPECTION_COMMANDS)) commands)).

(** ** Lemmas: the scanner *)

Lemma skip_line_length s : (length (skip_line s) ≤ length s)%nat.
Proof. induction s as [|c s IH]; simpl; [done|]. case_match; lia. Qed.

(** Every turn ends the scan or consumes characters. *)
Lemma tokens_turn_shrinks s :
  wp (tokens_turn s) (λ t, match t with
                           | Continue s' => (length (chars s') < length (chars s))%nat
                           | Break _ => True
                           end).
Proof.
  unfold tokens_turn. destruct (chars s) as [|c rest] eqn:Hc; [done|].
  repeat case_match; simpl; try lia; try done.
  - unfold escaped_turn. destruct rest as [|next rest]; [done|]. case_match; simpl; lia.
  - unfold redirect_turn, advance. simpl.
    repeat case_match; simpl; destruct rest as [|? [|? ?]]; simpl; lia.
  - unfold comment_turn. simpl. pose proof (skip_line_length rest). lia.
Qed.

Definition scan (s : Scan) : exec (option (list Token)) := loop (S (length (chars s))) tokens_turn s.

Lemma scan_step s s' : tokens_turn s = Done (Continue s') → scan s = scan s'.
Proof.
  intros Hs. unfold scan. pose proof (tokens_turn_shrinks s) as Hlen. rewrite Hs in Hlen. simpl in Hlen.
  transitivity (loop (length (chars s)) tokens_turn s'); [cbn [loop]; by rewrite Hs|].
  apply (loop_fuel (λ s, length (chars s))); [|lia..].
  intros s1 s2 H12. pose proof (tokens_turn_shrinks s1) as H. by rewrite H12 in H.
Qed.

Lemma scan_break s r : tokens_turn s = Done (Break r) → scan s = Done r.
Proof. intros Hs. unfold scan. cbn [loop]. by rewrite Hs. Qed.

Lemma tokens_ends command : total (tokens command).
Proof.
  unfold tokens. apply (wp_loop (λ _, True) (λ s, length (chars s))); [|done|simpl; lia].
  intros s _. eapply wp_mono; [apply tokens_turn_shrinks|]. by intros [s'|r].
Qed.

(** ** Lemmas: quoted words *)

(** Quoting a word for a POSIX shell. *)
Definition quote_char (c : char) : str := if c =? ch "'" then lit "'\''" else [c].
Definition shell_quote (w : str) : str := lit "'" ++ (w ≫= quote_char) ++ lit "'".

(** A scan between two words, and one inside a single-quoted part. *)
Definition between_words (res : list Token) (rest : str) : Scan :=
  {| result := res; word := []; started := false; plain_word := true; quote := None; chars := rest |}.
Definition inside_quotes (res : list Token) (w rest : str) : Scan :=
  {| result := res; word := w; started := true; plain_word := false; quote := Some (ch "'");
     chars := rest |}.
Definition after_quotes (res : list Token) (w rest : str) : Scan :=
  {| result := res; word := w; started := true; plain_word := false; quote := None; chars := rest |}.

Lemma scan_open res rest :
  scan (between_words res (lit "'" ++ rest)) = scan (inside_quotes res [] rest).
Proof. by apply scan_step. Qed.

Lemma scan_close res w rest : scan (inside_quotes res w (lit "'" ++ rest)) = scan (after_quotes res w rest).
Proof. by apply scan_step. Qed.

Lemma scan_reopen res w rest :
  scan (after_quotes res w (lit "\''" ++ rest)) = scan (inside_quotes res (w ++ lit "'") rest).
Proof.
  rewrite (scan_step _ (after_quotes res (w ++ lit "'") (lit "'" ++ rest))) by done. by apply scan_step.
Qed.

Lemma scan_quoted_char res w c rest :
  scan (inside_quotes res w (quote_char c ++ rest)) = scan (inside_quotes res (w ++ [c]) rest).
Proof.
  unfold quote_char. destruct (N.eqb_spec c (ch "'")) as [->|Hc].
  - change (lit "'\''" ++ rest) with (lit "'" ++ (lit "\''" ++ rest)).
    rewrite scan_close. apply scan_reopen.
  - apply scan_step. unfold tokens_turn. cbn [chars inside_quotes app].
    assert (quote_is "'" (inside_quotes res w (c :: rest)) = true) as -> by done.
    rewrite andb_false_r. rewrite bool_decide_false; [done|]. cbn [quote inside_quotes]. congruence.
Qed.

Lemma scan_quoted res w v rest :
  scan (inside_quotes res w ((v ≫= quote_char) ++ rest)) = scan (inside_quotes res (w ++ v) rest).
Proof.
  revert w. induction v as [|c v IH]; intros w; [by rewrite app_nil_r|].
  csimpl. rewrite <- app_assoc, scan_quoted_char, IH. by rewrite <- app_assoc.
Qed.

Lemma scan_word res w rest :
  scan (between_words res (shell_quote w ++ rest)) = scan (after_quotes res w rest).
Proof.
  unfold shell_quote. rewrite <- !app_assoc. by rewrite scan_open, scan_quoted, scan_close.
Qed.

Lemma scan_space res w rest :
  scan (after_quotes res w (lit " " ++ rest)) = scan (between_words (res ++ [Word w]) rest).
Proof.
  rewrite (scan_step _ (between_words ((res ++ [Word w]) ++ []) rest)) by done. by rewrite app_nil_r.
Qed.

Lemma scan_words res ws :
  scan (between_words res (join (lit " ") (shell_quote <$> ws))) = Done (Some (res ++ (Word <$> ws))).
Proof.
  revert res. induction ws as [|w ws IH]; intros res; csimpl.
  - rewrite app_nil_r. by apply scan_break.
  - destruct ws as [|w' ws].
    + csimpl. rewrite <- (app_nil_r (shell_quote w)), scan_word. by apply scan_break.
    + change (scan (between_words res (shell_quote w ++ lit " " ++ join (lit " ") (shell_quote <$> w' :: ws)))
              = Done (Some (res ++ Word w :: (Word <$> w' :: ws)))).
      rewrite scan_word, scan_space, IH. by rewrite <- app_assoc.
Qed.

Lemma tokens_quoted ws : tokens (join (lit " ") (shell_quote <$> ws)) = Done (Some (Word <$> ws)).
Proof. apply (scan_words []). Qed.

(** ** Lemmas: invocations *)

Lemma segments_words ws : segments (Word <$> ws) = [Word <$> ws].
Proof. induction ws as [|w ws IH]; [done|]. csimpl. by rewrite IH. Qed.

Lemma segment_words_words ws : segment_words false (Word <$> ws) = Some ws.
Proof. induction ws as [|w ws IH]; [done|]. csimpl. by rewrite IH. Qed.

Lemma invocations_ends command : total (invocations command).
Proof. unfold invocations. call_total tokens_ends. done. Qed.

(** A word that is neither an assignment nor [env] is the command. *)
Definition plain_command (w : str) : bool :=
  negb (assignment w) && negb (bool_decide (executable_name w = lit "env")).

Lemma invocations_quoted w ws :
  plain_command w = true →
  invocations (join (lit " ") (shell_quote <$> w :: ws)) = Done [w :: ws].
Proof.
  unfold plain_command. rewrite andb_true_iff, !negb_true_iff. intros [Hassign Henv].
  unfold invocations. rewrite tokens_quoted. cbn [mbind exec_bind]. rewrite segments_words.
  unfold segment_invocation. csimpl. change (Word w :: (Word <$> ws)) with (Word <$> w :: ws).
  rewrite segment_words_words. unfold strip_environment. cbn [fmap option_fmap option_map skip_while].
  by rewrite Hassign, Henv.
Qed.

(** ** Lemmas: reading options *)

Definition parse_turn (words : list str) : nat * MavenCommand → exec (turn (nat * MavenCommand) MavenCommand) :=
  λ '(index, c),
    match words !! index with
    | None => Done (Break c)
    | Some token =>
        let '(c, index) := option_step words token index c in
        Done (Continue (index, c))
    end.

(** The loop of [parse_words] from a word on. *)
Definition parse_at (words : list str) (i : nat) (c : MavenCommand) : exec MavenCommand :=
  loop (S (length words - i)) (parse_turn words) (i, c).

Lemma argument_index words token i short long : (i ≤ (argument words token i short long).2)%nat.
Proof. unfold argument. case_match; simpl; lia. Qed.

Lemma option_step_index words token i c : (i < (option_step words token i c).2)%nat.
Proof.
  unfold option_step.
  repeat match goal with
  | |- context [let '(_, _) := argument ?w ?t ?i ?s ?l in _] =>
      pose proof (argument_index w t i s l); destruct (argument w t i s l) as [? ?]; simpl in *
  | |- context [match ?x with _ => _ end] => destruct x; simpl in *
  end; lia.
Qed.

Lemma parse_turn_shrinks words i c i' c' :
  parse_turn words (i, c) = Done (Continue (i', c')) → (length words - i' < length words - i)%nat.
Proof.
  unfold parse_turn. destruct (words !! i) as [token|] eqn:Hi; [|done].
  pose proof (option_step_index words token i c). destruct (option_step words token i c) as [c1 i1].
  intros [= <- <-]. apply lookup_lt_Some in Hi. simpl in *. lia.
Qed.

Lemma parse_words_at words c : (0 < length words)%nat → parse_words words c = parse_at words 1 c.
Proof.
  intros Hlen. apply (loop_fuel (λ '(i, _), (length words - i)%nat)); [|simpl; lia..].
  intros [i s] [i' s']. apply parse_turn_shrinks.
Qed.

Lemma parse_step words i c token c' i' :
  words !! i = Some token → option_step words token i c = (c', i') →
  parse_at words i c = parse_at words i' c'.
Proof.
  intros Hi Hstep. unfold parse_at. assert (i < length words)%nat by by eapply lookup_lt_Some.
  pose proof (option_step_index words token i c) as Hlt. rewrite Hstep in Hlt. simpl in Hlt.
  transitivity (loop (length words - i) (parse_turn words) (i', c')).
  - cbn [loop].
    assert (parse_turn words (i, c) = Done (Continue (i', c'))) as ->; [|done].
    unfold parse_turn. by rewrite Hi, Hstep.
  - apply (loop_fuel (λ '(i, _), (length words - i)%nat)); [|simpl; lia..].
    intros [j s] [j' s']. apply parse_turn_shrinks.
Qed.

Lemma parse_end words i c : words !! i = None → parse_at words i c = Done c.
Proof.
  intros Hi. unfold parse_at. cbn [loop].
  assert (parse_turn words (i, c) = Done (Break c)) as -> by (unfold parse_turn; by rewrite Hi). done.
Qed.

Lemma parse_words_ends words c : total (parse_words words c).
Proof.
  unfold parse_words.
  apply (wp_loop (λ _, True) (λ '(i, _), (length words - i)%nat)); [|done|simpl; lia].
  intros [i c'] _. destruct (parse_turn words (i, c')) as [[[i' s]|r]| |] eqn:E.
  - unfold parse_turn in E. rewrite E. cbn [wp]. split; [done|by eapply parse_turn_shrinks].
  - unfold parse_turn in E. by rewrite E.
  - unfold parse_turn in E. destruct (words !! i); [destruct (option_step _ _ _ _)|]; discriminate.
  - unfold parse_turn in E. destruct (words !! i); [destruct (option_step _ _ _ _)|]; discriminate.
Qed.

(** Reading the words [opts], wherever they stand, changes the command by [f]. *)
Definition reads (opts : list str) (f : MavenCommand → MavenCommand) : Prop :=
  ∀ pre post c, parse_at (pre ++ opts ++ post) (length pre) c
                = parse_at (pre ++ opts ++ post) (length pre + length opts) (f c).

Lemma reads_nil : reads [] id.
Proof. intros pre post c. by rewrite Nat.add_0_r. Qed.

Lemma reads_app o1 o2 f g : reads o1 f → reads o2 g → reads (o1 ++ o2) (g ∘ f).
Proof.
  intros H1 H2 pre post c. rewrite <- app_assoc, H1.
  pose proof (H2 (pre ++ o1) post (f c)) as Hg. rewrite length_app, <- !app_assoc in Hg.
  rewrite Hg. f_equal. rewrite length_app. lia.
Qed.

Lemma reads_one token f :
  (∀ words i c, option_step words token i c = (f c, S i)) → reads [token] f.
Proof.
  intros Hstep pre post c. eapply parse_step.
  - rewrite lookup_app_r, Nat.sub_diag by lia. done.
  - rewrite Hstep. simpl. f_equal. lia.
Qed.

Lemma reads_two token value f :
  (∀ words i c, words !! S i = Some value → option_step words token i c = (f c, S (S i))) →
  reads [token; value] f.
Proof.
  intros Hstep pre post c. eapply parse_step.
  - rewrite lookup_app_r, Nat.sub_diag by lia. done.
  - rewrite Hstep.
    + simpl. f_equal. lia.
    + rewrite lookup_app_r by lia. by replace (S (length pre) - length pre)%nat with 1%nat by lia.
Qed.

Lemma reads_all {A} (word_of : A → str) (f : A → MavenCommand → MavenCommand) l :
  (∀ a, a ∈ l → reads [word_of a] (f a)) → reads (word_of <$> l) (λ c, foldl (λ c a, f a c) c l).
Proof.
  induction l as [|a l IH]; intros Hl; [apply reads_nil|].
  refine (reads_app [word_of a] (fmap (M:=list) word_of l) (f a) (λ c, foldl (λ c a, f a c) c l) _ _);
    [apply Hl; by left|].
  apply IH. intros b Hb. apply Hl. by right.
Qed.

Lemma argument_other words token i short long :
  token ≠ lit short → token ≠ lit long → strip_prefix (lit long ++ lit "=") token = None →
  strip_prefix (lit short) token = None → argument words token i short long = (None, i).
Proof.
  intros H1 H2 H3 H4. unfold argument. rewrite !bool_decide_false by done. cbn [orb]. by rewrite H3, H4.
Qed.

(** A word that is no option is not the option of any argument. *)
Lemma argument_goal words token i short long :
  starts_with (lit "-") token = false → starts_with (lit "-") (lit short) = true →
  starts_with (lit "-") (lit long) = true → argument words token i short long = (None, i).
Proof.
  intros Ht Hs Hl. apply starts_with_spec in Hs as [s Hs]. apply starts_with_spec in Hl as [l Hl].
  assert (∀ p, strip_prefix (lit "-" ++ p) token = None) as Hno.
  { intros p. destruct (strip_prefix (lit "-" ++ p) token) as [t|] eqn:E; [|done].
    apply strip_prefix_spec in E. rewrite E in Ht.
    assert (starts_with (lit "-") ((lit "-" ++ p) ++ t) = true) as H; [|congruence].
    apply starts_with_spec. exists (p ++ t). by rewrite <- app_assoc. }
  apply argument_other.
  - intros ->. rewrite Hs in Ht. done.
  - intros ->. rewrite Hl in Ht. done.
  - rewrite Hl, <- app_assoc. apply Hno.
  - rewrite Hs. apply Hno.
Qed.

Lemma argument_separate words token i short long :
  token = lit short → argument words token i short long = (words !! S i, S i).
Proof. intros ->. unfold argument. by rewrite bool_decide_true. Qed.

(** Runs [option_step] on a closed option word, up to the option that takes it; [Hv] gives the
    separate argument. *)
Ltac read_option Hv :=
  unfold option_step; rewrite !bool_decide_false by done; cbn [orb];
  repeat (rewrite argument_other by done; cbv beta iota zeta);
  rewrite ?bool_decide_false by done; cbv beta iota zeta;
  rewrite argument_separate by done; rewrite Hv.

Lemma reads_modules v : reads [lit "-pl"; v] (add_modules (csv v)).
Proof. apply reads_two. intros words i c Hv. by read_option Hv. Qed.

Lemma reads_resume v : reads [lit "-rf"; v] (set_resume_from v).
Proof. apply reads_two. intros words i c Hv. by read_option Hv. Qed.

Lemma reads_profiles v : reads [lit "-P"; v] (add_profiles (csv v)).
Proof. apply reads_two. intros words i c Hv. by read_option Hv. Qed.

Lemma reads_file v : reads [lit "-f"; v] (set_pom_file v).
Proof. apply reads_two. intros words i c Hv. by read_option Hv. Qed.

Lemma reads_also_make : reads [lit "-am"] set_also_make.
Proof. by apply reads_one. Qed.

Lemma reads_also_make_dependents : reads [lit "-amd"] set_also_make_dependents.
Proof. by apply reads_one. Qed.

(** [-Dkey=value] in one word. *)
Definition definition_word (kv : str * str) : str := lit "-D" ++ kv.1 ++ lit "=" ++ kv.2.

Lemma split_once_key k v : contains_char (ch "=") k = false → split_once (ch "=") (k ++ lit "=" ++ v) = Some (k, v).
Proof.
  induction k as [|c k IH]; intros Hk; [done|]. cbn [contains_char existsb] in Hk.
  apply orb_false_iff in Hk as [Hc Hk]. cbn [split_once app]. rewrite N.eqb_sym, Hc.
  unfold contains_char in IH. by rewrite IH.
Qed.

Lemma reads_definition k v :
  k ≠ [] → contains_char (ch "=") k = false → reads [definition_word (k, v)] (define k v).
Proof.
  intros Hk Heq. apply reads_one. intros words i c. unfold option_step, definition_word. cbn [fst snd].
  rewrite !bool_decide_false by done. cbn [orb].
  rewrite !(argument_other _ _ _ "-pl") by done.
  rewrite !(argument_other _ _ _ "-rf") by done.
  rewrite !(argument_other _ _ _ "-P") by done.
  assert (argument words (lit "-D" ++ k ++ lit "=" ++ v) i "-D" "--define" = (Some (k ++ lit "=" ++ v), i)) as ->.
  { unfold argument. rewrite !bool_decide_false; [|done|by destruct k as [|? [|]]]. cbn [orb].
    assert (strip_prefix (lit "--define" ++ lit "=") (lit "-D" ++ k ++ lit "=" ++ v) = None) as -> by done.
    rewrite (proj2 (strip_prefix_spec (lit "-D") _ _) eq_refl).
    destruct k as [|x k]; [done|]. cbn [app]. cbn [contains_char existsb] in Heq.
    apply orb_false_iff in Heq as [Hx _].
    change (fmap (M:=option) (trim_start_matches (N.eqb (ch "="))) (Some (x :: k ++ lit "=" ++ v)))
      with (Some (if ch "=" =? x then trim_start_matches (N.eqb (ch "=")) (k ++ lit "=" ++ v)
                  else x :: k ++ lit "=" ++ v)).
    by rewrite Hx. }
  by rewrite split_once_key.
Qed.

Lemma reads_lifecycle g : g ∈ LIFECYCLE → reads [g] (add_lifecycle_goal g).
Proof.
  intros Hg. apply reads_one. intros words i c. unfold LIFECYCLE in Hg.
  apply list_elem_of_fmap in Hg as (s & -> & Hs).
  repeat (apply elem_of_cons in Hs as [->|Hs]; [reflexivity|]). by apply not_elem_of_nil in Hs.
Qed.

(** A plugin goal such as [help:effective-pom]. *)
Definition plugin_goal (g : str) : bool :=
  negb (starts_with (lit "-") g) && contains_char (ch ":") g
  && negb (contains_char (ch "/") g) && negb (contains_char (ch "=") g).

Lemma starts_dash_ne g s : starts_with (lit "-") g = false → starts_with (lit "-") s = true → g ≠ s.
Proof. intros H1 H2 ->. congruence. Qed.

Lemma reads_plugin g : plugin_goal g = true → reads [g] (add_plugin_goal g).
Proof.
  unfold plugin_goal. rewrite !andb_true_iff, !negb_true_iff. intros [[[Hdash Hcolon] Hslash] Heq].
  apply reads_one. intros words i c. unfold option_step.
  rewrite !(argument_goal _ _ _ _ _ Hdash) by done. rewrite Hdash, Hcolon, Hslash, Heq. cbn [negb andb].
  assert (∀ l, forallb (starts_with (lit "-")) l = true → bool_decide (g ∈ l) = false) as Hno.
  { intros l Hl. apply bool_decide_eq_false. intros Hin. rewrite forallb_forall in Hl.
    apply list_elem_of_In, Hl in Hin. congruence. }
  assert (∀ s, starts_with (lit "-") s = true → bool_decide (g = s) = false) as Hne.
  { intros s Hs. apply bool_decide_eq_false. by apply starts_dash_ne. }
  rewrite !Hne, !Hno by done. cbn [orb].
  assert (bool_decide (g ∈ LIFECYCLE) = false) as ->; [|done].
  apply bool_decide_eq_false. intros Hin.
  assert (forallb (λ g, negb (contains_char (ch ":") g)) LIFECYCLE = true) as Hl by reflexivity.
  rewrite forallb_forall in Hl. apply list_elem_of_In, Hl in Hin. by rewrite Hcolon in Hin.
Qed.

Lemma csv_join l :
  l ≠ [] → Forall (λ v, v ≠ [] ∧ contains_char (ch ",") v = false) l → csv (join (lit ",") l) = l.
Proof.
  intros Hne Hl. unfold csv.
  assert (split_char (ch ",") (join (lit ",") l) = l) as ->.
  { clear -Hne Hl. induction Hl as [|v l [_ Hv] Hl IH]; [done|].
    apply existsb_false_Forall in Hv. destruct l as [|v' l].
    - by apply split_at_last.
    - change (split_at (N.eqb (ch ",")) (v ++ ch "," :: join (lit ",") (v' :: l)) = v :: v' :: l).
      rewrite split_at_piece by done. f_equal. by apply IH. }
  induction Hl as [|v l [Hv _] Hl IH]; [done|]. cbn [List.filter].
  rewrite bool_decide_false by done. cbn [negb]. f_equal. destruct l; [done|]. by apply IH.
Qed.

(** ** Specification: a printed Maven command *)

(** The words that ask for a Maven command, one way among many. *)
Definition listed (opt : string) (l : list str) : list str :=
  match l with [] => [] | _ => [lit opt; join (lit ",") l] end.
Definition valued (opt : string) (v : option str) : list str :=
  match v with Some v => [lit opt; v] | None => [] end.
Definition flag (opt : string) (b : bool) : list str := if b then [lit opt] else [].

Definition command_words (c : MavenCommand) : list str :=
  listed "-pl" (modules c) ++ flag "-am" (also_make c) ++ flag "-amd" (also_make_dependents c)
  ++ valued "-rf" (resume_from c) ++ listed "-P" (profiles c) ++ valued "-f" (pom_file c)
  ++ (definition_word <$> map_to_list (properties c))
  ++ (lifecycle_goals c ++ plugin_goals c).

Definition print_command (c : MavenCommand) : str :=
  join (lit " ") (shell_quote <$> executable c :: command_words c).

(** The tests its properties select. *)
Definition selected_tests (l : list (str * str)) : list str :=
  l ≫= λ '(k, v), if bool_decide (k ∈ [lit "test"; lit "it.test"]) then csv v else [].

Definition list_item (v : str) : Prop := v ≠ [] ∧ contains_char (ch ",") v = false.

Record printable (c : MavenCommand) : Prop := {
  pr_executable : executable c ∈ MAVEN_EXECUTABLES;
  pr_modules : Forall list_item (modules c);
  pr_profiles : Forall list_item (profiles c);
  pr_keys k v : properties c !! k = Some v → k ≠ [] ∧ contains_char (ch "=") k = false;
  pr_lifecycle : Forall (λ g, g ∈ LIFECYCLE) (lifecycle_goals c);
  pr_plugin : Forall (λ g, plugin_goal g = true) (plugin_goals c);
  pr_tests : tests c = selected_tests (map_to_list (properties c));
}.

(** ** Lemmas: a printed command reads back *)

Lemma reads_ext opts f g : (∀ c, f c = g c) → reads opts f → reads opts g.
Proof. intros Hfg Hf pre post c. by rewrite Hf, Hfg. Qed.

Lemma reads_listed opt l f :
  (∀ v, reads [lit opt; v] (f (csv v))) → (∀ c, f [] c = c) → Forall list_item l →
  reads (listed opt l) (f l).
Proof.
  intros Hone Hnil Hl. destruct l as [|v l].
  - by apply (reads_ext [] id); [|apply reads_nil].
  - specialize (Hone (join (lit ",") (v :: l))). by rewrite csv_join in Hone.
Qed.

Lemma reads_valued opt v f :
  (∀ x, reads [lit opt; x] (f x)) →
  reads (valued opt v) (λ c, match v with Some x => f x c | None => c end).
Proof. intros Hone. destruct v; [apply Hone|apply reads_nil]. Qed.

Lemma reads_flag opt (b : bool) f :
  reads [lit opt] f → reads (flag opt b) (λ c, if b then f c else c).
Proof. intros Hone. destruct b; [done|apply reads_nil]. Qed.

Definition read_all (c : MavenCommand) (c0 : MavenCommand) : MavenCommand :=
  let c1 := add_modules (modules c) c0 in
  let c2 := if also_make c then set_also_make c1 else c1 in
  let c3 := if also_make_dependents c then set_also_make_dependents c2 else c2 in
  let c4 := match resume_from c with Some x => set_resume_from x c3 | None => c3 end in
  let c5 := add_profiles (profiles c) c4 in
  let c6 := match pom_file c with Some x => set_pom_file x c5 | None => c5 end in
  let c7 := foldl (λ c '(k, v), define k v c) c6 (map_to_list (properties c)) in
  foldl (λ c g, add_plugin_goal g c) (foldl (λ c g, add_lifecycle_goal g c) c7 (lifecycle_goals c))
    (plugin_goals c).

Lemma add_modules_nil c : add_modules [] c = c.
Proof. destruct c. unfold add_modules. cbn. by rewrite app_nil_r. Qed.
Lemma add_profiles_nil c : add_profiles [] c = c.
Proof. destruct c. unfold add_profiles. cbn. by rewrite app_nil_r. Qed.

Lemma command_words_read c : printable c → reads (command_words c) (read_all c).
Proof.
  intros []. unfold command_words.
  pose proof (reads_listed "-pl" (modules c) add_modules reads_modules add_modules_nil ltac:(done)) as R1.
  pose proof (reads_flag "-am" (also_make c) _ reads_also_make) as R2.
  pose proof (reads_flag "-amd" (also_make_dependents c) _ reads_also_make_dependents) as R3.
  pose proof (reads_valued "-rf" (resume_from c) _ reads_resume) as R4.
  pose proof (reads_listed "-P" (profiles c) add_profiles reads_profiles add_profiles_nil ltac:(done)) as R5.
  pose proof (reads_valued "-f" (pom_file c) _ reads_file) as R6.
  assert (reads (definition_word <$> map_to_list (properties c))
            (λ c0, foldl (λ c '(k, v), define k v c) c0 (map_to_list (properties c)))) as R7.
  { eapply reads_ext; [|apply (reads_all definition_word (λ '(k, v), define k v))].
    - intros c0. clear. revert c0. generalize (map_to_list (properties c)) as l.
      induction l as [|[k v] l IH]; intros c0; [done|]. apply IH.
    - intros [k v] Hkv%elem_of_map_to_list. apply reads_definition; by eapply pr_keys0. }
  assert (∀ l, Forall (λ g, g ∈ LIFECYCLE) l →
            reads l (λ c, foldl (λ c g, add_lifecycle_goal g c) c l)) as R8.
  { intros l Hl. rewrite <- (list_fmap_id l) at 1. apply (reads_all (λ g, g) add_lifecycle_goal).
    intros g Hg. apply reads_lifecycle. by eapply Forall_forall in Hl. }
  assert (∀ l, Forall (λ g, plugin_goal g = true) l →
            reads l (λ c, foldl (λ c g, add_plugin_goal g c) c l)) as R9.
  { intros l Hl. rewrite <- (list_fmap_id l) at 1. apply (reads_all (λ g, g) add_plugin_goal).
    intros g Hg. apply reads_plugin. by eapply Forall_forall in Hl. }
  specialize (R8 _ pr_lifecycle0). specialize (R9 _ pr_plugin0).
  exact (reads_app _ _ _ _ R1 (reads_app _ _ _ _ R2 (reads_app _ _ _ _ R3 (reads_app _ _ _ _ R4
          (reads_app _ _ _ _ R5 (reads_app _ _ _ _ R6 (reads_app _ _ _ _ R7
          (reads_app _ _ _ _ R8 R9)))))))).
Qed.

Lemma foldl_define l c :
  NoDup l.*1 →
  foldl (λ c '(k, v), define k v c) c l
  = {| executable := executable c; lifecycle_goals := lifecycle_goals c;
       plugin_goals := plugin_goals c; modules := modules c; also_make := also_make c;
       also_make_dependents := also_make_dependents c; resume_from := resume_from c;
       pom_file := pom_file c; tests := tests c ++ selected_tests l; profiles := profiles c;
       properties := list_to_map l ∪ properties c |}.
Proof.
  revert c. induction l as [|[k v] l IH]; intros c Hnd; csimpl.
  - rewrite app_nil_r, (left_id_L ∅ (∪)). by destruct c.
  - apply NoDup_cons in Hnd as [Hk Hnd]. rewrite IH by done. unfold define. cbn. f_equal.
    + unfold selected_tests. csimpl. by rewrite <- app_assoc.
    + rewrite <- insert_union_r; [by rewrite insert_union_l|]. by apply not_elem_of_list_to_map_1.
Qed.

Lemma foldl_lifecycle l c :
  foldl (λ c g, add_lifecycle_goal g c) c l
  = {| executable := executable c; lifecycle_goals := lifecycle_goals c ++ l;
       plugin_goals := plugin_goals c; modules := modules c; also_make := also_make c;
       also_make_dependents := also_make_dependents c; resume_from := resume_from c;
       pom_file := pom_file c; tests := tests c; profiles := profiles c; properties := properties c |}.
Proof.
  revert c. induction l as [|g l IH]; intros c; csimpl; [rewrite app_nil_r; by destruct c|].
  rewrite IH. cbn. by rewrite <- app_assoc.
Qed.

Lemma foldl_plugin l c :
  foldl (λ c g, add_plugin_goal g c) c l
  = {| executable := executable c; lifecycle_goals := lifecycle_goals c;
       plugin_goals := plugin_goals c ++ l; modules := modules c; also_make := also_make c;
       also_make_dependents := also_make_dependents c; resume_from := resume_from c;
       pom_file := pom_file c; tests := tests c; profiles := profiles c; properties := properties c |}.
Proof.
  revert c. induction l as [|g l IH]; intros c; csimpl; [rewrite app_nil_r; by destruct c|].
  rewrite IH. cbn. by rewrite <- app_assoc.
Qed.

Lemma read_all_default c : printable c → read_all c (default_command (executable c)) = c.
Proof.
  intros [_ _ _ _ _ _ Ht]. unfold read_all. rewrite foldl_plugin, foldl_lifecycle, foldl_define;
    [|apply NoDup_fst_map_to_list].
  rewrite list_to_map_to_list. destruct c as [e lg pg m am amd rf pf ts ps props]. cbn in *. subst ts.
  destruct am, amd, rf, pf; cbn; by rewrite (right_id_L ∅ (∪)).
Qed.

Lemma executable_plain e :
  e ∈ MAVEN_EXECUTABLES → plain_command e = true ∧ executable_name e = e.
Proof.
  unfold MAVEN_EXECUTABLES. intros (s & -> & Hs)%list_elem_of_fmap.
  repeat (apply elem_of_cons in Hs as [->|Hs]; [by split|]). by apply not_elem_of_nil in Hs.
Qed.

(** ** Lemmas: descriptors *)

(** The scan of an unquoted word of digits. *)
Definition digits_state (res : list Token) (w : str) (started plain : bool) (rest : str) : Scan :=
  {| result := res; word := w; started := started; plain_word := plain; quote := None; chars := rest |}.

Lemma scan_digit res w b plain c rest :
  is_ascii_digit c = true →
  scan (digits_state res w b plain (c :: rest)) = scan (digits_state res (w ++ [c]) true plain rest).
Proof.
  intros Hc. unfold is_ascii_digit, between in Hc. rewrite andb_true_iff, !N.leb_le in Hc.
  assert (∃ n, (n < 10)%nat ∧ c = 48 + N.of_nat n) as (n & Hn & ->).
  { exists (N.to_nat (c - 48)). split; lia. }
  do 10 (destruct n as [|n]; [by apply scan_step|]). lia.
Qed.

Lemma scan_digits res w b plain ds rest :
  ds ≠ [] → Forall (λ c, is_ascii_digit c = true) ds →
  scan (digits_state res w b plain (ds ++ rest)) = scan (digits_state res (w ++ ds) true plain rest).
Proof.
  intros Hne Hds. revert w b Hne. induction Hds as [|c ds Hc Hds IH]; intros w b Hne; [done|].
  cbn [app]. rewrite scan_digit by done. destruct ds as [|d ds]; [done|].
  rewrite IH by done. by rewrite <- app_assoc.
Qed.

(** ** Properties *)

(** Reading any recorded command line ends and panics nowhere: splitting it, finding the Maven
    command in it and classifying it. *)
Theorem commands_total command :
  total (tokens command) ∧ total (parse_maven_command command) ∧ total (repository_category command).
Proof.
  split; [apply tokens_ends|split].
  - unfold parse_maven_command. call_total invocations_ends.
    destruct (List.find _ _); [|done]. apply total_fmap, parse_words_ends.
  - unfold repository_category. call_total invocations_ends. done.
Qed.

(** Quoting protects: any words whatever, single-quoted for the shell and joined with spaces,
    are split into exactly those words and nothing else. *)
Theorem quoted_words_split ws :
  tokens (join (lit " ") (shell_quote <$> ws)) = Done (Some (Word <$> ws)).
Proof. apply tokens_quoted. Qed.

(** Round trip: a Maven command printed with quoted words reads back as the same command, with
    its goals, modules, profiles, options, properties and the tests these select. *)
Theorem print_parse c : printable c → parse_maven_command (print_command c) = Done (Some c).
Proof.
  intros Hc. destruct (executable_plain _ (pr_executable _ Hc)) as [Hplain Hname].
  unfold parse_maven_command, print_command. rewrite invocations_quoted by done.
  assert (head_name (executable c :: command_words c) = executable c) as Hhead by exact Hname.
  cbn [mbind exec_bind List.find]. rewrite Hhead, bool_decide_true by apply Hc. rewrite Hhead,  parse_words_at by (simpl; lia).
  pose proof (command_words_read c Hc [executable c] [] (default_command (executable c))) as Hread.
  rewrite app_nil_r in Hread. cbn [app length] in Hread. rewrite Hread, read_all_default by done.
  rewrite parse_end; [done|]. apply lookup_ge_None. simpl. lia.
Qed.

(** The four spellings of an option with a value - separate or attached, short or long - give the
    same value, for every such option and every value that does not begin with an equals sign. *)
Theorem option_spellings short long v words i :
  (short, long) ∈ [("-pl", "--projects"); ("-rf", "--resume-from"); ("-P", "--activate-profiles");
                   ("-D", "--define"); ("-f", "--file")]%string →
  v ≠ [] → starts_with (lit "=") v = false → words !! S i = Some v →
  (argument words (lit short) i short long).1 = Some v
  ∧ (argument words (lit long) i short long).1 = Some v
  ∧ (argument words (lit short ++ v) i short long).1 = Some v
  ∧ (argument words (lit long ++ lit "=" ++ v) i short long).1 = Some v.
Proof.
  intros Hin Hv Heq Hnext.
  assert (trim_start_matches (N.eqb (ch "=")) v = v) as Htrim.
  { destruct v as [|x v]; [done|]. cbn [trim_start_matches]. 
    change ((ch "=" =? x) && true = false) in Heq. rewrite andb_true_r in Heq. by rewrite Heq. }
  split_and!.
  - by rewrite argument_separate.
  - unfold argument. by rewrite (bool_decide_true (lit long = lit long)), orb_true_r.
  - unfold argument. rewrite bool_decide_false by (intros H; apply Hv, (app_inv_head (lit short)); by rewrite app_nil_r).
    rewrite bool_decide_false.
    + cbn [orb].
      assert (strip_prefix (lit long ++ lit "=") (lit short ++ v) = None) as ->.
      { repeat (apply elem_of_cons in Hin as [[= -> ->]|Hin]; [done|]). by apply not_elem_of_nil in Hin. }
      rewrite (proj2 (strip_prefix_spec (lit short) _ _) eq_refl). destruct v; [done|].
      cbn [fmap option_fmap option_map fst]. by rewrite Htrim.
    + repeat (apply elem_of_cons in Hin as [[= -> ->]|Hin]; [done|]). by apply not_elem_of_nil in Hin.
  - unfold argument. rewrite bool_decide_false.
    2: { repeat (apply elem_of_cons in Hin as [[= -> ->]|Hin]; [done|]). by apply not_elem_of_nil in Hin. }
    rewrite bool_decide_false.
    2: { intros H. rewrite <- (app_nil_r (lit long)) in H at 2. by apply app_inv_head in H. }
    cbn [orb]. rewrite app_assoc.
    rewrite (proj2 (strip_prefix_spec (lit long ++ lit "=") _ _) eq_refl).
    cbn [fmap option_fmap option_map fst]. by rewrite Htrim.
Qed.

(** A bare number before a redirection is its descriptor and no argument, except right after a
    line continuation: there the same number becomes an argument of the command. *)
Theorem continued_descriptor ds :
  ds ≠ [] → Forall (λ c, is_ascii_digit c = true) ds →
  tokens (ds ++ lit ">") = Done (Some [Redirect])
  ∧ tokens (ch "\" :: 10 :: ds ++ lit ">") = Done (Some [Word ds; Redirect]).
Proof.
  intros Hne Hds.
  assert (forallb is_ascii_digit ds = true) as Hall.
  { apply forallb_forall. intros x Hx%list_elem_of_In. by apply (proj1 (Forall_forall _ _) Hds). }
  split; [change (tokens (ds ++ lit ">")) with (scan (digits_state [] [] false true (ds ++ lit ">")))
         |change (tokens (ch "\" :: 10 :: ds ++ lit ">"))
            with (scan (digits_state [] [] false true (ch "\" :: 10 :: ds ++ lit ">")));
          rewrite (scan_step _ (digits_state [] [] false false (ds ++ lit ">"))) by done];
    rewrite scan_digits by done; cbn [app].
  - rewrite (scan_step _ (digits_state [Redirect] [] false true [])); [by apply scan_break|].
    change (redirect_turn (ch ">") [] (digits_state [] ds true true (lit ">"))
            = Done (Continue (digits_state [Redirect] [] false true []))).
    unfold redirect_turn. cbn [started plain_word word digits_state result]. by rewrite Hall.
  - rewrite (scan_step _ (digits_state [Word ds; Redirect] [] false true [])); [by apply scan_break|done].
Qed.

(** ** Witnesses *)

Definition demo_command : MavenCommand := {|
  executable := lit "mvn";
  lifecycle_goals := [lit "clean"; lit "verify"];
  plugin_goals := [lit "help:effective-pom"];
  modules := [lit "core"; lit "it's"];
  also_make := true;
  also_make_dependents := false;
  resume_from := Some (lit ":api");
  pom_file := None;
  tests := [lit "Foo"; lit "Bar"];
  profiles := [lit "ci"];
  properties := {[ lit "test" := lit "Foo,Bar" ]};
|}.

Lemma demo_printable : printable demo_command.
Proof.
  split.
  - by apply (bool_decide_unpack (_ ∈ _)).
  - by repeat constructor.
  - by repeat constructor.
  - intros k v. cbn [demo_command properties]. by intros [<- <-]%lookup_singleton_Some.
  - repeat constructor; by apply (bool_decide_unpack (_ ∈ _)).
  - by repeat constructor.
  - by vm_compute.
Qed.

Lemma print_parse_witness :
  parse_maven_command (print_command demo_command) = Done (Some demo_command).
Proof. apply print_parse. exact demo_printable. Defined.

Lemma option_spellings_witness :
  (argument [lit "mvn"; lit "-P"; lit "ci"] (lit "-Pci") 1 "-P" "--activate-profiles").1 = Some (lit "ci").
Proof.
  apply (option_spellings "-P" "--activate-profiles" (lit "ci") [lit "mvn"; lit "-P"; lit "ci"] 1).
  - by apply (bool_decide_unpack (_ ∈ _)).
  - done.
  - done.
  - done.
Defined.

Lemma continued_descriptor_witness :
  tokens (lit "2>") = Done (Some [Redirect])
  ∧ tokens (ch "\" :: 10 :: lit "2>") = Done (Some [Word (lit "2"); Redirect]).
Proof. apply (continued_descriptor (lit "2")); [done|]. by repeat constructor. Defined.
