(* ===== verification/Timestamp.v ===== *)
(** * Timestamp: the UTC timestamp codec

    Models [src/log_analysis/time.rs].  The regular expression is written out as the parser it
    describes.  An [i64] is a [Z]: every value the code computes is far inside its width (epochs
    have at most 13 digits, years 4). *)

From S2P Require Import Prelude.
From S2P Require Import Text.
From Stdlib Require Import ZArith.

Open Scope Z_scope.

(** ** Pieces of a timestamp *)

(** Exactly [n] digits, and the rest. *)
Fixpoint digits (n : nat) (s : str) : option (str * str) :=
  match n with
  | O => Some ([], s)
  | S n =>
      match s with
      | c :: s =>
          if is_ascii_digit c then '(ds, rest) ← digits n s; Some (c :: ds, rest) else None
      | [] => None
      end
  end.

Definition expect (set : str) (s : str) : option (char * str) :=
  match s with
  | c :: s => if existsb (N.eqb c) set then Some (c, s) else None
  | [] => None
  end.

(** At most [n] digits, as many as there are. *)
Fixpoint digits_upto (n : nat) (s : str) : str * str :=
  match n, s with
  | S n, c :: s' => if is_ascii_digit c then let '(ds, rest) := digits_upto n s' in (c :: ds, rest)
                    else ([], s)
  | _, _ => ([], s)
  end.

(** The groups of [DATE]. *)
Record Captures := {
  c_year : str;
  c_month : str;
  c_day : str;
  c_time : option (str * str * str);
  c_fraction : option str;
  c_zone : option str;
}.

(** [(?:[.,]([0-9]{1,9}))?] *)
Definition fraction (s : str) : option str * str :=
  match expect (lit ".,") s with
  | Some (_, s') =>
      match digits_upto 9 s' with
      | ([], _) => (None, s)
      | (ds, rest) => (Some ds, rest)
      end
  | None => (None, s)
  end.

(** [(Z|[+-][0-9]{2}:[0-9]{2})?$] *)
Definition zone (s : str) : option (option str) :=
  match s with
  | [] => Some None
  | c :: s' =>
      if (c =? ch "Z")%N then match s' with [] => Some (Some s) | _ => None end
      else
        '(_, s1) ← expect (lit "+-") s;
        '(_, s2) ← digits 2 s1;
        '(_, s3) ← expect (lit ":") s2;
        '(_, s4) ← digits 2 s3;
        match s4 with [] => Some (Some s) | _ => None end
  end.

Definition captures (value : str) : option Captures :=
  '(year, s) ← digits 4 value;
  '(_, s) ← expect (lit "-") s;
  '(month, s) ← digits 2 s;
  '(_, s) ← expect (lit "-") s;
  '(day, s) ← digits 2 s;
  match s with
  | [] => Some {| c_year := year; c_month := month; c_day := day; c_time := None;
                  c_fraction := None; c_zone := None |}
  | _ =>
      '(_, s) ← expect (lit "T ") s;
      '(hour, s) ← digits 2 s;
      '(_, s) ← expect (lit ":") s;
      '(minute, s) ← digits 2 s;
      '(_, s) ← expect (lit ":") s;
      '(second, s) ← digits 2 s;
      let '(fraction, s) := fraction s in
      zone ← zone s;
      Some {| c_year := year; c_month := month; c_day := day; c_time := Some (hour, minute, second);
              c_fraction := fraction; c_zone := zone |}
  end.

(** [parse::<i64>] of digits. *)
Definition parse_i64 (s : str) : option Z :=
  n ← parse_unsigned (2 ^ 63 - 1) s; Some (Z.of_N n).

(** ** The calendar *)

Definition leap (year : Z) : bool :=
  (year mod 4 =? 0) && (negb (year mod 100 =? 0) || (year mod 400 =? 0)).

Definition days_in_month (year month : Z) : option Z :=
  if month =? 2 then Some (if leap year then 29 else 28)
  else if existsb (Z.eqb month) [4; 6; 9; 11] then Some 30
  else if existsb (Z.eqb month) [1; 3; 5; 7; 8; 10; 12] then Some 31
  else None.

(** Days since 1970-01-01. *)
Definition days_from_civil (year month day : Z) : Z :=
  let adjusted_year := year - (if month <=? 2 then 1 else 0) in
  let era := adjusted_year / 400 in
  let yoe := adjusted_year - era * 400 in
  let shifted_month := month + (if 2 <? month then -3 else 9) in
  era * 146097 + yoe * 365 + yoe / 4 - yoe / 100 + (153 * shifted_month + 2) / 5 + day - 1 - 719468.

Definition civil_from_days (days : Z) : Z * Z * Z :=
  let days := days + 719468 in
  let era := days / 146097 in
  let doe := days - era * 146097 in
  let yoe := (doe - doe / 1460 + doe / 36524 - doe / 146096) / 365 in
  let year := yoe + era * 400 in
  let doy := doe - (365 * yoe + yoe / 4 - yoe / 100) in
  let mp := (5 * doy + 2) / 153 in
  let day := doy - (153 * mp + 2) / 5 + 1 in
  let month := mp + (if mp <? 10 then 3 else -9) in
  (year + (if month <=? 2 then 1 else 0), month, day).

(** ** The codec *)

(** [{:0w}] of a number that is not negative. *)
Definition padded (w : nat) (n : Z) : str := pad_zero w (to_dec (Z.to_N n)).

Definition format_epoch (millis : Z) : option str :=
  let seconds := millis / 1000 in
  let '(year, month, day) := civil_from_days (seconds / 86400) in
  if negb ((0 <=? year) && (year <=? 9999)) then None
  else
    let within_day := seconds mod 86400 in
    Some (padded 4 year ++ lit "-" ++ padded 2 month ++ lit "-" ++ padded 2 day ++ lit "T"
          ++ padded 2 (within_day / 3600) ++ lit ":" ++ padded 2 (within_day / 60 mod 60) ++ lit ":"
          ++ padded 2 (within_day mod 60) ++ lit "." ++ padded 3 (millis mod 1000) ++ lit "Z").

(** Seconds a zone is ahead of UTC. *)
Definition zone_offset (zone : option str) : option Z :=
  match zone with
  | None => Some 0
  | Some zone =>
      if bool_decide (zone = lit "Z") then Some 0
      else
        h ← byte_slice 1 3 zone; h ← parse_i64 h;
        m ← byte_slice 4 6 zone; m ← parse_i64 m;
        if (23 <? h) || (59 <? m) then None
        else Some ((h * 60 + m) * 60 * (if starts_with (lit "-") zone then -1 else 1))
  end.

(** [format!("{fraction:0<3}").get(..3)] *)
Definition fraction_millis (fraction : option str) : option Z :=
  let fraction := default [] fraction in
  digits ← byte_slice 0 3 (fraction ++ replicate (3 - length fraction) (ch "0"));
  parse_i64 digits.

(** The milliseconds [normalize_timestamp] formats. *)
Definition timestamp_millis (value : str) : option Z :=
  if forallb is_ascii_digit value && (bool_decide (length value = 10%nat) || bool_decide (length value = 13%nat))
  then
    epoch ← parse_i64 value;
    Some (if bool_decide (length value = 10%nat) then epoch * 1000 else epoch)
  else
    c ← captures value;
    year ← parse_i64 (c_year c);
    month ← parse_i64 (c_month c);
    day ← parse_i64 (c_day c);
    let '(hour, minute, second) := default (lit "0", lit "0", lit "0") (c_time c) in
    hour ← parse_i64 hour;
    minute ← parse_i64 minute;
    second ← parse_i64 second;
    days_in_month ← days_in_month year month;
    if negb ((1 <=? day) && (day <=? days_in_month)) || (23 <? hour) || (59 <? minute) || (59 <? second)
    then None
    else
      offset ← zone_offset (c_zone c);
      millis ← fraction_millis (c_fraction c);
      Some ((days_from_civil year month day * 86400 + hour * 3600 + minute * 60 + second - offset) * 1000
            + millis).

Definition normalize_timestamp (value : str) : option str :=
  millis ← timestamp_millis value; format_epoch millis.

(** ** Specification: the Gregorian calendar *)

Definition valid_date (year month day : Z) : Prop :=
  ∃ n, days_in_month year month = Some n ∧ 1 ≤ day ≤ n.

Definition next_day (date : Z * Z * Z) : Z * Z * Z :=
  let '(year, month, day) := date in
  if bool_decide (days_in_month year month = Some day) then
    if month =? 12 then (year + 1, 1, 1) else (year, month + 1, 1)
  else (year, month, day + 1).

(** ** Lemmas: the calendar *)

Definition leap_day (year : Z) : Z := if leap year then 1 else 0.

Lemma leap_day_spec year :
  leap_day year = (year / 4 - (year - 1) / 4) - (year / 100 - (year - 1) / 100)
                  + (year / 400 - (year - 1) / 400).
Proof.
  unfold leap_day, leap. destruct (Z.eqb_spec (year mod 4) 0), (Z.eqb_spec (year mod 100) 0),
    (Z.eqb_spec (year mod 400) 0); cbn [andb orb negb]; Z.to_euclidean_division_equations; lia.
Qed.

(** The length of a month. *)
Definition month_length (year month : Z) : Z :=
  if month =? 2 then 28 + leap_day year
  else if existsb (Z.eqb month) [4; 6; 9; 11] then 30 else 31.

Lemma days_in_month_spec year month n :
  days_in_month year month = Some n ↔ 1 ≤ month ≤ 12 ∧ n = month_length year month.
Proof.
  destruct (decide (1 ≤ month ≤ 12)) as [Hm|Hm].
  - assert (days_in_month year month = Some (month_length year month)) as ->; [|naive_solver].
    assert (month = 1 ∨ month = 2 ∨ month = 3 ∨ month = 4 ∨ month = 5 ∨ month = 6 ∨ month = 7 ∨ month = 8
            ∨ month = 9 ∨ month = 10 ∨ month = 11 ∨ month = 12) as Hcases by lia.
    unfold days_in_month, month_length, leap_day.
    repeat (destruct Hcases as [->|Hcases]; [cbn; by try destruct (leap year)|]). by subst.
  - assert (days_in_month year month = None) as ->; [|naive_solver].
    unfold days_in_month. cbn [existsb]. repeat (rewrite (proj2 (Z.eqb_neq month _)) by lia). done.
Qed.

Lemma valid_date_spec year month day :
  valid_date year month day ↔ 1 ≤ month ≤ 12 ∧ 1 ≤ day ≤ month_length year month.
Proof.
  unfold valid_date. setoid_rewrite days_in_month_spec. naive_solver.
Qed.

(** Days before a year that begins in March, and days of that year before a month. *)
Definition year_days (y : Z) : Z := 365 * y + y / 4 - y / 100 + y / 400.

Lemma days_from_civil_eq year month day :
  days_from_civil year month day
  = year_days (year - (if month <=? 2 then 1 else 0))
    + (153 * (month + (if 2 <? month then -3 else 9)) + 2) / 5 + day - 1 - 719468.
Proof.
  unfold days_from_civil, year_days. set (y := year - _). set (mm := (153 * _ + 2) / 5). clearbody y mm.
  cbv zeta. assert (y / 400 * 400 ≤ y < y / 400 * 400 + 400) as Hera.
  { Z.to_euclidean_division_equations. lia. }
  set (era := y / 400) in *. clearbody era.
  Z.to_euclidean_division_equations. lia.
Qed.

Lemma year_days_next y : year_days (y + 1) = year_days y + 365 + leap_day (y + 1).
Proof. rewrite leap_day_spec. unfold year_days. replace (y + 1 - 1) with y by lia.
  Z.to_euclidean_division_equations. lia. Qed.

Lemma year_days_lt y y' : y < y' → year_days y + 365 + leap_day (y + 1) ≤ year_days y'.
Proof.
  intros Hlt. rewrite <- year_days_next.
  assert (∃ n : nat, y' = y + 1 + Z.of_nat n) as [n ->] by (exists (Z.to_nat (y' - (y + 1))); lia).
  clear Hlt. induction n as [|n IH]; [rewrite Z.add_0_r; lia|].
  replace (y + 1 + Z.of_nat (S n)) with (y + 1 + Z.of_nat n + 1) by lia.
  rewrite (year_days_next (y + 1 + Z.of_nat n)).
  assert (0 ≤ leap_day (y + 1 + Z.of_nat n + 1)) by (unfold leap_day; by destruct (leap _)). lia.
Qed.

(** *** Dates in order *)

Definition date_lt (d d' : Z * Z * Z) : Prop :=
  let '(y, m, d) := d in let '(y', m', d') := d' in
  y < y' ∨ y = y' ∧ (m < m' ∨ m = m' ∧ d < d').

(** The year that begins in March, and the months counted from March. *)
Definition march_year (y m : Z) : Z := y - (if m <=? 2 then 1 else 0).
Definition march_month (m : Z) : Z := m + (if 2 <? m then -3 else 9).

(** Evaluates the calendar at a given month. *)
Ltac fix_month :=
  match goal with
  | |- context [march_month ?k] =>
      let v := eval vm_compute in (march_month k) in change (march_month k) with v
  end;
  cbn [Z.leb Z.compare Pos.compare Pos.compare_cont Z.eqb Pos.eqb existsb orb] in *;
  rewrite ?Z.sub_add, ?Z.sub_0_r in *; Z.to_euclidean_division_equations; lia.

Lemma month_end y m d :
  valid_date y m d →
  0 ≤ march_month m ≤ 11
  ∧ 0 ≤ (153 * march_month m + 2) / 5 + d - 1
  ∧ (153 * march_month m + 2) / 5 + d
    ≤ (if march_month m =? 11 then 365 + leap_day (march_year y m + 1)
       else (153 * (march_month m + 1) + 2) / 5).
Proof.
  rewrite valid_date_spec. intros [Hm Hd].
  assert (m = 1 ∨ m = 2 ∨ m = 3 ∨ m = 4 ∨ m = 5 ∨ m = 6 ∨ m = 7 ∨ m = 8
          ∨ m = 9 ∨ m = 10 ∨ m = 11 ∨ m = 12) as Hcases by lia.
  unfold march_year, month_length in *.
  repeat (destruct Hcases as [->|Hcases]; [fix_month|]). subst. fix_month.
Qed.

Lemma days_march y m d :
  days_from_civil y m d = year_days (march_year y m) + (153 * march_month m + 2) / 5 + d - 1 - 719468.
Proof. apply days_from_civil_eq. Qed.

(** Later dates have more days. *)
Lemma days_lt y m d y' m' d' :
  valid_date y m d → valid_date y' m' d' → date_lt (y, m, d) (y', m', d') →
  days_from_civil y m d < days_from_civil y' m' d'.
Proof.
  intros H H' Hlt. pose proof (month_end _ _ _ H) as (Hm & Hlo & Hhi).
  pose proof (month_end _ _ _ H') as (Hm' & Hlo' & Hhi').
  apply valid_date_spec in H as [Hr _], H' as [Hr' [Hd' _]]. unfold date_lt in Hlt.
  rewrite !days_march.
  assert (march_year y m < march_year y' m' ∨ march_year y m = march_year y' m'
          ∧ (march_month m < march_month m' ∨ march_month m = march_month m' ∧ d < d')) as Hmarch.
  { unfold march_year, march_month. destruct (Z.leb_spec m 2), (Z.leb_spec m' 2),
      (Z.ltb_spec 2 m), (Z.ltb_spec 2 m'); lia. }
  generalize dependent (march_year y m). intros Y Hhi. generalize dependent (march_year y' m').
  intros Y' Hhi' Hmarch. clear Hlt Hr Hr'. generalize dependent (march_month m). intros M. intros.
  generalize dependent (march_month m'). intros M'. intros.
  destruct Hmarch as [HY|[-> [HM|[-> Hd]]]]; [| |lia].
  - pose proof (year_days_lt _ _ HY). destruct (Z.eqb_spec M 11); [lia|].
    assert (0 ≤ leap_day (Y + 1)) by (unfold leap_day; by destruct (leap _)).
    Z.to_euclidean_division_equations. lia.
  - destruct (Z.eqb_spec M 11); [lia|]. Z.to_euclidean_division_equations. lia.
Qed.

Lemma leap_day_le y : 0 ≤ leap_day y ≤ 1.
Proof. unfold leap_day. by destruct (leap y). Qed.

Lemma leap_day_era y k : leap_day (y + k * 400) = leap_day y.
Proof.
  unfold leap_day, leap. replace (k * 400) with (k * 100 * 4) by lia. rewrite Z_mod_plus_full.
  replace (k * 100 * 4) with (k * 4 * 100) by lia. rewrite Z_mod_plus_full.
  replace (k * 4 * 100) with (k * 400) by lia. by rewrite Z_mod_plus_full.
Qed.

Lemma year_days_era y k : 0 ≤ y ≤ 399 → year_days (y + k * 400) = k * 146097 + 365 * y + y / 4 - y / 100.
Proof.
  intros Hy. unfold year_days.
  assert ((y + k * 400) / 400 = k) as -> by (Z.to_euclidean_division_equations; lia).
  assert ((y + k * 400) / 100 = y / 100 + 4 * k) as -> by (Z.to_euclidean_division_equations; lia).
  assert ((y + k * 400) / 4 = y / 4 + 100 * k) as -> by (Z.to_euclidean_division_equations; lia). lia.
Qed.

(** The date of a day is valid, and has that many days. *)
Lemma civil_valid z y m d : civil_from_days z = (y, m, d) → valid_date y m d ∧ days_from_civil y m d = z.
Proof.
  unfold civil_from_days. cbv zeta. set (n := z + 719468). set (era := n / 146097).
  set (doe := n - era * 146097). set (yoe := (doe - doe / 1460 + doe / 36524 - doe / 146096) / 365).
  set (doy := doe - (365 * yoe + yoe / 4 - yoe / 100)). set (mp := (5 * doy + 2) / 153).
  set (month := mp + (if mp <? 10 then 3 else -9)). intros [= <- <- <-].
  assert (0 ≤ doe < 146097) as Hdoe.
  { unfold doe, era. Z.to_euclidean_division_equations. lia. }
  assert (0 ≤ yoe ≤ 399 ∧ 0 ≤ doy ≤ 364 + leap_day (yoe + 1)) as [Hyoe Hdoy].
  { rewrite leap_day_spec. unfold doy, yoe. clearbody doe.
    replace ((doe - doe / 1460 + doe / 36524 - doe / 146096) / 365 + 1 - 1)
      with ((doe - doe / 1460 + doe / 36524 - doe / 146096) / 365) by lia.
    Z.to_euclidean_division_equations. lia. }
  assert (0 ≤ mp ≤ 11 ∧ (153 * mp + 2) / 5 ≤ doy ≤ (153 * mp + 2) / 5 + 30) as [Hmp Hday].
  { pose proof (leap_day_le (yoe + 1)). unfold mp. clearbody doy. Z.to_euclidean_division_equations. lia. }
  assert (march_month month = mp ∧ 1 ≤ month ≤ 12 ∧ (month <=? 2) = (10 <=? mp)) as (Hmarch & Hmonth & Hle).
  { unfold march_month, month. destruct (Z.ltb_spec mp 10), (Z.leb_spec 10 mp); try lia;
      destruct (Z.ltb_spec 2 (mp + 3)), (Z.ltb_spec 2 (mp + -9)), (Z.leb_spec (mp + 3) 2),
        (Z.leb_spec (mp + -9) 2); lia. }
  assert (march_year (yoe + era * 400 + (if month <=? 2 then 1 else 0)) month = yoe + era * 400) as Hyear.
  { unfold march_year. lia. }
  split.
  - apply valid_date_spec. split; [done|]. split; [lia|]. rewrite <- (leap_day_era _ era) in Hdoy.
    assert (yoe + era * 400 + 1 = yoe + 1 + era * 400) as E1 by lia.
    assert (mp = (5 * doy + 2) / 153) as Emp by done.
    assert (month = mp + (if mp <? 10 then 3 else -9)) as Emonth by done.
    clearbody mp month yoe doe era doy. rewrite Hle. clear Hyear Hle Hmarch Hmonth.
    assert (mp = 0 ∨ mp = 1 ∨ mp = 2 ∨ mp = 3 ∨ mp = 4 ∨ mp = 5 ∨ mp = 6 ∨ mp = 7 ∨ mp = 8
            ∨ mp = 9 ∨ mp = 10 ∨ mp = 11) as Hcases by lia.
    unfold month_length.
    repeat (destruct Hcases as [->|Hcases];
      [vm_compute in Emonth; subst month; cbn -[Z.mul Z.div leap_day Z.le Z.sub] in *;
       rewrite ?E1 in *; Z.to_euclidean_division_equations; lia|]).
    rewrite Hcases in Emp, Emonth, Hday |- *. vm_compute in Emonth. subst month. cbn -[Z.mul Z.div leap_day Z.le Z.sub] in *.
    rewrite ?E1 in *. Z.to_euclidean_division_equations. lia.
  - rewrite days_march, Hyear, Hmarch, year_days_era by done. unfold doy, doe. lia.
Qed.

Lemma civil_unique y m d y' m' d' :
  valid_date y m d → valid_date y' m' d' → days_from_civil y m d = days_from_civil y' m' d' →
  (y, m, d) = (y', m', d').
Proof.
  intros H H' Heq.
  assert (date_lt (y, m, d) (y', m', d') ∨ date_lt (y', m', d') (y, m, d) ∨ y = y' ∧ m = m' ∧ d = d') as Htri
    by (unfold date_lt; lia).
  destruct Htri as [Hlt|[Hlt|(-> & -> & ->)]]; [| |done].
  - pose proof (days_lt _ _ _ _ _ _ H H' Hlt). lia.
  - pose proof (days_lt _ _ _ _ _ _ H' H Hlt). lia.
Qed.

Lemma civil_inverse y m d : valid_date y m d → civil_from_days (days_from_civil y m d) = (y, m, d).
Proof.
  intros H. destruct (civil_from_days _) as [[y' m'] d'] eqn:E. apply civil_valid in E as [H' E].
  symmetry. by apply civil_unique.
Qed.

(** The first day after the last day of a given month. *)
Ltac next_month :=
  cbn [Z.eqb Pos.eqb];
  repeat match goal with
  | |- context [Zpos ?k + 1] =>
      let v := eval vm_compute in (Zpos k + 1) in change (Zpos k + 1) with v
  end;
  split;
  [apply valid_date_spec; unfold month_length; cbn [Z.eqb Pos.eqb existsb orb]; 
   repeat match goal with |- context [leap_day ?x] =>
     lazymatch goal with | H : 0 ≤ leap_day x ≤ 1 |- _ => fail | _ => pose proof (leap_day_le x) end end; lia
  |rewrite !days_march; unfold month_length, march_year;
   repeat match goal with
   | |- context [march_month ?k] =>
       let v := eval vm_compute in (march_month k) in change (march_month k) with v
   end;
   cbn [Z.leb Z.compare Pos.compare Pos.compare_cont Z.eqb Pos.eqb existsb orb];
   rewrite ?Z.sub_0_r, ?Z.add_simpl_r;
   repeat match goal with
   | |- context [(153 * ?k + 2) / 5] =>
       let v := eval vm_compute in ((153 * k + 2) / 5) in change ((153 * k + 2) / 5) with v
   end;
   lia].

Lemma next_day_spec y m d :
  valid_date y m d →
  let '(y', m', d') := next_day (y, m, d) in
  valid_date y' m' d' ∧ days_from_civil y' m' d' = days_from_civil y m d + 1.
Proof.
  intros H. unfold next_day. pose proof (month_end _ _ _ H) as (_ & _ & Hend).
  pose proof (proj1 (valid_date_spec _ _ _) H) as [Hm Hd].
  case_bool_decide as Hlast.
  - apply days_in_month_spec in Hlast as [_ ->]. clear Hd H Hend.
    assert (m = 1 ∨ m = 2 ∨ m = 3 ∨ m = 4 ∨ m = 5 ∨ m = 6 ∨ m = 7 ∨ m = 8
            ∨ m = 9 ∨ m = 10 ∨ m = 11 ∨ m = 12) as Hcases by lia.
    assert (0 ≤ leap_day y) by apply leap_day_le.
    pose proof (year_days_next (y - 1)) as Hnext. rewrite Z.sub_add in Hnext.
    clear Hm.
    repeat (destruct Hcases as [->|Hcases]; [next_month|]). subst m. next_month.
  - assert (d ≠ month_length y m). { intros ->. apply Hlast. by apply days_in_month_spec. }
    split; [apply valid_date_spec; lia|]. rewrite !days_march. lia.
Qed.

(** ** Lemmas: fixed-width numbers *)

Lemma digits_value_zeros k s : digits_value 10 0 (replicate k 48%N ++ s) = digits_value 10 0 s.
Proof. induction k as [|k IH]; [done|]. exact IH. Qed.

Record fixed (w : nat) (n : Z) (s : str) : Prop := {
  fx_length : length s = w;
  fx_digits : Forall (λ c, is_ascii_digit c = true) s;
  fx_value : digits_value 10 0 s = Some (Z.to_N n);
}.

Lemma to_dec_short w n : (0 < w)%nat → (n < 10 ^ N.of_nat w)%N → (length (to_dec n) ≤ w)%nat.
Proof.
  intros Hw. revert n. induction w as [|w IH]; intros n Hn; [lia|].
  unfold to_dec, to_digits. cbn [digits_from]. destruct (N.eqb_spec (n / 10) 0) as [Hz|Hz]; [simpl; lia|].
  rewrite digits_from_app, length_app. cbn [length]. destruct w as [|w].
  { exfalso. apply Hz. apply N.div_small. done. }
  assert (n ≠ 0%N) by (intros ->; done). pose proof (size_nat_div 10 n ltac:(lia) ltac:(done)) as Hsize.
  assert (length (digits_from 10 (N.size_nat n) (n / 10) []) ≤ length (to_dec (n / 10)))%nat as Hle.
  { unfold to_dec, to_digits. apply digits_from_length_mono; lia. }
  assert (n / 10 < 10 ^ N.of_nat (S w))%N as Hdiv.
  { apply N.Div0.div_lt_upper_bound. by rewrite Nat2N.inj_succ, N.pow_succ_r' in Hn. }
  specialize (IH ltac:(lia) _ Hdiv). lia.
Qed.

Lemma padded_fixed w n : (0 < w)%nat → 0 ≤ n < 10 ^ Z.of_nat w → fixed w n (padded w n).
Proof.
  intros Hw Hn. unfold padded, pad_zero.
  assert (Z.to_N n < 10 ^ N.of_nat w)%N as Hn'.
  { apply N2Z.inj_lt. rewrite Z2N.id by lia. rewrite N2Z.inj_pow, nat_N_Z. lia. }
  pose proof (to_dec_short w _ Hw Hn'). split.
  - rewrite length_app, length_replicate. lia.
  - apply Forall_app. split; [by apply Forall_replicate|apply to_dec_digits].
  - rewrite digits_value_zeros. apply to_digits_value. lia.
Qed.

Lemma parse_fixed w n s :
  fixed w n s → (0 < w)%nat → 0 ≤ n ≤ 9999 → parse_i64 s = Some n.
Proof.
  intros [Hlen Hd Hv] Hw Hn. unfold parse_i64, parse_unsigned. destruct s as [|c s]; [simpl in *; lia|].
  assert (match c with 43%N => s | _ => c :: s end = c :: s) as ->.
  { apply Forall_cons in Hd as [Hc _]. repeat case_match; try done. }
  rewrite Hv. cbn [mbind option_bind]. destruct (N.leb_spec (Z.to_N n) (2 ^ 63 - 1)) as [|Hlt].
  - cbn. by rewrite Z2N.id by lia.
  - exfalso. assert (Z.to_N n ≤ 9999)%N by lia. vm_compute (2 ^ 63 - 1)%N in Hlt. lia.
Qed.

Lemma digits_app ds rest :
  Forall (λ c, is_ascii_digit c = true) ds → digits (length ds) (ds ++ rest) = Some (ds, rest).
Proof. induction 1 as [|c ds Hc _ IH]; [done|]. cbn. by rewrite Hc, IH. Qed.

Lemma digits_fixed w n s rest : fixed w n s → digits w (s ++ rest) = Some (s, rest).
Proof. intros [<- Hd _]. by apply digits_app. Qed.

Lemma digits_upto_fixed k w n s rest :
  fixed w n s → (w ≤ k)%nat → match rest with c :: _ => is_ascii_digit c = false | [] => True end →
  digits_upto k (s ++ rest) = (s, rest).
Proof.
  intros [<- Hd _]. revert k. induction Hd as [|c s Hc _ IH]; intros k Hk Hrest.
  - destruct k, rest; cbn; [done..|]. by rewrite Hrest.
  - destruct k as [|k]; [simpl in Hk; lia|]. cbn. rewrite Hc, IH; [done|simpl in Hk; lia|done].
Qed.

Lemma digit_blen s : Forall (λ c, is_ascii_digit c = true) s → blen s = N.of_nat (length s).
Proof.
  induction 1 as [|c s Hc _ IH]; [done|]. cbn [blen length]. rewrite IH.
  unfold is_ascii_digit, Text.between in Hc. rewrite andb_true_iff, !N.leb_le in Hc.
  rewrite len_utf8_ascii by lia. lia.
Qed.

Lemma fraction_fixed n s : fixed 3 n s → 0 ≤ n < 1000 → fraction_millis (Some s) = Some n.
Proof.
  intros Hs Hn. 
  change (fraction_millis (Some s)) with
    (digits ← byte_slice 0 3 (s ++ replicate (3 - length s) (ch "0")); parse_i64 digits).
  rewrite (fx_length _ _ _ Hs).
  change (replicate (3 - 3) (ch "0")) with (@nil N).
  pose proof (byte_slice_app [] s []) as Hslice. rewrite (digit_blen _ (fx_digits _ _ _ Hs)), (fx_length _ _ _ Hs) in Hslice.
  change (byte_slice 0 3 (s ++ []) = Some s) in Hslice. rewrite Hslice. cbn [mbind option_bind].
  apply (parse_fixed 3); [done|lia|lia].
Qed.

(** *** Order *)

Lemma digits_value_bounds s a n :
  Forall (λ c, is_ascii_digit c = true) s → digits_value 10 a s = Some n →
  (a * 10 ^ N.of_nat (length s) ≤ n < (a + 1) * 10 ^ N.of_nat (length s))%N.
Proof.
  intros Hs. revert a. induction Hs as [|c s Hc _ IH]; intros a Hn.
  - injection Hn as <-. simpl. lia.
  - cbn [digits_value] in Hn. unfold digit_value in Hn. rewrite Hc in Hn. cbn [mbind option_bind] in Hn.
    destruct (N.ltb_spec (c - 48) 10) as [Hlt|]; [|done]. cbn [mbind option_bind] in Hn.
    apply IH in Hn. cbn [length]. rewrite Nat2N.inj_succ, N.pow_succ_r'. nia.
Qed.

(** Numbers of one width compare like their values. *)
Lemma digits_compare s t rest rest' a b m n :
  Forall (λ c, is_ascii_digit c = true) s → Forall (λ c, is_ascii_digit c = true) t →
  length s = length t → digits_value 10 a s = Some m → digits_value 10 b t = Some n → a = b →
  str_cmp (s ++ rest) (t ++ rest') = match (m ?= n)%N with Eq => str_cmp rest rest' | c => c end.
Proof.
  intros Hs. revert t a b. induction Hs as [|c s Hc Hs IH]; intros t a b Ht Hlen Hm Hn <-.
  - destruct t; [|done]. simpl in *. simplify_eq. by rewrite N.compare_refl.
  - destruct t as [|d t]; [done|]. apply Forall_cons in Ht as [Hd Ht].
    cbn [digits_value] in Hm, Hn. unfold digit_value in Hm, Hn. rewrite Hc in Hm. rewrite Hd in Hn.
    cbn [mbind option_bind] in Hm, Hn.
    destruct (N.ltb_spec (c - 48) 10); [|done]. destruct (N.ltb_spec (d - 48) 10); [|done].
    cbn [mbind option_bind] in Hm, Hn. cbn [app str_cmp]. simpl in Hlen. injection Hlen as Hlen.
    unfold is_ascii_digit, Text.between in Hc, Hd. rewrite andb_true_iff, !N.leb_le in Hc, Hd.
    pose proof (digits_value_bounds _ _ _ Hs Hm) as Bm. pose proof (digits_value_bounds _ _ _ Ht Hn) as Bn.
    rewrite Hlen in Bm.
    destruct (N.compare_spec c d) as [->|Hcd|Hcd].
    + by eapply IH.
    + assert (m < n)%N as Hmn by nia. by rewrite (proj2 (N.compare_lt_iff _ _) Hmn).
    + assert (n < m)%N as Hmn by nia. by rewrite (proj2 (N.compare_gt_iff _ _) Hmn).
Qed.

Lemma fixed_compare w m n s t rest rest' :
  fixed w m s → fixed w n t → 0 ≤ m → 0 ≤ n →
  str_cmp (s ++ rest) (t ++ rest') = match m ?= n with Eq => str_cmp rest rest' | c => c end.
Proof.
  intros [Hl Hd Hv] [Hl' Hd' Hv'] Hm Hn.
  rewrite (digits_compare s t rest rest' 0 0 (Z.to_N m) (Z.to_N n)) by (done || congruence).
  by rewrite <- Z2N.inj_compare by done.
Qed.

(** ** Lemmas: formatted timestamps *)

(** The fields of a point in time. *)
Record Fields := {
  f_year : Z; f_month : Z; f_day : Z; f_hour : Z; f_minute : Z; f_second : Z; f_millis : Z;
}.

Definition fields_of (millis : Z) : Fields :=
  let seconds := millis / 1000 in
  let '(year, month, day) := civil_from_days (seconds / 86400) in
  {| f_year := year; f_month := month; f_day := day;
     f_hour := seconds mod 86400 / 3600; f_minute := seconds mod 86400 / 60 mod 60;
     f_second := seconds mod 86400 mod 60; f_millis := millis mod 1000 |}.

Definition print_fields (f : Fields) : str :=
  padded 4 (f_year f) ++ lit "-" ++ padded 2 (f_month f) ++ lit "-" ++ padded 2 (f_day f) ++ lit "T"
  ++ padded 2 (f_hour f) ++ lit ":" ++ padded 2 (f_minute f) ++ lit ":" ++ padded 2 (f_second f)
  ++ lit "." ++ padded 3 (f_millis f) ++ lit "Z".

Record in_range (f : Fields) : Prop := {
  in_year : 0 ≤ f_year f ≤ 9999;
  in_month : 1 ≤ f_month f ≤ 12;
  in_day : 1 ≤ f_day f ≤ 31;
  in_hour : 0 ≤ f_hour f ≤ 23;
  in_minute : 0 ≤ f_minute f ≤ 59;
  in_second : 0 ≤ f_second f ≤ 59;
  in_millis : 0 ≤ f_millis f ≤ 999;
  in_valid : valid_date (f_year f) (f_month f) (f_day f);
}.

Definition fields_millis (f : Fields) : Z :=
  (days_from_civil (f_year f) (f_month f) (f_day f) * 86400 + f_hour f * 3600 + f_minute f * 60
   + f_second f) * 1000 + f_millis f.

Lemma format_epoch_fields millis s :
  format_epoch millis = Some s →
  s = print_fields (fields_of millis) ∧ in_range (fields_of millis)
  ∧ fields_millis (fields_of millis) = millis.
Proof.
  unfold format_epoch, fields_of, fields_millis. destruct (civil_from_days _) as [[y m] d] eqn:Hciv.
  apply civil_valid in Hciv as [Hvalid Hdays].
  destruct ((0 <=? y) && (y <=? 9999)) eqn:Hy; cbn [negb]; [|done]. intros [= <-].
  apply andb_true_iff in Hy as [H0%Z.leb_le H1%Z.leb_le].
  split; [done|]. cbn [f_year f_month f_day f_hour f_minute f_second f_millis]. rewrite Hdays.
  pose proof (proj1 (valid_date_spec _ _ _) Hvalid) as [Hm Hd].
  assert (month_length y m ≤ 31).
  { unfold month_length. pose proof (leap_day_le y). repeat case_match; lia. }
  split; [split|]; cbn [f_year f_month f_day f_hour f_minute f_second f_millis];
    try done; try lia; clear; Z.to_euclidean_division_equations; lia.
Qed.

Lemma expect_hit set c rest : existsb (N.eqb c) set = true → expect set (c :: rest) = Some (c, rest).
Proof. intros Hc. unfold expect. by rewrite Hc. Qed.

Lemma expect_dash rest : expect (lit "-") (lit "-" ++ rest) = Some (ch "-", rest).
Proof. done. Qed.
Lemma expect_T rest : expect (lit "T ") (lit "T" ++ rest) = Some (ch "T", rest).
Proof. done. Qed.
Lemma expect_colon rest : expect (lit ":") (lit ":" ++ rest) = Some (ch ":", rest).
Proof. done. Qed.
Lemma not_done {A} (a b : A) rest : match lit "T" ++ rest with [] => a | _ :: _ => b end = b.
Proof. done. Qed.

Lemma fraction_printed n s : fixed 3 n s → fraction (lit "." ++ s ++ lit "Z") = (Some s, lit "Z").
Proof.
  intros Hs. unfold fraction.
  change (expect (lit ".,") (lit "." ++ s ++ lit "Z")) with (Some (ch ".", s ++ lit "Z")). cbv iota beta.
  rewrite (digits_upto_fixed 9 3 n) by (done || lia).
  pose proof (fx_length _ _ _ Hs). by destruct s.
Qed.

Lemma str_cmp_same p s t : str_cmp (p ++ s) (p ++ t) = str_cmp s t.
Proof. induction p as [|c p IH]; [done|]. cbn. by rewrite N.compare_refl. Qed.

Section Printed.
Context (f : Fields) (Hf : in_range f).

Let p4 := padded_fixed 4 (f_year f) ltac:(lia) ltac:(pose proof (in_year f Hf); lia).
Let pm := padded_fixed 2 (f_month f) ltac:(lia) ltac:(pose proof (in_month f Hf); lia).
Let pd := padded_fixed 2 (f_day f) ltac:(lia) ltac:(pose proof (in_day f Hf); lia).
Let ph := padded_fixed 2 (f_hour f) ltac:(lia) ltac:(pose proof (in_hour f Hf); lia).
Let pmi := padded_fixed 2 (f_minute f) ltac:(lia) ltac:(pose proof (in_minute f Hf); lia).
Let ps := padded_fixed 2 (f_second f) ltac:(lia) ltac:(pose proof (in_second f Hf); lia).
Let pms := padded_fixed 3 (f_millis f) ltac:(lia) ltac:(pose proof (in_millis f Hf); lia).

Lemma captures_printed :
  captures (print_fields f)
  = Some {| c_year := padded 4 (f_year f); c_month := padded 2 (f_month f);
            c_day := padded 2 (f_day f);
            c_time := Some (padded 2 (f_hour f), padded 2 (f_minute f), padded 2 (f_second f));
            c_fraction := Some (padded 3 (f_millis f)); c_zone := Some (lit "Z") |}.
Proof.
  unfold captures, print_fields.
  rewrite (digits_fixed _ _ _ _ p4). cbn [mbind option_bind]. rewrite expect_dash. cbn [mbind option_bind].
  rewrite (digits_fixed _ _ _ _ pm). cbn [mbind option_bind]. rewrite expect_dash. cbn [mbind option_bind].
  rewrite (digits_fixed _ _ _ _ pd). cbn [mbind option_bind]. rewrite not_done, expect_T. cbn [mbind option_bind].
  rewrite (digits_fixed _ _ _ _ ph). cbn [mbind option_bind]. rewrite expect_colon. cbn [mbind option_bind].
  rewrite (digits_fixed _ _ _ _ pmi). cbn [mbind option_bind]. rewrite expect_colon. cbn [mbind option_bind].
  rewrite (digits_fixed _ _ _ _ ps). cbn [mbind option_bind].
  by rewrite (fraction_printed _ _ pms).
Qed.

Lemma not_digits : forallb is_ascii_digit (print_fields f) = false.
Proof. unfold print_fields. rewrite !forallb_app. by rewrite andb_false_r. Qed.

Lemma millis_printed : timestamp_millis (print_fields f) = Some (fields_millis f).
Proof.
  unfold timestamp_millis. rewrite not_digits. cbn [andb]. rewrite captures_printed.
  cbn [mbind option_bind c_year c_month c_day c_time c_fraction c_zone].
  rewrite (parse_fixed _ _ _ p4), (parse_fixed _ _ _ pm), (parse_fixed _ _ _ pd) by (destruct Hf; lia).
  cbn [mbind option_bind default from_option id].
  rewrite (parse_fixed _ _ _ ph), (parse_fixed _ _ _ pmi), (parse_fixed _ _ _ ps) by (destruct Hf; lia).
  cbn [mbind option_bind]. destruct (in_valid f Hf) as (n & -> & Hday). cbn [mbind option_bind].
  rewrite (fraction_fixed _ _ pms) by (destruct Hf; lia).
  pose proof (in_hour f Hf). pose proof (in_minute f Hf). pose proof (in_second f Hf).
  destruct (Z.leb_spec 1 (f_day f)); [|lia]. destruct (Z.leb_spec (f_day f) n); [|lia].
  destruct (Z.ltb_spec 23 (f_hour f)); [lia|]. destruct (Z.ltb_spec 59 (f_minute f)); [lia|].
  destruct (Z.ltb_spec 59 (f_second f)); [lia|]. cbn [andb orb negb].
  change (zone_offset (Some (lit "Z"))) with (Some 0). cbn [mbind option_bind]. f_equal.
  unfold fields_millis. lia.
Qed.
End Printed.

(** Compares the texts of the next field, of width [w]. *)
Ltac compare_field w x y :=
  rewrite (fixed_compare w x y) by
    (first [apply padded_fixed|idtac]; repeat match goal with H : in_range _ |- _ => destruct H end; lia);
  destruct (x ?= y); [|done..]; rewrite ?str_cmp_same.

Lemma print_compare f g :
  in_range f → in_range g → str_cmp (print_fields f) (print_fields g)
  = match f_year f ?= f_year g with Eq =>
    match f_month f ?= f_month g with Eq =>
    match f_day f ?= f_day g with Eq =>
    match f_hour f ?= f_hour g with Eq =>
    match f_minute f ?= f_minute g with Eq =>
    match f_second f ?= f_second g with Eq => f_millis f ?= f_millis g
    | c => c end | c => c end | c => c end | c => c end | c => c end | c => c end.
Proof.
  intros Hf Hg. unfold print_fields.
  compare_field 4%nat (f_year f) (f_year g). compare_field 2%nat (f_month f) (f_month g).
  compare_field 2%nat (f_day f) (f_day g). compare_field 2%nat (f_hour f) (f_hour g).
  compare_field 2%nat (f_minute f) (f_minute g). compare_field 2%nat (f_second f) (f_second g).
  by compare_field 3%nat (f_millis f) (f_millis g).
Qed.

(** Fields in lexicographic order are points in time in order. *)
Lemma fields_compare f g :
  in_range f → in_range g → str_cmp (print_fields f) (print_fields g) = (fields_millis f ?= fields_millis g).
Proof.
  intros Hf Hg. rewrite print_compare by done. symmetry.
  pose proof (days_lt _ _ _ _ _ _ (in_valid f Hf) (in_valid g Hg)) as Hlt.
  pose proof (days_lt _ _ _ _ _ _ (in_valid g Hg) (in_valid f Hf)) as Hgt.
  destruct Hf as [? ? ? Fh Fm Fs Fms _], Hg as [? ? ? Gh Gm Gs Gms _]. unfold date_lt in Hlt, Hgt. unfold fields_millis.
  destruct (Z.compare_spec (f_year f) (f_year g)) as [Ey|Ey|Ey];
    [|apply Z.compare_lt_iff; lia|apply Z.compare_gt_iff; lia].
  destruct (Z.compare_spec (f_month f) (f_month g)) as [Em|Em|Em];
    [|apply Z.compare_lt_iff; lia|apply Z.compare_gt_iff; lia].
  destruct (Z.compare_spec (f_day f) (f_day g)) as [Ed|Ed|Ed];
    [|apply Z.compare_lt_iff; lia|apply Z.compare_gt_iff; lia].
  rewrite Ey, Em, Ed. clear Hlt Hgt.
  repeat match goal with
  | |- _ = match ?x ?= ?y with _ => _ end =>
      destruct (Z.compare_spec x y); [|apply Z.compare_lt_iff; lia|apply Z.compare_gt_iff; lia]
  end.
  destruct (Z.compare_spec (f_millis f) (f_millis g));
    [apply Z.compare_eq_iff|apply Z.compare_lt_iff|apply Z.compare_gt_iff]; lia.
Qed.

(** ** Properties *)

(** Round trip: a formatted point in time reads back as the same point in time, to the
    millisecond. *)
Theorem format_round_trip millis s : format_epoch millis = Some s → timestamp_millis s = Some millis.
Proof.
  intros (-> & Hrange & Heq)%format_epoch_fields. by rewrite millis_printed, Heq.
Qed.

(** Normalised timestamps are compared as texts by the filters; that is the order in time. *)
Theorem timestamp_order a b s t :
  format_epoch a = Some s → format_epoch b = Some t → str_cmp s t = (a ?= b).
Proof.
  intros (-> & Ha & Ea)%format_epoch_fields (-> & Hb & Eb)%format_epoch_fields.
  by rewrite fields_compare, Ea, Eb.
Qed.

(** The date arithmetic is the Gregorian calendar: the epoch is day 0, every day has a valid date
    that counts back to it, and the day after a valid date, by the lengths of the months and the
    leap years, is the next day. *)
Theorem civil_calendar :
  civil_from_days 0 = (1970, 1, 1)
  ∧ (∀ z y m d, civil_from_days z = (y, m, d) → valid_date y m d ∧ days_from_civil y m d = z)
  ∧ ∀ y m d, valid_date y m d →
      civil_from_days (days_from_civil y m d) = (y, m, d)
      ∧ civil_from_days (days_from_civil y m d + 1) = next_day (y, m, d).
Proof.
  split; [reflexivity|]. split; [exact civil_valid|]. intros y m d Hdate.
  split; [by apply civil_inverse|]. pose proof (next_day_spec y m d Hdate) as Hnext.
  destruct (next_day (y, m, d)) as [[y' m'] d']. destruct Hnext as [Hv <-]. by apply civil_inverse.
Qed.

(** ** Witnesses *)

Lemma format_round_trip_witness : timestamp_millis (lit "2023-11-14T22:13:20.123Z") = Some 1700000000123.
Proof. apply format_round_trip. vm_compute. reflexivity. Defined.

Lemma timestamp_order_witness :
  str_cmp (lit "2023-11-14T22:13:20.123Z") (lit "2024-02-29T23:30:00.000Z") = (1700000000123 ?= 1709249400000).
Proof. apply timestamp_order; vm_compute; reflexivity. Defined.
