(* ===== verification/Blocking.v ===== *)
(** * Blocking: the bounded pool of heavy jobs

    Models [src/blocking.rs].  A request that calls [HeavyWork::run] becomes a job of the pool: it
    reserves an admission slot or is rejected, waits for a running slot, runs its closure on a
    blocking thread and hands the outcome back.  The [async] function is cut at its await points:
    one definition per segment, each [None] while the segment is not enabled, and a step relation
    that interleaves the segments of every job with cancellations and the shutdown.

    tokio's semaphores and cancellation tokens are parameters of the model: the classes
    [Semaphore] and [CancellationTokens] hold the operations the code calls and
    [SemaphoreLaws] and [CancellationLaws] their documented behaviour.  Nothing here relies on the
    order in which a semaphore serves its waiters. *)

From S2P Require Import Prelude.
From S2P Require Import Text.

Open Scope N_scope.

(** ** tokio's semaphores and cancellation tokens *)

(** [tokio::sync::Semaphore]; [add_permit] is the drop of an [OwnedSemaphorePermit].  [new]
    panics above [MAX_PERMITS]. *)
Class Semaphore := {
  semaphore : Type;
  MAX_PERMITS : N;
  semaphore_new : N → exec semaphore;
  available_permits : semaphore → N;
  try_acquire : semaphore → option semaphore;
  add_permit : semaphore → semaphore;
}.

Class SemaphoreLaws `{Semaphore} := {
  semaphore_new_permits n s : semaphore_new n = Done s → available_permits s = n;
  semaphore_new_total n : n ≤ MAX_PERMITS → total (semaphore_new n);
  try_acquire_none s : try_acquire s = None ↔ available_permits s = 0;
  try_acquire_some s s' : try_acquire s = Some s' → available_permits s = available_permits s' + 1;
  add_permit_permits s : available_permits (add_permit s) = available_permits s + 1;
}.

(** [tokio_util::sync::CancellationToken]: the tree of one root token, here the shutdown token,
    and the child tokens issued from it. *)
Class CancellationTokens := {
  token : Type;
  tokens : Type;
  tokens_new : tokens;
  child_token : tokens → token * tokens;
  issued : tokens → token → Prop;
  cancel_root : tokens → tokens;
  cancel : token → tokens → tokens;
  root_cancelled : tokens → bool;
  token_cancelled : tokens → token → bool;
}.

Class CancellationLaws `{CancellationTokens} := {
  child_token_new ts t ts' : child_token ts = (t, ts') →
    ¬ issued ts t ∧ issued ts' t ∧ token_cancelled ts' t = root_cancelled ts;
  child_token_old ts t ts' t' : child_token ts = (t, ts') → issued ts t' →
    issued ts' t' ∧ token_cancelled ts' t' = token_cancelled ts t';
  child_token_root ts t ts' : child_token ts = (t, ts') → root_cancelled ts' = root_cancelled ts;
  cancel_spec ts t t' : token_cancelled (cancel t ts) t' = true ↔ token_cancelled ts t' = true ∨ t' = t;
  cancel_root_kept ts t : root_cancelled (cancel t ts) = root_cancelled ts;
  cancel_issued ts t t' : issued ts t' → issued (cancel t ts) t';
  cancel_root_spec ts : root_cancelled (cancel_root ts) = true;
  cancel_root_child ts t : issued ts t → token_cancelled (cancel_root ts) t = true;
  cancel_root_issued ts t : issued ts t → issued (cancel_root ts) t;
  root_cancels ts t : root_cancelled ts = true → issued ts t → token_cancelled ts t = true;
  tokens_new_root : root_cancelled tokens_new = false;
}.

(** ** Data *)

Record HeavyWorkLimits := {
  running : N;
  queued : N;
}.

Inductive HeavyWorkError :=
| Overloaded (limits : HeavyWorkLimits)
| Cancelled
| Failed.

(** What [handle.await] yields: the closure's value ([None] when it found its token cancelled) or
    the panic of the work. *)
Inductive Outcome (T : Type) :=
| Joined (value : option T)
| Panicked.
Arguments Joined {T} value.
Arguments Panicked {T}.

(** Where a call of [run] is.  [awaited] says whether the request still waits for the blocking
    thread: its future is dropped otherwise. *)
Inductive Phase (T : Type) :=
| Selecting
| Spawned (awaited : bool)
| Working (awaited : bool)
| Returned (outcome : Outcome T)
| Answered (answer : T + HeavyWorkError)
| Abandoned.
Arguments Selecting {T}.
Arguments Spawned {T} awaited.
Arguments Working {T} awaited.
Arguments Returned {T} outcome.
Arguments Answered {T} answer.
Arguments Abandoned {T}.

Section Pool.
Context `{Semaphore, CancellationTokens} {T : Type}.

Record Job := {
  job_token : token;
  phase : Phase T;
}.

Record HeavyWork := {
  slots_limits : HeavyWorkLimits;
  running_slots : semaphore;
  admitted_slots : semaphore;
  job_tokens : tokens;
  jobs : list Job;
}.

(** ** The current job of a thread *)

(** [CURRENT] of one thread. *)
Definition is_cancelled (ts : tokens) (current : option token) : bool :=
  match current with
  | Some t => token_cancelled ts t
  | None => false
  end.

Definition checkpoint (ts : tokens) (current : option token) : unit + HeavyWorkError :=
  if is_cancelled ts current then inr Cancelled else inl ().

(** [work] sees and may change the current job of its thread; the drop of [RestoreCurrent] puts
    the previous one back whatever [work] left, a panic ([None]) included. *)
Definition scope {A} (t : token) (work : option token → option A * option token)
    (current : option token) : option A * option token :=
  let previous := current in
  let (r, _) := work (Some t) in
  (r, previous).

(** ** The operations of the pool *)

Definition capacity (l : HeavyWorkLimits) : N := saturating_add (running l) (queued l).

Definition new (limits : HeavyWorkLimits) : exec HeavyWork :=
  r ← semaphore_new (running limits);
  a ← semaphore_new (capacity limits);
  Done {| slots_limits := limits; running_slots := r; admitted_slots := a;
          job_tokens := tokens_new; jobs := [] |}.

Definition active_jobs (p : HeavyWork) : N :=
  saturating_sub (capacity (slots_limits p)) (available_permits (admitted_slots p)).

Definition shutdown (p : HeavyWork) : HeavyWork :=
  {| slots_limits := slots_limits p; running_slots := running_slots p;
     admitted_slots := admitted_slots p; job_tokens := cancel_root (job_tokens p);
     jobs := jobs p |}.

(** [run] up to its first await: the rejection of a full pool, or a new job. *)
Definition run (p : HeavyWork) : HeavyWork * option HeavyWorkError :=
  match try_acquire (admitted_slots p) with
  | None => (p, Some (Overloaded (slots_limits p)))
  | Some admitted =>
      let (t, ts) := child_token (job_tokens p) in
      ({| slots_limits := slots_limits p; running_slots := running_slots p;
          admitted_slots := admitted; job_tokens := ts;
          jobs := jobs p ++ [{| job_token := t; phase := Selecting |}] |}, None)
  end.

Definition set_phase (i : nat) (ph : Phase T) (p : HeavyWork) : HeavyWork :=
  {| slots_limits := slots_limits p; running_slots := running_slots p;
     admitted_slots := admitted_slots p; job_tokens := job_tokens p;
     jobs := alter (λ j, {| job_token := job_token j; phase := ph |}) i (jobs p) |}.

Definition drop_admitted (p : HeavyWork) : HeavyWork :=
  {| slots_limits := slots_limits p; running_slots := running_slots p;
     admitted_slots := add_permit (admitted_slots p); job_tokens := job_tokens p;
     jobs := jobs p |}.

Definition set_running (s : semaphore) (p : HeavyWork) : HeavyWork :=
  {| slots_limits := slots_limits p; running_slots := s;
     admitted_slots := admitted_slots p; job_tokens := job_tokens p;
     jobs := jobs p |}.

(** The drop of the closure's [_slots]. *)
Definition drop_slots (p : HeavyWork) : HeavyWork :=
  drop_admitted (set_running (add_permit (running_slots p)) p).

Definition cancel_job (t : token) (p : HeavyWork) : HeavyWork :=
  {| slots_limits := slots_limits p; running_slots := running_slots p;
     admitted_slots := admitted_slots p; job_tokens := cancel t (job_tokens p);
     jobs := jobs p |}.

(** The biased [select!]: the cancellation first, then a running slot, and the spawn.  The early
    return drops the guard, which cancels the token, and the admission slot. *)
Definition poll_select (i : nat) (p : HeavyWork) : option HeavyWork :=
  j ← jobs p !! i;
  match phase j with
  | Selecting =>
      if token_cancelled (job_tokens p) (job_token j) then
        Some (drop_admitted (cancel_job (job_token j)
                (set_phase i (Answered (inr Cancelled)) p)))
      else
        r ← try_acquire (running_slots p);
        Some (set_running r (set_phase i (Spawned true) p))
  | _ => None
  end.

(** The outcome of the closure reaches the request if it still waits. *)
Definition handed (awaited : bool) (outcome : Outcome T) : Phase T :=
  if awaited then Returned outcome else Abandoned.

(** The closure starts on its thread: [(!job.is_cancelled()).then(work)]. *)
Definition begin_work (i : nat) (p : HeavyWork) : option HeavyWork :=
  j ← jobs p !! i;
  match phase j with
  | Spawned awaited =>
      if token_cancelled (job_tokens p) (job_token j) then
        Some (drop_slots (set_phase i (handed awaited (Joined None)) p))
      else Some (set_phase i (Working awaited) p)
  | _ => None
  end.

(** The work returns a value, or panics. *)
Definition finish_work (i : nat) (value : option T) (p : HeavyWork) : option HeavyWork :=
  j ← jobs p !! i;
  match phase j with
  | Working awaited =>
      let outcome := match value with Some v => Joined (Some v) | None => Panicked end in
      Some (drop_slots (set_phase i (handed awaited outcome) p))
  | _ => None
  end.

Definition answer_of (cancelled : bool) (outcome : Outcome T) : T + HeavyWorkError :=
  match outcome with
  | Joined (Some value) => if cancelled then inr Cancelled else inl value
  | Joined None => inr Cancelled
  | Panicked => inr Failed
  end.

(** The request resumes after [handle.await], with its guard disarmed. *)
Definition deliver (i : nat) (p : HeavyWork) : option HeavyWork :=
  j ← jobs p !! i;
  match phase j with
  | Returned outcome =>
      Some (set_phase i (Answered (answer_of (token_cancelled (job_tokens p) (job_token j)) outcome)) p)
  | _ => None
  end.

(** The request's future is dropped: the guard cancels the token; before the spawn the admission
    slot goes with the future, after it the closure keeps both slots. *)
Definition drop_future (i : nat) (p : HeavyWork) : option HeavyWork :=
  j ← jobs p !! i;
  match phase j with
  | Selecting => Some (drop_admitted (cancel_job (job_token j) (set_phase i Abandoned p)))
  | Spawned true => Some (cancel_job (job_token j) (set_phase i (Spawned false) p))
  | Working true => Some (cancel_job (job_token j) (set_phase i (Working false) p))
  | Returned _ => Some (cancel_job (job_token j) (set_phase i Abandoned p))
  | _ => None
  end.

(** ** Executions of the pool *)

(** One segment of one call of [run]. *)
Inductive job_step (i : nat) (p p' : HeavyWork) : Prop :=
| step_select : poll_select i p = Some p' → job_step i p p'
| step_begin : begin_work i p = Some p' → job_step i p p'
| step_finish value : finish_work i value p = Some p' → job_step i p p'
| step_deliver : deliver i p = Some p' → job_step i p p'
| step_drop : drop_future i p = Some p' → job_step i p p'.

Inductive step (p p' : HeavyWork) : Prop :=
| step_run r : run p = (p', r) → step p p'
| step_job i : job_step i p p' → step p p'
| step_shutdown : shutdown p = p' → step p p'.

Inductive reachable (limits : HeavyWorkLimits) : HeavyWork → Prop :=
| reach_new p : new limits = Done p → reachable limits p
| reach_step p p' : reachable limits p → step p p' → reachable limits p'.

End Pool.
Arguments Job {_} T.
Arguments HeavyWork {_ _} T.

(** ** Invariant: every slot is held by a job *)

Section Correctness.
Context `{SemaphoreLaws} `{CancellationLaws} {T : Type}.
Implicit Types (p : HeavyWork T) (j : Job T) (ph : Phase T).

(** The jobs that hold an admission slot, and those that hold a running slot as well. *)
Definition holds_admission (ph : Phase T) : N :=
  match ph with Selecting | Spawned _ | Working _ => 1 | _ => 0 end.
Definition holds_running (ph : Phase T) : N :=
  match ph with Spawned _ | Working _ => 1 | _ => 0 end.
Definition is_working (ph : Phase T) : N := match ph with Working _ => 1 | _ => 0 end.

Definition count (f : Phase T → N) (p : HeavyWork T) : N := sum (f ∘ phase <$> jobs p).

Lemma count_alter (f : Phase T → N) (ph : Phase T) (l : list (Job T)) i j :
  l !! i = Some j →
  sum (f ∘ phase <$> alter (λ j, {| job_token := job_token j; phase := ph |}) i l) + f (phase j)
  = sum (f ∘ phase <$> l) + f ph.
Proof.
  revert i. induction l as [|k l IH]; intros [|i] Hi; simplify_eq/=; rewrite ?sum_cons; [lia|].
  specialize (IH i Hi). lia.
Qed.

Lemma count_set_phase f i ph p j :
  jobs p !! i = Some j → count f (set_phase i ph p) + f (phase j) = count f p + f ph.
Proof. apply count_alter. Qed.

Record pool_inv (limits : HeavyWorkLimits) (p : HeavyWork T) : Prop := {
  inv_limits : slots_limits p = limits;
  inv_admitted : available_permits (admitted_slots p) + count holds_admission p = capacity limits;
  inv_running : available_permits (running_slots p) + count holds_running p = running limits;
  inv_issued i j : jobs p !! i = Some j → issued (job_tokens p) (job_token j);
}.

(** What a segment of job [i] does to its own phase, to the other jobs and to the slots. *)
Record moves (i : nat) (ph ph' : Phase T) (p p' : HeavyWork T) : Prop := {
  move_limits : slots_limits p' = slots_limits p;
  move_jobs : ∃ j, jobs p !! i = Some j ∧ phase j = ph ∧
    jobs p' = alter (λ j, {| job_token := job_token j; phase := ph' |}) i (jobs p);
  move_admitted : available_permits (admitted_slots p') + holds_admission ph'
    = available_permits (admitted_slots p) + holds_admission ph;
  move_running : available_permits (running_slots p') + holds_running ph'
    = available_permits (running_slots p) + holds_running ph;
  move_issued t : issued (job_tokens p) t → issued (job_tokens p') t;
  move_cancelled t : token_cancelled (job_tokens p) t = true → token_cancelled (job_tokens p') t = true;
  move_root : root_cancelled (job_tokens p') = root_cancelled (job_tokens p);
  move_alive j : jobs p !! i = Some j →
    (∃ v, ph' = Answered (inl v)) ∨ (is_working ph = 0 ∧ is_working ph' = 1) →
    token_cancelled (job_tokens p) (job_token j) = false;
}.

(** The order in which a job's phases follow each other; a move goes down. *)
Definition rank (ph : Phase T) : nat :=
  match ph with
  | Selecting => 7
  | Spawned true => 6
  | Spawned false => 5
  | Working true => 4
  | Working false => 3
  | Returned _ => 2
  | _ => 0
  end.

Ltac slots :=
  match goal with
  | E : try_acquire _ = Some _ |- _ => pose proof (try_acquire_some _ _ E)
  | _ => idtac
  end;
  rewrite ?add_permit_permits; simpl; try lia.

Lemma job_step_moves i p p' :
  job_step i p p' → ∃ ph ph', moves i ph ph' p p' ∧ (rank ph' < rank ph)%nat.
Proof.
  intros [Hs|Hs|v Hs|Hs|Hs];
    [unfold poll_select in Hs | unfold begin_work in Hs | unfold finish_work in Hs
    |unfold deliver in Hs | unfold drop_future in Hs];
    destruct (jobs p !! i) as [j|] eqn:Hj; [|done|..|done] || idtac; try done; simpl in Hs;
    destruct (phase j) as [|a|a|o|a|] eqn:Hph; try done; try (destruct a; try done);
    try (destruct (token_cancelled _ _) eqn:Hc; try done);
    try (destruct (try_acquire _) as [r|] eqn:Hr; try done); simpl in Hs;
    injection Hs as <-.
  all: eexists _, _; split; [split; simpl;
    [ done
    | exists j; split_and!; [exact Hj|exact Hph|reflexivity]
    | slots | slots
    | intros; eauto using cancel_issued
    | intros; rewrite ?cancel_spec; eauto
    | by rewrite ?cancel_root_kept
    | intros j' Hj' Hal; replace j' with j in * by congruence;
      first [done | destruct Hal as [[v' Hv']|[]]; try done; revert Hv';
        unfold answer_of; repeat case_match; simplify_eq/=; congruence] ]|simpl; lia].
Qed.

(** Every step keeps the jobs' tokens and phases of the other jobs. *)
Lemma moves_lookup i ph ph' p p' k j :
  moves i ph ph' p p' → jobs p !! k = Some j →
  ∃ j', jobs p' !! k = Some j' ∧ job_token j' = job_token j ∧
    (if decide (k = i) then phase j = ph ∧ phase j' = ph' else phase j' = phase j).
Proof.
  intros [_ (j0 & Hj0 & Hph & ->) _ _ _ _ _ _] Hk. destruct (decide (k = i)) as [->|Hki].
  - rewrite list_lookup_alter, decide_True, Hk by done.
    eexists; split; [reflexivity|]; split; [done|]. split; [congruence|done].
  - rewrite list_lookup_alter, decide_False by done. by exists j.
Qed.

Lemma moves_length i ph ph' p p' : moves i ph ph' p p' → length (jobs p') = length (jobs p).
Proof. intros [_ (j0 & _ & _ & ->) _ _ _ _ _ _]. apply length_alter. Qed.

Lemma moves_count f i ph ph' p p' : moves i ph ph' p p' → count f p' + f ph = count f p + f ph'.
Proof.
  intros [_ (j & Hj & <- & Hjobs) _ _ _ _ _ _]. unfold count. rewrite Hjobs. by apply count_alter.
Qed.

Lemma moves_inv limits i ph ph' p p' : pool_inv limits p → moves i ph ph' p p' → pool_inv limits p'.
Proof.
  intros [Hl Ha Hr Hi] Hm.
  pose proof (moves_count holds_admission _ _ _ _ _ Hm).
  pose proof (moves_count holds_running _ _ _ _ _ Hm).
  split.
  - by rewrite (move_limits _ _ _ _ _ Hm).
  - pose proof (move_admitted _ _ _ _ _ Hm). lia.
  - pose proof (move_running _ _ _ _ _ Hm). lia.
  - intros k j' Hk. destruct (lookup_lt_is_Some_2 (jobs p) k) as [j Hj].
    { rewrite <- (moves_length _ _ _ _ _ Hm). by eapply lookup_lt_Some. }
    destruct (moves_lookup _ _ _ _ _ _ _ Hm Hj) as (j2 & Hj2 & Ht & _).
    simplify_eq. rewrite Ht. apply (move_issued _ _ _ _ _ Hm). by eapply Hi.
Qed.

Lemma run_inv limits p p' r : pool_inv limits p → run p = (p', r) → pool_inv limits p'.
Proof.
  intros [Hl Ha Hr Hi]. unfold run. destruct (try_acquire _) as [a|] eqn:Hacq; [|by intros [= <- _]].
  destruct (child_token _) as [t ts] eqn:Hc. intros [= <- _].
  pose proof (try_acquire_some _ _ Hacq). destruct (child_token_new _ _ _ Hc) as (Hnew & Hiss & _).
  assert (Hnone : ∀ f : Phase T → N, f Selecting = sum (f ∘ phase <$> [{| job_token := t; phase := Selecting |}])).
  { intros f. unfold sum. simpl. lia. }
  split; simpl; [done|..]; unfold count in *; simpl; rewrite ?fmap_app, ?sum_app, <- ?Hnone; simpl.
  - lia.
  - lia.
  - intros k j [Hk|(? & Hk)]%lookup_app_Some.
    + by eapply child_token_old, Hi.
    + apply list_lookup_singleton_Some in Hk as [_ <-]. done.
Qed.

Lemma step_inv limits p p' : pool_inv limits p → step p p' → pool_inv limits p'.
Proof.
  intros Hinv [r Hrun|i Hjob|<-].
  - by eapply run_inv.
  - destruct (job_step_moves _ _ _ Hjob) as (? & ? & Hm & _). by eapply moves_inv.
  - destruct Hinv as [Hl Ha Hr Hi]. split; simpl; [done..|]. intros. by eapply cancel_root_issued, Hi.
Qed.

Lemma new_inv limits p : new limits = Done p → pool_inv limits p.
Proof.
  unfold new. intros Hnew.
  destruct (semaphore_new (running limits)) as [r| |] eqn:Hr; [|done..]. simpl in Hnew.
  destruct (semaphore_new (capacity limits)) as [a| |] eqn:Ha; [|done..]. simpl in Hnew.
  injection Hnew as <-. apply semaphore_new_permits in Hr, Ha.
  split; simpl; [done| | |done]; unfold count, sum; simpl; lia.
Qed.

Lemma pool_reachable_inv limits p : reachable limits p → pool_inv limits p.
Proof. induction 1; [by apply new_inv|by eapply step_inv]. Qed.

(** ** Bounds *)

Lemma count_le (f g : Phase T → N) p : (∀ ph, f ph ≤ g ph) → count f p ≤ count g p.
Proof.
  intros Hle. unfold count. induction (jobs p) as [|j l IH]; [done|].
  rewrite !fmap_cons, !sum_cons. specialize (Hle (phase j)). simpl. lia.
Qed.

(** The pool is bounded in every reachable state, whatever was cancelled: at most [running]
    closures execute, at most [running + queued] jobs hold a slot, and [active_jobs] is exactly
    the number of jobs that still hold one, the cancelled ones whose closure has not returned
    included. *)
Theorem pool_bounded limits p :
  reachable limits p →
  count is_working p ≤ running limits ∧
  count holds_admission p ≤ capacity limits ∧
  active_jobs p = count holds_admission p.
Proof.
  intros [Hl Ha Hr _]%pool_reachable_inv. split_and!.
  - assert (count is_working p ≤ count holds_running p) by (apply count_le; by intros []). lia.
  - lia.
  - unfold active_jobs, saturating_sub. rewrite Hl. lia.
Qed.

(** A call of [run] is rejected exactly when every admission slot is taken, with the limits of
    the pool, and then changes nothing; otherwise it is admitted as one more job, whose token is
    cancelled only if the server is shutting down. *)
Theorem run_admits limits p p' r :
  reachable limits p → run p = (p', r) →
  match r with
  | Some e => e = Overloaded limits ∧ p' = p ∧ count holds_admission p = capacity limits
  | None => count holds_admission p < capacity limits ∧
      ∃ t, jobs p' = jobs p ++ [{| job_token := t; phase := Selecting |}] ∧
        token_cancelled (job_tokens p') t = root_cancelled (job_tokens p)
  end.
Proof.
  intros [Hl Ha Hr _]%pool_reachable_inv. unfold run. destruct (try_acquire _) as [a|] eqn:Hacq.
  - destruct (child_token _) as [t ts] eqn:Hc. intros [= <- <-].
    pose proof (try_acquire_some _ _ Hacq). split; [lia|]. exists t. split; [done|].
    by eapply child_token_new.
  - intros [= <- <-]. apply try_acquire_none in Hacq. rewrite Hl. split_and!; [done..|lia].
Qed.

(** ** Cancellation *)

(** A job whose token is cancelled and that has not answered with a value. *)
Definition doomed (i : nat) (p : HeavyWork T) : Prop :=
  ∃ j, jobs p !! i = Some j ∧ issued (job_tokens p) (job_token j) ∧
    token_cancelled (job_tokens p) (job_token j) = true ∧ ∀ v, phase j ≠ Answered (inl v).

Lemma doomed_step i p p' : doomed i p → step p p' → doomed i p'.
Proof.
  intros (j & Hj & Hiss & Hc & Hno) [r Hrun|k Hjob|<-].
  - unfold run in Hrun. destruct (try_acquire _); [|injection Hrun as <- _; by exists j].
    destruct (child_token _) as [t ts] eqn:Hct. injection Hrun as <- _.
    destruct (child_token_old _ _ _ _ Hct Hiss) as [? Hold].
    exists j. simpl. rewrite Hold. split_and!; [by apply lookup_app_l_Some|done..].
  - destruct (job_step_moves _ _ _ Hjob) as (ph & ph' & Hm & _).
    destruct (moves_lookup _ _ _ _ _ _ _ Hm Hj) as (j' & Hj' & Ht & Hph).
    exists j'. rewrite Ht. split_and!; [done|by eapply move_issued|by eapply move_cancelled|].
    destruct (decide (i = k)) as [->|_]; [|by rewrite Hph].
    destruct Hph as [<- ->]. intros v Hv.
    pose proof (move_alive _ _ _ _ _ Hm j Hj ltac:(left; eauto)). congruence.
  - exists j. simpl. split_and!; [done|by apply cancel_root_issued|by apply cancel_root_child|done].
Qed.

(** C37: The value of a job is never delivered after its cancellation: once its token is cancelled
    (its request dropped, or the server shutting down) and it has not answered yet, no
    continuation of any interleaving answers it with a value. *)
Theorem cancelled_never_answered limits p p' i j j' v :
  reachable limits p → jobs p !! i = Some j →
  token_cancelled (job_tokens p) (job_token j) = true → (∀ v, phase j ≠ Answered (inl v)) →
  rtc step p p' → jobs p' !! i = Some j' → phase j' ≠ Answered (inl v).
Proof.
  intros Hp%pool_reachable_inv Hj Hc Hno Hsteps Hj'.
  assert (Hd : doomed i p) by (exists j; split_and!; [done|by eapply inv_issued|done..]).
  clear Hp Hj Hc Hno. induction Hsteps as [p|p q p' Hs _ IH].
  - destruct Hd as (j2 & Hj2 & _ & _ & Hno). simplify_eq. apply Hno.
  - apply IH; [done|by eapply doomed_step].
Qed.

(** Once the server is shutting down no closure starts its work, in any continuation. *)
Theorem shutdown_starts_nothing limits p i j p' j' :
  reachable limits p → jobs p !! i = Some j → is_working (phase j) = 0 →
  rtc step (shutdown p) p' → jobs p' !! i = Some j' → is_working (phase j') = 0.
Proof.
  intros Hp%pool_reachable_inv Hj Hw Hsteps.
  assert (Hd : ∃ j, jobs (shutdown p) !! i = Some j ∧ is_working (phase j) = 0 ∧
    issued (job_tokens (shutdown p)) (job_token j) ∧
    token_cancelled (job_tokens (shutdown p)) (job_token j) = true).
  { exists j. simpl. apply (inv_issued _ _ Hp) in Hj as Hi.
    split_and!; [done..|by apply cancel_root_issued|by apply cancel_root_child]. }
  clear Hp Hj Hw. revert Hd j'. induction Hsteps as [q|q q2 p' Hs _ IH].
  - intros (j2 & Hj2 & Hw & _) j' Hj'. by simplify_eq.
  - intros (j2 & Hj2 & Hw & Hi & Hc). apply IH. destruct Hs as [r Hrun|k Hjob|<-].
    + unfold run in Hrun. destruct (try_acquire _); [|injection Hrun as <- _; by exists j2].
      destruct (child_token _) as [t ts] eqn:Hct. injection Hrun as <- _.
      destruct (child_token_old _ _ _ _ Hct Hi) as [? Hold].
      exists j2. simpl. rewrite Hold. split_and!; [by apply lookup_app_l_Some|done..].
    + destruct (job_step_moves _ _ _ Hjob) as (ph & ph' & Hm & _).
      destruct (moves_lookup _ _ _ _ _ _ _ Hm Hj2) as (j3 & Hj3 & Ht & Hph).
      exists j3. rewrite Ht. split_and!; [done| |by eapply move_issued|by eapply move_cancelled].
      destruct (decide (i = k)) as [->|_]; [|by rewrite Hph].
      destruct Hph as [<- ->]. destruct (is_working ph') eqn:E; [done|].
      assert (is_working ph' = 1) by (destruct ph'; done).
      pose proof (move_alive _ _ _ _ _ Hm j2 Hj2 ltac:(right; eauto)). congruence.
    + exists j2. simpl. split_and!; [done..|by apply cancel_root_issued|by apply cancel_root_child].
Qed.

(** ** Progress *)

Definition finished (ph : Phase T) : bool :=
  match ph with Answered _ | Abandoned => true | _ => false end.

Definition total_rank (p : HeavyWork T) : nat := sum_list (rank ∘ phase <$> jobs p).

Lemma alter_rank ph (l : list (Job T)) i j :
  l !! i = Some j → (rank ph < rank (phase j))%nat →
  (sum_list (rank ∘ phase <$> alter (λ j, {| job_token := job_token j; phase := ph |}) i l)
   < sum_list (rank ∘ phase <$> l))%nat.
Proof.
  revert i. induction l as [|k l IH]; intros [|i] Hi Hlt; simplify_eq/=; [lia|].
  specialize (IH i Hi Hlt). lia.
Qed.

Lemma job_step_rank i p p' : job_step i p p' → (total_rank p' < total_rank p)%nat.
Proof.
  intros (ph & ph' & Hm & Hlt)%job_step_moves.
  destruct (move_jobs _ _ _ _ _ Hm) as (j & Hj & <- & Hjobs).
  unfold total_rank. rewrite Hjobs. by eapply alter_rank.
Qed.

Lemma count_pos (f : Phase T → N) p :
  count f p ≠ 0 → ∃ i j, jobs p !! i = Some j ∧ f (phase j) ≠ 0.
Proof.
  unfold count. induction (jobs p) as [|k l IH]; [done|]. rewrite fmap_cons, sum_cons. simpl. intros Hs.
  destruct (decide (f (phase k) = 0)) as [H0'|]; [|by exists 0%nat, k].
  destruct IH as (i & j & ? & ?); [lia|]. by exists (S i), j.
Qed.

(** Some segment of some job is enabled as long as one has not finished. *)
Lemma progress limits p i j :
  pool_inv limits p → 0 < running limits → jobs p !! i = Some j → finished (phase j) = false →
  ∃ k p', job_step k p p'.
Proof.
  intros Hp Hpos Hj Hfin.
  assert (Hown : ∀ i j, jobs p !! i = Some j → finished (phase j) = false →
    phase j ≠ Selecting → ∃ k p', job_step k p p').
  { intros i0 j0 Hi0 Hf0 Hsel. exists i0. destruct (phase j0) as [|a|a|o|a|] eqn:Hph; try done.
    - assert (∃ p', begin_work i0 p = Some p') as [p' ?]; [|by exists p'; apply step_begin].
      unfold begin_work. rewrite Hi0. simpl. rewrite Hph. destruct (token_cancelled _ _); eauto.
    - eexists. apply (step_finish _ _ _ None). unfold finish_work. rewrite Hi0. simpl. by rewrite Hph.
    - eexists. apply step_deliver. unfold deliver. rewrite Hi0. simpl. by rewrite Hph. }
  assert (phase j = Selecting ∨ phase j ≠ Selecting) as [Hsel|] by (destruct (phase j); auto);
    [|by eapply Hown].
  destruct (token_cancelled (job_tokens p) (job_token j)) eqn:Hc.
  { exists i. eexists. apply step_select. unfold poll_select. rewrite Hj. simpl. by rewrite Hsel, Hc. }
  destruct (try_acquire (running_slots p)) as [r|] eqn:Hr.
  { exists i. eexists. apply step_select. unfold poll_select. rewrite Hj. simpl. by rewrite Hsel, Hc, Hr. }
  apply try_acquire_none in Hr.
  destruct (count_pos holds_running p) as (k & j2 & Hk & Hh).
  { pose proof (inv_running _ _ Hp). lia. }
  eapply (Hown k j2); [done|by destruct (phase j2)|by destruct (phase j2)].
Qed.

(** C36: Every request is answered.  With a positive running limit, from any reachable state, a run
    of the jobs' own segments (and of dropped requests), in any interleaving, is finite: it takes
    at most [total_rank] segments.  And it cannot stop early: when no segment is enabled any more,
    every job has answered or was abandoned and every slot is free again. *)
Theorem every_job_finishes limits p n p' :
  reachable limits p → 0 < running limits → nsteps (λ p p', ∃ i, job_step i p p') n p p' →
  (n ≤ total_rank p)%nat ∧
  ((∀ i p'', ¬ job_step i p' p'') →
   (∀ i j, jobs p' !! i = Some j → finished (phase j) = true) ∧ active_jobs p' = 0 ∧
   available_permits (running_slots p') = running limits).
Proof.
  intros Hp%pool_reachable_inv Hpos Hsteps. induction Hsteps as [p|n p q p' [i Hi] _ IH].
  - split; [lia|]. intros Hstop.
    assert (Hfin : ∀ i j, jobs p !! i = Some j → finished (phase j) = true).
    { intros i j Hj. destruct (finished (phase j)) eqn:Hf; [done|].
      destruct (progress _ _ _ _ Hp Hpos Hj Hf) as (k & p' & Hk). by destruct (Hstop k p'). }
    assert (Hnone : ∀ f : Phase T → N, (∀ ph, finished ph = true → f ph = 0) → count f p = 0).
    { intros f Hf. destruct (decide (count f p = 0)) as [|(i & j & Hj & Hne)%count_pos]; [done|].
      exfalso. by eapply Hne, Hf, Hfin. }
    destruct Hp as [Hl Ha Hr _].
    pose proof (Hnone holds_admission ltac:(by intros [])).
    pose proof (Hnone holds_running ltac:(by intros [])).
    split_and!; [done| |lia]. unfold active_jobs, saturating_sub. rewrite Hl. lia.
  - pose proof (job_step_rank _ _ _ Hi).
    destruct IH as [Hn Hend]; [by eapply step_inv, step_job|]. split; [lia|done].
Qed.

(** A dropped request touches no other job. *)
Lemma drop_future_other i k p p' j t :
  drop_future i p = Some p' → jobs p !! i = Some j → jobs p !! k = Some t →
  job_token t ≠ job_token j → k ≠ i →
  jobs p' !! k = Some t ∧
  token_cancelled (job_tokens p') (job_token t) = token_cancelled (job_tokens p) (job_token t).
Proof.
  intros Hd Hj Hk Hne Hki.
  assert (Hc : token_cancelled (cancel (job_token j) (job_tokens p)) (job_token t)
               = token_cancelled (job_tokens p) (job_token t)).
  { apply eq_bool_prop_intro. rewrite !Is_true_true, cancel_spec. naive_solver. }
  unfold drop_future in Hd. rewrite Hj in Hd. simpl in Hd.
  repeat case_match; simplify_eq/=; (split; [|done]); by rewrite list_lookup_alter_ne.
Qed.

End Correctness.

(** ** Witnesses: counters for the semaphores, a flag and a set for the tokens *)

#[export] Instance counter_semaphore : Semaphore := {|
  semaphore := N;
  MAX_PERMITS := 2 ^ 61 - 1;
  semaphore_new n := if n <=? 2 ^ 61 - 1 then Done n else Panic;
  available_permits s := s;
  try_acquire s := if s =? 0 then None else Some (s - 1);
  add_permit s := s + 1;
|}.

#[export] Instance counter_semaphore_laws : SemaphoreLaws.
Proof.
  split; simpl.
  - intros n s. by case_match; intros [= <-].
  - intros n Hn. by rewrite (proj2 (N.leb_le _ _) Hn).
  - intros s. destruct (N.eqb_spec s 0); naive_solver.
  - intros s s'. destruct (N.eqb_spec s 0); [done|]. intros [= <-]. lia.
  - done.
Qed.

Record TokenSet := {
  set_root : bool;
  set_issued : gset N;
  set_cancelled : gset N;
}.

#[export] Instance set_tokens : CancellationTokens := {|
  token := N;
  tokens := TokenSet;
  tokens_new := {| set_root := false; set_issued := ∅; set_cancelled := ∅ |};
  child_token ts :=
    let t := fresh (set_issued ts ∪ set_cancelled ts) in
    (t, {| set_root := set_root ts; set_issued := {[t]} ∪ set_issued ts;
           set_cancelled := set_cancelled ts |});
  issued ts t := t ∈ set_issued ts;
  cancel_root ts := {| set_root := true; set_issued := set_issued ts;
                       set_cancelled := set_cancelled ts |};
  cancel t ts := {| set_root := set_root ts; set_issued := set_issued ts;
                    set_cancelled := {[t]} ∪ set_cancelled ts |};
  root_cancelled ts := set_root ts;
  token_cancelled ts t := set_root ts || bool_decide (t ∈ set_cancelled ts);
|}.

#[export] Instance set_tokens_laws : CancellationLaws.
Proof.
  split; simpl.
  - intros ts t ts' [= <- <-].
    pose proof (is_fresh (set_issued ts ∪ set_cancelled ts)) as Hf. simpl.
    split_and!; [set_solver|set_solver|]. rewrite bool_decide_eq_false_2; [by destruct (set_root ts)|].
    set_solver.
  - intros ts t ts' t' [= <- <-]. simpl. set_solver.
  - by intros ts t ts' [= <- <-].
  - intros ts t t'. rewrite !orb_true_iff, !bool_decide_eq_true. set_solver.
  - done.
  - done.
  - done.
  - done.
  - done.
  - intros ts t ->. done.
  - done.
Qed.

Definition two_limits : HeavyWorkLimits := {| running := 1; queued := 1 |}.

(** A pool of one running and one queued job, with two jobs admitted, the second one's request
    dropped. *)
Definition pool0 : HeavyWork N :=
  {| slots_limits := two_limits; running_slots := 1; admitted_slots := 2;
     job_tokens := tokens_new; jobs := [] |}.
Definition pool1 : HeavyWork N := fst (run pool0).
Definition pool2 : HeavyWork N := fst (run pool1).
Definition pool3 : HeavyWork N := default pool2 (poll_select 0 pool2).
Definition pool4 : HeavyWork N := default pool3 (drop_future 1 pool3).

Example pool_overloaded : snd (run pool2) = Some (Overloaded two_limits).
Proof. vm_compute. reflexivity. Qed.

Lemma default_some {A} (d : A) (o : option A) : is_some o = true → o = Some (default d o).
Proof. by destruct o. Defined.

Lemma pool0_reachable : reachable two_limits pool0.
Proof. apply reach_new. reflexivity. Defined.

Lemma pool2_reachable : reachable two_limits pool2.
Proof.
  apply (reach_step _ pool1); [apply (reach_step _ pool0); [apply pool0_reachable|]|];
    eapply step_run; apply surjective_pairing.
Defined.

Lemma pool3_reachable : reachable two_limits pool3.
Proof.
  apply (reach_step _ pool2); [apply pool2_reachable|].
  apply (step_job _ _ 0). apply step_select, default_some. vm_compute. reflexivity.
Defined.

Lemma pool4_reachable : reachable two_limits pool4.
Proof.
  apply (reach_step _ pool3); [apply pool3_reachable|].
  apply (step_job _ _ 1). apply step_drop, default_some. vm_compute. reflexivity.
Defined.

Lemma pool_bounded_witness : reachable two_limits pool4 ∧ count is_working pool4 ≤ 1.
Proof. split; [apply pool4_reachable|]. apply (pool_bounded two_limits pool4), pool4_reachable. Defined.

Lemma run_admits_witness : snd (run pool2) = Some (Overloaded two_limits) ∧ fst (run pool2) = pool2.
Proof.
  split; [vm_compute; reflexivity|].
  pose proof (run_admits two_limits pool2 (fst (run pool2)) (snd (run pool2)) pool2_reachable
    (surjective_pairing _)) as Hr.
  assert (snd (run pool2) = Some (Overloaded two_limits)) as He by (vm_compute; reflexivity).
  rewrite He in Hr. apply Hr.
Defined.

Lemma cancelled_never_answered_witness :
  ∃ j, jobs pool3 !! 1%nat = Some j ∧
    ∀ p' j' v, rtc step (shutdown pool3) p' → jobs p' !! 1%nat = Some j' → phase j' ≠ Answered (inl v).
Proof.
  eexists. split; [reflexivity|]. intros p' j' v Hs Hj'.
  eapply (cancelled_never_answered two_limits (shutdown pool3) p' 1 _ j' v); [| | | |exact Hs|exact Hj'].
  - eapply reach_step; [apply pool3_reachable|]. by apply step_shutdown.
  - reflexivity.
  - vm_compute. reflexivity.
  - by intros v'.
Defined.

Lemma shutdown_starts_nothing_witness :
  ∃ j, jobs pool3 !! 0%nat = Some j ∧ phase j = Spawned true ∧
    ∀ p' j', rtc step (shutdown pool3) p' → jobs p' !! 0%nat = Some j' → is_working (phase j') = 0.
Proof.
  eexists. split; [reflexivity|]. split; [reflexivity|]. intros p' j' Hs Hj'.
  by eapply (shutdown_starts_nothing two_limits pool3 0); [apply pool3_reachable| | |exact Hs|exact Hj'].
Defined.

Lemma every_job_finishes_witness :
  reachable two_limits pool4 ∧ total_rank pool4 = 6%nat ∧
  ∀ n p', nsteps (λ p p', ∃ i, job_step i p p') n pool4 p' → (n ≤ 6)%nat.
Proof.
  split; [apply pool4_reachable|]. split; [vm_compute; reflexivity|]. intros n p' Hn.
  replace 6%nat with (total_rank pool4) by (vm_compute; reflexivity).
  by eapply (every_job_finishes two_limits pool4 n p' pool4_reachable).
Defined.
