(* ===== verification/TextSearch.v ===== *)
(** * TextSearch: searching and replacing in strings

    The operations of [str] that take a substring pattern ([find], [split], [split_once],
    [rsplit_once], [replace], [trim_start_matches]), white space splitting and the UTF-8 bytes of
    a string, with their lemmas.  A match is reported by what stands before and after it rather
    than by its byte index: the index is the byte length of the first. *)

From S2P Require Import Prelude.
From S2P Require Import Text.

Open Scope N_scope.

(** Decides a closed decidable proposition by computation. *)
Ltac decide_now := refine (bool_decide_unpack _ _); vm_compute; exact I.

(** ** Substrings *)

(** [str::split_once] and [str::find] at a substring: around its first occurrence. *)
Fixpoint split_once_str (p s : str) : option (str * str) :=
  match strip_prefix p s with
  | Some b => Some ([], b)
  | None =>
      match s with
      | [] => None
      | c :: s => '(a, b) ← split_once_str p s; Some (c :: a, b)
      end
  end.

(** [str::rsplit_once]: around its last occurrence. *)
Fixpoint rsplit_once_str (p s : str) : option (str * str) :=
  match s with
  | [] => pair [] <$> strip_prefix p []
  | c :: s' =>
      match rsplit_once_str p s' with
      | Some (a, b) => Some (c :: a, b)
      | None => pair [] <$> strip_prefix p s
      end
  end.

(** [str::split] at a nonempty substring: every match takes at least one character, so one unit
    of fuel per character is enough. *)
Fixpoint split_str_from (fuel : nat) (p s : str) : list str :=
  match fuel with
  | O => [s]
  | S fuel =>
      match split_once_str p s with
      | None => [s]
      | Some (a, b) => a :: split_str_from fuel p b
      end
  end.
Definition split_str (p s : str) : list str := split_str_from (length s) p s.

(** [str::replace] with a nonempty pattern, and [matches(p).count()]. *)
Definition replace (p r s : str) : str := join r (split_str p s).
Definition count_matches (p s : str) : N := N.of_nat (length (split_str p s)) - 1.

(** [str::replace] of one character. *)
Definition replace_char (c r : char) (s : str) : str := (λ x, if x =? c then r else x) <$> s.

(** [str::trim_start_matches] with a nonempty substring: it strips as often as it can. *)
Fixpoint trim_start_str_from (fuel : nat) (p s : str) : str :=
  match fuel with
  | O => s
  | S fuel =>
      match strip_prefix p s with
      | Some s => trim_start_str_from fuel p s
      | None => s
      end
  end.
Definition trim_start_str (p s : str) : str := trim_start_str_from (length s) p s.

(** [Path::file_stem] and [Path::extension]: the stem and the extension of a file name; a name that begins with its only dot has none. *)
Definition split_extension (name : str) : str * option str :=
  match rsplit_once_str [ch "."] name with
  | Some (c :: stem, extension) => (c :: stem, Some extension)
  | _ => (name, None)
  end.

Definition trim_start : str → str := trim_start_matches is_whitespace.
Definition trim_end : str → str := trim_end_matches is_whitespace.

(** [str::split_whitespace]: the nonempty pieces between white space. *)
Definition split_whitespace (s : str) : list str :=
  filter (λ w, w ≠ []) (split_at is_whitespace s).

Definition ascii_lower (s : str) : str := to_ascii_lowercase <$> s.

(** ** UTF-8 *)

Definition utf8_char (c : char) : list N :=
  if c <? 128 then [c]
  else if c <? 2048 then [192 + c / 64; 128 + c mod 64]
  else if c <? 65536 then [224 + c / 4096; 128 + c / 64 mod 64; 128 + c mod 64]
  else [240 + c / 262144; 128 + c / 4096 mod 64; 128 + c / 64 mod 64; 128 + c mod 64].
Definition utf8 (s : str) : list N := mjoin (utf8_char <$> s).

Lemma utf8_cons c s : utf8 (c :: s) = utf8_char c ++ utf8 s.
Proof. done. Qed.

Lemma utf8_blen s : N.of_nat (length (utf8 s)) = blen s.
Proof.
  induction s as [|c s IH]; [done|]. rewrite utf8_cons, length_app. cbn [blen].
  unfold utf8_char, len_utf8. repeat case_match; cbn [length]; lia.
Qed.

Lemma utf8_app s t : utf8 (s ++ t) = utf8 s ++ utf8 t.
Proof. unfold utf8. by rewrite fmap_app, join_app. Qed.

(** An ASCII string is its own encoding. *)
Lemma utf8_ascii s : Forall (λ c, c < 128) s → utf8 s = s.
Proof.
  induction 1 as [|c s Hc _ IH]; [done|]. rewrite utf8_cons, IH. unfold utf8_char.
  by rewrite (proj2 (N.ltb_lt _ _) Hc).
Qed.

(** ** Lemmas: substrings *)

Lemma strip_prefix_app p s : strip_prefix p (p ++ s) = Some s.
Proof. by apply strip_prefix_spec. Qed.

Lemma strip_prefix_nil p : strip_prefix p [] = if decide (p = []) then Some [] else None.
Proof. by destruct p. Qed.

Lemma split_once_str_sound p s a b : split_once_str p s = Some (a, b) → s = a ++ p ++ b.
Proof.
  revert a b. induction s as [|c s IH]; intros a b; cbn [split_once_str].
  - destruct (strip_prefix p []) eqn:E; [|done]. intros [= <- <-]. by apply strip_prefix_spec in E.
  - destruct (strip_prefix p (c :: s)) eqn:E; [intros [= <- <-]; by apply strip_prefix_spec in E|].
    rewrite bind_Some. intros ([a' b'] & Hs & [= <- <-]). by rewrite (IH _ _ Hs).
Qed.

(** The occurrence found is the first one. *)
Lemma split_once_str_first p s a b a' b' :
  split_once_str p s = Some (a, b) → s = a' ++ p ++ b' → (length a ≤ length a')%nat.
Proof.
  revert a b a'. induction s as [|c s IH]; intros a b a'; cbn [split_once_str].
  - destruct (strip_prefix p []) eqn:E; [|done]. intros [= <- <-] _. simpl. lia.
  - destruct (strip_prefix p (c :: s)) eqn:E; [intros [= <- <-] _; simpl; lia|].
    rewrite bind_Some. intros ([a2 b2] & Hs & [= <- <-]) Heq.
    destruct a' as [|c' a']; [|simplify_eq/=; apply le_n_S; by eapply IH].
    simpl in Heq. rewrite Heq, strip_prefix_app in E. done.
Qed.

Lemma split_once_str_None p s : split_once_str p s = None ↔ contains p s = false.
Proof.
  induction s as [|c s IH]; cbn [split_once_str contains].
  - destruct p; by rewrite ?orb_false_r.
  - destruct (strip_prefix p (c :: s)) as [t|] eqn:E.
    + apply strip_prefix_spec in E. assert (starts_with p (c :: s) = true) as ->; [|done].
      apply starts_with_spec. eauto.
    + assert (starts_with p (c :: s) = false) as ->.
      { apply not_true_iff_false. intros [t Ht]%starts_with_spec.
        rewrite Ht, strip_prefix_app in E. done. }
      rewrite <- IH. destruct (split_once_str p s) as [[a b]|]; done.
Qed.

Lemma split_once_str_here p s : split_once_str p (p ++ s) = Some ([], s).
Proof. destruct (p ++ s) eqn:E; cbn [split_once_str]; rewrite <- E, strip_prefix_app; done. Qed.

(** A prefix that does not hold the first character of the pattern is passed over. *)
Lemma split_once_str_app c p a s :
  c ∉ a → split_once_str (c :: p) (a ++ s) = prod_map (app a) id <$> split_once_str (c :: p) s.
Proof.
  induction a as [|x a IH]; intros Hc.
  - simpl app. destruct (split_once_str _ s) as [[? ?]|]; done.
  - apply not_elem_of_cons in Hc as [Hx Hc]. cbn [app split_once_str strip_prefix].
    destruct (N.eqb_spec c x) as [|_]; [done|]. rewrite (IH Hc).
    destruct (split_once_str _ s) as [[? ?]|]; done.
Qed.

Lemma rsplit_once_str_sound p s a b : rsplit_once_str p s = Some (a, b) → s = a ++ p ++ b.
Proof.
  revert a b. induction s as [|c s IH]; intros a b; cbn [rsplit_once_str].
  - rewrite fmap_Some. intros (t & Ht%strip_prefix_spec & [= -> ->]). done.
  - destruct (rsplit_once_str p s) as [[a' b']|] eqn:E.
    + intros [= <- <-]. by rewrite (IH _ _ eq_refl).
    + rewrite fmap_Some. intros (t & Ht%strip_prefix_spec & [= -> ->]). done.
Qed.

Lemma rsplit_once_str_None p s a b : rsplit_once_str p s = None → s ≠ a ++ p ++ b.
Proof.
  revert a b. induction s as [|c s IH]; intros a b; cbn [rsplit_once_str].
  - rewrite fmap_None. intros Hn Heq. symmetry in Heq. apply app_nil in Heq as [-> [-> ->]%app_nil]. done.
  - destruct (rsplit_once_str p s) as [[a' b']|] eqn:E; [done|]. rewrite fmap_None. intros Hn Heq.
    destruct a as [|x a]; [|by simplify_eq/=; eapply IH].
    simpl in Heq. by rewrite Heq, strip_prefix_app in Hn.
Qed.

(** The last occurrence, when what follows it does not hold the first character of the
    pattern. *)
Lemma rsplit_once_str_last c p a b :
  c ∉ p → c ∉ b → rsplit_once_str (c :: p) (a ++ (c :: p) ++ b) = Some (a, b).
Proof.
  intros Hp Hb.
  assert (Hnone : ∀ s, c ∉ s → rsplit_once_str (c :: p) s = None).
  { induction s as [|x s IH]; intros Hs; [done|]. apply not_elem_of_cons in Hs as [Hx Hs].
    cbn [rsplit_once_str strip_prefix]. rewrite (IH Hs). by destruct (N.eqb_spec c x). }
  induction a as [|x a IH].
  - cbn [app rsplit_once_str]. rewrite Hnone by set_solver.
    cbn [strip_prefix]. by rewrite N.eqb_refl, strip_prefix_app.
  - cbn [app rsplit_once_str] in *. by rewrite IH.
Qed.

Lemma split_str_from_join fuel p s : join p (split_str_from fuel p s) = s.
Proof.
  revert s. induction fuel as [|fuel IH]; intros s; [done|]. cbn [split_str_from].
  destruct (split_once_str p s) as [[a b]|] eqn:E; [|done]. apply split_once_str_sound in E.
  specialize (IH b). assert (split_str_from fuel p b ≠ []) as Hne.
  { destruct fuel; cbn [split_str_from]; repeat case_match; done. }
  rewrite E. destruct (split_str_from fuel p b); [done|]. cbn [join] in *. by rewrite IH.
Qed.

(** Joining the pieces with the pattern gives the string back. *)
Lemma split_str_join p s : join p (split_str p s) = s.
Proof. apply split_str_from_join. Qed.

(** Replacing a pattern by itself changes nothing, and a string without it is left alone. *)
Lemma replace_id p s : replace p p s = s.
Proof. apply split_str_join. Qed.

Lemma split_str_none p s : contains p s = false → split_str p s = [s].
Proof.
  intros Hc. unfold split_str. destruct (length s); [done|]. cbn [split_str_from].
  by rewrite (proj2 (split_once_str_None _ _) Hc).
Qed.

Lemma replace_none p r s : contains p s = false → replace p r s = s.
Proof. intros Hc. unfold replace. by rewrite split_str_none. Qed.

(** One unit of fuel per character is enough: no piece holds the pattern any more. *)
Lemma split_str_from_pieces fuel p s :
  p ≠ [] → (length s ≤ fuel)%nat → Forall (λ w, contains p w = false) (split_str_from fuel p s).
Proof.
  intros Hp. revert s. induction fuel as [|fuel IH]; intros s Hs; cbn [split_str_from].
  - destruct s; [|simpl in Hs; lia]. constructor; [by destruct p|done].
  - destruct (split_once_str p s) as [[a b]|] eqn:E.
    + pose proof (split_once_str_sound _ _ _ _ E) as ->. constructor.
      * apply not_true_iff_false. intros Ha.
        destruct (split_once_str p a) as [[a1 b1]|] eqn:Ea.
        { pose proof (split_once_str_sound _ _ _ _ Ea) as Ha'.
          assert (length a ≤ length a1)%nat.
          { eapply (split_once_str_first p (a ++ p ++ b) a b a1 (b1 ++ p ++ b) E).
            rewrite Ha' at 1. by rewrite <- !app_assoc. }
          rewrite Ha', !length_app in *. destruct p; [done|]. simpl in *. lia. }
        apply split_once_str_None in Ea. congruence.
      * apply IH. rewrite !length_app in Hs. destruct p; [done|]. simpl in Hs. lia.
    + constructor; [by apply split_once_str_None|done].
Qed.

Lemma split_str_pieces p s : p ≠ [] → Forall (λ w, contains p w = false) (split_str p s).
Proof. intros. by apply split_str_from_pieces. Qed.

(** ** Lemmas: trimming *)

Lemma trim_start_matches_head (f : char → bool) c s :
  f c = false → trim_start_matches f (c :: s) = c :: s.
Proof. intros Hc. simpl. by rewrite Hc. Qed.

Lemma trim_start_matches_app (f : char → bool) w s :
  Forall (λ c, f c = true) w → trim_start_matches f (w ++ s) = trim_start_matches f s.
Proof. induction 1 as [|c w Hc _ IH]; [done|]. simpl. by rewrite Hc. Qed.

Lemma trim_end_matches_last (f : char → bool) s c :
  f c = false → trim_end_matches f (s ++ [c]) = s ++ [c].
Proof.
  intros Hc. unfold trim_end_matches. rewrite reverse_app. simpl. rewrite Hc.
  by rewrite reverse_cons, reverse_involutive.
Qed.

Lemma trim_end_matches_app (f : char → bool) s w :
  Forall (λ c, f c = true) w → trim_end_matches f (s ++ w) = trim_end_matches f s.
Proof.
  intros Hw. unfold trim_end_matches. rewrite reverse_app, trim_start_matches_app; [done|].
  by apply Forall_reverse.
Qed.

(** A string that begins and ends with characters of its own. *)
Definition tight (f : char → bool) (s : str) : Prop :=
  (∀ c, head s = Some c → f c = false) ∧ (∀ c, last s = Some c → f c = false).

Lemma trim_start_tight f s : tight f s → trim_start_matches f s = s.
Proof. intros [Hh _]. destruct s as [|c s]; [done|]. simpl. by rewrite Hh. Qed.

Lemma trim_end_keeps (f : char → bool) s :
  (∀ c, last s = Some c → f c = false) → trim_end_matches f s = s.
Proof.
  intros Hl. destruct s as [|c s _] using rev_ind; [done|]. apply trim_end_matches_last, Hl.
  apply last_snoc.
Qed.

Lemma trim_end_tight f s : tight f s → trim_end_matches f s = s.
Proof. intros [_ Hl]. by apply trim_end_keeps. Qed.

Lemma trim_tight f s : tight f s → trim_matches f s = s.
Proof. intros Hs. unfold trim_matches. by rewrite trim_start_tight, trim_end_tight. Qed.

Lemma trim_start_str_strip p s :
  p ≠ [] → strip_prefix p s = None → trim_start_str p (p ++ s) = s.
Proof.
  intros Hp Hs. unfold trim_start_str. rewrite length_app.
  destruct p as [|c p]; [done|]. simpl length. cbn [Nat.add trim_start_str_from].
  rewrite strip_prefix_app. destruct (length p + length s)%nat; [done|].
  cbn [trim_start_str_from]. by rewrite Hs.
Qed.

(** ** Lemmas: lines *)

(** The lines of a text are what it was written from, when no line holds a line feed or ends in a
    carriage return. *)
Lemma lines_from_line acc w rest :
  10 ∉ w → lines_from acc (w ++ 10 :: rest) = strip_cr (reverse acc ++ w) :: lines_from [] rest.
Proof.
  revert acc. induction w as [|c w IH]; intros acc Hw; cbn [app lines_from].
  - by rewrite N.eqb_refl, app_nil_r.
  - apply not_elem_of_cons in Hw as [Hc Hw]. destruct (N.eqb_spec c 10) as [->|_]; [done|].
    by rewrite IH, reverse_cons, <- app_assoc.
Qed.

Lemma strip_cr_id w : last w ≠ Some 13 → strip_cr w = w.
Proof.
  intros Hw. unfold strip_cr. destruct (strip_suffix [13] w) as [v|] eqn:E; [|done].
  apply strip_suffix_spec in E as ->. by rewrite last_snoc in Hw.
Qed.

Definition line_text (w : str) : Prop := 10 ∉ w ∧ last w ≠ Some 13.

Lemma lines_of_lines (l : list str) :
  Forall line_text l → lines (mjoin ((λ w, w ++ [10]) <$> l)) = l.
Proof.
  unfold lines. induction 1 as [|w l [Hw Hr] _ IH]; [done|].
  change (mjoin ((λ w, w ++ [10]) <$> w :: l)) with ((w ++ [10]) ++ mjoin ((λ w, w ++ [10]) <$> l)).
  rewrite <- app_assoc. change ([10] ++ ?r) with (10 :: r).
  by rewrite lines_from_line, strip_cr_id, IH.
Qed.

(** A pattern with a character the string does not have is not in it. *)
Lemma contains_char_none c p s : c ∈ p → c ∉ s → contains p s = false.
Proof.
  intros Hp Hs. apply not_true_iff_false. intros Hc.
  destruct (split_once_str p s) as [[a b]|] eqn:E.
  - apply split_once_str_sound in E as ->. set_solver.
  - apply split_once_str_None in E. congruence.
Qed.

Lemma split_once_str_char_none c p s : c ∈ p → c ∉ s → split_once_str p s = None.
Proof. intros. by eapply split_once_str_None, contains_char_none. Qed.
