(* ===== verification/Ordering.v ===== *)
(** * Ordering: total orders, stable sorts and ordered sets

    The [Ord] of the Rust types the code sorts by: numbers, strings (byte order, which is the
    order of the characters), options, tuples and lists; [Reverse]; the stable [sort_by] and
    [sort], [dedup], and [BTreeSet] as a strictly increasing list.  A sort is an insertion sort
    here: two stable sorts by the same order give the same list. *)

From S2P Require Import Prelude.
From S2P Require Import Text.

(** ** Orders *)

Class Ord (A : Type) := cmp : A → A → comparison.
#[export] Hint Mode Ord ! : typeclass_instances.
Arguments cmp {A _} a b : simpl never.

(** A total order: [Eq] is equality. *)
Class OrdLaws (A : Type) `{Ord A} := {
  cmp_eq (a b : A) : cmp a b = Eq ↔ a = b;
  cmp_antisym (a b : A) : cmp b a = CompOpp (cmp a b);
  cmp_lt_trans (a b c : A) : cmp a b = Lt → cmp b c = Lt → cmp a c = Lt;
}.
#[export] Hint Mode OrdLaws ! - : typeclass_instances.

Definition then_cmp (c d : comparison) : comparison := match c with Eq => d | _ => c end.

#[export] Instance N_ord : Ord N := N.compare.
#[export] Instance N_ord_laws : OrdLaws N.
Proof.
  split; unfold cmp, N_ord.
  - apply N.compare_eq_iff.
  - intros a b. apply N.compare_antisym.
  - intros a b c. rewrite !N.compare_lt_iff. lia.
Qed.

#[export] Instance bool_ord : Ord bool := λ a b,
  match a, b with false, true => Lt | true, false => Gt | _, _ => Eq end.
#[export] Instance bool_ord_laws : OrdLaws bool.
Proof. split; [intros [] []|intros [] []|intros [] [] []]; done. Qed.

Definition option_cmp `{Ord A} (a b : option A) : comparison :=
  match a, b with
  | None, None => Eq
  | None, Some _ => Lt
  | Some _, None => Gt
  | Some a, Some b => cmp a b
  end.
#[export] Instance option_ord `{Ord A} : Ord (option A) := option_cmp.
#[export] Instance option_ord_laws `{OrdLaws A} : OrdLaws (option A).
Proof.
  split; change (@cmp (option A) _) with (@option_cmp A _); unfold option_cmp.
  - intros [a|] [b|]; [rewrite cmp_eq|..]; naive_solver.
  - intros [a|] [b|]; [apply cmp_antisym|done..].
  - intros [a|] [b|] [c|]; [apply cmp_lt_trans|done..].
Qed.

Definition prod_cmp `{Ord A, Ord B} (p q : A * B) : comparison :=
  then_cmp (cmp p.1 q.1) (cmp p.2 q.2).
#[export] Instance prod_ord `{Ord A, Ord B} : Ord (A * B) := prod_cmp.
#[export] Instance prod_ord_laws `{OrdLaws A, OrdLaws B} : OrdLaws (A * B).
Proof.
  split; change (@cmp (A * B) _) with (@prod_cmp A _ B _); unfold prod_cmp, then_cmp.
  - intros [a b] [c d]; simpl. pose proof (cmp_eq a c). pose proof (cmp_eq b d).
    destruct (cmp a c); naive_solver.
  - intros [a b] [c d]; simpl. rewrite (cmp_antisym a c), (cmp_antisym b d). by destruct (cmp a c).
  - intros [a b] [c d] [e f]; simpl.
    pose proof (cmp_lt_trans a c e) as Ha. pose proof (cmp_lt_trans b d f).
    destruct (cmp a c) eqn:E1; try done; destruct (cmp c e) eqn:E2; try done;
      try (apply cmp_eq in E1 as ->); try (apply cmp_eq in E2 as ->).
    + by rewrite (proj2 (cmp_eq e e) eq_refl).
    + by rewrite E2.
    + by rewrite E1.
    + by rewrite Ha.
Qed.

Fixpoint list_cmp `{Ord A} (l k : list A) : comparison :=
  match l, k with
  | [], [] => Eq
  | [], _ => Lt
  | _, [] => Gt
  | a :: l, b :: k => then_cmp (cmp a b) (list_cmp l k)
  end.
#[export] Instance list_ord `{Ord A} : Ord (list A) := list_cmp.
#[export] Instance list_ord_laws `{OrdLaws A} : OrdLaws (list A).
Proof.
  split; change (@cmp (list A) _) with (@list_cmp A _).
  - induction a as [|a l IH]; intros [|b k]; simpl; [done..|].
    pose proof (cmp_eq a b). specialize (IH k). destruct (cmp a b); naive_solver.
  - induction a as [|a l IH]; intros [|b k]; simpl; [done..|].
    rewrite (cmp_antisym a b), IH. by destruct (cmp a b).
  - induction a as [|a l IH]; intros [|b k] [|c m]; simpl; try done.
    pose proof (cmp_lt_trans a b c) as Ha. unfold then_cmp.
    destruct (cmp a b) eqn:E1; try done; destruct (cmp b c) eqn:E2; try done;
      try (apply cmp_eq in E1 as ->); try (apply cmp_eq in E2 as ->).
    + rewrite (proj2 (cmp_eq c c) eq_refl). apply IH.
    + by rewrite E2.
    + by rewrite E1.
    + by rewrite Ha.
Qed.

(** [std::cmp::Reverse]. *)
Record Reverse (A : Type) := Rev { unreverse : A }.
Arguments Rev {A} _.
Arguments unreverse {A} _.
Definition reverse_cmp `{Ord A} (a b : Reverse A) : comparison := cmp (unreverse b) (unreverse a).
#[export] Instance reverse_ord `{Ord A} : Ord (Reverse A) := reverse_cmp.
#[export] Instance reverse_ord_laws `{OrdLaws A} : OrdLaws (Reverse A).
Proof.
  split; change (@cmp (Reverse A) _) with (@reverse_cmp A _); unfold reverse_cmp.
  - intros [a] [b]; simpl. rewrite cmp_eq. naive_solver.
  - intros [a] [b]; simpl. apply cmp_antisym.
  - intros [a] [b] [c]; simpl. eauto using cmp_lt_trans.
Qed.

Definition le_cmp `{Ord A} (a b : A) : bool := match cmp a b with Gt => false | _ => true end.

Section Laws.
Context `{OrdLaws A}.

Lemma cmp_refl (a : A) : cmp a a = Eq.
Proof. by apply cmp_eq. Qed.

Lemma le_cmp_refl (a : A) : le_cmp a a = true.
Proof. unfold le_cmp. by rewrite cmp_refl. Qed.

Lemma le_cmp_total (a b : A) : le_cmp a b = false → le_cmp b a = true.
Proof. unfold le_cmp. rewrite (cmp_antisym a b). by destruct (cmp a b). Qed.

Lemma le_cmp_trans (a b c : A) : le_cmp a b = true → le_cmp b c = true → le_cmp a c = true.
Proof.
  unfold le_cmp. pose proof (cmp_lt_trans a b c) as Ht.
  destruct (cmp a b) eqn:E1; try done; destruct (cmp b c) eqn:E2; try done;
    try (apply cmp_eq in E1 as ->); try (apply cmp_eq in E2 as ->); intros _ _.
  - by rewrite cmp_refl.
  - by rewrite E2.
  - by rewrite E1.
  - by rewrite Ht.
Qed.

Lemma le_cmp_antisym (a b : A) : le_cmp a b = true → le_cmp b a = true → a = b.
Proof.
  unfold le_cmp. rewrite (cmp_antisym a b). destruct (cmp a b) eqn:E; try done.
  by apply cmp_eq in E.
Qed.
End Laws.

(** ** Stable sorting *)

Section Sort.
Context {A : Type} (le : A → A → bool).

Fixpoint insert_sorted (x : A) (l : list A) : list A :=
  match l with
  | [] => [x]
  | y :: l' => if le x y then x :: l else y :: insert_sorted x l'
  end.

(** [sort_by]: the later an element, the earlier it is inserted, in front of its equals. *)
Definition sort_with (l : list A) : list A := foldr insert_sorted [] l.

Lemma insert_sorted_perm x l : insert_sorted x l ≡ₚ x :: l.
Proof.
  induction l as [|y l IH]; simpl; [done|]. destruct (le x y); [done|]. rewrite IH. constructor.
Qed.

Lemma sort_with_perm l : sort_with l ≡ₚ l.
Proof. induction l as [|x l IH]; simpl; [done|]. by rewrite insert_sorted_perm, IH. Qed.

Lemma elem_of_sort_with x l : x ∈ sort_with l ↔ x ∈ l.
Proof. by rewrite sort_with_perm. Qed.

Lemma length_sort_with l : length (sort_with l) = length l.
Proof. by rewrite sort_with_perm. Qed.

Section Preorder.
Hypothesis le_total : ∀ a b, le a b = false → le b a = true.
Hypothesis le_trans : ∀ a b c, le a b = true → le b c = true → le a c = true.

Lemma insert_sorted_sorted x l :
  StronglySorted (λ a b, le a b = true) l → StronglySorted (λ a b, le a b = true) (insert_sorted x l).
Proof.
  induction 1 as [|y l Hl IH Hy]; simpl; [by repeat constructor|].
  destruct (le x y) eqn:E.
  - constructor; [by constructor|]. constructor; [done|].
    eapply Forall_impl; [done|]. intros z Hz. by eapply le_trans.
  - constructor; [done|]. rewrite insert_sorted_perm. constructor; [by apply le_total|done].
Qed.

Lemma sort_with_sorted l : StronglySorted (λ a b, le a b = true) (sort_with l).
Proof. induction l; simpl; [constructor|by apply insert_sorted_sorted]. Qed.

(** Stability: the elements of one class keep their order. *)
Lemma insert_sorted_filter (P : A → Prop) `{∀ x, Decision (P x)} x l :
  (∀ a b, P a → P b → le a b = true) →
  filter P (insert_sorted x l) = filter P (x :: l).
Proof.
  intros HP. induction l as [|y l IH]; simpl; [done|]. destruct (le x y) eqn:E; [done|].
  rewrite !filter_cons in *. rewrite IH. repeat case_decide; try done.
  rewrite (HP x y) in E; done.
Qed.

Lemma sort_with_stable (P : A → Prop) `{∀ x, Decision (P x)} l :
  (∀ a b, P a → P b → le a b = true) → filter P (sort_with l) = filter P l.
Proof.
  intros HP. induction l as [|x l IH]; simpl; [done|]. rewrite insert_sorted_filter by done.
  rewrite !filter_cons, IH. done.
Qed.
End Preorder.
End Sort.

(** [Vec::sort] and [sort_by_key]. *)
Definition sort `{Ord A} : list A → list A := sort_with le_cmp.
Definition sort_by_key `{Ord B} {A} (key : A → B) : list A → list A :=
  sort_with (λ a b, le_cmp (key a) (key b)).

Lemma sort_sorted `{OrdLaws A} (l : list A) : StronglySorted (λ a b, le_cmp a b = true) (sort l).
Proof. apply sort_with_sorted; [apply le_cmp_total|apply le_cmp_trans]. Qed.

Lemma sort_by_key_sorted `{OrdLaws B} {A} (key : A → B) (l : list A) :
  StronglySorted (λ a b, le_cmp (key a) (key b) = true) (sort_by_key key l).
Proof.
  apply sort_with_sorted; intros *; [apply le_cmp_total|apply le_cmp_trans].
Qed.

(** [Vec::dedup]: drops an element equal to the one kept before it. *)
Fixpoint dedup_from {A} `{EqDecision A} (last : A) (l : list A) : list A :=
  match l with
  | [] => []
  | x :: l => if decide (x = last) then dedup_from last l else x :: dedup_from x l
  end.
Definition dedup {A} `{EqDecision A} (l : list A) : list A :=
  match l with [] => [] | x :: l => x :: dedup_from x l end.

Definition lt_cmp `{Ord A} (a b : A) : Prop := cmp a b = Lt.

Lemma filter_sorted {A} `{Ord A} (P : A → Prop) `{∀ x, Decision (P x)} l :
  StronglySorted lt_cmp l → StronglySorted lt_cmp (filter P l).
Proof.
  induction 1 as [|x l Hl IH Hx]; [constructor|]. rewrite filter_cons. case_decide; [|done].
  constructor; [done|]. rewrite Forall_forall in Hx |- *. intros y [_ Hy]%list_elem_of_filter. auto.
Qed.

Section Dedup.
Context `{OrdLaws A, EqDecision A}.

Lemma dedup_from_spec (x : A) l :
  StronglySorted (λ a b, le_cmp a b = true) (x :: l) →
  StronglySorted lt_cmp (x :: dedup_from x l) ∧ (∀ y, y ∈ x :: dedup_from x l ↔ y ∈ x :: l).
Proof.
  revert x. induction l as [|y l IH]; intros x Hs; cbn [dedup_from]; [split; [repeat constructor|done]|].
  inversion Hs as [|? ? Hyl Hx]; subst. inversion Hx as [|? ? Hxy Hxl]; subst.
  destruct (decide (y = x)) as [->|Hne].
  - destruct (IH x Hyl) as [Hss Hin]. split; [done|]. intros z. rewrite Hin. set_solver.
  - destruct (IH y Hyl) as [Hss Hin]. split.
    + constructor; [done|]. rewrite Forall_forall. intros z Hz. apply Hin in Hz.
      assert (lt_cmp x y) as Hlt.
      { unfold lt_cmp, le_cmp in *. destruct (cmp x y) eqn:E; try done. by apply cmp_eq in E. }
      apply elem_of_cons in Hz as [->|Hz]; [done|].
      inversion Hyl as [|? ? _ Hy]; subst. rewrite Forall_forall in Hy. specialize (Hy z Hz).
      unfold lt_cmp, le_cmp in *. destruct (cmp y z) eqn:E; try done.
      * by apply cmp_eq in E as ->.
      * by eapply cmp_lt_trans.
    + intros z. rewrite elem_of_cons, Hin. set_solver.
Qed.

(** [sort] and [dedup]: the elements of the list, strictly increasing. *)
Lemma sort_dedup_spec (l : list A) :
  StronglySorted lt_cmp (dedup (sort l)) ∧ (∀ x, x ∈ dedup (sort l) ↔ x ∈ l).
Proof.
  assert (∀ x, x ∈ sort l ↔ x ∈ l) as Hin by (intros; apply elem_of_sort_with).
  pose proof (sort_sorted l) as Hs. destruct (sort l) as [|x k]; [split; [constructor|done]|].
  destruct (dedup_from_spec x k Hs) as [? Hd]. split; [done|]. intros y. simpl. by rewrite Hd.
Qed.

Lemma lt_cmp_irrefl (x : A) : ¬ lt_cmp x x.
Proof. unfold lt_cmp. by rewrite cmp_refl. Qed.

Lemma strictly_sorted_NoDup (l : list A) : StronglySorted lt_cmp l → NoDup l.
Proof.
  induction 1 as [|x l Hl IH Hx]; constructor; [|done]. intros Hin. rewrite Forall_forall in Hx.
  by apply (lt_cmp_irrefl x), Hx.
Qed.

(** A strictly increasing list is determined by its elements. *)
Lemma strictly_sorted_unique (l k : list A) :
  StronglySorted lt_cmp l → StronglySorted lt_cmp k → (∀ x, x ∈ l ↔ x ∈ k) → l = k.
Proof.
  intros Hl. revert k. induction Hl as [|x l Hl IH Hx]; intros k Hk Hin.
  - destruct k as [|y k]; [done|]. specialize (Hin y). set_solver.
  - rewrite Forall_forall in Hx. destruct Hk as [|y k Hk Hy]; [specialize (Hin x); set_solver|].
    rewrite Forall_forall in Hy. assert (x = y) as ->.
    { destruct (decide (x = y)) as [|Hne]; [done|].
      assert (x ∈ k) as Hxk by (specialize (Hin x); set_solver).
      assert (y ∈ l) as Hyl by (specialize (Hin y); set_solver).
      exfalso. apply (lt_cmp_irrefl x). eapply cmp_lt_trans; [by apply Hx|by apply Hy]. }
    f_equal. apply IH; [done|]. intros z. specialize (Hin z).
    assert (z ∈ l → z ≠ y) by (intros ? ->; by apply (lt_cmp_irrefl y), Hx).
    assert (z ∈ k → z ≠ y) by (intros ? ->; by apply (lt_cmp_irrefl y), Hy).
    set_solver.
Qed.
End Dedup.

(** ** Ordered sets *)

(** [BTreeSet::insert] on the strictly increasing list of the elements. *)
Fixpoint set_insert `{Ord A} (x : A) (l : list A) : list A :=
  match l with
  | [] => [x]
  | y :: l' => match cmp x y with Eq => l | Lt => x :: l | Gt => y :: set_insert x l' end
  end.

Section OrderedSet.
Context `{OrdLaws A, EqDecision A}.

Lemma elem_of_set_insert (x y : A) l : x ∈ set_insert y l ↔ x = y ∨ x ∈ l.
Proof.
  induction l as [|z l IH]; simpl; [set_solver|].
  destruct (cmp y z) eqn:E; [apply cmp_eq in E as ->; set_solver|set_solver|].
  rewrite elem_of_cons, IH. set_solver.
Qed.

Lemma set_insert_sorted (x : A) l : StronglySorted lt_cmp l → StronglySorted lt_cmp (set_insert x l).
Proof.
  induction 1 as [|y l Hl IH Hy]; simpl; [by repeat constructor|].
  destruct (cmp x y) eqn:E; [by constructor| |].
  - constructor; [by constructor|]. constructor; [done|]. eapply Forall_impl; [done|].
    intros z Hz. by eapply cmp_lt_trans.
  - constructor; [done|]. rewrite Forall_forall in Hy |- *.
    intros z [->|Hz]%elem_of_set_insert; [|auto].
    unfold lt_cmp. rewrite (cmp_antisym x y), E. done.
Qed.

(** The elements of a finite set or the keys of a finite map, in order. *)
Lemma sort_NoDup_strict (l : list A) : NoDup l → StronglySorted lt_cmp (sort l).
Proof.
  intros Hnd. assert (NoDup (sort l)) as Hnd' by (unfold sort; by rewrite sort_with_perm).
  pose proof (sort_sorted l) as Hs. induction Hs as [|x k Hk IH Hx]; constructor.
  - apply IH. by inversion Hnd'.
  - inversion Hnd' as [|? ? Hx' _]; subst. rewrite Forall_forall in Hx |- *. intros y Hy.
    specialize (Hx y Hy). unfold lt_cmp, le_cmp in *. destruct (cmp x y) eqn:E; try done.
    by apply cmp_eq in E as ->.
Qed.
End OrderedSet.

(** The entries of a [BTreeMap] in the order of its keys. *)
Definition sorted_entries `{Ord K, Countable K} {V} (m : gmap K V) : list (K * V) :=
  omap (λ k, pair k <$> m !! k) (sort (map_to_list m).*1).

Lemma elem_of_sorted_entries `{Ord K, Countable K} {V} (m : gmap K V) k v :
  (k, v) ∈ sorted_entries m ↔ m !! k = Some v.
Proof.
  unfold sorted_entries. rewrite list_elem_of_omap. split.
  - intros (k' & _ & Hk). apply fmap_Some in Hk as (v' & Hv & [= -> ->]). done.
  - intros Hk. exists k. split; [|by rewrite Hk]. apply elem_of_sort_with, list_elem_of_fmap.
    exists (k, v). split; [done|]. by apply elem_of_map_to_list.
Qed.

Section Entries.
Context `{OrdLaws K, Countable K} {V : Type}.
Implicit Types m : gmap K V.

Lemma sorted_entries_keys m : (sorted_entries m).*1 = sort (map_to_list m).*1.
Proof.
  unfold sorted_entries.
  assert (Forall (λ k, is_Some (m !! k)) (sort (map_to_list m).*1)) as Hk.
  { apply Forall_forall. intros k [[k' v] [-> Hkv]]%elem_of_sort_with%list_elem_of_fmap.
    apply elem_of_map_to_list in Hkv. by eexists. }
  induction Hk as [|k l [v Hv] _ IH]; [done|]. simpl. rewrite Hv. simpl. f_equal. exact IH.
Qed.

Lemma sorted_entries_strict m : StronglySorted lt_cmp (sorted_entries m).*1.
Proof. rewrite sorted_entries_keys. apply sort_NoDup_strict, NoDup_fst_map_to_list. Qed.

Lemma sorted_entries_map m : list_to_map (sorted_entries m) = m.
Proof.
  apply map_eq. intros k. destruct (m !! k) as [v|] eqn:E.
  - apply elem_of_list_to_map; [apply strictly_sorted_NoDup, sorted_entries_strict|].
    by apply elem_of_sorted_entries.
  - apply not_elem_of_list_to_map. intros [[k' v] [-> Hkv]]%list_elem_of_fmap.
    apply elem_of_sorted_entries in Hkv. simpl in E. congruence.
Qed.
End Entries.
