(* ===== verification/Utf8.v ===== *)
(** * Utf8: decoding bytes

    [str::from_utf8] and [String::from_utf8_lossy] of Rust's standard library, as the code uses
    them on bytes read from archives, and [complete_utf8_prefix_len] of [src/index.rs], which cuts
    a truncated text at its last complete character.  A [Utf8Error] is the number of bytes that
    are valid and the length of the error, [None] for a character cut off by the end. *)

From S2P Require Import Prelude.
From S2P Require Import Text.
From S2P Require Import TextSearch.

Open Scope N_scope.

(** The Unicode scalar values, the values of a Rust [char]. *)
Definition scalar (c : char) : bool := (c <? 55296) || between 57344 c 1114111.
Definition valid_str (s : str) : Prop := Forall (λ c, scalar c = true) s.

(** The first character of some bytes and the bytes after it, or the error in front of them. *)
Inductive decoded :=
| Char (c : char) (rest : list N)
| Bad (error_len : option nat).

Definition continuation (b : N) : bool := between 128 b 191.
Definition low_bits (b : N) : N := b - 128.

(** The second byte of a character of three and of four bytes. *)
Definition second_of_three (first b : N) : bool :=
  if first =? 224 then between 160 b 191
  else if first =? 237 then between 128 b 159
  else continuation b.
Definition second_of_four (first b : N) : bool :=
  if first =? 240 then between 144 b 191
  else if first =? 244 then between 128 b 143
  else continuation b.

Definition decode_two (first : N) (rest : list N) : decoded :=
  match rest with
  | [] => Bad None
  | b1 :: rest => if continuation b1 then Char ((first - 192) * 64 + low_bits b1) rest else Bad (Some 1%nat)
  end.
Definition decode_three (first : N) (rest : list N) : decoded :=
  match rest with
  | [] => Bad None
  | b1 :: rest =>
      if second_of_three first b1 then
        match rest with
        | [] => Bad None
        | b2 :: rest =>
            if continuation b2 then Char ((first - 224) * 4096 + low_bits b1 * 64 + low_bits b2) rest
            else Bad (Some 2%nat)
        end
      else Bad (Some 1%nat)
  end.
Definition decode_four (first : N) (rest : list N) : decoded :=
  match rest with
  | [] => Bad None
  | b1 :: rest =>
      if second_of_four first b1 then
        match rest with
        | [] => Bad None
        | b2 :: rest =>
            if continuation b2 then
              match rest with
              | [] => Bad None
              | b3 :: rest =>
                  if continuation b3 then
                    Char ((first - 240) * 262144 + low_bits b1 * 4096 + low_bits b2 * 64 + low_bits b3) rest
                  else Bad (Some 3%nat)
              end
            else Bad (Some 2%nat)
        end
      else Bad (Some 1%nat)
  end.
Definition decode_first (first : N) (rest : list N) : decoded :=
  if first <? 128 then Char first rest
  else if between 194 first 223 then decode_two first rest
  else if between 224 first 239 then decode_three first rest
  else if between 240 first 244 then decode_four first rest
  else Bad (Some 1%nat).

(** The longest valid prefix, the bytes left and the error they start with. *)
Fixpoint valid_prefix_from (fuel : nat) (bytes : list N) : str * list N * option (option nat) :=
  match fuel, bytes with
  | O, _ | _, [] => ([], bytes, None)
  | S fuel, first :: rest =>
      match decode_first first rest with
      | Char c rest => let '(s, rest, e) := valid_prefix_from fuel rest in (c :: s, rest, e)
      | Bad e => ([], bytes, Some e)
      end
  end.
Definition valid_prefix (bytes : list N) : str * list N * option (option nat) := valid_prefix_from (length bytes) bytes.

Record Utf8Error := { valid_up_to : N; error_len : option nat }.

Definition from_utf8 (bytes : list N) : str + Utf8Error :=
  match valid_prefix bytes with
  | (s, _, None) => inl s
  | (s, _, Some e) => inr {| valid_up_to := blen s; error_len := e |}
  end.

Definition REPLACEMENT : char := 65533.

(** Every maximal invalid sequence is replaced by one U+FFFD. *)
Fixpoint lossy_from (fuel : nat) (bytes : list N) : str :=
  match valid_prefix bytes with
  | (s, _, None) => s
  | (s, _, Some None) => s ++ [REPLACEMENT]
  | (s, rest, Some (Some n)) =>
      match fuel with
      | O => s
      | S fuel => s ++ REPLACEMENT :: lossy_from fuel (drop n rest)
      end
  end.
Definition from_utf8_lossy (bytes : list N) : str := lossy_from (length bytes) bytes.

(** [complete_utf8_prefix_len]. *)
Definition complete_turn (bytes : list N) (offset : N) : exec (turn N N) :=
  if N.of_nat (length bytes) <? offset then Panic
  else
    match from_utf8 (drop (N.to_nat offset) bytes) with
    | inl _ => mret (Break (N.of_nat (length bytes)))
    | inr e =>
        match error_len e with
        | Some invalid_len => mret (Continue (offset + (valid_up_to e + N.of_nat invalid_len)))
        | None => mret (Break (offset + valid_up_to e))
        end
    end.
Definition complete_utf8_prefix_len (bytes : list N) : exec N :=
  loop (S (length bytes)) (complete_turn bytes) 0.

(** ** Lemmas: one character *)

Lemma between_spec lo c hi : between lo c hi = true ↔ lo ≤ c ∧ c ≤ hi.
Proof. unfold between. by rewrite andb_true_iff, !N.leb_le. Qed.

Lemma utf8_char_ne c : utf8_char c ≠ [].
Proof. unfold utf8_char. by repeat case_match. Qed.

Ltac bool_facts :=
  repeat match goal with
  | H : _ && _ = true |- _ => apply andb_true_iff in H as [? ?]
  | H : between _ _ _ = true |- _ => apply between_spec in H
  | H : between _ _ _ = false |- _ => apply not_true_iff_false in H; rewrite between_spec in H
  | H : (_ <? _) = true |- _ => apply N.ltb_lt in H
  | H : (_ <? _) = false |- _ => apply N.ltb_ge in H
  | H : (_ =? _) = true |- _ => apply N.eqb_eq in H
  | H : (_ =? _) = false |- _ => apply N.eqb_neq in H
  end.

Lemma scalar_spec c : scalar c = true ↔ c < 55296 ∨ 57344 ≤ c ∧ c ≤ 1114111.
Proof. unfold scalar. by rewrite orb_true_iff, N.ltb_lt, between_spec. Qed.

(** The digits of a number in base 64. *)
Lemma base64 q r : r < 64 → (q * 64 + r) / 64 = q ∧ (q * 64 + r) mod 64 = r.
Proof.
  intros Hr. split.
  - rewrite N.div_add_l by lia. rewrite (N.div_small r) by done. lia.
  - rewrite N.add_comm, N.Div0.mod_add, N.mod_small; done.
Qed.

Lemma base64_split c : ∃ q r, c = q * 64 + r ∧ r < 64 ∧ c / 64 = q ∧ c mod 64 = r.
Proof.
  exists (c / 64), (c mod 64). split_and!; [|apply N.mod_lt; lia|done|done].
  rewrite N.mul_comm. apply N.div_mod. lia.
Qed.

Lemma char_digits c : ∃ a b d e,
  c = a * 262144 + b * 4096 + d * 64 + e ∧ b < 64 ∧ d < 64 ∧ e < 64 ∧
  c / 64 = a * 4096 + b * 64 + d ∧ c mod 64 = e ∧ c / 64 mod 64 = d ∧
  c / 4096 = a * 64 + b ∧ c / 4096 mod 64 = b ∧ c / 262144 = a.
Proof.
  destruct (base64_split c) as (q & e & Hc & He & Hq & Hm).
  destruct (base64_split q) as (q2 & d & Hq2 & Hd & Hqq & Hqm).
  destruct (base64_split q2) as (a & b & Ha & Hb & Haq & Ham).
  exists a, b, d, e.
  assert (H4096 : c / 4096 = q2) by (change 4096 with (64 * 64); rewrite <- N.Div0.div_div, Hq; done).
  assert (H262 : c / 262144 = a) by (change 262144 with (4096 * 64); rewrite <- N.Div0.div_div, H4096; done).
  rewrite H262, H4096, Hq, Hm, Hqm, Ham. split_and!; first [done|lia].
Qed.

Lemma between_false lo c hi : c < lo ∨ hi < c → between lo c hi = false.
Proof. intros H. apply not_true_iff_false. rewrite between_spec. lia. Qed.

(** Evaluates the comparisons of the goal that the context decides. *)
Ltac decide_if :=
  repeat match goal with
  | |- context [?x <? ?y] => first [rewrite (proj2 (N.ltb_lt x y)) by lia | rewrite (proj2 (N.ltb_ge x y)) by lia]
  | |- context [?x =? ?y] => first [rewrite (proj2 (N.eqb_eq x y)) by lia | rewrite (proj2 (N.eqb_neq x y)) by lia]
  | |- context [between ?x ?y ?z] =>
      first [rewrite (proj2 (between_spec x y z)) by lia | rewrite (between_false x y z) by lia]
  end.

(** Decoding an encoded character. *)
Lemma decode_encode c rest : scalar c = true →
  ∃ first tail, utf8_char c = first :: tail ∧ decode_first first (tail ++ rest) = Char c rest.
Proof.
  intros Hs%scalar_spec. destruct (char_digits c) as (a & b & d & e & Hc & Hb & Hd & He & H1 & H2 & H3 & H4 & H5 & H6).
  unfold utf8_char. destruct (c <? 128) eqn:E1; bool_facts.
  { exists c, []. split; [done|]. unfold decode_first. by decide_if. }
  destruct (c <? 2048) eqn:E2; bool_facts.
  { eexists _, _. split; [done|]. rewrite H1, H2. unfold decode_first. decide_if. cbn [app decode_two].
    unfold continuation, low_bits. decide_if. f_equal. lia. }
  destruct (c <? 65536) eqn:E3; bool_facts.
  { eexists _, _. split; [done|]. rewrite H4, H3, H2. unfold decode_first. decide_if. cbn [app decode_three].
    unfold second_of_three, continuation, low_bits.
    destruct (224 + (a * 64 + b) =? 224) eqn:E4; [|destruct (224 + (a * 64 + b) =? 237) eqn:E5]; bool_facts; decide_if; f_equal; lia. }
  eexists _, _. split; [done|]. rewrite H6, H5, H3, H2. unfold decode_first. decide_if. cbn [app decode_four].
  unfold second_of_four, continuation, low_bits.
  destruct (240 + a =? 240) eqn:E4; [|destruct (240 + a =? 244) eqn:E5]; bool_facts; decide_if; f_equal; lia.
Qed.

Lemma utf8_digits a b d e : b < 64 → d < 64 → e < 64 →
  let c := a * 262144 + b * 4096 + d * 64 + e in
  c / 64 = a * 4096 + b * 64 + d ∧ c mod 64 = e ∧ c / 64 mod 64 = d ∧
  c / 4096 = a * 64 + b ∧ c / 4096 mod 64 = b ∧ c / 262144 = a.
Proof.
  intros Hb Hd He c. destruct (char_digits c) as (a' & b' & d' & e' & Hc & Hb' & Hd' & He' & H1 & H2 & H3 & H4 & H5 & H6).
  rewrite H6, H5, H4, H3, H2, H1. unfold c in Hc. split_and!; lia.
Qed.

(** A decoded character is a scalar value, encoded at the front of the bytes. *)
Lemma decode_Char first rest c rest' :
  decode_first first rest = Char c rest' → scalar c = true ∧ first :: rest = utf8_char c ++ rest'.
Proof.
  unfold decode_first. intros H. case_match; bool_facts.
  { injection H as <- <-. split; [apply scalar_spec; lia|]. unfold utf8_char. by decide_if. }
  case_match; bool_facts.
  { unfold decode_two in H. destruct rest as [|b1 rest]; [done|]. unfold continuation, low_bits in H.
    destruct (between 128 b1 191) eqn:E1; [|done]. injection H as <- <-. bool_facts.
    destruct (utf8_digits 0 0 (first - 192) (b1 - 128)) as (G1 & G2 & _); [lia..|]. cbv zeta in G1, G2.
    replace (0 * 262144 + 0 * 4096 + (first - 192) * 64 + (b1 - 128)) with ((first - 192) * 64 + (b1 - 128)) in * by lia.
    split; [apply scalar_spec; lia|]. unfold utf8_char. rewrite G1, G2. decide_if. cbn [app]. do 2 f_equal; lia. }
  case_match; bool_facts.
  { unfold decode_three in H. destruct rest as [|b1 rest]; [done|]. destruct (second_of_three first b1) eqn:E1; [|done].
    destruct rest as [|b2 rest]; [done|]. unfold continuation, low_bits in H. destruct (between 128 b2 191) eqn:E2; [|done].
    injection H as <- <-.
    assert (128 ≤ b1 ∧ b1 ≤ 191 ∧ (first = 224 → 160 ≤ b1) ∧ (first = 237 → b1 ≤ 159)) as (? & ? & ? & ?).
    { unfold second_of_three, continuation in E1. repeat case_match; bool_facts; lia. }
    bool_facts. destruct (utf8_digits 0 (first - 224) (b1 - 128) (b2 - 128)) as (_ & G4 & G5 & G6 & _); [lia..|]. cbv zeta in G4, G5, G6.
    replace (0 * 262144 + (first - 224) * 4096 + (b1 - 128) * 64 + (b2 - 128))
      with ((first - 224) * 4096 + (b1 - 128) * 64 + (b2 - 128)) in * by lia.
    split; [apply scalar_spec; lia|]. unfold utf8_char. rewrite G4, G5, G6. decide_if. cbn [app]. do 3 f_equal; lia. }
  case_match; bool_facts; [|done].
  unfold decode_four in H. destruct rest as [|b1 rest]; [done|]. destruct (second_of_four first b1) eqn:E1; [|done].
  destruct rest as [|b2 rest]; [done|]. unfold continuation, low_bits in H. destruct (between 128 b2 191) eqn:E2; [|done].
  destruct rest as [|b3 rest]; [done|]. destruct (between 128 b3 191) eqn:E3; [|done]. injection H as <- <-.
  assert (128 ≤ b1 ∧ b1 ≤ 191 ∧ (first = 240 → 144 ≤ b1) ∧ (first = 244 → b1 ≤ 143)) as (? & ? & ? & ?).
  { unfold second_of_four, continuation in E1. repeat case_match; bool_facts; lia. }
  bool_facts. destruct (utf8_digits (first - 240) (b1 - 128) (b2 - 128) (b3 - 128)) as (_ & G4 & G5 & _ & G6 & G7); [lia..|].
  cbv zeta in G4, G5, G6, G7.
  split; [apply scalar_spec; lia|]. unfold utf8_char. rewrite G4, G5, G6, G7. decide_if. cbn [app]. do 4 f_equal; lia.
Qed.

(** ** Lemmas: prefixes *)

(** What a valid prefix stops at. *)
Definition stops (rest : list N) (e : option (option nat)) : Prop :=
  match e, rest with
  | None, [] => True
  | Some e, first :: tail => decode_first first tail = Bad e
  | _, _ => False
  end.

Lemma length_utf8_char c : (1 ≤ length (utf8_char c))%nat.
Proof. pose proof (utf8_char_ne c). destruct (utf8_char c); simpl; [done|lia]. Qed.

Lemma valid_prefix_from_unique fuel s rest e :
  valid_str s → stops rest e → (length (utf8 s ++ rest) ≤ fuel)%nat →
  valid_prefix_from fuel (utf8 s ++ rest) = (s, rest, e).
Proof.
  intros Hs. revert fuel. induction Hs as [|c s Hc Hs IH]; intros fuel Hstop Hfuel.
  - change (utf8 [] ++ rest) with rest in *. destruct rest as [|first tail]; [destruct e; [by simpl in Hstop|by destruct fuel]|].
    destruct fuel as [|fuel]; [simpl in Hfuel; lia|]. destruct e as [e|]; [|by simpl in Hstop]. simpl in Hstop. simpl. by rewrite Hstop.
  - rewrite utf8_cons, <- app_assoc in *. destruct (decode_encode c (utf8 s ++ rest) Hc) as (first & tail & Hchar & Hdec).
    rewrite Hchar in *. rewrite <- app_comm_cons in *. destruct fuel as [|fuel]; [simpl in Hfuel; lia|].
    simpl. rewrite Hdec, IH; [done|done|]. simpl in Hfuel. rewrite !length_app in *. lia.
Qed.

Lemma valid_prefix_from_spec fuel bytes :
  (length bytes ≤ fuel)%nat →
  ∃ s rest e, valid_prefix_from fuel bytes = (s, rest, e) ∧ bytes = utf8 s ++ rest ∧ valid_str s ∧ stops rest e.
Proof.
  revert bytes. induction fuel as [|fuel IH]; intros bytes Hfuel.
  { destruct bytes as [|]; [|simpl in Hfuel; lia]. exists [], [], None. split_and!; [done|done|constructor|done]. }
  destruct bytes as [|first tail]; [exists [], [], None; split_and!; [done|done|constructor|done]|]. simpl.
  destruct (decode_first first tail) as [c rest|e] eqn:Hdec.
  - destruct (decode_Char _ _ _ _ Hdec) as [Hc Hbytes]. pose proof (length_utf8_char c) as Hlen.
    destruct (IH rest) as (s & rest' & e & Hp & Hr & Hs & Hstop).
    { apply (f_equal length) in Hbytes. rewrite length_app in Hbytes. simpl in *. lia. }
    exists (c :: s), rest', e. rewrite Hp. split_and!; [done| |by constructor|done].
    rewrite utf8_cons, <- app_assoc, <- Hr. done.
  - exists [], (first :: tail), (Some e). split_and!; [done|done|constructor|done].
Qed.

Lemma valid_prefix_spec bytes :
  ∃ s rest e, valid_prefix bytes = (s, rest, e) ∧ bytes = utf8 s ++ rest ∧ valid_str s ∧ stops rest e.
Proof. by apply valid_prefix_from_spec. Qed.

Lemma valid_prefix_unique s rest e : valid_str s → stops rest e → valid_prefix (utf8 s ++ rest) = (s, rest, e).
Proof. intros. by apply valid_prefix_from_unique. Qed.

Lemma valid_prefix_utf8 s : valid_str s → valid_prefix (utf8 s) = (s, [], None).
Proof. intros Hs. rewrite <- (app_nil_r (utf8 s)). by apply valid_prefix_unique. Qed.

(** An error takes at least one byte, and the bytes it takes decide it. *)
Lemma decode_Bad first rest n : decode_first first rest = Bad (Some n) →
  (1 ≤ n ≤ length (first :: rest))%nat ∧
  (∀ x, decode_first first (take (n - 1) rest ++ x) = Bad (Some n)) ∨
  (1 ≤ n ≤ length (first :: rest))%nat ∧ decode_first first (take (n - 1) rest) = Bad None ∧
  (∀ x y, drop (n - 1) rest = x ++ y → x ≠ [] → decode_first first (take (n - 1) rest ++ x) = Bad (Some n)).
Proof.
  unfold decode_first. intros H. repeat case_match; simplify_eq/=.
  - right. unfold decode_two in *. destruct rest as [|b1 rest]; [done|]. case_match; [done|]. simplify_eq. simpl.
    split_and!; [lia|lia|done|]. intros [|x1 x] y Hx; [done|]. simpl in *. simplify_eq. intros _. by case_match.
  - right. unfold decode_three in *. destruct rest as [|b1 rest]; [done|]. case_match eqn:E1; [|simplify_eq].
    + destruct rest as [|b2 rest]; [done|]. case_match eqn:E2; [done|]. simplify_eq. simpl. rewrite E1.
      split_and!; [lia|lia|done|]. intros [|x1 x] y Hx; [done|]. simpl in *. simplify_eq. intros _. by rewrite E2.
    + simpl. split_and!; [lia|lia|done|]. intros [|x1 x] y Hx; [done|]. simpl in *. simplify_eq. intros _. by rewrite E1.
  - right. unfold decode_four in *. destruct rest as [|b1 rest]; [done|]. case_match eqn:E1; [|simplify_eq].
    + destruct rest as [|b2 rest]; [done|]. case_match eqn:E2; [|simplify_eq].
      * destruct rest as [|b3 rest]; [done|]. case_match eqn:E3; [done|]. simplify_eq. simpl. rewrite E1, E2.
        split_and!; [lia|lia|done|]. intros [|x1 x] y Hx; [done|]. simpl in *. simplify_eq. intros _. by rewrite E3.
      * simpl. rewrite E1. split_and!; [lia|lia|done|]. intros [|x1 x] y Hx; [done|]. simpl in *. simplify_eq. intros _. by rewrite E2.
    + simpl. split_and!; [lia|lia|done|]. intros [|x1 x] y Hx; [done|]. simpl in *. simplify_eq. intros _. by rewrite E1.
  - left. simpl. split; [lia|done].
Qed.

(** More bytes change neither a decoded character nor an error of known length. *)
Lemma decode_app first rest y :
  match decode_first first rest with
  | Char c r => decode_first first (rest ++ y) = Char c (r ++ y)
  | Bad (Some n) => decode_first first (rest ++ y) = Bad (Some n)
  | Bad None => True
  end.
Proof.
  unfold decode_first, decode_two, decode_three, decode_four.
  repeat (case_match; simplify_eq/=; try done).
Qed.

Lemma decode_cut c first t y : scalar c = true → utf8_char c = (first :: t) ++ y → y ≠ [] → decode_first first t = Bad None.
Proof.
  intros Hc Hchar Hy. destruct (decode_encode c [] Hc) as (first' & tail & Htail & Hdec).
  rewrite Htail in Hchar. simpl in Hchar. injection Hchar as -> ->. rewrite app_nil_r in Hdec.
  pose proof (decode_app first t y) as Happ. rewrite Hdec in Happ.
  destruct (decode_first first t) as [c' r|[n|]]; [|done|done]. injection Happ as _ Hr.
  symmetry in Hr. apply app_eq_nil in Hr as [_ ?]. done.
Qed.

(** A text cut after [n] bytes: its last complete character. *)
Definition cut_at (s : str) (n : nat) (p q : str) : Prop :=
  s = p ++ q ∧ (length (utf8 p) ≤ n)%nat ∧ ∀ c q', q = c :: q' → (n < length (utf8 p) + length (utf8_char c))%nat.

Lemma valid_prefix_cut s n : valid_str s →
  ∃ p q rest e, cut_at s n p q ∧ valid_prefix (take n (utf8 s)) = (p, rest, e) ∧ (e = None ∨ e = Some None) ∧
    valid_str p ∧ take n (utf8 s) = utf8 p ++ rest ∧ ((length (utf8 s) ≤ n)%nat → q = []).
Proof.
  intros Hs. assert (∃ p q rest e, cut_at s n p q ∧ take n (utf8 s) = utf8 p ++ rest ∧ stops rest e ∧
    (e = None ∨ e = Some None) ∧ valid_str p ∧ ((length (utf8 s) ≤ n)%nat → q = [])) as (p & q & rest & e & Hcut & Htake & Hstop & He & Hp & Hq).
  { revert n. induction Hs as [|c s Hc Hs IH]; intros n.
    - exists [], [], [], None. change (utf8 []) with (@nil N). rewrite take_nil. split_and!; [|done|done|by left|constructor|done].
      split_and!; [done|simpl; lia|done].
    - rewrite utf8_cons. destruct (decide (length (utf8_char c) ≤ n)%nat) as [Hn|Hn].
      + destruct (IH (n - length (utf8_char c))%nat) as (p & q & rest & e & (-> & Hlen & Hlong) & Htake & Hstop & He & Hp & Hq).
        exists (c :: p), q, rest, e. rewrite take_app_ge, Htake, app_assoc, <- utf8_cons by done.
        split_and!; [|done|done|done|by constructor|].
        * split_and!; [done|rewrite utf8_cons, length_app; lia|].
          intros c' q' Hq'. specialize (Hlong c' q' Hq'). rewrite utf8_cons, length_app. lia.
        * rewrite length_app. intros. apply Hq. lia.
      + rewrite take_app_le by lia. exists [], (c :: s), (take n (utf8_char c)).
        assert (Hcut : cut_at (c :: s) n [] (c :: s)).
        { split_and!; [done|simpl; lia|]. intros c' q' [= <- <-]. simpl. lia. }
        assert (Hlast : (length (utf8_char c ++ utf8 s) ≤ n)%nat → c :: s = []) by (rewrite length_app; lia).
        destruct (take n (utf8_char c)) as [|first t] eqn:Etake.
        * exists None. split_and!; [done|done|done|by left|constructor|done].
        * exists (Some None). split_and!; [done|done| |by right|constructor|done]. simpl.
          apply (decode_cut c first t (drop n (utf8_char c))); [done|by rewrite <- Etake, take_drop|].
          intros Hd. apply (f_equal length) in Hd. rewrite length_drop in Hd. simpl in Hd. lia. }
  exists p, q, rest, e. split_and!; [done| |done|done|done|done]. rewrite Htake. by apply valid_prefix_unique.
Qed.

(** ** Lemmas: replacing errors *)

Lemma stops_length rest n : stops rest (Some (Some n)) → (1 ≤ n ≤ length rest)%nat.
Proof. destruct rest as [|first tail]; [done|]. intros Hd. by apply decode_Bad in Hd as [[? _]|[? _]]. Qed.

Lemma lossy_from_fuel f g bytes : (length bytes ≤ f)%nat → (length bytes ≤ g)%nat → lossy_from f bytes = lossy_from g bytes.
Proof.
  revert g bytes. induction f as [|f IH]; intros g bytes Hf Hg;
    destruct (valid_prefix_spec bytes) as (s & rest & e & Hp & Hb & Hs & Hstop).
  - destruct bytes; [|simpl in Hf; lia]. by destruct g.
  - destruct g as [|g]; simpl; rewrite Hp; destruct e as [[n|]|]; try done; apply stops_length in Hstop;
      apply (f_equal length) in Hb; rewrite length_app in Hb; [lia|].
    do 2 f_equal. apply IH; rewrite length_drop; lia.
Qed.

(** [from_utf8_lossy] by the valid prefix. *)
Lemma lossy_step bytes s rest e : valid_prefix bytes = (s, rest, e) →
  from_utf8_lossy bytes = match e with
                          | None => s
                          | Some None => s ++ [REPLACEMENT]
                          | Some (Some n) => s ++ REPLACEMENT :: from_utf8_lossy (drop n rest)
                          end.
Proof.
  intros Hp. unfold from_utf8_lossy. destruct (valid_prefix_spec bytes) as (s' & rest' & e' & Hp' & Hb & Hs & Hstop).
  rewrite Hp in Hp'. injection Hp' as <- <- <-. destruct e as [[n|]|].
  - apply stops_length in Hstop. apply (f_equal length) in Hb. rewrite length_app in Hb.
    destruct (length bytes) as [|f] eqn:Ef; [lia|]. simpl. rewrite Hp. do 2 f_equal.
    apply lossy_from_fuel; rewrite length_drop; lia.
  - destruct (length bytes); simpl; by rewrite Hp.
  - destruct (length bytes); simpl; by rewrite Hp.
Qed.

Lemma lossy_utf8 s : valid_str s → from_utf8_lossy (utf8 s) = s.
Proof. intros Hs. by rewrite (lossy_step _ _ _ _ (valid_prefix_utf8 s Hs)). Qed.

(** Behind an error the decoding starts afresh. *)
Lemma lossy_error s rest n x y :
  valid_str s → stops rest (Some (Some n)) → drop n rest = x ++ y →
  from_utf8_lossy (utf8 s ++ take n rest ++ x) = s ++ REPLACEMENT :: from_utf8_lossy x.
Proof.
  intros Hs Hstop Hx. pose proof (stops_length _ _ Hstop) as Hn. destruct rest as [|first tail]; [done|]. simpl in Hstop.
  destruct n as [|n]; [lia|]. simpl in Hx |- *.
  assert (Hlen : length (take n tail) = n) by (rewrite length_take; simpl in Hn; lia).
  assert (Hd : stops (first :: take n tail ++ x) (Some (Some (S n))) ∨ x = [] ∧ stops (first :: take n tail) (Some None)).
  { apply decode_Bad in Hstop as [[_ H]|(_ & Hnone & H)]; replace (S n - 1)%nat with n in H by lia.
    - left. apply H.
    - destruct x as [|x0 x]; [right; split; [done|]; simpl; by replace (S n - 1)%nat with n in Hnone by lia|].
      left. by apply (H _ y). }
  destruct Hd as [Hd|[-> Hd]].
  - rewrite (lossy_step _ _ _ _ (valid_prefix_unique s _ _ Hs Hd)). simpl. by rewrite drop_app_length' by done.
  - rewrite app_nil_r. rewrite (lossy_step _ _ _ _ (valid_prefix_unique s _ _ Hs Hd)). done.
Qed.

(** ** Correctness *)

(** Decoding is exact: bytes are accepted exactly when they are the encoding of a text of scalar
    values, which is the text returned. *)
Theorem from_utf8_exact bytes s : from_utf8 bytes = inl s ↔ bytes = utf8 s ∧ valid_str s.
Proof.
  unfold from_utf8. split.
  - destruct (valid_prefix_spec bytes) as (s' & rest & e & -> & Hb & Hs & Hstop). destruct e as [e|]; [done|].
    intros [= <-]. destruct rest; [|done]. by rewrite app_nil_r in Hb.
  - intros [-> Hs]. by rewrite valid_prefix_utf8.
Qed.

(** The state of the loop: what follows the offset decodes as if it stood alone. *)
Definition decoded_to (bytes : list N) (offset : N) : Prop :=
  offset ≤ N.of_nat (length bytes) ∧
  ∃ head_, take (N.to_nat offset) bytes = head_ ∧
    ∀ x y, drop (N.to_nat offset) bytes = x ++ y → from_utf8_lossy (head_ ++ x) = from_utf8_lossy head_ ++ from_utf8_lossy x.

Lemma complete_turn_spec bytes offset :
  decoded_to bytes offset →
  wp (complete_turn bytes offset) (λ t, match t with
    | Continue offset' => decoded_to bytes offset' ∧
        (length bytes - N.to_nat offset' < length bytes - N.to_nat offset)%nat
    | Break n => n ≤ N.of_nat (length bytes) ∧
        from_utf8_lossy bytes = from_utf8_lossy (take (N.to_nat n) bytes)
                                ++ (if n =? N.of_nat (length bytes) then [] else [REPLACEMENT])
    end).
Proof.
  intros [Hle (head_ & Htake & Hfresh)]. unfold complete_turn. rewrite (proj2 (N.ltb_ge _ _)) by lia.
  set (o := N.to_nat offset) in *. unfold from_utf8.
  assert (Hlen : length bytes = (o + length (drop o bytes))%nat) by (rewrite length_drop; lia).
  destruct (valid_prefix_spec (drop o bytes)) as (s & rest & e & Hp & Hb & Hs & Hstop). rewrite Hp.
  assert (Hlen' : length (drop o bytes) = (length (utf8 s) + length rest)%nat) by (rewrite Hb, length_app; done).
  assert (Hbytes : bytes = head_ ++ drop o bytes) by (rewrite <- Htake, take_drop; done).
  assert (Hhead : length head_ = o) by (rewrite <- Htake, length_take; lia).
  pose proof (utf8_blen s) as Hblen.
  destruct e as [[n|]|]; cbn [error_len valid_up_to].
  - pose proof (stops_length _ _ Hstop) as Hn. apply wp_mret. split; [|lia]. split; [lia|].
    eexists. split; [done|]. intros x y Hxy.
    assert (Ho : N.to_nat (offset + (blen s + N.of_nat n)) = (length head_ + length (utf8 s ++ take n rest))%nat).
    { rewrite length_app, length_take. lia. }
    assert (Hsplit : drop o bytes = (utf8 s ++ take n rest) ++ drop n rest) by (rewrite <- app_assoc, take_drop; done).
    rewrite Ho in *. rewrite Hbytes, Hsplit, app_assoc in Hxy |- *.
    rewrite <- length_app in Hxy |- *. rewrite drop_app_length in Hxy. rewrite take_app_length.
    rewrite <- (app_assoc head_), (Hfresh ((utf8 s ++ take n rest) ++ x) y) by (rewrite Hsplit, Hxy, !app_assoc; done).
    rewrite (Hfresh (utf8 s ++ take n rest) (drop n rest)) by done.
    rewrite <- app_assoc, (lossy_error s rest n x y) by done.
    pose proof (lossy_error s rest n [] (drop n rest) Hs Hstop eq_refl) as Hone. rewrite app_nil_r in Hone.
    rewrite Hone, <- !app_assoc. done.
  - assert (Hrest : (1 ≤ length rest)%nat) by (destruct rest; [done|simpl; lia]).
    apply wp_mret. split; [lia|]. rewrite (proj2 (N.eqb_neq _ _)) by lia.
    replace (N.to_nat (offset + blen s)) with (length (head_ ++ utf8 s)) by (rewrite length_app; lia).
    assert (Hall : bytes = (head_ ++ utf8 s) ++ rest) by (rewrite Hbytes at 1; rewrite Hb; by rewrite app_assoc).
    rewrite Hall at 2. rewrite take_app_length. rewrite Hall, <- app_assoc, (Hfresh _ []) by (rewrite app_nil_r; done).
    rewrite (Hfresh (utf8 s) rest) by done. rewrite lossy_utf8 by done.
    rewrite (lossy_step _ _ _ _ (valid_prefix_unique s _ _ Hs Hstop)). by rewrite app_assoc.
  - apply wp_mret. split; [lia|]. rewrite N.eqb_refl, Nat2N.id, take_ge by done. by rewrite app_nil_r.
Qed.

Lemma complete_prefix_lossy bytes :
  wp (complete_utf8_prefix_len bytes) (λ n,
    n ≤ N.of_nat (length bytes) ∧
    from_utf8_lossy bytes = from_utf8_lossy (take (N.to_nat n) bytes)
                            ++ (if n =? N.of_nat (length bytes) then [] else [REPLACEMENT])).
Proof.
  unfold complete_utf8_prefix_len. apply (wp_loop (decoded_to bytes) (λ o, length bytes - N.to_nat o)%nat).
  - intros o Ho. by apply complete_turn_spec.
  - split; [lia|]. exists []. split; [done|]. intros x y _. done.
  - simpl. lia.
Qed.

Lemma complete_prefix_cut s cut :
  valid_str s →
  wp (complete_utf8_prefix_len (take cut (utf8 s))) (λ n,
    ∃ p q, cut_at s cut p q ∧ take (N.to_nat n) (take cut (utf8 s)) = utf8 p).
Proof.
  intros Hs. destruct (valid_prefix_cut s cut Hs) as (p & q & rest & e & Hcut & Hp & He & Hpv & Htake & _).
  unfold complete_utf8_prefix_len. unfold complete_turn. cbn [loop]. rewrite (proj2 (N.ltb_ge _ 0)) by lia.
  unfold from_utf8. change (drop (N.to_nat 0) ?l) with l. rewrite Hp.
  destruct (valid_prefix_spec (take cut (utf8 s))) as (p' & rest' & e' & Hp' & Hb & _ & Hstop).
  rewrite Hp in Hp'. injection Hp' as <- <- <-.
  destruct He as [->| ->]; cbn [error_len valid_up_to mret exec_ret mbind exec_bind].
  - exists p, q. split; [done|]. rewrite Nat2N.id, (take_ge (take cut (utf8 s))) by done.
    destruct rest; [|done]. by rewrite app_nil_r in Htake.
  - exists p, q. split; [done|]. rewrite Htake at 1. rewrite <- utf8_blen.
    replace (N.to_nat (0 + N.of_nat (length (utf8 p)))) with (length (utf8 p)) by lia. by rewrite take_app_length.
Qed.

(** A truncated text is cut at its last complete character: for any bytes the search for the
    cut ends without a panic, and dropping what follows the cut loses exactly the one replacement
    character the lossy decoding would show for it; and when the bytes are a text cut at any
    length, what is kept is the longest prefix of whole characters. *)
Theorem complete_prefix_exact bytes :
  wp (complete_utf8_prefix_len bytes) (λ n,
    n ≤ N.of_nat (length bytes) ∧
    from_utf8_lossy bytes = from_utf8_lossy (take (N.to_nat n) bytes)
                            ++ (if n =? N.of_nat (length bytes) then [] else [REPLACEMENT]) ∧
    ∀ s cut, valid_str s → bytes = take cut (utf8 s) →
      ∃ p q, cut_at s cut p q ∧ from_utf8 (take (N.to_nat n) bytes) = inl p).
Proof.
  destruct (wp_Done _ _ (complete_prefix_lossy bytes)) as (n & Hn & Hle & Hlossy). rewrite Hn. simpl.
  split_and!; [done|done|]. intros s cut Hs ->.
  pose proof (complete_prefix_cut s cut Hs) as Hcut. rewrite Hn in Hcut. destruct Hcut as (p & q & Hpq & Htake).
  exists p, q. split; [done|]. apply from_utf8_exact. split; [done|]. destruct Hpq as [-> _]. by apply Forall_app in Hs as [? _].
Qed.
