(* ===== verification/Redaction.v ===== *)
(** * Redaction: credentials in Maven output, diagnostics and properties

    Models [src/redaction.rs].  The matching of the five patterns is the [regex] crate's work and
    a parameter of the model: the class [Patterns] gives, for each pattern, the text between the
    matches and the groups of every match, and [PatternLaws] what the code relies on: the pieces
    make up the text, and the groups the patterns are built from make up the match.  Unicode's
    tables are the parameter of [Text]. *)

From S2P Require Import Prelude.
From S2P Require Import Text.
From S2P Require Import TextSearch.
From S2P Require Import Ordering.

Open Scope N_scope.
#[local] Arguments sum l : simpl never.

Definition REDACTED : str := lit "<redacted>".
Definition CREDENTIALS : str := lit "<credentials>".

Definition SENSITIVE_NAME_PARTS : list str :=
  [lit "password"; lit "passwd"; lit "passphrase"; lit "secret"; lit "token"; lit "credential";
   lit "apikey"; lit "accesskey"; lit "privatekey"; lit "authorization"].

(** ** The patterns *)

(** One match: the text since the previous match, and the matched groups, the whole first. *)
Record Match := {
  gap : str;
  groups : list (option str);
}.

(** The matches of a pattern in a text, from left to right, and the text after the last. *)
Record Pattern := {
  segments : str → list Match;
  tail : str → str;
}.

Definition group (i : nat) (m : Match) : option str := mjoin (groups m !! i).
Definition whole (m : Match) : str := default [] (group 0 m).

Class Patterns := {
  AUTHORIZATION : Pattern;
  XML_ELEMENT : Pattern;
  KEY_VALUE : Pattern;
  URL_CREDENTIALS : Pattern;
  KNOWN_TOKEN : Pattern;
}.

(** What the expressions say of their groups: the matches and the gaps make up the text;
    [XML_ELEMENT] is a tag with text; [KEY_VALUE] is one of two pairs of adjacent groups; the
    group of [AUTHORIZATION] and of [URL_CREDENTIALS] begins the match. *)
Class PatternLaws `{Patterns} := {
  segments_text p s : p ∈ [AUTHORIZATION; XML_ELEMENT; KEY_VALUE; URL_CREDENTIALS; KNOWN_TOKEN] →
    mjoin ((λ m, gap m ++ whole m) <$> segments p s) ++ tail p s = s;
  authorization_group s m : m ∈ segments AUTHORIZATION s →
    ∃ key value, group 1 m = Some key ∧ whole m = key ++ value ∧ value ≠ [];
  xml_group s m : m ∈ segments XML_ELEMENT s →
    ∃ name value, group 1 m = Some name ∧ whole m = lit "<" ++ name ++ lit ">" ++ value ++ lit "</" ∧ value ≠ [];
  key_value_group s m : m ∈ segments KEY_VALUE s →
    (∃ key value, group 1 m = Some key ∧ group 2 m = Some value ∧ whole m = key ++ value) ∨
    (∃ key value, group 1 m = None ∧ group 3 m = Some key ∧ group 4 m = Some value ∧ whole m = key ++ value);
  url_group s m : m ∈ segments URL_CREDENTIALS s →
    ∃ scheme user, group 1 m = Some scheme ∧ whole m = scheme ++ user ++ lit "@" ∧ user ≠ [];
}.

(** [Regex::replace_all] with a closure that also gives how much it counts and that may look at
    the text before the match. *)
Fixpoint replace_from (f : str → Match → exec (str * N)) (before : str) (l : list Match) (rest : str)
    : exec (str * N) :=
  match l with
  | [] => Done (rest, 0)
  | m :: l =>
      let before := before ++ gap m in
      '(replaced, n) ← f before m;
      '(out, count) ← replace_from f (before ++ whole m) l rest;
      Done (gap m ++ replaced ++ out, n + count)
  end.
Definition regex_replace_all (p : Pattern) (f : str → Match → exec (str * N)) (text : str)
    : exec (str * N) :=
  replace_from f [] (segments p text) (tail p text).

(** ** Brackets *)

Definition BRACKETS : list (char * char) := [(ch "(", ch ")"); (ch "[", ch "]"); (ch "{", ch "}")].

(** The brackets of the line that are open before the value, by their closer. *)
Definition unclosed_brackets (line : str) : list (char * N) :=
  (λ '(opener, closer), (closer, saturating_sub (count_char opener line) (count_char closer line)))
    <$> BRACKETS.

Definition take_bracket (last : char) (open : list (char * N)) : option (list (char * N)) :=
  '(i, (closer, unclosed)) ← list_find (λ '(closer, unclosed), closer = last ∧ 0 < unclosed) open;
  Some (<[i := (closer, unclosed - 1)]> open).

(** The number of characters kept, scanning the value from its end. *)
Fixpoint kept_closers (reversed : str) (open : list (char * N)) : nat :=
  match reversed with
  | [] => 0%nat
  | c :: reversed =>
      match take_bracket c open with
      | Some open => S (kept_closers reversed open)
      | None => 0%nat
      end
  end.

Definition is_line_end (c : char) : bool := (c =? 13) || (c =? 10).
Definition is_quote (c : char) : bool := (c =? 34) || (c =? 39).

Definition closing_brackets (before value : str) : str :=
  if match head value with Some c => is_quote c | None => false end then []
  else
    let line := last_piece is_line_end before in
    let kept := kept_closers (reverse value) (unclosed_brackets line) in
    drop (length value - kept) value.

(** ** Redaction of free text *)

Section Redact.
Context `{Patterns, Unicode}.

(** [&captures[i]]: a panic when the group took no part in the match. *)
Definition capture (i : nat) (m : Match) : exec str := or_panic (group i m).

Definition redact_authorization (_ : str) (m : Match) : exec (str * N) :=
  key ← capture 1 m; Done (key ++ REDACTED, 1).

Definition redact_xml_element (_ : str) (m : Match) : exec (str * N) :=
  name ← capture 1 m; Done (lit "<" ++ name ++ lit ">" ++ REDACTED ++ lit "</", 1).

Definition redact_key_value (before : str) (m : Match) : exec (str * N) :=
  '(key, value) ←
    match group 1 m, group 2 m with
    | Some key, Some value => Done (key, value)
    | _, _ => key ← capture 3 m; value ← capture 4 m; Done (key, value)
    end;
  let closing := closing_brackets before value in
  secret ← or_panic (byte_take (blen value - blen closing) value);
  if bool_decide (secret = []) || bool_decide (secret = REDACTED) then Done (whole m, 0)
  else Done (key ++ REDACTED ++ closing, 1).

Definition redact_url (_ : str) (m : Match) : exec (str * N) :=
  scheme ← capture 1 m; Done (scheme ++ CREDENTIALS ++ lit "@", 1).

Definition redact_token (_ : str) (_ : Match) : exec (str * N) := Done (REDACTED, 1).

Definition redact_sensitive_values (text : str) : exec (str * N) :=
  '(text, a) ← regex_replace_all AUTHORIZATION redact_authorization text;
  '(text, x) ← regex_replace_all XML_ELEMENT redact_xml_element text;
  '(text, k) ← regex_replace_all KEY_VALUE redact_key_value text;
  '(text, u) ← regex_replace_all URL_CREDENTIALS redact_url text;
  '(text, t) ← regex_replace_all KNOWN_TOKEN redact_token text;
  Done (text, a + x + k + u + t).

(** ** Properties *)

Definition is_sensitive_name (name : str) : bool :=
  let normalized := to_lowercase (filter (λ c, is_alphanumeric c = true) name) in
  existsb (λ part, contains part normalized) SENSITIVE_NAME_PARTS.

Definition redact_property (name value : str) : exec str :=
  match value with
  | [] => Done value
  | _ => if is_sensitive_name name then Done REDACTED else fst <$> redact_sensitive_values value
  end.

Fixpoint redact_entries (l : list (str * str)) : exec (list (str * str)) :=
  match l with
  | [] => Done []
  | (name, value) :: l =>
      value ← redact_property name value;
      l ← redact_entries l;
      Done ((name, value) :: l)
  end.

Definition redact_properties (properties : gmap str str) : exec (gmap str str) :=
  list_to_map <$> redact_entries (sorted_entries properties).
End Redact.

(** ** Brackets: what is kept closes what was open *)

Definition open_of (c : char) (open : list (char * N)) : N := sum ((λ p, if p.1 =? c then p.2 else 0) <$> open).

Lemma take_bracket_spec c open open' :
  take_bracket c open = Some open' →
  length open' = length open ∧ open_of c open = open_of c open' + 1 ∧
  (∀ d, d ≠ c → open_of d open' = open_of d open) ∧ open.*1 = open'.*1.
Proof.
  unfold take_bracket. rewrite bind_Some. intros ([i [closer n]] & Hf & [= <-]).
  apply list_find_Some in Hf as (Hi & [-> Hn] & _).
  revert i Hi. unfold open_of.
  induction open as [|[d m] open IH]; intros i Hi; [done|].
  destruct i as [|i]; simplify_eq/=.
  - rewrite !sum_cons. simpl. rewrite N.eqb_refl. split_and!; [lia|lia| |done].
    intros d' Hd. rewrite !sum_cons. simpl. by rewrite (proj2 (N.eqb_neq _ _)).
  - destruct (IH i Hi) as (H0 & H1 & H2 & H3). rewrite !sum_cons. split_and!; [lia|lia| |by f_equal].
    intros d' Hd. rewrite !sum_cons, H2; done.
Qed.

Lemma kept_closers_le r open : (kept_closers r open ≤ length r)%nat.
Proof.
  revert open. induction r as [|c r IH]; intros open; simpl; [done|].
  destruct (take_bracket c open) as [o|]; [specialize (IH o)|]; lia.
Qed.

(** Of every closer, no more are kept than brackets were open. *)
Lemma kept_closers_bound r open c :
  count_char c (take (kept_closers r open) r) ≤ open_of c open.
Proof.
  revert open. induction r as [|d r IH]; intros open; simpl; [unfold count_char; simpl; lia|].
  destruct (take_bracket d open) as [o|] eqn:E; [|unfold count_char; simpl; lia].
  apply take_bracket_spec in E as (_ & Hd & Hother & _). specialize (IH o).
  cbn [take]. unfold count_char in *. rewrite filter_cons. case_decide as Hc.
  - subst. cbn [length]. lia.
  - rewrite <- Hother; [lia|done].
Qed.

Lemma kept_closers_chars r open :
  Forall (λ c, c ∈ open.*1) (take (kept_closers r open) r).
Proof.
  revert open. induction r as [|d r IH]; intros open; simpl; [constructor|].
  destruct (take_bracket d open) as [o|] eqn:E; [|constructor].
  pose proof (take_bracket_spec _ _ _ E) as (_ & _ & _ & ->). constructor; [|apply IH].
  unfold take_bracket in E. apply bind_Some in E as ([i [c n]] & Hf & [= <-]).
  apply list_find_Some in Hf as (Hi & [-> _] & _).
  apply list_elem_of_fmap. exists (d, n - 1). split; [done|].
  apply list_elem_of_lookup. exists i. rewrite list_lookup_insert_eq; [done|]. by eapply lookup_lt_Some.
Qed.

Lemma closing_split before value :
  ∃ secret, value = secret ++ closing_brackets before value ∧
    byte_take (blen value - blen (closing_brackets before value)) value = Some secret.
Proof.
  assert (∃ n, closing_brackets before value = drop n value) as [n Hn].
  { unfold closing_brackets. case_match; [exists (length value); by rewrite drop_ge|by eexists]. }
  exists (take n value). rewrite Hn. split; [by rewrite take_drop|].
  rewrite <- (take_drop n value) at 1 3. rewrite blen_app.
  replace (blen (take n value) + blen (drop n value) - blen (drop n value)) with (blen (take n value)) by lia.
  apply byte_take_prefix.
Qed.

Lemma drop_reverse_take (n : nat) (s : str) :
  (n ≤ length s)%nat → drop (length s - n) s = reverse (take n (reverse s)).
Proof.
  intros Hn. rewrite <- (reverse_involutive s) at 2. rewrite <- (length_reverse s) at 1.
  set (r := reverse s). assert (n ≤ length r)%nat as Hr by (unfold r; by rewrite length_reverse).
  rewrite <- (take_drop n r) at 2. rewrite reverse_app, drop_app_length'; [done|].
  rewrite length_reverse, length_drop. done.
Qed.

Lemma count_reverse c s : N.of_nat (length (filter (λ x, x = c) (reverse s))) = count_char c s.
Proof. unfold count_char. by rewrite (reverse_Permutation s). Qed.

(** Only closers of brackets that are open on the line are kept outside a redacted value: the
    kept text is the end of an unquoted value, it holds nothing but [)], []] and [}], and of each
    of them at most as many as its bracket is unclosed in the text of the line before the value. *)
Theorem closing_brackets_open before value :
  let kept := closing_brackets before value in
  let line := last_piece is_line_end before in
  (∃ secret, value = secret ++ kept) ∧
  Forall (λ c, c ∈ BRACKETS.*2) kept ∧
  ∀ opener closer, (opener, closer) ∈ BRACKETS →
    count_char closer kept ≤ count_char opener line - count_char closer line.
Proof.
  intros kept line. destruct (closing_split before value) as (secret & Hv & _). split; [by exists secret|].
  unfold kept, closing_brackets. clear Hv.
  destruct (match head value with Some c => is_quote c | None => false end).
  { split; [constructor|]. intros. unfold count_char. simpl. lia. }
  fold line. set (n := kept_closers _ _).
  assert (n ≤ length value)%nat as Hn.
  { unfold n. etrans; [apply kept_closers_le|]. by rewrite length_reverse. }
  rewrite drop_reverse_take by done. split.
  - apply Forall_reverse. eapply Forall_impl; [apply kept_closers_chars|]. intros c Hc. exact Hc.
  - intros opener closer Hb. unfold count_char at 1.
    rewrite count_reverse.
    etrans; [apply kept_closers_bound|]. unfold open_of, unclosed_brackets.
    change BRACKETS with [(40, 41); (91, 93); (123, 125)] in *.
    rewrite !elem_of_cons, elem_of_nil in Hb.
    destruct Hb as [[= -> ->]|[[= -> ->]|[[= -> ->]|[]]]];
      unfold sum, saturating_sub; cbn -[count_char N.sub N.add]; lia.
Qed.

(** ** Totality and masking *)

Section Redacted.
Context `{PatternLaws, Unicode}.

Lemma replace_from_total f before l rest :
  (∀ before m, m ∈ l → total (f before m)) → total (replace_from f before l rest).
Proof.
  revert before. induction l as [|m l IH]; intros before Hf; [done|]. cbn [replace_from].
  eapply wp_call; [apply Hf; left|]. intros [replaced n] _.
  eapply wp_call; [apply IH; intros; apply Hf; by right|]. by intros [out count] _.
Qed.

Lemma replace_all_total p f text :
  (∀ before m, m ∈ segments p text → total (f before m)) → total (regex_replace_all p f text).
Proof. apply replace_from_total. Qed.

Ltac captured H := destruct H as (? & ? & Hg & ?); unfold capture; rewrite Hg.

Lemma redact_values_total text : total (redact_sensitive_values text).
Proof.
  unfold redact_sensitive_values.
  eapply wp_call; [apply replace_all_total|intros [t1 a] _].
  { intros before m (key & value & Hg & _)%authorization_group.
    unfold redact_authorization, capture. by rewrite Hg. }
  eapply wp_call; [apply replace_all_total|intros [t2 x] _].
  { intros before m (name & value & Hg & _)%xml_group. unfold redact_xml_element, capture. by rewrite Hg. }
  eapply wp_call; [apply replace_all_total|intros [t3 k] _].
  { intros before m Hm. unfold redact_key_value, capture.
    assert (∃ key value, match group 1 m, group 2 m with
      | Some key, Some value => Done (key, value)
      | _, _ => key ← or_panic (group 3 m); value ← or_panic (group 4 m); Done (key, value)
      end = Done (key, value)) as (key & value & ->).
    { destruct (key_value_group _ _ Hm) as [(key & value & -> & -> & _)|(key & value & -> & -> & -> & _)];
        by exists key, value. }
    simpl. destruct (closing_split before value) as (secret & _ & ->). simpl. by case_match. }
  eapply wp_call; [apply replace_all_total|intros [t4 u] _].
  { intros before m (scheme & user & Hg & _)%url_group. unfold redact_url, capture. by rewrite Hg. }
  eapply wp_call; [by apply replace_all_total|by intros [t5 t] _].
Qed.

(** Redaction never panics: on any text, every group the code takes took part in the match and
    every slice is at a character boundary. *)
Theorem redaction_total text : total (redact_sensitive_values text).
Proof. apply redact_values_total. Qed.

Lemma redact_property_total name value : total (redact_property name value).
Proof.
  unfold redact_property. destruct value; [done|]. destruct (is_sensitive_name name); [done|].
  apply total_fmap, redact_values_total.
Qed.

Lemma redact_entries_spec l :
  wp (redact_entries l) (λ r, Forall2 (λ p q, q.1 = p.1 ∧ redact_property p.1 p.2 = Done q.2) l r).
Proof.
  induction l as [|[name value] l IH]; cbn [redact_entries]; [constructor|].
  destruct (wp_Done _ _ (redact_property_total name value)) as (v & Hv & _). rewrite Hv. simpl.
  eapply wp_call; [apply IH|]. intros r Hr. by constructor.
Qed.

Lemma list_to_map_Forall2 (l r : list (str * str)) name :
  Forall2 (λ p q, q.1 = p.1 ∧ redact_property p.1 p.2 = Done q.2) l r →
  match (list_to_map l : gmap str str) !! name with
  | Some v => ∃ w, (list_to_map r : gmap str str) !! name = Some w ∧ redact_property name v = Done w
  | None => (list_to_map r : gmap str str) !! name = None
  end.
Proof.
  induction 1 as [|[n v] [m w] l r [Hn Hw] _ IH]; [done|]. simpl in *. subst m.
  destruct (decide (name = n)) as [->|Hne]; [rewrite !lookup_insert_eq; eauto|].
  by rewrite !lookup_insert_ne.
Qed.

(** Properties with every secret masked: the same names; the value of every name that reads like a
    secret is masked whole unless it is empty, and every other value goes through the redaction of
    free text. *)
Definition masked (properties out : gmap str str) : Prop := ∀ name,
  match properties !! name with
  | None => out !! name = None
  | Some value => ∃ shown, out !! name = Some shown ∧
      (value = [] → shown = []) ∧
      (value ≠ [] → is_sensitive_name name = true → shown = REDACTED) ∧
      (value ≠ [] → is_sensitive_name name = false →
         ∃ n, redact_sensitive_values value = Done (shown, n))
  end.

(** What [redact_properties] answers, for any properties. *)
Theorem properties_masked properties : wp (redact_properties properties) (masked properties).
Proof.
  unfold redact_properties. destruct (wp_Done _ _ (redact_entries_spec (sorted_entries properties))) as (r & -> & Hr).
  simpl. intros name. pose proof (list_to_map_Forall2 _ _ name Hr) as Hl.
  assert ((list_to_map (sorted_entries properties) : gmap str str) = properties) as Hm.
  { apply sorted_entries_map. }
  rewrite Hm in Hl. destruct (properties !! name) as [value|]; [|done].
  destruct Hl as (w & Hw & Hred). exists w. split; [done|]. unfold redact_property in Hred.
  destruct value as [|c value]; [by injection Hred as <-|].
  split; [done|]. destruct (is_sensitive_name name).
  - injection Hred as <-. done.
  - split; [done|]. intros _ _. apply fmap_Done in Hred as ([out n] & Hout & ->). eauto.
Qed.
End Redacted.

(** ** Witnesses: patterns that match nothing, and one credential *)

Definition no_matches : Pattern := {| segments _ := []; tail s := s |}.

(** A pattern that matches [key=value] at the first [=], for the witnesses. *)
Definition assignment_pattern : Pattern := {|
  segments s :=
    match split_once (ch "=") s with
    | Some (key, value) =>
        [{| gap := []; groups := [Some s; Some (key ++ lit "="); Some value] |}]
    | None => []
    end;
  tail s := match split_once (ch "=") s with Some _ => [] | None => s end;
|}.

#[local] Instance sample_patterns : Patterns := {|
  AUTHORIZATION := no_matches; XML_ELEMENT := no_matches; KEY_VALUE := assignment_pattern;
  URL_CREDENTIALS := no_matches; KNOWN_TOKEN := no_matches |}.

#[local] Instance sample_pattern_laws : PatternLaws.
Proof.
  split; simpl; try (intros s m Hm; by apply elem_of_nil in Hm).
  - intros p s Hp. rewrite !elem_of_cons, elem_of_nil in Hp.
    destruct Hp as [->|[->|[->|[->|[->|[]]]]]]; try done. unfold assignment_pattern. simpl.
    destruct (split_once _ s) as [[key value]|] eqn:E; simpl; by rewrite ?app_nil_r.
  - intros s m Hm. left. unfold assignment_pattern in Hm. simpl in Hm.
    destruct (split_once _ s) as [[key value]|] eqn:E; [|by apply elem_of_nil in Hm].
    apply list_elem_of_singleton in Hm as ->. apply split_once_spec in E as [-> _].
    exists (key ++ lit "="), value. split_and!; [done|done|]. unfold whole. simpl.
    by rewrite <- app_assoc.
Qed.

#[local] Instance sample_unicode : Unicode := ascii_only.

Lemma redaction_total_witness :
  redact_sensitive_values (lit "password=value") = Done (lit "password=<redacted>", 1) ∧
  total (redact_sensitive_values (lit "password=value")).
Proof. split; [vm_compute; reflexivity|]. apply redaction_total. Defined.

Lemma properties_masked_witness :
  wp (redact_properties {[lit "db.password" := lit "hunter2"]}) (λ out,
    out !! lit "db.password" = Some REDACTED).
Proof.
  pose proof (properties_masked {[lit "db.password" := lit "hunter2"]}) as Hm.
  eapply wp_mono; [exact Hm|]. intros out Hout. specialize (Hout (lit "db.password")).
  rewrite lookup_singleton_eq in Hout. destruct Hout as (shown & -> & _ & Hs & _).
  f_equal. apply Hs; [discriminate|vm_compute; reflexivity].
Defined.
