(* ===== verification/Config.v ===== *)
(** * Config: the server's limits and the bounded reading of XML

    Models [src/config.rs].  The environment is a function from names to values: [OsText] is the
    text of a value as [to_string_lossy] shows it and whether it was valid Unicode.  Files, the
    UTF-8 decoder and the [quick_xml] reader are parameters; an XML text is the list of the
    reader's events up to the end of the file, each an event or a read error.  The limits set
    once from the environment ([set_resource_limits]) are a record passed to the readers. *)

From S2P Require Import Prelude.
From S2P Require Import Text.
From S2P Require Import TextSearch.
From S2P Require Import Ordering.
From S2P Require Import Paths.

Open Scope N_scope.

(** ** Constants *)

Definition DEFAULT_MAX_RESULTS : N := 100.
Definition DEFAULT_MAX_SOURCE_BYTES : N := 1048576.
Definition DEFAULT_MAVEN_TIMEOUT_SECONDS : N := 300.
Definition DEFAULT_MAX_MAVEN_OUTPUT_BYTES : N := 1048576.
Definition DEFAULT_MAX_PROJECT_INDEXES : N := 4.
Definition DEFAULT_MAX_PROJECT_INDEX_BYTES : N := 1073741824.
Definition DEFAULT_MAX_HEAVY_JOBS : N := 2.
Definition DEFAULT_MAX_QUEUED_HEAVY_JOBS : N := 16.
Definition DEFAULT_MAX_XML_BYTES : N := 16777216.
Definition DEFAULT_MAX_JAR_ENTRIES : N := 200000.
Definition DEFAULT_MAX_INDEX_ENTRIES : N := 20000000.
Definition DEFAULT_MAX_INDEX_NAME_BYTES : N := 2147483648.
Definition DEFAULT_MAX_INDEX_CACHE_BYTES : N := 1073741824.
Definition DEFAULT_MAX_MCP_RESPONSE_BYTES : N := 12288.
Definition DEFAULT_MAX_MCP_RESULT_CACHE_BYTES : N := 67108864.
Definition MAX_ENTRY_NAME_BYTES : N := 4096.
Definition MAX_XML_DEPTH : N := 128.
Definition MAX_XML_ELEMENTS : N := 200000.
Definition MAX_XML_TOTAL_BYTES : N := 67108864.
Definition MAX_XML_FILES : N := 4096.

Record ResourceLimits := {
  max_xml_bytes : N;
  max_jar_entries : N;
  max_index_entries : N;
  max_index_name_bytes : N;
}.

(** ** The structure of an XML text *)

Inductive XmlEvent := Start | Empty | End | OtherEvent.

#[export] Instance XmlEvent_eq_dec : EqDecision XmlEvent.
Proof. solve_decision. Defined.

Inductive XmlError := ReadEvent (e : str) | DepthExceeded | ElementsExceeded.

Record XmlScan := {
  depth : N;
  elements : N;
}.

(** One event, with the checks of its turn. *)
Definition xml_turn (s : XmlScan) (e : XmlEvent) : XmlScan + XmlError :=
  match
    match e with
    | Start => inl {| depth := depth s + 1; elements := elements s + 1 |}
    | Empty =>
        if MAX_XML_DEPTH <=? depth s then inr DepthExceeded
        else inl {| depth := depth s; elements := elements s + 1 |}
    | End => inl {| depth := saturating_sub (depth s) 1; elements := elements s |}
    | OtherEvent => inl s
    end
  with
  | inr e => inr e
  | inl s =>
      if MAX_XML_DEPTH <? depth s then inr DepthExceeded
      else if MAX_XML_ELEMENTS <? elements s then inr ElementsExceeded
      else inl s
  end.

Fixpoint xml_events (s : XmlScan) (l : list (XmlEvent + str)) : unit + XmlError :=
  match l with
  | [] => inl ()
  | inr error :: _ => inr (ReadEvent error)
  | inl e :: l => match xml_turn s e with inl s => xml_events s l | inr e => inr e end
  end.
Definition validate_xml_structure (l : list (XmlEvent + str)) : unit + XmlError :=
  xml_events {| depth := 0; elements := 0 |} l.

(** ** Bounded reading *)

Class XmlFiles := {
  (** the bytes of a file, [None] when it cannot be opened or read *)
  file_contents : path → option (list N);
  from_utf8 : list N → option str;
  xml_reader : str → list (XmlEvent + str);
}.

Inductive XmlReadError := Io | TooLarge (limit : N) | NotUtf8 | Structure (e : XmlError) | TooManyFiles.

Record XmlBudget := {
  budget_bytes : N;
  budget_files : N;
}.
Definition empty_budget : XmlBudget := {| budget_bytes := 0; budget_files := 0 |}.

Section Reading.
Context `{XmlFiles}.

Definition read_bounded_xml_with_limit (p : path) (limit : N) : str + XmlReadError :=
  match file_contents p with
  | None => inr Io
  | Some contents =>
      let bytes := take (N.to_nat (N.min u64_max (limit + 1))) contents in
      if limit <? N.of_nat (length bytes) then inr (TooLarge limit)
      else
        match from_utf8 bytes with
        | None => inr NotUtf8
        | Some xml =>
            match validate_xml_structure (xml_reader xml) with
            | inr e => inr (Structure e)
            | inl () => inl xml
            end
        end
  end.

Definition read_bounded_xml (limits : ResourceLimits) (p : path) : str + XmlReadError :=
  read_bounded_xml_with_limit p (max_xml_bytes limits).

(** [XmlBudget::read]; the subtraction and the additions are checked. *)
Definition read (limits : ResourceLimits) (b : XmlBudget) (p : path) : exec ((str * XmlBudget) + XmlReadError) :=
  if MAX_XML_FILES <=? budget_files b then Done (inr TooManyFiles)
  else
    remaining ← or_panic (checked_sub MAX_XML_TOTAL_BYTES (budget_bytes b));
    match read_bounded_xml_with_limit p (N.min (max_xml_bytes limits) remaining) with
    | inr e => Done (inr e)
    | inl xml =>
        bytes ← or_panic (checked_add (budget_bytes b) (blen xml));
        files ← or_panic (checked_add (budget_files b) 1);
        Done (inl (xml, {| budget_bytes := bytes; budget_files := files |}))
    end.
End Reading.

(** ** The environment *)

Record OsText := {
  valid_unicode : bool;
  text : str;
}.
Definition Environment := str → option OsText.

Definition environment (l : list (str * str)) : Environment := λ name,
  snd <$> (snd <$> list_find (λ '(n, _), n = name) ((λ '(n, v), (n, {| valid_unicode := true; text := v |})) <$> l)).

Inductive ConfigError :=
| NotPositive (name : str)
| OutOfRange (name : str) (maximum : N)
| NotBoolean (name : str)
| NotReadable (name : str)
| NotAbsolute (name : str)
| NotDirectory
| NoDirectories
| NoJenvRoot.

Definition parse_positive (name : str) (value : option OsText) (default : N) : N + ConfigError :=
  match value with
  | None => inl default
  | Some value =>
      match parse_usize (text value) with
      | None => inr (NotPositive name)
      | Some parsed => if parsed =? 0 then inr (NotPositive name) else inl parsed
      end
  end.

Definition positive_env (env : Environment) (name : string) (default : N) : N + ConfigError :=
  parse_positive (lit name) (env (lit name)) default.

Definition validate_resource_limit (name : str) (value maximum : N) : N + ConfigError :=
  if (value =? 0) || (maximum <? value) then inr (OutOfRange name maximum) else inl value.

Definition resource_env (env : Environment) (name : string) (default maximum : N) : N + ConfigError :=
  match positive_env env name default with
  | inr e => inr e
  | inl value => validate_resource_limit (lit name) value maximum
  end.

Definition boolean_env_or (env : Environment) (name : string) (default : bool) : bool + ConfigError :=
  match env (lit name) with
  | None => inl default
  | Some value =>
      if negb (valid_unicode value) then inr (NotReadable (lit name))
      else if eq_ignore_ascii_case (text value) (lit "true") || bool_decide (text value = lit "1") then inl true
      else if eq_ignore_ascii_case (text value) (lit "false") || bool_decide (text value = lit "0") then inl false
      else inr (NotBoolean (lit name))
  end.

Definition boolean_env (env : Environment) (name : string) : bool + ConfigError := boolean_env_or env name false.

(** An absolute or relative path as its text gives it. *)
Definition is_absolute (s : str) : bool := starts_with (lit "/") s.

Inductive JavaEnvironment := Inherit | Jenv (root : str).

Record MavenExecutionConfig := {
  trusted_project_directories : list path;
  maven_executable : option str;
  execution_repository : option str;
  timeout_seconds : N;
  max_output_bytes : N;
  execution_max_results : N;
  network_enabled : bool;
  java_environment : JavaEnvironment;
}.

Record IndexCacheConfig := {
  cache_directory : str;
  cache_max_bytes : N;
}.

Record Config := {
  max_results : N;
  max_source_bytes : N;
  max_project_indexes : N;
  max_project_index_bytes : N;
  max_heavy_jobs : N;
  max_queued_heavy_jobs : N;
  max_mcp_response_bytes : N;
  max_mcp_result_cache_bytes : N;
  execution : MavenExecutionConfig;
  index_cache : option IndexCacheConfig;
}.

(** The error case of [?]. *)
Notation "'let?' x := e 'in' k" := (match e with inr err => inr err | inl x => k end)
  (at level 200, x binder, e at level 100, k at level 200).

(** [Path::join] of two texts, the second relative. *)
Definition join_text (base : str) (rest : string) : str := base ++ lit "/" ++ lit rest.

Definition index_cache_directory (configured xdg_cache_home home : option OsText) : option str + ConfigError :=
  match configured with
  | Some configured =>
      if is_absolute (text configured) then inl (Some (text configured))
      else inr (NotAbsolute (lit "MAVEN_MCP_CACHE_DIR"))
  | None =>
      let xdg := x ← xdg_cache_home; if is_absolute (text x) then Some (text x) else None in
      let base :=
        match xdg with
        | Some base => Some base
        | None => (λ h, join_text (text h) ".cache") <$> home
        end in
      inl ((λ base, join_text base "maven-mcp/index") <$> base)
  end.

Definition index_cache_from_env (env : Environment) : option IndexCacheConfig + ConfigError :=
  let? max_bytes := positive_env env "MAX_INDEX_CACHE_BYTES" DEFAULT_MAX_INDEX_CACHE_BYTES in
  let? enabled := boolean_env_or env "MAVEN_MCP_INDEX_CACHE" true in
  if negb enabled then inl None
  else
    let? directory := index_cache_directory (env (lit "MAVEN_MCP_CACHE_DIR")) (env (lit "XDG_CACHE_HOME"))
                        (env (lit "HOME")) in
    inl ((λ d, {| cache_directory := d; cache_max_bytes := max_bytes |}) <$> directory).

Definition java_environment_from_env (env : Environment) (use_jenv : bool) : JavaEnvironment + ConfigError :=
  if negb use_jenv then inl Inherit
  else
    match
      match env (lit "JENV_ROOT") with
      | Some root => Some (text root)
      | None => (λ h, join_text (text h) ".jenv") <$> env (lit "HOME")
      end
    with
    | None => inr NoJenvRoot
    | Some root => if is_absolute root then inl (Jenv root) else inr (NotAbsolute (lit "JENV_ROOT"))
    end.

Section FromEnv.
(** The canonical directory of an absolute path, when there is one. *)
Variable canonical_directory : str → option path.

Definition canonicalize_absolute_directory (p : str) : path + ConfigError :=
  if negb (is_absolute p) then inr (NotAbsolute (lit "MAVEN_TRUSTED_PROJECT_DIRECTORIES"))
  else match canonical_directory p with None => inr NotDirectory | Some d => inl d end.

Fixpoint canonical_directories (l : list str) : list path + ConfigError :=
  match l with
  | [] => inl []
  | p :: l =>
      let? d := canonicalize_absolute_directory p in
      let? rest := canonical_directories l in
      inl (d :: rest)
  end.

(** [env::split_paths] splits at colons, and gives at least one path. *)
Definition parse_trusted_project_directories (value : OsText) : list path + ConfigError :=
  let? directories := canonical_directories (split_char (ch ":") (text value)) in
  match directories with
  | [] => inr NoDirectories
  | _ => inl (dedup (sort directories))
  end.

Definition trusted_project_directories_from_env (env : Environment) : list path + ConfigError :=
  match env (lit "MAVEN_TRUSTED_PROJECT_DIRECTORIES") with
  | None => inl []
  | Some value => parse_trusted_project_directories value
  end.

Definition maven_execution_from_env (env : Environment) (use_jenv : bool) : MavenExecutionConfig + ConfigError :=
  let? timeout := positive_env env "MAVEN_TIMEOUT_SECONDS" DEFAULT_MAVEN_TIMEOUT_SECONDS in
  let? trusted := trusted_project_directories_from_env env in
  let? output := positive_env env "MAX_MAVEN_OUTPUT_BYTES" DEFAULT_MAX_MAVEN_OUTPUT_BYTES in
  let? results := positive_env env "MAX_RESULTS" DEFAULT_MAX_RESULTS in
  let? network := boolean_env env "MAVEN_EXECUTION_NETWORK" in
  let? java := java_environment_from_env env use_jenv in
  inl {| trusted_project_directories := trusted;
         maven_executable := text <$> env (lit "MAVEN_EXECUTABLE");
         execution_repository := text <$> env (lit "MAVEN_EXECUTION_REPO_PATH");
         timeout_seconds := timeout;
         max_output_bytes := output;
         execution_max_results := results;
         network_enabled := network;
         java_environment := java |}.

(** [from_env_with_jenv]: the process-wide limits first, then the configuration. *)
Definition from_env_with_jenv (env : Environment) (use_jenv : bool) : (ResourceLimits * Config) + ConfigError :=
  let? xml := resource_env env "MAX_XML_BYTES" DEFAULT_MAX_XML_BYTES MAX_XML_TOTAL_BYTES in
  let? jar := resource_env env "MAX_JAR_ENTRIES" DEFAULT_MAX_JAR_ENTRIES 1000000 in
  let? index := resource_env env "MAX_INDEX_ENTRIES" DEFAULT_MAX_INDEX_ENTRIES DEFAULT_MAX_INDEX_ENTRIES in
  let? names := resource_env env "MAX_INDEX_NAME_BYTES" DEFAULT_MAX_INDEX_NAME_BYTES DEFAULT_MAX_INDEX_NAME_BYTES in
  let? results := positive_env env "MAX_RESULTS" DEFAULT_MAX_RESULTS in
  let? source := positive_env env "MAX_SOURCE_BYTES" DEFAULT_MAX_SOURCE_BYTES in
  let? indexes := positive_env env "MAX_PROJECT_INDEXES" DEFAULT_MAX_PROJECT_INDEXES in
  let? index_bytes := positive_env env "MAX_PROJECT_INDEX_BYTES" DEFAULT_MAX_PROJECT_INDEX_BYTES in
  let? heavy := positive_env env "MAX_HEAVY_JOBS" DEFAULT_MAX_HEAVY_JOBS in
  let? queued := positive_env env "MAX_QUEUED_HEAVY_JOBS" DEFAULT_MAX_QUEUED_HEAVY_JOBS in
  let? response := positive_env env "MAX_MCP_RESPONSE_BYTES" DEFAULT_MAX_MCP_RESPONSE_BYTES in
  let? cache := positive_env env "MAX_MCP_RESULT_CACHE_BYTES" DEFAULT_MAX_MCP_RESULT_CACHE_BYTES in
  let? execution := maven_execution_from_env env use_jenv in
  let? index_cache := index_cache_from_env env in
  inl ({| max_xml_bytes := xml; max_jar_entries := jar; max_index_entries := index;
          max_index_name_bytes := names |},
       {| max_results := results; max_source_bytes := source; max_project_indexes := indexes;
          max_project_index_bytes := index_bytes; max_heavy_jobs := heavy;
          max_queued_heavy_jobs := queued; max_mcp_response_bytes := response;
          max_mcp_result_cache_bytes := cache; execution := execution; index_cache := index_cache |}).
End FromEnv.

(** ** The structure check against its meaning *)

(** The number of open elements after a list of events, and how many elements it has. *)
Definition open_after (l : list XmlEvent) : N :=
  foldl (λ d e, match e with Start => d + 1 | End => d - 1 | _ => d end) 0 l.
Definition element_count (l : list XmlEvent) : N :=
  N.of_nat (length (filter (λ e, e = Start ∨ e = Empty) l)).

(** Every element is at most [MAX_XML_DEPTH] deep, an empty one counted one below its parent, and
    there are at most [MAX_XML_ELEMENTS]. *)
Definition well_structured (l : list XmlEvent) : Prop :=
  (∀ before after, l = before ++ after → open_after before ≤ MAX_XML_DEPTH) ∧
  (∀ before after, l = before ++ Empty :: after → open_after before < MAX_XML_DEPTH) ∧
  element_count l ≤ MAX_XML_ELEMENTS.

Definition scan_of (l : list XmlEvent) : XmlScan := {| depth := open_after l; elements := element_count l |}.

Lemma scan_snoc l e : scan_of (l ++ [e]) = {|
  depth := match e with Start => open_after l + 1 | End => open_after l - 1 | _ => open_after l end;
  elements := match e with Start | Empty => element_count l + 1 | _ => element_count l end |}.
Proof.
  unfold scan_of, open_after, element_count. rewrite foldl_app, filter_app, length_app. simpl.
  f_equal; destruct e; simpl; rewrite ?N.add_0_r; try lia; f_equal; lia.
Qed.

Definition within (l : list XmlEvent) : Prop :=
  open_after l ≤ MAX_XML_DEPTH ∧ element_count l ≤ MAX_XML_ELEMENTS ∧
  (∀ before, l = before ++ [Empty] → open_after before < MAX_XML_DEPTH).

Lemma xml_turn_spec l e :
  match xml_turn (scan_of l) e with
  | inl s => s = scan_of (l ++ [e]) ∧ within (l ++ [e])
  | inr _ => ¬ within (l ++ [e])
  end.
Proof.
  assert (open_after (l ++ [e]) = depth (scan_of (l ++ [e])) ∧ element_count (l ++ [e]) = elements (scan_of (l ++ [e])))
    as [Hd He] by done.
  assert (∀ before, l ++ [e] = before ++ [Empty] → before = l ∧ e = Empty) as Hsnoc.
  { intros before Heq. apply app_inj_tail in Heq as [-> ->]. done. }
  unfold within. rewrite Hd, He, scan_snoc. clear Hd He.
  unfold xml_turn, saturating_sub. destruct e; cbn [depth elements scan_of].
  - destruct (N.ltb_spec MAX_XML_DEPTH (open_after l + 1)); [lia|].
    destruct (N.ltb_spec MAX_XML_ELEMENTS (element_count l + 1)); [lia|].
    split; [done|]. split_and!; [done..|]. by intros before [_ ?]%Hsnoc.
  - destruct (N.leb_spec MAX_XML_DEPTH (open_after l)) as [Hle|Hlt].
    { intros (_ & _ & Hem). specialize (Hem l eq_refl). lia. }
    cbn [depth elements]. destruct (N.ltb_spec MAX_XML_DEPTH (open_after l)); [lia|].
    destruct (N.ltb_spec MAX_XML_ELEMENTS (element_count l + 1)); [lia|].
    split; [done|]. split_and!; [done..|]. by intros before [-> _]%Hsnoc.
  - destruct (N.ltb_spec MAX_XML_DEPTH (open_after l - 1)); [lia|].
    destruct (N.ltb_spec MAX_XML_ELEMENTS (element_count l)); [lia|].
    split; [done|]. split_and!; [done..|]. by intros before [_ ?]%Hsnoc.
  - destruct (N.ltb_spec MAX_XML_DEPTH (open_after l)); [lia|].
    destruct (N.ltb_spec MAX_XML_ELEMENTS (element_count l)); [lia|].
    split; [done|]. split_and!; [done..|]. by intros before [_ ?]%Hsnoc.
Qed.

Lemma xml_events_spec l events :
  match xml_events (scan_of l) (inl <$> events) with
  | inl _ => ∀ before after, events = before ++ after → before ≠ [] → within (l ++ before)
  | inr _ => ∃ before after, events = before ++ after ∧ before ≠ [] ∧ ¬ within (l ++ before)
  end.
Proof.
  revert l. induction events as [|e events IH]; intros l; cbn [fmap list_fmap xml_events].
  - intros before after Heq Hne. symmetry in Heq. apply app_nil in Heq as [-> _]. done.
  - pose proof (xml_turn_spec l e) as Ht. destruct (xml_turn (scan_of l) e) as [s|err].
    + destruct Ht as [-> Hw]. specialize (IH (l ++ [e])). change (list_fmap _ _ inl events) with (inl (B:=str) <$> events) in *.
      destruct (xml_events (scan_of (l ++ [e])) (inl <$> events)) as [u|err].
      * intros before after Heq Hne. destruct before as [|b before]; [done|]. simplify_eq/=.
        destruct before as [|b' before]; [done|].
        rewrite (cons_middle b), app_assoc. by eapply IH.
      * destruct IH as (before & after & -> & Hne & Hnot). exists (e :: before), after.
        split_and!; [done|done|]. by rewrite (cons_middle e), app_assoc.
    + by exists [e], events.
Qed.

(** An XML text is accepted exactly when it is within the documented bounds: at most
    [MAX_XML_DEPTH] levels of elements at every point, empty elements included, and at most
    [MAX_XML_ELEMENTS] elements. *)
Theorem xml_structure_exact events :
  validate_xml_structure (inl <$> events) = inl () ↔ well_structured events.
Proof.
  pose proof (xml_events_spec [] events) as Hs. unfold validate_xml_structure.
  change {| depth := 0; elements := 0 |} with (scan_of []).
  destruct (xml_events (scan_of []) (inl <$> events)) as [[]|err].
  - split; [intros _|done]. split_and!.
    + intros before after Heq. destruct before as [|b before]; [done|]. by eapply (Hs (b :: before)).
    + intros before after Heq. rewrite (cons_middle Empty), app_assoc in Heq.
      destruct (Hs _ _ Heq) as (_ & _ & Hem); [by destruct before|]. by apply Hem.
    + destruct events as [|e events]; [done|]. by apply (Hs (e :: events) []); [rewrite app_nil_r|].
  - split; [done|]. intros (Hdep & Hem & Hel). destruct Hs as (before & after & -> & _ & Hnot).
    destruct Hnot. split_and!; simpl.
    + by eapply Hdep.
    + etrans; [|exact Hel]. unfold element_count. rewrite filter_app, length_app. lia.
    + intros b2 ->. eapply Hem. by rewrite <- app_assoc.
Qed.

(** ** The XML budget *)

(** What the reader relies on: a decoded text has the bytes it was decoded from. *)
Class XmlLaws `{XmlFiles} := {
  from_utf8_length bytes s : from_utf8 bytes = Some s → blen s = N.of_nat (length bytes);
}.

Definition budget_within (b : XmlBudget) : Prop :=
  budget_bytes b ≤ MAX_XML_TOTAL_BYTES ∧ budget_files b ≤ MAX_XML_FILES.

Section Budget.
Context `{XmlLaws}.

Lemma read_bounded_length p limit xml :
  read_bounded_xml_with_limit p limit = inl xml → blen xml ≤ limit.
Proof.
  unfold read_bounded_xml_with_limit. destruct (file_contents p) as [contents|]; [|done].
  destruct (N.ltb_spec limit (N.of_nat (length (take (N.to_nat (N.min u64_max (limit + 1))) contents)))) as [|Hl]; [done|].
  destruct (from_utf8 _) as [s|] eqn:Hs; [|done].
  destruct (validate_xml_structure _) as [[]|]; [|done]. intros [= <-]. apply from_utf8_length in Hs as ->. done.
Qed.

(** The budget of a set of XML files holds: from any budget within the limits a read never
    panics, and when it succeeds the text is within the limit of one file, the budget counts
    exactly its bytes and one file, and stays within the total limits. *)
Theorem budget_kept limits b p :
  budget_within b →
  wp (read limits b p) (λ r, match r with
    | inl (xml, b') =>
        blen xml ≤ max_xml_bytes limits ∧ budget_bytes b' = budget_bytes b + blen xml ∧
        budget_files b' = budget_files b + 1 ∧ budget_within b'
    | inr _ => True
    end).
Proof.
  intros [Hb Hf]. unfold read. destruct (N.leb_spec MAX_XML_FILES (budget_files b)) as [|Hfiles]; [done|].
  unfold checked_sub. rewrite decide_True by done. simpl.
  destruct (read_bounded_xml_with_limit _ _) as [xml|e] eqn:Hr; [|done].
  apply read_bounded_length in Hr.
  assert (MAX_XML_TOTAL_BYTES ≤ usize_max ∧ MAX_XML_FILES ≤ usize_max) as [HT HF] by (vm_compute; done).
  unfold checked_add. rewrite !decide_True by lia. simpl. unfold budget_within. simpl. lia.
Qed.

(** The text of a file. *)
Definition xml_text (p : path) (xml : str) : Prop :=
  ∃ contents, file_contents p = Some contents ∧ from_utf8 contents = Some xml.
Lemma read_text limits b p xml b' : budget_within b → read limits b p = Done (inl (xml, b')) → xml_text p xml.
Proof.
  intros [Hb _]. unfold read. destruct (MAX_XML_FILES <=? budget_files b); [done|].
  unfold checked_sub. rewrite decide_True by done. cbn [or_panic mbind exec_bind].
  set (limit := N.min _ _). assert (limit ≤ MAX_XML_TOTAL_BYTES) as Hl by lia.
  assert (MAX_XML_TOTAL_BYTES + 1 ≤ u64_max) as Hmax by (vm_compute; discriminate).
  unfold read_bounded_xml_with_limit. destruct (file_contents p) as [contents|] eqn:Hc; [|done].
  rewrite N.min_r by lia. destruct (N.ltb_spec limit (N.of_nat (length (take (N.to_nat (limit + 1)) contents)))) as [|Hlen]; [done|].
  rewrite length_take in Hlen. rewrite take_ge by lia.
  destruct (from_utf8 contents) as [s|] eqn:Hu; [|done]. destruct (validate_xml_structure _) as [[]|]; [|done].
  destruct (or_panic (checked_add (budget_bytes b) _)); [|done..]. cbn [mbind exec_bind].
  destruct (or_panic (checked_add (budget_files b) _)); [|done..]. intros [= <- _]. by exists contents.
Qed.
End Budget.

(** ** The configuration *)

Lemma parse_positive_pos name v d n : 0 < d → parse_positive name v d = inl n → 0 < n.
Proof.
  intros Hd. unfold parse_positive. destruct v as [v|]; [|by intros [= <-]].
  destruct (parse_usize (text v)) as [p|]; [|done]. destruct (N.eqb_spec p 0); [done|]. intros [= <-]. lia.
Qed.

Lemma resource_env_range env name d m n : resource_env env name d m = inl n → 0 < n ≤ m.
Proof.
  unfold resource_env. destruct (positive_env env name d) as [v|]; [|done].
  unfold validate_resource_limit. case_match eqn:E; [done|]. intros [= <-].
  apply orb_false_iff in E as [E1%N.eqb_neq E2%N.ltb_ge]. lia.
Qed.

(** A configuration that is accepted has positive limits everywhere, and the process-wide
    limits are at most their maxima; in particular a server always has a running slot for heavy
    work. *)
Theorem config_positive canonical env jenv limits c :
  from_env_with_jenv canonical env jenv = inl (limits, c) →
  0 < max_xml_bytes limits ≤ MAX_XML_TOTAL_BYTES ∧ 0 < max_jar_entries limits ≤ 1000000 ∧
  0 < max_index_entries limits ≤ DEFAULT_MAX_INDEX_ENTRIES ∧
  0 < max_index_name_bytes limits ≤ DEFAULT_MAX_INDEX_NAME_BYTES ∧
  Forall (λ n, 0 < n) [max_results c; max_source_bytes c; max_project_indexes c;
    max_project_index_bytes c; max_heavy_jobs c; max_queued_heavy_jobs c; max_mcp_response_bytes c;
    max_mcp_result_cache_bytes c; timeout_seconds (execution c); max_output_bytes (execution c);
    execution_max_results (execution c)].
Proof.
  unfold from_env_with_jenv.
  repeat (match goal with |- context [resource_env env ?n ?d ?m] =>
    let E := fresh "R" in destruct (resource_env env n d m) eqn:E; [|done]; apply resource_env_range in E end).
  repeat (match goal with |- context [positive_env env ?n ?d] =>
    let E := fresh "P" in destruct (positive_env env n d) eqn:E; [|done];
    apply parse_positive_pos in E; [|done] end).
  destruct (maven_execution_from_env canonical env jenv) as [ex|] eqn:Hex; [|done].
  destruct (index_cache_from_env env) as [ic|]; [|done]. intros [= <- <-]. simpl.
  assert (0 < timeout_seconds ex ∧ 0 < max_output_bytes ex ∧ 0 < execution_max_results ex) as (? & ? & ?).
  { revert Hex. unfold maven_execution_from_env.
    destruct (positive_env env "MAVEN_TIMEOUT_SECONDS" _) eqn:Q1; [|done]. apply parse_positive_pos in Q1; [|done].
    destruct (trusted_project_directories_from_env _ _); [|done].
    destruct (positive_env env "MAX_MAVEN_OUTPUT_BYTES" _) eqn:Q2; [|done]. apply parse_positive_pos in Q2; [|done].
    destruct (positive_env env "MAX_RESULTS" _) eqn:Q3; [|done]. apply parse_positive_pos in Q3; [|done].
    destruct (boolean_env _ _); [|done]. destruct (java_environment_from_env _ _); [|done]. by intros [= <-]. }
  split_and!; try lia. by repeat constructor.
Qed.

(** ** Witnesses *)

#[local] Instance sample_files : XmlFiles := {|
  file_contents p := if bool_decide (p = [lit "pom.xml"]) then Some (lit "<a/>") else None;
  from_utf8 b := if forallb (λ c, c <? 128) b then Some b else None;
  xml_reader _ := [inl Empty];
|}.

#[local] Instance sample_laws : XmlLaws.
Proof.
  split. intros bytes s. simpl. case_match eqn:E; [|done]. intros [= <-].
  rewrite <- utf8_blen, utf8_ascii; [done|]. apply Forall_forall. intros c Hc.
  rewrite forallb_forall in E. apply N.ltb_lt, E. by apply list_elem_of_In.
Qed.

Definition sample_limits : ResourceLimits :=
  {| max_xml_bytes := 100; max_jar_entries := 1; max_index_entries := 1; max_index_name_bytes := 1 |}.

Lemma budget_kept_witness :
  read sample_limits empty_budget [lit "pom.xml"] = Done (inl (lit "<a/>", {| budget_bytes := 4; budget_files := 1 |})) ∧
  wp (read sample_limits empty_budget [lit "pom.xml"]) (λ r, match r with
    | inl (xml, b') => blen xml ≤ 100
    | inr _ => True
    end).
Proof.
  split; [vm_compute; reflexivity|]. eapply wp_mono.
  - apply (budget_kept sample_limits empty_budget [lit "pom.xml"]). split; vm_compute; discriminate.
  - intros [[xml b']|e]; [|done]. by intros (Hx & _).
Defined.

Lemma config_positive_witness :
  ∃ limits c, from_env_with_jenv (λ _, None) (environment [(lit "MAX_HEAVY_JOBS", lit "3")]) false = inl (limits, c) ∧
    max_heavy_jobs c = 3 ∧ Forall (λ n, 0 < n) [max_heavy_jobs c].
Proof.
  eexists _, _. split; [vm_compute; reflexivity|]. split; [reflexivity|].
  pose proof (config_positive (λ _, None) (environment [(lit "MAX_HEAVY_JOBS", lit "3")]) false _ _
    ltac:(vm_compute; reflexivity)) as (_ & _ & _ & _ & Hp).
  rewrite !Forall_cons in Hp. destruct Hp as (_ & _ & _ & _ & Hh & _). constructor; [exact Hh|constructor].
Defined.
