(* ===== verification/MavenProject.v ===== *)
(** * MavenProject: the reactor of a project and the commands Maven runs with

    Models the discovery of the reactor, the selection of the executable and the argument vectors
    of [src/project.rs].  The file system is a parameter: the class [FileSystem] holds what the
    code asks of it, at one moment.  Reading a POM is [XmlBudget::read] of [Config] followed by the
    XML deserializer, another parameter. *)

From S2P Require Import Prelude.
From S2P Require Import Text.
From S2P Require Import TextSearch.
From S2P Require Import Ordering.
From S2P Require Import Paths.
From S2P Require Import Config.

Open Scope N_scope.

(** ** Data *)

Record MavenModule := {
  selector : str;
  module_artifact_id : str;
  module_packaging : str;
  module_modules : list str;
}.

Record MavenProject := {
  artifact_id : str;
  packaging : str;
  wrapper : bool;
  modules : list MavenModule;
}.

Inductive MavenExecutable := Wrapper (p : path) | System (p : path).
Definition executable_path (e : MavenExecutable) : path := match e with Wrapper p | System p => p end.

Inductive LifecyclePhase := Compile | TestCompile | Verify.
Definition phase_argument (p : LifecyclePhase) : str :=
  match p with Compile => lit "compile" | TestCompile => lit "test-compile" | Verify => lit "verify" end.

Record MavenInvocation := {
  phase : LifecyclePhase;
  invocation_module : option str;
  also_make : bool;
}.

Record FocusedTestInvocation := {
  test_class : str;
  test_method : option str;
  test_module : option str;
  test_also_make : bool;
}.

Inductive DependencyScope := ScopeCompile | ScopeProvided | ScopeRuntime | ScopeTest | ScopeSystem.
Definition scope_argument (s : DependencyScope) : str :=
  match s with
  | ScopeCompile => lit "compile" | ScopeProvided => lit "provided" | ScopeRuntime => lit "runtime"
  | ScopeTest => lit "test" | ScopeSystem => lit "system"
  end.

Inductive ClasspathKind := Build | Test.

(** What a raw POM says of itself and its modules. *)
Record RawProject := {
  raw_artifact_id : str;
  raw_packaging : option str;
  raw_modules : list str;
}.

(** ** Validation *)

Definition is_ascii_alphanumeric (c : char) : bool := is_ascii_alphabetic c || is_ascii_digit c.

Definition valid_name (extra : char → bool) (value : str) : bool :=
  negb (bool_decide (value = [])) && (blen value <=? 512)
  && forallb (λ c, is_ascii_alphanumeric c || extra c) value.

Definition validate_java_selector (value name : str) : unit + str :=
  if valid_name (λ c, (c =? ch "_") || (c =? ch "$") || (c =? ch ".")) value then inl ()
  else inr (name ++ lit " must be a Java class or method name without shell syntax").

Definition validate_coordinate_filter (value : str) : unit + str :=
  if valid_name (λ c, (c =? ch "_") || (c =? ch ".") || (c =? ch "-") || (c =? ch ":") || (c =? ch "*")) value
  then inl ()
  else inr (lit "coordinate_filter contains unsupported characters").

(** The components of a test source path after its [src/test/java] or [src/test/kotlin]. *)
Fixpoint test_source_relative (p : path) : option path :=
  match p with
  | a :: ((b :: c :: rest) as tail) =>
      if bool_decide (a = lit "src") && bool_decide (b = lit "test")
         && (bool_decide (c = lit "java") || bool_decide (c = lit "kotlin"))
      then Some rest else test_source_relative tail
  | _ => None
  end.

(** ** The argument vectors *)

Section Runner.
Variables (root : path) (executable : MavenExecutable) (project : MavenProject)
  (network_enabled : bool) (execution_repository : option path) (display : path → str).

Definition base_arguments (module : option str) (also_make : bool) : list str + str :=
  let arguments := [lit "--batch-mode"; lit "--no-transfer-progress"] in
  let arguments := arguments ++ (if network_enabled then [] else [lit "--offline"]) in
  let arguments := arguments ++
    match execution_repository with
    | Some repository => [lit "-Dmaven.repo.local=" ++ display repository]
    | None => []
    end in
  match module with
  | Some module =>
      if negb (existsb (λ candidate, bool_decide (selector candidate = module)) (modules project))
      then inr (lit "unknown reactor module: " ++ module)
      else inl (arguments ++ [lit "--projects"; module] ++ (if also_make then [lit "--also-make"] else []))
  | None => if also_make then inr (lit "also_make requires a selected module") else inl arguments
  end.

Definition arguments (invocation : MavenInvocation) : list str + str :=
  match base_arguments (invocation_module invocation) (also_make invocation) with
  | inr e => inr e
  | inl arguments => inl (arguments ++ [phase_argument (phase invocation)])
  end.

Definition focused_test_arguments (invocation : FocusedTestInvocation) : list str + str :=
  match validate_java_selector (test_class invocation) (lit "test_class") with
  | inr e => inr e
  | inl () =>
      match
        match test_method invocation with
        | Some method => validate_java_selector method (lit "test_method")
        | None => inl ()
        end
      with
      | inr e => inr e
      | inl () =>
          match base_arguments (test_module invocation) (test_also_make invocation) with
          | inr e => inr e
          | inl arguments =>
              let selector :=
                match test_method invocation with
                | Some method => test_class invocation ++ lit "#" ++ method
                | None => test_class invocation
                end in
              inl (arguments ++ [lit "test"; lit "-Dtest=" ++ selector;
                                 lit "-Dsurefire.failIfNoSpecifiedTests=false"])
          end
      end
  end.

(** [run_arguments] refuses a NUL byte before it runs anything. *)
Definition check_arguments (arguments : list str) : unit + str :=
  if existsb (contains_char 0) arguments then inr (lit "Maven arguments must not contain NUL bytes") else inl ().

Definition dependency_tree_arguments (module : option str) (scope : option DependencyScope)
    (coordinate_filter : option str) : list str + str :=
  match
    match coordinate_filter with Some filter => validate_coordinate_filter filter | None => inl () end
  with
  | inr e => inr e
  | inl () =>
      match base_arguments module false with
      | inr e => inr e
      | inl arguments =>
          inl (arguments ++ [lit "dependency:tree"; lit "-DoutputType=text"]
            ++ match scope with Some scope => [lit "-Dscope=" ++ scope_argument scope] | None => [] end
            ++ match coordinate_filter with Some filter => [lit "-Dincludes=" ++ filter] | None => [] end)
      end
  end.

Definition classpath_arguments (module : option str) (kind : ClasspathKind) : list str + str :=
  match base_arguments module false with
  | inr e => inr e
  | inl arguments =>
      inl (arguments ++ [lit "dependency:build-classpath";
        match kind with Build => lit "-DincludeScope=compile" | Test => lit "-DincludeScope=test" end])
  end.

(** The directories of the modules that can hold a report; an inserted selector replaces an equal
    one. *)
Definition coverage_module_roots (join_root : str → path) : gmap str path :=
  let start := if bool_decide (packaging project = lit "pom") then ∅ else {[lit "." := root]} in
  foldl (λ m module,
    if bool_decide (module_packaging module = lit "pom") then m
    else <[selector module := join_root (selector module)]> m) start (modules project).
End Runner.

(** ** Discovery *)

(** The answers of the file system: [canonicalize], [is_file], [is_dir] and an executable bit. *)
Class FileSystem := {
  canonicalize : path → option path;
  is_file : path → bool;
  is_dir : path → bool;
  is_executable : path → option bool;
}.

Definition normalize_module_selector (parent module : str) : str + str :=
  if starts_with (lit "/") module
     || existsb (λ c, bool_decide (c = lit "..")) (split_char (ch "/") module)
  then inr (lit "module selector must remain inside project_path")
  else
    let normalized := if bool_decide (parent = lit ".") then module else parent ++ lit "/" ++ module in
    inl (replace_char (ch "\") (ch "/") normalized).

Fixpoint collect_selectors (parent : str) (l : list str) : list str + str :=
  match l with
  | [] => inl []
  | module :: l =>
      match normalize_module_selector parent module with
      | inr e => inr e
      | inl s => match collect_selectors parent l with inr e => inr e | inl l => inl (s :: l) end
      end
  end.

Record Discovery := {
  discovered : gmap str MavenModule;
  visited : gset path;
  budget : XmlBudget;
}.

Section Discover.
Context `{FileSystem}.
(** Reading the POM of a directory within the budget, and deserializing it. *)
Variable read_pom : XmlBudget → path → (str * XmlBudget) + str.
Variable parse_pom : str → RawProject + str.

Inductive DiscoveryError :=
| TooDeep
| Unreadable
| Escapes
| NoPom (error : str)
| BadPom (error : str)
| BadSelector (error : str).

(** [discover_module]; [depth] is what is left below [MAX_XML_DEPTH]. *)
Fixpoint discover_module (depth : nat) (root directory : path) (selector : str) (d : Discovery)
    {struct depth} : Discovery + DiscoveryError :=
  match depth with
  | O => inr TooDeep
  | S depth =>
      match canonicalize directory with
      | None => inr Unreadable
      | Some directory =>
          if negb (path_starts_with root directory) then inr Escapes
          else if bool_decide (directory ∈ visited d) then inl d
          else
            let d := {| discovered := discovered d; visited := {[directory]} ∪ visited d; budget := budget d |} in
            match read_pom (budget d) (directory ++ [lit "pom.xml"]) with
            | inr e => inr (NoPom e)
            | inl (xml, budget) =>
                match parse_pom xml with
                | inr e => inr (BadPom e)
                | inl raw =>
                    match collect_selectors selector (raw_modules raw) with
                    | inr e => inr (BadSelector e)
                    | inl child_selectors =>
                        let d := {| discovered := <[selector := {|
                                      selector := selector;
                                      module_artifact_id := raw_artifact_id raw;
                                      module_packaging := default (lit "jar") (raw_packaging raw);
                                      module_modules := child_selectors |}]> (discovered d);
                                    visited := visited d; budget := budget |} in
                        (fix children (l : list (str * str)) (d : Discovery) : Discovery + DiscoveryError :=
                          match l with
                          | [] => inl d
                          | (module, child_selector) :: l =>
                              match canonicalize (path_join directory module) with
                              | None => inr Unreadable
                              | Some child =>
                                  if negb (path_starts_with root child) then inr Escapes
                                  else
                                    match discover_module depth root child child_selector d with
                                    | inr e => inr e
                                    | inl d => children l d
                                    end
                              end
                          end) (zip (raw_modules raw) child_selectors) d
                    end
                end
            end
      end
  end.

(** A module at depth [MAX_XML_DEPTH] is still read. *)
Definition discover_project (root : path) (wrapper : bool) : option (MavenProject + DiscoveryError) :=
  match discover_module (S (N.to_nat MAX_XML_DEPTH)) root root (lit ".")
          {| discovered := ∅; visited := ∅; budget := empty_budget |} with
  | inr e => Some (inr e)
  | inl d =>
      root_module ← discovered d !! lit ".";
      Some (inl {| artifact_id := module_artifact_id root_module;
                   packaging := module_packaging root_module;
                   wrapper := wrapper;
                   modules := snd <$> sorted_entries (delete (lit ".") (discovered d)) |})
  end.

(** ** The executable *)

Definition select_executable (root : path) (configured : option (bool * path)) : option MavenExecutable :=
  let mvnw := root ++ [lit "mvnw"] in
  let system :=
    (* the flag of a configured path says whether it is absolute *)
    '(absolute, configured) ← configured;
    if negb absolute then None
    else
      configured ← canonicalize configured;
      executable ← is_executable configured;
      if executable : bool then Some (System configured) else None in
  if is_file mvnw && is_file (root ++ [lit ".mvn"; lit "wrapper"; lit "maven-wrapper.properties"]) then
    match is_executable mvnw with
    | None => None
    | Some true => Some (Wrapper mvnw)
    | Some false => system
    end
  else system.

Definition validated_executable (root : path) (executable : MavenExecutable) : option path :=
  resolved ← canonicalize (executable_path executable);
  if match executable with Wrapper _ => negb (path_starts_with root resolved) | System _ => false end
  then None
  else
    ok ← is_executable resolved;
    if ok : bool then Some (executable_path executable) else None.

(** [canonical_project_root]; the flag says whether the path given is absolute. *)
Definition canonical_project_root (absolute : bool) (project_path : path) : option path :=
  if negb absolute then None
  else
    root ← canonicalize project_path;
    if negb (is_dir root) then None
    else if negb (is_file (root ++ [lit "pom.xml"])) then None
    else Some root.

(** ** What a runner watches *)

Definition module_directories (root : path) (project : MavenProject) : list path :=
  dedup (sort (root :: ((λ module,
    let directory := path_join root (selector module) in
    default directory (canonicalize directory)) <$> modules project))).

Definition fingerprint_paths (root : path) (executable : MavenExecutable) (project : MavenProject) : list path :=
  dedup (sort (
    [root ++ [lit "pom.xml"]; executable_path executable; root ++ [lit "mvnw"];
     root ++ [lit ".mvn"; lit "wrapper"; lit "maven-wrapper.properties"];
     root ++ [lit ".mvn"; lit "maven.config"]; root ++ [lit ".mvn"; lit "jvm.config"];
     root ++ [lit ".mvn"; lit "extensions.xml"]]
    ++ ((λ module, path_join root (selector module) ++ [lit "pom.xml"]) <$> modules project))).

(** [Path::parent]. *)
Definition parent (p : path) : option path :=
  match p with [] => None | _ => Some (removelast p) end.

Definition installation_configuration (executable : MavenExecutable) (wrapper_homes : list path) : list path :=
  let homes :=
    match executable with
    | System executable => option_list (parent executable ≫= parent)
    | Wrapper _ => wrapper_homes
    end in
  mjoin ((λ home, [home ++ [lit "conf"]; home ++ [lit "lib"; lit "ext"]]) <$> homes).
End Discover.

(** ** The argument vectors *)

Section Arguments.
Variables (project : MavenProject) (network_enabled : bool) (execution_repository : option path)
  (display : path → str).
Notation base := (base_arguments project network_enabled execution_repository display).

(** A character that [validate_java_selector] lets through, or the separator of a method. *)
Definition test_character (c : char) : bool :=
  is_ascii_alphanumeric c || (c =? ch "_") || (c =? ch "$") || (c =? ch ".") || (c =? ch "#").

Lemma valid_selector_chars value name :
  validate_java_selector value name = inl () → value ≠ [] ∧ Forall (λ c, test_character c = true) value.
Proof.
  unfold validate_java_selector, valid_name. case_match eqn:E; [|done]. intros _.
  apply andb_true_iff in E as [[Hne _]%andb_true_iff Hc].
  rewrite negb_true_iff, bool_decide_eq_false in Hne. split; [done|].
  apply Forall_forall. intros c Hin%list_elem_of_In. rewrite forallb_forall in Hc. specialize (Hc c Hin).
  unfold test_character. revert Hc. rewrite !orb_true_iff. tauto.
Qed.

Lemma base_arguments_shape module am args :
  base module am = inl args →
  ∃ selected, args = lit "--batch-mode" :: lit "--no-transfer-progress" ::
      (if network_enabled then [] else [lit "--offline"])
      ++ match execution_repository with Some r => [lit "-Dmaven.repo.local=" ++ display r] | None => [] end
      ++ selected ∧
    match module with
    | None => am = false ∧ selected = []
    | Some m => (∃ x, x ∈ modules project ∧ selector x = m) ∧
        selected = [lit "--projects"; m] ++ (if am then [lit "--also-make"] else [])
    end.
Proof.
  unfold base_arguments. intros Hb. destruct module as [m|].
  - destruct (existsb _ (modules project)) eqn:E; [|done]. simpl in Hb. injection Hb as <-.
    eexists. split; [simpl; by rewrite <- ?app_assoc|]. split; [|done].
    apply existsb_exists in E as (x & Hx%list_elem_of_In & Hs%bool_decide_eq_true). by exists x.
  - destruct am; [done|]. injection Hb as <-. exists []. split; [|done].
    simpl. by rewrite <- ?app_assoc, ?app_nil_r.
Qed.

(** The command of a focused test is built safely: when it is accepted, its vector is the
    fixed options, [--offline] unless the network is enabled, the selected module, which is one of
    the reactor, and one [-Dtest=] argument whose selector holds only letters, digits, [_], [$],
    [.] and the [#] before the method: no white space, separator or shell syntax. *)
Theorem focused_test_command inv args :
  focused_test_arguments project network_enabled execution_repository display inv = inl args →
  ∃ selection test,
    args = lit "--batch-mode" :: lit "--no-transfer-progress" ::
      (if network_enabled then [] else [lit "--offline"])
      ++ match execution_repository with Some r => [lit "-Dmaven.repo.local=" ++ display r] | None => [] end
      ++ selection ++ [lit "test"; lit "-Dtest=" ++ test; lit "-Dsurefire.failIfNoSpecifiedTests=false"] ∧
    test = match test_method inv with Some m => test_class inv ++ lit "#" ++ m | None => test_class inv end ∧
    test ≠ [] ∧ Forall (λ c, test_character c = true) test ∧
    match test_module inv with
    | None => selection = []
    | Some m => (∃ x, x ∈ modules project ∧ selector x = m) ∧
        selection = [lit "--projects"; m] ++ (if test_also_make inv then [lit "--also-make"] else [])
    end.
Proof.
  unfold focused_test_arguments. intros Hf.
  destruct (validate_java_selector (test_class inv) _) as [[]|] eqn:Hc; [|done].
  apply valid_selector_chars in Hc as [Hne Hc].
  destruct (match test_method inv with Some _ => _ | None => _ end) as [[]|] eqn:Hm; [|done].
  destruct (base_arguments _ _ _ _ _ _) as [b|] eqn:Hb; [|done]. injection Hf as <-.
  apply base_arguments_shape in Hb as (selected & -> & Hsel).
  eexists selected, _. split; [simpl; by rewrite <- ?app_assoc|]. split; [done|].
  split_and!; [..|by destruct (test_module inv); naive_solver].
  - destruct (test_method inv); [by destruct (test_class inv)|done].
  - destruct (test_method inv) as [m|]; [|done]. apply valid_selector_chars in Hm as [_ Hm].
    apply Forall_app. split; [done|]. constructor; [vm_compute; reflexivity|exact Hm].
Qed.
End Arguments.

Definition sample_project : MavenProject := {|
  artifact_id := lit "app"; packaging := lit "pom"; wrapper := true;
  modules := [{| selector := lit "core"; module_artifact_id := lit "core";
                 module_packaging := lit "jar"; module_modules := [] |}];
|}.
Definition sample_test : FocusedTestInvocation := {|
  test_class := lit "org.example.FooTest"; test_method := Some (lit "works");
  test_module := Some (lit "core"); test_also_make := true;
|}.

Lemma focused_test_command_witness :
  ∃ args test, focused_test_arguments sample_project false None (λ _, []) sample_test = inl args ∧
    (lit "-Dtest=" ++ test) ∈ args ∧ Forall (λ c, test_character c = true) test.
Proof.
  eexists. exists (lit "org.example.FooTest#works").
  split; [vm_compute; reflexivity|].
  destruct (focused_test_command sample_project false None (λ _, []) sample_test _ ltac:(vm_compute; reflexivity))
    as (selection & test & Ha & Ht & _ & Hc & _).
  vm_compute in Ht. subst test. split; [decide_now|exact Hc].
Defined.

(** ** Discovery stays inside the project *)

Section Contained.
Context `{FileSystem}.
Variable read_pom : XmlBudget → path → (str * XmlBudget) + str.
Variable parse_pom : str → RawProject + str.

(** What the discovery has read: directories below the root, and modules by their selector. *)
Record contained (root : path) (d : Discovery) : Prop := {
  contained_visited p : p ∈ visited d → path_starts_with root p = true;
  contained_selector k m : discovered d !! k = Some m → selector m = k;
}.

Lemma discover_module_contained depth root directory s d d' :
  contained root d → discover_module read_pom parse_pom depth root directory s d = inl d' → contained root d'.
Proof.
  revert directory s d d'. induction depth as [|depth IH]; intros directory s d d' Hd; cbn [discover_module]; [done|].
  destruct (canonicalize directory) as [dir|]; [|done].
  destruct (path_starts_with root dir) eqn:Hin; [|done]. cbn [negb].
  case_bool_decide as Hv; [by intros [= <-]|].
  destruct (read_pom _ _) as [[xml b]|]; [|done]. destruct (parse_pom xml) as [raw|]; [|done].
  destruct (collect_selectors s (raw_modules raw)) as [children|]; [|done].
  set (d1 := {| discovered := _; visited := _; budget := b |}).
  assert (contained root d1) as Hd1.
  { destruct Hd as [Hvis Hsel]. split; simpl.
    - intros p [->%elem_of_singleton|Hp]%elem_of_union; [done|by apply Hvis].
    - intros k m. destruct (decide (k = s)) as [->|]; [rewrite lookup_insert_eq; by intros [= <-]|].
      rewrite lookup_insert_ne by done. apply Hsel. }
  clearbody d1. generalize (zip (raw_modules raw) children) as l. intros l. revert d1 Hd1.
  induction l as [|[module cs] l IHl]; intros d1 Hd1; [by intros [= <-]|].
  destruct (canonicalize (path_join dir module)) as [child|]; [|done].
  destruct (path_starts_with root child); [|done]. cbn [negb].
  destruct (discover_module read_pom parse_pom depth root child cs d1) as [d2|] eqn:Hc; [|done].
  apply IHl. by eapply IH.
Qed.

(** The reactor a project is discovered with is inside the project: every directory whose POM
    was read is below the project root after links are resolved, and the modules are listed
    without the root, each under its own selector, in strictly increasing order of selectors. *)
Theorem discovery_contained root w p :
  discover_project read_pom parse_pom root w = Some (inl p) →
  ∃ d, discover_module read_pom parse_pom (S (N.to_nat MAX_XML_DEPTH)) root root (lit ".")
         {| discovered := ∅; visited := ∅; budget := empty_budget |} = inl d ∧
    (∀ dir, dir ∈ visited d → path_starts_with root dir = true) ∧
    StronglySorted lt_cmp (selector <$> modules p) ∧ lit "." ∉ selector <$> modules p ∧
    (∀ m, m ∈ modules p → discovered d !! selector m = Some m).
Proof.
  unfold discover_project. generalize (S (N.to_nat MAX_XML_DEPTH)). intros levels.
  destruct (discover_module _ _ levels _ _ _ _) as [d|] eqn:Hd; [|done].
  rewrite bind_Some. intros (root_module & Hroot & [= <-]). exists d. split; [done|].
  apply discover_module_contained in Hd as [Hvis Hsel]; [|by split; simpl; set_solver].
  split; [done|]. cbn [modules].
  assert (∀ k m, (k, m) ∈ sorted_entries (delete (lit ".") (discovered d)) →
    k ≠ lit "." ∧ selector m = k ∧ discovered d !! k = Some m) as Hentry.
  { intros k m [Hk Hm]%elem_of_sorted_entries%lookup_delete_Some. split; [done|]. split; [by apply Hsel|done]. }
  assert (selector <$> (sorted_entries (delete (lit ".") (discovered d))).*2
    = (sorted_entries (delete (lit ".") (discovered d))).*1) as Heq.
  { rewrite <- list_fmap_compose. apply list_fmap_ext. intros i [k m] Hi%list_elem_of_lookup_2.
    by apply Hentry in Hi as (_ & ? & _). }
  rewrite Heq. split; [apply sorted_entries_strict|]. split.
  - intros ([k m] & Hk & Hkm)%list_elem_of_fmap. by apply Hentry in Hkm as (? & _).
  - intros m ([k m'] & -> & Hkm)%list_elem_of_fmap. apply Hentry in Hkm as (_ & Hs & ?).
    simpl. by rewrite Hs.
Qed.
End Contained.

(** A project of two directories, for the witness. *)
#[local] Instance sample_tree : FileSystem := {|
  canonicalize p := if bool_decide (p ∈ [[lit "p"]; [lit "p"; lit "core"]]) then Some p else None;
  is_file _ := true;
  is_dir _ := true;
  is_executable _ := Some true;
|}.
Definition sample_read (b : XmlBudget) (p : path) : (str * XmlBudget) + str := inl (join [] p, b).
Definition sample_parse (xml : str) : RawProject + str :=
  inl {| raw_artifact_id := xml; raw_packaging := None;
         raw_modules := if contains (lit "core") xml then [] else [lit "core"] |}.

Definition sample_discovered : MavenProject :=
  match discover_project sample_read sample_parse [lit "p"] true with
  | Some (inl p) => p
  | _ => sample_project
  end.
Lemma discovery_contained_witness :
  discover_project sample_read sample_parse [lit "p"] true = Some (inl sample_discovered) ∧
  selector <$> modules sample_discovered = [lit "core"] ∧
  StronglySorted lt_cmp (selector <$> modules sample_discovered).
Proof.
  assert (discover_project sample_read sample_parse [lit "p"] true = Some (inl sample_discovered)) as H
    by (vm_compute; reflexivity).
  split; [exact H|]. split; [vm_compute; reflexivity|].
  destruct (discovery_contained sample_read sample_parse [lit "p"] true _ H) as (d & _ & _ & Hs & _).
  exact Hs.
Defined.

(** A selector can leave the project: a module named with backslashes passes the check as one
    path component, and the replacement of its backslashes then makes it climb. *)
Theorem selector_can_climb :
  normalize_module_selector (lit ".") (lit "a\..\..\b") = inl (lit "a/../../b").
Proof. vm_compute. reflexivity. Qed.
