(* ===== verification/DependencyTree.v ===== *)
(** * DependencyTree: reading the dependency trees Maven prints

    Models the parsers of [dependency:tree] in [src/project.rs]: the plain tree
    ([parse_dependency_tree]), the verbose tree explained per artifact
    ([parse_dependency_resolution]) and the wildcard filter of the explanations.  A
    [BTreeMap<String, _>] is a [gmap]; where the code iterates over one, the entries are taken in
    the order of their keys.  A [BTreeSet] of versions is a [gset], listed in order, and the set of
    selection reasons a list kept in the order of the enum.

    What the parsers are proved against is a small model of Maven's printer: a dependency tree
    rendered line by line with its [+-], [\-] and [|] markers. *)

From S2P Require Import Prelude.
From S2P Require Import Text.
From S2P Require Import TextSearch.
From S2P Require Import Ordering.
From S2P Require Import MavenProject.

Open Scope N_scope.

(** ** Data *)

Record DependencyNode := {
  depth : N;
  coordinate : str;
  scope : option str;
}.

Inductive DependencyPathStatus := Selected | ConflictOmitted | DuplicateOmitted | Excluded.
#[export] Instance DependencyPathStatus_eq_dec : EqDecision DependencyPathStatus.
Proof. solve_decision. Defined.

Inductive DependencySelectionReason :=
| DirectDeclaration | NearestDefinition | DependencyManagement | OnlyCandidate.
#[export] Instance DependencySelectionReason_eq_dec : EqDecision DependencySelectionReason.
Proof. solve_decision. Defined.

Record ParsedDependencyCoordinate := {
  identity : str;
  parsed_coordinate : str;
  version : str;
}.

Record ParsedDependencyLine := {
  line_depth : N;
  line_coordinate : ParsedDependencyCoordinate;
  line_status : DependencyPathStatus;
  line_annotations : list str;
  line_requested_version : str;
}.

Record DependencyResolutionPath := {
  path_module : str;
  nodes : list str;
  requested_version : str;
  status : DependencyPathStatus;
  annotations : list str;
}.

Record DependencyExplanationBuilder := {
  selected_version : option str;
  requested_versions : gset str;
  selection_reasons : list DependencySelectionReason;
  paths : list DependencyResolutionPath;
}.

Record DependencyResolutionExplanation := {
  artifact : str;
  explained_version : option str;
  explained_requests : list str;
  explained_reasons : list DependencySelectionReason;
  explained_paths : list DependencyResolutionPath;
}.

(** The derived [Ord] of the enum, and [BTreeSet::insert]. *)
Definition reason_rank (r : DependencySelectionReason) : N :=
  match r with DirectDeclaration => 0 | NearestDefinition => 1 | DependencyManagement => 2 | OnlyCandidate => 3 end.
#[export] Instance DependencySelectionReason_ord : Ord DependencySelectionReason :=
  λ a b, N.compare (reason_rank a) (reason_rank b).
Definition insert_reason : DependencySelectionReason → list DependencySelectionReason → list DependencySelectionReason :=
  set_insert.

(** ** Coordinates *)

Definition is_dependency_scope (value : str) : bool :=
  existsb (λ s, bool_decide (value = lit s))
    ["compile"; "provided"; "runtime"; "test"; "system"; "import"]%string.

Definition colon : char := ch ":".
Definition colons (parts : list str) : str := join (lit ":") parts.

Definition normalize_coordinate (parts : list str) : option str :=
  match parts with
  | [group; artifact; _; version] => Some (colons [group; artifact; version])
  | [group; artifact; _; classifier; version] => Some (colons [group; artifact; version; classifier])
  | _ => None
  end.

(** [position(is_dependency_scope)]. *)
Definition scope_position (parts : list str) : option nat :=
  fst <$> list_find (λ part, is_dependency_scope part = true) parts.

Definition parse_dependency_coordinate (parts : list str) : option ParsedDependencyCoordinate :=
  if negb ((length parts =? 5)%nat || (length parts =? 6)%nat)
     || existsb (λ part, bool_decide (part = [])) parts then None
  else
    scope_index ← scope_position parts;
    version_index ←
      match length parts, scope_index with
      | 5, 4 => Some 3
      | 5, 3 => Some 4
      | 6, 5 => Some 4
      | 6, 4 => Some 5
      | _, _ => None
      end%nat;
    let part i := default [] (parts !! i) in
    let classifier := if (length parts =? 6)%nat then [part 3%nat] else [] in
    Some {| identity := colons ([part 0%nat; part 1%nat; part 2%nat] ++ classifier);
            parsed_coordinate := colons ([part 0%nat; part 1%nat; part version_index] ++ classifier);
            version := part version_index |}.

(** ** Lines of the verbose tree *)

Fixpoint strip_level (levels : list string) (line : str) : option str :=
  match levels with
  | [] => None
  | level :: levels =>
      match strip_prefix (lit level) line with
      | Some message => Some message
      | None => strip_level levels line
      end
  end.

Definition maven_log_message (line : str) : str :=
  let line := trim_end (trim_start line) in
  match strip_level ["[INFO]"; "[WARNING]"; "[WARN]"; "[ERROR]"]%string line with
  | Some message => trim_end (default message (strip_prefix (lit " ") message))
  | None => line
  end.

Definition plugin_module_artifact (line : str) : option str :=
  '(_, remainder) ← split_once_str (lit " @ ") line;
  let artifact := trim (trim_end_matches (N.eqb (ch "-")) remainder) in
  if decide (artifact = []) then None else Some artifact.

Definition module_selector (project : MavenProject) (artifact_id : str) : str :=
  match list_find (λ m, module_artifact_id m = artifact_id) (modules project) with
  | Some (_, m) => selector m
  | None => lit "."
  end.

Definition parse_root_coordinate (line : str) : option (str * str) :=
  if existsb is_whitespace line || starts_with (lit "(") line then None
  else
    let parts := split_char colon line in
    if negb ((length parts =? 4)%nat || (length parts =? 5)%nat)
       || existsb (λ part, bool_decide (part = [])) parts then None
    else
      c ← normalize_coordinate parts;
      Some (default [] (parts !! 1%nat), c).

Definition split_dependency_annotations (value : str) : str * list str :=
  let trimmed := trim value in
  match inner ← strip_prefix (lit "(") trimmed;
        inner ← strip_suffix (lit ")") inner;
        split_once_str (lit " - ") inner with
  | Some (coordinate, annotation) => (trim coordinate, [trim annotation])
  | None =>
      match rsplit_once_str (lit " (") trimmed with
      | Some (coordinate, annotation) =>
          (trim coordinate, [trim (trim_end_matches (N.eqb (ch ")")) annotation)])
      | None => (trimmed, [])
      end
  end.

Definition MANAGED_FROM : str := lit "version managed from ".

(** The text of the annotation after the phrase, whose case is ignored: lowering ASCII letters
    keeps every byte position. *)
Definition managed_text (annotation : str) : option str :=
  '(before, _) ← split_once_str MANAGED_FROM (ascii_lower annotation);
  Some (drop (length before + length MANAGED_FROM) annotation).

Definition is_version_end (c : char) : bool := (c =? ch ";") || (c =? ch ",") || (c =? ch " ").

Fixpoint managed_from_version (annotations : list str) : option str :=
  match annotations with
  | [] => None
  | annotation :: rest =>
      match
        text ← managed_text annotation;
        version ← head (split_at is_version_end text);
        if decide (version = []) then None else Some version
      with
      | Some version => Some version
      | None => managed_from_version rest
      end
  end.

Definition annotation_status (annotation_text : str) : DependencyPathStatus :=
  if contains (lit "excluded") annotation_text || contains (lit "exclusion") annotation_text then Excluded
  else if contains (lit "omitted for conflict") annotation_text then ConflictOmitted
  else if contains (lit "omitted for duplicate") annotation_text then DuplicateOmitted
  else Selected.

(** The entry after the marker of a line. *)
Definition parse_entry (depth : N) (value : str) : option ParsedDependencyLine :=
  let (coordinate_text, annotations) := split_dependency_annotations value in
  let parts := split_char colon
    (trim_matches (λ c, (c =? ch "(") || (c =? ch ")")) coordinate_text) in
  coordinate ← parse_dependency_coordinate parts;
  let annotation_text := ascii_lower (join (lit "; ") annotations) in
  Some {| line_depth := depth;
          line_coordinate := coordinate;
          line_status := annotation_status annotation_text;
          line_annotations := annotations;
          line_requested_version := default (version coordinate) (managed_from_version annotations) |}.

(** [parse_dependency_line]; [before] and [after] stand around the marker of the line. *)
Definition parse_dependency_line (before after : str) : option ParsedDependencyLine :=
  parse_entry (blen before / 3 + 1) (trim after).

(** [line.find("+- ").or_else(|| line.find("\\- "))]: the text around the marker. *)
Definition find_marker (line : str) : option (str * str) :=
  match split_once_str (lit "+- ") line with
  | Some r => Some r
  | None => split_once_str (lit "\- ") line
  end.

(** ** The verbose tree *)

Record Resolution := {
  builders : gmap str DependencyExplanationBuilder;
  path_stack : list str;
  current_module : str;
  malformed : bool;
}.

Definition empty_builder : DependencyExplanationBuilder :=
  {| selected_version := None; requested_versions := ∅; selection_reasons := []; paths := [] |}.

(** What a line adds to the builder of its artifact. *)
Definition record_path (parsed : ParsedDependencyLine) (module : str) (nodes : list str)
    (b : DependencyExplanationBuilder) : DependencyExplanationBuilder :=
  let selected := bool_decide (line_status parsed = Selected) in
  let reasons := selection_reasons b in
  let reasons := if selected && (line_depth parsed =? 1) then insert_reason DirectDeclaration reasons else reasons in
  let reasons :=
    if existsb (λ a, contains (lit "managed") (ascii_lower a)) (line_annotations parsed)
    then insert_reason DependencyManagement reasons else reasons in
  {| selected_version := if selected then Some (version (line_coordinate parsed)) else selected_version b;
     requested_versions := {[line_requested_version parsed]} ∪ requested_versions b;
     selection_reasons := reasons;
     paths := paths b ++ [{| path_module := module; nodes := nodes;
                             requested_version := line_requested_version parsed;
                             status := line_status parsed;
                             annotations := line_annotations parsed |}] |}.

(** The entry of a dependency line: its path is the stack cut to the ancestors, and itself. *)
Definition enter_line (parsed : ParsedDependencyLine) (s : Resolution) : Resolution :=
  let stack := take (N.to_nat (line_depth parsed)) (path_stack s)
                 ++ [parsed_coordinate (line_coordinate parsed)] in
  let key := identity (line_coordinate parsed) in
  let b := default empty_builder (builders s !! key) in
  {| builders := <[key := record_path parsed (current_module s) stack b]> (builders s);
     path_stack := stack; current_module := current_module s; malformed := malformed s |}.

Definition resolution_line (project : MavenProject) (s : Resolution) (raw_line : str) : Resolution :=
  let line := maven_log_message raw_line in
  match plugin_module_artifact line with
  | Some artifact_id =>
      {| builders := builders s; path_stack := [];
         current_module := module_selector project artifact_id; malformed := malformed s |}
  | None =>
      match find_marker line with
      | None =>
          match parse_root_coordinate line with
          | Some (artifact_id, root) =>
              {| builders := builders s; path_stack := [root];
                 current_module := module_selector project artifact_id; malformed := malformed s |}
          | None => s
          end
      | Some (before, after) =>
          match parse_dependency_line before after with
          | None =>
              {| builders := builders s; path_stack := path_stack s;
                 current_module := current_module s; malformed := true |}
          | Some parsed => enter_line parsed s
          end
      end
  end.

Definition resolution_start : Resolution :=
  {| builders := ∅; path_stack := []; current_module := lit "."; malformed := false |}.

Definition add_mediation_reason (b : DependencyExplanationBuilder) : DependencyExplanationBuilder :=
  let with_reason r :=
    {| selected_version := selected_version b; requested_versions := requested_versions b;
       selection_reasons := insert_reason r (selection_reasons b); paths := paths b |} in
  if existsb (λ p, bool_decide (status p = ConflictOmitted)) (paths b) then
    if existsb (λ r, bool_decide (r = DirectDeclaration)) (selection_reasons b) then b
    else with_reason NearestDefinition
  else if (size (requested_versions b) =? 1)%nat then with_reason OnlyCandidate
  else b.

Definition explanation (artifact : str) (b : DependencyExplanationBuilder) : DependencyResolutionExplanation :=
  let b := add_mediation_reason b in
  {| artifact := artifact;
     explained_version := selected_version b;
     explained_requests := sort (elements (requested_versions b));
     explained_reasons := selection_reasons b;
     explained_paths := paths b |}.

Definition explanations_of (builders : gmap str DependencyExplanationBuilder) : list DependencyResolutionExplanation :=
  (λ '(key, b), explanation key b) <$> sorted_entries builders.

Definition parse_dependency_resolution (output : str) (project : MavenProject)
    : list DependencyResolutionExplanation * bool :=
  let s := foldl (resolution_line project) resolution_start (lines output) in
  (explanations_of (builders s), malformed s).

(** ** The plain tree *)

(** [prefix.len().is_multiple_of(3)] and every group of three bytes is [|  ] or [   ]; a
    character outside ASCII is in no such group. *)
Fixpoint is_tree_prefix (s : str) : bool :=
  match s with
  | [] => true
  | a :: b :: c :: s =>
      ((a =? ch "|") || (a =? ch " ")) && (b =? ch " ") && (c =? ch " ") && is_tree_prefix s
  | _ => false
  end.

Definition parse_tree_coordinate (text : str) : option (str * str) :=
  coordinate ← head (split_whitespace text);
  let coordinate := trim_end_matches (N.eqb (ch ",")) coordinate in
  let parts := split_char colon coordinate in
  if existsb (λ part, bool_decide (part = [])) parts
     || negb (is_dependency_scope (default [] (last parts))) then None
  else
    match parts with
    | [group; artifact; _; version; scope] => Some (colons [group; artifact; version], scope)
    | [group; artifact; _; classifier; version; scope] =>
        Some (colons [group; artifact; version; classifier], scope)
    | _ => None
    end.

Definition tree_message (line : str) : str := trim (trim_start_str (lit "[INFO]") (trim line)).

Definition tree_line (raw_line : str) : option DependencyNode :=
  let line := tree_message raw_line in
  '(prefix, rest) ← find_marker line;
  if negb (is_tree_prefix prefix) then None
  else
    '(normalized, scope) ← parse_tree_coordinate (trim rest);
    Some {| depth := blen prefix / 3 + 1; coordinate := normalized; scope := Some scope |}.

Definition parse_dependency_tree (output : str) : list DependencyNode := omap tree_line (lines output).

(** ** The wildcard filter *)

Record Wildcard := {
  pattern_index : nat;
  value_index : nat;
  star_index : option nat;
  star_value_index : nat;
}.

(** One turn of the loop over the bytes of the pattern and the value. *)
Definition wildcard_turn (pattern value : list N) (s : Wildcard) : exec (turn Wildcard bool) :=
  match value !! value_index s with
  | None => Done (Break (forallb (N.eqb (ch "*")) (drop (pattern_index s) pattern)))
  | Some v =>
      if decide (pattern !! pattern_index s = Some v) then
        Done (Continue {| pattern_index := S (pattern_index s); value_index := S (value_index s);
                          star_index := star_index s; star_value_index := star_value_index s |})
      else if decide (pattern !! pattern_index s = Some (ch "*")) then
        Done (Continue {| pattern_index := S (pattern_index s); value_index := value_index s;
                          star_index := Some (pattern_index s); star_value_index := value_index s |})
      else
        match star_index s with
        | Some star =>
            Done (Continue {| pattern_index := S star; value_index := S (star_value_index s);
                              star_index := Some star; star_value_index := S (star_value_index s) |})
        | None => Done (Break false)
        end
  end.

Definition wildcard_start : Wildcard :=
  {| pattern_index := 0; value_index := 0; star_index := None; star_value_index := 0 |}.

(** Every turn moves the last star on, or the retry position of that star on, or the two indexes:
    see [wildcard_measure]. *)
Definition wildcard_fuel (pattern value : list N) : nat :=
  S (S (S (length pattern)) * S (S (length value)) * S (length pattern + length value)).

Definition wildcard_bytes (pattern value : list N) : exec bool :=
  loop (wildcard_fuel pattern value) (wildcard_turn pattern value) wildcard_start.

Definition wildcard_matches (pattern value : str) : exec bool :=
  wildcard_bytes (utf8 pattern) (utf8 value).

(** The short-circuiting [||] and [any] of [coordinate_matches]. *)
Fixpoint any_node_matches (pattern : str) (paths : list DependencyResolutionPath) : exec bool :=
  match paths with
  | [] => Done false
  | p :: paths =>
      found ← match last (nodes p) with Some node => wildcard_matches pattern node | None => Done false end;
      if found : bool then Done true else any_node_matches pattern paths
  end.

Definition coordinate_matches (pattern : str) (e : DependencyResolutionExplanation) : exec bool :=
  found ← wildcard_matches pattern (artifact e);
  if found : bool then Done true else any_node_matches pattern (explained_paths e).

(** ** The answer of the tool *)

Inductive DependencyResolutionStatus := Available | Empty | Incomplete | ResolutionFailed | Invalid.

Fixpoint retain_matching (filter : str) (l : list DependencyResolutionExplanation)
    : exec (list DependencyResolutionExplanation) :=
  match l with
  | [] => Done []
  | e :: l =>
      keep ← coordinate_matches filter e;
      l ← retain_matching filter l;
      Done (if keep : bool then e :: l else l)
  end.

(** The end of [explain_dependency_resolution], after a successful build. *)
Definition explain_output (project : MavenProject) (max_results : nat) (raw_stdout : str)
    (output_truncated : bool) (coordinate_filter : option str)
    : exec (DependencyResolutionStatus * list DependencyResolutionExplanation * bool) :=
  let (explanations, malformed) := parse_dependency_resolution raw_stdout project in
  explanations ←
    match coordinate_filter with
    | Some filter => retain_matching filter explanations
    | None => Done explanations
    end;
  let result_limit_reached := (max_results <? length explanations)%nat in
  let explanations := take max_results explanations in
  let incomplete := output_truncated || result_limit_reached in
  let status :=
    if malformed : bool then Invalid
    else if incomplete then Incomplete
    else match explanations with [] => Empty | _ => Available end in
  Done (status, explanations, incomplete || malformed).

(** ** The wildcard filter against its denotation *)

Definition star : N := ch "*".

(** The strings a pattern denotes: a star stands for any run of bytes. *)
Inductive glob : list N → list N → Prop :=
| glob_nil : glob [] []
| glob_char c p v : c ≠ star → glob p v → glob (c :: p) (c :: v)
| glob_star p w v : glob p v → glob (star :: p) (w ++ v).

Lemma glob_cons c p v :
  glob (c :: p) v ↔ (c ≠ star ∧ ∃ v', v = c :: v' ∧ glob p v') ∨ (c = star ∧ ∃ k, glob p (drop k v)).
Proof.
  split.
  - inversion 1 as [|? ? v0 Hc Hg|? w v0 Hg]; simplify_eq; [left; eauto|].
    right. split; [done|]. exists (length w). by rewrite drop_app_length.
  - intros [[Hc (v' & -> & Hg)]|[-> (k & Hg)]]; [by constructor|].
    rewrite <- (take_drop k v). by constructor.
Qed.

Lemma glob_literal lit p v : star ∉ lit → glob (lit ++ p) v ↔ ∃ v', v = lit ++ v' ∧ glob p v'.
Proof.
  revert v. induction lit as [|c lit IH]; intros v Hs; simpl; [naive_solver|].
  apply not_elem_of_cons in Hs as [Hc Hs]. rewrite glob_cons. split.
  - intros [[_ (v' & -> & Hg)]|[-> _]]; [|done]. apply IH in Hg as (v2 & -> & ?); eauto.
  - intros (v' & -> & ?). left. split; [done|]. eexists. split; [done|]. apply IH; eauto.
Qed.

Lemma glob_star_drop p v : glob (star :: p) v ↔ ∃ k, glob p (drop k v).
Proof. rewrite glob_cons. naive_solver. Qed.

Lemma glob_empty p : glob p [] ↔ forallb (N.eqb star) p = true.
Proof.
  induction p as [|c p IH]; cbn [forallb].
  - split; [done|]. constructor.
  - rewrite andb_true_iff, N.eqb_eq, <- IH, glob_cons. setoid_rewrite drop_nil. split.
    + by intros [[_ (? & ? & _)]|[-> [_ ?]]].
    + intros [<- ?]. right. split; [done|by exists 0%nat].
Qed.

Section Wildcard.
Context (P V : list N) (Hplain : star ∉ V).

(** The text since the last star: the pattern up to [pattern_index] is literally the value up to
    [value_index]; what is left to decide is the whole question. *)
Record wildcard_inv (s : Wildcard) : Prop := {
  wi_pattern : (pattern_index s ≤ length P)%nat;
  wi_value : (value_index s ≤ length V)%nat;
  wi_attempt :
    match star_index s with
    | None => glob P V ↔ glob (drop (pattern_index s) P) (drop (value_index s) V)
    | Some st =>
        ∃ lit, (pattern_index s = S st + length lit)%nat ∧
          (value_index s = star_value_index s + length lit)%nat ∧
          drop (S st) P = lit ++ drop (pattern_index s) P ∧
          drop (star_value_index s) V = lit ++ drop (value_index s) V ∧
          (glob P V ↔ ∃ k, (star_value_index s ≤ k)%nat ∧ glob (drop (S st) P) (drop k V))
    end;
}.

Definition wildcard_measure (s : Wildcard) : nat :=
  (match star_index s with None => S (length P) | Some st => length P - st end
     * (S (S (length V)) * S (length P + length V))
   + (S (length V) - match star_index s with None => 0 | Some _ => star_value_index s end)
     * S (length P + length V)
   + (length P - pattern_index s) + (length V - value_index s))%nat.

Lemma plain_drop k : star ∉ drop k V.
Proof. intros Hin%elem_of_drop_inv. done. Qed.

Lemma plain_literal k lit r : drop k V = lit ++ r → star ∉ lit.
Proof. intros Hd Hin. apply (plain_drop k). rewrite Hd. apply elem_of_app. by left. Qed.

Lemma glob_star_from p vi :
  glob (star :: p) (drop vi V) ↔ ∃ k, (vi ≤ k)%nat ∧ glob p (drop k V).
Proof.
  rewrite glob_star_drop. setoid_rewrite drop_drop. split.
  - intros (k & Hg). exists (vi + k)%nat. split; [lia|done].
  - intros (k & Hk & Hg). exists (k - vi)%nat. by replace (vi + (k - vi))%nat with k by lia.
Qed.

(** A star after a literal run: the positions from which the rest can match. *)
Lemma glob_next_star lit p sv vi :
  (vi = sv + length lit)%nat → drop sv V = lit ++ drop vi V →
  (∃ k, (sv ≤ k)%nat ∧ glob (lit ++ star :: p) (drop k V)) ↔ (∃ k, (vi ≤ k)%nat ∧ glob p (drop k V)).
Proof.
  intros Hvi Hlit. pose proof (plain_literal _ _ _ Hlit) as Hplain'. split.
  - intros (k & Hk & (v' & Hv & Hg)%glob_literal); [|done].
    assert (v' = drop (k + length lit) V) as ->.
    { by rewrite <- drop_drop, Hv, drop_app_length. }
    apply glob_star_from in Hg as (k' & ? & Hg). exists k'. split; [lia|done].
  - intros Hex%glob_star_from. exists sv. split; [lia|]. rewrite Hlit. apply glob_literal; eauto.
Qed.

Lemma wildcard_turn_spec s :
  wildcard_inv s →
  wp (wildcard_turn P V s) (λ t, match t with
    | Continue s' => wildcard_inv s' ∧ (wildcard_measure s' < wildcard_measure s)%nat
    | Break b => b = true ↔ glob P V
    end).
Proof.
  intros [Hpi Hvi Hatt]. unfold wildcard_turn.
  destruct (V !! value_index s) as [v|] eqn:Hv.
  2: { (* the end of the value *)
    apply lookup_ge_None in Hv. cbn [wp]. rewrite <- glob_empty.
    assert (value_index s = length V) as Hend by lia.
    destruct (star_index s) as [st|].
    - destruct Hatt as (lit & Hp & Hl & HP & HV & Hiff). rewrite Hiff, HP.
      rewrite Hend, (drop_ge V (length V)), app_nil_r in HV by done.
      assert (star ∉ lit) as Hlit by (rewrite <- HV; apply plain_drop). split.
      + intros Hg. exists (star_value_index s). split; [done|].
        apply glob_literal; [done|]. exists []. by rewrite app_nil_r, HV.
      + intros (k & Hk & (v' & Hv' & Hg)%glob_literal); [|done].
        apply (f_equal length) in Hv' as Hlen. rewrite length_app, length_drop in Hlen.
        destruct v'; [done|]. simpl in Hlen. lia.
    - by rewrite Hatt, Hend, (drop_ge V (length V)) by done. }
  pose proof (lookup_lt_Some _ _ _ Hv) as Hlt. apply drop_S in Hv as HdV.
  apply list_elem_of_lookup_2 in Hv as Hin.
  case_decide as Hsame; [|case_decide as Hstar].
  - (* the next byte matches *)
    pose proof (lookup_lt_Some _ _ _ Hsame). apply drop_S in Hsame as HdP. cbn [wp].
    assert (v ≠ star) as Hvs by (by intros ->).
    split; [split; simpl; [lia|lia|]|].
    + destruct (star_index s) as [st|].
      * destruct Hatt as (lit & Hp & Hl & HP & HV & Hiff). exists (lit ++ [v]).
        rewrite length_app, <- !app_assoc. simpl. rewrite <- HdP, <- HdV.
        split_and!; [lia|lia|done..].
      * rewrite Hatt, HdV, HdP. rewrite glob_cons. naive_solver.
    + unfold wildcard_measure. simpl. destruct (star_index s); lia.
  - (* a star *)
    pose proof (lookup_lt_Some _ _ _ Hstar). apply drop_S in Hstar as HdP. cbn [wp].
    split; [split; simpl; [lia|lia|]|].
    + exists []. simpl. split_and!; [lia|lia|done..|]. destruct (star_index s) as [st|].
      * destruct Hatt as (lit & Hp & Hl & HP & HV & Hiff). rewrite Hiff, HP, HdP.
        by apply glob_next_star.
      * rewrite Hatt, HdP. apply glob_star_from.
    + unfold wildcard_measure. simpl. destruct (star_index s) as [st|].
      * destruct Hatt as (lit & Hp & Hl & _).
        assert (length P - pattern_index s < length P - st)%nat by lia. nia.
      * assert (length P - pattern_index s < S (length P))%nat by lia. nia.
  - (* a mismatch *)
    assert (Hno : ¬ glob (drop (pattern_index s) P) (drop (value_index s) V)).
    { rewrite HdV. destruct (drop (pattern_index s) P) as [|c p] eqn:HdP; intros Hg; [by inversion Hg|].
      assert (P !! pattern_index s = Some c) as Hc.
      { rewrite <- (Nat.add_0_r (pattern_index s)), <- lookup_drop, HdP. done. }
      apply glob_cons in Hg as [[_ (v' & Hvv & _)]|[-> _]]; [|by rewrite Hc in Hstar].
      congruence. }
    destruct (star_index s) as [st|] eqn:Hst; cbn [wp].
    + destruct Hatt as (lit & Hp & Hl & HP & HV & Hiff).
      split; [split; simpl; [lia|lia|]|].
      * exists []. simpl. split_and!; [lia|lia|done..|]. rewrite Hiff. split.
        -- intros (k & Hk & Hg). destruct (decide (k = star_value_index s)) as [->|]; [|by exists k; split; [lia|]].
           exfalso. rewrite HP, HV in Hg. apply glob_literal in Hg as (v' & Hv' & Hg);
             [|by eapply plain_literal]. apply app_inv_head in Hv' as <-. done.
        -- intros (k & Hk & Hg). exists k. split; [lia|done].
      * unfold wildcard_measure. cbn [star_index pattern_index value_index star_value_index]. rewrite Hst.
        replace (S (length V) - star_value_index s)%nat
          with (S (S (length V) - S (star_value_index s))) by lia.
        rewrite (Nat.mul_succ_l (S (length V) - _)). lia.
    + rewrite Hatt. done.
Qed.
End Wildcard.

(** The wildcard filter is exact: on a value without a literal star, [wildcard_matches] always
    answers, and its answer is membership in the language of the pattern, where a star stands for
    any run of bytes; backtracking to the last star only loses nothing. *)
Theorem wildcard_exact pattern value :
  star ∉ utf8 value →
  wp (wildcard_matches pattern value) (λ b, b = true ↔ glob (utf8 pattern) (utf8 value)).
Proof.
  intros Hplain. unfold wildcard_matches, wildcard_bytes.
  apply (wp_loop (wildcard_inv (utf8 pattern) (utf8 value))
                 (wildcard_measure (utf8 pattern) (utf8 value))).
  - intros s Hs. by apply wildcard_turn_spec.
  - split; simpl; [lia|lia|done].
  - unfold wildcard_measure, wildcard_fuel. cbn [star_index pattern_index value_index wildcard_start].
    rewrite !Nat.sub_0_r. lia.
Qed.

Lemma wildcard_exact_witness :
  star ∉ utf8 (lit "org.apache:commons-lang:jar") ∧
  wp (wildcard_matches (lit "org.*:*lang*") (lit "org.apache:commons-lang:jar"))
    (λ b, b = true ↔ glob (utf8 (lit "org.*:*lang*")) (utf8 (lit "org.apache:commons-lang:jar"))).
Proof.
  assert (star ∉ utf8 (lit "org.apache:commons-lang:jar")) as H.
  { refine (bool_decide_unpack _ _). vm_compute. exact I. }
  split; [exact H|]. apply (wildcard_exact _ _ H).
Defined.

Example wildcard_example :
  wildcard_matches (lit "org.*:*lang*") (lit "org.apache:commons-lang:jar") = Done true.
Proof. vm_compute. reflexivity. Qed.

(** ** Maven's printer *)

(** The indentation of a level: a bar while its ancestor has further siblings. *)
Definition group (bar : bool) : str := if bar then lit "|  " else lit "   ".
Definition indent (groups : list bool) : str := mjoin (group <$> groups).
Definition marker (last : bool) : str := if last then lit "\- " else lit "+- ".
Definition tree_row (groups : list bool) (last : bool) (text : str) : str :=
  indent groups ++ marker last ++ text.
Definition printed_row (groups : list bool) (last : bool) (text : str) : str :=
  lit "[INFO] " ++ tree_row groups last text.

(** The text of an entry: no outer white space and none of the characters that structure the
    lines around it. *)
Record plain_entry (text : str) : Prop := {
  plain_ne : text ≠ [];
  plain_tight : tight is_whitespace text;
  plain_at : ch "@" ∉ text;
  plain_marker : contains (lit "+- ") text = false;
}.

Lemma indent_cons b groups : indent (b :: groups) = group b ++ indent groups.
Proof. done. Qed.

Lemma indent_chars groups : Forall (λ c, c = ch "|" ∨ c = ch " ") (indent groups).
Proof.
  induction groups as [|b groups IH]; [constructor|]. rewrite indent_cons. apply Forall_app.
  split; [|done]. destruct b; repeat constructor; first [by left|by right].
Qed.

Lemma indent_no c groups : c ≠ ch "|" → c ≠ ch " " → c ∉ indent groups.
Proof. intros H1 H2 Hin. pose proof (indent_chars groups) as HF. rewrite Forall_forall in HF. naive_solver. Qed.

Lemma indent_blen groups : blen (indent groups) = 3 * N.of_nat (length groups).
Proof.
  induction groups as [|b groups IH]; [done|]. rewrite indent_cons, blen_app, IH.
  assert (blen (group b) = 3) as -> by (by destruct b). simpl length. lia.
Qed.

Lemma indent_prefix groups : is_tree_prefix (indent groups) = true.
Proof. induction groups as [|b groups IH]; [done|]. rewrite indent_cons. destruct b; simpl; apply IH. Qed.

Lemma find_marker_row groups last text :
  plain_entry text → find_marker (tree_row groups last text) = Some (indent groups, text).
Proof.
  intros [_ _ _ Hm]. unfold find_marker, tree_row.
  change (lit "+- ") with (ch "+" :: lit "- ") in *. destruct last.
  - rewrite app_assoc, split_once_str_app.
    + rewrite (proj2 (split_once_str_None _ _) Hm). simpl.
      rewrite <- app_assoc. change (lit "\- ") with (ch "\" :: lit "- ").
      rewrite split_once_str_app by by apply indent_no.
      change (marker true) with (ch "\" :: lit "- "). rewrite split_once_str_here. simpl.
      by rewrite app_nil_r.
    + intros [Hin|Hin]%elem_of_app; [by eapply indent_no in Hin|]. vm_compute in Hin.
      by repeat (apply elem_of_cons in Hin as [Hin|Hin]; [done|]); apply elem_of_nil in Hin.
  - rewrite split_once_str_app by by apply indent_no.
    change (marker false) with (ch "+" :: lit "- "). rewrite split_once_str_here. simpl.
    by rewrite app_nil_r.
Qed.

Lemma row_last groups b text : text ≠ [] → last (tree_row groups b text) = last text.
Proof.
  intros Hne. unfold tree_row. rewrite app_assoc, last_app.
  destruct (last text) eqn:E; [done|]. by apply last_None in E.
Qed.

(** ** The plain tree: the depth of a printed row *)

(** The levels left once the row is trimmed: leading blank groups are gone. *)
Fixpoint drop_blank (groups : list bool) : list bool :=
  match groups with
  | false :: groups => drop_blank groups
  | _ => groups
  end.

Lemma tight_row groups b text :
  plain_entry text →
  ∃ w, Forall (λ c, is_whitespace c = true) w ∧ tree_row groups b text = w ++ tree_row (drop_blank groups) b text ∧
    tight is_whitespace (tree_row (drop_blank groups) b text).
Proof.
  intros Hp. induction groups as [|bar groups IH].
  - exists []. split_and!; [constructor|done|]. split.
    + intros c. destruct b; simpl; by intros [= <-].
    + intros c Hc. rewrite row_last in Hc by apply Hp. by apply Hp.
  - destruct bar.
    + exists []. split_and!; [constructor|done|]. split.
      * simpl. by intros c [= <-].
      * intros c Hc. cbn [drop_blank] in Hc. rewrite row_last in Hc by apply Hp. by apply Hp.
    + destruct IH as (w & Hw & Heq & Ht). exists (lit "   " ++ w). split_and!; [|simpl|done].
      * apply Forall_app. split; [|done]. by repeat constructor.
      * unfold tree_row in *. rewrite indent_cons, <- app_assoc, Heq. done.
Qed.

Lemma tree_message_row groups b text :
  plain_entry text → tree_message (printed_row groups b text) = tree_row (drop_blank groups) b text.
Proof.
  intros Hp. unfold tree_message, printed_row.
  assert (tight is_whitespace (lit "[INFO] " ++ tree_row groups b text)) as Ht.
  { split; [by intros c [= <-]|]. intros c. rewrite last_app, row_last by apply Hp.
    destruct (last text) eqn:E; [|by apply last_None in E; destruct Hp].
    intros [= <-]. by apply Hp. }
  unfold trim at 2. rewrite (trim_tight _ _ Ht).
  change (lit "[INFO] " ++ ?r) with (lit "[INFO]" ++ ch " " :: r).
  rewrite trim_start_str_strip by done.
  destruct (tight_row groups b text Hp) as (w & Hw & -> & Htr).
  unfold trim, trim_matches.
  change (ch " " :: w ++ ?r) with ((ch " " :: w) ++ r).
  rewrite trim_start_matches_app by by constructor.
  by apply trim_tight in Htr as Htr'.
Qed.

(** What [parse_dependency_tree] reads from a row Maven prints, in every layout: the
    coordinate and the scope, and as depth one more than the number of levels left after the
    leading blank ones.  It is the depth of the entry whenever the row starts with a bar, and
    smaller by the number of leading blank levels otherwise. *)
Theorem tree_line_depth groups b text c s :
  plain_entry text → parse_tree_coordinate text = Some (c, s) →
  tree_line (printed_row groups b text)
  = Some {| depth := N.of_nat (length (drop_blank groups)) + 1; coordinate := c; scope := Some s |}.
Proof.
  intros Hp Hc. unfold tree_line. rewrite tree_message_row, find_marker_row by done. simpl.
  rewrite indent_prefix. simpl. assert (trim text = text) as -> by by apply trim_tight, Hp.
  rewrite Hc. simpl. rewrite indent_blen. do 3 f_equal.
  rewrite N.mul_comm, N.div_mul by done. done.
Qed.

(** ** The verbose tree *)

Lemma maven_log_message_row groups b text :
  plain_entry text → maven_log_message (printed_row groups b text) = tree_row groups b text.
Proof.
  intros Hp. unfold maven_log_message.
  assert (tight is_whitespace (printed_row groups b text)) as Ht.
  { split; [by intros c [= <-]|]. intros c. unfold printed_row. rewrite last_app, row_last by apply Hp.
    destruct (last text) eqn:E; [|by apply last_None in E; destruct Hp].
    intros [= <-]. by apply Hp. }
  assert (trim_end (trim_start (printed_row groups b text)) = printed_row groups b text) as ->.
  { unfold trim_end, trim_start. by rewrite (trim_start_tight _ _ Ht), (trim_end_tight _ _ Ht). }
  change (printed_row groups b text) with (lit "[INFO]" ++ lit " " ++ tree_row groups b text).
  cbn [strip_level]. rewrite !strip_prefix_app. cbn [default from_option].
  unfold trim_end. apply trim_end_keeps. intros c. rewrite row_last by apply Hp. by apply Hp.
Qed.

(** A tree of entries, and its rows in the order Maven prints them. *)
Inductive dep_tree := Dep (text : str) (children : list dep_tree).

Section Rows.
Variable tree_rows : list bool → bool → dep_tree → list str.
Fixpoint forest_rows_of (groups : list bool) (forest : list dep_tree) : list str :=
  match forest with
  | [] => []
  | [t] => tree_rows groups true t
  | t :: forest => tree_rows groups false t ++ forest_rows_of groups forest
  end.
End Rows.

Fixpoint tree_rows (groups : list bool) (last : bool) (t : dep_tree) : list str :=
  match t with
  | Dep text children =>
      printed_row groups last text :: forest_rows_of tree_rows (groups ++ [negb last]) children
  end.
Definition forest_rows : list bool → list dep_tree → list str := forest_rows_of tree_rows.

(** The entries of a tree in the same order, each with the coordinates from the root to it. *)
Fixpoint tree_entries (ancestors : list str) (t : dep_tree) : list (ParsedDependencyLine * list str) :=
  match t with
  | Dep text children =>
      match parse_entry (N.of_nat (length ancestors)) text with
      | None => []
      | Some parsed =>
          let path := ancestors ++ [parsed_coordinate (line_coordinate parsed)] in
          (parsed, path) :: mjoin (tree_entries path <$> children)
      end
  end.
Definition forest_entries (ancestors : list str) (forest : list dep_tree) :=
  mjoin (tree_entries ancestors <$> forest).

Inductive well_printed : dep_tree → Prop :=
| wp_dep text children :
    plain_entry text → is_Some (parse_entry 0 text) → Forall well_printed children →
    well_printed (Dep text children).

(** The builders once every entry is recorded under its artifact. *)
Definition record_entry (module : str) (bs : gmap str DependencyExplanationBuilder)
    (e : ParsedDependencyLine * list str) : gmap str DependencyExplanationBuilder :=
  let key := identity (line_coordinate e.1) in
  <[key := record_path e.1 module e.2 (default empty_builder (bs !! key))]> bs.

Lemma dep_tree_ind' (Q : dep_tree → Prop) :
  (∀ text children, Forall Q children → Q (Dep text children)) → ∀ t, Q t.
Proof.
  intros Hdep. fix IH 1. intros [text children]. apply Hdep.
  induction children as [|c children IHc]; constructor; [apply IH|apply IHc].
Qed.

Lemma parse_entry_depth d e text : parse_entry d text = (λ p,
    {| line_depth := d; line_coordinate := line_coordinate p; line_status := line_status p;
       line_annotations := line_annotations p; line_requested_version := line_requested_version p |})
    <$> parse_entry e text.
Proof.
  unfold parse_entry. destruct (split_dependency_annotations text) as [c a].
  destruct (parse_dependency_coordinate _); done.
Qed.

Lemma row_no_at groups b text : ch "@" ∉ text → ch "@" ∉ tree_row groups b text.
Proof.
  intros Ht Hin. unfold tree_row in Hin.
  apply elem_of_app in Hin as [Hin|[Hin|Hin]%elem_of_app]; [by eapply indent_no in Hin| |done].
  assert (ch "@" ∉ marker b) as Hm by (destruct b; decide_now). done.
Qed.

(** What the parser does with a row that Maven prints. *)
Lemma resolution_row project s groups b text parsed :
  plain_entry text → parse_entry (N.of_nat (S (length groups))) text = Some parsed →
  resolution_line project s (printed_row groups b text) = enter_line parsed s.
Proof.
  intros Hp Hparse. unfold resolution_line. rewrite maven_log_message_row by done.
  unfold plugin_module_artifact.
  rewrite (split_once_str_char_none (ch "@")) by first [decide_now|apply row_no_at, Hp]. simpl.
  rewrite find_marker_row by done. unfold parse_dependency_line.
  assert (trim text = text) as -> by by apply trim_tight, Hp.
  rewrite indent_blen, N.mul_comm, N.div_mul by done.
  replace (N.of_nat (length groups) + 1) with (N.of_nat (S (length groups))) by lia.
  by rewrite Hparse.
Qed.

Section Rows_read.
Variable (project : MavenProject).

(** The state after the rows of a tree below [ancestors]. *)
Definition reads (s s' : Resolution) (ancestors : list str)
    (entries : list (ParsedDependencyLine * list str)) : Prop :=
  builders s' = foldl (record_entry (current_module s)) (builders s) entries ∧
  take (length ancestors) (path_stack s') = ancestors ∧
  current_module s' = current_module s ∧ malformed s' = malformed s.

Lemma reads_trans s1 s2 s3 ancestors l k :
  reads s1 s2 ancestors l → reads s2 s3 ancestors k → reads s1 s3 ancestors (l ++ k).
Proof.
  intros (Hb1 & Ht1 & Hm1 & Hf1) (Hb2 & Ht2 & Hm2 & Hf2).
  split_and!; [by rewrite foldl_app, Hb2, Hm1, Hb1|done|congruence|congruence].
Qed.

Definition tree_reads (t : dep_tree) : Prop :=
  ∀ groups b ancestors s,
    length ancestors = S (length groups) → take (length ancestors) (path_stack s) = ancestors →
    reads s (foldl (resolution_line project) s (tree_rows groups b t)) ancestors (tree_entries ancestors t).

Lemma forest_reads forest groups ancestors s :
  Forall tree_reads forest →
  length ancestors = S (length groups) → take (length ancestors) (path_stack s) = ancestors →
  reads s (foldl (resolution_line project) s (forest_rows groups forest)) ancestors
    (forest_entries ancestors forest).
Proof.
  intros Hf Hlen. revert s. induction Hf as [|t forest Ht _ IH]; intros s Hs.
  - by split_and!.
  - assert (∃ b, forest_rows groups (t :: forest) = tree_rows groups b t ++ forest_rows groups forest) as [b ->].
    { destruct forest; [exists true; by rewrite app_nil_r|by exists false]. }
    rewrite foldl_app. change (forest_entries ancestors (t :: forest))
      with (tree_entries ancestors t ++ forest_entries ancestors forest).
    eapply reads_trans; [by apply Ht|]. apply IH. by apply (Ht groups b ancestors s).
Qed.

Lemma well_printed_reads t : well_printed t → tree_reads t.
Proof.
  induction t as [text children IH] using dep_tree_ind'.
  intros Hw groups b ancestors s Hlen Hs. inversion Hw as [? ? Hp [p0 Hp0] Hch]; subst.
  assert (∃ p, parse_entry (N.of_nat (length ancestors)) text = Some p) as [p Hparse].
  { rewrite (parse_entry_depth _ 0), Hp0. by eexists. }
  assert (line_depth p = N.of_nat (length ancestors)) as Hd.
  { rewrite (parse_entry_depth _ 0), Hp0 in Hparse. by injection Hparse as <-. }
  cbn [tree_rows tree_entries foldl]. fold forest_rows. rewrite Hparse.
  rewrite (resolution_row _ _ _ _ _ p) by (done || by rewrite <- Hlen).
  set (path := ancestors ++ [parsed_coordinate (line_coordinate p)]).
  assert (path_stack (enter_line p s) = path) as Hstack.
  { unfold enter_line. cbn [path_stack]. by rewrite Hd, Nat2N.id, Hs. }
  destruct (forest_reads children (groups ++ [negb b]) path (enter_line p s)) as (Hb & Ht & Hm & Hf).
  - rewrite !Forall_forall in *. auto.
  - unfold path. rewrite !length_app. simpl. lia.
  - rewrite Hstack. by apply take_ge.
  - split_and!; [|..|done|done].
    + rewrite Hb. cbn [foldl]. f_equal. unfold enter_line, record_entry. cbn [builders fst snd].
      cbn [path_stack] in Hstack. f_equal. f_equal. by rewrite <- Hstack.
    + apply (f_equal (take (length ancestors))) in Ht. rewrite take_take in Ht.
      unfold path in Ht. rewrite length_app, take_app_length in Ht.
      by replace (length ancestors `min` (length ancestors + _))%nat with (length ancestors) in Ht by (simpl; lia).
Qed.
End Rows_read.


(** ** Witnesses and boundary cases *)

Definition sample_entry : str := lit "org.slf4j:slf4j-api:jar:1.7:compile".
Definition sample_child : str := lit "(junit:junit:jar:4.11:test - version managed from 4.10; omitted for duplicate)".
Definition sample_forest : list dep_tree :=
  [Dep sample_entry [Dep sample_child []]; Dep sample_entry []].
Definition sample_root : str := lit "com.example:app:jar:1.0".

Lemma sample_plain text :
  bool_decide (text ≠ []) && bool_decide (head text ≠ None) &&
  forallb (λ c, negb (is_whitespace c)) (option_list (head text) ++ option_list (last text)) &&
  bool_decide (ch "@" ∉ text) && negb (contains (lit "+- ") text) = true →
  plain_entry text.
Proof.
  rewrite !andb_true_iff, !bool_decide_eq_true, negb_true_iff, forallb_forall.
  intros ((((Hne & _) & Hws) & Hat) & Hm). split; [done| |done|done].
  split; intros c Hc; apply negb_true_iff, Hws, list_elem_of_In, elem_of_app; rewrite Hc; simpl; set_solver.
Qed.

Lemma sample_forest_printed : Forall well_printed sample_forest.
Proof.
  repeat constructor; try (apply sample_plain; vm_compute; reflexivity); vm_compute; by eexists.
Qed.


Lemma tree_line_depth_witness :
  plain_entry sample_entry ∧
  tree_line (printed_row [true; false] true sample_entry)
  = Some {| depth := 3; coordinate := lit "org.slf4j:slf4j-api:1.7"; scope := Some (lit "compile") |}.
Proof.
  assert (plain_entry sample_entry) as Hp by (apply sample_plain; vm_compute; reflexivity).
  split; [exact Hp|].
  apply (tree_line_depth [true; false] true sample_entry _ (lit "compile") Hp). vm_compute. reflexivity.
Defined.

(** The child of the last entry of a level loses its depth in the plain tree: Maven indents it
    by three blanks, which the parser trims away before it looks for the marker, so it is listed
    at depth 1, a direct dependency, while the verbose tree reads the same row at depth 2. *)
Theorem last_child_flattened :
  tree_line (printed_row [false] true sample_entry)
  = Some {| depth := 1; coordinate := lit "org.slf4j:slf4j-api:1.7"; scope := Some (lit "compile") |} ∧
  ∃ before after p,
    find_marker (maven_log_message (printed_row [false] true sample_entry)) = Some (before, after) ∧
    parse_dependency_line before after = Some p ∧ line_depth p = 2.
Proof.
  split; [vm_compute; reflexivity|]. do 3 eexists. split; [vm_compute; reflexivity|].
  split; vm_compute; reflexivity.
Qed.

(** An artifact is printed as its parts and its scope; the parser reads back its identity and its
    coordinate when no earlier part is spelled like a scope. *)
Lemma parse_printed_coordinate g a k cl v s :
  Forall (λ part, part ≠ [] ∧ is_dependency_scope part = false) ([g; a; k] ++ option_list cl ++ [v]) →
  is_dependency_scope s = true →
  parse_dependency_coordinate ([g; a; k] ++ option_list cl ++ [v; s])
  = Some {| identity := colons ([g; a; k] ++ option_list cl);
            parsed_coordinate := colons ([g; a; v] ++ option_list cl); version := v |}.
Proof.
  intros Hparts Hs. assert (s ≠ []) as Hne by by intros ->.
  unfold parse_dependency_coordinate, scope_position.
  destruct cl as [cl|]; simpl in Hparts |- *; rewrite !Forall_cons in Hparts;
    destruct_and! Hparts; rewrite !bool_decide_eq_false_2 by done;
    cbn [negb orb]; cbn [list_find];
    repeat (rewrite decide_False by (by intros ?; congruence)); rewrite decide_True by done; done.
Qed.

(** An artifact whose identifier is spelled like a scope, as [org.eclipse.core:runtime], is
    refused: the scope is looked for from the left, so the row counts as malformed and the whole
    answer as invalid. *)
Theorem scope_named_artifact project :
  parse_dependency_coordinate [lit "org.eclipse.core"; lit "runtime"; lit "jar"; lit "3.9"; lit "compile"] = None ∧
  malformed (resolution_line project resolution_start
    (printed_row [] true (lit "org.eclipse.core:runtime:jar:3.9:compile"))) = true.
Proof. split; vm_compute; reflexivity. Qed.
