(* ===== verification/MavenOutput.v ===== *)
(** * MavenOutput: what a Maven run printed and how it ended

    Models the end of a Maven child process in [src/project.rs]: the bounded readers of its pipes,
    the status of the run, the redaction of its output, the outcome of the build, the reactor
    summary and the classpath lines.  The process, the clock and the readers are outside: a pipe is
    the list of the chunks its reads give, an exit status the code of a finished process, and the
    duration an argument. *)

From S2P Require Import Prelude.
From S2P Require Import Text.
From S2P Require Import TextSearch.
From S2P Require Import Ordering.
From S2P Require Import Paths.
From S2P Require Import Redaction.

Open Scope N_scope.

(** ** Data *)

Inductive MavenRunStatus := RunSuccess | RunBuildFailure | RunTimeout | RunRunnerError.
#[export] Instance MavenRunStatus_eq_dec : EqDecision MavenRunStatus.
Proof. solve_decision. Defined.

Record MavenRunResult := {
  run_status : MavenRunStatus;
  exit_code : option Z;
  duration_ms : N;
  timed_out : bool;
  stdout : str;
  stderr : str;
  stdout_truncated : bool;
  stderr_truncated : bool;
  redaction_count : N;
}.

Inductive MavenBuildOutcome :=
| Success | CompilationError | TestFailure | BuildFailure | Timeout | RunnerError.
#[export] Instance MavenBuildOutcome_eq_dec : EqDecision MavenBuildOutcome.
Proof. solve_decision. Defined.

Record ReactorModuleResult := {
  reactor_module : str;
  reactor_status : str;
}.

Record MavenBuildResult := {
  outcome : MavenBuildOutcome;
  policy_notice : option str;
  compiler_diagnostics : list str;
  reactor_summary : list ReactorModuleResult;
  run : MavenRunResult;
}.

(** Why a run ended before or instead of a Maven exit status. *)
Inductive RunFailure := Permit | Executable | JavaSelection | Spawn | Wait | OutputRead.

(** ** Bounded output *)

(** The first [limit] bytes of a pipe, its last [limit] bytes, and whether it held more. *)
Record BoundedOutput := {
  bytes : list N;
  output_tail : list N;
  truncated : bool;
}.
Definition empty_output : BoundedOutput := {| bytes := []; output_tail := []; truncated := false |}.

Definition into_bytes (prefer_tail : bool) (o : BoundedOutput) : list N :=
  if prefer_tail && truncated o then output_tail o else bytes o.

(** One read of [buffer]; [drain(..excess)] panics past the end of the deque. *)
Definition read_chunk (limit : nat) (o : BoundedOutput) (buffer : list N) : exec BoundedOutput :=
  let read := length buffer in
  tail ←
    (if decide (limit ≤ read)%nat then Done (drop (read - limit) buffer)
     else
       let excess := (length (output_tail o) + read - limit)%nat in
       if decide (excess ≤ length (output_tail o))%nat
       then Done (drop excess (output_tail o) ++ buffer) else Panic);
  let remaining := (limit - length (bytes o))%nat in
  Done {| bytes := bytes o ++ take (read `min` remaining)%nat buffer;
          output_tail := tail;
          truncated := truncated o || bool_decide (remaining < read)%nat |}.

(** The read loop over the results of the reads up to the end of the pipe; a read error ends it.
    No pipe is an empty one. *)
Fixpoint read_loop (limit : nat) (o : BoundedOutput) (reads : list (list N + str)) : exec (BoundedOutput + str) :=
  match reads with
  | [] => Done (inl o)
  | inr error :: _ => Done (inr error)
  | inl [] :: _ => Done (inl o)
  | inl buffer :: reads => o ← read_chunk limit o buffer; read_loop limit o reads
  end.
Definition read_bounded (reader : option (list (list N + str))) (limit : nat) : exec (BoundedOutput + str) :=
  match reader with
  | None => Done (inl empty_output)
  | Some reads => read_loop limit empty_output reads
  end.

(** ** Redaction of the output *)

(** [replace_all]; the pattern is a nonempty path. *)
Definition replace_all (output value replacement : str) : str * N :=
  match value with
  | [] => (output, 0)
  | _ =>
      let count := count_matches value output in
      if 0 <? count then (replace value replacement output, count) else (output, count)
  end.

(** [Path::to_string_lossy] of an absolute path. *)
Definition display (p : path) : str := lit "/" ++ join (lit "/") p.

Section Runner.
Context `{Patterns, Unicode}.
Variables (execution_repository : option path) (root : path) (home : option str).

Definition redact_text (text : str) : exec (str * N) :=
  '(output, count) ← redact_sensitive_values text;
  let (output, count) :=
    match execution_repository with
    | Some repository =>
        let (o, n) := replace_all output (display repository) (lit "<MAVEN_REPOSITORY>") in (o, count + n)
    | None => (output, count)
    end in
  let (output, count) :=
    let (o, n) := replace_all output (display root) (lit "<PROJECT_ROOT>") in (o, count + n) in
  Done match home with
       | Some home => let (o, n) := replace_all output home (lit "<HOME>") in (o, count + n)
       | None => (output, count)
       end.

Definition redacted (text : str) : exec str := fst <$> redact_text text.

Definition runner_error (elapsed : N) (message : str) : exec MavenRunResult :=
  '(stderr, redaction_count) ← redact_text message;
  Done {| run_status := RunRunnerError; exit_code := None; duration_ms := elapsed; timed_out := false;
          stdout := []; stderr := stderr; stdout_truncated := false; stderr_truncated := false;
          redaction_count := redaction_count |}.

(** ** The end of the child process *)

Record ExitStatus := {
  success : bool;
  code : option Z;
}.

(** What the waits ended with: the exit of the process or the error of waiting for it, [None]
    when neither was seen. *)
Definition run_status_of (wait_result : option (ExitStatus + str)) (timed_out : bool)
    : (MavenRunStatus * option Z) + (RunFailure * str) :=
  match wait_result with
  | Some (inl status) =>
      if timed_out then inl (RunTimeout, None)
      else if success status then inl (RunSuccess, code status)
      else inl (RunBuildFailure, code status)
  | Some (inr error) => inr (Wait, lit "cannot wait for Maven: " ++ error)
  | None => inr (Wait, lit "missing Maven exit status")
  end.

(** [String::from_utf8_lossy]. *)
Variable from_utf8_lossy : list N → str.

(** The end of [run_child] once the process was waited for and its pipes read. *)
Definition finish_child (elapsed : N) (wait_result : option (ExitStatus + str)) (timed_out : bool)
    (out err : BoundedOutput + str) : exec ((MavenRunResult * str) + (RunFailure * str)) :=
  match run_status_of wait_result timed_out with
  | inr failure => Done (inr failure)
  | inl (status, exit_code) =>
      match out, err with
      | inr error, _ | _, inr error => Done (inr (OutputRead, lit "cannot read Maven output: " ++ error))
      | inl out, inl err =>
          let failed := negb (bool_decide (status = RunSuccess)) in
          let raw_stdout := from_utf8_lossy (bytes out) in
          '(stdout_text, stdout_redactions) ← redact_text (from_utf8_lossy (into_bytes failed out));
          '(stderr_text, stderr_redactions) ← redact_text (from_utf8_lossy (into_bytes failed err));
          Done (inl ({| run_status := status; exit_code := exit_code; duration_ms := elapsed;
                        timed_out := timed_out; stdout := stdout_text; stderr := stderr_text;
                        stdout_truncated := truncated out; stderr_truncated := truncated err;
                        redaction_count := stdout_redactions + stderr_redactions |}, raw_stdout))
      end
  end.

(** [execute_permitted]: a failure of the run becomes the result of a runner error. *)
Definition executed (elapsed : N) (ran : (MavenRunResult * str) + (RunFailure * str))
    : exec (MavenRunResult * str) :=
  match ran with
  | inl result => Done result
  | inr (_, message) => r ← runner_error elapsed message; Done (r, [])
  end.

(** ** The outcome of a build *)

Definition offline_resolution_policy_notice (status : MavenRunStatus) (lowercase_output : str)
    : option str :=
  if bool_decide (status = RunBuildFailure)
     && contains (lit "cannot access") lowercase_output
     && contains (lit "in offline mode") lowercase_output
  then Some (lit "Maven could not resolve a remote artifact because maven-mcp is running Maven offline. This can be an intentional security policy or missing MCP server configuration and is not necessarily a project error. If remote resolution is intended for this trusted project, set MAVEN_EXECUTION_NETWORK=true in the MCP server environment and restart the server.")
  else None.

Definition STATUSES : list str := [lit "SUCCESS"; lit "FAILURE"; lit "SKIPPED"].

(** [find_map] over the three statuses: the text before the first that occurs, and its name. *)
Fixpoint find_status (statuses : list str) (line : str) : option (str * str) :=
  match statuses with
  | [] => None
  | status :: statuses =>
      match split_once_str status line with
      | Some (before, _) => Some (before, status)
      | None => find_status statuses line
      end
  end.

Definition summary_entry (line : str) : option ReactorModuleResult :=
  '(before, status) ← find_status STATUSES line;
  let module := trim (trim_end_matches (N.eqb (ch ".")) (trim before)) in
  if decide (module = []) then None
  else Some {| reactor_module := module; reactor_status := to_lowercase status |}.

(** The lines after the heading, up to the first that begins with [BUILD]. *)
Fixpoint summary_lines (l : list str) : list ReactorModuleResult :=
  match l with
  | [] => []
  | line :: l =>
      if contains (lit "Reactor Summary") line then summary_lines l
      else
        let line := trim (trim_start_str (lit "[INFO]") (trim line)) in
        if starts_with (lit "BUILD ") line then []
        else option_list (summary_entry line) ++ summary_lines l
  end.
Fixpoint reactor_lines (l : list str) : list ReactorModuleResult :=
  match l with
  | [] => []
  | line :: l => if contains (lit "Reactor Summary") line then summary_lines l else reactor_lines l
  end.
Definition parse_reactor_summary (output : str) : list ReactorModuleResult := reactor_lines (lines output).

Definition is_compiler_diagnostic (line : str) : bool :=
  contains (lit "[ERROR]") line
  && (contains (lit ".java:[") line || contains (lit ".kt:[") line
      || contains (lit "compilation") (to_lowercase line)).

Definition build_outcome (status : MavenRunStatus) (lowercase : str) : MavenBuildOutcome :=
  match status with
  | RunSuccess => Success
  | RunTimeout => Timeout
  | RunRunnerError => RunnerError
  | RunBuildFailure =>
      if contains (lit "compilation error") lowercase || contains (lit "compilation failure") lowercase
      then CompilationError
      else if contains (lit "there are test failures") lowercase || contains (lit "failures: 1") lowercase
              || contains (lit "errors: 1") lowercase
      then TestFailure
      else BuildFailure
  end.

Definition from_run (r : MavenRunResult) : MavenBuildResult :=
  let combined := stdout r ++ [10] ++ stderr r in
  let lowercase := to_lowercase combined in
  {| outcome := build_outcome (run_status r) lowercase;
     policy_notice := offline_resolution_policy_notice (run_status r) lowercase;
     compiler_diagnostics := trim <$> filter (λ line, is_compiler_diagnostic line = true) (lines combined);
     reactor_summary := parse_reactor_summary combined;
     run := r |}.
End Runner.

(** ** Classpaths *)

(** The lines that follow the marker, and whether one is missing. *)
Fixpoint classpath_scan (l : list str) : list str * bool * bool :=
  match l with
  | [] => ([], false, false)
  | line :: l =>
      if contains (lit "Dependencies classpath:") line then
        match l with
        | [] => ([], true, true)
        | classpath :: l =>
            let '(classpaths, found, incomplete) := classpath_scan l in
            (trim classpath :: classpaths, true, incomplete)
        end
      else classpath_scan l
  end.
Definition classpath_lines (output : str) : list str * bool :=
  let '(classpaths, found_marker, incomplete) := classpath_scan (lines output) in
  (classpaths, incomplete || negb found_marker).

Definition coordinate_from_repository_path (p : str) : option str :=
  let normalized := replace_char (ch "\") (ch "/") p in
  relative ←
    match strip_prefix (lit "<MAVEN_REPOSITORY>/") normalized with
    | Some relative => Some relative
    | None => snd <$> rsplit_once_str (lit "/repository/") normalized
    end;
  let parts := split_char (ch "/") relative in
  if (length parts <? 4)%nat then None
  else
    let part i := default [] (parts !! (length parts - i)%nat) in
    file_name ← last parts ≫= strip_suffix (lit ".jar");
    let version := part 2%nat in
    let artifact := part 3%nat in
    let group := join (lit ".") (take (length parts - 3) parts) in
    suffix ← strip_prefix (artifact ++ lit "-" ++ version) file_name;
    let classifier :=
      match strip_prefix (lit "-") suffix with Some [] => None | c => c end in
    Some (join (lit ":") ([group; artifact; version] ++ option_list classifier)).

Definition classpath_items (classpaths : list str) : list str :=
  filter (λ item, item ≠ []) (mjoin (split_char (ch ":") <$> classpaths)).

Definition parse_classpath (output : str) : list str * bool :=
  let (classpaths, incomplete) := classpath_lines output in
  let items := classpath_items classpaths in
  (dedup (sort (omap coordinate_from_repository_path items)),
   incomplete || existsb (λ item, negb (is_some (coordinate_from_repository_path item))) items).

(** [PathBuf::from] and its order: the components of the text. *)
Definition is_absolute (item : str) : bool := starts_with (lit "/") item.
Definition components (item : str) : path :=
  filter (λ c, c ≠ [] ∧ c ≠ lit ".") (split_char (ch "/") item).

Definition parse_classpath_paths (output : str) : list path * bool :=
  let (classpaths, incomplete) := classpath_lines output in
  let items := classpath_items classpaths in
  (dedup (sort (components <$> filter (λ item, is_absolute item = true) items)),
   incomplete || existsb (λ item, negb (is_absolute item)) items).

(** ** Bounded output: the head and the tail of the pipe *)

(** The bytes of the reads, up to the end of the pipe. *)
Fixpoint stream (reads : list (list N + str)) : list N :=
  match reads with
  | inl (b :: bs) :: reads => (b :: bs) ++ stream reads
  | _ => []
  end.

(** Whether no read failed before the end of the pipe. *)
Fixpoint no_error (reads : list (list N + str)) : bool :=
  match reads with
  | [] => true
  | inr _ :: _ => false
  | inl [] :: _ => true
  | inl _ :: reads => no_error reads
  end.

(** What a reader holds after the bytes [seen]. *)
Definition holds_bytes (limit : nat) (seen : list N) (o : BoundedOutput) : Prop :=
  bytes o = take limit seen ∧ output_tail o = drop (length seen - limit) seen ∧
  truncated o = bool_decide (limit < length seen)%nat.

Lemma read_chunk_holds limit seen o buffer :
  holds_bytes limit seen o → wp (read_chunk limit o buffer) (holds_bytes limit (seen ++ buffer)).
Proof.
  intros (Hb & Ht & Htr). unfold read_chunk.
  assert (length (output_tail o) = (length seen - (length seen - limit))%nat) as Htl
    by by rewrite Ht, length_drop.
  eapply (wp_call _ _ (λ t, t = drop (length (seen ++ buffer) - limit) (seen ++ buffer))).
  - rewrite length_app, drop_app. destruct (decide (limit ≤ length buffer)%nat) as [Hl|Hl].
    + cbn [wp]. rewrite (drop_ge seen) by lia. simpl. f_equal. lia.
    + rewrite decide_True by lia. cbn [wp]. rewrite Htl, Ht, drop_drop.
      f_equal; [f_equal; lia|]. replace (length seen + length buffer - limit - length seen)%nat with 0%nat by lia.
      done.
  - intros t ->. cbn [wp]. split_and!; simpl; [|done|].
    + rewrite Hb, take_app, length_take. f_equal.
      destruct (decide (length buffer ≤ limit - length seen)%nat).
      * rewrite !take_ge; [done|lia|lia].
      * f_equal. lia.
    + rewrite Htr, Hb, length_take, length_app. apply eq_bool_prop_intro.
      rewrite orb_True, !bool_decide_spec. lia.
Qed.

Lemma read_loop_holds limit seen o reads :
  holds_bytes limit seen o →
  wp (read_loop limit o reads) (λ r, match r with
    | inl o' => no_error reads = true ∧ holds_bytes limit (seen ++ stream reads) o'
    | inr _ => no_error reads = false
    end).
Proof.
  revert seen o. induction reads as [|[[|b buffer]|error] reads IH]; intros seen o Ho; cbn [read_loop stream no_error].
  - by rewrite app_nil_r.
  - by rewrite app_nil_r.
  - eapply wp_call; [by apply read_chunk_holds|]. intros o' Ho'. rewrite app_assoc. by apply IH.
  - done.
Qed.

(** The bounded reader keeps exactly the two ends of a pipe: whatever chunks its reads return,
    it never panics, it fails exactly when a read fails, and otherwise it holds the first [limit]
    bytes, the last [limit] bytes, and is marked truncated exactly when the pipe held more. *)
Theorem bounded_output_exact limit reads :
  wp (read_bounded (Some reads) limit) (λ r, match r with
    | inl o => no_error reads = true ∧ bytes o = take limit (stream reads) ∧
        output_tail o = drop (length (stream reads) - limit) (stream reads) ∧
        (truncated o = true ↔ limit < length (stream reads))%nat
    | inr _ => no_error reads = false
    end).
Proof.
  eapply wp_mono; [apply (read_loop_holds limit [] empty_output)|].
  - split_and!; [by rewrite take_nil|done|]. by rewrite bool_decide_eq_false_2 by (simpl; lia).
  - intros [o|e]; [|done]. intros (Hn & Hb & Ht & Htr). split_and!; [done..|].
    rewrite Htr. apply bool_decide_eq_true.
Qed.

(** ** Redaction is total, so every run has a result *)

Section Total.
Context `{PatternLaws, Unicode}.
Variables (execution_repository : option path) (root : path) (home : option str).

Lemma redact_text_total text : total (redact_text execution_repository root home text).
Proof.
  unfold redact_text. eapply wp_call; [apply redact_values_total|]. intros [output count] _.
  destruct execution_repository; repeat case_match; done.
Qed.
End Total.

(** ** Repository paths *)

Definition slash_free (s : str) : Prop := s ≠ [] ∧ Forall (λ c, (ch "/" =? c) = false ∧ c ≠ ch "\") s.

(** The path of an artifact below a Maven repository. *)
Definition repository_path (group : list str) (artifact version : str) (classifier : option str) : str :=
  join (lit "/") (group ++ [artifact; version;
    artifact ++ lit "-" ++ version ++ match classifier with Some c => lit "-" ++ c | None => [] end ++ lit ".jar"]).

Lemma split_char_join sep l :
  l ≠ [] → Forall (λ s, Forall (λ c, (sep =? c) = false) s) l → split_char sep (join [sep] l) = l.
Proof.
  intros Hne Hl. induction Hl as [|s l Hs Hl IH]; [done|].
  destruct l as [|s2 l]; [by apply split_at_last|].
  change (join [sep] (s :: s2 :: l)) with (s ++ sep :: join [sep] (s2 :: l)).
  unfold split_char in *. rewrite split_at_piece; [by rewrite IH|done|apply N.eqb_refl].
Qed.

Lemma replace_char_none c r s : c ∉ s → replace_char c r s = s.
Proof.
  intros Hc. unfold replace_char. rewrite <- (list_fmap_id s) at 2. apply list_fmap_ext.
  intros i x Hx%list_elem_of_lookup_2. simpl. by destruct (N.eqb_spec x c) as [->|].
Qed.

Lemma elem_of_join c sep l : c ∈ join sep l → c ∈ sep ∨ ∃ s, s ∈ l ∧ c ∈ s.
Proof.
  induction l as [|s l IH]; [by intros ?%elem_of_nil|]. destruct l as [|s2 l].
  - simpl. intros Hc. right. exists s. set_solver.
  - change (join sep (s :: s2 :: l)) with (s ++ sep ++ join sep (s2 :: l)).
    intros [Hc|[Hc|Hc]%elem_of_app]%elem_of_app; [right; exists s; set_solver|by left|].
    apply IH in Hc as [|(s' & ? & ?)]; [by left|right; exists s'; set_solver].
Qed.

(** A classpath entry below the repository is named by its coordinate: for an artifact with any
    group, version and classifier of ordinary path names, the path Maven stores it at reads back
    as [group:artifact:version], with the classifier last when there is one. *)
Theorem repository_path_round_trip group artifact version classifier :
  group ≠ [] → Forall slash_free (group ++ [artifact; version] ++ option_list classifier) →
  coordinate_from_repository_path
    (lit "<MAVEN_REPOSITORY>/" ++ repository_path group artifact version classifier)
  = Some (join (lit ":") ([join (lit ".") group; artifact; version] ++ option_list classifier)).
Proof.
  intros Hg Hparts. apply Forall_app in Hparts as [Hgroup Hrest].
  apply Forall_app in Hrest as [Hav Hcl]. rewrite !Forall_cons in Hav. destruct Hav as (Ha & Hv & _).
  set (name := artifact ++ lit "-" ++ version ++ match classifier with Some c => lit "-" ++ c | None => [] end ++ lit ".jar").
  set (parts := group ++ [artifact; version; name]).
  assert (Forall (Forall (λ c, (ch "/" =? c) = false ∧ c ≠ ch "\")) parts) as Hchars.
  { unfold parts, name. apply Forall_app. split; [eapply Forall_impl; [exact Hgroup|]; by intros ? []|].
    destruct Ha as [_ Ha], Hv as [_ Hv]. repeat (constructor; [done|]). constructor; [|constructor].
    assert (∀ s, bool_decide (Forall (λ c, (ch "/" =? c) = false ∧ c ≠ ch "\") s) = true →
      Forall (λ c, (ch "/" =? c) = false ∧ c ≠ ch "\") s) as Hlit by by intros s Hs%bool_decide_eq_true.
    repeat (apply Forall_app; split); try done; try (apply Hlit; vm_compute; reflexivity).
    destruct classifier as [c|]; [|constructor]. simpl in Hcl.
    apply Forall_cons in Hcl as [[_ Hc] _]. apply Forall_app. split; [apply Hlit; vm_compute; reflexivity|done]. }
  unfold coordinate_from_repository_path.
  rewrite replace_char_none.
  2: { intros [Hin|Hin]%elem_of_app; [revert Hin; decide_now|].
       apply elem_of_join in Hin as [Hin|(s & Hs & Hin)]; [revert Hin; decide_now|].
       rewrite Forall_forall in Hchars. specialize (Hchars s Hs). rewrite Forall_forall in Hchars.
       by destruct (Hchars _ Hin). }
  rewrite strip_prefix_app. cbn [mbind option_bind].
  assert (split_char (ch "/") (repository_path group artifact version classifier) = parts) as ->.
  { unfold repository_path. change (lit "/") with [ch "/"]. apply split_char_join; [by destruct group|].
    eapply Forall_impl; [exact Hchars|]. intros s Hs. eapply Forall_impl; [exact Hs|]. by intros ? []. }
  assert (length parts = length group + 3)%nat as Hlen by (unfold parts; rewrite length_app; done).
  assert (0 < length group)%nat as Hpos by (destruct group; [done|simpl; lia]).
  destruct (Nat.ltb_spec (length parts) 4) as [|_]; [lia|].
  assert (∀ i x, [artifact; version; name] !! i = Some x → parts !! (length group + i)%nat = Some x) as Hpart.
  { intros i x Hi. unfold parts. rewrite lookup_app_r by lia. by replace (length group + i - length group)%nat with i by lia. }
  assert (last parts = Some name) as -> by (unfold parts; by rewrite last_app).
  assert (parts !! (length parts - 2)%nat = Some version) as ->.
  { rewrite Hlen. replace (length group + 3 - 2)%nat with (length group + 1)%nat by lia. by apply Hpart. }
  assert (parts !! (length parts - 3)%nat = Some artifact) as ->.
  { rewrite Hlen. replace (length group + 3 - 3)%nat with (length group + 0)%nat by lia. by apply Hpart. }
  assert (take (length parts - 3) parts = group) as ->.
  { rewrite Hlen. unfold parts. replace (length group + 3 - 3)%nat with (length group) by lia. apply take_app_length. }
  assert (strip_suffix (lit ".jar") name = Some (artifact ++ lit "-" ++ version ++
    match classifier with Some c => lit "-" ++ c | None => [] end)) as Hname.
  { unfold name. rewrite !app_assoc. apply strip_suffix_app. }
  cbn [mbind option_bind default from_option]. rewrite Hname. cbn [mbind option_bind].
  rewrite !app_assoc, strip_prefix_app. cbn [mbind option_bind].
  destruct classifier as [c|]; [|done]. rewrite strip_prefix_app.
  apply Forall_cons in Hcl as [[Hc _] _]. by destruct c.
Qed.

Lemma repository_path_round_trip_witness :
  Forall slash_free ([lit "org"; lit "slf4j"] ++ [lit "slf4j-api"; lit "1.7"] ++ option_list (Some (lit "sources"))) ∧
  coordinate_from_repository_path
    (lit "<MAVEN_REPOSITORY>/" ++ repository_path [lit "org"; lit "slf4j"] (lit "slf4j-api") (lit "1.7") (Some (lit "sources")))
  = Some (lit "org.slf4j:slf4j-api:1.7:sources").
Proof.
  assert (Forall slash_free ([lit "org"; lit "slf4j"] ++ [lit "slf4j-api"; lit "1.7"] ++ option_list (Some (lit "sources")))) as H
    by (unfold slash_free; decide_now).
  split; [exact H|].
  apply (repository_path_round_trip [lit "org"; lit "slf4j"] (lit "slf4j-api") (lit "1.7") (Some (lit "sources"))); [discriminate|exact H].
Defined.

(** The classpath of a build is the set of its entries: the artifacts are strictly increasing,
    each is the coordinate of an entry and every readable entry is there, and the answer is marked
    incomplete exactly when no classpath line follows a marker or some entry has no coordinate. *)
Theorem classpath_exact output :
  let (artifacts, incomplete) := parse_classpath output in
  let items := classpath_items (classpath_lines output).1 in
  StronglySorted lt_cmp artifacts ∧
  (∀ a, a ∈ artifacts ↔ ∃ item, item ∈ items ∧ coordinate_from_repository_path item = Some a) ∧
  (incomplete = false ↔ (classpath_lines output).2 = false ∧
     ∀ item, item ∈ items → is_Some (coordinate_from_repository_path item)).
Proof.
  unfold parse_classpath. destruct (classpath_lines output) as [classpaths incomplete]. simpl.
  set (items := classpath_items classpaths).
  destruct (sort_dedup_spec (omap coordinate_from_repository_path items)) as [Hs Hin].
  split; [done|]. split.
  - intros a. rewrite Hin. apply list_elem_of_omap.
  - rewrite orb_false_iff. apply and_iff_compat_l. clear Hs Hin. induction items as [|i items IH]; simpl.
    + split; [|done]. intros _ item Hi. by apply elem_of_nil in Hi.
    + rewrite orb_false_iff, negb_false_iff, is_some_true, IH. setoid_rewrite elem_of_cons. naive_solver.
Qed.
