(* ===== verification/TestReports.v ===== *)
(** * TestReports: focused tests and their Surefire reports

    Models the test runs of [src/project.rs]: which reports a run of Maven wrote, what they say,
    the result of a focused test and the failures of the last one, and the test classes of a
    project.  The file system before and after a run is a [ReportTree]; the deserializer of
    reports is a class, the redaction of texts an argument. *)

From S2P Require Import Prelude.
From S2P Require Import Text.
From S2P Require Import TextSearch.
From S2P Require Import Paths.
From S2P Require Import Ordering.
From S2P Require Import Config.
From S2P Require Import MavenOutput.

Open Scope N_scope.

(** ** Data *)

Record TestSummary := {
  passed : N;
  failed : N;
  errored : N;
  skipped : N;
}.
Inductive TestFailureKind := FailureKind | ErrorKind.
Record TestFailureDetail := {
  class_name : str;
  test_name : str;
  kind : TestFailureKind;
  failure_message : str;
}.
Inductive TestReportStatus := Available | MissingReport | InvalidReport.
Record FocusedTestResult := {
  report_status : TestReportStatus;
  summary : option TestSummary;
  failures : list TestFailureDetail;
  report_error : option str;
  test_build : MavenBuildResult;
}.
Record LastTestFailures := {
  available : bool;
  last_summary : option TestSummary;
  last_failures : list TestFailureDetail;
}.

(** ** Files *)

(** The walk below the project root, entry by entry, [None] being one that cannot be read; and
    what the file system says of a path. *)
Record ReportTree := {
  tree_walk : list (option (path * bool));
  tree_canonical : path → option path;
  tree_modified : path → option N;
}.

Inductive ReportError :=
| WalkFailed
| CanonicalizeFailed
| ReportEscaped
| TooManyReports
| ReadFailed (e : XmlReadError)
| InvalidXml (file_name : str).

Definition is_report (p : path) : bool :=
  let name := default [] (file_name p) in
  starts_with (lit "TEST-") name && ends_with (lit ".xml") name
  && bool_decide (last (take (length p - 1) p) = Some (lit "surefire-reports")).

Fixpoint discover (root : path) (t : ReportTree) (l : list (option (path * bool))) (found : list path) : list path + ReportError :=
  match l with
  | [] => inl found
  | None :: _ => inr WalkFailed
  | Some (p, is_file) :: l =>
      if negb is_file || negb (is_report p) then discover root t l found
      else
        match tree_canonical t p with
        | None => inr CanonicalizeFailed
        | Some canonical =>
            if negb (path_starts_with root canonical) then inr ReportEscaped
            else if MAX_XML_FILES <=? N.of_nat (length found) then inr TooManyReports
            else discover root t l (found ++ [canonical])
        end
  end.
Definition discover_report_files (root : path) (t : ReportTree) : list path + ReportError :=
  match discover root t (tree_walk t) [] with inl found => inl (sort found) | inr e => inr e end.

(** The times of the reports before a run; those that cannot be found count as none. *)
Definition report_snapshot (root : path) (t : ReportTree) : gmap (list (list N)) N :=
  let found := match discover_report_files root t with inl found => found | inr _ => [] end in
  list_to_map (omap (λ p, (λ time, (p, time)) <$> tree_modified t p) found).

Definition is_updated (t : ReportTree) (before : gmap (list (list N)) N) (p : path) : bool :=
  match before !! p with
  | None => true
  | Some previous => match tree_modified t p with Some current => previous <? current | None => false end
  end.
Definition updated_reports (root : path) (t : ReportTree) (before : gmap (list (list N)) N) : list path + ReportError :=
  match discover_report_files root t with inl found => inl (filter (λ p, is_updated t before p = true) found) | inr e => inr e end.

(** ** Reports *)

Record TestProblem := {
  problem_message : option str;
  problem_text : option str;
}.
Record TestCase := {
  case_class : str;
  case_name : str;
  case_failure : option TestProblem;
  case_error : option TestProblem;
}.
Record TestSuite := {
  suite_tests : N;
  suite_failures : N;
  suite_errors : N;
  suite_skipped : N;
  test_cases : list TestCase;
}.
(** [quick_xml::de::from_str]. *)
Class SurefireXml := parse_suite : str → option TestSuite.

Definition MAX_MESSAGE_CHARS : nat := 2000.

Section Parse.
Context `{XmlFiles, SurefireXml} (limits : ResourceLimits) (redact : str → exec str).

Definition test_failure_detail (class test : str) (k : TestFailureKind) (problem : TestProblem) : exec TestFailureDetail :=
  let message := default (default (lit "test failed without a message") (problem_text problem)) (problem_message problem) in
  class ← redact class;
  test ← redact test;
  message ← redact message;
  mret {| class_name := class; test_name := test; kind := k; failure_message := take MAX_MESSAGE_CHARS message |}.

(** A failure, or else an error. *)
Definition case_problem (c : TestCase) : option (TestFailureKind * TestProblem) :=
  match case_failure c, case_error c with
  | Some problem, _ => Some (FailureKind, problem)
  | None, Some problem => Some (ErrorKind, problem)
  | None, None => None
  end.
Fixpoint add_cases (l : list TestCase) (found : list TestFailureDetail) : exec (list TestFailureDetail) :=
  match l with
  | [] => mret found
  | c :: l =>
      match case_problem c with
      | None => add_cases l found
      | Some (k, problem) =>
          d ← test_failure_detail (case_class c) (case_name c) k problem;
          add_cases l (found ++ [d])
      end
  end.

(** [+=] on the counts. *)
Definition add_suite (s : TestSummary) (suite : TestSuite) : exec TestSummary :=
  f ← or_panic (checked_add (failed s) (suite_failures suite));
  e ← or_panic (checked_add (errored s) (suite_errors suite));
  k ← or_panic (checked_add (skipped s) (suite_skipped suite));
  other ← or_panic (checked_add (suite_failures suite) (suite_errors suite));
  other ← or_panic (checked_add other (suite_skipped suite));
  p ← or_panic (checked_add (passed s) (saturating_sub (suite_tests suite) other));
  mret {| passed := p; failed := f; errored := e; skipped := k |}.

Fixpoint add_reports (l : list path) (b : XmlBudget) (s : TestSummary) (found : list TestFailureDetail)
    : exec ((TestSummary * list TestFailureDetail) + ReportError) :=
  match l with
  | [] => mret (inl (s, found))
  | p :: l =>
      r ← read limits b p;
      match r with
      | inr e => mret (inr (ReadFailed e))
      | inl (xml, b) =>
          match parse_suite xml with
          | None => mret (inr (InvalidXml (default (lit "<unknown>") (file_name p))))
          | Some suite =>
              s ← add_suite s suite;
              found ← add_cases (test_cases suite) found;
              add_reports l b s found
          end
      end
  end.

Definition no_tests : TestSummary := {| passed := 0; failed := 0; errored := 0; skipped := 0 |}.
Definition failure_key (d : TestFailureDetail) : str * str := (class_name d, test_name d).
Definition parse_test_reports (l : list path) : exec ((TestSummary * list TestFailureDetail) + ReportError) :=
  r ← add_reports l empty_budget no_tests [];
  mret match r with inl (s, found) => inl (s, sort_by_key failure_key found) | inr e => inr e end.

(** ** A focused test *)

Definition no_report (status : TestReportStatus) (error : option str) (build : MavenBuildResult) : FocusedTestResult :=
  {| report_status := status; summary := None; failures := []; report_error := error; test_build := build |}.

Definition with_outcome (o : MavenBuildOutcome) (b : MavenBuildResult) : MavenBuildResult :=
  {| outcome := o; policy_notice := policy_notice b; compiler_diagnostics := compiler_diagnostics b;
     reactor_summary := reactor_summary b; run := run b |}.

(** What an error says, which the reader and the deserializer decide. *)
Context (error_text : ReportError → str).

Definition report_result (reports : list path + ReportError) (build : MavenBuildResult) : exec FocusedTestResult :=
  let invalid e := (message ← redact (error_text e); mret (no_report InvalidReport (Some message) build)) in
  match reports with
  | inr e => invalid e
  | inl [] => mret (no_report MissingReport None build)
  | inl l =>
      r ← parse_test_reports l;
      match r with
      | inl (s, found) =>
          mret {| report_status := Available; summary := Some s; failures := found; report_error := None; test_build := build |}
      | inr e => invalid e
      end
  end.

(** Failed tests make the outcome a test failure. *)
Definition judged (r : FocusedTestResult) : exec FocusedTestResult :=
  match summary r with
  | None => mret r
  | Some s =>
      bad ← or_panic (checked_add (failed s) (errored s));
      mret (if 0 <? bad then
              {| report_status := report_status r; summary := summary r; failures := failures r; report_error := report_error r;
                 test_build := with_outcome TestFailure (test_build r) |}
            else r)
  end.

(** Why Maven is not started: invalid arguments or a closed permit, with the result of that. *)
Definition not_started (build : MavenBuildResult) : FocusedTestResult := no_report MissingReport None build.

(** [run_focused_test] with the last result it is kept in; [started] is the build of a run that
    was not started, or the trees around a run and its build. *)
Definition run_focused_test (root : path) (started : MavenBuildResult + (ReportTree * MavenBuildResult * ReportTree))
    (last_result : option FocusedTestResult) : exec (FocusedTestResult * option FocusedTestResult) :=
  match started with
  | inl build => mret (not_started build, last_result)
  | inr (before, build, after) =>
      r ← report_result (updated_reports root after (report_snapshot root before)) build;
      r ← judged r;
      mret (r, Some r)
  end.
End Parse.

Definition last_test_failures (last_result : option FocusedTestResult) : LastTestFailures :=
  match last_result with
  | None => {| available := false; last_summary := None; last_failures := [] |}
  | Some r => {| available := true; last_summary := summary r; last_failures := failures r |}
  end.

(** ** Test classes *)

Fixpoint test_source_relative (p : path) : option path :=
  match p with
  | a :: (b :: c :: rest) as tail =>
      if bool_decide (a = lit "src") && bool_decide (b = lit "test") && (bool_decide (c = lit "java") || bool_decide (c = lit "kotlin"))
      then Some rest else test_source_relative tail
  | _ => None
  end.

Definition with_last (f : str → str) (p : path) : path :=
  match last p with None => [] | Some name => take (length p - 1) p ++ [f name] end.
Definition test_class_name (relative : path) : str :=
  let name := join (lit "/") (with_last (λ name, (split_extension name).1) relative) in
  trim_matches (λ c, c =? ch ".") (replace_char (ch "\") (ch ".") (replace_char (ch "/") (ch ".") name)).
Definition is_test_source (p : path) : bool :=
  match last p with
  | None => false
  | Some name => existsb (λ e, bool_decide ((split_extension name).2 = Some (lit e))) ["java"; "kt"]%string
  end.
Inductive TestClassError := SourcesUnreadable | SourceMissing | SourceEscaped.
Fixpoint collect_test_classes (root : path) (t : ReportTree) (l : list (option (path * bool))) (classes : list str)
    : list str + TestClassError :=
  match l with
  | [] => inl classes
  | None :: _ => inr SourcesUnreadable
  | Some (p, is_file) :: l =>
      if negb is_file || negb (is_test_source p) then collect_test_classes root t l classes
      else
        match test_source_relative p with
        | None => collect_test_classes root t l classes
        | Some relative =>
            match tree_canonical t p with
            | None => inr SourceMissing
            | Some canonical =>
                if negb (path_starts_with root canonical) then inr SourceEscaped
                else
                  let name := test_class_name relative in
                  collect_test_classes root t l (if bool_decide (name = []) then classes else set_insert name classes)
            end
        end
  end.
Definition test_classes (root : path) (t : ReportTree) : list str + TestClassError :=
  collect_test_classes root t (tree_walk t) [].

(** ** Lemmas: reports *)

(** The canonical paths of the reports of a walk. *)
Definition report_of (t : ReportTree) (e : option (path * bool)) : option path :=
  match e with Some (p, true) => if is_report p then tree_canonical t p else None | _ => None end.
Definition reports_of (t : ReportTree) : list path := omap (report_of t) (tree_walk t).

Lemma discover_spec root t l found r :
  discover root t l found = inl r →
  r = found ++ omap (report_of t) l ∧ Forall (λ p, path_starts_with root p = true) (omap (report_of t) l) ∧
  Forall (λ e, is_Some e) l ∧ ((length found ≤ N.to_nat MAX_XML_FILES)%nat → (length r ≤ N.to_nat MAX_XML_FILES)%nat).
Proof.
  revert found. induction l as [|[[p is_file]|] l IH]; intros found; cbn [discover omap list_omap]; [|..|done].
  { intros [= <-]. rewrite app_nil_r. by split_and!. }
  cbn [report_of]. destruct is_file; cbn [negb orb].
  2: { intros (-> & Hall & Hsome & Hlen)%IH. split_and!; [done|done|by constructor; [eexists|]|done]. }
  destruct (is_report p); cbn [negb].
  2: { intros (-> & Hall & Hsome & Hlen)%IH. split_and!; [done|done|by constructor; [eexists|]|done]. }
  destruct (tree_canonical t p) as [canonical|]; [|done]. destruct (path_starts_with root canonical) eqn:Hr; cbn [negb]; [|done].
  destruct (N.leb_spec MAX_XML_FILES (N.of_nat (length found))) as [|Hlt]; [done|].
  intros (-> & Hall & Hsome & Hlen)%IH. split_and!; [by rewrite <- app_assoc|by constructor|by constructor; [eexists|]|].
  intros _. apply Hlen. rewrite length_app. simpl. lia.
Qed.

Lemma discovered_spec root t found :
  discover_report_files root t = inl found →
  found = sort (reports_of t) ∧ Forall (λ p, path_starts_with root p = true) found ∧ (length found ≤ N.to_nat MAX_XML_FILES)%nat.
Proof.
  unfold discover_report_files, reports_of. destruct (discover root t (tree_walk t) []) as [r|] eqn:Hd; [|done].
  apply discover_spec in Hd as (-> & Hall & _ & Hlen). intros [= <-]. cbn [app] in *. split; [done|]. split.
  - apply Forall_forall. intros p Hp. unfold sort in Hp. rewrite elem_of_sort_with in Hp. by eapply Forall_forall in Hall.
  - unfold sort. rewrite length_sort_with. apply Hlen. simpl. lia.
Qed.

(** The time a report had when the run began; none when the reports could not be found then. *)
Definition known_before (root : path) (before : ReportTree) (p : path) (time : N) : Prop :=
  (∃ found, discover_report_files root before = inl found) ∧ p ∈ reports_of before ∧ tree_modified before p = Some time.
(** The reports a run wrote: those below the root afterwards that are new or have a later time. *)
Definition written_by_run (root : path) (before after : ReportTree) (l : list path) : Prop :=
  l `sublist_of` sort (reports_of after) ∧ Forall (λ p, path_starts_with root p = true) l ∧
  ∀ p, p ∈ l ↔ p ∈ reports_of after ∧ ∀ old, known_before root before p old → ∃ new, tree_modified after p = Some new ∧ old < new.

Lemma snapshot_spec root t p time : report_snapshot root t !! p = Some time ↔ known_before root t p time.
Proof.
  unfold report_snapshot, known_before.
  destruct (discover_report_files root t) as [found|] eqn:Hd.
  2: { split; [done|]. intros ([found ?] & _). done. }
  pose proof Hd as (Hfound & _ & _)%discovered_spec.
  assert (∀ e, e ∈ omap (λ p, (λ time, (p, time)) <$> tree_modified t p) found ↔ e.1 ∈ reports_of t ∧ tree_modified t e.1 = Some e.2) as Hin.
  { intros [q u]. rewrite list_elem_of_omap. subst found. unfold sort. setoid_rewrite elem_of_sort_with. split.
    - intros (q' & Hq & (u' & Hu & [= -> ->])%fmap_Some). done.
    - intros [Hq Hu]. exists q. split; [done|]. cbn in *. by rewrite Hu. }
  split.
  - intros Hp%elem_of_list_to_map_2. apply Hin in Hp as [Hp Ht]. split; [by exists found|done].
  - intros (_ & Hp & Ht). apply elem_of_list_to_map_1'.
    + intros u Hu. apply Hin in Hu as [_ Hu]. cbn in Hu. congruence.
    + by apply Hin.
Qed.

Lemma updated_spec root before after l :
  updated_reports root after (report_snapshot root before) = inl l → written_by_run root before after l.
Proof.
  unfold updated_reports. destruct (discover_report_files root after) as [found|] eqn:Hd; [|done].
  apply discovered_spec in Hd as (-> & Hroot & _). intros [= <-].
  split; [apply sublist_filter|]. split.
  { apply Forall_forall. intros p Hp%list_elem_of_filter. by eapply Forall_forall in Hroot; [|apply Hp]. }
  intros p. rewrite list_elem_of_filter. unfold sort. rewrite elem_of_sort_with. unfold is_updated.
  pose proof (snapshot_spec root before p) as Hsnapshot. destruct (report_snapshot root before !! p) as [old|].
  - split.
    + intros [Hu Hp]. split; [done|]. intros old' Hold. apply Hsnapshot in Hold as [= <-].
      destruct (tree_modified after p) as [time|]; [|done]. exists time. split; [done|]. by apply N.ltb_lt.
    + intros [Hp Hall]. split; [|done]. destruct (Hall old) as (time & -> & Hlt); [by apply Hsnapshot|]. by apply N.ltb_lt.
  - split; [|tauto]. intros [_ Hp]. split; [done|]. intros old Hold%Hsnapshot. done.
Qed.

(** ** Lemmas: what the reports say *)

Section Spec.
Context `{XmlFiles, !XmlLaws, SurefireXml} (limits : ResourceLimits) (redact : str → exec str)
  (redact_total : ∀ text, total (redact text)).

(** A test case with its problem, as it is reported. *)
Definition reported_as (c : TestCase * (TestFailureKind * TestProblem)) (d : TestFailureDetail) : Prop :=
  redact (case_class c.1) = Done (class_name d) ∧ redact (case_name c.1) = Done (test_name d) ∧ kind d = c.2.1 ∧
  ∃ text, redact (default (default (lit "test failed without a message") (problem_text c.2.2)) (problem_message c.2.2)) = Done text ∧
    failure_message d = take MAX_MESSAGE_CHARS text.
Definition failing (suite : TestSuite) : list (TestCase * (TestFailureKind * TestProblem)) :=
  omap (λ c, (λ problem, (c, problem)) <$> case_problem c) (test_cases suite).

Lemma total_Done {A} (m : exec A) : total m → ∃ a, m = Done a.
Proof. intros (a & Ha & _)%wp_Done. by exists a. Qed.

Lemma add_cases_spec l found :
  wp (add_cases redact l found) (λ r, ∃ ds, r = found ++ ds ∧
    Forall2 reported_as (omap (λ c, (λ problem, (c, problem)) <$> case_problem c) l) ds).
Proof.
  revert found. induction l as [|c l IH]; intros found; cbn [add_cases omap list_omap].
  - apply wp_mret. exists []. by rewrite app_nil_r.
  - destruct (case_problem c) as [[k problem]|] eqn:Hc; cbn [fmap option_fmap option_map]; [|apply IH]. unfold test_failure_detail.
    destruct (total_Done _ (redact_total (case_class c))) as [cn Hcn]. destruct (total_Done _ (redact_total (case_name c))) as [tn Htn].
    destruct (total_Done _ (redact_total (default (default (lit "test failed without a message") (problem_text problem)) (problem_message problem)))) as [m Hm].
    rewrite Hcn, Htn, Hm. cbn [mbind exec_bind mret exec_ret].
    eapply wp_mono; [apply IH|]. intros r (ds & -> & Hds). eexists (_ :: ds). rewrite <- app_assoc. split; [done|].
    constructor; [|done]. unfold reported_as. cbn. split_and!; [done..|]. by exists m.
Qed.

(** Counts that can be added up for all reports a run may have. *)
Definition count_limit : N := 2 ^ 48.
Definition plausible (suite : TestSuite) : Prop :=
  suite_tests suite ≤ count_limit ∧ suite_failures suite ≤ count_limit ∧ suite_errors suite ≤ count_limit ∧ suite_skipped suite ≤ count_limit.
Definition passed_of (suite : TestSuite) : N := suite_tests suite - (suite_failures suite + suite_errors suite + suite_skipped suite).
Definition totals (suites : list TestSuite) : TestSummary :=
  {| passed := sum (passed_of <$> suites); failed := sum (suite_failures <$> suites);
     errored := sum (suite_errors <$> suites); skipped := sum (suite_skipped <$> suites) |}.
Definition within (n : N) (s : TestSummary) : Prop :=
  passed s ≤ n * count_limit ∧ failed s ≤ n * count_limit ∧ errored s ≤ n * count_limit ∧ skipped s ≤ n * count_limit.

Lemma add_suite_spec n s suite :
  within n s → plausible suite → n < MAX_XML_FILES →
  add_suite s suite = Done {| passed := passed s + passed_of suite; failed := failed s + suite_failures suite;
                              errored := errored s + suite_errors suite; skipped := skipped s + suite_skipped suite |} ∧
  within (n + 1) {| passed := passed s + passed_of suite; failed := failed s + suite_failures suite;
                    errored := errored s + suite_errors suite; skipped := skipped s + suite_skipped suite |}.
Proof.
  intros (Hp & Hf & He & Hk) (Ht & Hsf & Hse & Hss) Hn. unfold add_suite, passed_of.
  assert (n * count_limit + 4 * count_limit ≤ usize_max) as Hmax.
  { etrans; [|apply (N.le_trans _ ((MAX_XML_FILES + 4) * count_limit)); [reflexivity|vm_compute; discriminate]].
    rewrite <- N.mul_add_distr_r. apply N.mul_le_mono_r. lia. }
  assert (suite_tests suite - (suite_failures suite + suite_errors suite + suite_skipped suite) ≤ count_limit) as Hpass by lia.
  unfold within, checked_add, saturating_sub. revert Hp Hf He Hk Ht Hsf Hse Hss Hmax Hpass. generalize count_limit. intros L. intros.
  repeat (rewrite decide_True by lia; cbn [or_panic mbind exec_bind]). unfold mret, exec_ret. split; [done|].
  cbn [passed failed errored skipped]. rewrite N.mul_add_distr_r, N.mul_1_l. lia.
Qed.

Lemma totals_cons suite suites :
  totals (suite :: suites) =
  {| passed := passed_of suite + passed (totals suites); failed := suite_failures suite + failed (totals suites);
     errored := suite_errors suite + errored (totals suites); skipped := suite_skipped suite + skipped (totals suites) |}.
Proof. done. Qed.

(** A report is a suite. *)
Definition says (p : path) (suite : TestSuite) : Prop := ∃ xml, xml_text p xml ∧ parse_suite xml = Some suite.
(** Why a report is not read. *)
Definition unreadable (p : path) (e : ReportError) : Prop :=
  match e with
  | ReadFailed x => ∃ b, budget_within b ∧ read limits b p = Done (inr x)
  | InvalidXml name => name = default (lit "<unknown>") (file_name p) ∧ ∃ xml, xml_text p xml ∧ parse_suite xml = None
  | _ => False
  end.

Context (plausible_suites : ∀ xml suite, parse_suite xml = Some suite → plausible suite).

Definition plus (s u : TestSummary) : TestSummary :=
  {| passed := passed s + passed u; failed := failed s + failed u; errored := errored s + errored u; skipped := skipped s + skipped u |}.

Lemma add_reports_spec l b n s found :
  budget_within b → within n s → n + N.of_nat (length l) ≤ MAX_XML_FILES →
  wp (add_reports limits redact l b s found) (λ r, match r with
    | inl (s', found') => ∃ suites ds, Forall2 says l suites ∧ s' = plus s (totals suites) ∧ found' = found ++ ds ∧
        Forall2 reported_as (suites ≫= failing) ds
    | inr e => ∃ p, p ∈ l ∧ unreadable p e
    end).
Proof.
  revert b n s found. induction l as [|p l IH]; intros b n s found Hb Hs Hn; cbn [add_reports].
  - apply wp_mret. exists [], []. split_and!; [constructor| |by rewrite app_nil_r|constructor].
    unfold plus, totals. cbn. rewrite !N.add_0_r. by destruct s.
  - apply wp_bind. pose proof (budget_kept limits b p Hb) as Hr. apply wp_Done in Hr as (r & Hr & Hq). rewrite Hr. cbn [wp].
    destruct r as [[xml b']|e]; [|apply wp_mret; exists p; split; [left|by exists b]].
    destruct Hq as (_ & _ & _ & Hb'). pose proof (read_text _ _ _ _ _ Hb Hr) as Htext.
    destruct (parse_suite xml) as [suite|] eqn:Hsuite; [|apply wp_mret; exists p; split; [left|split; [done|by exists xml]]].
    cbn [length] in Hn. destruct (add_suite_spec n s suite Hs (plausible_suites _ _ Hsuite)) as [-> Hs']; [lia|].
    cbn [mbind exec_bind]. eapply wp_call; [apply add_cases_spec|]. intros found' (ds & -> & Hds).
    eapply wp_mono; [apply (IH b' (n + 1) _ _ Hb' Hs'); lia|].
    intros [[s' found']|e]; [|intros (q & Hq & He); exists q; split; [by right|done]].
    intros (suites & ds' & Hsays & -> & -> & Hds'). exists (suite :: suites), (ds ++ ds'). split_and!.
    + constructor; [by exists xml|done].
    + unfold plus. rewrite totals_cons. cbn [passed failed errored skipped]. f_equal; lia.
    + by rewrite app_assoc.
    + cbn [mbind list_bind]. by apply Forall2_app.
Qed.

(** What the reports of a run say, in total and by failure. *)
Definition summarizes (l : list path) (s : TestSummary) (found : list TestFailureDetail) : Prop :=
  ∃ suites ds, Forall2 says l suites ∧ s = totals suites ∧ Forall2 reported_as (suites ≫= failing) ds ∧
    found ≡ₚ ds ∧ StronglySorted (λ a b, le_cmp (failure_key a) (failure_key b) = true) found.

Lemma parse_reports_spec l :
  (length l ≤ N.to_nat MAX_XML_FILES)%nat →
  wp (parse_test_reports limits redact l) (λ r, match r with
    | inl (s, found) => summarizes l s found
    | inr e => ∃ p, p ∈ l ∧ unreadable p e
    end).
Proof.
  intros Hl. unfold parse_test_reports. eapply wp_call.
  { apply (add_reports_spec l empty_budget 0 no_tests []); [split; vm_compute; discriminate|split_and!; vm_compute; discriminate|lia]. }
  intros [[s found]|e] Hr; apply wp_mret; [|exact Hr]. destruct Hr as (suites & ds & Hsays & -> & -> & Hds). exists suites, ds.
  split_and!; [done|destruct (totals suites); unfold plus, no_tests; cbn [passed failed errored skipped]; f_equal; lia|done|apply sort_with_perm|apply sort_by_key_sorted].
Qed.

Lemma judged_spec r :
  (∀ s, summary r = Some s → failed s + errored s ≤ usize_max) →
  wp (judged r) (λ r', report_status r' = report_status r ∧ summary r' = summary r ∧ failures r' = failures r ∧
    report_error r' = report_error r ∧ run (test_build r') = run (test_build r) ∧
    outcome (test_build r') =
      match summary r with Some s => if 0 <? failed s + errored s then TestFailure else outcome (test_build r) | None => outcome (test_build r) end).
Proof.
  intros Hfit. unfold judged. destruct (summary r) as [s|] eqn:Hs; [|apply wp_mret; by rewrite Hs].
  unfold checked_add. rewrite decide_True by by apply Hfit. cbn [or_panic mbind exec_bind].
  apply wp_mret. destruct (0 <? _); by rewrite ?Hs.
Qed.
End Spec.

Lemma summarized_fits `{XmlFiles, SurefireXml} redact l s found :
  (∀ xml suite, parse_suite xml = Some suite → plausible suite) → (length l ≤ N.to_nat MAX_XML_FILES)%nat →
  summarizes redact l s found → failed s + errored s ≤ usize_max.
Proof.
  intros Hp Hl (suites & ds & Hsays & -> & _). assert (Forall plausible suites) as Hall.
  { clear Hl. induction Hsays as [|p suite l suites (xml & _ & Hx) _ IH]; constructor; [by eapply Hp|done]. }
  apply Forall2_length in Hsays. rewrite Hsays in Hl. clear Hsays.
  assert (∀ k, (length suites ≤ k)%nat → failed (totals suites) + errored (totals suites) ≤ N.of_nat k * (2 * count_limit)) as Hb.
  { clear Hl. induction Hall as [|suite suites (_ & Hf & He & _) _ IH]; intros k Hk; [simpl; lia|]. rewrite totals_cons.
    cbn [failed errored]. destruct k as [|k]; [simpl in Hk; lia|]. specialize (IH k ltac:(simpl in Hk; lia)).
    rewrite Nat2N.inj_succ, N.mul_succ_l. lia. }
  etrans; [by apply Hb|]. rewrite N2Nat.id. vm_compute. discriminate.
Qed.


(** Counts no test run has stop the server's work: a report that says it has more failures and
    errors than fit makes the sum overflow. *)
Theorem counts_overflow :
  add_suite no_tests {| suite_tests := 1; suite_failures := usize_max; suite_errors := 1; suite_skipped := 0; test_cases := [] |} = Panic.
Proof. by vm_compute. Qed.

(** A test that failed: its report is written by the run, next to one that was there before. *)
Definition sample_root : path := [lit "p"].
Definition report_path (name : string) : path := [lit "p"; lit "target"; lit "surefire-reports"; lit name].
Definition sample_tree (l : list (path * N)) : ReportTree :=
  {| tree_walk := (λ p, Some (p.1, true)) <$> l; tree_canonical p := Some p;
     tree_modified p := snd <$> head (filter (λ e, e.1 = p) l) |}.
Definition before_run : ReportTree := sample_tree [(report_path "TEST-Old.xml", 5)].
Definition after_run : ReportTree := sample_tree [(report_path "TEST-Old.xml", 5); (report_path "TEST-New.xml", 9); (report_path "notes.txt", 9)].
#[local] Instance sample_reports : XmlFiles := {|
  file_contents p := Some (lit "<testsuite/>");
  from_utf8 b := if forallb (λ c, c <? 128) b then Some b else None;
  xml_reader _ := [inl Empty];
|}.
#[local] Instance sample_reports_laws : XmlLaws.
Proof.
  split. intros bytes s. simpl. case_match eqn:E; [|done]. intros [= <-].
  rewrite <- utf8_blen, utf8_ascii; [done|]. apply Forall_forall. intros c Hc.
  rewrite forallb_forall in E. apply N.ltb_lt, E. by apply list_elem_of_In.
Qed.
#[local] Instance sample_suite : SurefireXml := λ _,
  Some {| suite_tests := 2; suite_failures := 1; suite_errors := 0; suite_skipped := 0;
          test_cases := [{| case_class := lit "T"; case_name := lit "ok"; case_failure := None; case_error := None |};
                         {| case_class := lit "T"; case_name := lit "bad"; case_error := None;
                            case_failure := Some {| problem_message := None; problem_text := Some (lit "boom") |} |}] |}.
Definition report_limits : ResourceLimits :=
  {| max_xml_bytes := 100; max_jar_entries := 1; max_index_entries := 1; max_index_name_bytes := 1 |}.
Definition sample_build : MavenBuildResult :=
  {| outcome := BuildFailure; policy_notice := None; compiler_diagnostics := []; reactor_summary := [];
     run := {| run_status := RunBuildFailure; exit_code := Some 1%Z; duration_ms := 1; timed_out := false; stdout := []; stderr := [];
               stdout_truncated := false; stderr_truncated := false; redaction_count := 0 |} |}.
Definition sample_failure : TestFailureDetail :=
  {| class_name := lit "T"; test_name := lit "bad"; kind := FailureKind; failure_message := lit "boom" |}.
Definition sample_result : FocusedTestResult :=
  {| report_status := Available; summary := Some {| passed := 1; failed := 1; errored := 0; skipped := 0 |};
     failures := [sample_failure]; report_error := None; test_build := with_outcome TestFailure sample_build |}.


(** ** Test classes *)

(** A source file of a test class, inside the project. *)
Definition test_source (root : path) (t : ReportTree) (l : list (option (path * bool))) (c : str) : Prop :=
  c ≠ [] ∧ ∃ p relative canonical, Some (p, true) ∈ l ∧ is_test_source p = true ∧ test_source_relative p = Some relative ∧
    tree_canonical t p = Some canonical ∧ path_starts_with root canonical = true ∧ c = test_class_name relative.

Lemma test_source_cons root t e l c :
  test_source root t (e :: l) c ↔ test_source root t [e] c ∨ test_source root t l c.
Proof.
  unfold test_source. split.
  - intros (Hc & p & relative & canonical & [Hp|Hp]%elem_of_cons & Hrest); [left|right]; (split; [done|]; exists p, relative, canonical);
      [by rewrite list_elem_of_singleton|done].
  - intros [(Hc & p & relative & canonical & Hp%list_elem_of_singleton & Hrest)|(Hc & p & relative & canonical & Hp & Hrest)];
      (split; [done|]; exists p, relative, canonical); (split; [apply elem_of_cons; auto|exact Hrest]).
Qed.

Lemma collect_test_classes_spec root t l classes r :
  StronglySorted lt_cmp classes → collect_test_classes root t l classes = inl r →
  StronglySorted lt_cmp r ∧ ∀ c, c ∈ r ↔ c ∈ classes ∨ test_source root t l c.
Proof.
  revert classes. induction l as [|[[p is_file]|] l IH]; intros classes Hs; cbn [collect_test_classes]; [|..|done].
  - intros [= <-]. split; [done|]. intros c. split; [by left|]. intros [?|(_ & p & _ & _ & Hp & _)]; [done|by apply elem_of_nil in Hp].
  - assert (∀ classes', StronglySorted lt_cmp classes' → collect_test_classes root t l classes' = inl r →
      (∀ c, c ∈ classes' ↔ c ∈ classes ∨ test_source root t [Some (p, is_file)] c) →
      StronglySorted lt_cmp r ∧ ∀ c, c ∈ r ↔ c ∈ classes ∨ test_source root t (Some (p, is_file) :: l) c) as Hnext.
    { intros classes' Hs' [Hr Hin]%IH Hc'; [|done]. split; [done|]. intros c. rewrite Hin, Hc', (test_source_cons root t _ l c). tauto. }
    assert (∀ c, (test_source root t [Some (p, is_file)] c → False) → c ∈ classes ↔ c ∈ classes ∨ test_source root t [Some (p, is_file)] c) as Hskip.
    { intros c Hno. split; [by left|]. intros [?|?]; [done|]. by destruct Hno. }
    destruct is_file; cbn [negb orb].
    2: { intros Hr. apply (Hnext _ Hs Hr). intros c. apply Hskip. by intros (_ & q & _ & _ & [= ]%list_elem_of_singleton & _). }
    destruct (is_test_source p) eqn:Hsrc; cbn [negb].
    2: { intros Hr. apply (Hnext _ Hs Hr). intros c. apply Hskip. intros (_ & q & _ & _ & [= ->]%list_elem_of_singleton & ? & _). congruence. }
    destruct (test_source_relative p) as [relative|] eqn:Hrel.
    2: { intros Hr. apply (Hnext _ Hs Hr). intros c. apply Hskip. intros (_ & q & rel & _ & [= ->]%list_elem_of_singleton & _ & ? & _). congruence. }
    destruct (tree_canonical t p) as [canonical|] eqn:Hcan; [|done].
    destruct (path_starts_with root canonical) eqn:Hroot; cbn [negb]; [|done].
    case_bool_decide as Hname; intros Hr; (eapply Hnext; [|exact Hr|intros c]; [first [exact Hs|by apply set_insert_sorted]|]).
    + apply Hskip. intros (Hc & q & rel & can & [= ->]%list_elem_of_singleton & _ & Hrel' & _ & _ & ->).
      rewrite Hrel in Hrel'. injection Hrel' as <-. done.
    + rewrite elem_of_set_insert. split.
      * intros [->|?]; [right|by left]. split; [done|]. exists p, relative, canonical. split; [by apply list_elem_of_singleton|done].
      * intros [?|(_ & q & rel & can & [= ->]%list_elem_of_singleton & _ & Hrel' & _ & _ & ->)]; [by right|]. left. congruence.
Qed.

(** The test classes of a project are named in order, each once, and exactly those that a source
    file below [src/test/java] or [src/test/kotlin] inside the project stands for. *)
Theorem test_classes_exact root t :
  match test_classes root t with
  | inl classes => StronglySorted lt_cmp classes ∧ ∀ c, c ∈ classes ↔ test_source root t (tree_walk t) c
  | inr _ => True
  end.
Proof.
  destruct (test_classes root t) as [classes|] eqn:Hr; [|done].
  apply collect_test_classes_spec in Hr as [Hs Hin]; [|constructor]. split; [done|]. intros c. rewrite Hin. set_solver.
Qed.

Example test_class_sample :
  test_classes [lit "p"] (sample_tree [([lit "p"; lit "src"; lit "test"; lit "java"; lit "a"; lit "FooTest.java"], 1);
                                       ([lit "p"; lit "src"; lit "main"; lit "java"; lit "a"; lit "Foo.java"], 1);
                                       ([lit "p"; lit "m"; lit "src"; lit "test"; lit "kotlin"; lit "BarTest.kt"], 1)])
  = inl [lit "BarTest"; lit "a.FooTest"].
Proof. by vm_compute. Qed.
