(* ===== verification/EffectivePom.v ===== *)
(** * EffectivePom: the effective POM Maven writes, as the server shows it

    Models the effective POM of [src/project.rs]: the run of [help:effective-pom] with its output
    inside the project, the check of the root element over the events of the document, and the
    projects that are shown, in order and with their secret properties masked.  The XML reader
    and deserializer are a class. *)

From S2P Require Import Prelude.
From S2P Require Import Text.
From S2P Require Import Paths.
From S2P Require Import Ordering.
From S2P Require Import TextSearch.
From S2P Require Import Redaction.
From S2P Require Import Config.
From S2P Require Import MavenOutput.

Open Scope N_scope.

(** ** Data *)

Record RawDependency := {
  raw_group : str;
  raw_artifact : str;
  raw_version : option str;
  raw_scope : option str;
  raw_type : option str;
  raw_classifier : option str;
  raw_exclusions : list (str * str);
}.
(** A parent or a plugin: group, artifact and version. *)
Abbreviation raw_coordinate := (option str * str * option str)%type (only parsing).
Record RawProject := {
  project_group : option str;
  project_artifact : str;
  project_version : option str;
  project_packaging : option str;
  project_parent : option raw_coordinate;
  project_properties : gmap (list N) (list N);
  project_dependencies : list RawDependency;
  project_management : list RawDependency;
  project_plugins : list raw_coordinate;
}.

(** The exclusions of a dependency are sorted; group and artifact of each. *)
Record EffectiveDependency := {
  dependency_group : str;
  dependency_artifact : str;
  dependency_version : option str;
  dependency_scope : option str;
  dependency_type : option str;
  dependency_classifier : option str;
  exclusions : list (str * str);
}.
Record EffectiveProject := {
  coordinate : raw_coordinate;
  packaging : str;
  parent : option raw_coordinate;
  properties : gmap (list N) (list N);
  dependencies : list EffectiveDependency;
  dependency_management : list EffectiveDependency;
  plugins : list raw_coordinate;
}.

(** ** The root element *)

Inductive PomEvent :=
| StartTag (local_name : str)
| EmptyTag (local_name : str)
| EndTag
| TextEvent (text : str)
| CDataEvent
| RefEvent
| OtherPomEvent.
Inductive PomError :=
| ReaderError
| MultipleRoots
| UnexpectedEnd
| TextOutside
| ContentOutside
| UnclosedElements
| NoRoot.
(** [quick_xml]: the events up to the end of the document or an error, and the deserializer. *)
Class EffectivePomXml := {
  pom_events : str → list (PomEvent + unit);
  parse_projects : str → option (list RawProject);
  parse_project : str → option RawProject;
}.

Definition xml_blank (c : char) : bool := existsb (N.eqb c) [32; 9; 13; 10].

(** One event: the root element found so far and how many elements are open. *)
Definition root_event (root : option str) (depth : nat) (e : PomEvent) : (option str * nat) + PomError :=
  match e with
  | StartTag name =>
      match depth with
      | O => match root with Some _ => inr MultipleRoots | None => inl (Some name, 1%nat) end
      | S _ => inl (root, S depth)
      end
  | EmptyTag name =>
      match depth with
      | O => match root with Some _ => inr MultipleRoots | None => inl (Some name, 0%nat) end
      | S _ => inl (root, depth)
      end
  | EndTag => match depth with O => inr UnexpectedEnd | S depth => inl (root, depth) end
  | TextEvent text => if (depth =? 0)%nat && negb (forallb xml_blank text) then inr TextOutside else inl (root, depth)
  | CDataEvent | RefEvent => if (depth =? 0)%nat then inr ContentOutside else inl (root, depth)
  | OtherPomEvent => inl (root, depth)
  end.
Fixpoint root_events (root : option str) (depth : nat) (l : list (PomEvent + unit)) : str + PomError :=
  match l with
  | [] =>
      match depth with
      | S _ => inr UnclosedElements
      | O => match root with Some name => inl name | None => inr NoRoot end
      end
  | inr _ :: _ => inr ReaderError
  | inl e :: l => match root_event root depth e with inl (root, depth) => root_events root depth l | inr e => inr e end
  end.
Definition effective_pom_root `{EffectivePomXml} (xml : str) : str + PomError := root_events None 0 (pom_events xml).

(** ** Projects *)

Definition map_dependency (d : RawDependency) : EffectiveDependency :=
  {| dependency_group := raw_group d; dependency_artifact := raw_artifact d; dependency_version := raw_version d;
     dependency_scope := raw_scope d; dependency_type := raw_type d; dependency_classifier := raw_classifier d;
     exclusions := sort (raw_exclusions d) |}.
(** The derived order of dependencies: field by field. *)
Definition dependency_key (d : EffectiveDependency)
    : str * str * option str * option str * option str * option str * list (str * str) :=
  (dependency_group d, dependency_artifact d, dependency_version d, dependency_scope d, dependency_type d,
   dependency_classifier d, exclusions d).
Definition project_key (p : EffectiveProject) : raw_coordinate := coordinate p.

Inductive PomParseError :=
| PomUnreadable (e : XmlReadError)
| PomStructure (e : PomError)
| PomMalformed
| UnexpectedRoot (name : str)
| EmptyArtifactId.

Section Parse.
Context `{Patterns, XmlFiles, EffectivePomXml} `{Unicode} (limits : ResourceLimits).

Definition effective_project (raw : RawProject) : exec EffectiveProject :=
  shown ← redact_properties (project_properties raw);
  mret {| coordinate := (project_group raw, project_artifact raw, project_version raw);
          packaging := default (lit "jar") (project_packaging raw);
          parent := project_parent raw;
          properties := shown;
          dependencies := sort_by_key dependency_key (map_dependency <$> project_dependencies raw);
          dependency_management := sort_by_key dependency_key (map_dependency <$> project_management raw);
          plugins := sort (project_plugins raw) |}.
Fixpoint effective_projects (l : list RawProject) : exec (list EffectiveProject) :=
  match l with
  | [] => mret []
  | raw :: l => p ← effective_project raw; ps ← effective_projects l; mret (p :: ps)
  end.

Definition raw_projects (xml : str) : list RawProject + PomParseError :=
  match effective_pom_root xml with
  | inr e => inr (PomStructure e)
  | inl root =>
      if bool_decide (root = lit "projects") then match parse_projects xml with Some l => inl l | None => inr PomMalformed end
      else if bool_decide (root = lit "project") then match parse_project xml with Some p => inl [p] | None => inr PomMalformed end
      else inr (UnexpectedRoot root)
  end.
Definition parse_effective_pom (p : path) : exec (list EffectiveProject + PomParseError) :=
  match read_bounded_xml limits p with
  | inr e => mret (inr (PomUnreadable e))
  | inl xml =>
      match raw_projects xml with
      | inr e => mret (inr e)
      | inl raws =>
          if existsb (λ raw, bool_decide (trim (project_artifact raw) = [])) raws then mret (inr EmptyArtifactId)
          else ps ← effective_projects raws; mret (inl (sort_by_key project_key ps))
      end
  end.
End Parse.

(** ** The run *)

Inductive DiagnosticStatus := PomAvailable | PomMissing | PomInvalid.
Record EffectivePomResult := {
  pom_status : DiagnosticStatus;
  projects : list EffectiveProject;
  pom_error : option str;
  pom_build : MavenBuildResult;
}.
Definition without_projects (status : DiagnosticStatus) (error : option str) (build : MavenBuildResult) : EffectivePomResult :=
  {| pom_status := status; projects := []; pom_error := error; pom_build := build |}.

(** What the steps of a run answer, each only asked when the ones before it succeeded: creating
    and finding the output directory, the permit, the arguments every goal starts with, removing
    an earlier output, and the run. *)
Record PomRun := {
  created : unit + str;
  output_directory : option path;
  permit : unit + str;
  base : list str + str;
  cleared : unit + str;
  ran : MavenBuildResult;
  written : bool;
}.

Definition output_escaped : str := lit "effective POM output escaped project root".
Definition output_unprepared : str := lit "cannot prepare effective POM output directory".

Section Run.
Context `{Patterns, XmlFiles, EffectivePomXml} `{Unicode} (limits : ResourceLimits) (redact : str → exec str)
  (error_text : PomParseError → str) (display : path → str)
  (** [MavenBuildResult::from_run] of [runner_error] with a message. *)
  (runner_failure : str → exec MavenBuildResult).

Definition failed_run (error message : str) : exec EffectivePomResult :=
  build ← runner_failure message; mret (without_projects PomInvalid (Some error) build).

(** The result, and the arguments Maven was started with. *)
Definition effective_pom (root : path) (r : PomRun) : exec (EffectivePomResult * option (list str)) :=
  let fails error message := (result ← failed_run error message; mret (result, None)) in
  match created r with
  | inr e => fails output_unprepared e
  | inl () =>
      match output_directory r with
      | None => fails output_escaped output_escaped
      | Some directory =>
          if negb (path_starts_with root directory) then fails output_escaped output_escaped
          else
            match permit r, base r, cleared r with
            | inr e, _, _ => fails e e
            | inl (), inr e, _ => fails e e
            | inl (), inl _, inr e => fails e e
            | inl (), inl arguments, inl () =>
                let output := directory ++ [lit "effective-pom.xml"] in
                let arguments := arguments ++ [lit "help:effective-pom"; lit "-Doutput=" ++ display output] in
                if negb (written r) then mret (without_projects PomMissing None (ran r), Some arguments)
                else
                  parsed ← parse_effective_pom limits output;
                  match parsed with
                  | inl ps =>
                      mret ({| pom_status := PomAvailable; projects := ps; pom_error := None; pom_build := ran r |}, Some arguments)
                  | inr e => message ← redact (error_text e); mret (without_projects PomInvalid (Some message) (ran r), Some arguments)
                  end
            end
      end
  end.
End Run.

(** ** Documents *)

(** Elements that are all closed again, with anything between them. *)
Inductive balanced : list PomEvent → Prop :=
| balanced_nil : balanced []
| balanced_leaf e l : (∀ name, e ≠ StartTag name) → e ≠ EndTag → balanced l → balanced (e :: l)
| balanced_element name b l : balanced b → balanced l → balanced (StartTag name :: b ++ EndTag :: l).
(** One element. *)
Definition element (name : str) (l : list PomEvent) : Prop :=
  l = [EmptyTag name] ∨ ∃ b, balanced b ∧ l = StartTag name :: b ++ [EndTag].
(** What may stand beside the root element: declarations, comments and blank text. *)
Definition beside (e : PomEvent) : Prop :=
  match e with TextEvent text => forallb xml_blank text = true | OtherPomEvent => True | _ => False end.
Definition document (name : str) (l : list PomEvent) : Prop :=
  ∃ before root after, l = before ++ root ++ after ∧ Forall beside before ∧ element name root ∧ Forall beside after.

(** ** Lemmas: the root element *)

#[export] Instance PomEvent_eq_dec : EqDecision PomEvent.
Proof. solve_decision. Defined.

(** Inside an element: from any depth above zero a balanced text leads back to it. *)
Lemma balanced_events l root depth rest :
  balanced l → root_events root (S depth) ((inl <$> l) ++ rest) = root_events root (S depth) rest.
Proof.
  intros Hl. revert depth rest. induction Hl as [|e l Hs He _ IH|name b l _ IHb _ IHl]; intros depth rest; [done|..].
  - cbn [fmap list_fmap app root_events]. assert (root_event root (S depth) e = inl (root, S depth)) as ->.
    { destruct e; try done; by destruct (Hs local_name). }
    apply IH.
  - rewrite fmap_cons, fmap_app, fmap_cons. cbn [app root_events root_event]. rewrite <- app_assoc. rewrite IHb. cbn [app root_events root_event]. apply IHl.
Qed.
Lemma beside_events l root rest : Forall beside l → root_events root 0 ((inl <$> l) ++ rest) = root_events root 0 rest.
Proof.
  induction 1 as [|e l He _ IH]; [done|]. cbn [fmap list_fmap app root_events].
  assert (root_event root 0 e = inl (root, 0%nat)) as -> by (destruct e; try done; cbn in *; by rewrite He). exact IH.
Qed.

(** A text that closes what is open can be cut where it does. *)
Lemma close_events n l : ∀ root depth name, (length l ≤ n)%nat → root_events root (S depth) l = inl name →
  ∃ b rest, l = (inl <$> b) ++ inl EndTag :: rest ∧ balanced b ∧ root_events root depth rest = inl name ∧ (length rest < length l)%nat.
Proof.
  revert l. induction n as [|n IH]; intros [|[e|[]] l] root depth name Hlen Hr; try done; simpl in Hlen; [lia|].
  cbn [root_events] in Hr. destruct (decide (e = EndTag)) as [->|Hend].
  { exists [], l. split_and!; [done|constructor|exact Hr|simpl; lia]. }
  assert ((∃ tag, e = StartTag tag) ∨ ¬ ∃ tag, e = StartTag tag) as [[tag ->]|Hstart] by (destruct e; [left; by eexists|right; by intros [? ?]..]).
  - cbn [root_event] in Hr. destruct (IH l root (S depth) name ltac:(lia) Hr) as (b & rest & -> & Hb & Hr' & Hl).
    destruct (IH rest root depth name ltac:(lia) Hr') as (b' & rest' & -> & Hb' & Hr'' & Hl').
    exists (StartTag tag :: b ++ EndTag :: b'), rest'. split_and!; [|by constructor|done|].
    + rewrite fmap_cons, fmap_app, fmap_cons. cbn [app]. by rewrite <- app_assoc.
    + cbn [length] in *. rewrite !length_app in *. simpl in *. lia.
  - assert (root_event root (S depth) e = inl (root, S depth)) as Heq by (destruct e; try done; destruct Hstart; eauto).
    rewrite Heq in Hr. destruct (IH l root depth name ltac:(lia) Hr) as (b & rest & -> & Hb & Hr' & Hl).
    exists (e :: b), rest. split_and!; [done|constructor; [|done|done]|done|simpl; lia]. intros tag ->. apply Hstart. by exists tag.
Qed.

Lemma beside_after root name l :
  root_events (Some root) 0 l = inl name ↔ name = root ∧ ∃ es, l = inl <$> es ∧ Forall beside es.
Proof.
  split.
  - induction l as [|[e|[]] l IH]; simpl; [|..|done].
    + intros [= ->]. split; [done|]. by exists [].
    + destruct e; cbn [root_event]; try done; cbn.
      * destruct (forallb xml_blank text) eqn:Hblank; [|done]. intros (-> & es & -> & Hes)%IH. split; [done|].
        exists (TextEvent text :: es). split; [done|by constructor].
      * intros (-> & es & -> & Hes)%IH. split; [done|]. exists (OtherPomEvent :: es). split; [done|by constructor].
  - intros (-> & es & -> & Hes). rewrite <- (app_nil_r (inl <$> es)). by rewrite beside_events.
Qed.

Lemma root_spec l name : root_events None 0 l = inl name ↔ ∃ es, l = inl <$> es ∧ document name es.
Proof.
  split.
  - induction l as [|[e|[]] l IH]; simpl; [done|..|done].
    destruct e; cbn [root_event]; try done; cbn.
    + intros Hr. destruct (close_events (length l) l (Some local_name) 0 name ltac:(lia) Hr) as (b & rest & -> & Hb & Hr' & _).
      apply beside_after in Hr' as (-> & es & -> & Hes). exists (StartTag local_name :: b ++ EndTag :: es).
      split; [by rewrite fmap_cons, fmap_app, fmap_cons|]. exists [], (StartTag local_name :: b ++ [EndTag]), es.
      split_and!; [cbn; by rewrite <- app_assoc|constructor| |done]. right. by exists b.
    + intros (-> & es & -> & Hes)%beside_after. exists (EmptyTag local_name :: es). split; [done|].
      exists [], [EmptyTag local_name], es. split_and!; [done|constructor|by left|done].
    + destruct (forallb xml_blank text) eqn:Hblank; [|done]. intros (es & -> & before & root & after & -> & Hb & Hroot & Ha)%IH.
      exists (TextEvent text :: before ++ root ++ after). split; [done|]. exists (TextEvent text :: before), root, after.
      split_and!; [done|by constructor|done..].
    + intros (es & -> & before & root & after & -> & Hb & Hroot & Ha)%IH.
      exists (OtherPomEvent :: before ++ root ++ after). split; [done|]. exists (OtherPomEvent :: before), root, after.
      split_and!; [done|by constructor|done..].
  - intros (es & -> & before & root & after & -> & Hb & Hroot & Ha). rewrite fmap_app, beside_events, fmap_app by done.
    destruct Hroot as [->|(b & Hbal & ->)].
    + cbn [fmap list_fmap app root_events root_event]. apply beside_after. by eauto.
    + rewrite fmap_cons, fmap_app. cbn [app root_events root_event]. rewrite <- app_assoc, balanced_events by done.
      cbn [fmap list_fmap app root_events root_event]. apply beside_after. by eauto.
Qed.

(** The root element of an effective POM is found exactly when there is one: the events of the
    document are answered with a name precisely if the reader gave no error and they form a
    document, one element of that name, its elements all closed in turn, with nothing beside it
    but declarations, comments and blank text. *)
Theorem effective_pom_root_exact `{EffectivePomXml} xml name :
  effective_pom_root xml = inl name ↔ ∃ es, pom_events xml = inl <$> es ∧ document name es.
Proof. apply root_spec. Qed.

(** ** What is shown *)

Section Shown.
Context `{PatternLaws, XmlFiles, EffectivePomXml} `{Unicode} (limits : ResourceLimits).

(** What is shown of a project: its own data, with lists in order and secrets masked. *)
Definition shows (raw : RawProject) (p : EffectiveProject) : Prop :=
  coordinate p = (project_group raw, project_artifact raw, project_version raw) ∧
  packaging p = default (lit "jar") (project_packaging raw) ∧ parent p = project_parent raw ∧
  masked (project_properties raw) (properties p) ∧
  dependencies p ≡ₚ map_dependency <$> project_dependencies raw ∧
  StronglySorted (λ a b, le_cmp (dependency_key a) (dependency_key b) = true) (dependencies p) ∧
  dependency_management p ≡ₚ map_dependency <$> project_management raw ∧
  StronglySorted (λ a b, le_cmp (dependency_key a) (dependency_key b) = true) (dependency_management p) ∧
  plugins p ≡ₚ project_plugins raw ∧ StronglySorted (λ a b, le_cmp a b = true) (plugins p).

Lemma effective_project_spec raw : wp (effective_project raw) (shows raw).
Proof.
  unfold effective_project. eapply wp_call; [apply properties_masked|]. intros shown Hshown. apply wp_mret.
  unfold shows. cbn [coordinate packaging parent properties dependencies dependency_management plugins].
  split_and!; [done..|exact Hshown| | | | | |]; try apply sort_with_perm; first [apply sort_by_key_sorted|apply sort_sorted].
Qed.
Lemma effective_projects_spec l : wp (effective_projects l) (λ ps, Forall2 shows l ps).
Proof.
  induction l as [|raw l IH]; cbn [effective_projects]; [by apply wp_mret|].
  eapply wp_call; [apply effective_project_spec|]. intros p Hp. eapply wp_call; [exact IH|]. intros ps Hps. apply wp_mret. by constructor.
Qed.

(** The projects a document holds. *)
Definition holds_projects (xml : str) (raws : list RawProject) : Prop :=
  (∃ es, pom_events xml = inl <$> es ∧ document (lit "projects") es ∧ parse_projects xml = Some raws) ∨
  (∃ es raw, pom_events xml = inl <$> es ∧ document (lit "project") es ∧ parse_project xml = Some raw ∧ raws = [raw]).

Lemma raw_projects_spec xml raws : raw_projects xml = inl raws → holds_projects xml raws.
Proof.
  unfold raw_projects. destruct (effective_pom_root xml) as [root|] eqn:Hroot; [|done].
  apply root_spec in Hroot as (es & Hes & Hdoc). case_bool_decide as Hp.
  - destruct (parse_projects xml) as [l|] eqn:Hl; [|done]. intros [= <-]. left. exists es. by subst root.
  - case_bool_decide as Hp'; [|done]. destruct (parse_project xml) as [p|] eqn:Hl; [|done]. intros [= <-]. right. exists es, p. by subst root.
Qed.
Definition shown_projects (p : path) (ps : list EffectiveProject) : Prop :=
  ∃ xml raws shown, read_bounded_xml limits p = inl xml ∧ holds_projects xml raws ∧
    Forall (λ raw, trim (project_artifact raw) ≠ []) raws ∧ Forall2 shows raws shown ∧ ps ≡ₚ shown ∧
    StronglySorted (λ a b, le_cmp (project_key a) (project_key b) = true) ps.
Lemma parse_effective_pom_spec p :
  wp (parse_effective_pom limits p) (λ r, match r with inl ps => shown_projects p ps | inr _ => True end).
Proof.
  unfold parse_effective_pom. destruct (read_bounded_xml limits p) as [xml|e] eqn:Hread; [|done].
  destruct (raw_projects xml) as [raws|e] eqn:Hraws; [|done]. destruct (existsb _ raws) eqn:Hempty; [done|].
  eapply wp_call; [apply effective_projects_spec|]. intros shown Hshown. apply wp_mret. exists xml, raws, shown.
  split_and!; [done|by apply raw_projects_spec| |done|apply sort_with_perm|apply sort_by_key_sorted].
  apply Forall_forall. intros raw Hraw Hblank. assert (existsb (λ raw, bool_decide (trim (project_artifact raw) = [])) raws = true); [|congruence].
  apply existsb_exists. exists raw. split; [by apply list_elem_of_In|by apply bool_decide_eq_true].
Qed.
End Shown.

(** C12: An effective POM is shown only as Maven wrote it inside the project: Maven is started only
    when the output directory was created and found inside the project root, the permit and the
    arguments were got and an earlier output was removed, and then with the output in that
    directory; projects are shown only when the written document has one root element
    [projects] or [project] with nothing but blanks, comments and declarations beside it, every
    project of it has an artifact id, and then all of them, in order, with every secret property
    masked; in every other case no project is shown and the status says why. *)
Theorem effective_pom_exact `{PatternLaws, XmlFiles, EffectivePomXml} `{Unicode} limits redact error_text display runner_failure root r :
  (∀ text, total (redact text)) → (∀ message, total (runner_failure message)) →
  wp (effective_pom limits redact error_text display runner_failure root r) (λ '(result, started),
    match started with
    | None => pom_status result = PomInvalid ∧ projects result = [] ∧
        (created r ≠ inl () ∨ (∀ directory, output_directory r = Some directory → path_starts_with root directory = false) ∨
         permit r ≠ inl () ∨ (∃ e, base r = inr e) ∨ cleared r ≠ inl ())
    | Some arguments => ∃ directory first_arguments,
        created r = inl () ∧ output_directory r = Some directory ∧ path_starts_with root directory = true ∧
        permit r = inl () ∧ base r = inl first_arguments ∧ cleared r = inl () ∧ pom_build result = ran r ∧
        let output := directory ++ [lit "effective-pom.xml"] in
        arguments = first_arguments ++ [lit "help:effective-pom"; lit "-Doutput=" ++ display output] ∧
        match pom_status result with
        | PomMissing => written r = false ∧ projects result = []
        | PomAvailable => written r = true ∧ shown_projects limits output (projects result)
        | PomInvalid => written r = true ∧ projects result = [] ∧
            ∃ e text, parse_effective_pom limits output = Done (inr e) ∧ redact (error_text e) = Done text ∧ pom_error result = Some text
        end
    end).
Proof.
  intros Hredact Hfailure. unfold effective_pom, failed_run.
  assert (∀ error message (Q : EffectivePomResult * option (list str) → Prop),
    (∀ result, pom_status result = PomInvalid → projects result = [] → Q (result, None)) →
    wp (result ← (build ← runner_failure message; mret (without_projects PomInvalid (Some error) build)); mret (result, None)) Q) as Hfail.
  { intros error message Q HQ. pose proof (Hfailure message) as (build & Hb & _)%wp_Done. rewrite Hb. by apply HQ. }
  destruct (created r) as [[]|e]; [|apply Hfail; intros result -> ->; split_and!; [done|done|by left; discriminate]].
  destruct (output_directory r) as [directory|];
    [|apply Hfail; intros result -> ->; split_and!; [done|done|right; left; intros ? [=]]].
  destruct (path_starts_with root directory) eqn:Hin; cbn [negb].
  2: { apply Hfail; intros result -> ->; split_and!; [done|done|right; left; by intros ? [= <-]]. }
  destruct (permit r) as [[]|e]; [|apply Hfail; intros result -> ->; split_and!; [done|done|right; right; left; discriminate]].
  destruct (base r) as [arguments|e];
    [|apply Hfail; intros result -> ->; split_and!; [done|done|right; right; right; left; by exists e]].
  destruct (cleared r) as [[]|e];
    [|apply Hfail; intros result -> ->; split_and!; [done|done|right; right; right; right; discriminate]].
  destruct (written r); cbn [negb]; [|apply wp_mret; exists directory, arguments; by split_and!].
  pose proof (parse_effective_pom_spec limits (directory ++ [lit "effective-pom.xml"])) as Hparse.
  apply wp_Done in Hparse as (parsed & Hparse & Hshown). rewrite Hparse. cbn [mbind exec_bind].
  destruct parsed as [ps|e]; [apply wp_mret; exists directory, arguments; by split_and!|].
  pose proof (Hredact (error_text e)) as (text & Htext & _)%wp_Done. rewrite Htext. apply wp_mret. exists directory, arguments.
  cbn. split_and!; try done. by exists e, text.
Qed.

(** A project with a secret property. *)
#[local] Existing Instance sample_patterns.
#[local] Existing Instance sample_pattern_laws.
#[local] Existing Instance ascii_only.
#[local] Instance sample_output : XmlFiles := {|
  file_contents p := Some (lit "<project/>");
  from_utf8 b := Some b;
  xml_reader _ := [inl Empty];
|}.
Definition sample_project : RawProject :=
  {| project_group := Some (lit "g"); project_artifact := lit "a"; project_version := None; project_packaging := None;
     project_parent := None; project_properties := {[lit "db.password" := lit "hunter2"]};
     project_dependencies := []; project_management := []; project_plugins := [] |}.
#[local] Instance sample_effective : EffectivePomXml := {|
  pom_events _ := [inl (TextEvent (lit " ")); inl (StartTag (lit "project")); inl (TextEvent (lit "a")); inl EndTag];
  parse_projects _ := None;
  parse_project _ := Some sample_project;
|}.
Definition pom_limits : ResourceLimits :=
  {| max_xml_bytes := 100; max_jar_entries := 1; max_index_entries := 1; max_index_name_bytes := 1 |}.
Definition sample_run (directory : path) : PomRun :=
  {| created := inl (); output_directory := Some directory; permit := inl (); base := inl [lit "-q"]; cleared := inl ();
     ran := {| outcome := BuildFailure; policy_notice := None; compiler_diagnostics := []; reactor_summary := [];
       run := {| run_status := RunBuildFailure; exit_code := Some 1%Z; duration_ms := 1; timed_out := false; stdout := []; stderr := [];
                 stdout_truncated := false; stderr_truncated := false; redaction_count := 0 |} |};
     written := true |}.
Definition shown_to (r : PomRun) : exec (EffectivePomResult * option (list str)) :=
  effective_pom pom_limits mret (λ _, []) (λ _, lit "o") (λ _, mret (ran r)) [lit "p"] r.

Lemma effective_pom_exact_witness :
  wp (shown_to (sample_run [lit "p"; lit "target"])) (λ '(result, started),
    started = Some [lit "-q"; lit "help:effective-pom"; lit "-Doutput=o"] ∧
    (length (projects result) = 1)%nat ∧
    shown_projects pom_limits [lit "p"; lit "target"; lit "effective-pom.xml"] (projects result)) ∧
  wp (shown_to (sample_run [lit "q"])) (λ '(result, started), started = None ∧ projects result = []).
Proof.
  pose proof (λ r, effective_pom_exact pom_limits mret (λ _, []) (λ _, lit "o") (λ _, mret (ran r)) [lit "p"] r (λ _, I) (λ _, I)) as Hexact.
  split.
  - specialize (Hexact (sample_run [lit "p"; lit "target"])).
    destruct (wp_Done _ _ Hexact) as ([result started] & Hrun & Hresult). unfold shown_to. rewrite Hrun. cbn [wp].
    assert (exists ps, effective_pom pom_limits mret (λ _, []) (λ _, lit "o") (λ _, mret (ran (sample_run [lit "p"; lit "target"]))) [lit "p"] (sample_run [lit "p"; lit "target"])
      = Done ({| pom_status := PomAvailable; projects := ps; pom_error := None; pom_build := ran (sample_run []) |}, Some [lit "-q"; lit "help:effective-pom"; lit "-Doutput=o"]) ∧ (length ps = 1)%nat) as (ps & Hps & Hlen)
      by (eexists; split; [vm_compute; reflexivity|reflexivity]).
    rewrite Hps in Hrun. injection Hrun as <- <-. destruct Hresult as (directory & arguments & _ & [= <-] & _ & _ & _ & _ & _ & _ & Hshown).
    split_and!; [done|done|apply Hshown].
  - specialize (Hexact (sample_run [lit "q"])). eapply wp_mono; [exact Hexact|]. intros [result [started|]] Hresult.
    + destruct Hresult as (directory & arguments & _ & [= <-] & Hin & _). discriminate Hin.
    + split; [done|apply Hresult].
Defined.
