(* ===== verification/Coverage.v ===== *)
(** * Coverage: JaCoCo counters, summaries and gaps

    Models the JaCoCo part of [src/project.rs] after the reports are read: the counters of a
    report, the summary over its modules and the ranking of the least covered classes.  A [u64]
    is an [N]; its sums are checked, so an overflow is a panic.  The percentage is an [f64]: it is
    kept as the exact quotient the code hands to the floating point division. *)

From S2P Require Import Prelude.
From S2P Require Import Text.
From S2P Require Import TextSearch.
From S2P Require Import Ordering.

Open Scope N_scope.
#[local] Arguments sum l : simpl never.

(** ** Data *)

Record RawJacocoCounter := {
  kind : str;
  raw_missed : N;
  raw_covered : N;
}.

Record RawJacocoClass := {
  raw_class_name : str;
  class_counters : list RawJacocoCounter;
}.

Record RawJacocoPackage := {
  raw_package_name : str;
  package_classes : list RawJacocoClass;
}.

(** [percent] is [covered * 100.0 / total], as its two operands. *)
Record CoverageCounter := {
  missed : N;
  covered : N;
  percent : option (N * N);
}.

Record CoverageMetrics := {
  instructions : option CoverageCounter;
  branches : option CoverageCounter;
  metric_lines : option CoverageCounter;
  methods : option CoverageCounter;
  classes : option CoverageCounter;
}.

Record ParsedCoverageReport := {
  report_module : str;
  report_metrics : CoverageMetrics;
  report_packages : list RawJacocoPackage;
  report_stale : bool;
}.

Record ParsedCoverageReports := {
  reports : list ParsedCoverageReport;
  missing_modules : list str;
}.

Inductive CoverageStatus := CoverageAvailable | CoverageMissing | CoverageStale | CoverageInvalid.

Record ModuleCoverage := {
  module : str;
  metrics : CoverageMetrics;
  stale : bool;
}.

Record CoverageSummaryResult := {
  summary_status : CoverageStatus;
  project_metrics : CoverageMetrics;
  summary_reports : list ModuleCoverage;
  summary_missing_modules : list str;
}.

Record CoverageGap := {
  gap_module : str;
  package_name : str;
  class_name : str;
  line : option CoverageCounter;
  branch : option CoverageCounter;
  instruction : option CoverageCounter;
}.

Record CoverageGapResult := {
  gap_status : CoverageStatus;
  gaps : list CoverageGap;
  gap_missing_modules : list str;
  incomplete : bool;
}.

(** ** Operations *)

(** [a + b] of two [u64]. *)
Definition u64_add (a b : N) : exec N := or_panic (checked_add a b).

Definition counter_of (missed covered total : N) : CoverageCounter := {|
  missed := missed;
  covered := covered;
  percent := if 0 <? total then Some (covered * 100, total) else None;
|}.

Definition coverage_counter (c : RawJacocoCounter) : exec CoverageCounter :=
  total ← u64_add (raw_missed c) (raw_covered c);
  Done (counter_of (raw_missed c) (raw_covered c) total).

Definition find_counter (counters : list RawJacocoCounter) (kind_name : string) : exec (option CoverageCounter) :=
  match list_find (λ c, kind c = lit kind_name) counters with
  | Some (_, c) => Some <$> coverage_counter c
  | None => Done None
  end.

Definition coverage_metrics (counters : list RawJacocoCounter) : exec CoverageMetrics :=
  i ← find_counter counters "INSTRUCTION";
  b ← find_counter counters "BRANCH";
  l ← find_counter counters "LINE";
  m ← find_counter counters "METHOD";
  c ← find_counter counters "CLASS";
  Done {| instructions := i; branches := b; metric_lines := l; methods := m; classes := c |}.

Definition coverage_status (reports : list ParsedCoverageReport) : CoverageStatus :=
  match reports with
  | [] => CoverageMissing
  | _ => if existsb report_stale reports then CoverageStale else CoverageAvailable
  end.

(** [Iterator::sum] of [u64] values. *)
Definition u64_sum (l : list N) : exec N := for_each u64_add l 0.

Definition sum_counters (select : CoverageMetrics → option CoverageCounter) (l : list CoverageMetrics)
    : exec (option CoverageCounter) :=
  match omap select l with
  | [] => Done None
  | counters =>
      missed ← u64_sum (missed <$> counters);
      covered ← u64_sum (covered <$> counters);
      total ← u64_add missed covered;
      Done (Some (counter_of missed covered total))
  end.

Definition aggregate_coverage_metrics (l : list CoverageMetrics) : exec CoverageMetrics :=
  i ← sum_counters instructions l;
  b ← sum_counters branches l;
  n ← sum_counters metric_lines l;
  m ← sum_counters methods l;
  c ← sum_counters classes l;
  Done {| instructions := i; branches := b; metric_lines := n; methods := m; classes := c |}.

Definition coverage_summary (parsed : ParsedCoverageReports) : exec CoverageSummaryResult :=
  let status := coverage_status (reports parsed) in
  project_metrics ← aggregate_coverage_metrics (report_metrics <$> reports parsed);
  Done {| summary_status := status;
          project_metrics := project_metrics;
          summary_reports := (λ r, {| module := report_module r; metrics := report_metrics r;
                                      stale := report_stale r |}) <$> reports parsed;
          summary_missing_modules := missing_modules parsed |}.

(** [covered.saturating_mul(10_000).checked_div(total).unwrap_or(u64::MAX)]. *)
Definition coverage_basis_points (c : CoverageCounter) : exec N :=
  total ← u64_add (missed c) (covered c);
  Done (if total =? 0 then u64_max else N.min u64_max (covered c * 10000) / total).

Definition or_else {A} (a b : option A) : option A := match a with Some _ => a | None => b end.

(** The key a class is ranked by, and its entry. *)
Definition ranked_class (report : ParsedCoverageReport) (package : RawJacocoPackage) (class : RawJacocoClass)
    : exec ((N * Reverse N) * CoverageGap) :=
  metrics ← coverage_metrics (class_counters class);
  let counter := or_else (metric_lines metrics) (instructions metrics) in
  score ← match counter with Some c => coverage_basis_points c | None => Done u64_max end;
  let missed := match counter with Some c => missed c | None => 0 end in
  Done ((score, Rev missed),
        {| gap_module := report_module report;
           package_name := replace_char (ch "/") (ch ".") (raw_package_name package);
           class_name := replace_char (ch "/") (ch ".") (raw_class_name class);
           line := metric_lines metrics; branch := branches metrics;
           instruction := instructions metrics |}).

Fixpoint map_exec {A B} (f : A → exec B) (l : list A) : exec (list B) :=
  match l with
  | [] => Done []
  | a :: l => b ← f a; l ← map_exec f l; Done (b :: l)
  end.

Definition all_classes (parsed : ParsedCoverageReports) : list (ParsedCoverageReport * RawJacocoPackage * RawJacocoClass) :=
  report ← reports parsed; package ← report_packages report; class ← package_classes package;
  [(report, package, class)].

Definition gap_key (r : (N * Reverse N) * CoverageGap) : N * Reverse N * str * str :=
  (r.1, gap_module r.2, class_name r.2).

Definition coverage_gaps (parsed : ParsedCoverageReports) (limit : nat) : exec CoverageGapResult :=
  let status := coverage_status (reports parsed) in
  ranked ← map_exec (λ '(report, package, class), ranked_class report package class) (all_classes parsed);
  let ranked := sort_by_key gap_key ranked in
  let incomplete := (limit <? length ranked)%nat in
  Done {| gap_status := status;
          gaps := snd <$> take limit ranked;
          gap_missing_modules := missing_modules parsed;
          incomplete := incomplete |}.

(** [jacoco_coverage_gaps]: the limit of the request, at most the limit of the server. *)
Definition gap_limit (limit : option nat) (max_results : nat) : nat := (default max_results limit `min` max_results)%nat.

(** ** Counters *)

Definition counter_fits (c : RawJacocoCounter) : Prop := raw_missed c + raw_covered c ≤ u64_max.

Lemma u64_add_fits a b : a + b ≤ u64_max → u64_add a b = Done (a + b).
Proof.
  intros Hf. unfold u64_add, checked_add. by rewrite decide_True.
Qed.

Lemma coverage_counter_fits c :
  counter_fits c → coverage_counter c = Done (counter_of (raw_missed c) (raw_covered c) (raw_missed c + raw_covered c)).
Proof. intros Hf. unfold coverage_counter. by rewrite (u64_add_fits _ _ Hf). Qed.

Lemma find_counter_spec counters name :
  Forall counter_fits counters →
  wp (find_counter counters name) (λ r,
    r = (λ '(_, c), counter_of (raw_missed c) (raw_covered c) (raw_missed c + raw_covered c))
          <$> list_find (λ c, kind c = lit name) counters ∧
    ∀ c, r = Some c → missed c + covered c ≤ u64_max).
Proof.
  intros Hf. unfold find_counter. destruct (list_find _ counters) as [[i c]|] eqn:E; [|done].
  apply list_find_Some in E as (Hi & _ & _). apply list_elem_of_lookup_2 in Hi.
  rewrite Forall_forall in Hf. specialize (Hf c Hi). rewrite coverage_counter_fits by done. simpl.
  split; [done|]. intros ? [= <-]. done.
Qed.

Lemma coverage_metrics_spec counters :
  Forall counter_fits counters →
  wp (coverage_metrics counters) (λ m,
    ∀ c, or_else (metric_lines m) (instructions m) = Some c → missed c + covered c ≤ u64_max).
Proof.
  intros Hf. unfold coverage_metrics.
  eapply wp_call; [by apply find_counter_spec|]. intros i [_ Hi].
  eapply wp_call; [by apply find_counter_spec|]. intros b _.
  eapply wp_call; [by apply find_counter_spec|]. intros l [_ Hl].
  eapply wp_call; [by apply find_counter_spec|]. intros m _.
  eapply wp_call; [by apply find_counter_spec|]. intros c _. cbn [wp metric_lines instructions or_else].
  intros d. destruct l as [l|]; simpl; auto.
Qed.

(** The score of a counter is bounded and exact: for a counter whose total is a [u64], it is
    [u64::MAX] for an empty total and at most 10,000 otherwise, and it is the share of the
    covered ones in basis points, rounded down, as long as the scaled count is a [u64] too. *)
Theorem basis_points_exact m c p :
  m + c ≤ u64_max →
  wp (coverage_basis_points {| missed := m; covered := c; percent := p |}) (λ s,
    (m + c = 0 → s = u64_max) ∧
    (m + c ≠ 0 → s ≤ 10000) ∧
    (m + c ≠ 0 → c * 10000 ≤ u64_max → s * (m + c) ≤ c * 10000 < (s + 1) * (m + c))).
Proof.
  intros Hf. unfold coverage_basis_points. simpl. rewrite u64_add_fits by done. simpl.
  destruct (N.eqb_spec (m + c) 0) as [H0|H0]; [split_and!; lia|]. split_and!; [lia|..].
  - intros _. apply N.Div0.div_le_upper_bound. lia.
  - intros _ Hc. rewrite N.min_r by done.
    pose proof (N.Div0.div_mod (c * 10000) (m + c)) as Hdiv.
    pose proof (N.mod_lt (c * 10000) (m + c) H0).
    set (q := c * 10000 / (m + c)) in *. set (r := (c * 10000) mod (m + c)) in *. nia.
Qed.

Lemma basis_points_exact_witness :
  wp (coverage_basis_points {| missed := 1; covered := 2; percent := None |}) (λ s, s ≤ 10000).
Proof.
  eapply wp_mono; [apply (basis_points_exact 1 2 None); vm_compute; discriminate|]. intros s (_ & Hs & _). by apply Hs.
Defined.

(** ** Sums *)

Lemma u64_sum_fits l s : s + sum l ≤ u64_max → for_each u64_add l s = Done (s + sum l).
Proof.
  revert s. induction l as [|x l IH]; intros s Hs; cbn [for_each].
  - unfold sum. simpl. f_equal. lia.
  - rewrite sum_cons in Hs. rewrite u64_add_fits by lia. simpl. rewrite IH by lia.
    rewrite sum_cons. f_equal. lia.
Qed.

Definition sum_of (field : CoverageCounter → N) (select : CoverageMetrics → option CoverageCounter)
    (l : list CoverageMetrics) : N := sum (field <$> omap select l).

(** The project's counters are the sums of the modules': for each kind, there is one exactly
    when some module has it, its missed and covered counts are the sums over the modules, and the
    summation panics only if a sum or their total exceeds a [u64]. *)
Theorem summary_sums select l :
  sum_of missed select l + sum_of covered select l ≤ u64_max →
  wp (sum_counters select l) (λ r,
    match r with
    | None => omap select l = []
    | Some c => omap select l ≠ [] ∧ missed c = sum_of missed select l ∧
        covered c = sum_of covered select l
    end).
Proof.
  intros Hf. unfold sum_counters, sum_of in *. destruct (omap select l) as [|c counters]; [done|].
  unfold u64_sum. rewrite (u64_sum_fits (missed <$> c :: counters)) by lia. cbn [mbind exec_bind].
  rewrite (u64_sum_fits (covered <$> c :: counters)) by lia. cbn [mbind exec_bind].
  rewrite !N.add_0_l, u64_add_fits by done. done.
Qed.

Definition sample_counter (m c : N) : CoverageCounter := counter_of m c (m + c).
Definition sample_metrics (c : option CoverageCounter) : CoverageMetrics :=
  {| instructions := c; branches := None; metric_lines := c; methods := None; classes := None |}.

Lemma summary_sums_witness :
  wp (sum_counters metric_lines [sample_metrics (Some (sample_counter 3 1)); sample_metrics None])
    (λ r, (missed <$> r) = Some 3).
Proof.
  eapply wp_mono.
  - apply (summary_sums metric_lines [sample_metrics (Some (sample_counter 3 1)); sample_metrics None]).
    vm_compute. discriminate.
  - intros [c|]; [|vm_compute; discriminate]. intros (_ & Hm & _). simpl. rewrite Hm. vm_compute. reflexivity.
Defined.

(** ** Gaps *)

Definition class_fits (e : ParsedCoverageReport * RawJacocoPackage * RawJacocoClass) : Prop :=
  Forall counter_fits (class_counters e.2).

Lemma ranked_class_total report package class :
  Forall counter_fits (class_counters class) → total (ranked_class report package class).
Proof.
  intros Hf. unfold ranked_class. eapply wp_call; [by apply coverage_metrics_spec|]. intros m Hm.
  destruct (or_else (metric_lines m) (instructions m)) as [c|] eqn:E; [|done].
  specialize (Hm c E). unfold coverage_basis_points. by rewrite u64_add_fits.
Qed.

Lemma map_exec_total {A B} (f : A → exec B) l :
  Forall (λ a, total (f a)) l → wp (map_exec f l) (λ r, Forall2 (λ a b, f a = Done b) l r).
Proof.
  induction 1 as [|a l Ha _ IH]; cbn [map_exec]; [constructor|].
  destruct (wp_Done _ _ Ha) as (b & Hb & _). rewrite Hb. simpl. eapply wp_call; [exact IH|].
  intros r Hr. by constructor.
Qed.

(** The gaps are the least covered classes: every class of every report is ranked; those
    listed come first, by score, then by more missed, then by module and class name; none left
    out ranks before a listed one; at most [limit] are listed, and the answer is marked
    incomplete exactly when some class is left out.  It panics only on a counter whose total
    exceeds a [u64]. *)
Theorem gaps_least_covered parsed limit :
  Forall class_fits (all_classes parsed) →
  wp (coverage_gaps parsed limit) (λ r, ∃ all kept dropped,
    Forall2 (λ '(report, package, class) e, ranked_class report package class = Done e) (all_classes parsed) all ∧
    kept ++ dropped ≡ₚ all ∧
    gaps r = snd <$> kept ∧ (length kept ≤ limit)%nat ∧
    StronglySorted (λ a b, le_cmp (gap_key a) (gap_key b) = true) kept ∧
    (∀ a b, a ∈ kept → b ∈ dropped → le_cmp (gap_key a) (gap_key b) = true) ∧
    (incomplete r = true ↔ dropped ≠ [])).
Proof.
  intros Hf. unfold coverage_gaps.
  eapply wp_call; [apply map_exec_total|].
  { eapply Forall_impl; [exact Hf|]. intros [[report package] class]. apply ranked_class_total. }
  intros all Hall. cbn [wp gaps incomplete].
  pose proof (sort_by_key_sorted gap_key all) as Hs.
  exists all, (take limit (sort_by_key gap_key all)), (drop limit (sort_by_key gap_key all)).
  rewrite <- (take_drop limit (sort_by_key gap_key all)) in Hs.
  apply StronglySorted_app in Hs as (Hk & Hkd & Hd).
  rewrite take_drop. split; [|split; [apply sort_with_perm|]].
  - eapply Forall2_impl; [exact Hall|]. by intros [[? ?] ?].
  - split; [done|]. split; [rewrite length_take; lia|]. split; [done|]. split; [done|].
    rewrite Nat.ltb_lt. split.
    + intros Hlt Hnil. apply (f_equal length) in Hnil. rewrite length_drop in Hnil. simpl in Hnil. lia.
    + intros Hne. destruct (decide (limit < length (sort_by_key gap_key all))%nat); [done|].
      by rewrite drop_ge in Hne by lia.
Qed.

Definition sample_class (name : string) (m c : N) : RawJacocoClass :=
  {| raw_class_name := lit name; class_counters := [{| kind := lit "LINE"; raw_missed := m; raw_covered := c |}] |}.
Definition sample_reports : ParsedCoverageReports := {|
  reports := [{| report_module := lit "."; report_metrics := sample_metrics None; report_stale := false;
    report_packages := [{| raw_package_name := lit "a/b"; package_classes :=
      [sample_class "a/b/Full" 0 4; sample_class "a/b/Half" 2 2; sample_class "a/b/None" 4 0] |}] |}];
  missing_modules := [];
|}.

Lemma gaps_least_covered_witness :
  Forall class_fits (all_classes sample_reports) ∧
  wp (coverage_gaps sample_reports 2) (λ r, (class_name <$> gaps r) = [lit "a.b.None"; lit "a.b.Half"] ∧ (length (gaps r) ≤ 2)%nat).
Proof.
  assert (Forall class_fits (all_classes sample_reports)) as Hf.
  { repeat constructor; unfold counter_fits; vm_compute; discriminate. }
  split; [exact Hf|].
  pose proof (gaps_least_covered sample_reports 2 Hf) as Hg.
  destruct (coverage_gaps sample_reports 2) as [r| |] eqn:E; [|destruct Hg..].
  vm_compute in E. injection E as <-. split; [vm_compute; reflexivity|].
  destruct Hg as (all & kept & dropped & _ & _ & Hk & Hl & _). rewrite Hk, length_fmap. exact Hl.
Defined.
