(* ===== verification/Artifacts.v ===== *)
(** * Artifacts: coordinates, repository paths and sources JARs

    Models the naming rules of [src/index.rs]: exact coordinates, the Maven repository layout, the
    classifiers of sources JARs and where the sources of a JAR are looked for, the names of
    classes and of the entries of a sources JAR, and the containment of an artifact's path in the
    repository.  The file system is the class [RepositoryFiles]. *)

From S2P Require Import Prelude.
From S2P Require Import Text.
From S2P Require Import TextSearch.
From S2P Require Import Ordering.
From S2P Require Import Paths.

Open Scope N_scope.

(** ** Identities *)

Record ArtifactKey := {
  group_id : str;
  artifact_id : str;
  version : str;
}.
#[export] Instance ArtifactKey_eq_dec : EqDecision ArtifactKey.
Proof. solve_decision. Defined.
#[export] Instance ArtifactKey_countable : Countable ArtifactKey.
Proof.
  apply (inj_countable' (λ k, (group_id k, artifact_id k, version k))
           (λ '(g, a, v), {| group_id := g; artifact_id := a; version := v |})).
  by intros [].
Defined.

Record JarIdentity := {
  identity_key : ArtifactKey;
  identity_classifier : option str;
  identity_relative_path : str;
}.

(** [JarRecord::coordinate]. *)
Definition coordinate (key : ArtifactKey) (classifier : option str) : str :=
  join (lit ":") ([group_id key; artifact_id key; version key] ++ option_list classifier).

(** ** Exact coordinates *)

Definition bad_part (part : str) : bool :=
  bool_decide (part = []) || existsb (λ c, (c =? ch "/") || (c =? ch "\") || (c =? 0)) part
  || bool_decide (part = lit ".") || bool_decide (part = lit "..") || contains (lit "..") part.

Definition parse_exact_coordinate (text : str) : option ArtifactKey :=
  match split_char (ch ":") (trim text) with
  | [g; a; v] =>
      if bad_part g || bad_part a || bad_part v
         || existsb (λ piece, bool_decide (piece = [])) (split_char (ch ".") g)
      then None
      else Some {| group_id := g; artifact_id := a; version := v |}
  | _ => None
  end.

Definition validate_exact_coordinate (text : str) : bool := is_some (parse_exact_coordinate text).

(** ** The repository layout *)

(** [join(".")] of the components before the last three, and the name of the file. *)
Definition parse_coordinate (root p : path) : option (ArtifactKey * option str) :=
  if negb (path_starts_with root p) then None
  else
    let components := drop (length root) p in
    if (length components <? 4)%nat then None
    else
      file_name ← last components ≫= strip_suffix (lit ".jar");
      version ← components !! (length components - 2)%nat;
      artifact_id ← components !! (length components - 3)%nat;
      let group_id := join (lit ".") (take (length components - 3) components) in
      suffix ← strip_prefix (artifact_id ++ lit "-" ++ version) file_name;
      classifier ← match suffix with [] => Some None | _ => Some <$> strip_prefix (lit "-") suffix end;
      Some ({| group_id := group_id; artifact_id := artifact_id; version := version |}, classifier).

Definition relative_slash_path (root p : path) : str :=
  let relative := if path_starts_with root p then join (lit "/") (drop (length root) p)
                  else lit "/" ++ join (lit "/") p in
  replace_char (ch "\") (ch "/") relative.

Definition repository_identity (root p : path) : option JarIdentity :=
  '(key, classifier) ← parse_coordinate root p;
  Some {| identity_key := key; identity_classifier := classifier;
          identity_relative_path := relative_slash_path root p |}.

(** ** Classifiers *)

Definition SOURCES_CLASSIFIER : str := lit "sources".
Definition TESTS_CLASSIFIER : str := lit "tests".
Definition TEST_SOURCES_CLASSIFIER : str := lit "test-sources".
Definition OUTPUT_CLASSIFIER_SUFFIXES : list str :=
  [TEST_SOURCES_CLASSIFIER; SOURCES_CLASSIFIER; TESTS_CLASSIFIER].

Definition documented_classifier (classifier : option str) : option (option str) :=
  c ← classifier;
  if decide (c = SOURCES_CLASSIFIER) then Some None
  else if decide (c = TEST_SOURCES_CLASSIFIER) then Some (Some TESTS_CLASSIFIER)
  else
    match strip_suffix (lit "-sources") c with
    | Some (x :: documented) => Some (Some (x :: documented))
    | _ => None
    end.

(** [Path::with_file_name] of a path with a file name. *)
Definition with_file_name (p : path) (name : str) : path := removelast p ++ [name].

Definition source_jar_candidates (binary_jar : path) (classifier : option str) : list path :=
  match stem ← file_name binary_jar ≫= strip_suffix (lit ".jar");
        if ends_with (lit "-sources") stem then None else Some stem with
  | None => []
  | Some stem =>
      let sibling name := with_file_name binary_jar (name ++ lit ".jar") in
      let classified :=
        classifier ← classifier;
        base ← strip_suffix classifier stem;
        base ← strip_suffix (lit "-") base;
        Some (classifier, base) in
      match classified with
      | None => [sibling (stem ++ lit "-" ++ SOURCES_CLASSIFIER)]
      | Some (classifier, base) =>
          if decide (classifier = TESTS_CLASSIFIER)
          then [sibling (base ++ lit "-" ++ TEST_SOURCES_CLASSIFIER)]
          else [sibling (stem ++ lit "-" ++ SOURCES_CLASSIFIER);
                sibling (base ++ lit "-" ++ SOURCES_CLASSIFIER)]
      end
  end.

(** ** Outputs of the reactor *)

(** [ReactorLayout::output_module]: the last of the deepest modules whose [target] holds the
    path. *)
Definition deeper (a b : option path) : option path :=
  match a, b with
  | Some p, Some q => if (length p <=? length q)%nat then Some q else Some p
  | None, b => b
  | a, None => a
  end.
Definition output_module (root : path) (modules : list path) (p : path) : option path :=
  foldl (λ best m,
    if path_starts_with root m && path_starts_with (m ++ [lit "target"]) p
    then deeper best (Some m) else best) None modules.

(** The classifier of an output: [is_dir] and [is_file] are the answers for its path. *)
Definition output_classifier (key : ArtifactKey) (file_name : str) (is_dir is_file : bool) : option (option str) :=
  if is_dir then Some (if decide (file_name = lit "test-classes") then Some (lit "tests") else None)
  else
    stem ← (if is_file then strip_suffix (lit ".jar") file_name else None);
    let conventional := artifact_id key ++ lit "-" ++ version key in
    let by_suffix :=
      snd <$> list_find (λ c, ends_with (lit "-" ++ c) stem = true) OUTPUT_CLASSIFIER_SUFFIXES in
    Some match strip_prefix conventional stem with
         | Some [] => None
         | Some (c :: suffix) => if c =? ch "-" then Some suffix else by_suffix
         | None => by_suffix
         end.

Definition reactor_identity (key : option ArtifactKey) (reactor_root p : path) (is_dir is_file : bool)
    : option JarIdentity :=
  key ← key;
  file_name ← file_name p;
  classifier ← output_classifier key file_name is_dir is_file;
  Some {| identity_key := key; identity_classifier := classifier;
          identity_relative_path := relative_slash_path reactor_root p |}.

Inductive UnindexedReason :=
| Missing | OutsideRepositoryAndReactor | NotMavenRepositoryLayout | UnresolvedReactorCoordinate.

(** [scoped_identity]; [module_coordinate] reads the coordinate of a module's POM. *)
Definition scoped_identity (repository_root : option path) (reactor_root : path) (modules : list path)
    (module_coordinate : path → option ArtifactKey) (p : path) (is_dir is_file : bool)
    : JarIdentity + UnindexedReason :=
  match
    match repository_root with
    | Some root => if path_starts_with root p then Some root else None
    | None => None
    end
  with
  | Some root =>
      match repository_identity root p with Some i => inl i | None => inr NotMavenRepositoryLayout end
  | None =>
      match output_module reactor_root modules p with
      | None => inr OutsideRepositoryAndReactor
      | Some module =>
          match reactor_identity (module_coordinate module) reactor_root p is_dir is_file with
          | Some i => inl i
          | None => inr UnresolvedReactorCoordinate
          end
      end
  end.

(** ** Names of classes and members *)

(** [trim_end_matches(".class")]: as often as it ends the text. *)
Definition trim_end_str (p s : str) : str := reverse (trim_start_str (reverse p) (reverse s)).

Definition normalize_class_query (value : str) : str :=
  replace_char (ch "\") (ch ".") (replace_char (ch "/") (ch ".") (trim_end_str (lit ".class") (trim value))).

Definition class_name_from_entry (entry : str) : option str :=
  class ← strip_suffix (lit ".class") entry;
  if bool_decide (class = lit "module-info") || ends_with (lit "/module-info") class
     || ends_with (lit "package-info") class
  then None
  else Some (replace_char (ch "/") (ch ".") class).

Definition binary_name (value : str) : str := replace_char (ch "/") (ch ".") value.

Definition normalize_constant_class (class_name : str) : option str :=
  if starts_with (lit "[") class_name then
    class ← strip_prefix (lit "L") (trim_start_matches (N.eqb (ch "[")) class_name);
    class ← strip_suffix (lit ";") class;
    Some (binary_name class)
  else Some (binary_name class_name).

Definition annotation_name (type_descriptor : str) : str :=
  replace_char (ch "/") (ch ".")
    (trim_end_matches (N.eqb (ch ";")) (trim_start_matches (N.eqb (ch "L")) type_descriptor)).

Definition rsplit_once (c : char) (s : str) : option (str * str) := rsplit_once_str [c] s.

Definition normalize_member_name (value : str) : str :=
  let value := trim value in
  match rsplit_once (ch "#") value with
  | Some (_, name) => name
  | None => match rsplit_once (ch ".") value with Some (_, name) => name | None => value end
  end.

Definition is_checksum_file (file_name : str) : bool :=
  existsb (λ suffix, ends_with (lit suffix) file_name) [".md5"; ".sha1"; ".sha256"; ".sha512"]%string.

Definition is_text_resource (entry : str) : bool :=
  bool_decide (entry = lit "META-INF/MANIFEST.MF") || starts_with (lit "META-INF/services/") entry
  || match rsplit_once (ch ".") entry with
     | Some (_, extension) =>
         existsb (λ e, bool_decide (extension = lit e))
           ["conf"; "config"; "factories"; "imports"; "json"; "list"; "properties"; "txt"; "xml"; "yaml"; "yml"]%string
     | None => false
     end.

(** The kind, the classifier and the readability of a file in an artifact's directory;
    [opens_as_zip] tries a JAR. *)
Record ArtifactFileStatus := {
  status_file_name : str;
  status_kind : str;
  status_classifier : option str;
  readable : option bool;
}.
Definition artifact_file_status (key : ArtifactKey) (file_name : str) (opens_as_zip : bool)
    : option ArtifactFileStatus :=
  '(stem, extension) ← rsplit_once (ch ".") file_name;
  if negb (existsb (λ e, bool_decide (extension = lit e)) ["jar"; "pom"; "module"; "xml"]%string) then None
  else
    let expected_stem := artifact_id key ++ lit "-" ++ version key in
    let classifier :=
      match suffix ← strip_prefix expected_stem stem; strip_prefix (lit "-") suffix with
      | Some (c :: suffix) => Some (c :: suffix)
      | _ => if decide (stem = expected_stem) then None else Some (lit "snapshot_variant")
      end in
    Some {| status_file_name := file_name; status_kind := extension; status_classifier := classifier;
            readable := if decide (extension = lit "jar") then Some opens_as_zip else None |}.

(** ** The entries of a sources JAR *)

Record SourceEntryNames := {
  names : list str;
  allow_source_set_prefix : bool;
}.

(** The text up to and with the last slash, or nothing. *)
Definition package_directory (outer_path : str) : str :=
  match rsplit_once (ch "/") outer_path with
  | Some (directory, _) => directory ++ lit "/"
  | None => []
  end.

Definition push_new (names : list str) (name : str) : list str :=
  if decide (name ∈ names) then names else names ++ [name].

Definition source_entry_names (class_name : str) (source_file : option str) : SourceEntryNames :=
  let outer_class := default class_name (head (split_char (ch "$") class_name)) in
  let outer_path := replace_char (ch ".") (ch "/") outer_class in
  let directory := package_directory outer_path in
  let names := match source_file with Some f => [directory ++ f] | None => [] end in
  {| names := push_new (push_new names (outer_path ++ lit ".java")) (outer_path ++ lit ".kt");
     allow_source_set_prefix := negb (bool_decide (directory = [])) |}.

Definition primary (n : SourceEntryNames) : str := default [] (head (names n)).

Definition has_directory_prefix (entry name : str) : bool :=
  match rest ← strip_suffix name entry; strip_suffix (lit "/") rest with
  | Some (_ :: _) => true
  | _ => false
  end.

Fixpoint rank_from (index : nat) (allow : bool) (names : list str) (entry : str) : option nat :=
  match names with
  | [] => None
  | name :: names =>
      if decide (entry = name) then Some (2 * index)%nat
      else if allow && has_directory_prefix entry name then Some (2 * index + 1)%nat
      else rank_from (S index) allow names entry
  end.
Definition rank (n : SourceEntryNames) (entry : str) : option nat :=
  rank_from 0 (allow_source_set_prefix n) (names n) entry.

(** ** The directory of an artifact *)

Inductive FsError := NotFound | OtherError.

(** [canonicalize] and [symlink_metadata] (whether the path is a symbolic link); [read_link]
    gives the target and whether it is absolute. *)
Class RepositoryFiles := {
  canonicalize : path → path + FsError;
  symlink_metadata : path → bool + FsError;
  read_link : path → option (bool * path);
}.

Inductive ArtifactPathError := CannotAccess | CannotInspect | ArtifactOutsideRepository.

Definition MAX_SYMLINK_HOPS : nat := 40.

Section Contained.
Context `{RepositoryFiles}.

(** The deepest existing ancestor of a path, and whether it is a link. *)
Fixpoint existing_ancestor (levels : nat) (p : path) : (path * bool) + ArtifactPathError :=
  match symlink_metadata p with
  | inl is_link => inl (p, is_link)
  | inr OtherError => inr CannotInspect
  | inr NotFound =>
      match levels, p with
      | S levels, _ :: _ => existing_ancestor levels (removelast p)
      | _, _ => inr ArtifactOutsideRepository
      end
  end.

Fixpoint follow_link (hops : nat) (link canonical_root : path) : unit + ArtifactPathError :=
  match hops with
  | O => inr ArtifactOutsideRepository
  | S hops =>
      match read_link link with
      | None => inr CannotInspect
      | Some (absolute, target) =>
          let target :=
            if absolute : bool then target
            else match link with [] => canonical_root | _ => removelast link end ++ target in
          match existing_ancestor (length target) target with
          | inr e => inr e
          | inl (existing, is_link) =>
              match canonicalize existing with
              | inl resolved =>
                  if path_starts_with canonical_root resolved then inl () else inr ArtifactOutsideRepository
              | inr NotFound => if is_link then follow_link hops existing canonical_root else inr CannotInspect
              | inr OtherError => inr CannotInspect
              end
          end
      end
  end.
Definition ensure_dangling_symlink_contained (link canonical_root : path) : unit + ArtifactPathError :=
  follow_link MAX_SYMLINK_HOPS link canonical_root.

Fixpoint descend (canonical_root current : path) (components : list str) : option path + ArtifactPathError :=
  match components with
  | [] => inl (Some current)
  | component :: components =>
      let next := current ++ [component] in
      match symlink_metadata next with
      | inr NotFound => inl None
      | inr OtherError => inr CannotInspect
      | inl is_link =>
          match canonicalize next with
          | inl resolved =>
              if path_starts_with canonical_root resolved then descend canonical_root resolved components
              else inr ArtifactOutsideRepository
          | inr NotFound =>
              if is_link then
                match ensure_dangling_symlink_contained next canonical_root with
                | inr e => inr e
                | inl () => inl None
                end
              else inl None
          | inr OtherError => inr CannotInspect
          end
      end
  end.

Definition contained_artifact_path (root : path) (key : ArtifactKey) (file_name : option str)
    : option path + ArtifactPathError :=
  match canonicalize root with
  | inr NotFound => inl None
  | inr OtherError => inr CannotAccess
  | inl canonical_root =>
      descend canonical_root canonical_root
        (split_char (ch ".") (group_id key) ++ [artifact_id key; version key] ++ option_list file_name)
  end.

Definition exact_binary_jar_path (is_file : path → bool) (root : path) (key : ArtifactKey)
    : option path + ArtifactPathError :=
  match contained_artifact_path root key (Some (artifact_id key ++ lit "-" ++ version key ++ lit ".jar")) with
  | inr e => inr e
  | inl found => inl (p ← found; if is_file p then Some p else None)
  end.
End Contained.

(** ** Exact coordinates *)

Lemma join_split c s : join [c] (split_char c s) = s.
Proof.
  unfold split_char. induction s as [|x s IH]; [done|]. cbn [split_at].
  pose proof (split_at_ne (N.eqb c) s) as Hne. destruct (N.eqb_spec c x) as [<-|Hx].
  - destruct (split_at (N.eqb c) s) as [|p l]; [done|].
    change (join [c] ([] :: p :: l)) with (c :: join [c] (p :: l)). by rewrite IH.
  - destruct (split_at (N.eqb c) s) as [|p [|q l]]; [done| |].
    + simpl in *. by rewrite IH.
    + change (join [c] ((x :: p) :: q :: l)) with (x :: join [c] (p :: q :: l)). by rewrite IH.
Qed.

Lemma split_pieces c s : Forall (λ p, c ∉ p) (split_char c s).
Proof.
  unfold split_char. induction s as [|x s IH]; cbn [split_at]; [by repeat constructor; apply not_elem_of_nil|].
  destruct (N.eqb_spec c x) as [<-|Hx]; [constructor; [apply not_elem_of_nil|done]|].
  destruct (split_at (N.eqb c) s) as [|p l]; [constructor; [set_solver|constructor]|].
  inversion IH; subst. constructor; [set_solver|done].
Qed.

Lemma split_join c l :
  l ≠ [] → Forall (λ s, c ∉ s) l → split_char c (join [c] l) = l.
Proof.
  intros Hne Hl. induction Hl as [|s l Hs Hl IH]; [done|].
  assert (Forall (λ x, (c =? x) = false) s) as Hs'.
  { rewrite Forall_forall. intros x Hx. apply N.eqb_neq. by intros ->. }
  destruct l as [|s2 l]; [by apply split_at_last|].
  change (join [c] (s :: s2 :: l)) with (s ++ c :: join [c] (s2 :: l)).
  unfold split_char in *. rewrite split_at_piece; [by rewrite IH|done|apply N.eqb_refl].
Qed.

(** A component that names something below its directory. *)
Definition plain_component (c : str) : Prop :=
  c ≠ [] ∧ c ≠ lit "." ∧ c ≠ lit ".." ∧ ch "/" ∉ c ∧ ch "\" ∉ c ∧ 0 ∉ c.

Definition exact_key (k : ArtifactKey) : Prop :=
  Forall (λ part, bad_part part = false ∧ ch ":" ∉ part) [group_id k; artifact_id k; version k] ∧
  Forall (λ piece, piece ≠ []) (split_char (ch ".") (group_id k)).

Lemma bad_part_plain part : bad_part part = false → plain_component part.
Proof.
  unfold bad_part, plain_component. rewrite !orb_false_iff, !bool_decide_eq_false.
  intros ((((Hne & Hch) & H1) & H2) & _). apply existsb_false_Forall in Hch. rewrite Forall_forall in Hch.
  assert (∀ c, c ∈ part → (c =? ch "/") || (c =? ch "\") || (c =? 0) = false) as Hin by auto.
  split_and!; try done; intros Hc%Hin; rewrite N.eqb_refl, ?orb_true_r in Hc; done.
Qed.

(** Exact coordinates are parsed exactly: a text is accepted as a coordinate if and only if,
    trimmed, it is [group:artifact:version] of a key whose parts are plain names; and the
    directory such a key names below a repository is made of plain components only, none of
    which is empty, a dot, two dots, or holds a separator or a NUL. *)
Theorem exact_coordinate_iff text k :
  (parse_exact_coordinate text = Some k ↔ trim text = coordinate k None ∧ exact_key k) ∧
  (exact_key k → Forall plain_component (split_char (ch ".") (group_id k) ++ [artifact_id k; version k])).
Proof.
  split; [split|].
  - unfold parse_exact_coordinate. intros Hp.
    pose proof (join_split (ch ":") (trim text)) as Hj. pose proof (split_pieces (ch ":") (trim text)) as Hs.
    destruct (split_char (ch ":") (trim text)) as [|g [|a [|v [|]]]]; try done.
    destruct (bad_part g || bad_part a || bad_part v || _) eqn:E; [done|]. injection Hp as <-.
    rewrite !orb_false_iff in E. destruct E as (((Hg & Ha) & Hv) & Hpieces).
    split; [by rewrite <- Hj|]. rewrite !Forall_cons in Hs. destruct Hs as (? & ? & ? & _). split.
    + by repeat constructor.
    + simpl. apply Forall_forall. intros piece Hin ->. revert Hpieces. apply not_false_iff_true.
      apply existsb_exists. exists []. split; [by apply list_elem_of_In|done].
  - intros [Ht [Hparts Hpieces]]. unfold parse_exact_coordinate. rewrite Ht.
    rewrite !Forall_cons in Hparts. destruct Hparts as ((Hg & Hgc) & (Ha & Hac) & (Hv & Hvc) & _).
    unfold coordinate. simpl app. change (lit ":") with [ch ":"].
    rewrite split_join by (done || by repeat constructor). rewrite Hg, Ha, Hv. simpl.
    destruct (existsb _ _) eqn:E; [|by destruct k].
    apply existsb_exists in E as (piece & Hin%list_elem_of_In & ->%bool_decide_eq_true).
    rewrite Forall_forall in Hpieces. by destruct (Hpieces [] Hin).
  - intros [Hparts Hpieces]. rewrite !Forall_cons in Hparts.
    destruct Hparts as ((Hg & _) & (Ha & _) & (Hv & _) & _).
    apply Forall_app. split; [|by repeat constructor; apply bad_part_plain].
    pose proof (bad_part_plain _ Hg) as (_ & _ & _ & Hs1 & Hs2 & Hs3).
    rewrite Forall_forall in Hpieces |- *. intros piece Hin.
    assert (∀ c, c ∈ piece → c ∈ group_id k) as Hsub.
    { intros c Hc. rewrite <- (join_split (ch ".") (group_id k)).
      apply list_elem_of_split in Hin as (l1 & l2 & ->).
      clear -Hc. induction l1 as [|s l1 IH]; simpl app.
      - destruct l2; simpl; set_solver.
      - destruct (l1 ++ piece :: l2) eqn:E; [by apply app_nil in E as [_ ?]|].
        change (join [ch "."] (s :: l :: l0)) with (s ++ ch "." :: join [ch "."] (l :: l0)). set_solver. }
    assert (ch "." ∉ piece) as Hdot.
    { pose proof (split_pieces (ch ".") (group_id k)) as HF. rewrite Forall_forall in HF. auto. }
    split; [auto|]. split_and!; [intros ->; apply Hdot; decide_now|intros ->; apply Hdot; decide_now|naive_solver..].
Qed.

(** ** The repository layout *)

Definition jar_stem (k : ArtifactKey) (classifier : option str) : str :=
  artifact_id k ++ lit "-" ++ version k ++ match classifier with Some c => lit "-" ++ c | None => [] end.
Definition artifact_path (k : ArtifactKey) (classifier : option str) : path :=
  split_char (ch ".") (group_id k) ++ [artifact_id k; version k; jar_stem k classifier ++ lit ".jar"].

Lemma path_starts_with_app root p : path_starts_with root (root ++ p) = true.
Proof. apply path_starts_with_spec. eauto. Qed.

Lemma parse_artifact_path root k suffix classifier :
  match suffix with [] => Some None | _ => Some <$> strip_prefix (lit "-") suffix end = Some classifier →
  parse_coordinate root (root ++ split_char (ch ".") (group_id k) ++
    [artifact_id k; version k; (artifact_id k ++ lit "-" ++ version k) ++ suffix ++ lit ".jar"])
  = Some (k, classifier).
Proof.
  intros Hs. unfold parse_coordinate. rewrite path_starts_with_app. simpl negb. cbn [mbind option_bind].
  rewrite drop_app_length. set (g := split_char (ch ".") (group_id k)). set (name := _ ++ suffix ++ _).
  assert (g ≠ []) as Hne by apply split_at_ne.
  assert (length (g ++ [artifact_id k; version k; name]) = length g + 3)%nat as Hlen by by rewrite length_app.
  rewrite Hlen. assert (0 < length g)%nat by (destruct g; [done|simpl; lia]).
  destruct (Nat.ltb_spec (length g + 3) 4); [lia|].
  rewrite last_app. simpl last. cbn [mbind option_bind].
  assert (strip_suffix (lit ".jar") name = Some ((artifact_id k ++ lit "-" ++ version k) ++ suffix)) as ->.
  { unfold name. rewrite app_assoc. apply strip_suffix_app. }
  rewrite !lookup_app_r by lia.
  replace (length g + 3 - 2 - length g)%nat with 1%nat by lia.
  replace (length g + 3 - 3 - length g)%nat with 0%nat by lia. simpl lookup. cbn [mbind option_bind].
  replace (length g + 3 - 3)%nat with (length g) by lia. rewrite take_app_length, strip_prefix_app.
  cbn [mbind option_bind]. rewrite Hs. cbn [mbind option_bind]. unfold g. change (lit ".") with [ch "."].
  rewrite join_split. by destruct k.
Qed.

(** The repository layout round trips: for every key and classifier, the path at which Maven
    stores the JAR below any repository root is read back as that key and classifier. *)
Theorem repository_layout_round_trip root k classifier :
  parse_coordinate root (root ++ artifact_path k classifier) = Some (k, classifier).
Proof.
  unfold artifact_path, jar_stem. set (suffix := match classifier with Some c => _ | None => [] end).
  pose proof (parse_artifact_path root k suffix classifier) as Hp.
  rewrite <- !app_assoc in Hp. rewrite <- !app_assoc. apply Hp. unfold suffix.
  destruct classifier as [c|]; [|done]. by rewrite strip_prefix_app.
Qed.

(** ** The sources of a JAR *)

Lemma documented_sources c :
  c ≠ [] → c ≠ lit "test" → documented_classifier (Some (c ++ lit "-sources")) = Some (Some c).
Proof.
  intros Hne Ht. unfold documented_classifier. simpl mbind. cbn [mbind option_bind].
  rewrite decide_False.
  2: { intros Heq. apply (f_equal length) in Heq. rewrite length_app in Heq. destruct c; [done|]. simpl in Heq. lia. }
  rewrite decide_False.
  2: { intros Heq. apply Ht. change TEST_SOURCES_CLASSIFIER with (lit "test" ++ lit "-sources") in Heq.
       by apply app_inv_tail in Heq. }
  rewrite strip_suffix_app. by destruct c.
Qed.

Lemma with_file_name_path root k name classifier :
  with_file_name (root ++ artifact_path k classifier) name
  = root ++ split_char (ch ".") (group_id k) ++ [artifact_id k; version k; name].
Proof.
  unfold with_file_name, artifact_path. rewrite !app_assoc.
  change [artifact_id k; version k; ?x] with ([artifact_id k; version k] ++ [x]).
  rewrite !app_assoc, removelast_last. by rewrite <- !app_assoc.
Qed.

(** The sources JARs looked for next to a repository JAR are sources of it: for a binary JAR
    with any classifier but [test], every candidate is a JAR of the same artifact whose own
    classifier marks it as the sources of that classifier or, except for [tests], of the
    unclassified artifact; there is a candidate, and the first one documents the classifier
    itself. *)
Theorem candidates_document root k classifier :
  documented_classifier classifier = None → classifier ≠ Some [] → classifier ≠ Some (lit "test") →
  ends_with (lit "-sources") (jar_stem k classifier) = false →
  ∃ first rest,
    source_jar_candidates (root ++ artifact_path k classifier) classifier = first :: rest ∧
    (∃ sc, parse_coordinate root first = Some (k, sc) ∧ documented_classifier sc = Some classifier) ∧
    ∀ p, p ∈ rest → classifier ≠ Some TESTS_CLASSIFIER ∧
      ∃ sc, parse_coordinate root p = Some (k, sc) ∧ documented_classifier sc = Some None.
Proof.
  intros Hd Hne Ht Hends. unfold source_jar_candidates.
  assert (file_name (root ++ artifact_path k classifier) = Some (jar_stem k classifier ++ lit ".jar")) as ->.
  { unfold file_name, artifact_path. by rewrite app_assoc, last_app. }
  cbn [mbind option_bind]. rewrite strip_suffix_app. cbn [mbind option_bind]. rewrite Hends.
  assert (∀ suffix sc, match suffix with [] => Some None | _ => Some <$> strip_prefix (lit "-") suffix end = Some sc →
    parse_coordinate root (with_file_name (root ++ artifact_path k classifier)
      (((artifact_id k ++ lit "-" ++ version k) ++ suffix) ++ lit ".jar")) = Some (k, sc)) as Hparse.
  { intros suffix sc Hs. rewrite with_file_name_path, <- (app_assoc _ suffix). by apply parse_artifact_path. }
  destruct classifier as [c|]; cbn [mbind option_bind].
  - assert (jar_stem k (Some c) = (artifact_id k ++ lit "-" ++ version k) ++ lit "-" ++ c) as Hstem
      by (unfold jar_stem; by rewrite <- !app_assoc).
    assert (strip_suffix c (jar_stem k (Some c)) = Some ((artifact_id k ++ lit "-" ++ version k) ++ lit "-")) as ->
      by (rewrite Hstem, app_assoc; apply strip_suffix_app).
    cbn [mbind option_bind].
    rewrite strip_suffix_app. cbn [mbind option_bind]. case_decide as Htests.
    + subst c. eexists _, []. split; [done|]. split; [|intros p Hp; by apply elem_of_nil in Hp].
      exists (Some TEST_SOURCES_CLASSIFIER). split; [|done]. apply (Hparse (lit "-" ++ TEST_SOURCES_CLASSIFIER)).
      by rewrite strip_prefix_app.
    + eexists _, [_]. split; [done|]. split.
      * exists (Some (c ++ lit "-sources")). split.
        -- rewrite Hstem. pose proof (Hparse (lit "-" ++ c ++ lit "-" ++ SOURCES_CLASSIFIER)) as Hp.
           rewrite <- !app_assoc in Hp |- *. apply Hp. by rewrite strip_prefix_app.
        -- apply documented_sources; congruence.
      * intros p ->%list_elem_of_singleton. split; [congruence|].
        exists (Some SOURCES_CLASSIFIER). split; [|done]. apply (Hparse (lit "-" ++ SOURCES_CLASSIFIER)).
        by rewrite strip_prefix_app.
  - eexists _, []. split; [done|]. split; [|intros p Hp; by apply elem_of_nil in Hp].
    exists (Some SOURCES_CLASSIFIER). split; [|done].
    pose proof (Hparse (lit "-" ++ SOURCES_CLASSIFIER) (Some SOURCES_CLASSIFIER)) as Hp.
    unfold jar_stem. rewrite app_nil_r. apply Hp. by rewrite strip_prefix_app.
Qed.

Definition sample_key : ArtifactKey := {| group_id := lit "org.slf4j"; artifact_id := lit "api"; version := lit "1.7" |}.

Lemma candidates_document_witness :
  source_jar_candidates ([lit "repo"] ++ artifact_path sample_key (Some (lit "jdk8"))) (Some (lit "jdk8"))
  = [[lit "repo"; lit "org"; lit "slf4j"; lit "api"; lit "1.7"; lit "api-1.7-jdk8-sources.jar"];
     [lit "repo"; lit "org"; lit "slf4j"; lit "api"; lit "1.7"; lit "api-1.7-sources.jar"]] ∧
  ∃ first rest,
    source_jar_candidates ([lit "repo"] ++ artifact_path sample_key (Some (lit "jdk8"))) (Some (lit "jdk8")) = first :: rest ∧
    ∃ sc, parse_coordinate [lit "repo"] first = Some (sample_key, sc) ∧
      documented_classifier sc = Some (Some (lit "jdk8")).
Proof.
  split; [vm_compute; reflexivity|].
  destruct (candidates_document [lit "repo"] sample_key (Some (lit "jdk8"))) as (first & rest & Hc & Hf & _);
    [vm_compute; reflexivity|discriminate|discriminate|vm_compute; reflexivity|].
  exists first, rest. split; [exact Hc|exact Hf].
Defined.

(** The classifier [test] is the exception: the sources JAR looked for first, [test-sources],
    is read as the sources of the [tests] artifact, so it is never matched with the JAR it was
    looked for. *)
Theorem test_classifier_sources :
  ∃ first rest, source_jar_candidates ([lit "repo"] ++ artifact_path sample_key (Some (lit "test"))) (Some (lit "test")) = first :: rest ∧
    parse_coordinate [lit "repo"] first = Some (sample_key, Some (lit "test-sources")) ∧
    documented_classifier (Some (lit "test-sources")) = Some (Some (lit "tests")).
Proof. do 2 eexists. split; [vm_compute; reflexivity|]. split; vm_compute; reflexivity. Qed.

(** ** Containment *)

Section Containment.
Context `{RepositoryFiles}.

Lemma descend_contained root current components p :
  path_starts_with root current = true → descend root current components = inl (Some p) →
  path_starts_with root p = true.
Proof.
  revert current. induction components as [|c components IH]; intros current Hc; cbn [descend].
  - by intros [= <-].
  - destruct (symlink_metadata _) as [is_link|[]]; [|done..].
    destruct (canonicalize _) as [resolved|[]].
    + destruct (path_starts_with root resolved) eqn:E; [|done]. by apply IH.
    + destruct is_link; [|done]. by destruct (ensure_dangling_symlink_contained _ _) as [[]|].
    + done.
Qed.

Lemma contained_below root k file_name p :
  contained_artifact_path root k file_name = inl (Some p) →
  ∃ canonical_root, canonicalize root = inl canonical_root ∧ path_starts_with canonical_root p = true.
Proof.
  unfold contained_artifact_path. destruct (canonicalize root) as [canonical_root|[]]; [|done..].
  intros Hd. exists canonical_root. split; [done|]. eapply descend_contained; [|exact Hd].
  rewrite <- (app_nil_r canonical_root) at 2. apply path_starts_with_app.
Qed.

(** An artifact is only ever read inside the repository: whatever links the repository holds,
    the path found for a key, or for a file of its directory, resolves below the canonical root of
    the repository. *)
Theorem artifact_contained root k file_name p :
  contained_artifact_path root k file_name = inl (Some p) →
  ∃ canonical_root, canonicalize root = inl canonical_root ∧ path_starts_with canonical_root p = true.
Proof. apply contained_below. Qed.
End Containment.

#[local] Instance sample_repository : RepositoryFiles := {|
  canonicalize p := inl p;
  symlink_metadata _ := inl false;
  read_link _ := None;
|}.
Definition sample_artifact_dir : path := [lit "repo"; lit "org"; lit "slf4j"; lit "api"; lit "1.7"].
Lemma artifact_contained_witness :
  @contained_artifact_path sample_repository [lit "repo"] sample_key None = inl (Some sample_artifact_dir) ∧
  ∃ canonical_root, canonicalize [lit "repo"] = inl canonical_root ∧ path_starts_with canonical_root sample_artifact_dir = true.
Proof.
  assert (@contained_artifact_path sample_repository [lit "repo"] sample_key None = inl (Some sample_artifact_dir)) as H
    by (vm_compute; reflexivity).
  split; [exact H|]. exact (artifact_contained [lit "repo"] sample_key None sample_artifact_dir H).
Defined.
