(* ===== verification/ClassEntries.v ===== *)
(** * ClassEntries: what is indexed of one archive

    Models the part of [src/index.rs] that decides what the index holds of one JAR or class
    directory: the effective classfile of every class of a multi-release archive, the flag in its
    manifest, the names of its classes, the providers its descriptors declare, the pool of fact
    strings, and the budgets of entries and names.  Opening archives and parsing classfiles is
    library code; their results are arguments. *)

From S2P Require Import Prelude.
From S2P Require Import Text.
From S2P Require Import TextSearch.
From S2P Require Import Ordering.
From S2P Require Import Paths.
From S2P Require Import Artifacts.

Open Scope N_scope.

(** ** Effective classfiles *)

Definition VERSIONED_ENTRY_PREFIX : str := lit "META-INF/versions/".
Definition MIN_MULTI_RELEASE_VERSION : N := 9.
Definition MAX_MANIFEST_BYTES : N := 1048576.
Definition u32_max : N := 2 ^ 32 - 1.

(** The version and the logical path of a class entry, when it may be selected. *)
Definition candidate_version (multi_release : bool) (entry : str) : option (N * str) :=
  match strip_prefix VERSIONED_ENTRY_PREFIX entry with
  | None => Some (0, entry)
  | Some rest =>
      if negb multi_release then None
      else
        '(version, logical) ← split_once (ch "/") rest;
        if bool_decide (version = []) || starts_with (lit "0") version
           || negb (forallb is_ascii_digit version)
        then None
        else
          version ← parse_unsigned u32_max version;
          if version <? MIN_MULTI_RELEASE_VERSION then None else Some (version, logical)
  end.

Definition add_candidate (multi_release : bool) (selected : gmap str (N * str)) (entry : str)
    : gmap str (N * str) :=
  match candidate_version multi_release entry with
  | None => selected
  | Some (version, logical) =>
      match selected !! logical with
      | None => <[logical := (version, entry)]> selected
      | Some candidate =>
          if candidate.1 <? version then <[logical := (version, entry)]> selected else selected
      end
  end.

Definition effective_class_entries (entries : list str) (multi_release : bool) : gmap str str :=
  snd <$> foldl (add_candidate multi_release) ∅ (filter (λ e, ends_with (lit ".class") e = true) entries).

(** ** The manifest *)

(** The lines of a manifest: they end with CRLF, LF, or a CR not followed by LF. *)
Fixpoint manifest_lines_from (line rest : str) : list str :=
  match rest with
  | [] => match line with [] => [] | _ => [line] end
  | c :: rest' =>
      if c =? 13 then
        match rest' with
        | d :: rest'' => if d =? 10 then line :: manifest_lines_from [] rest''
                         else line :: manifest_lines_from [] rest'
        | [] => line :: manifest_lines_from [] rest'
        end
      else if c =? 10 then line :: manifest_lines_from [] rest'
      else manifest_lines_from (line ++ [c]) rest'
  end.
Definition manifest_lines (manifest : str) : list str := manifest_lines_from [] manifest.

(** The lines of the main section, each with its continuation lines. *)
Fixpoint unfold_lines (unfolded : list str) (lines : list str) : list str :=
  match lines with
  | [] => unfolded
  | [] :: _ => unfolded
  | line :: lines =>
      match strip_prefix (lit " ") line, last unfolded with
      | Some continuation, Some previous =>
          unfold_lines (removelast unfolded ++ [previous ++ continuation]) lines
      | _, _ => unfold_lines (unfolded ++ [line]) lines
      end
  end.

Definition declares_multi_release (line : str) : bool :=
  match split_once (ch ":") line with
  | Some (name, value) =>
      eq_ignore_ascii_case (trim name) (lit "Multi-Release")
      && eq_ignore_ascii_case (trim value) (lit "true")
  | None => false
  end.

Definition manifest_declares_multi_release (manifest : str) : bool :=
  existsb declares_multi_release (unfold_lines [] (manifest_lines manifest)).

(** [read_entry] gives the text of an entry, cut at [MAX_MANIFEST_BYTES]. *)
Definition read_multi_release_flag (read_entry : str → option str) (entries : list str) : bool :=
  match snd <$> list_find (λ e, eq_ignore_ascii_case e (lit "META-INF/MANIFEST.MF") = true) entries with
  | None => false
  | Some manifest_path =>
      match read_entry manifest_path with
      | None => false
      | Some text => manifest_declares_multi_release text
      end
  end.

Record JarIndex := {
  classes : list str;
  entries : list str;
  class_entries : gmap str str;
  multi_release : bool;
}.

Definition read_jar_index_from (read_entry : str → option str) (entries : list str) : JarIndex :=
  let multi_release := read_multi_release_flag read_entry entries in
  let class_entries := effective_class_entries entries multi_release in
  {| classes := dedup (sort (omap class_name_from_entry (sorted_entries class_entries).*1));
     entries := entries; class_entries := class_entries; multi_release := multi_release |}.

(** ** Providers *)

Inductive ProviderDescriptorKind :=
| ServiceLoader | ModuleUses | ModuleProvides | SpringFactories | SpringImports.
#[export] Instance ProviderDescriptorKind_eq_dec : EqDecision ProviderDescriptorKind.
Proof. solve_decision. Defined.
Definition kind_rank (k : ProviderDescriptorKind) : N :=
  match k with
  | ServiceLoader => 0 | ModuleUses => 1 | ModuleProvides => 2 | SpringFactories => 3 | SpringImports => 4
  end.

Record IndexedProvider := {
  service : str;
  provider : option str;
  descriptor_kind : ProviderDescriptorKind;
  provider_entry : str;
}.
#[export] Instance IndexedProvider_eq_dec : EqDecision IndexedProvider.
Proof. solve_decision. Defined.
#[export] Instance IndexedProvider_ord : Ord IndexedProvider := λ a b,
  cmp (service a, (provider a, (kind_rank (descriptor_kind a), provider_entry a)))
      (service b, (provider b, (kind_rank (descriptor_kind b), provider_entry b))).
#[export] Instance IndexedProvider_ord_laws : OrdLaws IndexedProvider.
Proof.
  split; unfold cmp, IndexedProvider_ord.
  - intros [s1 p1 k1 e1] [s2 p2 k2 e2]. rewrite cmp_eq. simpl. split; [|by intros [= -> -> -> ->]].
    intros [= -> -> Hk ->]. by destruct k1, k2.
  - intros a b. apply cmp_antisym.
  - intros a b c. apply cmp_lt_trans.
Qed.

Definition is_plain_word (value : str) : bool :=
  negb (bool_decide (value = [])) && negb (existsb is_whitespace value).

Definition clean_descriptor_line (line : str) : option str :=
  value ← trim <$> head (split_char (ch "#") line);
  if is_plain_word value then Some value else None.

Definition collect_line_providers (service text : str) (kind : ProviderDescriptorKind) (entry : str)
    (providers : list IndexedProvider) : list IndexedProvider :=
  foldl (λ providers provider,
    set_insert {| service := service; provider := Some provider; descriptor_kind := kind;
                  provider_entry := entry |} providers)
    providers (omap clean_descriptor_line (lines text)).

(** One line of a properties file: [logical] is the logical line read so far. *)
Definition factories_providers (entry logical : str) (providers : list IndexedProvider) : list IndexedProvider :=
  match split_once (ch "=") logical with
  | None => providers
  | Some (service, values) =>
      foldl (λ providers provider,
        set_insert {| service := trim service; provider := Some provider;
                      descriptor_kind := SpringFactories; provider_entry := entry |} providers)
        providers (filter (λ v, is_plain_word v = true) (trim <$> split_char (ch ",") values))
  end.

Definition factories_line (entry : str) (s : str * list IndexedProvider) (raw_line : str)
    : str * list IndexedProvider :=
  let (logical, providers) := s in
  let line := trim raw_line in
  if bool_decide (line = []) || starts_with (lit "#") line then (logical, providers)
  else
    let logical := logical ++ trim_end_matches (N.eqb (ch "\")) line in
    if ends_with (lit "\") line then (logical, providers)
    else ([], factories_providers entry logical providers).

Definition collect_spring_factories (text entry : str) (providers : list IndexedProvider) : list IndexedProvider :=
  (foldl (factories_line entry) ([], providers) (lines text)).2.

Definition is_provider_descriptor (entry : str) : bool :=
  starts_with (lit "META-INF/services/") entry || bool_decide (entry = lit "META-INF/spring.factories")
  || (starts_with (lit "META-INF/spring/") entry && ends_with (lit ".imports") entry).

Definition collect_text_providers (entry text : str) (providers : list IndexedProvider) : list IndexedProvider :=
  match strip_prefix (lit "META-INF/services/") entry with
  | Some service => collect_line_providers service text ServiceLoader entry providers
  | None =>
      if decide (entry = lit "META-INF/spring.factories")
      then collect_spring_factories text entry providers
      else
        match name ← strip_prefix (lit "META-INF/spring/") entry; strip_suffix (lit ".imports") name with
        | Some service => collect_line_providers service text SpringImports entry providers
        | None => providers
        end
  end.

(** The [Module] attribute of a parsed [module-info]. *)
Record ModuleAttribute := {
  uses : list str;
  provides : list (str * list str);
}.
Definition collect_module_providers (modules : list ModuleAttribute) (entry : str)
    (providers : list IndexedProvider) : list IndexedProvider :=
  foldl (λ providers m,
    let providers :=
      foldl (λ providers service,
        set_insert {| service := binary_name service; provider := None; descriptor_kind := ModuleUses;
                      provider_entry := entry |} providers) providers (uses m) in
    foldl (λ providers '(service_interface_name, provides_with),
      foldl (λ providers provider,
        set_insert {| service := binary_name service_interface_name;
                      provider := Some (binary_name provider); descriptor_kind := ModuleProvides;
                      provider_entry := entry |} providers) providers provides_with)
      providers (provides m))
    providers modules.

(** ** Canonical decimal numbers *)

Lemma digits_value_ge b acc s v : (0 < b)%N → digits_value b acc s = Some v → acc ≤ v.
Proof.
  intros Hb. revert acc. induction s as [|c s IH]; intros acc; simpl; [intros [= ->]; lia|].
  rewrite bind_Some. intros (d & _ & Hv). apply IH in Hv. nia.
Qed.

Lemma digit_value_dec c : is_ascii_digit c = true → ∃ d, digit_value 10 c = Some d ∧ d < 10 ∧ digit_char d = c ∧ c = 48 + d.
Proof.
  intros Hc. exists (c - 48). unfold digit_value, digit_char. rewrite Hc. simpl.
  unfold is_ascii_digit, between in Hc. apply andb_true_iff in Hc as [H1%N.leb_le H2%N.leb_le].
  destruct (N.ltb_spec (c - 48) 10); [|lia]. split_and!; [done|lia|lia|lia].
Qed.

(** A digit string without a leading zero is how its value prints. *)
Lemma digits_from_canonical s c v fuel :
  Forall (λ x, is_ascii_digit x = true) (c :: s) → c ≠ 48 → digits_value 10 0 (c :: s) = Some v →
  (N.size_nat v < fuel)%nat → digits_from 10 fuel v [] = c :: s.
Proof.
  revert v fuel. induction s as [|x s IH] using rev_ind; intros v fuel Hall Hc Hv Hf.
  - apply Forall_cons in Hall as [Hd _]. destruct (digit_value_dec c Hd) as (d & Hdv & Hlt & Hch & Heq).
    simpl in Hv. rewrite Hdv in Hv. injection Hv as <-. destruct fuel as [|fuel]; [lia|]. simpl.
    rewrite N.add_0_l, N.mod_small, N.div_small by done. by rewrite Hch.
  - rewrite app_comm_cons in Hall, Hv |- *. apply Forall_app in Hall as [Hs Hx].
    apply Forall_cons in Hx as [Hx _]. destruct (digit_value_dec x Hx) as (d & Hdv & Hlt & Hch & _).
    rewrite digits_value_app, bind_Some in Hv. destruct Hv as (v' & Hv' & Hv).
    simpl in Hv. rewrite Hdv in Hv. injection Hv as <-.
    assert (0 < v') as Hpos.
    { apply Forall_cons in Hs as [Hd _]. destruct (digit_value_dec c Hd) as (e & Hev & _ & _ & Heq).
      simpl in Hv'. rewrite Hev in Hv'. simpl in Hv'. apply digits_value_ge in Hv'; lia. }
    assert ((v' * 10 + d) / 10 = v') as Hdiv.
    { symmetry. apply (N.div_unique _ _ _ d); lia. }
    assert ((v' * 10 + d) mod 10 = d) as Hmod.
    { symmetry. apply (N.mod_unique _ _ v'); lia. }
    destruct fuel as [|fuel]; [lia|]. cbn [digits_from]. rewrite Hdiv, Hmod, Hch.
    destruct (N.eqb_spec v' 0); [lia|]. rewrite digits_from_app, (IH v'); [done|done|done|done|].
    pose proof (size_nat_div 10 (v' * 10 + d)) as Hsz. rewrite Hdiv in Hsz. lia.
Qed.

(** [to_dec] gives the digit strings without a leading zero, zero apart. *)
Lemma to_dec_head n : n ≠ 0 → starts_with (lit "0") (to_dec n) = false.
Proof.
  intros Hn. unfold to_dec, to_digits. assert (N.size_nat n < S (N.size_nat n))%nat as Hf by lia.
  revert Hf. generalize (S (N.size_nat n)). intros fuel. revert n Hn.
  induction fuel as [|fuel IH]; intros n Hn Hf; [lia|]. cbn [digits_from].
  destruct (N.eqb_spec (n / 10) 0) as [Hz|Hz].
  - assert (n < 10) by (destruct (N.lt_ge_cases n 10); [done|pose proof (N.div_le_lower_bound n 10 1); lia]).
    rewrite N.mod_small by done. unfold digit_char. destruct (N.ltb_spec n 10); [|lia].
    change (lit "0") with [48]. cbn [starts_with]. destruct (N.eqb_spec 48 (48 + n)); [lia|done].
  - rewrite digits_from_app. pose proof (size_nat_div 10 n ltac:(lia) Hn).
    specialize (IH (n / 10) Hz ltac:(lia)). destruct (digits_from 10 fuel (n / 10) []) as [|c s] eqn:E.
    + exfalso. destruct fuel; [lia|]. simpl in E. case_match; [done|]. rewrite digits_from_app in E.
      by destruct (digits_from _ _ _ []).
    + simpl in *. by destruct c.
Qed.

Lemma forallb_digits s : forallb is_ascii_digit s = true ↔ Forall (λ x, is_ascii_digit x = true) s.
Proof. rewrite forallb_forall, Forall_forall. by setoid_rewrite list_elem_of_In. Qed.

Lemma parse_canonical max s v :
  s ≠ [] → forallb is_ascii_digit s = true → starts_with (lit "0") s = false →
  parse_unsigned max s = Some v ↔ s = to_dec v ∧ v ≤ max.
Proof.
  intros Hne Hd Hz. split; [|intros [-> Hv]; by apply parse_to_dec].
  apply forallb_digits in Hd.
  destruct s as [|c s]; [done|]. unfold parse_unsigned.
  assert (match c with 43 => s | _ => c :: s end = c :: s) as ->.
  { apply Forall_cons in Hd as [Hc _]. repeat case_match; try done. }
  rewrite bind_Some. intros (n & Hn & Hv). destruct (N.leb_spec n max); [|done]. injection Hv as ->.
  split; [|done]. symmetry. apply digits_from_canonical; [done| |done|lia].
  intros ->. done.
Qed.

(** ** Effective classfiles *)

(** An entry provides the class at a logical path in a version: the base entry is version 0, and
    the versions from 9 on are below their directory when the archive is multi-release. *)
Definition provides_class (multi_release : bool) (entry : str) (version : N) (logical : str) : Prop :=
  (version = 0 ∧ entry = logical ∧ starts_with VERSIONED_ENTRY_PREFIX entry = false) ∨
  (multi_release = true ∧ MIN_MULTI_RELEASE_VERSION ≤ version ≤ u32_max ∧
   entry = VERSIONED_ENTRY_PREFIX ++ to_dec version ++ lit "/" ++ logical).

Lemma to_dec_slash_free n : ch "/" ∉ to_dec n.
Proof. intros Hin. pose proof (to_dec_digits n) as Hd. rewrite Forall_forall in Hd. by apply Hd in Hin. Qed.

Lemma candidate_version_iff multi_release entry version logical :
  candidate_version multi_release entry = Some (version, logical) ↔
  provides_class multi_release entry version logical.
Proof.
  unfold candidate_version, provides_class.
  destruct (strip_prefix VERSIONED_ENTRY_PREFIX entry) as [rest|] eqn:E.
  - apply strip_prefix_spec in E.
    assert (starts_with VERSIONED_ENTRY_PREFIX entry = true) as -> by (apply starts_with_spec; eauto).
    destruct multi_release; simpl negb; cbv iota; [|naive_solver].
    rewrite bind_Some. split.
    + intros ([d l] & [-> Hd]%split_once_spec & Hc).
      destruct (bool_decide (d = []) || _ || _) eqn:Eb; [done|]. rewrite !orb_false_iff in Eb.
      destruct Eb as [[Hne%bool_decide_eq_false Hz] Hall%negb_false_iff].
      rewrite bind_Some in Hc. destruct Hc as (v & Hv & Hc).
      apply parse_canonical in Hv as [-> Hmax]; [|done..].
      destruct (N.ltb_spec v MIN_MULTI_RELEASE_VERSION); [done|]. injection Hc as -> ->. right. by rewrite E.
    + intros [[_ [_ H]]|(_ & [Hmin Hmax] & Heq)]; [done|]. rewrite E in Heq. apply app_inv_head in Heq.
      exists (to_dec version, logical). split.
      { apply split_once_spec. split; [done|apply to_dec_slash_free]. }
      assert (bool_decide (to_dec version = []) = false) as -> by (apply bool_decide_eq_false; apply to_digits_ne).
      assert (starts_with (lit "0") (to_dec version) = false) as ->.
      { apply to_dec_head. unfold MIN_MULTI_RELEASE_VERSION in Hmin. lia. }
      assert (forallb is_ascii_digit (to_dec version) = true) as ->.
      { apply forallb_digits, to_dec_digits. }
      simpl. rewrite parse_to_dec by done. simpl. by destruct (N.ltb_spec version MIN_MULTI_RELEASE_VERSION); [lia|].
  - assert (starts_with VERSIONED_ENTRY_PREFIX entry = false) as ->.
    { apply not_true_iff_false. intros [t Ht]%starts_with_spec. by rewrite Ht, strip_prefix_app in E. }
    split; [intros [= <- <-]; auto|]. intros [(-> & -> & _)|(_ & _ & Heq)]; [done|].
    by rewrite Heq, strip_prefix_app in E.
Qed.

(** What a set of seen entries selects: the entry of the highest version. *)
Definition selects (multi_release : bool) (seen : list str) (selected : gmap str (N * str)) : Prop :=
  ∀ logical,
    match selected !! logical with
    | None => ∀ e v, e ∈ seen → ¬ provides_class multi_release e v logical
    | Some (version, entry) =>
        entry ∈ seen ∧ provides_class multi_release entry version logical ∧
        ∀ e v, e ∈ seen → provides_class multi_release e v logical → v ≤ version
    end.

Lemma provides_unique multi_release e v l v' l' :
  provides_class multi_release e v l → provides_class multi_release e v' l' → v = v' ∧ l = l'.
Proof. rewrite <- !candidate_version_iff. naive_solver. Qed.

Lemma add_candidate_selects multi_release seen selected entry :
  selects multi_release seen selected →
  selects multi_release (seen ++ [entry]) (add_candidate multi_release selected entry).
Proof.
  intros Hs logical. specialize (Hs logical). unfold add_candidate.
  destruct (candidate_version multi_release entry) as [[v l]|] eqn:E.
  2: { assert (∀ v, ¬ provides_class multi_release entry v logical) as Hno.
       { intros v Hp%candidate_version_iff. congruence. }
       destruct (selected !! logical) as [[version e]|]; set_solver. }
  apply candidate_version_iff in E as Hp. destruct (decide (l = logical)) as [->|Hl].
  - destruct (selected !! logical) as [[version e]|] eqn:El.
    + destruct Hs as (Hin & Hpe & Hmax). simpl. destruct (N.ltb_spec version v).
      * rewrite lookup_insert_eq. split; [set_solver|]. split; [done|].
        intros e' v' [He| ->%list_elem_of_singleton]%elem_of_app Hp'.
        -- specialize (Hmax _ _ He Hp'). lia.
        -- destruct (provides_unique _ _ _ _ _ _ Hp Hp'); lia.
      * rewrite El. split; [set_solver|]. split; [done|].
        intros e' v' [He| ->%list_elem_of_singleton]%elem_of_app Hp'; [eauto|].
        destruct (provides_unique _ _ _ _ _ _ Hp Hp'); lia.
    + rewrite lookup_insert_eq. split; [set_solver|]. split; [done|].
      intros e' v' [He| ->%list_elem_of_singleton]%elem_of_app Hp'; [by destruct (Hs _ _ He Hp')|].
      destruct (provides_unique _ _ _ _ _ _ Hp Hp'); lia.
  - assert (∀ v, ¬ provides_class multi_release entry v logical) as Hno.
    { intros v' Hp'. by destruct (provides_unique _ _ _ _ _ _ Hp Hp'). }
    assert (∀ m : gmap str (N * str), (m = selected ∨ m = <[l := (v, entry)]> selected) →
              m !! logical = selected !! logical) as Hm.
    { intros m [->| ->]; [done|]. by rewrite lookup_insert_ne. }
    rewrite Hm by (repeat case_match; auto).
    destruct (selected !! logical) as [[version e]|]; set_solver.
Qed.

Lemma effective_selects multi_release entries :
  selects multi_release entries (foldl (add_candidate multi_release) ∅ entries).
Proof.
  induction entries as [|e entries IH] using rev_ind.
  - intros logical. simpl. rewrite lookup_empty. set_solver.
  - rewrite foldl_app. by apply add_candidate_selects.
Qed.

Definition is_class_entry (e : str) : Prop := ends_with (lit ".class") e = true.

(** One classfile is selected per class, as the JVM selects it: a logical path maps to an
    entry exactly when that entry is a classfile of the archive providing the path, the base entry
    or, in a multi-release archive, the entry below [META-INF/versions/] and a canonical decimal
    number of at least 9, and no classfile of the archive provides it in a higher version. *)
Theorem effective_entries_exact entries multi_release logical entry :
  effective_class_entries entries multi_release !! logical = Some entry ↔
  ∃ version, entry ∈ entries ∧ is_class_entry entry ∧ provides_class multi_release entry version logical ∧
    ∀ e v, e ∈ entries → is_class_entry e → provides_class multi_release e v logical → v ≤ version.
Proof.
  unfold effective_class_entries. rewrite lookup_fmap.
  pose proof (effective_selects multi_release (filter (λ e, ends_with (lit ".class") e = true) entries) logical) as Hs.
  destruct (_ !! logical) as [[version e]|]; simpl.
  - destruct Hs as ([Hc Hin]%list_elem_of_filter & Hp & Hmax). split.
    + intros [= <-]. exists version. split_and!; [done..|]. intros e' v He Hce Hpe.
      eapply Hmax; [|done]. by apply list_elem_of_filter.
    + intros (v & Hin' & Hc' & Hp' & Hmax'). f_equal.
      assert (v ≤ version) as H1 by (apply (Hmax entry); [by apply list_elem_of_filter|done]).
      assert (version ≤ v) as H2 by by apply (Hmax' e).
      assert (version = v) as -> by lia.
      destruct Hp as [(? & ? & _)|(_ & ? & He)], Hp' as [(? & ? & _)|(_ & ? & He')];
        unfold MIN_MULTI_RELEASE_VERSION in *; try first [lia|congruence].
  - split; [done|]. intros (v & Hin & Hc & Hp & _). exfalso. eapply Hs; [|done]. by apply list_elem_of_filter.
Qed.

(** The classes of an archive, in order and once each. *)
Lemma read_jar_index_classes read_entry l :
  let i := read_jar_index_from read_entry l in
  StronglySorted lt_cmp (classes i) ∧
  ∀ c, c ∈ classes i ↔ ∃ logical entry, class_entries i !! logical = Some entry ∧ class_name_from_entry logical = Some c.
Proof.
  simpl. match goal with |- context [dedup (sort ?l)] => destruct (sort_dedup_spec l) as [Hs Hin] end.
  split; [done|]. intros c. rewrite Hin, list_elem_of_omap. split.
  - intros (logical & Hl & Hc). apply list_elem_of_fmap in Hl as ([k e] & -> & Hl%elem_of_sorted_entries). eauto.
  - intros (logical & e & Hl & Hc). exists logical. split; [|done].
    apply list_elem_of_fmap. exists (logical, e). by rewrite elem_of_sorted_entries.
Qed.

(** ** The manifest *)

Definition line_break_free (c : char) : bool := negb ((c =? 13) || (c =? 10)).
Definition manifest_separators : list str := [[13; 10]; [10]; [13]].
Lemma mjoin_cons {A} (l : list A) ls : mjoin (l :: ls) = l ++ mjoin ls.
Proof. done. Qed.

Definition printed_lines (sep : str) (ls : list str) : str := mjoin ((λ l, l ++ sep) <$> ls).

Lemma manifest_lines_line acc l sep rest :
  sep ∈ manifest_separators → Forall (λ c, line_break_free c = true) l →
  (sep = [13] → head rest ≠ Some 10) →
  manifest_lines_from acc (l ++ sep ++ rest) = (acc ++ l) :: manifest_lines_from [] rest.
Proof.
  intros Hsep Hl Hcr. revert acc. induction Hl as [|c l Hc _ IH]; intros acc.
  - rewrite app_nil_r. unfold manifest_separators in Hsep. rewrite !elem_of_cons in Hsep.
    destruct Hsep as [->|[->|[->|[]%not_elem_of_nil]]]; [done..|].
    cbn. destruct rest as [|d rest]; [done|]. destruct (N.eqb_spec d 10) as [->|]; [|done].
    by specialize (Hcr eq_refl).
  - cbn [app manifest_lines_from]. unfold line_break_free in Hc.
    apply negb_true_iff, orb_false_iff in Hc as [-> ->]. rewrite IH, <- app_assoc. done.
Qed.

(** A header: its first line and its continuation lines. *)
Definition header_lines (h : str * list str) : list str := h.1 :: ((λ w, lit " " ++ w) <$> h.2).
Definition header_text (h : str * list str) : str := h.1 ++ mjoin h.2.
Definition well_folded (h : str * list str) : Prop :=
  h.1 ≠ [] ∧ starts_with (lit " ") h.1 = false ∧
  Forall (Forall (λ c, line_break_free c = true)) (h.1 :: h.2).

Lemma header_lines_plain h : well_folded h → Forall (λ l, l ≠ [] ∧ Forall (λ c, line_break_free c = true) l) (header_lines h).
Proof.
  intros (Hne & _ & [Hfirst Hrest]%Forall_cons). constructor; [done|].
  apply Forall_fmap. eapply Forall_impl; [done|]. intros w Hw. split; [done|]. by constructor.
Qed.

Lemma manifest_lines_printed sep ls tail :
  sep ∈ manifest_separators → Forall (λ l, l ≠ [] ∧ Forall (λ c, line_break_free c = true) l) ls →
  (sep = [13] → head tail ≠ Some 10) →
  manifest_lines (printed_lines sep ls ++ tail) = ls ++ manifest_lines tail.
Proof.
  intros Hsep Hls Htail. unfold manifest_lines, printed_lines. induction Hls as [|l ls [Hne Hl] Hls IH]; [done|].
  rewrite fmap_cons, mjoin_cons, <- !app_assoc. rewrite manifest_lines_line; [by rewrite IH|done|done|].
  intros ->. destruct Hls as [|l2 ls [Hne2 Hl2] _]; [by apply Htail|]. simpl.
  destruct l2 as [|c l2]; [done|]. simpl. intros [= ->]. apply Forall_cons in Hl2 as [Hc _]. done.
Qed.

Lemma unfold_lines_snoc unfolded previous ws ls :
  unfold_lines (unfolded ++ [previous]) (((λ w, lit " " ++ w) <$> ws) ++ ls)
  = unfold_lines (unfolded ++ [previous ++ mjoin ws]) ls.
Proof.
  revert previous. induction ws as [|w ws IH]; intros previous; [by rewrite app_nil_r|].
  rewrite fmap_cons. change (lit " " ++ w) with (32 :: w). rewrite <- app_comm_cons. cbn [unfold_lines].
  change (strip_prefix (lit " ") (32 :: w)) with (Some w). rewrite last_snoc, removelast_last, IH.
  by rewrite mjoin_cons, app_assoc.
Qed.

Lemma unfold_headers unfolded hs ls :
  Forall well_folded hs →
  unfold_lines unfolded (mjoin (header_lines <$> hs) ++ ls) = unfold_lines (unfolded ++ (header_text <$> hs)) ls.
Proof.
  intros Hhs. revert unfolded. induction Hhs as [|[first rest] hs (Hne & Hsp & _) _ IH]; intros unfolded.
  - by rewrite app_nil_r.
  - rewrite !fmap_cons, mjoin_cons, <- app_assoc. unfold header_lines at 1. cbn [app fst snd].
    cbn [fst] in Hne, Hsp. destruct first as [|c first]; [done|]. cbn [unfold_lines].
    assert (strip_prefix (lit " ") (c :: first) = None) as ->.
    { change (lit " ") with [32] in *. cbn [strip_prefix starts_with] in *.
      by destruct (32 =? c). }
    rewrite unfold_lines_snoc, IH, <- app_assoc. done.
Qed.

(** Folding a manifest changes nothing: however the headers of the main section are cut into
    continuation lines, and whichever of the three line ends the manifest uses, the archive is
    multi-release exactly when one of the headers, put together, says so; what follows the main
    section is not read. *)
Theorem manifest_folding sep hs tail :
  sep ∈ manifest_separators → Forall well_folded hs → tail = [] ∨ (∃ rest, tail = sep ++ rest) →
  manifest_declares_multi_release (printed_lines sep (mjoin (header_lines <$> hs)) ++ tail)
  = existsb declares_multi_release (header_text <$> hs).
Proof.
  intros Hsep Hhs Htail. unfold manifest_declares_multi_release. f_equal.
  rewrite manifest_lines_printed, unfold_headers; [|done|done| |].
  - rewrite app_nil_l. destruct Htail as [->|[rest ->]]; [done|].
    unfold manifest_lines. unfold manifest_separators in Hsep. rewrite !elem_of_cons in Hsep.
    destruct Hsep as [->|[->|[->|[]%not_elem_of_nil]]]; [done..|].
    cbn. destruct rest as [|d rest]; [done|]. by destruct (d =? 10).
  - apply Forall_forall. intros l (ls & Hl & (h & -> & Hh)%list_elem_of_fmap)%list_elem_of_join.
    rewrite Forall_forall in Hhs. pose proof (header_lines_plain _ (Hhs _ Hh)) as Hp.
    rewrite Forall_forall in Hp. auto.
  - intros ->. by destruct Htail as [->|[rest ->]].
Qed.

Definition sample_headers : list (str * list str) :=
  [(lit "Manifest-Version: 1.0", []); (lit "Multi-Rel", [lit "ease: t"; lit "rue"])].
Lemma manifest_folding_witness :
  (([13; 10] ∈ manifest_separators ∧ Forall well_folded sample_headers)
   ∧ manifest_declares_multi_release (printed_lines [13; 10] (mjoin (header_lines <$> sample_headers))
       ++ [13; 10] ++ lit "Name: a") = true).
Proof.
  assert (Hs : [13; 10] ∈ manifest_separators) by decide_now.
  assert (Hf : Forall well_folded sample_headers) by (unfold well_folded; decide_now).
  split; [done|]. rewrite (manifest_folding [13; 10] sample_headers ([13; 10] ++ lit "Name: a")).
  - vm_compute. reflexivity.
  - exact Hs.
  - exact Hf.
  - right. exists (lit "Name: a"). reflexivity.
Defined.

(** ** Lemmas: providers *)

Lemma fold_set_insert_sorted {A I} `{OrdLaws A, EqDecision A} (g : I → A) items l :
  StronglySorted lt_cmp l → StronglySorted lt_cmp (foldl (λ l i, set_insert (g i) l) l items).
Proof. revert l. induction items as [|i items IH]; intros l Hl; simpl; [done|]. by apply IH, set_insert_sorted. Qed.

Lemma elem_of_fold_set_insert {A I} `{OrdLaws A, EqDecision A} (g : I → A) items l x :
  x ∈ foldl (λ l i, set_insert (g i) l) l items ↔ x ∈ l ∨ ∃ i, i ∈ items ∧ x = g i.
Proof.
  revert l. induction items as [|i items IH]; intros l; simpl; [set_solver|].
  rewrite IH, elem_of_set_insert. set_solver.
Qed.

Lemma factories_sorted entry text providers :
  StronglySorted lt_cmp providers → StronglySorted lt_cmp (collect_spring_factories text entry providers).
Proof.
  unfold collect_spring_factories. generalize (@nil N) as logical. revert providers.
  induction (lines text) as [|l ls IH]; intros providers logical Hs; [done|]. cbn [foldl factories_line].
  repeat case_match; try by apply IH. apply IH. unfold factories_providers. repeat case_match; [|done].
  by apply fold_set_insert_sorted.
Qed.

(** Collecting providers keeps their order strict. *)
Lemma text_providers_sorted entry text providers :
  StronglySorted lt_cmp providers → StronglySorted lt_cmp (collect_text_providers entry text providers).
Proof.
  intros Hs. unfold collect_text_providers, collect_line_providers.
  repeat case_match; try done; first [by apply fold_set_insert_sorted|by apply factories_sorted].
Qed.

Lemma module_providers_sorted modules entry providers :
  StronglySorted lt_cmp providers → StronglySorted lt_cmp (collect_module_providers modules entry providers).
Proof.
  unfold collect_module_providers. revert providers. induction modules as [|m ms IH]; intros l Hl; [done|].
  cbn [foldl]. apply IH. clear IH. apply (fold_set_insert_sorted
    (λ service, {| service := binary_name service; provider := None; descriptor_kind := ModuleUses;
                   provider_entry := entry |}) (uses m)) in Hl.
  revert Hl. generalize (foldl (λ providers service, set_insert {| service := binary_name service;
    provider := None; descriptor_kind := ModuleUses; provider_entry := entry |} providers) l (uses m)). clear l.
  induction (provides m) as [|[s ps] provided IH]; intros l Hl; [done|]. cbn [foldl]. apply IH.
  by apply (fold_set_insert_sorted (λ provider, {| service := binary_name s;
    provider := Some (binary_name provider); descriptor_kind := ModuleProvides; provider_entry := entry |})).
Qed.

(** A service descriptor is read line by line: the providers it adds are exactly the words
    left of a comment that stand alone on a line, under the service the entry is named after. *)
Theorem service_providers_exact service text providers p :
  let entry := lit "META-INF/services/" ++ service in
  p ∈ collect_text_providers entry text providers ↔
  p ∈ providers ∨ ∃ line word after, line ∈ lines text ∧ split_char (ch "#") line = word :: after ∧
    trim word ≠ [] ∧ existsb is_whitespace (trim word) = false ∧
    p = {| service := service; provider := Some (trim word); descriptor_kind := ServiceLoader;
           provider_entry := entry |}.
Proof.
  intros entry. unfold collect_text_providers.
  assert (strip_prefix (lit "META-INF/services/") entry = Some service) as -> by apply strip_prefix_app.
  unfold collect_line_providers.
  rewrite (elem_of_fold_set_insert (λ provider, {| service := service; provider := Some provider;
             descriptor_kind := ServiceLoader; provider_entry := entry |})).
  apply or_iff_compat_l. split.
  - intros (w & (line & Hline & Hw)%list_elem_of_omap & ->). unfold clean_descriptor_line in Hw.
    destruct (split_char (ch "#") line) as [|word after] eqn:E; [done|]. simpl in Hw.
    unfold is_plain_word in Hw. destruct (bool_decide (trim word = [])) eqn:E1; [done|].
    destruct (existsb is_whitespace (trim word)) eqn:E2; [done|]. injection Hw as <-.
    apply bool_decide_eq_false in E1. by exists line, word, after.
  - intros (line & word & after & Hline & Hs & Hne & Hw & ->). exists (trim word). split; [|done].
    apply list_elem_of_omap. exists line. split; [done|]. unfold clean_descriptor_line. rewrite Hs. simpl.
    unfold is_plain_word. rewrite bool_decide_eq_false_2 by done. by rewrite Hw.
Qed.

(** A factories file whose last line is continued loses its last key: the logical line is
    only read when a line without a trailing backslash ends it. *)
Theorem continued_factories_lost providers :
  collect_text_providers (lit "META-INF/spring.factories") (lit "a.Service=a.Impl,\") providers = providers ∧
  provider <$> collect_text_providers (lit "META-INF/spring.factories") (lit "a.Service=a.Impl,") []
  = [Some (lit "a.Impl")].
Proof. split; vm_compute; reflexivity. Qed.
