(* ===== verification/ClassFacts.v ===== *)
(** * ClassFacts: the facts read from the classfiles of an archive

    Models the collection of facts of [src/index.rs]: the pool that numbers the strings of an
    archive, the parents and references of each class, and the loop that reads the classfiles and
    the provider descriptors of an archive.  Parsing a classfile is library code: a parsed
    classfile is data, and what an archive holds is the class [ClassArchive]. *)

From S2P Require Import Prelude.
From S2P Require Import Text.
From S2P Require Import TextSearch.
From S2P Require Import Paths.
From S2P Require Import Ordering.
From S2P Require Import Artifacts.
From S2P Require Import ClassEntries.

Open Scope N_scope.

(** ** Fact strings *)

(** A [FactStringId] is a position in [values], counted from one. *)
Abbreviation FactStringId := N (only parsing).
Record FactStringPool := {
  ids : gmap str FactStringId;
  values : list str;
}.
Definition empty_pool : FactStringPool := {| ids := ∅; values := [] |}.

(** [FactStringPool::intern], which panics when a [u32] cannot number one more string. *)
Definition intern (pool : FactStringPool) (value : str) : exec (FactStringId * FactStringPool) :=
  match ids pool !! value with
  | Some id => mret (id, pool)
  | None =>
      let raw_id := N.of_nat (length (values pool)) + 1 in
      if u32_max <? raw_id then Panic
      else mret (raw_id, {| ids := <[value := raw_id]> (ids pool); values := values pool ++ [value] |})
  end.

(** [JarRecord::fact_string]. *)
Definition fact_string (fact_strings : list str) (id : FactStringId) : exec str :=
  or_panic (fact_strings !! N.to_nat (id - 1)).

(** ** Facts of classes *)

Inductive TypeRelation := Extends | Implements.
#[export] Instance TypeRelation_eq_dec : EqDecision TypeRelation.
Proof. solve_decision. Defined.
Definition relation_rank (r : TypeRelation) : N := match r with Extends => 0 | Implements => 1 end.

Inductive ClassReferenceKind := Class_ | Field | Method | InterfaceMethod.
#[export] Instance ClassReferenceKind_eq_dec : EqDecision ClassReferenceKind.
Proof. solve_decision. Defined.
Definition reference_rank (k : ClassReferenceKind) : N :=
  match k with Class_ => 0 | Field => 1 | Method => 2 | InterfaceMethod => 3 end.

Record IndexedTypeParent := {
  parent : FactStringId;
  relation : TypeRelation;
}.
#[export] Instance IndexedTypeParent_eq_dec : EqDecision IndexedTypeParent.
Proof. solve_decision. Defined.
#[export] Instance IndexedTypeParent_ord : Ord IndexedTypeParent := λ a b,
  cmp (parent a, relation_rank (relation a)) (parent b, relation_rank (relation b)).
#[export] Instance IndexedTypeParent_ord_laws : OrdLaws IndexedTypeParent.
Proof.
  split; unfold cmp, IndexedTypeParent_ord.
  - intros [p1 r1] [p2 r2]. rewrite cmp_eq. simpl. split; [|by intros [= -> ->]].
    intros [= -> Hr]. by destruct r1, r2.
  - intros a b. apply cmp_antisym.
  - intros a b c. apply cmp_lt_trans.
Qed.

Record IndexedReference := {
  target_owner : FactStringId;
  target_name : option FactStringId;
  target_descriptor : option FactStringId;
  reference_kind : ClassReferenceKind;
}.
#[export] Instance IndexedReference_eq_dec : EqDecision IndexedReference.
Proof. solve_decision. Defined.
#[export] Instance IndexedReference_ord : Ord IndexedReference := λ a b,
  cmp (target_owner a, (target_name a, (target_descriptor a, reference_rank (reference_kind a))))
      (target_owner b, (target_name b, (target_descriptor b, reference_rank (reference_kind b)))).
#[export] Instance IndexedReference_ord_laws : OrdLaws IndexedReference.
Proof.
  split; unfold cmp, IndexedReference_ord.
  - intros [o1 n1 d1 k1] [o2 n2 d2 k2]. rewrite cmp_eq. simpl. split; [|by intros [= -> -> -> ->]].
    intros [= -> -> -> Hk]. by destruct k1, k2.
  - intros a b. apply cmp_antisym.
  - intros a b c. apply cmp_lt_trans.
Qed.

Record IndexedClassFacts := {
  source_class : FactStringId;
  source_file : option FactStringId;
  parents : list IndexedTypeParent;
  references : list IndexedReference;
}.

(** A parsed classfile, as far as its facts are read: the items of the constant pool that are
    not references are [Other], and of an annotation its type descriptor is kept. *)
Inductive ConstantPoolItem :=
| ClassInfo (class_name : str)
| FieldRef (class_name name descriptor : str)
| MethodRef (class_name name descriptor : str)
| InterfaceMethodRef (class_name name descriptor : str)
| Other.
Inductive AttributeData :=
| SourceFileAttribute (name : str)
| Module_ (m : ModuleAttribute)
| SignatureAttribute (signature : str)
| RuntimeVisibleAnnotations (descriptors : list str)
| RuntimeInvisibleAnnotations (descriptors : list str)
| OtherAttribute.
(** A field or a method, with its access flags as a [u16]. *)
Record MemberInfo := {
  info_name : str;
  info_descriptor : str;
  info_flags : N;
  info_attributes : list AttributeData;
}.
Record ClassFile := {
  major_version : N;
  class_flags : N;
  this_class : str;
  super_class : option str;
  interfaces : list str;
  class_fields : list MemberInfo;
  class_methods : list MemberInfo;
  constantpool : list ConstantPoolItem;
  attributes : list AttributeData;
}.

Definition source_file_name (attributes : list AttributeData) : option str :=
  head (omap (λ a,
    match a with
    | SourceFileAttribute name =>
        stem ← match strip_suffix (lit ".java") name with
               | Some stem => Some stem
               | None => strip_suffix (lit ".kt") name
               end;
        if negb (bool_decide (stem = [])) && negb (existsb (λ c, (c =? ch "/") || (c =? ch "\")) name)
        then Some name else None
    | _ => None
    end) attributes).

(** The owner, name and descriptor of an item, before they are interned. *)
Definition reference_target (item : ConstantPoolItem)
    : option (str * option str * option str * ClassReferenceKind) :=
  match item with
  | ClassInfo class_name => owner ← normalize_constant_class class_name; Some (owner, None, None, Class_)
  | FieldRef class_name name descriptor => Some (binary_name class_name, Some name, Some descriptor, Field)
  | MethodRef class_name name descriptor => Some (binary_name class_name, Some name, Some descriptor, Method)
  | InterfaceMethodRef class_name name descriptor =>
      Some (binary_name class_name, Some name, Some descriptor, InterfaceMethod)
  | Other => None
  end.

Definition intern_option (pool : FactStringPool) (value : option str)
    : exec (option FactStringId * FactStringPool) :=
  match value with
  | None => mret (None, pool)
  | Some value => '(id, pool) ← intern pool value; mret (Some id, pool)
  end.

Definition indexed_reference (source_class : str) (item : ConstantPoolItem) (pool : FactStringPool)
    : exec (option IndexedReference * FactStringPool) :=
  match reference_target item with
  | None => mret (None, pool)
  | Some (owner, name, descriptor, kind) =>
      if bool_decide (kind = Class_) && bool_decide (owner = source_class) then mret (None, pool)
      else
        '(owner, pool) ← intern pool owner;
        '(name, pool) ← intern_option pool name;
        '(descriptor, pool) ← intern_option pool descriptor;
        mret (Some {| target_owner := owner; target_name := name; target_descriptor := descriptor;
                      reference_kind := kind |}, pool)
  end.

Definition push_parent (relation : TypeRelation) (s : list IndexedTypeParent * FactStringPool) (class : str)
    : exec (list IndexedTypeParent * FactStringPool) :=
  '(id, pool) ← intern s.2 (binary_name class);
  mret (s.1 ++ [{| parent := id; relation := relation |}], pool).

Definition push_reference (source_class : str) (s : list IndexedReference * FactStringPool)
    (item : ConstantPoolItem) : exec (list IndexedReference * FactStringPool) :=
  '(reference, pool) ← indexed_reference source_class item s.2;
  mret (s.1 ++ option_list reference, pool).

(** The facts of one class other than a [module-info]; [source] is its interned name. *)
Definition class_facts_of (c : ClassFile) (source : FactStringId) (pool : FactStringPool)
    : exec (IndexedClassFacts * FactStringPool) :=
  s ← for_each (push_parent Extends) (option_list (super_class c)) ([], pool);
  '(parents, pool) ← for_each (push_parent Implements) (interfaces c) s;
  '(references, pool) ← for_each (push_reference (binary_name (this_class c))) (constantpool c) ([], pool);
  '(source_file, pool) ← intern_option pool (source_file_name (attributes c));
  mret ({| source_class := source; source_file := source_file; parents := dedup (sort parents);
           references := dedup (sort references) |}, pool).

Definition has_facts (f : IndexedClassFacts) : bool :=
  is_some (source_file f) || negb (bool_decide (parents f = [])) || negb (bool_decide (references f = [])).

Definition module_attributes (attributes : list AttributeData) : list ModuleAttribute :=
  omap (λ a, match a with Module_ m => Some m | _ => None end) attributes.

(** The library side of an open archive: the declared size of an entry, its bytes parsed as a
    classfile, and its bytes up to a limit read as UTF-8 text. *)
Class ClassArchive := {
  entry_size : str → option N;
  parse_class : str → option ClassFile;
  read_text : N → str → option str;
}.
(** [ClassArchive::open]. *)
Class ClassArchives := { open_classes : path → option ClassArchive }.

Record JarFacts := {
  class_facts : list IndexedClassFacts;
  providers : list IndexedProvider;
  strings : FactStringPool;
}.

Section Facts.
Context `{ClassArchive}.

(** The classfile of an entry, when it is there, small enough and well formed. *)
Definition readable_class (max_entry_bytes : N) (entry_path : str) : option ClassFile :=
  size ← entry_size entry_path;
  if max_entry_bytes <? size then None else parse_class entry_path.

Definition add_class (max_entry_bytes : N) (s : JarFacts) (entry_path : str) : exec JarFacts :=
  match readable_class max_entry_bytes entry_path with
  | None => mret s
  | Some c =>
      let name := binary_name (this_class c) in
      '(source, pool) ← intern (strings s) name;
      if decide (name = lit "module-info") then
        mret {| class_facts := class_facts s;
                providers := collect_module_providers (module_attributes (attributes c)) entry_path (providers s);
                strings := pool |}
      else
        '(facts, pool) ← class_facts_of c source pool;
        mret {| class_facts := if has_facts facts then class_facts s ++ [facts] else class_facts s;
                providers := providers s; strings := pool |}
  end.

Definition add_descriptor (max_entry_bytes : N) (s : JarFacts) (entry_path : str) : JarFacts :=
  match
    size ← entry_size entry_path;
    if max_entry_bytes <? size then None else read_text max_entry_bytes entry_path
  with
  | None => s
  | Some text =>
      {| class_facts := class_facts s; providers := collect_text_providers entry_path text (providers s);
         strings := strings s |}
  end.

(** The loop over the class entries stops when the job is cancelled: [visited] of them were
    visited by then. *)
Definition collect_jar_facts (visited : nat) (entries : list str) (class_entries : gmap str str)
    (max_entry_bytes : N) : exec JarFacts :=
  s ← for_each (add_class max_entry_bytes) (take visited (sorted_entries class_entries).*2)
        {| class_facts := []; providers := []; strings := empty_pool |};
  mret (foldl (add_descriptor max_entry_bytes) s (filter (λ e, is_provider_descriptor e = true) entries)).
End Facts.


(** ** Fact strings *)

Definition denotes (strings : list str) (id : FactStringId) (v : str) : Prop :=
  0 < id ∧ strings !! N.to_nat (id - 1) = Some v.

(** The map of a pool is the inverse of its list. *)
Definition pool_wf (pool : FactStringPool) : Prop :=
  ∀ v id, ids pool !! v = Some id ↔ denotes (values pool) id v.

(** A pool that has grown by at most [n] strings. *)
Record grows (n : N) (p q : FactStringPool) : Prop := {
  grows_wf : pool_wf q;
  grows_prefix : values p `prefix_of` values q;
  grows_length : N.of_nat (length (values q)) ≤ N.of_nat (length (values p)) + n;
}.

Lemma denotes_mono k l id v : k `prefix_of` l → denotes k id v → denotes l id v.
Proof. intros Hp [Hpos Hl]. split; [done|]. by eapply prefix_lookup_Some. Qed.

Lemma denotes_fun l id v w : denotes l id v → denotes l id w → v = w.
Proof. intros [_ H1] [_ H2]. congruence. Qed.

Lemma pool_wf_NoDup p : pool_wf p → NoDup (values p).
Proof.
  intros Hwf. apply NoDup_alt. intros i j v Hi Hj.
  assert (ids p !! v = Some (N.of_nat i + 1)) as H1.
  { apply Hwf. split; [lia|]. by replace (N.to_nat (N.of_nat i + 1 - 1)) with i by lia. }
  assert (ids p !! v = Some (N.of_nat j + 1)) as H2.
  { apply Hwf. split; [lia|]. by replace (N.to_nat (N.of_nat j + 1 - 1)) with j by lia. }
  rewrite H1 in H2. injection H2. lia.
Qed.

Lemma empty_pool_wf : pool_wf empty_pool.
Proof. intros v id. simpl. rewrite lookup_empty. unfold denotes. naive_solver. Qed.

Lemma grows_refl p : pool_wf p → grows 0 p p.
Proof. intros. split; [done|done|lia]. Qed.

Lemma grows_trans m n p q r : grows m p q → grows n q r → grows (m + n) p r.
Proof. intros [] []. split; [done|by etrans|lia]. Qed.

Lemma grows_weaken m n p q : m ≤ n → grows m p q → grows n p q.
Proof. intros ? []. split; [done|done|lia]. Qed.

(** Strings fit as long as a [u32] numbers them all. *)
Definition room (n : N) (p : FactStringPool) : Prop := N.of_nat (length (values p)) + n ≤ u32_max.

Lemma grows_room m n p q : grows m p q → room (m + n) p → room n q.
Proof. unfold room. intros []. lia. Qed.

Lemma intern_spec pool v :
  pool_wf pool → room 1 pool → wp (intern pool v) (λ r, grows 1 pool r.2 ∧ denotes (values r.2) r.1 v).
Proof.
  intros Hwf Hroom. unfold intern. destruct (ids pool !! v) as [id|] eqn:E.
  - split; [eapply grows_weaken; [|by apply grows_refl]; lia|]. by apply Hwf.
  - unfold room in Hroom. destruct (N.ltb_spec u32_max (N.of_nat (length (values pool)) + 1)); [lia|].
    simpl. set (n := length (values pool)) in *.
    assert (Hn : N.to_nat (N.of_nat n + 1 - 1) = n) by lia.
    assert (denotes (values pool ++ [v]) (N.of_nat n + 1) v).
    { split; [lia|]. rewrite Hn. by apply list_lookup_middle. }
    split; [|done]. split; [|by eexists|simpl; rewrite length_app; simpl; lia].
    intros w id. simpl. destruct (decide (v = w)) as [<-|Hne].
    + rewrite lookup_insert_eq. split; [by intros [= <-]|]. intros [Hpos Hl]. f_equal.
      apply lookup_app_Some in Hl as [Hl|[Hlen Hl]].
      * assert (ids pool !! v = Some id); [by apply Hwf|congruence].
      * apply list_lookup_singleton_Some in Hl as [Hl _]. fold n in Hlen, Hl. lia.
    + rewrite lookup_insert_ne by done. rewrite (Hwf w id). unfold denotes. split.
      * intros [Hpos Hl]. split; [done|]. by apply lookup_app_l_Some.
      * intros [Hpos Hl]. split; [done|]. apply lookup_app_Some in Hl as [Hl|[_ Hl]]; [done|].
        apply list_lookup_singleton_Some in Hl as [_ <-]. done.
Qed.

(** An optional identifier and what it stands for. *)
Definition denotes_option (strings : list str) : option FactStringId → option str → Prop :=
  option_Forall2 (denotes strings).

Lemma denotes_option_mono k l id v : k `prefix_of` l → denotes_option k id v → denotes_option l id v.
Proof. intros Hp []; constructor. by eapply denotes_mono. Qed.

Lemma intern_option_spec pool v :
  pool_wf pool → room 1 pool →
  wp (intern_option pool v) (λ r, grows 1 pool r.2 ∧ denotes_option (values r.2) r.1 v).
Proof.
  intros Hwf Hroom. destruct v as [v|]; simpl.
  - eapply wp_call; [by apply intern_spec|]. intros [id q] [Hg Hd]. split; [done|by constructor].
  - split; [|constructor]. eapply grows_weaken; [|by apply grows_refl]. lia.
Qed.

(** ** Facts of a class *)

Definition class_parents (c : ClassFile) : list (str * TypeRelation) :=
  ((λ s, (binary_name s, Extends)) <$> option_list (super_class c))
  ++ ((λ s, (binary_name s, Implements)) <$> interfaces c).

(** The references of a class, without the one of the class to itself. *)
Definition item_reference (source : str) (item : ConstantPoolItem)
    : option (str * option str * option str * ClassReferenceKind) :=
  '(owner, name, descriptor, kind) ← reference_target item;
  if bool_decide (kind = Class_) && bool_decide (owner = source) then None
  else Some (owner, name, descriptor, kind).
Definition class_references (c : ClassFile) : list (str * option str * option str * ClassReferenceKind) :=
  omap (item_reference (binary_name (this_class c))) (constantpool c).

Definition parent_denotes (strings : list str) (p : IndexedTypeParent) (n : str * TypeRelation) : Prop :=
  denotes strings (parent p) n.1 ∧ relation p = n.2.
Definition reference_denotes (strings : list str) (r : IndexedReference)
    (n : str * option str * option str * ClassReferenceKind) : Prop :=
  let '(owner, name, descriptor, kind) := n in
  denotes strings (target_owner r) owner ∧ denotes_option strings (target_name r) name ∧
  denotes_option strings (target_descriptor r) descriptor ∧ reference_kind r = kind.

(** Two lists stand for the same set, each element with a counterpart in the other. *)
Definition same_set {A B} (R : A → B → Prop) (l : list A) (k : list B) : Prop :=
  (∀ a, a ∈ l → ∃ b, b ∈ k ∧ R a b) ∧ (∀ b, b ∈ k → ∃ a, a ∈ l ∧ R a b).

Record facts_denote (strings : list str) (c : ClassFile) (f : IndexedClassFacts) : Prop := {
  denotes_class : denotes strings (source_class f) (binary_name (this_class c));
  denotes_file : denotes_option strings (source_file f) (source_file_name (attributes c));
  denotes_parents : same_set (parent_denotes strings) (parents f) (class_parents c);
  parents_sorted : StronglySorted lt_cmp (parents f);
  denotes_references : same_set (reference_denotes strings) (references f) (class_references c);
  references_sorted : StronglySorted lt_cmp (references f);
}.

Lemma parent_denotes_mono k l p n : k `prefix_of` l → parent_denotes k p n → parent_denotes l p n.
Proof. intros Hp []. split; [by eapply denotes_mono|done]. Qed.

Lemma reference_denotes_mono k l r n : k `prefix_of` l → reference_denotes k r n → reference_denotes l r n.
Proof.
  destruct n as [[[o n] d] kd]. intros Hp (?&?&?&?).
  split_and!; [by eapply denotes_mono|by eapply denotes_option_mono..|done].
Qed.

Lemma same_set_impl {A B} (R S : A → B → Prop) l k :
  (∀ a b, R a b → S a b) → same_set R l k → same_set S l k.
Proof. intros Hi [H1 H2]. split; [intros a Ha%H1|intros b Hb%H2]; naive_solver. Qed.

Lemma facts_denote_mono k l c f : k `prefix_of` l → facts_denote k c f → facts_denote l c f.
Proof.
  intros Hp []. split; [by eapply denotes_mono|by eapply denotes_option_mono| |done| |done];
    (eapply same_set_impl; [|done]; intros ??; by first [apply parent_denotes_mono|apply reference_denotes_mono]).
Qed.

Lemma Forall2_same_set {A B} (R : A → B → Prop) l k : Forall2 R l k → same_set R l k.
Proof.
  intros Hf. split.
  - intros a Ha. apply list_elem_of_lookup in Ha as [i Hi].
    destruct (Forall2_lookup_l _ _ _ _ _ Hf Hi) as (b & Hb & HR). exists b. split; [by eapply list_elem_of_lookup_2|done].
  - intros b Hb. apply list_elem_of_lookup in Hb as [i Hi].
    destruct (Forall2_lookup_r _ _ _ _ _ Hf Hi) as (a & Ha & HR). exists a. split; [by eapply list_elem_of_lookup_2|done].
Qed.

Lemma dedup_sort_same_set {A B} `{OrdLaws A, EqDecision A} (R : A → B → Prop) l k :
  Forall2 R l k → same_set R (dedup (sort l)) k ∧ StronglySorted lt_cmp (dedup (sort l)).
Proof.
  intros Hf. destruct (sort_dedup_spec l) as [Hs Hin]. split; [|done].
  apply Forall2_same_set in Hf as [H1 H2]. split.
  - intros a Ha%Hin. auto.
  - intros b (a & Ha & HR)%H2. exists a. by rewrite Hin.
Qed.

(** The elements a step has pushed stand for the items it has seen. *)
Definition pushed {A B} (R : list str → A → B → Prop) (p : FactStringPool) (cost : N)
    (s : list A * FactStringPool) (seen : list B) : Prop :=
  grows cost p s.2 ∧ Forall2 (R (values s.2)) s.1 seen.

Section Pushing.
Context {A B I : Type} (R : list str → A → B → Prop) (cost : N) (f : I → option B)
  (step : list A * FactStringPool → I → exec (list A * FactStringPool)).
Context (R_mono : ∀ k l a b, k `prefix_of` l → R k a b → R l a b).
Context (step_spec : ∀ s i, pool_wf s.2 → room cost s.2 →
  wp (step s i) (λ r, grows cost s.2 r.2 ∧ ∃ new, r.1 = s.1 ++ new ∧
    Forall2 (R (values r.2)) new (option_list (f i)))).

Lemma push_all items p c s seen :
  pushed R p c s seen → room (c + cost * N.of_nat (length items)) p →
  wp (for_each step items s) (λ r,
    pushed R p (c + cost * N.of_nat (length items)) r (seen ++ omap f items)).
Proof.
  revert c s seen. induction items as [|i items IH]; intros c s seen [Hg Hf] Hroom.
  - cbn [for_each]. rewrite app_nil_r. split; [by eapply grows_weaken; [|done]; simpl; lia|done].
  - cbn [for_each length] in *. eapply wp_call.
    { apply step_spec; [by eapply grows_wf|]. eapply grows_room; [done|]. unfold room in *. lia. }
    intros r [Hg' (new & Hr & Hnew)].
    assert (pushed R p (c + cost) r (seen ++ option_list (f i))) as Hp.
    { split; [by eapply grows_trans|]. rewrite Hr. apply Forall2_app; [|done].
      eapply Forall2_impl; [done|]. intros. eapply R_mono; [|done]. by eapply grows_prefix. }
    eapply wp_mono; [apply (IH _ _ _ Hp); unfold room in *; lia|].
    intros r2 [Hg2 Hf2]. split; [eapply grows_weaken; [|done]; lia|].
    cbn [omap list_omap]. rewrite <- app_assoc in Hf2. by destruct (f i).
Qed.
End Pushing.

Lemma push_parent_spec rel s class :
  pool_wf s.2 → room 1 s.2 →
  wp (push_parent rel s class) (λ r, grows 1 s.2 r.2 ∧ ∃ new, r.1 = s.1 ++ new ∧
    Forall2 (parent_denotes (values r.2)) new (option_list (Some (binary_name class, rel)))).
Proof.
  intros Hwf Hroom. unfold push_parent. eapply wp_call; [by apply intern_spec|].
  intros [id q] [Hg Hd]. split; [done|]. eexists. split; [done|]. apply Forall2_cons. split; [by split|constructor].
Qed.

Lemma push_reference_spec source s item :
  pool_wf s.2 → room 3 s.2 →
  wp (push_reference source s item) (λ r, grows 3 s.2 r.2 ∧ ∃ new, r.1 = s.1 ++ new ∧
    Forall2 (reference_denotes (values r.2)) new (option_list (item_reference source item))).
Proof.
  intros Hwf Hroom.
  assert (Hnone : wp (mret (s.1 ++ option_list None, s.2) : exec (list IndexedReference * FactStringPool)) (λ r,
    grows 3 s.2 r.2 ∧ ∃ new, r.1 = s.1 ++ new ∧ Forall2 (reference_denotes (values r.2)) new (option_list None))).
  { split; [eapply grows_weaken; [|by apply grows_refl]; lia|]. exists []. by split. }
  unfold push_reference, indexed_reference, item_reference.
  destruct (reference_target item) as [[[[o n] d] k]|]; [|exact Hnone]. cbn [mbind option_bind].
  destruct (bool_decide (k = Class_) && bool_decide (o = source)); [exact Hnone|].
  apply wp_bind. eapply wp_call; [by apply intern_spec; [|unfold room in *; lia]|]. intros [oi q1] [Hg1 Ho].
  eapply wp_call; [apply intern_option_spec; [by eapply grows_wf|eapply (grows_room 1 1); [done|unfold room in *; lia]]|].
  intros [ni q2] [Hg2 Hn]. pose proof (grows_trans _ _ _ _ _ Hg1 Hg2) as Hg12.
  eapply wp_call; [apply intern_option_spec; [by eapply grows_wf|eapply (grows_room 2 1); [done|unfold room in *; lia]]|].
  intros [di q3] [Hg3 Hd]. simpl in *. split; [by apply (grows_trans 2 1 _ q2)|].
  eexists. split; [done|]. constructor; [|constructor]. pose proof (grows_prefix _ _ _ Hg3) as Hp3.
  pose proof (grows_prefix _ _ _ Hg2) as Hp2. split_and!; [| |done|done].
  - eapply denotes_mono; [|done]. by etrans.
  - by eapply denotes_option_mono.
Qed.

Lemma omap_always {A B} (f : A → B) (l : list A) : omap (λ x, Some (f x)) l = f <$> l.
Proof. induction l as [|x l IH]; [done|]. cbn [omap list_omap]. by rewrite IH. Qed.

Lemma class_facts_of_spec c source pool :
  let cost := 2 + N.of_nat (length (interfaces c)) + 3 * N.of_nat (length (constantpool c)) in
  pool_wf pool → room cost pool → denotes (values pool) source (binary_name (this_class c)) →
  wp (class_facts_of c source pool) (λ r, grows cost pool r.2 ∧ facts_denote (values r.2) c r.1).
Proof.
  intros cost Hwf Hroom Hsource. unfold class_facts_of.
  assert (Hr : ∀ n, n ≤ cost → room n pool) by (intros n Hn; unfold room in *; lia).
  eapply wp_call.
  { apply (push_all parent_denotes 1 (λ class, Some (binary_name class, Extends)) _ parent_denotes_mono
      (push_parent_spec Extends) (option_list (super_class c)) pool 0 ([], pool) []).
    - split; [by apply grows_refl|constructor].
    - apply Hr. destruct (super_class c); simpl; lia. }
  intros s Hs. eapply wp_call.
  { apply (push_all parent_denotes 1 (λ class, Some (binary_name class, Implements)) _ parent_denotes_mono
      (push_parent_spec Implements) (interfaces c) pool _ s _ Hs).
    apply Hr. destruct (super_class c); simpl; lia. }
  intros [ps q1] [Hg1 Hps]. eapply wp_call.
  { apply (push_all reference_denotes 3 (item_reference (binary_name (this_class c))) _ reference_denotes_mono
      (push_reference_spec (binary_name (this_class c))) (constantpool c) q1 0 ([], q1) []).
    - split; [by apply grows_refl, (grows_wf _ _ _ Hg1)|constructor].
    - eapply grows_room; [exact Hg1|]. apply Hr. destruct (super_class c); simpl; lia. }
  intros [rs q2] [Hg2 Hrs]. eapply wp_call.
  { apply (intern_option_spec q2 (source_file_name (attributes c))); [by eapply grows_wf|].
    eapply grows_room; [exact Hg2|]. eapply grows_room; [exact Hg1|]. apply Hr.
    destruct (super_class c); simpl; lia. }
  intros [fo q3] [Hg3 Hfo]. pose proof (grows_trans _ _ _ _ _ Hg1 (grows_trans _ _ _ _ _ Hg2 Hg3)) as Hg.
  cbn [fst snd] in *. split; [eapply grows_weaken; [|exact Hg]; destruct (super_class c); simpl; lia|].
  pose proof (grows_prefix _ _ _ Hg) as Hp. pose proof (grows_prefix _ _ _ Hg3) as Hp3.
  pose proof (grows_prefix _ _ _ Hg2) as Hp2. assert (values q1 `prefix_of` values q3) as Hp23 by by etrans.
  rewrite !app_nil_l in *.
  assert (omap (λ class, Some (binary_name class, Extends)) (option_list (super_class c)) ++
          omap (λ class, Some (binary_name class, Implements)) (interfaces c) = class_parents c) as Hparents.
  { by rewrite (omap_always (λ s, (binary_name s, Extends))), (omap_always (λ s, (binary_name s, Implements))). }
  rewrite Hparents in Hps.
  assert (Forall2 (parent_denotes (values q3)) ps (class_parents c)) as Hps3.
  { eapply Forall2_impl; [exact Hps|]. intros ? ?. by apply parent_denotes_mono. }
  assert (Forall2 (reference_denotes (values q3)) rs (class_references c)) as Hrs3.
  { eapply Forall2_impl; [exact Hrs|]. intros ? ?. by apply reference_denotes_mono. }
  apply dedup_sort_same_set in Hps3 as [??], Hrs3 as [??].
  split; simpl; [exact (denotes_mono _ _ _ _ Hp Hsource)|done..].
Qed.

(** ** Facts of an archive *)

Definition class_has_facts (c : ClassFile) : bool :=
  is_some (source_file_name (attributes c)) || negb (bool_decide (class_parents c = []))
  || negb (bool_decide (class_references c = [])).

Lemma same_set_nil {A B} (R : A → B → Prop) l k : same_set R l k → l = [] ↔ k = [].
Proof.
  intros [H1 H2]. split; intros ->.
  - destruct k as [|b k]; [done|]. destruct (H2 b) as (? & ?%elem_of_nil & _); [by left|done].
  - destruct l as [|a l]; [done|]. destruct (H1 a) as (? & ?%elem_of_nil & _); [by left|done].
Qed.

Lemma has_facts_denote strings c f : facts_denote strings c f → has_facts f = class_has_facts c.
Proof.
  intros []. unfold has_facts, class_has_facts.
  rewrite (bool_decide_ext _ _ (same_set_nil _ _ _ denotes_parents0)).
  rewrite (bool_decide_ext _ _ (same_set_nil _ _ _ denotes_references0)).
  by destruct denotes_file0.
Qed.

Section JarFacts.
Context `{ClassArchive} (max_entry_bytes : N).

(** The classes an archive has facts of. *)
Definition is_indexed (c : ClassFile) : bool :=
  negb (bool_decide (binary_name (this_class c) = lit "module-info")) && class_has_facts c.
Definition indexed_classes (entries : list str) : list ClassFile :=
  filter (λ c, is_indexed c = true) (omap (readable_class max_entry_bytes) entries).
Definition class_cost (c : ClassFile) : N :=
  3 + N.of_nat (length (interfaces c)) + 3 * N.of_nat (length (constantpool c)).
(** A bound on the strings that are numbered. *)
Definition strings_needed (entries : list str) : N :=
  sum (class_cost <$> omap (readable_class max_entry_bytes) entries).

Record collected (seen : list str) (s : JarFacts) : Prop := {
  collected_pool : grows (strings_needed seen) empty_pool (strings s);
  collected_facts : Forall2 (facts_denote (values (strings s))) (indexed_classes seen) (class_facts s);
  collected_providers : StronglySorted lt_cmp (providers s);
}.

Lemma strings_needed_snoc seen e :
  strings_needed (seen ++ [e])
  = strings_needed seen + match readable_class max_entry_bytes e with Some c => class_cost c | None => 0 end.
Proof.
  unfold strings_needed. rewrite omap_app, fmap_app, sum_app. f_equal. cbn [omap list_omap].
  destruct (readable_class max_entry_bytes e); simpl; lia.
Qed.

Lemma indexed_classes_snoc seen e :
  indexed_classes (seen ++ [e])
  = indexed_classes seen ++ match readable_class max_entry_bytes e with
                            | Some c => if is_indexed c then [c] else []
                            | None => []
                            end.
Proof.
  unfold indexed_classes. rewrite omap_app, filter_app. f_equal. cbn [omap list_omap].
  destruct (readable_class max_entry_bytes e) as [c|]; [|done]. simpl. rewrite filter_cons, filter_nil.
  by destruct (is_indexed c).
Qed.

Lemma denote_all_mono k l cs fs :
  k `prefix_of` l → Forall2 (facts_denote k) cs fs → Forall2 (facts_denote l) cs fs.
Proof. intros Hp Hf. eapply Forall2_impl; [done|]. intros. by eapply facts_denote_mono. Qed.

Lemma add_class_collected seen e s :
  collected seen s → strings_needed (seen ++ [e]) ≤ u32_max →
  wp (add_class max_entry_bytes s e) (collected (seen ++ [e])).
Proof.
  intros [Hg Hf Hp]. rewrite strings_needed_snoc. intros Hfits.
  unfold add_class. pose proof (indexed_classes_snoc seen e) as Hi. pose proof (strings_needed_snoc seen e) as Hn.
  destruct (readable_class max_entry_bytes e) as [c|].
  2: { rewrite app_nil_r in Hi. rewrite N.add_0_r in Hn. split; [by rewrite Hn|by rewrite Hi|done]. }
  unfold is_indexed in Hi. assert (Hc : 1 ≤ class_cost c) by (unfold class_cost; lia).
  assert (Hroom : ∀ n, n ≤ class_cost c → room n (strings s)).
  { intros n Hle. unfold room. pose proof (grows_length _ _ _ Hg) as Hl. simpl in Hl. lia. }
  eapply wp_call; [apply intern_spec; [by eapply grows_wf|by apply Hroom]|]. intros [source q1] [Hg1 Hd].
  cbn [fst snd] in *. pose proof (grows_trans _ _ _ _ _ Hg Hg1) as Hg01.
  pose proof (denote_all_mono _ _ _ _ (grows_prefix _ _ _ Hg1) Hf) as Hf1.
  destruct (decide (binary_name (this_class c) = lit "module-info")) as [Hm|Hm].
  - rewrite bool_decide_eq_true_2, app_nil_r in Hi by done. split; simpl.
    + rewrite Hn. eapply grows_weaken; [|done]. lia.
    + by rewrite Hi.
    + by apply module_providers_sorted.
  - rewrite bool_decide_eq_false_2 in Hi by done. simpl in Hi. eapply wp_call.
    { apply class_facts_of_spec; [by eapply grows_wf| |done]. eapply grows_room; [exact Hg1|].
      eapply Hroom. unfold class_cost. lia. }
    intros [f q2] [Hg2 Hfd]. cbn [fst snd] in *. rewrite (has_facts_denote _ _ _ Hfd).
    pose proof (denote_all_mono _ _ _ _ (grows_prefix _ _ _ Hg2) Hf1) as Hf2.
    split; simpl.
    + rewrite Hn. eapply grows_weaken; [|by eapply grows_trans]. unfold class_cost. lia.
    + rewrite Hi. destruct (class_has_facts c); [|by rewrite app_nil_r].
      apply Forall2_app; [done|]. by constructor.
    + done.
Qed.

Lemma add_classes_collected seen l s :
  collected seen s → strings_needed (seen ++ l) ≤ u32_max →
  wp (for_each (add_class max_entry_bytes) l s) (collected (seen ++ l)).
Proof.
  revert seen s. induction l as [|e l IH]; intros seen s Hs Hfits; [by rewrite app_nil_r|].
  rewrite (cons_middle e), app_assoc in Hfits |- *. cbn [for_each]. eapply wp_call.
  - apply add_class_collected; [done|]. unfold strings_needed in *.
    rewrite (omap_app _ (seen ++ [e])), fmap_app, sum_app in Hfits. lia.
  - intros s' Hs'. by apply IH.
Qed.

Lemma add_descriptors_collected seen l s :
  collected seen s → collected seen (foldl (add_descriptor max_entry_bytes) s l).
Proof.
  revert s. induction l as [|e l IH]; intros s [Hg Hf Hp]; [done|]. cbn [foldl]. apply IH.
  unfold add_descriptor. destruct (_ ≫= _) as [text|]; [|done]. split; [done|done|]. by apply text_providers_sorted.
Qed.

(** C25: The facts stored for an archive are those of its classfiles: as long as its strings can be
    numbered, the collection never panics, every identifier it stores denotes a string of the
    pool, whose strings are distinct, and the stored facts stand, class by class and in order,
    for the superclass, the interfaces, the references and the source file of every classfile
    read, each list sorted and without duplicates; the providers are a sorted set. *)
Theorem jar_facts_denote visited entries class_entries :
  let seen := take visited (sorted_entries class_entries).*2 in
  strings_needed seen ≤ u32_max →
  wp (collect_jar_facts visited entries class_entries max_entry_bytes) (λ s,
    NoDup (values (strings s)) ∧
    Forall2 (facts_denote (values (strings s))) (indexed_classes seen) (class_facts s) ∧
    StronglySorted lt_cmp (providers s)).
Proof.
  intros seen Hfits. unfold collect_jar_facts. eapply wp_call.
  - apply (add_classes_collected [] seen); [|done]. split; [|constructor|constructor].
    by apply grows_refl, empty_pool_wf.
  - intros s Hs. apply wp_mret.
    apply (add_descriptors_collected _ (filter (λ e, is_provider_descriptor e = true) entries)) in Hs as [Hg Hf Hp].
    split; [by apply pool_wf_NoDup, (grows_wf _ _ _ Hg)|done].
Qed.
End JarFacts.

#[local] Instance sample_archive : ClassArchive := {|
  entry_size _ := Some 100;
  parse_class e := if decide (e = lit "a/B.class") then
    Some {| major_version := 65; class_flags := 33; class_fields := []; class_methods := []; this_class := lit "a/B"; super_class := Some (lit "java/lang/Object"); interfaces := [lit "a/I"];
            constantpool := [ClassInfo (lit "a/B"); MethodRef (lit "a/C") (lit "run") (lit "()V")];
            attributes := [SourceFileAttribute (lit "B.java")] |}
    else None;
  read_text _ _ := None;
|}.
Definition sample_class_entries : gmap str str := {[lit "a/B.class" := lit "a/B.class"]}.
Lemma jar_facts_denote_witness :
  strings_needed 1000 (take 1 (sorted_entries sample_class_entries).*2) ≤ u32_max ∧
  wp (collect_jar_facts 1 [lit "a/B.class"] sample_class_entries 1000) (λ s, NoDup (values (strings s))).
Proof.
  assert (Hfits : strings_needed 1000 (take 1 (sorted_entries sample_class_entries).*2) ≤ u32_max)
    by (vm_compute; discriminate).
  split; [exact Hfits|]. eapply wp_mono; [exact (jar_facts_denote 1000 1 [lit "a/B.class"] sample_class_entries Hfits)|].
  intros s [H _]. exact H.
Defined.
