(* ===== verification/Preflight.v ===== *)
(** * Preflight: the budget of an archive before it is opened

    Models [preflight_archive] and [preflight_directory] of [src/index.rs], which walk the central
    directory of a ZIP file, or the files of a class directory, and charge the entries and their
    names to a budget before the library reads any of it.  A file is the list of its bytes. *)

From S2P Require Import Prelude.
From S2P Require Import Text.
From S2P Require Import TextSearch.
From S2P Require Import Config.

Open Scope N_scope.

(** ** Budgets *)

Inductive ArchiveLimit :=
| MAX_INDEX_ENTRIES | MAX_INDEX_NAME_BYTES | MAX_CENTRAL_DIRECTORY | MAX_JAR_ENTRIES | MAX_ENTRY_NAME.

(** An archive is over a limit, or cannot be read as an archive. *)
Inductive PreflightError := Limit (l : ArchiveLimit) | Malformed.

Record ArchiveBudget := {
  budget_entries : N;
  budget_names : N;
  budget_jar_entries : N;
}.

Definition reserve (b : ArchiveBudget) (name_bytes : N) : ArchiveBudget * option ArchiveLimit :=
  match checked_sub (budget_entries b) 1 with
  | None => (b, Some MAX_INDEX_ENTRIES)
  | Some entries =>
      let b := {| budget_entries := entries; budget_names := budget_names b;
                  budget_jar_entries := budget_jar_entries b |} in
      match checked_sub (budget_names b) name_bytes with
      | None => (b, Some MAX_INDEX_NAME_BYTES)
      | Some names =>
          ({| budget_entries := entries; budget_names := names; budget_jar_entries := budget_jar_entries b |}, None)
      end
  end.

Definition MAX_CENTRAL_DIRECTORY_BYTES : N := 67108864.

(** ** Bytes *)

(** [u16::from_le_bytes], [u32::from_le_bytes] and [u64::from_le_bytes]. *)
Definition le_value (l : list N) : N := foldr (λ b v, b + 256 * v) 0 l.

(** [buffer[i..i + n]], which panics out of range. *)
Definition slice (buffer : list N) (i n : N) : exec (list N) :=
  if N.of_nat (length buffer) <? i + n then Panic
  else mret (take (N.to_nat n) (drop (N.to_nat i) buffer)).
Definition le_at (buffer : list N) (i n : N) : exec N := le_value <$> slice buffer i n.

(** A seek and [read_exact]: it fails when the file ends before. *)
Definition read_at (file : list N) (position n : N) : option (list N) :=
  if N.of_nat (length file) <? position + n then None
  else Some (take (N.to_nat n) (drop (N.to_nat position) file)).

Definition END_SIGNATURE : list N := [80; 75; 5; 6].
Definition LOCATOR_SIGNATURE : list N := [80; 75; 6; 7].
Definition ZIP64_SIGNATURE : list N := [80; 75; 6; 6].
Definition CENTRAL_SIGNATURE : list N := [80; 75; 1; 2].

(** ** The end of the central directory *)

(** Whether the record that closes the file, its comment included, starts at [i]. *)
Definition is_end (tail : list N) (i : N) : exec bool :=
  signature ← slice tail i 4;
  if decide (signature = END_SIGNATURE) then
    comment ← le_at tail (i + 20) 2;
    mret (i + 22 + comment =? N.of_nat (length tail))
  else mret false.

(** The last such position below [n]. *)
Fixpoint find_end (tail : list N) (n : nat) : exec (option N) :=
  match n with
  | O => mret None
  | S i =>
      found ← is_end tail (N.of_nat i);
      if found : bool then mret (Some (N.of_nat i)) else find_end tail i
  end.

(** The declared number of entries, the size of the central directory and where it ends. *)
Record CentralDirectory := {
  cd_count : N;
  cd_size : N;
  cd_end : N;
}.

(** The ZIP64 record of a file whose plain record is saturated. *)
Definition zip64_directory (file : list N) (central_end : N) : exec (CentralDirectory + PreflightError) :=
  match checked_sub central_end 20 ≫= λ position, read_at file position 20 with
  | None => mret (inr Malformed)
  | Some locator =>
      signature ← slice locator 0 4;
      if negb (bool_decide (signature = LOCATOR_SIGNATURE)) then mret (inr Malformed)
      else
        zip64_offset ← le_at locator 8 8;
        match read_at file zip64_offset 56 with
        | None => mret (inr Malformed)
        | Some header =>
            signature ← slice header 0 4;
            if negb (bool_decide (signature = ZIP64_SIGNATURE)) then mret (inr Malformed)
            else
              record_bytes ← le_at header 4 8;
              if MAX_CENTRAL_DIRECTORY_BYTES <? record_bytes then mret (inr (Limit MAX_CENTRAL_DIRECTORY))
              else
                count ← le_at header 32 8;
                size ← le_at header 40 8;
                mret (inl {| cd_count := count; cd_size := size; cd_end := zip64_offset |})
        end
  end.

Definition central_directory (file : list N) : exec (CentralDirectory + PreflightError) :=
  let length_ := N.of_nat (length file) in
  let tail_size := N.min length_ 65557 in
  let tail := drop (N.to_nat (length_ - tail_size)) file in
  found ← find_end tail (length tail - 21);
  match found with
  | None => mret (inr Malformed)
  | Some end_ =>
      disk ← le_at tail (end_ + 4) 2;
      start_disk ← le_at tail (end_ + 6) 2;
      if negb (disk =? 0) || negb (start_disk =? 0) then mret (inr Malformed)
      else
        count ← le_at tail (end_ + 10) 2;
        size ← le_at tail (end_ + 12) 4;
        offset ← le_at tail (end_ + 16) 4;
        let central_end := length_ - tail_size + end_ in
        if (count =? 65535) || (size =? 2 ^ 32 - 1) || (offset =? 2 ^ 32 - 1)
        then zip64_directory file central_end
        else mret (inl {| cd_count := count; cd_size := size; cd_end := central_end |})
  end.

(** ** The headers of the central directory *)

Record Walk := {
  position : N;
  consumed : N;
  entries : N;
  walk_budget : ArchiveBudget;
}.

(** One header: the result is the budget left, and the error when there is one. *)
Definition walk_turn (file : list N) (size count : N) (w : Walk)
    : exec (turn Walk (ArchiveBudget * option PreflightError)) :=
  let fail (b : ArchiveBudget) e := mret (Break (b, Some e)) in
  let b := walk_budget w in
  if consumed w <? size then
    if size - consumed w <? 46 then fail b Malformed
    else
      match read_at file (position w) 46 with
      | None => fail b Malformed
      | Some header =>
          signature ← slice header 0 4;
          if negb (bool_decide (signature = CENTRAL_SIGNATURE)) then fail b Malformed
          else if budget_jar_entries b <? entries w + 1 then fail b (Limit MAX_JAR_ENTRIES)
          else
            names ← le_at header 28 2;
            if MAX_ENTRY_NAME_BYTES <? names then fail b (Limit MAX_ENTRY_NAME)
            else
              match reserve b names with
              | (b, Some l) => fail b (Limit l)
              | (b, None) =>
                  extra ← le_at header 30 2;
                  comment ← le_at header 32 2;
                  let variable_bytes := names + extra + comment in
                  if size <? consumed w + (46 + variable_bytes) then fail b Malformed
                  else
                    mret (Continue {| position := position w + 46 + variable_bytes;
                                      consumed := consumed w + (46 + variable_bytes);
                                      entries := entries w + 1; walk_budget := b |})
              end
      end
  else mret (Break (b, if entries w =? count then None else Some Malformed)).

(** A header takes at least 46 bytes. *)
Definition walk_fuel (size : N) : nat := S (N.to_nat (size / 46)).

Definition walk_headers (file : list N) (start size count : N) (b : ArchiveBudget)
    : exec (ArchiveBudget * option PreflightError) :=
  loop (walk_fuel size) (walk_turn file size count)
    {| position := start; consumed := 0; entries := 0; walk_budget := b |}.

Definition preflight_archive (file : list N) (b : ArchiveBudget) : exec (ArchiveBudget * option PreflightError) :=
  directory ← central_directory file;
  match directory with
  | inr e => mret (b, Some e)
  | inl d =>
      if budget_jar_entries b <? cd_count d then mret (b, Some (Limit MAX_JAR_ENTRIES))
      else if budget_entries b <? cd_count d then mret (b, Some (Limit MAX_INDEX_ENTRIES))
      else if MAX_CENTRAL_DIRECTORY_BYTES <? cd_size d then mret (b, Some (Limit MAX_CENTRAL_DIRECTORY))
      else
        match checked_sub (cd_end d) (cd_size d) with
        | None => mret (b, Some Malformed)
        | Some start => walk_headers file start (cd_size d) (cd_count d) b
        end
  end.

(** ** Class directories *)

(** The walk gives the entries below a directory: [None] for one that cannot be read, otherwise
    whether it is a regular file and the length of its relative name. *)
Fixpoint preflight_directory (walk : list (option (bool * N))) (entries : N) (b : ArchiveBudget)
    : ArchiveBudget * option PreflightError :=
  match walk with
  | [] => (b, None)
  | None :: _ => (b, Some Malformed)
  | Some (false, _) :: walk => preflight_directory walk entries b
  | Some (true, name_bytes) :: walk =>
      if budget_jar_entries b <? entries + 1 then (b, Some (Limit MAX_JAR_ENTRIES))
      else if MAX_ENTRY_NAME_BYTES <? name_bytes then (b, Some (Limit MAX_ENTRY_NAME))
      else
        match reserve b name_bytes with
        | (b, Some l) => (b, Some (Limit l))
        | (b, None) => preflight_directory walk (entries + 1) b
        end
  end.

(** ** Lemmas: bytes *)

Lemma slice_in_range buffer i n :
  i + n ≤ N.of_nat (length buffer) →
  slice buffer i n = Done (take (N.to_nat n) (drop (N.to_nat i) buffer)).
Proof. intros H. unfold slice. by destruct (N.ltb_spec (N.of_nat (length buffer)) (i + n)); [lia|]. Qed.

Lemma le_at_in_range buffer i n :
  i + n ≤ N.of_nat (length buffer) →
  le_at buffer i n = Done (le_value (take (N.to_nat n) (drop (N.to_nat i) buffer))).
Proof. intros H. unfold le_at. by rewrite slice_in_range. Qed.

Lemma read_at_length file p n l : read_at file p n = Some l → N.of_nat (length l) = n.
Proof.
  unfold read_at. destruct (N.ltb_spec (N.of_nat (length file)) (p + n)); [done|]. intros [= <-].
  rewrite length_take, length_drop. lia.
Qed.

Lemma slice_middle a x b n : n = N.of_nat (length x) → slice (a ++ x ++ b) (N.of_nat (length a)) n = Done x.
Proof.
  intros ->. rewrite slice_in_range by (rewrite !length_app; lia).
  rewrite !Nat2N.id, drop_app_length, take_app_length. done.
Qed.

Lemma read_at_middle a x b p n :
  p = N.of_nat (length a) → n = N.of_nat (length x) → read_at (a ++ x ++ b) p n = Some x.
Proof.
  intros -> ->. unfold read_at.
  destruct (N.ltb_spec (N.of_nat (length (a ++ x ++ b))) (N.of_nat (length a) + N.of_nat (length x))) as [H|_].
  { rewrite !length_app in H. lia. }
  rewrite !Nat2N.id, drop_app_length, take_app_length. done.
Qed.

(** The [n] little-endian bytes of a number. *)
Fixpoint le_bytes (n : nat) (v : N) : list N :=
  match n with O => [] | S n => v mod 256 :: le_bytes n (v / 256) end.

Lemma le_bytes_length n v : length (le_bytes n v) = n.
Proof. revert v. induction n as [|n IH]; intros v; simpl; [done|by rewrite IH]. Qed.

Lemma le_bytes_value n v : v < 256 ^ N.of_nat n → le_value (le_bytes n v) = v.
Proof.
  revert v. induction n as [|n IH]; intros v Hv.
  - simpl in *. lia.
  - rewrite Nat2N.inj_succ, N.pow_succ_r' in Hv. cbn [le_bytes]. unfold le_value in *. cbn [foldr].
    rewrite IH; [|apply N.Div0.div_lt_upper_bound; lia]. pose proof (N.div_mod v 256). lia.
Qed.

Lemma le_at_bytes a n v b :
  v < 256 ^ N.of_nat n → le_at (a ++ le_bytes n v ++ b) (N.of_nat (length a)) (N.of_nat n) = Done v.
Proof. intros Hv. unfold le_at. rewrite slice_middle by by rewrite le_bytes_length. simpl. by rewrite le_bytes_value. Qed.

(** ** What is charged *)

(** The two-byte field of a header. *)
Definition field (header : list N) (i : nat) : N := le_value (take 2 (drop i header)).

(** The headers of the central directory that stand in a file from a position on, over a number
    of bytes: the lengths of their names. *)
Inductive central_run (file : list N) (start : N) : N → list N → Prop :=
| run_start : central_run file start 0 []
| run_header bytes names header :
    central_run file start bytes names →
    read_at file (start + bytes) 46 = Some header → take 4 header = CENTRAL_SIGNATURE →
    central_run file start (bytes + (46 + (field header 28 + field header 30 + field header 32)))
      (names ++ [field header 28]).

(** A budget after the entries with names of these lengths, and a budget that has not grown. *)
Definition charged (b : ArchiveBudget) (names : list N) (b' : ArchiveBudget) : Prop :=
  budget_entries b = budget_entries b' + N.of_nat (length names) ∧
  budget_names b = budget_names b' + sum names ∧ budget_jar_entries b' = budget_jar_entries b.
Definition budget_le (b' b : ArchiveBudget) : Prop :=
  budget_entries b' ≤ budget_entries b ∧ budget_names b' ≤ budget_names b ∧
  budget_jar_entries b' = budget_jar_entries b.

Lemma charged_le b names b' : charged b names b' → budget_le b' b.
Proof. intros (H1 & H2 & H3). split_and!; [lia|lia|done]. Qed.

Lemma reserve_charged b names b' n :
  charged b names b' →
  let r := reserve b' n in
  budget_le r.1 b ∧ (r.2 = None → charged b (names ++ [n]) r.1).
Proof.
  intros (H1 & H2 & H3). unfold reserve, checked_sub.
  destruct (decide (1 ≤ budget_entries b')); [|split; [by eapply charged_le|done]].
  cbn [budget_names]. destruct (decide (n ≤ budget_names b')); simpl.
  - split; [split_and!; simpl; lia|]. intros _. unfold charged. rewrite length_app, sum_app. simpl.
    split_and!; [lia|lia|done].
  - split; [split_and!; simpl; lia|done].
Qed.

(** ** The end of the central directory *)

Lemma is_end_total tail i : i + 22 ≤ N.of_nat (length tail) → wp (is_end tail i) (λ _, True).
Proof.
  intros Hi. unfold is_end. rewrite slice_in_range by lia. cbn [mbind exec_bind].
  destruct (decide _); [|done]. rewrite le_at_in_range by lia. done.
Qed.

Lemma find_end_bound tail n :
  (n ≤ length tail - 21)%nat →
  wp (find_end tail n) (λ r, match r with Some i => i + 22 ≤ N.of_nat (length tail) | None => True end).
Proof.
  induction n as [|n IH]; intros Hn; [done|]. cbn [find_end].
  eapply wp_call; [apply is_end_total; lia|]. intros [] _; simpl; [lia|]. apply IH. lia.
Qed.

Lemma zip64_total file central_end : wp (zip64_directory file central_end) (λ _, True).
Proof.
  unfold zip64_directory. destruct (_ ≫= _) as [locator|] eqn:E; [|done].
  rewrite bind_Some in E. destruct E as (p & _ & E%read_at_length).
  rewrite slice_in_range by lia. cbn [mbind exec_bind]. case_match; [done|].
  rewrite le_at_in_range by lia. cbn [mbind exec_bind].
  destruct (read_at file _ 56) as [header|] eqn:E2; [|done]. apply read_at_length in E2.
  rewrite slice_in_range by lia. cbn [mbind exec_bind]. case_match; [done|].
  rewrite !le_at_in_range by lia. cbn [mbind exec_bind]. by case_match.
Qed.

Lemma central_directory_total file : wp (central_directory file) (λ _, True).
Proof.
  unfold central_directory. set (tail := drop _ file). eapply wp_call; [by apply find_end_bound|].
  intros [end_|] Hend; [|done]. rewrite !le_at_in_range by lia. cbn [mbind exec_bind].
  case_match; [done|]. case_match; [apply zip64_total|done].
Qed.

(** ** The walk *)

Record walked (file : list N) (start size : N) (b : ArchiveBudget) (names : list N) (w : Walk) : Prop := {
  walked_run : central_run file start (consumed w) names;
  walked_position : position w = start + consumed w;
  walked_size : consumed w ≤ size;
  walked_entries : entries w = N.of_nat (length names);
  walked_charged : charged b names (walk_budget w);
  walked_names : Forall (λ n, n ≤ MAX_ENTRY_NAME_BYTES) names;
  walked_bound : N.of_nat (length names) ≤ budget_jar_entries b;
}.

(** The outcome of a walk: the budget never grows, and a walk that succeeds has charged exactly
    the headers that fill the directory, as many as were declared. *)
Definition walk_outcome (file : list N) (start size count : N) (b : ArchiveBudget)
    (r : ArchiveBudget * option PreflightError) : Prop :=
  budget_le r.1 b ∧
  (r.2 = None → ∃ names, central_run file start size names ∧ N.of_nat (length names) = count ∧
     charged b names r.1 ∧ Forall (λ n, n ≤ MAX_ENTRY_NAME_BYTES) names ∧ count ≤ budget_jar_entries b).

Lemma walk_turn_spec file start size count b w :
  (∃ names, walked file start size b names w) →
  wp (walk_turn file size count w) (λ t,
    match t with
    | Continue w' => (∃ names, walked file start size b names w') ∧
        (N.to_nat ((size - consumed w') / 46) < N.to_nat ((size - consumed w) / 46))%nat
    | Break r => walk_outcome file start size count b r
    end).
Proof.
  intros (names & [Hrun Hpos Hsize Hent Hch Hnames Hbound]). unfold walk_turn.
  assert (Hfail : ∀ e, walk_outcome file start size count b (walk_budget w, Some e)).
  { intros e. split; [by eapply charged_le|done]. }
  destruct (N.ltb_spec (consumed w) size) as [Hlt|Hge].
  2: { apply wp_mret. destruct (N.eqb_spec (entries w) count) as [Hc|]; [|apply Hfail].
       split; [by eapply charged_le|]. intros _. exists names. replace size with (consumed w) by lia.
       split_and!; [done|lia|done|done|lia]. }
  destruct (N.ltb_spec (size - consumed w) 46) as [|H46]; [apply Hfail|].
  destruct (read_at file (position w) 46) as [header|] eqn:Hread; [|apply Hfail].
  pose proof (read_at_length _ _ _ _ Hread) as Hlen. rewrite Hpos in Hread.
  rewrite slice_in_range by lia. cbn [mbind exec_bind].
  destruct (bool_decide _) eqn:Hsig; [|apply Hfail]. apply bool_decide_eq_true in Hsig. cbn [negb].
  destruct (N.ltb_spec (budget_jar_entries (walk_budget w)) (entries w + 1)) as [|Hjar]; [apply Hfail|].
  rewrite !le_at_in_range by lia. cbn [mbind exec_bind]. change (N.to_nat 2) with 2%nat.
  change (N.to_nat 28) with 28%nat. change (N.to_nat 30) with 30%nat. change (N.to_nat 32) with 32%nat.
  fold (field header 28) (field header 30) (field header 32).
  destruct (N.ltb_spec MAX_ENTRY_NAME_BYTES (field header 28)) as [|Hname]; [apply Hfail|].
  pose proof (reserve_charged b names (walk_budget w) (field header 28) Hch) as [Hle Hres].
  destruct (reserve (walk_budget w) (field header 28)) as [b' [l|]]; [by split|]. specialize (Hres eq_refl).
  cbn [fst snd] in *. destruct (N.ltb_spec size (consumed w + (46 + (field header 28 + field header 30 + field header 32)))).
  { by split. }
  apply wp_mret. split.
  - exists (names ++ [field header 28]). split; cbn [consumed position entries walk_budget].
    + by apply run_header.
    + lia.
    + done.
    + rewrite length_app. simpl. lia.
    + done.
    + by apply Forall_app_2; [|constructor].
    + rewrite length_app. simpl. destruct Hch as (_ & _ & Hj). lia.
  - cbn [consumed].
    enough ((size - (consumed w + (46 + (field header 28 + field header 30 + field header 32)))) / 46
            < (size - consumed w) / 46) by lia.
    apply N.lt_le_trans with ((size - consumed w - 46) / 46 + 1).
    + enough (∀ x y, x ≤ y → x / 46 < y / 46 + 1) as Hd by (apply Hd; lia).
      intros x y Hxy. pose proof (N.Div0.div_le_mono x y 46 Hxy). lia.
    + rewrite <- N.div_add by lia. apply N.Div0.div_le_mono. lia.
Qed.

Lemma walk_headers_spec file start size count b :
  wp (walk_headers file start size count b) (walk_outcome file start size count b).
Proof.
  unfold walk_headers. apply (wp_loop (λ w, ∃ names, walked file start size b names w)
    (λ w, N.to_nat ((size - consumed w) / 46))).
  - intros w Hw. by apply walk_turn_spec.
  - exists []. split; simpl; [constructor|lia|lia|done| |constructor|lia].
    split_and!; simpl; [lia|lia|done].
  - unfold walk_fuel. simpl. rewrite N.sub_0_r. lia.
Qed.

(** A file whose declared central directory is exactly a run of headers within the limits, and
    the budget charged for them. *)
Definition charged_exactly (file : list N) (b b' : ArchiveBudget) : Prop :=
  ∃ d start names, central_directory file = Done (inl d) ∧ start + cd_size d = cd_end d ∧
    cd_size d ≤ MAX_CENTRAL_DIRECTORY_BYTES ∧ central_run file start (cd_size d) names ∧
    N.of_nat (length names) = cd_count d ∧ cd_count d ≤ budget_jar_entries b ∧
    Forall (λ n, n ≤ MAX_ENTRY_NAME_BYTES) names ∧ charged b names b'.

Lemma preflight_spec file b :
  wp (preflight_archive file b) (λ r, budget_le r.1 b ∧ (r.2 = None → charged_exactly file b r.1)).
Proof.
  unfold preflight_archive. destruct (wp_Done _ _ (central_directory_total file)) as (d & Hd & _).
  rewrite Hd. cbn [mbind exec_bind].
  assert (Hfail : ∀ e, budget_le (b, Some e).1 b ∧ ((b, @Some PreflightError e).2 = None → charged_exactly file b (b, Some e).1)).
  { intros e. by split; [split_and!|]. }
  destruct d as [d|e]; [|apply Hfail]. destruct (N.ltb_spec (budget_jar_entries b) (cd_count d)); [apply Hfail|].
  destruct (N.ltb_spec (budget_entries b) (cd_count d)); [apply Hfail|].
  destruct (N.ltb_spec MAX_CENTRAL_DIRECTORY_BYTES (cd_size d)); [apply Hfail|].
  unfold checked_sub. destruct (decide (cd_size d ≤ cd_end d)); [|apply Hfail].
  eapply wp_mono; [apply walk_headers_spec|]. intros r [Hle Hok]. split; [done|]. intros Hr.
  destruct (Hok Hr) as (names & Hrun & Hlen & Hch & Hnames & Hbound).
  exists d, (cd_end d - cd_size d), names. split_and!; [done|lia|done..].
Qed.

(** C17: An archive is charged exactly, before the library opens it: on any bytes the preflight
    neither panics nor runs on, it never leaves a larger budget, and when it accepts a file the
    central directory the file declares consists, byte for byte, of as many headers as are
    declared, at most [MAX_JAR_ENTRIES] of them, none with a name over [MAX_ENTRY_NAME_BYTES], and
    the budget is charged one entry and the bytes of the name for each. *)
Theorem preflight_charges file b :
  wp (preflight_archive file b) (λ r, budget_le r.1 b ∧ (r.2 = None → charged_exactly file b r.1)).
Proof. apply preflight_spec. Qed.

(** ** A file as an archiver writes it *)

Record ZipEntry := {
  fixed : list N;
  zip_name : list N;
  zip_extra : list N;
  zip_comment : list N;
  attributes : list N;
}.
Definition len (l : list N) : N := N.of_nat (length l).
Definition entry_valid (e : ZipEntry) : Prop :=
  length (fixed e) = 24%nat ∧ length (attributes e) = 12%nat ∧
  len (zip_name e) ≤ MAX_ENTRY_NAME_BYTES ∧ len (zip_extra e) < 65536 ∧ len (zip_comment e) < 65536.
Definition header_bytes (e : ZipEntry) : list N :=
  CENTRAL_SIGNATURE ++ fixed e ++ le_bytes 2 (len (zip_name e)) ++ le_bytes 2 (len (zip_extra e))
  ++ le_bytes 2 (len (zip_comment e)) ++ attributes e.
Definition variable_part (e : ZipEntry) : list N := zip_name e ++ zip_extra e ++ zip_comment e.
Definition central_bytes (es : list ZipEntry) : list N := mjoin ((λ e, header_bytes e ++ variable_part e) <$> es).
Definition end_record (count size offset : N) : list N :=
  END_SIGNATURE ++ le_bytes 2 0 ++ le_bytes 2 0 ++ le_bytes 2 count ++ le_bytes 2 count
  ++ le_bytes 4 size ++ le_bytes 4 offset ++ le_bytes 2 0.
Definition zip_file (data : list N) (es : list ZipEntry) : list N :=
  data ++ central_bytes es ++ end_record (N.of_nat (length es)) (len (central_bytes es)) (len data).

Lemma header_bytes_length e : entry_valid e → length (header_bytes e) = 46%nat.
Proof.
  intros (Hf & Ha & _). unfold header_bytes. rewrite !length_app, !le_bytes_length, Hf, Ha. done.
Qed.

Lemma le_at_here buffer a n v b i :
  buffer = a ++ le_bytes n v ++ b → i = N.of_nat (length a) → v < 256 ^ N.of_nat n →
  le_at buffer i (N.of_nat n) = Done v.
Proof. intros -> ->. apply le_at_bytes. Qed.

Lemma header_fields e :
  entry_valid e →
  slice (header_bytes e) 0 4 = Done CENTRAL_SIGNATURE ∧ le_at (header_bytes e) 28 2 = Done (len (zip_name e)) ∧
  le_at (header_bytes e) 30 2 = Done (len (zip_extra e)) ∧ le_at (header_bytes e) 32 2 = Done (len (zip_comment e)).
Proof.
  intros (Hf & Ha & Hn & Hx & Hc). unfold MAX_ENTRY_NAME_BYTES in Hn. unfold header_bytes. split_and!.
  - apply (slice_middle [] CENTRAL_SIGNATURE). done.
  - apply (le_at_here _ (CENTRAL_SIGNATURE ++ fixed e) 2 _ (le_bytes 2 (len (zip_extra e))
      ++ le_bytes 2 (len (zip_comment e)) ++ attributes e)); [by rewrite <- !app_assoc| |simpl; lia].
    rewrite length_app, Hf. done.
  - apply (le_at_here _ (CENTRAL_SIGNATURE ++ fixed e ++ le_bytes 2 (len (zip_name e))) 2 _
      (le_bytes 2 (len (zip_comment e)) ++ attributes e)); [by rewrite <- !app_assoc| |simpl; lia].
    rewrite !length_app, Hf, le_bytes_length. done.
  - apply (le_at_here _ (CENTRAL_SIGNATURE ++ fixed e ++ le_bytes 2 (len (zip_name e)) ++ le_bytes 2 (len (zip_extra e))) 2 _
      (attributes e)); [by rewrite <- !app_assoc| |simpl; lia].
    rewrite !length_app, Hf, !le_bytes_length. done.
Qed.

(** The budget left after entries, and that it covers them. *)
Definition charge (b : ArchiveBudget) (es : list ZipEntry) : ArchiveBudget :=
  {| budget_entries := budget_entries b - N.of_nat (length es);
     budget_names := budget_names b - sum ((λ e, len (zip_name e)) <$> es);
     budget_jar_entries := budget_jar_entries b |}.
Definition covers (b : ArchiveBudget) (es : list ZipEntry) : Prop :=
  N.of_nat (length es) ≤ budget_entries b ∧ sum ((λ e, len (zip_name e)) <$> es) ≤ budget_names b.

Lemma central_bytes_cons e es : central_bytes (e :: es) = header_bytes e ++ variable_part e ++ central_bytes es.
Proof. unfold central_bytes. rewrite fmap_cons. change (mjoin (?x :: ?l)) with (x ++ mjoin l). by rewrite <- app_assoc. Qed.

Lemma len_app a b : len (a ++ b) = len a + len b.
Proof. unfold len. rewrite length_app. lia. Qed.

(** One turn over a valid header that the budget covers. *)
Lemma walk_entry e pre post size count c n b :
  entry_valid e → 1 ≤ budget_entries b → len (zip_name e) ≤ budget_names b → n + 1 ≤ budget_jar_entries b →
  c + (46 + len (variable_part e)) ≤ size →
  walk_turn (pre ++ header_bytes e ++ variable_part e ++ post) size count
    {| position := len pre; consumed := c; entries := n; walk_budget := b |}
  = Done (Continue {| position := len (pre ++ header_bytes e ++ variable_part e);
                      consumed := c + (46 + len (variable_part e)); entries := n + 1;
                      walk_budget := charge b [e] |}).
Proof.
  intros He Hent Hnam Hjar Hfits. unfold walk_turn. cbn [consumed position entries walk_budget].
  pose proof (header_bytes_length e He) as Hlen. assert (len (header_bytes e) = 46) as Hl46 by (unfold len; lia).
  destruct (header_fields e He) as (Hsig & Hn & Hx & Hc).
  assert (len (variable_part e) = len (zip_name e) + len (zip_extra e) + len (zip_comment e)) as Hvar.
  { unfold variable_part. rewrite !len_app. lia. }
  destruct (N.ltb_spec c size); [|lia]. destruct (N.ltb_spec (size - c) 46); [lia|].
  rewrite (read_at_middle pre (header_bytes e)) by (unfold len in *; lia).
  rewrite Hsig. cbn [mbind exec_bind]. rewrite bool_decide_eq_true_2 by done. cbn [negb].
  destruct (N.ltb_spec (budget_jar_entries b) (n + 1)); [lia|]. rewrite Hn, Hx, Hc. cbn [mbind exec_bind].
  destruct He as (_ & _ & Hname & _). destruct (N.ltb_spec MAX_ENTRY_NAME_BYTES (len (zip_name e))); [lia|].
  unfold reserve, checked_sub. destruct (decide (1 ≤ budget_entries b)); [|lia]. cbn [budget_names].
  destruct (decide (len (zip_name e) ≤ budget_names b)); [|lia].
  destruct (N.ltb_spec size (c + (46 + (len (zip_name e) + len (zip_extra e) + len (zip_comment e))))); [lia|].
  rewrite <- Hvar. unfold charge. cbn [fmap list_fmap length budget_jar_entries sum foldr].
  rewrite !len_app, N.add_0_r. cbn [mret exec_ret]. do 2 f_equal.
  apply (f_equal2 (λ p b, {| position := p; consumed := c + (46 + len (variable_part e)); entries := n + 1; walk_budget := b |}));
    [lia|done].
Qed.

Lemma charge_cons b e es : charge (charge b [e]) es = charge b (e :: es).
Proof. unfold charge. cbn [fmap list_fmap length budget_entries budget_names budget_jar_entries]. rewrite !sum_cons. simpl. f_equal; lia. Qed.

Lemma walk_entries es pre post size count c n b fuel :
  Forall entry_valid es → covers b es → n + N.of_nat (length es) ≤ budget_jar_entries b →
  (length es < fuel)%nat → c + len (central_bytes es) = size → n + N.of_nat (length es) = count →
  loop fuel (walk_turn (pre ++ central_bytes es ++ post) size count)
    {| position := len pre; consumed := c; entries := n; walk_budget := b |} = Done (charge b es, None).
Proof.
  intros Hes. revert pre c n b fuel.
  induction Hes as [|e es He Hes IH]; intros pre c n b fuel [Hcov1 Hcov2] Hjar Hfuel Hsize Hcount;
    (destruct fuel as [|fuel]; [simpl in Hfuel; lia|]); cbn [loop].
  - unfold walk_turn. cbn [consumed position entries walk_budget]. simpl in *.
    destruct (N.ltb_spec c size); [unfold len in *; simpl in *; lia|]. cbn [mbind exec_bind].
    destruct (N.eqb_spec n count); [|lia]. unfold charge. simpl. rewrite !N.sub_0_r. by destruct b.
  - rewrite central_bytes_cons in Hsize |- *. rewrite !len_app in Hsize.
    assert (len (header_bytes e) = 46) as Hl46 by (unfold len; rewrite (header_bytes_length e He); done).
    cbn [fmap list_fmap length] in *. rewrite sum_cons in Hcov2. rewrite <- !app_assoc.
    rewrite walk_entry by (done || lia). cbn [mbind exec_bind].
    replace (pre ++ header_bytes e ++ variable_part e ++ central_bytes es ++ post)
      with ((pre ++ header_bytes e ++ variable_part e) ++ central_bytes es ++ post) by by rewrite <- !app_assoc.
    rewrite IH; [by rewrite charge_cons|split; simpl; lia|simpl; lia|lia|lia|lia].
Qed.

Lemma is_end_record tail count size offset :
  is_end (tail ++ end_record count size offset) (N.of_nat (length tail)) = Done true.
Proof.
  unfold is_end, end_record. rewrite (slice_middle tail END_SIGNATURE) by done. cbn [mbind exec_bind].
  rewrite decide_True by done. erewrite (le_at_here _ (tail ++ END_SIGNATURE ++ le_bytes 2 0 ++ le_bytes 2 0
    ++ le_bytes 2 count ++ le_bytes 2 count ++ le_bytes 4 size ++ le_bytes 4 offset) 2 0 []); cycle 1.
  - by rewrite <- !app_assoc.
  - rewrite !length_app, !le_bytes_length. simpl. lia.
  - done.
  - cbn [mbind exec_bind]. rewrite !length_app, !le_bytes_length. simpl.
    f_equal. apply N.eqb_eq. lia.
Qed.

Lemma end_record_length count size offset : length (end_record count size offset) = 22%nat.
Proof. unfold end_record. by rewrite !length_app, !le_bytes_length. Qed.

(** The fields of the closing record, wherever it starts. *)
Lemma end_record_fields t count size offset :
  count < 65536 → size < 2 ^ 32 → offset < 2 ^ 32 →
  let tail := t ++ end_record count size offset in
  let at_ := N.of_nat (length t) in
  le_at tail (at_ + 4) 2 = Done 0 ∧ le_at tail (at_ + 6) 2 = Done 0 ∧ le_at tail (at_ + 10) 2 = Done count ∧
  le_at tail (at_ + 12) 4 = Done size ∧ le_at tail (at_ + 16) 4 = Done offset.
Proof.
  intros Hc Hs Ho tail at_. unfold tail, at_, end_record.
  set (z := le_bytes 2 0). set (c := le_bytes 2 count). set (s := le_bytes 4 size). set (o := le_bytes 4 offset).
  assert (length z = 2%nat ∧ length c = 2%nat ∧ length s = 4%nat) as (Hz & Hcl & Hsl).
  { unfold z, c, s. by rewrite !le_bytes_length. }
  split_and!.
  - apply (le_at_here _ (t ++ END_SIGNATURE) 2 0 (z ++ c ++ c ++ s ++ o ++ z)); [by rewrite <- !app_assoc| |done].
    rewrite length_app. simpl. lia.
  - apply (le_at_here _ (t ++ END_SIGNATURE ++ z) 2 0 (c ++ c ++ s ++ o ++ z)); [by rewrite <- !app_assoc| |done].
    rewrite !length_app. simpl. lia.
  - apply (le_at_here _ (t ++ END_SIGNATURE ++ z ++ z ++ c) 2 count (s ++ o ++ z)); [by rewrite <- !app_assoc| |simpl; lia].
    rewrite !length_app. simpl. lia.
  - apply (le_at_here _ (t ++ END_SIGNATURE ++ z ++ z ++ c ++ c) 4 size (o ++ z)); [by rewrite <- !app_assoc| |simpl; lia].
    rewrite !length_app. simpl. lia.
  - apply (le_at_here _ (t ++ END_SIGNATURE ++ z ++ z ++ c ++ c ++ s) 4 offset z); [by rewrite <- !app_assoc| |simpl; lia].
    rewrite !length_app. simpl. lia.
Qed.

Lemma central_directory_zip data es :
  N.of_nat (length es) < 65535 → len (central_bytes es) < 2 ^ 32 - 1 → len data < 2 ^ 32 - 1 →
  central_directory (zip_file data es)
  = Done (inl {| cd_count := N.of_nat (length es); cd_size := len (central_bytes es);
                 cd_end := len data + len (central_bytes es) |}).
Proof.
  intros Hc Hs Ho. unfold central_directory, zip_file. rewrite app_assoc.
  set (body := data ++ central_bytes es). set (record := end_record _ _ _).
  assert (Hr : length record = 22%nat) by apply end_record_length.
  assert (Hb : len body = len data + len (central_bytes es)) by apply len_app.
  set (k := N.of_nat (length (body ++ record)) - N.min (N.of_nat (length (body ++ record))) 65557).
  assert (Hk : k ≤ len body) by (unfold k, len in *; rewrite length_app, Hr; lia).
  rewrite drop_app_le by (unfold len in *; lia). set (t := drop (N.to_nat k) body).
  assert (Ht : N.of_nat (length t) = len body - k) by (unfold t, len in *; rewrite length_drop; lia).
  replace (length (t ++ record) - 21)%nat with (S (length t)) by (rewrite length_app, Hr; lia).
  cbn [find_end]. unfold record. rewrite is_end_record. cbn [mbind exec_bind mret exec_ret].
  destruct (end_record_fields t (N.of_nat (length es)) (len (central_bytes es)) (len data)) as (-> & -> & -> & -> & ->);
    [lia..|]. cbn [mbind exec_bind].
  change (0 =? 0) with true. cbn [negb orb].
  destruct (N.eqb_spec (N.of_nat (length es)) 65535); [lia|].
  destruct (N.eqb_spec (len (central_bytes es)) (2 ^ 32 - 1)); [lia|].
  destruct (N.eqb_spec (len data) (2 ^ 32 - 1)); [lia|]. cbn [orb mret exec_ret].
  do 3 f_equal. fold record. rewrite Ht. fold (len (body ++ record)). unfold k, len in *. lia.
Qed.

(** A plain archive passes: a file made of any data, the headers of its entries and the
    record that closes it is accepted when the budget covers its entries and their names and it
    is within the limits, and the budget left is exactly what they leave. *)
Theorem plain_archive_accepted data es b :
  Forall entry_valid es → covers b es → N.of_nat (length es) ≤ budget_jar_entries b →
  N.of_nat (length es) < 65535 → len (central_bytes es) ≤ MAX_CENTRAL_DIRECTORY_BYTES → len data < 2 ^ 32 - 1 →
  preflight_archive (zip_file data es) b = Done (charge b es, None).
Proof.
  intros Hes Hcov Hjar Hcount Hsize Hdata. unfold preflight_archive.
  rewrite central_directory_zip; [|done|unfold MAX_CENTRAL_DIRECTORY_BYTES in Hsize; lia|done].
  cbn [mbind exec_bind cd_count cd_size cd_end]. destruct Hcov as [Hc1 Hc2].
  destruct (N.ltb_spec (budget_jar_entries b) (N.of_nat (length es))); [lia|].
  destruct (N.ltb_spec (budget_entries b) (N.of_nat (length es))); [lia|].
  destruct (N.ltb_spec MAX_CENTRAL_DIRECTORY_BYTES (len (central_bytes es))); [lia|].
  unfold checked_sub. destruct (decide _) as [|Hn]; [|exfalso; apply Hn; lia].
  replace (len data + len (central_bytes es) - len (central_bytes es)) with (len data) by lia.
  unfold walk_headers, zip_file. apply walk_entries; [done|by split|lia| |lia|lia].
  unfold walk_fuel. enough (46 * N.of_nat (length es) ≤ len (central_bytes es)) as Hl.
  { assert (N.of_nat (length es) ≤ len (central_bytes es) / 46) by by apply N.div_le_lower_bound. lia. }
  clear - Hes. induction Hes as [|e es He _ IH]; [simpl; lia|]. rewrite central_bytes_cons, !len_app.
  assert (len (header_bytes e) = 46) by (unfold len; rewrite (header_bytes_length e He); done). simpl. lia.
Qed.

Definition sample_entry : ZipEntry :=
  {| fixed := replicate 24 0; zip_name := lit "a/B.class"; zip_extra := []; zip_comment := [];
     attributes := replicate 12 0 |}.
Definition sample_budget : ArchiveBudget :=
  {| budget_entries := 10; budget_names := 100; budget_jar_entries := 10 |}.
Lemma plain_archive_accepted_witness :
  preflight_archive (zip_file [1; 2; 3] [sample_entry; sample_entry]) sample_budget
  = Done (charge sample_budget [sample_entry; sample_entry], None) ∧
  budget_names (charge sample_budget [sample_entry; sample_entry]) = 82.
Proof.
  split; [|vm_compute; reflexivity]. apply (plain_archive_accepted [1; 2; 3] [sample_entry; sample_entry] sample_budget).
  - unfold entry_valid. decide_now.
  - unfold covers. decide_now.
  - decide_now.
  - decide_now.
  - decide_now.
  - decide_now.
Defined.

(** ** Class directories *)

(** The regular files of a walk: the lengths of their names. *)
Definition file_names (walk : list (option (bool * N))) : list N :=
  omap (λ e, match e with Some (true, n) => Some n | _ => None end) walk.

Lemma preflight_directory_charged walk b names b' :
  charged b names b' → Forall (λ n, n ≤ MAX_ENTRY_NAME_BYTES) names →
  let r := preflight_directory walk (N.of_nat (length names)) b' in
  budget_le r.1 b ∧
  (r.2 = None → charged b (names ++ file_names walk) r.1 ∧
     Forall (λ n, n ≤ MAX_ENTRY_NAME_BYTES) (names ++ file_names walk) ∧
     (N.of_nat (length names) ≤ budget_jar_entries b → N.of_nat (length (names ++ file_names walk)) ≤ budget_jar_entries b)).
Proof.
  revert names b'. induction walk as [|[[[] n]|] walk IH]; intros names b' Hch Hnames; simpl.
  - rewrite app_nil_r. split; [by eapply charged_le|done].
  - destruct (N.ltb_spec (budget_jar_entries b') (N.of_nat (length names) + 1)) as [|Hjar];
      [split; [by eapply charged_le|done]|].
    destruct (N.ltb_spec MAX_ENTRY_NAME_BYTES n) as [|Hn]; [split; [by eapply charged_le|done]|].
    destruct (reserve_charged b names b' n Hch) as [Hle Hres].
    destruct (reserve b' n) as [b2 [l|]]; [by split|]. specialize (Hres eq_refl). cbn [fst snd] in *.
    specialize (IH (names ++ [n]) b2 Hres).
    rewrite length_app in IH. cbn [length] in IH. replace (N.of_nat (length names + 1)) with (N.of_nat (length names) + 1) in IH by lia.
    destruct IH as [IH1 IH2]; [by apply Forall_app_2; [|constructor]|]. split; [done|]. intros Hr.
    destruct (IH2 Hr) as (H1 & H2 & H3). rewrite <- app_assoc in *. simpl in *. split_and!; [done..|].
    intros _. apply H3. destruct Hch as (_ & _ & Hj). lia.
  - by apply IH.
  - split; [by eapply charged_le|done].
Qed.

(** A class directory is charged as a JAR is: when it is accepted, the budget is charged one
    entry and the bytes of the name for each of its regular files, which are at most
    [MAX_JAR_ENTRIES], each name at most [MAX_ENTRY_NAME_BYTES] long; otherwise the budget is at
    least not larger than before. *)
Theorem directory_charged walk b :
  let r := preflight_directory walk 0 b in
  budget_le r.1 b ∧
  (r.2 = None → charged b (file_names walk) r.1 ∧
     Forall (λ n, n ≤ MAX_ENTRY_NAME_BYTES) (file_names walk) ∧
     N.of_nat (length (file_names walk)) ≤ budget_jar_entries b).
Proof.
  intros r. destruct (preflight_directory_charged walk b [] b) as [H1 H2]; [|constructor|].
  - unfold charged. simpl. split_and!; [lia|lia|done].
  - split; [exact H1|]. intros Hr. destruct (H2 Hr) as (? & ? & H3). split_and!; [done..|]. apply H3. simpl. lia.
Qed.
