(* ===== verification/ReactorPom.v ===== *)
(** * ReactorPom: the coordinate of a reactor module

    Models how [src/index.rs] resolves the coordinate of a module from its POM: the properties
    inherited from the parents inside the reactor, the user properties of [.mvn/maven.config], and
    the interpolation of [${name}] references.  Reading a POM and the file system are the class
    [ReactorFiles]. *)

From S2P Require Import Prelude.
From S2P Require Import Text.
From S2P Require Import TextSearch.
From S2P Require Import Paths.
From S2P Require Import Artifacts.

Open Scope N_scope.

Record ReactorPomParent := {
  parent_group_id : option str;
  parent_artifact_id : option str;
  parent_version : option str;
  relative_path : option str;
}.
Record ReactorPom := {
  pom_group_id : option str;
  pom_artifact_id : option str;
  pom_version : option str;
  pom_parent : option ReactorPomParent;
  pom_properties : gmap str str;
}.

(** [read_pom] is [read_reactor_pom]: a bounded read and the XML deserializer. *)
Class ReactorFiles := {
  is_dir : path → bool;
  canonical : path → option path;
  read_pom : path → option ReactorPom;
  read_config : path → option str;
}.

Definition MAX_REACTOR_PARENT_DEPTH : nat := 16.
Definition MAX_INTERPOLATION_DEPTH : nat := 8.

Section Reactor.
Context `{ReactorFiles} (reactor_root : path).

(** The file a [relativePath] names from a POM, when it is another file of the reactor. *)
Definition parent_candidate (current : path) (relative_path : option str) : option path :=
  let relative_path := default (lit "../pom.xml") relative_path in
  if bool_decide (trim relative_path = []) then None
  else
    match current with
    | [] => None
    | _ =>
        let candidate := path_join (removelast current) (trim relative_path) in
        let candidate := if is_dir candidate then candidate ++ [lit "pom.xml"] else candidate in
        candidate ← canonical candidate;
        if negb (path_starts_with reactor_root candidate) || bool_decide (candidate = current) then None
        else Some candidate
    end.

(** The properties of the parents, the nearest first; [parent] is the [relativePath] of the parent
    the POM at [current] declares. *)
Fixpoint parent_chain (levels : nat) (current : path) (parent : option (option str)) : list (gmap str str) :=
  match levels, parent with
  | S levels, Some relative =>
      match
        candidate ← parent_candidate current relative;
        parent_pom ← read_pom candidate;
        Some (candidate, parent_pom)
      with
      | Some (candidate, parent_pom) =>
          pom_properties parent_pom
          :: parent_chain levels candidate (relative_path <$> pom_parent parent_pom)
      | None => []
      end
  | _, _ => []
  end.

(** [BTreeMap::extend]. *)
Definition extend (properties more : gmap str str) : gmap str str := more ∪ properties.

Definition inherited_properties (module_pom : path) (pom : ReactorPom) : gmap str str :=
  let chain := parent_chain MAX_REACTOR_PARENT_DEPTH module_pom (relative_path <$> pom_parent pom) in
  extend (foldl extend ∅ (reverse chain)) (pom_properties pom).

(** The definitions of a command line, in order. *)
Fixpoint config_definitions (tokens : list str) : list (str * str) :=
  match tokens with
  | [] => []
  | token :: tokens =>
      if bool_decide (token = lit "-D") || bool_decide (token = lit "--define") then
        match tokens with
        | [] => []
        | definition :: tokens => option_list (split_once (ch "=") definition) ++ config_definitions tokens
        end
      else
        let definition :=
          match strip_prefix (lit "--define=") token with
          | Some d => Some d
          | None => strip_prefix (lit "-D") token
          end in
        option_list (definition ≫= split_once (ch "=")) ++ config_definitions tokens
  end.

Definition maven_config_properties : gmap str str :=
  match read_config (reactor_root ++ [lit ".mvn"; lit "maven.config"]) with
  | None => ∅
  | Some config =>
      foldl (λ properties '(name, value), <[name := value]> properties) ∅
        (config_definitions (split_whitespace config))
  end.

(** The references of a value are replaced from the left; every turn takes at least one character,
    so one unit of fuel per character and one more are enough. *)
Fixpoint interpolate_rest (replace : str → option str) (fuel : nat) (rest : str) : option str :=
  match fuel with
  | O => None
  | S fuel =>
      match split_once_str (lit "${") rest with
      | None => Some rest
      | Some (before, after) =>
          '(name, rest) ← split_once (ch "}") after;
          replacement ← replace name;
          resolved ← interpolate_rest replace fuel rest;
          Some (before ++ replacement ++ resolved)
      end
  end.

Fixpoint interpolate (lookup : gmap str str) (depth : nat) (value : str) : option str :=
  interpolate_rest (λ name,
    match depth with
    | O => None
    | S depth => value ← lookup !! name; interpolate lookup depth value
    end) (S (length value)) value.

(** The properties a coordinate is interpolated with. *)
Definition project_names (raw_group raw_artifact raw_version : str) : list (str * str) :=
  '(name, value) ← [(lit "groupId", raw_group); (lit "artifactId", raw_artifact); (lit "version", raw_version)];
  prefix ← [lit "project"; lit "pom"];
  [(prefix ++ lit "." ++ name, value)].
Definition parent_names (parent : ReactorPomParent) : list (str * str) :=
  '(name, value) ← [(lit "groupId", parent_group_id parent); (lit "artifactId", parent_artifact_id parent);
                    (lit "version", parent_version parent)];
  match value with
  | Some value => [(lit "project.parent." ++ name, value); (lit "parent." ++ name, value)]
  | None => []
  end.
Definition insert_all (properties : gmap str str) (entries : list (str * str)) : gmap str str :=
  foldl (λ properties '(name, value), <[name := value]> properties) properties entries.

Definition coordinate_lookup (module_pom : path) (pom : ReactorPom) (raw_group raw_artifact raw_version : str)
    : gmap str str :=
  let lookup := inherited_properties module_pom pom in
  let lookup := insert_all lookup (project_names raw_group raw_artifact raw_version) in
  let lookup := insert_all lookup (default [] (parent_names <$> pom_parent pom)) in
  extend lookup maven_config_properties.

Definition resolve (lookup : gmap str str) (value : str) : option str :=
  value ← interpolate lookup MAX_INTERPOLATION_DEPTH (trim value);
  if bool_decide (value = []) || contains (lit "${") value then None else Some value.

Definition or_else {A} (a b : option A) : option A := match a with Some _ => a | None => b end.

Definition reactor_module_coordinate (module_directory : path) : option ArtifactKey :=
  let module_pom := module_directory ++ [lit "pom.xml"] in
  pom ← read_pom module_pom;
  raw_group ← or_else (pom_group_id pom) (pom_parent pom ≫= parent_group_id);
  raw_version ← or_else (pom_version pom) (pom_parent pom ≫= parent_version);
  raw_artifact ← pom_artifact_id pom;
  let lookup := coordinate_lookup module_pom pom raw_group raw_artifact raw_version in
  group_id ← resolve lookup raw_group;
  artifact_id ← resolve lookup raw_artifact;
  version ← resolve lookup raw_version;
  Some {| group_id := group_id; artifact_id := artifact_id; version := version |}.
End Reactor.

(** ** Interpolation *)

(** A value up to its first reference, the name referred to, and the rest. *)
Definition splits (value before name rest : str) : Prop :=
  ∃ after, split_once_str (lit "${") value = Some (before, after) ∧ split_once (ch "}") after = Some (name, rest).

(** What a value stands for when names stand for what [R] says. *)
Inductive expands_with (R : str → str → Prop) : str → str → Prop :=
| expands_plain value : contains (lit "${") value = false → expands_with R value value
| expands_reference value before name rest replacement resolved :
    splits value before name rest → R name replacement → expands_with R rest resolved →
    expands_with R value (before ++ replacement ++ resolved).

(** The values of names are expanded in turn, [depth] levels deep. *)
Fixpoint expands (lookup : gmap str str) (depth : nat) : str → str → Prop :=
  expands_with (λ name replacement,
    match depth with
    | O => False
    | S depth => ∃ value, lookup !! name = Some value ∧ expands lookup depth value replacement
    end).

Lemma splits_shorter value before name rest : splits value before name rest → (length rest < length value)%nat.
Proof.
  intros (after & H1%split_once_str_sound & H2). apply split_once_spec in H2 as [-> _].
  rewrite H1, !length_app. simpl. lia.
Qed.

Lemma splits_fun value b n r b' n' r' : splits value b n r → splits value b' n' r' → b = b' ∧ n = n' ∧ r = r'.
Proof. intros (a & H1 & H2) (a' & H1' & H2'). naive_solver. Qed.

Lemma splits_not_plain value b n r : splits value b n r → contains (lit "${") value = false → False.
Proof. intros (a & H1 & _) Hc%split_once_str_None. congruence. Qed.

Lemma interpolate_rest_exact replace (R : str → str → Prop) fuel rest resolved :
  (∀ name w, replace name = Some w ↔ R name w) → (length rest < fuel)%nat →
  interpolate_rest replace fuel rest = Some resolved ↔ expands_with R rest resolved.
Proof.
  intros HR. revert rest resolved. induction fuel as [|fuel IH]; intros rest resolved Hf; [lia|].
  cbn [interpolate_rest]. destruct (split_once_str (lit "${") rest) as [[before after]|] eqn:E.
  - rewrite bind_Some. split.
    + intros ([name rest'] & Hs & Hb). rewrite bind_Some in Hb. destruct Hb as (w & Hw & Hb).
      rewrite bind_Some in Hb. destruct Hb as (r & Hr & [= <-]).
      assert (splits rest before name rest') as Hsp by (by exists after).
      apply IH in Hr; [|apply splits_shorter in Hsp; lia]. apply HR in Hw. by econstructor.
    + intros Hx. inversion Hx as [v Hc|v b n r w res Hsp Hw Hres]; subst.
      { apply split_once_str_None in Hc. congruence. }
      destruct Hsp as (a & H1 & H2). rewrite E in H1. injection H1 as -> ->.
      exists (n, r). split; [done|]. rewrite (proj2 (HR _ _) Hw). simpl.
      assert (splits rest b n r) as Hsp%splits_shorter by (by exists a).
      apply IH in Hres as ->; [done|lia].
  - split.
    + intros [= <-]. constructor. by apply split_once_str_None.
    + intros Hx. inversion Hx as [v Hc|v b n r w res (a & H1 & _)]; subst; [done|congruence].
Qed.

Lemma interpolate_expands lookup depth value resolved :
  interpolate lookup depth value = Some resolved ↔ expands lookup depth value resolved.
Proof.
  revert value resolved. induction depth as [|depth IH]; intros value resolved; cbn [interpolate expands];
    apply interpolate_rest_exact; [|lia| |lia]; intros name w.
  - done.
  - rewrite bind_Some. by setoid_rewrite IH.
Qed.

(** Interpolation is exact: [interpolate] returns a text exactly when every reference of the
    value is closed and names a property whose value, itself interpolated with one level less,
    takes its place; the text is the value with these replacements. *)
Theorem interpolate_exact lookup depth value resolved :
  interpolate lookup depth value = Some resolved ↔ expands lookup depth value resolved.
Proof. apply interpolate_expands. Qed.

(** The names a value refers to, and the values without an open reference. *)
Inductive mentions (name : str) : str → Prop :=
| mentions_here value before rest : splits value before name rest → mentions name value
| mentions_later value before other rest :
    splits value before other rest → mentions name rest → mentions name value.
Inductive closed : str → Prop :=
| closed_plain value : contains (lit "${") value = false → closed value
| closed_reference value before name rest : splits value before name rest → closed rest → closed value.

Lemma expands_mentions R value resolved name :
  expands_with R value resolved → mentions name value → ∃ w, R name w.
Proof.
  intros Hx Hm. revert resolved Hx. induction Hm as [v b r Hs|v b o r Hs _ IH]; intros resolved Hx;
    inversion Hx as [v' Hc|v' b' n' r' w res Hs' Hw Hres]; subst.
  - by destruct (splits_not_plain _ _ _ _ Hs Hc).
  - destruct (splits_fun _ _ _ _ _ _ _ Hs Hs') as (-> & -> & ->). eauto.
  - by destruct (splits_not_plain _ _ _ _ Hs Hc).
  - destruct (splits_fun _ _ _ _ _ _ _ Hs Hs') as (-> & -> & ->). eauto.
Qed.

Lemma expands_complete (R : str → str → Prop) value :
  closed value → (∀ name, mentions name value → ∃ w, R name w) → ∃ resolved, expands_with R value resolved.
Proof.
  induction 1 as [v Hc|v b n r Hs _ IH]; intros HR; [exists v; by constructor|].
  destruct (HR n) as [w Hw]; [by econstructor|].
  destruct IH as [res Hres]; [intros m Hm; apply HR; by eapply mentions_later|].
  exists (b ++ w ++ res). by econstructor.
Qed.

Lemma layered_expands lookup (rank : str → nat) :
  (∀ name value, lookup !! name = Some value → closed value ∧
     ∀ m, mentions m value → is_Some (lookup !! m) ∧ (rank m < rank name)%nat) →
  ∀ depth value, closed value →
    (∀ m, mentions m value → is_Some (lookup !! m) ∧ (rank m < depth)%nat) →
    ∃ resolved, expands lookup depth value resolved.
Proof.
  intros Hlayers. induction depth as [|depth IH]; intros value Hc Hm; cbn [expands];
    apply expands_complete; [done| |done|]; intros name [[v Hv] Hr]%Hm; [lia|].
  destruct (Hlayers _ _ Hv) as [Hcv Hmv].
  destruct (IH v Hcv) as [w Hw]; [|by exists w, v].
  intros m [Hb Hlt]%Hmv. split; [done|lia].
Qed.


(** ** The coordinate of a module *)

Section Coordinate.
Context `{ReactorFiles} (reactor_root : path).

(** The coordinate of a module is literal: when one is found, its parts are the trimmed group,
    artifact and version of the POM, or of its parent for the group and the version, with their
    references expanded; none is empty or still holds [${]. *)
Theorem module_coordinate_literal module_directory k :
  reactor_module_coordinate reactor_root module_directory = Some k →
  ∃ pom raw_group raw_artifact raw_version,
    let lookup := coordinate_lookup reactor_root (module_directory ++ [lit "pom.xml"]) pom raw_group raw_artifact raw_version in
    read_pom (module_directory ++ [lit "pom.xml"]) = Some pom ∧
    or_else (pom_group_id pom) (pom_parent pom ≫= parent_group_id) = Some raw_group ∧
    pom_artifact_id pom = Some raw_artifact ∧
    or_else (pom_version pom) (pom_parent pom ≫= parent_version) = Some raw_version ∧
    Forall (λ '(raw, part), expands lookup MAX_INTERPOLATION_DEPTH (trim raw) part ∧ part ≠ [] ∧ contains (lit "${") part = false)
      [(raw_group, group_id k); (raw_artifact, artifact_id k); (raw_version, version k)].
Proof.
  unfold reactor_module_coordinate. rewrite bind_Some. intros (pom & Hpom & Hk).
  rewrite bind_Some in Hk. destruct Hk as (g & Hg & Hk). rewrite bind_Some in Hk. destruct Hk as (v & Hv & Hk).
  rewrite bind_Some in Hk. destruct Hk as (a & Ha & Hk). exists pom, g, a, v. set (lookup := coordinate_lookup _ _ _ _ _ _) in *.
  rewrite bind_Some in Hk. destruct Hk as (rg & Hrg & Hk). rewrite bind_Some in Hk. destruct Hk as (ra & Hra & Hk).
  rewrite bind_Some in Hk. destruct Hk as (rv & Hrv & [= <-]).
  assert (Hres : ∀ raw part, resolve lookup raw = Some part →
    expands lookup MAX_INTERPOLATION_DEPTH (trim raw) part ∧ part ≠ [] ∧ contains (lit "${") part = false).
  { intros raw part. unfold resolve. rewrite bind_Some. intros (p & Hp%interpolate_expands & Hc).
    destruct (bool_decide (p = [])) eqn:E; [done|]. destruct (contains (lit "${") p) eqn:E2; [done|].
    injection Hc as <-. apply bool_decide_eq_false in E. done. }
  split_and!; [done..|]. do 3 (apply Forall_cons; split; [by apply Hres|]). constructor.
Qed.

Lemma insert_all_lookup properties entries name :
  insert_all properties entries !! name
  = or_else (snd <$> last (filter (λ e, e.1 = name) entries)) (properties !! name).
Proof.
  unfold insert_all. induction entries as [|[n v] entries IH] using rev_ind; [done|].
  rewrite foldl_app, filter_app, filter_cons, filter_nil. simpl. case_decide as Hn; simpl in Hn.
  - subst n. by rewrite lookup_insert_eq, last_snoc.
  - by rewrite lookup_insert_ne, app_nil_r.
Qed.

Lemma extend_lookup properties more name :
  extend properties more !! name = or_else (more !! name) (properties !! name).
Proof. unfold extend. rewrite lookup_union. by destruct (more !! name), (properties !! name). Qed.

Lemma foldl_extend_lookup chain name :
  foldl extend ∅ (reverse chain) !! name = head (omap (λ m : gmap str str, m !! name) chain).
Proof.
  induction chain as [|m chain IH]; [done|]. rewrite reverse_cons, foldl_app. cbn [foldl].
  rewrite extend_lookup, IH. cbn [omap list_omap]. by destruct (m !! name).
Qed.

(** The sources of a property are consulted in Maven's order: a user property of
    [.mvn/maven.config] first, then the coordinates of the parent, those of the project, the
    properties of the POM, and those of its parents inside the reactor from the nearest on; within
    one source the last definition counts. *)
Theorem property_precedence module_pom pom g a v name :
  coordinate_lookup reactor_root module_pom pom g a v !! name
  = head (option_list (maven_config_properties reactor_root !! name)
      ++ option_list (snd <$> last (filter (λ e, e.1 = name) (default [] (parent_names <$> pom_parent pom))))
      ++ option_list (snd <$> last (filter (λ e, e.1 = name) (project_names g a v)))
      ++ omap (λ m : gmap str str, m !! name)
           (pom_properties pom
            :: parent_chain reactor_root MAX_REACTOR_PARENT_DEPTH module_pom (relative_path <$> pom_parent pom))).
Proof.
  unfold coordinate_lookup, inherited_properties.
  rewrite extend_lookup, !insert_all_lookup, extend_lookup, foldl_extend_lookup. cbn [omap list_omap].
  destruct (maven_config_properties reactor_root !! name); [done|]. simpl.
  destruct (last (filter _ (default [] _))) as [[? ?]|]; [done|]. simpl.
  destruct (last (filter _ (project_names _ _ _))) as [[? ?]|]; [done|]. simpl.
  by destruct (pom_properties pom !! name).
Qed.

(** The parents are read inside the reactor, and at most [MAX_REACTOR_PARENT_DEPTH] of them. *)
Lemma parent_chain_contained levels current parent :
  (length (parent_chain reactor_root levels current parent) ≤ levels)%nat ∧
  ∀ m, m ∈ parent_chain reactor_root levels current parent →
    ∃ p pom, path_starts_with reactor_root p = true ∧ read_pom p = Some pom ∧ m = pom_properties pom.
Proof.
  revert current parent. induction levels as [|levels IH]; intros current parent; cbn [parent_chain].
  { split; [done|]. by intros m ?%elem_of_nil. }
  destruct parent as [relative|]; [|split; [simpl; lia|by intros m ?%elem_of_nil]].
  destruct (parent_candidate reactor_root current relative) as [candidate|] eqn:E; simpl;
    [|split; [lia|by intros m ?%elem_of_nil]].
  destruct (read_pom candidate) as [pom|] eqn:Hpom; simpl; [|split; [lia|by intros m ?%elem_of_nil]].
  destruct (IH candidate (relative_path <$> pom_parent pom)) as [Hl Hin]. split; [lia|].
  intros m [->|Hm]%elem_of_cons; [|auto]. exists candidate, pom. split_and!; [|done..].
  unfold parent_candidate in E. destruct (bool_decide _); [done|]. destruct current; [done|].
  rewrite bind_Some in E. destruct E as (p & _ & E).
  destruct (path_starts_with reactor_root p) eqn:Hp; [|done]. simpl in E.
  destruct (bool_decide (p = _)); [done|]. by injection E as <-.
Qed.
End Coordinate.

(** ** Samples *)

Definition sample_properties : gmap str str := {[lit "revision" := lit "1.0"]}.
Definition cyclic_properties : gmap str str := {[lit "a" := lit "x${a}"]}.

Lemma plain_mentions name value : contains (lit "${") value = false → ¬ mentions name value.
Proof. intros Hc Hm. inversion Hm; subst; by eapply splits_not_plain. Qed.


#[local] Instance sample_reactor : ReactorFiles := {|
  is_dir _ := false;
  canonical p := Some p;
  read_pom p := if decide (p = [lit "r"; lit "pom.xml"]) then
    Some {| pom_group_id := Some (lit "g"); pom_artifact_id := Some (lit "a"); pom_version := Some (lit " ${revision} ");
            pom_parent := None; pom_properties := sample_properties |} else None;
  read_config _ := Some (lit "-Drevision=2");
|}.
Definition sample_coordinate : ArtifactKey := {| group_id := lit "g"; artifact_id := lit "a"; version := lit "2" |}.
Lemma module_coordinate_literal_witness :
  reactor_module_coordinate [lit "r"] [lit "r"] = Some sample_coordinate ∧
  ∃ raw lookup, expands lookup MAX_INTERPOLATION_DEPTH (trim raw) (lit "2") ∧ raw = lit " ${revision} ".
Proof.
  assert (H : reactor_module_coordinate [lit "r"] [lit "r"] = Some sample_coordinate) by (vm_compute; reflexivity).
  split; [exact H|].
  destruct (module_coordinate_literal [lit "r"] [lit "r"] sample_coordinate H)
    as (pom & g & a & v & Hpom & _ & _ & Hv & Hparts).
  exists v. eexists. apply Forall_cons in Hparts as [_ Hparts]. apply Forall_cons in Hparts as [_ Hparts].
  apply Forall_cons in Hparts as [[Hx _] _]. split; [exact Hx|].
  assert (Hr : read_pom ([lit "r"] ++ [lit "pom.xml"]) = read_pom [lit "r"; lit "pom.xml"]) by reflexivity.
  rewrite Hr in Hpom. vm_compute in Hpom. injection Hpom as <-. vm_compute in Hv. injection Hv as <-. reflexivity.
Defined.
