(* ===== verification/IndexRecord.v ===== *)
(** * IndexRecord: the record of one archive and its persisted form

    Models [JarRecord] of [src/index.rs], what is asked of one record, and [src/index/persisted.rs]:
    when a record may be stored, how it is stored, and when a stored record may stand for an
    archive again.  The JSON and zlib libraries are the class [PayloadCodec]. *)

From S2P Require Import Prelude.
From S2P Require Import Text.
From S2P Require Import TextSearch.
From S2P Require Import Ordering.
From S2P Require Import Paths.
From S2P Require Import Config.
From S2P Require Import Artifacts.
From S2P Require Import ClassEntries.
From S2P Require Import ClassFacts.
From S2P Require Import Preflight.

Open Scope N_scope.

(** ** Records *)

Record JarRecord := {
  jar_key : ArtifactKey;
  jar_classifier : option str;
  jar_relative_path : str;
  jar_path : path;
  jar_classes : list str;
  jar_entries : list str;
  jar_class_entries : gmap str str;
  jar_multi_release : bool;
  jar_fact_strings : list str;
  jar_class_facts : list IndexedClassFacts;
  jar_providers : list IndexedProvider;
}.

Record JarSummary := {
  summary_coordinate : str;
  summary_group_id : str;
  summary_artifact_id : str;
  summary_version : str;
  summary_classifier : option str;
  summary_path : str;
  class_count : N;
  entry_count : N;
}.

Definition is_source (jar : JarRecord) : bool := is_some (documented_classifier (jar_classifier jar)).
Definition jar_coordinate (jar : JarRecord) : str := coordinate (jar_key jar) (jar_classifier jar).
Definition jar_fact_string (jar : JarRecord) (id : N) : exec str := fact_string (jar_fact_strings jar) id.

Definition summary (jar : JarRecord) : JarSummary :=
  {| summary_coordinate := jar_coordinate jar; summary_group_id := group_id (jar_key jar);
     summary_artifact_id := artifact_id (jar_key jar); summary_version := version (jar_key jar);
     summary_classifier := jar_classifier jar; summary_path := jar_relative_path jar;
     class_count := N.of_nat (length (jar_classes jar)); entry_count := N.of_nat (length (jar_entries jar)) |}.

(** The binary search of the sorted class names finds a name exactly when it is there. *)
Definition canonical_class_name `{Unicode} (jar : JarRecord) (query : str) : option str :=
  if decide (query ∈ jar_classes jar) then Some query
  else snd <$> list_find (λ name, to_lowercase name = to_lowercase query) (jar_classes jar).

Fixpoint source_file_in (strings : list str) (facts : list IndexedClassFacts) (class_name : str)
    : exec (option str) :=
  match facts with
  | [] => mret None
  | f :: facts =>
      name ← fact_string strings (source_class f);
      if decide (name = class_name) then
        match source_file f with
        | None => mret None
        | Some id => Some <$> fact_string strings id
        end
      else source_file_in strings facts class_name
  end.
Definition source_file_of (jar : JarRecord) (class_name : str) : exec (option str) :=
  source_file_in (jar_fact_strings jar) (jar_class_facts jar) class_name.
Definition jar_source_entry_names (jar : JarRecord) (class_name : str) : exec SourceEntryNames :=
  source_entry_names class_name <$> source_file_of jar class_name.

Definition matches_selector (jar : JarRecord) (selector : str) : bool :=
  let selector := trim selector in
  eq_ignore_ascii_case (jar_coordinate jar) selector || eq_ignore_ascii_case (jar_relative_path jar) selector
  || match file_name (jar_path jar) with Some name => eq_ignore_ascii_case name selector | None => false end.

(** The record of a freshly read archive: [index] is what its entries are, [facts] the outcome of
    [collect_jar_facts], which a sources JAR does not need. *)
Definition load_jar_record (path_ : path) (identity : JarIdentity) (index : option JarIndex)
    (facts : JarIndex → exec JarFacts) : exec (option JarRecord) :=
  match index with
  | None => mret None
  | Some i =>
      '(class_facts, providers, fact_strings) ←
        (if is_some (documented_classifier (identity_classifier identity)) then mret ([], [], [])
         else f ← facts i; mret (class_facts f, providers f, values (strings f)));
      mret (Some {| jar_key := identity_key identity; jar_classifier := identity_classifier identity;
        jar_relative_path := identity_relative_path identity; jar_path := path_; jar_classes := classes i;
        jar_entries := ClassEntries.entries i; jar_class_entries := class_entries i; jar_multi_release := multi_release i;
        jar_fact_strings := fact_strings; jar_class_facts := class_facts; jar_providers := providers |})
  end.

(** ** What a stored record depends on *)

Definition SETTLED_AGE : N := 2000000000.

(** [moment] is the time since the epoch in nanoseconds; [None] when the subtraction or the time
    is before the epoch. *)
Definition was_settled_at (modified_ns moment : N) : bool :=
  match checked_sub moment SETTLED_AGE with
  | Some threshold => modified_ns <=? threshold
  | None => false
  end.

Abbreviation Stamp := (str * N * N)%type (only parsing).
Record ArtifactValidity := { stamps : list Stamp }.
#[export] Instance ArtifactValidity_eq_dec : EqDecision ArtifactValidity.
Proof. solve_decision. Defined.

(** [walk] gives the stamp of the artifact and of every entry below it, in walk order, or [None]
    for one that cannot be stamped. *)
Definition capture (max_index_entries : N) (walk : list (option Stamp)) : option ArtifactValidity :=
  let limit := N.to_nat (saturating_add max_index_entries 1) in
  stamps ← mapM id (take limit walk);
  if (length stamps <? limit)%nat then Some {| stamps := stamps |} else None.

Definition is_settled (v : ArtifactValidity) (now : N) : bool :=
  forallb (λ '(_, _, modified), was_settled_at modified now) (stamps v).

Record RecordContext := {
  context_path : path;
  context_group_id : str;
  context_artifact_id : str;
  context_version : str;
  context_classifier : option str;
  context_relative_path : str;
  max_entry_bytes : N;
  context_max_jar_entries : N;
  context_max_xml_bytes : N;
}.
#[export] Instance RecordContext_eq_dec : EqDecision RecordContext.
Proof. solve_decision. Defined.

Definition record_context (limits : ResourceLimits) (p : path) (identity : JarIdentity) (max_entry_bytes : N)
    : RecordContext :=
  {| context_path := p; context_group_id := group_id (identity_key identity);
     context_artifact_id := artifact_id (identity_key identity); context_version := version (identity_key identity);
     context_classifier := identity_classifier identity; context_relative_path := identity_relative_path identity;
     max_entry_bytes := max_entry_bytes; context_max_jar_entries := max_jar_entries limits;
     context_max_xml_bytes := max_xml_bytes limits |}.

(** ** Charges *)

Record PreflightCharge := {
  charge_entries : N;
  charge_name_bytes : N;
}.

Definition charge_between (before after : ArchiveBudget) : exec PreflightCharge :=
  entries ← or_panic (checked_sub (budget_entries before) (budget_entries after));
  name_bytes ← or_panic (checked_sub (budget_names before) (budget_names after));
  mret {| charge_entries := entries; charge_name_bytes := name_bytes |}.

Definition charge_budget (c : PreflightCharge) (b : ArchiveBudget) : ArchiveBudget * option ArchiveLimit :=
  if budget_jar_entries b <? charge_entries c then (b, Some MAX_JAR_ENTRIES)
  else
    match checked_sub (budget_entries b) (charge_entries c) with
    | None => (b, Some MAX_INDEX_ENTRIES)
    | Some entries =>
        let b := {| budget_entries := entries; budget_names := budget_names b;
                    budget_jar_entries := budget_jar_entries b |} in
        match checked_sub (budget_names b) (charge_name_bytes c) with
        | None => (b, Some MAX_INDEX_NAME_BYTES)
        | Some names =>
            ({| budget_entries := entries; budget_names := names; budget_jar_entries := budget_jar_entries b |}, None)
        end
    end.

(** ** Stored records *)

Abbreviation StoredReference := (N * option N * option N * ClassReferenceKind)%type (only parsing).
Record StoredClassFacts := {
  stored_source_class : N;
  stored_source_file : option N;
  stored_parents : list (N * TypeRelation);
  stored_references : list StoredReference;
}.
Record StoredRecord := {
  stored_context : RecordContext;
  stored_validity : ArtifactValidity;
  stored_preflight : PreflightCharge;
  stored_multi_release : bool;
  stored_entries : list str;
  stored_fact_strings : list str;
  stored_class_facts : list StoredClassFacts;
  stored_providers : list IndexedProvider;
}.

Definition store_class_facts (f : IndexedClassFacts) : StoredClassFacts :=
  {| stored_source_class := source_class f; stored_source_file := source_file f;
     stored_parents := (λ p, (parent p, relation p)) <$> parents f;
     stored_references := (λ r, (target_owner r, target_name r, target_descriptor r, reference_kind r)) <$> references f |}.

(** [fact_id]: an identifier is at least one. *)
Definition fact_id (raw : N) : N := N.max raw 1.

Definition restore_class_facts (f : StoredClassFacts) : IndexedClassFacts :=
  {| source_class := fact_id (stored_source_class f); source_file := fact_id <$> stored_source_file f;
     parents := (λ '(p, r), {| parent := fact_id p; relation := r |}) <$> stored_parents f;
     references := (λ '(o, n, d, k), {| target_owner := fact_id o; target_name := fact_id <$> n;
       target_descriptor := fact_id <$> d; reference_kind := k |}) <$> stored_references f |}.

Definition option_all (P : N → bool) (o : option N) : bool := match o with None => true | Some x => P x end.

Definition valid_facts (count : N) (f : StoredClassFacts) : bool :=
  let in_range id := (1 <=? id) && (id <=? count) in
  in_range (stored_source_class f) && option_all in_range (stored_source_file f)
  && forallb (λ '(parent, _), in_range parent) (stored_parents f)
  && forallb (λ '(owner, name, descriptor, _),
       in_range owner && option_all in_range name && option_all in_range descriptor) (stored_references f).

Definition validate (stored : StoredRecord) : option StoredRecord :=
  if forallb (valid_facts (N.of_nat (length (stored_fact_strings stored)))) (stored_class_facts stored)
  then Some stored else None.

Definition into_record (stored : StoredRecord) (p : path) (identity : JarIdentity) : JarRecord :=
  let class_entries := effective_class_entries (stored_entries stored) (stored_multi_release stored) in
  {| jar_key := identity_key identity; jar_classifier := identity_classifier identity;
     jar_relative_path := identity_relative_path identity; jar_path := p;
     jar_classes := dedup (sort (omap class_name_from_entry (sorted_entries class_entries).*1));
     jar_entries := stored_entries stored; jar_class_entries := class_entries;
     jar_multi_release := stored_multi_release stored; jar_fact_strings := stored_fact_strings stored;
     jar_class_facts := restore_class_facts <$> stored_class_facts stored;
     jar_providers := stored_providers stored |}.

(** The JSON and zlib libraries. *)
Class PayloadCodec := {
  to_vec : StoredRecord → option (list N);
  from_slice : list N → option StoredRecord;
  compress : list N → option (list N);
  decompress : list N → option (list N);
}.
(** What the libraries document: reading back gives what was written. *)
Class PayloadCodecLaws `{PayloadCodec} := {
  from_slice_to_vec stored json : to_vec stored = Some json → from_slice json = Some stored;
  decompress_compress json payload : compress json = Some payload → decompress payload = Some json;
}.

Definition MAX_DECODED_PAYLOAD_BYTES : N := 2 ^ 30.

Section Persisted.
Context `{PayloadCodec} (limits : ResourceLimits).

Definition encode_payload (stored : StoredRecord) : option (list N) := json ← to_vec stored; compress json.
Definition decode_payload (payload : list N) : option StoredRecord :=
  json ← decompress payload;
  if MAX_DECODED_PAYLOAD_BYTES <? N.of_nat (length json) then None else from_slice json.

Definition persistable (now : N) (record : JarRecord) (validity : ArtifactValidity) (preflight : PreflightCharge)
    (max_entry_bytes : N) : option (path * list N) :=
  if negb (is_settled validity now) then None
  else
    let identity := {| identity_key := jar_key record; identity_classifier := jar_classifier record;
                       identity_relative_path := jar_relative_path record |} in
    payload ← encode_payload
      {| stored_context := record_context limits (jar_path record) identity max_entry_bytes;
         stored_validity := validity; stored_preflight := preflight;
         stored_multi_release := jar_multi_release record; stored_entries := jar_entries record;
         stored_fact_strings := jar_fact_strings record;
         stored_class_facts := store_class_facts <$> jar_class_facts record;
         stored_providers := jar_providers record |};
    Some (jar_path record, payload).

(** The record, nothing on a miss, or the limit that the charge exceeds; with the budget left. *)
Definition restore (payload : list N) (p : path) (identity : JarIdentity) (validity : ArtifactValidity)
    (max_entry_bytes : N) (b : ArchiveBudget) : ArchiveBudget * (option JarRecord + ArchiveLimit) :=
  match decode_payload payload ≫= validate with
  | None => (b, inl None)
  | Some stored =>
      if negb (bool_decide (stored_context stored = record_context limits p identity max_entry_bytes))
         || negb (bool_decide (stored_validity stored = validity))
      then (b, inl None)
      else
        match charge_budget (stored_preflight stored) b with
        | (b, Some l) => (b, inr l)
        | (b, None) => (b, inl (Some (into_record stored p identity)))
        end
  end.
End Persisted.

(** ** Well-typed records *)

(** Every identifier of a fact is a position of the string table. *)
Definition in_table (count id : N) : Prop := 1 ≤ id ≤ count.
Definition option_in_table (count : N) (o : option N) : Prop := match o with None => True | Some id => in_table count id end.
Record facts_typed (count : N) (f : IndexedClassFacts) : Prop := {
  typed_class : in_table count (source_class f);
  typed_file : option_in_table count (source_file f);
  typed_parents : Forall (λ p, in_table count (parent p)) (parents f);
  typed_references : Forall (λ r, in_table count (target_owner r) ∧ option_in_table count (target_name r) ∧
    option_in_table count (target_descriptor r)) (references f);
}.
(** The classes and effective entries are those of the entries, and the facts are typed. *)
Record record_typed (r : JarRecord) : Prop := {
  typed_entries : jar_class_entries r = effective_class_entries (jar_entries r) (jar_multi_release r);
  typed_classes : jar_classes r = dedup (sort (omap class_name_from_entry (sorted_entries (jar_class_entries r)).*1));
  typed_facts : Forall (facts_typed (N.of_nat (length (jar_fact_strings r)))) (jar_class_facts r);
}.

(** A typed identifier always has its string. *)
Lemma fact_string_typed strings id : in_table (N.of_nat (length strings)) id → total (fact_string strings id).
Proof.
  intros [H1 H2]. unfold fact_string. destruct (strings !! N.to_nat (id - 1)) eqn:E; [done|].
  apply lookup_ge_None in E. lia.
Qed.

Lemma source_file_in_typed strings facts class_name :
  Forall (facts_typed (N.of_nat (length strings))) facts → total (source_file_in strings facts class_name).
Proof.
  induction 1 as [|f facts [Hc Hf _ _] _ IH]; [done|]. cbn [source_file_in].
  pose proof (fact_string_typed _ _ Hc) as Ht. destruct (fact_string strings (source_class f)); [|done..].
  cbn [mbind exec_bind]. destruct (decide _); [|done].
  destruct (source_file f) as [id|]; [|done]. apply total_fmap, fact_string_typed, Hf.
Qed.

Lemma option_all_spec P o : option_all P o = true ↔ ∀ x, o = Some x → P x = true.
Proof. destruct o; naive_solver. Qed.

Lemma in_range_spec count id : (1 <=? id) && (id <=? count) = true ↔ in_table count id.
Proof. rewrite andb_true_iff, !N.leb_le. done. Qed.

Lemma fact_id_typed count id : in_table count id → fact_id id = id.
Proof. intros [? _]. unfold fact_id. lia. Qed.

Lemma fact_id_option count o : option_in_table count o → fact_id <$> o = o.
Proof. destruct o; simpl; [|done]. intros ?. by erewrite fact_id_typed. Qed.

Lemma option_in_range count o :
  option_all (λ id, (1 <=? id) && (id <=? count)) o = true ↔ option_in_table count o.
Proof. destruct o as [id|]; simpl; [apply in_range_spec|done]. Qed.

Lemma forallb_Forall {A} (f : A → bool) l : forallb f l = true ↔ Forall (λ x, f x = true) l.
Proof. rewrite forallb_forall, Forall_forall. by setoid_rewrite list_elem_of_In. Qed.

(** What [validate] accepts is typed once restored, and storing a typed fact loses nothing. *)
Lemma valid_facts_typed count f : valid_facts count f = true → facts_typed count (restore_class_facts f).
Proof.
  unfold valid_facts. rewrite !andb_true_iff, !forallb_Forall. intros [[[Hc Hf] Hp] Hr]. split; simpl.
  - apply andb_true_iff, in_range_spec in Hc. by erewrite fact_id_typed.
  - apply option_in_range in Hf. by erewrite fact_id_option.
  - apply Forall_fmap. eapply Forall_impl; [exact Hp|]. intros [p r] H%in_range_spec. simpl. by erewrite fact_id_typed.
  - apply Forall_fmap. eapply Forall_impl; [exact Hr|]. intros [[[o n] d] k]. simpl.
    rewrite !andb_true_iff, !option_in_range. intros [[Ho Hn] Hd]. apply andb_true_iff, in_range_spec in Ho.
    erewrite fact_id_typed, !fact_id_option by done. done.
Qed.

Lemma store_restore_facts count f : facts_typed count f → restore_class_facts (store_class_facts f) = f.
Proof.
  destruct f as [c fo ps rs]. intros [Hc Hf Hp Hr]. unfold restore_class_facts, store_class_facts. simpl in *.
  f_equal; [by eapply fact_id_typed|by eapply fact_id_option|..]; rewrite <- list_fmap_compose.
  - clear Hr. induction Hp as [|[p r] ps Hpp _ IH]; [done|]. rewrite fmap_cons. simpl in *.
    by erewrite fact_id_typed, IH.
  - induction Hr as [|[o n d k] rs (Ho & Hn & Hd) _ IH]; [done|]. rewrite fmap_cons. simpl in *.
    by erewrite fact_id_typed, !fact_id_option, IH.
Qed.

Lemma store_facts_valid count f : facts_typed count f → valid_facts count (store_class_facts f) = true.
Proof.
  intros [Hc Hf Hp Hr]. unfold valid_facts, store_class_facts. simpl.
  rewrite !andb_true_iff, !forallb_Forall. split_and!.
  - by apply N.leb_le, Hc.
  - by apply N.leb_le, Hc.
  - by apply option_in_range.
  - apply Forall_fmap. eapply Forall_impl; [exact Hp|]. intros p H. by apply in_range_spec.
  - apply Forall_fmap. eapply Forall_impl; [exact Hr|]. intros r (Ho & Hn & Hd). simpl.
    rewrite !andb_true_iff, !option_in_range. split; [split|]; [by apply andb_true_iff, in_range_spec|done|done].
Qed.

(** The facts collected from classfiles are typed. *)
Lemma denotes_in_table strings id v : denotes strings id v → in_table (N.of_nat (length strings)) id.
Proof. intros [Hpos Hl]. apply lookup_lt_Some in Hl. unfold in_table. lia. Qed.

Lemma denotes_option_in_table strings id v :
  denotes_option strings id v → option_in_table (N.of_nat (length strings)) id.
Proof. intros []; simpl; [by eapply denotes_in_table|done]. Qed.

Lemma facts_denote_typed strings c f : facts_denote strings c f → facts_typed (N.of_nat (length strings)) f.
Proof.
  intros [Hc Hf [Hp _] _ [Hr _] _]. split.
  - by eapply denotes_in_table.
  - by eapply denotes_option_in_table.
  - apply Forall_forall. intros p (n & _ & Hd & _)%Hp. by eapply denotes_in_table.
  - apply Forall_forall. intros r ([[[o n] d] k] & _ & Ho & Hn & Hd & _)%Hr.
    split_and!; [by eapply denotes_in_table|by eapply denotes_option_in_table..].
Qed.

Lemma denote_all_typed strings cs fs :
  Forall2 (facts_denote strings) cs fs → Forall (facts_typed (N.of_nat (length strings))) fs.
Proof. induction 1; constructor; [by eapply facts_denote_typed|done]. Qed.

Section Typed.
Context `{ClassArchive} (read_entry : str → option str).

(** A freshly read record is well typed: its effective entries and its classes are those of
    the entries of the archive, and every identifier in its facts is a position of its string
    table, so that no lookup of a fact string can panic. *)
Theorem loaded_record_typed p identity listing visited max_entry_bytes :
  let index := read_jar_index_from read_entry listing in
  strings_needed max_entry_bytes (take visited (sorted_entries (class_entries index)).*2) ≤ u32_max →
  wp (load_jar_record p identity (Some index)
        (λ i, collect_jar_facts visited (ClassEntries.entries i) (class_entries i) max_entry_bytes))
    (λ r, ∃ record, r = Some record ∧ record_typed record).
Proof.
  intros index Hfits. unfold load_jar_record.
  destruct (is_some (documented_classifier (identity_classifier identity))).
  - apply wp_mret. eexists. split; [done|]. by split; [..|constructor].
  - apply wp_bind. eapply wp_call; [by apply jar_facts_denote|]. intros s (_ & Hf & _).
    cbn [mbind exec_bind mret exec_ret wp]. eexists. split; [done|]. split; [done..|].
    by eapply denote_all_typed.
Qed.
End Typed.

(** ** Persisting and restoring *)

Section Restoring.
Context `{PayloadCodec} (limits : ResourceLimits).

(** C22: Whatever bytes the cache holds, a record restored from them is well typed and stands for
    the archive it is asked for: the payload was written for the same path, identity, limits and
    stamps, and the budget was charged with what its preflight had cost. *)
Theorem restored_record_typed payload p identity validity max_entry_bytes b b' record :
  restore limits payload p identity validity max_entry_bytes b = (b', inl (Some record)) →
  record_typed record ∧ jar_path record = p ∧ jar_key record = identity_key identity ∧
  jar_classifier record = identity_classifier identity ∧ jar_relative_path record = identity_relative_path identity ∧
  ∃ stored, decode_payload payload = Some stored ∧
    stored_context stored = record_context limits p identity max_entry_bytes ∧ stored_validity stored = validity ∧
    charge_budget (stored_preflight stored) b = (b', None).
Proof.
  unfold restore. destruct (decode_payload payload) as [stored|]; [|done]. cbn [mbind option_bind].
  unfold validate. destruct (forallb _ _) eqn:Hv; [|done]. apply forallb_Forall in Hv.
  destruct (bool_decide (stored_context stored = _)) eqn:Ec; [|done]. apply bool_decide_eq_true in Ec.
  destruct (bool_decide (stored_validity stored = _)) eqn:Ev; [|done]. apply bool_decide_eq_true in Ev.
  cbn [negb orb]. destruct (charge_budget (stored_preflight stored) b) as [b2 [l|]] eqn:Hcharge; [done|].
  intros [= <- <-]. split_and!; [split; [done..|]|done..|by exists stored].
  simpl. apply Forall_fmap. eapply Forall_impl; [exact Hv|]. intros f Hf. by apply valid_facts_typed.
Qed.

Lemma restore_persisted `{!PayloadCodecLaws} now record validity preflight max_entry_bytes stored_path payload b :
  record_typed record →
  persistable limits now record validity preflight max_entry_bytes = Some (stored_path, payload) →
  (∀ json, decompress payload = Some json → N.of_nat (length json) ≤ MAX_DECODED_PAYLOAD_BYTES) →
  stored_path = jar_path record ∧
  restore limits payload (jar_path record)
    {| identity_key := jar_key record; identity_classifier := jar_classifier record;
       identity_relative_path := jar_relative_path record |} validity max_entry_bytes b
  = match charge_budget preflight b with
    | (b', None) => (b', inl (Some record))
    | (b', Some l) => (b', inr l)
    end.
Proof.
  intros [He Hc Hf]. unfold persistable. destruct (is_settled validity now); [|done]. cbn [negb].
  set (identity := {| identity_key := jar_key record |}). set (stored := {| stored_context := _ |}).
  rewrite bind_Some. intros (p & Hp & [= <- <-]) Hsize. split; [done|].
  unfold encode_payload in Hp. rewrite bind_Some in Hp. destruct Hp as (json & Hj & Hz).
  unfold restore, decode_payload. rewrite (decompress_compress _ _ Hz). cbn [mbind option_bind].
  specialize (Hsize _ (decompress_compress _ _ Hz)). destruct (N.ltb_spec MAX_DECODED_PAYLOAD_BYTES (N.of_nat (length json))); [lia|].
  rewrite (from_slice_to_vec _ _ Hj). cbn [mbind option_bind].
  assert (validate stored = Some stored) as ->.
  { unfold validate. assert (forallb (valid_facts (N.of_nat (length (stored_fact_strings stored)))) (stored_class_facts stored) = true) as ->; [|done].
    apply forallb_Forall. simpl. apply Forall_fmap. eapply Forall_impl; [exact Hf|]. intros f. apply store_facts_valid. }
  rewrite !bool_decide_eq_true_2 by done. cbn [negb orb]. simpl stored_preflight.
  destruct (charge_budget preflight b) as [b' [l|]]; [done|]. do 3 f_equal.
  unfold into_record. simpl. destruct record. simpl in *. subst. f_equal.
  rewrite <- list_fmap_compose. clear - Hf. induction Hf as [|f fs Hf _ IH]; [done|].
  rewrite fmap_cons. simpl. by erewrite store_restore_facts, IH.
Qed.

(** C23: A stored record comes back: for a well typed record whose inputs had settled, the payload
    written for it restores, with the same limits and stamps, exactly the record, as long as the
    JSON is within the decoded size limit; only the charge of its preflight can refuse it. *)
Theorem persisted_round_trip `{!PayloadCodecLaws} now record validity preflight max_entry_bytes stored_path payload b :
  record_typed record →
  persistable limits now record validity preflight max_entry_bytes = Some (stored_path, payload) →
  (∀ json, decompress payload = Some json → N.of_nat (length json) ≤ MAX_DECODED_PAYLOAD_BYTES) →
  stored_path = jar_path record ∧
  restore limits payload (jar_path record)
    {| identity_key := jar_key record; identity_classifier := jar_classifier record;
       identity_relative_path := jar_relative_path record |} validity max_entry_bytes b
  = match charge_budget preflight b with
    | (b', None) => (b', inl (Some record))
    | (b', Some l) => (b', inr l)
    end.
Proof. apply restore_persisted. Qed.
End Restoring.

(** ** Charging a stored record *)

Definition with_budget (w : Walk) (b : ArchiveBudget) : Walk :=
  {| position := position w; consumed := consumed w; entries := entries w; walk_budget := b |}.

(** A turn that went on, or ended well, does the same under any other budget of the same limit,
    but for the name it charges. *)
Lemma walk_turn_again file size count w t :
  walk_turn file size count w = Done t →
  match t with
  | Continue w' => ∃ n, charged (walk_budget w) [n] (walk_budget w') ∧
      ∀ b, budget_jar_entries b = budget_jar_entries (walk_budget w) → 1 ≤ budget_entries b →
        if decide (n ≤ budget_names b) then
          ∃ b', walk_turn file size count (with_budget w b) = Done (Continue (with_budget w' b')) ∧ charged b [n] b'
        else ∃ b', walk_turn file size count (with_budget w b) = Done (Break (b', Some (Limit MAX_INDEX_NAME_BYTES)))
  | Break (b1, None) => b1 = walk_budget w ∧
      ∀ b, walk_turn file size count (with_budget w b) = Done (Break (b, None))
  | Break (_, Some _) => True
  end.
Proof.
  unfold walk_turn. cbn [with_budget consumed position entries walk_budget].
  destruct (consumed w <? size).
  2: { intros [= <-]. by destruct (entries w =? count). }
  destruct (size - consumed w <? 46); [by intros [= <-]|].
  destruct (read_at file (position w) 46) as [header|]; [|by intros [= <-]].
  destruct (slice header 0 4) as [signature| |]; [|done..]. cbn [mbind exec_bind].
  destruct (negb _); [by intros [= <-]|].
  destruct (budget_jar_entries (walk_budget w) <? entries w + 1) eqn:Ejar; [by intros [= <-]|].
  destruct (le_at header 28 2) as [n| |]; [|done..]. cbn [mbind exec_bind].
  destruct (MAX_ENTRY_NAME_BYTES <? n); [by intros [= <-]|].
  destruct (reserve (walk_budget w) n) as [b' [l|]] eqn:Er; [by intros [= <-]|].
  destruct (le_at header 30 2) as [x| |]; [|done..]. destruct (le_at header 32 2) as [c| |]; [|done..].
  cbn [mbind exec_bind]. destruct (size <? consumed w + (46 + (n + x + c))); [by intros [= <-]|].
  intros [= <-]. exists n. split.
  - pose proof (reserve_charged (walk_budget w) [] (walk_budget w) n) as Hr. rewrite Er in Hr.
    apply Hr; [|done]. unfold charged. simpl. split_and!; [lia|lia|done].
  - intros b Hj Hb. rewrite Hj, Ejar. unfold reserve, checked_sub. destruct (decide (1 ≤ budget_entries b)); [|lia].
    cbn [budget_names]. destruct (decide (n ≤ budget_names b)); [|by eexists].
    eexists. split; [done|]. unfold charged. simpl. split_and!; [lia|lia|done].
Qed.

Lemma charged_app b l k b1 b2 : charged b l b1 → charged b1 k b2 → charged b (l ++ k) b2.
Proof.
  intros (H1 & H2 & H3) (H4 & H5 & H6). unfold charged. rewrite length_app, sum_app. split_and!; [lia|lia|congruence].
Qed.

(** A walk that succeeded once is decided, under any other budget of the same limit, by whether
    that budget covers the names it charged. *)
Lemma walk_again file size count fuel w b1 :
  loop fuel (walk_turn file size count) w = Done (b1, None) →
  ∃ names, charged (walk_budget w) names b1 ∧
    ∀ b, budget_jar_entries b = budget_jar_entries (walk_budget w) → N.of_nat (length names) ≤ budget_entries b →
      if decide (sum names ≤ budget_names b)
      then ∃ b', loop fuel (walk_turn file size count) (with_budget w b) = Done (b', None) ∧ charged b names b'
      else ∃ b', loop fuel (walk_turn file size count) (with_budget w b) = Done (b', Some (Limit MAX_INDEX_NAME_BYTES)).
Proof.
  revert w. induction fuel as [|fuel IH]; intros w; [done|]. cbn [loop].
  destruct (walk_turn file size count w) as [t| |] eqn:Ht; [|done..]. apply walk_turn_again in Ht.
  cbn [mbind exec_bind]. destruct t as [w'|[b2 [e|]]]; [|done|].
  - destruct Ht as (n & Hn & Hagain). intros (names & Hch & Hrest)%IH.
    exists (n :: names). split; [by apply (charged_app _ [n] names _ _ Hn)|].
    intros b Hj Hlen. cbn [length] in Hlen. rewrite sum_cons.
    specialize (Hagain b Hj ltac:(lia)). destruct (decide (n ≤ budget_names b)) as [Hle|Hgt].
    + destruct Hagain as (b' & -> & Hb'). cbn [mbind exec_bind]. pose proof Hb' as (He & Hnm & Hjb).
      simpl in He, Hnm. assert (budget_jar_entries b' = budget_jar_entries (walk_budget w')) as Hj'.
      { destruct Hn as (_ & _ & Hjn). congruence. }
      specialize (Hrest b' Hj' ltac:(lia)).
      destruct (decide (sum names ≤ budget_names b')), (decide (n + sum names ≤ budget_names b)); try lia; [|done].
      destruct Hrest as (b3 & -> & Hb3). exists b3. split; [done|]. by apply (charged_app _ [n] names _ _ Hb').
    + destruct Hagain as (b' & ->). rewrite decide_False by lia. by exists b'.
  - destruct Ht as [-> Hagain]. intros [= <-]. exists []. split; [unfold charged; simpl; split_and!; [lia|lia|done]|].
    intros b Hj Hlen. rewrite Hagain, decide_True by (simpl; lia). exists b.
    split; [done|]. unfold charged. simpl. split_and!; [lia|lia|done].
Qed.

Lemma charge_same file b1 b1' c b :
  preflight_archive file b1 = Done (b1', None) → charge_between b1 b1' = Done c →
  budget_jar_entries b = budget_jar_entries b1 →
  ∃ b', preflight_archive file b = Done (b', Limit <$> (charge_budget c b).2) ∧
    ((charge_budget c b).2 = None → b' = (charge_budget c b).1).
Proof.
  unfold preflight_archive. destruct (central_directory file) as [d| |]; [|done..]. cbn [mbind exec_bind].
  destruct d as [d|e]; [|done]. intros Hok Hc Hj. rewrite Hj.
  destruct (budget_jar_entries b1 <? cd_count d) eqn:Ejar; [done|]. apply N.ltb_ge in Ejar.
  destruct (budget_entries b1 <? cd_count d) eqn:Eent; [done|].
  destruct (MAX_CENTRAL_DIRECTORY_BYTES <? cd_size d); [done|].
  destruct (checked_sub (cd_end d) (cd_size d)) as [start|]; [|done].
  pose proof (walk_headers_spec file start (cd_size d) (cd_count d) b1) as Hspec. rewrite Hok in Hspec.
  destruct Hspec as [_ Hspec]. destruct (Hspec eq_refl) as (names2 & _ & Hlen2 & Hch2 & _ & _). clear Hspec.
  unfold walk_headers in *. apply walk_again in Hok as (names & Hch & Hagain). cbn [walk_budget fst] in *.
  destruct Hch as (He & Hn & Hjb). destruct Hch2 as (He2 & _).
  assert (N.of_nat (length names) = cd_count d) as Hlen by lia.
  unfold charge_between, checked_sub in Hc.
  destruct (decide (budget_entries b1' ≤ budget_entries b1)); [|done].
  destruct (decide (budget_names b1' ≤ budget_names b1)); [|done]. injection Hc as <-.
  unfold charge_budget, checked_sub. cbn [charge_entries charge_name_bytes].
  replace (budget_entries b1 - budget_entries b1') with (cd_count d) by lia.
  replace (budget_names b1 - budget_names b1') with (sum names) by lia.
  rewrite Hj. destruct (N.ltb_spec (budget_jar_entries b1) (cd_count d)); [lia|].
  destruct (N.ltb_spec (budget_entries b) (cd_count d)) as [|Hent].
  { exists b. rewrite decide_False by lia. done. }
  rewrite decide_True by lia. cbn [budget_names]. specialize (Hagain b Hj ltac:(lia)).
  destruct (decide (sum names ≤ budget_names b)).
  - destruct Hagain as (b' & Hloop & He' & Hn' & Hj'). exists b'. unfold with_budget in Hloop. cbn in Hloop.
    split; [exact Hloop|]. intros _. destruct b' as [e' n' j']. simpl in *. f_equal; lia.
  - destruct Hagain as (b' & Hloop). exists b'. split; [exact Hloop|done].
Qed.

(** A reused record is charged like the archive it stands for: when the preflight of an
    archive succeeded once, charging any other budget of the same limits with what that preflight
    had cost succeeds or fails exactly as the preflight of the archive would, with the same limit,
    and leaves the same budget. *)
Theorem charge_as_preflight file b1 b1' c b :
  preflight_archive file b1 = Done (b1', None) → charge_between b1 b1' = Done c →
  budget_jar_entries b = budget_jar_entries b1 →
  ∃ b', preflight_archive file b = Done (b', Limit <$> (charge_budget c b).2) ∧
    ((charge_budget c b).2 = None → b' = (charge_budget c b).1).
Proof. apply charge_same. Qed.

(** ** Samples *)

#[export] Instance PreflightCharge_eq_dec : EqDecision PreflightCharge.
Proof. solve_decision. Defined.
#[export] Instance StoredClassFacts_eq_dec : EqDecision StoredClassFacts.
Proof. solve_decision. Defined.
#[export] Instance StoredRecord_eq_dec : EqDecision StoredRecord.
Proof. solve_decision. Defined.

Definition sample_identity : JarIdentity :=
  {| identity_key := sample_key; identity_classifier := None; identity_relative_path := lit "a/b/1/b-1.jar" |}.
Definition sample_path : path := [lit "repo"; lit "b-1.jar"].
Definition sample_limits : ResourceLimits :=
  {| max_xml_bytes := 1000; max_jar_entries := 100; max_index_entries := 100; max_index_name_bytes := 10000 |}.
Definition sample_validity : ArtifactValidity := {| stamps := [(lit "", 10, 5)] |}.
Definition sample_charge : PreflightCharge := {| charge_entries := 1; charge_name_bytes := 9 |}.
Definition sample_stored : StoredRecord :=
  {| stored_context := record_context sample_limits sample_path sample_identity 1000;
     stored_validity := sample_validity; stored_preflight := sample_charge; stored_multi_release := false;
     stored_entries := [lit "a/B.class"]; stored_fact_strings := [lit "a.B"; lit "a.C"];
     stored_class_facts := [{| stored_source_class := 1; stored_source_file := None;
                               stored_parents := [(2, Extends)]; stored_references := [] |}];
     stored_providers := [] |}.
Definition sample_record : JarRecord := into_record sample_stored sample_path sample_identity.

(** A codec that can write one record. *)
#[local] Instance sample_codec : PayloadCodec := {|
  to_vec s := if decide (s = sample_stored) then Some [1] else None;
  from_slice l := if decide (l = [1]) then Some sample_stored else None;
  compress l := Some (0 :: l);
  decompress l := match l with _ :: l => Some l | [] => None end;
|}.
#[local] Instance sample_codec_laws : PayloadCodecLaws.
Proof.
  split; simpl.
  - intros s json. case_decide; [|done]. intros [= <-]. by subst.
  - by intros json p [= <-].
Qed.

Lemma restored_record_typed_witness :
  restore sample_limits [0; 1] sample_path sample_identity sample_validity 1000 sample_budget
  = (charge sample_budget [sample_entry], inl (Some sample_record)) ∧ record_typed sample_record.
Proof.
  assert (H : restore sample_limits [0; 1] sample_path sample_identity sample_validity 1000 sample_budget
    = (charge sample_budget [sample_entry], inl (Some sample_record))) by (vm_compute; reflexivity).
  split; [exact H|]. exact (proj1 (restored_record_typed _ _ _ _ _ _ _ _ _ H)).
Defined.

Lemma persisted_round_trip_witness :
  persistable sample_limits 3000000000 sample_record sample_validity sample_charge 1000 = Some (sample_path, [0; 1]) ∧
  (restore sample_limits [0; 1] sample_path sample_identity sample_validity 1000 sample_budget).2
  = inl (Some sample_record).
Proof.
  assert (H : persistable sample_limits 3000000000 sample_record sample_validity sample_charge 1000
    = Some (sample_path, [0; 1])) by (vm_compute; reflexivity).
  split; [exact H|].
  assert (Ht : record_typed sample_record).
  { split; [vm_compute; reflexivity|vm_compute; reflexivity|].
    apply Forall_cons. split; [|constructor]. split; [vm_compute; split; discriminate|exact I| |constructor].
    apply Forall_cons. split; [vm_compute; split; discriminate|constructor]. }
  destruct (persisted_round_trip sample_limits 3000000000 sample_record sample_validity sample_charge 1000
              sample_path [0; 1] sample_budget Ht H) as [_ Hr].
  - intros json [= <-]. vm_compute. discriminate.
  - assert (E : {| identity_key := jar_key sample_record; identity_classifier := jar_classifier sample_record;
                   identity_relative_path := jar_relative_path sample_record |} = sample_identity)
      by reflexivity.
    rewrite E in Hr. change (jar_path sample_record) with sample_path in Hr. rewrite Hr. vm_compute. reflexivity.
Defined.

Lemma charge_as_preflight_witness :
  (preflight_archive (zip_file [] [sample_entry]) sample_budget = Done (charge sample_budget [sample_entry], None) ∧
   charge_between sample_budget (charge sample_budget [sample_entry]) = Done sample_charge) ∧
  ∃ b', preflight_archive (zip_file [] [sample_entry])
          {| budget_entries := 5; budget_names := 3; budget_jar_entries := 10 |}
        = Done (b', Some (Limit MAX_INDEX_NAME_BYTES)).
Proof.
  assert (H : preflight_archive (zip_file [] [sample_entry]) sample_budget = Done (charge sample_budget [sample_entry], None))
    by (vm_compute; reflexivity).
  assert (Hc : charge_between sample_budget (charge sample_budget [sample_entry]) = Done sample_charge)
    by (vm_compute; reflexivity).
  split; [split; [exact H|exact Hc]|].
  destruct (charge_as_preflight _ _ _ _ {| budget_entries := 5; budget_names := 3; budget_jar_entries := 10 |} H Hc eq_refl)
    as (b' & Hb' & _).
  exists b'. exact Hb'.
Defined.

#[local] Instance empty_archive : ClassArchive :=
  {| entry_size _ := None; parse_class _ := None; read_text _ _ := None |}.
Lemma loaded_record_typed_witness :
  strings_needed 1000 (take 1 (sorted_entries (class_entries (read_jar_index_from (λ _, None) [lit "a/B.class"]))).*2) ≤ u32_max ∧
  wp (load_jar_record sample_path sample_identity (Some (read_jar_index_from (λ _, None) [lit "a/B.class"]))
       (λ i, collect_jar_facts 1 (ClassEntries.entries i) (class_entries i) 1000))
     (λ r, ∃ record, r = Some record ∧ record_typed record).
Proof.
  assert (H : strings_needed 1000 (take 1 (sorted_entries (class_entries (read_jar_index_from (λ _, None) [lit "a/B.class"]))).*2) ≤ u32_max)
    by (vm_compute; discriminate).
  split; [exact H|]. exact (loaded_record_typed (λ _, None) sample_path sample_identity [lit "a/B.class"] 1 1000 H).
Defined.
