(* ===== verification/IndexBuild.v ===== *)
(** * IndexBuild: the index of a project

    Models the building of [MavenIndex] in [src/index.rs]: which entries of a classpath are
    indexed and which are reported, the loop that preflights, reuses or reads every archive, and
    the tables the searches use. *)

From S2P Require Import Prelude.
From S2P Require Import Text.
From S2P Require Import TextSearch.
From S2P Require Import Ordering.
From S2P Require Import Paths.
From S2P Require Import Artifacts.
From S2P Require Import ClassEntries.
From S2P Require Import ClassFacts.
From S2P Require Import Preflight.
From S2P Require Import IndexRecord.

Open Scope N_scope.

(** ** The entries of a classpath *)

Record UnindexedClasspathEntry := {
  unindexed_path : path;
  reason : UnindexedReason;
}.

(** What the file system and the POMs answer: [identity] is [scoped_identity] for the scope of the
    project, which reads the POM of the module that owns a path. *)
Class ClasspathFiles := {
  canonical_entry : path → option path;
  entry_is_file : path → bool;
  identity : path → JarIdentity + UnindexedReason;
}.

Definition left {A B} (r : A + B) : option A := match r with inl a => Some a | inr _ => None end.

Section Scope.
Context `{ClasspathFiles}.

(** The first of the candidates that is a file with an identity. *)
Definition source_of (p : path) (i : JarIdentity) : option (path * JarIdentity) :=
  head (omap (λ candidate, i ← left (identity candidate); Some (candidate, i))
    (filter (λ candidate, entry_is_file candidate = true) (source_jar_candidates p (identity_classifier i)))).

Definition classify_entry (s : gmap path JarIdentity * list UnindexedClasspathEntry) (p : path)
    : gmap path JarIdentity * list UnindexedClasspathEntry :=
  let (jars, unindexed) := s in
  match canonical_entry p with
  | None => (jars, unindexed ++ [{| unindexed_path := p; reason := Missing |}])
  | Some p =>
      match identity p with
      | inr r => (jars, unindexed ++ [{| unindexed_path := p; reason := r |}])
      | inl i =>
          let jars := match source_of p i with
                      | Some (source_path, source_identity) => <[source_path := source_identity]> jars
                      | None => jars
                      end in
          (<[p := i]> jars, unindexed)
      end
  end.

(** The archives to index and the entries that are not; [checkpoint] has not failed. *)
Definition classify_classpath (classpath : list path) : gmap path JarIdentity * list UnindexedClasspathEntry :=
  foldl classify_entry (∅, []) classpath.
End Scope.

(** ** Reading the archives *)

(** What is known of one archive: its current stamps, the payload stored for it, the preflight of
    its bytes or its entries, and its record when it can be read. *)
Record ArchiveSource := {
  current_validity : option ArtifactValidity;
  stored_payload : option (list N);
  preflight : ArchiveBudget → exec (ArchiveBudget * option PreflightError);
  load : exec (option JarRecord);
}.

Record RecordReuse := {
  reused : list path;
  built : N;
  persistables : list (path * list N);
}.
Record Building := {
  records : list JarRecord;
  reuse : RecordReuse;
  budget_left : ArchiveBudget;
}.

Section Build.
Context `{PayloadCodec} (limits : Config.ResourceLimits) (now max_source_bytes : N) (persisted : bool).

Definition add_record (s : Building) (r : JarRecord) (reuse : RecordReuse) (b : ArchiveBudget) : Building :=
  {| records := records s ++ [r]; reuse := reuse; budget_left := b |}.

(** The archive is read: a limit fails the build, a malformed or unreadable one is skipped. *)
Definition read_fresh (s : Building) (a : ArchiveSource) (validity : option ArtifactValidity)
    : exec (Building + ArchiveLimit) :=
  let before := budget_left s in
  '(b, error) ← preflight a before;
  match error with
  | Some (Limit l) => mret (inr l)
  | Some Malformed => mret (inl {| records := records s; reuse := reuse s; budget_left := b |})
  | None =>
      record ← load a;
      match record with
      | None => mret (inl {| records := records s; reuse := reuse s; budget_left := b |})
      | Some record =>
          match validity with
          | None => mret (inl (add_record s record (reuse s) b))
          | Some validity =>
              charge ← charge_between before b;
              let stored := persistable limits now record validity charge max_source_bytes in
              mret (inl (add_record s record
                {| reused := reused (reuse s); built := built (reuse s) + 1;
                   persistables := persistables (reuse s) ++ option_list stored |} b))
          end
      end
  end.

Definition add_archive (s : Building) (p : path) (i : JarIdentity) (a : ArchiveSource)
    : exec (Building + ArchiveLimit) :=
  let validity := if persisted then current_validity a else None in
  match (if persisted then stored_payload a else None), validity with
  | Some payload, Some current =>
      match restore limits payload p i current max_source_bytes (budget_left s) with
      | (_, inr l) => mret (inr l)
      | (b, inl (Some record)) =>
          mret (inl (add_record s record
            {| reused := reused (reuse s) ++ [p]; built := built (reuse s);
               persistables := persistables (reuse s) |} b))
      | (b, inl None) =>
          read_fresh {| records := records s; reuse := reuse s; budget_left := b |} a validity
      end
  | _, _ => read_fresh s a validity
  end.

Fixpoint add_archives (s : Building) (jars : list (path * JarIdentity)) (archive : path → ArchiveSource)
    : exec (Building + ArchiveLimit) :=
  match jars with
  | [] => mret (inl s)
  | (p, i) :: jars =>
      r ← add_archive s p i (archive p);
      match r with
      | inl s => add_archives s jars archive
      | inr l => mret (inr l)
      end
  end.
End Build.

(** ** The tables *)

Record HierarchyEdge := {
  edge_jar : nat;
  edge_class : nat;
  edge_parent : nat;
}.

Record MavenIndex := {
  jars : list JarRecord;
  source_jars : gmap ArtifactKey (gmap (option str) nat);
  class_locations : gmap str (list nat);
  children_by_parent : gmap str (list HierarchyEdge);
  artifacts : gmap (str * str) (list str);
  max_results : N;
  max_source_bytes : N;
}.

(** [entry(key).or_default()] followed by a change of the value. *)
Definition update_entry `{Countable K} {V} (default_ : V) (f : V → V) (k : K) (m : gmap K V) : gmap K V :=
  <[k := f (default default_ (m !! k))]> m.

Definition push_location `{Unicode} (jar_index : nat) (locations : gmap str (list nat)) (class_name : str)
    : gmap str (list nat) :=
  update_entry [] (λ l, l ++ [jar_index]) (to_lowercase class_name) locations.

Definition index_record `{Unicode} (index : MavenIndex) (record : JarRecord) : MavenIndex :=
  let key := jar_key record in
  let jar_index := length (jars index) in
  let artifacts :=
    update_entry [] (set_insert (version key)) (group_id key, artifact_id key) (artifacts index) in
  {| jars := jars index ++ [record];
     source_jars :=
       match documented_classifier (jar_classifier record) with
       | Some documented => update_entry ∅ <[documented := jar_index]> key (source_jars index)
       | None => source_jars index
       end;
     class_locations :=
       match documented_classifier (jar_classifier record) with
       | Some _ => class_locations index
       | None => foldl (push_location jar_index) (class_locations index) (jar_classes record)
       end;
     children_by_parent := children_by_parent index; artifacts := artifacts;
     max_results := max_results index; max_source_bytes := max_source_bytes index |}.

(** [build_children_by_parent]: every parent fact under the lowercased name of the parent. *)
Definition push_edge (jar : JarRecord) (jar_index class_index : nat)
    (children : gmap str (list HierarchyEdge)) (p : nat * IndexedTypeParent) : exec (gmap str (list HierarchyEdge)) :=
  name ← jar_fact_string jar (parent p.2);
  mret (update_entry []
    (λ l, l ++ [{| edge_jar := jar_index; edge_class := class_index; edge_parent := p.1 |}])
    (ascii_lower name) children).

Definition enumerate {A} (l : list A) : list (nat * A) := imap pair l.

Definition push_edges (children : gmap str (list HierarchyEdge)) (j : nat * JarRecord)
    : exec (gmap str (list HierarchyEdge)) :=
  for_each (λ children c, for_each (push_edge j.2 j.1 c.1) (enumerate (parents c.2)) children)
    (enumerate (jar_class_facts j.2)) children.

(** The key an edge is sorted by; an index out of range panics. *)
Definition edge_key (jars : list JarRecord) (e : HierarchyEdge) : exec (str * str * N) :=
  jar ← or_panic (jars !! edge_jar e);
  class ← or_panic (jar_class_facts jar !! edge_class e);
  child ← jar_fact_string jar (source_class class);
  fact ← or_panic (parents class !! edge_parent e);
  mret (child, jar_relative_path jar, relation_rank (relation fact)).

(** [sort_by_key] with a key that may panic: the keys are computed first. *)
Fixpoint keyed {A K} (key : A → exec K) (l : list A) : exec (list (K * A)) :=
  match l with
  | [] => mret []
  | a :: l => k ← key a; rest ← keyed key l; mret ((k, a) :: rest)
  end.
Definition sort_edges (jars : list JarRecord) (edges : list HierarchyEdge) : exec (list HierarchyEdge) :=
  l ← keyed (edge_key jars) edges; mret (sort_by_key fst l).*2.

Fixpoint sort_children (jars : list JarRecord) (entries : list (str * list HierarchyEdge))
    : exec (list (str * list HierarchyEdge)) :=
  match entries with
  | [] => mret []
  | (name, edges) :: entries =>
      edges ← sort_edges jars edges; rest ← sort_children jars entries; mret ((name, edges) :: rest)
  end.

Definition build_children_by_parent (jars : list JarRecord) : exec (gmap str (list HierarchyEdge)) :=
  children ← for_each push_edges (enumerate jars) ∅;
  sorted ← sort_children jars (map_to_list children);
  mret (list_to_map sorted).

Definition empty_index (max_results max_source_bytes : N) : MavenIndex :=
  {| jars := []; source_jars := ∅; class_locations := ∅; children_by_parent := ∅; artifacts := ∅;
     max_results := max_results; max_source_bytes := max_source_bytes |}.

Definition build_tables `{Unicode} (max_results max_source_bytes : N) (records : list JarRecord) : MavenIndex :=
  foldl index_record (empty_index max_results max_source_bytes) (sort_by_key jar_relative_path records).

Definition build_from_jars `{Unicode, PayloadCodec} (limits : Config.ResourceLimits) (now : N) (persisted : bool)
    (max_results max_source_bytes : N) (jars_ : list (path * JarIdentity)) (archive : path → ArchiveSource)
    : exec ((MavenIndex * RecordReuse) + ArchiveLimit) :=
  let b := {| budget_entries := Config.max_index_entries limits;
              budget_names := Config.max_index_name_bytes limits;
              budget_jar_entries := Config.max_jar_entries limits |} in
  r ← add_archives limits now max_source_bytes persisted
        {| records := []; reuse := {| reused := []; built := 0; persistables := [] |}; budget_left := b |}
        (sort_by_key fst jars_) archive;
  match r with
  | inr l => mret (inr l)
  | inl s =>
      let index := build_tables max_results max_source_bytes (records s) in
      children ← build_children_by_parent (jars index);
      mret (inl ({| jars := jars index; source_jars := source_jars index;
                    class_locations := class_locations index; children_by_parent := children;
                    artifacts := artifacts index; max_results := max_results;
                    max_source_bytes := max_source_bytes |}, reuse s))
  end.

(** ** Questions about the tables *)

Definition source_jar_of (index : MavenIndex) (binary : JarRecord) : option nat :=
  by_classifier ← source_jars index !! jar_key binary;
  let exact := by_classifier !! jar_classifier binary in
  if decide (jar_classifier binary = None ∨ jar_classifier binary = Some TESTS_CLASSIFIER) then exact
  else match exact with Some i => Some i | None => by_classifier !! None end.

Definition source_jar_count (index : MavenIndex) : N :=
  sum ((λ '(_, m), N.of_nat (size (m : gmap (option str) nat))) <$> map_to_list (source_jars index)).

Definition source_matches_selector (index : MavenIndex) (source_index : nat) (source_jar : JarRecord)
    (selector : option str) : bool :=
  match selector with
  | None => true
  | Some selector =>
      matches_selector source_jar selector
      || existsb (λ jar,
           bool_decide (jar_key jar = jar_key source_jar) && negb (is_source jar)
           && matches_selector jar selector && bool_decide (source_jar_of index jar = Some source_index))
         (jars index)
  end.

Record IndexStats := {
  jar_count : N;
  stats_source_jar_count : N;
  stats_class_count : N;
  unique_class_count : N;
  artifact_count : N;
}.
(** [stats]; the subtraction panics below zero. *)
Definition stats (index : MavenIndex) : exec IndexStats :=
  jar_count ← or_panic (checked_sub (N.of_nat (length (jars index))) (source_jar_count index));
  mret {| jar_count := jar_count; stats_source_jar_count := source_jar_count index;
          stats_class_count :=
            sum ((λ jar, N.of_nat (length (jar_classes jar))) <$> filter (λ jar, is_source jar = false) (jars index));
          unique_class_count := N.of_nat (size (class_locations index));
          artifact_count := N.of_nat (size (artifacts index)) |}.

(** The index of a project and the entries of its classpath that it could not include. *)
Definition build_scoped_with `{Unicode, ClasspathFiles, PayloadCodec} (limits : Config.ResourceLimits) (now : N)
    (persisted : bool) (max_results max_source_bytes : N) (classpath : list path) (archive : path → ArchiveSource)
    : exec ((MavenIndex * RecordReuse * list UnindexedClasspathEntry) + ArchiveLimit) :=
  let (jars, unindexed) := classify_classpath classpath in
  r ← build_from_jars limits now persisted max_results max_source_bytes (sorted_entries jars) archive;
  match r with
  | inl (index, reuse) => mret (inl (index, reuse, unindexed))
  | inr l => mret (inr l)
  end.

(** ** The classpath *)

Section Accounted.
Context `{ClasspathFiles}.

(** Where an entry of the classpath goes. *)
Definition accounted (s : gmap path JarIdentity * list UnindexedClasspathEntry) (p : path) : Prop :=
  match canonical_entry p with
  | None => {| unindexed_path := p; reason := Missing |} ∈ s.2
  | Some q =>
      match identity q with
      | inr r => {| unindexed_path := q; reason := r |} ∈ s.2
      | inl i => s.1 !! q = Some i
      end
  end.

(** An indexed archive is an entry of the classpath or the sources JAR found for one. *)
Definition expected (classpath : list path) (q : path) (i : JarIdentity) : Prop :=
  identity q = inl i ∧ ∃ p entry, p ∈ classpath ∧ canonical_entry p = Some entry ∧
    (entry = q ∨ ∃ i', identity entry = inl i' ∧ q ∈ source_jar_candidates entry (identity_classifier i') ∧ entry_is_file q = true).

Lemma source_of_spec p i q i' :
  source_of p i = Some (q, i') →
  identity q = inl i' ∧ q ∈ source_jar_candidates p (identity_classifier i) ∧ entry_is_file q = true.
Proof.
  unfold source_of. intros Hh. apply head_Some_elem_of in Hh. apply list_elem_of_omap in Hh as (c & Hc & Hi).
  apply list_elem_of_filter in Hc as [Hf Hc]. unfold left in Hi. destruct (identity c) as [ic|] eqn:E; [|done].
  simpl in Hi. by injection Hi as <- <-.
Qed.

Lemma classify_entry_spec seen s p :
  (∀ q, q ∈ seen → accounted s q) → (∀ q i, s.1 !! q = Some i → expected seen q i) →
  let s' := classify_entry s p in
  (∀ q, q ∈ seen ++ [p] → accounted s' q) ∧ (∀ q i, s'.1 !! q = Some i → expected (seen ++ [p]) q i).
Proof.
  intros Hacc Hexp. destruct s as [m u]. simpl in Hexp.
  assert (Hmono : ∀ q i, expected seen q i → expected (seen ++ [p]) q i).
  { intros q i (Hi & p' & e & Hp' & Hr). split; [done|]. exists p', e. split; [set_solver|done]. }
  assert (Hstep : ∀ m' u', (∀ q i, m !! q = Some i → identity q = inl i → m' !! q = Some i) → u ⊆ u' →
    accounted (m', u') p → ∀ q, q ∈ seen ++ [p] → accounted (m', u') q).
  { intros m' u' Hm Hu Hp q [Hq| ->%list_elem_of_singleton]%elem_of_app; [|done].
    specialize (Hacc q Hq). unfold accounted in *. simpl in *. destruct (canonical_entry q) as [c|]; [|set_solver].
    destruct (identity c) as [i|r] eqn:E; [by apply Hm|set_solver]. }
  assert (Hown : ∀ q i, m !! q = Some i → identity q = inl i) by (intros q i Hq; by apply Hexp in Hq as [? _]).
  unfold classify_entry. destruct (canonical_entry p) as [c|] eqn:Ec.
  2: { split; simpl; [|intros q i Hq; by apply Hmono, Hexp].
       apply Hstep; [done|set_solver|]. unfold accounted. rewrite Ec. set_solver. }
  destruct (identity c) as [i|r] eqn:Ei.
  2: { split; simpl; [|intros q i Hq; by apply Hmono, Hexp].
       apply Hstep; [done|set_solver|]. unfold accounted. rewrite Ec, Ei. set_solver. }
  split.
  - apply Hstep; [|done|unfold accounted; rewrite Ec, Ei; simpl; apply lookup_insert_eq].
    intros q i' Hq Hi'. destruct (decide (q = c)) as [->|]; [rewrite lookup_insert_eq; congruence|].
    rewrite lookup_insert_ne by done. destruct (source_of c i) as [[sp si]|] eqn:Es; [|done].
    apply source_of_spec in Es as (Hs & _). destruct (decide (q = sp)) as [->|].
    + rewrite lookup_insert_eq. congruence.
    + by rewrite lookup_insert_ne.
  - intros q i' Hq. simpl in Hq. destruct (decide (q = c)) as [->|].
    { rewrite lookup_insert_eq in Hq. injection Hq as <-. split; [done|]. exists p, c. split_and!; [set_solver|done|by left]. }
    rewrite lookup_insert_ne in Hq by done. destruct (source_of c i) as [[sp si]|] eqn:Es; [|by apply Hmono, Hexp].
    destruct (decide (q = sp)) as [->|].
    + rewrite lookup_insert_eq in Hq. injection Hq as <-. apply source_of_spec in Es as (Hs & Hc & Hf).
      split; [done|]. exists p, c. split_and!; [set_solver|done|]. right. by exists i.
    + rewrite lookup_insert_ne in Hq by done. by apply Hmono, Hexp.
Qed.

(** No entry of a classpath is dropped silently: each is indexed under its canonical path with
    its identity, or reported with the reason it is not; and nothing else is indexed but the
    sources JAR files found for the indexed entries. *)
Theorem classpath_accounted classpath :
  (∀ p, p ∈ classpath → accounted (classify_classpath classpath) p) ∧
  (∀ q i, (classify_classpath classpath).1 !! q = Some i → expected classpath q i).
Proof.
  unfold classify_classpath. induction classpath as [|p l [IH1 IH2]] using rev_ind.
  - split; [by intros p ?%elem_of_nil|]. intros q i. simpl. by rewrite lookup_empty.
  - rewrite foldl_app. by apply classify_entry_spec.
Qed.
End Accounted.

(** ** The tables *)

Lemma elem_of_enumerate {A} (l : list A) p : p ∈ enumerate l ↔ l !! p.1 = Some p.2.
Proof.
  unfold enumerate. rewrite elem_of_lookup_imap. destruct p as [i x]. simpl. naive_solver.
Qed.


Section Tables.
Context `{Unicode}.

(** What the tables of an index say about its archives. *)
Record tables_exact (index : MavenIndex) : Prop := {
  exact_locations : ∀ name i, i ∈ default [] (class_locations index !! name) ↔
    ∃ jar c, jars index !! i = Some jar ∧ is_source jar = false ∧ c ∈ jar_classes jar ∧ to_lowercase c = name;
  exact_sources : ∀ key documented i,
    (m ← source_jars index !! key; (m : gmap (option str) nat) !! documented) = Some i ↔
    (∃ jar, jars index !! i = Some jar ∧ jar_key jar = key ∧ documented_classifier (jar_classifier jar) = Some documented) ∧
    ∀ j jar, jars index !! j = Some jar → jar_key jar = key → documented_classifier (jar_classifier jar) = Some documented → (j ≤ i)%nat;
  exact_artifacts : ∀ g a v, v ∈ default [] (artifacts index !! (g, a)) ↔
    ∃ jar, jar ∈ jars index ∧ jar_key jar = {| group_id := g; artifact_id := a; version := v |};
  artifacts_sorted : ∀ k l, artifacts index !! k = Some l → StronglySorted lt_cmp l;
}.

Lemma push_locations_elem i names m name j :
  j ∈ default [] (foldl (push_location i) m names !! name) ↔
  j ∈ default [] (m !! name) ∨ (j = i ∧ ∃ c, c ∈ names ∧ to_lowercase c = name).
Proof.
  revert m. induction names as [|c names IH]; intros m; cbn [foldl]; [set_solver|].
  rewrite IH. unfold push_location, update_entry. destruct (decide (to_lowercase c = name)) as [<-|Hn].
  - rewrite lookup_insert_eq. simpl. rewrite elem_of_app, list_elem_of_singleton. set_solver.
  - rewrite lookup_insert_ne by done. set_solver.
Qed.

Lemma lookup_snoc_Some {A} (l : list A) x i y :
  (l ++ [x]) !! i = Some y ↔ l !! i = Some y ∨ (i = length l ∧ x = y).
Proof.
  rewrite lookup_app_Some, list_lookup_singleton_Some. split; [naive_solver lia|].
  intros [?|[-> ->]]; [by left|right; split_and!; [lia|lia|done]].
Qed.

Lemma index_record_exact index record : tables_exact index → tables_exact (index_record index record).
Proof.
  intros [Hl Hs Ha Hsort]. split; simpl.
  - intros name i. setoid_rewrite lookup_snoc_Some. unfold is_source in *.
    destruct (documented_classifier (jar_classifier record)) as [d|] eqn:Ed.
    + rewrite Hl. split.
      * intros (jar & c & Hj & Hr). exists jar, c. auto.
      * intros (jar & c & [Hj|[-> <-]] & Hsrc & Hr); [by exists jar, c|]. by rewrite Ed in Hsrc.
    + rewrite push_locations_elem, Hl. split.
      * intros [(jar & c & Hj & Hr)|(-> & c & Hc & Hn)]; [exists jar, c; auto|].
        exists record, c. rewrite Ed. split_and!; auto.
      * intros (jar & c & [Hj|[-> <-]] & Hsrc & Hc & Hn); [left; by exists jar, c|].
        right. split; [done|]. by exists c.
  - intros key documented i. setoid_rewrite lookup_snoc_Some.
    assert (Hold : (∀ d, documented_classifier (jar_classifier record) = Some d → jar_key record = key → d ≠ documented) →
      (m ← source_jars index !! key; (m : gmap (option str) nat) !! documented) = Some i ↔
      (∃ jar, (jars index !! i = Some jar ∨ (i = length (jars index) ∧ record = jar)) ∧ jar_key jar = key ∧
         documented_classifier (jar_classifier jar) = Some documented) ∧
      ∀ j jar, (jars index !! j = Some jar ∨ (j = length (jars index) ∧ record = jar)) → jar_key jar = key →
        documented_classifier (jar_classifier jar) = Some documented → (j ≤ i)%nat).
    { intros Hno. rewrite Hs. split.
      - intros [(jar & Hj & Hr) Hmax]. split; [exists jar; auto|]. intros j jar' [Hj'|[-> <-]] Hk Hd; [eauto|].
        by destruct (Hno _ Hd Hk).
      - intros [(jar & [Hj|[-> <-]] & Hk & Hd) Hmax]; [|by destruct (Hno _ Hd Hk)].
        split; [exists jar; auto|]. intros. eapply Hmax; eauto. }
    destruct (documented_classifier (jar_classifier record)) as [d|] eqn:Ed; [|by apply Hold].
    unfold update_entry. destruct (decide (jar_key record = key)) as [Hk|Hk].
    2: { rewrite lookup_insert_ne by done. by apply Hold. }
    subst key. rewrite lookup_insert_eq. simpl. destruct (decide (d = documented)) as [->|Hd].
    + rewrite lookup_insert_eq. split.
      * intros [= <-]. split; [exists record; auto|]. intros j jar [Hj%lookup_lt_Some|[-> _]] _ _; lia.
      * intros [(jar & [Hj%lookup_lt_Some|[-> <-]] & _) Hmax]; [|done].
        specialize (Hmax _ _ (or_intror (conj eq_refl eq_refl)) eq_refl Ed). lia.
    + rewrite lookup_insert_ne by done. rewrite <- Hold by naive_solver.
      destruct (source_jars index !! jar_key record); simpl; [done|by rewrite lookup_empty].
  - intros g a v. setoid_rewrite elem_of_app. setoid_rewrite list_elem_of_singleton.
    unfold update_entry. destruct (decide ((group_id (jar_key record), artifact_id (jar_key record)) = (g, a))) as [Hk|Hk].
    + rewrite Hk, lookup_insert_eq. simpl. rewrite elem_of_set_insert, Ha. injection Hk as <- <-. split.
      * intros [->|(jar & Hj & Hkey)]; [|exists jar; auto]. exists record. split; [auto|]. by destruct (jar_key record).
      * intros (jar & [Hj| ->] & Hkey); [right; eauto|]. left. by rewrite Hkey.
    + rewrite lookup_insert_ne by done. rewrite Ha. split.
      * intros (jar & Hj & Hkey). exists jar. auto.
      * intros (jar & [Hj| ->] & Hkey); [eauto|]. exfalso. apply Hk. by rewrite Hkey.
  - intros k l. unfold update_entry. destruct (decide ((group_id (jar_key record), artifact_id (jar_key record)) = k)) as [<-|Hk].
    + rewrite lookup_insert_eq. intros [= <-]. apply set_insert_sorted.
      destruct (artifacts index !! _) eqn:E; simpl; [by eapply Hsort|constructor].
    + rewrite lookup_insert_ne by done. apply Hsort.
Qed.

Lemma index_records_exact index l :
  tables_exact index → tables_exact (foldl index_record index l) ∧
  jars (foldl index_record index l) = jars index ++ l ∧
  max_results (foldl index_record index l) = max_results index.
Proof.
  revert index. induction l as [|r l IH]; intros index Hi; cbn [foldl]; [by rewrite app_nil_r|].
  destruct (IH (index_record index r)) as (H1 & H2 & H3); [by apply index_record_exact|].
  split_and!; [done| |done]. rewrite H2. simpl. by rewrite <- app_assoc.
Qed.

Lemma empty_tables_exact n b : tables_exact (empty_index n b).
Proof.
  split; simpl.
  - intros. rewrite lookup_empty. set_solver.
  - intros. rewrite lookup_empty. simpl. naive_solver.
  - intros. rewrite lookup_empty. set_solver.
  - intros k l. by rewrite lookup_empty.
Qed.

(** The tables say what the archives hold: the records are ordered by their relative path; a
    class name, in lower case, is located in exactly the binary archives that have a class of that
    name; the sources JAR of an artifact and a binary classifier is the last record that documents
    it; and the versions of an artifact are exactly those of the records, in order. *)
Theorem build_tables_exact max_results max_source_bytes records :
  let index := build_tables max_results max_source_bytes records in
  jars index ≡ₚ records ∧
  StronglySorted (λ a b, le_cmp (jar_relative_path a) (jar_relative_path b) = true) (jars index) ∧
  tables_exact index.
Proof.
  intros index. unfold index, build_tables.
  destruct (index_records_exact (empty_index max_results max_source_bytes) (sort_by_key jar_relative_path records))
    as (H1 & H2 & _); [apply empty_tables_exact|]. rewrite H2. simpl.
  split_and!; [apply sort_with_perm|apply sort_by_key_sorted|done].
Qed.
End Tables.

(** ** Reuse *)

Section Reuse.
Context `{PayloadCodec, !PayloadCodecLaws} (limits : Config.ResourceLimits) (now max_source_bytes : N).

(** An archive whose stored payload, when it matches the current stamps, was written for the
    record that reading the archive gives: equal stamps mean equal content. *)
Record faithful (p : path) (i : JarIdentity) (a : ArchiveSource) : Prop := {
  preflight_shrinks : ∀ b b' e, preflight a b = Done (b', e) → budget_le b' b;
  payload_faithful : ∀ payload current, stored_payload a = Some payload → current_validity a = Some current →
    (∀ b, restore limits payload p i current max_source_bytes b = (b, inl None)) ∨
    ∃ file record charge b1 b1' written,
      preflight a = preflight_archive file ∧ load a = Done (Some record) ∧ record_typed record ∧
      i = {| identity_key := jar_key record; identity_classifier := jar_classifier record;
             identity_relative_path := jar_relative_path record |} ∧ jar_path record = p ∧
      preflight_archive file b1 = Done (b1', None) ∧ charge_between b1 b1' = Done charge ∧
      budget_jar_entries b1 = Config.max_jar_entries limits ∧
      persistable limits written record current charge max_source_bytes = Some (p, payload) ∧
      ∀ json, decompress payload = Some json → N.of_nat (length json) ≤ MAX_DECODED_PAYLOAD_BYTES;
}.

(** Two builds agree on the records read and on the budget left, or on the limit exceeded. *)
Definition agree (r0 r1 : Building + ArchiveLimit) : Prop :=
  match r0, r1 with
  | inl s0, inl s1 => records s0 = records s1 ∧ budget_left s0 = budget_left s1 ∧
      budget_jar_entries (budget_left s0) = Config.max_jar_entries limits
  | inr l0, inr l1 => l0 = l1
  | _, _ => False
  end.

Lemma charge_between_total b b' : budget_le b' b → total (charge_between b b').
Proof.
  intros (He & Hn & _). unfold charge_between, checked_sub. rewrite !decide_True by done. done.
Qed.

Lemma read_fresh_agree s0 s1 p i a validity r0 :
  faithful p i a → agree (inl s0) (inl s1) → read_fresh limits now max_source_bytes s0 a None = Done r0 →
  ∃ r1, read_fresh limits now max_source_bytes s1 a validity = Done r1 ∧ agree r0 r1.
Proof.
  intros Hf (Hr & Hb & Hj). unfold read_fresh. rewrite <- Hb.
  destruct (preflight a (budget_left s0)) as [[b e]| |] eqn:Hp; [|done..]. cbn [mbind exec_bind].
  pose proof (preflight_shrinks _ _ _ Hf _ _ _ Hp) as Hle.
  assert (budget_jar_entries b = Config.max_jar_entries limits) as Hjb by (destruct Hle as (_ & _ & ?); congruence).
  destruct e as [[l|]|]; [intros [= <-]; by eexists|intros [= <-]; eexists; split; [done|]; by rewrite <- Hr|].
  destruct (load a) as [[record|]| |]; [|intros [= <-]; eexists; split; [done|]; by rewrite <- Hr|done..].
  cbn [mbind exec_bind]. intros [= <-]. destruct validity as [validity|].
  - destruct (charge_between (budget_left s0) b) as [c| |] eqn:Hc.
    + eexists. split; [done|]. simpl. by rewrite Hr.
    + by pose proof (charge_between_total _ _ Hle) as Ht; rewrite Hc in Ht.
    + by pose proof (charge_between_total _ _ Hle) as Ht; rewrite Hc in Ht.
  - eexists. split; [done|]. simpl. by rewrite Hr.
Qed.

Lemma add_archive_agree s0 s1 p i a r0 :
  faithful p i a → agree (inl s0) (inl s1) → add_archive limits now max_source_bytes false s0 p i a = Done r0 →
  ∃ r1, add_archive limits now max_source_bytes true s1 p i a = Done r1 ∧ agree r0 r1.
Proof.
  intros Hf Hs. unfold add_archive. intros Hfr0.
  assert (read_fresh limits now max_source_bytes s0 a None = Done r0) as Hfr by (by destruct (current_validity a)). clear Hfr0.
  destruct (stored_payload a) as [payload|] eqn:Ep; [|by eapply read_fresh_agree].
  destruct (current_validity a) as [current|] eqn:Ev; [|by eapply read_fresh_agree].
  destruct (payload_faithful _ _ _ Hf _ _ Ep Ev)
    as [Hmiss|(file & record & charge & b1 & b1' & written & Hpre & Hload & Htyped & Hi & Hpath & Hok & Hch & Hjar & Hper & Hsize)].
  - rewrite Hmiss. eapply read_fresh_agree; [done| |done]. exact Hs.
  - destruct Hs as (Hr & Hb & Hj). subst p i.
    destruct (restore_persisted limits written record current charge max_source_bytes _ payload (budget_left s1) Htyped Hper Hsize)
      as [_ ->].
    destruct (charge_same file b1 b1' charge (budget_left s0) Hok Hch ltac:(congruence)) as (b' & Hpre' & Hsame).
    unfold read_fresh in Hfr. rewrite Hpre, Hpre' in Hfr. cbn [mbind exec_bind] in Hfr. rewrite <- Hb.
    destruct (charge_budget charge (budget_left s0)) as [b [l|]] eqn:Ec; cbn [snd fst fmap option_fmap option_map] in *.
    + injection Hfr as <-. by eexists.
    + rewrite Hload in Hfr. injection Hfr as <-. rewrite (Hsame eq_refl). eexists. split; [done|]. simpl.
      split_and!; [by rewrite Hr|done|]. rewrite <- (Hsame eq_refl).
      pose proof (preflight_shrinks _ _ _ Hf (budget_left s0) b' None) as Hle. rewrite Hpre in Hle.
      destruct (Hle Hpre') as (_ & _ & ->). done.
Qed.

Lemma add_archives_agree l archive s0 s1 r0 :
  Forall (λ '(p, i), faithful p i (archive p)) l → agree (inl s0) (inl s1) →
  add_archives limits now max_source_bytes false s0 l archive = Done r0 →
  ∃ r1, add_archives limits now max_source_bytes true s1 l archive = Done r1 ∧ agree r0 r1.
Proof.
  intros Hl. revert s0 s1. induction Hl as [|[p i] l Hf _ IH]; intros s0 s1 Hs; cbn [add_archives].
  - intros [= <-]. by eexists.
  - destruct (add_archive _ _ _ false s0 p i (archive p)) as [r| |] eqn:E; [|done..]. cbn [mbind exec_bind].
    destruct (add_archive_agree _ _ _ _ _ _ Hf Hs E) as (r1 & -> & Hagree). cbn [mbind exec_bind].
    destruct r as [s|l0], r1 as [s'|l1]; simpl in Hagree; try done; [by apply IH|].
    intros [= <-]. eexists. split; [done|exact Hagree].
Qed.

End Reuse.

(** ** Samples *)

Definition sample_archive_source : ArchiveSource :=
  {| current_validity := Some sample_validity; stored_payload := Some [0; 1];
     preflight := preflight_archive (zip_file [] [sample_entry]); load := Done (Some sample_record) |}.
Definition sample_jars : list (path * JarIdentity) := [(sample_path, sample_identity)].
Definition sample_start : ArchiveBudget :=
  {| budget_entries := 100; budget_names := 10000; budget_jar_entries := 100 |}.

Lemma sample_record_typed : record_typed sample_record.
Proof.
  split; [vm_compute; reflexivity|vm_compute; reflexivity|].
  apply Forall_cons. split; [|constructor]. split; [vm_compute; split; discriminate|exact I| |constructor].
  apply Forall_cons. split; [vm_compute; split; discriminate|constructor].
Qed.

Lemma sample_faithful :
  @faithful sample_codec sample_limits 1000 sample_path sample_identity sample_archive_source.
Proof.
  split.
  - intros b b' e Hp. simpl in Hp.
    unfold preflight_archive in Hp. destruct (central_directory _) as [[d|er]| |]; [|by injection Hp as <- <-; split_and!|done..].
    cbn [mbind exec_bind] in Hp. repeat (case_match; [by injection Hp as <- <-; split_and!|]).
    destruct (checked_sub _ _) as [start|]; [|by injection Hp as <- <-; split_and!].
    pose proof (walk_headers_spec (zip_file [] [sample_entry]) start (cd_size d) (cd_count d) b) as Hw.
    rewrite Hp in Hw. by destruct Hw as [Hle _].
  - intros payload current [= <-] [= <-]. right.
    exists (zip_file [] [sample_entry]), sample_record, sample_charge, sample_start, (charge sample_start [sample_entry]), 3000000000.
    split_and!; [done|done|apply sample_record_typed|vm_compute; reflexivity..|].
    intros json [= <-]. vm_compute. discriminate.
Qed.

(** The outcome of a build that reads the archive. *)
Definition sample_build : exec ((MavenIndex * RecordReuse) + ArchiveLimit) :=
  @build_from_jars ascii_only sample_codec sample_limits 3000000000 false 10 1000 sample_jars (λ _, sample_archive_source).

(** Two sources JARs of one artifact that both document its [tests]. *)
Definition test_sources (classifier : str) : JarRecord :=
  {| jar_key := sample_key; jar_classifier := Some classifier; jar_relative_path := classifier; jar_path := [classifier];
     jar_classes := []; jar_entries := []; jar_class_entries := ∅; jar_multi_release := false; jar_fact_strings := [];
     jar_class_facts := []; jar_providers := [] |}.

(** A sources JAR can be counted as a binary: [test-sources] and [tests-sources] both document
    the artifact's [tests], the table keeps one of them, and [stats] counts the other among the
    JARs that are not sources. *)
Theorem sources_miscounted :
  let index := @build_tables ascii_only 10 1000 [test_sources (lit "test-sources"); test_sources (lit "tests-sources")] in
  Forall (λ jar, is_source jar = true) (jars index) ∧
  ∃ s, stats index = Done s ∧ jar_count s = 1 ∧ stats_source_jar_count s = 1.
Proof.
  split; [repeat constructor|]. eexists. split; [vm_compute; reflexivity|]. split; vm_compute; reflexivity.
Qed.
