(* ===== verification/IndexSearch.v ===== *)
(** * IndexSearch: the searches of the index

    Models the queries of [MavenIndex] in [src/index.rs] that are answered from the tables alone:
    classes, JARs, entries, class lists, versions, providers and references, and the choice of the
    archives, class names and entries that a class or its source is read from. *)

From S2P Require Import Prelude.
From S2P Require Import Text.
From S2P Require Import TextSearch.
From S2P Require Import Ordering.
From S2P Require Import Paths.
From S2P Require Import Artifacts.
From S2P Require Import ClassEntries.
From S2P Require Import ClassFacts.
From S2P Require Import IndexRecord.
From S2P Require Import IndexBuild.

Open Scope N_scope.

(** ** Limits *)

(** [clamp(1, max_results)], which panics when no result is allowed. *)
Definition limit (index : MavenIndex) (requested : option N) : exec N :=
  if max_results index =? 0 then Panic
  else mret (N.max 1 (N.min (default (max_results index) requested) (max_results index))).

(** [for] with an early return, on the right. *)
Fixpoint for_until {A S} (body : S → A → exec (S + S)) (l : list A) (s : S) : exec (S + S) :=
  match l with
  | [] => mret (inl s)
  | a :: l =>
      r ← body s a;
      match r with
      | inl s => for_until body l s
      | inr s => mret (inr s)
      end
  end.
Definition either {S} (r : S + S) : S := match r with inl s | inr s => s end.

(** A push that returns when the limit is reached. *)
Definition push_match {B} (limit : N) (matches : list B) (item : B) : list B + list B :=
  let matches := matches ++ [item] in
  if N.of_nat (length matches) =? limit then inr matches else inl matches.

Definition selected_jars (index : MavenIndex) (selector : option str) : list JarRecord :=
  filter (λ jar, match selector with None => true | Some value => matches_selector jar value end = true) (jars index).

Section Search.
Context `{Unicode} (index : MavenIndex).

(** ** Classes *)

Record ClassLocation := {
  location_class_name : str;
  location_jar : JarSummary;
}.

Definition class_rank (query name : str) : N * (N * str) :=
  (if bool_decide (name = query) then 0 else 1, (blen name, name)).

(** The class of a name in lower case in one of its archives. *)
Definition locate_class (name : str) (jar : JarRecord) : ClassLocation :=
  {| location_class_name :=
       default name (snd <$> list_find (λ candidate, eq_ignore_ascii_case candidate name = true) (jar_classes jar));
     location_jar := summary jar |}.

Definition search_name (limit : N) (matches : list ClassLocation) (name : str)
    : exec (list ClassLocation + list ClassLocation) :=
  locations ← or_panic (class_locations index !! name);
  for_until (λ matches jar_index,
    jar ← or_panic (jars index !! jar_index);
    mret (push_match limit matches (locate_class name jar))) locations matches.

Definition search_classes (query : str) (requested : option N) : exec (list ClassLocation) :=
  let query := to_lowercase (trim query) in
  if bool_decide (query = []) then mret []
  else
    limit ← limit index requested;
    let names := filter (λ name, contains query name = true) (map_to_list (class_locations index)).*1 in
    either <$> for_until (search_name limit) (sort_by_key (class_rank query) names) [].

(** ** JARs, entries and class lists *)

Definition search_jars (query : str) (requested : option N) : exec (list JarSummary) :=
  let query := to_lowercase (trim query) in
  if bool_decide (query = []) then mret []
  else
    limit ← limit index requested;
    mret (summary <$> take (N.to_nat limit)
      (filter (λ jar, contains query (to_lowercase (jar_coordinate jar))
                      || contains query (to_lowercase (jar_relative_path jar)) = true) (jars index))).

Record EntryMatch := {
  match_entry : str;
  match_jar : JarSummary;
}.
Definition search_entry (query : str) (limit : N) (jar : JarRecord) (matches : list EntryMatch) (entry : str)
    : exec (list EntryMatch + list EntryMatch) :=
  if contains query (to_lowercase entry)
  then mret (push_match limit matches {| match_entry := entry; match_jar := summary jar |})
  else mret (inl matches).
Definition search_entries (query : str) (selector : option str) (requested : option N) : exec (list EntryMatch) :=
  let query := to_lowercase (trim query) in
  if bool_decide (query = []) then mret []
  else
    limit ← limit index requested;
    either <$> for_until (λ matches jar, for_until (search_entry query limit jar) (jar_entries jar) matches)
                 (selected_jars index selector) [].

Record ClassList := {
  list_jar : JarSummary;
  list_total : N;
  list_offset : N;
  list_classes_ : list str;
}.
Definition list_classes (selector : str) (offset : N) (requested : option N) : exec (list ClassList) :=
  limit ← limit index requested;
  mret ((λ jar,
    {| list_jar := summary jar; list_total := N.of_nat (length (jar_classes jar)); list_offset := offset;
       list_classes_ := take (N.to_nat limit) (drop (N.to_nat offset) (jar_classes jar)) |})
    <$> filter (λ jar, is_source jar = false) (selected_jars index (Some selector))).

Definition artifact_versions (artifact : str) (group : option str) : gmap str (list str) :=
  let artifact := trim artifact in
  foldl (λ versions '((g, a), vs), <[g ++ lit ":" ++ a := vs]> versions) ∅
    (filter (λ e, eq_ignore_ascii_case e.1.2 artifact
                  && match group with None => true | Some expected => eq_ignore_ascii_case e.1.1 (trim expected) end = true)
       (sorted_entries (artifacts index))).

(** The artifacts that have a class, in order and once each. *)
Fixpoint lookup_all (locations : list nat) : exec (list JarRecord) :=
  match locations with
  | [] => mret []
  | i :: locations => jar ← or_panic (jars index !! i); rest ← lookup_all locations; mret (jar :: rest)
  end.
Definition target_artifacts (class_name : str) : exec (list str) :=
  found ← lookup_all (default [] (class_locations index !! to_lowercase class_name));
  mret (dedup (sort (jar_coordinate <$> found))).

(** ** Providers *)

Record ProviderFact := {
  fact_service : str;
  fact_provider : option str;
  fact_kind : ProviderDescriptorKind;
  fact_entry : str;
  fact_jar : JarSummary;
}.

Definition selects_option (value : option str) (candidate : option str) : bool :=
  match value with
  | None => true
  | Some value => match candidate with Some c => eq_ignore_ascii_case c (trim value) | None => false end
  end.

Definition provider_selected (service provider : option str) (kind : option ProviderDescriptorKind)
    (fact : IndexedProvider) : bool :=
  selects_option service (Some (ClassEntries.service fact))
  && selects_option provider (ClassEntries.provider fact)
  && match kind with None => true | Some kind => bool_decide (descriptor_kind fact = kind) end.

Definition provider_fact (jar : JarRecord) (fact : IndexedProvider) : ProviderFact :=
  {| fact_service := ClassEntries.service fact; fact_provider := ClassEntries.provider fact;
     fact_kind := descriptor_kind fact; fact_entry := provider_entry fact; fact_jar := summary jar |}.

Definition provider_key (f : ProviderFact) : str * (N * (str * (option str * str))) :=
  (summary_coordinate (fact_jar f), (kind_rank (fact_kind f), (fact_service f, (fact_provider f, fact_entry f)))).
End Search.

#[export] Instance JarSummary_eq_dec : EqDecision JarSummary.
Proof. solve_decision. Defined.
#[export] Instance ProviderFact_eq_dec : EqDecision ProviderFact.
Proof. solve_decision. Defined.

Definition search_providers (index : MavenIndex) (service provider : option str)
    (kind : option ProviderDescriptorKind) (selector : option str) (requested : option N) : exec (list ProviderFact) :=
  let results :=
    jar ← selected_jars index selector;
    provider_fact jar <$> filter (λ fact, provider_selected service provider kind fact = true) (jar_providers jar) in
  limit ← limit index requested;
  mret (take (N.to_nat limit) (dedup (sort_by_key provider_key results))).

(** ** References *)

Inductive ReferenceDirection := Inbound | Outbound.

Record ClassReference := {
  reference_source_class : str;
  reference_source_jar : JarSummary;
  reference_target_owner : str;
  reference_target_name : option str;
  reference_target_descriptor : option str;
  reference_kind_ : ClassReferenceKind;
  reference_target_artifacts : list str;
}.

Section References.
Context `{Unicode} (index : MavenIndex).

Definition option_string (jar : JarRecord) (id : option N) : exec (option str) :=
  match id with None => mret None | Some id => Some <$> jar_fact_string jar id end.

(** One reference of a class, when it is selected. *)
Definition select_reference (class_name : str) (direction : ReferenceDirection) (kind : option ClassReferenceKind)
    (member_name descriptor : option str) (jar : JarRecord) (class : IndexedClassFacts) (r : IndexedReference)
    : exec (option ClassReference) :=
  related ← jar_fact_string jar (match direction with Inbound => target_owner r | Outbound => source_class class end);
  if negb (eq_ignore_ascii_case related class_name) then mret None
  else if negb (match kind with None => true | Some k => bool_decide (reference_kind r = k) end) then mret None
  else
    name ← option_string jar (target_name r);
    if negb (match member_name with None => true | Some n => bool_decide (name = Some n) end) then mret None
    else
      desc ← option_string jar (target_descriptor r);
      if negb (match descriptor with None => true | Some d => bool_decide (desc = Some d) end) then mret None
      else
        source ← jar_fact_string jar (source_class class);
        owner ← jar_fact_string jar (target_owner r);
        artifacts ← target_artifacts index owner;
        mret (Some {| reference_source_class := source; reference_source_jar := summary jar;
                      reference_target_owner := owner; reference_target_name := name;
                      reference_target_descriptor := desc; reference_kind_ := reference_kind r;
                      reference_target_artifacts := artifacts |}).

Definition reference_key (r : ClassReference) : str * (str * (str * (N * (option str * option str)))) :=
  (summary_coordinate (reference_source_jar r), (reference_source_class r, (reference_target_owner r,
    (reference_rank (reference_kind_ r), (reference_target_name r, reference_target_descriptor r))))).

Definition search_class_references (class_name : str) (direction : ReferenceDirection)
    (kind : option ClassReferenceKind) (member_name descriptor selector : option str) (requested : option N)
    : exec (list ClassReference) :=
  let class_name := normalize_class_query class_name in
  if bool_decide (class_name = []) then mret []
  else
    let body jar class results r :=
      selected ← select_reference class_name direction kind member_name descriptor jar class r;
      mret (results ++ option_list selected) in
    results ←
      for_each (λ results jar,
        for_each (λ results class, for_each (body jar class) (references class) results)
          (jar_class_facts jar) results)
        (filter (λ jar, is_source jar = false) (selected_jars index selector)) [];
    limit ← limit index requested;
    mret (take (N.to_nat limit) (sort_by_key reference_key results)).

(** ** The class a source or a description is read for *)

Definition wanted_version (jar : JarRecord) (selector wanted : option str) : bool :=
  match selector with None => true | Some s => matches_selector jar s end
  && match wanted with None => true | Some v => bool_decide (version (jar_key jar) = v) end.

(** [class_source] and [get_declaration_source]: the binary JAR, the sources JAR, the class as it
    is indexed and the entry names to look for. *)
Definition source_request (normalized : str) (selector wanted : option str) (jar_index : nat)
    : exec (option (JarRecord * JarRecord * str * SourceEntryNames)) :=
  binary ← or_panic (jars index !! jar_index);
  if negb (wanted_version binary selector wanted) then mret None
  else
    match source_jar_of index binary, canonical_class_name binary normalized with
    | Some source_index, Some class_name =>
        source_jar ← or_panic (jars index !! source_index);
        names ← jar_source_entry_names binary class_name;
        mret (Some (binary, source_jar, class_name, names))
    | _, _ => mret None
    end.

Definition push_request {B} (request : nat → exec (option B)) (requests : list B) (jar_index : nat) : exec (list B) :=
  r ← request jar_index; mret (requests ++ option_list r).
Definition source_requests (class_name : str) (selector wanted : option str)
    : exec (list (JarRecord * JarRecord * str * SourceEntryNames)) :=
  let normalized := normalize_class_query class_name in
  for_each (push_request (source_request normalized selector wanted))
    (default [] (class_locations index !! to_lowercase normalized)) [].

(** [select_class_entry]. *)
Definition select_class_entry (jar : JarRecord) (class_name : str) : option str :=
  jar_class_entries jar !! (replace_char (ch ".") (ch "/") class_name ++ lit ".class").

(** [describe_class]: the archives and the classfiles that are read, or the first archive whose
    classfile is missing, which fails the request. *)
Fixpoint description_requests (normalized : str) (selector wanted : option str) (locations : list nat)
    : exec (list (JarRecord * str) + JarRecord) :=
  match locations with
  | [] => mret (inl [])
  | i :: locations =>
      jar ← or_panic (jars index !! i);
      if negb (wanted_version jar selector wanted) then description_requests normalized selector wanted locations
      else
        match select_class_entry jar normalized with
        | None => mret (inr jar)
        | Some entry =>
            rest ← description_requests normalized selector wanted locations;
            mret match rest with inl l => inl ((jar, entry) :: l) | inr jar => inr jar end
        end
  end.
Definition describe_class (class_name : str) (selector wanted : option str) : exec (list (JarRecord * str) + JarRecord) :=
  let normalized := normalize_class_query class_name in
  description_requests normalized selector wanted (default [] (class_locations index !! to_lowercase normalized)).
End References.

(** ** Loops with an early return *)

(** Items were pushed on the matches until the limit. *)
Definition pushes {B} (limit : N) (matches items : list B) (r : list B + list B) : Prop :=
  match r with
  | inl s => s = matches ++ items ∧ N.of_nat (length s) < limit
  | inr s => s = take (N.to_nat limit) (matches ++ items) ∧ limit ≤ N.of_nat (length (matches ++ items))
  end.

Lemma push_match_pushes {B} limit (matches : list B) item :
  N.of_nat (length matches) < limit → pushes limit matches [item] (push_match limit matches item).
Proof.
  intros Hm. unfold push_match, pushes. destruct (N.eqb_spec (N.of_nat (length (matches ++ [item]))) limit) as [He|Hne].
  - rewrite take_ge by lia. split; [done|lia].
  - rewrite length_app in *. simpl in *. split; [done|lia].
Qed.

Lemma pushes_nil {B} limit (matches : list B) : N.of_nat (length matches) < limit → pushes limit matches [] (inl matches).
Proof. intros Hm. unfold pushes. by rewrite app_nil_r. Qed.

Lemma for_until_pushes {A B} limit (items : A → list B) (body : list B → A → exec (list B + list B)) l matches :
  (∀ m a, a ∈ l → N.of_nat (length m) < limit → wp (body m a) (pushes limit m (items a))) →
  N.of_nat (length matches) < limit → wp (for_until body l matches) (pushes limit matches (l ≫= items)).
Proof.
  revert matches. induction l as [|a l IH]; intros matches Hbody Hm; cbn [for_until].
  - by apply pushes_nil.
  - eapply wp_call; [apply Hbody; [by left|done]|]. intros [s|s].
    + intros [-> Hs]. eapply wp_mono; [apply IH; [intros m b Hb; apply Hbody; by right|done]|].
      intros r Hr. cbn [mbind list_bind]. unfold pushes in *. by destruct r; rewrite app_assoc.
    + intros [-> Hs]. apply wp_mret. unfold pushes. cbn [mbind list_bind]. rewrite app_assoc.
      split; [|rewrite length_app; lia]. by rewrite (take_app_le (matches ++ items a)) by lia.
Qed.

Lemma for_until_take {A B} limit (items : A → list B) (body : list B → A → exec (list B + list B)) l :
  (∀ m a, a ∈ l → N.of_nat (length m) < limit → wp (body m a) (pushes limit m (items a))) →
  0 < limit → either <$> for_until body l [] = Done (take (N.to_nat limit) (l ≫= items)).
Proof.
  intros Hbody Hl. destruct (wp_Done _ _ (for_until_pushes limit items body l [] Hbody Hl)) as (r & -> & Hr).
  simpl. f_equal. unfold pushes in Hr. destruct r as [s|s], Hr as [-> Hs]; simpl; [|done].
  rewrite take_ge; [done|]. simpl in Hs. lia.
Qed.

(** ** Searching classes *)

(** An index whose tables are those of its archives, with room for a result. *)
Definition searchable `{Unicode} (index : MavenIndex) : Prop := tables_exact index ∧ max_results index ≠ 0.

(** The number of results asked for, at least one and at most [max_results]. *)
Definition allowed (index : MavenIndex) (requested : option N) : nat :=
  N.to_nat (N.max 1 (N.min (default (max_results index) requested) (max_results index))).

Lemma limit_allowed index requested :
  max_results index ≠ 0 →
  ∃ n, limit index requested = Done n ∧ N.to_nat n = allowed index requested ∧ 0 < n ≤ max_results index.
Proof.
  intros Hm. unfold limit, allowed. destruct (N.eqb_spec (max_results index) 0); [done|].
  eexists. split; [done|]. split; [done|]. lia.
Qed.

Section Searches.
Context `{Unicode} (index : MavenIndex).

(** The archives at the locations of a name. *)
Definition found_jars (name : str) : list (str * JarRecord) :=
  omap (λ i, pair name <$> jars index !! i) (default [] (class_locations index !! name)).

Lemma search_name_pushes limit matches name :
  tables_exact index → is_Some (class_locations index !! name) → N.of_nat (length matches) < limit →
  wp (search_name index limit matches name)
     (pushes limit matches ((λ p, locate_class p.1 p.2) <$> found_jars name)).
Proof.
  intros Ht [l Hl] Hm. unfold search_name, found_jars. rewrite Hl. cbn [or_panic mbind exec_bind]. change (default [] (Some l)) with l.
  assert (Hjars : ∀ i, i ∈ l → is_Some (jars index !! i)).
  { intros i Hi. destruct (exact_locations _ Ht name i) as [Hx _]. rewrite Hl in Hx.
    destruct (Hx Hi) as (jar & c & Hj & _). by eexists. }
  assert (((λ p, locate_class p.1 p.2) <$> omap (λ i, pair name <$> jars index !! i) l)
          = l ≫= λ i, option_list (locate_class name <$> jars index !! i)) as ->.
  { clear. induction l as [|i l IH]; [done|]. cbn [omap list_omap mbind list_bind].
    destruct (jars index !! i); simpl; [f_equal|]; exact IH. }
  apply for_until_pushes; [|done]. intros m i Hi Hmi. destruct (Hjars i Hi) as [jar Hj]. rewrite Hj.
  simpl. by apply push_match_pushes.
Qed.

(** The order of the results. *)
Lemma class_rank_inj query a b : class_rank query a = class_rank query b → a = b.
Proof. unfold class_rank. naive_solver. Qed.


(** The entry search is exact: the entries whose lower-cased name contains the query, archive
    by archive in the order of the index, cut after the number allowed. *)
Theorem search_entries_exact query selector requested :
  max_results index ≠ 0 →
  let q := to_lowercase (trim query) in
  search_entries index query selector requested
  = Done (if bool_decide (q = []) then []
          else take (allowed index requested)
            (selected_jars index selector ≫= λ jar,
               (λ e, {| match_entry := e; match_jar := summary jar |})
               <$> filter (λ e, contains q (to_lowercase e) = true) (jar_entries jar))).
Proof.
  intros Hmax q. unfold search_entries. fold q. destruct (bool_decide (q = [])); [done|].
  destruct (limit_allowed index requested Hmax) as (n & -> & Hn & Hpos & _). cbn [mbind exec_bind].
  rewrite (for_until_take n (λ jar, (λ e, {| match_entry := e; match_jar := summary jar |})
    <$> filter (λ e, contains q (to_lowercase e) = true) (jar_entries jar))); [by rewrite Hn| |done].
  intros m jar _ Hm.
  assert ((λ e, {| match_entry := e; match_jar := summary jar |}) <$> filter (λ e, contains q (to_lowercase e) = true) (jar_entries jar)
    = jar_entries jar ≫= λ e, if contains q (to_lowercase e) then [{| match_entry := e; match_jar := summary jar |}] else []) as ->.
  { induction (jar_entries jar) as [|e l IH]; [done|]. rewrite filter_cons. cbn [mbind list_bind].
    destruct (contains q (to_lowercase e)); simpl; by rewrite <- IH. }
  apply for_until_pushes; [|done]. intros m' e _ Hm'. unfold search_entry.
  destruct (contains q (to_lowercase e)); [by apply push_match_pushes|by apply pushes_nil].
Qed.

(** ** Requests for a source *)

Definition typed_index : Prop := tables_exact index ∧ Forall record_typed (jars index).

Lemma source_jar_of_documented binary i :
  tables_exact index → source_jar_of index binary = Some i →
  ∃ source, jars index !! i = Some source ∧ jar_key source = jar_key binary ∧
    (documented_classifier (jar_classifier source) = Some (jar_classifier binary) ∨
     jar_classifier binary ≠ None ∧ jar_classifier binary ≠ Some TESTS_CLASSIFIER ∧
     documented_classifier (jar_classifier source) = Some None).
Proof.
  intros Ht. unfold source_jar_of. destruct (source_jars index !! jar_key binary) as [m|] eqn:Em; [|done]. cbn [mbind option_bind].
  assert (Hs : ∀ d, m !! d = Some i → ∃ source, jars index !! i = Some source ∧ jar_key source = jar_key binary ∧
    documented_classifier (jar_classifier source) = Some d).
  { intros d Hd. apply (exact_sources _ Ht (jar_key binary) d i). by rewrite Em. }
  destruct (decide (jar_classifier binary = None ∨ jar_classifier binary = Some TESTS_CLASSIFIER)) as [_|Hno].
  - intros Hd. destruct (Hs _ Hd) as (source & ? & ? & ?). exists source. auto.
  - destruct (m !! jar_classifier binary) as [j|] eqn:Ej.
    + intros [= ->]. destruct (Hs _ Ej) as (source & ? & ? & ?). exists source. auto.
    + intros Hd. destruct (Hs _ Hd) as (source & ? & ? & ?). exists source. split_and!; [done..|]. right. naive_solver.
Qed.

Lemma source_names_total jar class_name : record_typed jar → total (jar_source_entry_names jar class_name).
Proof. intros [_ _ Hf]. apply total_fmap. by apply source_file_in_typed. Qed.

(** A request that is made: its archives and its class. *)
Definition request_sound (normalized : str) (selector wanted : option str)
    (r : JarRecord * JarRecord * str * SourceEntryNames) : Prop :=
  let '(binary, source_jar, class_name, names) := r in
  binary ∈ jars index ∧ is_source binary = false ∧ wanted_version binary selector wanted = true ∧
  class_name ∈ jar_classes binary ∧ to_lowercase class_name = to_lowercase normalized ∧
  source_jar ∈ jars index ∧ jar_key source_jar = jar_key binary ∧
  (documented_classifier (jar_classifier source_jar) = Some (jar_classifier binary) ∨
   jar_classifier binary ≠ None ∧ jar_classifier binary ≠ Some TESTS_CLASSIFIER ∧
   documented_classifier (jar_classifier source_jar) = Some None) ∧
  jar_source_entry_names binary class_name = Done names.

Lemma source_request_spec normalized selector wanted i :
  typed_index → i ∈ default [] (class_locations index !! to_lowercase normalized) →
  wp (source_request index normalized selector wanted i) (λ r, ∀ x, r = Some x → request_sound normalized selector wanted x).
Proof.
  intros [Ht Htyped] Hi. apply (exact_locations _ Ht) in Hi as (binary & c & Hj & Hsrc & Hc & Hlow).
  unfold source_request. rewrite Hj. cbn [or_panic mbind exec_bind].
  destruct (wanted_version binary selector wanted) eqn:Ew; [|done]. cbn [negb].
  destruct (source_jar_of index binary) as [si|] eqn:Es; [|done].
  destruct (canonical_class_name binary normalized) as [class_name|] eqn:Ec; [|done].
  destruct (source_jar_of_documented _ _ Ht Es) as (source & Hsi & Hkey & Hdoc). rewrite Hsi. cbn [or_panic mbind exec_bind].
  rewrite Forall_forall in Htyped.
  pose proof (source_names_total binary class_name (Htyped _ (list_elem_of_lookup_2 _ _ _ Hj))) as Hn.
  destruct (jar_source_entry_names binary class_name) as [names| |] eqn:En; [|done..]. cbn [mbind exec_bind].
  apply wp_mret. intros x [= <-].
  assert (class_name ∈ jar_classes binary ∧ to_lowercase class_name = to_lowercase normalized) as [Hcn Hcl].
  { unfold canonical_class_name in Ec. destruct (decide _) as [Hin|]; [by injection Ec as <-|].
    apply fmap_Some in Ec as ([k c'] & Hf & ->). apply list_find_Some in Hf as (Hk & Hl & _).
    split; [by eapply list_elem_of_lookup_2|done]. }
  split_and!; [by eapply list_elem_of_lookup_2|done|done|done|done|by eapply list_elem_of_lookup_2|done|done|done].
Qed.

(** A source is looked for in the right place: on an index built from well typed records the
    requests for the source of a class never panic, and each pairs a binary archive that has the
    class, under its indexed spelling, with a sources JAR of the same artifact that documents its
    classifier, or, for a classifier other than [tests], the artifact as a whole. *)
Theorem source_requests_sound class_name selector wanted :
  typed_index →
  wp (source_requests index class_name selector wanted)
     (Forall (request_sound (normalize_class_query class_name) selector wanted)).
Proof.
  intros Ht. unfold source_requests. set (normalized := normalize_class_query class_name).
  assert (Hgen : ∀ l rs, (∀ i, i ∈ l → i ∈ default [] (class_locations index !! to_lowercase normalized)) →
    Forall (request_sound normalized selector wanted) rs →
    wp (for_each (push_request (source_request index normalized selector wanted)) l rs)
       (Forall (request_sound normalized selector wanted))).
  { induction l as [|i l IH]; intros rs Hl Hrs; [done|]. cbn [for_each]. unfold push_request at 1.
    apply wp_bind. eapply wp_call; [apply source_request_spec; [done|apply Hl; by left]|]. intros r Hr.
    apply wp_mret. apply IH; [intros j Hj; apply Hl; by right|]. apply Forall_app. split; [done|].
    destruct r as [x|]; [|constructor]. constructor; [by apply Hr|constructor]. }
  by apply Hgen.
Qed.
End Searches.

(** ** Samples *)

(** A binary JAR with the given classes. *)
Definition binary_jar (names : list str) : JarRecord :=
  into_record {| stored_context := stored_context sample_stored; stored_validity := sample_validity;
                 stored_preflight := sample_charge; stored_multi_release := false;
                 stored_entries := (λ c, replace_char (ch ".") (ch "/") c ++ lit ".class") <$> names;
                 stored_fact_strings := []; stored_class_facts := []; stored_providers := [] |}
    sample_path sample_identity.
Definition sample_index (names : list str) : MavenIndex := @build_tables ascii_only 10 1000 [binary_jar names].

Lemma sample_tables names : @tables_exact ascii_only (sample_index names).
Proof. unfold sample_index, build_tables. by apply index_records_exact, empty_tables_exact. Qed.


Lemma search_entries_exact_witness :
  max_results (sample_index [lit "a.Bar"]) ≠ 0 ∧
  ∃ r, @search_entries ascii_only (sample_index [lit "a.Bar"]) (lit "bar") None None = Done r ∧ length r = 1%nat.
Proof.
  assert (Hm : max_results (sample_index [lit "a.Bar"]) ≠ 0) by discriminate. split; [exact Hm|].
  eexists. split; [exact (@search_entries_exact ascii_only (sample_index [lit "a.Bar"]) (lit "bar") None None Hm)|].
  vm_compute. reflexivity.
Defined.

Lemma source_requests_sound_witness :
  @typed_index ascii_only (sample_index [lit "a.Bar"]) ∧
  wp (@source_requests ascii_only (sample_index [lit "a.Bar"]) (lit "a.Bar") None None)
     (Forall (@request_sound ascii_only (sample_index [lit "a.Bar"]) (lit "a.Bar") None None)).
Proof.
  assert (Ht : @typed_index ascii_only (sample_index [lit "a.Bar"])).
  { split; [apply sample_tables|]. apply Forall_cons. split; [|constructor].
    split; [vm_compute; reflexivity|vm_compute; reflexivity|constructor]. }
  split; [exact Ht|]. exact (@source_requests_sound ascii_only (sample_index [lit "a.Bar"]) (lit "a.Bar") None None Ht).
Defined.

(** ** Letter case *)

(** Two classes of one archive that differ only in letter case hide each other: whatever of
    their common lower-cased name is searched for, the first one is listed twice and the second
    one, although indexed, never. *)
Theorem case_collision_hides :
  let index := sample_index [lit "a.Foo$B"; lit "a.Foo$b"] in
  Forall (λ jar, lit "a.Foo$b" ∈ jar_classes jar) (jars index) ∧
  ∃ l, @search_classes ascii_only index (lit "a.Foo$b") None = Done l ∧
    location_class_name <$> l = [lit "a.Foo$B"; lit "a.Foo$B"].
Proof.
  split; [|eexists; split; vm_compute; reflexivity]. apply Forall_cons. split; [|constructor]. decide_now.
Qed.

(** A class description is only found under the exact spelling: for a name that differs in
    letter case the archive is located, and the indexed spelling known, but the classfile is looked
    for under the spelling of the request, and the request fails. *)
Theorem describe_class_spelling :
  let index := sample_index [lit "a.Foo"] in
  (∃ jar entry, @describe_class ascii_only index (lit "a.Foo") None None = Done (inl [(jar, entry)])) ∧
  ∃ jar, @describe_class ascii_only index (lit "a.foo") None None = Done (inr jar) ∧
    @canonical_class_name ascii_only jar (lit "a.foo") = Some (lit "a.Foo").
Proof.
  split; [do 2 eexists; vm_compute; reflexivity|]. eexists. split; [vm_compute; reflexivity|vm_compute; reflexivity].
Qed.
