(* ===== verification/Contents.v ===== *)
(** * Contents: the searches that read archives

    Models the part of [src/index.rs] that opens archives to answer a request: the entries of a
    class directory, [jar_entry], [search_jar_content], [search_source] and [read_source].  The ZIP
    library and the file system are the classes [EntryFiles] and [ArchiveFiles]; the compiled
    regular expression is an argument.  A job may be cancelled at any of its checkpoints: [stop]
    is the number of checkpoints passed before that, [None] for a job that is not cancelled. *)

From S2P Require Import Prelude.
From S2P Require Import Text.
From S2P Require Import TextSearch.
From S2P Require Import Paths.
From S2P Require Import Ordering.
From S2P Require Import Utf8.
From S2P Require Import Artifacts.
From S2P Require Import IndexRecord.
From S2P Require Import IndexBuild.
From S2P Require Import IndexSearch.

Open Scope N_scope.

Inductive ContentError := Unreadable | Cancelled | EmptyQuery | InvalidRegex.

(** An open entry: its declared size, the bytes a reader gets, and whether it fails after them. *)
Record Entry := {
  declared_size : N;
  entry_bytes : list N;
  entry_fails : bool;
}.

(** [read_to_end], and [take(n)] followed by it. *)
Definition read_to_end (e : Entry) : option (list N) := if entry_fails e then None else Some (entry_bytes e).
Definition read_taken (n : N) (e : Entry) : option (list N) :=
  if entry_fails e && (N.of_nat (length (entry_bytes e)) <? n) then None
  else Some (take (N.to_nat n) (entry_bytes e)).

(** ** Entries of a class directory *)

Class EntryFiles := {
  is_regular_file : path → bool;
  canonical_path : path → option path;
}.

(** [Path::components] of a relative name, all of them [Normal]. *)
Definition normal_components (name : str) : bool :=
  negb (starts_with (lit "/") name)
  && match split_char (ch "/") name with
     | first :: rest => negb (bool_decide (first = lit ".")) && forallb (λ c, negb (bool_decide (c = lit ".."))) (first :: rest)
     | [] => true
     end.

Definition directory_entry_path `{EntryFiles} (root : path) (name : str) : option path :=
  if bool_decide (name = []) || negb (normal_components name) then None
  else
    let p := path_join root name in
    if negb (is_regular_file p) then None
    else
      canonical ← canonical_path p;
      if path_starts_with root canonical then Some canonical else None.

(** ** Open archives *)

(** [ClassArchive::open], and [ZipArchive::new] of a sources JAR, with [by_name] of the archive:
    [None] is an error, [Some None] no such file. *)
Class ArchiveFiles := {
  open_archive : path → option (str → option (option Entry));
  open_zip : path → option (str → option (option Entry));
}.

Definition indexed_entry (archive : str → option (option Entry)) (name : str) : option Entry :=
  e ← archive name; e.

(** ** One entry *)

Inductive JarEntryContentKind := TextContent | BinaryContent.
Record BoundedEntryContent := {
  content_kind : JarEntryContentKind;
  content_text : option str;
  content_bytes : option (list N);
  original_size : N;
  content_truncated : bool;
}.

(** What is made of the bytes read: a text, cut at its last complete character when it was
    truncated, or the bytes.  Slicing a prefix that was just validated cannot fail. *)
Definition entry_content (size : N) (max_bytes : N) (read : list N) : BoundedEntryContent :=
  let truncated := max_bytes <? N.of_nat (length read) in
  let bytes := take (N.to_nat max_bytes) read in
  let text s := {| content_kind := TextContent; content_text := Some s; content_bytes := None;
                   original_size := size; content_truncated := truncated |} in
  let binary := {| content_kind := BinaryContent; content_text := None; content_bytes := Some bytes;
                   original_size := size; content_truncated := truncated |} in
  match from_utf8 bytes with
  | inl s => text s
  | inr e =>
      if truncated && match error_len e with None => true | Some _ => false end then
        match from_utf8 (take (N.to_nat (valid_up_to e)) bytes) with
        | inl s => text s
        | inr _ => binary
        end
      else binary
  end.

Definition read_jar_entry `{ArchiveFiles} (p : path) (entry_path : str) (max_bytes : N)
    : option BoundedEntryContent + ContentError :=
  match open_archive p with
  | None => inr Unreadable
  | Some archive =>
      match archive entry_path with
      | None => inr Unreadable
      | Some None => inl None
      | Some (Some e) =>
          match read_taken (saturating_add max_bytes 1) e with
          | None => inr Unreadable
          | Some bytes => inl (Some (entry_content (declared_size e) max_bytes bytes))
          end
      end
  end.

Record JarEntryContent := {
  content_jar : JarSummary;
  content_entry : str;
  content : BoundedEntryContent;
}.

(** [collect] over results: the first error ends it. *)
Fixpoint collect_contents `{ArchiveFiles} (jars : list JarRecord) (entry_path : str) (max_bytes : N)
    : list JarEntryContent + ContentError :=
  match jars with
  | [] => inl []
  | jar :: jars =>
      match read_jar_entry (jar_path jar) entry_path max_bytes with
      | inr e => inr e
      | inl c =>
          match collect_contents jars entry_path max_bytes with
          | inr e => inr e
          | inl rest =>
              inl (match c with
                   | None => rest
                   | Some c => {| content_jar := summary jar; content_entry := entry_path; content := c |} :: rest
                   end)
          end
      end
  end.

Definition jar_entry `{ArchiveFiles, Unicode} (index : MavenIndex) (jar_selector entry_path : str)
    : list JarEntryContent + ContentError :=
  let entry_path := replace_char (ch "\") (ch "/") (trim entry_path) in
  if bool_decide (entry_path = []) then inl []
  else collect_contents (selected_jars index (Some jar_selector)) entry_path (max_source_bytes index).

(** ** Searching the text of archives *)

(** [for] with an early return of an error or of a final state. *)
Fixpoint for_try {A S R} (body : S → A → exec (S + R)) (l : list A) (s : S) : exec (S + R) :=
  match l with
  | [] => mret (inl s)
  | a :: l => r ← body s a; match r with inl s => for_try body l s | inr r => mret (inr r) end
  end.

(** The state of a search: its results, whether something was left out, the bytes scanned, and
    the checkpoints passed. *)
Record Scan (B : Type) := {
  results : list B;
  incomplete : bool;
  scanned_bytes : N;
  checkpoints : nat;
}.
Arguments results {B} _.
Arguments incomplete {B} _.
Arguments scanned_bytes {B} _.
Arguments checkpoints {B} _.

Definition scan_start {B} : Scan B := {| results := []; incomplete := false; scanned_bytes := 0; checkpoints := 0 |}.
Definition add_scanned {B} (n : N) (s : Scan B) : Scan B :=
  {| results := results s; incomplete := incomplete s; scanned_bytes := saturating_add (scanned_bytes s) n;
     checkpoints := checkpoints s |}.
Definition set_incomplete {B} (s : Scan B) : Scan B :=
  {| results := results s; incomplete := true; scanned_bytes := scanned_bytes s; checkpoints := checkpoints s |}.

(** [blocking::checkpoint]: the job goes on, or ends with an error. *)
Definition checkpoint {B} (stop : option nat) (s : Scan B) : option (Scan B) :=
  if bool_decide (stop = Some (checkpoints s)) then None
  else Some {| results := results s; incomplete := incomplete s; scanned_bytes := scanned_bytes s;
               checkpoints := S (checkpoints s) |}.

(** How a search ends early: with an error, or with what it has found. *)
Abbreviation stopped B := (ContentError + Scan B)%type (only parsing).

(** A push that ends the search, as incomplete, when the limit is reached. *)
Definition push_result {B} (limit : N) (b : B) (s : Scan B) : Scan B + stopped B :=
  let s := {| results := results s ++ [b]; incomplete := incomplete s; scanned_bytes := scanned_bytes s;
              checkpoints := checkpoints s |} in
  if N.of_nat (length (results s)) =? limit then inr (inr (set_incomplete s)) else inl s.

(** [usize::try_from] of a [u64] on a 64-bit target. *)
Definition declared (e : Entry) : N := N.min (declared_size e) usize_max.

Section Content.
Context `{Unicode, ArchiveFiles} (index : MavenIndex) (stop : option nat).

Definition total_budget : N := saturating_mul (max_source_bytes index) (max_results index).

Record JarContentMatch := {
  match_content_jar : JarSummary;
  match_content_entry : str;
  match_line : N;
  match_context : str;
}.

(** [matching_context]: the number of the first matching line and its first 240 characters. *)
Fixpoint matching_line (index : N) (query : str) (l : list str) : option (N * str) :=
  match l with
  | [] => None
  | line :: l =>
      if contains query (to_lowercase line) then Some (index + 1, take 240 line)
      else matching_line (index + 1) query l
  end.
Definition matching_context (text query : str) : option (N * str) := matching_line 0 query (lines text).

Definition scan_content_entry (limit : N) (query : str) (jar : JarRecord) (archive : str → option (option Entry))
    (s : Scan JarContentMatch) (entry_path : str) : exec (Scan JarContentMatch + stopped JarContentMatch) :=
  match checkpoint stop s with
  | None => mret (inr (inl Cancelled))
  | Some s =>
      match indexed_entry archive entry_path with
      | None => mret (inr (inl Unreadable))
      | Some e =>
          let over := total_budget <? saturating_add (scanned_bytes s) (declared e) in
          if (max_source_bytes index <? declared e) || over then
            mret (if over then inr (inr (set_incomplete s)) else inl (set_incomplete s))
          else
            match read_to_end e with
            | None => mret (inr (inl Unreadable))
            | Some bytes =>
                let s := add_scanned (N.of_nat (length bytes)) s in
                match from_utf8 bytes with
                | inr _ => mret (inl s)
                | inl text =>
                    match matching_context text query with
                    | None => mret (inl s)
                    | Some (line, context) =>
                        mret (push_result limit {| match_content_jar := summary jar; match_content_entry := entry_path;
                                                   match_line := line; match_context := context |} s)
                    end
                end
            end
      end
  end.

Definition content_entries (jar : JarRecord) : list str := filter (λ e, is_text_resource e = true) (jar_entries jar).

Definition scan_content_jar (limit : N) (query : str) (s : Scan JarContentMatch) (jar : JarRecord)
    : exec (Scan JarContentMatch + stopped JarContentMatch) :=
  match open_archive (jar_path jar) with
  | None => mret (inr (inl Unreadable))
  | Some archive => for_try (scan_content_entry limit query jar archive) (content_entries jar) s
  end.

Definition binary_jars (selector : option str) : list JarRecord :=
  filter (λ jar, is_source jar = false) (selected_jars index selector).

(** The value of a search whose loops are over. *)
Definition ended {B} (r : Scan B + stopped B) : Scan B + ContentError :=
  match r with
  | inl s | inr (inr s) => inl s
  | inr (inl e) => inr e
  end.

Definition search_jar_content (query : str) (selector : option str) (requested : option N)
    : exec (Scan JarContentMatch + ContentError) :=
  let query := to_lowercase (trim query) in
  if bool_decide (query = []) then mret (inl scan_start)
  else
    limit ← limit index requested;
    ended <$> for_try (scan_content_jar limit query) (binary_jars selector) scan_start.

(** ** Searching sources *)

Record SourceMatch := {
  match_source_jar : JarSummary;
  match_source_entry : str;
  match_source_line : N;
  match_source_context : str;
  match_truncated : bool;
}.

(** [lines[start..end]] around a line, joined. *)
Definition line_context (context_lines : N) (l : list str) (line_index : nat) : exec str :=
  let start := N.to_nat (saturating_sub (N.of_nat line_index) context_lines) in
  let stop := Nat.min (line_index + N.to_nat context_lines + 1) (length l) in
  if decide (start ≤ stop ∧ stop ≤ length l)%nat then mret (join [10] (take (stop - start) (drop start l)))
  else Panic.

Definition scan_source_line (limit context_lines : N) (is_match : str → bool) (jar : JarRecord) (entry_path : str)
    (truncated : bool) (l : list str) (s : Scan SourceMatch) (p : nat * str)
    : exec (Scan SourceMatch + stopped SourceMatch) :=
  if negb (is_match p.2) then mret (inl s)
  else
    context ← line_context context_lines l p.1;
    mret (push_result limit {| match_source_jar := summary jar; match_source_entry := entry_path;
            match_source_line := N.of_nat p.1 + 1; match_source_context := context; match_truncated := truncated |} s).

(** What is kept of the bytes read: at most [max], without a character cut by that. *)
Definition kept_source (max : N) (read : list N) : exec (list N) :=
  let cut := take (N.to_nat max) read in
  if max <? N.of_nat (length read) then n ← complete_utf8_prefix_len cut; mret (take (N.to_nat n) cut) else mret cut.

Definition scan_source_entry (limit context_lines : N) (is_match : str → bool) (jar : JarRecord)
    (archive : str → option (option Entry)) (s : Scan SourceMatch) (entry_path : str)
    : exec (Scan SourceMatch + stopped SourceMatch) :=
  match checkpoint stop s with
  | None => mret (inr (inl Cancelled))
  | Some s =>
      match indexed_entry archive entry_path with
      | None => mret (inr (inl Unreadable))
      | Some e =>
          if total_budget <? saturating_add (scanned_bytes s) (declared e) then mret (inr (inr (set_incomplete s)))
          else
            match read_taken (saturating_add (max_source_bytes index) 1) e with
            | None => mret (inr (inl Unreadable))
            | Some read =>
                let truncated := max_source_bytes index <? N.of_nat (length read) in
                let s := if truncated then set_incomplete s else s in
                bytes ← kept_source (max_source_bytes index) read;
                let s := add_scanned (N.of_nat (length bytes)) s in
                let l := lines (from_utf8_lossy bytes) in
                for_try (scan_source_line limit context_lines is_match jar entry_path truncated l) (enumerate l) s
            end
      end
  end.

Definition is_source_file (entry : str) : bool := ends_with (lit ".java") entry || ends_with (lit ".kt") entry.

Definition scan_source_jar (limit context_lines : N) (is_match : str → bool) (s : Scan SourceMatch) (jar : JarRecord)
    : exec (Scan SourceMatch + stopped SourceMatch) :=
  match open_zip (jar_path jar) with
  | None => mret (inr (inl Unreadable))
  | Some archive =>
      for_try (scan_source_entry limit context_lines is_match jar archive)
        (filter (λ e, is_source_file e = true) (jar_entries jar)) s
  end.

(** The sources JARs a selector selects, with their position in the index. *)
Definition selected_sources (selector : option str) : list (nat * JarRecord) :=
  filter (λ p, is_source p.2 && source_matches_selector index p.1 p.2 selector = true) (enumerate (jars index)).

(** [Regex::new]: [None] for a pattern it refuses. *)
Definition search_source (compile : str → option (str → bool)) (query : str) (regex : bool) (selector : option str)
    (context_lines : N) (requested : option N) : exec (Scan SourceMatch + ContentError) :=
  let query := trim query in
  if bool_decide (query = []) then mret (inr EmptyQuery)
  else
    match (if regex then compile query else Some (contains query)) with
    | None => mret (inr InvalidRegex)
    | Some is_match =>
        limit ← limit index requested;
        ended <$> for_try (λ s p, scan_source_jar limit (N.min context_lines 10) is_match s p.2)
                    (selected_sources selector) scan_start
    end.
End Content.

(** ** Lemmas: scans *)

Section Scans.
Context {B : Type} (limit : N) (stop : option nat) (budget : N) (honest : Prop).

(** Between two steps: room for a result, and the budget when the archives declare their sizes
    truly. *)
Definition open_scan (s : Scan B) : Prop :=
  N.of_nat (length (results s)) < limit ∧ (honest → scanned_bytes s ≤ budget).

(** A step of a search adds the results [items], or ends early: with a part of them, or with an
    error.  Nothing left out is forgotten, and when nothing is, [ok] holds. *)
Definition scans (items : list B) (ok : Prop) (s : Scan B) (r : Scan B + stopped B) : Prop :=
  match r with
  | inl s' => results s' = results s ++ items ∧ open_scan s' ∧
      (incomplete s = true → incomplete s' = true) ∧ (incomplete s' = false → ok)
  | inr (inr s') => incomplete s' = true ∧ (∃ taken rest, items = taken ++ rest ∧ results s' = results s ++ taken) ∧
      N.of_nat (length (results s')) ≤ limit ∧ (honest → scanned_bytes s' ≤ budget)
  | inr (inl e) => e = Unreadable ∨ e = Cancelled ∧ stop ≠ None
  end.

Lemma for_try_scans {A} (items : A → list B) (ok : A → Prop) body l s :
  (∀ a s, a ∈ l → open_scan s → wp (body s a) (scans (items a) (ok a) s)) →
  open_scan s → wp (for_try body l s) (scans (l ≫= items) (Forall ok l) s).
Proof.
  revert s. induction l as [|a l IH]; intros s Hbody Hs; cbn [for_try mbind list_bind].
  { apply wp_mret. unfold scans. rewrite app_nil_r. split_and!; first [done|constructor]. }
  eapply wp_call; [apply Hbody; [by left|done]|]. intros [s1|[e|s1]]; cbn [scans].
  - intros (Hr1 & Ho1 & Hi1 & Hk1). eapply wp_mono; [apply IH; [intros b s' Hb; apply Hbody; by right|done]|].
    intros [s2|[e|s2]]; cbn [scans]; [| done|].
    + intros (Hr2 & Ho2 & Hi2 & Hk2). split_and!; [by rewrite Hr2, Hr1, app_assoc|done|auto|].
      intros Hf. constructor; [|auto]. apply Hk1. destruct (incomplete s1) eqn:E; [|done]. by rewrite Hi2 in Hf.
    + intros (Hi2 & (taken & rest & -> & Hr2) & Hl2 & Hb2). split_and!; [done| |done..].
      exists (items a ++ taken), rest. split; [by rewrite app_assoc|by rewrite Hr2, Hr1, app_assoc].
  - intros He. by apply wp_mret.
  - intros (Hi1 & (taken & rest & Ha & Hr1) & Hl2 & Hb2). apply wp_mret. split_and!; [done| |done..].
    exists taken, (rest ++ (l ≫= items)). split; [by rewrite Ha, <- app_assoc|done].
Qed.

(** Steps that change the counters only, before others. *)
Lemma scans_from items ok s s1 r :
  results s1 = results s → (incomplete s = true → incomplete s1 = true) → scans items ok s1 r → scans items ok s r.
Proof.
  intros Hr Hi. destruct r as [s'|[e|s']]; cbn [scans]; [|done|by rewrite Hr].
  rewrite Hr. intros (? & ? & ? & ?). split_and!; auto.
Qed.

Lemma scans_none (ok : Prop) s : open_scan s → (incomplete s = false → ok) → scans [] ok s (inl s).
Proof. intros Hs Hok. unfold scans. by rewrite app_nil_r. Qed.

Lemma scans_break items ok s s1 :
  open_scan s → results s1 = results s → incomplete s1 = true → scanned_bytes s1 = scanned_bytes s →
  scans items ok s (inr (inr s1)).
Proof.
  intros [Hl Hb] Hr Hi Hs. split_and!; [done| |rewrite Hr; lia|by rewrite Hs].
  exists [], items. split; [done|by rewrite app_nil_r].
Qed.

Lemma push_result_scans (ok : Prop) b s :
  open_scan s → (incomplete s = false → ok) → scans [b] ok s (push_result limit b s).
Proof.
  intros [Hl Hb] Hok. unfold push_result. cbn [results]. rewrite length_app. simpl.
  destruct (N.eqb_spec (N.of_nat (length (results s) + 1)) limit) as [He|He].
  - split_and!; cbn; [done| |rewrite length_app; simpl; lia|done]. by exists [b], [].
  - split_and!; cbn; [done| |done|done]. split; [cbn; rewrite length_app; simpl; lia|done].
Qed.

Lemma checkpoint_spec (s s1 : Scan B) : checkpoint stop s = Some s1 →
  results s1 = results s ∧ incomplete s1 = incomplete s ∧ scanned_bytes s1 = scanned_bytes s.
Proof. unfold checkpoint. case_bool_decide; [done|]. by intros [= <-]. Qed.

Lemma checkpoint_stops (s : Scan B) : checkpoint stop s = None → stop ≠ None.
Proof. unfold checkpoint. case_bool_decide as Hs; [|done]. intros _. by rewrite Hs. Qed.

(** The outcome of a whole search. *)
Definition search_ended (items : list B) (ok : Prop) (r : Scan B + ContentError) : Prop :=
  match r with
  | inl s => (∀ b, b ∈ results s → b ∈ items) ∧ N.of_nat (length (results s)) ≤ limit ∧
      (honest → scanned_bytes s ≤ budget) ∧ (incomplete s = false → ok ∧ results s = items)
  | inr e => e = Unreadable ∨ e = Cancelled ∧ stop ≠ None
  end.

Lemma search_ended_spec items ok r : scans items ok scan_start r → search_ended items ok (ended r).
Proof.
  destruct r as [s|[e|s]]; cbn [scans ended search_ended]; [|done|].
  - intros (Hr & [Hl Hb] & _ & Hok). simpl in Hr. split_and!; [intros b; by rewrite Hr|lia|done|]. intros Hi. auto.
  - intros (Hi & (taken & rest & -> & Hr) & Hl & Hb). simpl in Hr. split_and!; [|done|done|].
    + intros b. rewrite Hr, elem_of_app. by left.
    + intros Hf. by rewrite Hf in Hi.
Qed.

Lemma scan_start_open : 0 < limit → open_scan scan_start.
Proof. intros Hl. split; simpl; lia. Qed.

Lemma add_scanned_open (n d : N) (s : Scan B) :
  budget ≤ usize_max → open_scan s → saturating_add (scanned_bytes s) (N.min d usize_max) ≤ budget →
  (honest → n ≤ d) → open_scan (add_scanned n s).
Proof.
  intros Hbudget [Hl Hb] Hd Hn. split; [done|]. intros Hh. specialize (Hb Hh). specialize (Hn Hh). simpl.
  unfold saturating_add in *. lia.
Qed.
End Scans.

(** ** Searching the text of archives *)

Section ContentSearch.
Context `{Unicode, ArchiveFiles} (index : MavenIndex) (stop : option nat).

(** Every archive declares at least the size of its entries. *)
Definition sizes_declared : Prop := ∀ p archive name e,
  open_archive p = Some archive ∨ open_zip p = Some archive → archive name = Some (Some e) →
  N.of_nat (length (entry_bytes e)) ≤ declared_size e.

(** The first line of a text that has a property. *)
Definition first_line (P : str → bool) (l : list str) (i : nat) (line : str) : Prop :=
  l !! i = Some line ∧ P line = true ∧ ∀ j line', (j < i)%nat → l !! j = Some line' → P line' = false.

Lemma matching_line_spec start query l n context :
  matching_line start query l = Some (n, context) ↔
  ∃ i line, first_line (λ x, contains query (to_lowercase x)) l i line ∧ n = start + N.of_nat i + 1 ∧ context = take 240 line.
Proof.
  revert start. induction l as [|x l IH]; intros start; simpl.
  { split; [done|]. intros (i & line & (Hi & _) & _). by rewrite lookup_nil in Hi. }
  destruct (contains query (to_lowercase x)) eqn:Ex.
  - split.
    + intros [= <- <-]. exists 0%nat, x. split_and!; [split_and!; [done|done|lia]|lia|done].
    + intros ([|i] & line & (Hi & Hm & Hfirst) & -> & ->); [|by rewrite (Hfirst 0%nat x (Nat.lt_0_succ i) eq_refl) in Ex].
      simpl in Hi. injection Hi as ->. do 2 f_equal; lia.
  - rewrite IH. split.
    + intros (i & line & (Hi & Hm & Hfirst) & -> & ->). exists (S i), line. split_and!; [|lia|done].
      split_and!; [done|done|]. intros [|j] line' Hj Hl; [by injection Hl as <-|]. apply (Hfirst j); [lia|done].
    + intros ([|i] & line & (Hi & Hm & Hfirst) & -> & ->); [simpl in Hi; injection Hi as ->; by rewrite Hm in Ex|].
      exists i, line. split_and!; [|lia|done]. split_and!; [done|done|]. intros j line' Hj Hl. apply (Hfirst (S j)); [lia|done].
Qed.

(** What a search for [query] finds: the first matching line of an entry that is a text. *)
Definition content_found (jar : JarRecord) (archive : str → option (option Entry)) (query entry_path : str) (m : JarContentMatch) : Prop :=
  ∃ e text i line, indexed_entry archive entry_path = Some e ∧ read_to_end e = Some (utf8 text) ∧ valid_str text ∧
    first_line (λ x, contains query (to_lowercase x)) (lines text) i line ∧
    m = {| match_content_jar := summary jar; match_content_entry := entry_path; match_line := N.of_nat i + 1;
           match_context := take 240 line |}.
Definition content_match (selector : option str) (query : str) (m : JarContentMatch) : Prop :=
  ∃ jar archive entry_path, jar ∈ binary_jars index selector ∧ open_archive (jar_path jar) = Some archive ∧
    entry_path ∈ content_entries jar ∧ content_found jar archive query entry_path m.

(** The same as a list, for the entries that are small enough. *)
Definition small_entry (archive : str → option (option Entry)) (entry_path : str) : Prop :=
  ∃ e, indexed_entry archive entry_path = Some e ∧ declared e ≤ max_source_bytes index.
Definition content_items (query : str) (jar : JarRecord) (archive : str → option (option Entry)) (entry_path : str)
    : list JarContentMatch :=
  match indexed_entry archive entry_path with
  | None => []
  | Some e =>
      if max_source_bytes index <? declared e then []
      else
        match read_to_end e with
        | None => []
        | Some bytes =>
            match from_utf8 bytes with
            | inr _ => []
            | inl text =>
                match matching_context text query with
                | None => []
                | Some (line, context) =>
                    [{| match_content_jar := summary jar; match_content_entry := entry_path;
                        match_line := line; match_context := context |}]
                end
            end
        end
  end.
Definition jar_items (query : str) (jar : JarRecord) : list JarContentMatch :=
  match open_archive (jar_path jar) with
  | None => []
  | Some archive => content_entries jar ≫= content_items query jar archive
  end.

Lemma content_items_found jar archive query entry_path m :
  m ∈ content_items query jar archive entry_path →  content_found jar archive query entry_path m.
Proof.
  unfold content_items. intros Hm. destruct (indexed_entry archive entry_path) as [e|] eqn:He; [|by apply elem_of_nil in Hm].
  destruct (max_source_bytes index <? declared e); [by apply elem_of_nil in Hm|].
  destruct (read_to_end e) as [bytes|] eqn:Hr; [|by apply elem_of_nil in Hm].
  destruct (from_utf8 bytes) as [text|err] eqn:Ht; [|by apply elem_of_nil in Hm].
  apply from_utf8_exact in Ht as [-> Hv].
  destruct (matching_context text query) as [[line context]|] eqn:Hc; [|by apply elem_of_nil in Hm].
  apply list_elem_of_singleton in Hm as ->. apply matching_line_spec in Hc as (i & x & Hf & -> & ->).
  exists e, text, i, x. by split_and!.
Qed.

Lemma content_found_items jar archive query entry_path m :
  small_entry archive entry_path → content_found jar archive query entry_path m →
  m ∈ content_items query jar archive entry_path.
Proof.
  intros (e & He & Hsmall) (e' & text & i & line & He' & Hr & Hv & Hf & ->). rewrite He in He'. injection He' as <-.
  unfold content_items. rewrite He, (proj2 (N.ltb_ge _ _)), Hr by done.
  rewrite (proj2 (from_utf8_exact _ text)) by done.
  assert (matching_context text query = Some (N.of_nat i + 1, take 240 line)) as ->; [|by left].
  apply matching_line_spec. exists i, line. by split_and!.
Qed.

Lemma total_budget_le : total_budget index ≤ usize_max.
Proof. unfold total_budget, saturating_mul. lia. Qed.

Abbreviation scans_ limit := (scans limit stop (total_budget index) sizes_declared).
Abbreviation open_ limit := (open_scan limit (total_budget index) sizes_declared).

Lemma scan_content_entry_spec limit query jar archive s entry_path :
  open_archive (jar_path jar) = Some archive → open_ limit s →
  wp (scan_content_entry index stop limit query jar archive s entry_path)
     (scans_ limit (content_items query jar archive entry_path) (small_entry archive entry_path) s).
Proof.
  intros Hopen Hs. unfold scan_content_entry, content_items.
  destruct (checkpoint stop s) as [s1|] eqn:Hcheck; [|apply wp_mret; right; split; [done|by eapply checkpoint_stops]].
  apply checkpoint_spec in Hcheck as (Hr1 & Hi1 & Hb1).
  assert (Hs1 : open_ limit s1) by (unfold open_scan; by rewrite Hr1, Hb1).
  eapply (wp_mono _ (scans_ limit _ _ s1)); [|intros r; apply scans_from; [done|by rewrite Hi1]].
  destruct (indexed_entry archive entry_path) as [e|] eqn:He; [|by apply wp_mret; left].
  destruct (N.ltb_spec (max_source_bytes index) (declared e)) as [Hbig|Hsmall]; cbn [orb].
  { destruct (total_budget index <? _); apply wp_mret; [by apply scans_break|].
    apply (scans_from _ _ _ _ _ _ s1 (set_incomplete s1)); [done|done|]. by apply scans_none. }
  destruct (N.ltb_spec (total_budget index) (saturating_add (scanned_bytes s1) (declared e))) as [Hover|Hfits].
  { apply wp_mret. by apply scans_break. }
  assert (Hok : small_entry archive entry_path) by by exists e.
  destruct (read_to_end e) as [bytes|] eqn:Hread; [|by apply wp_mret; left].
  assert (Hs2 : open_ limit (add_scanned (N.of_nat (length bytes)) s1)).
  { eapply add_scanned_open; [apply total_budget_le|done|exact Hfits|]. intros Hh. unfold read_to_end in Hread.
    destruct (entry_fails e); [done|]. injection Hread as <-. unfold indexed_entry in He.
    destruct (archive entry_path) as [[e'|]|] eqn:Ha; simplify_eq/=. eapply (Hh (jar_path jar)); [by left|done]. }
  eapply wp_mono; [|intros r; by apply (scans_from _ _ _ _ _ _ s1 (add_scanned (N.of_nat (length bytes)) s1))].
  destruct (from_utf8 bytes); [|apply wp_mret; by apply scans_none].
  destruct (matching_context _ query) as [[line context]|]; apply wp_mret; [by apply push_result_scans|by apply scans_none].
Qed.

Lemma scan_content_jar_spec limit query s jar :
  open_ limit s →
  wp (scan_content_jar index stop limit query s jar)
     (scans_ limit (jar_items query jar) (∃ archive, open_archive (jar_path jar) = Some archive ∧
        Forall (small_entry archive) (content_entries jar)) s).
Proof.
  intros Hs. unfold scan_content_jar, jar_items. destruct (open_archive (jar_path jar)) as [archive|] eqn:Ho; [|by apply wp_mret; left].
  eapply wp_mono; [apply for_try_scans; [|done]; intros e s1 _ Hs1; by apply scan_content_entry_spec|].
  intros [s'|[e|s']]; cbn [scans]; [|done|done]. intros (? & ? & ? & Hok). split_and!; [done..|]. intros Hi. exists archive. auto.
Qed.

End ContentSearch.

(** ** Searching sources *)

Section SourceSearch.
Context `{Unicode, ArchiveFiles} (index : MavenIndex) (stop : option nat).

Abbreviation scans_ limit := (scans limit stop (total_budget index) (sizes_declared)).
Abbreviation open_ limit := (open_scan limit (total_budget index) (sizes_declared)).

(** The text a source entry is searched as: its bytes decoded, or, when it is longer than allowed,
    what is left of the allowed bytes without the character they cut. *)
Definition source_text (e : Entry) (text : str) (truncated : bool) : Prop :=
  if truncated then
    max_source_bytes index < N.of_nat (length (entry_bytes e)) ∧
    ∃ cut_character, (cut_character = [] ∨ cut_character = [REPLACEMENT]) ∧
      from_utf8_lossy (take (N.to_nat (max_source_bytes index)) (entry_bytes e)) = text ++ cut_character
  else text = from_utf8_lossy (entry_bytes e).

(** The lines around a line: as many as asked for on either side, as far as there are. *)
Definition around (context_lines : N) (l : list str) (i : nat) : list str :=
  take (Nat.min (i + N.to_nat context_lines + 1) (length l) - (i - N.to_nat context_lines)) (drop (i - N.to_nat context_lines) l).

Definition line_match (context_lines : N) (jar : JarRecord) (entry_path : str) (truncated : bool) (l : list str)
    (p : nat * str) : SourceMatch :=
  {| match_source_jar := summary jar; match_source_entry := entry_path; match_source_line := N.of_nat p.1 + 1;
     match_source_context := join [10] (around context_lines l p.1); match_truncated := truncated |}.
Definition line_items (context_lines : N) (is_match : str → bool) (jar : JarRecord) (entry_path : str) (truncated : bool)
    (l : list str) : list SourceMatch :=
  enumerate l ≫= λ p, if is_match p.2 then [line_match context_lines jar entry_path truncated l p] else [].

(** A match: a line of a source file of a selected sources JAR. *)
Definition source_match (selector : option str) (context_lines : N) (is_match : str → bool) (m : SourceMatch) : Prop :=
  ∃ p archive entry_path e text truncated i line,
    p ∈ selected_sources index selector ∧ open_zip (jar_path p.2) = Some archive ∧ entry_path ∈ jar_entries p.2 ∧
    is_source_file entry_path = true ∧ indexed_entry archive entry_path = Some e ∧ source_text e text truncated ∧
    lines text !! i = Some line ∧ is_match line = true ∧
    m = line_match context_lines p.2 entry_path truncated (lines text) (i, line).

Lemma line_context_spec context_lines (l : list str) i line :
  l !! i = Some line → line_context context_lines l i = Done (join [10] (around context_lines l i)).
Proof.
  intros Hi%lookup_lt_Some. unfold line_context, around, saturating_sub.
  replace (N.to_nat (N.of_nat i - context_lines)) with (i - N.to_nat context_lines)%nat by lia.
  by rewrite decide_True by lia.
Qed.

Lemma scan_source_line_spec limit context_lines is_match jar entry_path truncated l s p :
  p ∈ enumerate l → open_ limit s →
  wp (scan_source_line limit context_lines is_match jar entry_path truncated l s p)
     (scans_ limit (if is_match p.2 then [line_match context_lines jar entry_path truncated l p] else []) True s).
Proof.
  intros Hp%elem_of_enumerate Hs. unfold scan_source_line. destruct (is_match p.2); cbn [negb].
  - rewrite (line_context_spec _ _ _ _ Hp). cbn [mbind exec_bind]. apply wp_mret. by apply push_result_scans.
  - apply wp_mret. by apply scans_none.
Qed.

Lemma scan_source_lines_spec limit context_lines is_match jar entry_path truncated l s :
  open_ limit s →
  wp (for_try (scan_source_line limit context_lines is_match jar entry_path truncated l) (enumerate l) s)
     (scans_ limit (line_items context_lines is_match jar entry_path truncated l) True s).
Proof.
  intros Hs. eapply wp_mono; [apply for_try_scans; [|done]; intros p s1 Hp Hs1; by apply scan_source_line_spec|].
  intros [s'|[e|s']]; cbn [scans]; [|done|done]. intros (? & ? & ? & _). by split_and!.
Qed.

Lemma read_taken_spec n e bytes : read_taken n e = Some bytes →
  bytes = take (N.to_nat n) (entry_bytes e).
Proof. unfold read_taken. case_match; [done|]. by intros [= <-]. Qed.

Lemma kept_source_spec e :
  max_source_bytes index < usize_max →
  let read := take (N.to_nat (max_source_bytes index + 1)) (entry_bytes e) in
  wp (kept_source (max_source_bytes index) read) (λ bytes,
    source_text e (from_utf8_lossy bytes) (max_source_bytes index <? N.of_nat (length read)) ∧
    (length bytes ≤ length (entry_bytes e))%nat).
Proof.
  intros Hmax read. unfold kept_source, source_text. set (max := max_source_bytes index) in *.
  assert (Hcut : take (N.to_nat max) read = take (N.to_nat max) (entry_bytes e)) by (unfold read; rewrite take_take; f_equal; lia).
  assert (Hlen : length read = Nat.min (N.to_nat (max + 1)) (length (entry_bytes e))) by (unfold read; apply length_take).
  rewrite Hcut. destruct (N.ltb_spec max (N.of_nat (length read))) as [Htr|Hall].
  - eapply wp_call; [apply complete_prefix_lossy|]. intros n [Hn Hlossy]. apply wp_mret. split.
    + split; [lia|]. eexists. split; [|exact Hlossy]. case_match; [by left|by right].
    + rewrite !length_take. lia.
  - apply wp_mret. rewrite take_ge by lia. done.
Qed.

(** The text of an entry and its matches, as the search computes them. *)
Definition entry_text (e : Entry) : option (str * bool) :=
  read ← read_taken (saturating_add (max_source_bytes index) 1) e;
  match kept_source (max_source_bytes index) read with
  | Done bytes => Some (from_utf8_lossy bytes, max_source_bytes index <? N.of_nat (length read))
  | _ => None
  end.
Definition entry_items (context_lines : N) (is_match : str → bool) (jar : JarRecord)
    (archive : str → option (option Entry)) (entry_path : str) : list SourceMatch :=
  match e ← indexed_entry archive entry_path; entry_text e with
  | Some (text, truncated) => line_items context_lines is_match jar entry_path truncated (lines text)
  | None => []
  end.
Definition whole_entry (archive : str → option (option Entry)) (entry_path : str) : Prop :=
  ∃ e text, indexed_entry archive entry_path = Some e ∧ entry_text e = Some (text, false).

Context (Hmax : max_source_bytes index < usize_max).

Lemma entry_text_spec e text truncated : entry_text e = Some (text, truncated) → source_text e text truncated.
Proof.
  unfold entry_text. destruct (read_taken _ e) as [read|] eqn:Hr; [|done]. simpl. apply read_taken_spec in Hr.
  unfold saturating_add in Hr. rewrite N.min_r in Hr by lia. subst read. pose proof (kept_source_spec e Hmax) as Hk.
  cbv zeta in Hk. destruct (kept_source _ _) as [bytes| |]; [|done..]. intros [= <- <-]. apply Hk.
Qed.

Lemma scan_source_entry_spec limit context_lines is_match jar archive s entry_path :
  open_zip (jar_path jar) = Some archive → open_ limit s →
  wp (scan_source_entry index stop limit context_lines is_match jar archive s entry_path)
     (scans_ limit (entry_items context_lines is_match jar archive entry_path) (whole_entry archive entry_path) s).
Proof.
  intros Hopen Hs. unfold scan_source_entry, entry_items.
  destruct (checkpoint stop s) as [s1|] eqn:Hcheck; [|apply wp_mret; right; split; [done|by eapply checkpoint_stops]].
  apply checkpoint_spec in Hcheck as (Hr1 & Hi1 & Hb1).
  assert (Hs1 : open_ limit s1) by (unfold open_scan; by rewrite Hr1, Hb1).
  eapply (wp_mono _ (scans_ limit _ _ s1)); [|intros r; apply scans_from; [done|by rewrite Hi1]].
  destruct (indexed_entry archive entry_path) as [e|] eqn:He; [|by apply wp_mret; left]. cbn [mbind option_bind].
  destruct (N.ltb_spec (total_budget index) (saturating_add (scanned_bytes s1) (declared e))) as [Hover|Hfits].
  { apply wp_mret. by apply scans_break. }
  destruct (read_taken _ e) as [read|] eqn:Hread; [|by apply wp_mret; left].
  unfold entry_text. rewrite Hread. cbn [mbind option_bind].
  pose proof (read_taken_spec _ _ _ Hread) as Hbytes. unfold saturating_add in Hbytes. rewrite N.min_r in Hbytes by lia.
  pose proof (kept_source_spec e Hmax) as Hk. cbv zeta in Hk. rewrite <- Hbytes in Hk.
  set (truncated := max_source_bytes index <? N.of_nat (length read)) in *.
  set (s2 := if truncated then set_incomplete s1 else s1).
  assert (Hs2 : open_ limit s2) by (unfold s2; by destruct truncated).
  eapply (wp_mono _ (scans_ limit _ _ s2)); [|intros r; apply scans_from; unfold s2; by destruct truncated].
  destruct (wp_Done _ _ Hk) as (bytes & Hkb & Htext & Hlen). rewrite Hkb. cbn [mbind exec_bind].
  eapply (wp_mono _ (scans_ limit _ True (add_scanned (N.of_nat (length bytes)) s2))).
  - apply scan_source_lines_spec. eapply add_scanned_open; [apply total_budget_le|done| |].
    + unfold s2. destruct truncated; exact Hfits.
    + intros Hh. assert (N.of_nat (length (entry_bytes e)) ≤ declared_size e); [|lia]. unfold indexed_entry in He.
      destruct (archive entry_path) as [[e'|]|] eqn:Ha; simplify_eq/=. eapply (Hh (jar_path jar)); [by right|done].
  - intros [s'|[err|s']]; cbn [scans]; [|done|done]. intros (Hr & Ho & Hi & _). split_and!; [done|done|done|].
    intros Hf. exists e, (from_utf8_lossy bytes). split; [done|]. unfold entry_text. rewrite Hread. cbn [mbind option_bind].
    assert (truncated = false) as Htr.
    { destruct truncated; [|done]. cbn in Hi. by rewrite Hi in Hf. }
    fold truncated. by rewrite Hkb, Htr.
Qed.

(** The matches of a sources JAR. *)
Definition source_files (jar : JarRecord) : list str := filter (λ e, is_source_file e = true) (jar_entries jar).
Definition source_items (context_lines : N) (is_match : str → bool) (jar : JarRecord) : list SourceMatch :=
  match open_zip (jar_path jar) with
  | None => []
  | Some archive => source_files jar ≫= entry_items context_lines is_match jar archive
  end.
Definition whole_jar (jar : JarRecord) : Prop :=
  ∃ archive, open_zip (jar_path jar) = Some archive ∧ Forall (whole_entry archive) (source_files jar).

Lemma scan_source_jar_spec limit context_lines is_match s jar :
  open_ limit s →
  wp (scan_source_jar index stop limit context_lines is_match s jar)
     (scans_ limit (source_items context_lines is_match jar) (whole_jar jar) s).
Proof.
  intros Hs. unfold scan_source_jar, source_items. destruct (open_zip (jar_path jar)) as [archive|] eqn:Ho; [|by apply wp_mret; left].
  eapply wp_mono; [apply for_try_scans; [|done]; intros e s1 _ Hs1; by apply scan_source_entry_spec|].
  intros [s'|[e|s']]; cbn [scans]; [|done|done]. intros (? & ? & ? & Hok). split_and!; [done..|]. intros Hi. exists archive. auto.
Qed.

Lemma line_items_match context_lines is_match jar entry_path truncated (l : list str) m :
  m ∈ line_items context_lines is_match jar entry_path truncated l ↔
  ∃ i line, l !! i = Some line ∧ is_match line = true ∧ m = line_match context_lines jar entry_path truncated l (i, line).
Proof.
  unfold line_items. rewrite list_elem_of_bind. split.
  - intros ([i line] & Hm & Hp%elem_of_enumerate). simpl in *. destruct (is_match line) eqn:Hl; [|by apply elem_of_nil in Hm].
    apply list_elem_of_singleton in Hm as ->. by exists i, line.
  - intros (i & line & Hi & Hl & ->). exists (i, line). rewrite elem_of_enumerate. simpl. rewrite Hl. split; [by left|done].
Qed.

Lemma source_items_match selector context_lines is_match p m :
  p ∈ selected_sources index selector → m ∈ source_items context_lines is_match p.2 → source_match selector context_lines is_match m.
Proof.
  intros Hp Hm. unfold source_items in Hm. destruct (open_zip (jar_path p.2)) as [archive|] eqn:Ho; [|by apply elem_of_nil in Hm].
  apply list_elem_of_bind in Hm as (e & Hm & [Hf He]%list_elem_of_filter). unfold entry_items in Hm.
  destruct (indexed_entry archive e) as [x|] eqn:Hx; [|by apply elem_of_nil in Hm]. cbn [mbind option_bind] in Hm.
  destruct (entry_text x) as [[text truncated]|] eqn:Ht; [|by apply elem_of_nil in Hm].
  apply line_items_match in Hm as (i & line & Hi & Hl & ->).
  exists p, archive, e, x, text, truncated, i, line. split_and!; try done. by apply entry_text_spec.
Qed.

Lemma source_match_items selector context_lines is_match m :
  Forall (λ p, whole_jar p.2) (selected_sources index selector) → source_match selector context_lines is_match m →
  m ∈ (selected_sources index selector ≫= λ p, source_items context_lines is_match p.2).
Proof.
  intros Hok (p & archive & e & x & text & truncated & i & line & Hp & Ho & He & Hf & Hx & Htext & Hi & Hl & ->).
  apply list_elem_of_bind. exists p. split; [|done]. rewrite Forall_forall in Hok. destruct (Hok p Hp) as (archive' & Ho' & Hwhole).
  rewrite Ho in Ho'. injection Ho' as <-. unfold source_items. rewrite Ho. apply list_elem_of_bind. exists e.
  assert (e ∈ source_files p.2) as Hin by (apply list_elem_of_filter; done). split; [|done].
  rewrite Forall_forall in Hwhole. destruct (Hwhole e Hin) as (x' & text' & Hx' & Ht'). rewrite Hx in Hx'. injection Hx' as <-.
  unfold entry_items. rewrite Hx. cbn [mbind option_bind]. rewrite Ht'. apply line_items_match. exists i, line.
  pose proof (entry_text_spec _ _ _ Ht') as Htext'. unfold source_text in Htext, Htext'. destruct truncated.
  - exfalso. destruct Htext as [Hlong _]. unfold entry_text in Ht'. destruct (read_taken _ x) as [read|] eqn:Hr; [|done].
    apply read_taken_spec in Hr. simpl in Ht'. destruct (kept_source _ read); [|done..]. injection Ht' as _ Hlt.
    apply N.ltb_ge in Hlt. subst read. rewrite length_take in Hlt. unfold saturating_add in Hlt. lia.
  - subst text text'. done.
Qed.

(** The source search is exact: it never panics; every result is a matching line of a source file
    of a selected sources JAR, with the lines around it and its truncation; there are no more than
    allowed; the bytes scanned stay within the budget as long as the archives declare the sizes of
    their entries; and when the answer is not marked incomplete no matching line is missing. *)
Theorem search_source_exact (compile : str → option (str → bool)) query (regex : bool) selector context_lines requested :
  max_results index ≠ 0 →
  let q := trim query in
  let pattern := if regex then compile q else Some (contains q) in
  wp (search_source index stop compile query regex selector context_lines requested) (λ r, match r with
    | inl s => ∃ is_match, pattern = Some is_match ∧ q ≠ [] ∧
        (∀ m, m ∈ results s → source_match selector (N.min context_lines 10) is_match m) ∧
        (length (results s) ≤ allowed index requested)%nat ∧
        (sizes_declared → scanned_bytes s ≤ total_budget index) ∧
        (incomplete s = false → ∀ m, source_match selector (N.min context_lines 10) is_match m → m ∈ results s)
    | inr EmptyQuery => q = []
    | inr InvalidRegex => pattern = None
    | inr Unreadable => True
    | inr Cancelled => stop ≠ None
    end).
Proof.
  intros Hlim q pattern. unfold search_source. fold q. fold pattern. destruct (bool_decide (q = [])) eqn:Eq.
  { apply bool_decide_eq_true in Eq. by apply wp_mret. }
  apply bool_decide_eq_false in Eq. destruct pattern as [is_match|]; [|by apply wp_mret].
  destruct (limit_allowed index requested Hlim) as (n & -> & Hn & Hpos & _). cbn [mbind exec_bind].
  set (ctx := N.min context_lines 10).
  assert (Hloop := for_try_scans n stop (total_budget index) sizes_declared (λ p : nat * JarRecord, source_items ctx is_match p.2) _
    (λ s p, scan_source_jar index stop n ctx is_match s p.2) (selected_sources index selector) scan_start
    (λ p s _, scan_source_jar_spec n ctx is_match s p.2) (scan_start_open _ _ _ Hpos)).
  destruct (for_try _ _ _) as [r| |]; [|done..]. apply search_ended_spec in Hloop. simpl. destruct (ended r) as [s|e].
  - destruct Hloop as (Hin & Hlen & Hbytes & Hall). exists is_match. split_and!; [done|done| |lia|done|].
    + intros m (p & Hm & Hp)%Hin%list_elem_of_bind. by eapply source_items_match.
    + intros Hi m Hm. destruct (Hall Hi) as [Hok ->]. by apply source_match_items.
  - by destruct Hloop as [->|[-> ?]].
Qed.
End SourceSearch.

(** ** The source of a class *)

(** An entry of a sources JAR by its position: whether its header can be read, its name when it
    can be decoded, and its content when it can be opened. *)
Record RawEntry := {
  raw_readable : bool;
  raw_name : option str;
  raw_content : option Entry;
}.
Class SourceArchives := { source_archive : path → option (list RawEntry) }.

Definition slashes (name : str) : str := replace_char (ch "\") (ch "/") name.

(** The best entry so far, its rank and name, and whether an entry could not be read. *)
Record Selection := {
  selected : option (N * str * nat);
  first_error : bool;
}.

Definition is_lt (a b : N * str) : bool := match cmp a b with Lt => true | _ => false end.

(** One entry; [None] when its name cannot be decoded. *)
Definition select_raw (names : SourceEntryNames) (s : Selection) (p : nat * RawEntry) : option Selection :=
  if negb (raw_readable p.2) then Some {| selected := selected s; first_error := true |}
  else
    name ← slashes <$> raw_name p.2;
    match rank names name with
    | None => Some s
    | Some r =>
        let better := match selected s with
                      | None => true
                      | Some (best, best_name, _) => is_lt (N.of_nat r, name) (best, best_name)
                      end in
        Some (if better then {| selected := Some (N.of_nat r, name, p.1); first_error := first_error s |} else s)
    end.

Fixpoint select_entry (names : SourceEntryNames) (l : list (nat * RawEntry)) (s : Selection) : option Selection :=
  match l with
  | [] => Some s
  | p :: l => s ← select_raw names s p; select_entry names l s
  end.

(** The name of the entry, its text and whether it was cut; [max_bytes + 1] is checked. *)
Definition read_source `{SourceArchives} (p : path) (names : SourceEntryNames) (max_bytes : N)
    : exec (option (str * str * bool) + ContentError) :=
  match raws ← source_archive p; s ← select_entry names (enumerate raws) {| selected := None; first_error := false |};
        Some (raws, s) with
  | None => mret (inr Unreadable)
  | Some (raws, s) =>
      match selected s with
      | None => mret (if first_error s then inr Unreadable else inl None)
      | Some (_, _, i) =>
          match raw ← raws !! i; e ← raw_content raw; name ← raw_name raw; Some (e, name) with
          | None => mret (inr Unreadable)
          | Some (e, name) =>
              wanted ← or_panic (checked_add max_bytes 1);
              match read_taken wanted e with
              | None => mret (inr Unreadable)
              | Some bytes =>
                  mret (inl (Some (name, from_utf8_lossy (take (N.to_nat max_bytes) bytes),
                                   max_bytes <? N.of_nat (length bytes))))
              end
          end
      end
  end.

(** An entry that may be the source, and the order the best one is chosen by. *)
Definition ranked (names : SourceEntryNames) (raws : list RawEntry) (i : nat) (r : N) (name : str) : Prop :=
  ∃ raw raw_name_, raws !! i = Some raw ∧ raw_readable raw = true ∧ raw_name raw = Some raw_name_ ∧
    name = slashes raw_name_ ∧ N.of_nat <$> rank names name = Some r.

Definition chosen (names : SourceEntryNames) (raws : list RawEntry) (n : nat) (s : Selection) : Prop :=
  match selected s with
  | None => ∀ i r name, (i < n)%nat → ¬ ranked names raws i r name
  | Some (r, name, i) => ranked names raws i r name ∧
      ∀ j r' name', (j < n)%nat → ranked names raws j r' name' → le_cmp (r, name) (r', name') = true
  end ∧ (first_error s = false → ∀ i raw, (i < n)%nat → raws !! i = Some raw → raw_readable raw = true ∧ is_Some (raw_name raw)).

Lemma is_lt_le (a b : N * str) : if is_lt a b then le_cmp a b = true else le_cmp b a = true.
Proof.
  unfold is_lt. destruct (cmp a b) eqn:E.
  - apply cmp_eq in E as ->. apply le_cmp_refl.
  - unfold le_cmp. by rewrite E.
  - apply le_cmp_total. unfold le_cmp. by rewrite E.
Qed.

Lemma select_raw_chosen names raws n raw s s' :
  raws !! n = Some raw → chosen names raws n s → select_raw names s (n, raw) = Some s' → chosen names raws (S n) s'.
Proof.
  intros Hn [Hsel Herr] Hs. unfold select_raw in Hs. simpl in Hs.
  assert (Hlt : ∀ i, (i < S n)%nat → i = n ∨ (i < n)%nat) by lia.
  destruct (raw_readable raw) eqn:Hread; cbn [negb] in Hs.
  2: { injection Hs as <-. split; [|done]. cbn [selected]. destruct (selected s) as [[[r name] i]|].
       - destruct Hsel as [? Hmin]. split; [done|]. intros j r' name' [->|Hj]%Hlt Hr; [|exact (Hmin _ _ _ Hj Hr)].
         destruct Hr as (raw' & ? & Hr & Hr' & _). rewrite Hn in Hr. simplify_eq. congruence.
       - intros i r name [->|Hi]%Hlt; [|exact (Hsel _ _ _ Hi)]. intros (raw' & ? & Hr & Hr' & _). rewrite Hn in Hr. simplify_eq. congruence. }
  destruct (raw_name raw) as [rn|] eqn:Hname; [|done]. cbn [fmap option_fmap option_map mbind option_bind] in Hs.
  assert (Herr' : first_error s = false → ∀ i raw, (i < S n)%nat → raws !! i = Some raw → raw_readable raw = true ∧ is_Some (raw_name raw)).
  { intros He i raw' [->|Hi]%Hlt Hr; [|by eapply Herr]. rewrite Hn in Hr. simplify_eq. by rewrite Hname. }
  assert (Hone : ∀ r name, ranked names raws n r name → name = slashes rn ∧ N.of_nat <$> rank names (slashes rn) = Some r).
  { intros r name (raw' & rn' & Hr & _ & Hrn & -> & Hrank). rewrite Hn in Hr. injection Hr as <-. rewrite Hname in Hrn. by injection Hrn as <-. }
  destruct (rank names (slashes rn)) as [k|] eqn:Hrank.
  2: { injection Hs as <-. split; [|done]. destruct (selected s) as [[[r name] i]|].
       - destruct Hsel as [? Hmin]. split; [done|]. intros j r' name' [->|Hj]%Hlt Hr; [by apply Hone in Hr as [_ ?]|exact (Hmin _ _ _ Hj Hr)].
       - intros i r name [->|Hi]%Hlt; [|exact (Hsel _ _ _ Hi)]. intros Hr. by apply Hone in Hr as [_ ?]. }
  assert (Hranked : ranked names raws n (N.of_nat k) (slashes rn)) by (exists raw, rn; by rewrite Hrank).
  assert (Hself : ∀ r name, ranked names raws n r name → r = N.of_nat k ∧ name = slashes rn).
  { intros r name Hr. apply Hone in Hr as [-> Hr]. by simplify_eq/=. }
  injection Hs as <-. destruct (selected s) as [[[best best_name] b]|] eqn:Hb.
  - destruct Hsel as [Hbest Hmin]. pose proof (is_lt_le (N.of_nat k, slashes rn) (best, best_name)) as Hle. destruct (is_lt _ _).
    + split; [|done]. cbn [selected]. split; [done|]. intros j r' name' [->|Hj]%Hlt Hr.
      * apply Hself in Hr as [-> ->]. apply le_cmp_refl.
      * eapply le_cmp_trans; [exact Hle|exact (Hmin _ _ _ Hj Hr)].
    + split; [|done]. rewrite Hb. split; [done|]. intros j r' name' [->|Hj]%Hlt Hr; [|exact (Hmin _ _ _ Hj Hr)].
      by apply Hself in Hr as [-> ->].
  - split; [|done]. cbn [selected]. split; [done|]. intros j r' name' [->|Hj]%Hlt Hr.
    + apply Hself in Hr as [-> ->]. apply le_cmp_refl.
    + by destruct (Hsel _ _ _ Hj Hr).
Qed.

Lemma select_entry_chosen names raws n l s s' :
  l = drop n (enumerate raws) → chosen names raws n s → select_entry names l s = Some s' → chosen names raws (length raws) s'.
Proof.
  revert n s. induction l as [|[i raw] l IH]; intros n s Hl Hs Hrun; simpl in Hrun.
  - injection Hrun as <-. assert (length raws ≤ n)%nat as Hn.
    { apply (f_equal length) in Hl. rewrite length_drop in Hl. unfold enumerate in Hl. rewrite length_imap in Hl. simpl in Hl. lia. }
    destruct Hs as [H1 H2]. split; [|intros He i raw Hi; apply H2; [done|lia]].
    destruct (selected s) as [[[r name] i]|]; [destruct H1 as [? Hmin]; split; [done|]; intros j r' name' Hj; apply Hmin; lia|intros j r name Hj; apply H1; lia].
  - destruct (select_raw names s (i, raw)) as [s1|] eqn:Es; [|done]. simpl in Hrun.
    assert (Hi : enumerate raws !! n = Some (i, raw)) by (rewrite <- (Nat.add_0_r n), <- lookup_drop, <- Hl; done).
    unfold enumerate in Hi. rewrite list_lookup_imap in Hi. destruct (raws !! n) as [raw'|] eqn:Hn; [|done].
    simpl in Hi. injection Hi as <- <-. eapply (IH (S n)); [|by eapply select_raw_chosen|done].
    rewrite <- Nat.add_1_r, <- drop_drop, <- Hl. done.
Qed.

(** The source of a class is its best ranked entry: reading it never panics; what is returned is
    the text of a readable entry whose rank no entry beats, ties broken by name, with its first
    [max_bytes] bytes decoded and marked truncated exactly when there are more; nothing is
    returned only when every entry was read and none is ranked; any other failure is an error. *)
Theorem read_source_best `{SourceArchives} p names max_bytes :
  max_bytes < usize_max →
  wp (read_source p names max_bytes) (λ r, match r with
    | inl (Some (name, text, truncated)) => ∃ raws i raw e r,
        source_archive p = Some raws ∧ ranked names raws i r (slashes name) ∧
        (∀ j r' name', ranked names raws j r' name' → le_cmp (r, slashes name) (r', name') = true) ∧
        raws !! i = Some raw ∧ raw_name raw = Some name ∧ raw_content raw = Some e ∧
        text = from_utf8_lossy (take (N.to_nat max_bytes) (entry_bytes e)) ∧
        (truncated = true ↔ max_bytes < N.of_nat (length (entry_bytes e)))
    | inl None => ∃ raws, source_archive p = Some raws ∧ ∀ i raw, raws !! i = Some raw →
        raw_readable raw = true ∧ ∃ name, raw_name raw = Some name ∧ rank names (slashes name) = None
    | inr e => e = Unreadable
    end).
Proof.
  intros Hmax. unfold read_source. destruct (source_archive p) as [raws|]; [|by apply wp_mret]. cbn [mbind option_bind].
  destruct (select_entry names (enumerate raws) _) as [s|] eqn:Hs; [|by apply wp_mret]. cbn [mbind option_bind].
  apply (select_entry_chosen names raws 0) in Hs as [Hsel Herr]; [|done|split; [intros i r name ?; lia|intros _ i raw ?; lia]].
  assert (Hbound : ∀ i raw, raws !! i = Some raw → (i < length raws)%nat) by (intros i raw Hi; by apply lookup_lt_Some in Hi).
  destruct (selected s) as [[[r name] i]|] eqn:Hsel'.
  - destruct Hsel as [(raw & rn & Hi & Hread & Hname & -> & Hrank) Hmin]. rewrite Hi. cbn [mbind option_bind].
    destruct (raw_content raw) as [e|] eqn:He; [|by apply wp_mret]. cbn [mbind option_bind]. rewrite Hname. cbn [mbind option_bind].
    unfold checked_add. rewrite decide_True by lia. cbn [or_panic mbind exec_bind].
    destruct (read_taken _ e) as [bytes|] eqn:Hbytes; [|by apply wp_mret]. apply read_taken_spec in Hbytes as ->. apply wp_mret.
    exists raws, i, raw, e, r. split_and!; [done|by exists raw, rn| |done|done|done| |].
    + intros j r' name' Hr. assert (Hr' := Hr). destruct Hr' as (raw' & _ & Hj & _). by eapply Hmin; [eapply Hbound|].
    + f_equal. rewrite take_take. f_equal. lia.
    + rewrite N.ltb_lt, length_take. lia.
  - destruct (first_error s) eqn:Hfe; apply wp_mret; [done|]. exists raws. split; [done|]. intros i raw Hi.
    destruct (Herr eq_refl i raw (Hbound _ _ Hi) Hi) as [Hread [name Hname]]. split; [done|]. exists name. split; [done|].
    destruct (rank names (slashes name)) as [k|] eqn:Hrank; [|done]. exfalso.
    apply (Hsel i (N.of_nat k) (slashes name)); [by eapply Hbound|]. exists raw, name. by rewrite Hrank.
Qed.

(** ** One entry *)

(** What is shown of an entry: a text, when the bytes that may be shown are one up to a character
    cut by the limit, and the bytes otherwise. *)
Definition shown_as (max_bytes : N) (bytes : list N) (c : BoundedEntryContent) : Prop :=
  (content_truncated c = true ↔ max_bytes < N.of_nat (length bytes)) ∧
  match content_kind c with
  | TextContent => content_bytes c = None ∧ ∃ text rest, content_text c = Some text ∧ valid_str text ∧
      take (N.to_nat max_bytes) bytes = utf8 text ++ rest ∧
      (rest = [] ∨ content_truncated c = true ∧ stops rest (Some None))
  | BinaryContent => content_text c = None ∧ content_bytes c = Some (take (N.to_nat max_bytes) bytes) ∧
      ∀ text, take (N.to_nat max_bytes) bytes ≠ utf8 text ∨ ¬ valid_str text
  end.

Lemma entry_content_shown size max_bytes bytes :
  max_bytes < usize_max →
  shown_as max_bytes bytes (entry_content size max_bytes (take (N.to_nat (max_bytes + 1)) bytes)).
Proof.
  intros Hmax. unfold entry_content. rewrite take_take, Nat.min_l by lia. rewrite length_take.
  set (cut := take (N.to_nat max_bytes) bytes).
  set (truncated := max_bytes <? N.of_nat (N.to_nat (max_bytes + 1) `min` length bytes)).
  assert (Htr : truncated = true ↔ max_bytes < N.of_nat (length bytes)) by (unfold truncated; rewrite N.ltb_lt; lia).
  destruct (from_utf8 cut) as [s|e] eqn:Hs.
  { apply from_utf8_exact in Hs as [Hcut Hv]. split; [done|]. split; [done|]. exists s, [].
    fold cut. rewrite app_nil_r. split_and!; [done..|by left]. }
  assert (Hnot : ∀ text, cut ≠ utf8 text ∨ ¬ valid_str text).
  { intros text. destruct (decide (cut = utf8 text)) as [Hc|]; [|by left]. right. intros Hv.
    by rewrite (proj2 (from_utf8_exact cut text)) in Hs. }
  destruct (truncated && match error_len e with None => true | _ => false end) eqn:Hcase; [|by split_and!].
  apply andb_true_iff in Hcase as [Ht He]. unfold from_utf8 in Hs. destruct (valid_prefix_spec cut) as (s & rest & r & Hp & Hb & Hv & Hstop).
  rewrite Hp in Hs. destruct r as [r|]; [|done]. injection Hs as <-. simpl in He. destruct r; [done|].
  cbn [valid_up_to]. rewrite <- utf8_blen, Nat2N.id, Hb, take_app_length. rewrite (proj2 (from_utf8_exact _ s)) by done.
  split; [done|]. split; [done|]. exists s, rest. fold cut. rewrite <- Hb. split_and!; [done|done|done|by right].
Qed.

(** An entry is shown as it is: the content of an entry of an archive is its text or its bytes, up
    to the limit, marked truncated exactly when there is more; a text that is cut keeps every whole
    character; only what is not a text is returned as bytes; nothing is returned exactly when the
    archive can be opened and has no such file. *)
Theorem read_jar_entry_exact `{ArchiveFiles} p entry_path max_bytes :
  max_bytes < usize_max →
  match read_jar_entry p entry_path max_bytes with
  | inl (Some c) => ∃ archive e, open_archive p = Some archive ∧ archive entry_path = Some (Some e) ∧
      original_size c = declared_size e ∧ shown_as max_bytes (entry_bytes e) c
  | inl None => ∃ archive, open_archive p = Some archive ∧ archive entry_path = Some None
  | inr e => e = Unreadable
  end.
Proof.
  intros Hmax. unfold read_jar_entry. destruct (open_archive p) as [archive|]; [|done].
  destruct (archive entry_path) as [[e|]|] eqn:He; [|by exists archive|done].
  destruct (read_taken _ e) as [bytes|] eqn:Hr; [|done]. apply read_taken_spec in Hr as ->.
  unfold saturating_add. rewrite N.min_r by lia. exists archive, e. split_and!; [done|done| |by apply entry_content_shown].
  unfold entry_content. repeat case_match; done.
Qed.

(** An entry of a class directory is inside it: whatever the name, the file it is read from is a
    regular file that resolves below the canonical directory. *)
Theorem directory_entry_contained `{EntryFiles} root name p :
  directory_entry_path root name = Some p →
  path_starts_with root p = true ∧
  ∃ q, is_regular_file q = true ∧ canonical_path q = Some p ∧ q = root ++ text_components name ∧ lit ".." ∉ text_components name.
Proof.
  unfold directory_entry_path. destruct (bool_decide (name = []) || negb (normal_components name)) eqn:E; [done|].
  apply orb_false_iff in E as [_ Hn%negb_false_iff]. unfold normal_components in Hn. apply andb_true_iff in Hn as [Habs Hparts].
  apply negb_true_iff in Habs. unfold path_join. rewrite Habs.
  destruct (is_regular_file (root ++ text_components name)) eqn:Hf; [|done]. cbn [negb].
  destruct (canonical_path _) as [c|] eqn:Hc; [|done]. cbn [mbind option_bind]. destruct (path_starts_with root c) eqn:Hr; [|done].
  intros [= <-]. split; [done|]. exists (root ++ text_components name). split_and!; [done..|].
  unfold text_components. rewrite list_elem_of_filter. intros [_ Hin].
  destruct (split_char (ch "/") name) as [|first rest]; [by apply elem_of_nil in Hin|].
  apply andb_true_iff in Hparts as [_ Hall]. rewrite forallb_forall in Hall. apply list_elem_of_In in Hin.
  specialize (Hall _ Hin). by rewrite bool_decide_eq_true_2 in Hall.
Qed.

(** ** Samples *)

Definition text_jar : JarRecord :=
  into_record {| stored_context := stored_context sample_stored; stored_validity := sample_validity;
                 stored_preflight := sample_charge; stored_multi_release := false; stored_entries := [lit "notes.txt"; lit "more.txt"];
                 stored_fact_strings := []; stored_class_facts := []; stored_providers := [] |}
    sample_path sample_identity.
Definition text_index : MavenIndex := @build_tables ascii_only 10 1000 [text_jar].
Definition text_entry (text : str) : Entry :=
  {| declared_size := N.of_nat (length (utf8 text)); entry_bytes := utf8 text; entry_fails := false |}.
#[local] Instance text_archives : ArchiveFiles := {|
  open_archive _ := Some (λ name, Some (Some (text_entry
    (if bool_decide (name = lit "notes.txt") then lit "one" ++ [10] ++ lit "Two" ++ [10] ++ lit "two" else lit "none"))));
  open_zip _ := None;
|}.

