(* ===== verification/SourceLookup.v ===== *)
(** * SourceLookup: the source of a declaration

    Models [get_declaration_source] of [src/index.rs], where the parts that lead from a question to
    a slice of source meet: the archives that have the class ([IndexSearch]), the declarations of
    its classfile, the best entry of the sources JAR ([Contents]) and the slice of each declaration
    in its text ([Locate]). *)

From S2P Require Import Prelude.
From S2P Require Import Text.
From S2P Require Import TextSearch.
From S2P Require Import Paths.
From S2P Require Import Ordering.
From S2P Require Import Artifacts.
From S2P Require Import ClassFacts.
From S2P Require Import IndexRecord.
From S2P Require Import IndexBuild.
From S2P Require Import IndexSearch.
From S2P Require Import Contents.
From S2P Require Import Lexer.
From S2P Require Import Outline.
From S2P Require Import Locate.

Open Scope N_scope.

Record ClassfileDeclaration := {
  declared_candidate : DeclarationCandidate;
  is_compiler_generated : bool;
}.

(** [MethodAccessFlags::BRIDGE | MethodAccessFlags::SYNTHETIC]. *)
Definition BRIDGE_OR_SYNTHETIC : N := 4160.
Definition INIT : str := lit "<init>".

Definition simple_class_name (class_name : str) : str :=
  default class_name (last (split_at (λ c, (c =? ch ".") || (c =? ch "$")) class_name)).

Definition field_declarations (member_name : str) (c : ClassFile) : list ClassfileDeclaration :=
  (λ field, {| declared_candidate := {| candidate_kind := KField; candidate_name := member_name;
                                        descriptor := Some (info_descriptor field) |};
               is_compiler_generated := false |})
  <$> filter (λ field, info_name field = member_name) (class_fields c).
Definition method_declarations (class_name member_name : str) (c : ClassFile) : list ClassfileDeclaration :=
  let simple := simple_class_name class_name in
  (λ method, {| declared_candidate := {| candidate_kind := KMethod;
                                         candidate_name := if bool_decide (info_name method = INIT) then simple else member_name;
                                         descriptor := Some (info_descriptor method) |};
                is_compiler_generated := negb (N.land (info_flags method) BRIDGE_OR_SYNTHETIC =? 0) |})
  <$> filter (λ method, info_name method = member_name ∨ info_name method = INIT ∧ member_name = simple) (class_methods c).

(** [None] when the classfile cannot be read. *)
Definition declaration_candidates `{ClassArchives} (jar : JarRecord) (class_name : str) (member_name : option str)
    (max_bytes : N) : option (list ClassfileDeclaration) :=
  match member_name with
  | None =>
      Some [{| declared_candidate := {| candidate_kind := KClass; candidate_name := class_name; descriptor := None |};
               is_compiler_generated := false |}]
  | Some member_name =>
      archive ← open_classes (jar_path jar);
      entry_path ← select_class_entry jar class_name;
      c ← @readable_class archive max_bytes entry_path;
      Some (field_declarations member_name c ++ method_declarations class_name member_name c)
  end.

Record DeclarationSource := {
  found_class : str;
  found_candidate : DeclarationCandidate;
  found_jar : JarSummary;
  found_entry : str;
  found_slice_ : SourceSlice;
  found_truncated : bool;
}.
Record UnresolvedDeclaration := {
  unresolved_class : str;
  unresolved_candidate : DeclarationCandidate;
  unresolved_jar : JarSummary;
  unresolved_entry : str;
  unresolved_reason : UnresolvedDeclarationReason;
  unresolved_lines : list N;
  unresolved_truncated : bool;
}.
Record DeclarationSourceLookup := {
  lookup_results : list DeclarationSource;
  lookup_ambiguous : list DeclarationCandidate;
  lookup_unresolved : list UnresolvedDeclaration;
}.

#[export] Instance DeclarationKind_eq_dec : EqDecision DeclarationKind.
Proof. solve_decision. Defined.
#[export] Instance DeclarationCandidate_eq_dec : EqDecision DeclarationCandidate.
Proof. solve_decision. Defined.
Definition kind_order (k : DeclarationKind) : N := match k with KClass => 0 | KField => 1 | KMethod => 2 end.
#[export] Instance DeclarationCandidate_ord : Ord DeclarationCandidate := λ a b,
  cmp (kind_order (candidate_kind a), (candidate_name a, descriptor a))
      (kind_order (candidate_kind b), (candidate_name b, descriptor b)).
#[export] Instance DeclarationCandidate_ord_laws : OrdLaws DeclarationCandidate.
Proof.
  split; unfold cmp, DeclarationCandidate_ord.
  - intros [k1 n1 d1] [k2 n2 d2]. rewrite cmp_eq. simpl. split; [|by intros [= -> -> ->]].
    intros [= Hk -> ->]. by destruct k1, k2.
  - intros a b. apply cmp_antisym.
  - intros a b c. apply cmp_lt_trans.
Qed.

(** [SourceLanguage::of_entry]. *)
Definition of_entry (entry : str) : SourceLanguage := if ends_with (lit ".kt") entry then Kotlin else Java.

(** [LocatedSource::found] and [LocatedSource::unresolved]. *)
Definition located_found (class_name : str) (source_jar : JarRecord) (entry : str) (truncated : bool)
    (c : DeclarationCandidate) (slice : SourceSlice) : DeclarationSource :=
  {| found_class := class_name; found_candidate := c; found_jar := summary source_jar; found_entry := entry;
     found_slice_ := slice; found_truncated := truncated |}.
Definition located_unresolved (class_name : str) (source_jar : JarRecord) (entry : str) (truncated : bool)
    (c : DeclarationCandidate) (reason : UnresolvedDeclarationReason) (candidate_lines : list N) : UnresolvedDeclaration :=
  {| unresolved_class := class_name; unresolved_candidate := c; unresolved_jar := summary source_jar;
     unresolved_entry := entry; unresolved_reason := reason; unresolved_lines := candidate_lines;
     unresolved_truncated := truncated |}.

Definition add_found (x : DeclarationSource) (l : DeclarationSourceLookup) : DeclarationSourceLookup :=
  {| lookup_results := lookup_results l ++ [x]; lookup_ambiguous := lookup_ambiguous l; lookup_unresolved := lookup_unresolved l |}.
Definition add_unresolved (x : UnresolvedDeclaration) (l : DeclarationSourceLookup) : DeclarationSourceLookup :=
  {| lookup_results := lookup_results l; lookup_ambiguous := lookup_ambiguous l; lookup_unresolved := lookup_unresolved l ++ [x] |}.
Definition add_ambiguous (x : DeclarationCandidate) (l : DeclarationSourceLookup) : DeclarationSourceLookup :=
  {| lookup_results := lookup_results l; lookup_ambiguous := set_insert x (lookup_ambiguous l);
     lookup_unresolved := lookup_unresolved l |}.
Definition empty_lookup : DeclarationSourceLookup :=
  {| lookup_results := []; lookup_ambiguous := []; lookup_unresolved := [] |}.

Inductive LookupError := ClassUnreadable | SourceUnreadable.

(** The binary archive, the sources JAR, the class and the entry names of a request. *)
Abbreviation request := (JarRecord * JarRecord * str * SourceEntryNames)%type (only parsing).

Section Lookup.
Context `{Unicode, ClassArchives, SourceArchives} (index : MavenIndex).

(** The declarations of a class a question is about. *)
Definition matching (wanted_descriptor : option str) (candidates : list ClassfileDeclaration) : list ClassfileDeclaration :=
  filter (λ d, match wanted_descriptor with None => true
               | Some expected => bool_decide (descriptor (declared_candidate d) = Some expected) end = true) candidates.

Definition locate_declaration (o : SourceOutline) (class_name : str) (source_jar : JarRecord) (entry : str) (truncated : bool)
    (l : DeclarationSourceLookup) (d : ClassfileDeclaration) : exec DeclarationSourceLookup :=
  outcome ← locate o class_name (declared_candidate d) (is_compiler_generated d);
  mret match outcome with
       | Found slice => add_found (located_found class_name source_jar entry truncated (declared_candidate d) slice) l
       | Unresolved reason ls =>
           add_unresolved (located_unresolved class_name source_jar entry truncated (declared_candidate d) reason ls) l
       end.

(** The declarations are told apart by a descriptor only. *)
Definition is_ambiguous (member_name wanted_descriptor : option str) (found : list ClassfileDeclaration) : bool :=
  is_some member_name && negb (is_some wanted_descriptor) && (1 <? N.of_nat (length found)).

(** The body of the loop over the archives that have the class. *)
Definition add_declarations (member_name wanted_descriptor : option str) (l : DeclarationSourceLookup) (r : request)
    : exec (DeclarationSourceLookup + LookupError) :=
  let '(binary, source_jar, class_name, names) := r in
  match declaration_candidates binary class_name member_name (max_source_bytes index) with
  | None => mret (inr ClassUnreadable)
  | Some candidates =>
      let found := matching wanted_descriptor candidates in
      if is_ambiguous member_name wanted_descriptor found then
        mret (inl (foldl (λ l d, add_ambiguous (declared_candidate d) l) l found))
      else
        source ← read_source (jar_path source_jar) names (max_source_bytes index);
        match source with
        | inr _ => mret (inr SourceUnreadable)
        | inl None =>
            mret (inl (foldl (λ l d, add_unresolved (located_unresolved class_name source_jar (primary names) false
                                                      (declared_candidate d) SourceEntryMissing []) l) l found))
        | inl (Some (entry, text, truncated)) =>
            o ← parse text (of_entry entry);
            inl <$> for_each (locate_declaration o class_name source_jar entry truncated) found l
        end
  end.

Definition add_location (query : str) (member_name wanted_descriptor selector wanted : option str)
    (l : DeclarationSourceLookup) (jar_index : nat) : exec (DeclarationSourceLookup + LookupError) :=
  r ← source_request index query selector wanted jar_index;
  match r with
  | None => mret (inl l)
  | Some r => add_declarations member_name wanted_descriptor l r
  end.

Definition found_key (x : DeclarationSource) : str * (str * (N * option str)) :=
  (summary_coordinate (found_jar x), (found_entry x, (slice_start_line (found_slice_ x), descriptor (found_candidate x)))).
Definition unresolved_key (x : UnresolvedDeclaration) : str * (str * (N * (str * option str))) :=
  (summary_coordinate (unresolved_jar x), (unresolved_entry x, (kind_order (candidate_kind (unresolved_candidate x)),
   (candidate_name (unresolved_candidate x), descriptor (unresolved_candidate x))))).

Definition get_declaration_source (class_name : str) (member_name wanted_descriptor selector wanted : option str)
    : exec (DeclarationSourceLookup + LookupError) :=
  let query := normalize_class_query class_name in
  match class_locations index !! to_lowercase query with
  | None => mret (inl empty_lookup)
  | Some locations =>
      let member_name := normalize_member_name <$> member_name in
      r ← for_try (add_location query member_name wanted_descriptor selector wanted) locations empty_lookup;
      mret match r with
           | inr e => inr e
           | inl l => inl {| lookup_results := sort_by_key found_key (lookup_results l);
                             lookup_ambiguous := lookup_ambiguous l;
                             lookup_unresolved := sort_by_key unresolved_key (lookup_unresolved l) |}
           end
  end.
End Lookup.

(** ** What a lookup answers *)

(** The answer for one declaration. *)
Inductive report :=
| RFound (x : DeclarationSource)
| RAmbiguous (c : DeclarationCandidate)
| RUnresolved (x : UnresolvedDeclaration).

Definition in_lookup (l : DeclarationSourceLookup) (r : report) : Prop :=
  match r with
  | RFound x => x ∈ lookup_results l
  | RAmbiguous c => c ∈ lookup_ambiguous l
  | RUnresolved x => x ∈ lookup_unresolved l
  end.

(** A step that adds the answers [R]. *)
Definition grows (R : report → Prop) (l l' : DeclarationSourceLookup) : Prop :=
  ∀ r, in_lookup l' r ↔ in_lookup l r ∨ R r.

Lemma lookup_grows_trans (R S : report → Prop) l l1 l2 : grows R l l1 → grows S l1 l2 → grows (λ r, R r ∨ S r) l l2.
Proof. intros H1 H2 r. rewrite (H2 r), (H1 r). tauto. Qed.

Lemma grows_ext (R S : report → Prop) l l' : (∀ r, R r ↔ S r) → grows R l l' → grows S l l'.
Proof. intros HRS H1 r. by rewrite (H1 r), HRS. Qed.

Lemma grows_none (R : report → Prop) l : (∀ r, ¬ R r) → grows R l l.
Proof. intros HR r. specialize (HR r). tauto. Qed.

Lemma add_found_grows x l : grows (λ r, r = RFound x) l (add_found x l).
Proof. intros [y|c|y]; simpl; [rewrite elem_of_app, list_elem_of_singleton|..]; naive_solver. Qed.
Lemma add_unresolved_grows x l : grows (λ r, r = RUnresolved x) l (add_unresolved x l).
Proof. intros [y|c|y]; simpl; [| |rewrite elem_of_app, list_elem_of_singleton]; naive_solver. Qed.
Lemma add_ambiguous_grows x l : grows (λ r, r = RAmbiguous x) l (add_ambiguous x l).
Proof. intros [y|c|y]; simpl; [|rewrite elem_of_set_insert|]; naive_solver. Qed.

Lemma foldl_grows {D} (add : D → DeclarationSourceLookup → DeclarationSourceLookup) (rep : D → report) ds l :
  (∀ d l, grows (λ r, r = rep d) l (add d l)) →
  grows (λ r, ∃ d, d ∈ ds ∧ r = rep d) l (foldl (λ l d, add d l) l ds).
Proof.
  intros Hadd. revert l. induction ds as [|d ds IH]; intros l; simpl.
  - apply grows_none. intros r (d & ?%elem_of_nil & _). done.
  - eapply grows_ext; [|eapply lookup_grows_trans; [apply Hadd|apply IH]]. intros r. cbv beta. set_solver.
Qed.

Section Answers.
Context `{Unicode, ClassArchives, SourceArchives} (index : MavenIndex).
Context (member_name wanted_descriptor : option str).

(** The declarations of the classfile of a request that the question is about. *)
Definition about (q : request) (d : ClassfileDeclaration) : Prop :=
  let '(binary, _, class_name, _) := q in
  ∃ candidates, declaration_candidates binary class_name member_name (max_source_bytes index) = Some candidates ∧
    d ∈ matching wanted_descriptor candidates.

(** The answer for a declaration of a request: ambiguous when the question does not tell it from
    others, without source when the sources JAR has no entry for the class, and otherwise what
    locating it in the text of the best entry gives. *)
Definition answer (q : request) (d : ClassfileDeclaration) : option report :=
  let '(binary, source_jar, class_name, names) := q in
  let c := declared_candidate d in
  candidates ← declaration_candidates binary class_name member_name (max_source_bytes index);
  if is_ambiguous member_name wanted_descriptor (matching wanted_descriptor candidates) then Some (RAmbiguous c)
  else
    match read_source (jar_path source_jar) names (max_source_bytes index) with
    | Done (inl None) =>
        Some (RUnresolved (located_unresolved class_name source_jar (primary names) false c SourceEntryMissing []))
    | Done (inl (Some (entry, text, truncated))) =>
        match locate_in text (of_entry entry) class_name c (is_compiler_generated d) with
        | Done (Found slice) => Some (RFound (located_found class_name source_jar entry truncated c slice))
        | Done (Unresolved reason ls) => Some (RUnresolved (located_unresolved class_name source_jar entry truncated c reason ls))
        | _ => None
        end
    | _ => None
    end.

Definition answered (q : request) (r : report) : Prop := ∃ d, about q d ∧ answer q d = Some r.

Definition located_report (class_name : str) (source_jar : JarRecord) (entry : str) (truncated : bool) (c : DeclarationCandidate)
    (outcome : SliceOutcome) : report :=
  match outcome with
  | Found slice => RFound (located_found class_name source_jar entry truncated c slice)
  | Unresolved reason ls => RUnresolved (located_unresolved class_name source_jar entry truncated c reason ls)
  end.

Lemma locate_total text lang class_name c g : wp (locate_in text lang class_name c g) (outcome_ok text).
Proof. unfold locate_in. eapply wp_call; [apply parse_wf|]. intros o (Hwf & <- & _). by apply locate_spec. Qed.

Lemma locate_all_grows o text class_name source_jar entry truncated ds l :
  parse text (of_entry entry) = Done o →
  wp (for_each (locate_declaration o class_name source_jar entry truncated) ds l)
     (grows (λ r, ∃ d outcome, d ∈ ds ∧
        locate_in text (of_entry entry) class_name (declared_candidate d) (is_compiler_generated d) = Done outcome ∧
        r = located_report class_name source_jar entry truncated (declared_candidate d) outcome) l).
Proof.
  intros Ho. revert l. induction ds as [|d ds IH]; intros l; cbn [for_each].
  { apply grows_none. intros r (d & ? & ?%elem_of_nil & _). done. }
  destruct (wp_Done _ _ (locate_total text (of_entry entry) class_name (declared_candidate d) (is_compiler_generated d)))
    as (outcome & Hout & _). assert (Hlocate := Hout). unfold locate_in in Hlocate. rewrite Ho in Hlocate. simpl in Hlocate.
  assert (Hstep : locate_declaration o class_name source_jar entry truncated l d = Done (match outcome with
    | Found slice => add_found (located_found class_name source_jar entry truncated (declared_candidate d) slice) l
    | Unresolved reason ls => add_unresolved (located_unresolved class_name source_jar entry truncated (declared_candidate d) reason ls) l
    end)) by (unfold locate_declaration; by rewrite Hlocate).
  rewrite Hstep. cbn [mbind exec_bind]. eapply wp_mono; [apply IH|]. intros l' Hl'.
  eapply grows_ext; [|eapply (lookup_grows_trans (λ r, r = located_report class_name source_jar entry truncated (declared_candidate d) outcome));
    [|exact Hl']].
  - intros r. cbv beta. split.
    + intros [->|(d' & out & Hd' & H')]; [exists d, outcome; set_solver|exists d', out; set_solver].
    + intros (d' & out & [->|Hd']%elem_of_cons & Ho' & ->); [left; rewrite Hout in Ho'; by injection Ho' as <-|right; by exists d', out].
  - destruct outcome; [apply add_found_grows|apply add_unresolved_grows].
Qed.

Lemma answer_unfold binary source_jar class_name names candidates d :
  declaration_candidates binary class_name member_name (max_source_bytes index) = Some candidates →
  about (binary, source_jar, class_name, names) d ↔ d ∈ matching wanted_descriptor candidates.
Proof. intros Hc. unfold about. rewrite Hc. split; [by intros (? & [= <-] & ?)|by exists candidates]. Qed.

Context (Hmax : max_source_bytes index < usize_max).

(** The loop body adds exactly the answers of its request, and every declaration has one. *)
Lemma add_declarations_spec l q :
  wp (add_declarations index member_name wanted_descriptor l q) (λ r,
    let '(binary, source_jar, class_name, names) := q in
    match r with
    | inl l' => grows (answered q) l l' ∧ (∀ d, about q d → is_Some (answer q d))
    | inr ClassUnreadable => declaration_candidates binary class_name member_name (max_source_bytes index) = None
    | inr SourceUnreadable => ∃ e, read_source (jar_path source_jar) names (max_source_bytes index) = Done (inr e)
    end).
Proof.
  destruct q as [[[binary source_jar] class_name] names]. unfold add_declarations, answered.
  destruct (declaration_candidates binary class_name member_name (max_source_bytes index)) as [candidates|] eqn:Hc; [|done].
  assert (Habout := λ d, answer_unfold binary source_jar class_name names candidates d Hc).
  unfold answer. rewrite Hc. cbn [mbind option_bind]. set (ds := matching wanted_descriptor candidates) in *.
  destruct (is_ambiguous member_name wanted_descriptor ds).
  { apply wp_mret. split; [|by eexists].
    eapply grows_ext; [|apply (foldl_grows (λ d, add_ambiguous (declared_candidate d)) (λ d, RAmbiguous (declared_candidate d)));
      intros; apply add_ambiguous_grows]. intros r. cbv beta. setoid_rewrite Habout. naive_solver. }
  destruct (wp_Done _ _ (read_source_best (jar_path source_jar) names _ Hmax)) as (source & Hs & _). rewrite Hs. cbn [mbind exec_bind].
  destruct source as [[[[entry text] truncated]|]|e].
  - destruct (wp_Done _ _ (parse_wf text (of_entry entry))) as (o & Ho & _). rewrite Ho. cbn [mbind exec_bind].
    assert (Htotal : ∀ d, ∃ out, locate_in text (of_entry entry) class_name (declared_candidate d) (is_compiler_generated d) = Done out).
    { intros d. destruct (wp_Done _ _ (locate_total text (of_entry entry) class_name (declared_candidate d) (is_compiler_generated d)))
        as (out & Hout & _). by exists out. }
    pose proof (locate_all_grows o text class_name source_jar entry truncated ds l Ho) as Hall.
    destruct (for_each _ ds l) as [l'| |]; [|done..]. simpl. split.
    + eapply grows_ext; [|exact Hall]. intros r. cbv beta. setoid_rewrite Habout. split.
      * intros (d & out & Hd & Hout & ->). exists d. split; [done|]. rewrite Hout. by destruct out.
      * intros (d & Hd & Hr). destruct (Htotal d) as [out Hout]. exists d, out. rewrite Hout in Hr. split_and!; [done..|].
        destruct out; by injection Hr as <-.
    + intros d _. destruct (Htotal d) as [out ->]. destruct out; by eexists.
  - apply wp_mret. split; [|by eexists].
    eapply grows_ext; [|apply (foldl_grows (λ d, add_unresolved (located_unresolved class_name source_jar (primary names) false
        (declared_candidate d) SourceEntryMissing []))
      (λ d, RUnresolved (located_unresolved class_name source_jar (primary names) false (declared_candidate d) SourceEntryMissing [])));
      intros; apply add_unresolved_grows]. intros r. cbv beta. setoid_rewrite Habout. naive_solver.
  - apply wp_mret. by eexists.
Qed.
End Answers.

(** ** The requests of a question *)

Section Question.
Context `{Unicode, ClassArchives, SourceArchives} (index : MavenIndex) (Htyped : typed_index index).

Definition request_at (query : str) (selector wanted : option str) (i : nat) : option request :=
  match source_request index query selector wanted i with Done r => r | _ => None end.

Lemma request_at_spec query selector wanted i :
  i ∈ default [] (class_locations index !! to_lowercase query) →
  source_request index query selector wanted i = Done (request_at query selector wanted i).
Proof.
  intros Hi. destruct (wp_Done _ _ (source_request_spec index query selector wanted i Htyped Hi)) as (r & Hr & _).
  unfold request_at. by rewrite Hr.
Qed.

Lemma source_requests_omap class_name selector wanted :
  let query := normalize_class_query class_name in
  source_requests index class_name selector wanted
  = Done (omap (request_at query selector wanted) (default [] (class_locations index !! to_lowercase query))).
Proof.
  intros query. unfold source_requests. fold query. set (locations := default [] _).
  assert (Hall : ∀ i, i ∈ locations → source_request index query selector wanted i = Done (request_at query selector wanted i))
    by (intros i; apply request_at_spec).
  assert (Hgen : ∀ l rs, (∀ i, i ∈ l → i ∈ locations) →
    for_each (push_request (source_request index query selector wanted)) l rs = Done (rs ++ omap (request_at query selector wanted) l)).
  { induction l as [|i l IH]; intros rs Hl; cbn [for_each]; [by rewrite app_nil_r|].
    assert (Hstep : push_request (source_request index query selector wanted) rs i
      = Done (rs ++ option_list (request_at query selector wanted i))) by (unfold push_request; by rewrite (Hall i) by (apply Hl; by left)).
    rewrite Hstep. cbn [mbind exec_bind].
    rewrite IH by (intros j Hj; apply Hl; by right). cbn [omap list_omap]. f_equal.
    destruct (request_at query selector wanted i); simpl; [by rewrite <- app_assoc|by rewrite app_nil_r]. }
  by apply (Hgen locations []).
Qed.

Context (Hmax : max_source_bytes index < usize_max).
Context (member_name wanted_descriptor selector wanted : option str).

(** What the loop over the archives gives, for the requests of some of them. *)
Definition lookup_of (requests : list request) (l : DeclarationSourceLookup) (r : DeclarationSourceLookup + LookupError) : Prop :=
  match r with
  | inl l' => grows (λ r, ∃ q, q ∈ requests ∧ answered index member_name wanted_descriptor q r) l l' ∧
      ∀ q d, q ∈ requests → about index member_name wanted_descriptor q d → is_Some (answer index member_name wanted_descriptor q d)
  | inr ClassUnreadable => ∃ binary source_jar class_name names, (binary, source_jar, class_name, names) ∈ requests ∧
      declaration_candidates binary class_name member_name (max_source_bytes index) = None
  | inr SourceUnreadable => ∃ binary source_jar class_name names, (binary, source_jar, class_name, names) ∈ requests ∧
      ∃ e, read_source (jar_path source_jar) names (max_source_bytes index) = Done (inr e)
  end.

Lemma add_locations_spec query locations l :
  (∀ i, i ∈ locations → i ∈ default [] (class_locations index !! to_lowercase query)) →
  wp (for_try (add_location index query member_name wanted_descriptor selector wanted) locations l)
     (lookup_of (omap (request_at query selector wanted) locations) l).
Proof.
  revert l. induction locations as [|i locations IH]; intros l Hl; cbn [for_try].
  { apply wp_mret. split; [apply grows_none; intros r (q & ?%elem_of_nil & _); done|by intros q d ?%elem_of_nil]. }
  assert (Hstep : add_location index query member_name wanted_descriptor selector wanted l i = match request_at query selector wanted i with
    | None => Done (inl l)
    | Some r => add_declarations index member_name wanted_descriptor l r
    end) by (unfold add_location; by rewrite (request_at_spec query selector wanted i) by (apply Hl; by left)).
  rewrite Hstep.
  assert (Hrest : ∀ l, wp (for_try (add_location index query member_name wanted_descriptor selector wanted) locations l)
     (lookup_of (omap (request_at query selector wanted) locations) l)) by (intros l'; apply IH; intros j Hj; apply Hl; by right).
  cbn [omap list_omap]. destruct (request_at query selector wanted i) as [q|]; [|cbn [mret exec_ret mbind exec_bind]; apply Hrest].
  destruct (wp_Done _ _ (add_declarations_spec index member_name wanted_descriptor Hmax l q)) as (r & Hr & Hspec). rewrite Hr. cbn [mbind exec_bind].
  destruct q as [[[binary source_jar] class_name] names]. destruct r as [l1|e].
  - destruct Hspec as [Hgrow Hans]. eapply wp_mono; [apply Hrest|]. intros [l2|[]]; cbn [lookup_of].
    + intros [Hgrow2 Hans2]. split.
      * eapply grows_ext; [|eapply lookup_grows_trans; [exact Hgrow|exact Hgrow2]]. intros rep. cbv beta.
        setoid_rewrite elem_of_cons. naive_solver.
      * intros q d [->|Hq]%elem_of_cons; [apply Hans|by apply Hans2].
    + intros (? & ? & ? & ? & ? & ?). do 4 eexists. split; [by right|done].
    + intros (? & ? & ? & ? & ? & ?). do 4 eexists. split; [by right|done].
  - apply wp_mret. destruct e; cbn [lookup_of]; do 4 eexists; (split; [by left|done]).
Qed.
End Question.

(** C2: Every declaration asked for is answered, and nothing else: on an index built from well
    typed records the lookup never panics; its requests pair a binary archive with the sources JAR
    that documents it; its results, unresolved declarations and ambiguous candidates are exactly
    the answers of the declarations of those requests, each of which has one; every slice in it is
    a range of whole lines of the text of the best entry; and it fails only when a classfile or a
    sources JAR of a request cannot be read. *)
Theorem declarations_answered `{Unicode, ClassArchives, SourceArchives} index class_name member_name wanted_descriptor selector wanted :
  typed_index index → max_source_bytes index < usize_max →
  let member := normalize_member_name <$> member_name in
  wp (get_declaration_source index class_name member_name wanted_descriptor selector wanted) (λ r, ∃ requests,
    source_requests index class_name selector wanted = Done requests ∧
    Forall (request_sound index (normalize_class_query class_name) selector wanted) requests ∧
    match r with
    | inl l =>
        (∀ r, in_lookup l r ↔ ∃ q, q ∈ requests ∧ answered index member wanted_descriptor q r) ∧
        (∀ q d, q ∈ requests → about index member wanted_descriptor q d → is_Some (answer index member wanted_descriptor q d)) ∧
        Forall (λ x, ∃ text, slice_ok text (found_slice_ x)) (lookup_results l) ∧
        StronglySorted (λ a b, le_cmp (found_key a) (found_key b) = true) (lookup_results l) ∧
        StronglySorted (λ a b, le_cmp (unresolved_key a) (unresolved_key b) = true) (lookup_unresolved l)
    | inr e => lookup_of index member wanted_descriptor requests empty_lookup (inr e)
    end).
Proof.
  intros Htyped Hmax member. unfold get_declaration_source.
  set (query := normalize_class_query class_name).
  assert (Hreq := source_requests_omap index Htyped class_name selector wanted). cbv zeta in Hreq. fold query in Hreq.
  set (requests := omap _ _) in Hreq.
  assert (Hsound : Forall (request_sound index query selector wanted) requests).
  { unfold requests. apply Forall_forall. intros q (i & Hi & Hq)%list_elem_of_omap.
    destruct (wp_Done _ _ (source_request_spec index query selector wanted i Htyped Hi)) as (r & Hr & Hrs).
    apply Hrs. unfold request_at in Hq. by rewrite Hr in Hq. }
  assert (Hrun : match class_locations index !! to_lowercase query with
    | None => requests = []
    | Some locations => requests = omap (request_at index query selector wanted) locations
    end) by (unfold requests; destruct (class_locations index !! _); done).
  assert (Hlook := λ locations l, add_locations_spec index Htyped Hmax member wanted_descriptor selector wanted query locations l).
  destruct (class_locations index !! to_lowercase query) as [locations|] eqn:El.
  2: { apply wp_mret. exists requests. split; [done|]. split; [done|]. rewrite Hrun.
       split_and!; [|by intros q d ?%elem_of_nil|constructor..].
       intros r. split; [intros Hr; exfalso; destruct r; by apply elem_of_nil in Hr|by intros (q & ?%elem_of_nil & _)]. }
  fold member. eapply wp_call; [apply Hlook; intros i Hi; rewrite ?El; exact Hi|]. rewrite <- Hrun. intros r Hr. apply wp_mret. exists requests.
  split; [done|]. split; [done|]. destruct r as [l|e]; [|done]. destruct Hr as [Hgrow Hans].
  assert (Hiff : ∀ r, in_lookup {| lookup_results := sort_by_key found_key (lookup_results l); lookup_ambiguous := lookup_ambiguous l;
      lookup_unresolved := sort_by_key unresolved_key (lookup_unresolved l) |} r
    ↔ ∃ q, q ∈ requests ∧ answered index member wanted_descriptor q r).
  { intros r. transitivity (in_lookup l r); [destruct r; simpl; unfold sort_by_key; by rewrite ?elem_of_sort_with|].
    rewrite (Hgrow r). split; [|by right]. intros [Hr|?]; [destruct r; by apply elem_of_nil in Hr|done]. }
  split_and!; [exact Hiff|exact Hans| |apply sort_by_key_sorted..].
  apply Forall_forall. intros x Hx. apply (Hiff (RFound x)) in Hx as (q & Hq & d & Hd & Ha).
  destruct q as [[[binary source_jar] cn] names]. unfold answer in Ha.
  destruct (declaration_candidates _ _ _ _); [|done]. cbn [mbind option_bind] in Ha. destruct (is_ambiguous _ _ _); [done|].
  destruct (read_source _ _ _) as [[[[[entry text] truncated]|]|e]| |]; try done.
  pose proof (locate_total text (of_entry entry) cn (declared_candidate d) (is_compiler_generated d)) as Hloc.
  destruct (locate_in _ _ _ _ _) as [out| |]; [|done..]. destruct out as [s|reason ls]; [|done].
  injection Ha as <-. by exists text.
Qed.

(** ** Samples *)

Definition sources_jar : JarRecord :=
  into_record {| stored_context := stored_context sample_stored; stored_validity := sample_validity;
                 stored_preflight := sample_charge; stored_multi_release := false; stored_entries := [lit "a/B.java"];
                 stored_fact_strings := []; stored_class_facts := []; stored_providers := [] |}
    (sample_path ++ [lit "sources"])
    {| identity_key := identity_key sample_identity; identity_classifier := Some (lit "sources");
       identity_relative_path := lit "b-sources.jar" |}.
Definition sourced_index : MavenIndex := @build_tables ascii_only 10 1000 [binary_jar [lit "a.B"]; sources_jar].
Definition sample_source : str :=
  lit "package a;" ++ [10] ++ lit "class B {" ++ [10] ++ lit "  int f() { return 1; }" ++ [10] ++ lit "}" ++ [10].
#[local] Instance sample_sources : SourceArchives := {|
  source_archive _ := Some [{| raw_readable := true; raw_name := Some (lit "a/B.java");
                               raw_content := Some {| declared_size := 47; entry_bytes := utf8 sample_source; entry_fails := false |} |}];
|}.
Definition sample_method : MemberInfo :=
  {| info_name := lit "f"; info_descriptor := lit "()I"; info_flags := 0; info_attributes := [] |}.
#[local] Instance sample_classes : ClassArchives := {|
  open_classes _ := Some {|
    entry_size _ := Some 100;
    parse_class _ := Some {| major_version := 65; class_flags := 32; this_class := lit "a/B"; super_class := None; interfaces := [];
                             class_fields := []; class_methods := [sample_method]; constantpool := []; attributes := [] |};
    read_text _ _ := None;
  |};
|}.

Lemma sourced_typed : @typed_index ascii_only sourced_index.
Proof.
  split; [unfold sourced_index, build_tables; by apply index_records_exact, empty_tables_exact|].
  apply Forall_forall. intros r Hr. vm_compute in Hr.
  repeat (apply elem_of_cons in Hr as [->|Hr]; [split; [vm_compute; reflexivity|vm_compute; reflexivity|constructor]|]).
  by apply elem_of_nil in Hr.
Qed.

Lemma declarations_answered_witness :
  @typed_index ascii_only sourced_index ∧ max_source_bytes sourced_index < usize_max ∧
  ∃ l, @get_declaration_source ascii_only sample_classes sample_sources sourced_index (lit "a.B") (Some (lit "f")) None None None
       = Done (inl l) ∧
    (λ x, slice_source (found_slice_ x)) <$> lookup_results l = [lit "  int f() { return 1; }"].
Proof.
  assert (Hm : max_source_bytes sourced_index < usize_max) by (vm_compute; reflexivity).
  split; [exact sourced_typed|]. split; [exact Hm|].
  pose proof (@declarations_answered ascii_only sample_classes sample_sources sourced_index (lit "a.B") (Some (lit "f"))
                None None None sourced_typed Hm) as Hw.
  destruct (wp_Done _ _ Hw) as (r & Hr & _).
  assert (Hc := Hr). vm_compute in Hc. injection Hc as <-. eexists. split; [exact Hr|]. vm_compute. reflexivity.
Defined.
