(* ===== verification/ClassApi.v ===== *)
(** * ClassApi: what a classfile declares, and how two versions differ

    Models the part of [src/index.rs] that reads descriptions of classes: [describe_class],
    [read_class_description], [search_class_members] and [compare_artifact_api_at].  A classfile is the
    parsed data of [ClassFacts]; access flags are a [u16], tested bit by bit.  Opening archives and
    the file system are classes. *)

From S2P Require Import Prelude.
From S2P Require Import Text.
From S2P Require Import TextSearch.
From S2P Require Import Paths.
From S2P Require Import Ordering.
From S2P Require Import Artifacts.
From S2P Require Import ClassEntries.
From S2P Require Import ClassFacts.
From S2P Require Import Preflight.
From S2P Require Import IndexRecord.
From S2P Require Import IndexBuild.
From S2P Require Import IndexSearch.
From S2P Require Import Contents.

Open Scope N_scope.

(** ** Flags and attributes *)

Definition has_flag (flags flag : N) : bool := negb (N.land flags flag =? 0).

Definition member_visibility (bits : N) : str :=
  if has_flag bits 1 then lit "public"
  else if has_flag bits 4 then lit "protected"
  else if has_flag bits 2 then lit "private"
  else lit "package_private".

(** The names of the flags that are set, in the order of the table. *)
Definition modifier_names (values : list (bool * str)) : list str :=
  snd <$> filter (λ p, p.1 = true) values.
Definition class_modifiers (flags : N) : list str :=
  modifier_names [(has_flag flags 16, lit "final"); (has_flag flags 512, lit "interface");
                  (has_flag flags 1024, lit "abstract"); (has_flag flags 4096, lit "synthetic");
                  (has_flag flags 8192, lit "annotation"); (has_flag flags 16384, lit "enum")].
Definition method_modifiers (flags : N) : list str :=
  modifier_names [(has_flag flags 8, lit "static"); (has_flag flags 16, lit "final");
                  (has_flag flags 32, lit "synchronized"); (has_flag flags 64, lit "bridge");
                  (has_flag flags 128, lit "varargs"); (has_flag flags 256, lit "native");
                  (has_flag flags 1024, lit "abstract"); (has_flag flags 2048, lit "strict");
                  (has_flag flags 4096, lit "synthetic")].
Definition field_modifiers (flags : N) : list str :=
  modifier_names [(has_flag flags 8, lit "static"); (has_flag flags 16, lit "final");
                  (has_flag flags 64, lit "volatile"); (has_flag flags 128, lit "transient");
                  (has_flag flags 4096, lit "synthetic"); (has_flag flags 16384, lit "enum")].

Definition generic_signature (attributes : list AttributeData) : option str :=
  head (omap (λ a, match a with SignatureAttribute s => Some s | _ => None end) attributes).
Definition annotation_names (attributes : list AttributeData) : list str :=
  dedup (sort (annotation_name <$> (attributes ≫= λ a,
    match a with RuntimeVisibleAnnotations l | RuntimeInvisibleAnnotations l => l | _ => [] end))).

(** ** Descriptions *)

Record ClassMemberDescription := {
  member_name : str;
  member_descriptor : str;
  member_signature : option str;
  visibility : str;
  member_modifiers : list str;
  member_annotations : list str;
}.
Record ClassDescription := {
  described_class : str;
  described_jar : JarSummary;
  class_file_version : N;
  class_visibility : str;
  described_modifiers : list str;
  described_signature : option str;
  described_super : option str;
  described_interfaces : list str;
  constructors : list ClassMemberDescription;
  methods : list ClassMemberDescription;
  fields : list ClassMemberDescription;
  described_annotations : list str;
}.

Definition INIT : str := lit "<init>".

Definition describe_member (name : str) (modifiers : N → list str) (m : MemberInfo) : ClassMemberDescription :=
  {| member_name := name; member_descriptor := info_descriptor m;
     member_signature := generic_signature (info_attributes m); visibility := member_visibility (info_flags m);
     member_modifiers := modifiers (info_flags m); member_annotations := annotation_names (info_attributes m) |}.

(** [rsplit('.').next()] of the class name is the name of its constructors. *)
Definition constructor_name (c : ClassFile) : str :=
  default INIT (last (split_char (ch ".") (binary_name (this_class c)))).

Definition shown_methods (public_only : bool) (c : ClassFile) : list MemberInfo :=
  filter (λ m, negb (bool_decide (info_name m = lit "<clinit>")) && negb (public_only && negb (has_flag (info_flags m) 1)) = true)
    (class_methods c).
Definition described_constructors (public_only : bool) (c : ClassFile) : list ClassMemberDescription :=
  describe_member (constructor_name c) method_modifiers <$> filter (λ m, info_name m = INIT) (shown_methods public_only c).
Definition described_methods (public_only : bool) (c : ClassFile) : list ClassMemberDescription :=
  (λ m, describe_member (info_name m) method_modifiers m) <$> filter (λ m, info_name m ≠ INIT) (shown_methods public_only c).
Definition described_fields (public_only : bool) (c : ClassFile) : list ClassMemberDescription :=
  (λ m, describe_member (info_name m) field_modifiers m)
  <$> filter (λ m, negb public_only || has_flag (info_flags m) 1 = true) (class_fields c).

Definition member_key (m : ClassMemberDescription) : str * str := (member_name m, member_descriptor m).

Definition describe_classfile (jar : JarSummary) (public_only : bool) (c : ClassFile) : ClassDescription :=
  {| described_class := binary_name (this_class c); described_jar := jar; class_file_version := major_version c;
     class_visibility := if has_flag (class_flags c) 1 then lit "public" else lit "package_private";
     described_modifiers := class_modifiers (class_flags c); described_signature := generic_signature (ClassFacts.attributes c);
     described_super := binary_name <$> super_class c; described_interfaces := sort (binary_name <$> interfaces c);
     constructors := sort_by_key member_descriptor (described_constructors public_only c);
     methods := sort_by_key member_key (described_methods public_only c);
     fields := sort_by_key member_key (described_fields public_only c);
     described_annotations := annotation_names (ClassFacts.attributes c) |}.

(** [read_class_description_from]: [None] when the classfile is missing, too large or malformed. *)
Definition read_class_description_from (archive : ClassArchive) (jar : JarRecord) (class_name : str) (max_bytes : N)
    (public_only : bool) : option ClassDescription :=
  entry_path ← select_class_entry jar class_name;
  c ← @readable_class archive max_bytes entry_path;
  Some (describe_classfile (summary jar) public_only c).
Definition read_class_description `{ClassArchives} (jar : JarRecord) (class_name : str) (max_bytes : N) (public_only : bool)
    : option ClassDescription :=
  archive ← open_classes (jar_path jar);
  read_class_description_from archive jar class_name max_bytes public_only.

(** ** Searching members *)

Inductive ClassMemberMatchKind := MethodMatch | FieldMatch | AnnotationMatch.
Definition match_kind_rank (k : ClassMemberMatchKind) : N :=
  match k with MethodMatch => 0 | FieldMatch => 1 | AnnotationMatch => 2 end.
Record ClassMemberMatch := {
  matched_class : str;
  matched_kind : ClassMemberMatchKind;
  matched_name : str;
  matched_signature : str;
  matched_jar : JarSummary;
}.

Section MemberSearch.
Context `{Unicode}.

Definition contains_lower (query value : str) : bool := contains query (to_lowercase value).

Definition collect_annotation_matches (d : ClassDescription) (annotations : list str) (target query : str) : list ClassMemberMatch :=
  (λ annotation, {| matched_class := described_class d; matched_kind := AnnotationMatch; matched_name := annotation;
                    matched_signature := target; matched_jar := described_jar d |})
  <$> filter (λ annotation, contains_lower query annotation = true) annotations.

Definition method_target (m : ClassMemberDescription) : str := lit "method:" ++ member_name m ++ member_descriptor m.
Definition field_target (m : ClassMemberDescription) : str := lit "field:" ++ member_name m ++ lit ":" ++ member_descriptor m.

Definition member_matches (d : ClassDescription) (kind : ClassMemberMatchKind) (target : ClassMemberDescription → str) (query : str)
    (m : ClassMemberDescription) : list ClassMemberMatch :=
  (if contains_lower query (member_name m) then
     [{| matched_class := described_class d; matched_kind := kind; matched_name := member_name m;
         matched_signature := member_descriptor m; matched_jar := described_jar d |}]
   else [])
  ++ collect_annotation_matches d (member_annotations m) (target m) query.

Definition collect_member_matches (d : ClassDescription) (query : str) : list ClassMemberMatch :=
  ((constructors d ++ methods d) ≫= member_matches d MethodMatch method_target query)
  ++ (fields d ≫= member_matches d FieldMatch field_target query)
  ++ collect_annotation_matches d (described_annotations d) (lit "class") query.

Definition member_match_key (m : ClassMemberMatch) : str * (str * (N * (str * str))) :=
  (summary_coordinate (matched_jar m), (matched_class m, (match_kind_rank (matched_kind m), (matched_name m, matched_signature m)))).

Context `{ClassArchives} (index : MavenIndex).

(** The matches in one archive; archives and classfiles that cannot be read are skipped. *)
Definition jar_member_matches (query : str) (jar : JarRecord) : list ClassMemberMatch :=
  if bool_decide (jar_classes jar = []) then []
  else
    match open_classes (jar_path jar) with
    | None => []
    | Some archive =>
        jar_classes jar ≫= λ class_name,
          match read_class_description_from archive jar class_name (max_source_bytes index) false with
          | None => []
          | Some d => collect_member_matches d query
          end
    end.

Definition search_class_members (query : str) (selector : option str) (requested : option N) : exec (list ClassMemberMatch) :=
  let query := to_lowercase (trim query) in
  if bool_decide (query = []) then mret []
  else
    limit ← limit index requested;
    mret (take (N.to_nat limit) (sort_by_key member_match_key (binary_jars index selector ≫= jar_member_matches query))).
End MemberSearch.

(** ** The API of a class *)

Definition is_api (m : ClassMemberDescription) : Prop := visibility m = lit "public" ∨ visibility m = lit "protected".
#[local] Instance is_api_dec m : Decision (is_api m).
Proof. unfold is_api. apply _. Defined.

(** A [BTreeSet] of the spellings of the members that are visible outside. *)
Definition api_members (d : ClassDescription) : list str :=
  foldr set_insert [] ((method_target <$> filter is_api (constructors d ++ methods d)) ++ (field_target <$> filter is_api (fields d))).

(** [BTreeSet::difference], in order. *)
Definition set_difference (a b : list str) : list str := filter (λ x, x ∉ b) a.
Definition interface_set (d : ClassDescription) : list str := foldr set_insert [] (described_interfaces d).

Record ClassApiChange := {
  changed_class : str;
  added_members : list str;
  removed_members : list str;
  previous_super_class : option str;
  current_super_class : option str;
  added_interfaces : list str;
  removed_interfaces : list str;
}.
Record ApiDiff := {
  added_classes : list str;
  removed_classes : list str;
  changed_classes : list ClassApiChange;
}.

(** The answer: the versions compared and their difference. *)
Record ArtifactApiDiff := {
  diff_group_id : str;
  diff_artifact_id : str;
  diff_previous_version : str;
  diff_current_version : str;
  api_diff : ApiDiff;
}.

(** A [BTreeMap] of the public classes of a JAR by name. *)
Abbreviation api_map := (gmap str ClassDescription) (only parsing).

Definition missing_classes (api other : api_map) : list str :=
  filter (λ name, other !! name = None) (sorted_entries api).*1.

Definition class_change (class_name : str) (previous current : ClassDescription) : option ClassApiChange :=
  let added_members := set_difference (api_members current) (api_members previous) in
  let removed_members := set_difference (api_members previous) (api_members current) in
  let added_interfaces := set_difference (interface_set current) (interface_set previous) in
  let removed_interfaces := set_difference (interface_set previous) (interface_set current) in
  if bool_decide (added_members = []) && bool_decide (removed_members = []) && bool_decide (added_interfaces = [])
     && bool_decide (removed_interfaces = []) && bool_decide (described_super previous = described_super current)
  then None
  else Some {| changed_class := class_name; added_members := added_members; removed_members := removed_members;
               previous_super_class := described_super previous; current_super_class := described_super current;
               added_interfaces := added_interfaces; removed_interfaces := removed_interfaces |}.

Definition compare_api (previous current : api_map) : ApiDiff :=
  {| added_classes := missing_classes current previous;
     removed_classes := missing_classes previous current;
     changed_classes := omap (λ p, current_class ← current !! p.1; class_change p.1 p.2 current_class) (sorted_entries previous) |}.

(** ** The API of a JAR *)

(** The bytes of a file, and what the ZIP library reads of an open archive: the sorted names of
    its entries and the text of its manifest. *)
Class JarFiles := {
  file_bytes : path → option (list N);
  archive_names : path → option (list str);
  archive_text : path → str → option str;
  jar_is_file : path → bool;
}.

Inductive ApiError :=
| BadCoordinate
| PathError (e : ArtifactPathError)
| NotAvailable
| ResourceLimit (l : ArchiveLimit)
| InvalidArchive
| UnreadableClass
| Cancelled.

(** What [blocking::checkpoint] finds before a class of an archive is read. *)
Class Cancellation := cancelled : path → str → bool.

Section Compare.
Context `{JarFiles, ClassArchives, Cancellation}.

Definition sum_bind {A B} (m : A + ApiError) (f : A → B + ApiError) : B + ApiError :=
  match m with inl a => f a | inr e => inr e end.

(** The loop over the classes: a class that is not public is left out. *)
Fixpoint collect_api (archive : ClassArchive) (jar : JarRecord) (max_source_bytes : N) (classes : list str) (api : api_map)
    : api_map + ApiError :=
  match classes with
  | [] => inl api
  | class_name :: classes =>
      if cancelled (jar_path jar) class_name then inr Cancelled
      else
      match read_class_description_from archive jar class_name max_source_bytes false with
      | None => inr UnreadableClass
      | Some d =>
          collect_api archive jar max_source_bytes classes
            (if bool_decide (class_visibility d = lit "public") then <[described_class d := d]> api else api)
      end
  end.

Definition bare_record (root p : path) (key : ArtifactKey) (i : JarIndex) : JarRecord :=
  {| jar_key := key; jar_classifier := None; jar_relative_path := relative_slash_path root p; jar_path := p;
     jar_classes := classes i; jar_entries := ClassEntries.entries i; jar_class_entries := class_entries i;
     jar_multi_release := multi_release i; jar_fact_strings := []; jar_class_facts := []; jar_providers := [] |}.

Definition public_class_api (root p : path) (key : ArtifactKey) (budget : ArchiveBudget) (max_source_bytes : N)
    : exec (ArchiveBudget * (api_map + ApiError)) :=
  match file_bytes p with
  | None => mret (budget, inr InvalidArchive)
  | Some file =>
      '(budget, error) ← preflight_archive file budget;
      mret (budget,
        match error with
        | Some (Limit l) => inr (ResourceLimit l)
        | Some Malformed => inr InvalidArchive
        | None =>
            match archive ← open_classes p; names ← archive_names p; Some (archive, names) with
            | None => inr InvalidArchive
            | Some (archive, names) =>
                let i := read_jar_index_from (archive_text p) names in
                collect_api archive (bare_record root p key i) max_source_bytes (classes i) ∅
            end
        end)
  end.

Context `{RepositoryFiles} (limits : ArchiveBudget).

Definition exact_jar (root : path) (key : ArtifactKey) : path + ApiError :=
  match exact_binary_jar_path jar_is_file root key with
  | inr e => inr (PathError e)
  | inl None => inr NotAvailable
  | inl (Some p) => inl p
  end.

(** [compare_artifact_api_at]: both keys, both paths, then both JARs under one budget. *)
Definition compare_artifact_api_at (root : path) (max_source_bytes : N) (group artifact previous_version current_version : str)
    : exec (ArtifactApiDiff + ApiError) :=
  let coordinate_of v := group ++ lit ":" ++ artifact ++ lit ":" ++ v in
  match parse_exact_coordinate (coordinate_of previous_version), parse_exact_coordinate (coordinate_of current_version) with
  | Some previous_key, Some current_key =>
      match exact_jar root previous_key with
      | inr e => mret (inr e)
      | inl previous_path =>
          match exact_jar root current_key with
          | inr e => mret (inr e)
          | inl current_path =>
              '(budget, previous) ← public_class_api root previous_path previous_key limits max_source_bytes;
              match previous with
              | inr e => mret (inr e)
              | inl previous_api =>
                  '(_, current) ← public_class_api root current_path current_key budget max_source_bytes;
                  mret (sum_bind current (λ current_api, inl
                    {| diff_group_id := group; diff_artifact_id := artifact; diff_previous_version := previous_version;
                       diff_current_version := current_version; api_diff := compare_api previous_api current_api |}))
              end
          end
      end
  | _, _ => mret (inr BadCoordinate)
  end.
End Compare.

(** ** What a class declares to the outside *)

(** The spellings of the constructors, methods and fields that are public or protected. *)
Definition declares (d : ClassDescription) (x : str) : Prop :=
  (∃ m, m ∈ constructors d ++ methods d ∧ is_api m ∧ x = method_target m) ∨
  (∃ m, m ∈ fields d ∧ is_api m ∧ x = field_target m).

Definition same_api (p q : ClassDescription) : Prop :=
  (∀ x, declares p x ↔ declares q x) ∧
  (∀ x, x ∈ described_interfaces p ↔ x ∈ described_interfaces q) ∧
  described_super p = described_super q.

(** A strictly increasing list of the elements of a set. *)
Definition lists_exactly {A} `{Ord A} (l : list A) (P : A → Prop) : Prop :=
  StronglySorted lt_cmp l ∧ ∀ x, x ∈ l ↔ P x.

Definition change_exact (p q : ClassDescription) (c : ClassApiChange) : Prop :=
  lists_exactly (added_members c) (λ x, declares q x ∧ ¬ declares p x) ∧
  lists_exactly (removed_members c) (λ x, declares p x ∧ ¬ declares q x) ∧
  lists_exactly (added_interfaces c) (λ x, x ∈ described_interfaces q ∧ x ∉ described_interfaces p) ∧
  lists_exactly (removed_interfaces c) (λ x, x ∈ described_interfaces p ∧ x ∉ described_interfaces q) ∧
  previous_super_class c = described_super p ∧ current_super_class c = described_super q.

(** The difference of two APIs: the classes only one of them has, and exactly the shared classes
    whose outside differs. *)
Definition diff_exact (previous current : gmap str ClassDescription) (d : ApiDiff) : Prop :=
  lists_exactly (added_classes d) (λ n, previous !! n = None ∧ is_Some (current !! n)) ∧
  lists_exactly (removed_classes d) (λ n, current !! n = None ∧ is_Some (previous !! n)) ∧
  lists_exactly (changed_class <$> changed_classes d)
    (λ n, ∃ p q, previous !! n = Some p ∧ current !! n = Some q ∧ ¬ same_api p q) ∧
  (∀ c, c ∈ changed_classes d → ∃ p q,
     previous !! changed_class c = Some p ∧ current !! changed_class c = Some q ∧ change_exact p q c).

Lemma set_of_spec (l : list str) : lists_exactly (foldr set_insert [] l) (λ x, x ∈ l).
Proof.
  split.
  - induction l as [|x l IH]; simpl; [constructor|by apply set_insert_sorted].
  - intros x. induction l as [|y l IH]; simpl; [done|]. by rewrite elem_of_set_insert, elem_of_cons, IH.
Qed.

Lemma set_difference_spec (a b : list str) P Q :
  lists_exactly a P → lists_exactly b Q → lists_exactly (set_difference a b) (λ x, P x ∧ ¬ Q x).
Proof.
  intros [Hs Ha] [_ Hb]. split; [by apply filter_sorted|]. intros x. unfold set_difference.
  rewrite list_elem_of_filter, Ha, Hb. naive_solver.
Qed.

Lemma lists_exactly_nil (l : list str) P : lists_exactly l P → l = [] ↔ ∀ x, ¬ P x.
Proof. intros [_ Hl]. split; [by intros -> x ?%Hl%elem_of_nil|]. intros Hn. apply elem_of_nil_inv. intros x ?%Hl. by eapply Hn. Qed.

Lemma api_members_spec d : lists_exactly (api_members d) (declares d).
Proof.
  destruct (set_of_spec ((method_target <$> filter is_api (constructors d ++ methods d)) ++ (field_target <$> filter is_api (fields d)))) as [Hs Hin].
  split; [exact Hs|]. intros x. unfold api_members. rewrite Hin, elem_of_app, !list_elem_of_fmap. unfold declares.
  setoid_rewrite list_elem_of_filter. naive_solver.
Qed.

Lemma declares_dec d x : declares d x ∨ ¬ declares d x.
Proof. rewrite <- (proj2 (api_members_spec d)). destruct (decide (x ∈ api_members d)); auto. Qed.

(** A class is reported exactly when its outside differs, with exactly the differences. *)
Lemma class_change_spec n p q :
  match class_change n p q with
  | Some c => changed_class c = n ∧ change_exact p q c ∧ ¬ same_api p q
  | None => same_api p q
  end.
Proof.
  pose proof (set_difference_spec _ _ _ _ (api_members_spec q) (api_members_spec p)) as Ha.
  pose proof (set_difference_spec _ _ _ _ (api_members_spec p) (api_members_spec q)) as Hr.
  pose proof (set_difference_spec _ _ _ _ (set_of_spec (described_interfaces q)) (set_of_spec (described_interfaces p))) as Hia.
  pose proof (set_difference_spec _ _ _ _ (set_of_spec (described_interfaces p)) (set_of_spec (described_interfaces q))) as Hir.
  pose proof (lists_exactly_nil _ _ Ha) as Ha0. pose proof (lists_exactly_nil _ _ Hr) as Hr0.
  pose proof (lists_exactly_nil _ _ Hia) as Hia0. pose proof (lists_exactly_nil _ _ Hir) as Hir0.
  unfold class_change. cbv zeta. fold (interface_set p) (interface_set q) in *.
  destruct (_ && _) eqn:E.
  - rewrite !andb_true_iff, !bool_decide_eq_true in E. destruct E as [[[[E1 E2] E3] E4] E5]. specialize (proj1 Ha0 E1) as F1; specialize (proj1 Hr0 E2) as F2; specialize (proj1 Hia0 E3) as F3; specialize (proj1 Hir0 E4) as F4. split; [|split; [|done]].
    + intros x. specialize (F1 x). specialize (F2 x). destruct (declares_dec p x), (declares_dec q x); naive_solver.
    + intros x. specialize (F3 x). specialize (F4 x).
      destruct (decide (x ∈ described_interfaces p)), (decide (x ∈ described_interfaces q)); naive_solver.
  - rewrite !andb_false_iff, !bool_decide_eq_false in E.
    split; [done|]. split; [by split_and!|]. intros (Hd & Hi & Hs).
    destruct E as [[[[E|E]|E]|E]|E]; apply E; [apply Ha0|apply Hr0|apply Hia0|apply Hir0|exact Hs]; intros x; specialize (Hd x); specialize (Hi x); tauto.
Qed.

Lemma missing_classes_spec api other :
  lists_exactly (missing_classes api other) (λ n, other !! n = None ∧ is_Some (api !! n)).
Proof.
  split; [apply filter_sorted, sorted_entries_strict|]. intros n. unfold missing_classes.
  rewrite list_elem_of_filter, list_elem_of_fmap. split.
  - intros [Ho ([n' d] & -> & Hd%elem_of_sorted_entries)]. simpl in *. split; [done|by eexists].
  - intros [Ho [d Hd]]. split; [done|]. exists (n, d). split; [done|]. by apply elem_of_sorted_entries.
Qed.

Lemma omap_keys_sorted {K V C} `{Ord K} (key : C → K) (f : K * V → option C) l :
  (∀ p c, p ∈ l → f p = Some c → key c = p.1) →
  StronglySorted lt_cmp l.*1 → StronglySorted lt_cmp (key <$> omap f l).
Proof.
  induction l as [|p l IH]; intros Hf Hs; [constructor|]. inversion Hs as [|? ? Hl Hp]; subst.
  assert (IH' : StronglySorted lt_cmp (key <$> omap f l)) by (apply IH; [|done]; intros; apply Hf; [by right|done]).
  simpl. destruct (f p) as [c|] eqn:E; [|done]. cbn [fmap list_fmap].
  constructor; [done|]. rewrite (Hf p c) by (done || left). rewrite Forall_forall in Hp |- *.
  intros k (c' & -> & (p' & Hp' & Hc')%list_elem_of_omap)%list_elem_of_fmap.
  rewrite (Hf p' c') by (done || by right). apply Hp, list_elem_of_fmap. by exists p'.
Qed.

Lemma compare_api_spec previous current : diff_exact previous current (compare_api previous current).
Proof.
  assert (Hc : ∀ c, c ∈ changed_classes (compare_api previous current) ↔ ∃ n p q,
    previous !! n = Some p ∧ current !! n = Some q ∧ class_change n p q = Some c).
  { intros c. cbn [compare_api changed_classes]. rewrite list_elem_of_omap. split.
    - intros ([n p] & Hp%elem_of_sorted_entries & Hc). simpl in Hc.
      destruct (current !! n) as [q|] eqn:Hq; [|done]. by exists n, p, q.
    - intros (n & p & q & Hp & Hq & Hc). exists (n, p). split; [by apply elem_of_sorted_entries|]. simpl. by rewrite Hq. }
  assert (Hn : ∀ n p q c, class_change n p q = Some c → changed_class c = n ∧ change_exact p q c ∧ ¬ same_api p q).
  { intros n p q c E. pose proof (class_change_spec n p q) as H. by rewrite E in H. }
  split; [apply missing_classes_spec|]. split; [apply missing_classes_spec|]. split; [split|].
  - apply omap_keys_sorted; [|apply sorted_entries_strict]. intros [n p] c _. simpl.
    destruct (current !! n); [|done]. by intros [? _]%Hn.
  - intros n. rewrite list_elem_of_fmap. split.
    + intros (c & -> & (k & p & q & Hp & Hq & (<- & _ & Hd)%Hn)%Hc). by exists p, q.
    + intros (p & q & Hp & Hq & Hd). pose proof (class_change_spec n p q) as H.
      destruct (class_change n p q) as [c|] eqn:E; [|done]. exists c. split; [by destruct H as [-> _]|].
      apply Hc. by exists n, p, q.
  - intros c (n & p & q & Hp & Hq & (<- & Hx & _)%Hn)%Hc. by exists p, q.
Qed.

(** ** Comparing two JARs of the repository *)

Section CompareExact.
Context `{JarFiles, ClassArchives, Cancellation, RepositoryFiles} (limits : ArchiveBudget) (root : path) (max_source_bytes : N).

(** The descriptions of the classes of a list, in order. *)
Definition described (archive : ClassArchive) (jar : JarRecord) (classes : list str) : list ClassDescription :=
  omap (λ n, read_class_description_from archive jar n max_source_bytes false) classes.
Definition class_readable (archive : ClassArchive) (jar : JarRecord) (class_name : str) : Prop :=
  is_Some (read_class_description_from archive jar class_name max_source_bytes false).
Definition public_named (n : str) (d : ClassDescription) : Prop :=
  described_class d = n ∧ class_visibility d = lit "public".
#[local] Instance public_named_dec n d : Decision (public_named n d).
Proof. unfold public_named. apply _. Defined.

(** The API of a JAR: the file is within the limits, each of its classes can be read, and a name
    stands for the last public class that declares it. *)
Definition jar_api (b b' : ArchiveBudget) (key : ArtifactKey) (p : path) (api : gmap str ClassDescription) : Prop :=
  ∃ file archive names,
    file_bytes p = Some file ∧ preflight_archive file b = Done (b', None) ∧
    open_classes p = Some archive ∧ archive_names p = Some names ∧
    let i := read_jar_index_from (archive_text p) names in
    let jar := bare_record root p key i in
    Forall (class_readable archive jar) (classes i) ∧
    ∀ n, api !! n = last (filter (public_named n) (described archive jar (classes i))).

(** Why a JAR has no API. *)
Definition jar_refused (b : ArchiveBudget) (key : ArtifactKey) (p : path) (e : ApiError) : Prop :=
  match e with
  | ResourceLimit l => ∃ file b', file_bytes p = Some file ∧ preflight_archive file b = Done (b', Some (Limit l))
  | InvalidArchive =>
      file_bytes p = None ∨ (∃ file b', file_bytes p = Some file ∧ preflight_archive file b = Done (b', Some Malformed)) ∨
      open_classes p = None ∨ archive_names p = None
  | UnreadableClass => ∃ archive names n, open_classes p = Some archive ∧ archive_names p = Some names ∧
      let i := read_jar_index_from (archive_text p) names in
      n ∈ classes i ∧ ¬ class_readable archive (bare_record root p key i) n
  | Cancelled => ∃ n, cancelled p n = true
  | _ => False
  end.

Lemma last_cons_default {A} (x : A) l : last (x :: l) = Some (default x (last l)).
Proof. rewrite last_cons. by destruct (last l). Qed.

Lemma collect_api_spec archive jar names api :
  match collect_api archive jar max_source_bytes names api with
  | inl api' => Forall (class_readable archive jar) names ∧
      ∀ n, api' !! n = match last (filter (public_named n) (described archive jar names)) with Some d => Some d | None => api !! n end
  | inr e => e = UnreadableClass ∧ (∃ n, n ∈ names ∧ ¬ class_readable archive jar n) ∨
             e = Cancelled ∧ ∃ n, cancelled (jar_path jar) n = true
  end.
Proof.
  revert api. induction names as [|c names IH]; intros api; cbn [collect_api]; [by split|].
  destruct (cancelled (jar_path jar) c) eqn:Ec; [right; split; [done|by exists c]|].
  unfold class_readable in *. cbn [described omap list_omap]. fold (described archive jar names).
  destruct (read_class_description_from archive jar c max_source_bytes false) as [d|] eqn:Ed.
  - match goal with |- context [collect_api _ _ _ _ ?api'] => specialize (IH api'); destruct (collect_api _ _ _ _ api') as [r|e] end.
    + destruct IH as [Hall Hr]. split; [by constructor|]. intros n. rewrite Hr.
      rewrite filter_cons. destruct (decide (public_named n d)) as [[<- Hv]|Hd].
      * rewrite bool_decide_eq_true_2, lookup_insert_eq, last_cons_default by done. by destruct (last _).
      * case_bool_decide as Hv; [|done]. rewrite lookup_insert_ne; [done|]. intros Hn. by apply Hd.
    + destruct IH as [(-> & n & Hn & Hu)|IH]; [left|by right]. split; [done|]. exists n. split; [by right|done].
  - left. split; [done|]. exists c. split; [by left|]. rewrite Ed. by intros [].
Qed.
End CompareExact.

Section CompareArtifacts.
Context `{JarFiles, ClassArchives, Cancellation, RepositoryFiles} (limits : ArchiveBudget) (root : path) (max_source_bytes : N).

Lemma budget_le_refl (b : ArchiveBudget) : budget_le b b.
Proof. by split_and!. Qed.

Lemma public_class_api_spec p key b :
  wp (public_class_api root p key b max_source_bytes) (λ r, budget_le r.1 b ∧
    match r.2 with
    | inl api => jar_api root max_source_bytes b r.1 key p api
    | inr e => jar_refused root max_source_bytes b key p e
    end).
Proof.
  unfold public_class_api. destruct (file_bytes p) as [file|] eqn:Hf; [|apply wp_mret; split; [apply budget_le_refl|by left]].
  destruct (wp_Done _ _ (preflight_spec file b)) as ([b' error] & Hp & Hle & _). rewrite Hp. cbn [mbind exec_bind].
  apply wp_mret. split; [done|]. cbn [fst snd] in *. destruct error as [[l|]|].
  - by exists file, b'.
  - right; left. by exists file, b'.
  - destruct (open_classes p) as [archive|] eqn:Ha; [|by right; right; left]. cbn [mbind option_bind].
    destruct (archive_names p) as [names|] eqn:Hn; [|by right; right; right]. cbn [mbind option_bind].
    set (i := read_jar_index_from (archive_text p) names).
    pose proof (collect_api_spec max_source_bytes archive (bare_record root p key i) (classes i) ∅) as Hc.
    destruct (collect_api _ _ _ _ _) as [api|e].
    + destruct Hc as [Hall Hapi]. exists file, archive, names. cbv zeta. repeat (split; [done|]).
      intros n. specialize (Hapi n). rewrite lookup_empty in Hapi. rewrite Hapi. by destruct (last _).
    + destruct Hc as [(-> & n & Hin & Hu)|[-> Hc]]; [|exact Hc]. exists archive, names, n. by split_and!.
Qed.

(** A regular file below the canonical root of the repository. *)
Definition below (p : path) : Prop :=
  jar_is_file p = true ∧ ∃ canonical_root, canonicalize root = inl canonical_root ∧ path_starts_with canonical_root p = true.

Lemma exact_jar_spec key :
  match exact_jar root key with
  | inl p => below p
  | inr e => e = NotAvailable ∧ exact_binary_jar_path jar_is_file root key = inl None ∨
             ∃ pe, e = PathError pe ∧ exact_binary_jar_path jar_is_file root key = inr pe
  end.
Proof.
  unfold exact_jar. destruct (exact_binary_jar_path jar_is_file root key) as [[p|]|pe] eqn:E; [|by left|by right; exists pe].
  unfold exact_binary_jar_path in E. destruct (contained_artifact_path root key _) as [[found|]|] eqn:Hd; [|done..]. simpl in E.
  destruct (jar_is_file found) eqn:Hfile; [|done]. injection E as <-. split; [done|]. by eapply contained_below.
Qed.

(** The answer of a comparison: the exact difference of the APIs of two JARs of the repository
    read under one budget, or the reason there is none. *)
Definition api_compared (group artifact previous_version current_version : str) (r : ArtifactApiDiff + ApiError) : Prop :=
  let coordinate_of v := group ++ lit ":" ++ artifact ++ lit ":" ++ v in
  match parse_exact_coordinate (coordinate_of previous_version), parse_exact_coordinate (coordinate_of current_version) with
  | Some k, Some k' =>
      match r with
      | inl d => ∃ p q api api' b' b'',
          exact_jar root k = inl p ∧ exact_jar root k' = inl q ∧ below p ∧ below q ∧
          jar_api root max_source_bytes limits b' k p api ∧ jar_api root max_source_bytes b' b'' k' q api' ∧
          budget_le b'' b' ∧ budget_le b' limits ∧
          diff_group_id d = group ∧ diff_artifact_id d = artifact ∧ diff_previous_version d = previous_version ∧
          diff_current_version d = current_version ∧ diff_exact api api' (api_diff d)
      | inr BadCoordinate => False
      | inr NotAvailable => exact_binary_jar_path jar_is_file root k = inl None ∨ exact_binary_jar_path jar_is_file root k' = inl None
      | inr (PathError e) => exact_binary_jar_path jar_is_file root k = inr e ∨ exact_binary_jar_path jar_is_file root k' = inr e
      | inr e => ∃ key p b, (key = k ∨ key = k') ∧ exact_jar root key = inl p ∧ budget_le b limits ∧
          jar_refused root max_source_bytes b key p e
      end
  | _, _ => r = inr BadCoordinate
  end.

Section Failures.
Context (group artifact previous_version current_version : str) (k k' key : ArtifactKey).
Hypothesis previous_parsed : parse_exact_coordinate (group ++ lit ":" ++ artifact ++ lit ":" ++ previous_version) = Some k.
Hypothesis current_parsed : parse_exact_coordinate (group ++ lit ":" ++ artifact ++ lit ":" ++ current_version) = Some k'.
Hypothesis one_of_them : key = k ∨ key = k'.

Lemma path_failed e : exact_jar root key = inr e → api_compared group artifact previous_version current_version (inr e).
Proof.
  intros He. unfold api_compared. rewrite previous_parsed, current_parsed. pose proof (exact_jar_spec key) as Hs. rewrite He in Hs.
  destruct Hs as [[-> Hs]|(pe & -> & Hs)]; destruct one_of_them as [-> | ->]; auto.
Qed.

Lemma jar_failed p b e :
  exact_jar root key = inl p → budget_le b limits → jar_refused root max_source_bytes b key p e →
  api_compared group artifact previous_version current_version (inr e).
Proof.
  intros Hp Hb He. unfold api_compared. rewrite previous_parsed, current_parsed.
  destruct e; try (by exists key, p, b); by destruct He.
Qed.
End Failures.

End CompareArtifacts.

(** ** Searching the members of the index *)

Section MembersExact.
Context `{Unicode, ClassArchives} (index : MavenIndex).

(** An annotation of a class or of one of its members, and the spelling of what carries it. *)
Definition annotated (d : ClassDescription) (target annotation : str) : Prop :=
  (target = lit "class" ∧ annotation ∈ described_annotations d) ∨
  (∃ x, x ∈ constructors d ++ methods d ∧ annotation ∈ member_annotations x ∧ target = method_target x) ∨
  (∃ x, x ∈ fields d ∧ annotation ∈ member_annotations x ∧ target = field_target x).

(** A member or annotation of a described class whose name contains the query. *)
Definition matches_in (d : ClassDescription) (query : str) (m : ClassMemberMatch) : Prop :=
  matched_class m = described_class d ∧ matched_jar m = described_jar d ∧ contains_lower query (matched_name m) = true ∧
  match matched_kind m with
  | MethodMatch => ∃ x, x ∈ constructors d ++ methods d ∧ matched_name m = member_name x ∧ matched_signature m = member_descriptor x
  | FieldMatch => ∃ x, x ∈ fields d ∧ matched_name m = member_name x ∧ matched_signature m = member_descriptor x
  | AnnotationMatch => annotated d (matched_signature m) (matched_name m)
  end.

Lemma annotation_matches_spec d annotations target query m :
  m ∈ collect_annotation_matches d annotations target query ↔
  matched_class m = described_class d ∧ matched_jar m = described_jar d ∧ matched_kind m = AnnotationMatch ∧
  contains_lower query (matched_name m) = true ∧ matched_name m ∈ annotations ∧ matched_signature m = target.
Proof.
  unfold collect_annotation_matches. rewrite list_elem_of_fmap. setoid_rewrite list_elem_of_filter. split.
  - by intros (a & -> & ? & ?).
  - destruct m as [c k n s j]; simpl. intros (-> & -> & -> & ? & ? & ->). by exists n.
Qed.

Lemma member_matches_spec d kind target query x m :
  m ∈ member_matches d kind target query x ↔
  (matched_class m = described_class d ∧ matched_jar m = described_jar d ∧ matched_kind m = kind ∧
   contains_lower query (matched_name m) = true ∧ matched_name m = member_name x ∧ matched_signature m = member_descriptor x) ∨
  (matched_class m = described_class d ∧ matched_jar m = described_jar d ∧ matched_kind m = AnnotationMatch ∧
   contains_lower query (matched_name m) = true ∧ matched_name m ∈ member_annotations x ∧ matched_signature m = target x).
Proof.
  unfold member_matches. rewrite elem_of_app, annotation_matches_spec. apply or_iff_compat_r.
  destruct m as [c k n s j]; simpl. destruct (contains_lower query (member_name x)) eqn:E.
  - rewrite list_elem_of_singleton. split; [intros [= -> -> -> -> ->]; by split_and!|by intros (-> & -> & -> & ? & -> & ->)].
  - rewrite elem_of_nil. split; [done|]. intros (_ & _ & _ & Hc & -> & _). congruence.
Qed.

Lemma collect_member_matches_spec d query m : m ∈ collect_member_matches d query ↔ matches_in d query m.
Proof.
  unfold collect_member_matches, matches_in, annotated. rewrite !elem_of_app, !list_elem_of_bind, annotation_matches_spec.
  setoid_rewrite member_matches_spec. destruct m as [c k n s j]; simpl. destruct k; naive_solver.
Qed.

(** A match in a class of a selected archive that can be opened and read. *)
Definition member_found (selector : option str) (query : str) (m : ClassMemberMatch) : Prop :=
  ∃ jar archive class_name d,
    jar ∈ binary_jars index selector ∧ open_classes (jar_path jar) = Some archive ∧ class_name ∈ jar_classes jar ∧
    read_class_description_from archive jar class_name (max_source_bytes index) false = Some d ∧ matches_in d query m.

Lemma jar_member_matches_spec query jar m :
  m ∈ jar_member_matches index query jar ↔ ∃ archive class_name d,
    open_classes (jar_path jar) = Some archive ∧ class_name ∈ jar_classes jar ∧
    read_class_description_from archive jar class_name (max_source_bytes index) false = Some d ∧ matches_in d query m.
Proof.
  unfold jar_member_matches. case_bool_decide as Hc.
  - rewrite elem_of_nil. split; [done|]. intros (? & ? & ? & _ & Hin & _). rewrite Hc in Hin. by apply elem_of_nil in Hin.
  - destruct (open_classes (jar_path jar)) as [archive|]; [|rewrite elem_of_nil; naive_solver].
    rewrite list_elem_of_bind. split.
    + intros (class_name & Hm & Hin). destruct (read_class_description_from _ _ _ _ _) as [d|] eqn:Ed; [|by apply elem_of_nil in Hm].
      exists archive, class_name, d. split_and!; [done..|]. by apply collect_member_matches_spec.
    + intros (? & class_name & d & [= <-] & Hin & Ed & Hm). exists class_name. split; [|done]. rewrite Ed.
      by apply collect_member_matches_spec.
Qed.

(** A search for members reports what the readable classes of the selected archives declare:
    the result is the beginning, as long as asked for and allowed, of one list in the order of
    archive, class, kind, name and signature, whose elements are exactly the methods, fields and
    annotations of those classes whose name contains the query in lower case. *)
Theorem search_members_exact query selector requested :
  max_results index ≠ 0 →
  ∃ all, search_class_members index query selector requested = Done (take (allowed index requested) all) ∧
    StronglySorted (λ a b, le_cmp (member_match_key a) (member_match_key b) = true) all ∧
    (∀ m, m ∈ all ↔ to_lowercase (trim query) ≠ [] ∧ member_found selector (to_lowercase (trim query)) m).
Proof.
  intros Hmax. unfold search_class_members. set (q := to_lowercase (trim query)). case_bool_decide as Hq.
  - exists []. rewrite take_nil. split; [done|]. split; [constructor|]. intros m. rewrite elem_of_nil. naive_solver.
  - destruct (limit_allowed index requested Hmax) as (n & -> & Hn & _ & _). cbn [mbind exec_bind]. rewrite Hn.
    eexists. split; [done|]. split; [apply sort_by_key_sorted|]. intros m. unfold sort_by_key. rewrite elem_of_sort_with, list_elem_of_bind.
    unfold member_found. setoid_rewrite jar_member_matches_spec. naive_solver.
Qed.
End MembersExact.

(** ** Describing a class *)

Section Describe.
Context `{Unicode, ClassArchives} (index : MavenIndex).

(** The archives a class name selects, in the order of its locations. *)
Fixpoint described_jars (selector wanted : option str) (locations : list nat) : exec (list JarRecord) :=
  match locations with
  | [] => mret []
  | i :: locations =>
      jar ← or_panic (jars index !! i);
      rest ← described_jars selector wanted locations;
      mret (if wanted_version jar selector wanted then jar :: rest else rest)
  end.
(** [collect] of the results: the first failure is the answer. *)
Definition read_descriptions (normalized : str) (public_only : bool) (l : list JarRecord) : option (list ClassDescription) :=
  mapM (λ jar, read_class_description jar normalized (max_source_bytes index) public_only) l.
Definition class_descriptions (class_name : str) (selector wanted : option str) (public_only : bool)
    : exec (option (list ClassDescription)) :=
  let normalized := normalize_class_query class_name in
  l ← described_jars selector wanted (default [] (class_locations index !! to_lowercase normalized));
  mret (read_descriptions normalized public_only l).

Lemma described_jars_spec selector wanted locations :
  Forall (λ i, is_Some (jars index !! i)) locations →
  described_jars selector wanted locations
  = Done (filter (λ jar, wanted_version jar selector wanted = true) (omap (λ i, jars index !! i) locations)).
Proof.
  induction 1 as [|i locations [jar Hi] _ IH]; [done|]. cbn [described_jars]. rewrite Hi. cbn [or_panic mbind exec_bind].
  rewrite IH. cbn [mbind exec_bind omap list_omap]. rewrite Hi, filter_cons. by destruct (wanted_version jar selector wanted).
Qed.

(** The descriptions of a class are one for each of its locations that is selected, in their
    order, or a failure when one of them cannot be read; none is left out. *)
Theorem descriptions_exact class_name selector wanted public_only :
  tables_exact index →
  let normalized := normalize_class_query class_name in
  let selected := filter (λ jar, wanted_version jar selector wanted = true)
    (omap (λ i, jars index !! i) (default [] (class_locations index !! to_lowercase normalized))) in
  let describe jar := read_class_description jar normalized (max_source_bytes index) public_only in
  wp (class_descriptions class_name selector wanted public_only) (λ r,
    match r with
    | Some l => Forall2 (λ jar d, describe jar = Some d) selected l
    | None => Exists (λ jar, describe jar = None) selected
    end).
Proof.
  intros Ht normalized selected describe. unfold class_descriptions. fold normalized.
  rewrite described_jars_spec.
  - cbn [mbind exec_bind]. fold selected. apply wp_mret. unfold read_descriptions.
    destruct (mapM _ selected) as [l|] eqn:E; [by apply mapM_Some in E|by apply mapM_None in E].
  - apply Forall_forall. intros i Hi. apply (exact_locations _ Ht) in Hi as (jar & _ & Hj & _). by exists jar.
Qed.
End Describe.

(** ** Samples *)

#[local] Instance plain_repository : RepositoryFiles := {|
  canonicalize p := inl p;
  symlink_metadata _ := inl false;
  read_link _ := None;
|}.
#[local] Instance sample_jars : JarFiles := {|
  file_bytes _ := Some (zip_file [1; 2; 3] [sample_entry]);
  archive_names _ := Some [lit "a/B.class"];
  archive_text _ _ := None;
  jar_is_file _ := true;
|}.
Definition method_named (name : str) (flags : N) : MemberInfo :=
  {| info_name := name; info_descriptor := lit "()V"; info_flags := flags; info_attributes := [RuntimeVisibleAnnotations [lit "La/Api;"]] |}.
(** Version 1.7 of [a.B] has a public [f] and a private [g]; in any other version [f] is protected
    and [g] public. *)
#[local] Instance sample_versions : ClassArchives := {|
  open_classes p := Some {|
    entry_size _ := Some 100;
    parse_class _ := Some {| major_version := 65; class_flags := 33; this_class := lit "a/B"; super_class := None; interfaces := [];
                             class_fields := [];
                             class_methods := if bool_decide (last p = Some (lit "api-1.7.jar"))
                                              then [method_named (lit "f") 1; method_named (lit "g") 2]
                                              else [method_named (lit "f") 4; method_named (lit "g") 1];
                             constantpool := []; ClassFacts.attributes := [] |};
    read_text _ _ := None;
  |};
|}.

#[local] Instance uninterrupted : Cancellation := λ _ _, false.
Example compare_sample :
  compare_artifact_api_at sample_budget [lit "repo"] 1000 (lit "org.slf4j") (lit "api") (lit "1.7") (lit "1.8")
  = Done (inl {| diff_group_id := lit "org.slf4j"; diff_artifact_id := lit "api";
                 diff_previous_version := lit "1.7"; diff_current_version := lit "1.8"; api_diff :=
              {| added_classes := []; removed_classes := [];
                 changed_classes := [{| changed_class := lit "a.B"; added_members := [lit "method:g()V"]; removed_members := [];
                                        previous_super_class := None; current_super_class := None;
                                        added_interfaces := []; removed_interfaces := [] |}] |} |}).
Proof. vm_compute. reflexivity. Qed.

Lemma search_members_exact_witness :
  max_results (sample_index [lit "a.B"]) ≠ 0 ∧
  ∃ all, @search_class_members ascii_only sample_versions (sample_index [lit "a.B"]) (lit " API ") None (Some 1)
         = Done (take 1 all) ∧ matched_signature <$> take 1 all = [lit "method:f()V"].
Proof.
  assert (Hm : max_results (sample_index [lit "a.B"]) ≠ 0) by discriminate. split; [exact Hm|].
  destruct (@search_members_exact ascii_only sample_versions (sample_index [lit "a.B"]) (lit " API ") None (Some 1) Hm)
    as (all & Hr & _).
  exists all. split; [exact Hr|]. assert (Hc := Hr). vm_compute in Hc. injection Hc as Hc. destruct all as [|m all]; [discriminate|].
  injection Hc as <-. vm_compute. reflexivity.
Defined.

(** Every leading [L] of a type descriptor is stripped, not only the marker of a class type. *)
Example annotation_loses_letter :
  annotation_name (lit "LLogged;") = lit "ogged" ∧ annotation_name (lit "La/Logged;") = lit "a.Logged".
Proof. split; reflexivity. Qed.
