(* ===== verification/Health.v ===== *)
(** * Health: what the local repository holds of an artifact

    Models [MavenIndex::artifact_health_at] of [src/index.rs]: the files of the directory of an
    exact version are told apart as checksums, markers of failed updates, the list of remote
    repositories, and the files of the artifact.  Reading directories is a class. *)

From S2P Require Import Prelude.
From S2P Require Import Text.
From S2P Require Import TextSearch.
From S2P Require Import Paths.
From S2P Require Import Ordering.
From S2P Require Import Artifacts.

Open Scope N_scope.

(** ** The health of an artifact directory *)

(** An entry of a directory: whether it is a regular file, its name, its text when it can be read
    as UTF-8, and whether it opens as a ZIP archive. *)
Record HealthEntry := {
  health_is_file : option bool;
  health_name : str;
  health_text : option str;
  health_opens_as_zip : bool;
}.
(** [is_dir] and [read_dir], whose every entry may fail. *)
Class ArtifactDirectories := {
  is_dir : path → bool;
  read_dir : path → option (list (option HealthEntry));
}.
Record ArtifactHealth := {
  health_coordinate : str;
  found : bool;
  snapshot : bool;
  files : list ArtifactFileStatus;
  checksums : list str;
  last_updated_markers : list str;
  repository_ids : list str;
}.
Inductive HealthError := BadArtifact | OutsidePath (e : ArtifactPathError) | CannotList.

(** The four accumulators of the loop over the directory. *)
Abbreviation HealthParts := (list ArtifactFileStatus * list str * list str * list str)%type (only parsing).

(** A line [name>repository=] of [_remote.repositories]. *)
Definition repository_id_of (line : str) : option str :=
  if starts_with (lit "#") (trim_start line) then None
  else
    '(_, repository) ← split_once (ch ">") line;
    '(repository_id, _) ← split_once (ch "=") repository;
    if bool_decide (trim repository_id = []) then None else Some (trim repository_id).

Definition add_repository_ids (text : str) (ids : list str) : list str :=
  foldl (λ ids line, match repository_id_of line with Some id => set_insert id ids | None => ids end) ids (lines text).

Definition health_entry (key : ArtifactKey) (parts : HealthParts) (e : option HealthEntry) : HealthParts + HealthError :=
  let '(files, checksums, markers, ids) := parts in
  match e with
  | None => inr CannotList
  | Some e =>
      match health_is_file e with
      | None => inr CannotList
      | Some false => inl parts
      | Some true =>
          let file_name := health_name e in
          if is_checksum_file file_name then inl (files, checksums ++ [file_name], markers, ids)
          else if ends_with (lit ".lastUpdated") file_name then inl (files, checksums, markers ++ [file_name], ids)
          else if bool_decide (file_name = lit "_remote.repositories") then
            match health_text e with
            | None => inr CannotList
            | Some text => inl (files, checksums, markers, add_repository_ids text ids)
            end
          else
            match artifact_file_status key file_name (health_opens_as_zip e) with
            | Some status => inl (files ++ [status], checksums, markers, ids)
            | None => inl parts
            end
      end
  end.

Fixpoint health_entries (key : ArtifactKey) (parts : HealthParts) (entries : list (option HealthEntry)) : HealthParts + HealthError :=
  match entries with
  | [] => inl parts
  | e :: entries =>
      match health_entry key parts e with
      | inl parts => health_entries key parts entries
      | inr e => inr e
      end
  end.

(** The derived order of [ArtifactFileStatus]. *)
Definition status_key (s : ArtifactFileStatus) : str * (str * (option str * option bool)) :=
  (status_file_name s, (status_kind s, (status_classifier s, Artifacts.readable s))).

Definition artifact_health_at `{RepositoryFiles, ArtifactDirectories} (root : path) (coordinate : str) : ArtifactHealth + HealthError :=
  match parse_exact_coordinate coordinate with
  | None => inr BadArtifact
  | Some key =>
      let coordinate := group_id key ++ lit ":" ++ artifact_id key ++ lit ":" ++ version key in
      let snapshot := ends_with (lit "-SNAPSHOT") (version key) in
      match contained_artifact_path root key None with
      | inr e => inr (OutsidePath e)
      | inl directory =>
          match d ← directory; if is_dir d then Some d else None with
          | None => inl {| health_coordinate := coordinate; found := false; snapshot := snapshot; files := [];
                           checksums := []; last_updated_markers := []; repository_ids := [] |}
          | Some directory =>
              match read_dir directory with
              | None => inr CannotList
              | Some entries =>
                  match health_entries key ([], [], [], []) entries with
                  | inr e => inr e
                  | inl (files, checksums, markers, ids) =>
                      inl {| health_coordinate := coordinate; found := true; snapshot := snapshot;
                             files := sort_by_key status_key files; checksums := sort checksums;
                             last_updated_markers := sort markers; repository_ids := ids |}
                  end
              end
          end
      end
  end.

(** ** The report is exact *)

(** What an entry of the directory is: at most one of these. *)
Inductive EntryRole :=
| Checksum (file_name : str)
| Marker (file_name : str)
| Remotes (text : str)
| ArtifactFile (status : ArtifactFileStatus)
| Ignored.

(** The role of a listed entry; [None] when it cannot be told. *)
Definition role_of (key : ArtifactKey) (e : HealthEntry) : option EntryRole :=
  is_file ← health_is_file e;
  if negb is_file then Some Ignored
  else if is_checksum_file (health_name e) then Some (Checksum (health_name e))
  else if ends_with (lit ".lastUpdated") (health_name e) then Some (Marker (health_name e))
  else if bool_decide (health_name e = lit "_remote.repositories") then Remotes <$> health_text e
  else Some (match artifact_file_status key (health_name e) (health_opens_as_zip e) with
             | Some status => ArtifactFile status | None => Ignored end).

Definition roles (key : ArtifactKey) (entries : list (option HealthEntry)) : list EntryRole :=
  omap (λ e, e ← e; role_of key e) entries.
Definition role_known (key : ArtifactKey) (e : option HealthEntry) : Prop := is_Some (e ← e; role_of key e).

Definition checksum_names (l : list EntryRole) : list str := omap (λ r, match r with Checksum n => Some n | _ => None end) l.
Definition marker_names (l : list EntryRole) : list str := omap (λ r, match r with Marker n => Some n | _ => None end) l.
Definition file_statuses (l : list EntryRole) : list ArtifactFileStatus :=
  omap (λ r, match r with ArtifactFile s => Some s | _ => None end) l.
Definition remote_texts (l : list EntryRole) : list str := omap (λ r, match r with Remotes t => Some t | _ => None end) l.

Lemma health_entry_role key files checksums markers ids e :
  health_entry key (files, checksums, markers, ids) e =
  match e ← e; role_of key e with
  | None => inr CannotList
  | Some r => inl (files ++ file_statuses [r], checksums ++ checksum_names [r], markers ++ marker_names [r],
                   foldl (λ ids text, add_repository_ids text ids) ids (remote_texts [r]))
  end.
Proof.
  destruct e as [e|]; [|done]. unfold health_entry, role_of. simpl.
  destruct (health_is_file e) as [[]|]; simpl; [|by rewrite !app_nil_r|done].
  repeat case_match; simplify_eq/=; rewrite ?app_nil_r; done.
Qed.

Lemma health_entries_spec key files checksums markers ids entries :
  match health_entries key (files, checksums, markers, ids) entries with
  | inl parts => Forall (role_known key) entries ∧ let l := roles key entries in
      parts = (files ++ file_statuses l, checksums ++ checksum_names l, markers ++ marker_names l,
               foldl (λ ids text, add_repository_ids text ids) ids (remote_texts l))
  | inr e => e = CannotList ∧ ¬ Forall (role_known key) entries
  end.
Proof.
  revert files checksums markers ids. induction entries as [|e entries IH]; intros files checksums markers ids; cbn [health_entries].
  { split; [constructor|]. simpl. by rewrite !app_nil_r. }
  rewrite health_entry_role. unfold roles. cbn [omap list_omap]. destruct (e ← e; role_of key e) as [r|] eqn:E.
  - match goal with |- context [health_entries key (?f, ?c, ?m, ?i) _] => specialize (IH f c m i) end.
    destruct (health_entries key _ entries) as [parts|err].
    + destruct IH as [Hall ->]. split; [constructor; [by exists r|done]|]. fold (roles key entries).
      rewrite <- !app_assoc. destruct r; done.
    + destruct IH as [-> Hn]. split; [done|]. by intros [_ ?]%Forall_cons.
  - split; [done|]. intros [[r Hr] _]%Forall_cons. congruence.
Qed.

(** A repository named on a line of a text. *)
Definition names_repository (text id : str) : Prop := ∃ line, line ∈ lines text ∧ repository_id_of line = Some id.

Lemma add_repository_ids_spec text ids :
  (StronglySorted lt_cmp ids → StronglySorted lt_cmp (add_repository_ids text ids)) ∧
  ∀ id, id ∈ add_repository_ids text ids ↔ id ∈ ids ∨ names_repository text id.
Proof.
  unfold add_repository_ids, names_repository. generalize (lines text). intros l. revert ids.
  induction l as [|line l IH]; intros ids; simpl; [set_solver|].
  match goal with |- context [foldl _ ?i l] => destruct (IH i) as [Hs Hin] end. split.
  - intros Hids. apply Hs. case_match; [by apply set_insert_sorted|done].
  - intros id. rewrite Hin. destruct (repository_id_of line) as [x|] eqn:E; [rewrite elem_of_set_insert|]; set_solver.
Qed.

Lemma remote_ids_spec texts ids :
  StronglySorted lt_cmp ids →
  let r := foldl (λ ids text, add_repository_ids text ids) ids texts in
  StronglySorted lt_cmp r ∧ ∀ id, id ∈ r ↔ id ∈ ids ∨ ∃ text, text ∈ texts ∧ names_repository text id.
Proof.
  revert ids. induction texts as [|text texts IH]; intros ids Hids; simpl; [set_solver|].
  destruct (add_repository_ids_spec text ids) as [Hs Hin]. destruct (IH _ (Hs Hids)) as [Hs' Hin']. split; [done|].
  intros id. rewrite Hin', Hin. set_solver.
Qed.

Section HealthExact.
Context `{RepositoryFiles, ArtifactDirectories} (root : path).

(** What a report must say of an exact version. *)
Definition health_reported (key : ArtifactKey) (r : ArtifactHealth + HealthError) : Prop :=
  match r with
  | inl h =>
      health_coordinate h = group_id key ++ lit ":" ++ artifact_id key ++ lit ":" ++ version key ∧
      snapshot h = ends_with (lit "-SNAPSHOT") (version key) ∧
      if found h then
        ∃ canonical_root directory entries, canonicalize root = inl canonical_root ∧
          path_starts_with canonical_root directory = true ∧ is_dir directory = true ∧ read_dir directory = Some entries ∧
          Forall (role_known key) entries ∧
          let l := roles key entries in
          (files h ≡ₚ file_statuses l ∧ StronglySorted (λ a b, le_cmp (status_key a) (status_key b) = true) (files h)) ∧
          (checksums h ≡ₚ checksum_names l ∧ StronglySorted (λ a b, le_cmp a b = true) (checksums h)) ∧
          (last_updated_markers h ≡ₚ marker_names l ∧ StronglySorted (λ a b, le_cmp a b = true) (last_updated_markers h)) ∧
          (StronglySorted lt_cmp (repository_ids h) ∧
           ∀ id, id ∈ repository_ids h ↔ ∃ text, text ∈ remote_texts l ∧ names_repository text id)
      else
        ∀ directory, contained_artifact_path root key None = inl (Some directory) → is_dir directory = false
  | inr BadArtifact => False
  | inr (OutsidePath e) => contained_artifact_path root key None = inr e
  | inr CannotList => ∃ directory, contained_artifact_path root key None = inl (Some directory) ∧
      (read_dir directory = None ∨ ∃ entries, read_dir directory = Some entries ∧ ¬ Forall (role_known key) entries)
  end.

(** A report on an exact version accounts for its directory: the directory read resolves below
    the root of the repository, every entry of it could be told, and each regular file is listed
    in one part by its role, sorted and with nothing else: the checksums, the markers of failed
    updates, and the files of the artifact; the remote repositories are exactly those named by
    the lines of [_remote.repositories], once each; a version without a directory is reported as
    not found, and every error names a reason that holds. *)
Theorem health_exact coordinate :
  match parse_exact_coordinate coordinate with
  | None => artifact_health_at root coordinate = inr BadArtifact
  | Some key => health_reported key (artifact_health_at root coordinate)
  end.
Proof.
  unfold artifact_health_at. destruct (parse_exact_coordinate coordinate) as [key|]; [|done]. cbv zeta.
  destruct (contained_artifact_path root key None) as [d|e] eqn:Hd; [|done].
  assert (Hnone : ∀ directory, d = Some directory → is_dir directory = false → (d ≫= λ d, if is_dir d then Some d else None) = None).
  { intros ? -> E. simpl. by rewrite E. }
  destruct d as [directory|]; simpl; [destruct (is_dir directory) eqn:Hdir|].
  - destruct (read_dir directory) as [entries|] eqn:Hr; [|by exists directory; eauto].
    pose proof (health_entries_spec key [] [] [] [] entries) as Hs.
    destruct (health_entries key ([], [], [], []) entries) as [parts|e].
    + destruct Hs as [Hall ->]. cbn [app]. split; [done|]. split; [done|]. cbn [found].
      destruct (contained_below _ _ _ _ Hd) as (canonical_root & Hroot & Hbelow). exists canonical_root, directory, entries.
      repeat (split; [done|]). cbv zeta. cbn [files checksums last_updated_markers repository_ids].
      split; [split; [apply sort_with_perm|apply sort_by_key_sorted]|].
      split; [split; [apply sort_with_perm|apply sort_sorted]|]. split; [split; [apply sort_with_perm|apply sort_sorted]|].
      destruct (remote_ids_spec (remote_texts (roles key entries)) []) as [Hs Hin]; [constructor|]. split; [done|].
      intros id. rewrite Hin, elem_of_nil. naive_solver.
    + destruct Hs as [-> Hn]. exists directory. eauto.
  - split; [done|]. split; [done|]. cbn [found]. rewrite Hd. by intros ? [= <-].
  - split; [done|]. split; [done|]. cbn [found]. by rewrite Hd.
Qed.
End HealthExact.

(** ** Samples *)

#[local] Instance plain_repository : RepositoryFiles := {|
  canonicalize p := inl p;
  symlink_metadata _ := inl false;
  read_link _ := None;
|}.
Definition regular (name text : str) : option HealthEntry :=
  Some {| health_is_file := Some true; health_name := name; health_text := Some text; health_opens_as_zip := true |}.
#[local] Instance sample_directory : ArtifactDirectories := {|
  is_dir _ := true;
  read_dir _ := Some [regular (lit "api-1.7.jar") []; regular (lit "api-1.7.jar.sha1") [];
                      regular (lit "api-1.7-sources.jar.lastUpdated") [];
                      regular (lit "_remote.repositories")
                        (lit "#NOTE: file" ++ [10] ++ lit "api-1.7.jar>central=" ++ [10] ++ lit "api-1.7.pom>=")];
|}.
Example health_sample :
  artifact_health_at [lit "repo"] (lit "org.slf4j:api:1.7")
  = inl {| health_coordinate := lit "org.slf4j:api:1.7"; found := true; snapshot := false;
           files := [{| status_file_name := lit "api-1.7.jar"; status_kind := lit "jar"; status_classifier := None;
                        Artifacts.readable := Some true |}];
           checksums := [lit "api-1.7.jar.sha1"]; last_updated_markers := [lit "api-1.7-sources.jar.lastUpdated"];
           repository_ids := [lit "central"] |}.
Proof. vm_compute. reflexivity. Qed.
