(* ===== verification/MavenEnvironment.v ===== *)
(** * MavenEnvironment: the part of the environment that can change a classpath

    Models [src/index_cache/maven_environment.rs]: which variables a configuration file references,
    which variables take part in the identity of a classpath, and the digest of their values.
    Files are byte strings; an [OsString] is its bytes, as on Unix. *)

From S2P Require Import Prelude.
From S2P Require Import Text.
From S2P Require Import TextSearch.
From S2P Require Import Paths.
From S2P Require Import Ordering.
From S2P Require Import Utf8.
From S2P Require Import ClassEntries.

Open Scope N_scope.

Abbreviation byte := N (only parsing).
Abbreviation bytes := (list N) (only parsing).

(** ** References in a file *)

Definition is_ascii_alphanumeric (b : byte) : bool := is_ascii_alphabetic b || is_ascii_digit b.
Definition is_property_byte (b : byte) : bool :=
  is_ascii_alphanumeric b || (b =? ch "_") || (b =? ch ".") || (b =? ch "-").
Definition ENV_PROPERTY_PREFIX : bytes := lit "env.".

(** The longest prefix of bytes that satisfy a test. *)
Fixpoint take_while (p : byte → bool) (l : bytes) : bytes :=
  match l with
  | [] => []
  | x :: l => if p x then x :: take_while p l else []
  end.

Definition property_name (text : bytes) : option str :=
  match from_utf8 (take_while is_property_byte text) with
  | inr _ => None
  | inl name =>
      let name := trim_end_matches (λ c, (c =? ch ".") || (c =? ch "-")) name in
      if bool_decide (name = []) then None else Some name
  end.

(** A set of names, a [BTreeSet]. *)
Definition name_set (names : list str) : list str := foldr set_insert [] names.

(** No property byte comes before an index. *)
Definition not_continued (text : bytes) (index : nat) : bool :=
  match index with
  | O => true
  | S before => match text !! before with Some b => negb (is_property_byte b) | None => false end
  end.
(** The reference that starts at an index of the text, if any. *)
Definition literal_reference (text : bytes) (index : nat) : option str :=
  if bool_decide (take 4 (drop index text) = ENV_PROPERTY_PREFIX) && not_continued text index
  then property_name (drop (index + 4) text)
  else None.
(** [windows(4)] has [len - 3] elements, or none. *)
Definition literal_env_references (text : bytes) : list str :=
  name_set (omap (literal_reference text) (seq 0 (length text - 3))).

(** *** XML references *)

Inductive XmlReference := XCharacter (c : char) | UnknownEntity | Literal.

(** [u32::from_str_radix]. *)
Definition from_str_radix (b max : N) (s : str) : option N :=
  let s := match s with 43 :: s' => s' | _ => s end in
  match s with
  | [] => None
  | _ =>
      n ← digits_value b 0 s;
      if n <=? max then Some n else None
  end.
(** [char::from_u32]. *)
Definition from_u32 (n : N) : option char := if scalar n then Some n else None.

Definition is_entity_name (name : str) : bool :=
  negb (bool_decide (name = []))
  && forallb (λ b, is_ascii_alphanumeric b || (b =? ch "_") || (b =? ch "-") || (b =? ch ".") || (b =? ch ":")) name.

Definition character_reference (code : option N) : XmlReference :=
  match c ← code; from_u32 c with Some c => XCharacter c | None => Literal end.

Definition xml_reference (body : bytes) : XmlReference :=
  match from_utf8 body with
  | inr _ => Literal
  | inl body =>
      match strip_prefix (lit "#x") body with
      | Some hexadecimal => character_reference (from_str_radix 16 u32_max hexadecimal)
      | None =>
          match strip_prefix (lit "#") body with
          | Some decimal => character_reference (parse_unsigned u32_max decimal)
          | None =>
              if bool_decide (body = lit "lt") then XCharacter (ch "<")
              else if bool_decide (body = lit "gt") then XCharacter (ch ">")
              else if bool_decide (body = lit "amp") then XCharacter (ch "&")
              else if bool_decide (body = lit "quot") then XCharacter 34
              else if bool_decide (body = lit "apos") then XCharacter (ch "'")
              else if is_entity_name body then UnknownEntity
              else Literal
          end
      end
  end.

Definition MAX_XML_REFERENCE_BYTES : nat := 32.

(** [iter().position]. *)
Definition position (b : byte) (l : bytes) : option nat := fst <$> list_find (λ x, x = b) l.

(** A turn of the loop: what is decoded and what is left. *)
Definition decode_turn (s : bytes * bytes) : exec (turn (bytes * bytes) (option bytes)) :=
  let '(decoded, rest) := s in
  match position 38 rest with
  | None => mret (Break (Some (decoded ++ rest)))
  | Some ampersand =>
      let decoded := decoded ++ take ampersand rest in
      let rest := drop ampersand rest in
      let end_ := position 59 (take MAX_XML_REFERENCE_BYTES rest) in
      match (λ e, (e, xml_reference (drop 1 (take e rest)))) <$> end_ with
      | Some (e, XCharacter character) => mret (Continue (decoded ++ utf8_char character, drop (e + 1) rest))
      | Some (_, UnknownEntity) => mret (Break None)
      | Some (_, Literal) | None => mret (Continue (decoded ++ [38], drop 1 rest))
      end
  end.
Definition decode_xml_references (text : bytes) : exec (option bytes) :=
  loop (S (length text)) decode_turn ([], text).

Definition env_references (text : bytes) : exec (option (list str)) :=
  decoded ← decode_xml_references text;
  mret match decoded with
       | None => None
       | Some decoded => Some (foldr set_insert (literal_env_references decoded) (literal_env_references text))
       end.

(** *** Shell references *)

Definition shell_name (text : bytes) : option str :=
  match text with
  | [] => None
  | first :: _ =>
      if negb (is_ascii_alphabetic first || (first =? ch "_")) then None
      else match from_utf8 (take_while (λ b, is_ascii_alphanumeric b || (b =? ch "_")) text) with
           | inl name => Some name
           | inr _ => None
           end
  end.
Definition shell_reference (text : bytes) (index : nat) : option str :=
  if bool_decide (text !! index = Some (ch "$")) then
    let after := drop (index + 1) text in
    shell_name (match after with b :: rest => if b =? ch "{" then rest else after | [] => after end)
  else None.
Definition shell_references (text : bytes) : list str :=
  name_set (omap (shell_reference text) (seq 0 (length text))).

(** ** Files that are scanned *)

(** What a file holds: missing, unreadable, or its bytes. *)
Inductive ScannedFile := Missing | CannotRead | Holds (content : bytes).
Class ScannedFiles := scanned : path → ScannedFile.

Definition MAX_SCANNED_FILE_BYTES : N := 16 * 2 ^ 20.

Record ReferenceFiles := {
  interpolated : list path;
  shell : list path;
}.

Section Scan.
Context `{ScannedFiles}.

(** At most one byte more than the limit is read. *)
Definition scanned_content (p : path) : option bytes :=
  match scanned p with
  | Missing => Some []
  | CannotRead => None
  | Holds content =>
      let content := take (N.to_nat (MAX_SCANNED_FILE_BYTES + 1)) content in
      if N.of_nat (length content) <=? MAX_SCANNED_FILE_BYTES then Some content else None
  end.

Definition of_project (root : path) (reactor_poms installation : list path) (home : option path) : ReferenceFiles :=
  let jvm_config := root ++ [lit ".mvn"; lit "jvm.config"] in
  let configuration_directories :=
    option_list ((λ home, home ++ [lit ".m2"]) <$> home) ++ filter (λ d, last d = Some (lit "conf")) installation in
  {| interpolated := reactor_poms ++ [root ++ [lit ".mvn"; lit "maven.config"]; jvm_config]
       ++ (configuration_directories ≫= λ d, [d ++ [lit "settings.xml"]; d ++ [lit "toolchains.xml"]]);
     shell := [[lit "etc"; lit "mavenrc"]; jvm_config] ++ option_list ((λ home, home ++ [lit ".mavenrc"]) <$> home) |}.

Fixpoint add_references (references : bytes → exec (option (list str))) (paths : list path) (names : list str)
    : exec (option (list str)) :=
  match paths with
  | [] => mret (Some names)
  | p :: paths =>
      match scanned_content p with
      | None => mret None
      | Some content =>
          found ← references content;
          match found with
          | None => mret None
          | Some found => add_references references paths (foldr set_insert names found)
          end
      end
  end.

Definition referenced_names (files : ReferenceFiles) : exec (option (list str)) :=
  names ← add_references env_references (interpolated files) [];
  match names with
  | None => mret None
  | Some names => add_references (λ content, mret (Some (shell_references content))) (shell files) names
  end.
End Scan.

(** ** Variables that take part *)

Definition MAVEN_ENVIRONMENT_NAMES : list str :=
  lit <$> ["HOME"; "JAVA_HOME"; "JAVA_TOOL_OPTIONS"; "JDK_JAVA_OPTIONS"; "M2_HOME"; "PATH"]%string.
Definition MAVEN_ENVIRONMENT_PREFIXES : list str := lit <$> ["MAVEN_"; "MVNW_"; "JENV_"]%string.
Definition PROXY_SUFFIXES : list str := lit <$> ["_PROXY"; "_proxy"]%string.
Definition SERVER_ONLY_ENVIRONMENT : list str :=
  lit <$> ["MAX_RESULTS"; "MAX_SOURCE_BYTES"; "MAX_PROJECT_INDEXES"; "MAX_PROJECT_INDEX_BYTES"; "MAX_HEAVY_JOBS";
           "MAX_QUEUED_HEAVY_JOBS"; "MAX_XML_BYTES"; "MAX_JAR_ENTRIES"; "MAX_INDEX_ENTRIES"; "MAX_INDEX_NAME_BYTES";
           "MAX_INDEX_CACHE_BYTES"; "MAX_MAVEN_OUTPUT_BYTES"; "MAX_MCP_RESPONSE_BYTES"; "MAX_MCP_RESULT_CACHE_BYTES";
           "MAVEN_TIMEOUT_SECONDS"; "MAVEN_MCP_INDEX_CACHE"; "MAVEN_MCP_CACHE_DIR"; "MAVEN_MCP_RUNTIME_DIR"; "RUST_LOG"]%string.

Definition takes_part (name : str) (referenced : option (list str)) : bool :=
  if bool_decide (name ∈ SERVER_ONLY_ENVIRONMENT) then false
  else match referenced with
       | None => true
       | Some referenced =>
           bool_decide (name ∈ MAVEN_ENVIRONMENT_NAMES)
           || existsb (λ prefix, starts_with prefix name) MAVEN_ENVIRONMENT_PREFIXES
           || existsb (λ suffix, ends_with suffix name) PROXY_SUFFIXES
           || bool_decide (name ∈ referenced)
       end.

(** ** Digests *)

Definition FNV_OFFSET : N := 14695981039346656037.
Definition FNV_PRIME : N := 1099511628211.

Definition fnv_byte (hash b : N) : N := (N.lxor hash b * FNV_PRIME) mod 2 ^ 64.
(** [fnv1a]: the bytes, then a separator. *)
Definition fnv1a (hash : N) (l : bytes) : N := foldl fnv_byte hash (l ++ [255]).

(** Variables by name; of two with one name the later counts. *)
Abbreviation variables := (list (bytes * bytes)) (only parsing).
Definition collect_variables (l : variables) : gmap bytes bytes := foldl (λ m p, <[p.1 := p.2]> m) ∅ l.

Definition selection_digest (selected : gmap bytes bytes) : N :=
  let names := foldl (λ hash p, fnv1a hash p.1) FNV_OFFSET (sorted_entries selected) in
  foldl (λ hash p, fnv1a (fnv1a hash p.1) p.2) (fnv1a names []) (sorted_entries selected).

(** [OsStr::to_str]. *)
Definition to_str (name : bytes) : option str := match from_utf8 name with inl s => Some s | inr _ => None end.

Definition variable_takes_part (referenced : option (list str)) (name : bytes) : bool :=
  match to_str name with
  | Some name => takes_part name referenced
  | None => match referenced with None => true | Some _ => false end
  end.
Definition environment_digest (l : variables) (referenced : option (list str)) : N :=
  selection_digest (collect_variables (filter (λ p, variable_takes_part referenced p.1 = true) l)).

Definition variable_referenced (referenced : list str) (name : bytes) : bool :=
  match to_str name with
  | Some name => bool_decide (name ∈ referenced) && negb (bool_decide (name ∈ SERVER_ONLY_ENVIRONMENT))
  | None => false
  end.
Definition referenced_digest (l : variables) (referenced : list str) : N :=
  selection_digest (collect_variables (filter (λ p, variable_referenced referenced p.1 = true) l)).

(** ** Lemmas: names in a text *)

Lemma take_while_split (p : byte → bool) l : ∃ rest, l = take_while p l ++ rest ∧
  Forall (λ b, p b = true) (take_while p l) ∧ (∀ b, head rest = Some b → p b = false).
Proof.
  induction l as [|x l (rest & Hl & Hall & Hrest)]; simpl; [by exists []|].
  destruct (p x) eqn:E; [|exists (x :: l); split_and!; [done|done|by intros b [= <-]]].
  exists rest. split_and!; [by rewrite Hl at 1|by constructor|done].
Qed.

Lemma take_while_app (p : byte → bool) word rest :
  Forall (λ b, p b = true) word → (∀ b, head rest = Some b → p b = false) → take_while p (word ++ rest) = word.
Proof.
  induction 1 as [|x word Hx _ IH]; intros Hrest; simpl; [|by rewrite Hx, IH].
  destruct rest as [|y rest]; [done|]. simpl. by rewrite (Hrest y eq_refl).
Qed.

Lemma from_utf8_ascii l : Forall (λ b, b < 128) l → from_utf8 l = inl l.
Proof.
  intros Hl. apply from_utf8_exact. split.
  - induction Hl as [|b l Hb _ IH]; [done|]. rewrite utf8_cons, <- IH. unfold utf8_char. by destruct (N.ltb_spec b 128); [|lia].
  - eapply Forall_impl; [exact Hl|]. intros b Hb. apply scalar_spec. cbv beta in Hb. lia.
Qed.

Lemma alphanumeric_ascii b : is_ascii_alphanumeric b = true → b < 128.
Proof.
  unfold is_ascii_alphanumeric, is_ascii_alphabetic, is_ascii_uppercase, is_ascii_lowercase, is_ascii_digit.
  rewrite !orb_true_iff, !between_spec. lia.
Qed.
Lemma property_byte_ascii b : is_property_byte b = true → b < 128.
Proof.
  unfold is_property_byte. rewrite !orb_true_iff, !N.eqb_eq. intros [[[H| ->]| ->]| ->]; [by apply alphanumeric_ascii|done..].
Qed.
Lemma Forall_ascii (p : byte → bool) l : (∀ b, p b = true → b < 128) → Forall (λ b, p b = true) l → Forall (λ b, b < 128) l.
Proof. intros Hp Hl. eapply Forall_impl; [exact Hl|]. auto. Qed.

Lemma name_set_spec l : StronglySorted lt_cmp (name_set l) ∧ ∀ x, x ∈ name_set l ↔ x ∈ l.
Proof.
  unfold name_set. induction l as [|y l [Hs Hin]]; simpl; [split; [constructor|done]|].
  split; [by apply set_insert_sorted|]. intros x. by rewrite elem_of_set_insert, elem_of_cons, Hin.
Qed.
Lemma elem_of_insert_all (l k : list str) x : x ∈ foldr set_insert k l ↔ x ∈ l ∨ x ∈ k.
Proof. induction l as [|y l IH]; simpl; [set_solver|]. rewrite elem_of_set_insert, elem_of_cons, IH. tauto. Qed.

(** A run of bytes that satisfy a test is ended by the text or a byte that does not. *)
Definition run (p : byte → bool) (word rest : bytes) : Prop :=
  Forall (λ b, p b = true) word ∧ ∀ b, head rest = Some b → p b = false.
Definition trimmed_name (word : bytes) : str := trim_end_matches (λ c, (c =? ch ".") || (c =? ch "-")) word.

Lemma property_name_spec text name :
  property_name text = Some name ↔
  ∃ word rest, text = word ++ rest ∧ run is_property_byte word rest ∧ name = trimmed_name word ∧ name ≠ [].
Proof.
  unfold property_name. destruct (take_while_split is_property_byte text) as (rest & Htext & Hall & Hrest).
  rewrite from_utf8_ascii by (by eapply Forall_ascii; [apply property_byte_ascii|]). cbv zeta.
  fold (trimmed_name (take_while is_property_byte text)). split.
  - case_bool_decide; [done|]. intros [= <-]. exists (take_while is_property_byte text), rest. by split_and!.
  - intros (word & rest' & -> & [Hw Hr] & -> & Hne). rewrite take_while_app by done. by rewrite bool_decide_eq_false_2.
Qed.

(** A text mentions a variable: [env.] that does not continue a property name, followed by the
    longest run of property bytes, without its trailing dots and hyphens. *)
Definition mentions_env (text : bytes) (name : str) : Prop :=
  ∃ before word rest, text = before ++ ENV_PROPERTY_PREFIX ++ word ++ rest ∧
    (∀ b, last before = Some b → is_property_byte b = false) ∧ run is_property_byte word rest ∧
    name = trimmed_name word ∧ name ≠ [].

Lemma last_take_lookup {A} (l : list A) i b : l !! i = Some b → last (take (S i) l) = Some b.
Proof. intros Hi. by rewrite (take_S_r _ _ _ Hi), last_snoc. Qed.

Lemma not_continued_spec text index : (index ≤ length text)%nat →
  not_continued text index = true ↔ (∀ b, last (take index text) = Some b → is_property_byte b = false).
Proof.
  intros Hlen. destruct index as [|before]; [done|]. cbn [not_continued].
  destruct (lookup_lt_is_Some_2 text before) as [b E]; [lia|].
  rewrite E, (last_take_lookup _ _ _ E), negb_true_iff. naive_solver.
Qed.

Lemma literal_reference_spec text index name :
  literal_reference text index = Some name ↔
  ∃ word rest, drop index text = ENV_PROPERTY_PREFIX ++ word ++ rest ∧
    (∀ b, last (take index text) = Some b → is_property_byte b = false) ∧ run is_property_byte word rest ∧
    name = trimmed_name word ∧ name ≠ [].
Proof.
  unfold literal_reference. destruct (bool_decide_reflect (take 4 (drop index text) = ENV_PROPERTY_PREFIX)) as [Hp|Hp]; cbn [andb]; last first.
  { split; [done|]. intros (word & rest & Hd & _). by rewrite Hd in Hp. }
  assert (Hd : drop index text = ENV_PROPERTY_PREFIX ++ drop (index + 4) text).
  { by rewrite <- Hp, <- drop_drop, take_drop. }
  assert (Hlen : (index ≤ length text)%nat).
  { apply (f_equal length) in Hd. rewrite length_drop, length_app in Hd. simpl in Hd. lia. }
  pose proof (not_continued_spec text index Hlen) as Hb. rewrite Hd. split.
  - destruct (not_continued text index) eqn:E; [|done].
    intros (word & rest & Htext & Hrun & Hname)%property_name_spec. exists word, rest. rewrite Htext. split; [reflexivity|]. split; [apply (proj1 Hb); first [reflexivity|exact E]|]. by split.
  - intros (word & rest & Heq & Hlast & Hrun & Hname). rewrite (proj2 Hb) by done.
    apply property_name_spec. exists word, rest. apply app_inj_1 in Heq as [_ ->]; [|done]. by split; [|split].
Qed.

Lemma literal_env_references_spec text name : name ∈ literal_env_references text ↔ mentions_env text name.
Proof.
  unfold literal_env_references. rewrite (proj2 (name_set_spec _)), list_elem_of_omap. setoid_rewrite literal_reference_spec. split.
  - intros (index & _ & word & rest & Hd & Hlast & Hw). exists (take index text), word, rest. split; [|done].
    by rewrite <- Hd, take_drop.
  - intros (before & word & rest & -> & Hlast & Hw). exists (length before). split.
    + apply elem_of_seq. rewrite !length_app. simpl. destruct Hw as (_ & Hn & Hne).
      assert (word ≠ []) by (intros ->; by rewrite Hn in Hne). destruct word; [done|]. simpl. lia.
    + exists word, rest. rewrite drop_app_length, take_app_length. by split; [|split].
Qed.

(** ** Lemmas: decoding references *)

(** A piece of a text as XML may spell it: a byte other than an ampersand, or a character written
    as a decimal, a hexadecimal or a predefined reference. *)
Inductive piece :=
| Plain (b : byte)
| Decimal (c : char)
| Hexadecimal (c : char)
| Predefined (name : string) (c : char).

Definition predefined : list (string * char) :=
  [("lt", ch "<"); ("gt", ch ">"); ("amp", ch "&"); ("quot", 34); ("apos", ch "'")]%string.
Definition piece_ok (p : piece) : Prop :=
  match p with
  | Plain b => b ≠ 38
  | Decimal c | Hexadecimal c => scalar c = true
  | Predefined name c => (name, c) ∈ predefined
  end.
Definition body (p : piece) : bytes :=
  match p with
  | Plain _ => []
  | Decimal c => lit "#" ++ to_dec c
  | Hexadecimal c => lit "#x" ++ to_hex c
  | Predefined name _ => lit name
  end.
Definition written (p : piece) : bytes :=
  match p with Plain b => [b] | _ => 38 :: body p ++ [59] end.
Definition meant (p : piece) : bytes :=
  match p with Plain b => [b] | Decimal c | Hexadecimal c | Predefined _ c => utf8_char c end.

Definition hex_digit (c : char) : Prop := 48 ≤ c ≤ 57 ∨ 97 ≤ c ≤ 102.
Lemma to_digits_hex b n : 1 < b ≤ 16 → Forall hex_digit (to_digits b n).
Proof.
  intros Hb. apply digits_from_Forall; [lia| |constructor]. intros d Hd. unfold digit_char, hex_digit.
  destruct (N.ltb_spec d 10); lia.
Qed.

Lemma scalar_le c : scalar c = true → c ≤ 1114111.
Proof. intros [Hc|Hc]%scalar_spec; lia. Qed.

Lemma to_digits_short b c : b = 10 ∨ b = 16 → scalar c = true → (length (to_digits b c) ≤ 7)%nat.
Proof.
  intros Hb Hc%scalar_le. transitivity (length (to_digits b 1114111)); [apply to_digits_length_mono; lia|].
  destruct Hb as [-> | ->]; vm_compute; lia.
Qed.

Lemma from_str_radix_digits b max n : 1 < b ≤ 16 → n ≤ max → from_str_radix b max (to_digits b n) = Some n.
Proof.
  intros Hb Hn. pose proof (to_digits_hex b n Hb) as Hh. pose proof (to_digits_ne b n) as Hne. unfold from_str_radix.
  pose proof (to_digits_value b n ltac:(lia)) as Hv. destruct (to_digits b n) as [|c s]; [done|].
  assert (match c :: s with 43 :: s' => s' | _ => c :: s end = c :: s) as ->.
  { apply Forall_cons in Hh as [Hc _]. unfold hex_digit in Hc. repeat case_match; try done; lia. }
  rewrite Hv. cbn [mbind option_bind]. by destruct (N.leb_spec n max); [|lia].
Qed.

(** The text of a reference is short, has no semicolon, and is read as its character. *)
Definition reference_text (l : bytes) : Prop := (length l ≤ 30)%nat ∧ Forall (λ b, b < 128 ∧ b ≠ 59) l.

Lemma hex_reference_text l : Forall hex_digit l → Forall (λ b, b < 128 ∧ b ≠ 59) l.
Proof. intros Hl. eapply Forall_impl; [exact Hl|]. unfold hex_digit. intros b Hb. cbv beta in *. lia. Qed.

Lemma body_text p : piece_ok p → reference_text (body p).
Proof.
  unfold reference_text. destruct p as [b|c|c|name c]; simpl; intros Hp; [split; [simpl; lia|constructor]|..].
  - split; [pose proof (to_digits_short 10 c (or_introl eq_refl) Hp) as Hl; unfold to_dec; simpl; lia|].
    constructor; [done|]. by apply hex_reference_text, to_digits_hex.
  - split; [pose proof (to_digits_short 16 c (or_intror eq_refl) Hp) as Hl; unfold to_hex; simpl; lia|].
    do 2 (constructor; [done|]). by apply hex_reference_text, to_digits_hex.
  - assert (Forall (λ q : string * char, (length (lit q.1) ≤ 30)%nat ∧ Forall (λ b, b < 128 ∧ b ≠ 59) (lit q.1)) predefined) as Hall
      by (repeat constructor; vm_compute; lia || done).
    rewrite Forall_forall in Hall. exact (Hall _ Hp).
Qed.

Lemma reference_ascii l : reference_text l → Forall (λ b, b < 128) l.
Proof. intros [_ Hl]. eapply Forall_impl; [exact Hl|]. by intros b [? _]. Qed.

Lemma character_reference_scalar c : scalar c = true → character_reference (Some c) = XCharacter c.
Proof. intros Hc. unfold character_reference, from_u32. simpl. by rewrite Hc. Qed.

Lemma xml_reference_body p c : piece_ok p → match p with Plain _ => False | Decimal x | Hexadecimal x | Predefined _ x => x = c end →
  xml_reference (body p) = XCharacter c.
Proof.
  intros Hp Hc. unfold xml_reference. rewrite from_utf8_ascii by (by apply reference_ascii, body_text).
  destruct p as [b|x|x|name x]; [done|subst x..]; simpl in Hp; cbn [body].
  - assert (Hx : strip_prefix (lit "#x") (lit "#" ++ to_dec c) = None).
    { pose proof (to_digits_hex 10 c ltac:(lia)) as Hh. pose proof (to_digits_ne 10 c) as Hne. fold (to_dec c) in Hh, Hne.
      destruct (to_dec c) as [|d s]; [done|]. apply Forall_cons in Hh as [Hd _]. unfold hex_digit in Hd.
      change (lit "#x") with [35; 120]. change (lit "#" ++ d :: s) with (35 :: d :: s). cbn [strip_prefix].
      by rewrite N.eqb_refl, (proj2 (N.eqb_neq 120 d)) by lia. }
    rewrite Hx. change (strip_prefix (lit "#") (lit "#" ++ to_dec c)) with (Some (to_dec c)). cbv iota.
    rewrite parse_to_dec by (apply scalar_le in Hp; unfold u32_max; lia). by apply character_reference_scalar.
  - change (strip_prefix (lit "#x") (lit "#x" ++ to_hex c)) with (Some (to_hex c)). cbv iota. unfold to_hex.
    rewrite from_str_radix_digits; [by apply character_reference_scalar|lia|apply scalar_le in Hp; unfold u32_max; lia].
  - assert (Forall (λ q : string * char, xml_reference (lit q.1) = XCharacter q.2) predefined) as Hall
      by (repeat constructor; vm_compute; reflexivity).
    rewrite Forall_forall in Hall. pose proof (Hall _ Hp) as Hx. unfold xml_reference in Hx.
    assert (from_utf8 (lit name) = inl (lit name)) as Hu by (apply from_utf8_ascii, reference_ascii, (body_text (Predefined name c)), Hp).
    cbn [fst snd] in Hx. by rewrite Hu in Hx.
Qed.

(** *** The loop *)

Lemma position_Some b l i : position b l = Some i → l !! i = Some b ∧ (i < length l)%nat.
Proof.
  unfold position. intros ([j x] & (Hj & -> & _)%list_find_Some & ->)%fmap_Some. simpl. split; [done|]. by eapply lookup_lt_Some.
Qed.
Lemma position_cons_ne b x l : x ≠ b → position b (x :: l) = S <$> position b l.
Proof. intros Hx. unfold position. cbn [list_find]. rewrite decide_False by done. match goal with |- context [list_find ?P l] => by destruct (list_find P l) as [[]|] end. Qed.
Lemma position_cons_eq b l : position b (b :: l) = Some 0%nat.
Proof. unfold position. simpl. by rewrite decide_True. Qed.
Lemma position_app b l k : Forall (λ x, x ≠ b) l → position b (l ++ b :: k) = Some (length l).
Proof.
  induction 1 as [|x l Hx _ IH]; [apply position_cons_eq|]. cbn [app]. rewrite position_cons_ne, IH; done.
Qed.

(** Every turn that goes on leaves less. *)
Lemma decode_turn_shrinks s :
  wp (decode_turn s) (λ t, match t with Continue s' => (length s'.2 < length s.2)%nat | Break _ => True end).
Proof.
  destruct s as [decoded rest]. unfold decode_turn. destruct (position 38 rest) as [i|] eqn:Hi; [|by apply wp_mret].
  apply position_Some in Hi as [_ Hi].
  destruct (position 59 _) as [e|] eqn:He; cbn [fmap option_fmap option_map]; [destruct (xml_reference _)|];
    apply wp_mret; cbn [snd]; rewrite ?length_drop; try done; lia.
Qed.
Lemma decode_total text : total (decode_xml_references text).
Proof.
  unfold decode_xml_references. apply (wp_loop (λ _, True) (λ s, length s.2)); [|done|simpl; lia].
  intros s _. eapply wp_mono; [apply decode_turn_shrinks|]. intros [s'|r] Hs; [|done]. split; [done|exact Hs].
Qed.

Lemma decode_turn_plain decoded b rest : b ≠ 38 → decode_turn (decoded, b :: rest) = decode_turn (decoded ++ [b], rest).
Proof.
  intros Hb. unfold decode_turn. rewrite position_cons_ne by done. destruct (position 38 rest) as [i|]; cbn [fmap option_fmap option_map].
  - cbn [take drop]. by replace ((decoded ++ [b]) ++ take i rest) with (decoded ++ b :: take i rest) by by rewrite <- app_assoc.
  - by rewrite <- app_assoc.
Qed.

Lemma decode_turn_reference decoded l rest c : reference_text l → xml_reference l = XCharacter c →
  decode_turn (decoded, 38 :: l ++ 59 :: rest) = Done (Continue (decoded ++ utf8_char c, rest)).
Proof.
  intros [Hlen Hl] Hx. unfold decode_turn. rewrite position_cons_eq. cbn [take drop]. rewrite app_nil_r.
  assert (Htake : take MAX_XML_REFERENCE_BYTES (38 :: l ++ 59 :: rest) = (38 :: l) ++ 59 :: take (30 - length l)%nat rest).
  { unfold MAX_XML_REFERENCE_BYTES. change (38 :: l ++ 59 :: rest) with ((38 :: l) ++ 59 :: rest). rewrite take_app.
    rewrite take_ge by (simpl; lia). f_equal. cbn [length].
    replace (32 - S (length l))%nat with (S (30 - length l))%nat by lia. done. }
  rewrite Htake, position_app; last first.
  { constructor; [done|]. eapply Forall_impl; [exact Hl|]. by intros b [_ ?]. }
  cbn [fmap option_fmap option_map length take drop]. rewrite take_app_length, drop_0, Hx.
  replace (S (length l) + 1)%nat with (S (length l + 1)) by lia. cbn [drop].
  rewrite drop_app_ge by lia. by replace (length l + 1 - length l)%nat with 1%nat by lia.
Qed.

Lemma length_written p : (0 < length (written p))%nat.
Proof. destruct p; simpl; lia. Qed.

Lemma decode_loop ps decoded fuel :
  Forall piece_ok ps → (length (ps ≫= written) < fuel)%nat →
  loop fuel decode_turn (decoded, ps ≫= written) = Done (Some (decoded ++ (ps ≫= meant))).
Proof.
  intros Hps. revert decoded fuel. induction Hps as [|p ps Hp Hps IH]; intros decoded fuel Hf.
  { destruct fuel; [simpl in Hf; lia|done]. }
  cbn [mbind list_bind]. fold (ps ≫= written) (ps ≫= meant).
  assert (Hlen : (length (written p) + length (ps ≫= written) < fuel)%nat) by (rewrite <- length_app; exact Hf). clear Hf.
  rewrite app_assoc.
  assert (Href : ∀ c, match p with Plain _ => False | Decimal x | Hexadecimal x | Predefined _ x => x = c end →
    loop fuel decode_turn (decoded, written p ++ (ps ≫= written)) = Done (Some ((decoded ++ utf8_char c) ++ (ps ≫= meant)))).
  { intros c Hc. destruct fuel as [|fuel]; [lia|]. cbn [loop].
    assert (Hw : written p ++ (ps ≫= written) = 38 :: body p ++ 59 :: (ps ≫= written))
      by (destruct p; [done|cbn [written app]; by rewrite <- app_assoc..]).
    rewrite Hw, (decode_turn_reference _ _ _ c) by (by apply body_text || by apply xml_reference_body). cbn [mbind exec_bind].
    apply IH. pose proof (length_written p). lia. }
  destruct p as [b|c|c|name c]; [|by apply Href..]. cbn [written meant app].
  rewrite <- (IH (decoded ++ [b]) fuel) by (simpl in Hlen; lia). destruct fuel as [|fuel]; [done|]. cbn [loop].
  by rewrite decode_turn_plain.
Qed.

(** Decoding reads every spelling back, and takes as many turns as the text has bytes at most. *)
Lemma decode_written ps : Forall piece_ok ps → decode_xml_references (ps ≫= written) = Done (Some (ps ≫= meant)).
Proof. intros Hps. unfold decode_xml_references. by rewrite decode_loop by (done || lia). Qed.

(** Escaping cannot hide a variable: the scan of a file never panics and always ends, and in
    whatever way an XML file spells its characters, as plain bytes or as decimal, hexadecimal or
    predefined references, the references found are exactly the variables the file mentions as it
    is written or as an XML parser reads it. *)
Theorem env_references_exact ps :
  Forall piece_ok ps →
  ∃ names, env_references (ps ≫= written) = Done (Some names) ∧
    ∀ name, name ∈ names ↔ mentions_env (ps ≫= written) name ∨ mentions_env (ps ≫= meant) name.
Proof.
  intros Hps. unfold env_references. rewrite decode_written by done. cbn [mbind exec_bind]. eexists. split; [done|].
  intros name. by rewrite elem_of_insert_all, !literal_env_references_spec.
Qed.

(** ** Shell references *)

Definition is_shell_byte (b : byte) : bool := is_ascii_alphanumeric b || (b =? ch "_").
Definition starts_name (b : byte) : bool := is_ascii_alphabetic b || (b =? ch "_").

(** A text expands a variable: a dollar sign, an optional brace, and a longest shell name. *)
Definition mentions_shell (text : bytes) (name : str) : Prop :=
  ∃ before brace first word rest, text = before ++ ch "$" :: brace ++ (first :: word) ++ rest ∧
    (brace = [] ∨ brace = [ch "{"]) ∧ starts_name first = true ∧ run is_shell_byte (first :: word) rest ∧ name = first :: word.

Lemma shell_name_spec text name :
  shell_name text = Some name ↔ ∃ first word rest, text = (first :: word) ++ rest ∧ starts_name first = true ∧
    run is_shell_byte (first :: word) rest ∧ name = first :: word.
Proof.
  assert (Hascii : ∀ b, is_shell_byte b = true → b < 128).
  { intros b. unfold is_shell_byte. rewrite orb_true_iff, N.eqb_eq. intros [H| ->]; [by apply alphanumeric_ascii|done]. }
  assert (Hfirst : ∀ b, starts_name b = true → is_shell_byte b = true).
  { intros b. unfold starts_name, is_shell_byte, is_ascii_alphanumeric. rewrite !orb_true_iff. tauto. }
  destruct text as [|first text]; [split; [done|by intros (? & ? & ? & ? & _)]|].
  unfold shell_name. fold (starts_name first). change (λ b, is_ascii_alphanumeric b || (b =? ch "_")) with is_shell_byte.
  destruct (starts_name first) eqn:Hs; cbn [negb]; last first.
  { split; [done|]. intros (f & word & rest & [= -> _] & Hf & _). congruence. }
  destruct (take_while_split is_shell_byte (first :: text)) as (rest & Htext & Hall & Hrest).
  rewrite from_utf8_ascii by (by eapply Forall_ascii). cbn [take_while] in *. rewrite (Hfirst _ Hs) in *. split.
  - intros [= <-]. exists first, (take_while is_shell_byte text), rest. by split_and!.
  - intros (f & word & rest' & Heq & Hf & [Hw Hr] & ->). f_equal. change (first :: take_while is_shell_byte text) with
      (if true then first :: take_while is_shell_byte text else []). rewrite <- (Hfirst _ Hs).
    change (take_while is_shell_byte (first :: text) = f :: word). rewrite Heq. by apply take_while_app.
Qed.

Theorem shell_references_exact text name : name ∈ shell_references text ↔ mentions_shell text name.
Proof.
  unfold shell_references. rewrite (proj2 (name_set_spec _)), list_elem_of_omap. split.
  - intros (index & _ & Hn). unfold shell_reference in Hn. case_bool_decide as Hd; [|done].
    apply list_elem_of_split_length in Hd as (before & after & -> & ->).
    replace (length before + 1)%nat with (S (length before)) in Hn by lia.
    change (before ++ ch "$" :: after) with (before ++ [ch "$"] ++ after) in Hn. rewrite app_assoc in Hn.
    rewrite drop_app_length' in Hn by (rewrite length_app; simpl; lia).
    destruct after as [|b rest].
    + by apply shell_name_spec in Hn as (? & ? & ? & ? & _).
    + destruct (N.eqb_spec b (ch "{")) as [->|Hb]; apply shell_name_spec in Hn as (first & word & rest' & Heq & Hf & Hr & ->).
      * exists before, [ch "{"], first, word, rest'. rewrite Heq. by split_and!; [|right|..].
      * exists before, [], first, word, rest'. rewrite Heq. by split_and!; [|left|..].
  - intros (before & brace & first & word & rest & -> & Hbrace & Hf & Hr & ->). exists (length before). split.
    + apply elem_of_seq. rewrite length_app. simpl. lia.
    + unfold shell_reference. rewrite bool_decide_eq_true_2 by (by rewrite lookup_app_r, Nat.sub_diag).
      replace (length before + 1)%nat with (S (length before)) by lia.
      change (before ++ ch "$" :: brace ++ (first :: word) ++ rest) with (before ++ [ch "$"] ++ brace ++ (first :: word) ++ rest).
      rewrite (app_assoc before), drop_app_length' by (rewrite length_app; simpl; lia).
      assert (Hne : first =? ch "{" = false).
      { apply N.eqb_neq. intros ->. vm_compute in Hf. done. }
      destruct Hbrace as [-> | ->]; cbn [app]; rewrite ?Hne; apply shell_name_spec; by exists first, word, rest.
Qed.

(** ** Digests *)

(** What is hashed, as a list of strings. *)
Definition hashed_strings (selected : gmap bytes bytes) : list bytes :=
  (sorted_entries selected).*1 ++ [[]] ++ (sorted_entries selected ≫= λ p, [p.1; p.2]).
(** A string is ended by a separator. *)
Definition framed (l : list bytes) : bytes := l ≫= λ s, s ++ [255].

Lemma fnv1a_framed hash l : foldl fnv1a hash l = foldl fnv_byte hash (framed l).
Proof.
  revert hash. induction l as [|s l IH]; intros hash; [done|]. cbn [foldl]. rewrite IH.
  change (framed (s :: l)) with ((s ++ [255]) ++ framed l). by rewrite foldl_app.
Qed.

Lemma selection_digest_hashed m : selection_digest m = foldl fnv_byte FNV_OFFSET (framed (hashed_strings m)).
Proof.
  rewrite <- fnv1a_framed. unfold selection_digest, hashed_strings. rewrite !foldl_app. cbn [foldl].
  assert (∀ hash l, foldl (λ hash (p : bytes * bytes), fnv1a hash p.1) hash l = foldl fnv1a hash l.*1) as ->.
  { intros hash l. revert hash. induction l as [|p l IH]; intros hash; [done|]. apply IH. }
  generalize (fnv1a (foldl fnv1a FNV_OFFSET (sorted_entries m).*1) []). generalize (sorted_entries m). intros l.
  induction l as [|p l IH]; intros hash; [done|]. cbn [foldl mbind list_bind app]. apply IH.
Qed.

Lemma framed_inj l k : Forall (λ s, 255 ∉ s) l → Forall (λ s, 255 ∉ s) k → framed l = framed k → l = k.
Proof.
  intros Hl. revert k. induction Hl as [|s l Hs Hl IH]; intros k Hk Heq.
  - destruct k as [|t k]; [done|]. by destruct t.
  - destruct Hk as [|t k Ht Hk]; [by destruct s|]. unfold framed in Heq. cbn [mbind list_bind] in Heq. fold (framed l) (framed k) in Heq.
    rewrite <- !app_assoc in Heq. cbn [app] in Heq. assert (s = t ∧ framed l = framed k) as [-> Hrest].
    { clear -Hs Ht Heq. revert t Ht Heq. induction s as [|x s IH]; intros [|y t] Ht Heq; simpl in Heq; [by injection Heq| | |].
      - injection Heq as <- _. set_solver.
      - injection Heq as -> _. set_solver.
      - injection Heq as -> Heq. destruct (IH ltac:(set_solver) t ltac:(set_solver) Heq) as [-> ?]. done. }
    f_equal. by apply IH.
Qed.

Lemma hashed_strings_inj m m' : hashed_strings m = hashed_strings m' → m = m'.
Proof.
  unfold hashed_strings. intros Heq. assert (Hlen : ∀ m : gmap bytes bytes, length (sorted_entries m ≫= λ p, [p.1; p.2]) = (2 * length (sorted_entries m))%nat).
  { intros m0. induction (sorted_entries m0) as [|p l IH]; [done|]. cbn [mbind list_bind]. rewrite length_app. simpl in *. lia. }
  assert (length (sorted_entries m).*1 = length (sorted_entries m').*1) as Hl.
  { apply (f_equal length) in Heq. rewrite !length_app, !Hlen, !length_fmap in Heq. rewrite !length_fmap. simpl in Heq. lia. }
  apply app_inj_1 in Heq as [_ [= Hpairs]]; [|done].
  rewrite <- (sorted_entries_map m), <- (sorted_entries_map m'). f_equal.
  revert Hpairs. generalize (sorted_entries m) (sorted_entries m'). intros l. induction l as [|[a b] l IH]; intros [|[c d] k] H; simpl in H; try done.
  injection H as -> -> H. f_equal. by apply IH.
Qed.

Lemma collect_snoc l p : collect_variables (l ++ [p]) = <[p.1 := p.2]> (collect_variables l).
Proof. unfold collect_variables. by rewrite foldl_app. Qed.

Lemma collect_filter (P : bytes → bool) (l : variables) name :
  collect_variables (filter (λ p, P p.1 = true) l) !! name = if P name then collect_variables l !! name else None.
Proof.
  induction l as [|p l IH] using rev_ind; [by destruct (P name)|].
  rewrite filter_app, filter_cons, filter_nil, collect_snoc. destruct (decide (P p.1 = true)) as [Hp|Hp].
  - rewrite collect_snoc. destruct (decide (p.1 = name)) as [<-|Hn].
    + by rewrite !lookup_insert_eq, Hp.
    + by rewrite !lookup_insert_ne, IH.
  - rewrite app_nil_r, IH. destruct (P name) eqn:E; [|done]. rewrite lookup_insert_ne; [done|]. intros <-. done.
Qed.

Lemma collect_elem l name value : collect_variables l !! name = Some value → (name, value) ∈ l.
Proof.
  induction l as [|[n v] l IH] using rev_ind; [done|]. rewrite collect_snoc. cbn [fst snd].
  destruct (decide (n = name)) as [->|Hn].
  - rewrite lookup_insert_eq. intros [= ->]. set_solver.
  - rewrite lookup_insert_ne by done. intros ?%IH. set_solver.
Qed.

Lemma fnv_bounded hash l : hash < 2 ^ 64 → foldl fnv_byte hash l < 2 ^ 64.
Proof.
  revert hash. induction l as [|b l IH]; intros hash Hh; [done|]. apply IH. unfold fnv_byte. by apply N.mod_lt.
Qed.

(** The strings of an environment that are hashed: those of the variables that take part. *)
Definition hashed (l : variables) (referenced : option (list str)) : bytes :=
  framed (hashed_strings (collect_variables (filter (λ p, variable_takes_part referenced p.1 = true) l))).
(** No separator in a name or a value, as in any UTF-8 text. *)
Definition separator_free (l : variables) : Prop := ∀ name value, (name, value) ∈ l → 255 ∉ name ∧ 255 ∉ value.

Lemma hashed_separator_free l referenced :
  separator_free l →
  Forall (λ s, 255 ∉ s) (hashed_strings (collect_variables (filter (λ p, variable_takes_part referenced p.1 = true) l))).
Proof.
  intros Hfree. assert (Hall : ∀ p : bytes * bytes,
    p ∈ sorted_entries (collect_variables (filter (λ p, variable_takes_part referenced p.1 = true) l)) → 255 ∉ p.1 ∧ 255 ∉ p.2).
  { intros [n v] (_ & Hin)%elem_of_sorted_entries%collect_elem%list_elem_of_filter. by apply Hfree. }
  unfold hashed_strings. apply Forall_forall. intros s. rewrite !elem_of_app, list_elem_of_singleton, list_elem_of_bind, list_elem_of_fmap.
  intros [(p & -> & Hp)|[->|(p & Hs & Hp)]]; [by apply Hall|apply not_elem_of_nil|]. destruct (Hall p Hp). set_solver.
Qed.

(** The digest of an environment depends exactly on the variables that take part: it is the
    64-bit hash of a string of bytes that two environments share exactly when they agree on the
    presence and the value of every variable that takes part; neither the order of the variables
    nor any other variable matters. *)
Theorem environment_digest_exact l l' referenced :
  separator_free l → separator_free l' →
  environment_digest l referenced = foldl fnv_byte FNV_OFFSET (hashed l referenced) ∧
  environment_digest l referenced < 2 ^ 64 ∧
  (hashed l referenced = hashed l' referenced ↔
   ∀ name, variable_takes_part referenced name = true → collect_variables l !! name = collect_variables l' !! name).
Proof.
  intros Hl Hl'. unfold environment_digest. rewrite selection_digest_hashed. split; [done|]. split; [by apply fnv_bounded|]. split.
  - intros Heq%framed_inj; [|by apply hashed_separator_free..]. apply hashed_strings_inj in Heq. intros name Hname.
    pose proof (f_equal (lookup name) Heq) as Hn. rewrite !collect_filter in Hn. by rewrite Hname in Hn.
  - intros Hagree. unfold hashed. do 2 f_equal. apply map_eq. intros name. rewrite !collect_filter.
    destruct (variable_takes_part referenced name) eqn:E; auto.
Qed.

(** A value that is not text can hold a separator: these environments differ in both variables,
    and the same bytes are hashed for them. *)
Theorem separator_in_value :
  let l := [(lit "A", lit "x"); (lit "B", lit "y" ++ 255 :: lit "B" ++ 255 :: lit "z")] in
  let l' := [(lit "A", lit "x" ++ 255 :: lit "B" ++ 255 :: lit "y"); (lit "B", lit "z")] in
  environment_digest l None = environment_digest l' None ∧ collect_variables l ≠ collect_variables l'.
Proof.
  intros l l'. split; [vm_compute; reflexivity|]. intros Heq. apply (f_equal (lookup (lit "B"))) in Heq. vm_compute in Heq. discriminate.
Qed.

(** ** Samples *)

Lemma env_references_exact_witness :
  let ps := [Plain (ch "$"); Plain (ch "{"); Plain (ch "e"); Plain (ch "n"); Plain (ch "v"); Plain (ch "."); Plain (ch "A");
             Decimal (ch "_"); Hexadecimal (ch "B"); Plain (ch "}"); Predefined "lt" (ch "<")] in
  Forall piece_ok ps ∧ ps ≫= written = lit "${env.A&#95;&#x42;}&lt;" ∧
  env_references (ps ≫= written) = Done (Some [lit "A"; lit "A_B"]) ∧ mentions_env (ps ≫= meant) (lit "A_B").
Proof.
  intros ps. assert (Hps : Forall piece_ok ps).
  { repeat (apply Forall_cons; split); [..|by apply Forall_nil]; first [discriminate|reflexivity|unfold piece_ok, predefined; apply elem_of_cons; by left]. }
  split; [exact Hps|]. split; [reflexivity|].
  destruct (env_references_exact ps Hps) as (names & Hr & Hin). assert (Hc := Hr). vm_compute in Hc. injection Hc as Hc.
  split; [rewrite Hr, <- Hc; reflexivity|].
  assert (Hm : mentions_env (ps ≫= written) (lit "A_B") ∨ mentions_env (ps ≫= meant) (lit "A_B")).
  { apply Hin. rewrite <- Hc. apply elem_of_cons. right. by apply elem_of_cons; left. }
  destruct Hm as [Hm|Hm]; [|exact Hm]. exfalso. apply literal_env_references_spec in Hm. vm_compute in Hm.
  apply elem_of_cons in Hm as [Hm|Hm]; [discriminate|by apply elem_of_nil in Hm].
Defined.

Lemma environment_digest_exact_witness :
  let l := [(lit "HOME", lit "/a"); (lit "PWD", lit "/b")] in
  let l' := [(lit "PWD", lit "/c"); (lit "HOME", lit "/a")] in
  separator_free l ∧ separator_free l' ∧ hashed l (Some []) = hashed l' (Some []) ∧
  environment_digest l (Some []) = environment_digest l' (Some []).
Proof.
  intros l l'. assert (Hf : ∀ x y : bytes * bytes, 255 ∉ x.1 ∧ 255 ∉ x.2 → 255 ∉ y.1 ∧ 255 ∉ y.2 → separator_free [x; y]).
  { intros x y Hx Hy n v [<-|[<-|H]%elem_of_cons]%elem_of_cons; [done..|by apply elem_of_nil in H]. }
  assert (Hl : separator_free l) by (apply Hf; vm_compute; split; set_solver).
  assert (Hl' : separator_free l') by (apply Hf; vm_compute; split; set_solver).
  destruct (environment_digest_exact l l' (Some []) Hl Hl') as (Hd & _ & Hagree).
  destruct (environment_digest_exact l' l (Some []) Hl' Hl) as (Hd' & _ & _).
  assert (Hh : hashed l (Some []) = hashed l' (Some [])).
  { apply Hagree. intros name Hn. destruct (decide (name = lit "HOME")) as [->|H1]; [vm_compute; reflexivity|].
    destruct (decide (name = lit "PWD")) as [->|H2]; [vm_compute in Hn; discriminate|].
    unfold l, l', collect_variables. cbn [foldl fst snd]. by rewrite !lookup_insert_ne. }
  split; [exact Hl|]. split; [exact Hl'|]. split; [exact Hh|]. by rewrite Hd, Hd', Hh.
Defined.
