(* ===== verification/ModelInputs.v ===== *)
(** * ModelInputs: the POMs a classpath resolution inherits from or imports

    Models [src/index_cache/model_inputs.rs]: the walk from the POMs of the reactor and of the
    artifacts of a classpath to every parent and imported POM, the inputs it stamps and the
    variables the POMs mention.  The file system and the XML deserializer are classes. *)

From S2P Require Import Prelude.
From S2P Require Import Text.
From S2P Require Import TextSearch.
From S2P Require Import Paths.
From S2P Require Import Ordering.
From S2P Require Import MavenEnvironment.
From S2P Require Import Config.

Open Scope N_scope.

(** ** POMs *)

Record ParentReference := {
  parent_group_id : option str;
  parent_artifact_id : option str;
  parent_version : option str;
  relative_path : option str;
}.
Record ManagedDependency := {
  managed_group_id : option str;
  managed_artifact_id : option str;
  managed_version : option str;
  managed_scope : option str;
}.
(** [dependencyManagement] is the list of its dependencies, and a profile is its
    [dependencyManagement]. *)
Record ModelPom := {
  pom_group_id : option str;
  pom_artifact_id : option str;
  pom_parent : option ParentReference;
  dependency_management : list ManagedDependency;
  profiles : list (list ManagedDependency);
}.

Record Coordinate := {
  coordinate_group_id : str;
  coordinate_artifact_id : str;
  coordinate_version : option str;
}.

Definition imports (m : ModelPom) : list ManagedDependency :=
  filter (λ d, trim <$> managed_scope d = Some (lit "import")) (mjoin (dependency_management m :: profiles m)).

Definition pom_group (m : ModelPom) : option str :=
  match pom_group_id m with
  | Some g => Some g
  | None => p ← pom_parent m; parent_group_id p
  end.

(** The names that are substituted, in order, and their values. *)
Definition known_names (m : ModelPom) : list (str * option str) :=
  [(lit "project.groupId", pom_group m); (lit "pom.groupId", pom_group m); (lit "groupId", pom_group m);
   (lit "project.artifactId", pom_artifact_id m); (lit "pom.artifactId", pom_artifact_id m); (lit "artifactId", pom_artifact_id m);
   (lit "project.parent.groupId", p ← pom_parent m; parent_group_id p);
   (lit "project.parent.artifactId", p ← pom_parent m; parent_artifact_id p)].

Definition placeholder (name : str) : str := lit "${" ++ name ++ lit "}".
Definition substitute (resolved : option str) (known : str * option str) : option str :=
  resolved ← resolved;
  if contains (placeholder known.1) resolved then
    replacement ← known.2; Some (replace (placeholder known.1) (trim replacement) resolved)
  else Some resolved.
Definition interpolate (m : ModelPom) (value : str) : option str :=
  resolved ← foldl substitute (Some (trim value)) (known_names m);
  if contains (lit "${") resolved then None else Some resolved.

Definition is_path_segment (segment : str) : bool :=
  negb (bool_decide (segment = [])) && negb (bool_decide (segment = lit ".")) && negb (bool_decide (segment = lit ".."))
  && negb (existsb (λ c, (c =? ch "/") || (c =? ch "\")) segment).

(** A version that names one directory; any other is Maven's to decide. *)
Definition literal_version (version : str) : bool :=
  is_path_segment version && negb (contains (lit "${") version)
  && negb (existsb (λ c, (c =? ch "[") || (c =? ch "(") || (c =? ch ",")) version)
  && negb (ends_with (lit "-SNAPSHOT") version).

Definition coordinate (m : ModelPom) (group_id artifact_id version : option str) : option Coordinate :=
  group_id ← group_id; group_id ← interpolate m group_id;
  artifact_id ← artifact_id; artifact_id ← interpolate m artifact_id;
  if negb (forallb is_path_segment (split_char (ch ".") group_id)) || negb (is_path_segment artifact_id) then None
  else Some {| coordinate_group_id := group_id; coordinate_artifact_id := artifact_id;
               coordinate_version := v ← version; if literal_version (trim v) then Some (trim v) else None |}.

(** ** The file system *)

Class ModelFiles := {
  is_file : path → bool;
  is_directory : path → bool;
  canonicalize : path → option path;
  list_directory : path → option (list (option path));
}.
(** [quick_xml::de::from_str]. *)
Class ModelXml := parse_model : str → option ModelPom.

(** [Path::parent]. *)
Definition parent_directory (p : path) : option path :=
  match p with [] => None | _ => Some (take (length p - 1) p) end.
(** [Path::file_name], which the end in [..] has not. *)
Definition final_name (p : path) : option str :=
  name ← last p; if bool_decide (name = lit "..") then None else Some name.

Definition version_pom (version_directory : path) (artifact_id : str) : option path :=
  version ← final_name version_directory;
  Some (version_directory ++ [artifact_id ++ lit "-" ++ version ++ lit ".pom"]).

Definition MAX_FOLLOWED_VERSIONS : nat := 256.
Definition DEFAULT_RELATIVE_PATH : str := lit "../pom.xml".

(** ** The walk *)

Record ModelWalk := {
  queue : list (path * bool);
  visited : gset path;
  inputs : gset path;
  walk_references : list str;
  budget : XmlBudget;
}.
Definition set_queue (q : list (path * bool)) (w : ModelWalk) : ModelWalk :=
  {| queue := q; visited := visited w; inputs := inputs w; walk_references := walk_references w; budget := budget w |}.
Definition add_input (p : path) (w : ModelWalk) : ModelWalk :=
  {| queue := queue w; visited := visited w; inputs := {[p]} ∪ inputs w; walk_references := walk_references w; budget := budget w |}.
Definition add_names (names : list str) (b : XmlBudget) (w : ModelWalk) : ModelWalk :=
  {| queue := queue w; visited := visited w; inputs := inputs w;
     walk_references := foldr set_insert (walk_references w) names; budget := b |}.
Definition enqueue (pom : path) (in_reactor : bool) (w : ModelWalk) : ModelWalk :=
  if bool_decide (pom ∈ visited w) then w
  else {| queue := queue w ++ [(pom, in_reactor)]; visited := {[pom]} ∪ visited w; inputs := inputs w;
          walk_references := walk_references w; budget := budget w |}.

Section Walk.
Context `{XmlFiles, ModelFiles, ModelXml} (limits : ResourceLimits) (repository : option path).

(** The parent POM Maven tries before the repository. *)
Definition parent_target (pom : path) (relative_path : option str) : option path :=
  let relative := match relative_path with None => DEFAULT_RELATIVE_PATH | Some r => trim r end in
  match parent_directory pom with
  | None => None
  | Some directory =>
      if bool_decide (relative = []) then None
      else
        let target := path_join directory relative in
        let target := if is_directory target then target ++ [lit "pom.xml"] else target in
        Some (default target (canonicalize target))
  end.
Definition relative_parent (pom : path) (relative_path : option str) (w : ModelWalk) : ModelWalk :=
  match parent_target pom relative_path with
  | None => w
  | Some target => enqueue target true (add_input target w)
  end.

(** The POM of every version below an artifact directory; [None] when there are too many. *)
Definition version_poms (artifact_directory : path) (artifact_id : str) : option (list path) :=
  match list_directory artifact_directory with
  | None => Some []
  | Some entries =>
      let versions := take (MAX_FOLLOWED_VERSIONS + 1) (filter (λ p, is_directory p = true) (omap id entries)) in
      if decide (MAX_FOLLOWED_VERSIONS < length versions)%nat then None
      else Some (omap (λ v, version_pom v artifact_id) versions)
  end.

Definition repository_pom (c : Coordinate) (w : ModelWalk) : option ModelWalk :=
  repository ← repository;
  let artifact_directory :=
    path_join repository (replace_char (ch ".") (ch "/") (coordinate_group_id c)) ++ [coordinate_artifact_id c] in
  match coordinate_version c with
  | Some version =>
      pom ← version_pom (artifact_directory ++ [version]) (coordinate_artifact_id c);
      Some (enqueue pom false (add_input pom w))
  | None =>
      poms ← version_poms artifact_directory (coordinate_artifact_id c);
      Some (foldl (λ w pom, enqueue pom false w) (add_input artifact_directory w) poms)
  end.

Definition follow_parent (pom : path) (in_reactor : bool) (m : ModelPom) (w : ModelWalk) : option ModelWalk :=
  match pom_parent m with
  | None => Some w
  | Some p =>
      let w := if in_reactor then relative_parent pom (relative_path p) w else w in
      c ← coordinate m (parent_group_id p) (parent_artifact_id p) (parent_version p);
      repository_pom c w
  end.
Fixpoint follow_imports (m : ModelPom) (l : list ManagedDependency) (w : ModelWalk) : option ModelWalk :=
  match l with
  | [] => Some w
  | d :: l =>
      c ← coordinate m (managed_group_id d) (managed_artifact_id d) (managed_version d);
      w ← repository_pom c w;
      follow_imports m l w
  end.

Definition follow (pom : path) (in_reactor : bool) (m : ModelPom) (w : ModelWalk) : option ModelWalk :=
  w ← follow_parent pom in_reactor m w; follow_imports m (imports m) w.

(** [visit]; [None] declines persistence. *)
Definition visit (pom : path) (in_reactor : bool) (w : ModelWalk) : exec (option ModelWalk) :=
  if negb (is_file pom) then mret (Some w)
  else
    r ← read limits (budget w) pom;
    match r with
    | inr _ => mret None
    | inl (xml, b) =>
        names ← env_references (utf8 xml);
        mret (names ← names;
              m ← parse_model xml;
              follow pom in_reactor m (add_names names b w))
    end.

Definition walk_turn (w : ModelWalk) : exec (turn ModelWalk (option ModelWalk)) :=
  match queue w with
  | [] => mret (Break (Some w))
  | (pom, in_reactor) :: q =>
      r ← visit pom in_reactor (set_queue q w);
      mret match r with None => Break None | Some w => Continue w end
  end.

Record ModelInputs := {
  paths : list path;
  env_names : list str;
}.

Definition walk_start (reactor_poms repository_poms : list path) : ModelWalk :=
  foldl (λ w pom, enqueue pom false w)
    (foldl (λ w pom, enqueue pom true w)
       {| queue := []; visited := ∅; inputs := ∅; walk_references := []; budget := empty_budget |} reactor_poms)
    repository_poms.

Definition model_inputs (fuel : nat) (reactor_poms repository_poms : list path) : exec (option ModelInputs) :=
  r ← loop fuel walk_turn (walk_start reactor_poms repository_poms);
  mret match r with
       | None => None
       | Some w => Some {| paths := sort (base.elements (inputs w)); env_names := walk_references w |}
       end.
End Walk.

(** ** What one POM leads to *)

Section Effects.
Context `{XmlFiles, ModelFiles, ModelXml} (limits : ResourceLimits) (repository : option path).

(** The paths a POM stamps and the POMs it leads to, with whether their relative parents count. *)
Abbreviation effects := (list path * list (path * bool))%type (only parsing).
Definition join_effects (a b : effects) : effects := (a.1 ++ b.1, a.2 ++ b.2).

Definition parent_effects (pom : path) (relative_path : option str) : effects :=
  match parent_target pom relative_path with None => ([], []) | Some t => ([t], [(t, true)]) end.
Definition coordinate_effects (c : Coordinate) : option effects :=
  match repository with None => None | Some repository =>
  let directory := path_join repository (replace_char (ch ".") (ch "/") (coordinate_group_id c)) ++ [coordinate_artifact_id c] in
  match coordinate_version c with
  | Some version =>
      pom ← version_pom (directory ++ [version]) (coordinate_artifact_id c); Some ([pom], [(pom, false)])
  | None =>
      match version_poms directory (coordinate_artifact_id c) with
      | None => None
      | Some poms => Some ([directory], (λ pom, (pom, false)) <$> poms)
      end
  end end.
(** The references of a POM: its parent, then its imports. *)
Definition references_of (m : ModelPom) : list (option str * option str * option str) :=
  match pom_parent m with
  | None => []
  | Some p => [(parent_group_id p, parent_artifact_id p, parent_version p)]
  end ++ ((λ d, (managed_group_id d, managed_artifact_id d, managed_version d)) <$> imports m).
Definition reference_effects (m : ModelPom) (r : option str * option str * option str) : option effects :=
  c ← coordinate m r.1.1 r.1.2 r.2; coordinate_effects c.
Definition relative_effects (pom : path) (in_reactor : bool) (m : ModelPom) : effects :=
  match pom_parent m with
  | Some p => if in_reactor then parent_effects pom (relative_path p) else ([], [])
  | None => ([], [])
  end.
(** [None] when a reference cannot be identified. *)
Definition model_effects (pom : path) (in_reactor : bool) (m : ModelPom) : option effects :=
  l ← mapM (reference_effects m) (references_of m);
  Some (foldl join_effects (relative_effects pom in_reactor m) l).

(** The walk after an effect. *)
Definition applied (e : effects) (w w' : ModelWalk) : Prop :=
  inputs w' = list_to_set e.1 ∪ inputs w ∧ visited w' = list_to_set e.2.*1 ∪ visited w ∧
  walk_references w' = walk_references w ∧ budget w' = budget w ∧
  ∃ new, queue w' = queue w ++ new ∧ NoDup new.*1 ∧ (∀ p, p ∈ new.*1 ↔ p ∈ e.2.*1 ∧ p ∉ visited w) ∧ (∀ x, x ∈ new → x ∈ e.2).

Lemma applied_nil w : applied ([], []) w w.
Proof.
  split_and!; simpl; [set_solver|set_solver|done|done|]. exists []. rewrite app_nil_r. split_and!; [done|constructor|set_solver|set_solver].
Qed.

Lemma applied_trans a b w w1 w2 : applied a w w1 → applied b w1 w2 → applied (join_effects a b) w w2.
Proof.
  intros (Hi & Hv & Hr & Hb & n & Hq & Hnd & Hn & Hin) (Hi' & Hv' & Hr' & Hb' & n' & Hq' & Hnd' & Hn' & Hin').
  unfold join_effects. split_and!; cbn [fst snd].
  - rewrite Hi', Hi, list_to_set_app_L. set_solver.
  - rewrite Hv', Hv, fmap_app, list_to_set_app_L. set_solver.
  - congruence.
  - congruence.
  - exists (n ++ n'). split_and!; [by rewrite Hq', Hq, app_assoc| | |set_solver].
    + rewrite fmap_app. apply NoDup_app. split_and!; [done| |done]. intros p Hp Hp'. apply Hn' in Hp' as [_ Hp'].
      apply Hn in Hp as [Hp _]. rewrite Hv in Hp'. set_solver.
    + intros p. rewrite !fmap_app, !elem_of_app, Hn, Hn', Hv, elem_of_union, elem_of_list_to_set.
      destruct (decide (p ∈ a.2.*1)); tauto.
Qed.

Lemma applied_input p w : applied ([p], []) w (add_input p w).
Proof.
  split_and!; simpl; [set_solver|set_solver|done|done|]. exists []. rewrite app_nil_r. split_and!; [done|constructor|set_solver|set_solver].
Qed.
Lemma applied_enqueue p f w : applied ([], [(p, f)]) w (enqueue p f w).
Proof.
  unfold enqueue. case_bool_decide as Hv; (split_and!; simpl; [set_solver|set_solver|done|done|]).
  - exists []. rewrite app_nil_r. split_and!; [done|constructor|set_solver|set_solver].
  - exists [(p, f)]. split_and!; [done|simpl; apply NoDup_singleton|set_solver|set_solver].
Qed.

Lemma applied_enqueue_all f poms w : applied ([], (λ p, (p, f)) <$> poms) w (foldl (λ w p, enqueue p f w) w poms).
Proof.
  revert w. induction poms as [|p poms IH]; intros w; [apply applied_nil|]. cbn [foldl fmap list_fmap].
  exact (applied_trans ([], [(p, f)]) _ _ _ _ (applied_enqueue p f w) (IH _)).
Qed.

Lemma relative_parent_applied pom r w : applied (parent_effects pom r) w (relative_parent pom r w).
Proof.
  unfold relative_parent, parent_effects. destruct (parent_target pom r) as [t|]; [|apply applied_nil].
  exact (applied_trans ([t], []) ([], [(t, true)]) _ _ _ (applied_input t w) (applied_enqueue t true _)).
Qed.

Lemma repository_pom_applied c w :
  match repository_pom repository c w, coordinate_effects c with
  | Some w', Some e => applied e w w'
  | None, None => True
  | _, _ => False
  end.
Proof.
  unfold repository_pom, coordinate_effects. destruct repository as [root|]; [|done]. cbn [mbind option_bind].
  set (d := path_join root _ ++ _). destruct (coordinate_version c) as [v|].
  - destruct (version_pom (d ++ [v]) _) as [pom|]; [|done]. cbn [mbind option_bind].
    exact (applied_trans ([pom], []) ([], [(pom, false)]) _ _ _ (applied_input pom w) (applied_enqueue pom false _)).
  - destruct (version_poms d _) as [poms|]; [|done]. cbn [mbind option_bind].
    exact (applied_trans ([d], []) ([], (λ p, (p, false)) <$> poms) _ _ _ (applied_input d w) (applied_enqueue_all false poms _)).
Qed.

(** The references are followed one after the other. *)
Fixpoint follow_references (m : ModelPom) (l : list (option str * option str * option str)) (w : ModelWalk) : option ModelWalk :=
  match l with
  | [] => Some w
  | r :: l => c ← coordinate m r.1.1 r.1.2 r.2; w ← repository_pom repository c w; follow_references m l w
  end.

Lemma follow_imports_references m l w :
  follow_imports repository m l w
  = follow_references m ((λ d, (managed_group_id d, managed_artifact_id d, managed_version d)) <$> l) w.
Proof.
  revert w. induction l as [|d l IH]; intros w; [done|]. cbn [follow_imports fmap list_fmap follow_references fst snd].
  destruct (coordinate _ _ _ _) as [c|]; [|done]. cbn [mbind option_bind].
  destruct (repository_pom repository c w) as [w1|]; [|done]. apply IH.
Qed.

Lemma follow_references_applied m l e w w0 :
  applied e w0 w →
  match follow_references m l w, mapM (reference_effects m) l with
  | Some w', Some es => applied (foldl join_effects e es) w0 w'
  | None, None => True
  | _, _ => False
  end.
Proof.
  revert e w. induction l as [|r l IH]; intros e w Hw; [done|]. cbn [follow_references mapM].
  assert (He : reference_effects m r = (c ← coordinate m r.1.1 r.1.2 r.2; coordinate_effects c)) by done. rewrite He.
  destruct (coordinate m r.1.1 r.1.2 r.2) as [c|]; [|done]. cbn [mbind option_bind].
  pose proof (repository_pom_applied c w) as Hc.
  destruct (repository_pom repository c w) as [w1|], (coordinate_effects c) as [e1|]; [|done..]. cbn [mbind option_bind].
  specialize (IH _ _ (applied_trans _ _ _ _ _ Hw Hc)).
  by destruct (follow_references m l w1), (mapM (reference_effects m) l).
Qed.

Lemma follow_applied pom f m w :
  match follow repository pom f m w, model_effects pom f m with
  | Some w', Some e => applied e w w'
  | None, None => True
  | _, _ => False
  end.
Proof.
  assert (Heq : follow repository pom f m w
    = follow_references m (references_of m)
        (match pom_parent m with Some p => if f then relative_parent pom (relative_path p) w else w | None => w end)).
  { unfold follow, follow_parent, references_of. destruct (pom_parent m) as [p|]; [|apply follow_imports_references].
    cbn [app follow_references fst snd]. destruct (coordinate _ _ _ _) as [c|]; [|done]. cbn [mbind option_bind].
    destruct (repository_pom _ _ _) as [w1|]; [|done]. cbn [mbind option_bind]. apply follow_imports_references. }
  rewrite Heq. unfold model_effects.
  assert (Hrel : applied (relative_effects pom f m) w
    (match pom_parent m with Some p => if f then relative_parent pom (relative_path p) w else w | None => w end)).
  { unfold relative_effects. destruct (pom_parent m) as [p|]; [|apply applied_nil]. destruct f; [apply relative_parent_applied|apply applied_nil]. }
  pose proof (follow_references_applied m (references_of m) _ _ _ Hrel) as Hf.
  destruct (follow_references _ _ _), (mapM _ _); done.
Qed.
End Effects.

(** ** The walk is exact *)

Section Exact.
Context `{XmlFiles, !XmlLaws, ModelFiles, ModelXml} (limits : ResourceLimits) (repository : option path).

(** The variables a POM mentions, what it stamps and where it leads; a missing POM is a leaf. *)
Inductive leads (p : path) (in_reactor : bool) : list str → list path * list (path * bool) → Prop :=
| leads_nowhere : is_file p = false → leads p in_reactor [] ([], [])
| leads_on xml m names e :
    is_file p = true → xml_text p xml → env_references (utf8 xml) = Done (Some names) → parse_model xml = Some m →
    model_effects repository p in_reactor m = Some e → leads p in_reactor names e.

(** The POMs reached from the first ones. *)
Inductive reached (start : list (path * bool)) : path → bool → Prop :=
| reached_first p f : (p, f) ∈ start → reached start p f
| reached_next p f names e q g : reached start p f → leads p f names e → (q, g) ∈ e.2 → reached start q g.

(** A POM that cannot be followed: it cannot be read within the budget, uses an unknown entity,
    cannot be parsed, or has a reference that cannot be identified. *)
Definition unidentified (p : path) (in_reactor : bool) : Prop :=
  is_file p = true ∧
  ((∃ b e, budget_within b ∧ read limits b p = Done (inr e)) ∨
   ∃ xml, xml_text p xml ∧
     (env_references (utf8 xml) = Done None ∨ parse_model xml = None ∨
      ∃ m, parse_model xml = Some m ∧ model_effects repository p in_reactor m = None)).

(** The result of a walk: each POM followed once, closed under what they lead to, with exactly
    what they stamp and mention. *)
Definition inputs_exact (start : list (path * bool)) (followed : gmap path bool) (r : ModelInputs) : Prop :=
  (∀ p f, followed !! p = Some f → reached start p f) ∧
  (∀ p, p ∈ start.*1 → is_Some (followed !! p)) ∧
  (∀ p f, followed !! p = Some f → ∃ names e, leads p f names e ∧ ∀ q, q ∈ e.2.*1 → is_Some (followed !! q)) ∧
  (∀ i, i ∈ paths r ↔ ∃ p f names e, followed !! p = Some f ∧ leads p f names e ∧ i ∈ e.1) ∧
  (∀ n, n ∈ env_names r ↔ ∃ p f names e, followed !! p = Some f ∧ leads p f names e ∧ n ∈ names) ∧
  StronglySorted lt_cmp (paths r).

Lemma leads_fun p f names e names' e' : leads p f names e → leads p f names' e' → names' = names ∧ e' = e.
Proof.
  destruct 1 as [Hf|xml m names e Hf (c & Hc & Hu) Hn Hm He]; destruct 1 as [Hf'|xml' m' names' e' Hf' (c' & Hc' & Hu') Hn' Hm' He']; try congruence; [done|].
  assert (c' = c) as -> by congruence. assert (xml' = xml) as -> by congruence. split; [congruence|]. assert (m' = m) as -> by congruence. congruence.
Qed.

Section Loop.
Context (start : list (path * bool)).

(** The POMs that were followed when the rest of the queue is left. *)
Record walk_inv (followed : gmap path bool) (w : ModelWalk) : Prop := {
  inv_visited : ∀ p, p ∈ visited w ↔ is_Some (followed !! p) ∨ p ∈ (queue w).*1;
  inv_queue : NoDup (queue w).*1;
  inv_fresh : ∀ p, p ∈ (queue w).*1 → followed !! p = None;
  inv_reached : ∀ p f, followed !! p = Some f ∨ (p, f) ∈ queue w → reached start p f;
  inv_start : ∀ p, p ∈ start.*1 → p ∈ visited w;
  inv_closed : ∀ p f, followed !! p = Some f → ∃ names e, leads p f names e ∧ ∀ q, q ∈ e.2.*1 → q ∈ visited w;
  inv_inputs : ∀ i, i ∈ inputs w ↔ ∃ p f names e, followed !! p = Some f ∧ leads p f names e ∧ i ∈ e.1;
  inv_names : ∀ n, n ∈ walk_references w ↔ ∃ p f names e, followed !! p = Some f ∧ leads p f names e ∧ n ∈ names;
  inv_budget : budget_within (budget w);
}.

(** Adding one followed POM to a statement about all of them. *)
Lemma followed_insert (followed : gmap path bool) p f names e (P : list str → list path * list (path * bool) → Prop) :
  followed !! p = None → leads p f names e →
  (∃ q g ns e', <[p := f]> followed !! q = Some g ∧ leads q g ns e' ∧ P ns e') ↔
  P names e ∨ ∃ q g ns e', followed !! q = Some g ∧ leads q g ns e' ∧ P ns e'.
Proof.
  intros Hp Hl. split.
  - intros (q & g & ns & e' & Hq & Hl' & HP). destruct (decide (p = q)) as [<-|Hne].
    + rewrite lookup_insert_eq in Hq. injection Hq as <-. destruct (leads_fun _ _ _ _ _ _ Hl Hl') as [-> ->]. by left.
    + rewrite lookup_insert_ne in Hq by done. right. by exists q, g, ns, e'.
  - intros [HP|(q & g & ns & e' & Hq & Hl' & HP)].
    + exists p, f, names, e. by rewrite lookup_insert_eq.
    + exists q, g, ns, e'. rewrite lookup_insert_ne by congruence. done.
Qed.

(** A POM was followed: what it leads to was queued. *)
Lemma walk_inv_step followed p f q w w' names e b :
  walk_inv followed w → queue w = (p, f) :: q → leads p f names e → budget_within b →
  applied e (add_names names b (set_queue q w)) w' → walk_inv (<[p := f]> followed) w'.
Proof.
  intros [Hv Hnd Hfresh Hreach Hstart Hclosed Hin Hns Hbud] Hq Hl Hb (Hi' & Hv' & Hr' & Hb' & new & Hq' & Hnd' & Hnew & Hinn).
  cbn [add_names set_queue inputs visited walk_references budget queue] in *. rewrite Hq in *. cbn [fmap list_fmap fst] in *.
  apply NoDup_cons in Hnd as [Hpq Hnd]. assert (Hp : followed !! p = None) by (apply Hfresh; by left).
  assert (Hvis : ∀ x, x ∈ visited w' ↔ x ∈ e.2.*1 ∨ x ∈ visited w) by (intros x; rewrite Hv', elem_of_union, elem_of_list_to_set; done).
  assert (Hdec : ∀ x, x ∈ visited w ∨ x ∉ visited w) by (intros x; destruct (decide (x ∈ visited w)); auto).
  split.
  - intros x. rewrite Hvis, Hq', fmap_app, elem_of_app, Hnew, lookup_insert_is_Some. specialize (Hv x). specialize (Hdec x).
    rewrite elem_of_cons in Hv. destruct (decide (p = x)) as [<-|Hne]; [|naive_solver]. rewrite Hv. naive_solver.
  - rewrite Hq', fmap_app. apply NoDup_app. split_and!; [done| |done]. intros x Hx [_ Hn]%Hnew. apply Hn, Hv. right. by right.
  - intros x. rewrite Hq', fmap_app, elem_of_app. intros [Hx|[_ Hx]%Hnew].
    + rewrite lookup_insert_ne by (intros <-; done). apply Hfresh. by right.
    + assert (p ≠ x) by (intros <-; apply Hx, Hv; right; by left). rewrite lookup_insert_ne by done.
      destruct (followed !! x) eqn:E; [|done]. exfalso. apply Hx, Hv. left. by rewrite E.
  - intros x g. rewrite Hq', elem_of_app. intros [Hx|[Hx|Hx]].
    + destruct (decide (p = x)) as [<-|Hne]; [rewrite lookup_insert_eq in Hx; injection Hx as <-; apply Hreach; right; by left|].
      rewrite lookup_insert_ne in Hx by done. apply Hreach. by left.
    + apply Hreach. right. by right.
    + eapply reached_next; [apply Hreach; right; by left|exact Hl|by apply Hinn].
  - intros x Hx. apply Hvis. right. by apply Hstart.
  - intros x g. destruct (decide (p = x)) as [<-|Hne].
    + rewrite lookup_insert_eq. intros [= <-]. exists names, e. split; [done|]. intros y Hy. apply Hvis. by left.
    + rewrite lookup_insert_ne by done. intros Hx. destruct (Hclosed x g Hx) as (ns & e' & Hl' & Hy). exists ns, e'. split; [done|].
      intros y Hy'. apply Hvis. right. by apply Hy.
  - intros i. rewrite Hi', elem_of_union, elem_of_list_to_set, Hin. symmetry. by apply (followed_insert followed p f names e (λ _ e, i ∈ e.1)).
  - intros n. rewrite Hr', elem_of_insert_all, Hns. symmetry. by apply (followed_insert followed p f names e (λ ns _, n ∈ ns)).
  - by rewrite Hb'.
Qed.

(** How much of the walk is left: files of the budget, then the queue. *)
Definition nearer (w' w : ModelWalk) : Prop :=
  budget_files (budget w') = budget_files (budget w) + 1 ∨
  (budget w' = budget w ∧ (length (queue w') < length (queue w))%nat).

Lemma env_references_total text : ∃ r, env_references text = Done r.
Proof.
  unfold env_references. destruct (wp_Done _ _ (decode_total text)) as (d & -> & _). by destruct d; eexists.
Qed.

Lemma model_turn_spec followed w :
  walk_inv followed w →
  wp (walk_turn limits repository w) (λ t, match t with
    | Continue w' => nearer w' w ∧ ∃ followed', walk_inv followed' w'
    | Break (Some w') => w' = w ∧ queue w = []
    | Break None => ∃ p f, reached start p f ∧ unidentified p f
    end).
Proof.
  intros Hinv. unfold walk_turn. destruct (queue w) as [|[p f] q] eqn:Hq; [by apply wp_mret|].
  assert (Hreach : reached start p f) by (apply (inv_reached _ _ Hinv); right; rewrite Hq; by left).
  unfold visit. destruct (is_file p) eqn:Hfile; cbn [negb]; last first.
  { cbn [mbind exec_bind]. apply wp_mret. split; [right; split; [done|]; rewrite Hq; simpl; lia|].
    exists (<[p := f]> followed). eapply (walk_inv_step _ p f q w _ [] ([], []) (budget w)); [done..|by apply leads_nowhere|apply Hinv|].
    apply applied_nil. }
  pose proof (inv_budget _ _ Hinv) as Hb.
  destruct (wp_Done _ _ (budget_kept limits (budget w) p Hb)) as (r & Hr & Hkept). cbn [set_queue budget]. rewrite Hr. cbn [mbind exec_bind].
  destruct r as [[xml b]|e]; [|apply wp_mret; exists p, f; split; [done|]; split; [done|]; left; by exists (budget w), e].
  pose proof (read_text _ _ _ _ _ Hb Hr) as Htext. destruct Hkept as (_ & _ & Hfiles & Hbw).
  destruct (env_references_total (utf8 xml)) as [[names|] Hn]; rewrite Hn; cbn [mbind exec_bind option_bind];
    [|apply wp_mret; exists p, f; split; [done|]; split; [done|]; right; exists xml; auto].
  destruct (parse_model xml) as [m|] eqn:Hm; cbn [mbind option_bind];
    [|apply wp_mret; exists p, f; split; [done|]; split; [done|]; right; exists xml; auto].
  pose proof (follow_applied repository p f m (add_names names b (set_queue q w))) as Hf.
  destruct (follow repository p f m _) as [w'|], (model_effects repository p f m) as [e|] eqn:He; [|done..|].
  - apply wp_mret. split; [left|].
    + destruct Hf as (_ & _ & _ & -> & _). exact Hfiles.
    + exists (<[p := f]> followed). eapply (walk_inv_step _ p f q w w' names e b); try done. by eapply leads_on.
  - apply wp_mret. exists p, f. split; [done|]. split; [done|]. right. exists xml. eauto 6.
Qed.

(** The outcome of a walk. *)
Definition walk_result (r : option ModelWalk) : Prop :=
  match r with
  | Some w => queue w = [] ∧ ∃ followed, walk_inv followed w
  | None => ∃ p f, reached start p f ∧ unidentified p f
  end.

(** Every POM that is read is counted in the budget, and every other turn shortens the queue. *)
Lemma walk_ends followed w :
  walk_inv followed w → ∃ fuel r, loop fuel (walk_turn limits repository) w = Done r ∧ walk_result r.
Proof.
  remember (N.to_nat (MAX_XML_FILES - budget_files (budget w))) as files eqn:Hfiles.
  revert followed w Hfiles. induction files as [files IHfiles] using lt_wf_ind. intros followed w Hfiles.
  remember (length (queue w)) as pending eqn:Hpending. revert followed w Hfiles Hpending.
  induction pending as [pending IHpending] using lt_wf_ind. intros followed w Hfiles Hpending Hinv.
  destruct (wp_Done _ _ (model_turn_spec followed w Hinv)) as (t & Ht & Hspec).
  destruct t as [w'|[w'|]].
  - destruct Hspec as [Hnear (followed' & Hinv')].
    assert (∃ fuel r, loop fuel (walk_turn limits repository) w' = Done r ∧ walk_result r) as (fuel & r & Hr & Hres).
    { pose proof (inv_budget _ _ Hinv') as [_ Hle]. destruct Hnear as [Hf|[Hb Hlen]].
      - eapply (IHfiles (N.to_nat (MAX_XML_FILES - budget_files (budget w')))); [lia|done|exact Hinv'].
      - eapply (IHpending (length (queue w'))); [lia|by rewrite Hb|done|exact Hinv']. }
    exists (S fuel), r. split; [|done]. cbn [loop]. rewrite Ht. exact Hr.
  - destruct Hspec as [-> Hq]. exists 1%nat, (Some w). cbn [loop]. rewrite Ht. split; [done|]. split; [done|by exists followed].
  - exists 1%nat, None. cbn [loop]. rewrite Ht. by split.
Qed.
End Loop.

Lemma loop_more {S R} (body : S → exec (turn S R)) fuel more s r :
  loop fuel body s = Done r → loop (fuel + more) body s = Done r.
Proof.
  revert s. induction fuel as [|fuel IH]; intros s; [done|]. cbn [Nat.add loop].
  destruct (body s) as [[s'|r']| |]; [|done..]. cbn [mbind exec_bind]. apply IH.
Qed.

(** The first POMs: each path once, those of the reactor first. *)
Lemma enqueue_all_inv start start' f poms w :
  walk_inv start ∅ w → (∀ x, x ∈ start' ↔ x ∈ start ∨ x ∈ (λ p, (p, f)) <$> poms) →
  walk_inv start' ∅ (foldl (λ w p, enqueue p f w) w poms).
Proof.
  intros [Hv Hnd Hfresh Hreach Hstart Hclosed Hin Hns Hbud] Hs.
  pose proof (applied_enqueue_all f poms w) as (Hi' & Hv' & Hr' & Hb' & new & Hq' & Hnd' & Hnew & Hinn).
  assert (Hmono : ∀ p g, reached start p g → reached start' p g).
  { induction 1 as [p g Hp|p g names e q h _ IH Hl He]; [apply reached_first, Hs; by left|by eapply reached_next]. }
  cbn [fst snd] in *. split.
  - intros p. rewrite Hv', Hq', fmap_app, elem_of_app, elem_of_union, elem_of_list_to_set, Hv, Hnew, Hv.
    destruct (decide (p ∈ visited w)) as [Hp|Hp]; rewrite Hv in Hp; tauto.
  - rewrite Hq', fmap_app. apply NoDup_app. split_and!; [done| |done]. intros p Hp [_ Hn]%Hnew. apply Hn, Hv. by right.
  - intros p _. by rewrite lookup_empty.
  - intros p g. rewrite Hq', elem_of_app. intros [Hp|[Hp|Hp]]; [by rewrite lookup_empty in Hp|apply Hmono, Hreach; by right|].
    apply reached_first, Hs. right. by apply Hinn.
  - intros p Hp. rewrite Hv', elem_of_union, elem_of_list_to_set. apply list_elem_of_fmap in Hp as ([q g] & -> & Hx).
    apply Hs in Hx as [Hx|Hx]; [right; apply Hstart|left]; apply list_elem_of_fmap; by exists (q, g).
  - intros p g. by rewrite lookup_empty.
  - intros i. rewrite Hi', elem_of_union, Hin. setoid_rewrite lookup_empty. set_solver.
  - intros n. rewrite Hr', Hns. done.
  - by rewrite Hb'.
Qed.

Definition first_poms (reactor_poms repository_poms : list path) : list (path * bool) :=
  ((λ p, (p, true)) <$> reactor_poms) ++ ((λ p, (p, false)) <$> repository_poms).

Lemma walk_start_inv reactor_poms repository_poms :
  walk_inv (first_poms reactor_poms repository_poms) ∅ (walk_start reactor_poms repository_poms).
Proof.
  unfold walk_start, first_poms. eapply (enqueue_all_inv ((λ p, (p, true)) <$> reactor_poms)).
  - eapply (enqueue_all_inv []).
    + assert (Hnone : ∀ p, ¬ is_Some ((∅ : gmap path bool) !! p)) by (intros p; rewrite lookup_empty; by intros []).
      split; cbn [visited queue inputs walk_references budget].
      * intros p. specialize (Hnone p). set_solver.
      * constructor.
      * intros p _. by rewrite lookup_empty.
      * intros p f. rewrite lookup_empty. set_solver.
      * set_solver.
      * intros p f. by rewrite lookup_empty.
      * intros i. setoid_rewrite lookup_empty. set_solver.
      * intros n. setoid_rewrite lookup_empty. set_solver.
      * split; vm_compute; discriminate.
    + set_solver.
  - intros x. rewrite elem_of_app. done.
Qed.

End Exact.

(** ** Samples *)

(** A reactor POM, its parent in the repository, and nothing else. *)
Definition reactor_pom : path := [lit "p"; lit "pom.xml"].
Definition parent_pom : path := [lit "repo"; lit "g"; lit "h"; lit "a"; lit "1"; lit "a-1.pom"].
#[local] Instance sample_poms : XmlFiles := {|
  file_contents p := if bool_decide (p = reactor_pom) then Some (lit "${env.A}")
                     else if bool_decide (p = parent_pom) then Some (lit "env.B") else None;
  Config.from_utf8 b := if forallb (λ c, c <? 128) b then Some b else None;
  xml_reader _ := [inl Empty];
|}.
#[local] Instance sample_poms_laws : XmlLaws.
Proof.
  split. intros bytes s. simpl. case_match eqn:E; [|done]. intros [= <-].
  rewrite <- utf8_blen, utf8_ascii; [done|]. apply Forall_forall. intros c Hc.
  rewrite forallb_forall in E. apply N.ltb_lt, E. by apply list_elem_of_In.
Qed.
#[local] Instance sample_model_files : ModelFiles := {|
  is_file p := bool_decide (p = reactor_pom) || bool_decide (p = parent_pom);
  is_directory _ := false;
  canonicalize _ := None;
  list_directory _ := None;
|}.
#[local] Instance sample_model_xml : ModelXml := λ xml,
  Some {| pom_group_id := None; pom_artifact_id := Some (lit "x"); dependency_management := []; profiles := [];
          pom_parent := if bool_decide (xml = lit "env.B") then None
                        else Some {| parent_group_id := Some (lit "g.h"); parent_artifact_id := Some (lit "a");
                                     parent_version := Some (lit "1"); relative_path := Some [] |} |}.
Definition pom_limits : ResourceLimits :=
  {| max_xml_bytes := 100; max_jar_entries := 1; max_index_entries := 1; max_index_name_bytes := 1 |}.

