(* ===== verification/IndexCache.v ===== *)
(** * IndexCache: the on-disk cache of derived data

    Models the entries of [src/index_cache.rs]: the rows of its SQLite table, one write with the
    eviction that follows it, lookups, and the removal of the classpaths of a project.  The SQL
    statements are given their meaning on the list of the rows of the table; the row number SQLite
    gives a new row is the class [RowIds], and the JSON text of a path the class [JsonPaths].  A
    write is one transaction: it has its effect, or none. *)

From S2P Require Import Prelude.
From S2P Require Import Text.
From S2P Require Import Paths.
From S2P Require Import Ordering.
From Stdlib Require Import ZArith.

Open Scope N_scope.

(** ** Rows *)

Inductive EntryKind := RECORD_KIND | CLASSPATH_KIND.
#[export] Instance EntryKind_eq_dec : EqDecision EntryKind.
Proof. solve_decision. Defined.

(** The primary key: kind, key and the tool that wrote the entry. *)
Abbreviation entry_key := (EntryKind * str * str)%type (only parsing).
Record Row := {
  rowid : N;
  row_kind : EntryKind;
  row_key : str;
  row_tool : str;
  row_payload : list N;
  row_bytes : N;
  last_used : N;
}.
Definition row_entry (r : Row) : entry_key := (row_kind r, row_key r, row_tool r).

(** The number of a new row is not in use. *)
Class RowIds := {
  new_rowid : list Row → N;
  new_rowid_fresh (rows : list Row) : new_rowid rows ∉ (rowid <$> rows);
}.

Definition i64_max : N := 2 ^ 63 - 1.
(** [i64::try_from(..).unwrap_or(i64::MAX)]. *)
Definition to_i64 (n : N) : N := N.min n i64_max.
Definition entry_bytes (key : str) (payload : list N) : N := to_i64 (blen key + N.of_nat (length payload)).

(** ** Statements *)

Section Statements.
Context `{RowIds}.

(** [INSERT OR REPLACE]: a row with the same primary key is deleted first. *)
Definition upsert (kind : EntryKind) (key tool : str) (payload : list N) (now : N) (rows : list Row) : list Row :=
  let others := filter (λ r, row_entry r ≠ (kind, key, tool)) rows in
  others ++ [{| rowid := new_rowid others; row_kind := kind; row_key := key; row_tool := tool; row_payload := payload;
                row_bytes := entry_bytes key payload; last_used := now |}].

Definition touch_row (now : N) (kind : EntryKind) (key tool : str) (r : Row) : Row :=
  if bool_decide (row_entry r = (kind, key, tool)) then
    {| rowid := rowid r; row_kind := row_kind r; row_key := row_key r; row_tool := row_tool r; row_payload := row_payload r;
       row_bytes := row_bytes r; last_used := now |}
  else r.
Definition touch (now : N) (kind : EntryKind) (key tool : str) (rows : list Row) : list Row :=
  touch_row now kind key tool <$> rows.

(** [SELECT payload .. WHERE kind = ?1 AND key = ?2 AND tool = ?3]. *)
Definition load (kind : EntryKind) (key tool : str) (rows : list Row) : option (list N) :=
  row_payload <$> head (filter (λ r, row_entry r = (kind, key, tool)) rows).

(** [COALESCE(SUM(bytes), 0)], which fails when the sum is no 64-bit integer. *)
Definition total_bytes (rows : list Row) : option N :=
  let total := sum (row_bytes <$> rows) in if total <=? i64_max then Some total else None.

(** The least recently used first. *)
Definition use_key (r : Row) : N * N := (last_used r, rowid r).
Definition oldest (rows : list Row) : list Row := sort_by_key use_key rows.

(** Rows are taken until the excess is gone. *)
Fixpoint victims (excess : Z) (rows : list Row) : list N :=
  match rows with
  | [] => []
  | r :: rows =>
      if (excess <=? 0)%Z then [] else rowid r :: victims (excess - Z.of_N (row_bytes r)) rows
  end.

Definition delete_rows (ids : list N) (rows : list Row) : list Row := filter (λ r, rowid r ∉ ids) rows.

(** [evict_to_budget]; [None] is a database error. *)
Definition evict_to_budget (max_bytes : N) (rows : list Row) : option (list Row) :=
  total ← total_bytes rows;
  let excess := (Z.of_N total - Z.of_N (to_i64 max_bytes))%Z in
  if (excess <=? 0)%Z then Some rows else Some (delete_rows (victims excess (oldest rows)) rows).

(** ** One write *)

(** The paths of records and reused records as text, if they are UTF-8. *)
Record CacheUpdate := {
  update_classpath : option (str * list N);
  update_records : list (option str * list N);
  update_reused : list (option str);
}.

Definition apply_update (tool : str) (now : N) (update : CacheUpdate) (rows : list Row) : list Row :=
  let rows := match update_classpath update with
              | Some (context, payload) => upsert CLASSPATH_KIND context tool payload now rows
              | None => rows
              end in
  let rows := foldl (λ rows r, match r.1 with Some key => upsert RECORD_KIND key tool r.2 now rows | None => rows end)
                rows (update_records update) in
  foldl (λ rows key, touch now RECORD_KIND key tool rows) rows (omap id (update_reused update)).

(** [try_write]: a failed transaction leaves the table as it was. *)
Definition try_write (tool : str) (max_bytes now : N) (update : CacheUpdate) (rows : list Row) : option (list Row) :=
  evict_to_budget max_bytes (apply_update tool (to_i64 now) update rows).
End Statements.

(** ** The classpaths of a project *)

(** [serde_json::to_string] of a path: a JSON string, on one line and one for each path. *)
Class JsonPaths := {
  json_path : path → str;
  json_path_line p : 10 ∉ json_path p;
  json_path_inj p q : json_path p = json_path q → p = q;
}.
Definition project_scope `{JsonPaths} (root : path) : str := json_path root ++ [10].

(** [DELETE .. WHERE kind = ?1 AND substr(key, 1, length(?2)) = ?2]. *)
Definition forget_project_classpaths `{JsonPaths} (root : path) (rows : list Row) : list Row :=
  let scope := project_scope root in
  filter (λ r, ¬ (row_kind r = CLASSPATH_KIND ∧ take (length scope) (row_key r) = scope)) rows.

(** ** Lemmas: the table *)

(** One row for a primary key, one for a number, and the sizes are right. *)
Record table_wf (rows : list Row) : Prop := {
  wf_keys : NoDup (row_entry <$> rows);
  wf_ids : NoDup (rowid <$> rows);
  wf_bytes : Forall (λ r, row_bytes r = entry_bytes (row_key r) (row_payload r)) rows;
}.

Lemma table_wf_perm rows rows' : rows ≡ₚ rows' → table_wf rows → table_wf rows'.
Proof. intros Hp [Hk Hi Hb]. split; [by rewrite <- Hp..]. Qed.

Lemma NoDup_fmap_filter {A B} (f : A → B) (P : A → Prop) `{∀ x, Decision (P x)} l : NoDup (f <$> l) → NoDup (f <$> filter P l).
Proof.
  induction l as [|x l IH]; [done|]. intros [Hx Hl]%NoDup_cons. rewrite filter_cons. case_decide; [|auto].
  apply NoDup_cons. split; [|auto]. intros (y & Hy & [_ Hin]%list_elem_of_filter)%list_elem_of_fmap. apply Hx, list_elem_of_fmap. by exists y.
Qed.

Lemma table_wf_filter (P : Row → Prop) `{∀ r, Decision (P r)} rows : table_wf rows → table_wf (filter P rows).
Proof.
  intros [Hk Hi Hb]. split; [by apply NoDup_fmap_filter..|]. rewrite Forall_forall in Hb |- *.
  intros r [_ Hr]%list_elem_of_filter. auto.
Qed.

Lemma load_spec kind key tool rows payload :
  table_wf rows →
  load kind key tool rows = Some payload ↔ ∃ r, r ∈ rows ∧ row_entry r = (kind, key, tool) ∧ row_payload r = payload.
Proof.
  intros [Hk _ _]. unfold load. split.
  - intros (r & Hr & ->)%fmap_Some. exists r. apply head_Some in Hr as [l Hl].
    assert (r ∈ filter (λ r, row_entry r = (kind, key, tool)) rows) as [He Hr]%list_elem_of_filter by (rewrite Hl; by left). done.
  - intros (r & Hr & He & <-). destruct (filter _ rows) as [|s l] eqn:Hf.
    + assert (r ∈ filter (λ r, row_entry r = (kind, key, tool)) rows) as Hin by by apply list_elem_of_filter. rewrite Hf in Hin.
      by apply elem_of_nil in Hin.
    + assert (s ∈ filter (λ r, row_entry r = (kind, key, tool)) rows) as [Hes Hs]%list_elem_of_filter by (rewrite Hf; by left).
      simpl. f_equal. apply list_elem_of_lookup in Hr as [i Hi], Hs as [j Hj].
      assert (i = j) as ->; [|congruence]. eapply NoDup_lookup; [exact Hk| |]; rewrite list_lookup_fmap; [by rewrite Hi|].
      rewrite Hj. simpl. congruence.
Qed.

Lemma load_ext kind key tool rows rows' :
  table_wf rows → table_wf rows' →
  (∀ payload, (∃ r, r ∈ rows ∧ row_entry r = (kind, key, tool) ∧ row_payload r = payload) ↔
              ∃ r, r ∈ rows' ∧ row_entry r = (kind, key, tool) ∧ row_payload r = payload) →
  load kind key tool rows = load kind key tool rows'.
Proof. intros Hw Hw' Hext. apply option_eq. intros payload. by rewrite !load_spec. Qed.

Section Writes.
Context `{RowIds}.

Lemma upsert_wf kind key tool payload now rows : table_wf rows → table_wf (upsert kind key tool payload now rows).
Proof.
  intros Hw. unfold upsert. set (others := filter _ rows). destruct (table_wf_filter (λ r, row_entry r ≠ (kind, key, tool)) rows Hw) as [Hk Hi Hb].
  fold others in Hk, Hi, Hb. split.
  - rewrite fmap_app. apply NoDup_app. split_and!; [done| |by apply NoDup_singleton].
    intros e (r & -> & [Hr _]%list_elem_of_filter)%list_elem_of_fmap. simpl. rewrite list_elem_of_singleton. done.
  - rewrite fmap_app. apply NoDup_app. split_and!; [done| |by apply NoDup_singleton].
    intros i Hin. simpl. rewrite list_elem_of_singleton. intros ->. by apply (new_rowid_fresh others).
  - apply Forall_app. split; [done|]. by apply Forall_singleton.
Qed.

Lemma touch_row_same now kind key tool r :
  row_entry (touch_row now kind key tool r) = row_entry r ∧ rowid (touch_row now kind key tool r) = rowid r ∧
  row_payload (touch_row now kind key tool r) = row_payload r ∧ row_bytes (touch_row now kind key tool r) = row_bytes r ∧
  row_key (touch_row now kind key tool r) = row_key r.
Proof. unfold touch_row. by case_bool_decide. Qed.

Lemma touch_wf now kind key tool rows : table_wf rows → table_wf (touch now kind key tool rows).
Proof.
  intros [Hk Hi Hb]. unfold touch. split.
  - rewrite <- list_fmap_compose. erewrite list_fmap_ext; [exact Hk|]. intros i r _. apply touch_row_same.
  - rewrite <- list_fmap_compose. erewrite list_fmap_ext; [exact Hi|]. intros i r _. apply touch_row_same.
  - apply Forall_fmap. eapply Forall_impl; [exact Hb|]. intros r Hr. cbv beta. simpl.
    destruct (touch_row_same now kind key tool r) as (_ & _ & -> & -> & ->). done.
Qed.

Lemma load_upsert kind key tool payload now rows kind' key' tool' :
  table_wf rows →
  load kind' key' tool' (upsert kind key tool payload now rows)
  = if decide ((kind', key', tool') = (kind, key, tool)) then Some payload else load kind' key' tool' rows.
Proof.
  intros Hw. pose proof (upsert_wf kind key tool payload now rows Hw) as Hw'. apply option_eq. intros p. rewrite load_spec by done.
  unfold upsert. setoid_rewrite elem_of_app. setoid_rewrite list_elem_of_filter. setoid_rewrite list_elem_of_singleton.
  case_decide as He.
  - split.
    + intros (r & [[Hr _]| ->] & Hr' & <-); [congruence|done].
    + intros [= <-]. eexists. split; [right; reflexivity|done].
  - rewrite load_spec by done. split.
    + intros (r & [[_ Hr]| ->] & Hr' & Hp); [by exists r|]. unfold row_entry in Hr'. simpl in Hr'. congruence.
    + intros (r & Hr & Hr' & Hp). exists r. split; [|done]. left. split; [congruence|done].
Qed.

Lemma load_touch now kind key tool rows kind' key' tool' :
  table_wf rows → load kind' key' tool' (touch now kind key tool rows) = load kind' key' tool' rows.
Proof.
  intros Hw. apply load_ext; [by apply touch_wf|done|]. intros p. unfold touch. setoid_rewrite list_elem_of_fmap. split.
  - intros (r & (s & -> & Hs) & He & Hp). exists s. destruct (touch_row_same now kind key tool s) as (He' & _ & Hp' & _). by rewrite <- He', <- Hp'.
  - intros (s & Hs & He & Hp). exists (touch_row now kind key tool s). split; [by exists s|].
    destruct (touch_row_same now kind key tool s) as (-> & _ & -> & _). done.
Qed.

(** What an update writes for a key of a tool: of two records with one key the later. *)
Definition written (update : CacheUpdate) (kind : EntryKind) (key : str) : option (list N) :=
  match kind with
  | CLASSPATH_KIND => '(context, payload) ← update_classpath update; if decide (context = key) then Some payload else None
  | RECORD_KIND => last (omap (λ r, k ← r.1; if decide (k = key) then Some r.2 else None) (update_records update))
  end.

Lemma upserts_spec tool now records rows kind key tool' :
  table_wf rows →
  let rows' := foldl (λ rows (r : option str * list N), match r.1 with Some k => upsert RECORD_KIND k tool r.2 now rows | None => rows end) rows records in
  table_wf rows' ∧
  load kind key tool' rows' =
    match (if decide (kind = RECORD_KIND ∧ tool' = tool)
           then last (omap (λ r, k ← r.1; if decide (k = key) then Some r.2 else None) records) else None) with
    | Some p => Some p
    | None => load kind key tool' rows
    end.
Proof.
  revert rows. induction records as [|[[k|] p] records IH]; intros rows Hw; cbn [foldl fst snd].
  - split; [done|]. by destruct (decide _).
  - destruct (IH _ (upsert_wf RECORD_KIND k tool p now rows Hw)) as [Hw' ->]. split; [done|].
    rewrite load_upsert by done. destruct (decide (kind = RECORD_KIND ∧ tool' = tool)) as [[-> ->]|Hne].
    + cbn [omap list_omap fst snd mbind option_bind]. destruct (decide (k = key)) as [->|Hk].
      * rewrite last_cons. rewrite decide_True by done. by destruct (last _).
      * by rewrite decide_False by congruence.
    + rewrite decide_False; [done|]. intros Heq. injection Heq as -> _ ->. by apply Hne.
  - destruct (IH rows Hw) as [Hw' ->]. done.
Qed.

Lemma touches_spec tool now keys rows kind key tool' :
  table_wf rows →
  let rows' := foldl (λ rows k, touch now RECORD_KIND k tool rows) rows keys in
  table_wf rows' ∧ load kind key tool' rows' = load kind key tool' rows.
Proof.
  revert rows. induction keys as [|k keys IH]; intros rows Hw; cbn [foldl]; [done|].
  destruct (IH _ (touch_wf now RECORD_KIND k tool rows Hw)) as [Hw' ->]. split; [done|]. by apply load_touch.
Qed.

(** An update replaces what it writes, and nothing else. *)
Lemma apply_update_spec tool now update rows kind key tool' :
  table_wf rows →
  table_wf (apply_update tool now update rows) ∧
  load kind key tool' (apply_update tool now update rows) =
    match (if decide (tool' = tool) then written update kind key else None) with
    | Some p => Some p
    | None => load kind key tool' rows
    end.
Proof.
  intros Hw. unfold apply_update.
  set (rows1 := match update_classpath update with Some (c, p) => upsert CLASSPATH_KIND c tool p now rows | None => rows end).
  assert (Hw1 : table_wf rows1) by (unfold rows1; destruct (update_classpath update) as [[c p]|]; [by apply upsert_wf|done]).
  assert (Hl1 : load kind key tool' rows1 = match (if decide (kind = CLASSPATH_KIND ∧ tool' = tool)
      then ('(c, p) ← update_classpath update; if decide (c = key) then Some p else None) else None) with
      | Some p => Some p | None => load kind key tool' rows end).
  { unfold rows1. destruct (update_classpath update) as [[c p]|]; [|by destruct (decide _)]. rewrite load_upsert by done. cbn [mbind option_bind].
    repeat case_decide; naive_solver. }
  destruct (upserts_spec tool now (update_records update) rows1 kind key tool' Hw1) as [Hw2 Hl2].
  destruct (touches_spec tool now (omap id (update_reused update)) _ kind key tool' Hw2) as [Hw3 Hl3].
  split; [exact Hw3|]. rewrite Hl3, Hl2, Hl1. unfold written. destruct kind.
  - rewrite (decide_False (P := RECORD_KIND = CLASSPATH_KIND ∧ tool' = tool)) by naive_solver.
    destruct (decide (tool' = tool)) as [->|Hne]; [by rewrite decide_True by done|by rewrite decide_False by naive_solver].
  - rewrite (decide_False (P := CLASSPATH_KIND = RECORD_KIND ∧ tool' = tool)) by naive_solver.
    destruct (decide (tool' = tool)) as [->|Hne]; [by rewrite decide_True by done|by rewrite decide_False by naive_solver].
Qed.
End Writes.

(** ** Eviction *)

(** What is deleted is a beginning of the rows, long enough and no longer. *)
Lemma victims_spec excess l :
  ∃ n, victims excess l = rowid <$> take n l ∧ (n ≤ length l)%nat ∧
    ((excess ≤ Z.of_N (sum (row_bytes <$> take n l)))%Z ∨ n = length l) ∧
    ∀ m, (m < n)%nat → (Z.of_N (sum (row_bytes <$> take m l)) < excess)%Z.
Proof.
  revert excess. induction l as [|r l IH]; intros excess; cbn [victims].
  - exists 0%nat. split_and!; [done|done|by right|lia].
  - destruct (Z.leb_spec excess 0) as [Hle|Hgt].
    + exists 0%nat. split_and!; [done|lia|left; simpl; lia|lia].
    + destruct (IH (excess - Z.of_N (row_bytes r))%Z) as (n & Hv & Hn & Henough & Hleast). exists (S n). split_and!.
      * by rewrite Hv.
      * simpl. lia.
      * destruct Henough as [He| ->]; [left|by right]. cbn [take fmap list_fmap]. rewrite sum_cons. lia.
      * intros [|m] Hm; [simpl; lia|]. cbn [take fmap list_fmap]. rewrite sum_cons. specialize (Hleast m ltac:(lia)). lia.
Qed.

Lemma delete_taken ts rows :
  NoDup (rowid <$> ts ++ rows) → filter (λ r, rowid r ∉ rowid <$> ts) (ts ++ rows) = rows.
Proof.
  rewrite fmap_app. intros (_ & Hdis & _)%NoDup_app. rewrite filter_app.
  assert (Ht : filter (λ r, rowid r ∉ rowid <$> ts) ts = []).
  { apply elem_of_nil_inv. intros r [Hr Hin]%list_elem_of_filter. apply Hr, list_elem_of_fmap. by exists r. }
  rewrite Ht. cbn [app]. clear Ht. induction rows as [|r l IH]; [done|].
  rewrite filter_cons_True; [f_equal; apply IH; set_solver|]. intros Hin. by apply (Hdis _ Hin); left.
Qed.

Definition table_bytes (rows : list Row) : N := sum (row_bytes <$> rows).

Lemma table_bytes_perm rows rows' : rows ≡ₚ rows' → table_bytes rows = table_bytes rows'.
Proof. intros Hp. unfold table_bytes. apply sum_perm. by rewrite Hp. Qed.

(** The least recently used rows are deleted, and no more of them than the budget needs. *)
Lemma evict_spec max_bytes rows :
  table_wf rows →
  match evict_to_budget max_bytes rows with
  | Some rows' => table_wf rows' ∧ (∀ r, r ∈ rows' → r ∈ rows) ∧ table_bytes rows' ≤ to_i64 max_bytes ∧
      ∃ n, rows' ≡ₚ drop n (oldest rows) ∧ ∀ m, (m < n)%nat → to_i64 max_bytes < table_bytes (drop m (oldest rows))
  | None => i64_max < table_bytes rows
  end.
Proof.
  intros Hw. unfold evict_to_budget, total_bytes. cbv zeta. fold (table_bytes rows).
  destruct (N.leb_spec (table_bytes rows) i64_max) as [Htotal|Htotal]; [|done]. cbn [mbind option_bind].
  assert (Hperm : oldest rows ≡ₚ rows) by apply sort_with_perm.
  assert (Hsplit : ∀ n, table_bytes rows = table_bytes (take n (oldest rows)) + table_bytes (drop n (oldest rows))).
  { intros n. rewrite <- (table_bytes_perm _ _ Hperm). unfold table_bytes. by rewrite <- sum_app, <- fmap_app, take_drop. }
  destruct (Z.leb_spec (Z.of_N (table_bytes rows) - Z.of_N (to_i64 max_bytes)) 0) as [Hfits|Hover].
  - split; [done|]. split; [done|]. split; [lia|]. exists 0%nat. rewrite drop_0. split; [done|lia].
  - destruct (victims_spec (Z.of_N (table_bytes rows) - Z.of_N (to_i64 max_bytes))%Z (oldest rows)) as (n & -> & Hn & Henough & Hleast).
    assert (Hdrop : delete_rows (rowid <$> take n (oldest rows)) rows ≡ₚ drop n (oldest rows)).
    { unfold delete_rows. pose proof (delete_taken (take n (oldest rows)) (drop n (oldest rows))) as Hd.
      rewrite take_drop in Hd. rewrite <- Hd by (rewrite Hperm; apply Hw). by rewrite Hperm. }
    split; [by apply table_wf_filter|]. split; [by intros r [_ ?]%list_elem_of_filter|]. split.
    + rewrite (table_bytes_perm _ _ Hdrop). specialize (Hsplit n). destruct Henough as [He| ->].
      * fold (table_bytes (take n (oldest rows))) in He. lia.
      * rewrite drop_ge by lia. change (table_bytes []) with 0. lia.
    + exists n. split; [exact Hdrop|]. intros m Hm. specialize (Hleast m Hm). fold (table_bytes (take m (oldest rows))) in Hleast.
      specialize (Hsplit m). lia.
Qed.

(** ** Writes and lookups *)

Section History.
Context `{RowIds, JsonPaths}.

Lemma load_subset kind key tool rows rows' p :
  table_wf rows → table_wf rows' → (∀ r, r ∈ rows' → r ∈ rows) →
  load kind key tool rows' = Some p → load kind key tool rows = Some p.
Proof. intros Hw Hw' Hsub. rewrite !load_spec by done. intros (r & Hr & Hrest). exists r. auto. Qed.

(** What a committed write leaves. *)
Lemma cache_write_spec tool max_bytes now update rows :
  table_wf rows →
  match try_write tool max_bytes now update rows with
  | Some rows' => table_wf rows' ∧
      ∀ kind key tool' p, load kind key tool' rows' = Some p →
         match (if decide (tool' = tool) then written update kind key else None) with
         | Some q => p = q
         | None => load kind key tool' rows = Some p
         end
  | None => True
  end.
Proof.
  intros Hw. unfold try_write.
  destruct (apply_update_spec tool (to_i64 now) update rows RECORD_KIND [] tool Hw) as [Hu _].
  pose proof (evict_spec max_bytes _ Hu) as He. destruct (evict_to_budget max_bytes _) as [rows'|]; [|done].
  destruct He as (Hw' & Hsub & _). split; [done|].
  intros kind key tool' p Hp. apply (load_subset _ _ _ _ _ _ Hu Hw' Hsub) in Hp.
  rewrite (proj2 (apply_update_spec tool (to_i64 now) update rows kind key tool' Hw)) in Hp.
  destruct (if decide (tool' = tool) then _ else _); [by injection Hp as <-|exact Hp].
Qed.

(** A write keeps the cache within its budget and loses as little as it can: when it commits,
    the table is well formed and within the budget, and what the update does not leave room for
    is exactly the least recently used rows, as few of them as it takes; a lookup then gives what
    the update wrote, or what was there before, or nothing; and the only error is a table whose
    total size is no 64-bit integer. *)
Theorem cache_write_exact tool max_bytes now update rows :
  table_wf rows →
  match try_write tool max_bytes now update rows with
  | Some rows' =>
      let updated := apply_update tool (to_i64 now) update rows in
      table_wf rows' ∧ table_bytes rows' ≤ to_i64 max_bytes ∧
      (∃ n, rows' ≡ₚ drop n (oldest updated) ∧ ∀ m, (m < n)%nat → to_i64 max_bytes < table_bytes (drop m (oldest updated))) ∧
      (∀ kind key tool' p, load kind key tool' rows' = Some p →
         match (if decide (tool' = tool) then written update kind key else None) with
         | Some q => p = q
         | None => load kind key tool' rows = Some p
         end)
  | None => i64_max < table_bytes (apply_update tool (to_i64 now) update rows)
  end.
Proof.
  intros Hw. pose proof (cache_write_spec tool max_bytes now update rows Hw) as Hl.
  destruct (apply_update_spec tool (to_i64 now) update rows RECORD_KIND [] tool Hw) as [Hu _].
  pose proof (evict_spec max_bytes _ Hu) as He. unfold try_write in *. destruct (evict_to_budget max_bytes _) as [rows'|]; [|done].
  destruct He as (Hw' & _ & Hbytes & Hlru). by destruct Hl.
Qed.

(** The tables a cache can have, by what processes did to it, with the last payload each key of a
    tool was given and not made to forget. *)
Abbreviation memory := (EntryKind → str → str → option (list N)) (only parsing).
Inductive history : list Row → memory → Prop :=
| history_created : history [] (λ _ _ _, None)
| history_write tool max_bytes now update rows rows' m :
    history rows m → try_write tool max_bytes now update rows = Some rows' →
    history rows' (λ kind key tool',
      match (if decide (tool' = tool) then written update kind key else None) with
      | Some p => Some p
      | None => m kind key tool'
      end)
| history_forget root rows m :
    history rows m →
    history (forget_project_classpaths root rows) (λ kind key tool,
      if decide (kind = CLASSPATH_KIND ∧ take (length (project_scope root)) key = project_scope root) then None else m kind key tool)
| history_recreated rows m : history rows m → history [] (λ _ _ _, None).

Lemma history_spec rows m :
  history rows m →
  table_wf rows ∧ ∀ kind key tool p, load kind key tool rows = Some p → m kind key tool = Some p.
Proof.
  induction 1 as [|tool max_bytes now update rows rows' m _ [Hw IH] Hwrite|root rows m _ [Hw IH]|rows m _ _].
  - split; [split; constructor|done].
  - pose proof (cache_write_spec tool max_bytes now update rows Hw) as Hc. rewrite Hwrite in Hc. destruct Hc as (Hw' & Hl).
    split; [done|]. intros kind key tool' p Hp%Hl. destruct (if decide (tool' = tool) then _ else _); [by rewrite Hp|by apply IH].
  - unfold forget_project_classpaths. cbv zeta. pose proof (table_wf_filter (λ r, ¬ (row_kind r = CLASSPATH_KIND ∧ take (length (project_scope root)) (row_key r) = project_scope root)) rows Hw) as Hw'.
    split; [done|]. intros kind key tool p. rewrite load_spec by done. intros (r & [Hnot Hr]%list_elem_of_filter & He & Hp).
    unfold row_entry in He. injection He as <- <- <-. rewrite decide_False by done. apply IH, load_spec; [done|]. by exists r.
  - split; [split; constructor|done].
Qed.

(** C9: A lookup never gives stale data: whatever processes wrote, evicted, made the cache forget
    or rebuilt, and in whatever order, the table stays well formed, and a payload that is found is
    the last one the same tool version wrote under that key, and not one it was made to forget. *)
Theorem cached_is_last_written rows m :
  history rows m →
  table_wf rows ∧ ∀ kind key tool p, load kind key tool rows = Some p → m kind key tool = Some p.
Proof. apply history_spec. Qed.
End History.

(** ** Forgetting a project *)

Lemma scope_prefix `{JsonPaths} root root' id :
  take (length (project_scope root)) (project_scope root' ++ id) = project_scope root ↔ root' = root.
Proof.
  split; [|by intros ->; rewrite take_app_length].
  intros Htake. pose proof (take_drop (length (project_scope root)) (project_scope root' ++ id)) as Heq. rewrite Htake in Heq.
  clear Htake. revert Heq. generalize (drop (length (project_scope root)) (project_scope root' ++ id)). intros x Heq.
  unfold project_scope in Heq. rewrite <- !app_assoc in Heq. cbn [app] in Heq. apply json_path_inj.
  pose proof (json_path_line root) as Hr. pose proof (json_path_line root') as Hr'.
  revert Heq Hr Hr'. generalize (json_path root) (json_path root').
  intros a b. revert b. induction a as [|c a IH]; intros [|d b] Heq Ha Hb; cbn [app] in Heq; [done|..].
  - injection Heq as Hd _. subst d. set_solver.
  - injection Heq as Hc _. subst c. set_solver.
  - injection Heq as -> Heq. f_equal. apply IH; [done|set_solver..].
Qed.

(** Forgetting a project removes every classpath of it, whatever it was resolved with, and
    nothing else: the classpaths of other projects and every record are found as before. *)
Theorem forget_exact `{JsonPaths} root rows :
  table_wf rows →
  (∀ root' id tool, load CLASSPATH_KIND (project_scope root' ++ id) tool (forget_project_classpaths root rows)
     = if decide (root' = root) then None else load CLASSPATH_KIND (project_scope root' ++ id) tool rows) ∧
  (∀ key tool, load RECORD_KIND key tool (forget_project_classpaths root rows) = load RECORD_KIND key tool rows).
Proof.
  intros Hw. unfold forget_project_classpaths. cbv zeta.
  set (P := λ r, ¬ (row_kind r = CLASSPATH_KIND ∧ take (length (project_scope root)) (row_key r) = project_scope root)).
  pose proof (table_wf_filter P rows Hw) as Hw'.
  assert (Hkeep : ∀ kind key tool, ¬ (kind = CLASSPATH_KIND ∧ take (length (project_scope root)) key = project_scope root) →
    load kind key tool (filter P rows) = load kind key tool rows).
  { intros kind key tool Hk. apply load_ext; [done..|]. intros p. setoid_rewrite list_elem_of_filter. split.
    - intros (r & [_ Hr] & He & Hp). by exists r.
    - intros (r & Hr & He & Hp). exists r. split; [|done]. split; [|done]. unfold P. unfold row_entry in He. injection He as Ek Ekey _. by rewrite Ek, Ekey. }
  split.
  - intros root' id tool. case_decide as Hroot; [|apply Hkeep; rewrite scope_prefix; tauto].
    subst root'. apply eq_None_not_Some. intros [p Hp%load_spec]; [|done]. destruct Hp as (r & [Hr _]%list_elem_of_filter & He & _).
    unfold row_entry in He. injection He as Hk Hkey _. apply Hr. split; [done|]. rewrite Hkey. by apply scope_prefix.
  - intros key tool. apply Hkeep. by intros [? _].
Qed.

(** ** Recovery *)

(** The database file is numbered by how often it was created again.  A process that finds it
    damaged has read the recovery epoch under a shared lock before it opened the file; it then
    takes the exclusive lock, and deletes and creates the file again if the epoch is still that. *)
Inductive Recovery :=
| Idle
| EpochRead (epoch : N)
| Diagnosed (epoch file : N)
| Recovering (epoch file : N)
| Recreated.
#[export] Instance Recovery_eq_dec : EqDecision Recovery.
Proof. solve_decision. Defined.
Record CacheFile := {
  file_number : N;
  stored_epoch : N;
  processes : list Recovery;
}.
Definition set_process (i : nat) (p : Recovery) (s : CacheFile) : CacheFile :=
  {| file_number := file_number s; stored_epoch := stored_epoch s; processes := <[i := p]> (processes s) |}.

(** A process that holds the exclusive lock; no other takes any lock meanwhile. *)
Definition holds_lock (p : Recovery) : Prop := match p with Recovering _ _ | Recreated => True | _ => False end.
Definition unlocked (s : CacheFile) : Prop := ∀ i p, processes s !! i = Some p → ¬ holds_lock p.

Definition wrapping_add (a b : N) : N := (a + b) mod 2 ^ 64.

(** A step of one of the processes; the label is a deletion of the file, with the file the
    process had found damaged.  The lock may be released without a deletion; with [faulty], writing the epoch
    may fail too, with the lock file as it was or emptied. *)
Inductive recovery_step (faulty : bool) (s : CacheFile) : option (N * N) → CacheFile → Prop :=
| step_read_epoch i :
    processes s !! i = Some Idle → unlocked s →
    recovery_step faulty s None (set_process i (EpochRead (stored_epoch s)) s)
| step_diagnose i e :
    processes s !! i = Some (EpochRead e) → unlocked s →
    recovery_step faulty s None (set_process i (Diagnosed e (file_number s)) s)
| step_healthy i e :
    processes s !! i = Some (EpochRead e) → recovery_step faulty s None (set_process i Idle s)
| step_lock i e g :
    processes s !! i = Some (Diagnosed e g) → unlocked s →
    recovery_step faulty s None (set_process i (Recovering e g) s)
| step_already_recovered i e g :
    processes s !! i = Some (Recovering e g) → stored_epoch s ≠ e →
    recovery_step faulty s None (set_process i Idle s)
| step_reset_failed i e g :
    processes s !! i = Some (Recovering e g) → recovery_step faulty s None (set_process i Idle s)
| step_recreate i e g :
    processes s !! i = Some (Recovering e g) → stored_epoch s = e →
    recovery_step faulty s (Some (g, file_number s))
      {| file_number := file_number s + 1; stored_epoch := stored_epoch s; processes := <[i := Recreated]> (processes s) |}
| step_write_epoch i :
    processes s !! i = Some Recreated →
    recovery_step faulty s None
      {| file_number := file_number s; stored_epoch := wrapping_add (stored_epoch s) 1; processes := <[i := Idle]> (processes s) |}
| step_epoch_lost i e :
    faulty = true → processes s !! i = Some Recreated → e = stored_epoch s ∨ e = 0 →
    recovery_step faulty s None
      {| file_number := file_number s; stored_epoch := e; processes := <[i := Idle]> (processes s) |}.

Inductive recovery_run (faulty : bool) : CacheFile → Prop :=
| run_start n : recovery_run faulty {| file_number := 0; stored_epoch := 0; processes := replicate n Idle |}
| run_step s l s' : recovery_run faulty s → recovery_step faulty s l s' → recovery_run faulty s'.

(** One process at most holds the lock; the epoch numbers the file, but for a file that was just
    created again; and what a process read is not newer than what it found damaged. *)
Record recovery_inv (s : CacheFile) : Prop := {
  inv_exclusive : ∀ i j p q, processes s !! i = Some p → processes s !! j = Some q → holds_lock p → holds_lock q → i = j;
  inv_epoch : stored_epoch s + (if decide (Recreated ∈ processes s) then 1 else 0) = file_number s;
  inv_read : ∀ i p, processes s !! i = Some p →
    match p with
    | EpochRead e => e ≤ stored_epoch s
    | Diagnosed e g | Recovering e g => e ≤ g ≤ file_number s
    | _ => True
    end;
}.

Lemma unlocked_not_recreated s : unlocked s → Recreated ∉ processes s.
Proof. intros Hu [i Hi]%list_elem_of_lookup. by apply (Hu i Recreated Hi). Qed.

(** Setting the state of a process that does not take the lock. *)
Lemma set_process_inv i p old s :
  recovery_inv s → processes s !! i = Some old → old ≠ Recreated → (holds_lock p → holds_lock old ∨ unlocked s) →
  p ≠ Recreated →
  match p with
  | EpochRead e => e ≤ stored_epoch s
  | Diagnosed e g | Recovering e g => e ≤ g ≤ file_number s
  | _ => True
  end →
  recovery_inv (set_process i p s).
Proof.
  intros [Hex Hep Hrd] Hi Hold Hlock Hp Hread. pose proof (lookup_lt_Some _ _ _ Hi) as Hlen.
  assert (Hlook : ∀ j q, processes (set_process i p s) !! j = Some q → (j = i ∧ q = p) ∨ (j ≠ i ∧ processes s !! j = Some q)).
  { intros j q Hq. cbn [set_process processes] in Hq. destruct (decide (i = j)) as [<-|Hne].
    - rewrite list_lookup_insert_eq in Hq by done. left. split; [done|congruence].
    - rewrite list_lookup_insert_ne in Hq by done. right. split; [congruence|done]. }
  split.
  - intros j k a b [[-> ->]|[Hj Ha]]%Hlook [[-> ->]|[Hk Hb]]%Hlook Hla Hlb; [done| | |by eapply Hex].
    + destruct (Hlock Hla) as [Ho|Hu]; [by eapply Hex|by destruct (Hu _ _ Hb)].
    + destruct (Hlock Hlb) as [Ho|Hu]; [by eapply Hex|by destruct (Hu _ _ Ha)].
  - cbn [set_process stored_epoch file_number processes]. rewrite <- Hep. f_equal.
    assert (Recreated ∈ <[i := p]> (processes s) ↔ Recreated ∈ processes s) as Hiff.
    { split; intros [j Hj]%list_elem_of_lookup; apply list_elem_of_lookup; exists j.
      - destruct (Hlook j _ Hj) as [[_ ?]|[_ ?]]; [congruence|done].
      - assert (i ≠ j) by (intros ->; congruence). by rewrite list_lookup_insert_ne. }
    by destruct (decide (Recreated ∈ <[i := p]> (processes s))), (decide (Recreated ∈ processes s)); tauto.
  - intros j q [[-> ->]|[_ Hq]]%Hlook; [done|]. by apply (Hrd j).
Qed.

Lemma insert_lookup_cases {A} (l : list A) i j x y : <[i := x]> l !! j = Some y → (j = i ∧ y = x) ∨ (j ≠ i ∧ l !! j = Some y).
Proof.
  intros Hj. destruct (decide (i = j)) as [<-|Hne].
  - left. split; [done|]. assert (i < length l)%nat as Hi by (apply lookup_lt_Some in Hj; by rewrite length_insert in Hj).
    rewrite list_lookup_insert_eq in Hj by done. congruence.
  - rewrite list_lookup_insert_ne in Hj by done. right. split; [congruence|done].
Qed.

(** The process that holds the lock created the file again, or no one did. *)
Lemma holder_recreated s i p :
  recovery_inv s → processes s !! i = Some p → holds_lock p → Recreated ∈ processes s ↔ p = Recreated.
Proof.
  intros Hinv Hi Hp. split.
  - intros [j Hj]%list_elem_of_lookup. assert (i = j) as -> by (by eapply (inv_exclusive _ Hinv)). congruence.
  - intros ->. apply list_elem_of_lookup. by exists i.
Qed.

(** Deleting the file it found damaged, the only holder of the lock. *)
Lemma recreate_inv s i e g :
  recovery_inv s → processes s !! i = Some (Recovering e g) → stored_epoch s = e →
  g = file_number s ∧
  recovery_inv {| file_number := file_number s + 1; stored_epoch := stored_epoch s; processes := <[i := Recreated]> (processes s) |}.
Proof.
  intros Hinv Hi He. pose proof (holder_recreated s i _ Hinv Hi I) as Hno. destruct Hinv as [Hex Hep Hrd].
  rewrite decide_False in Hep by (intros ?%Hno; done). pose proof (Hrd i _ Hi) as Hg. simpl in Hg. split; [lia|].
  split; cbn [file_number stored_epoch processes].
  - intros j k p q [[-> ->]|[Hj Hp]]%insert_lookup_cases [[-> ->]|[Hk Hq]]%insert_lookup_cases Hlp Hlq; [done|..|by eapply Hex].
    + by eapply (Hex i k).
    + by eapply (Hex j i).
  - rewrite decide_True; [lia|]. apply list_elem_of_lookup. exists i. apply list_lookup_insert_eq. by eapply lookup_lt_Some.
  - intros j p [[_ ->]|[_ Hp]]%insert_lookup_cases; [done|]. specialize (Hrd j p Hp). destruct p; lia || done.
Qed.

Lemma write_epoch_inv s i :
  recovery_inv s → processes s !! i = Some Recreated → file_number s < 2 ^ 64 →
  recovery_inv {| file_number := file_number s; stored_epoch := wrapping_add (stored_epoch s) 1; processes := <[i := Idle]> (processes s) |}.
Proof.
  intros Hinv Hi Hn. pose proof (holder_recreated s i _ Hinv Hi I) as Hyes. destruct Hinv as [Hex Hep Hrd].
  rewrite decide_True in Hep by by apply Hyes.
  assert (wrapping_add (stored_epoch s) 1 = file_number s) as Hw by (unfold wrapping_add; rewrite N.mod_small; lia).
  split; cbn [file_number stored_epoch processes].
  - intros j k p q [[-> ->]|[Hj Hp]]%insert_lookup_cases [[-> ->]|[Hk Hq]]%insert_lookup_cases Hlp Hlq; [done..|by eapply Hex].
  - rewrite decide_False; [lia|]. intros [j [[_ ?]|[Hj Hp]]%insert_lookup_cases]%list_elem_of_lookup; [done|].
    apply Hj. symmetry. by eapply (Hex i j).
  - intros j p [[_ ->]|[_ Hp]]%insert_lookup_cases; [done|]. specialize (Hrd j p Hp). destruct p; lia || done.
Qed.

Lemma recovery_step_inv s l s' :
  recovery_inv s → recovery_step false s l s' → file_number s' < 2 ^ 64 →
  recovery_inv s' ∧ ∀ g d, l = Some (g, d) → g = d.
Proof.
  intros Hinv Hstep Hn.
  destruct Hstep as [i Hi Hu|i e Hi Hu|i e Hi|i e g Hi Hu|i e g Hi He|i e g Hi|i e g Hi He|i Hi|i e Hf Hi]; [| | | | | | | |done].
  - split; [|done]. eapply set_process_inv; [done|exact Hi|done..|]. done.
  - split; [|done]. eapply set_process_inv; [done|exact Hi|done..|].
    pose proof (inv_read _ Hinv _ _ Hi) as Hr. simpl in Hr. pose proof (inv_epoch _ Hinv) as Hep. split; [|done].
    rewrite decide_False in Hep by by apply unlocked_not_recreated. lia.
  - split; [|done]. by eapply set_process_inv; [done|exact Hi|..].
  - split; [|done]. eapply set_process_inv; [done|exact Hi|done|by right|done|]. exact (inv_read _ Hinv _ _ Hi).
  - split; [|done]. by eapply set_process_inv; [done|exact Hi|..].
  - split; [|done]. by eapply set_process_inv; [done|exact Hi|..].
  - destruct (recreate_inv s i e g Hinv Hi He) as [-> Hinv']. split; [done|]. by intros ? ? [= <- <-].
  - split; [|done]. by apply write_epoch_inv.
Qed.

Lemma file_number_grows faulty s l s' : recovery_step faulty s l s' → file_number s ≤ file_number s'.
Proof. destruct 1; simpl; lia. Qed.

Lemma recovery_run_inv s : recovery_run false s → file_number s < 2 ^ 64 → recovery_inv s.
Proof.
  induction 1 as [n|s l s' Hrun IH Hstep]; intros Hn.
  - assert (Hidle : ∀ i p, replicate n Idle !! i = Some p → p = Idle) by (by intros i p [-> _]%lookup_replicate_1).
    split; cbn [processes file_number stored_epoch].
    + by intros i j p q ->%Hidle.
    + rewrite decide_False; [done|]. by intros [i ?%Hidle]%list_elem_of_lookup.
    + by intros i p ->%Hidle.
  - pose proof (file_number_grows _ _ _ _ Hstep). by eapply recovery_step_inv; [apply IH; lia|..].
Qed.


(** When writing the epoch fails after the file was created again, a process that had diagnosed
    the old file deletes the new one. *)
Theorem lost_epoch_deletes_valid :
  ∃ s s', recovery_run true s ∧ recovery_step true s (Some (0, 1)) s'.
Proof.
  set (state f a b := {| file_number := f; stored_epoch := 0; processes := [a; b] |}).
  assert (Hu : ∀ f a b, ¬ holds_lock a → ¬ holds_lock b → unlocked (state f a b)).
  { intros f a b Ha Hb [|[|i]] p; simpl; [by intros [= <-]..|by rewrite lookup_nil]. }
  assert (Hrun : recovery_run true (state 1 Idle (Diagnosed 0 0))).
  { apply (run_step _ (state 1 Recreated (Diagnosed 0 0)) None); [|apply (step_epoch_lost _ (state 1 _ _) 0 0); [done..|by left]].
    apply (run_step _ (state 0 (Recovering 0 0) (Diagnosed 0 0)) (Some (0, 0))); [|by apply (step_recreate _ (state 0 _ _) 0 0 0)].
    apply (run_step _ (state 0 (Diagnosed 0 0) (Diagnosed 0 0)) None); [|apply (step_lock _ (state 0 _ _) 0 0 0); [done|apply Hu; by intros []]].
    apply (run_step _ (state 0 (Diagnosed 0 0) (EpochRead 0)) None); [|apply (step_diagnose _ (state 0 _ _) 1 0); [done|apply Hu; by intros []]].
    apply (run_step _ (state 0 (Diagnosed 0 0) Idle) None); [|apply (step_read_epoch _ (state 0 _ _) 1); [done|apply Hu; by intros []]].
    apply (run_step _ (state 0 (EpochRead 0) Idle) None); [|apply (step_diagnose _ (state 0 _ _) 0 0); [done|apply Hu; by intros []]].
    apply (run_step _ (state 0 Idle Idle) None); [|apply (step_read_epoch _ (state 0 _ _) 0); [done|apply Hu; by intros []]].
    apply (run_start true 2). }
  exists (state 1 Idle (Recovering 0 0)). eexists. split.
  - apply (run_step _ _ None _ Hrun). apply (step_lock _ (state 1 _ _) 1 0 0); [done|apply Hu; by intros []].
  - by apply (step_recreate _ (state 1 _ _) 1 0 0).
Qed.

(** ** Inputs of the properties *)

(** One more than the largest row number in use, as SQLite numbers rows. *)
Definition next_rowid (rows : list Row) : N := foldr N.max 0 (rowid <$> rows) + 1.
Lemma le_max_row n ids : n ∈ ids → n ≤ foldr N.max 0 ids.
Proof. induction 1 as [|? ? ? _ IH]; simpl; lia. Qed.
#[local] Instance next_rowids : RowIds.
Proof. refine {| new_rowid := next_rowid |}. intros rows Hin%le_max_row. unfold next_rowid in Hin. lia. Defined.

(** A text of each path on one line. *)
Definition spelled_name (name : str) : str := ((λ b, b + 11) <$> name) ++ [0].
Definition spelled (p : path) : str := p ≫= spelled_name.
Lemma spelled_line p : 10 ∉ spelled p.
Proof.
  unfold spelled. rewrite list_elem_of_bind. intros (name & [(b & ? & _)%list_elem_of_fmap|?%list_elem_of_singleton]%elem_of_app & _); lia.
Qed.
Lemma spelled_name_inj a b x y : spelled_name a ++ x = spelled_name b ++ y → a = b ∧ x = y.
Proof.
  unfold spelled_name. revert b. induction a as [|c a IH]; intros [|d b] Heq; simpl in Heq.
  - by injection Heq as ->.
  - injection Heq as Hd _. lia.
  - injection Heq as Hc _. lia.
  - injection Heq as Hc Heq. destruct (IH b Heq) as [-> ->]. split; [f_equal; lia|done].
Qed.
Lemma spelled_inj p q : spelled p = spelled q → p = q.
Proof.
  revert q. induction p as [|a p IH]; intros [|b q] Heq; [done|..].
  - by destruct b.
  - by destruct a.
  - apply spelled_name_inj in Heq as [-> ->%IH]. done.
Qed.
#[local] Instance spelled_paths : JsonPaths := {| json_path := spelled; json_path_line := spelled_line; json_path_inj := spelled_inj |}.

(** Two writes of one byte each to a cache of five bytes: the second evicts the first. *)
Definition one_record (key payload : N) : CacheUpdate :=
  {| update_classpath := None; update_records := [(Some [key; key], [payload])]; update_reused := [] |}.
Definition first_row : Row :=
  {| rowid := 1; row_kind := RECORD_KIND; row_key := [97; 97]; row_tool := [116]; row_payload := [7]; row_bytes := 3; last_used := 10 |}.
Definition second_row : Row :=
  {| rowid := 2; row_kind := RECORD_KIND; row_key := [98; 98]; row_tool := [116]; row_payload := [8]; row_bytes := 3; last_used := 11 |}.

Lemma cache_write_exact_witness :
  try_write [116] 5 11 (one_record 98 8) [first_row] = Some [second_row] ∧ table_wf [second_row] ∧
  load RECORD_KIND [98; 98] [116] [second_row] = Some [8].
Proof.
  assert (table_wf [first_row]) as Hw by (split; [apply NoDup_singleton..|by repeat constructor]).
  pose proof (cache_write_exact [116] 5 11 (one_record 98 8) [first_row] Hw) as H.
  replace (try_write [116] 5 11 (one_record 98 8) [first_row]) with (Some [second_row]) in * by (vm_compute; reflexivity).
  split; [done|]. split; [apply H|]. by vm_compute.
Defined.

Lemma cached_is_last_written_witness :
  ∃ m, history [second_row] m ∧ m RECORD_KIND [98; 98] [116] = Some [8].
Proof.
  assert (∃ m, history [second_row] m) as [m Hm].
  { eexists. eapply (history_write [116] 5 11 (one_record 98 8) [first_row]); [|by vm_compute].
    eapply (history_write [116] 5 10 (one_record 97 7) []); [constructor|by vm_compute]. }
  exists m. split; [done|]. destruct (cached_is_last_written [second_row] m Hm) as [_ H]. apply H. by vm_compute.
Defined.

