(* ===== verification/ClasspathManifest.v ===== *)
(** * ClasspathManifest: when a classpath of an earlier run is used again

    Models the classpath manifests of [src/index_cache.rs] and their use in [src/server.rs]: the
    key of a classpath context, the inputs of one resolution by Maven with the stamps and the
    variables they had, the manifest that is written to the on-disk cache, and the checks before
    its classpath is used instead of a run of Maven.  The file system is a stamp for each path at
    each moment; the JSON of a context and the codec of payloads are classes. *)

From S2P Require Import Prelude.
From S2P Require Import Text.
From S2P Require Import TextSearch.
From S2P Require Import Paths.
From S2P Require Import Ordering.
From S2P Require Import Config.
From S2P Require Import ProjectCache.
From S2P Require Import MavenEnvironment.
From S2P Require Import ModelInputs.
From S2P Require Import IndexCache.

Open Scope N_scope.

(** ** Inputs of one resolution *)

Record ResolutionInputs := {
  input_stamps : gmap (list (list N)) (option FileStamp);
  model_references : list str;
  model_environment : N;
}.

Definition new_inputs (stamps : gmap (list (list N)) (option FileStamp)) (references : list str)
    (variables : list (list N * list N)) : ResolutionInputs :=
  {| input_stamps := stamps; model_references := references;
     model_environment := referenced_digest variables references |}.

Definition matches_environment (variables : list (list N * list N)) (i : ResolutionInputs) : bool :=
  referenced_digest variables (model_references i) =? model_environment i.
Definition inputs_are_current (stamp : path → option FileStamp) (variables : list (list N * list N)) (i : ResolutionInputs) : bool :=
  fingerprint_is_current stamp (input_stamps i) && matches_environment variables i.
(** [is_settled] is [was_settled_at] of the present moment. *)
Definition inputs_were_settled_at (moment : N) (i : ResolutionInputs) : bool := fingerprint_was_settled_at moment (input_stamps i).

(** ** Manifests *)

Record ClasspathManifest := {
  manifest_context : str;
  manifest_project : gmap (list (list N)) (option FileStamp);
  manifest_inputs : ResolutionInputs;
  manifest_classpath : list path;
}.

Definition settled (now : N) (context : str) (project : gmap (list (list N)) (option FileStamp)) (inputs : ResolutionInputs)
    (classpath : list path) : option ClasspathManifest :=
  if fingerprint_was_settled_at now project && inputs_were_settled_at now inputs then
    Some {| manifest_context := context; manifest_project := project; manifest_inputs := inputs; manifest_classpath := classpath |}
  else None.

Definition reusable_classpath (stamp : path → option FileStamp) (exists_path : path → bool) (variables : list (list N * list N))
    (context : str) (project : gmap (list (list N)) (option FileStamp)) (m : ClasspathManifest)
    : option (list path * ResolutionInputs) :=
  if bool_decide (manifest_context m = context) && bool_decide (manifest_project m = project)
     && inputs_are_current stamp variables (manifest_inputs m) && forallb exists_path (manifest_classpath m)
  then Some (manifest_classpath m, manifest_inputs m) else None.

(** ** The key of a context *)

(** [{:016x}]. *)
Definition hex16 (n : N) : str := replicate (16 - length (to_hex n)) (ch "0") ++ to_hex n.

Definition INDEX_CACHE_FORMAT : N := 4.

Record ClasspathContext := {
  context_format : N;
  context_root : path;
  classpath_scope : str;
  context_executable : option str;
  context_repository : option str;
  context_network : bool;
  context_java : str;
  context_environment : str;
}.
(** [serde_json::to_string] of a context: the values of its fields can be read back. *)
Class JsonContexts := {
  json_context : ClasspathContext → str;
  json_context_inj c d : json_context c = json_context d → c = d;
}.

Definition java_identity (j : JavaEnvironment) : str :=
  match j with Inherit => lit "inherit" | Jenv root => lit "jenv:" ++ root end.
Definition context_of (root : path) (config : Config) (environment : N) : ClasspathContext :=
  {| context_format := INDEX_CACHE_FORMAT; context_root := root; classpath_scope := lit "test";
     context_executable := maven_executable (execution config); context_repository := execution_repository (execution config);
     context_network := network_enabled (execution config); context_java := java_identity (java_environment (execution config));
     context_environment := hex16 environment |}.
Definition context_key `{JsonPaths, JsonContexts} (root : path) (config : Config) (environment : N) : str :=
  project_scope root ++ json_context (context_of root config environment).

Definition classpath_context `{JsonPaths, JsonContexts, ScannedFiles} (variables : list (list N * list N)) (home : option path)
    (root : path) (config : Config) (reactor_poms installation : list path) : exec str :=
  referenced ← referenced_names (of_project root reactor_poms installation home);
  mret (context_key root config (environment_digest variables referenced)).

(** ** The files of one resolution *)

(** [<artifactId>-<version>.pom] beside an artifact. *)
Definition sibling_pom (artifact : path) : option path :=
  version_directory ← parent_directory artifact;
  version ← final_name version_directory;
  artifact_directory ← parent_directory version_directory;
  artifact_id ← final_name artifact_directory;
  Some (version_directory ++ [artifact_id ++ lit "-" ++ version ++ lit ".pom"]).

Definition repository_poms (classpath : list path) (repository_root : option path) : list path :=
  match repository_root with
  | None => []
  | Some root => omap sibling_pom (filter (λ p, path_starts_with root p = true) classpath)
  end.

(** [Path::ancestors]: the path, then its parents up to the root. *)
Definition ancestors (p : path) : list path := (λ n, take n p) <$> reverse (seq 0 (S (length p))).

Definition home_inputs (home : path) : list path :=
  [home ++ [lit ".m2"; lit "settings.xml"]; home ++ [lit ".m2"; lit "toolchains.xml"]; home ++ [lit ".m2"; lit "extensions.xml"];
   home ++ [lit ".mavenrc"]].
Definition java_inputs (root : path) (j : JavaEnvironment) : list path :=
  match j with
  | Inherit => []
  | Jenv jenv_root => (text_components jenv_root ++ [lit "version"]) :: ((λ d, d ++ [lit ".java-version"]) <$> ancestors root)
  end.
Definition classpath_inputs (home : option path) (root : path) (config : Config) (classpath : list path)
    (repository_root : option path) : list path :=
  dedup (sort ([[lit "etc"; lit "mavenrc"]] ++ from_option home_inputs [] home
               ++ java_inputs root (java_environment (execution config)) ++ repository_poms classpath repository_root)).

(** [WalkDir] below a directory, without the entries that cannot be read. *)
Class TreeFiles := {
  tree_is_directory : path → bool;
  tree_entries : path → list path;
}.
Definition tree_paths `{TreeFiles} (limits : ResourceLimits) (p : path) : list path :=
  if tree_is_directory p then take (N.to_nat (saturating_add (max_index_entries limits) 1)) (tree_entries p) else [p].
Definition capture_trees `{TreeFiles} (limits : ResourceLimits) (stamp : path → option FileStamp) (paths : list path)
    : gmap (list (list N)) (option FileStamp) :=
  capture stamp (paths ≫= tree_paths limits).

(** What one resolution read besides the model of the reactor; [None] must not be persisted. *)
Definition resolution_inputs `{XmlFiles, ModelFiles, ModelXml, TreeFiles} (limits : ResourceLimits) (fuel : nat)
    (stamp : path → option FileStamp) (variables : list (list N * list N)) (home : option path) (root : path) (config : Config)
    (classpath : list path) (repository_root : option path) (reactor_poms installation : list path) : exec (option ResolutionInputs) :=
  m ← model_inputs limits repository_root fuel reactor_poms (repository_poms classpath repository_root);
  mret match m with
       | None => None
       | Some m =>
           Some (new_inputs
                   (capture_trees limits stamp (classpath_inputs home root config classpath repository_root ++ installation ++ paths m))
                   (env_names m) variables)
       end.

(** ** The server: the classpath of a build *)

Definition reactor_poms_of (fingerprint_paths : list path) : list path := filter (λ p, last p = Some (lit "pom.xml")) fingerprint_paths.
Definition installation_of (homes : list path) : list path := homes ≫= λ home, [home ++ [lit "conf"]; home ++ [lit "lib"; lit "ext"]].

(** The first directory named [repository] on the way down to a path. *)
Fixpoint repository_prefix (root relative : path) : option path :=
  match relative with
  | [] => None
  | c :: relative => if bool_decide (c = lit "repository") then Some (root ++ [c]) else repository_prefix (root ++ [c]) relative
  end.
Definition layout_root (project_root p : path) : option path :=
  if path_starts_with project_root p then repository_prefix project_root (drop (length project_root) p) else repository_prefix [] p.
Definition configured_repository (config : Config) (l : list path) : option path :=
  repository ← text_components <$> execution_repository (execution config);
  if existsb (path_starts_with repository) l then Some repository else None.
Definition repository_root_for (l : list path) (project_root : path) (config : Config) : option path :=
  match configured_repository config l with
  | Some repository => Some repository
  | None => head (omap (layout_root project_root) l)
  end.
Definition has_indexable_jars (l : list path) (project_root : path) (has_repository : bool) : bool :=
  has_repository || existsb (path_starts_with project_root) l.

(** The inputs, if they and the project were settled when Maven started. *)
Definition capture_resolution_inputs `{XmlFiles, ModelFiles, ModelXml, TreeFiles} (limits : ResourceLimits) (fuel : nat)
    (stamp : path → option FileStamp) (variables : list (list N * list N)) (home : option path) (root : path) (config : Config)
    (classpath fingerprint_paths homes : list path) (project : gmap (list (list N)) (option FileStamp)) (started : N)
    : exec (option ResolutionInputs) :=
  inputs ← resolution_inputs limits fuel stamp variables home root config classpath (repository_root_for classpath root config)
             (reactor_poms_of fingerprint_paths) (installation_of homes);
  mret (inputs ← inputs;
        if fingerprint_was_settled_at started project && inputs_were_settled_at started inputs then Some inputs else None).

(** What [persist_build] writes of a classpath. *)
Definition persistable_manifest (stamp : path → option FileStamp) (variables : list (list N * list N)) (now : N) (context : str)
    (project : gmap (list (list N)) (option FileStamp)) (inputs : option ResolutionInputs) (classpath : list path)
    : option ClasspathManifest :=
  inputs ← inputs;
  if inputs_are_current stamp variables inputs then settled now context project inputs classpath else None.

(** [encode_payload] and [decode_payload] of a manifest. *)
Class ManifestCodec := {
  encode_manifest : ClasspathManifest → option (list N);
  decode_manifest : list N → option ClasspathManifest;
  decode_encoded m payload n : encode_manifest m = Some payload → decode_manifest payload = Some n → n = m;
}.
Definition persisted_classpath `{ManifestCodec} (tool : str) (stamp : path → option FileStamp) (exists_path : path → bool)
    (variables : list (list N * list N)) (context : str) (project : gmap (list (list N)) (option FileStamp)) (rows : list Row)
    : option (list path * ResolutionInputs) :=
  payload ← load CLASSPATH_KIND context tool rows;
  m ← decode_manifest payload;
  reusable_classpath stamp exists_path variables context project m.

(** ** Lemmas: keys *)

Lemma hex_digits_zeros n l : digits_value 16 0 (replicate n (ch "0") ++ l) = digits_value 16 0 l.
Proof. induction n as [|n IH]; [done|]. simpl. exact IH. Qed.
Lemma hex16_inj a b : hex16 a = hex16 b → a = b.
Proof.
  unfold hex16. intros H%(f_equal (digits_value 16 0)). rewrite !hex_digits_zeros in H. unfold to_hex in H.
  rewrite !to_digits_value in H by lia. by simplify_eq.
Qed.
Lemma java_identity_inj a b : java_identity a = java_identity b → a = b.
Proof. destruct a, b; simpl; [done|done|done|]. by intros [= ->]. Qed.

(** Two scopes are told apart by their first line. *)
Lemma scope_split `{JsonPaths} root root' x y : project_scope root ++ x = project_scope root' ++ y → root = root' ∧ x = y.
Proof.
  intros Heq. assert (root = root') as <-.
  { symmetry. apply (scope_prefix root root' y). rewrite <- Heq. by rewrite take_app_length. }
  split; [done|]. by apply app_inv_head in Heq.
Qed.

Lemma context_key_identifies `{JsonPaths, JsonContexts} root config environment root' config' environment' :
  context_key root config environment = context_key root' config' environment' →
  root = root' ∧ environment = environment' ∧
  maven_executable (execution config) = maven_executable (execution config') ∧
  execution_repository (execution config) = execution_repository (execution config') ∧
  network_enabled (execution config) = network_enabled (execution config') ∧
  java_environment (execution config) = java_environment (execution config').
Proof.
  unfold context_key. intros [-> Hj%json_context_inj]%scope_split. unfold context_of in Hj. injection Hj as He Hr Hn Hv Hx.
  split_and!; [done|by apply hex16_inj|done..|by apply java_identity_inj].
Qed.

(** ** Files in time *)

Section Time.
Context {C : Type} (content : N → path → option C) (stamp_at : N → path → option FileStamp).

(** What file systems promise of modification times: a path without a stamp does not exist, and
    the stamp of a file that is not what it was says a time at most [SETTLED_AGE] before the
    change. *)
Class FileTimes := {
  stamp_exists t p : stamp_at t p = None ↔ content t p = None;
  stamp_changes t u p s :
    t ≤ u → content t p ≠ content u p → stamp_at u p = Some s → ∃ v, t < v ≤ u ∧ v < modified_ns s + SETTLED_AGE;
}.

Lemma settled_unchanged `{!FileTimes, EqDecision C} moment u t p s :
  moment ≤ u ≤ t → stamp_at t p = Some s → was_settled_at (modified_ns s) moment = true → content u p = content t p.
Proof.
  intros Hu Hs Hset. unfold was_settled_at in Hset. apply andb_true_iff in Hset as [H1%N.leb_le H2%N.leb_le].
  destruct (decide (content u p = content t p)) as [?|Hne]; [done|].
  destruct (stamp_changes u t p s) as (v & Hv & Hlt); [lia|done|done|lia].
Qed.
End Time.

Lemma settled_stamp moment fp p s :
  fingerprint_was_settled_at moment fp = true → fp !! p = Some (Some s) → was_settled_at (modified_ns s) moment = true.
Proof.
  unfold fingerprint_was_settled_at. rewrite forallb_forall. intros Hall Hp%elem_of_map_to_list%list_elem_of_In.
  exact (Hall _ Hp).
Qed.

Lemma current_stamp stamp fp p s : fingerprint_is_current stamp fp = true → fp !! p = Some s → stamp p = s.
Proof.
  unfold fingerprint_is_current. rewrite forallb_forall. intros Hall Hp%elem_of_map_to_list%list_elem_of_In.
  specialize (Hall _ Hp). by apply bool_decide_eq_true in Hall.
Qed.

(** ** The check before a classpath is used again *)

Definition same_files {C} (content : N → path → option C) (since until : N) (fp : gmap (list (list N)) (option FileStamp)) : Prop :=
  ∀ p recorded, fp !! p = Some recorded →
    match recorded with
    | Some _ => ∀ u, since ≤ u ≤ until → content u p = content until p
    | None => content until p = None
    end.

Lemma current_same_files {C} (content : N → path → option C) stamp_at `{!FileTimes content stamp_at, EqDecision C} since until fp :
  fingerprint_was_settled_at since fp = true → fingerprint_is_current (stamp_at until) fp = true → same_files content since until fp.
Proof.
  intros Hset Hcur p [s|] Hp.
  - intros u Hu. pose proof (settled_stamp _ _ _ _ Hset Hp) as Hs.
    assert (stamp_at until p = Some s) as Hst by (by eapply current_stamp).
    by eapply settled_unchanged.
  - apply (stamp_exists content stamp_at). by eapply current_stamp.
Qed.

(** The paths whose stamps are inputs of a resolution. *)
Definition stamped `{XmlFiles, ModelFiles, ModelXml, TreeFiles} (limits : ResourceLimits) (home : option path) (root : path)
    (config : Config) (classpath homes : list path) (m : ModelInputs) : list path :=
  (classpath_inputs home root config classpath (repository_root_for classpath root config) ++ installation_of homes ++ paths m)
    ≫= tree_paths limits.

Section Reuse.
Context `{XmlFiles, ModelFiles, ModelXml, TreeFiles} {C : Type} `{EqDecision C}
  (content : N → path → option C) (stamp_at : N → path → option FileStamp) (exists_at : N → path → bool)
  (environment_at : N → list (list N * list N)) `{!FileTimes content stamp_at}.
Context (limits : ResourceLimits) (fuel : nat) (home : option path) (root : path) (config : Config)
  (fingerprint_paths homes : list path).

Lemma captured_inputs classpath project started captured inputs :
  capture_resolution_inputs limits fuel (stamp_at captured) (environment_at captured) home root config classpath fingerprint_paths
    homes project started = Done (Some inputs) →
  fingerprint_was_settled_at started project = true ∧ fingerprint_was_settled_at started (input_stamps inputs) = true ∧
  ∃ m, model_inputs limits (repository_root_for classpath root config) fuel (reactor_poms_of fingerprint_paths)
         (repository_poms classpath (repository_root_for classpath root config)) = Done (Some m) ∧
    inputs = new_inputs (capture (stamp_at captured) (stamped limits home root config classpath homes m)) (env_names m)
               (environment_at captured).
Proof.
  unfold capture_resolution_inputs, resolution_inputs, mbind, exec_bind, mret. intros Hc.
  destruct (model_inputs _ _ _ _ _) as [r| |] eqn:Em; [|done..]. destruct r as [m|]; [|done]. cbn in Hc.
  unfold capture_trees in Hc. fold (stamped limits home root config classpath homes m) in Hc.
  destruct (fingerprint_was_settled_at started project && _) eqn:Es in Hc; [|done]. apply andb_true_iff in Es as [Hp Hi].
  injection Hc as <-. split; [done|]. split; [exact Hi|]. by exists m.
Qed.

Lemma reused_manifest started written reused context context' project project' inputs classpath m reused_paths reused_inputs :
  persistable_manifest (stamp_at written) (environment_at written) written context project (Some inputs) classpath = Some m →
  reusable_classpath (stamp_at reused) (exists_at reused) (environment_at reused) context' project' m = Some (reused_paths, reused_inputs) →
  fingerprint_was_settled_at started project = true → fingerprint_was_settled_at started (input_stamps inputs) = true →
  fingerprint_is_current (stamp_at reused) project' = true →
  context' = context ∧ project' = project ∧ reused_paths = classpath ∧ reused_inputs = inputs ∧
  Forall (λ p, exists_at reused p = true) classpath ∧
  same_files content started reused (project ∪ input_stamps inputs) ∧
  referenced_digest (environment_at reused) (model_references inputs) = model_environment inputs.
Proof.
  intros Hp Hr Hsp Hsi Hcur. unfold persistable_manifest, settled in Hp. cbn [mbind option_bind] in Hp. repeat case_match; try done.
  injection Hp as <-. unfold reusable_classpath in Hr. cbn [manifest_context manifest_project manifest_inputs manifest_classpath] in Hr.
  destruct (bool_decide _ && _ && _ && _) eqn:Hall; [|done]. injection Hr as <- <-.
  apply andb_true_iff in Hall as [[[Hc%bool_decide_eq_true Hproj%bool_decide_eq_true]%andb_true_iff Hi]%andb_true_iff Hex].
  apply andb_true_iff in Hi as [Hi He%N.eqb_eq]. subst context' project'.
  split_and!; [done..| | |done].
  - apply Forall_forall. intros p Hp. rewrite forallb_forall in Hex. by apply Hex, list_elem_of_In.
  - intros p r [Hr|[_ Hr]]%lookup_union_Some_raw.
    + exact (current_same_files content stamp_at started reused project Hsp Hcur p r Hr).
    + exact (current_same_files content stamp_at started reused _ Hsi Hi p r Hr).
Qed.

End Reuse.

(** ** A settings file *)

#[export] Instance ResolutionInputs_eq_dec : EqDecision ResolutionInputs.
Proof. solve_decision. Defined.
#[export] Instance ClasspathManifest_eq_dec : EqDecision ClasspathManifest.
Proof. solve_decision. Defined.

(** A file that was written at the beginning of time and exists until it is deleted. *)
Definition settings_file : path := [lit "h"; lit ".m2"; lit "settings.xml"].
Definition content_until (deleted t : N) (p : path) : option N :=
  if bool_decide (p = settings_file) && (t <? deleted) then Some 7 else None.
Definition stamp_until (deleted t : N) (p : path) : option FileStamp :=
  if bool_decide (p = settings_file) && (t <? deleted) then Some {| len := 1; modified_ns := 0 |} else None.
#[local] Instance until_times deleted : FileTimes (content_until deleted) (stamp_until deleted).
Proof.
  split; unfold content_until, stamp_until.
  - intros t p. by destruct (_ && _).
  - intros t u p s Htu. destruct (bool_decide (p = settings_file)); [|done]. cbn [andb].
    destruct (N.ltb_spec u deleted); [|done]. destruct (N.ltb_spec t deleted); [done|lia].
Qed.
#[local] Instance no_trees : TreeFiles := {| tree_is_directory _ := false; tree_entries _ := [] |}.
Definition sample_execution : MavenExecutionConfig :=
  {| trusted_project_directories := []; maven_executable := None; execution_repository := None; timeout_seconds := 1;
     max_output_bytes := 1; execution_max_results := 1; network_enabled := false; java_environment := Inherit |}.
Definition sample_config : Config :=
  {| max_results := 1; max_source_bytes := 1; max_project_indexes := 1; max_project_index_bytes := 1; max_heavy_jobs := 1;
     max_queued_heavy_jobs := 1; max_mcp_response_bytes := 1; max_mcp_result_cache_bytes := 1; execution := sample_execution;
     index_cache := None |}.
Definition jar_file : path := [lit "p"; lit "target"; lit "a.jar"].
Definition seconds (n : N) : N := n * 1000000000.

Definition captured_at (deleted captured started : N) : exec (option ResolutionInputs) :=
  @capture_resolution_inputs sample_poms sample_model_files sample_model_xml no_trees pom_limits 1 (stamp_until deleted captured) []
    (Some [lit "h"]) [lit "p"] sample_config [jar_file] [] [] ∅ started.
Definition inputs_at (deleted captured : N) : ResolutionInputs :=
  new_inputs (capture (stamp_until deleted captured) (classpath_inputs (Some [lit "h"]) [lit "p"] sample_config [jar_file] None)) [] [].
Definition manifest_of (inputs : ResolutionInputs) : ClasspathManifest :=
  {| manifest_context := [99]; manifest_project := ∅; manifest_inputs := inputs; manifest_classpath := [jar_file] |}.

(** A file that Maven read and that was deleted before its stamp was taken is not noticed: the
    classpath is persisted, and used again while the file is missing. *)
Theorem deleted_input_not_noticed :
  let stamp := stamp_until (seconds 6) in
  FileTimes (content_until (seconds 6)) stamp ∧ content_until (seconds 6) (seconds 5) settings_file = Some 7 ∧
  ∃ inputs m, captured_at (seconds 6) (seconds 7) (seconds 5) = Done (Some inputs) ∧
    persistable_manifest (stamp (seconds 8)) [] (seconds 8) [99] ∅ (Some inputs) [jar_file] = Some m ∧
    reusable_classpath (stamp (seconds 9)) (λ _, true) [] [99] ∅ m = Some ([jar_file], inputs).
Proof.
  split; [apply until_times|]. split; [done|]. exists (inputs_at (seconds 6) (seconds 7)), (manifest_of (inputs_at (seconds 6) (seconds 7))).
  split; [vm_compute; reflexivity|]. split; vm_compute; reflexivity.
Qed.

#[local] Existing Instance next_rowids.
#[local] Existing Instance spelled_paths.

(** A cache that holds the manifest of one run. *)
Definition kept_inputs : ResolutionInputs := inputs_at (seconds 100) (seconds 7).
#[local] Instance one_manifest : ManifestCodec.
Proof.
  refine {| encode_manifest m := if decide (m = manifest_of kept_inputs) then Some [1] else None;
            decode_manifest payload := if decide (payload = [1]) then Some (manifest_of kept_inputs) else None |}.
  intros m payload n. repeat case_decide; congruence.
Defined.
Definition manifest_row : Row :=
  {| rowid := 1; row_kind := CLASSPATH_KIND; row_key := [99]; row_tool := [116]; row_payload := [1]; row_bytes := 2; last_used := 8 |}.

