(* ===== verification/IndexService.v ===== *)
(** * IndexService: how a request gets the index of its project

    Models the part of [src/server.rs] that resolves the index of a request: the runner of the
    project, the loop of [index_for] over cached indexes and builds, one build from its classpath
    to its publication, the on-disk copy, and the invalidation after Maven ran.  A request is a
    program over two kinds of steps: a critical section of the project cache, whose effect is the
    one of [ProjectCache], and a question to the world outside (Maven, files, the pool of heavy
    jobs, the database), whose answer is anything.  Between two steps other requests may do
    whatever they like.  Logging and the publication of the runtime status are left out. *)

From S2P Require Import Prelude.
From S2P Require Import Text.
From S2P Require Import TextSearch.
From S2P Require Import Paths.
From S2P Require Import Ordering.
From S2P Require Import Blocking.
From S2P Require Import Config.
From S2P Require Import Artifacts.
From S2P Require Import IndexBuild.
From S2P Require Import MavenOutput.
From S2P Require Import ProjectCache.
From S2P Require Import ClasspathManifest.

Open Scope N_scope.

Abbreviation fingerprints := (gmap (list (list N)) (option FileStamp)) (only parsing).

(** ** Errors *)

Inductive ErrorCode := INVALID_PARAMS | INTERNAL_ERROR.
Record ErrorData := {
  code : ErrorCode;
  message : str;
}.
Definition invalid_params (m : str) : ErrorData := {| code := INVALID_PARAMS; message := m |}.
Definition internal_error (m : str) : ErrorData := {| code := INTERNAL_ERROR; message := m |}.

Definition heavy_work_message (e : HeavyWorkError) : str :=
  match e with
  | Overloaded limits =>
      lit "the server is overloaded: " ++ to_dec (running limits) ++ lit " heavy jobs are running and " ++ to_dec (queued limits)
        ++ lit " are queued (MAX_HEAVY_JOBS and MAX_QUEUED_HEAVY_JOBS); retry later"
  | Cancelled => lit "the request was cancelled"
  | Failed => lit "blocking work failed unexpectedly"
  end.
Definition heavy_work_error (e : HeavyWorkError) : ErrorData := internal_error (heavy_work_message e).
Definition poisoned : ErrorData := internal_error (lit "project cache is poisoned").

(** ** What a build produces *)

(** [ScopedIndex], its index being an identity. *)
Record ScopedIndex := {
  scoped_index : N;
  scoped_unindexed : list UnindexedClasspathEntry;
  scoped_records : RecordReuse;
}.
Record ResolvedClasspath := {
  resolved_paths : list path;
  from_manifest : bool;
  resolved_inputs : option ResolutionInputs;
  resolved_context : str;
}.
Record PersistedBuild := {
  persisted_root : path;
  persisted_generation : N;
  persisted_context : str;
  persisted_fingerprint : fingerprints;
  persisted_paths : list path;
  persisted_inputs : option ResolutionInputs;
  persisted_records : RecordReuse;
}.
Inductive BuildOutcome := IndexBuilt (index : N) | BuildStale | BuildFailed (error : ErrorData).

(** The classpath Maven printed, the paths on it being complete or not. *)
Record MavenClasspathPaths := {
  maven_paths : list path;
  paths_incomplete : bool;
  classpath_build : MavenBuildResult;
}.

(** ** Critical sections *)

(** The values a critical section takes from outside: what the cache cannot see, the identities
    of new objects, and the clock. *)
Record Given := {
  given_world : World;
  given_cell : N;
  given_owner : N;
  given_reservation : N;
  given_now : N;
}.

Inductive critical :=
| SectionRunner (root : path)
| SectionDiscard (root : path)
| SectionInstall (root : path) (r : N) (fp : fingerprints)
| SectionLookup (root : path) (fp : fingerprints)
| SectionHit (root : path)
| SectionInvalidate (root : path) (g : N)
| SectionFailed (root : path) (g : N)
| SectionReserve (root : path) (g bytes : N)
| SectionFullRebuild (root : path)
| SectionPublish (root : path) (g i : N) (use : option (bool * N * N)) (build : FinishedBuild) (fp : fingerprints) (r : N)
| SectionCurrent (root : path) (g : N)
| SectionAfterMaven (root : path)
| SectionRefresh (root : path).
Definition outcome_of (s : critical) : Type :=
  match s with
  | SectionRunner _ => option RunnerEntry
  | SectionInstall _ _ _ => RunnerEntry
  | SectionLookup _ _ => IndexLookup
  | SectionReserve _ _ _ => ReserveError + N
  | SectionFullRebuild _ | SectionCurrent _ _ => bool
  | SectionPublish _ _ _ _ _ _ _ => Publication
  | _ => unit
  end.

(** The end of a build: the persisted uses are counted, the index published, and an explicit
    refresh done unless the index is stale. *)
Definition publish_section (d : Given) (root : path) (g i : N) (use : option (bool * N * N)) (build : FinishedBuild)
    (fp : fingerprints) (r : N) (c : ProjectCache) : exec (Publication * ProjectCache) :=
  let c := match use with
           | Some (hit, reused, built) => record_persisted_use hit reused built c
           | None => c
           end in
  '(p, c) ← publish (given_world d) root g i build fp r (given_now d) c;
  mret (p, match p with Stale => c | _ => finish_full_rebuild root g c end).

Definition unit_section (c : exec ProjectCache) : exec (unit * ProjectCache) := c ← c; mret (tt, c).
Definition run_section (d : Given) (s : critical) : ProjectCache → exec (outcome_of s * ProjectCache) :=
  let w := given_world d in
  match s with
  | SectionRunner root => λ c, mret (get_runner root (given_now d) c)
  | SectionDiscard root => λ c, unit_section (discard_project w root c)
  | SectionInstall root r fp => λ c, install_runner w root r fp (given_now d) c
  | SectionLookup root fp => λ c, lookup_index w root fp (given_cell d) (given_owner d) (given_now d) c
  | SectionHit root => λ c, mret (tt, record_hit_for root (given_now d) c)
  | SectionInvalidate root g => λ c, mret (tt, invalidate_generation w root g c)
  | SectionFailed root g => λ c, unit_section (finish_failed w root g c)
  | SectionReserve root g bytes => λ c, reserve w root g bytes (given_reservation d) c
  | SectionFullRebuild root => λ c, mret (requires_full_rebuild root c, c)
  | SectionPublish root g i use build fp r => λ c, publish_section d root g i use build fp r c
  | SectionCurrent root g => λ c, mret (is_current c root g, c)
  | SectionAfterMaven root => λ c, mret (tt, invalidate_after_maven w root c)
  | SectionRefresh root => λ c, mret (tt, require_full_rebuild root (given_now d) (invalidate_after_maven w root c))
  end.

(** ** Questions *)

Inductive question :=
| AskRoot (project_path : str)
| AskCurrent (fp : fingerprints)
| AskDiscover (root : path) (cached : option N)
| AskCapture (paths : list path)
| AskArtifactsCurrent (entry : CachedIndex)
| AskManifest (root : path) (snapshot : RunnerEntry)
| AskMaven (r : N)
| AskInputs (root : path) (snapshot : RunnerEntry) (classpath : list path)
| AskArtifacts (root : path) (snapshot : RunnerEntry) (repository : option path) (classpath : list path)
| AskBuild (root : path) (snapshot : RunnerEntry) (repository : option path) (classpath : list path) (reuse_records : bool)
    (artifacts : fingerprints)
| AskDuration
| AskWrite (build : PersistedBuild)
| AskForget (root : path)
| AskLockOwner (owner : N)
| AskCell (cell : N)
| AskSetCell (cell : N) (outcome : BuildOutcome).
(** Heavy jobs may be refused; a write and a removal may fail. *)
Definition answer (q : question) : Type :=
  match q with
  | AskRoot _ => path + str
  | AskCurrent _ => bool
  | AskDiscover _ _ => (N * list path) + str
  | AskCapture _ => fingerprints
  | AskArtifactsCurrent _ => bool + HeavyWorkError
  | AskManifest _ _ => (option (list path * ResolutionInputs) * str) + HeavyWorkError
  | AskMaven _ => MavenClasspathPaths
  | AskInputs _ _ _ => option ResolutionInputs + HeavyWorkError
  | AskArtifacts _ _ _ _ => fingerprints + HeavyWorkError
  | AskBuild _ _ _ _ _ _ => ((ScopedIndex + str) * bool) + HeavyWorkError
  | AskDuration => N
  | AskWrite _ | AskForget _ => bool + HeavyWorkError
  | AskLockOwner _ | AskSetCell _ _ => unit
  | AskCell _ => option BuildOutcome
  end.

(** ** Messages *)

(** What Maven says about a failure: its error lines, or all it printed, at most 2,048 characters. *)
Definition MAX_MAVEN_FAILURE_DETAIL_CHARS : nat := 2048.
Definition error_lines (build : MavenBuildResult) : list str :=
  filter (λ line, contains (lit "[ERROR]") line = true ∧ line ≠ lit "[ERROR]")
    (trim <$> (lines (stderr (run build)) ++ lines (stdout (run build)))).
Definition fallback_lines (build : MavenBuildResult) : list str :=
  filter (λ line, line ≠ []) (trim <$> (lines (stderr (run build)) ++ lines (stdout (run build)))).
Definition outcome_name (o : MavenBuildOutcome) : str :=
  match o with
  | Success => lit "Success"
  | CompilationError => lit "CompilationError"
  | TestFailure => lit "TestFailure"
  | BuildFailure => lit "BuildFailure"
  | Timeout => lit "Timeout"
  | RunnerError => lit "RunnerError"
  end.
Definition print_exit_code (code : Z) : str :=
  if (code <? 0)%Z then ch "-" :: to_dec (Z.to_N (- code)) else to_dec (Z.to_N code).
Definition ellipsis : char := 8230.
Definition maven_failure_detail (build : MavenBuildResult) : str :=
  let errors := error_lines build in
  let detail := join [10] (match errors with [] => fallback_lines build | _ => errors end) in
  match detail with
  | [] =>
      match exit_code (run build) with
      | None => lit "Maven failed with outcome " ++ outcome_name (outcome build) ++ lit " without diagnostic output"
      | Some code => lit "Maven exited with status " ++ print_exit_code code ++ lit " without diagnostic output"
      end
  | _ =>
      let bounded := take (MAX_MAVEN_FAILURE_DETAIL_CHARS + 1) detail in
      if (MAX_MAVEN_FAILURE_DETAIL_CHARS <? length bounded)%nat
      then take (MAX_MAVEN_FAILURE_DETAIL_CHARS - 1) bounded ++ [ellipsis] else bounded
  end.

(** Why entries of the classpath were not indexed: how many for each reason, and the names of the
    first three. *)
Definition MAX_REPORTED_UNINDEXED_ENTRIES : nat := 3.
Definition unindexed_reasons : list UnindexedReason :=
  [Missing; NotMavenRepositoryLayout; OutsideRepositoryAndReactor; UnresolvedReactorCoordinate].
Definition description (r : UnindexedReason) : str :=
  match r with
  | Missing => lit "missing"
  | NotMavenRepositoryLayout => lit "not in Maven repository layout"
  | OutsideRepositoryAndReactor => lit "outside the local repository and the reactor build directories"
  | UnresolvedReactorCoordinate => lit "reactor output without resolvable module coordinates"
  end.
#[export] Instance UnindexedReason_eq_dec : EqDecision UnindexedReason.
Proof. solve_decision. Defined.
(** The reasons that occur, in their order, with how often. *)
Definition reason_counts (unindexed : list UnindexedClasspathEntry) : list (UnindexedReason * nat) :=
  filter (λ p, p.2 ≠ 0%nat) ((λ r, (r, length (filter (λ e, reason e = r) unindexed))) <$> unindexed_reasons).
Definition unindexed_classpath_message (unindexed : list UnindexedClasspathEntry) : str :=
  let reasons := join (lit ", ") ((λ p, to_dec (N.of_nat p.2) ++ lit " " ++ description p.1) <$> reason_counts unindexed) in
  let names := join (lit ", ") ((λ e, default (lit "?") (file_name (unindexed_path e)))
                                  <$> take MAX_REPORTED_UNINDEXED_ENTRIES unindexed) in
  let more := if (MAX_REPORTED_UNINDEXED_ENTRIES <? length unindexed)%nat then lit ", " ++ [ellipsis] else [] in
  to_dec (N.of_nat (length unindexed)) ++ lit " selected classpath entries cannot be indexed (" ++ reasons ++ lit ": " ++ names
    ++ more ++ lit "); the project index was not built because it would be incomplete".

(** ** Requests *)

Inductive request (A : Type) : Type :=
| Return (a : A)
| Locked (s : critical) (k : option (outcome_of s) → request A)
| Ask (q : question) (k : answer q → request A).
Arguments Return {A} a.
Arguments Locked {A} s k.
Arguments Ask {A} q k.

Fixpoint request_bind {A B} (f : A → request B) (r : request A) : request B :=
  match r with
  | Return a => f a
  | Locked s k => Locked s (λ x, request_bind f (k x))
  | Ask q k => Ask q (λ x, request_bind f (k x))
  end.
Notation "'do!' x := r 'in' k" := (request_bind (λ x, k) r) (at level 200, x binder, r at level 100, k at level 200).

Definition locked (s : critical) : request (option (outcome_of s)) := Locked s Return.
Definition ask (q : question) : request (answer q) := Ask q Return.

(** The error case of [?], in a request. *)
Definition or_return {A B} (k : A → request (B + ErrorData)) (r : request (A + ErrorData)) : request (B + ErrorData) :=
  do! o := r in match o with inl x => k x | inr e => Return (inr e) end.
Notation "'let!' x := r 'in' k" := (or_return (λ x, k) r) (at level 200, x binder, r at level 100, k at level 200).

(** [lock_projects()?]: the lock is poisoned once a critical section panicked. *)
Definition lock_projects (s : critical) : request (outcome_of s + ErrorData) :=
  do! o := locked s in Return match o with Some x => inl x | None => inr poisoned end.
(** [blocking]: a heavy job. *)
Definition heavy {A} (r : request (A + HeavyWorkError)) : request (A + ErrorData) :=
  do! o := r in Return match o with inl x => inl x | inr e => inr (heavy_work_error e) end.

(** ** Programs *)

Section Service.
(** Whether there is an on-disk cache. *)
Context (config : Config) (has_cache : bool).

Definition MAX_INDEX_BUILD_ATTEMPTS : nat := 4.

Definition outside_trusted : ErrorData :=
  invalid_params (lit "project_path is not inside a directory configured by MAVEN_TRUSTED_PROJECT_DIRECTORIES").
Definition trusted_project_root (project_path : str) : request (path + ErrorData) :=
  do! (root : path + str) := ask (AskRoot project_path) in
  Return match root with
         | inr e => inr (invalid_params e)
         | inl root =>
             if existsb (λ directory, path_starts_with directory root) (trusted_project_directories (execution config))
             then inl root else inr outside_trusted
         end.

(** A cached runner of a project that did not change and where Maven did not run. *)
Definition runner_hit (cached : option RunnerEntry) : request (option RunnerEntry) :=
  match cached with
  | None => Return None
  | Some snapshot =>
      if revalidate snapshot then Return None
      else do! current := ask (AskCurrent (fingerprint snapshot)) in Return (if current : bool then Some snapshot else None)
  end.
Definition discover_runner (root : path) (cached : option RunnerEntry) : request (RunnerEntry + ErrorData) :=
  do! (discovered : (N * list path) + str) := ask (AskDiscover root (runner <$> cached)) in
  match discovered with
  | inr e => let! _ := lock_projects (SectionDiscard root) in Return (inr (invalid_params e))
  | inl (r, fingerprint_paths) =>
      do! fp := ask (AskCapture fingerprint_paths) in
      (lock_projects (SectionInstall root r fp) : request (RunnerEntry + ErrorData))
  end.
Definition project_runner (project_path : str) : request ((path * RunnerEntry) + ErrorData) :=
  let! root := trusted_project_root project_path in
  let! cached := lock_projects (SectionRunner root) in
  do! hit := runner_hit cached in
  match hit with
  | Some snapshot => Return (inl (root, snapshot))
  | None => let! snapshot := discover_runner root cached in Return (inl (root, snapshot))
  end.

(** The manifest of the context, and the context. *)
Definition find_manifest (root : path) (snapshot : RunnerEntry)
    : request ((option (list path * ResolutionInputs) * str) + ErrorData) :=
  if has_cache then heavy (ask (AskManifest root snapshot)) else Return (inl (None, [])).
Definition classpath_failed (build : MavenBuildResult) : ErrorData :=
  invalid_params (lit "cannot build Maven classpath for project index: " ++ maven_failure_detail build).
Definition classpath_truncated : ErrorData :=
  invalid_params (lit "Maven classpath output was truncated or malformed; the project index was not built because it would be incomplete").
Definition resolve_classpath (root : path) (snapshot : RunnerEntry) : request (ResolvedClasspath + ErrorData) :=
  let! found := find_manifest root snapshot in
  match found with
  | (Some (l, inputs), context) =>
      Return (inl {| resolved_paths := l; from_manifest := true; resolved_inputs := Some inputs; resolved_context := context |})
  | (None, context) =>
      do! classpath := ask (AskMaven (runner snapshot)) in
      if negb (bool_decide (outcome (classpath_build classpath) = Success)) then Return (inr (classpath_failed (classpath_build classpath)))
      else if paths_incomplete classpath then Return (inr classpath_truncated)
      else
        let! inputs := (if has_cache then heavy (ask (AskInputs root snapshot (maven_paths classpath))) else Return (inl None)) in
        Return (inl {| resolved_paths := maven_paths classpath; from_manifest := false; resolved_inputs := inputs;
                       resolved_context := context |})
  end.

(** Failures are logged only. *)
Definition forget_persisted_classpaths (root : path) : request unit :=
  if has_cache then (do! _ := ask (AskForget root) in Return tt) else Return tt.
Definition persist_build (build : PersistedBuild) : request unit :=
  if negb has_cache then Return tt
  else
    do! _ := ask (AskWrite build) in
    do! current := locked (SectionCurrent (persisted_root build) (persisted_generation build)) in
    if default false current then Return tt else forget_persisted_classpaths (persisted_root build).

Definition not_indexable : ErrorData :=
  invalid_params (lit "Maven classpath did not contain indexable local repository JARs").
Definition over_budget (needed limit : N) : ErrorData :=
  invalid_params (lit "building this project index needs an estimated " ++ to_dec needed
                  ++ lit " bytes, which exceeds MAX_PROJECT_INDEX_BYTES (" ++ to_dec limit ++ lit ")").

(** A build whose result was read: it is published if nothing changed meanwhile, then persisted. *)
Definition publish_build (root : path) (snapshot : RunnerEntry) (g : N) (classpath : ResolvedClasspath)
    (artifacts : fingerprints) (reservation : N) (scoped : ScopedIndex) (changed : bool) : request BuildOutcome :=
  if changed then
    do! o := locked (SectionInvalidate root g) in
    Return match o with Some _ => BuildStale | None => BuildFailed poisoned end
  else
    do! duration := ask AskDuration in
    let records := scoped_records scoped in
    let use := if has_cache then Some (from_manifest classpath, N.of_nat (length (reused records)), built records) else None in
    let build := {| build_artifacts := artifacts; build_classpath_entries := N.of_nat (length (resolved_paths classpath));
                    duration := duration |} in
    do! publication := locked (SectionPublish root g (scoped_index scoped) use build (fingerprint snapshot) reservation) in
    match publication with
    | None => Return (BuildFailed poisoned)
    | Some Stale => Return BuildStale
    | Some _ =>
        do! _ := persist_build {| persisted_root := root; persisted_generation := g; persisted_context := resolved_context classpath;
                             persisted_fingerprint := fingerprint snapshot; persisted_paths := resolved_paths classpath;
                             persisted_inputs := resolved_inputs classpath; persisted_records := records |} in
        Return (IndexBuilt (scoped_index scoped))
    end.

(** From the reservation on. *)
Definition read_archives (root : path) (snapshot : RunnerEntry) (g : N) (classpath : ResolvedClasspath)
    (repository : option path) (artifacts : fingerprints) (reservation : N) : request BuildOutcome :=
  do! rebuild := locked (SectionFullRebuild root) in
  let reuse_records := negb (default false rebuild) in
  do! o := heavy (ask (AskBuild root snapshot repository (resolved_paths classpath) reuse_records artifacts)) in
  match o with
  | inr e => Return (BuildFailed e)
  | inl (inr e, _) => Return (BuildFailed (internal_error e))
  | inl (inl scoped, changed) =>
      match scoped_unindexed scoped with
      | [] => publish_build root snapshot g classpath artifacts reservation scoped changed
      | unindexed => Return (BuildFailed (invalid_params (unindexed_classpath_message unindexed)))
      end
  end.

Definition try_build_index (root : path) (snapshot : RunnerEntry) (g : N) : request BuildOutcome :=
  do! resolved := resolve_classpath root snapshot in
  match resolved with
  | inr e => Return (BuildFailed e)
  | inl classpath =>
      let repository := repository_root_for (resolved_paths classpath) root config in
      if negb (has_indexable_jars (resolved_paths classpath) root (is_some repository)) then Return (BuildFailed not_indexable)
      else
        do! captured := heavy (ask (AskArtifacts root snapshot repository (resolved_paths classpath))) in
        match captured with
        | inr e => Return (BuildFailed e)
        | inl artifacts =>
            do! reserved := locked (SectionReserve root g (file_bytes artifacts)) in
            match reserved with
            | None => Return (BuildFailed poisoned)
            | Some (inl ReserveStale) => Return BuildStale
            | Some (inl (OverBudget needed limit)) => Return (BuildFailed (over_budget needed limit))
            | Some (inr reservation) => read_archives root snapshot g classpath repository artifacts reservation
            end
        end
  end.

Definition build_index (root : path) (snapshot : RunnerEntry) (g owner : N) : request BuildOutcome :=
  do! _ := ask (AskLockOwner owner) in
  do! outcome := try_build_index root snapshot g in
  match outcome with
  | BuildFailed _ => do! _ := locked (SectionFailed root g) in Return outcome
  | _ => Return outcome
  end.

(** [OnceCell::get_or_init]: the outcome of the one build of a cell. *)
Definition get_or_build (cell : N) (build : request BuildOutcome) : request BuildOutcome :=
  do! o := ask (AskCell cell) in
  match o with
  | Some outcome => Return outcome
  | None => do! outcome := build in do! _ := ask (AskSetCell cell outcome) in Return outcome
  end.

Definition changed_repeatedly : ErrorData :=
  internal_error (lit "the project changed repeatedly while its index was being built; retry the request").

(** One turn of the loop: [None] is another attempt. *)
Definition index_attempt (project_path : str) : request (option N + ErrorData) :=
  let! p := project_runner project_path in
  let (root, snapshot) := p : path * RunnerEntry in
  let! lookup := lock_projects (SectionLookup root (fingerprint snapshot)) in
  match lookup with
  | Cached entry g =>
      let! current := heavy (ask (AskArtifactsCurrent entry)) in
      if current : bool then let! _ := lock_projects (SectionHit root) in Return (inl (Some (index entry)))
      else let! _ := lock_projects (SectionInvalidate root g) in Return (inl None)
  | Build cell owner g =>
      do! outcome := get_or_build cell (build_index root snapshot g owner) in
      Return match outcome with IndexBuilt i => inl (Some i) | BuildFailed e => inr e | BuildStale => inl None end
  end.
Fixpoint index_attempts (n : nat) (project_path : str) : request (N + ErrorData) :=
  match n with
  | O => Return (inr changed_repeatedly)
  | S n =>
      let! found := index_attempt project_path in
      match found with Some i => Return (inl i) | None => index_attempts n project_path end
  end.
Definition index_for : str → request (N + ErrorData) := index_attempts MAX_INDEX_BUILD_ATTEMPTS.

(** After Maven ran. *)
Definition invalidate_project (project_path : str) : request (unit + ErrorData) :=
  do! (root : path + str) := ask (AskRoot project_path) in
  match root with
  | inr e => Return (inr (invalid_params e))
  | inl root =>
      let! _ := lock_projects (SectionAfterMaven root) in
      do! _ := forget_persisted_classpaths root in Return (inl tt)
  end.
Definition refresh_failed (e : ErrorData) : ErrorData :=
  {| code := code e; message := lit "the project cache was invalidated but the refresh did not complete: " ++ message e |}.
Definition refresh_project (project_path : str) : request (N + ErrorData) :=
  let! root := trusted_project_root project_path in
  let! _ := lock_projects (SectionRefresh root) in
  do! _ := forget_persisted_classpaths root in
  do! i := index_for project_path in
  Return match i with inl i => inl i | inr e => inr (refresh_failed e) end.
End Service.

(** ** Traces *)

(** What one request did and was told; a critical section answers nothing when the lock is poisoned. *)
Inductive event :=
| Did (s : critical) (x : option (outcome_of s))
| Told (q : question) (x : answer q).

Fixpoint runs {A} (r : request A) (tr : list event) (a : A) : Prop :=
  match r with
  | Return b => tr = [] ∧ a = b
  | Locked s k => ∃ x tr', tr = Did s x :: tr' ∧ runs (k x) tr' a
  | Ask q k => ∃ x tr', tr = Told q x :: tr' ∧ runs (k x) tr' a
  end.
Fixpoint ensures {A} (r : request A) (Q : list event → A → Prop) : Prop :=
  match r with
  | Return a => Q [] a
  | Locked s k => ∀ x, ensures (k x) (λ tr, Q (Did s x :: tr))
  | Ask q k => ∀ x, ensures (k x) (λ tr, Q (Told q x :: tr))
  end.

Lemma ensures_runs {A} (r : request A) Q : ensures r Q ↔ ∀ tr a, runs r tr a → Q tr a.
Proof.
  revert Q. induction r as [b|s k IH|q k IH]; intros Q; cbn [ensures runs].
  - split; [by intros HQ tr a [-> ->]|intros HQ; by apply HQ].
  - setoid_rewrite IH. split; [intros HQ tr a (x & tr' & -> & Hr); by apply HQ|]. intros HQ x tr a Hr. apply HQ. by exists x, tr.
  - setoid_rewrite IH. split; [intros HQ tr a (x & tr' & -> & Hr); by apply HQ|]. intros HQ x tr a Hr. apply HQ. by exists x, tr.
Qed.
Lemma ensures_mono {A} (r : request A) Q R : ensures r Q → (∀ tr a, Q tr a → R tr a) → ensures r R.
Proof. rewrite !ensures_runs. intros HQ HR tr a Hr. apply HR. by apply HQ. Qed.
Lemma runs_self {A} (r : request A) : ensures r (runs r).
Proof. by apply ensures_runs. Qed.
Lemma ensures_bind {A B} (f : A → request B) r Q :
  ensures (request_bind f r) Q ↔ ensures r (λ tr a, ensures (f a) (λ tr', Q (tr ++ tr'))).
Proof.
  revert Q. induction r as [b|s k IH|q k IH]; intros Q; cbn [ensures request_bind]; [done|..].
  - split; intros HQ x; [by apply (IH x (λ tr, Q (Did s x :: tr)))|by apply (IH x (λ tr, Q (Did s x :: tr)))].
  - split; intros HQ x; [by apply (IH x (λ tr, Q (Told q x :: tr)))|by apply (IH x (λ tr, Q (Told q x :: tr)))].
Qed.
(** The rule for a call of another request, by what it ensures. *)
Lemma ensures_call {A B} (f : A → request B) r Q R :
  ensures r R → (∀ tr a, R tr a → ensures (f a) (λ tr', Q (tr ++ tr'))) → ensures (request_bind f r) Q.
Proof. intros HR Hf. apply ensures_bind. by eapply ensures_mono. Qed.

(** A program none of whose steps is of a kind. *)
Fixpoint never {A} (P : event → bool) (r : request A) : Prop :=
  match r with
  | Return _ => True
  | Locked s k => ∀ x, P (Did s x) = false ∧ never P (k x)
  | Ask q k => ∀ x, P (Told q x) = false ∧ never P (k x)
  end.
Lemma never_bind {A B} P (f : A → request B) r : never P r → (∀ a, never P (f a)) → never P (request_bind f r).
Proof. intros Hr Hf. induction r; cbn [request_bind never] in *; naive_solver. Qed.
Lemma never_ensures {A} P (r : request A) : never P r → ensures r (λ tr _, Forall (λ e, P e = false) tr).
Proof.
  induction r as [a|s k IH|q k IH]; cbn [never ensures]; [by constructor|..];
    (intros Hr x; destruct (Hr x) as [Hs Hk]; eapply ensures_mono; [by apply IH|]; intros tr a Htr; by constructor).
Qed.
Ltac never_steps :=
  repeat first [done | apply never_bind | split | intros ? | case_match | progress (cbn [never locked ask]; cbv zeta)].

(** A program that answers at once, or after one step. *)
Ltac request_step := cbn [request_bind ensures locked ask heavy lock_projects or_return app negb].

(** ** One build *)

(** An index was published: the section answered, and not that it is stale. *)
Definition publishes (e : event) : bool :=
  match e with
  | Did (SectionPublish _ _ _ _ _ _ _) (Some Stale) | Did (SectionPublish _ _ _ _ _ _ _) None => false
  | Did (SectionPublish _ _ _ _ _ _ _) (Some _) => true
  | _ => false
  end.
Definition unpublished (tr : list event) : Prop := Forall (λ e, publishes e = false) tr.

Section Builds.
Context (config : Config) (has_cache : bool) (root : path) (snapshot : RunnerEntry) (g : N).

(** Where the paths of a classpath come from. *)
Definition classpath_from (l : list path) (tr : list event) : Prop :=
  (∃ inputs context, Told (AskManifest root snapshot) (inl (Some (l, inputs), context)) ∈ tr) ∨
  (∃ maven, Told (AskMaven (runner snapshot)) maven ∈ tr ∧ outcome (classpath_build maven) = Success ∧
     paths_incomplete maven = false ∧ maven_paths maven = l).

Lemma resolve_ensures :
  ensures (resolve_classpath has_cache root snapshot) (λ tr o, unpublished tr ∧
    match o with inl classpath => classpath_from (resolved_paths classpath) tr | inr _ => True end).
Proof.
  unfold resolve_classpath, find_manifest.
  assert (∀ tr context, unpublished tr → ensures
    (do! classpath := ask (AskMaven (runner snapshot)) in
      if negb (bool_decide (outcome (classpath_build classpath) = Success)) then Return (inr (classpath_failed (classpath_build classpath)))
      else if paths_incomplete classpath then Return (inr classpath_truncated)
      else
        let! inputs := (if has_cache then heavy (ask (AskInputs root snapshot (maven_paths classpath))) else Return (inl None)) in
        Return (inl {| resolved_paths := maven_paths classpath; from_manifest := false; resolved_inputs := inputs;
                       resolved_context := context |}))
    (λ tr' o, unpublished (tr ++ tr') ∧ match o with inl classpath => classpath_from (resolved_paths classpath) (tr ++ tr') | inr _ => True end)) as Hmaven.
  { intros tr context Htr. request_step. intros maven. case_bool_decide as Ho; request_step; [|split; [|done]].
    2: { apply Forall_app. split; [done|by repeat constructor]. }
    destruct (paths_incomplete maven) eqn:Ep; request_step.
    { split; [|done]. apply Forall_app. split; [done|by repeat constructor]. }
    destruct has_cache; request_step; [intros [inputs|e]; request_step|].
    all: split; [apply Forall_app; split; [done|by repeat constructor]|].
    1,3: right; exists maven; split; [set_solver|done].
    done. }
  destruct has_cache; request_step.
  - intros [[[[l inputs]|] context]|e]; request_step.
    + split; [by repeat constructor|]. left. exists inputs, context. set_solver.
    + eapply (Hmaven [_]). by repeat constructor.
    + split; [by repeat constructor|done].
  - apply (Hmaven []). constructor.
Qed.

Lemma persist_ensures build : ensures (persist_build has_cache build) (λ tr _, unpublished tr).
Proof.
  unfold persist_build, forget_persisted_classpaths. destruct has_cache; request_step; [|constructor].
  intros written [[]|]; request_step; [|intros forgot; request_step..]; by repeat constructor.
Qed.

(** The publication of a build of these files. *)
Definition published (artifacts : fingerprints) (reservation i : N) (e : event) : Prop :=
  ∃ use build p, e = Did (SectionPublish root g i use build (fingerprint snapshot) reservation) (Some p) ∧
    p ≠ Stale ∧ build_artifacts build = artifacts.
(** Why the result of a build is discarded. *)
Definition superseded (tr : list event) : Prop :=
  (∃ bytes, Did (SectionReserve root g bytes) (Some (inl ReserveStale)) ∈ tr) ∨
  Did (SectionInvalidate root g) (Some tt) ∈ tr ∨
  (∃ i use build fp r, Did (SectionPublish root g i use build fp r) (Some Stale) ∈ tr).

Lemma superseded_app tr tr' : superseded tr' → superseded (tr ++ tr').
Proof.
  intros [[b Hb]|[Hi|(i & use & build & fp & r & Hi)]]; [left; exists b|right; left|right; right; do 5 eexists];
    apply elem_of_app; right; [exact Hb|exact Hi|exact Hi].
Qed.
Lemma unpublished_app tr tr' : unpublished (tr ++ tr') ↔ unpublished tr ∧ unpublished tr'.
Proof. apply Forall_app. Qed.

Lemma publish_ensures classpath artifacts reservation scoped changed :
  ensures (publish_build has_cache root snapshot g classpath artifacts reservation scoped changed) (λ tr o,
    match o with
    | IndexBuilt i => changed = false ∧ i = scoped_index scoped ∧ ∃ e, e ∈ tr ∧ published artifacts reservation i e
    | BuildStale => unpublished tr ∧ superseded tr
    | BuildFailed _ => unpublished tr
    end).
Proof.
  unfold publish_build. destruct changed; request_step.
  - intros [[]|]; request_step; [split; [by repeat constructor|]|by repeat constructor]. right. left. set_solver.
  - intros duration [p|]; request_step; [|by repeat constructor].
    assert (p = Stale ∨ p ≠ Stale) as [->|Hp] by (destruct p; [by left|by right..]); request_step.
    + split; [by repeat constructor|]. right. right. do 5 eexists. right. left.
    + destruct p; [done|..]; (eapply ensures_call; [apply persist_ensures|]; intros tr [] _; request_step;
        split; [done|]; split; [done|]; eexists; split; [right; left|]; do 3 eexists; done).
Qed.

(** What an index was built from, in this order: the files of the paths were stamped, memory was
    reserved, every entry was read and nothing had changed by then, and it was published. *)
Definition built_from (l : list path) (i : N) (tr : list event) : Prop :=
  let repository := repository_root_for l root config in
  ∃ artifacts reservation reuse scoped publication,
    [Told (AskArtifacts root snapshot repository l) (inl artifacts);
     Did (SectionReserve root g (file_bytes artifacts)) (Some (inr reservation));
     Told (AskBuild root snapshot repository l reuse artifacts) (inl (inl scoped, false)); publication] `sublist_of` tr ∧
    scoped_index scoped = i ∧ scoped_unindexed scoped = [] ∧ published artifacts reservation i publication ∧
    has_indexable_jars l root (is_some repository) = true.

Lemma elem_of_sublist_cons {A} (x : A) l : x ∈ l → [x] `sublist_of` l.
Proof. apply singleton_sublist_l. Qed.

Lemma read_ensures classpath repository artifacts reservation :
  ensures (read_archives has_cache root snapshot g classpath repository artifacts reservation) (λ tr o,
    match o with
    | IndexBuilt i => ∃ reuse scoped publication,
        [Told (AskBuild root snapshot repository (resolved_paths classpath) reuse artifacts) (inl (inl scoped, false)); publication]
          `sublist_of` tr ∧ scoped_index scoped = i ∧ scoped_unindexed scoped = [] ∧ published artifacts reservation i publication
    | BuildStale => unpublished tr ∧ superseded tr
    | BuildFailed _ => unpublished tr
    end).
Proof.
  unfold read_archives. request_step. intros rebuild [[[scoped|e] changed]|e]; request_step; [|by repeat constructor..].
  destruct (scoped_unindexed scoped) eqn:Hu; [|request_step; by repeat constructor].
  eapply ensures_mono; [apply publish_ensures|]. intros tr [i| |e].
  - intros (-> & -> & pub & Hpub & Hp). do 3 eexists. split_and!; [|done..|exact Hp].
    apply sublist_cons, sublist_skip. by apply singleton_sublist_l.
  - intros [Hn Hs]. split; [by do 2 constructor|by apply (superseded_app [_; _])].
  - intros Hn. by do 2 constructor.
Qed.

Lemma try_ensures :
  ensures (try_build_index config has_cache root snapshot g) (λ tr o,
    match o with
    | IndexBuilt i => ∃ l, classpath_from l tr ∧ built_from l i tr
    | BuildStale => unpublished tr ∧ superseded tr
    | BuildFailed _ => unpublished tr
    end).
Proof.
  unfold try_build_index. eapply ensures_call; [apply resolve_ensures|]. intros tr [classpath|e] [Hn Hfrom]; request_step; [|by rewrite app_nil_r].
  set (repository := repository_root_for (resolved_paths classpath) root config).
  destruct (has_indexable_jars _ _ _) eqn:Hidx; request_step; [|by rewrite app_nil_r].
  intros [artifacts|e]; request_step; [|apply unpublished_app; split; [done|by repeat constructor]].
  intros [[[|needed limit]|reservation]|]; request_step.
  - split; [apply unpublished_app; split; [done|by repeat constructor]|]. left. eexists. apply elem_of_app. right. right. left.
  - apply unpublished_app. split; [done|by repeat constructor].
  - eapply ensures_mono; [apply read_ensures|]. intros tr' [i| |e].
    + intros (reuse & scoped & publication & Hsub & Hi & Hu & Hp). exists (resolved_paths classpath). split.
      * destruct Hfrom as [(inputs & context & Hm)|(maven & Hm & Hrest)]; [left; do 2 eexists|right; eexists]; [|split; [|exact Hrest]];
          apply elem_of_app; left; exact Hm.
      * exists artifacts, reservation, reuse, scoped, publication. split_and!; [|done..].
        apply sublist_inserts_l. by do 2 apply sublist_skip.
    + intros [Hn' Hs]. split; [apply unpublished_app; split; [done|by do 2 constructor]|].
      by apply superseded_app, (superseded_app [_; _]).
    + intros Hn'. apply unpublished_app. split; [done|by do 2 constructor].
  - apply unpublished_app. split; [done|by repeat constructor].
Qed.

(** C6: A build publishes at most what it read: when it answers an index, the paths were taken
    from a valid manifest or from a complete, successful run of Maven, their files were stamped,
    then memory was reserved for its generation, then every entry of the classpath was indexed
    with nothing changed since the stamps, and then exactly that index was published and not
    found stale, in this order; when it answers that it is stale, the cache had said so, or the
    generation was invalidated, and nothing was published; and when it fails, nothing was
    published and the project was last made ready for another build, by all waiters' account. *)
Theorem build_outcome_exact owner tr o :
  runs (build_index config has_cache root snapshot g owner) tr o →
  match o with
  | IndexBuilt i => ∃ l, classpath_from l tr ∧ built_from l i tr
  | BuildStale => unpublished tr ∧ superseded tr
  | BuildFailed _ => unpublished tr ∧ ∃ x, last tr = Some (Did (SectionFailed root g) x)
  end.
Proof.
  revert tr o. apply ensures_runs. unfold build_index. request_step. intros [].
  eapply ensures_call; [apply try_ensures|]. intros tr [i| |e]; request_step.
  - intros (l & Hfrom & artifacts & reservation & reuse & scoped & publication & Hsub & Hrest). exists l. rewrite app_nil_r. split.
    + destruct Hfrom as [(inputs & context & Hm)|(maven & Hm & Hok)]; [left; do 2 eexists|right; eexists; split; [|exact Hok]]; by right.
    + exists artifacts, reservation, reuse, scoped, publication. split; [by apply sublist_cons|done].
  - intros [Hn Hs]. rewrite app_nil_r. split; [by constructor|by apply (superseded_app [_])].
  - intros Hn x. split; [constructor; [done|]; apply unpublished_app; split; [done|by repeat constructor]|].
    exists x. by rewrite app_comm_cons, last_snoc.
Qed.
End Builds.

(** ** The loop of a request *)

Section Attempts.
Context (config : Config) (has_cache : bool) (project_path : str).

(** The runner is one whose files were checked, or that was discovered, in this attempt. *)
Definition fresh_snapshot (root : path) (snapshot : RunnerEntry) (tr : list event) : Prop :=
  (revalidate snapshot = false ∧ Told (AskCurrent (fingerprint snapshot)) true ∈ tr) ∨
  (∃ r fp, Did (SectionInstall root r fp) (Some snapshot) ∈ tr).
Definition trusted (root : path) : Prop :=
  ∃ directory, directory ∈ trusted_project_directories (execution config) ∧ path_starts_with directory root = true.

Lemma runner_ensures :
  ensures (project_runner config project_path) (λ tr o,
    match o with
    | inl (root, snapshot) => trusted root ∧ fresh_snapshot root snapshot tr
    | inr _ => True
    end).
Proof.
  unfold project_runner, trusted_project_root. request_step. intros [root|e]; request_step; [|done].
  destruct (existsb _ _) eqn:Ht; request_step; [|done].
  assert (trusted root) as Htrusted.
  { apply existsb_exists in Ht as (d & Hd%list_elem_of_In & Hs). by exists d. }
  assert (∀ tr cached, ensures (let! snapshot := discover_runner root cached in Return (inl (root, snapshot)))
    (λ tr', λ o : (path * RunnerEntry) + ErrorData, match o with
      | inl (root, snapshot) => trusted root ∧ fresh_snapshot root snapshot (tr ++ tr')
      | inr _ => True end)) as Hdiscover.
  { intros tr cached. unfold discover_runner. request_step. intros [[r paths]|e]; request_step.
    - intros fp [snapshot|]; request_step; [|done]. split; [done|]. right. exists r, fp. set_solver.
    - by intros [[]|]. }
  unfold or_return in Hdiscover.
  intros [[snapshot|]|]; request_step; [| |done].
  - unfold runner_hit. destruct (revalidate snapshot) eqn:Er; request_step; [apply (Hdiscover [_; _])|].
    intros [|]; request_step; [|apply (Hdiscover [_; _; _])]. split; [done|]. left. split; [done|]. set_solver.
  - apply (Hdiscover [_; _]).
Qed.

(** Why a request may answer an index, from its last attempt. *)
Definition answered (i : N) (tr : list event) : Prop :=
  ∃ root snapshot tr1 tr2, trusted root ∧ fresh_snapshot root snapshot tr1 ∧
    ((∃ entry g, tr = tr1 ++ Did (SectionLookup root (fingerprint snapshot)) (Some (Cached entry g)) :: tr2 ∧
        Told (AskArtifactsCurrent entry) (inl true) ∈ tr2 ∧ index entry = i) ∨
     (∃ cell owner g, tr = tr1 ++ Did (SectionLookup root (fingerprint snapshot)) (Some (Build cell owner g)) :: tr2 ∧
        (Told (AskCell cell) (Some (IndexBuilt i)) ∈ tr2 ∨
         ∃ built, runs (build_index config has_cache root snapshot g owner) built (IndexBuilt i) ∧ built `sublist_of` tr2))).

Definition is_lookup (e : event) : bool := match e with Did (SectionLookup _ _) _ => true | _ => false end.
Definition lookups (tr : list event) : nat := length (filter (λ e, is_lookup e = true) tr).

Lemma lookups_app tr tr' : lookups (tr ++ tr') = (lookups tr + lookups tr')%nat.
Proof. unfold lookups. by rewrite filter_app, length_app. Qed.

(** The project is not looked up by its own steps. *)
Definition no_lookup {A} : request A → Prop := never is_lookup.
Lemma never_lookups {A} (r : request A) : no_lookup r → ensures r (λ tr _, lookups tr = 0%nat).
Proof.
  intros Hr. eapply ensures_mono; [by apply never_ensures|]. intros tr a Htr. cbv beta in Htr. unfold lookups.
  induction Htr as [|e tr He _ IH]; [done|]. by rewrite filter_cons_False by (by rewrite He).
Qed.

Lemma runner_no_lookup : no_lookup (project_runner config project_path).
Proof. unfold no_lookup, project_runner, trusted_project_root, runner_hit, discover_runner, or_return, lock_projects. never_steps. Qed.
Lemma build_no_lookup root snapshot g owner : no_lookup (build_index config has_cache root snapshot g owner).
Proof.
  unfold no_lookup, build_index, try_build_index, resolve_classpath, find_manifest, read_archives, publish_build, persist_build,
    forget_persisted_classpaths, heavy, or_return. never_steps.
Qed.

(** Why an attempt is repeated. *)
Definition retried (tr : list event) : Prop :=
  ∃ root snapshot g,
    Did (SectionInvalidate root g) (Some tt) ∈ tr ∨
    (∃ cell, Told (AskCell cell) (Some BuildStale) ∈ tr) ∨
    (∃ owner built, runs (build_index config has_cache root snapshot g owner) built BuildStale ∧ built `sublist_of` tr).

(** What a program that looks nothing up ensures, with that it does not. *)
Lemma ensures_no_lookup {A} (r : request A) Q :
  no_lookup r → ensures r Q → ensures r (λ tr a, Q tr a ∧ lookups tr = 0%nat).
Proof.
  intros Hn HQ. apply ensures_runs. intros tr a Hr. split; [by apply (proj1 (ensures_runs r Q) HQ)|].
  by apply (proj1 (ensures_runs r _) (never_lookups r Hn) tr a).
Qed.

Lemma attempt_ensures :
  ensures (index_attempt config has_cache project_path) (λ tr o, (lookups tr ≤ 1)%nat ∧
    match o with
    | inl (Some i) => answered i tr
    | inl None => lookups tr = 1%nat ∧ retried tr
    | inr _ => True
    end).
Proof.
  unfold index_attempt, or_return at 1.
  eapply ensures_call; [apply ensures_no_lookup; [apply runner_no_lookup|apply runner_ensures]|].
  intros tr [[root snapshot]|e] [Hrun Hl]; request_step; [|by rewrite app_nil_r, Hl; auto].
  destruct Hrun as [Htrust Hfresh].
  intros [[entry g|cell owner g]|]; request_step.
  - intros [[|]|e]; request_step.
    + intros [[]|]; request_step; rewrite lookups_app, Hl; (split; [done|]); [|done].
      exists root, snapshot, tr. eexists. split; [done|]. split; [done|]. left. exists entry, g. split; [done|]. split; [left|done].
    + intros [[]|]; request_step; rewrite lookups_app, Hl; (split; [done|]); [|done]. split; [done|].
      exists root, snapshot, g. left. set_solver.
    + rewrite lookups_app, Hl. auto.
  - intros [o|]; request_step.
    + rewrite lookups_app, Hl. split; [done|]. destruct o as [i| |e]; [|split; [done|]|done].
      * exists root, snapshot, tr. eexists. split; [done|]. split; [done|]. right. exists cell, owner, g. split; [done|]. left. left.
      * exists root, snapshot, g. right. left. exists cell. set_solver.
    + apply ensures_bind. eapply ensures_call; [apply ensures_no_lookup; [apply build_no_lookup|apply runs_self]|].
      intros built o [Hb Hbl]. request_step. intros []. rewrite app_nil_r.
      match goal with |- context [lookups ?t] => assert (lookups t = 1%nat) as Hone end.
      { rewrite lookups_app, Hl. change (S (lookups (built ++ [Told (AskSetCell cell o) tt])) = 1%nat). by rewrite lookups_app, Hbl. }
      rewrite Hone. split; [done|]. destruct o as [i| |e]; [|split; [done|]|done].
      * exists root, snapshot, tr. eexists. split; [done|]. split; [done|]. right. exists cell, owner, g. split; [done|]. right.
        exists built. split; [done|]. apply sublist_cons, sublist_inserts_r. done.
      * exists root, snapshot, g. right. right. exists owner, built. split; [done|].
        apply sublist_inserts_l, sublist_cons, sublist_cons, sublist_inserts_r. done.
  - rewrite lookups_app, Hl. auto.
Qed.

Lemma attempts_ensures n :
  ensures (index_attempts config has_cache n project_path) (λ tr o, (lookups tr ≤ n)%nat ∧
    match o with
    | inl i => ∃ before final, tr = before ++ final ∧ answered i final
    | inr e =>
        (e = changed_repeatedly ∧ lookups tr = n ∧ ∃ attempts, tr = mjoin attempts ∧ length attempts = n ∧ Forall retried attempts) ∨
        (∃ before final, tr = before ++ final ∧ runs (index_attempt config has_cache project_path) final (inr e))
    end).
Proof.
  induction n as [|n IH]; cbn [index_attempts].
  - split; [done|]. left. split; [done|]. split; [done|]. by exists [].
  - unfold or_return. eapply ensures_call.
    { apply ensures_runs. intros tr o Hr. exact (conj Hr (proj1 (ensures_runs _ _) attempt_ensures tr o Hr)). }
    intros tr [[i|]|e] (Hr & Hl & Ho); request_step.
    + rewrite app_nil_r. split; [lia|]. by exists [], tr.
    + destruct Ho as [Hone Hretry]. eapply ensures_mono; [apply IH|]. intros tr' o [Hl' Ho]. rewrite lookups_app, Hone. split; [lia|].
      destruct o as [i|e].
      * destruct Ho as (before & final & -> & Ha). exists (tr ++ before), final. by rewrite app_assoc.
      * destruct Ho as [(-> & Hn & attempts & -> & Hlen & Hall)|(before & final & -> & Hf)].
        -- left. split; [done|]. split; [lia|]. exists (tr :: attempts). split_and!; [done|simpl; lia|by constructor].
        -- right. exists (tr ++ before), final. by rewrite app_assoc.
    + rewrite app_nil_r. split; [lia|]. right. by exists [], tr.
Qed.

(** C5: What a request gets is an index of the project as it is: an index is answered only for a
    project inside a trusted directory, with a runner whose files were checked or read again in
    the last attempt, and then either from the cache, after all files it was built from were
    found unchanged, or from the one build of that project's generation; an attempt is repeated
    only when the generation was invalidated or its build found stale; and after four of those
    the request fails, having looked the index up four times at most. *)
Theorem index_for_exact tr o :
  runs (index_for config has_cache project_path) tr o →
  (lookups tr ≤ MAX_INDEX_BUILD_ATTEMPTS)%nat ∧
  match o with
  | inl i => ∃ before final, tr = before ++ final ∧ answered i final
  | inr e =>
      (e = changed_repeatedly ∧ lookups tr = MAX_INDEX_BUILD_ATTEMPTS ∧
         ∃ attempts, tr = mjoin attempts ∧ length attempts = MAX_INDEX_BUILD_ATTEMPTS ∧ Forall retried attempts) ∨
      (∃ before final, tr = before ++ final ∧ runs (index_attempt config has_cache project_path) final (inr e))
  end.
Proof. apply (proj1 (ensures_runs _ _) (attempts_ensures MAX_INDEX_BUILD_ATTEMPTS)). Qed.
End Attempts.

(** ** One project *)

Definition demo_root : path := [lit "p"].
Definition demo_snapshot : RunnerEntry := {| runner := 7; fingerprint := ∅; revalidate := false |}.
Definition demo_config : Config :=
  {| Config.max_results := 1; Config.max_source_bytes := 1; max_project_indexes := 1; max_project_index_bytes := 1; max_heavy_jobs := 1;
     max_queued_heavy_jobs := 1; max_mcp_response_bytes := 1; max_mcp_result_cache_bytes := 1; index_cache := None;
     execution := {| trusted_project_directories := [[lit "p"]]; maven_executable := None; execution_repository := None;
                     timeout_seconds := 1; max_output_bytes := 1; execution_max_results := 1; network_enabled := false;
                     java_environment := Inherit |} |}.
Definition demo_maven : MavenClasspathPaths :=
  {| maven_paths := [[lit "p"; lit "target"; lit "a.jar"]]; paths_incomplete := false;
     classpath_build := {| outcome := Success; policy_notice := None; compiler_diagnostics := []; reactor_summary := [];
       run := {| run_status := RunSuccess; exit_code := Some 0%Z; duration_ms := 1; timed_out := false; stdout := []; stderr := [];
                 stdout_truncated := false; stderr_truncated := false; redaction_count := 0 |} |} |}.
Definition demo_scoped : ScopedIndex :=
  {| scoped_index := 42; scoped_unindexed := []; scoped_records := {| reused := []; built := 1; persistables := [] |} |}.
Definition demo_build : FinishedBuild := {| build_artifacts := ∅; build_classpath_entries := 1; duration := 5 |}.

(** Maven is run, one archive read, and the index kept. *)
Definition build_trace : list event :=
  [Told (AskLockOwner 3) tt; Told (AskMaven 7) demo_maven;
   Told (AskArtifacts demo_root demo_snapshot None (maven_paths demo_maven)) (inl ∅);
   Did (SectionReserve demo_root 1 (file_bytes ∅)) (Some (inr 9));
   Did (SectionFullRebuild demo_root) (Some false);
   Told (AskBuild demo_root demo_snapshot None (maven_paths demo_maven) true ∅) (inl (inl demo_scoped, false));
   Told AskDuration 5;
   Did (SectionPublish demo_root 1 42 None demo_build ∅ 9) (Some Retained)].
Lemma build_outcome_exact_witness :
  runs (build_index demo_config false demo_root demo_snapshot 1 3) build_trace (IndexBuilt 42) ∧
  ∃ l, classpath_from demo_root demo_snapshot l build_trace ∧ built_from demo_config demo_root demo_snapshot 1 l 42 build_trace.
Proof.
  assert (runs (build_index demo_config false demo_root demo_snapshot 1 3) build_trace (IndexBuilt 42)) as Hruns.
  { repeat (cbn [build_index]; do 2 eexists; split; [reflexivity|]). done. }
  split; [exact Hruns|]. exact (build_outcome_exact demo_config false demo_root demo_snapshot 1 3 build_trace (IndexBuilt 42) Hruns).
Defined.

(** A cached index whose files did not change. *)
Definition demo_entry : CachedIndex :=
  {| index := 42; project := ∅; artifacts := ∅; index_bytes := 1; classpath_entries := 1; build_duration := 5 |}.
Definition hit_trace : list event :=
  [Told (AskRoot (lit "p")) (inl demo_root); Did (SectionRunner demo_root) (Some (Some demo_snapshot));
   Told (AskCurrent ∅) true; Did (SectionLookup demo_root ∅) (Some (Cached demo_entry 1));
   Told (AskArtifactsCurrent demo_entry) (inl true); Did (SectionHit demo_root) (Some tt)].
Lemma index_for_exact_witness :
  runs (index_for demo_config false (lit "p")) hit_trace (inl 42) ∧
  ∃ before final, hit_trace = before ++ final ∧ answered demo_config false 42 final.
Proof.
  assert (runs (index_for demo_config false (lit "p")) hit_trace (inl 42)) as Hruns.
  { repeat (do 2 eexists; split; [reflexivity|]). done. }
  split; [exact Hruns|]. exact (proj2 (index_for_exact demo_config false (lit "p") hit_trace (inl 42) Hruns)).
Defined.
