(* ===== verification/Invalidation.v ===== *)
(** * Invalidation: builds that are persisted while their project is invalidated

    Runs the requests of [IndexService] side by side on the one project cache they share, and
    follows the classpath manifest of a build through [persist_build], [invalidate_project] and
    [refresh_project] of [src/server.rs]: a manifest that is written late is forgotten again,
    unless the request that writes it is dropped. *)

From S2P Require Import Prelude.
From S2P Require Import Text.
From S2P Require Import Paths.
From S2P Require Import Config.
From S2P Require Import IndexBuild.
From S2P Require Import ProjectCache.
From S2P Require Import IndexService.

Open Scope N_scope.

(** ** Requests side by side *)

(** The project cache all requests share, and what each has still to do. *)
Record System := {
  projects : ProjectCache;
  threads : list (request unit);
}.

(** One step of one request; questions are answered with anything. *)
Inductive system_step : System → nat * event → System → Prop :=
| step_section c ts i s k d x c' :
    ts !! i = Some (Locked s k) → run_section d s c = Done (x, c') →
    system_step {| projects := c; threads := ts |} (i, Did s (Some x)) {| projects := c'; threads := <[i := k (Some x)]> ts |}
| step_poisoned c ts i s k :
    ts !! i = Some (Locked s k) →
    system_step {| projects := c; threads := ts |} (i, Did s None) {| projects := c; threads := <[i := k None]> ts |}
| step_told c ts i q k x :
    ts !! i = Some (Ask q k) →
    system_step {| projects := c; threads := ts |} (i, Told q x) {| projects := c; threads := <[i := k x]> ts |}.

Inductive system_run : System → list (nat * event) → System → Prop :=
| system_rest s : system_run s [] s
| system_cons s e s' tr s'' : system_step s e s' → system_run s' tr s'' → system_run s (e :: tr) s''.

(** The steps of one request. *)
Definition own (i : nat) (tr : list (nat * event)) : list event := snd <$> filter (λ e, e.1 = i) tr.

Lemma own_app i tr tr' : own i (tr ++ tr') = own i tr ++ own i tr'.
Proof. unfold own. by rewrite filter_app, fmap_app. Qed.
Lemma own_cons i j e tr : own i ((j, e) :: tr) = (if decide (j = i) then [e] else []) ++ own i tr.
Proof. unfold own. rewrite filter_cons. cbn [fst]. by case_decide. Qed.
Lemma elem_of_own i e tr : e ∈ own i tr ↔ (i, e) ∈ tr.
Proof.
  unfold own. rewrite list_elem_of_fmap. setoid_rewrite list_elem_of_filter. split.
  - by intros ([j e'] & -> & <- & Hin).
  - intros Hin. by exists (i, e).
Qed.

(** What the request of a thread runs, from its own steps. *)
Lemma thread_runs s tr s' i r : system_run s tr s' → threads s !! i = Some r →
  ∃ r', threads s' !! i = Some r' ∧ ∀ tr' a, runs r' tr' a → runs r (own i tr ++ tr') a.
Proof.
  intros Hrun. revert r. induction Hrun as [s|s e s1 tr s2 Hstep _ IH]; intros r Hr; [by exists r|].
  assert (∃ r1, threads s1 !! i = Some r1 ∧ ∀ tr' a, runs r1 tr' a → runs r (own i [e] ++ tr') a) as (r1 & Hr1 & Hback).
  { destruct Hstep as [c ts j sec k d x c' Hj Hsec|c ts j sec k Hj|c ts j q k x Hj]; cbn [threads] in *;
      (destruct (decide (j = i)) as [->|Hne];
       [assert (i < length ts)%nat by (by eapply lookup_lt_Some); rewrite list_lookup_insert_eq by done; rewrite Hr in Hj; injection Hj as ->;
        eexists; split; [done|]; intros tr' a Hk; rewrite own_cons, decide_True by done; by eexists _, tr'
       |rewrite list_lookup_insert_ne by done; exists r; split; [done|]; intros tr' a Hk; by rewrite own_cons, decide_False]). }
  destruct (IH r1 Hr1) as (r' & Hr' & Hfin). exists r'. split; [done|]. intros tr' a Ha.
  destruct e as [j e]. change ((j, e) :: tr) with ([(j, e)] ++ tr). rewrite own_app, <- app_assoc. by apply Hback, Hfin.
Qed.
Lemma thread_finished s tr s' i r : system_run s tr s' → threads s !! i = Some r → threads s' !! i = Some (Return tt) → runs r (own i tr) tt.
Proof.
  intros Hrun Hr Hfin. destruct (thread_runs _ _ _ _ _ Hrun Hr) as (r' & Hr' & Hback). assert (r' = Return tt) as -> by congruence.
  specialize (Hback [] tt). rewrite app_nil_r in Hback. by apply Hback.
Qed.

(** A critical section is one call of the cache or two. *)
Lemma calls_one w o c c' : run_op w o c = Done c' → calls any_call c c'.
Proof. intros Hrun. by eapply calls_cons; [|exact Hrun|apply calls_nil]. Qed.
Lemma calls_trans c c' c'' : calls any_call c c' → calls any_call c' c'' → calls any_call c c''.
Proof. induction 1; intros Hcalls; [done|]. eapply calls_cons; eauto. Qed.
Lemma section_calls d s c x c' : run_section d s c = Done (x, c') → calls any_call c c'.
Proof.
  destruct s; cbn [run_section]; unfold unit_section, mret, exec_ret, mbind, exec_bind; intros Hrun.
  - injection Hrun as _ <-. by apply (calls_one (given_world d) (OpRunner root (given_now d))).
  - apply (calls_one (given_world d) (OpDiscard root)). cbn [run_op]. case_match; [by injection Hrun as _ ->|done..].
  - apply (calls_one (given_world d) (OpInstall root r fp (given_now d))). cbn [run_op]. by rewrite Hrun.
  - apply (calls_one (given_world d) (OpLookup root fp (given_cell d) (given_owner d) (given_now d))). cbn [run_op]. by rewrite Hrun.
  - injection Hrun as _ <-. by apply (calls_one (given_world d) (OpHit root (given_now d))).
  - injection Hrun as _ <-. by apply (calls_one (given_world d) (OpInvalidateGeneration root g)).
  - apply (calls_one (given_world d) (OpFinishFailed root g)). cbn [run_op]. case_match; [by injection Hrun as _ ->|done..].
  - apply (calls_one (given_world d) (OpReserve root g bytes (given_reservation d))). cbn [run_op]. by rewrite Hrun.
  - injection Hrun as _ <-. apply calls_nil.
  - unfold publish_section, mbind, exec_bind, mret, exec_ret in Hrun.
    set (c0 := match use with Some (hit, reused, built) => record_persisted_use hit reused built c | None => c end) in Hrun.
    assert (calls any_call c c0) as H0.
    { unfold c0. destruct use as [[[hit reused] built]|]; [|apply calls_nil]. by apply (calls_one (given_world d) (OpPersisted hit reused built)). }
    destruct (publish _ _ _ _ _ _ _ _ c0) as [[p c1]| |] eqn:Hp; [|done..]. injection Hrun as <- <-.
    assert (calls any_call c0 c1) as H1.
    { apply (calls_one (given_world d) (OpPublish root g i build fp r (given_now d))). cbn [run_op]. by rewrite Hp. }
    apply (calls_trans _ c0); [done|]. apply (calls_trans _ c1); [done|].
    destruct p; [apply calls_nil|..]; by apply (calls_one (given_world d) (OpFinishRebuild root g)).
  - injection Hrun as _ <-. apply calls_nil.
  - injection Hrun as _ <-. by apply (calls_one (given_world d) (OpAfterMaven root)).
  - injection Hrun as _ <-. eapply calls_trans; [by apply (calls_one (given_world d) (OpAfterMaven root))|].
    by apply (calls_one (given_world d) (OpRequireRebuild root (given_now d))).
Qed.
Lemma step_calls s e s' : system_step s e s' → calls any_call (projects s) (projects s').
Proof. destruct 1; [by eapply section_calls|apply calls_nil|apply calls_nil]. Qed.
Lemma system_calls s tr s' : system_run s tr s' → calls any_call (projects s) (projects s').
Proof. induction 1; [apply calls_nil|]. eapply calls_trans; [by eapply step_calls|done]. Qed.

(** ** A manifest and an invalidation *)

(** Maven ran in the project, or a refresh was asked for; the classpaths of the project are forgotten. *)
Definition is_invalidation (root : path) (e : event) : bool :=
  match e with
  | Did (SectionAfterMaven r) (Some _) | Did (SectionRefresh r) (Some _) => bool_decide (r = root)
  | _ => false
  end.
Definition is_forget (root : path) (e : event) : bool :=
  match e with Told (AskForget r) _ => bool_decide (r = root) | _ => false end.
Definition is_write (e : event) : bool := match e with Told (AskWrite _) _ => true | _ => false end.
(** What a section said of a generation. *)
Definition said_current (e : event) : option (path * N * bool) :=
  match e with Did (SectionCurrent root g) (Some b) => Some (root, g, b) | _ => None end.

Lemma attempt_never_invalidates root config has_cache project_path :
  never (is_invalidation root) (index_attempt config has_cache project_path).
Proof.
  unfold index_attempt, get_or_build, project_runner, trusted_project_root, runner_hit, discover_runner, lock_projects, build_index,
    try_build_index, resolve_classpath, find_manifest, read_archives, publish_build, persist_build, forget_persisted_classpaths,
    heavy, or_return. never_steps.
Qed.
Lemma index_never_invalidates root config has_cache project_path : never (is_invalidation root) (index_for config has_cache project_path).
Proof.
  unfold index_for. induction MAX_INDEX_BUILD_ATTEMPTS as [|n IH]; cbn [index_attempts]; [done|].
  apply never_bind; [apply attempt_never_invalidates|]. intros [[i|]|e]; done.
Qed.

(** A request that forgets the classpaths of a project after it has invalidated it. *)
Definition forgets (root : path) (tr : list event) : Prop :=
  ∀ tr1 e tr2, tr = tr1 ++ e :: tr2 → is_invalidation root e = true → ∃ e', e' ∈ tr2 ∧ is_forget root e' = true.

Lemma forgets_cons root e tr : is_invalidation root e = false → forgets root tr → forgets root (e :: tr).
Proof.
  intros He Hf [|e1 tr1] e' tr2 Heq Hinv; injection Heq as -> Heq; [congruence|]. by eapply Hf.
Qed.
Lemma forgets_none root tr : Forall (λ e, is_invalidation root e = false) tr → forgets root tr.
Proof. induction 1; [by intros [] ? ? ?|by apply forgets_cons]. Qed.
(** The invalidation is followed by the removal, and then by nothing that invalidates. *)
Lemma forgets_after root e r x tr :
  is_invalidation root e = bool_decide (r = root) → Forall (λ e, is_invalidation root e = false) tr →
  forgets root (e :: Told (AskForget r) x :: tr).
Proof.
  intros He Hall [|e1 tr1] e' tr2 Heq Hinv; injection Heq as -> Heq.
  - rewrite He in Hinv. subst tr2. eexists. split; [left|exact Hinv].
  - eapply (forgets_none root (Told (AskForget r) x :: tr)); [by constructor|exact Heq|done].
Qed.

Lemma invalidate_forgets root project_path : ensures (invalidate_project true project_path) (λ tr _, forgets root tr).
Proof.
  unfold invalidate_project, forget_persisted_classpaths. request_step. intros [r|e]; request_step.
  - intros [[]|]; request_step; [|by apply forgets_none; repeat constructor]. intros x.
    apply forgets_cons; [done|]. apply forgets_after; [done|constructor].
  - apply forgets_none. by repeat constructor.
Qed.
Lemma refresh_forgets root config project_path : ensures (refresh_project config true project_path) (λ tr _, forgets root tr).
Proof.
  unfold refresh_project, trusted_project_root, forget_persisted_classpaths. request_step.
  intros [r|e]; request_step; [|by apply forgets_none; repeat constructor].
  destruct (existsb _ _); request_step; [|by apply forgets_none; repeat constructor].
  intros [[]|]; request_step; [|by apply forgets_none; repeat constructor]. intros x.
  eapply ensures_call; [apply never_ensures, (index_never_invalidates root)|]. intros tr o Hall. request_step. rewrite app_nil_r.
  apply forgets_cons; [done|]. by apply forgets_after.
Qed.

(** The steps of the end of a build. *)
Lemma persist_steps build :
  ensures (persist_build true build) (λ tr _, ∃ x y rest,
    tr = Told (AskWrite build) x :: Did (SectionCurrent (persisted_root build) (persisted_generation build)) y :: rest ∧
    Forall (λ e, is_write e = false) rest ∧
    (default false y = true ∨ ∃ z, Told (AskForget (persisted_root build)) z ∈ rest)).
Proof.
  unfold persist_build, forget_persisted_classpaths. request_step. intros x [[]|]; request_step.
  - exists x, (Some true), []. split_and!; [done|constructor|by left].
  - intros z. exists x, (Some false). eexists. split_and!; [done|by repeat constructor|]. right. exists z. left.
  - intros z. exists x, None. eexists. split_and!; [done|by repeat constructor|]. right. exists z. left.
Qed.

(** ** What the cache says in the meantime *)

Lemma invalidated_dead w root g c : g ≤ next_generation c → is_current (invalidate_after_maven w root c) root g = false.
Proof.
  intros Hg. unfold is_current, invalidate_after_maven, update_state. cbn [states set_states].
  destruct (states (invalidate w root c) !! root) as [s|] eqn:Hs; [|by rewrite lookup_alter_eq, Hs].
  rewrite lookup_alter_eq, Hs. cbn. apply invalidate_states in Hs. rewrite decide_True in Hs by done. destruct Hs as [-> _].
  apply N.eqb_neq. lia.
Qed.
Lemma invalidation_step s i e s' root g :
  system_step s (i, e) s' → is_invalidation root e = true → g ≤ next_generation (projects s) →
  is_current (projects s') root g = false.
Proof.
  intros Hstep. inversion Hstep as [c ts j sec k d x c' Hj Hsec|c ts j sec k Hj|c ts j q k x Hj]; subst; cbn [projects]; intros He Hg; [|by destruct sec|done].
  destruct sec; try done; apply bool_decide_eq_true in He as ->; cbn [run_section] in Hsec; unfold mret, exec_ret in Hsec; injection Hsec as _ <-.
  - by apply invalidated_dead.
  - eapply (dead_generation _ _ (invalidate_after_maven (given_world d) root c));
      [by apply (run_op_evolves (given_world d) (OpRequireRebuild root (given_now d)))| |by apply invalidated_dead].
    pose proof (ev_next _ _ (run_op_evolves (given_world d) (OpAfterMaven root) c _ eq_refl)). lia.
Qed.
(** No section says of a generation the project has left that it is current. *)
Lemma dead_said s tr s' root g i e :
  system_run s tr s' → is_current (projects s) root g = false → g ≤ next_generation (projects s) →
  (i, e) ∈ tr → said_current e ≠ Some (root, g, true).
Proof.
  induction 1 as [s|s [j e1] s1 tr s2 Hstep Hrun IH]; intros Hdead Hg Hin; [by apply elem_of_nil in Hin|].
  apply elem_of_cons in Hin as [[= -> ->]|Hin].
  - inversion Hstep as [c ts j' sec k d x c' Hj Hsec|c ts j' sec k Hj|c ts j' q k x Hj]; subst; cbn [projects said_current] in *; [|by destruct sec|done].
    destruct sec; try done. cbn [run_section] in Hsec. unfold mret, exec_ret in Hsec. injection Hsec as <- _. intros [= -> -> Hc]. congruence.
  - pose proof (calls_evolves _ _ _ (step_calls _ _ _ Hstep)) as Hev. apply IH; [by eapply dead_generation|etrans; [exact Hg|apply Hev]|done].
Qed.

Lemma system_run_app s tr tr' s' : system_run s (tr ++ tr') s' ↔ ∃ s1, system_run s tr s1 ∧ system_run s1 tr' s'.
Proof.
  split.
  - revert s. induction tr as [|e tr IH]; intros s Hrun; [by exists s; split; [constructor|]|].
    inversion Hrun as [|? ? s1 ? ? Hstep Hrest]; subst. destruct (IH s1 Hrest) as (s2 & H1 & H2). exists s2. split; [by econstructor|done].
  - intros (s1 & H1 & H2). induction H1; [done|]. econstructor; eauto.
Qed.

(** The first write of a request that persists a build is its only one. *)
Lemma only_write (l l' : list event) w w' c rest :
  l ++ w :: l' = w' :: c :: rest → is_write w = true → is_write c = false → Forall (λ e, is_write e = false) rest → l' = c :: rest.
Proof.
  intros Heq Hw Hc Hrest. destruct l as [|e1 [|e2 l]]; [by injection Heq as _ ->|..]; exfalso.
  - injection Heq as _ <- _. congruence.
  - injection Heq as _ _ Heq. subst rest. apply Forall_app in Hrest as [_ Hrest]. apply Forall_cons in Hrest as [Hrest _]. congruence.
Qed.

(** The end of a build whose generation is dead: after its write it forgets. *)
Lemma late_write_forgotten s tr s' b build own1 x tr2 :
  system_run s tr s' → is_current (projects s) (persisted_root build) (persisted_generation build) = false →
  persisted_generation build ≤ next_generation (projects s) → (∀ i e, (i, e) ∈ tr2 → (i, e) ∈ tr) →
  runs (persist_build true build) (own1 ++ Told (AskWrite build) x :: own b tr2) tt →
  ∃ y, (b, Told (AskForget (persisted_root build)) y) ∈ tr2.
Proof.
  intros Hrun Hdead Hg Hsub Hb. apply (proj1 (ensures_runs _ _) (persist_steps build)) in Hb as (x' & y & rest & Heq & Hrest & Hy).
  apply only_write in Heq; [|done..]. destruct Hy as [Hy|[z Hz]].
  - exfalso. destruct y as [[]|]; [|done..]. eapply (dead_said _ _ _ _ _ b (Did (SectionCurrent _ _) (Some true)) Hrun Hdead Hg); [|done].
    apply Hsub, elem_of_own. rewrite Heq. left.
  - exists z. apply elem_of_own. rewrite Heq. by right.
Qed.


(** A project in its first generation, whose build is persisted while Maven runs. *)
Definition demo_limits : CacheLimits := {| max_indexes := 1; max_runners := 1; max_bytes := 1 |}.
Definition demo_cache : ProjectCache := require_full_rebuild demo_root 0 (new demo_limits).
Definition demo_persisted : PersistedBuild :=
  {| persisted_root := demo_root; persisted_generation := 1; persisted_context := []; persisted_fingerprint := ∅;
     persisted_paths := []; persisted_inputs := None; persisted_records := {| reused := []; built := 0; persistables := [] |} |}.
Definition demo_invalidation : request unit := do! _ := invalidate_project true (lit "p") in Return tt.
Definition demo_system : System := {| projects := demo_cache; threads := [persist_build true demo_persisted; demo_invalidation] |}.
Definition demo_given : Given :=
  {| given_world := {| index_refs _ := 0; runner_refs _ := 0; cell_refs _ := 0; reservation_refs _ := 0; lock_taken _ := false;
                       retained_test_result_bytes _ := 0; index_estimated_bytes _ := 0 |};
     given_cell := 0; given_owner := 0; given_reservation := 0; given_now := 0 |}.
Definition invalidated_cache : ProjectCache := invalidate_after_maven (given_world demo_given) demo_root demo_cache.

Lemma demo_calls : calls any_call (new demo_limits) demo_cache.
Proof. by apply (calls_one (given_world demo_given) (OpRequireRebuild demo_root 0)). Qed.

(** The invalidation, then the write and the rest of both requests. *)
Definition forgotten_trace : list (nat * event) :=
  [(1%nat, Told (AskRoot (lit "p")) (inl demo_root)); (1%nat, Did (SectionAfterMaven demo_root) (Some tt));
   (1%nat, Told (AskForget demo_root) (inl true)); (0%nat, Told (AskWrite demo_persisted) (inl true));
   (0%nat, Did (SectionCurrent demo_root 1) (Some false)); (0%nat, Told (AskForget demo_root) (inl true))].
Lemma forgotten_run : system_run demo_system forgotten_trace {| projects := invalidated_cache; threads := [Return tt; Return tt] |}.
Proof.
  eapply system_cons; [by eapply step_told|]. eapply system_cons; [by eapply (step_section _ _ _ (SectionAfterMaven demo_root) _ demo_given tt invalidated_cache)|].
  eapply system_cons; [by eapply step_told|]. eapply system_cons; [by eapply step_told|].
  eapply system_cons; [by eapply (step_section _ _ _ (SectionCurrent demo_root 1) _ demo_given false invalidated_cache)|].
  eapply system_cons; [by eapply step_told|]. constructor.
Qed.

(** A request that is dropped while its manifest is written leaves the manifest behind: the
    invalidation is done and has forgotten what was there, and then the manifest is written,
    with no step of any request left that forgets it. *)
Theorem dropped_request_keeps_manifest :
  ∃ s before s', projects s = demo_cache ∧ is_current demo_cache demo_root 1 = true ∧
    system_run s (before ++ [(0%nat, Told (AskWrite demo_persisted) (inl true))]) s' ∧
    (1%nat, Did (SectionAfterMaven demo_root) (Some tt)) ∈ before ∧ threads s' !! 1%nat = Some (Return tt) ∧
    threads s !! 0%nat = Some (persist_build true demo_persisted).
Proof.
  exists demo_system, (take 3 forgotten_trace). eexists. split; [done|]. split; [done|]. split.
  - eapply system_cons; [by eapply step_told|]. eapply system_cons; [by eapply (step_section _ _ _ (SectionAfterMaven demo_root) _ demo_given tt invalidated_cache)|].
    eapply system_cons; [by eapply step_told|]. eapply system_cons; [by eapply step_told|]. constructor.
  - split; [right; left|]. by split.
Qed.
