(* ===== verification/Hierarchy.v ===== *)
(** * Hierarchy: the children of a type

    Models [search_type_hierarchy] of [src/index.rs]: the breadth-first search of the subtypes of a
    type over the edges of [children_by_parent], with the edges already visited, the path to every
    type found, and the limit.  One unit of fuel per edge, and two more, are enough: every turn of
    the search takes a type off the queue, and a type is queued once per edge visited. *)

From S2P Require Import Prelude.
From S2P Require Import Text.
From S2P Require Import TextSearch.
From S2P Require Import Ordering.
From S2P Require Import Artifacts.
From S2P Require Import ClassEntries.
From S2P Require Import ClassFacts.
From S2P Require Import IndexRecord.
From S2P Require Import IndexBuild.
From S2P Require Import IndexSearch.

Open Scope N_scope.

Record TypeHierarchyMatch := {
  type_name : str;
  match_type_jar : JarSummary;
  match_relation : TypeRelation;
  match_depth : N;
  match_path : list str;
}.

(** A type to search below, the path to it and its depth. *)
Record QueueEntry := {
  queued : str;
  queued_path : list str;
  queued_depth : N;
}.

Record Search := {
  queue : list QueueEntry;
  visited_edges : gset (str * str * str);
  found : list TypeHierarchyMatch;
}.

Section Hierarchy.
Context `{Unicode} (index : MavenIndex).

Definition children_of (parent : str) : list HierarchyEdge :=
  default [] (children_by_parent index !! ascii_lower parent).

(** The archive, the fact, the child and the parent of an edge. *)
Definition edge_fact (e : HierarchyEdge) : exec (JarRecord * IndexedTypeParent * str * str) :=
  jar ← or_panic (jars index !! edge_jar e);
  class ← or_panic (jar_class_facts jar !! edge_class e);
  fact ← or_panic (parents class !! edge_parent e);
  child ← jar_fact_string jar (source_class class);
  fact_parent ← jar_fact_string jar (ClassFacts.parent fact);
  mret (jar, fact, child, fact_parent).

(** One edge below a queued type; the search returns early on the right. *)
Definition visit_edge (transitive : bool) (selector : option str) (limit : N) (q : QueueEntry) (s : Search)
    (e : HierarchyEdge) : exec (Search + Search) :=
  '(jar, fact, child, fact_parent) ← edge_fact e;
  let key := (to_lowercase child, to_lowercase fact_parent, jar_coordinate jar) in
  let s' := {| queue := queue s; visited_edges := {[key]} ∪ visited_edges s; found := found s |} in
  if bool_decide (key ∈ visited_edges s) || bool_decide (child ∈ queued_path q) then mret (inl s')
  else
    let child_path := queued_path q ++ [child] in
    let push s :=
      if transitive then
        {| queue := queue s ++ [{| queued := child; queued_path := child_path; queued_depth := queued_depth q + 1 |}];
           visited_edges := visited_edges s; found := found s |}
      else s in
    if match selector with None => true | Some value => matches_selector jar value end then
      let found := found s' ++ [{| type_name := child; match_type_jar := summary jar; match_relation := relation fact;
                                   match_depth := queued_depth q + 1; match_path := child_path |}] in
      let s'' := {| queue := queue s'; visited_edges := visited_edges s'; found := found |} in
      if N.of_nat (length found) =? limit then mret (inr s'') else mret (inl (push s''))
    else mret (inl (push s')).

Definition hierarchy_turn (transitive : bool) (selector : option str) (limit : N) (s : Search)
    : exec (turn Search (list TypeHierarchyMatch)) :=
  match queue s with
  | [] => mret (Break (found s))
  | q :: rest =>
      r ← for_until (visit_edge transitive selector limit q) (children_of (queued q))
            {| queue := rest; visited_edges := visited_edges s; found := found s |};
      match r with
      | inr s => mret (Break (found s))
      | inl s => if transitive then mret (Continue s) else mret (Break (found s))
      end
  end.

(** The number of edges of the index. *)
Definition edge_total : nat := sum_list_with (λ kv : str * list HierarchyEdge, length kv.2) (map_to_list (children_by_parent index)).

Definition search_start (root : str) : Search :=
  {| queue := [{| queued := root; queued_path := [root]; queued_depth := 0 |}]; visited_edges := ∅; found := [] |}.

Definition search_type_hierarchy (type_name : str) (transitive : bool) (selector : option str) (requested : option N)
    : exec (list TypeHierarchyMatch) :=
  let root := normalize_class_query type_name in
  if bool_decide (root = []) then mret []
  else
    limit ← limit index requested;
    loop (2 + edge_total) (hierarchy_turn transitive selector limit) (search_start root).
End Hierarchy.

(** ** The edges of an index *)

Section Edges.
Context `{Unicode}.

(** The edge of a fact: a class [child] of the archive [jar] has the parent [parent]. *)
Definition edge_of (l : list JarRecord) (e : HierarchyEdge) (jar : JarRecord) (fact : IndexedTypeParent) (child parent_ : str) : Prop :=
  l !! edge_jar e = Some jar ∧
  ∃ class, jar_class_facts jar !! edge_class e = Some class ∧ parents class !! edge_parent e = Some fact ∧
    jar_fact_string jar (source_class class) = Done child ∧ jar_fact_string jar (parent fact) = Done parent_.

Definition at_key (m : gmap str (list HierarchyEdge)) (k : str) : list HierarchyEdge := default [] (m !! k).

(** A step that adds the edges [R] to a table. *)
Definition adds (R : str → HierarchyEdge → Prop) (m m' : gmap str (list HierarchyEdge)) : Prop :=
  ∀ k e, e ∈ at_key m' k ↔ e ∈ at_key m k ∨ R k e.

Lemma for_each_adds {A} (body : gmap str (list HierarchyEdge) → A → exec (gmap str (list HierarchyEdge)))
    (R : A → str → HierarchyEdge → Prop) l m :
  (∀ m a, a ∈ l → wp (body m a) (adds (R a) m)) →
  wp (for_each body l m) (adds (λ k e, ∃ a, a ∈ l ∧ R a k e) m).
Proof.
  revert m. induction l as [|a l IH]; intros m Hbody; cbn [for_each].
  - intros k e. set_solver.
  - eapply wp_call; [apply Hbody; by left|]. intros m1 H1.
    eapply wp_mono; [apply IH; intros; apply Hbody; by right|]. intros m2 H2 k e.
    rewrite (H2 k e), (H1 k e). set_solver.
Qed.

Lemma push_edge_adds jar j c m p :
  total (jar_fact_string jar (parent p.2)) →
  wp (push_edge jar j c m p) (adds (λ k e, e = {| edge_jar := j; edge_class := c; edge_parent := p.1 |} ∧
    ∃ name, jar_fact_string jar (parent p.2) = Done name ∧ ascii_lower name = k) m).
Proof.
  intros Ht. unfold push_edge. destruct (jar_fact_string jar (parent p.2)) as [name| |]; [|done..].
  intros k e. unfold at_key, update_entry. destruct (decide (ascii_lower name = k)) as [<-|Hk].
  - rewrite lookup_insert_eq. simpl. rewrite elem_of_app, list_elem_of_singleton. naive_solver.
  - rewrite lookup_insert_ne by done. naive_solver.
Qed.

Lemma typed_parent jar class fact :
  record_typed jar → class ∈ jar_class_facts jar → fact ∈ parents class →
  total (jar_fact_string jar (source_class class)) ∧ total (jar_fact_string jar (parent fact)).
Proof.
  intros [_ _ Hf] Hc Hp. rewrite Forall_forall in Hf. destruct (Hf _ Hc) as [Hs _ Hps _].
  rewrite Forall_forall in Hps. split; apply fact_string_typed; [done|by apply Hps].
Qed.

Lemma push_all_edges l :
  Forall record_typed l →
  wp (for_each push_edges (enumerate l) ∅) (λ m, ∀ k e, e ∈ at_key m k ↔
    ∃ jar fact child parent_, edge_of l e jar fact child parent_ ∧ ascii_lower parent_ = k).
Proof.
  intros Htyped. rewrite Forall_forall in Htyped. eapply wp_mono.
  - apply (for_each_adds push_edges (λ j k e, ∃ c, c ∈ enumerate (jar_class_facts j.2) ∧
      ∃ p, p ∈ enumerate (parents c.2) ∧ e = {| edge_jar := j.1; edge_class := c.1; edge_parent := p.1 |} ∧
        ∃ name, jar_fact_string j.2 (parent p.2) = Done name ∧ ascii_lower name = k)).
    intros m j Hj%elem_of_enumerate. unfold push_edges.
    apply (for_each_adds _ (λ c k e, ∃ p, p ∈ enumerate (parents c.2) ∧
      e = {| edge_jar := j.1; edge_class := c.1; edge_parent := p.1 |} ∧
        ∃ name, jar_fact_string j.2 (parent p.2) = Done name ∧ ascii_lower name = k)).
    intros m' c Hc%elem_of_enumerate. apply (for_each_adds _ (λ p k e,
      e = {| edge_jar := j.1; edge_class := c.1; edge_parent := p.1 |} ∧
        ∃ name, jar_fact_string j.2 (parent p.2) = Done name ∧ ascii_lower name = k)).
    intros m2 p Hp%elem_of_enumerate. apply push_edge_adds.
    eapply typed_parent; [apply Htyped|..]; by eapply list_elem_of_lookup_2.
  - intros m Hm k e. rewrite (Hm k e). unfold at_key at 1. rewrite lookup_empty. simpl. split.
    + intros [?%elem_of_nil|(j & Hj & c & Hc & p & Hp & -> & name & Hn & Hk)]; [done|].
      apply elem_of_enumerate in Hj, Hc, Hp.
      destruct (typed_parent j.2 c.2 p.2) as [Ht _]; [apply Htyped; by eapply list_elem_of_lookup_2|by eapply list_elem_of_lookup_2..|].
      destruct (jar_fact_string j.2 (source_class c.2)) as [child| |] eqn:Hch; [|done..].
      exists j.2, p.2, child, name. split; [|done]. split; [done|]. by exists c.2.
    + intros (jar & fact & child & parent_ & (Hj & class & Hc & Hp & Hch & Hpa) & Hk). right.
      exists (edge_jar e, jar). rewrite elem_of_enumerate. split; [done|].
      exists (edge_class e, class). rewrite elem_of_enumerate. split; [done|].
      exists (edge_parent e, fact). rewrite elem_of_enumerate. split; [done|].
      split; [by destruct e|by exists parent_].
Qed.

Lemma keyed_total {A K} (key : A → exec K) l :
  (∀ a, a ∈ l → total (key a)) → wp (keyed key l) (λ r, r.*2 = l).
Proof.
  induction l as [|a l IH]; intros Hk; cbn [keyed]; [done|].
  pose proof (Hk a ltac:(by left)) as Ha. destruct (key a); [|done..]. cbn [mbind exec_bind].
  eapply wp_call; [apply IH; intros b Hb; apply Hk; by right|]. intros r Hr. apply wp_mret. rewrite fmap_cons. simpl. by rewrite Hr.
Qed.

Lemma sort_edges_perm l edges :
  (∀ e, e ∈ edges → ∃ jar fact child parent_, edge_of l e jar fact child parent_) →
  wp (sort_edges l edges) (λ r, r ≡ₚ edges).
Proof.
  intros He. unfold sort_edges. eapply wp_call.
  - apply keyed_total. intros e Hin. destruct (He e Hin) as (jar & fact & child & p & Hj & class & Hc & Hp & Hch & _).
    unfold edge_key. rewrite Hj. cbn [or_panic mbind exec_bind]. rewrite Hc. cbn [or_panic mbind exec_bind].
    rewrite Hch. cbn [mbind exec_bind]. by rewrite Hp.
  - intros r Hr. apply wp_mret. unfold sort_by_key. rewrite (sort_with_perm _ r), Hr. done.
Qed.

Lemma sort_children_perm l entries :
  (∀ k edges, (k, edges) ∈ entries → ∀ e, e ∈ edges → ∃ jar fact child parent_, edge_of l e jar fact child parent_) →
  wp (sort_children l entries) (Forall2 (λ a b, b.1 = a.1 ∧ b.2 ≡ₚ a.2) entries).
Proof.
  induction entries as [|[k edges] entries IH]; intros He; cbn [sort_children]; [constructor|].
  eapply wp_call; [apply sort_edges_perm; intros e Hin; by apply (He k edges); [left|]|]. intros r Hr.
  eapply wp_call; [apply IH; intros k' edges' Hin; apply (He k' edges'); by right|]. intros rest Hrest.
  apply wp_mret. by constructor.
Qed.

Lemma build_children_spec l :
  Forall record_typed l →
  wp (build_children_by_parent l) (λ m, ∀ k e, e ∈ at_key m k ↔
    ∃ jar fact child parent_, edge_of l e jar fact child parent_ ∧ ascii_lower parent_ = k).
Proof.
  intros Htyped. unfold build_children_by_parent. eapply wp_call; [by apply push_all_edges|]. intros m Hm.
  eapply wp_call.
  - apply (sort_children_perm l). intros k edges Hin%elem_of_map_to_list e He.
    assert (e ∈ at_key m k) as Hk by (unfold at_key; by rewrite Hin).
    apply Hm in Hk as (jar & fact & child & p & Hedge & _). by exists jar, fact, child, p.
  - intros sorted Hs. apply wp_mret. intros k e. cbv beta in Hm, Hs. rewrite <- (Hm k e). unfold at_key.
    assert (Hkeys : sorted.*1 = (map_to_list m).*1).
    { clear -Hs. induction Hs as [|[] [] ? ? [? _] _ IH]; [done|]. simpl in *. by f_equal. }
    assert (Hnd : NoDup sorted.*1) by (rewrite Hkeys; apply NoDup_fst_map_to_list).
    destruct (m !! k) as [edges|] eqn:Ek.
    + apply elem_of_map_to_list, list_elem_of_lookup in Ek as [i Hi].
      destruct (Forall2_lookup_l _ _ _ _ _ Hs Hi) as ([k' edges'] & Hi' & Hk' & Hperm). simpl in Hk', Hperm. subst k'.
      apply list_elem_of_lookup_2, (elem_of_list_to_map_1 _ _ _ Hnd) in Hi'. rewrite Hi'. simpl. by rewrite Hperm.
    + assert ((list_to_map sorted : gmap str (list HierarchyEdge)) !! k = None) as ->; [|done].
      apply not_elem_of_list_to_map. rewrite Hkeys. intros ([k' v] & -> & Hin%elem_of_map_to_list)%list_elem_of_fmap.
      simpl in Ek. congruence.
Qed.

(** The table of children is exact: for well typed archives it is built without a panic, and
    under a name in lower case it holds exactly the facts whose parent has that name. *)
Theorem children_exact l :
  Forall record_typed l →
  wp (build_children_by_parent l) (λ m, ∀ k e, e ∈ at_key m k ↔
    ∃ jar fact child parent_, edge_of l e jar fact child parent_ ∧ ascii_lower parent_ = k).
Proof. apply build_children_spec. Qed.
End Edges.

(** ** The search *)

Lemma wp_for_until {A S} (I : list A → S → Prop) (Q : S → Prop) (body : S → A → exec (S + S)) :
  (∀ a l s, I (a :: l) s → wp (body s a) (λ r, match r with inl s' => I l s' | inr s' => Q s' end)) →
  ∀ l s, I l s → wp (for_until body l s) (λ r, match r with inl s' => I [] s' | inr s' => Q s' end).
Proof.
  intros Hbody l. induction l as [|a l IH]; intros s Hs; cbn [for_until]; [done|].
  eapply wp_call; [by apply Hbody|]. intros [s'|s'] Hs'; [by apply IH|done].
Qed.

Lemma size_list_to_set_le (l : list (str * str * str)) : (size (list_to_set l : gset (str * str * str)) ≤ length l)%nat.
Proof.
  induction l as [|x l IH]; [done|]. cbn [list_to_set length].
  destruct (decide (x ∈ (list_to_set l : gset (str * str * str)))) as [Hx|Hx].
  - rewrite subseteq_union_1_L by set_solver. lia.
  - rewrite size_union, size_singleton by set_solver. lia.
Qed.

Lemma length_omap_le {A B} (f : A → option B) (l : list A) : (length (omap f l) ≤ length l)%nat.
Proof. induction l as [|x l IH]; [done|]. cbn [omap list_omap length]. destruct (f x); simpl; unfold omap in *; lia. Qed.

Section Search.
Context `{Unicode} (index : MavenIndex) (root : str) (selector : option str) (limit_ : N).

(** The edges of the index are the facts of its archives. *)
Definition edges_exact : Prop := ∀ k e, e ∈ at_key (children_by_parent index) k ↔
  ∃ jar fact child parent_, edge_of (jars index) e jar fact child parent_ ∧ ascii_lower parent_ = k.
Context (Hedges : edges_exact).

Lemma edge_fact_spec e jar fact child parent_ :
  edge_of (jars index) e jar fact child parent_ → edge_fact index e = Done (jar, fact, child, parent_).
Proof.
  intros (Hj & class & Hc & Hp & Hch & Hpa). unfold edge_fact. rewrite Hj. cbn [or_panic mbind exec_bind].
  rewrite Hc. cbn [or_panic mbind exec_bind]. rewrite Hp. cbn [or_panic mbind exec_bind]. by rewrite Hch, Hpa.
Qed.

(** A path of subtypes from the root down, without a repetition. *)
Inductive descends : list str → Prop :=
| descends_root : descends [root]
| descends_child path parent_name e jar fact child parent_ :
    descends path → last path = Some parent_name → edge_of (jars index) e jar fact child parent_ →
    ascii_lower parent_ = ascii_lower parent_name → child ∉ path → descends (path ++ [child]).

Definition selected (jar : JarRecord) : bool :=
  match selector with None => true | Some value => matches_selector jar value end.

(** A match: its path leads from the root to it, and its last step is a fact of its archive. *)
Definition match_sound (m : TypeHierarchyMatch) : Prop :=
  ∃ path parent_name e jar fact parent_,
    match_path m = path ++ [type_name m] ∧ descends path ∧ last path = Some parent_name ∧
    edge_of (jars index) e jar fact (type_name m) parent_ ∧ ascii_lower parent_ = ascii_lower parent_name ∧
    type_name m ∉ path ∧ match_type_jar m = summary jar ∧ match_relation m = relation fact ∧
    match_depth m = N.of_nat (length path) ∧ selected jar = true.

Definition queue_sound (q : QueueEntry) : Prop :=
  descends (queued_path q) ∧ last (queued_path q) = Some (queued q) ∧
  queued_depth q + 1 = N.of_nat (length (queued_path q)).

(** The key of an edge, and all keys there are. *)
Definition key_of (e : HierarchyEdge) : option (str * str * str) :=
  match edge_fact index e with
  | Done (jar, _, child, parent_) => Some (to_lowercase child, to_lowercase parent_, jar_coordinate jar)
  | _ => None
  end.
Definition all_edges : list HierarchyEdge := map_to_list (children_by_parent index) ≫= snd.
Definition all_keys : gset (str * str * str) := list_to_set (omap key_of all_edges).

Lemma all_edges_length : length all_edges = edge_total index.
Proof.
  unfold all_edges, edge_total. induction (map_to_list (children_by_parent index)) as [|[k l] entries IH]; [done|].
  cbn [mbind list_bind sum_list_with]. rewrite length_app, IH. done.
Qed.

Lemma all_keys_size : (size all_keys ≤ edge_total index)%nat.
Proof.
  rewrite <- all_edges_length. unfold all_keys. etrans; [apply size_list_to_set_le|]. apply length_omap_le.
Qed.

(** What holds of the search between its turns; [rest] are the edges of the queued type that are
    still to be visited. *)
Record sound_state (s : Search) : Prop := {
  state_keys : visited_edges s ⊆ all_keys;
  state_queue : Forall queue_sound (queue s);
  state_found : Forall match_sound (found s);
  state_limit : N.of_nat (length (found s)) < limit_;
}.

(** The work left: the types queued and the edges not visited. *)
Definition work (s : Search) : nat := length (queue s) + (size all_keys - size (visited_edges s)).

(** Every name that was matched, and the root, is queued or its edges were visited. *)
Definition is_known (s : Search) (name : str) : Prop := name = root ∨ ∃ m, m ∈ found s ∧ type_name m = name.
Definition expanded (s : Search) (name : str) : Prop :=
  ∀ e k, e ∈ children_of index name → key_of e = Some k → k ∈ visited_edges s.
Record complete_state (s : Search) : Prop := {
  complete_paths : ∀ q x, q ∈ queue s → x ∈ queued_path q → is_known s x;
  complete_keys : ∀ k, k ∈ visited_edges s → ∃ name, is_known s name ∧ to_lowercase name = k.1.1;
}.
Definition accounted_for (s : Search) (current : option str) : Prop :=
  ∀ name, is_known s name → (∃ q, q ∈ queue s ∧ queued q = name) ∨ current = Some name ∨ expanded s name.

(** One edge: the state stays sound, its key is visited, and the work does not grow. *)
Lemma visit_edge_spec transitive q s e :
  sound_state s → queue_sound q → e ∈ children_of index (queued q) →
  wp (visit_edge index transitive selector limit_ q s e) (λ r,
    match r with
    | inl s' => sound_state s' ∧ (work s' ≤ work s)%nat ∧ visited_edges s ⊆ visited_edges s' ∧
        (∀ k, key_of e = Some k → k ∈ visited_edges s') ∧
        (transitive = false → queue s' = queue s) ∧
        (selector = None → transitive = true → (∀ x, x ∈ queued_path q → is_known s x) → complete_state s →
           complete_state s' ∧ (∀ x, is_known s x → is_known s' x) ∧
           (∀ name, is_known s' name → is_known s name ∨ ∃ q', q' ∈ queue s' ∧ queued q' = name) ∧
           ∀ q', q' ∈ queue s → q' ∈ queue s')
    | inr s' => N.of_nat (length (found s')) = limit_ ∧ Forall match_sound (found s')
    end).
Proof.
  intros [Hkeys Hqueue Hfound Hlimit] (Hdesc & Hlast & Hdepth) He.
  assert (He' : e ∈ at_key (children_by_parent index) (ascii_lower (queued q))) by exact He.
  apply Hedges in He' as (jar & fact & child & parent_ & Hedge & Hlow).
  unfold visit_edge. rewrite (edge_fact_spec _ _ _ _ _ Hedge). cbn [mbind exec_bind].
  set (key := (to_lowercase child, to_lowercase parent_, jar_coordinate jar)).
  assert (Hkey : key_of e = Some key) by (unfold key_of; by rewrite (edge_fact_spec _ _ _ _ _ Hedge)).
  assert (Hin : key ∈ all_keys).
  { unfold all_keys. apply elem_of_list_to_set, list_elem_of_omap. exists e. split; [|done].
    unfold all_edges. apply list_elem_of_bind. unfold children_of in He.
    destruct (children_by_parent index !! ascii_lower (queued q)) as [edges|] eqn:Ek; [|by apply elem_of_nil in He].
    exists (ascii_lower (queued q), edges). split; [done|]. by apply elem_of_map_to_list. }
  assert (Hsize : (size ({[key]} ∪ visited_edges s) ≤ size all_keys)%nat) by (apply subseteq_size; set_solver).
  assert (Hgrow : (size (visited_edges s) ≤ size ({[key]} ∪ visited_edges s))%nat) by (apply subseteq_size; set_solver).
  destruct (bool_decide (key ∈ visited_edges s) || bool_decide (child ∈ queued_path q)) eqn:Eskip.
  { apply wp_mret. split_and!; cbn [visited_edges queue found].
    - split; cbn; [set_solver|done..].
    - unfold work. cbn. lia.
    - set_solver.
    - intros k Hk. set_solver.
    - done.
    - intros _ _ Hpath [Hc1 Hc2]. split_and!; [|done|by left|done]. split; [done|].
      intros k [->%elem_of_singleton|Hk]%elem_of_union; [|by apply Hc2].
      apply orb_true_iff in Eskip as [Hv%bool_decide_eq_true|Hp%bool_decide_eq_true]; [by apply Hc2|].
      exists child. split; [by apply Hpath|done]. }
  apply orb_false_iff in Eskip as [Hnew%bool_decide_eq_false Hpath%bool_decide_eq_false].
  assert (Hsucc : size ({[key]} ∪ visited_edges s) = S (size (visited_edges s))).
  { rewrite size_union, size_singleton by set_solver. done. }
  assert (Hchild : descends (queued_path q ++ [child])) by by eapply descends_child.
  set (entry := {| queued := child; queued_path := queued_path q ++ [child]; queued_depth := queued_depth q + 1 |}).
  assert (Hentry : queue_sound entry).
  { split_and!; simpl; [done|apply last_snoc|]. rewrite length_app. simpl. lia. }
  set (m := {| type_name := child |}). cbv zeta. cbn [queue visited_edges found].
  destruct (match selector with None => true | Some value => matches_selector jar value end) eqn:Esel.
  - assert (Hm : match_sound m).
    { exists (queued_path q), (queued q), e, jar, fact, parent_. by split_and!. }
    destruct (N.eqb_spec (N.of_nat (length (found s ++ [m]))) limit_) as [Hlim|Hlim].
    { apply wp_mret. cbn [found]. split; [done|]. apply Forall_app_2; [done|by apply Forall_singleton]. }
    apply wp_mret. split_and!.
    + destruct transitive; split; cbn [visited_edges queue found]; try set_solver;
        try (apply Forall_app_2; [done|by apply Forall_singleton]); try done; rewrite length_app in *; simpl in *; lia.
    + unfold work. destruct transitive; cbn [visited_edges queue found]; rewrite ?length_app; simpl; lia.
    + destruct transitive; set_solver.
    + intros k Hk. rewrite Hkey in Hk. injection Hk as <-. destruct transitive; set_solver.
    + by intros ->.
    + intros _ -> Hknown [Hc1 Hc2]. cbn [visited_edges queue found].
      assert (Hmono : ∀ x, is_known s x → is_known {| queue := queue s ++ [entry];
        visited_edges := {[key]} ∪ visited_edges s; found := found s ++ [m] |} x).
      { intros x [->|(m' & Hm' & Hx)]; [by left|]. right. exists m'. split; [set_solver|done]. }
      assert (Hself : is_known {| queue := queue s ++ [entry];
        visited_edges := {[key]} ∪ visited_edges s; found := found s ++ [m] |} child).
      { right. exists m. split; [set_solver|done]. }
      split_and!; [split|done| |set_solver].
      * intros q' x [Hq'| ->%list_elem_of_singleton]%elem_of_app Hx; [by eapply Hmono, Hc1|].
        simpl in Hx. apply elem_of_app in Hx as [Hx| ->%list_elem_of_singleton]; [by apply Hmono, Hknown|done].
      * intros k [->%elem_of_singleton|Hk]%elem_of_union; [by exists child|].
        destruct (Hc2 k Hk) as (name & Hn & Hl). exists name. split; [by apply Hmono|done].
      * intros name [->|(m' & [Hm'| ->%list_elem_of_singleton]%elem_of_app & Hx)].
        -- left. by left.
        -- left. right. by exists m'.
        -- right. exists entry. split; [set_solver|done].
  - apply wp_mret. split_and!.
    + destruct transitive; split; cbn [visited_edges queue found]; try set_solver; try done.
      apply Forall_app_2; [done|by apply Forall_singleton].
    + unfold work. destruct transitive; cbn [visited_edges queue found]; rewrite ?length_app; simpl; lia.
    + destruct transitive; set_solver.
    + intros k Hk. rewrite Hkey in Hk. injection Hk as <-. destruct transitive; set_solver.
    + by intros ->.
    + intros ->. done.
Qed.

(** What a turn keeps, for a search without selector that goes on below every type. *)
Definition complete (s : Search) : Prop := complete_state s ∧ accounted_for s None.

Definition search_outcome (transitive : bool) (r : list TypeHierarchyMatch) : Prop :=
  N.of_nat (length r) ≤ limit_ ∧ Forall match_sound r ∧
  (selector = None → transitive = true → N.of_nat (length r) < limit_ →
     ∃ s, found s = r ∧ complete_state s ∧ ∀ name, is_known s name → expanded s name).

Lemma turn_spec transitive s :
  sound_state s → (selector = None → transitive = true → complete s) →
  wp (hierarchy_turn index transitive selector limit_ s) (λ t,
    match t with
    | Continue s' => (sound_state s' ∧ (selector = None → transitive = true → complete s')) ∧ (work s' < work s)%nat
    | Break r => search_outcome transitive r
    end).
Proof.
  intros Hsound Hcomplete. unfold hierarchy_turn. destruct (queue s) as [|q rest] eqn:Eq.
  { apply wp_mret. destruct Hsound as [_ _ Hf Hl]. split_and!; [lia|done|]. intros Hsel Htr _. exists s.
    destruct (Hcomplete Hsel Htr) as [Hc Ha]. split_and!; [done..|]. intros name Hn.
    destruct (Ha name Hn) as [(q & Hq & _)|[?|?]]; [|done|done]. rewrite Eq in Hq. by apply elem_of_nil in Hq. }
  destruct Hsound as [Hkeys Hqueue Hf Hl]. rewrite Eq in Hqueue. apply Forall_cons in Hqueue as [Hq Hrest].
  set (s0 := {| queue := rest; visited_edges := visited_edges s; found := found s |}).
  assert (Hwork0 : S (work s0) = work s) by (unfold work, s0; rewrite Eq; done).
  set (inv := λ (todo : list HierarchyEdge) (s' : Search), ∃ done_, children_of index (queued q) = done_ ++ todo ∧
    sound_state s' ∧ (work s' ≤ work s0)%nat ∧ visited_edges s0 ⊆ visited_edges s' ∧
    (∀ e k, e ∈ done_ → key_of e = Some k → k ∈ visited_edges s') ∧
    (selector = None → transitive = true →
       complete_state s' ∧ (∀ x, x ∈ queued_path q → is_known s' x) ∧ accounted_for s' (Some (queued q)))).
  eapply wp_call.
  - apply (wp_for_until inv (λ s', N.of_nat (length (found s')) = limit_ ∧ Forall match_sound (found s'))).
    + intros e todo s1 (done_ & Hch & Hs1 & Hw & Hvis & Hdone & Hcomp).
      eapply wp_mono; [apply visit_edge_spec; [done|done|rewrite Hch; set_solver]|].
      intros [s2|s2]; [|done]. intros (Hs2 & Hw2 & Hvis2 & Hkey & Hqueue2 & Hrest2).
      exists (done_ ++ [e]). split_and!; [by rewrite <- app_assoc|done|lia|set_solver|..].
      * intros e' k [He'| ->%list_elem_of_singleton]%elem_of_app Hk; [apply Hvis2; by eapply Hdone|by apply Hkey].
      * intros Hsel Htr. destruct (Hcomp Hsel Htr) as (Hc & Hp & Ha).
        destruct (Hrest2 Hsel Htr Hp Hc) as (Hc2 & Hk2 & Hnew & Hqs). split_and!; [done|auto|].
        intros name [Hn|Hn]%Hnew; [|by left].
        destruct (Ha name Hn) as [(q' & Hq' & Hn')|[Hcur|Hexp]]; [left; exists q'; auto|by right; left|].
        right; right. intros e' k He' Hk. apply Hvis2. by eapply Hexp.
    + exists []. split_and!; [done|by split|done|done|by intros e k ?%elem_of_nil|].
      intros Hsel Htr. destruct (Hcomplete Hsel Htr) as [[Hc1 Hc2] Ha]. split_and!.
      * split; [|done]. intros q' x Hq' Hx. apply (Hc1 q'); [rewrite Eq; by right|done].
      * intros x Hx. apply (Hc1 q); [rewrite Eq; by left|done].
      * intros name Hn. destruct (Ha name Hn) as [(q' & Hq' & Hn')|[?|Hexp]]; [|done|by right; right].
        rewrite Eq in Hq'. apply elem_of_cons in Hq' as [->|Hq']; [right; left; by f_equal|left; by exists q'].
  - intros [s1|s1].
    + intros (done_ & Hch & Hs1 & Hw & _ & Hdone & Hcomp). rewrite app_nil_r in Hch.
      destruct transitive.
      * apply wp_mret. split; [split; [done|]|lia]. intros Hsel _. destruct (Hcomp Hsel eq_refl) as (Hc & _ & Ha).
        split; [done|]. intros name Hn. destruct (Ha name Hn) as [?|[[= <-]|?]]; [by left| |by right; right].
        right; right. intros e k He Hk. rewrite Hch in He. by eapply Hdone.
      * apply wp_mret. destruct Hs1 as [_ _ Hf1 Hl1]. split_and!; [lia|done|done].
    + intros [Hlen Hms]. apply wp_mret. split_and!; [lia|done|lia].
Qed.

Lemma search_spec transitive :
  0 < limit_ →
  wp (loop (2 + edge_total index) (hierarchy_turn index transitive selector limit_) (search_start root))
     (search_outcome transitive).
Proof.
  intros Hpos. apply (wp_loop (λ s, sound_state s ∧ (selector = None → transitive = true → complete s)) work).
  - intros s [Hs Hc]. by apply turn_spec.
  - split.
    + split; simpl; [set_solver| |constructor|lia]. apply Forall_singleton. split_and!; [constructor|done|done].
    + intros _ _. split; [split|].
      * intros q x ->%list_elem_of_singleton ->%list_elem_of_singleton. by left.
      * intros k Hk. simpl in Hk. set_solver.
      * intros name [->|(m & Hm & _)]; [|by apply elem_of_nil in Hm].
        left. eexists. split; [by apply list_elem_of_singleton|done].
  - unfold work. cbn [search_start queue visited_edges length]. pose proof all_keys_size. lia.
Qed.

(** ** Completeness *)

(** Names are ASCII, so that both notions of lower case agree. *)
Definition ascii_name (s : str) : Prop := Forall (λ c, c < 128) s.
Definition ascii_edges : Prop := ∀ e jar fact child parent_, edge_of (jars index) e jar fact child parent_ → ascii_name child.

(** A type is a child of another, up to letter case. *)
Definition child_name (parent_name child_ : str) : Prop :=
  ∃ e jar fact child parent_, edge_of (jars index) e jar fact child parent_ ∧
    ascii_lower parent_ = parent_name ∧ ascii_lower child = child_.

Lemma to_lowercase_ascii s : ascii_name s → to_lowercase s = ascii_lower s.
Proof.
  induction 1 as [|c s Hc _ IH]; [done|]. unfold to_lowercase, ascii_lower in *. rewrite !fmap_cons.
  change (mjoin (?x :: ?l)) with (x ++ mjoin l). rewrite IH. by rewrite (proj2 (N.ltb_lt _ _) Hc).
Qed.

Lemma known_ascii s name :
  ascii_name root → ascii_edges → Forall match_sound (found s) → is_known s name → ascii_name name.
Proof.
  intros Hr He Hf [->|(m & Hm & <-)]; [done|]. rewrite Forall_forall in Hf.
  destruct (Hf m Hm) as (path & p & e & jar & fact & parent_ & _ & _ & _ & Hedge & _). by eapply He.
Qed.

Lemma descendants_known s :
  ascii_name root → ascii_edges → Forall match_sound (found s) → complete_state s →
  (∀ name, is_known s name → expanded s name) →
  ∀ lower, rtc child_name (ascii_lower root) lower → ∃ name, is_known s name ∧ ascii_lower name = lower.
Proof.
  intros Hr He Hf [_ Hkeys] Hexp. apply rtc_ind_r.
  - exists root. split; [by left|done].
  - intros la lc _ (e & jar & fact & child & parent_ & Hedge & Hp & <-) (name & Hn & Hl).
    assert (e ∈ children_of index name) as Hin.
    { unfold children_of. change (e ∈ at_key (children_by_parent index) (ascii_lower name)). apply Hedges.
      exists jar, fact, child, parent_. split; [done|congruence]. }
    assert (key_of e = Some (to_lowercase child, to_lowercase parent_, jar_coordinate jar)) as Hk.
    { unfold key_of. by rewrite (edge_fact_spec _ _ _ _ _ Hedge). }
    destruct (Hkeys _ (Hexp name Hn e _ Hin Hk)) as (name' & Hn' & Hlow). exists name'. split; [done|].
    simpl in Hlow. rewrite !to_lowercase_ascii in Hlow; [done|by eapply He|by eapply known_ascii].
Qed.
End Search.


(** ** Samples *)

Definition family_children : gmap str (list HierarchyEdge) :=
  match build_children_by_parent [sample_record] with Done m => m | _ => ∅ end.
Definition family_index : MavenIndex :=
  {| jars := [sample_record]; source_jars := ∅; class_locations := ∅; children_by_parent := family_children;
     artifacts := ∅; max_results := 10; max_source_bytes := 1000 |}.

Lemma family_typed : Forall record_typed [sample_record].
Proof. apply Forall_cons. split; [exact sample_record_typed|constructor]. Qed.

Lemma children_exact_witness :
  Forall record_typed [sample_record] ∧
  ∃ m, build_children_by_parent [sample_record] = Done m ∧
    at_key m (lit "a.c") = [{| edge_jar := 0; edge_class := 0; edge_parent := 0 |}].
Proof.
  split; [exact family_typed|]. pose proof (children_exact [sample_record] family_typed) as Hw.
  destruct (wp_Done _ _ Hw) as (m & Hm & _). exists m. split; [exact Hm|].
  vm_compute in Hm. injection Hm as <-. vm_compute. reflexivity.
Defined.

Lemma family_exact : edges_exact family_index.
Proof.
  unfold edges_exact, family_index. cbn [children_by_parent jars].
  destruct (wp_Done _ _ (build_children_spec _ family_typed)) as (m & Hm & Hs).
  unfold family_children. rewrite Hm. exact Hs.
Qed.

