(* ===== verification/LogEvents.v ===== *)
(** * LogEvents: recorded commands, their budget and their identity

    Models [src/log_analysis.rs] and [src/log_analysis/limits.rs]: the events of agent logs, the
    estimated bytes they retain, the budget these are charged to, and the operations on events
    that keep the budget exact: deduplication, filters and sorting.  The layout of the compiler is
    the class [Layout]; the sizes of values in memory add up without overflow. *)

From S2P Require Import Prelude.
From S2P Require Import Text.
From S2P Require Import Ordering.
From S2P Require Import Shell.

Open Scope N_scope.

(** ** The budget *)

(** [std::mem::size_of]. *)
Class Layout := {
  size_event : N;
  size_maven : N;
  size_metadata : N;
  size_option_string : N;
  size_dedup_key : N;
  size_usize : N;
  size_str : N;
  size_option_usize : N;
  size_group_count : N;
}.

Definition DEFAULT_MAX_INPUT_BYTES : N := 64 * 1024 * 1024.
Definition DEFAULT_MAX_RECORD_BYTES : N := 8 * 1024 * 1024.
Definition DEFAULT_MAX_STATE_BYTES : N := 1024 * 1024 * 1024.
Definition JSON_TREE_FACTOR : N := 8.
Definition ENTRY_OVERHEAD_BYTES : N := 48.

Record LogLimits := {
  max_input_bytes : N;
  max_record_bytes : N;
  max_state_bytes : N;
}.
Definition default_limits : LogLimits :=
  {| max_input_bytes := DEFAULT_MAX_INPUT_BYTES; max_record_bytes := DEFAULT_MAX_RECORD_BYTES;
     max_state_bytes := DEFAULT_MAX_STATE_BYTES |}.

Inductive LimitExceeded := InputExceeded | StateExceeded.

Record StateBudget := {
  limit : N;
  used : N;
}.
Definition new_budget (limit : N) : StateBudget := {| limit := limit; used := 0 |}.
Definition unlimited : StateBudget := new_budget usize_max.
Definition restore (used : N) (b : StateBudget) : StateBudget := {| limit := limit b; used := used |}.
Definition charge (bytes : N) (b : StateBudget) : option StateBudget :=
  match checked_add (used b) bytes with
  | Some total => if total <=? limit b then Some (restore total b) else None
  | None => None
  end.
Definition release (bytes : N) (b : StateBudget) : StateBudget := restore (saturating_sub (used b) bytes) b.

(** A computation that charges a shared budget and may fail; the budget keeps the charges of a
    computation that failed. *)
Definition budgeted (E A : Type) : Type := StateBudget → exec (StateBudget * (A + E)).
#[export] Instance budgeted_ret {E} : MRet (budgeted E) := λ A a b, Done (b, inl a).
#[export] Instance budgeted_bind {E} : MBind (budgeted E) := λ A B f m b,
  match m b with
  | Done (b, inl a) => f a b
  | Done (b, inr e) => Done (b, inr e)
  | Panic => Panic
  | Stuck => Stuck
  end.
Definition fails {E A} (e : E) : budgeted E A := λ b, Done (b, inr e).
Definition running {E A} (m : exec A) : budgeted E A := λ b, a ← m; Done (b, inl a).
Definition charging {E} (over : E) (bytes : N) : budgeted E unit := λ b,
  match charge bytes b with Some b => Done (b, inl ()) | None => Done (b, inr over) end.
Definition releasing {E} (bytes : N) : budgeted E unit := λ b, Done (release bytes b, inl ()).

(** ** Events *)

Record CommandEvent := {
  timestamp : option str;
  ide : str;
  agent : option str;
  project : option str;
  session : option str;
  tool : str;
  cwd : option str;
  command : str;
  category : CommandCategory;
  call_id : option str;
  maven : option MavenCommand;
  provenance : str;
}.
#[export] Instance CommandCategory_eq_dec : EqDecision CommandCategory.
Proof. solve_decision. Defined.

Definition category_name (c : CommandCategory) : str :=
  match c with
  | Maven => lit "maven"
  | JarInspection => lit "jar_inspection"
  | ClassInspection => lit "class_inspection"
  | PomInspection => lit "pom_inspection"
  | ResourceInspection => lit "resource_inspection"
  | Shell => lit "shell"
  end.

Record EventLog := {
  events : list CommandEvent;
  skipped_records : nat;
  oversized_records : nat;
}.
Definition empty_log : EventLog := {| events := []; skipped_records := 0; oversized_records := 0 |}.

Definition optional_len (value : option str) : N := from_option blen 0 value.

Section Sizes.
Context `{Layout}.

Definition maven_bytes (m : MavenCommand) : N :=
  size_maven + blen (executable m) + optional_len (resume_from m) + optional_len (pom_file m)
  + sum ((λ text, blen text + ENTRY_OVERHEAD_BYTES) <$>
      lifecycle_goals m ++ plugin_goals m ++ modules m ++ tests m ++ profiles m)
  + sum ((λ '(key, value), blen key + blen value + ENTRY_OVERHEAD_BYTES) <$> map_to_list (properties m)).

(** [CommandEvent::retained_bytes], and its sum over events. *)
Definition event_bytes (e : CommandEvent) : N :=
  size_event + blen (ide e) + blen (tool e) + blen (command e)
  + sum (optional_len <$> [timestamp e; agent e; project e; session e; cwd e; call_id e])
  + from_option maven_bytes 0 (maven e).
Definition retained_bytes (l : list CommandEvent) : N := sum (event_bytes <$> l).
End Sizes.

(** ** Filters and order *)

Record EventFilter := {
  since : option str;
  until : option str;
  filter_ide : option str;
  filter_agent : option str;
  filter_project : option str;
  filter_session : option str;
  filter_category : option CommandCategory;
}.

(** [Option::is_none_or] and [Option::is_some_and]. *)
Definition is_none_or {A} (p : A → bool) (o : option A) : bool := from_option p true o.
Definition is_some_and {A} (p : A → bool) (o : option A) : bool := from_option p false o.

Definition matches_filter (expected actual : option str) : bool :=
  is_none_or (λ expected, is_some_and (λ actual, eq_ignore_ascii_case actual expected) actual) expected.
Definition passes (f : EventFilter) (e : CommandEvent) : bool :=
  is_none_or (λ since, is_some_and (λ t, le_cmp since t) (timestamp e)) (since f)
  && is_none_or (λ until, is_some_and (λ t, le_cmp t until) (timestamp e)) (until f)
  && matches_filter (filter_ide f) (Some (ide e))
  && matches_filter (filter_agent f) (agent e)
  && matches_filter (filter_project f) (project e)
  && matches_filter (filter_session f) (session e)
  && is_none_or (λ c, bool_decide (category e = c)) (filter_category f).
Definition filter_events (l : list CommandEvent) (f : EventFilter) : list CommandEvent := filter (λ e, passes f e = true) l.
Definition filter_events_within `{Layout} (l : list CommandEvent) (f : EventFilter) (b : StateBudget)
    : StateBudget * list CommandEvent :=
  let kept := filter_events l f in
  (release (saturating_sub (retained_bytes l) (retained_bytes kept)) b, kept).

Definition event_key (e : CommandEvent) :=
  (timestamp e, ide e, agent e, project e, session e, tool e, cwd e, command e, call_id e).
Definition sort_events : list CommandEvent → list CommandEvent := sort_by_key event_key.

(** ** Deduplication *)

(** Progressive updates of one call, or repetitions of one command at one time. *)
Definition DedupKey : Type :=
  list N * option (list N) * option (list N) * list N * list N * (list N * list N).
Definition dedup_key_bytes `{Layout} (key : DedupKey) : N :=
  let '(ide, agent, project, session, tool, (_, text)) := key in
  size_dedup_key + ENTRY_OVERHEAD_BYTES + blen ide + optional_len agent + optional_len project + blen session
  + blen tool + blen text.

Definition identity (e : CommandEvent) : option (str * str) :=
  match call_id e with
  | Some id => Some (lit "id", id)
  | None =>
      match timestamp e with
      | Some time => Some (lit "event", time ++ [0] ++ default [] (cwd e) ++ [0] ++ command e)
      | None => None
      end
  end.
Definition dedup_key (e : CommandEvent) : option DedupKey :=
  match identity e with
  | None => None
  | Some id => Some (ide e, agent e, project e, default (provenance e) (session e), tool e, id)
  end.

Definition with_timestamp (t : option str) (e : CommandEvent) : CommandEvent :=
  {| timestamp := t; ide := ide e; agent := agent e; project := project e; session := session e; tool := tool e;
     cwd := cwd e; command := command e; category := category e; call_id := call_id e; maven := maven e;
     provenance := provenance e |}.
Definition earliest (a b : option str) : option str :=
  match a, b with
  | Some a, Some b => Some (if le_cmp a b then a else b)
  | Some a, None => Some a
  | None, b => b
  end.
Definition completeness (e : CommandEvent) : N * str := (blen (command e), command e).
Definition merge (previous event : CommandEvent) : CommandEvent :=
  with_timestamp (earliest (timestamp previous) (timestamp event))
    (if le_cmp (completeness event) (completeness previous) then previous else event).

Record Dedup := {
  calls : gmap DedupKey nat;
  result : list CommandEvent;
  charged : N;
}.
Definition no_calls : Dedup := {| calls := ∅; result := []; charged := 0 |}.

Section Deduplicate.
Context `{Layout}.

(** A charge whose failure gives the keys' charges back. *)
Definition charge_or_release (bytes charged : N) : budgeted LimitExceeded unit := λ b,
  match charge bytes b with
  | Some b => Done (b, inl ())
  | None => Done (release charged b, inr StateExceeded)
  end.
Definition dedup_event (s : Dedup) (e : CommandEvent) : budgeted LimitExceeded Dedup :=
  match dedup_key e with
  | None => mret {| calls := calls s; result := result s ++ [e]; charged := charged s |}
  | Some key =>
      match calls s !! key with
      | Some index =>
          previous ← running (or_panic (result s !! index));
          let survivor := merge previous e in
          _ ← releasing (event_bytes previous + event_bytes e);
          _ ← charge_or_release (event_bytes survivor) (charged s);
          mret {| calls := calls s; result := <[index := survivor]> (result s); charged := charged s |}
      | None =>
          let bytes := dedup_key_bytes key in
          _ ← charge_or_release bytes (charged s);
          mret {| calls := <[key := length (result s)]> (calls s); result := result s ++ [e]; charged := charged s + bytes |}
      end
  end.
Fixpoint dedup_events (l : list CommandEvent) (s : Dedup) : budgeted LimitExceeded Dedup :=
  match l with
  | [] => mret s
  | e :: l => s ← dedup_event s e; dedup_events l s
  end.
Definition deduplicate_events_within (l : list CommandEvent) : budgeted LimitExceeded (list CommandEvent) :=
  s ← dedup_events l no_calls;
  _ ← releasing (charged s);
  mret (sort_events (result s)).
End Deduplicate.

(** ** Lemmas: the budget *)

Lemma budgeted_call {E A B} (m : budgeted E A) (f : A → budgeted E B) b (P : StateBudget → A → Prop) (R : StateBudget → E → Prop) Q :
  wp (m b) (λ '(b', r), match r with inl a => P b' a | inr e => R b' e end) →
  (∀ b' a, P b' a → wp (f a b') Q) → (∀ b' e, R b' e → Q (b', inr e)) → wp ((m ≫= f) b) Q.
Proof.
  intros Hm Hf He. unfold mbind, budgeted_bind. destruct (m b) as [[b' [a|e]]| |]; simpl in *; auto.
Qed.

Lemma budgeted_ext {E A B} (m : budgeted E A) (f g : A → budgeted E B) b : (∀ a b, f a b = g a b) → (m ≫= f) b = (m ≫= g) b.
Proof. intros Hfg. unfold mbind, budgeted_bind. by destruct (m b) as [[b' [a|e]]| |]. Qed.
Lemma budgeted_assoc {E A B C} (m : budgeted E A) (f : A → budgeted E B) (g : B → budgeted E C) b :
  ((m ≫= f) ≫= g) b = (m ≫= λ a, f a ≫= g) b.
Proof. unfold mbind, budgeted_bind. by destruct (m b) as [[b' [a|e]]| |]. Qed.

(** The budget is within its limit, and the limit is a size. *)
Definition fits (b : StateBudget) : Prop := used b ≤ limit b ∧ limit b ≤ usize_max.

Lemma charge_spec bytes b :
  limit b ≤ usize_max →
  match charge bytes b with
  | Some b' => b' = restore (used b + bytes) b ∧ used b + bytes ≤ limit b
  | None => limit b < used b + bytes
  end.
Proof.
  intros Hl. unfold charge, checked_add. case_decide; [|lia].
  destruct (N.leb_spec (used b + bytes) (limit b)); [done|lia].
Qed.
Lemma release_spec bytes rest b : used b = rest + bytes → release bytes b = restore rest b.
Proof. intros Hu. unfold release, saturating_sub. rewrite Hu. f_equal. lia. Qed.
Lemma restore_restore u v b : restore u (restore v b) = restore u b.
Proof. done. Qed.
Lemma restore_used b : restore (used b) b = b.
Proof. by destruct b. Qed.

Section Bytes.
Context `{Layout}.
Lemma retained_app l k : retained_bytes (l ++ k) = retained_bytes l + retained_bytes k.
Proof. unfold retained_bytes. by rewrite fmap_app, sum_app. Qed.
Lemma retained_cons e l : retained_bytes (e :: l) = event_bytes e + retained_bytes l.
Proof. done. Qed.
Lemma retained_perm l k : l ≡ₚ k → retained_bytes l = retained_bytes k.
Proof. intros Hp. unfold retained_bytes. apply sum_perm. by rewrite Hp. Qed.
Lemma retained_insert l i e e' :
  l !! i = Some e → retained_bytes (<[i := e']> l) + event_bytes e = retained_bytes l + event_bytes e'.
Proof.
  revert i. induction l as [|x l IH]; intros [|i] Hi; try done; simpl in *.
  - injection Hi as ->. rewrite !retained_cons. lia.
  - specialize (IH i Hi). rewrite !retained_cons. lia.
Qed.
Lemma retained_filter l f : retained_bytes (filter_events l f) ≤ retained_bytes l.
Proof.
  unfold filter_events. induction l as [|e l IH]; [done|]. rewrite filter_cons.
  case_decide; rewrite ?retained_cons; lia.
Qed.

Lemma earliest_bytes a b : optional_len (earliest a b) ≤ optional_len a + optional_len b.
Proof. destruct a, b; simpl; try case_match; simpl; lia. Qed.
(** The survivor never exceeds the two merged events. *)
Lemma merge_bytes a b : event_bytes (merge a b) ≤ event_bytes a + event_bytes b.
Proof.
  pose proof (earliest_bytes (timestamp a) (timestamp b)) as He. unfold merge, event_bytes, with_timestamp.
  destruct (le_cmp _ _); cbn [timestamp ide agent project session tool cwd command call_id maven fmap list_fmap] in *;
    rewrite !sum_cons; lia.
Qed.
End Bytes.

(** ** What deduplication gives *)

(** The events of one identity. *)
Definition of_call (key : option DedupKey) (l : list CommandEvent) : list CommandEvent := filter (λ e, dedup_key e = key) l.
(** The one event that stands for the events of a call: the first whose command is the most
    complete, with the earliest time of all. *)
Record stands_for (c : list CommandEvent) (s : CommandEvent) : Prop := {
  stands_first : ∃ before w after, c = before ++ w :: after ∧ s = with_timestamp (timestamp s) w ∧
    Forall (λ e, le_cmp (completeness w) (completeness e) = false) before ∧
    Forall (λ e, le_cmp (completeness e) (completeness w) = true) after;
  stands_time : match timestamp s with
    | None => Forall (λ e, timestamp e = None) c
    | Some t => (∃ e, e ∈ c ∧ timestamp e = Some t) ∧ Forall (λ e, is_none_or (le_cmp t) (timestamp e) = true) c
    end;
}.

Lemma of_call_snoc key l e : of_call key (l ++ [e]) = of_call key l ++ (if decide (dedup_key e = key) then [e] else []).
Proof. unfold of_call. by rewrite filter_app, filter_cons, filter_nil. Qed.

Lemma with_timestamp_same e : with_timestamp (timestamp e) e = e.
Proof. by destruct e. Qed.
Lemma with_timestamp_twice t u e : with_timestamp t (with_timestamp u e) = with_timestamp t e.
Proof. done. Qed.
Lemma completeness_time t e : completeness (with_timestamp t e) = completeness e.
Proof. done. Qed.

Lemma stands_one e : stands_for [e] e.
Proof.
  split.
  - exists [], e, []. by rewrite with_timestamp_same.
  - destruct (timestamp e) as [t|] eqn:Ht; [|by repeat constructor]. split; [exists e; split; [by left|done]|].
    repeat constructor. rewrite Ht. simpl. apply le_cmp_refl.
Qed.

Lemma earliest_stands c s e :
  match timestamp s with
  | None => Forall (λ e, timestamp e = None) c
  | Some t => (∃ e, e ∈ c ∧ timestamp e = Some t) ∧ Forall (λ e, is_none_or (le_cmp t) (timestamp e) = true) c
  end →
  match earliest (timestamp s) (timestamp e) with
  | None => Forall (λ e, timestamp e = None) (c ++ [e])
  | Some t => (∃ e', e' ∈ c ++ [e] ∧ timestamp e' = Some t) ∧ Forall (λ e, is_none_or (le_cmp t) (timestamp e) = true) (c ++ [e])
  end.
Proof.
  intros Hc. destruct (timestamp s) as [t|], (timestamp e) as [u|] eqn:Hu; cbn [earliest].
  - destruct Hc as [(e' & He' & Ht) Hall]. destruct (le_cmp t u) eqn:Htu.
    + split; [exists e'; split; [set_solver|done]|]. apply Forall_app. split; [done|]. repeat constructor. by rewrite Hu.
    + apply le_cmp_total in Htu. split; [exists e; split; [set_solver|done]|]. apply Forall_app. split.
      * eapply Forall_impl; [exact Hall|]. intros x. cbv beta. destruct (timestamp x); [|done]. simpl. intros Hx. exact (le_cmp_trans _ _ _ Htu Hx).
      * repeat constructor. rewrite Hu. apply le_cmp_refl.
  - destruct Hc as [(e' & He' & Ht) Hall]. split; [exists e'; split; [set_solver|done]|]. apply Forall_app. split; [done|].
    repeat constructor. by rewrite Hu.
  - split; [exists e; split; [set_solver|done]|]. apply Forall_app. split.
    + eapply Forall_impl; [exact Hc|]. intros x Hx. by rewrite Hx.
    + repeat constructor. rewrite Hu. apply le_cmp_refl.
  - apply Forall_app. split; [done|]. by repeat constructor.
Qed.

Lemma stands_merge c s e : stands_for c s → stands_for (c ++ [e]) (merge s e).
Proof.
  intros [(before & w & after & -> & Hw & Hbefore & Hafter) Htime].
  assert (completeness s = completeness w) as Hcomplete by (rewrite Hw; done).
  split; [|unfold merge; cbn [timestamp with_timestamp]; by apply earliest_stands].
  unfold merge. destruct (le_cmp (completeness e) (completeness s)) eqn:Hle.
  - exists before, w, (after ++ [e]). split; [by rewrite <- app_assoc|]. split.
    { cbn [timestamp with_timestamp]. rewrite Hw at 2. done. }
    split; [done|]. apply Forall_app. split; [done|]. repeat constructor. by rewrite <- Hcomplete.
  - exists (before ++ w :: after), e, []. split; [done|]. split; [done|]. split; [|done].
    rewrite Hcomplete in Hle.
    assert (∀ x, le_cmp (completeness x) (completeness w) = true → le_cmp (completeness e) (completeness x) = false) as Hlt.
    { intros x Hx. destruct (le_cmp (completeness e) (completeness x)) eqn:Hex; [|done].
      pose proof (le_cmp_trans _ _ _ Hex Hx). congruence. }
    apply Forall_app. split.
    + eapply Forall_impl; [exact Hbefore|]. intros x Hx. apply Hlt. by apply le_cmp_total in Hx.
    + constructor; [by apply Hlt, le_cmp_refl|]. eapply Forall_impl; [exact Hafter|]. intros x Hx. by apply Hlt.
Qed.

(** ** Lemmas: the loop *)

Section Loop.
Context `{Layout}.

Definition untimed (x : option DedupKey * CommandEvent) : option CommandEvent := match x.1 with None => Some x.2 | Some _ => None end.
Definition keyed (x : option DedupKey * CommandEvent) : option (DedupKey * CommandEvent) := (λ k, (k, x.2)) <$> x.1.
Definition key_bytes (entries : list (option DedupKey * CommandEvent)) : N := sum (dedup_key_bytes <$> omap fst entries).

(** The events kept so far, each with the identity it is kept for. *)
Record tracks (processed : list CommandEvent) (s : Dedup) (entries : list (option DedupKey * CommandEvent)) : Prop := {
  tracks_result : result s = entries.*2;
  tracks_calls : ∀ k i, calls s !! k = Some i ↔ ∃ e, entries !! i = Some (Some k, e);
  tracks_stands : ∀ k e, (Some k, e) ∈ entries → stands_for (of_call (Some k) processed) e;
  tracks_untimed : omap untimed entries = of_call None processed;
  tracks_known : ∀ e k, e ∈ processed → dedup_key e = Some k → is_Some (calls s !! k);
  tracks_from : ∀ k, is_Some (calls s !! k) → ∃ e, e ∈ processed ∧ dedup_key e = Some k;
  tracks_charged : charged s = key_bytes entries;
  tracks_bytes : retained_bytes (result s) ≤ retained_bytes processed;
}.

Lemma tracks_start : tracks [] no_calls [].
Proof.
  split; try done.
  - intros k i. split; [done|]. intros [e He]. done.
  - intros k e He. by apply elem_of_nil in He.
  - intros e k He. by apply elem_of_nil in He.
  - intros k [i Hi]. done.
Qed.

(** An event of no call, or the first of its call. *)
Lemma tracks_push processed s entries e :
  tracks processed s entries →
  (∀ k, dedup_key e = Some k → calls s !! k = None) →
  tracks (processed ++ [e])
    {| calls := match dedup_key e with Some k => <[k := length (result s)]> (calls s) | None => calls s end;
       result := result s ++ [e]; charged := charged s + from_option dedup_key_bytes 0 (dedup_key e) |}
    (entries ++ [(dedup_key e, e)]).
Proof.
  intros [Hresult Hcalls Hstands Huntimed Hknown Hfrom Hcharged Hbytes] Hnew.
  assert (length (result s) = length entries) as Hlen by (rewrite Hresult; apply length_fmap).
  assert (∀ k, dedup_key e = Some k → of_call (Some k) processed = []) as Hnone.
  { intros k Hk. destruct (of_call (Some k) processed) as [|x l] eqn:Hx; [done|exfalso].
    assert (x ∈ of_call (Some k) processed) as [Hxk Hin]%list_elem_of_filter by (rewrite Hx; by left).
    destruct (Hknown x k Hin Hxk) as [i Hi]. by rewrite (Hnew k Hk) in Hi. }
  split; cbn [calls result charged].
  - by rewrite Hresult, fmap_app.
  - intros k i. setoid_rewrite lookup_snoc_Some. destruct (dedup_key e) as [key|] eqn:Hkey.
    + destruct (decide (k = key)) as [->|Hne].
      * rewrite lookup_insert_eq, Hlen. split.
        -- intros [= <-]. exists e. by right.
        -- intros (x & [[_ Hx]|[-> _]]); [|done]. assert (calls s !! key = Some i) as Hi by (apply Hcalls; eauto). by rewrite (Hnew key) in Hi.
      * rewrite lookup_insert_ne by done. rewrite Hcalls. split.
        -- intros [x Hx]. exists x. left. split; [by eapply lookup_lt_Some|done].
        -- intros (x & [[_ Hx]|[_ Hx]]); [by exists x|congruence].
    + rewrite Hcalls. split.
      * intros [x Hx]. exists x. left. split; [by eapply lookup_lt_Some|done].
      * intros (x & [[_ Hx]|[_ Hx]]); [by exists x|congruence].
  - intros k x [Hx|Hx]%elem_of_app; rewrite of_call_snoc.
    + case_decide as Hk; [|rewrite app_nil_r; by apply Hstands].
      apply list_elem_of_lookup in Hx as [i Hi]. assert (calls s !! k = Some i) as Hc by (apply Hcalls; eauto). by rewrite (Hnew k) in Hc.
    + apply list_elem_of_singleton in Hx as [= Hk ->]. rewrite decide_True by done. rewrite Hnone by done. apply stands_one.
  - rewrite omap_app, Huntimed, of_call_snoc. unfold untimed. simpl. destruct (dedup_key e); by case_decide.
  - intros x k [Hx|Hx]%elem_of_app Hk.
    + destruct (Hknown x k Hx Hk) as [i Hi]. destruct (dedup_key e) as [key|]; [|by exists i].
      destruct (decide (k = key)) as [->|]; [rewrite lookup_insert_eq|rewrite lookup_insert_ne by done]; by eexists.
    + apply list_elem_of_singleton in Hx as ->. rewrite Hk, lookup_insert_eq. by eexists.
  - intros k Hk. destruct (dedup_key e) as [key|] eqn:Hkey; [destruct (decide (k = key)) as [->|Hne]|].
    + exists e. set_solver.
    + rewrite lookup_insert_ne in Hk by done. destruct (Hfrom k Hk) as (x & Hx & ?). exists x. set_solver.
    + destruct (Hfrom k Hk) as (x & Hx & ?). exists x. set_solver.
  - unfold key_bytes in *. rewrite omap_app, fmap_app, sum_app, Hcharged. destruct (dedup_key e); simpl; lia.
  - rewrite !retained_app. lia.
Qed.

(** Another event of a call. *)
Lemma tracks_merge processed s entries e k i previous :
  tracks processed s entries → dedup_key e = Some k → calls s !! k = Some i → result s !! i = Some previous →
  tracks (processed ++ [e])
    {| calls := calls s; result := <[i := merge previous e]> (result s); charged := charged s |}
    (<[i := (Some k, merge previous e)]> entries).
Proof.
  intros [Hresult Hcalls Hstands Huntimed Hknown Hfrom Hcharged Hbytes] Hk Hi Hprevious.
  assert (entries !! i = Some (Some k, previous)) as Hentry.
  { apply Hcalls in Hi as [x Hx]. rewrite Hresult, list_lookup_fmap, Hx in Hprevious. by injection Hprevious as ->. }
  pose proof (lookup_lt_Some _ _ _ Hentry) as Hlt.
  assert (∃ l r, entries = l ++ (Some k, previous) :: r ∧ i = length l) as (l & r & Hsplit & Hli) by (by apply list_elem_of_split_length).
  assert (<[i := (Some k, merge previous e)]> entries = l ++ (Some k, merge previous e) :: r) as Hinsert.
  { rewrite Hsplit, Hli, insert_app_r_alt, Nat.sub_diag by lia. done. }
  split; cbn [calls result charged].
  - by rewrite Hresult, list_fmap_insert.
  - intros k' j. rewrite Hcalls. destruct (decide (j = i)) as [->|Hne].
    + rewrite Hentry, list_lookup_insert_eq by done. split; intros [x [= -> _]]; by eexists.
    + by rewrite list_lookup_insert_ne.
  - intros k' x Hx. rewrite of_call_snoc. rewrite Hinsert in Hx.
    assert ((Some k', x) = (Some k, merge previous e) ∨ (k' ≠ k ∧ (Some k', x) ∈ entries)) as [[= -> ->]|[Hne Hx']].
    { apply list_elem_of_lookup in Hx as [j Hj]. rewrite <- Hinsert in Hj. destruct (decide (j = i)) as [->|Hne].
      - rewrite list_lookup_insert_eq in Hj by done. left. congruence.
      - rewrite list_lookup_insert_ne in Hj by done. right. split; [|by eapply list_elem_of_lookup_2].
        intros ->. assert (calls s !! k = Some j) by (apply Hcalls; eauto). congruence. }
    + rewrite decide_True by done. apply stands_merge. apply Hstands. by eapply list_elem_of_lookup_2.
    + rewrite decide_False by congruence. rewrite app_nil_r. by apply Hstands.
  - rewrite of_call_snoc, decide_False, app_nil_r, <- Huntimed by congruence. by rewrite Hinsert, Hsplit, !omap_app.
  - intros x k' [Hx|Hx]%elem_of_app Hk'; [by eapply Hknown|]. apply list_elem_of_singleton in Hx as ->.
    assert (k' = k) as -> by congruence. by exists i.
  - intros k' Hk'. destruct (Hfrom k' Hk') as (x & Hx & ?). exists x. set_solver.
  - rewrite Hcharged, Hinsert, Hsplit. unfold key_bytes. by rewrite !omap_app.
  - pose proof (retained_insert _ _ _ (merge previous e) Hprevious). pose proof (merge_bytes previous e).
    rewrite retained_app, retained_cons. change (retained_bytes []) with 0. lia.
Qed.
End Loop.

Section Exact.
Context `{Layout}.

(** The distinct identities of events, and what their keys are charged. *)
Definition calls_of (l : list CommandEvent) : list DedupKey := remove_dups (omap dedup_key l).
Definition calls_bytes (l : list CommandEvent) : N := sum (dedup_key_bytes <$> calls_of l).

Lemma sum_le_subset (l k : list DedupKey) : NoDup l → (∀ x, x ∈ l → x ∈ k) →
  sum (dedup_key_bytes <$> l) ≤ sum (dedup_key_bytes <$> k).
Proof.
  intros Hl Hin. assert (l ⊆+ k) as Hsub by (by apply NoDup_submseteq).
  apply submseteq_Permutation in Hsub as [r Hr].
  rewrite (sum_perm (dedup_key_bytes <$> k) (dedup_key_bytes <$> (l ++ r))) by (by apply fmap_Permutation). rewrite fmap_app, sum_app. lia.
Qed.

Lemma tracks_NoDup processed s entries : tracks processed s entries → NoDup (omap fst entries).
Proof.
  intros [_ Hcalls _ _ _ _ _ _].
  assert (∀ k i j x y, entries !! i = Some (Some k, x) → entries !! j = Some (Some k, y) → i = j) as Hunique.
  { intros k i j x y Hi Hj. assert (calls s !! k = Some i) by (apply Hcalls; eauto). assert (calls s !! k = Some j) by (apply Hcalls; eauto). congruence. }
  clear Hcalls. induction entries as [|[[k|] x] entries IH]; [constructor|..].
  - cbn. constructor.
    + intros ([k' y] & Hin & [= ->])%list_elem_of_omap. apply list_elem_of_lookup in Hin as [j Hj].
      by specialize (Hunique k 0%nat (S j) x y eq_refl Hj).
    + apply IH. intros k' i j a b Hi Hj. by assert (S i = S j) as [= ->] by by eapply (Hunique k' (S i) (S j)).
  - cbn. apply IH. intros k' i j a b Hi Hj. by assert (S i = S j) as [= ->] by by eapply (Hunique k' (S i) (S j)).
Qed.
Lemma tracks_keys processed s entries k :
  tracks processed s entries → (k ∈ omap fst entries ↔ ∃ e, e ∈ processed ∧ dedup_key e = Some k).
Proof.
  intros Ht. pose proof (tracks_calls _ _ _ Ht) as Hcalls. rewrite list_elem_of_omap. split.
  - intros ([k' x] & Hin & [= ->]). apply list_elem_of_lookup in Hin as [i Hi]. apply (tracks_from _ _ _ Ht).
    exists i. apply Hcalls. by eexists.
  - intros (e & He & Hk). destruct (tracks_known _ _ _ Ht e k He Hk) as [i [x Hx]%Hcalls].
    exists (Some k, x). split; [by eapply list_elem_of_lookup_2|done].
Qed.

(** What a step needs and leaves: the budget holds the events, the ones still to come, and the keys. *)
Definition holds (base rest : N) (s : Dedup) (b : StateBudget) : Prop :=
  used b = base + retained_bytes (result s) + rest + charged s ∧ used b ≤ limit b ∧ limit b ≤ usize_max.

Lemma charge_or_release_spec bytes n b :
  limit b ≤ usize_max →
  wp (charge_or_release bytes n b) (λ '(b', r), match r with
    | inl () => b' = restore (used b + bytes) b ∧ used b + bytes ≤ limit b
    | inr e => e = StateExceeded ∧ b' = release n b ∧ limit b < used b + bytes
    end).
Proof.
  intros Hl. unfold charge_or_release. pose proof (charge_spec bytes b Hl) as Hc. by destruct (charge bytes b).
Qed.

Lemma dedup_event_spec base rest processed s entries e b :
  tracks processed s entries → holds base (event_bytes e + rest) s b →
  wp (dedup_event s e b) (λ '(b', r), limit b' = limit b ∧ match r with
    | inl s' => ∃ entries', tracks (processed ++ [e]) s' entries' ∧ holds base rest s' b'
    | inr x => x = StateExceeded ∧ used b' = base + retained_bytes (result s) + (event_bytes e + rest) ∧
        ∃ key, dedup_key e = Some key ∧ calls s !! key = None ∧ limit b < used b' + charged s + dedup_key_bytes key
    end).
Proof.
  intros Ht (Hused & Hfit & Hlimit). unfold dedup_event.
  pose proof (tracks_push _ _ _ e Ht) as Hpush. destruct (dedup_key e) as [key|] eqn:Hkey.
  2: { split; [done|]. eexists. split; [|split; [|done]].
    - specialize (Hpush ltac:(done)). cbn [from_option] in Hpush. by rewrite N.add_0_r in Hpush.
    - cbn [result charged]. rewrite retained_app, retained_cons. change (retained_bytes []) with 0. lia. }
  destruct (calls s !! key) as [i|] eqn:Hcall.
  - pose proof Hcall as Hi. apply (tracks_calls _ _ _ Ht) in Hi as [previous Hentry].
    assert (result s !! i = Some previous) as Hprevious by (by rewrite (tracks_result _ _ _ Ht), list_lookup_fmap, Hentry).
    pose proof (retained_insert _ _ _ (merge previous e) Hprevious) as Hinsert. pose proof (merge_bytes previous e) as Hmerge.
    assert (event_bytes previous ≤ retained_bytes (result s)) as Hin.
    { apply list_elem_of_split_length in Hprevious as (l & r & -> & _). rewrite retained_app, retained_cons. lia. }
    unfold mbind, budgeted_bind, running, or_panic. rewrite Hprevious. cbn [mbind exec_bind releasing].
    rewrite (release_spec _ (base + (retained_bytes (result s) - event_bytes previous) + rest + charged s)) by lia.
    pose proof (charge_or_release_spec (event_bytes (merge previous e)) (charged s)
      (restore (base + (retained_bytes (result s) - event_bytes previous) + rest + charged s) b) Hlimit) as Hc.
    apply wp_Done in Hc as ((b' & r) & -> & Hr). cbn [used limit restore] in Hr. destruct r as [[]|x]; [|lia].
    destruct Hr as [-> Hle]. split; [done|]. eexists. split; [by eapply tracks_merge|]. cbn [result charged used limit restore].
    unfold holds. cbn [result charged used limit restore]. split; [lia|]. split; [lia|done].
  - specialize (Hpush ltac:(by intros k [= <-])). cbn [from_option] in Hpush.
    unfold mbind, budgeted_bind. pose proof (charge_or_release_spec (dedup_key_bytes key) (charged s) b Hlimit) as Hc.
    apply wp_Done in Hc as ((b' & r) & -> & Hr). destruct r as [[]|x].
    + destruct Hr as [-> Hle]. split; [done|]. eexists. split; [exact Hpush|]. unfold holds. cbn [result charged used limit restore].
      rewrite retained_app, retained_cons. change (retained_bytes []) with 0. split; [lia|]. split; [lia|done].
    + destruct Hr as (-> & -> & Hlt). split; [done|]. split; [done|].
      rewrite (release_spec _ (base + retained_bytes (result s) + (event_bytes e + rest))) by done. cbn.
      split; [done|]. exists key. split_and!; [done|done|lia].
Qed.

Lemma dedup_events_spec base l : ∀ processed s entries b,
  tracks processed s entries → holds base (retained_bytes l) s b →
  wp (dedup_events l s b) (λ '(b', r), limit b' = limit b ∧ match r with
    | inl s' => ∃ entries', tracks (processed ++ l) s' entries' ∧ holds base 0 s' b'
    | inr x => x = StateExceeded ∧ base ≤ used b' ∧ used b' ≤ base + retained_bytes (processed ++ l) ∧
        limit b < used b' + calls_bytes (processed ++ l)
    end).
Proof.
  induction l as [|e l IH]; intros processed s entries b Ht Hb; cbn [dedup_events].
  { split; [done|]. exists entries. by rewrite app_nil_r. }
  rewrite retained_cons in Hb.
  eapply (budgeted_call _ _ b (λ b' s', limit b' = limit b ∧ ∃ entries', tracks (processed ++ [e]) s' entries' ∧ holds base (retained_bytes l) s' b')
    (λ b' x, limit b' = limit b ∧ x = StateExceeded ∧ base ≤ used b' ∧ used b' ≤ base + retained_bytes (processed ++ e :: l) ∧
        limit b < used b' + calls_bytes (processed ++ e :: l))); [| |by intros b' x].
  - eapply wp_mono; [by eapply (dedup_event_spec base (retained_bytes l))|]. intros [b' [s'|x]]; [done|].
    intros (Hl & -> & Hu & key & Hkey & Hnone & Hlt). split; [done|]. split; [done|]. pose proof (tracks_bytes _ _ _ Ht) as Hbytes.
    rewrite retained_app, retained_cons. split; [lia|]. split; [lia|].
    assert (charged s + dedup_key_bytes key ≤ calls_bytes (processed ++ e :: l)); [|lia].
    rewrite (tracks_charged _ _ _ Ht), N.add_comm. apply (sum_le_subset (key :: omap fst entries)).
    + constructor; [|by eapply tracks_NoDup]. intros (x & Hx & Hxk)%(tracks_keys _ _ _ _ Ht).
      destruct (tracks_known _ _ _ Ht x key Hx Hxk). congruence.
    + intros k [->|Hk]%elem_of_cons; apply elem_of_remove_dups, list_elem_of_omap; [exists e; set_solver|].
      apply (tracks_keys _ _ _ _ Ht) in Hk as (x & Hx & ?). exists x. set_solver.
  - intros b' s' (Hl & entries' & Ht' & Hb'). eapply wp_mono; [by eapply IH|].
    intros [b'' r]. rewrite <- app_assoc. cbn [app]. rewrite Hl. intros [Hl' Hr]. split; [congruence|exact Hr].
Qed.
End Exact.

(** What deduplication gives: in order, the events without an identity and one event for each. *)
Definition deduplicated (l survivors : list CommandEvent) : Prop :=
  StronglySorted (λ d e, le_cmp (event_key d) (event_key e) = true) survivors ∧
  ∃ kept : list (DedupKey * CommandEvent),
    NoDup kept.*1 ∧ (∀ k, k ∈ kept.*1 ↔ ∃ e, e ∈ l ∧ dedup_key e = Some k) ∧
    Forall (λ '(k, s), stands_for (of_call (Some k) l) s) kept ∧
    survivors ≡ₚ of_call None l ++ kept.*2.

Lemma deduplicate_spec `{Layout} base l b :
  used b = base + retained_bytes l → used b ≤ limit b → limit b ≤ usize_max →
  wp (deduplicate_events_within l b) (λ '(b', r), limit b' = limit b ∧ used b' ≤ limit b' ∧ match r with
    | inl survivors => used b' = base + retained_bytes survivors ∧ deduplicated l survivors
    | inr x => x = StateExceeded ∧ base ≤ used b' ≤ used b ∧ limit b < used b' + calls_bytes l
    end).
Proof.
  intros Hused Hfit Hlimit. unfold deduplicate_events_within.
  eapply budgeted_call with (P := λ b' s, limit b' = limit b ∧ ∃ entries, tracks l s entries ∧ holds base 0 s b')
    (R := λ b' x, limit b' = limit b ∧ x = StateExceeded ∧ base ≤ used b' ≤ used b ∧ limit b < used b' + calls_bytes l).
  - eapply wp_mono; [eapply (dedup_events_spec base l []); [apply tracks_start|]|].
    + unfold holds. cbn [no_calls result charged]. change (retained_bytes []) with 0. split; [lia|done].
    + intros [b' [s|x]]; [done|]. cbn [app]. rewrite <- Hused. naive_solver.
  - intros b' s (Hl & entries & Ht & Hu & Hle & _). cbv [mbind budgeted_bind releasing mret budgeted_ret]. cbn [wp].
    rewrite (release_spec _ (base + retained_bytes (result s))) by lia. cbn [used limit restore]. split; [done|]. split; [lia|].
    assert (sort_events (result s) ≡ₚ result s) as Hperm by apply sort_with_perm.
    rewrite (retained_perm _ _ Hperm). split; [done|]. split; [apply sort_by_key_sorted|].
    exists (omap keyed entries).
    assert ((omap keyed entries).*1 = omap fst entries) as Hfst.
    { clear. induction entries as [|[[k|] x] entries IH]; cbn; [done|by rewrite <- IH|done]. }
    rewrite Hfst. split; [by eapply tracks_NoDup|]. split; [intros k; by apply (tracks_keys _ _ _ _ Ht)|]. split.
    + apply Forall_forall. intros [k x] ([k' y] & Hin & Hk)%list_elem_of_omap. destruct k' as [k'|]; [|done].
      injection Hk as -> ->. by apply (tracks_stands _ _ _ Ht).
    + rewrite Hperm, <- (tracks_untimed _ _ _ Ht), (tracks_result _ _ _ Ht). clear.
      induction entries as [|[[k|] x] entries IH]; cbn; [done|rewrite IH|by rewrite IH].
      by rewrite Permutation_middle.
  - intros b' x (Hl & -> & Hb' & Hlt). split; [done|]. split; [lia|done].
Qed.

(** C15: Deduplication keeps exactly one event for every call, and the budget exact: with the
    budget holding the events and anything else, either it holds the survivors and that
    afterwards, and the survivors are, in order, the events without an identity, all of them, and
    one event for each identity that occurs, with the most complete command given for the call
    and the earliest time given for it; or the limit is exceeded, which happens only when the keys
    do not fit beside the events, and then none of the keys' charges are left. *)
Theorem deduplicate_exact `{Layout} base l b :
  used b = base + retained_bytes l → used b ≤ limit b → limit b ≤ usize_max →
  wp (deduplicate_events_within l b) (λ '(b', r), limit b' = limit b ∧ used b' ≤ limit b' ∧ match r with
    | inl survivors => used b' = base + retained_bytes survivors ∧ deduplicated l survivors
    | inr x => x = StateExceeded ∧ base ≤ used b' ≤ used b ∧ limit b < used b' + calls_bytes l
    end).
Proof. apply deduplicate_spec. Qed.

(** A filter gives back what the dropped events were charged. *)
Lemma filter_exact `{Layout} base l f b :
  used b = base + retained_bytes l →
  filter_events_within l f b = (restore (base + retained_bytes (filter_events l f)) b, filter_events l f).
Proof.
  intros Hused. unfold filter_events_within. pose proof (retained_filter l f).
  rewrite (release_spec _ (base + retained_bytes (filter_events l f))); [done|]. unfold saturating_sub. lia.
Qed.

(** Two updates of one call, and a command of no call and no time that was given twice. *)
#[local] Instance sample_layout : Layout :=
  {| size_event := 300; size_maven := 250; size_metadata := 120; size_option_string := 24; size_dedup_key := 130;
     size_usize := 8; size_str := 16; size_option_usize := 16; size_group_count := 32 |}.
Definition sample_event (time id : option str) (cmd : string) : CommandEvent :=
  {| timestamp := time; ide := lit "codex"; agent := None; project := None; session := None; tool := lit "shell"; cwd := None;
     command := lit cmd; category := Shell; call_id := id; maven := None; provenance := lit "log" |}.
Definition sample_events : list CommandEvent :=
  [sample_event (Some (lit "2024-02")) (Some (lit "1")) "ls"; sample_event None None "pwd";
   sample_event (Some (lit "2024-01")) (Some (lit "1")) "l"; sample_event None None "pwd"].
Definition sample_budget : StateBudget := {| limit := 5000; used := 7 + retained_bytes sample_events |}.

Lemma deduplicate_exact_witness :
  wp (deduplicate_events_within sample_events sample_budget) (λ '(b, r),
    r = inl [sample_event None None "pwd"; sample_event None None "pwd";
             sample_event (Some (lit "2024-01")) (Some (lit "1")) "ls"] ∧
    used b = 7 + retained_bytes [sample_event None None "pwd"; sample_event None None "pwd";
             sample_event (Some (lit "2024-01")) (Some (lit "1")) "ls"]).
Proof.
  assert (Hexact := deduplicate_exact 7 sample_events sample_budget eq_refl).
  destruct (wp_Done _ _ (Hexact ltac:(vm_compute; discriminate) ltac:(vm_compute; discriminate))) as ([b r] & Hrun & Hl & _ & Hr).
  rewrite Hrun. cbn [wp].
  assert ((snd <$> deduplicate_events_within sample_events sample_budget) =
    Done (inl [sample_event None None "pwd"; sample_event None None "pwd";
             sample_event (Some (lit "2024-01")) (Some (lit "1")) "ls"])) as Hvalue by (vm_compute; reflexivity).
  rewrite Hrun in Hvalue. injection Hvalue as ->. by destruct Hr as [-> _].
Defined.
