(* ===== verification/LogSources.v ===== *)
(** * LogSources: recorded commands in the logs of agents

    Models [src/log_analysis/sources.rs]: the shell invocations found in JSON documents, JSON
    lines, IntelliJ logs and SQLite databases of agents, with the metadata they inherit, the
    limits on what is read and the budget they are charged to; and the choice of the files.
    [serde_json], the regular expression of the IntelliJ header and the SQL engine are the class
    [LogLibraries]; the files are the class [LogFiles]. *)

From S2P Require Import Prelude.
From S2P Require Import Text.
From S2P Require Import Paths.
From S2P Require Import TextSearch.
From S2P Require Import Ordering.
From S2P Require Import Utf8.
From S2P Require Import Shell.
From S2P Require Import Timestamp.
From S2P Require Import LogEvents.

Open Scope N_scope.

(** ** Values *)

(** [serde_json::Value]; a number is the text it is printed as. *)
Inductive Value :=
| VNull
| VBool (b : bool)
| VNumber (text : str)
| VString (s : str)
| VArray (l : list Value)
| VObject (o : list (str * Value)).
Abbreviation Object := (list (str * Value)) (only parsing).

Inductive LogSource := Auto | VsCode | VsCodeInsiders | Codex | Kilo | IntelliJ.
#[export] Instance LogSource_eq_dec : EqDecision LogSource.
Proof. solve_decision. Defined.

(** Why a log is not read: a limit, or what a library or the file system says. *)
Inductive ReadError := Exceeded (e : LimitExceeded) | Unreadable.

(** A cell of a row; texts are bytes. *)
Inductive Cell := TextCell (bytes : list N) | IntegerCell (n : Z) | OtherCell.
(** A row of a query: its first column, and the others as far as they can be got. *)
Record Row := {
  row_size : option Z;
  row_cells : list Cell;
}.
Class LogLibraries := {
  from_str : str → option Value;
  (** Groups 1 and 2 of the header of a line. *)
  header : str → option (option str * option str);
}.
(** A database: the names of its tables in order, the columns of a quoted table, and the rows of
    a query with its parameter up to the first that cannot be read. *)
Record Database := {
  table_names : option (list str);
  table_columns : str → option (list str);
  query_rows : str → Z → option (list (option Row));
}.
(** The files: the length of one and the value it holds; its bytes, and whether they end because
    reading failed; the database it is. *)
Class LogFiles := {
  document : path → option (N * option Value);
  bytes_of : path → option (list N * bool);
  database : path → option Database;
  to_string_lossy : path → str;
}.

Section Objects.
Fixpoint get (key : str) (o : Object) : option Value :=
  match o with
  | [] => None
  | (k, v) :: o => if bool_decide (k = key) then Some v else get key o
  end.
(** [Map::insert]. *)
Definition insert_entry (key : str) (v : Value) (o : Object) : Object :=
  if is_some (get key o) then (λ '(k, w), (k, if bool_decide (k = key) then v else w)) <$> o else o ++ [(key, v)].

Definition as_str (v : Value) : option str := match v with VString s => Some s | _ => None end.
Definition as_object (v : Value) : option Object := match v with VObject o => Some o | _ => None end.
(** [Value::get] of a key, and [Value::pointer] of two. *)
Definition get_value (key : str) (v : Value) : option Value := o ← as_object v; get key o.

(** [Iterator::find_map]. *)
Fixpoint find_map {A B} (f : A → option B) (l : list A) : option B :=
  match l with
  | [] => None
  | a :: l => match f a with Some b => Some b | None => find_map f l end
  end.

Definition PATH_FIELDS : list str := lit <$> ["fsPath"; "path"; "id"; "name"]%string.
Fixpoint field_text (v : Value) : option str :=
  match v with
  | VString s => Some s
  | VNumber n => Some n
  | VObject o =>
      find_map (λ name,
        (fix look (o : Object) : option str :=
          match o with
          | [] => None
          | (k, v) :: o => if bool_decide (k = name) then field_text v else look o
          end) o) PATH_FIELDS
  | _ => None
  end.
Definition field (o : Object) (names : list string) : option str :=
  find_map (λ name, get (lit name) o ≫= field_text) names.
End Objects.

(** ** Metadata *)

Record Metadata := {
  meta_timestamp : option str;
  meta_agent : option str;
  meta_project : option str;
  meta_session : option str;
  meta_cwd : option str;
}.
Definition no_metadata : Metadata :=
  {| meta_timestamp := None; meta_agent := None; meta_project := None; meta_session := None; meta_cwd := None |}.
Definition metadata_bytes `{Layout} (m : Metadata) : N :=
  size_metadata + sum (optional_len <$> [meta_timestamp m; meta_agent m; meta_project m; meta_session m; meta_cwd m]).

Definition or_else {A} (a b : option A) : option A := match a with Some _ => a | None => b end.
Definition merge_metadata (m : Metadata) (o : Object) : Metadata :=
  {| meta_timestamp := or_else (field o ["timestamp"; "created_at"; "createdAt"; "time_created"; "ts"; "time"]%string ≫= normalize_timestamp)
       (meta_timestamp m);
     meta_agent := or_else (field o ["agent"]%string) (meta_agent m);
     meta_project := or_else (field o ["project"; "workspace"; "workspaceFolder"; "directory"]%string) (meta_project m);
     meta_session := or_else (field o ["session"; "session_id"; "sessionId"; "sessionID"]%string) (meta_session m);
     meta_cwd := or_else (field o ["cwd"; "workdir"; "working_directory"; "workingDirectory"; "directory"]%string) (meta_cwd m) |}.
Definition set_timestamp (t : option str) (m : Metadata) : Metadata :=
  {| meta_timestamp := t; meta_agent := meta_agent m; meta_project := meta_project m; meta_session := meta_session m;
     meta_cwd := meta_cwd m |}.
Definition set_session (s : option str) (m : Metadata) : Metadata :=
  {| meta_timestamp := meta_timestamp m; meta_agent := meta_agent m; meta_project := meta_project m; meta_session := s;
     meta_cwd := meta_cwd m |}.
Definition set_project (p : option str) (m : Metadata) : Metadata :=
  {| meta_timestamp := meta_timestamp m; meta_agent := meta_agent m; meta_project := p; meta_session := meta_session m;
     meta_cwd := meta_cwd m |}.
Definition set_agent (a : option str) (m : Metadata) : Metadata :=
  {| meta_timestamp := meta_timestamp m; meta_agent := a; meta_project := meta_project m; meta_session := meta_session m;
     meta_cwd := meta_cwd m |}.

(** ** Invocations *)

Definition one_of (names : list string) (s : str) : bool := existsb (λ name, bool_decide (s = lit name)) names.

Definition excluded_record (o : Object) : bool :=
  is_some_and (one_of ["user"; "system"; "developer"; "tool"; "function"]%string) (get (lit "role") o ≫= as_str)
  || existsb (λ key,
       is_some_and (one_of ["function_call_output"; "custom_tool_call_output"; "tool_result"; "tool_output"; "text";
                            "input_text"; "output_text"; "markdownContent"; "textEdit"; "patch"]%string)
         (get (lit key) o ≫= as_str)) ["type"; "kind"]%string.

Definition is_shell_tool (tool : str) : bool :=
  one_of ["shell"; "bash"; "terminal"; "exec_command"; "shell_command"; "execute_command"; "run_in_terminal";
          "runinterminal"; "computer_terminal"]%string (to_ascii_lowercase <$> last_piece (N.eqb (ch ".")) tool).

(** The object under a key, or the one its text is parsed to. *)
Definition arguments `{LogLibraries} (o : Object) : option Object :=
  find_map (λ key,
    v ← get (lit key) o;
    match v with
    | VObject o => Some o
    | VString s => from_str s ≫= as_object
    | _ => None
    end) ["arguments"; "input"; "params"; "parameters"]%string.

(** What an object of a log is: left out, a call of another tool or one that did not run, a call
    without a command, a call of the shell, or a container of records. *)
Inductive Recorded :=
| Excluded
| Ignored
| Incomplete
| Invocation (tool command : str) (metadata : Metadata) (call_id : option str)
| Container (metadata : Metadata).

Definition is_invocation (bare : bool) (o : Object) : bool :=
  let kind := default [] (field o ["type"; "kind"]%string) in
  let has (key : string) := is_some (get (lit key) o) in
  one_of ["function_call"; "tool_call"; "tool_use"; "tool"; "toolInvocation"; "toolInvocationSerialized"; "function"]%string kind
  || has "toolId"%string || has "toolName"%string || (bare && (has "tool"%string || has "tool_name"%string)).
Definition is_true (v : option Value) : bool := match v with Some (VBool true) => true | _ => false end.
Definition did_not_run (o : Object) (state : option Object) : bool :=
  is_true (get (lit "isCanceled") o) || is_true (get (lit "isCancelled") o)
  || is_some_and (one_of ["pending"; "cancelled"; "rejected"]%string) ((state ≫= get (lit "status")) ≫= as_str).
Definition terminal_data (o : Object) : option Value :=
  match get (lit "toolSpecificData") o with
  | Some v => if bool_decide ((get_value (lit "kind") v ≫= as_str) = Some (lit "terminal")) then Some v else None
  | None => None
  end.
Definition terminal_command (v : Value) : option str :=
  or_else (get_value (lit "commandLine") v ≫= get_value (lit "toolEdited"))
    (or_else (get_value (lit "commandLine") v ≫= get_value (lit "original")) (get_value (lit "commandLine") v)) ≫= as_str.

Definition recorded `{LogLibraries} (inherited : Metadata) (bare : bool) (o : Object) : Recorded :=
  if excluded_record o then Excluded
  else
    let metadata := merge_metadata inherited o in
    let function := get (lit "function") o ≫= as_object in
    let tool := or_else (field o ["tool"; "tool_name"; "toolName"; "toolId"; "name"]%string)
                  (function ≫= λ f, field f ["name"]%string) in
    if negb (is_invocation bare o) then Container metadata
    else
      match tool with
      | None => Ignored
      | Some tool =>
          let state := get (lit "state") o ≫= as_object in
          if negb (is_shell_tool tool) || did_not_run o state then Ignored
          else
            let args := or_else (arguments (default o function)) (state ≫= arguments) in
            let terminal := terminal_data o in
            let command := or_else (terminal ≫= terminal_command)
                             (or_else (args ≫= λ a, field a ["command"; "cmd"]%string) (field o ["command"; "cmd"]%string)) in
            match command with
            | None => Incomplete
            | Some command =>
                if bool_decide (trim command = []) then Incomplete
                else
                  let metadata := from_option (merge_metadata metadata) metadata args in
                  let metadata := from_option (merge_metadata metadata) metadata (terminal ≫= as_object) in
                  let metadata :=
                    match (state ≫= get (lit "time")) ≫= as_object with
                    | Some time => set_timestamp (or_else (field time ["start"]%string ≫= normalize_timestamp) (meta_timestamp metadata)) metadata
                    | None => metadata
                    end in
                  Invocation tool command metadata (field o ["call_id"; "toolCallId"; "tool_call_id"; "callID"; "id"]%string)
            end
      end.

(** ** Reading *)

Abbreviation log_budgeted := (budgeted ReadError).

Section Read.
Context `{Layout, LogLibraries, LogFiles} (limits : LogLimits).

(** An event retains its provenance as shared text, which is not charged. *)
Definition make_event (ide tool command : str) (m : Metadata) (call_id : option str) : exec CommandEvent :=
  maven ← parse_maven_command command;
  category ← (match maven with Some _ => mret Maven | None => repository_category command end);
  mret {| timestamp := meta_timestamp m; ide := ide; agent := meta_agent m; project := meta_project m; session := meta_session m;
          tool := tool; cwd := meta_cwd m; command := command; category := category; call_id := call_id; maven := maven;
          provenance := [] |}.
Definition push_event (log : EventLog) (e : CommandEvent) : log_budgeted EventLog :=
  _ ← charging (Exceeded StateExceeded) (event_bytes e);
  mret {| events := events log ++ [e]; skipped_records := skipped_records log; oversized_records := oversized_records log |}.
Definition skip_record (log : EventLog) : EventLog :=
  {| events := events log; skipped_records := S (skipped_records log); oversized_records := oversized_records log |}.
Definition add_oversized (n : nat) (log : EventLog) : EventLog :=
  {| events := events log; skipped_records := skipped_records log; oversized_records := (oversized_records log + n)%nat |}.

(** The containers of the schemas; their texts, documents, patches and outputs are not in it. *)
Definition CONTAINERS : list str :=
  lit <$> ["requests"; "messages"; "response"; "responses"; "payload"; "parts"; "tool_calls"; "content"]%string.

Fixpoint extract (ide : str) (v : Value) (inherited : Metadata) (bare : bool) (log : EventLog) {struct v} : log_budgeted EventLog :=
  match v with
  | VArray l =>
      (fix each (l : list Value) (log : EventLog) : log_budgeted EventLog :=
        match l with
        | [] => mret log
        | v :: l => log ← extract ide v inherited bare log; each l log
        end) l log
  | VObject o =>
      match recorded inherited bare o with
      | Excluded | Ignored => mret log
      | Incomplete => mret (skip_record log)
      | Invocation tool command metadata call_id =>
          e ← running (make_event ide tool command metadata call_id);
          push_event log e
      | Container metadata =>
          (fix keys (l : list str) (log : EventLog) : log_budgeted EventLog :=
            match l with
            | [] => mret log
            | key :: l =>
                log ← (fix child (o : Object) : log_budgeted EventLog :=
                  match o with
                  | [] => mret log
                  | (k, v) :: o => if bool_decide (k = key) then extract ide v metadata false log else child o
                  end) o;
                keys l log
            end) CONTAINERS log
      end
  | _ => mret log
  end.

(** *** Documents *)

Definition workspace_metadata (p : path) : Metadata * bool :=
  let fix look (l : list path) (oversized : bool) : option str * bool :=
    match l with
    | [] => (None, oversized)
    | parent :: l =>
        match document (parent ++ [lit "workspace.json"]) with
        | None => look l oversized
        | Some (length, v) =>
            if max_record_bytes limits <? length then look l true
            else
              match (v ≫= get_value (lit "folder")) ≫= as_str with
              | Some s => (Some (default s (strip_prefix (lit "file://") s)), oversized)
              | None => look l oversized
              end
        end
    end in
  let '(workspace, oversized) := look (take 4 ((λ n, take n p) <$> reverse (seq 0 (S (length p))))) false in
  (set_project workspace no_metadata, oversized && negb (is_some workspace)).

Definition read_document (p : path) (source : LogSource) : log_budgeted EventLog :=
  match document p with
  | None => fails Unreadable
  | Some (length, v) =>
      if max_input_bytes limits <? length then fails (Exceeded InputExceeded)
      else
        let tree_bytes := saturating_mul length JSON_TREE_FACTOR in
        _ ← charging (Exceeded StateExceeded) tree_bytes;
        match v with
        | None => fails Unreadable
        | Some v =>
            let '(metadata, oversized) := workspace_metadata p in
            let log := add_oversized (if oversized : bool then 1 else 0) empty_log in
            log ← extract (if bool_decide (source = VsCode) then lit "vscode" else lit "vscode-insiders") v metadata true log;
            _ ← releasing tree_bytes;
            mret log
        end
  end.

(** *** Lines *)

(** At most [cap] bytes, up to and with the end of the line: what is read, and what is left. *)
Fixpoint read_until (cap : N) (s : list N) : list N * list N :=
  match s with
  | [] => ([], [])
  | c :: s' =>
      if cap =? 0 then ([], s)
      else if c =? 10 then ([c], s')
      else let '(line, rest) := read_until (cap - 1) s' in (c :: line, rest)
  end.
Fixpoint skip_until (s : list N) : option (list N) :=
  match s with
  | [] => None
  | c :: s => if c =? 10 then Some s else skip_until s
  end.

(** One turn of [for_each_line]: the bytes left, whether reading them ends in an error, the lines
    skipped so far and the state of the visitor. *)
Definition line_turn {S} (read_cap : N) (broken : bool) (visit : S → str → log_budgeted S) (t : list N * nat * S)
    : log_budgeted (turn (list N * nat * S) (nat * S)) :=
  let '(rest, oversized, s) := t in
  let '(buffer, after) := read_until read_cap rest in
  let visited buffer :=
    if max_record_bytes limits <? N.of_nat (length buffer) then mret (Continue (after, (oversized + 1)%nat, s))
    else
      match from_utf8 buffer with
      | inr _ => fails Unreadable
      | inl line => s ← visit s line; mret (Continue (after, oversized, s))
      end in
  match last buffer with
  | Some 10 => visited (strip_cr (removelast buffer))
  | _ =>
      if N.of_nat (length buffer) =? read_cap then
        match skip_until after with
        | None => if broken then fails Unreadable else mret (Continue ([], (oversized + 1)%nat, s))
        | Some after => mret (Continue (after, (oversized + 1)%nat, s))
        end
      else if broken then fails Unreadable
      else
        match buffer with
        | [] => mret (Break (oversized, s))
        | _ => visited buffer
        end
  end.
Fixpoint line_loop {S} (fuel : nat) (read_cap : N) (broken : bool) (visit : S → str → log_budgeted S) (t : list N * nat * S)
    : log_budgeted (nat * S) :=
  match fuel with
  | O => running Stuck
  | S fuel =>
      r ← line_turn read_cap broken visit t;
      match r with
      | Continue t => line_loop fuel read_cap broken visit t
      | Break r => mret r
      end
  end.
Definition for_each_line {S} (p : path) (visit : S → str → log_budgeted S) (s : S) : log_budgeted (nat * S) :=
  read_cap ← running (or_panic (checked_add (max_record_bytes limits) 3));
  match bytes_of p with
  | None => fails Unreadable
  | Some (bytes, broken) => line_loop (2 + length bytes) read_cap broken visit (bytes, 0%nat, s)
  end.

Definition codex_metadata : Metadata := set_agent (Some (lit "codex")) no_metadata.
(** What a line about the session or a turn says of the ones after it. *)
Definition codex_context (context : Metadata) (payload : Object) (session_meta : bool) : Metadata :=
  let context := merge_metadata context payload in
  let context :=
    if session_meta then
      let context := set_session (or_else (field payload ["id"]%string) (meta_session context)) context in
      set_project (or_else (meta_project context) (meta_cwd context)) context
    else context in
  set_timestamp None context.
Definition codex_line (s : Metadata * EventLog) (line : str) : log_budgeted (Metadata * EventLog) :=
  let '(context, log) := s in
  if bool_decide (trim line = []) then mret s
  else
    match from_str line with
    | None => mret (context, skip_record log)
    | Some v =>
        let kind := get_value (lit "type") v ≫= as_str in
        if is_some_and (one_of ["session_meta"; "turn_context"]%string) kind then
          match get_value (lit "payload") v ≫= as_object with
          | Some payload => mret (codex_context context payload (bool_decide (kind = Some (lit "session_meta"))), log)
          | None => mret s
          end
        else log ← extract (lit "codex") v context true log; mret (context, log)
    end.
Definition set_oversized (n : nat) (log : EventLog) : EventLog :=
  {| events := events log; skipped_records := skipped_records log; oversized_records := n |}.
Definition read_codex (p : path) : log_budgeted EventLog :=
  r ← for_each_line p codex_line (codex_metadata, empty_log);
  mret (set_oversized r.1 r.2.2).

(** [find(']')] of a text that begins with [\[]: what is between them, and what is after. *)
Definition bracketed (rest : str) : option (str * str) :=
  if starts_with (lit "[") rest then split_once (ch "]") (tail rest) else None.
Definition machine_fields (s : str) : Object :=
  foldl (λ o part, match split_once (ch "=") part with Some (k, v) => insert_entry k (VString v) o | None => o end) []
    (split_whitespace s).
Definition intellij_line (log : EventLog) (line : str) : log_budgeted EventLog :=
  match header line with
  | Some (time, Some rest) =>
      let metadata := set_timestamp (time ≫= normalize_timestamp) no_metadata in
      let '(metadata, rest) :=
        match bracketed rest with
        | Some (inside, after) => (merge_metadata metadata (machine_fields inside), trim_start after)
        | None => (metadata, rest)
        end in
      match find_map (λ marker, strip_prefix (lit marker) rest) ["Executing command:"; "Terminal command:"; "Shell command:"]%string with
      | Some command =>
          if bool_decide (trim command = []) then mret log
          else e ← running (make_event (lit "intellij") (lit "terminal") (trim command) metadata None); push_event log e
      | None => mret log
      end
  | _ => mret log
  end.
Definition read_intellij (p : path) : log_budgeted EventLog :=
  r ← for_each_line p intellij_line empty_log;
  mret (set_oversized r.1 r.2).
End Read.

(** *** Databases *)

Definition quote : str := [34].
Definition quote_identifier (name : str) : str := quote ++ replace quote (quote ++ quote) name ++ quote.
(** The size of a row first, and every column only when the row fits. *)
Definition row_size_query (columns : list str) : str :=
  match columns with
  | [] => lit "0"
  | _ => join (lit " + ") ((λ column, lit "coalesce(octet_length(" ++ quote_identifier column ++ lit "), 0)") <$> columns)
  end.
Definition guarded_row_query (table : str) (columns : list str) : str :=
  let size := row_size_query columns in
  lit "SELECT " ++ size
  ++ (columns ≫= λ column, lit ", CASE WHEN " ++ size ++ lit " <= ?1 THEN " ++ quote_identifier column ++ lit " END")
  ++ lit " FROM " ++ table.

Definition signed (n : Z) : str := (if (n <? 0)%Z then lit "-" else []) ++ to_dec (Z.to_N (Z.abs n)).
Definition JSON_COLUMNS : list string := ["payload"; "data"; "json"; "content"; "value"]%string.

Section Kilo.
Context `{Layout, LogLibraries, LogFiles} (limits : LogLimits).

Definition cell_value (column : str) (c : Cell) : Value :=
  match c with
  | TextCell bytes =>
      let text := from_utf8_lossy bytes in
      if one_of JSON_COLUMNS column then default (VString text) (from_str text) else VString text
  | IntegerCell n => VNumber (signed n)
  | OtherCell => VNull
  end.
Fixpoint row_entries (columns : list str) (cells : list Cell) (o : Object) : option Object :=
  match columns, cells with
  | [], _ => Some o
  | column :: columns, c :: cells => row_entries columns cells (insert_entry column (cell_value column c) o)
  | _ :: _, [] => None
  end.
(** A row, [None] inside when it is oversized; or an error. *)
Definition row_object (columns : list str) (r : Row) : option (option Object) :=
  match row_size r with
  | None => None
  | Some n =>
      let size := if (n <? 0)%Z then usize_max else Z.to_N n in
      if max_record_bytes limits <? size then Some None else Some <$> row_entries columns (row_cells r) []
  end.

Definition i64_max : N := 2 ^ 63 - 1.
Fixpoint each_row {S} (columns : list str) (visit : S → Object → log_budgeted S) (l : list (option Row)) (oversized : nat) (s : S)
    : log_budgeted (nat * S) :=
  match l with
  | [] => mret (oversized, s)
  | None :: _ => fails Unreadable
  | Some r :: l =>
      match row_object columns r with
      | None => fails Unreadable
      | Some None => each_row columns visit l (oversized + 1) s
      | Some (Some o) => s ← visit s o; each_row columns visit l oversized s
      end
  end.
Definition for_each_database_row {S} (d : Database) (name : str) (visit : S → Object → log_budgeted S) (s : S)
    : log_budgeted (nat * S) :=
  let table := quote_identifier name in
  match table_columns d table with
  | None => fails Unreadable
  | Some columns =>
      match query_rows d (guarded_row_query table columns) (Z.of_N (N.min i64_max (max_record_bytes limits))) with
      | None => fails Unreadable
      | Some l => each_row columns visit l 0 s
      end
  end.

(** Inserts an entry after charging it; a replaced entry's charge is given back. *)
Definition remember {V} (size : V → N) (map : gmap (list N) V) (id : str) (v : V) : log_budgeted (gmap (list N) V) :=
  _ ← charging (Exceeded StateExceeded) (blen id + size v + ENTRY_OVERHEAD_BYTES);
  _ ← (match map !! id with
       | Some previous => releasing (blen id + size previous + ENTRY_OVERHEAD_BYTES)
       | None => mret ()
       end);
  mret (<[id := v]> map).

(** What the tables of sessions and messages say: the metadata of the sessions, and the agents of
    the messages. *)
Record Known := {
  sessions : gmap (list N) Metadata;
  messages : gmap (list N) (option (list N));
}.
Definition kilo_metadata : Metadata := set_agent (Some (lit "kilo")) no_metadata.
Definition agent_bytes (agent : option str) : N := size_option_string + optional_len agent.
Definition is_metadata_table (name : str) : bool := one_of ["session"; "sessions"; "message"; "messages"]%string name.
Definition metadata_row (name : str) (known : Known) (row : Object) : log_budgeted Known :=
  let m := merge_metadata kilo_metadata row in
  let m := match get (lit "data") row ≫= as_object with Some data => merge_metadata m data | None => m end in
  match field row ["id"]%string with
  | None => mret known
  | Some id =>
      if starts_with (lit "session") name then
        map ← remember metadata_bytes (sessions known) id (set_session (Some id) m);
        mret {| sessions := map; messages := messages known |}
      else
        map ← remember agent_bytes (messages known) id (meta_agent m);
        mret {| sessions := sessions known; messages := map |}
  end.
Fixpoint metadata_tables (d : Database) (names : list str) (known : Known) (log : EventLog) : log_budgeted (Known * EventLog) :=
  match names with
  | [] => mret (known, log)
  | name :: names =>
      if is_metadata_table name then
        r ← for_each_database_row d name (metadata_row name) known;
        metadata_tables d names r.2 (add_oversized r.1 log)
      else metadata_tables d names known log
  end.

Definition row_metadata (known : Known) (row : Object) : Metadata :=
  let m := default kilo_metadata (field row ["session_id"; "sessionID"]%string ≫= λ s, sessions known !! s) in
  let m :=
    match field row ["message_id"; "messageID"]%string ≫= λ id, messages known !! id with
    | Some agent => set_agent (or_else agent (meta_agent m)) m
    | None => m
    end in
  merge_metadata (set_timestamp None m) row.
Definition payload_column (m : Metadata) (row : Object) (log : EventLog) (key : string) : log_budgeted EventLog :=
  match get (lit key) row with
  | Some (VObject _ as v) | Some (VArray _ as v) => extract (lit "kilo") v m true log
  | Some (VString s) => if starts_with (lit "{") s || starts_with (lit "[") s then mret (skip_record log) else mret log
  | _ => mret log
  end.
Fixpoint payload_columns (m : Metadata) (row : Object) (keys : list string) (log : EventLog) : log_budgeted EventLog :=
  match keys with
  | [] => mret log
  | key :: keys => log ← payload_column m row log key; payload_columns m row keys log
  end.
Definition record_row (known : Known) (log : EventLog) (row : Object) : log_budgeted EventLog :=
  if excluded_record row then mret log
  else
    let m := row_metadata known row in
    log ← (if existsb (λ key, is_some (get (lit key) row)) ["tool"; "tool_name"; "toolName"; "toolId"]%string
           then extract (lit "kilo") (VObject row) m true log else mret log);
    payload_columns m row JSON_COLUMNS log.
Fixpoint record_tables (d : Database) (known : Known) (names : list str) (log : EventLog) : log_budgeted EventLog :=
  match names with
  | [] => mret log
  | name :: names =>
      r ← for_each_database_row d name (record_row known) log;
      record_tables d known names (add_oversized r.1 r.2)
  end.

Definition current_used : log_budgeted N := λ b, Done (b, inl (used b)).
Definition read_kilo (p : path) : log_budgeted EventLog :=
  match database p with
  | None => fails Unreadable
  | Some d =>
      match table_names d with
      | None => fails Unreadable
      | Some names =>
          before ← current_used;
          r ← metadata_tables d names {| sessions := ∅; messages := ∅ |} empty_log;
          after ← current_used;
          log ← record_tables d r.1 names r.2;
          _ ← releasing (saturating_sub after before);
          mret log
      end
  end.
End Kilo.

(** *** Choosing the reader *)

Definition infer_source `{LogFiles} (p : path) : option LogSource :=
  let lower := to_ascii_lowercase <$> to_string_lossy p in
  let name := default [] (file_name p) in
  let extension := (split_extension name).2 in
  let has (names : list string) := is_some_and (one_of names) extension in
  if has ["db"; "sqlite"; "sqlite3"; "vscdb"]%string then Some Kilo
  else if has ["jsonl"]%string then Some Codex
  else if has ["json"]%string then Some (if contains (lit "insiders") lower then VsCodeInsiders else VsCode)
  else if has ["log"; "txt"]%string || contains (lit ".log.") name then Some IntelliJ
  else None.
Definition supported_file `{LogFiles} (p : path) : bool :=
  is_some (infer_source p) && negb (ends_with (lit ".gz") (to_string_lossy p)).

(** The rotations of one IntelliJ log share an identity. *)
Definition source_identity `{LogFiles} (p : path) (source : LogSource) : str :=
  match (if bool_decide (source = IntelliJ) then file_name p ≫= rsplit_once_str (lit ".log.") else None) with
  | Some (base, rotation) =>
      if negb (bool_decide (rotation = [])) && forallb is_ascii_digit rotation
      then to_string_lossy (take (length p - 1) p ++ [base ++ lit ".log"])
      else to_string_lossy p
  | None => to_string_lossy p
  end.

Definition with_provenance (provenance : str) (e : CommandEvent) : CommandEvent :=
  {| timestamp := timestamp e; ide := ide e; agent := agent e; project := project e; session := session e; tool := tool e;
     cwd := cwd e; command := command e; category := category e; call_id := call_id e; maven := maven e;
     provenance := provenance |}.
Definition map_events (f : CommandEvent → CommandEvent) (log : EventLog) : EventLog :=
  {| events := f <$> events log; skipped_records := skipped_records log; oversized_records := oversized_records log |}.

Section Sources.
Context `{Layout, LogLibraries, LogFiles} (limits : LogLimits).

Definition read_as (p : path) (source : LogSource) : log_budgeted EventLog :=
  match source with
  | Kilo => read_kilo limits p
  | IntelliJ => read_intellij limits p
  | Codex => read_codex limits p
  | VsCode | VsCodeInsiders => read_document limits p source
  | Auto => running Panic
  end.
Definition read_source (p : path) (source : LogSource) : log_budgeted EventLog :=
  match (if bool_decide (source = Auto) then infer_source p else Some source) with
  | None => fails Unreadable
  | Some source =>
      log ← read_as p source;
      mret (map_events (with_provenance (source_identity p source)) log)
  end.
(** A failed file contributes no events, so it keeps no charges. *)
Definition read (p : path) (source : LogSource) : log_budgeted EventLog := λ b,
  '(b', r) ← read_source p source b;
  mret (match r with inl log => (b', inl log) | inr e => (restore (used b) b', inr e) end).
End Sources.

(** *** Choosing the files *)

(** A directory below a root is walked entry by entry, [None] being one that cannot be read. *)
Record SourceTree := {
  is_file : path → bool;
  is_dir : path → bool;
  canonical : path → option path;
  walk : path → list (option (path * bool));
}.
Section Files.
Context `{LogFiles} (t : SourceTree).

Fixpoint walked_paths (l : list (option (path * bool))) : option (list path) :=
  match l with
  | [] => Some []
  | None :: _ => None
  | Some (p, file) :: l =>
      if file && supported_file p then p ← canonical t p; ps ← walked_paths l; Some (p :: ps) else walked_paths l
  end.
Fixpoint root_paths (roots : list path) : option (list path) :=
  match roots with
  | [] => Some []
  | root :: roots =>
      found ← (if is_file t root then p ← canonical t root; Some [p]
               else if is_dir t root then walked_paths (walk t root)
               else None);
      rest ← root_paths roots;
      Some (found ++ rest)
  end.
Definition source_paths (roots : list path) : option (list path) := (λ ps, dedup (sort ps)) <$> root_paths roots.
End Files.

Definition discover_default_sources (var_os : string → option path) (exists_ : path → bool) : list path :=
  match or_else (var_os "HOME"%string) (var_os "USERPROFILE"%string) with
  | None => []
  | Some home =>
      let config := default (path_join home (lit ".config")) (var_os "XDG_CONFIG_HOME"%string) in
      let data := default (path_join home (lit ".local/share")) (var_os "XDG_DATA_HOME"%string) in
      let cache := default (path_join home (lit ".cache")) (var_os "XDG_CACHE_HOME"%string) in
      let roots :=
        [path_join (default (path_join home (lit ".codex")) (var_os "CODEX_HOME"%string)) (lit "sessions");
         path_join data (lit "kilo"); path_join cache (lit "JetBrains"); path_join home (lit "Library/Logs/JetBrains")] in
      let code_bases := [config; path_join home (lit "Library/Application Support")] ++ option_list (var_os "APPDATA"%string) in
      let roots := roots ++ option_list ((λ local, path_join local (lit "JetBrains")) <$> var_os "LOCALAPPDATA"%string) in
      let users := code_bases ≫= λ base,
        (λ edition, path_join (path_join base (lit edition)) (lit "User")) <$> ["Code"; "Code - Insiders"]%string in
      let roots := roots ++ (users ≫= λ user,
        (λ name, path_join user (lit name)) <$>
          ["workspaceStorage"; "globalStorage/emptyWindowChatSessions"; "globalStorage/kilocode.kilo-code"]%string) in
      dedup (sort (filter (λ p, exists_ p = true) roots))
  end.

(** ** Lemmas: accounting *)

(** A computation that starts with [n] bytes charged above a base, and leaves what its value is
    said to retain. *)
Definition accounts {A} (base n : N) (m : log_budgeted A) (kept : A → N) : Prop := ∀ b,
  used b = base + n → fits b →
  wp (m b) (λ '(b', r), limit b' = limit b ∧ fits b' ∧ match r with inl a => used b' = base + kept a | inr _ => True end).

Lemma accounts_ret {A} base n (a : A) (kept : A → N) : kept a = n → accounts base n (mret a) kept.
Proof. intros <- b Hu Hf. done. Qed.
Lemma accounts_fail {A} base n e (kept : A → N) : accounts base n (fails e) kept.
Proof. intros b Hu Hf. done. Qed.
Lemma accounts_bind {A B} base n (m : log_budgeted A) (f : A → log_budgeted B) kept kept' :
  accounts base n m kept → (∀ a, accounts base (kept a) (f a) kept') → accounts base n (m ≫= f) kept'.
Proof.
  intros Hm Hf b Hu Hb.
  apply (budgeted_call _ _ b (λ b' a, limit b' = limit b ∧ fits b' ∧ used b' = base + kept a) (λ b' _, limit b' = limit b ∧ fits b')).
  - eapply wp_mono; [by apply Hm|]. intros [b' [a|e]]; [done|]. by intros (? & ? & _).
  - intros b' a (Hl & Hb' & Hu'). eapply wp_mono; [by apply Hf|]. intros [b'' r]. by rewrite Hl.
  - intros b' e [? ?]. done.
Qed.
Lemma accounts_mono {A} base n (m : log_budgeted A) kept kept' :
  accounts base n m kept → (∀ a, kept a = kept' a) → accounts base n m kept'.
Proof. intros Hm Heq b Hu Hb. eapply wp_mono; [by apply Hm|]. intros [b' [a|e]]; [|done]. by rewrite Heq. Qed.
Lemma accounts_run {A} base n (m : exec A) (kept : A → N) : wp m (λ a, kept a = n) → accounts base n (running m) kept.
Proof. intros Hm b Hu Hf. unfold running. eapply wp_call; [exact Hm|]. intros a <-. done. Qed.
Lemma accounts_charge base n e bytes : accounts base n (charging e bytes) (λ _, n + bytes).
Proof.
  intros b Hu [Hfit Hl]. unfold charging. pose proof (charge_spec bytes b Hl) as Hc. destruct (charge bytes b); [|done].
  destruct Hc as [-> Hle]. cbn. unfold fits. cbn. rewrite Hu. split; [done|]. split; [lia|lia].
Qed.
Lemma accounts_release base n m bytes : n = m + bytes → accounts base n (releasing bytes) (λ _, m).
Proof.
  intros -> b Hu [Hfit Hl]. unfold releasing. rewrite (release_spec _ (base + m)) by lia. cbn. unfold fits. cbn. split_and!; lia.
Qed.

(** *** What a log retains *)

Section Accounts.
Context `{Layout, LogLibraries, LogFiles} (limits : LogLimits).

Definition log_bytes (log : EventLog) : N := retained_bytes (events log).

Lemma parse_maven_ends command : total (parse_maven_command command).
Proof.
  unfold parse_maven_command. eapply wp_call; [apply invocations_ends|]. intros commands _.
  destruct (List.find _ commands) as [words|]; [|done]. apply total_fmap, parse_words_ends.
Qed.
Lemma make_event_ends ide tool command m call_id : total (make_event ide tool command m call_id).
Proof.
  unfold make_event. eapply wp_call; [apply parse_maven_ends|]. intros [maven|] _; [done|].
  eapply (wp_call _ _ (λ _, True)); [|done]. unfold repository_category. eapply wp_call; [apply invocations_ends|]. done.
Qed.

Lemma accounts_push base log e : accounts base (log_bytes log) (push_event log e) log_bytes.
Proof.
  eapply accounts_bind; [apply accounts_charge|]. intros []. apply accounts_ret. unfold log_bytes. cbn [events].
  rewrite retained_app, retained_cons. change (retained_bytes []) with 0. lia.
Qed.
Lemma accounts_made base log ide tool command m call_id :
  accounts base (log_bytes log) (e ← running (make_event ide tool command m call_id); push_event log e) log_bytes.
Proof.
  eapply (accounts_bind _ _ _ _ (λ _, log_bytes log)); [|intros e; apply accounts_push].
  apply accounts_run. eapply wp_mono; [apply make_event_ends|]. done.
Qed.

(** Induction on values. *)
Lemma value_induction (P : Value → Prop) :
  P VNull → (∀ b, P (VBool b)) → (∀ n, P (VNumber n)) → (∀ s, P (VString s)) →
  (∀ l, Forall P l → P (VArray l)) → (∀ o, Forall (λ kv, P kv.2) o → P (VObject o)) → ∀ v, P v.
Proof.
  intros Hnull Hbool Hnumber Hstring Harray Hobject. fix IH 1. intros [|b|n|s|l|o]; [done..| |].
  - apply Harray. induction l as [|v l IHl]; constructor; [apply IH|exact IHl].
  - apply Hobject. induction o as [|[k v] o IHo]; constructor; [apply IH|exact IHo].
Qed.
Lemma get_Forall (P : str * Value → Prop) key o v : Forall P o → get key o = Some v → P (key, v).
Proof.
  induction 1 as [|[k w] o Hw _ IH]; [done|]. cbn [get]. case_bool_decide as Hk; [|done]. intros [= <-]. by subst k.
Qed.

(** [extract] on arrays and objects. *)
Fixpoint extract_all (ide : str) (l : list Value) (m : Metadata) (bare : bool) (log : EventLog) : log_budgeted EventLog :=
  match l with
  | [] => mret log
  | v :: l => log ← extract ide v m bare log; extract_all ide l m bare log
  end.
Definition extract_key (ide : str) (o : Object) (m : Metadata) (log : EventLog) (key : str) : log_budgeted EventLog :=
  match get key o with Some v => extract ide v m false log | None => mret log end.
Fixpoint extract_keys (ide : str) (o : Object) (m : Metadata) (keys : list str) (log : EventLog) : log_budgeted EventLog :=
  match keys with
  | [] => mret log
  | key :: keys => log ← extract_key ide o m log key; extract_keys ide o m keys log
  end.
Lemma extract_array ide l m bare log b : extract ide (VArray l) m bare log b = extract_all ide l m bare log b.
Proof.
  cbn [extract]. revert log b. induction l as [|v l IH]; [done|]. intros log b. cbn [extract_all]. by apply budgeted_ext.
Qed.
Lemma extract_object ide o m bare log b :
  extract ide (VObject o) m bare log b =
    match recorded m bare o with
    | Excluded | Ignored => mret log
    | Incomplete => mret (skip_record log)
    | Invocation tool command metadata call_id => e ← running (make_event ide tool command metadata call_id); push_event log e
    | Container metadata => extract_keys ide o metadata CONTAINERS log
    end b.
Proof.
  cbn [extract]. destruct (recorded m bare o) as [| | | |m']; try done. revert log b.
  induction CONTAINERS as [|key keys IH]; [done|]. intros log b. cbn [extract_keys]. unfold extract_key.
  assert (∀ o, (fix child (o : Object) : log_budgeted EventLog :=
     match o with [] => mret log | (k, v) :: o => if bool_decide (k = key) then extract ide v m' false log else child o end) o
     = match get key o with Some v => extract ide v m' false log | None => mret log end) as ->.
  { clear. induction o as [|[k v] o IH]; [done|]. cbn [get]. by case_bool_decide. }
  by apply budgeted_ext.
Qed.
End Accounts.

(** ** What is extracted *)

Section Extraction.
Context `{Layout, LogLibraries, LogFiles}.

(** A call: the tool, the command, the metadata and the identity; [None] is a call without a
    command. *)
Abbreviation Call := (str * str * Metadata * option str)%type (only parsing).

(** The calls of a value in the order of the document. *)
Fixpoint found (v : Value) (m : Metadata) (bare : bool) {struct v} : list (option Call) :=
  match v with
  | VArray l => mjoin ((λ v, found v m bare) <$> l)
  | VObject o =>
      match recorded m bare o with
      | Excluded | Ignored => []
      | Incomplete => [None]
      | Invocation tool command metadata call_id => [Some (tool, command, metadata, call_id)]
      | Container m =>
          mjoin ((λ key,
            (fix child (o : Object) : list (option Call) :=
              match o with [] => [] | (k, v) :: o => if bool_decide (k = key) then found v m false else child o end) o) <$> CONTAINERS)
      end
  | _ => []
  end.
Definition found_key (o : Object) (m : Metadata) (key : str) : list (option Call) :=
  match get key o with Some v => found v m false | None => [] end.
Lemma found_object o m bare :
  found (VObject o) m bare =
    match recorded m bare o with
    | Excluded | Ignored => []
    | Incomplete => [None]
    | Invocation tool command metadata call_id => [Some (tool, command, metadata, call_id)]
    | Container m => mjoin (found_key o m <$> CONTAINERS)
    end.
Proof.
  cbn [found]. destruct (recorded m bare o) as [| | | |m']; try done. f_equal. apply list_fmap_ext. intros _ key _.
  unfold found_key. clear. induction o as [|[k v] o IH]; [done|]. cbn [get]. by case_bool_decide.
Qed.

(** An object that can be reached through arrays and the containers of records, with the metadata
    it inherits and whether a bare command counts there. *)
Inductive reaches : Value → Metadata → bool → Object → Metadata → bool → Prop :=
| reaches_here o m bare : reaches (VObject o) m bare o m bare
| reaches_item l v m bare o m' bare' : v ∈ l → reaches v m bare o m' bare' → reaches (VArray l) m bare o m' bare'
| reaches_child o key v m bare m1 o' m' bare' :
    recorded m bare o = Container m1 → key ∈ CONTAINERS → get key o = Some v → reaches v m1 false o' m' bare' →
    reaches (VObject o) m bare o' m' bare'.

Lemma found_reaches v : ∀ m bare tool command metadata id,
  Some (tool, command, metadata, id) ∈ found v m bare ↔
  ∃ o m' bare', reaches v m bare o m' bare' ∧ recorded m' bare' o = Invocation tool command metadata id.
Proof.
  induction v as [|b|n|s|l Hl|o Ho] using value_induction; intros m bare tool command metadata id.
  1-4: cbn [found]; (split; [intros Hin; by apply elem_of_nil in Hin|]); intros (o & m' & bare' & Hr & _); inversion Hr.
  - cbn [found]. rewrite list_elem_of_join. setoid_rewrite list_elem_of_fmap. rewrite Forall_forall in Hl. split.
    + intros (x & Hin & v & -> & Hv). apply (Hl v Hv) in Hin as (o & m' & bare' & Hr & He). exists o, m', bare'. split; [by econstructor|done].
    + intros (o & m' & bare' & Hr & He). inversion Hr as [|? v ? ? ? ? ? Hv Hr'|]; subst. exists (found v m bare).
      split; [|by exists v]. apply (Hl v Hv). by exists o, m', bare'.
  - rewrite found_object. destruct (recorded m bare o) as [| | |t c m1 i|m1] eqn:He.
    + split; [intros Hin; by apply elem_of_nil in Hin|]. intros (o' & m' & bare' & Hr & He'). inversion Hr; congruence.
    + split; [intros Hin; by apply elem_of_nil in Hin|]. intros (o' & m' & bare' & Hr & He'). inversion Hr; congruence.
    + split; [intros Hin; by apply list_elem_of_singleton in Hin|]. intros (o' & m' & bare' & Hr & He'). inversion Hr; congruence.
    + rewrite list_elem_of_singleton. split.
      * intros [= -> -> -> ->]. exists o, m, bare. split; [constructor|done].
      * intros (o' & m' & bare' & Hr & He'). inversion Hr; congruence.
    + rewrite list_elem_of_join. setoid_rewrite list_elem_of_fmap. split.
      * intros (x & Hin & key & -> & Hkey). unfold found_key in Hin. destruct (get key o) as [v|] eqn:Hv; [|by apply elem_of_nil in Hin].
        apply (get_Forall _ _ _ _ Ho Hv) in Hin as (o' & m' & bare' & Hr & He'). exists o', m', bare'. split; [by econstructor|done].
      * intros (o' & m' & bare' & Hr & He'). inversion Hr as [| |? key v ? ? ? ? ? ? Hc Hkey Hv Hr']; subst; [congruence|].
        exists (found_key o m1 key). split; [|by exists key]. unfold found_key. rewrite Hv. apply (get_Forall _ _ _ _ Ho Hv).
        assert (m2 = m1) as -> by congruence. by exists o', m', bare'.
Qed.

(** A log with the events of calls added. *)
Record extends (ide : str) (calls : list (option Call)) (log log' : EventLog) : Prop := {
  extends_events : ∃ es, events log' = events log ++ es ∧
    Forall2 (λ '(tool, command, m, id) e, make_event ide tool command m id = Done e) (omap id calls) es;
  extends_skipped : skipped_records log' = (skipped_records log + length (filter (λ c, c = None) calls))%nat;
  extends_oversized : oversized_records log' = oversized_records log;
}.
Lemma extends_nil ide log : extends ide [] log log.
Proof. split; [exists []; by rewrite app_nil_r|simpl; lia|done]. Qed.
Lemma extends_app ide c1 c2 log log1 log2 : extends ide c1 log log1 → extends ide c2 log1 log2 → extends ide (c1 ++ c2) log log2.
Proof.
  intros [(es & He & Hes) Hs Ho] [(es' & He' & Hes') Hs' Ho']. split.
  - exists (es ++ es'). split; [by rewrite He', He, app_assoc|]. rewrite omap_app. by apply Forall2_app.
  - rewrite Hs', Hs, filter_app, length_app. lia.
  - congruence.
Qed.
Lemma extends_bytes ide c log log' : extends ide c log log' → log_bytes log ≤ log_bytes log'.
Proof. intros [(es & He & _) _ _]. unfold log_bytes. rewrite He, retained_app. lia. Qed.
Lemma extends_exists ide c log : ∃ log', extends ide c log log'.
Proof.
  revert log. induction c as [|x c IH]; intros log; [exists log; apply extends_nil|].
  assert (∃ log1, extends ide [x] log log1) as [log1 Hlog1].
  { destruct x as [[[[tool command] m] id]|].
    - destruct (wp_Done _ _ (make_event_ends ide tool command m id)) as (e & He & _).
      exists {| events := events log ++ [e]; skipped_records := skipped_records log; oversized_records := oversized_records log |}.
      split; [exists [e]; split; [done|by repeat constructor]|simpl; lia|done].
    - exists (skip_record log). split; [exists []; by rewrite app_nil_r|simpl; lia|done]. }
  destruct (IH log1) as [log' Hlog2]. exists log'. by apply (extends_app ide [x] c log log1).
Qed.

(** A step that adds the events of calls and charges them, or fails because they do not fit. *)
Definition extracts (ide : str) (calls : list (option Call)) (f : EventLog → log_budgeted EventLog) : Prop := ∀ log b,
  fits b →
  wp (f log b) (λ '(b', r), limit b' = limit b ∧ fits b' ∧ match r with
    | inl log' => extends ide calls log log' ∧ used b' + log_bytes log = used b + log_bytes log'
    | inr e => e = Exceeded StateExceeded ∧ ∃ log', extends ide calls log log' ∧ limit b + log_bytes log < used b + log_bytes log'
    end).

Lemma extracts_nil ide : extracts ide [] mret.
Proof. intros log b Hf. split; [done|]. split; [done|]. split; [apply extends_nil|done]. Qed.
Lemma extracts_bind ide c1 c2 f g : extracts ide c1 f → extracts ide c2 g → extracts ide (c1 ++ c2) (λ log, log ← f log; g log).
Proof.
  intros Hf Hg log b Hb.
  apply (budgeted_call _ _ b
    (λ b' log', limit b' = limit b ∧ fits b' ∧ extends ide c1 log log' ∧ used b' + log_bytes log = used b + log_bytes log')
    (λ b' e, limit b' = limit b ∧ fits b' ∧ e = Exceeded StateExceeded ∧
      ∃ log', extends ide c1 log log' ∧ limit b + log_bytes log < used b + log_bytes log')).
  - eapply wp_mono; [by apply Hf|]. by intros [b' [log'|e]].
  - intros b' log' (Hl & Hb' & He & Hu). eapply wp_mono; [by apply Hg|]. intros [b'' r]. rewrite Hl. intros (Hl' & Hb'' & Hr).
    split; [done|]. split; [done|]. destruct r as [log''|e].
    + destruct Hr as [He' Hu']. split; [by eapply extends_app|lia].
    + destruct Hr as (-> & log'' & He' & Hu'). split; [done|]. exists log''. split; [by eapply extends_app|lia].
  - intros b' e (Hl & Hb' & -> & log' & He & Hu). split; [done|]. split; [done|]. split; [done|].
    destruct (extends_exists ide c2 log') as [log'' He']. exists log''. split; [by eapply extends_app|].
    pose proof (extends_bytes _ _ _ _ He'). lia.
Qed.
Lemma extracts_call ide tool command m id :
  extracts ide [Some (tool, command, m, id)] (λ log, e ← running (make_event ide tool command m id); push_event log e).
Proof.
  intros log b [Hfit Hl]. destruct (wp_Done _ _ (make_event_ends ide tool command m id)) as (e & He & _).
  set (log' := {| events := events log ++ [e]; skipped_records := skipped_records log; oversized_records := oversized_records log |}).
  assert (extends ide [Some (tool, command, m, id)] log log') as Hex.
  { split; [exists [e]; split; [done|by repeat constructor]|simpl; lia|done]. }
  assert (log_bytes log' = log_bytes log + event_bytes e) as Hbytes.
  { unfold log_bytes. cbn [events log']. rewrite retained_app, retained_cons. change (retained_bytes []) with 0. lia. }
  unfold mbind, budgeted_bind, running, push_event, charging, mbind, budgeted_bind. rewrite He. cbn [mbind exec_bind].
  pose proof (charge_spec (event_bytes e) b Hl) as Hc. destruct (charge (event_bytes e) b) as [b'|].
  - destruct Hc as [-> Hle]. cbn [wp mret budgeted_ret limit restore]. split; [done|]. split; [by split|]. split; [exact Hex|].
    fold log'. cbn [used restore]. lia.
  - split; [done|]. split; [by split|]. split; [done|]. exists log'. split; [exact Hex|]. lia.
Qed.
Lemma extracts_skip ide : extracts ide [None] (λ log, mret (skip_record log)).
Proof.
  intros log b Hf. split; [done|]. split; [done|]. split; [|done]. split; [exists []; by rewrite app_nil_r|simpl; lia|done].
Qed.
Lemma extracts_ext ide c f g : (∀ log b, f log b = g log b) → extracts ide c g → extracts ide c f.
Proof. intros Hfg Hg log b Hb. rewrite Hfg. by apply Hg. Qed.

Lemma extract_spec ide v : ∀ m bare, extracts ide (found v m bare) (extract ide v m bare).
Proof.
  induction v as [|b|n|s|l Hl|o Ho] using value_induction; intros m bare; [apply extracts_nil..| |].
  - eapply extracts_ext; [intros; apply extract_array|]. cbn [found].
    induction Hl as [|v l Hv _ IH]; cbn [extract_all fmap list_fmap]; [apply extracts_nil|]. by apply extracts_bind.
  - eapply extracts_ext; [intros; apply extract_object|]. rewrite found_object.
    destruct (recorded m bare o) as [| | |t c m1 i|m1]; [apply extracts_nil..|apply extracts_skip|apply extracts_call|].
    induction CONTAINERS as [|key keys IH]; cbn [extract_keys fmap list_fmap]; [apply extracts_nil|].
    apply (extracts_bind ide (found_key o m1 key)); [|exact IH]. unfold extract_key, found_key.
    destruct (get key o) as [v|] eqn:Hv; [|apply extracts_nil]. by apply (get_Forall _ _ _ _ Ho Hv).
Qed.
End Extraction.

(** ** Lines *)

Section Lines.
Context `{Layout, LogLibraries, LogFiles} (limits : LogLimits) {S : Type} (visit : S → str → log_budgeted S).

(** One line, of at most the limit or skipped; all lines of a text in order, those that end with a
    line feed without a carriage return before it; and the rest after the last one. *)
Definition visit_line (r : nat * S) (line : list N) : log_budgeted (nat * S) :=
  if max_record_bytes limits <? N.of_nat (length line) then mret ((r.1 + 1)%nat, r.2)
  else match from_utf8 line with
       | inr _ => fails Unreadable
       | inl text => s ← visit r.2 text; mret (r.1, s)
       end.
Fixpoint visit_lines (l : list (list N)) (r : nat * S) : log_budgeted (nat * S) :=
  match l with
  | [] => mret r
  | line :: l => r ← visit_line r line; visit_lines l r
  end.
Definition visit_text (bytes : list N) (broken : bool) (r : nat * S) : log_budgeted (nat * S) :=
  let pieces := split_char 10 bytes in
  r ← visit_lines (strip_cr <$> removelast pieces) r;
  if broken then fails Unreadable
  else match last pieces with
       | None | Some [] => mret r
       | Some rest => visit_line r rest
       end.

Lemma read_until_rest cap s : 10 ∉ s → read_until cap s = (take (N.to_nat cap) s, drop (N.to_nat cap) s).
Proof.
  revert cap. induction s as [|c s IH]; intros cap Hs; simpl; [by destruct (N.to_nat cap)|].
  apply not_elem_of_cons in Hs as [Hc Hs]. destruct (N.eqb_spec cap 0) as [->|Hcap]; [done|].
  destruct (N.eqb_spec c 10) as [->|_]; [done|]. rewrite IH by done.
  replace (N.to_nat cap) with (Datatypes.S (N.to_nat (cap - 1))) by lia. done.
Qed.
Lemma read_until_line cap line rest : 10 ∉ line →
  read_until cap (line ++ 10 :: rest) =
    if decide (length line < N.to_nat cap)%nat then (line ++ [10], rest)
    else (take (N.to_nat cap) line, drop (N.to_nat cap) line ++ 10 :: rest).
Proof.
  revert cap. induction line as [|c line IH]; intros cap Hs; cbn [app read_until].
  - destruct (N.eqb_spec cap 0) as [->|Hcap]; [done|]. cbn. case_decide; [done|simpl in *; lia].
  - apply not_elem_of_cons in Hs as [Hc Hs]. destruct (N.eqb_spec cap 0) as [->|Hcap]; [done|].
    destruct (N.eqb_spec c 10) as [->|_]; [done|]. rewrite IH by done. simpl length.
    replace (N.to_nat cap) with (Datatypes.S (N.to_nat (cap - 1))) by lia. repeat case_decide; try lia; done.
Qed.
Lemma skip_until_line line rest : 10 ∉ line → skip_until (line ++ 10 :: rest) = Some rest.
Proof.
  induction line as [|c line IH]; [done|]. intros [Hc Hs]%not_elem_of_cons. cbn. destruct (N.eqb_spec c 10) as [->|_]; [done|by apply IH].
Qed.
Lemma skip_until_rest s : 10 ∉ s → skip_until s = None.
Proof.
  induction s as [|c s IH]; [done|]. intros [Hc Hs]%not_elem_of_cons. cbn. destruct (N.eqb_spec c 10) as [->|_]; [done|by apply IH].
Qed.
Lemma first_line (s : list N) : 10 ∉ s ∨ ∃ line rest, s = line ++ 10 :: rest ∧ 10 ∉ line.
Proof.
  induction s as [|c s IH]; [left; apply not_elem_of_nil|]. destruct (decide (c = 10)) as [->|Hc].
  - right. exists [], s. split; [done|apply not_elem_of_nil].
  - destruct IH as [IH|(line & rest & -> & Hl)]; [left; by apply not_elem_of_cons|].
    right. exists (c :: line), rest. split; [done|]. by apply not_elem_of_cons.
Qed.
Lemma last_not (s : list N) : 10 ∉ s → last s ≠ Some 10.
Proof. intros Hs Hl. apply Hs. by apply last_Some_elem_of. Qed.
Lemma pieces_none s : 10 ∉ s → split_char 10 s = [s].
Proof. intros Hs. apply split_at_last, Forall_forall. intros c Hc. apply N.eqb_neq. congruence. Qed.
Lemma pieces_line line rest : 10 ∉ line → split_char 10 (line ++ 10 :: rest) = line :: split_char 10 rest.
Proof. intros Hs. apply split_at_piece; [|done]. apply Forall_forall. intros c Hc. apply N.eqb_neq. congruence. Qed.
Lemma strip_cr_length line : (length line ≤ length (strip_cr line) + 1)%nat.
Proof.
  unfold strip_cr. destruct (strip_suffix [13] line) as [s|] eqn:Hs; simpl; [|lia].
  apply strip_suffix_spec in Hs as ->. rewrite length_app. simpl. lia.
Qed.

Lemma elem_of_take_inv {A} (x : A) k l : x ∈ take k l → x ∈ l.
Proof. intros Hx. rewrite <- (take_drop k l). apply elem_of_app. by left. Qed.

Lemma not_feed {A} c (x y : A) : c ≠ 10 → match c with 10 => x | _ => y end = y.
Proof. intros Hc. destruct c as [|p]; [done|]. do 4 (destruct p as [p|p|]; try done). Qed.

(** After a line: what is visited, and then the text after it. *)
Lemma visit_text_line broken line rest r b :
  10 ∉ line → visit_text (line ++ 10 :: rest) broken r b = (r ← visit_line r (strip_cr line); visit_text rest broken r) b.
Proof.
  intros Hl. unfold visit_text. rewrite pieces_line by done. destruct (split_char 10 rest) as [|p ps] eqn:Hp; [by destruct (split_at_ne (N.eqb 10) rest)|].
  change (removelast (line :: p :: ps)) with (line :: removelast (p :: ps)). cbn [fmap list_fmap visit_lines].
  rewrite budgeted_assoc. apply budgeted_ext. intros r' b'. done.
Qed.

Section Loop.
Context (read_cap : N) (broken : bool) (Hcap : read_cap = max_record_bytes limits + 3).

Lemma turn_line line rest n s b : 10 ∉ line →
  line_turn limits read_cap broken visit (line ++ 10 :: rest, n, s) b =
    (r ← visit_line (n, s) (strip_cr line); mret (Continue (rest, r.1, r.2))) b.
Proof.
  intros Hl. unfold line_turn. rewrite read_until_line by done. case_decide as Hlen.
  - rewrite last_snoc, removelast_last. unfold visit_line. cbn [fst snd].
    destruct (max_record_bytes limits <? N.of_nat (length (strip_cr line))); [done|]. destruct (from_utf8 (strip_cr line)); [|done].
    unfold mbind, budgeted_bind. by destruct (visit s _ b) as [[b' [a|e]]| |].
  - assert (length (take (N.to_nat read_cap) line) = N.to_nat read_cap) as Htake by (rewrite length_take; lia).
    destruct (last (take (N.to_nat read_cap) line)) as [c|] eqn:Hlast.
    2: { apply last_None in Hlast. rewrite Hlast in Htake. simpl in Htake. lia. }
    assert (c ≠ 10) as Hc. { intros ->. apply Hl. eapply elem_of_take_inv. by apply last_Some_elem_of. }
    assert (max_record_bytes limits <? N.of_nat (length (strip_cr line)) = true) as Hover.
    { apply N.ltb_lt. pose proof (strip_cr_length line). lia. }
    unfold visit_line. rewrite Hover, Htake, N2Nat.id, N.eqb_refl. rewrite skip_until_line.
    2: { intros Hin. apply Hl. by eapply elem_of_drop_inv. }
    by rewrite not_feed.
Qed.
Lemma turn_rest s0 n s b : 10 ∉ s0 →
  line_turn limits read_cap broken visit (s0, n, s) b =
    (if broken then fails Unreadable
     else match s0 with
          | [] => mret (Break (n, s))
          | _ => r ← visit_line (n, s) s0; mret (Continue ([], r.1, r.2))
          end) b.
Proof.
  intros Hs. unfold line_turn. rewrite read_until_rest by done.
  assert (last (take (N.to_nat read_cap) s0) ≠ Some 10) as Hlast.
  { apply last_not. intros Hin. apply Hs. by eapply elem_of_take_inv. }
  assert (∀ {A} (x y : A), match last (take (N.to_nat read_cap) s0) with Some 10 => x | _ => y end = y) as Hmatch.
  { intros A x y. destruct (last _) as [c|]; [|done]. apply not_feed. congruence. }
  rewrite Hmatch. destruct (decide (N.to_nat read_cap ≤ length s0)%nat) as [Hlong|Hshort].
  - rewrite length_take, Nat.min_l by lia. rewrite N2Nat.id, N.eqb_refl.
    rewrite skip_until_rest. 2: { intros Hin. apply Hs. by eapply elem_of_drop_inv. }
    destruct broken; [done|]. destruct s0 as [|c s0]; [simpl in Hlong; lia|].
    unfold visit_line. destruct (N.ltb_spec (max_record_bytes limits) (N.of_nat (length (c :: s0)))); [done|lia].
  - rewrite take_ge, drop_ge by lia. destruct (N.eqb_spec (N.of_nat (length s0)) read_cap); [lia|].
    destruct broken; [done|]. destruct s0 as [|c s0]; [done|]. unfold visit_line. cbn [fst snd].
    destruct (max_record_bytes limits <? N.of_nat (length (c :: s0))); [done|]. destruct (from_utf8 (c :: s0)); [|done].
    unfold mbind, budgeted_bind. by destruct (visit s _ b) as [[b' [a|e]]| |].
Qed.

Lemma line_loop_text fuel : ∀ rest n s b, (length rest + 1 < fuel)%nat →
  line_loop limits fuel read_cap broken visit (rest, n, s) b = visit_text rest broken (n, s) b.
Proof.
  induction fuel as [|fuel IH]; intros rest n s b Hfuel; [lia|]. cbn [line_loop].
  destruct (first_line rest) as [Hrest|(line & rest' & -> & Hl)].
  - unfold visit_text. rewrite (pieces_none _ Hrest). cbn [removelast fmap list_fmap visit_lines last].
    assert (∀ f, (line_turn limits read_cap broken visit (rest, n, s) ≫= f) b =
      ((if broken then fails Unreadable
        else match rest with [] => mret (Break (n, s)) | _ => r ← visit_line (n, s) rest; mret (Continue ([], r.1, r.2)) end) ≫= f) b) as ->.
    { intros f. unfold mbind at 1 2, budgeted_bind at 1 2. by rewrite turn_rest. }
    destruct broken eqn:Hbroken; [done|]. destruct rest as [|c rest]; [done|].
    change (mret (n, s) ≫= λ r, visit_line r (c :: rest)) with (visit_line (n, s) (c :: rest)).
    rewrite budgeted_assoc. unfold mbind, budgeted_bind.
    destruct (visit_line (n, s) (c :: rest) b) as [[b' [[n' s']|e]]| |]; [|done..]. cbn [mret budgeted_ret fst snd].
    rewrite IH by (simpl in *; lia). done.
  - rewrite visit_text_line by done.
    assert (∀ f, (line_turn limits read_cap broken visit (line ++ 10 :: rest', n, s) ≫= f) b =
      ((r ← visit_line (n, s) (strip_cr line); mret (Continue (rest', r.1, r.2))) ≫= f) b) as ->.
    { intros f. unfold mbind at 1 2, budgeted_bind at 1 2. by rewrite turn_line. }
    rewrite budgeted_assoc. unfold mbind, budgeted_bind.
    destruct (visit_line (n, s) (strip_cr line) b) as [[b' [[n' s']|e]]| |]; [|done..]. cbn [mret budgeted_ret fst snd].
    apply IH. rewrite length_app in Hfuel. simpl in Hfuel. lia.
Qed.
End Loop.

Lemma lines_text p bytes broken s b :
  bytes_of p = Some (bytes, broken) → max_record_bytes limits + 3 ≤ u64_max →
  for_each_line limits p visit s b = visit_text bytes broken (0%nat, s) b.
Proof.
  intros Hp Hmax. unfold for_each_line. unfold checked_add. rewrite decide_True by exact Hmax.
  unfold running, or_panic, mbind, budgeted_bind. cbn [mbind exec_bind]. rewrite Hp. apply line_loop_text; [done|lia].
Qed.

(** C27: Reading a log line by line is reading its lines: without holding more than the limit and
    three bytes, the loop visits exactly the lines of the file that are within the limit, in
    order, each without its line feed and a carriage return before it, and the text after the last
    line feed; it counts the longer ones, ends at the first line that is not UTF-8 or that the
    visitor refuses, and gives no lines for a file whose reading fails before its end. *)
Theorem lines_exact p bytes broken s b :
  bytes_of p = Some (bytes, broken) → max_record_bytes limits + 3 ≤ u64_max →
  for_each_line limits p visit s b = visit_text bytes broken (0%nat, s) b ∧
  ∀ rest, N.of_nat (length (read_until (max_record_bytes limits + 3) rest).1) ≤ max_record_bytes limits + 3.
Proof.
  intros Hp Hmax. split.
  2: { intros rest. generalize (max_record_bytes limits + 3). induction rest as [|c rest IH]; intros cap; cbn [read_until]; [simpl; lia|].
    destruct (N.eqb_spec cap 0); [simpl; lia|]. destruct (c =? 10); [simpl; lia|]. specialize (IH (cap - 1)).
    destruct (read_until (cap - 1) rest) as [line after]. cbn [fst length] in *. lia. }
  by apply lines_text.
Qed.
End Lines.

(** A limit within three of the largest length makes the length of a read overflow. *)
Lemma lines_overflow `{Layout, LogLibraries, LogFiles} {S} limits p (visit : S → str → log_budgeted S) s b :
  u64_max < max_record_bytes limits + 3 → for_each_line limits p visit s b = Panic.
Proof.
  intros Hmax. unfold for_each_line, checked_add. rewrite decide_False by (change usize_max with u64_max; lia). done.
Qed.

(** ** Lemmas: what reading charges *)

Section Charges.
Context `{Layout, LogLibraries, LogFiles} (limits : LogLimits).

Lemma accounts_ext {A} base n (m m' : log_budgeted A) kept : (∀ b, m b = m' b) → accounts base n m' kept → accounts base n m kept.
Proof. intros Hm Hm' b Hu Hf. rewrite Hm. by apply Hm'. Qed.
Lemma accounts_extracts base ide calls f log : extracts ide calls f → accounts base (log_bytes log) (f log) log_bytes.
Proof.
  intros Hf b Hu Hb. eapply wp_mono; [by apply Hf|]. intros [b' [log'|e]] (Hl & Hb' & Hr); [|done].
  destruct Hr as [_ Hr]. split; [done|]. split; [done|]. lia.
Qed.
Lemma accounts_extract base ide v m bare log : accounts base (log_bytes log) (extract ide v m bare log) log_bytes.
Proof. eapply accounts_extracts, extract_spec. Qed.

Lemma accounts_lines {S} base (kept : S → N) (visit : S → str → log_budgeted S) p s :
  max_record_bytes limits + 3 ≤ u64_max → (∀ s line, accounts base (kept s) (visit s line) kept) →
  accounts base (kept s) (for_each_line limits p visit s) (λ r, kept r.2).
Proof.
  intros Hmax Hvisit.
  assert (∀ r line, accounts base (kept r.2) (visit_line limits visit r line) (λ r, kept r.2)) as Hline.
  { intros [n s'] line. unfold visit_line. destruct (_ <? _); [by apply accounts_ret|].
    destruct (from_utf8 line); [|apply accounts_fail]. eapply accounts_bind; [apply Hvisit|]. intros a. by apply accounts_ret. }
  destruct (bytes_of p) as [[bytes broken]|] eqn:Hp.
  2: { intros b Hu Hf. unfold for_each_line, checked_add. rewrite decide_True by exact Hmax. by rewrite Hp. }
  eapply accounts_ext; [intros b; by apply (lines_text limits visit p bytes broken)|]. unfold visit_text.
  eapply (accounts_bind _ _ _ _ (λ r, kept r.2)).
  - generalize (strip_cr <$> removelast (split_char 10 bytes)) as l. intros l. change (kept s) with (kept (0%nat, s).2).
    generalize (0%nat, s) as r. induction l as [|line l IH]; intros r; cbn [visit_lines]; [by apply accounts_ret|].
    eapply accounts_bind; [apply Hline|exact IH].
  - intros r. destruct broken; [apply accounts_fail|]. destruct (last _) as [[|c rest]|]; [by apply accounts_ret|apply Hline|by apply accounts_ret].
Qed.

Lemma accounts_codex base p : max_record_bytes limits + 3 ≤ u64_max → accounts base 0 (read_codex limits p) log_bytes.
Proof.
  intros Hmax. eapply (accounts_bind _ _ _ _ (λ r, log_bytes r.2.2)).
  - apply (accounts_lines base (λ r : Metadata * EventLog, log_bytes r.2) codex_line p (codex_metadata, empty_log) Hmax).
    intros [context log] line. unfold codex_line. case_bool_decide; [by apply accounts_ret|].
    destruct (from_str line) as [v|]; [|by apply accounts_ret]. destruct (is_some_and _ _).
    { destruct (get_value _ v ≫= as_object); by apply accounts_ret. }
    eapply accounts_bind; [apply accounts_extract|]. intros log'. by apply accounts_ret.
  - intros r. by apply accounts_ret.
Qed.
Lemma accounts_intellij base p : max_record_bytes limits + 3 ≤ u64_max → accounts base 0 (read_intellij limits p) log_bytes.
Proof.
  intros Hmax. eapply (accounts_bind _ _ _ _ (λ r, log_bytes r.2)).
  - apply (accounts_lines base log_bytes intellij_line p empty_log Hmax).
    intros log line. unfold intellij_line. destruct (header line) as [[time [rest|]]|]; [|by apply accounts_ret..].
    destruct (match bracketed rest with Some _ => _ | None => _ end) as [metadata rest'].
    destruct (find_map _ _) as [command|]; [|by apply accounts_ret]. case_bool_decide; [by apply accounts_ret|]. apply accounts_made.
  - intros r. by apply accounts_ret.
Qed.
Lemma accounts_document base p source : accounts base 0 (read_document limits p source) log_bytes.
Proof.
  unfold read_document. destruct (document p) as [[length v]|]; [|apply accounts_fail]. destruct (_ <? _); [apply accounts_fail|].
  set (tree := saturating_mul length JSON_TREE_FACTOR). eapply accounts_bind; [apply accounts_charge|]. intros [].
  destruct v as [v|]; [|apply accounts_fail]. destruct (workspace_metadata limits p) as [metadata oversized].
  assert (∀ log, accounts (base + tree) (log_bytes log) (extract (if bool_decide (source = VsCode) then lit "vscode" else lit "vscode-insiders") v metadata true log) log_bytes)
    as Hextract by (intros log; apply accounts_extract).
  intros b Hu Hf. eapply (budgeted_call _ _ b (λ b' log, limit b' = limit b ∧ fits b' ∧ used b' = base + tree + log_bytes log)
    (λ b' _, limit b' = limit b ∧ fits b')); [| |naive_solver].
  - eapply wp_mono; [apply Hextract; [|done]|].
    + change (log_bytes (add_oversized _ empty_log)) with 0. lia.
    + intros [b' [log|e]]; naive_solver.
  - intros b' log (Hl & Hf' & Hu'). unfold mbind, budgeted_bind, releasing. rewrite (release_spec _ (base + log_bytes log)) by lia.
    cbn. unfold fits in *. cbn. split_and!; lia.
Qed.

(** *** Databases *)

Definition entry_bytes {V} (size : V → N) (id : list N) (v : V) : N := blen id + size v + ENTRY_OVERHEAD_BYTES.
Definition map_bytes {V} (size : V → N) (map : gmap (list N) V) : N := sum ((λ '(id, v), entry_bytes size id v) <$> map_to_list map).
Definition known_bytes (known : Known) : N := map_bytes metadata_bytes (sessions known) + map_bytes agent_bytes (messages known).

Lemma map_bytes_new {V} (size : V → N) map id v : map !! id = None → map_bytes size (<[id := v]> map) = entry_bytes size id v + map_bytes size map.
Proof.
  intros Hid. unfold map_bytes. rewrite (sum_perm _ ((λ '(id, v), entry_bytes size id v) <$> (id, v) :: map_to_list map)); [done|].
  apply fmap_Permutation. by apply map_to_list_insert.
Qed.
Lemma map_bytes_insert {V} (size : V → N) map id v :
  map_bytes size (<[id := v]> map) + from_option (entry_bytes size id) 0 (map !! id) = map_bytes size map + entry_bytes size id v.
Proof.
  destruct (map !! id) as [w|] eqn:Hid; cbn [from_option]; [|rewrite map_bytes_new by done; lia].
  rewrite <- (insert_delete_eq map id v). rewrite map_bytes_new by apply lookup_delete_eq.
  pose proof (map_bytes_new size (delete id map) id w (lookup_delete_eq _ _)) as Hold. rewrite insert_delete_id in Hold by done. lia.
Qed.

Lemma accounts_remember {V} base n (size : V → N) map id v :
  accounts base (n + map_bytes size map) (remember size map id v) (λ map', n + map_bytes size map').
Proof.
  unfold remember. pose proof (map_bytes_insert size map id v) as Hinsert. fold (entry_bytes size id v).
  eapply accounts_bind; [apply accounts_charge|]. intros [].
  eapply (accounts_bind _ _ _ _ (λ _, n + map_bytes size (<[id := v]> map))); [|intros []; by apply accounts_ret].
  destruct (map !! id) as [w|]; cbn [from_option] in Hinsert.
  - fold (entry_bytes size id w). apply accounts_release. lia.
  - apply accounts_ret. lia.
Qed.

Lemma accounts_rows {S} base (kept : S → N) (visit : S → Object → log_budgeted S) d name s :
  (∀ s row, accounts base (kept s) (visit s row) kept) →
  accounts base (kept s) (for_each_database_row limits d name visit s) (λ r, kept r.2).
Proof.
  intros Hvisit. unfold for_each_database_row. destruct (table_columns d _) as [columns|]; [|apply accounts_fail].
  destruct (query_rows d _ _) as [l|]; [|apply accounts_fail]. generalize 0%nat as n. revert s.
  induction l as [|[r|] l IH]; intros s n; cbn [each_row]; [by apply accounts_ret| |apply accounts_fail].
  destruct (row_object limits columns r) as [[o|]|]; [|apply IH|apply accounts_fail].
  eapply accounts_bind; [apply Hvisit|]. intros s'. apply IH.
Qed.

Lemma accounts_metadata_tables base d names known log :
  accounts base (known_bytes known + log_bytes log) (metadata_tables limits d names known log) (λ r, known_bytes r.1 + log_bytes r.2).
Proof.
  revert known log. induction names as [|name names IH]; intros known log; cbn [metadata_tables]; [by apply accounts_ret|].
  destruct (is_metadata_table name); [|apply IH].
  eapply (accounts_bind _ _ _ _ (λ r, known_bytes r.2 + log_bytes log)).
  - apply (accounts_rows base (λ known, known_bytes known + log_bytes log)). clear known. intros known row. unfold metadata_row.
    destruct (field row _) as [id|]; [|by apply accounts_ret]. unfold known_bytes. destruct (starts_with _ name).
    + replace (map_bytes metadata_bytes (sessions known) + map_bytes agent_bytes (messages known) + log_bytes log)
        with (map_bytes agent_bytes (messages known) + log_bytes log + map_bytes metadata_bytes (sessions known)) by lia.
      eapply accounts_bind; [apply accounts_remember|]. intros map. apply accounts_ret. cbn [sessions messages]. lia.
    + replace (map_bytes metadata_bytes (sessions known) + map_bytes agent_bytes (messages known) + log_bytes log)
        with (map_bytes metadata_bytes (sessions known) + log_bytes log + map_bytes agent_bytes (messages known)) by lia.
      eapply accounts_bind; [apply accounts_remember|]. intros map. apply accounts_ret. cbn [sessions messages]. lia.
  - intros r. apply (IH r.2 (add_oversized r.1 log)).
Qed.
(** The first pass only counts. *)
Lemma metadata_tables_events d names known log b b' r :
  metadata_tables limits d names known log b = Done (b', inl r) → events r.2 = events log.
Proof.
  revert known log b. induction names as [|name names IH]; intros known log b; cbn [metadata_tables]; [by intros [= _ <-]|].
  destruct (is_metadata_table name); [|apply IH]. unfold mbind, budgeted_bind.
  destruct (for_each_database_row _ _ _ _ _ b) as [[b1 [r1|e]]| |]; [|done..]. intros Hr. by rewrite (IH _ _ _ Hr).
Qed.

Lemma accounts_record_row base known log row : accounts base (log_bytes log) (record_row known log row) log_bytes.
Proof.
  unfold record_row. destruct (excluded_record row); [by apply accounts_ret|].
  eapply (accounts_bind _ _ _ _ log_bytes).
  { destruct (existsb _ _); [apply accounts_extract|by apply accounts_ret]. }
  induction JSON_COLUMNS as [|key keys IH]; intros log'; cbn [payload_columns]; [by apply accounts_ret|].
  eapply accounts_bind; [|exact IH]. unfold payload_column.
  destruct (get (lit key) row) as [[| | |s|l|o]|]; try (by apply accounts_ret); [|apply accounts_extract..].
  destruct (_ || _); by apply accounts_ret.
Qed.
Lemma accounts_record_tables base d known names log :
  accounts base (log_bytes log) (record_tables limits d known names log) log_bytes.
Proof.
  revert log. induction names as [|name names IH]; intros log; cbn [record_tables]; [by apply accounts_ret|].
  eapply accounts_bind; [apply (accounts_rows base log_bytes); intros; apply accounts_record_row|]. intros r.
  apply (IH (add_oversized r.1 r.2)).
Qed.
Lemma current_used_bind {A} (f : N → log_budgeted A) b : (current_used ≫= f) b = f (used b) b.
Proof. done. Qed.
Lemma accounts_kilo base p : accounts base 0 (read_kilo limits p) log_bytes.
Proof.
  unfold read_kilo. destruct (database p) as [d|]; [|apply accounts_fail]. destruct (table_names d) as [names|]; [|apply accounts_fail].
  intros b Hu Hf. rewrite current_used_bind.
  eapply (budgeted_call _ _ b (λ b' r, limit b' = limit b ∧ fits b' ∧ used b' = used b + known_bytes r.1 ∧ log_bytes r.2 = 0)
    (λ b' _, limit b' = limit b ∧ fits b')); [| |naive_solver].
  - pose proof (accounts_metadata_tables (used b) d names {| sessions := ∅; messages := ∅ |} empty_log b) as Hm.
    change (known_bytes _ + log_bytes empty_log) with 0 in Hm. specialize (Hm ltac:(lia) Hf).
    destruct (metadata_tables limits d names _ empty_log b) as [[b' [r|e]]| |] eqn:Hrun; [|naive_solver|done..].
    destruct Hm as (Hl & Hf' & Hu'). apply metadata_tables_events in Hrun.
    assert (log_bytes r.2 = 0) as Hr by (unfold log_bytes; by rewrite Hrun). cbn [wp]. split_and!; [done|done|lia|done].
  - intros b' r (Hl & Hf' & Hu' & Hr). rewrite current_used_bind.
    eapply (budgeted_call _ _ b' (λ b'' log, limit b'' = limit b' ∧ fits b'' ∧ used b'' = used b' + log_bytes log)
      (λ b'' _, limit b'' = limit b' ∧ fits b'')); [| |intros b'' e [? ?]; cbn [wp]; split_and!; [congruence|done|done]].
    + pose proof (accounts_record_tables (used b') d r.1 names r.2 b') as Ht. rewrite Hr in Ht. specialize (Ht ltac:(lia) Hf').
      destruct (record_tables limits d r.1 names r.2 b') as [[b'' [log|e]]| |]; [| |done..]; cbn [wp]; destruct Ht as (? & ? & ?); by split_and!.
    + intros b'' log (Hl' & Hf'' & Hu''). unfold mbind, budgeted_bind, releasing, saturating_sub. rewrite (release_spec _ (base + log_bytes log)) by lia.
      cbn [wp mret budgeted_ret limit used restore]. unfold fits in *. cbn [limit used restore]. split_and!; [congruence|lia|lia|done].
Qed.

Lemma accounts_read_as base p source :
  max_record_bytes limits + 3 ≤ u64_max → source ≠ Auto → accounts base 0 (read_as limits p source) log_bytes.
Proof.
  intros Hmax Hs. destruct source; cbn [read_as]; [done|apply accounts_document|apply accounts_document|by apply accounts_codex|
    apply accounts_kilo|by apply accounts_intellij].
Qed.
Lemma infer_source_found p : infer_source p ≠ Some Auto.
Proof. unfold infer_source. repeat (case_match; try done). Qed.
Lemma map_events_bytes f log : (∀ e, event_bytes (f e) = event_bytes e) → log_bytes (map_events f log) = log_bytes log.
Proof.
  intros Hf. unfold log_bytes, retained_bytes, map_events. cbn [events]. f_equal. rewrite <- list_fmap_compose.
  apply list_fmap_ext. intros _ e _. apply Hf.
Qed.
End Charges.

Lemma read_spec `{Layout, LogLibraries, LogFiles} limits p source b :
  max_record_bytes limits + 3 ≤ u64_max → used b ≤ limit b → limit b ≤ usize_max →
  wp (read limits p source b) (λ '(b', r), limit b' = limit b ∧ used b' ≤ limit b' ∧
    match r with
    | inl log => used b' = used b + retained_bytes (events log) ∧
        ∃ found, found ≠ Auto ∧ (source = Auto → infer_source p = Some found) ∧ (source ≠ Auto → found = source) ∧
          Forall (λ e, provenance e = source_identity p found) (events log)
    | inr _ => used b' = used b
    end).
Proof.
  intros Hmax Hfit Hlimit. unfold read, read_source.
  set (chosen := if bool_decide (source = Auto) then infer_source p else Some source).
  assert (∀ found, chosen = Some found → found ≠ Auto ∧ (source = Auto → infer_source p = Some found) ∧ (source ≠ Auto → found = source)) as Hchosen.
  { intros found. unfold chosen. case_bool_decide as Hs; [|naive_solver]. intros Hf. split_and!; [|done|done].
    intros ->. by apply (infer_source_found p). }
  destruct chosen as [found|]; [|by split_and!]. destruct (Hchosen found eq_refl) as (Hauto & Hinfer & Hgiven).
  pose proof (accounts_read_as limits (used b) p found Hmax Hauto b ltac:(lia) (conj Hfit Hlimit)) as Hread.
  unfold mbind at 2, budgeted_bind at 1. destruct (read_as limits p found b) as [[b' [log|e]]| |]; [| |done..].
  - destruct Hread as (Hl & [Hf _] & Hu). cbn [mbind exec_bind mret budgeted_ret wp]. split_and!; [done|done| |].
    + fold (log_bytes (map_events (with_provenance (source_identity p found)) log)). by rewrite map_events_bytes.
    + exists found. split_and!; [done..|]. apply Forall_fmap, Forall_forall. done.
  - destruct Hread as (Hl & [Hf _] & _). cbn. split_and!; [done|lia|done].
Qed.

(** C28: The budget is exact after every log: a log that was read leaves exactly what its events
    retain charged, whatever trees, sessions and messages were charged while it was read; a log
    that could not be read, for whatever reason, leaves the budget as it was.  The budget stays
    within its limit throughout, reading always ends, and every event has the provenance of its
    log. *)
Theorem read_charges_exact `{Layout, LogLibraries, LogFiles} limits p source b :
  max_record_bytes limits + 3 ≤ u64_max → used b ≤ limit b → limit b ≤ usize_max →
  wp (read limits p source b) (λ '(b', r), limit b' = limit b ∧ used b' ≤ limit b' ∧
    match r with
    | inl log => used b' = used b + retained_bytes (events log) ∧
        ∃ found, found ≠ Auto ∧ (source = Auto → infer_source p = Some found) ∧ (source ≠ Auto → found = source) ∧
          Forall (λ e, provenance e = source_identity p found) (events log)
    | inr _ => used b' = used b
    end).
Proof. apply read_spec. Qed.

(** C26: The commands of a log are the recorded calls of the shell, and all of them: an event is
    added exactly for each object that arrays and the containers of records lead to and that says
    that the shell was called with a command, in the order of the document; such an object is not
    excluded by its role or kind, its tool is a shell and the call was neither cancelled nor
    refused; calls without a command are counted; and every event is charged, or the budget does
    not hold them all. *)
Theorem extract_exact `{Layout, LogLibraries, LogFiles} ide v inherited bare log b :
  used b ≤ limit b → limit b ≤ usize_max →
  wp (extract ide v inherited bare log b) (λ '(b', r), limit b' = limit b ∧
    match r with
    | inl log' => extends ide (found v inherited bare) log log' ∧ used b' + log_bytes log = used b + log_bytes log'
    | inr e => e = Exceeded StateExceeded ∧
        ∃ log', extends ide (found v inherited bare) log log' ∧ limit b + log_bytes log < used b + log_bytes log'
    end) ∧
  ∀ tool command m id, Some (tool, command, m, id) ∈ found v inherited bare ↔
    ∃ o m' bare', reaches v inherited bare o m' bare' ∧ recorded m' bare' o = Invocation tool command m id ∧
      excluded_record o = false ∧ is_invocation bare' o = true ∧ is_shell_tool tool = true ∧ trim command ≠ [] ∧
      did_not_run o (get (lit "state") o ≫= as_object) = false.
Proof.
  intros Hfit Hlimit. split.
  - eapply wp_mono; [by apply extract_spec|]. intros [b' r] (Hl & _ & Hr). by destruct r.
  - intros tool command m id. rewrite found_reaches. split; intros (o & m' & bare' & Hr & He); exists o, m', bare'; [|naive_solver].
    split; [done|]. split; [done|]. revert He. unfold recorded. destruct (excluded_record o); [done|].
    destruct (is_invocation bare' o); cbn [negb]; [|done]. destruct (or_else _ _) as [t|]; [|done].
    destruct (is_shell_tool t) eqn:Hshell; cbn [negb orb]; [|done]. destruct (did_not_run o _); [done|].
    destruct (or_else _ _) as [c|]; [|done]. case_bool_decide as Hc; [done|]. intros [= <- <- _ _]. done.
Qed.

(** ** Samples *)

#[local] Existing Instance sample_layout.
Definition text_field (key value : string) : str * Value := (lit key, VString (lit value)).
Definition sample_call (tool cmd : string) : Value :=
  VObject [text_field "type" "function_call"; text_field "name" tool; text_field "call_id" "1";
           (lit "arguments", VObject [text_field "command" cmd])].
(** A shell call and a patch in a message, which also holds an output that quotes a call. *)
Definition sample_record : Value :=
  VObject [text_field "cwd" "/p";
           (lit "payload", VArray [sample_call "shell" "ls"; sample_call "apply_patch" "rm";
              VObject [text_field "type" "function_call_output"; (lit "content", sample_call "shell" "rm")]])].
#[local] Instance sample_libraries : LogLibraries := {|
  from_str s := if bool_decide (s = lit "{}") then Some sample_record else None;
  header _ := None;
|}.
#[local] Instance sample_files : LogFiles := {|
  document _ := None;
  bytes_of p := if bool_decide (p = [lit "a.jsonl"]) then Some (lit "{}" ++ [13; 10] ++ lit "broken", false) else None;
  database _ := None;
  to_string_lossy p := lit "/" ++ join (lit "/") p;
|}.
Definition sample_limits : LogLimits := {| max_input_bytes := 100; max_record_bytes := 4; max_state_bytes := 1000 |}.
Definition charges (l : list string) : StateBudget := {| limit := 1000; used := N.of_nat (length l) |}.
Definition the_event : CommandEvent :=
  {| timestamp := None; ide := lit "codex"; agent := Some (lit "codex"); project := None; session := None; tool := lit "shell";
     cwd := Some (lit "/p"); command := lit "ls"; category := Shell; call_id := Some (lit "1"); maven := None;
     provenance := lit "/a.jsonl" |}.

Lemma read_charges_exact_witness :
  ∃ b, read sample_limits [lit "a.jsonl"] Auto (charges ["x"]%string) =
    Done (b, inl {| events := [the_event]; skipped_records := 0; oversized_records := 1 |}) ∧
  used b = 1 + event_bytes the_event.
Proof.
  assert (read sample_limits [lit "a.jsonl"] Auto (charges ["x"]%string) =
    Done (restore (1 + event_bytes the_event) (charges []), inl {| events := [the_event]; skipped_records := 0; oversized_records := 1 |}))
    as Hrun by (vm_compute; reflexivity).
  pose proof (read_charges_exact sample_limits [lit "a.jsonl"] Auto (charges ["x"]%string)) as Hexact.
  eexists. split; [exact Hrun|]. rewrite Hrun in Hexact.
  destruct Hexact as (_ & _ & -> & _); [vm_compute; discriminate..|]. cbn [events]. rewrite retained_cons. change (retained_bytes []) with 0.
  change (used (charges _)) with 1. lia.
Defined.

Lemma extract_exact_witness :
  wp (extract (lit "codex") sample_record no_metadata true empty_log (charges [])) (λ '(b, r),
    limit b = 1000 ∧ match r with inl log => used b + 0 = 0 + log_bytes log | inr _ => True end) ∧
  ∃ o m bare, reaches sample_record no_metadata true o m bare ∧ is_invocation bare o = true.
Proof.
  destruct (extract_exact (lit "codex") sample_record no_metadata true empty_log (charges [])) as [Hrun Hfound];
    [vm_compute; discriminate..|]. split.
  - eapply wp_mono; [exact Hrun|]. intros [b [log|e]] [Hl Hr]; [split; [done|apply Hr]|done].
  - destruct (Hfound (lit "shell") (lit "ls") {| meta_timestamp := None; meta_agent := None; meta_project := None; meta_session := None; meta_cwd := Some (lit "/p") |} (Some (lit "1"))) as [Hcall _].
    destruct Hcall as (o & m & bare & Hreach & _ & _ & Hinvocation & _); [vm_compute; by left|]. by exists o, m, bare.
Defined.

Lemma lines_exact_witness :
  for_each_line sample_limits [lit "a.jsonl"] (λ s line, mret (s ++ [line])) [] (charges []) =
    Done (charges [], inl (1%nat, [lit "{}"])).
Proof.
  destruct (lines_exact sample_limits (λ s line, mret (s ++ [line])) [lit "a.jsonl"] (lit "{}" ++ [13; 10] ++ lit "broken") false [] (charges []))
    as [-> _]; [reflexivity|vm_compute; discriminate|vm_compute; reflexivity].
Defined.
