(* ===== verification/LogPrivacy.v ===== *)
(** * LogPrivacy: what a report of agent logs shows

    Models [src/log_analysis/privacy.rs]: the secrets, paths, names and control characters that
    are replaced in every exported field of an event, the tables of what is replaced, and the
    budget they are charged to.  The expressions of the [regex] crate are the class
    [PrivacyPatterns].  Offsets into a text count its characters: all of them are ends of matches
    or of characters. *)

From S2P Require Import Prelude.
From S2P Require Import Text.
From S2P Require Import TextSearch.
From S2P Require Import Ordering.
From S2P Require Import Shell.
From S2P Require Import LogEvents.
From S2P Require Import Redaction.

Open Scope N_scope.

(** ** The patterns *)

Class PrivacyPatterns := {
  HOME_PATH : Pattern;
  SECRET_PREFIX : Pattern;
  URL : Pattern;
  TOKEN : Pattern;
  (** A user name between word boundaries. *)
  user_pattern : str → Pattern;
}.
(** [Regex::replace_all]. *)
Definition replace_matches (p : Pattern) (f : Match → str) (text : str) : str :=
  mjoin ((λ m, gap m ++ f m) <$> segments p text) ++ tail p text.

(** ** Secret values *)

(** The quote a shell is in, and whether the next character is escaped. *)
Definition Quoting : Type := option char * bool.
Definition single_quote : char := ch "'".
Definition quote_step (s : Quoting) (c : char) : Quoting :=
  let '(quote, escaped) := s in
  if escaped then (quote, false)
  else if (c =? ch "\") && negb (bool_decide (quote = Some single_quote)) then (quote, true)
  else if bool_decide (Some c = quote) then (None, false)
  else if negb (is_some quote) && is_quote c then (Some c, false)
  else (quote, false).
Definition quote_before (text : str) : option char := (foldl quote_step (None, false) text).1.

Definition word_end (c : char) : bool := is_whitespace c || is_any (lit ";&|<>") c.
(** An unquoted character that ends a word. *)
Definition ends_value (s : Quoting) (c : char) : bool :=
  negb s.2 && negb (is_some s.1) && negb (c =? ch "\") && negb (is_quote c) && word_end c.
Fixpoint value_end (s : Quoting) (text : str) : nat :=
  match text with
  | [] => 0
  | c :: text => if ends_value s c then 0%nat else S (value_end (quote_step s c) text)
  end.
Definition secret_value_end (text : str) (initial_quote : option char) : nat := value_end (initial_quote, false) text.

(** [find_iter]: the start and the end of every match. *)
Fixpoint match_ranges (at_ : nat) (l : list Match) : list (nat * nat) :=
  match l with
  | [] => []
  | m :: l =>
      let start := (at_ + length (gap m))%nat in
      let stop := (start + length (whole m))%nat in
      (start, stop) :: match_ranges stop l
  end.
Definition SECRET : str := lit "<REDACTED>".
Fixpoint hide_values (text : str) (l : list (nat * nat)) (copied : nat) (output : str) : str :=
  match l with
  | [] => output ++ drop copied text
  | (start, stop) :: l =>
      if (start <? copied)%nat then hide_values text l copied output
      else
        let outer_quote := quote_before (take stop text) in
        hide_values text l (stop + secret_value_end (drop stop text) outer_quote)
          (output ++ drop copied (take stop text) ++ SECRET ++ option_list outer_quote)
  end.

Section Redact.
Context `{PrivacyPatterns}.

Definition redact_secret_values (text : str) : str := hide_values text (match_ranges 0 (segments SECRET_PREFIX text)) 0 [].

(** ** Texts *)

Definition is_control (c : char) : bool := (c <? 32) || between 127 c 159.
Definition escape_control (c : char) : str :=
  if c =? 10 then lit "\n"
  else if c =? 13 then lit "\r"
  else if c =? 9 then lit "\t"
  else if is_control c then lit "\u{" ++ to_hex c ++ lit "}"
  else [c].

Definition redact (replacements : list (str * str)) (usernames : list str) (text : str) : str :=
  let text := redact_secret_values text in
  let text := replace_matches URL (λ m, default [] (group 1 m) ++ lit "<CREDENTIALS>@") text in
  let text := replace_matches TOKEN (λ _, SECRET) text in
  let text := foldl (λ text '(pattern, replacement), if bool_decide (pattern = []) then text else replace pattern replacement text)
                text replacements in
  let text := replace_matches HOME_PATH (λ _, lit "<HOME>") text in
  let text := foldl (λ text user, replace_matches (user_pattern user) (λ _, lit "<USER>") text) text usernames in
  text ≫= escape_control.

(** ** Events *)

Definition SENSITIVE_PARTS : list str :=
  lit <$> ["password"; "passwd"; "token"; "secret"; "credential"; "authorization"; "apikey"; "accesskey"; "privatekey"]%string.
Definition sensitive_key (key : str) : bool :=
  let key := filter (λ c, c ≠ ch "_" ∧ c ≠ ch "-") (ascii_lower key) in
  existsb (λ part, contains part key) SENSITIVE_PARTS.

Record Tables := {
  replacements : list (str * str);
  usernames : list str;
}.

Definition redact_property (t : Tables) (kv : str * str) : str * str :=
  let hide := redact (replacements t) (usernames t) in
  (hide kv.1, if sensitive_key kv.1 then SECRET else hide kv.2).
Definition redact_maven (t : Tables) (m : MavenCommand) : MavenCommand :=
  let hide := redact (replacements t) (usernames t) in
  {| executable := hide (executable m); lifecycle_goals := hide <$> lifecycle_goals m; plugin_goals := hide <$> plugin_goals m;
     modules := hide <$> modules m; also_make := also_make m; also_make_dependents := also_make_dependents m;
     resume_from := hide <$> resume_from m; pom_file := hide <$> pom_file m; tests := hide <$> tests m; profiles := hide <$> profiles m;
     (** Collecting keeps the last of two equal keys. *)
     properties := foldl (λ out kv, <[kv.1 := kv.2]> out) ∅ (redact_property t <$> sorted_entries (properties m)) |}.
Definition redact_event (t : Tables) (e : CommandEvent) : CommandEvent :=
  let hide := redact (replacements t) (usernames t) in
  {| timestamp := hide <$> timestamp e; ide := hide (ide e); agent := hide <$> agent e; project := hide <$> project e;
     session := hide <$> session e; tool := hide (tool e); cwd := hide <$> cwd e; command := hide (command e);
     category := category e; call_id := hide <$> call_id e; maven := redact_maven t <$> maven e; provenance := provenance e |}.

(** ** The tables *)

Definition is_path (value : str) : bool :=
  starts_with (lit "/") value || starts_with (lit "file://") value
  || (bool_decide (utf8 value !! 1%nat = Some (ch ":")) && is_some_and (is_any (lit "/\")) (utf8 value !! 2%nat)).

(** The tables while they are filled, and what is charged for them; on failure, only that. *)
Record Filling := {
  found_replacements : list (str * str);
  found_users : list str;
  table_charge : N;
}.
Definition filling (A : Type) : Type := budgeted N A.
Definition charge_table (bytes charged : N) : filling N := λ b,
  match charge bytes b with Some b => Done (b, inl (charged + bytes)) | None => Done (b, inr charged) end.
Definition add_replacement (f : Filling) (entry : str * str) : budgeted N Filling :=
  if bool_decide (entry ∈ found_replacements f) then mret f
  else
    charged ← charge_table (blen entry.1 + blen entry.2 + ENTRY_OVERHEAD_BYTES) (table_charge f);
    mret {| found_replacements := set_insert entry (found_replacements f); found_users := found_users f; table_charge := charged |}.
Definition add_user (f : Filling) (user : str) : budgeted N Filling :=
  if bool_decide (user ∈ found_users f) then mret f
  else
    charged ← charge_table (blen user + ENTRY_OVERHEAD_BYTES) (table_charge f);
    mret {| found_replacements := found_replacements f; found_users := set_insert user (found_users f); table_charge := charged |}.
Fixpoint add_all {A} (add : Filling → A → budgeted N Filling) (l : list A) (f : Filling) : budgeted N Filling :=
  match l with
  | [] => mret f
  | a :: l => f ← add f a; add_all add l f
  end.

Definition WORKSPACE : str := lit "<WORKSPACE>".
Definition home_users (text : str) : list str := omap (group 1) (segments HOME_PATH text).
Definition event_users (e : CommandEvent) : list str :=
  [command e; default [] (cwd e); default [] (project e)] ≫= home_users.
Definition event_paths (e : CommandEvent) : list (str * str) :=
  (λ p, (p, WORKSPACE)) <$> filter (λ p, is_path p = true ∧ 1 < blen p) (omap id [project e; cwd e]).

(** The users of the environment are found with those of the first event. *)
Fixpoint add_events (pending : list str) (l : list CommandEvent) (f : Filling) : budgeted N Filling :=
  match l with
  | [] => mret f
  | e :: l =>
      f ← add_all add_user (pending ++ event_users e) f;
      f ← add_all add_replacement (event_paths e) f;
      add_events [] l f
  end.

Definition longest_first (l : list (str * str)) : list (str * str) := sort_by_key (λ r, (Rev (blen r.1), r)) l.

Section Discover.
Context (var : string → option str).

Definition home_entries : list (str * str) :=
  (λ home, (home, lit "<HOME>")) <$> filter (λ home, 1 < blen home) (omap var ["HOME"; "USERPROFILE"]%string).
Definition environment_users : list str := filter (λ user, user ≠ []) (omap var ["USER"; "USERNAME"]%string).
Definition last_entries (workspace : option str) (extra_patterns : list str) : list (str * str) :=
  option_list ((λ w, (w, WORKSPACE)) <$> workspace) ++ ((λ p, (p, SECRET)) <$> filter (λ p, p ≠ []) extra_patterns).

Definition discover (l : list CommandEvent) (workspace : option str) (extra_patterns : list str) : budgeted N (Tables * N) :=
  f ← add_all add_replacement home_entries {| found_replacements := []; found_users := []; table_charge := 0 |};
  f ← add_events environment_users l f;
  f ← add_all add_replacement (last_entries workspace extra_patterns) f;
  mret ({| replacements := longest_first (found_replacements f); usernames := found_users f |}, table_charge f).

Context `{Layout}.
Fixpoint redact_each (t : Tables) (l : list CommandEvent) : budgeted LimitExceeded (list CommandEvent) :=
  match l with
  | [] => mret []
  | e :: l =>
      let before := event_bytes e in
      let e := redact_event t e in
      let after := event_bytes e in
      _ ← (if before <? after then charging StateExceeded (after - before) else releasing (before - after));
      l ← redact_each t l;
      mret (e :: l)
  end.
Definition redact_events_within (l : list CommandEvent) (workspace : option str) (extra_patterns : list str)
    : budgeted LimitExceeded (list CommandEvent) := λ b,
  '(b, r) ← discover l workspace extra_patterns b;
  match r with
  | inr charged => Done (release charged b, inr StateExceeded)
  | inl (t, charged) =>
      '(b, r) ← redact_each t l b;
      Done (release charged b, r)
  end.
End Discover.
End Redact.

(** ** Lemmas: secret values *)

Lemma value_end_spec s text :
  let n := value_end s text in
  (n ≤ length text)%nat ∧
  (∀ k c, (k < n)%nat → text !! k = Some c → ends_value (foldl quote_step s (take k text)) c = false) ∧
  (n = length text ∨ ∃ c, text !! n = Some c ∧ ends_value (foldl quote_step s (take n text)) c = true).
Proof.
  revert s. induction text as [|c text IH]; intros s; cbn [value_end]; [split_and!; [simpl; lia|intros; lia|by left]|].
  destruct (ends_value s c) eqn:Hc.
  - split_and!; [lia|intros; lia|]. right. by exists c.
  - destruct (IH (quote_step s c)) as (Hlen & Hbefore & Hend). split_and!; [simpl; lia| |].
    + intros [|k] d Hk Hd; [by injection Hd as <-|]. apply (Hbefore k d); [lia|done].
    + destruct Hend as [Hend|(d & Hd & Hend)]; [left; simpl; lia|]. right. by exists d.
Qed.

(** The rest of a shell word at a place of a text, with the quotes that are open there. *)
Record value_at (text : str) (start stop : nat) : Prop := {
  value_range : (start ≤ stop)%nat ∧ ((start ≤ length text)%nat → (stop ≤ length text)%nat);
  value_inside : ∀ k c, (start ≤ k < stop)%nat → text !! k = Some c →
    ends_value (foldl quote_step (quote_before (take start text), false) (drop start (take k text))) c = false;
  value_stop : (length text ≤ stop)%nat ∨ ∃ c, text !! stop = Some c ∧
    ends_value (foldl quote_step (quote_before (take start text), false) (drop start (take stop text))) c = true;
}.
Lemma secret_value_at text start :
  value_at text start (start + secret_value_end (drop start text) (quote_before (take start text))).
Proof.
  unfold secret_value_end. destruct (value_end_spec (quote_before (take start text), false) (drop start text)) as (Hlen & Hbefore & Hend).
  rewrite length_drop in *. set (n := value_end _ _) in *.
  assert (∀ k, drop start (take (start + k) text) = take k (drop start text)) as Htake by (intros k; by rewrite take_drop_commute).
  split.
  - lia.
  - intros k c Hk Hc. replace k with (start + (k - start))%nat in Hc |- * by lia. rewrite Htake.
    apply Hbefore; [lia|]. by rewrite lookup_drop.
  - destruct Hend as [Hend|(c & Hc & Hend)]; [left; lia|]. right. exists c. rewrite lookup_drop in Hc. split; [done|]. by rewrite Htake.
Qed.

(** A text with some of its ranges replaced, each by the mark and the quote that was open. *)
Fixpoint with_hidden (text : str) (copied : nat) (cuts : list (nat * nat)) : str :=
  match cuts with
  | [] => drop copied text
  | (start, stop) :: cuts =>
      drop copied (take start text) ++ SECRET ++ option_list (quote_before (take start text)) ++ with_hidden text stop cuts
  end.
(** Ranges in order that hide the value after every match: each is the value at the end of a
    match, and a match either has its value hidden or begins in a hidden one. *)
Record hides (text : str) (ranges cuts : list (nat * nat)) : Prop := {
  hides_values : ∀ start stop, (start, stop) ∈ cuts → value_at text start stop ∧ ∃ first, (first, start) ∈ ranges;
  hides_all : ∀ first start, (first, start) ∈ ranges → ∃ s e, (s, e) ∈ cuts ∧ (s = start ∨ (s ≤ first < e)%nat);
  hides_sorted : StronglySorted (λ c d, (c.2 ≤ d.1)%nat) cuts;
}.

(** Matches follow each other. *)
Fixpoint ordered_from (at_ : nat) (ranges : list (nat * nat)) : Prop :=
  match ranges with
  | [] => True
  | (start, stop) :: ranges => (at_ ≤ start ≤ stop)%nat ∧ ordered_from stop ranges
  end.
Lemma match_ranges_ordered at_ l : ordered_from at_ (match_ranges at_ l).
Proof. revert at_. induction l as [|m l IH]; intros at_; cbn; [done|]. split; [lia|apply IH]. Qed.

Lemma hide_values_spec text ranges : ∀ copied from output,
  ordered_from from ranges →
  ∃ cuts, hide_values text ranges copied output = output ++ with_hidden text copied cuts ∧
    (∀ start stop, (start, stop) ∈ cuts → (copied ≤ start ∧ from ≤ start)%nat ∧ value_at text start stop ∧ ∃ first, (first, start) ∈ ranges) ∧
    (∀ first start, (first, start) ∈ ranges → (from ≤ first < copied)%nat ∨ ∃ s e, (s, e) ∈ cuts ∧ (s = start ∨ (s ≤ first < e)%nat)) ∧
    StronglySorted (λ c d, (c.2 ≤ d.1)%nat) cuts.
Proof.
  induction ranges as [|[first start] ranges IH]; intros copied from output Hordered; cbn [hide_values].
  { exists []. split_and!; [done| | |constructor]; intros a b Hin; by apply elem_of_nil in Hin. }
  destruct Hordered as [Hfirst Hordered]. destruct (Nat.ltb_spec first copied) as [Hlt|Hge].
  - destruct (IH copied start output Hordered) as (cuts & -> & Hcuts & Hall & Hsorted). exists cuts. split; [done|]. split; [|split; [|done]].
    + intros s e Hin. destruct (Hcuts s e Hin) as ([? ?] & Hvalue & f & Hf). split; [lia|]. split; [done|]. exists f. by right.
    + intros f s [[= -> ->]|Hin]%elem_of_cons; [left; lia|]. destruct (Hall f s Hin) as [?|?]; [left; lia|by right].
  - set (stop := (start + secret_value_end (drop start text) (quote_before (take start text)))%nat).
    pose proof (secret_value_at text start) as Hvalue. fold stop in Hvalue. destruct (value_range _ _ _ Hvalue) as [Hrange _].
    destruct (IH stop start (output ++ drop copied (take start text) ++ SECRET ++ option_list (quote_before (take start text))) Hordered)
      as (cuts & -> & Hcuts & Hall & Hsorted).
    exists ((start, stop) :: cuts). split; [cbn [with_hidden]; by rewrite <- !app_assoc|]. split; [|split].
    + intros s e [[= -> ->]|Hin]%elem_of_cons.
      * split; [lia|]. split; [exact Hvalue|]. exists first. by left.
      * destruct (Hcuts s e Hin) as ([? ?] & Hv & f & Hf). split; [lia|]. split; [done|]. exists f. by right.
    + intros f s [[= -> ->]|Hin]%elem_of_cons; [right; exists start, stop; split; [by left|by left]|].
      destruct (Hall f s Hin) as [?|(s' & e' & Hin' & ?)]; right; [exists start, stop; split; [by left|right; lia]|].
      exists s', e'. split; [by right|done].
    + constructor; [done|]. apply Forall_forall. intros [s e] Hin. apply Hcuts in Hin as [[? _] _]. done.
Qed.

Section Texts.
Context `{PrivacyPatterns}.

Lemma secret_values_hidden text :
  ∃ cuts, redact_secret_values text = with_hidden text 0 cuts ∧ hides text (match_ranges 0 (segments SECRET_PREFIX text)) cuts.
Proof.
  destruct (hide_values_spec text (match_ranges 0 (segments SECRET_PREFIX text)) 0 0 [] (match_ranges_ordered 0 _))
    as (cuts & Heq & Hcuts & Hall & Hsorted).
  exists cuts. split; [exact Heq|]. split; [|intros f s Hin; destruct (Hall f s Hin) as [?|?]; [lia|done]|done].
  intros s e Hin. apply Hcuts in Hin as [_ ?]. done.
Qed.

(** ** Lemmas: what is shown *)

(** No control characters: one record on one line, safe to show in a terminal. *)
Definition printable (text : str) : Prop := Forall (λ c, is_control c = false) text.
Lemma escape_control_printable c : printable (escape_control c).
Proof.
  unfold escape_control, printable. destruct (c =? 10); [by repeat constructor|]. destruct (c =? 13); [by repeat constructor|].
  destruct (c =? 9); [by repeat constructor|]. destruct (is_control c) eqn:Hc; [|by repeat constructor].
  apply Forall_app. split; [by repeat constructor|]. apply Forall_app. split; [|by repeat constructor].
  apply digits_from_Forall; [done| |constructor]. intros d Hd. unfold is_control, digit_char, between.
  apply orb_false_iff. split; [apply N.ltb_ge; case_match; lia|]. apply andb_false_iff. left. apply N.leb_gt. case_match; lia.
Qed.
Lemma redact_printable reps users text : printable (redact reps users text).
Proof.
  unfold redact, printable. apply Forall_bind. apply Forall_forall. intros c _. apply escape_control_printable.
Qed.
End Texts.

(** ** Lemmas: events *)

Lemma collected_from {V} (l : list (list N * V)) (m : gmap (list N) V) k v :
  foldl (λ out kv, <[kv.1 := kv.2]> out) m l !! k = Some v → (k, v) ∈ l ∨ m !! k = Some v.
Proof.
  revert m. induction l as [|[k' v'] l IH]; intros m; [by right|]. cbn [foldl fst snd]. intros [Hin|Hin]%IH; [left; by right|].
  destruct (decide (k = k')) as [->|Hne]; [rewrite lookup_insert_eq in Hin; injection Hin as ->; left; by left|].
  rewrite lookup_insert_ne in Hin by done. by right.
Qed.
Lemma collected_all {V} (l : list (list N * V)) (m : gmap (list N) V) k :
  k ∈ l.*1 ∨ is_Some (m !! k) → is_Some (foldl (λ out kv, <[kv.1 := kv.2]> out) m l !! k).
Proof.
  revert m. induction l as [|[k' v'] l IH]; intros m; cbn [foldl fst snd fmap list_fmap].
  { intros [Hin|?]; [by apply elem_of_nil in Hin|done]. }
  intros Hk. apply IH. destruct (decide (k = k')) as [->|Hne]; [right; by rewrite lookup_insert_eq|].
  rewrite lookup_insert_ne by done. destruct Hk as [[?|Hk]%elem_of_cons|Hk]; [done|by left|by right].
Qed.

Section Events.
Context `{PrivacyPatterns}.

Definition maven_texts (m : MavenCommand) : list str :=
  [executable m] ++ lifecycle_goals m ++ plugin_goals m ++ modules m ++ option_list (resume_from m) ++ option_list (pom_file m)
  ++ tests m ++ profiles m ++ (map_to_list (properties m) ≫= λ '(k, v), [k; v]).
(** The texts of an event that a report may show. *)
Definition event_texts (e : CommandEvent) : list str :=
  [ide e; tool e; command e] ++ ([timestamp e; agent e; project e; session e; cwd e; call_id e] ≫= option_list)
  ++ from_option maven_texts [] (maven e).

(** What is shown of the properties of a command: each with its name redacted, and the value of a
    sensitive name replaced by the mark, of any other redacted. *)
Definition shown_properties (t : Tables) (shown original : gmap (list N) (list N)) : Prop :=
  (∀ k v, shown !! k = Some v → ∃ key value, original !! key = Some value ∧ (k, v) = redact_property t (key, value)) ∧
  (∀ key, is_Some (original !! key) → is_Some (shown !! redact (replacements t) (usernames t) key)).
Lemma redact_properties_shown t m : shown_properties t (properties (redact_maven t m)) (properties m).
Proof.
  cbn [properties redact_maven]. split.
  - intros k v [Hin|Hin]%collected_from; [|by rewrite lookup_empty in Hin].
    apply list_elem_of_fmap in Hin as ([key value] & Heq & Hin%elem_of_sorted_entries). by exists key, value.
  - intros key [value Hvalue]. apply collected_all. left. rewrite <- list_fmap_compose. apply list_elem_of_fmap.
    exists (key, value). split; [done|]. by apply elem_of_sorted_entries.
Qed.

Lemma printable_check text : forallb (λ c, negb (is_control c)) text = true → printable text.
Proof.
  intros Hc. apply Forall_forall. intros c Hin. rewrite forallb_forall in Hc. apply negb_true_iff, Hc. by apply list_elem_of_In.
Qed.
Lemma redact_property_printable t kv : printable (redact_property t kv).1 ∧ printable (redact_property t kv).2.
Proof.
  unfold redact_property. cbn [fst snd]. split; [apply redact_printable|].
  destruct (sensitive_key kv.1); [|apply redact_printable]. apply printable_check. vm_compute. reflexivity.
Qed.
Lemma hidden_printable t (l : list str) : Forall printable (redact (replacements t) (usernames t) <$> l).
Proof. apply Forall_fmap, Forall_forall. intros text _. apply redact_printable. Qed.
Lemma hidden_option_printable t (o : option str) : Forall printable (option_list (redact (replacements t) (usernames t) <$> o)).
Proof. destruct o; repeat constructor. apply redact_printable. Qed.
Lemma redact_maven_printable t m : Forall printable (maven_texts (redact_maven t m)).
Proof.
  unfold maven_texts. cbn [redact_maven executable lifecycle_goals plugin_goals modules resume_from pom_file tests profiles].
  rewrite !Forall_app. split_and!; try apply hidden_printable; try apply hidden_option_printable.
  - repeat constructor. apply redact_printable.
  - apply Forall_bind, Forall_forall. intros [k v] Hin%elem_of_map_to_list.
    destruct (redact_properties_shown t m) as [Hshown _]. destruct (Hshown k v Hin) as (key & value & _ & Heq).
    pose proof (redact_property_printable t (key, value)) as [Hk Hv]. rewrite <- Heq in Hk, Hv. by repeat constructor.
Qed.
Lemma redact_event_printable t e : Forall printable (event_texts (redact_event t e)).
Proof.
  unfold event_texts. cbn [redact_event ide tool command timestamp agent project session cwd call_id maven].
  rewrite !Forall_app. split_and!.
  - repeat constructor; apply redact_printable.
  - apply Forall_bind. repeat constructor; apply hidden_option_printable.
  - destruct (maven e); cbn; [apply redact_maven_printable|constructor].
Qed.

(** ** Lemmas: the tables *)

(** A step that adds entries and users and keeps what it charged, whether it succeeds or not. *)
Definition fills (reps : list (str * str)) (users : list str) (op : Filling → budgeted N Filling) : Prop := ∀ base f b,
  used b = base + table_charge f → fits b → StronglySorted lt_cmp (found_users f) →
  wp (op f b) (λ '(b', r), limit b' = limit b ∧ fits b' ∧ match r with
    | inl f' => used b' = base + table_charge f' ∧ StronglySorted lt_cmp (found_users f') ∧
        (∀ x, x ∈ found_replacements f' ↔ x ∈ found_replacements f ∨ x ∈ reps) ∧
        (∀ x, x ∈ found_users f' ↔ x ∈ found_users f ∨ x ∈ users)
    | inr n => used b' = base + n
    end).

Lemma fills_ret : fills [] [] mret.
Proof.
  intros base f b Hu Hf Hs. split; [done|]. split; [done|]. split; [done|]. split; [done|].
  split; intros x; rewrite elem_of_nil; tauto.
Qed.
Lemma fills_bind r1 u1 r2 u2 f g : fills r1 u1 f → fills r2 u2 g → fills (r1 ++ r2) (u1 ++ u2) (λ s, s ← f s; g s).
Proof.
  intros Hf Hg base s b Hu Hb Hs.
  apply (budgeted_call _ _ b (λ b' s', limit b' = limit b ∧ fits b' ∧ used b' = base + table_charge s' ∧ StronglySorted lt_cmp (found_users s') ∧
      (∀ x, x ∈ found_replacements s' ↔ x ∈ found_replacements s ∨ x ∈ r1) ∧ (∀ x, x ∈ found_users s' ↔ x ∈ found_users s ∨ x ∈ u1))
    (λ b' n, limit b' = limit b ∧ fits b' ∧ used b' = base + n)).
  - eapply wp_mono; [by apply Hf|]. by intros [b' [s'|n]].
  - intros b' s' (Hl & Hb' & Hu' & Hs' & Hr & Hus). eapply wp_mono; [by apply Hg|]. intros [b'' [s''|n]].
    + rewrite Hl. intros (? & ? & ? & ? & Hr' & Hus'). split_and!; [done..| |].
      * intros x. rewrite Hr', Hr, elem_of_app. tauto.
      * intros x. rewrite Hus', Hus, elem_of_app. tauto.
    + rewrite Hl. done.
  - done.
Qed.
Lemma charge_table_spec bytes n b : fits b →
  wp (charge_table bytes n b) (λ '(b', r), limit b' = limit b ∧ fits b' ∧ match r with
    | inl m => m = n + bytes ∧ used b' = used b + bytes
    | inr m => m = n ∧ b' = b
    end).
Proof.
  intros [Hf Hl]. unfold charge_table. pose proof (charge_spec bytes b Hl) as Hc. destruct (charge bytes b).
  - destruct Hc as [-> Hle]. cbn. unfold fits. cbn. split_and!; try done; lia.
  - done.
Qed.
Lemma fills_replacement entry : fills [entry] [] (λ f, add_replacement f entry).
Proof.
  intros base f b Hu Hb Hs. unfold add_replacement. case_bool_decide as Hin.
  - split_and!; [done|done|done|done| |]; intros x; [|rewrite elem_of_nil; tauto]. rewrite list_elem_of_singleton. naive_solver.
  - unfold mbind, budgeted_bind. pose proof (charge_table_spec (blen entry.1 + blen entry.2 + ENTRY_OVERHEAD_BYTES) (table_charge f) b Hb) as Hc.
    apply wp_Done in Hc as ([b' [m|m]] & -> & Hl & Hb' & Hc); cbn [wp mret budgeted_ret].
    + destruct Hc as [-> Hu']. cbn [table_charge found_replacements found_users]. split_and!; [done|done|lia|done| |].
      * intros x. rewrite elem_of_set_insert, list_elem_of_singleton. tauto.
      * intros x. rewrite elem_of_nil. tauto.
    + destruct Hc as [-> ->]. done.
Qed.
Lemma fills_user user : fills [] [user] (λ f, add_user f user).
Proof.
  intros base f b Hu Hb Hs. unfold add_user. case_bool_decide as Hin.
  - split_and!; [done|done|done|done| |]; intros x; [rewrite elem_of_nil; tauto|]. rewrite list_elem_of_singleton. naive_solver.
  - unfold mbind, budgeted_bind. pose proof (charge_table_spec (blen user + ENTRY_OVERHEAD_BYTES) (table_charge f) b Hb) as Hc.
    apply wp_Done in Hc as ([b' [m|m]] & -> & Hl & Hb' & Hc); cbn [wp mret budgeted_ret].
    + destruct Hc as [-> Hu']. cbn [table_charge found_replacements found_users]. split_and!; [done|done|lia|by apply set_insert_sorted| |].
      * intros x. rewrite elem_of_nil. tauto.
      * intros x. rewrite elem_of_set_insert, list_elem_of_singleton. tauto.
    + destruct Hc as [-> ->]. done.
Qed.
Lemma fills_ext r u r' u' f g : (∀ s b, f s b = g s b) → r = r' → u = u' → fills r' u' g → fills r u f.
Proof. intros Hfg -> -> Hg base s b Hu Hb Hs. rewrite Hfg. by apply Hg. Qed.
Lemma fills_replacements l : fills l [] (add_all add_replacement l).
Proof.
  induction l as [|a l IH]; [apply fills_ret|]. by apply (fills_bind [a] [] l []); [apply fills_replacement|].
Qed.
Lemma fills_users l : fills [] l (add_all add_user l).
Proof. induction l as [|a l IH]; [apply fills_ret|]. by apply (fills_bind [] [a] [] l); [apply fills_user|]. Qed.
Lemma fills_events pending l :
  fills (l ≫= event_paths) (match l with [] => [] | _ => pending ++ (l ≫= event_users) end) (add_events pending l).
Proof.
  revert pending. induction l as [|e l IH]; intros pending; [apply fills_ret|]. cbn [add_events].
  eapply fills_ext; [done| | |eapply fills_bind; [apply (fills_users (pending ++ event_users e))|
    eapply fills_bind; [apply (fills_replacements (event_paths e))|apply (IH [])]]].
  - done.
  - cbn [app]. rewrite <- app_assoc. f_equal. cbn [mbind list_bind]. f_equal. by destruct l.
Qed.
End Events.

Section Within.
Context `{PrivacyPatterns, Layout} (var : string → option str).

Lemma longest_first_sorted l : StronglySorted (λ r s : str * str, blen s.1 ≤ blen r.1) (longest_first l).
Proof.
  pose proof (sort_by_key_sorted (λ r : str * str, (Rev (blen r.1), r)) l) as Hs. unfold longest_first.
  induction Hs as [|r k Hk IH Hr]; constructor; [done|]. eapply Forall_impl; [exact Hr|]. intros s. cbv beta.
  unfold le_cmp. change (cmp (Rev (blen r.1), r) (Rev (blen s.1), s)) with (then_cmp (cmp (blen s.1) (blen r.1)) (cmp r s)).
  change (cmp (blen s.1) (blen r.1)) with (blen s.1 ?= blen r.1). destruct (N.compare_spec (blen s.1) (blen r.1)); cbn [then_cmp]; [lia|lia|done].
Qed.

(** What the tables are made of. *)
Record tables_of (l : list CommandEvent) (workspace : option str) (extra_patterns : list str) (t : Tables) : Prop := {
  tables_replacements : ∀ x, x ∈ replacements t ↔
    x ∈ home_entries var ∨ x ∈ (l ≫= event_paths) ∨ x ∈ last_entries workspace extra_patterns;
  tables_longest_first : StronglySorted (λ r s : str * str, blen s.1 ≤ blen r.1) (replacements t);
  tables_users : ∀ user, user ∈ usernames t ↔ l ≠ [] ∧ (user ∈ environment_users var ∨ user ∈ (l ≫= event_users));
  tables_users_sorted : StronglySorted lt_cmp (usernames t);
}.

Lemma discover_tables_spec l workspace extra_patterns b : fits b →
  wp (discover var l workspace extra_patterns b) (λ '(b', r), limit b' = limit b ∧ fits b' ∧ match r with
    | inl (t, n) => used b' = used b + n ∧ tables_of l workspace extra_patterns t
    | inr n => used b' = used b + n
    end).
Proof.
  intros Hb. unfold discover.
  assert (fills (home_entries var ++ (l ≫= event_paths) ++ last_entries workspace extra_patterns)
    ([] ++ match l with [] => [] | _ => environment_users var ++ (l ≫= event_users) end ++ [])
    (λ f, f ← add_all add_replacement (home_entries var) f; f ← add_events (environment_users var) l f;
          add_all add_replacement (last_entries workspace extra_patterns) f)) as Hfills.
  { apply (fills_bind _ _ _ _ (add_all add_replacement (home_entries var))
      (λ f, f ← add_events (environment_users var) l f; add_all add_replacement (last_entries workspace extra_patterns) f)); [apply fills_replacements|].
    apply fills_bind; [apply fills_events|apply fills_replacements]. }
  specialize (Hfills (used b) {| found_replacements := []; found_users := []; table_charge := 0 |} b ltac:(cbn [table_charge]; lia) Hb ltac:(constructor)).
  set (start := {| found_replacements := []; found_users := []; table_charge := 0 |}) in *.
  assert (∀ k : Filling → budgeted N (Tables * N), (f ← add_all add_replacement (home_entries var) start; f ← add_events (environment_users var) l f;
    f ← add_all add_replacement (last_entries workspace extra_patterns) f; k f) b =
    ((f ← add_all add_replacement (home_entries var) start; f ← add_events (environment_users var) l f;
      add_all add_replacement (last_entries workspace extra_patterns) f) ≫= k) b) as Hassoc.
  { intros k. rewrite budgeted_assoc. apply budgeted_ext. intros f b'. by rewrite budgeted_assoc. }
  rewrite Hassoc. clear Hassoc.
  eapply (budgeted_call _ _ b (λ b' f, limit b' = limit b ∧ fits b' ∧ used b' = used b + table_charge f ∧ StronglySorted lt_cmp (found_users f) ∧
      (∀ x, x ∈ found_replacements f ↔ x ∈ home_entries var ++ (l ≫= event_paths) ++ last_entries workspace extra_patterns) ∧
      (∀ x, x ∈ found_users f ↔ x ∈ match l with [] => [] | _ => environment_users var ++ (l ≫= event_users) end))
    (λ b' n, limit b' = limit b ∧ fits b' ∧ used b' = used b + n)); [| |done].
  - eapply wp_mono; [exact Hfills|]. intros [b' [f|n]]; [|done]. intros (? & ? & ? & ? & Hr & Hus). split_and!; [done..| |].
    + intros x. rewrite Hr. cbn [start found_replacements]. rewrite elem_of_nil. tauto.
    + intros x. rewrite Hus. cbn [start found_users app]. rewrite elem_of_nil, app_nil_r. tauto.
  - intros b' f (Hl & Hb' & Hu & Hs & Hr & Hus). cbn [wp mret budgeted_ret]. split_and!; [done..|]. split; cbn [replacements usernames].
    + intros x. unfold longest_first, sort_by_key. rewrite elem_of_sort_with, Hr, !elem_of_app. tauto.
    + apply longest_first_sorted.
    + intros user. rewrite Hus. destruct l; [rewrite elem_of_nil; naive_solver|]. rewrite elem_of_app. naive_solver.
    + exact Hs.
Qed.

Lemma redact_each_spec t base l b :
  used b = base + retained_bytes l → fits b →
  wp (redact_each t l b) (λ '(b', r), limit b' = limit b ∧ fits b' ∧ base ≤ used b' ∧ match r with
    | inl shown => shown = redact_event t <$> l ∧ used b' = base + retained_bytes shown
    | inr e => e = StateExceeded
    end).
Proof.
  revert base b. induction l as [|e l IH]; intros base b Hu [Hf Hl]; cbn [redact_each].
  { unfold fits. cbn. change (retained_bytes []) with 0 in *. by split_and!; try lia. }
  rewrite retained_cons in Hu. set (e' := redact_event t e).
  eapply (budgeted_call _ _ b (λ b' _, limit b' = limit b ∧ fits b' ∧ used b' = base + event_bytes e' + retained_bytes l)
    (λ b' x, limit b' = limit b ∧ fits b' ∧ base ≤ used b' ∧ x = StateExceeded)); [| |done].
  - destruct (N.ltb_spec (event_bytes e) (event_bytes e')).
    + unfold charging. pose proof (charge_spec (event_bytes e' - event_bytes e) b Hl) as Hc. destruct (charge _ b).
      * destruct Hc as [-> Hle]. unfold fits. cbn [wp restore limit used]. split_and!; [done|lia|done|lia].
      * unfold fits. cbn [wp]. split_and!; [done|done|done|lia|done].
    + unfold releasing. rewrite (release_spec _ (base + event_bytes e' + retained_bytes l)) by lia. unfold fits.
      cbn [wp restore limit used]. split_and!; [done|lia|done|done].
  - intros b' [] (Hl' & Hb' & Hu'). eapply (budgeted_call _ _ b' (λ b'' shown, limit b'' = limit b ∧ fits b'' ∧ base ≤ used b'' ∧
        shown = redact_event t <$> l ∧ used b'' = base + event_bytes e' + retained_bytes shown)
      (λ b'' x, limit b'' = limit b ∧ fits b'' ∧ base ≤ used b'' ∧ x = StateExceeded)); [| |done].
    + eapply wp_mono; [by apply (IH (base + event_bytes e'))|]. intros [b'' [shown|x]]; rewrite Hl'; intros (? & ? & ? & Hr); cbn.
      * destruct Hr as [-> ?]. split_and!; [done|done|lia|done|done].
      * split_and!; [done|done|lia|done].
    + intros b'' shown (? & ? & ? & -> & Hu''). cbn [wp mret budgeted_ret fmap list_fmap]. split_and!; [done..|].
      rewrite retained_cons. lia.
Qed.
End Within.

Lemma redact_events_spec `{PrivacyPatterns, Layout} var base l workspace extra_patterns b :
  used b = base + retained_bytes l → used b ≤ limit b → limit b ≤ usize_max →
  wp (redact_events_within var l workspace extra_patterns b) (λ '(b', r), limit b' = limit b ∧ used b' ≤ limit b' ∧
    match r with
    | inl shown => used b' = base + retained_bytes shown ∧ ∃ t, tables_of var l workspace extra_patterns t ∧
        shown = redact_event t <$> l ∧ Forall (λ e, Forall printable (event_texts e)) shown ∧
        (∀ m, Some m ∈ maven <$> l → shown_properties t (properties (redact_maven t m)) (properties m))
    | inr e => e = StateExceeded ∧ base ≤ used b'
    end) ∧
  ∀ text, ∃ cuts, redact_secret_values text = with_hidden text 0 cuts ∧
    hides text (match_ranges 0 (segments SECRET_PREFIX text)) cuts.
Proof.
  intros Hu Hfit Hlimit. split; [|apply secret_values_hidden]. unfold redact_events_within.
  pose proof (discover_tables_spec var l workspace extra_patterns b (conj Hfit Hlimit)) as Hd.
  apply wp_Done in Hd as ([b1 [[t n]|n]] & -> & Hl & [Hf1 Hl1] & Hd); cbn [mbind exec_bind].
  - destruct Hd as [Hu1 Ht].
    pose proof (redact_each_spec t (base + n) l b1 ltac:(lia) (conj Hf1 Hl1)) as He.
    apply wp_Done in He as ([b2 r] & -> & Hl2 & [Hf2 _] & Hbase & He). cbn [mbind exec_bind wp].
    destruct r as [shown|x].
    + destruct He as [-> Hu2]. rewrite (release_spec _ (base + retained_bytes (redact_event t <$> l))) by lia. cbn [restore used limit].
      split_and!; [congruence|lia|done|]. exists t. split_and!; [done|done| |].
      * apply Forall_fmap, Forall_forall. intros e _. apply redact_event_printable.
      * intros m _. apply redact_properties_shown.
    + subst x. unfold release, saturating_sub. cbn [restore used limit]. split_and!; [congruence|lia|done|lia].
  - rewrite (release_spec _ (used b)) by lia. cbn [restore used limit wp]. split_and!; [done|lia|done|lia].
Qed.


(** A command that shows a user, a home, a token and a secret property. *)
#[local] Existing Instance sample_layout.
Fixpoint after_dash (before s : str) : list Match :=
  match s with
  | [] => []
  | c :: s => if c =? ch "=" then [{| gap := before; groups := [Some (lit "=")] |}] else after_dash (before ++ [c]) s
  end.
#[local] Instance sample_privacy : PrivacyPatterns := {|
  HOME_PATH := no_matches; URL := no_matches; TOKEN := no_matches;
  SECRET_PREFIX := {| segments s := after_dash [] s; tail s := match after_dash [] s with [] => s | _ => default [] (snd <$> split_once (ch "=") s) end |};
  user_pattern user := {| segments _ := []; tail s := s |};
|}.
Definition secret_command : MavenCommand := define (lit "api.key") (lit "x") (default_command (lit "mvn")).
Definition secret_event : CommandEvent :=
  {| timestamp := None; ide := lit "codex"; agent := None; project := Some (lit "/home/u/p"); session := None; tool := lit "shell";
     cwd := None; command := lit "cd /home/u/p; mvn -Dkey='a b'c;ls"; category := Maven; call_id := None;
     maven := Some secret_command; provenance := [] |}.
Definition shown_command : str := lit "cd <WORKSPACE>; mvn -Dkey=<REDACTED>;ls".

