(* ===== verification/LogReport.v ===== *)
(** * LogReport: reports on agent logs

    Models [src/bin/maven-agent-log.rs]: the run from the paths to the report, the grouping of
    events under their original identities with redacted labels, and the report formats.  JSON
    texts are the class [ReportJson]; the command line parser gives [Cli]. *)

From S2P Require Import Prelude.
From S2P Require Import Text.
From S2P Require Import Paths.
From S2P Require Import TextSearch.
From S2P Require Import Ordering.
From S2P Require Import Shell.
From S2P Require Import Timestamp.
From S2P Require Import LogEvents.
From S2P Require Import LogSources.
From S2P Require Import LogPrivacy.

Open Scope N_scope.

(** ** Data *)

Inductive OutputFormat := Terminal | JsonFormat | Jsonl | Csv | Markdown.
Inductive GroupBy := Day | Month | Ide | Agent | Project | Session | Category.
Record GroupCount := {
  group_label : str;
  group_count : N;
}.
Record Cli := {
  inputs : list path;
  discover_sources : bool;
  keep_duplicates : bool;
  source : LogSource;
  format : OutputFormat;
  output : option path;
  since_text : option str;
  until_text : option str;
  cli_ide : option str;
  cli_agent : option str;
  cli_project : option str;
  cli_session : option str;
  cli_category : option CommandCategory;
  group_by : option GroupBy;
  workspace : option str;
  redact_patterns : list str;
  unsafe_no_redact : bool;
  limits : LogLimits;
}.

(** Why no report is produced. *)
Inductive ReportError :=
| NoInput
| UnreadableInput
| OutputIsInput
| StateBudgetExceeded
| NothingRecovered
| InvalidTime
| SinceAfterUntil
| JsonError.

(** ** Groups *)

Definition UNKNOWN : str := lit "<unknown>".
Definition group_key (e : CommandEvent) (g : GroupBy) : str :=
  default UNKNOWN
    match g with
    | Day => timestamp e ≫= byte_take 10
    | Month => timestamp e ≫= byte_take 7
    | Ide => Some (ide e)
    | Agent => agent e
    | Project => project e
    | Session => session e
    | Category => Some (category_name (category e))
    end.

(** The original identities in the order they first occur, and the one of each event. *)
Record RawGroups := {
  identities : gmap (list N) nat;
  event_identity : list nat;
  raw_charged : N;
}.

Section Groups.
Context `{Layout}.

(** Charges, and remembers what was charged so that it can be released. *)
Definition charge_tracked (charged bytes : N) : budgeted LimitExceeded N :=
  _ ← charging StateExceeded bytes; mret (charged + bytes).

Definition collect_event (g : GroupBy) (r : RawGroups) (e : CommandEvent) : budgeted LimitExceeded RawGroups :=
  let key := group_key e g in
  match identities r !! key with
  | Some index => mret {| identities := identities r; event_identity := event_identity r ++ [index]; raw_charged := raw_charged r |}
  | None =>
      let next := size (identities r) in
      charged ← charge_tracked (raw_charged r) (blen key + size_usize + ENTRY_OVERHEAD_BYTES);
      mret {| identities := <[key := next]> (identities r); event_identity := event_identity r ++ [next]; raw_charged := charged |}
  end.
Fixpoint collect_events (g : GroupBy) (l : list CommandEvent) (r : RawGroups) : budgeted LimitExceeded RawGroups :=
  match l with
  | [] => mret r
  | e :: l => r ← collect_event g r e; collect_events g l r
  end.
Definition collect (l : list CommandEvent) (g : GroupBy) : budgeted LimitExceeded RawGroups :=
  charged ← charge_tracked 0 (saturating_mul (N.of_nat (length l)) size_usize);
  collect_events g l {| identities := ∅; event_identity := []; raw_charged := charged |}.

(** Labels and counts by identity, and what is charged for the labels. *)
Record Counting := {
  labels : list (option str);
  counts : list N;
  kept : N;
}.
Definition count_event (g : GroupBy) (s : Counting) (identity : nat) (e : CommandEvent) : budgeted LimitExceeded Counting :=
  n ← running (or_panic (counts s !! identity));
  let counts := <[identity := n + 1]> (counts s) in
  label ← running (or_panic (labels s !! identity));
  match label with
  | Some _ => mret {| labels := labels s; counts := counts; kept := kept s |}
  | None =>
      let label := group_key e g in
      kept ← charge_tracked (kept s) (blen label + ENTRY_OVERHEAD_BYTES);
      mret {| labels := <[identity := Some label]> (labels s); counts := counts; kept := kept |}
  end.
Fixpoint count_events (g : GroupBy) (ids : list nat) (redacted : list CommandEvent) (s : Counting) : budgeted LimitExceeded Counting :=
  match ids, redacted with
  | identity :: ids, e :: redacted => s ← count_event g s identity e; count_events g ids redacted s
  | _, _ => mret s
  end.

(** *** Labels *)

Definition SUFFIX_TABLE_ENTRY_BYTES : N := size_str + size_usize + ENTRY_OVERHEAD_BYTES.
Definition occurrences (groups : list GroupCount) : gmap (list N) nat :=
  foldl (λ m g, <[group_label g := S (default 0%nat (m !! group_label g))]> m) ∅ groups.
(** The number of each repeated label in group order; a failure gives what was charged. *)
Fixpoint number_labels (counted : gmap (list N) nat) (groups : list GroupCount) (seen : gmap (list N) nat) (tables : N)
    : budgeted N (list (option nat) * N) :=
  match groups with
  | [] => mret ([], tables)
  | g :: groups =>
      let label := group_label g in
      if (default 0%nat (counted !! label) <? 2)%nat then
        r ← number_labels counted groups seen tables; mret (None :: r.1, r.2)
      else
        tables ← (if is_some (seen !! label) then mret tables else charge_table SUFFIX_TABLE_ENTRY_BYTES tables);
        let index := S (default 0%nat (seen !! label)) in
        r ← number_labels counted groups (<[label := index]> seen) tables; mret (Some index :: r.1, r.2)
  end.
Definition collect_suffixes (groups : list GroupCount) : budgeted N (list (option nat) * N) :=
  tables ← charge_table (saturating_mul (N.of_nat (length groups)) (SUFFIX_TABLE_ENTRY_BYTES + size_option_usize)) 0;
  number_labels (occurrences groups) groups ∅ tables.
Fixpoint add_suffixes (groups : list GroupCount) (suffixes : list (option nat)) : budgeted LimitExceeded (list GroupCount) :=
  match groups, suffixes with
  | g :: groups, suffix :: suffixes =>
      g ← (match suffix with
           | None => mret g
           | Some index =>
               let label := group_label g ++ lit " [" ++ to_dec (N.of_nat index) ++ lit "]" in
               _ ← charging StateExceeded (blen label - blen (group_label g));
               mret {| group_label := label; group_count := group_count g |}
           end);
      groups ← add_suffixes groups suffixes; mret (g :: groups)
  | groups, _ => mret groups
  end.
Definition disambiguate_labels (groups : list GroupCount) : budgeted LimitExceeded (list GroupCount) := λ b,
  '(b, r) ← collect_suffixes groups b;
  match r with
  | inr tables => Done (release tables b, inr StateExceeded)
  | inl (suffixes, tables) => add_suffixes groups suffixes (release tables b)
  end.

Definition count (r : RawGroups) (redacted : list CommandEvent) (g : GroupBy) : budgeted LimitExceeded (list GroupCount) :=
  let identity_count := size (identities r) in
  work ← charge_tracked 0 (saturating_mul (N.of_nat identity_count) (size_option_string + size_usize));
  s ← count_events g (event_identity r) redacted
        {| labels := replicate identity_count None; counts := replicate identity_count 0; kept := 0 |};
  _ ← charge_tracked (kept s) (saturating_mul (N.of_nat identity_count) size_group_count);
  groups ← running (foldr (λ '(_, i) groups,
      groups ← groups;
      label ← or_panic (labels s !! i);
      n ← or_panic (counts s !! i);
      mret ({| group_label := default [] label; group_count := n |} :: groups)) (mret []) (sorted_entries (identities r)));
  _ ← releasing (work + raw_charged r);
  disambiguate_labels groups.
End Groups.

(** ** Formats *)

(** [serde_json::to_string_pretty] and [to_string]. *)
Class ReportJson := {
  pretty_events : list CommandEvent → option str;
  compact_event : CommandEvent → option str;
  compact_maven : MavenCommand → option str;
  pretty_groups : list GroupCount → option str;
  compact_group : GroupCount → option str;
}.

Definition newline : str := [10].
(** Left-aligned in a column. *)
Definition padded (width : nat) (s : str) : str := s ++ replicate (width - length s) 32.
Definition csv_field (value : str) : str := quote ++ replace quote (quote ++ quote) value ++ quote.
Definition markdown (value : str) : str :=
  let value := replace (lit "&") (lit "&amp;") value in
  let value := replace (lit "<") (lit "&lt;") value in
  let value := replace (lit ">") (lit "&gt;") value in
  let value := replace (lit "|") (lit "&#124;") value in
  let value := (λ c, if (c =? 10) || (c =? 13) then 32 else c) <$> value in
  replace (lit "`") (lit "&#96;") value.

Section Render.
Context `{ReportJson}.

Definition terminal_line (e : CommandEvent) : str :=
  default (lit "-") (timestamp e) ++ lit " " ++ padded 17 (category_name (category e)) ++ lit " " ++ padded 20 (ide e)
  ++ lit " " ++ command e ++ newline.
(** The fields of a row; the command is JSON. *)
Definition csv_fields (e : CommandEvent) : option (list str) :=
  m ← (match maven e with None => Some [] | Some m => compact_maven m end);
  Some [default [] (timestamp e); ide e; default [] (agent e); default [] (project e); default [] (session e); tool e;
        default [] (cwd e); category_name (category e); command e; default [] (call_id e); m].
Definition csv_row (fields : list str) : str := join (lit ",") (csv_field <$> fields) ++ newline.
Definition markdown_line (e : CommandEvent) : str :=
  lit "| " ++ markdown (default (lit "-") (timestamp e)) ++ lit " | " ++ markdown (ide e) ++ lit " | "
  ++ category_name (category e) ++ lit " | " ++ markdown (command e) ++ lit " |" ++ newline.
Definition CSV_HEADER : str := lit "timestamp,ide,agent,project,session,tool,cwd,category,command,call_id,maven" ++ newline.

Definition render_events (l : list CommandEvent) (f : OutputFormat) : option str :=
  match f with
  | Terminal => Some (mjoin (terminal_line <$> l))
  | JsonFormat => (λ s, s ++ newline) <$> pretty_events l
  | Jsonl => (λ rows, join newline rows ++ newline) <$> mapM compact_event l
  | Csv => (λ rows, CSV_HEADER ++ mjoin (csv_row <$> rows)) <$> mapM csv_fields l
  | Markdown => Some (lit "| Time | IDE | Category | Command |" ++ newline ++ lit "| --- | --- | --- | --- |" ++ newline
                      ++ mjoin (markdown_line <$> l))
  end.
Definition render_groups (l : list GroupCount) (f : OutputFormat) : option str :=
  match f with
  | JsonFormat => (λ s, s ++ newline) <$> pretty_groups l
  | Jsonl => (λ rows, join newline rows ++ newline) <$> mapM compact_group l
  | Csv => Some (lit "group,count" ++ newline
                 ++ mjoin ((λ g, csv_field (group_label g) ++ lit "," ++ to_dec (group_count g) ++ newline) <$> l))
  | Markdown => Some (lit "| Group | Count |" ++ newline ++ lit "| --- | ---: |" ++ newline
                      ++ mjoin ((λ g, lit "| " ++ markdown (group_label g) ++ lit " | " ++ to_dec (group_count g) ++ lit " |" ++ newline) <$> l))
  | Terminal => Some (mjoin ((λ g, padded 30 (group_label g) ++ lit " " ++ to_dec (group_count g) ++ newline) <$> l))
  end.
End Render.

(** ** The run *)

Definition time_bound (value : option str) (upper : bool) : option (option str) :=
  match value with
  | None => Some None
  | Some value =>
      let value := if upper && (blen value =? 10) then value ++ lit "T23:59:59.999Z" else value in
      Some <$> normalize_timestamp value
  end.

(** What was read, and what was left out of it. *)
Record Collected := {
  collected : list CommandEvent;
  failed_files : nat;
  unread_records : nat;
  oversized_files : nat;
  large_records : nat;
}.
Definition nothing : Collected :=
  {| collected := []; failed_files := 0; unread_records := 0; oversized_files := 0; large_records := 0 |}.

Section Run.
Context `{Layout, LogLibraries, LogFiles, PrivacyPatterns, ReportJson}.

Definition collect_paths (t : SourceTree) (default_sources : list path) (cli : Cli) : list path + ReportError :=
  let roots := inputs cli ++ (if discover_sources cli then default_sources else []) in
  if bool_decide (roots = []) && negb (discover_sources cli) then inr NoInput
  else match source_paths t roots with Some ps => inl ps | None => inr UnreadableInput end.

Fixpoint read_paths (cli : Cli) (l : list path) (c : Collected) : budgeted ReportError Collected := λ b,
  match l with
  | [] => Done (b, inl c)
  | p :: l =>
      '(b, r) ← read (limits cli) p (source cli) b;
      match r with
      | inl log => read_paths cli l {| collected := collected c ++ events log; failed_files := failed_files c;
          unread_records := (unread_records c + skipped_records log)%nat; oversized_files := oversized_files c;
          large_records := (large_records c + oversized_records log)%nat |} b
      | inr (Exceeded StateExceeded) => Done (b, inr StateBudgetExceeded)
      | inr (Exceeded InputExceeded) => read_paths cli l {| collected := collected c; failed_files := failed_files c;
          unread_records := unread_records c; oversized_files := S (oversized_files c); large_records := large_records c |} b
      | inr Unreadable => read_paths cli l {| collected := collected c; failed_files := S (failed_files c);
          unread_records := unread_records c; oversized_files := oversized_files c; large_records := large_records c |} b
      end
  end.
Definition partial (c : Collected) : bool :=
  negb ((failed_files c =? 0)%nat && (unread_records c =? 0)%nat && (oversized_files c + large_records c =? 0)%nat).

(** An exceeded budget is reported as such. *)
Definition reported {A} (m : budgeted LimitExceeded A) : budgeted ReportError A := λ b,
  '(b, r) ← m b; Done (b, match r with inl a => inl a | inr _ => inr StateBudgetExceeded end).
Definition filter_of (cli : Cli) (since until : option str) : EventFilter :=
  {| since := since; until := until; filter_ide := cli_ide cli; filter_agent := cli_agent cli; filter_project := cli_project cli;
     filter_session := cli_session cli; filter_category := cli_category cli |}.
Definition bounds (cli : Cli) : (option str * option str) + ReportError :=
  match time_bound (since_text cli) false, time_bound (until_text cli) true with
  | Some since, Some until =>
      match since, until with
      | Some s, Some u => if le_cmp s u then inl (since, until) else inr SinceAfterUntil
      | _, _ => inl (since, until)
      end
  | _, _ => inr InvalidTime
  end.
Definition filtering (l : list CommandEvent) (f : EventFilter) : budgeted ReportError (list CommandEvent) := λ b,
  let '(b, l) := filter_events_within l f b in Done (b, inl l).
Definition shown (cli : Cli) (var : string → option str) (l : list CommandEvent) : budgeted ReportError (list CommandEvent) :=
  if unsafe_no_redact cli then mret l
  else reported (redact_events_within var l (workspace cli) (redact_patterns cli)).
Definition rendered (o : option str) : budgeted ReportError str := match o with Some s => mret s | None => fails JsonError end.

(** [main] up to the text of the report. *)
Definition report (cli : Cli) (var : string → option str) (paths : list path) (canonical_output : option path)
    : budgeted ReportError str :=
  if is_some_and (λ p, bool_decide (p ∈ paths)) canonical_output then fails OutputIsInput
  else
    c ← read_paths cli paths nothing;
    if partial c && bool_decide (collected c = []) then fails NothingRecovered
    else
      l ← (if keep_duplicates cli then mret (sort_events (collected c))
           else reported (deduplicate_events_within (collected c)));
      match bounds cli with
      | inr e => fails e
      | inl (since, until) =>
          l ← filtering l (filter_of cli since until);
          match group_by cli with
          | Some g =>
              raw ← reported (collect l g);
              l ← shown cli var l;
              groups ← reported (count raw l g);
              rendered (render_groups groups (format cli))
          | None =>
              l ← shown cli var l;
              rendered (render_events l (format cli))
          end
      end.
Definition run (cli : Cli) (var : string → option str) (t : SourceTree) (default_sources : list path) (canonical_output : option path)
    : exec (str + ReportError) :=
  match collect_paths t default_sources cli with
  | inr e => mret (inr e)
  | inl paths =>
      '(_, r) ← report cli var paths canonical_output (new_budget (max_state_bytes (limits cli)));
      mret r
  end.
End Run.

(** ** Lemmas: groups *)

Section Grouping.
Context `{Layout} (g : GroupBy).

(** The identities of events in the order they first occur. *)
Record collects (l : list CommandEvent) (order : list str) (r : RawGroups) : Prop := {
  collects_order : ∀ k i, identities r !! k = Some i ↔ order !! i = Some k;
  collects_size : size (identities r) = length order;
  collects_keys : ∀ k, k ∈ order ↔ k ∈ (λ e, group_key e g) <$> l;
  collects_events : Forall2 (λ i e, order !! i = Some (group_key e g)) (event_identity r) l;
}.

Lemma charge_tracked_spec n bytes b : fits b →
  wp (charge_tracked n bytes b) (λ '(b', r), limit b' = limit b ∧ fits b' ∧ match r with
    | inl m => m = n + bytes ∧ used b' = used b + bytes
    | inr e => e = StateExceeded
    end).
Proof.
  intros [Hf Hl]. unfold charge_tracked, mbind, budgeted_bind, charging. pose proof (charge_spec bytes b Hl) as Hc. destruct (charge bytes b).
  - destruct Hc as [-> Hle]. unfold fits. cbn [wp mret budgeted_ret limit used restore]. split_and!; try done; lia.
  - done.
Qed.

Lemma collect_event_spec base l order r e b :
  collects l order r → used b = base + raw_charged r → fits b →
  wp (collect_event g r e b) (λ '(b', x), limit b' = limit b ∧ fits b' ∧ match x with
    | inl r' => used b' = base + raw_charged r' ∧ ∃ order', collects (l ++ [e]) order' r'
    | inr e => e = StateExceeded
    end).
Proof.
  intros [Horder Hsize Hkeys Hevents] Hu Hb. unfold collect_event. set (key := group_key e g).
  destruct (identities r !! key) as [i|] eqn:Hk.
  - cbn [wp mret budgeted_ret raw_charged]. split_and!; [done..|]. exists order. apply Horder in Hk.
    split; [done|done| |].
    + intros k. rewrite Hkeys, fmap_app, elem_of_app. split; [by left|]. intros [?|Hx%list_elem_of_singleton]; [done|].
      subst k. apply Hkeys. by eapply list_elem_of_lookup_2.
    + apply Forall2_app; [done|]. by repeat constructor.
  - unfold mbind, budgeted_bind. pose proof (charge_tracked_spec (raw_charged r) (blen key + size_usize + ENTRY_OVERHEAD_BYTES) b Hb) as Hc.
    apply wp_Done in Hc as ([b' [m|x]] & -> & Hl & Hb' & Hc); [|done]. destruct Hc as [-> Hu'].
    cbn [wp mret budgeted_ret raw_charged]. split_and!; [done|done|lia|]. exists (order ++ [key]).
    assert (∀ i, order !! i ≠ Some key) as Hnew. { intros i Hi. apply Horder in Hi. congruence. }
    split; cbn [identities event_identity].
    + intros k i. rewrite lookup_snoc_Some. destruct (decide (k = key)) as [->|Hne].
      * rewrite lookup_insert_eq, Hsize. split; [intros [= <-]; by right|]. intros [[_ Hi]|[-> _]]; [by destruct (Hnew i)|done].
      * rewrite lookup_insert_ne by done. rewrite Horder. split; [|intros [[_ ?]|[_ ?]]; congruence].
        intros Hi. left. split; [by eapply lookup_lt_Some|done].
    + rewrite map_size_insert_None by done. rewrite length_app, Hsize. simpl. lia.
    + intros k. rewrite fmap_app, !elem_of_app, Hkeys. done.
    + apply Forall2_app.
      * eapply Forall2_impl; [exact Hevents|]. intros i x Hi. by apply lookup_app_l_Some.
      * repeat constructor. rewrite Hsize. by apply list_lookup_middle.
Qed.
Lemma collect_events_spec base l : ∀ before order r b,
  collects before order r → used b = base + raw_charged r → fits b →
  wp (collect_events g l r b) (λ '(b', x), limit b' = limit b ∧ fits b' ∧ match x with
    | inl r' => used b' = base + raw_charged r' ∧ ∃ order', collects (before ++ l) order' r'
    | inr e => e = StateExceeded
    end).
Proof.
  induction l as [|e l IH]; intros before order r b Hr Hu Hb; cbn [collect_events].
  { rewrite app_nil_r. cbn [wp mret budgeted_ret]. split_and!; [done..|]. by exists order. }
  apply (budgeted_call _ _ b (λ b' r', limit b' = limit b ∧ fits b' ∧ used b' = base + raw_charged r' ∧ ∃ order', collects (before ++ [e]) order' r')
    (λ b' x, limit b' = limit b ∧ fits b' ∧ x = StateExceeded)).
  - eapply wp_mono; [by eapply collect_event_spec|]. by intros [b' [r'|x]].
  - intros b' r' (Hl & Hb' & Hu' & order' & Hr'). eapply wp_mono; [by eapply IH|]. intros [b'' x]. rewrite Hl, <- app_assoc. done.
  - done.
Qed.
Lemma collect_spec l b : fits b →
  wp (collect l g b) (λ '(b', x), limit b' = limit b ∧ fits b' ∧ match x with
    | inl r => used b' = used b + raw_charged r ∧ ∃ order, collects l order r
    | inr e => e = StateExceeded
    end).
Proof.
  intros Hb. unfold collect. set (bytes := saturating_mul _ _).
  apply (budgeted_call _ _ b (λ b' n, limit b' = limit b ∧ fits b' ∧ used b' = used b + n) (λ b' x, limit b' = limit b ∧ fits b' ∧ x = StateExceeded)).
  - eapply wp_mono; [by apply charge_tracked_spec|]. intros [b' [n|x]] (? & ? & Hr); [|done]. destruct Hr as [-> ?]. split_and!; [done|done|lia].
  - intros b' n (Hl & Hb' & Hu). eapply wp_mono; [apply (collect_events_spec (used b) l [] []); [|exact Hu|done]|].
    + split; [|done| |constructor].
      * intros k i. cbn [identities]. by rewrite lookup_empty, lookup_nil.
      * intros k. done.
    + intros [b'' x]. by rewrite Hl.
  - done.
Qed.

(** ** Lemmas: counting *)

(** The members of an identity among pairs of an identity and a redacted event. *)
Definition members (i : nat) (ps : list (nat * CommandEvent)) : list CommandEvent := snd <$> filter (λ p, p.1 = i) ps.
Definition first_label (l : list CommandEvent) : option str := (λ e, group_key e g) <$> head l.
Lemma members_snoc i ps j e : members i (ps ++ [(j, e)]) = members i ps ++ (if decide (j = i) then [e] else []).
Proof. unfold members. rewrite filter_app, fmap_app, filter_cons, filter_nil. simpl. by case_decide. Qed.

Definition label_bytes (o : option str) : N := match o with Some label => blen label + ENTRY_OVERHEAD_BYTES | None => 0 end.
Record counting (n : nat) (ps : list (nat * CommandEvent)) (s : Counting) : Prop := {
  counting_labels : labels s = (λ i, first_label (members i ps)) <$> seq 0 n;
  counting_counts : counts s = (λ i, N.of_nat (length (members i ps))) <$> seq 0 n;
  counting_kept : kept s = sum (label_bytes <$> labels s);
}.
Lemma sum_insert_None (l : list (option str)) i label :
  l !! i = Some None →
  sum (label_bytes <$> <[i := Some label]> l)
    = sum (label_bytes <$> l) + (blen label + ENTRY_OVERHEAD_BYTES).
Proof.
  revert i. induction l as [|x l IH]; intros [|i] Hi; try done; cbn in Hi.
  - injection Hi as ->. cbn [insert list_insert fmap list_fmap]. rewrite !sum_cons. cbn [label_bytes]. lia.
  - change (<[S i := Some label]> (x :: l)) with (x :: <[i := Some label]> l). rewrite !fmap_cons, !sum_cons, (IH i Hi). lia.
Qed.

Lemma count_event_spec base n ps s i e b :
  counting n ps s → (i < n)%nat → used b = base + kept s → fits b →
  wp (count_event g s i e b) (λ '(b', x), limit b' = limit b ∧ fits b' ∧ match x with
    | inl s' => used b' = base + kept s' ∧ counting n (ps ++ [(i, e)]) s'
    | inr e => e = StateExceeded
    end).
Proof.
  intros [Hlabels Hcounts Hkept] Hi Hu Hb. unfold count_event.
  assert (seq 0 n !! i = Some i) as Hseq by (by rewrite lookup_seq_lt).
  assert (counts s !! i = Some (N.of_nat (length (members i ps)))) as Hcount by (by rewrite Hcounts, list_lookup_fmap, Hseq).
  assert (labels s !! i = Some (first_label (members i ps))) as Hlabel by (by rewrite Hlabels, list_lookup_fmap, Hseq).
  assert (<[i := N.of_nat (length (members i ps)) + 1]> (counts s) = (λ j, N.of_nat (length (members j (ps ++ [(i, e)])))) <$> seq 0 n) as Hcounts'.
  { apply list_eq. intros j. rewrite list_lookup_fmap. destruct (decide (j = i)) as [->|Hne].
    - rewrite list_lookup_insert_eq by (by eapply lookup_lt_Some). rewrite Hseq. cbn. rewrite members_snoc, decide_True, length_app by done. simpl. f_equal. lia.
    - rewrite list_lookup_insert_ne by done. rewrite Hcounts, list_lookup_fmap. destruct (seq 0 n !! j) as [k|] eqn:Hk; [|done]. cbn.
      apply lookup_seq in Hk as [-> _]. rewrite members_snoc, decide_False by (simpl; lia). by rewrite app_nil_r. }
  unfold mbind at 1, budgeted_bind at 1, running, or_panic. rewrite Hcount. cbn [mbind exec_bind].
  unfold mbind at 1, budgeted_bind at 1. rewrite Hlabel. cbn [mbind exec_bind].
  destruct (first_label (members i ps)) as [label|] eqn:Hfirst.
  - cbn [wp mret budgeted_ret kept]. split_and!; [done..|]. split; cbn [labels counts kept]; [|done|done].
    rewrite Hlabels. apply list_fmap_ext. intros j k Hk. apply lookup_seq in Hk as [-> _]. rewrite members_snoc. case_decide as Hj; [|by rewrite app_nil_r].
    subst i. simpl in Hfirst. simpl. unfold first_label in *. by destruct (members j ps).
  - unfold mbind at 1, budgeted_bind at 1. pose proof (charge_tracked_spec (kept s) (blen (group_key e g) + ENTRY_OVERHEAD_BYTES) b Hb) as Hc.
    apply wp_Done in Hc as ([b' [m|x]] & -> & Hl & Hb' & Hc); [|done]. destruct Hc as [-> Hu'].
    cbn [wp mret budgeted_ret kept]. split_and!; [done|done|lia|].
    assert (members i ps = []) as Hnone by (unfold first_label in Hfirst; by destruct (members i ps)).
    split; cbn [labels counts kept]; [|done|by rewrite sum_insert_None, Hkept].
    apply list_eq. intros j. rewrite list_lookup_fmap. destruct (decide (j = i)) as [->|Hne].
    + rewrite list_lookup_insert_eq by (by eapply lookup_lt_Some). rewrite Hseq. cbn. by rewrite members_snoc, decide_True, Hnone.
    + rewrite list_lookup_insert_ne by done. rewrite Hlabels, list_lookup_fmap. destruct (seq 0 n !! j) as [k|] eqn:Hk; [|done]. cbn.
      apply lookup_seq in Hk as [-> _]. rewrite members_snoc, decide_False by (simpl; lia). by rewrite app_nil_r.
Qed.
Lemma count_events_spec base n ids : ∀ redacted ps s b,
  length redacted = length ids → Forall (λ i, (i < n)%nat) ids → counting n ps s → used b = base + kept s → fits b →
  wp (count_events g ids redacted s b) (λ '(b', x), limit b' = limit b ∧ fits b' ∧ match x with
    | inl s' => used b' = base + kept s' ∧ counting n (ps ++ zip ids redacted) s'
    | inr e => e = StateExceeded
    end).
Proof.
  induction ids as [|i ids IH]; intros [|e redacted] ps s b Hlen Hids Hs Hu Hb; try done; cbn [count_events].
  { rewrite app_nil_r. done. }
  apply Forall_cons in Hids as [Hi Hids].
  apply (budgeted_call _ _ b (λ b' s', limit b' = limit b ∧ fits b' ∧ used b' = base + kept s' ∧ counting n (ps ++ [(i, e)]) s')
    (λ b' x, limit b' = limit b ∧ fits b' ∧ x = StateExceeded)).
  - eapply wp_mono; [by eapply count_event_spec|]. by intros [b' [s'|x]].
  - intros b' s' (Hl & Hb' & Hu' & Hs'). eapply wp_mono; [apply (IH redacted (ps ++ [(i, e)])); [by injection Hlen|done..]|].
    intros [b'' x]. rewrite Hl, <- app_assoc. done.
  - done.
Qed.
Lemma counting_start n : counting n [] {| labels := replicate n None; counts := replicate n 0; kept := 0 |}.
Proof.
  split; cbn [labels counts kept].
  - apply list_eq. intros i. rewrite list_lookup_fmap. destruct (decide (i < n)%nat).
    + rewrite lookup_replicate_2, lookup_seq_lt by done. done.
    + rewrite !lookup_ge_None_2; [done|rewrite length_seq; lia|rewrite length_replicate; lia].
  - apply list_eq. intros i. rewrite list_lookup_fmap. destruct (decide (i < n)%nat).
    + rewrite lookup_replicate_2, lookup_seq_lt by done. done.
    + rewrite !lookup_ge_None_2; [done|rewrite length_seq; lia|rewrite length_replicate; lia].
  - induction n as [|n IH]; [done|]. cbn [replicate fmap list_fmap]. rewrite sum_cons, <- IH. done.
Qed.
End Grouping.

(** ** Lemmas: labels *)

(** How many groups have a label; a group with its number, when others have its label too. *)
Definition same_label (label : str) (groups : list GroupCount) : nat := length (filter (λ g, group_label g = label) groups).
Definition suffix_of (base before : list GroupCount) (g : GroupCount) : option nat :=
  if (same_label (group_label g) base <? 2)%nat then None else Some (S (same_label (group_label g) before)).
Definition with_suffix (suffix : option nat) (g : GroupCount) : GroupCount :=
  match suffix with
  | None => g
  | Some index => {| group_label := group_label g ++ lit " [" ++ to_dec (N.of_nat index) ++ lit "]"; group_count := group_count g |}
  end.
Definition numbered (base before : list GroupCount) (g : GroupCount) : GroupCount := with_suffix (suffix_of base before g) g.
Fixpoint suffixes_from (base before groups : list GroupCount) : list (option nat) :=
  match groups with
  | [] => []
  | g :: groups => suffix_of base before g :: suffixes_from base (before ++ [g]) groups
  end.

Lemma same_label_snoc label l g : same_label label (l ++ [g]) = (same_label label l + if decide (group_label g = label) then 1 else 0)%nat.
Proof. unfold same_label. rewrite filter_app, length_app, filter_cons, filter_nil. by case_decide. Qed.
Lemma occurrences_spec groups label : default 0%nat (occurrences groups !! label) = same_label label groups.
Proof.
  unfold occurrences. change (same_label label groups) with (default 0%nat ((∅ : gmap (list N) nat) !! label) + same_label label groups)%nat.
  generalize (∅ : gmap (list N) nat) as m. induction groups as [|g groups IH]; intros m; cbn [foldl]; [unfold same_label; simpl; lia|].
  rewrite IH. unfold same_label. rewrite filter_cons. destruct (decide (group_label g = label)) as [->|Hne].
  - rewrite lookup_insert_eq. simpl. lia.
  - by rewrite lookup_insert_ne.
Qed.
Lemma suffixes_from_lookup base groups : ∀ before i g, groups !! i = Some g →
  suffixes_from base before groups !! i = Some (suffix_of base (before ++ take i groups) g).
Proof.
  induction groups as [|x groups IH]; intros before [|i] g Hi; try done; cbn in Hi |- *; [injection Hi as ->; by rewrite app_nil_r|].
  rewrite (IH _ _ _ Hi), <- app_assoc. done.
Qed.
Lemma suffixes_from_length base groups before : length (suffixes_from base before groups) = length groups.
Proof. revert before. induction groups as [|g groups IH]; intros before; simpl; [done|]. by rewrite IH. Qed.

Section Labels.
Context `{Layout}.

Lemma number_labels_spec base counted groups : ∀ before seen base_used n b,
  (∀ label, default 0%nat (counted !! label) = same_label label base) →
  (∀ label, (2 ≤ same_label label base)%nat → default 0%nat (seen !! label) = same_label label before) →
  used b = base_used + n → fits b →
  wp (number_labels counted groups seen n b) (λ '(b', r), limit b' = limit b ∧ fits b' ∧ match r with
    | inl (l, m) => used b' = base_used + m ∧ l = suffixes_from base before groups
    | inr m => used b' = base_used + m
    end).
Proof.
  induction groups as [|g groups IH]; intros before seen base_used n b Hcounted Hseen Hu Hb; cbn [number_labels suffixes_from]; [done|].
  rewrite Hcounted. unfold suffix_of. destruct (Nat.ltb_spec (same_label (group_label g) base) 2) as [Hone|Hmany].
  - assert (∀ label, (2 ≤ same_label label base)%nat → default 0%nat (seen !! label) = same_label label (before ++ [g])) as Hseen'.
    { intros label Hl. rewrite same_label_snoc, decide_False by (intros <-; lia). rewrite Hseen by done. lia. }
    pose proof (IH (before ++ [g]) seen base_used n b Hcounted Hseen' Hu Hb) as Hr. unfold mbind, budgeted_bind.
    apply wp_Done in Hr as ([b' [[l m]|m]] & -> & Hl & Hb' & Hr); [|done]. cbn. destruct Hr as [? ->]. done.
  - set (charge_it := if is_some (seen !! group_label g) then mret n else charge_table SUFFIX_TABLE_ENTRY_BYTES n).
    apply (budgeted_call charge_it _ b (λ b' n, limit b' = limit b ∧ fits b' ∧ used b' = base_used + n) (λ b' n, limit b' = limit b ∧ fits b' ∧ used b' = base_used + n)).
    + unfold charge_it. destruct (is_some _); [done|]. eapply wp_mono; [by apply charge_table_spec|].
      intros [b' [m|m]] (? & ? & Hr); destruct Hr as [-> Hr]; [split_and!; [done|done|lia]|]. subst b'. done.
    + intros b' m (Hl & Hb' & Hu').
      pose proof (IH (before ++ [g]) (<[group_label g := S (default 0%nat (seen !! group_label g))]> seen) base_used m b' Hcounted) as Hr.
      specialize (Hr ltac:(intros label Hlabel; rewrite same_label_snoc; destruct (decide (group_label g = label)) as [<-|Hne];
        [rewrite lookup_insert_eq; simpl; rewrite Hseen by done; lia|rewrite lookup_insert_ne, Hseen by done; lia]) Hu' Hb').
      unfold mbind, budgeted_bind. apply wp_Done in Hr as ([b'' [[l k]|k]] & -> & Hl' & Hb'' & Hr); cbn; [|by rewrite Hl'].
      destruct Hr as [? ->]. rewrite Hl'. split_and!; [done..|]. by rewrite Hseen.
    + done.
Qed.

Definition labels_bytes (l : list GroupCount) : N := sum ((λ g, blen (group_label g) + ENTRY_OVERHEAD_BYTES) <$> l).
Lemma add_suffixes_spec groups : ∀ base_used suffixes b,
  length suffixes = length groups → used b = base_used + labels_bytes groups → fits b →
  wp (add_suffixes groups suffixes b) (λ '(b', r), limit b' = limit b ∧ fits b' ∧ match r with
    | inl l => used b' = base_used + labels_bytes l ∧ l = zip_with with_suffix suffixes groups
    | inr e => e = StateExceeded
    end).
Proof.
  induction groups as [|g groups IH]; intros base_used [|suffix suffixes] b Hlen Hu Hb; try done; cbn [add_suffixes].
  unfold labels_bytes in Hu. rewrite fmap_cons, sum_cons in Hu. fold (labels_bytes groups) in Hu.
  apply (budgeted_call _ _ b (λ b' g', limit b' = limit b ∧ fits b' ∧ g' = with_suffix suffix g ∧
      used b' = base_used + (blen (group_label g') + ENTRY_OVERHEAD_BYTES) + labels_bytes groups)
    (λ b' e, limit b' = limit b ∧ fits b' ∧ e = StateExceeded)); [| |done].
  - destruct suffix as [index|]; [|cbn [wp mret budgeted_ret]; split_and!; [done|done|done|lia]].
    destruct Hb as [Hf Hl]. unfold mbind, budgeted_bind, charging. set (label := group_label g ++ _).
    assert (blen (group_label g) ≤ blen label) as Hle by (unfold label; rewrite blen_app; lia).
    pose proof (charge_spec (blen label - blen (group_label g)) b Hl) as Hc. destruct (charge _ b).
    + destruct Hc as [-> ?]. unfold fits. cbn [wp mret budgeted_ret limit used restore group_label]. split_and!; [done|lia|done|done|lia].
    + unfold fits. cbn [wp]. done.
  - intros b' g' (Hl & Hb' & -> & Hu').
    eapply (budgeted_call _ _ b' (λ b'' l, limit b'' = limit b ∧ fits b'' ∧ l = zip_with with_suffix suffixes groups ∧
      used b'' = base_used + (blen (group_label (with_suffix suffix g)) + ENTRY_OVERHEAD_BYTES) + labels_bytes l)
      (λ b'' e, limit b'' = limit b ∧ fits b'' ∧ e = StateExceeded)); [| |done].
    + eapply wp_mono; [apply (IH (base_used + (blen (group_label (with_suffix suffix g)) + ENTRY_OVERHEAD_BYTES))); [by injection Hlen|done|done]|].
      intros [b'' [l|e]]; rewrite Hl; intros (? & ? & Hr); [|done]. destruct Hr as [? ->]. done.
    + intros b'' l (? & ? & -> & Hu''). cbn [wp mret budgeted_ret zip_with]. split_and!; [done..| |done].
      unfold labels_bytes. rewrite fmap_cons, sum_cons. fold (labels_bytes (zip_with with_suffix suffixes groups)). lia.
Qed.

Lemma disambiguate_spec base_used groups b :
  used b = base_used + labels_bytes groups → fits b →
  wp (disambiguate_labels groups b) (λ '(b', r), limit b' = limit b ∧ fits b' ∧ match r with
    | inl l => used b' = base_used + labels_bytes l ∧ l = zip_with with_suffix (suffixes_from groups [] groups) groups
    | inr e => e = StateExceeded
    end).
Proof.
  intros Hu Hb. unfold disambiguate_labels, collect_suffixes. set (size := saturating_mul _ _).
  assert (wp ((tables ← charge_table size 0; number_labels (occurrences groups) groups ∅ tables) b) (λ '(b', r), limit b' = limit b ∧ fits b' ∧ match r with
    | inl (l, m) => used b' = used b + m ∧ l = suffixes_from groups [] groups
    | inr m => used b' = used b + m
    end)) as Hs.
  { apply (budgeted_call _ _ b (λ b' n, limit b' = limit b ∧ fits b' ∧ used b' = used b + n) (λ b' n, limit b' = limit b ∧ fits b' ∧ used b' = used b + n)).
    - eapply wp_mono; [by apply charge_table_spec|]. intros [b' [m|m]] (? & ? & Hr); destruct Hr as [-> Hr]; [split_and!; [done|done|lia]|].
      subst b'. split_and!; [done|done|lia].
    - intros b' n (Hl & Hb' & Hu'). eapply wp_mono; [eapply (number_labels_spec groups _ groups [] ∅ (used b) n b'); [intros; apply occurrences_spec| |done|done]|].
      + intros label _. by rewrite lookup_empty.
      + intros [b'' r]. by rewrite Hl.
    - done. }
  apply wp_Done in Hs as ([b' [[l m]|m]] & -> & Hl & [Hf Hm] & Hr); cbn [mbind exec_bind].
  - destruct Hr as [Hu' ->]. rewrite (release_spec _ (used b)) by lia.
    eapply wp_mono; [apply (add_suffixes_spec groups base_used); [apply suffixes_from_length|done|]|].
    + destruct Hb. unfold fits. cbn [used limit restore]. rewrite Hl. done.
    + intros [b'' r]. cbn [limit restore]. by rewrite Hl.
  - rewrite (release_spec _ (used b)) by lia. unfold fits in *. cbn [wp used limit restore]. split_and!; [done|lia|done|done].
Qed.
End Labels.

(** ** Lemmas: the groups *)

Section Count.
Context `{Layout} (g : GroupBy).

(** The redacted events whose original has a key. *)
Definition keyed (k : str) (ps : list (CommandEvent * CommandEvent)) : list CommandEvent :=
  snd <$> filter (λ p, group_key p.1 g = k) ps.
Definition base_group (ps : list (CommandEvent * CommandEvent)) (k : str) : GroupCount :=
  {| group_label := default [] (first_label g (keyed k ps)); group_count := N.of_nat (length (keyed k ps)) |}.
(** The groups of events and their redacted forms: one for every original key, in the order of the
    keys, with the number of its events; its label is the redacted key of its first event, with a
    number when another group has the same. *)
Definition groups_of (l redacted : list CommandEvent) (groups : list GroupCount) : Prop :=
  ∃ keys, StronglySorted lt_cmp keys ∧ (∀ k, k ∈ keys ↔ ∃ e, e ∈ l ∧ group_key e g = k) ∧
    let base := base_group (zip l redacted) <$> keys in
    length groups = length base ∧ ∀ i x, base !! i = Some x → groups !! i = Some (numbered base (take i base) x).

Lemma members_keyed (order : list str) ids l redacted k i :
  (∀ (a b : nat) x, order !! a = Some x → order !! b = Some x → a = b) →
  Forall2 (λ i e, order !! i = Some (group_key e g)) ids l → order !! i = Some k →
  members i (zip ids redacted) = keyed k (zip l redacted).
Proof.
  intros Hunique Hall Hi. revert redacted. induction Hall as [|j e ids l Hj _ IH]; intros [|r redacted]; try done.
  unfold members, keyed. cbn [zip zip_with]. rewrite !filter_cons. cbn [fst].
  destruct (decide (j = i)) as [->|Hne].
  - rewrite (decide_True (P := group_key e g = k)) by congruence. cbn [fmap list_fmap snd]. f_equal. apply IH.
  - rewrite (decide_False (P := group_key e g = k)); [apply IH|]. intros <-. by apply Hne, (Hunique _ _ (group_key e g)).
Qed.

Definition groups_bytes (groups : list GroupCount) : N :=
  labels_bytes groups + saturating_mul (N.of_nat (length groups)) size_group_count.

Lemma counted_groups order r l s redacted n :
  collects g l order r → counting g n (zip (event_identity r) redacted) s → n = length order →
  foldr (λ '(_, i) groups,
      groups ← groups;
      label ← or_panic (labels s !! i);
      n ← or_panic (counts s !! i);
      mret ({| group_label := default [] label; group_count := n |} :: groups)) (mret []) (sorted_entries (identities r))
  = Done (base_group (zip l redacted) <$> (sorted_entries (identities r)).*1).
Proof.
  intros [Horder Hsize Hkeys Hevents] [Hlabels Hcounts Hkept] Hn.
  assert (Forall (λ ki, order !! ki.2 = Some ki.1) (sorted_entries (identities r))) as Hentries.
  { apply Forall_forall. intros [k i] Hin%elem_of_sorted_entries. by apply Horder. }
  assert (∀ (a b : nat) x, order !! a = Some x → order !! b = Some x → a = b) as Hunique.
  { intros a b x Ha%Horder Hb%Horder. congruence. }
  induction Hentries as [|[k i] entries Hi _ IH]; [done|]. cbn [foldr]. rewrite IH. cbn [mbind exec_bind].
  pose proof (lookup_lt_Some _ _ _ Hi) as Hlt. cbn [snd fst] in Hi.
  pose proof (members_keyed order (event_identity r) l redacted k i Hunique Hevents Hi) as Hmembers.
  rewrite Hlabels, Hcounts, !list_lookup_fmap, lookup_seq_lt by (simpl in Hlt; lia). cbn [fmap option_fmap option_map or_panic mbind exec_bind Nat.add].
  by rewrite Hmembers.
Qed.

Lemma kept_labels order r l s redacted :
  collects g l order r → counting g (length order) (zip (event_identity r) redacted) s → length redacted = length l →
  kept s = labels_bytes (base_group (zip l redacted) <$> (sorted_entries (identities r)).*1).
Proof.
  intros [Horder Hsize Hkeys Hevents] [Hlabels Hcounts Hkept] Hlen. rewrite Hkept, Hlabels. unfold labels_bytes.
  assert (∀ (a b : nat) x, order !! a = Some x → order !! b = Some x → a = b) as Hunique.
  { intros a b x Ha%Horder Hb%Horder. congruence. }
  assert ((sorted_entries (identities r)).*1 ≡ₚ order) as Hperm.
  { apply NoDup_Permutation.
    - rewrite sorted_entries_keys. unfold sort. rewrite sort_with_perm. apply NoDup_fst_map_to_list.
    - apply NoDup_alt. intros a b x. apply Hunique.
    - intros k. rewrite list_elem_of_fmap. split.
      + intros ([k' i] & -> & Hin%elem_of_sorted_entries%Horder). by eapply list_elem_of_lookup_2.
      + intros [i Hi]%list_elem_of_lookup. exists (k, i). split; [done|]. by apply elem_of_sorted_entries, Horder. }
  etrans; [|apply (sum_perm ((λ x, blen (group_label x) + ENTRY_OVERHEAD_BYTES) <$> (base_group (zip l redacted) <$> order)));
    do 2 apply fmap_Permutation; by rewrite Hperm].
  f_equal. apply list_eq. intros i. rewrite !list_lookup_fmap. destruct (decide (i < length order)%nat) as [Hi|Hi].
  2: { by rewrite !lookup_ge_None_2 by (rewrite ?length_seq; lia). }
  destruct (lookup_lt_is_Some_2 order i Hi) as [k Hk]. rewrite Hk, lookup_seq_lt by done. cbn [fmap option_fmap option_map Nat.add].
  rewrite (members_keyed order (event_identity r) l redacted k i Hunique Hevents Hk). f_equal. cbn [base_group group_label].
  assert (keyed k (zip l redacted) ≠ []) as Hne.
  { assert (k ∈ (λ e, group_key e g) <$> l) as (e & -> & [j Hj]%list_elem_of_lookup)%list_elem_of_fmap by (apply Hkeys; by eapply list_elem_of_lookup_2).
    destruct (lookup_lt_is_Some_2 redacted j) as [x Hx]; [rewrite Hlen; by eapply lookup_lt_Some|].
    assert (x ∈ keyed (group_key e g) (zip l redacted)) as Hin; [|intros Hnil; rewrite Hnil in Hin; by apply elem_of_nil in Hin].
    unfold keyed. apply list_elem_of_fmap. exists (e, x). split; [done|]. apply list_elem_of_filter. split; [done|].
    apply list_elem_of_lookup. exists j. apply lookup_zip_with_Some. by exists e, x. }
  unfold first_label. by destruct (keyed k (zip l redacted)).
Qed.

Lemma count_spec base order r l redacted b :
  collects g l order r → length redacted = length l → used b = base + raw_charged r → fits b →
  wp (count r redacted g b) (λ '(b', x), limit b' = limit b ∧ fits b' ∧ match x with
    | inl groups => used b' = base + groups_bytes groups ∧ groups_of l redacted groups
    | inr e => e = StateExceeded
    end).
Proof.
  intros Hr Hlen Hu Hb. pose proof Hr as [Horder Hsize Hkeys Hevents]. unfold count. rewrite Hsize. set (n := length order) in *.
  set (table := saturating_mul (N.of_nat n) (size_option_string + size_usize)).
  apply (budgeted_call _ _ b (λ b' m, limit b' = limit b ∧ fits b' ∧ m = table ∧ used b' = used b + table) (λ b' e, limit b' = limit b ∧ fits b' ∧ e = StateExceeded)); [| |done].
  { eapply wp_mono; [by apply charge_tracked_spec|]. intros [b' [m|e]] (? & ? & Hx); [|done]. destruct Hx as [-> ?]. split_and!; [done|done|lia|lia]. }
  intros b1 m (Hl1 & Hb1 & -> & Hu1).
  apply (budgeted_call _ _ b1 (λ b' s, limit b' = limit b ∧ fits b' ∧ used b' = used b1 + kept s ∧ counting g n (zip (event_identity r) redacted) s)
    (λ b' e, limit b' = limit b ∧ fits b' ∧ e = StateExceeded)); [| |done].
  { eapply wp_mono; [eapply (count_events_spec g (used b1) n (event_identity r) redacted [])|].
    - rewrite Hlen. symmetry. by eapply Forall2_length.
    - eapply Forall2_Forall_l; [exact Hevents|]. apply Forall_forall. intros e _ i Hi. by eapply lookup_lt_Some.
    - apply counting_start.
    - cbn [kept]. lia.
    - done.
    - intros [b' [s|e]]; rewrite Hl1; done. }
  intros b2 s (Hl2 & Hb2 & Hu2 & Hs). set (base_groups := base_group (zip l redacted) <$> (sorted_entries (identities r)).*1).
  assert (length base_groups = n) as Hbase.
  { unfold base_groups. rewrite length_fmap, <- Hsize, <- length_map_to_list.
    rewrite sorted_entries_keys. unfold sort. by rewrite length_sort_with, length_fmap. }
  set (table' := saturating_mul (N.of_nat n) size_group_count).
  apply (budgeted_call _ _ b2 (λ b' _, limit b' = limit b ∧ fits b' ∧ used b' = used b2 + table') (λ b' e, limit b' = limit b ∧ fits b' ∧ e = StateExceeded)); [| |done].
  { eapply wp_mono; [by apply charge_tracked_spec|]. intros [b' [m|e]]; rewrite Hl2; intros (? & ? & Hx); [|done]. destruct Hx as [_ ?]. done. }
  intros b3 _ (Hl3 & Hb3 & Hu3). unfold mbind at 1, budgeted_bind at 1, running.
  rewrite (counted_groups order r l s redacted n Hr Hs eq_refl). cbn [mbind exec_bind]. fold base_groups.
  unfold mbind at 1, budgeted_bind at 1, releasing at 1.
  pose proof (kept_labels order r l s redacted Hr Hs Hlen) as Hkept. fold base_groups in Hkept.
  rewrite (release_spec _ (base + table' + labels_bytes base_groups)) by lia.
  assert (fits (restore (base + table' + labels_bytes base_groups) b3)) as Hb4.
  { destruct Hb3. unfold fits. cbn [used limit restore]. split; [lia|done]. }
  eapply wp_mono; [apply (disambiguate_spec (base + table') base_groups); [done|exact Hb4]|].
  intros [b' [groups|e]]; cbn [limit restore]; rewrite Hl3; [|done]. intros (? & ? & Hu' & ->).
  assert (length (zip_with with_suffix (suffixes_from base_groups [] base_groups) base_groups) = length base_groups) as Hlength.
  { rewrite length_zip_with, suffixes_from_length. lia. }
  split_and!; [done|done| |].
  - unfold groups_bytes. rewrite Hlength, Hbase. fold table'. lia.
  - exists (sorted_entries (identities r)).*1. split_and!.
    + rewrite sorted_entries_keys. apply sort_NoDup_strict, NoDup_fst_map_to_list.
    + intros k. rewrite list_elem_of_fmap. split.
      * intros ([k' i] & -> & Hin%elem_of_sorted_entries%Horder%list_elem_of_lookup_2). cbn [fst].
        apply Hkeys in Hin. apply list_elem_of_fmap in Hin as (e & -> & ?). by exists e.
      * intros (e & He & <-). assert (group_key e g ∈ order) as [i Hi]%list_elem_of_lookup by (apply Hkeys, list_elem_of_fmap; by exists e).
        exists (group_key e g, i). split; [done|]. by apply elem_of_sorted_entries, Horder.
    + cbv zeta. fold base_groups. split; [exact Hlength|]. intros i x Hi. apply lookup_zip_with_Some. exists (suffix_of base_groups (take i base_groups) x), x.
      split_and!; [done| |done]. by apply (suffixes_from_lookup base_groups base_groups []).
Qed.
End Count.

(** ** CSV *)

(** Reading a report back: a quoted field with its quotes doubled, a row, and all rows. *)
Fixpoint csv_content (s : str) : option (str * str) :=
  match s with
  | [] => None
  | c :: s =>
      if c =? 34 then
        match s with
        | [] => Some ([], [])
        | d :: s' => if d =? 34 then (λ '(content, rest), (34 :: content, rest)) <$> csv_content s' else Some ([], s)
        end
      else (λ '(content, rest), (c :: content, rest)) <$> csv_content s
  end.
Fixpoint parse_row (fuel : nat) (s : str) : option (list str * str) :=
  match fuel with
  | O => None
  | S fuel =>
      s ← strip_prefix quote s;
      '(field, s) ← csv_content s;
      match s with
      | 10 :: s => Some ([field], s)
      | 44 :: s => '(fields, s) ← parse_row fuel s; Some (field :: fields, s)
      | _ => None
      end
  end.
Fixpoint parse_rows (fuel : nat) (s : str) : option (list (list str)) :=
  match fuel with
  | O => None
  | S fuel =>
      match s with
      | [] => Some []
      | _ => '(row, s) ← parse_row (length s) s; rows ← parse_rows fuel s; Some (row :: rows)
      end
  end.
Definition parse_csv (s : str) : option (list (list str)) :=
  '(_, rows) ← split_once 10 s; parse_rows (S (length rows)) rows.

Lemma bind_without c (r s : str) : c ∉ s → s ≫= (λ x, if x =? c then r else [x]) = s.
Proof.
  induction s as [|x s IH]; [done|]. intros [Hx Hs]%not_elem_of_cons. rewrite bind_cons, (IH Hs).
  destruct (N.eqb_spec x c) as [->|_]; done.
Qed.
Lemma split_once_str_char c s a b : split_once_str [c] s = Some (a, b) → s = a ++ c :: b ∧ c ∉ a.
Proof.
  intros Hs. pose proof (split_once_str_sound _ _ _ _ Hs) as ->. split; [done|].
  intros (a1 & a2 & ->)%list_elem_of_split.
  pose proof (split_once_str_first [c] _ _ _ a1 (a2 ++ c :: b) Hs) as Hfirst.
  rewrite length_app in Hfirst. simpl in Hfirst. specialize (Hfirst ltac:(by rewrite <- app_assoc)). lia.
Qed.
Lemma split_once_str_char_None c s : split_once_str [c] s = None → c ∉ s.
Proof.
  induction s as [|x s IH]; cbn [split_once_str strip_prefix]; [intros _; apply not_elem_of_nil|].
  destruct (N.eqb_spec c x) as [->|Hx]; [done|]. destruct (split_once_str [c] s) as [[a b]|]; [done|].
  intros _. apply not_elem_of_cons. by split; [|apply IH].
Qed.
Lemma replace_char_bind c r s : replace [c] r s = s ≫= λ x, if x =? c then r else [x].
Proof.
  unfold replace, split_str.
  assert (∀ n s, (length s ≤ n)%nat → join r (split_str_from n [c] s) = s ≫= λ x, if x =? c then r else [x]) as Hn; [|by apply Hn].
  clear s. induction n as [|n IH]; intros s Hlen; [by destruct s; [|simpl in Hlen; lia]|].
  cbn [split_str_from]. destruct (split_once_str [c] s) as [[a b]|] eqn:Hsplit.
  - apply split_once_str_char in Hsplit as [-> Ha]. rewrite length_app in Hlen. simpl in Hlen.
    rewrite bind_app, (bind_without c r a Ha), bind_cons, N.eqb_refl. specialize (IH b ltac:(lia)).
    assert (split_str_from n [c] b ≠ []) as Hne by (destruct n; [done|]; cbn [split_str_from]; by destruct (split_once_str [c] b) as [[??]|]).
    destruct (split_str_from n [c] b) as [|p ps] eqn:Hp; [done|]. by rewrite <- IH.
  - apply split_once_str_char_None in Hsplit. by rewrite bind_without.
Qed.

(** *** Reading a rendered row *)

Lemma csv_content_field value rest : head rest ≠ Some 34 →
  csv_content ((value ≫= λ x, if x =? 34 then [34; 34] else [x]) ++ 34 :: rest) = Some (value, rest).
Proof.
  intros Hrest. induction value as [|c value IH].
  - cbn. destruct rest as [|d rest]; [done|]. destruct (N.eqb_spec d 34) as [->|]; [by destruct Hrest|done].
  - rewrite bind_cons, <- app_assoc. destruct (N.eqb_spec c 34) as [->|Hc]; cbn [app csv_content].
    + rewrite !N.eqb_refl, IH. done.
    + apply N.eqb_neq in Hc. by rewrite Hc, IH.
Qed.
Lemma strip_csv_field value rest : head rest ≠ Some 34 →
  strip_prefix quote (csv_field value ++ rest) ≫= csv_content = Some (value, rest).
Proof.
  intros Hrest. unfold csv_field. rewrite <- !app_assoc, strip_prefix_app. unfold quote.
  rewrite replace_char_bind. by apply csv_content_field.
Qed.
Lemma parse_csv_row fields rest n :
  fields ≠ [] → (length fields ≤ n)%nat → parse_row n (csv_row fields ++ rest) = Some (fields, rest).
Proof.
  unfold csv_row, newline. revert n. induction fields as [|f fields IH]; intros [|n] Hne Hlen; [done|done|simpl in Hlen; lia|].
  cbn [parse_row]. destruct fields as [|f' fields].
  - cbn [fmap list_fmap join]. rewrite <- app_assoc.
    pose proof (strip_csv_field f ([10] ++ rest) ltac:(done)) as Hf. destruct (strip_prefix quote _) as [s|]; [|done].
    cbn [mbind option_bind] in Hf |- *. by rewrite Hf.
  - specialize (IH n ltac:(done) ltac:(simpl in *; lia)). rewrite fmap_cons.
    change (join (lit ",") (csv_field f :: (csv_field <$> (f' :: fields))))
      with (csv_field f ++ 44 :: join (lit ",") (csv_field <$> (f' :: fields))).
    rewrite <- !app_assoc in *. cbn [app] in *.
    pose proof (strip_csv_field f (44 :: join (lit ",") (csv_field <$> (f' :: fields)) ++ 10 :: rest) ltac:(done)) as Hf.
    destruct (strip_prefix quote _) as [s|]; [|done]. cbn [mbind option_bind] in Hf |- *. rewrite Hf. cbn [mbind option_bind].
    by rewrite IH.
Qed.
Lemma join_length sep l : (N.to_nat 0 < length sep)%nat → (length l ≤ S (length (join sep l)))%nat.
Proof.
  intros Hsep. induction l as [|x [|y l] IH]; [simpl; lia..|].
  change (join sep (x :: y :: l)) with (x ++ sep ++ join sep (y :: l)). rewrite !length_app. simpl in *. lia.
Qed.
Lemma parse_rows_csv rows : ∀ n, Forall (λ fields, fields ≠ []) rows → (length rows < n)%nat →
  parse_rows n (mjoin (csv_row <$> rows)) = Some rows.
Proof.
  induction rows as [|fields rows IH]; intros [|n] Hne Hlen; try (simpl in Hlen; lia); [done|].
  apply Forall_cons in Hne as [Hfields Hne]. cbn [parse_rows fmap list_fmap mjoin list_join].
  set (rest := mjoin _) in *.
  assert (length fields ≤ length (csv_row fields ++ rest))%nat as Hlength.
  { unfold csv_row, newline. rewrite !length_app. pose proof (join_length (lit ",") (csv_field <$> fields) ltac:(simpl; lia)) as Hj.
    rewrite length_fmap in Hj. simpl. lia. }
  destruct (csv_row fields ++ rest) as [|c s] eqn:Hs; [unfold csv_row, newline in Hs; destruct (join (lit ",") (csv_field <$> fields)); done|].
  rewrite <- Hs in *. rewrite (parse_csv_row fields rest _ Hfields Hlength). cbn [mbind option_bind].
  unfold rest. rewrite IH; [done|done|simpl in Hlen; lia].
Qed.
Lemma rows_length (rows : list (list str)) : (length rows ≤ length (mjoin (csv_row <$> rows)))%nat.
Proof.
  induction rows as [|fields rows IH]; [done|].
  change (mjoin (csv_row <$> fields :: rows)) with (csv_row fields ++ mjoin (csv_row <$> rows)). rewrite length_app. cbn [length].
  assert (0 < length (csv_row fields))%nat by (unfold csv_row, newline; rewrite length_app, Nat.add_comm; by apply Nat.lt_0_succ). lia.
Qed.
Lemma parse_csv_spec (rows : list (list str)) :
  Forall (λ fields, fields ≠ []) rows → parse_csv (CSV_HEADER ++ mjoin (csv_row <$> rows)) = Some rows.
Proof.
  intros Hne. unfold parse_csv.
  assert (split_once 10 (CSV_HEADER ++ mjoin (csv_row <$> rows)) =
    Some (lit "timestamp,ide,agent,project,session,tool,cwd,category,command,call_id,maven", mjoin (csv_row <$> rows))) as ->.
  { apply split_once_spec. unfold CSV_HEADER, newline. rewrite <- app_assoc. split; [done|]. apply (bool_decide_unpack _). vm_compute. done. }
  cbn [mbind option_bind]. apply parse_rows_csv; [done|].
  apply Nat.lt_succ_r, rows_length.
Qed.

(** C30: a CSV report loses nothing: whatever quotes, commas and line breaks the events hold, reading
    it back as CSV gives the fields of every event, in their order. *)
Theorem csv_round_trip `{ReportJson} l text :
  render_events l Csv = Some text →
  ∃ rows, parse_csv text = Some rows ∧ Forall2 (λ e fields, csv_fields e = Some fields) l rows.
Proof.
  cbn [render_events]. intros (rows & Hrows%mapM_Some & ->)%fmap_Some. exists rows. split; [|done]. apply parse_csv_spec.
  apply Forall_forall. intros fields [i Hi]%list_elem_of_lookup. eapply Forall2_lookup_r in Hi as (e & _ & He); [|exact Hrows].
  unfold csv_fields in He. destruct (maven e) as [m|]; cbn [mbind option_bind] in He; [destruct (compact_maven m); [|done]|]; by injection He as <-.
Qed.

(** ** Theorems: groups *)

Section Grouped.
Context `{Layout} (g : GroupBy).

Lemma sum_indicator (k : str) keys : NoDup keys → k ∈ keys → sum ((λ x, if decide (k = x) then 1 else 0) <$> keys) = 1.
Proof.
  intros Hkeys. induction Hkeys as [|x keys Hx _ IH]; [intros []%elem_of_nil|]. rewrite fmap_cons, sum_cons.
  intros [->|Hk]%elem_of_cons.
  - rewrite decide_True by done. assert (sum ((λ y, if decide (x = y) then 1 else 0) <$> keys) = 0) as ->; [|done].
    clear IH. induction keys as [|y keys IH]; [done|]. apply not_elem_of_cons in Hx as [Hne Hx]. rewrite fmap_cons, sum_cons, decide_False by done. by apply IH.
  - rewrite decide_False by (intros ->; done). rewrite IH by done. done.
Qed.
Lemma sum_fmap_add {A} (f h : A → N) l : sum ((λ x, f x + h x) <$> l) = sum (f <$> l) + sum (h <$> l).
Proof. induction l as [|x l IH]; [done|]. rewrite !fmap_cons, !sum_cons, IH. lia. Qed.
Lemma keyed_partition keys ps : NoDup keys → (∀ p, p ∈ ps → group_key p.1 g ∈ keys) →
  sum ((λ k, N.of_nat (length (keyed g k ps))) <$> keys) = N.of_nat (length ps).
Proof.
  intros Hkeys. induction ps as [|p ps IH]; intros Hps.
  - clear. induction keys as [|k keys IH]; [done|]. rewrite fmap_cons, sum_cons, IH. done.
  - assert ((λ k, N.of_nat (length (keyed g k (p :: ps)))) <$> keys
      = (λ k, (if decide (group_key p.1 g = k) then 1 else 0) + N.of_nat (length (keyed g k ps))) <$> keys) as ->.
    { apply list_fmap_ext. intros _ k _. unfold keyed. rewrite filter_cons. case_decide; [|done]. rewrite fmap_cons. cbn [length]. lia. }
    rewrite sum_fmap_add, sum_indicator, IH by (done || (intros; apply Hps; by constructor)). cbn [length]. lia.
Qed.
Lemma with_suffix_count s x : group_count (with_suffix s x) = group_count x.
Proof. by destruct s. Qed.
Lemma groups_total l redacted groups : length redacted = length l → groups_of g l redacted groups →
  sum (group_count <$> groups) = N.of_nat (length l).
Proof.
  intros Hlen (keys & Hsorted & Hkeys & Hlength & Hgroups). set (base := base_group g (zip l redacted) <$> keys) in *.
  assert (group_count <$> groups = group_count <$> base) as ->.
  { apply list_eq. intros i. rewrite !list_lookup_fmap. destruct (base !! i) as [x|] eqn:Hx.
    - rewrite (Hgroups i x Hx). cbn. f_equal. apply with_suffix_count.
    - apply lookup_ge_None in Hx. by rewrite lookup_ge_None_2 by lia. }
  unfold base. rewrite <- list_fmap_compose. etrans; [apply (keyed_partition keys (zip l redacted))|].
  - by apply strictly_sorted_NoDup.
  - intros [e r] Hin. apply elem_of_zip_l in Hin. apply Hkeys. by exists e.
  - rewrite length_zip. lia.
Qed.

(** C29: grouping is by the events as they were read while the labels are those of the events as
    they are shown: whatever happens to the events and to the budget in between, there is one
    group for every original key, in the order of the keys, with the number of its events, so that
    redaction neither merges nor splits groups and no event is lost; the label is the shown key of
    the first event of the group, numbered in that order when another group has the same, and the
    budget ends with exactly the groups. *)
Theorem groups_exact l b : fits b →
  wp (collect l g b) (λ '(b1, r), limit b1 = limit b ∧ fits b1 ∧ match r with
    | inr e => e = StateExceeded
    | inl raw => used b1 = used b + raw_charged raw ∧ ∀ redacted base b2,
        length redacted = length l → used b2 = base + raw_charged raw → fits b2 →
        wp (count raw redacted g b2) (λ '(b3, r), limit b3 = limit b2 ∧ fits b3 ∧ match r with
          | inl groups => used b3 = base + groups_bytes groups ∧ groups_of g l redacted groups ∧
              sum (group_count <$> groups) = N.of_nat (length l)
          | inr e => e = StateExceeded
          end)
    end).
Proof.
  intros Hb. eapply wp_mono; [by apply collect_spec|]. intros [b1 [raw|e]]; [|done]. intros (Hl & Hb1 & Hu & order & Hraw).
  split_and!; [done..|]. intros redacted base b2 Hlen Hu2 Hb2. eapply wp_mono; [by eapply count_spec|].
  intros [b3 [groups|e]]; [|done]. intros (? & ? & ? & Hg). split_and!; [done..|]. by eapply groups_total.
Qed.
End Grouped.

(** ** Theorems: the report *)

Section Report.
Context `{Layout, LogLibraries, LogFiles, PrivacyPatterns, ReportJson}.

(** Every path read in turn: its events, or why there are none. *)
Definition events_of (r : EventLog + ReadError) : list CommandEvent := match r with inl log => events log | inr _ => [] end.
Definition skipped_of (r : EventLog + ReadError) : nat := match r with inl log => skipped_records log | inr _ => 0 end.
Definition oversized_of (r : EventLog + ReadError) : nat := match r with inl log => oversized_records log | inr _ => 0 end.
Definition failed_of (r : EventLog + ReadError) : nat := match r with inr Unreadable => 1 | _ => 0 end.
Definition too_large_of (r : EventLog + ReadError) : nat := match r with inr (Exceeded InputExceeded) => 1 | _ => 0 end.
Definition gathered (results : list (EventLog + ReadError)) : Collected :=
  {| collected := mjoin (events_of <$> results); failed_files := sum_list (failed_of <$> results);
     unread_records := sum_list (skipped_of <$> results); oversized_files := sum_list (too_large_of <$> results);
     large_records := sum_list (oversized_of <$> results) |}.
Definition out_of_state (r : EventLog + ReadError) : bool := match r with inr (Exceeded StateExceeded) => true | _ => false end.
Definition read_result (cli : Cli) (p : path) (r : EventLog + ReadError) : Prop :=
  out_of_state r = false ∧ ∃ b b', fits b ∧ limit b = max_state_bytes (limits cli) ∧ read (limits cli) p (source cli) b = Done (b', r).
Definition both (c d : Collected) : Collected :=
  {| collected := collected c ++ collected d; failed_files := (failed_files c + failed_files d)%nat;
     unread_records := (unread_records c + unread_records d)%nat; oversized_files := (oversized_files c + oversized_files d)%nat;
     large_records := (large_records c + large_records d)%nat |}.

Lemma both_nothing c : both c (gathered []) = c.
Proof. destruct c. unfold both, gathered. cbn. rewrite app_nil_r, !Nat.add_0_r. done. Qed.
Lemma both_gathered c r results : both (both c (gathered [r])) (gathered results) = both c (gathered (r :: results)).
Proof. unfold both, gathered. cbn. rewrite !app_nil_r, !Nat.add_0_r, <- !app_assoc, !Nat.add_assoc. done. Qed.

Lemma read_paths_cons cli p l c b : read_paths cli (p :: l) c b =
  ('(b', r) ← read (limits cli) p (source cli) b;
   if out_of_state r then Done (b', inr StateBudgetExceeded)
   else read_paths cli l (both c (gathered [r])) b').
Proof.
  cbn [read_paths]. destruct (read (limits cli) p (source cli) b) as [[b' r]| |]; [|done..]. cbn [mbind exec_bind].
  destruct r as [log|[[]|]]; cbn [out_of_state]; try done; f_equal; destruct c; unfold both, gathered; cbn;
    rewrite ?app_nil_r, ?Nat.add_0_r, ?Nat.add_1_r; done.
Qed.
Lemma read_paths_spec base cli l : ∀ c b,
  max_record_bytes (limits cli) + 3 ≤ u64_max → limit b = max_state_bytes (limits cli) →
  used b = base + retained_bytes (collected c) → fits b →
  wp (read_paths cli l c b) (λ '(b', r), limit b' = limit b ∧ fits b' ∧ match r with
    | inl c' => used b' = base + retained_bytes (collected c') ∧
        ∃ results, Forall2 (read_result cli) l results ∧ c' = both c (gathered results)
    | inr e => e = StateBudgetExceeded
    end).
Proof.
  induction l as [|p l IH]; intros c b Hmax Hlimit Hu Hb.
  { cbn [read_paths wp]. split_and!; [done..|]. exists []. split; [constructor|]. by rewrite both_nothing. }
  rewrite read_paths_cons. destruct Hb as [Hf Hm].
  pose proof (read_spec (limits cli) p (source cli) b Hmax Hf Hm) as Hr.
  apply wp_Done in Hr as ([b' r] & Hread & Hl & Hf' & Hr). rewrite Hread. cbn [mbind exec_bind].
  assert (fits b') as Hb' by (split; [done|by rewrite Hl]).
  destruct (out_of_state r) eqn:Hstate; [cbn [wp]; by split_and!|].
  assert (used b' = base + retained_bytes (collected (both c (gathered [r])))) as Hu'.
  { assert (collected (both c (gathered [r])) = collected c ++ events_of r) as -> by (cbn; by rewrite app_nil_r).
    rewrite retained_app. destruct r as [log|]; cbn [events_of] in *; [|change (retained_bytes []) with 0]; lia. }
  eapply wp_mono; [apply (IH (both c (gathered [r])) b' Hmax ltac:(congruence) Hu' Hb')|].
  intros [b'' [c'|e]]; rewrite Hl; [|done]. intros (? & ? & ? & results & Hall & ->). split_and!; [done..|].
  exists (r :: results). split; [|apply both_gathered]. constructor; [|done]. split; [done|]. exists b, b'. done.
Qed.

(** What the report is made from. *)
Definition selected (cli : Cli) (c : Collected) (kept : list CommandEvent) : Prop :=
  ∃ l since until, (if keep_duplicates cli then l = sort_events (collected c) else deduplicated (collected c) l) ∧
    bounds cli = inl (since, until) ∧ kept = filter_events l (filter_of cli since until).
Definition presented (cli : Cli) (var : string → option str) (kept displayed : list CommandEvent) : Prop :=
  if unsafe_no_redact cli then displayed = kept
  else ∃ t, tables_of var kept (workspace cli) (redact_patterns cli) t ∧ displayed = redact_event t <$> kept ∧
    Forall (λ e, Forall printable (event_texts e)) displayed.
Definition reported_as (cli : Cli) (kept displayed : list CommandEvent) (text : str) : Prop :=
  match group_by cli with
  | Some g => ∃ groups, groups_of g kept displayed groups ∧ render_groups groups (format cli) = Some text
  | None => render_events displayed (format cli) = Some text
  end.

Lemma sort_events_retained l : retained_bytes (sort_events l) = retained_bytes l.
Proof. apply retained_perm, sort_with_perm. Qed.
Lemma presented_length cli var kept displayed : presented cli var kept displayed → length displayed = length kept.
Proof. unfold presented. destruct (unsafe_no_redact cli); [by intros ->|]. intros (t & _ & -> & _). apply length_fmap. Qed.
Lemma shown_spec base cli var l b : used b = base + retained_bytes l → fits b →
  wp (shown cli var l b) (λ '(b', r), limit b' = limit b ∧ fits b' ∧ match r with
    | inl displayed => used b' = base + retained_bytes displayed ∧ presented cli var l displayed
    | inr e => e = StateBudgetExceeded
    end).
Proof.
  intros Hu [Hf Hl]. unfold shown, presented. destruct (unsafe_no_redact cli); [done|]. unfold reported.
  destruct (redact_events_spec var base l (workspace cli) (redact_patterns cli) b Hu Hf Hl) as [Hr _].
  apply wp_Done in Hr as ([b' r] & -> & Hl' & Hf' & Hr). cbn [mbind exec_bind wp]. unfold fits. rewrite Hl' in *.
  split_and!; [done..|]. destruct r as [displayed|e]; [|done]. destruct Hr as (? & t & ? & ? & ? & _). split; [done|]. by exists t.
Qed.
Lemma ordered_spec base cli l b : used b = base + retained_bytes l → fits b →
  wp ((if keep_duplicates cli then mret (sort_events l) else reported (deduplicate_events_within l)) b) (λ '(b', r), limit b' = limit b ∧ fits b' ∧ match r with
    | inl l' => used b' = base + retained_bytes l' ∧ (if keep_duplicates cli then l' = sort_events l else deduplicated l l')
    | inr e => e = StateBudgetExceeded
    end).
Proof.
  intros Hu [Hf Hl]. destruct (keep_duplicates cli).
  - cbn [wp mret budgeted_ret]. rewrite sort_events_retained. done.
  - unfold reported. pose proof (deduplicate_spec base l b Hu Hf Hl) as Hd. apply wp_Done in Hd as ([b' r] & -> & Hl' & Hf' & Hr).
    cbn [mbind exec_bind wp]. unfold fits. rewrite Hl' in *. split_and!; [done..|]. by destruct r.
Qed.

(** The rendering of the events or of their groups, if they have one. *)
Definition renders (cli : Cli) (kept displayed : list CommandEvent) (o : option str) : Prop :=
  match group_by cli with
  | Some g => ∃ groups, groups_of g kept displayed groups ∧ o = render_groups groups (format cli)
  | None => o = render_events displayed (format cli)
  end.
(** What a run ends with, after the paths are known. *)
Definition outcome (cli : Cli) (var : string → option str) (paths : list path) (canonical_output : option path)
    (r : str + ReportError) : Prop :=
  let made (o : option str) := ∃ results kept displayed,
    Forall2 (read_result cli) paths results ∧ (collected (gathered results) = [] → partial (gathered results) = false) ∧
    selected cli (gathered results) kept ∧ presented cli var kept displayed ∧ renders cli kept displayed o in
  match r with
  | inl text => (∀ p, canonical_output = Some p → p ∉ paths) ∧ made (Some text)
  | inr JsonError => made None
  | inr OutputIsInput => ∃ p, canonical_output = Some p ∧ p ∈ paths
  | inr NothingRecovered => ∃ results, Forall2 (read_result cli) paths results ∧
      collected (gathered results) = [] ∧ partial (gathered results) = true
  | inr InvalidTime => bounds cli = inr InvalidTime
  | inr SinceAfterUntil => bounds cli = inr SinceAfterUntil
  | inr StateBudgetExceeded => True
  | inr NoInput | inr UnreadableInput => False
  end.

Lemma reported_spec {A} (m : budgeted LimitExceeded A) b (P : StateBudget → A → Prop) :
  wp (m b) (λ '(b', r), limit b' = limit b ∧ fits b' ∧ match r with inl a => P b' a | inr e => e = StateExceeded end) →
  wp (reported m b) (λ '(b', r), match r with inl a => limit b' = limit b ∧ fits b' ∧ P b' a | inr e => e = StateBudgetExceeded end).
Proof. unfold reported. intros Hm. destruct (m b) as [[b' [a|e]]| |]; [|done..]. done. Qed.
Lemma rendered_spec o b : rendered o b = Done (b, match o with Some text => inl text | None => inr JsonError end).
Proof. by destruct o. Qed.
Lemma finish_spec base cli var l b : used b = base + retained_bytes l → fits b →
  wp (match group_by cli with
      | Some g =>
          raw ← reported (collect l g);
          l ← shown cli var l;
          groups ← reported (count raw l g);
          rendered (render_groups groups (format cli))
      | None => l ← shown cli var l; rendered (render_events l (format cli))
      end b) (λ '(_, r), match r with
    | inl text => ∃ displayed, presented cli var l displayed ∧ renders cli l displayed (Some text)
    | inr JsonError => ∃ displayed, presented cli var l displayed ∧ renders cli l displayed None
    | inr e => e = StateBudgetExceeded
    end).
Proof.
  intros Hu Hb. unfold renders. destruct (group_by cli) as [g|].
  - eapply budgeted_call; [apply reported_spec, collect_spec, Hb| |by intros b1 e ->].
    intros b1 raw (Hl1 & Hb1 & Hu1 & order & Hraw).
    eapply budgeted_call.
    + eapply wp_mono; [apply (shown_spec (base + raw_charged raw)); [lia|exact Hb1]|]. intros [b2 [d|e]] (Hl2 & Hb2 & Hd); [exact (conj Hb2 Hd)|exact Hd].
    + intros b2 displayed (Hb2 & Hu2 & Hp).
      eapply budgeted_call; [apply reported_spec; eapply (count_spec g (base + retained_bytes displayed)); [done|by eapply presented_length|lia|done]| |by intros b3 e ->].
      intros b3 groups (_ & _ & _ & Hgroups). rewrite rendered_spec. cbn [wp]. destruct (render_groups groups (format cli)) eqn:Ho; naive_solver.
    + by intros b2 e ->.
  - eapply budgeted_call.
    + eapply wp_mono; [apply (shown_spec base); [exact Hu|exact Hb]|]. intros [b2 [d|e]] (Hl2 & Hb2 & Hd); [exact Hd|exact Hd].
    + intros b2 displayed (Hu2 & Hp). rewrite rendered_spec. cbn [wp]. destruct (render_events displayed (format cli)) eqn:Ho; naive_solver.
    + by intros b2 e ->.
Qed.

Lemma bounds_error cli e : bounds cli = inr e → e = InvalidTime ∨ e = SinceAfterUntil.
Proof. unfold bounds. repeat case_match; intros [= <-]; auto. Qed.
Lemma report_spec base cli var paths canonical_output b :
  max_record_bytes (limits cli) + 3 ≤ u64_max → limit b = max_state_bytes (limits cli) → used b = base → fits b →
  wp (report cli var paths canonical_output b) (λ '(_, r), outcome cli var paths canonical_output r).
Proof.
  intros Hmax Hlimit Hu Hb. unfold report.
  destruct (is_some_and (λ p, bool_decide (p ∈ paths)) canonical_output) eqn:Hout.
  { destruct canonical_output as [p|]; [|done]. cbn in Hout. apply bool_decide_eq_true in Hout. cbn. by exists p. }
  assert (∀ p, canonical_output = Some p → p ∉ paths) as Hnot.
  { intros p ->. cbn in Hout. by apply bool_decide_eq_false in Hout. }
  eapply budgeted_call.
  { eapply wp_mono; [apply (read_paths_spec base cli paths nothing); [done|done|cbn [collected nothing]; change (retained_bytes []) with 0; lia|done]|].
    intros [b1 [c|e]] (Hl1 & Hb1 & Hc); [exact (conj (conj Hl1 Hb1) Hc)|exact Hc]. }
  2: by intros b1 e ->.
  intros b1 c ([Hl1 Hb1] & Hu1 & results & Hall & ->). change (both nothing (gathered results)) with (gathered results) in *.
  destruct (partial (gathered results) && bool_decide (collected (gathered results) = [])) eqn:Hpartial.
  { apply andb_true_iff in Hpartial as [Hpartial Hnone%bool_decide_eq_true]. cbn. by exists results. }
  assert (collected (gathered results) = [] → partial (gathered results) = false) as Hsome.
  { intros Hnone. rewrite (bool_decide_eq_true_2 _ Hnone), andb_true_r in Hpartial. done. }
  eapply budgeted_call.
  { eapply wp_mono; [apply (ordered_spec base cli); [exact Hu1|done]|]. intros [b2 [l|e]] (Hl2 & Hb2 & Hl); [exact (conj Hb2 Hl)|exact Hl]. }
  2: by intros b2 e ->.
  intros b2 l (Hb2 & Hu2 & Hordered). destruct (bounds cli) as [[since until]|e] eqn:Hbounds.
  2: { by destruct (bounds_error cli e Hbounds) as [-> | ->]. }
  unfold mbind at 1, budgeted_bind at 1, filtering at 1. rewrite (filter_exact base) by done. set (kept := filter_events l _).
  assert (selected cli (gathered results) kept) as Hkept by (by exists l, since, until).
  eapply wp_mono; [apply (finish_spec base cli var kept)|].
  - done.
  - destruct Hb2 as [Hf2 Hm2]. pose proof (retained_filter l (filter_of cli since until)) as Hle. fold kept in Hle.
    unfold fits. cbn [restore used limit]. split; [lia|done].
  - intros [_ [text|e]]; [|destruct e; try done]; intros (displayed & ? & ?); cbn [outcome]; [split; [done|]|]; by exists results, kept, displayed.
Qed.

(** C13: a run ends, and with a report only of what it should: the output is none of the inputs,
    every path was read or counted as left out, the events of all logs are sorted or deduplicated,
    those that pass the filters are kept, all of them are shown one for one and, unless told
    otherwise, redacted with tables made from them, and the text is their rendering or that of
    their groups by the original keys; otherwise there is no report at all, and every error but
    that of the budget has just its own cause. *)
Theorem report_exact cli var t default_sources canonical_output :
  max_record_bytes (limits cli) + 3 ≤ u64_max → max_state_bytes (limits cli) ≤ usize_max →
  wp (run cli var t default_sources canonical_output) (λ r, match r with
    | inr NoInput => inputs cli = [] ∧ discover_sources cli = false
    | inr UnreadableInput => source_paths t (inputs cli ++ (if discover_sources cli then default_sources else [])) = None
    | _ => ∃ paths, source_paths t (inputs cli ++ (if discover_sources cli then default_sources else [])) = Some paths ∧
        outcome cli var paths canonical_output r
    end).
Proof.
  intros Hmax Hstate. unfold run, collect_paths. set (roots := inputs cli ++ _).
  destruct (bool_decide (roots = []) && negb (discover_sources cli)) eqn:Hempty.
  { apply andb_true_iff in Hempty as [Hroots%bool_decide_eq_true Hd%negb_true_iff]. unfold roots in Hroots. rewrite Hd, app_nil_r in Hroots. done. }
  destruct (source_paths t roots) as [paths|] eqn:Hpaths; [|done].
  pose proof (report_spec 0 cli var paths canonical_output (new_budget (max_state_bytes (limits cli))) Hmax eq_refl eq_refl) as Hr.
  specialize (Hr ltac:(split; [apply N.le_0_l|exact Hstate])). apply wp_Done in Hr as ([b r] & -> & Ho). cbn [mbind exec_bind wp mret exec_ret].
  assert (∃ paths', Some paths = Some paths' ∧ outcome cli var paths' canonical_output r) as Hx by (by exists paths).
  destruct r as [text|e]; [done|]. by destruct e.
Qed.
End Report.

(** ** Samples *)

#[local] Existing Instance sample_layout.
#[local] Existing Instance sample_libraries.
#[local] Existing Instance sample_files.
#[local] Existing Instance sample_privacy.
#[local] Instance sample_json : ReportJson := {|
  pretty_events _ := None;
  compact_event _ := None;
  compact_maven _ := Some (lit "{}");
  pretty_groups _ := None;
  compact_group _ := None;
|}.

(** A label that reads like a numbered one: the numbers do not make the labels distinct. *)
Definition group (label : string) : GroupCount := {| group_label := lit label; group_count := 1 |}.
Example labels_collide :
  (λ '(_, r), match r with inl groups => group_label <$> groups | inr _ => [] end) <$>
    disambiguate_labels [group "x"; group "x"; group "x [1]"] (new_budget 1000)
  = Done [lit "x [1]"; lit "x [2]"; lit "x [1]"].
Proof. vm_compute. reflexivity. Qed.

(** Two agents whose names are hidden, one of them twice. *)
Definition by_agent (name : string) : CommandEvent :=
  {| timestamp := None; ide := lit "codex"; agent := Some (lit name); project := None; session := None; tool := lit "shell";
     cwd := None; command := lit "ls"; category := Shell; call_id := None; maven := None; provenance := [] |}.
Definition read_events : list CommandEvent := [by_agent "b"; by_agent "a"; by_agent "b"].
Definition hidden_events : list CommandEvent := [by_agent "?"; by_agent "?"; by_agent "?"].
Lemma groups_exact_witness :
  wp (collect read_events Agent (new_budget 5000)) (λ '(b1, r), ∃ raw, r = inl raw ∧
    wp (count raw hidden_events Agent {| limit := 5000; used := 7 + raw_charged raw |}) (λ '(b3, r),
      r = inl [{| group_label := lit "? [1]"; group_count := 1 |}; {| group_label := lit "? [2]"; group_count := 2 |}] ∧
      used b3 = 7 + (2 * (5 + ENTRY_OVERHEAD_BYTES) + 64))).
Proof.
  assert (fits (new_budget 5000)) as Hb by (split; vm_compute; discriminate).
  destruct (wp_Done _ _ (groups_exact Agent read_events (new_budget 5000) Hb)) as ([b1 r] & Hrun & _ & _ & Hr).
  assert ((λ p, match p.2 with inl raw => Some (map_to_list (identities raw), event_identity raw, raw_charged raw) | inr _ => None end) <$>
    collect read_events Agent (new_budget 5000) = Done (Some ([(lit "b", 0%nat); (lit "a", 1%nat)], [0%nat; 1%nat; 0%nat],
      24 + 2 * (1 + 8 + ENTRY_OVERHEAD_BYTES)))) as Hraw by (vm_compute; reflexivity).
  rewrite Hrun in Hraw |- *. destruct r as [raw|e]; [|discriminate Hraw]. cbn [wp]. exists raw. split; [done|].
  destruct Hr as [_ Hr]. injection Hraw as Hids Hevents Hcharged.
  assert (raw = {| identities := list_to_map [(lit "b", 0%nat); (lit "a", 1%nat)]; event_identity := [0%nat; 1%nat; 0%nat];
    raw_charged := 24 + 2 * (1 + 8 + ENTRY_OVERHEAD_BYTES) |}) as ->.
  { destruct raw as [ids es n]. cbn [identities event_identity raw_charged] in *. subst es n.
    pose proof (list_to_map_to_list ids) as Hmap. rewrite Hids in Hmap. by rewrite <- Hmap. }
  specialize (Hr hidden_events 7 {| limit := 5000; used := 7 + (24 + 2 * (1 + 8 + ENTRY_OVERHEAD_BYTES)) |} eq_refl eq_refl
    ltac:(split; vm_compute; discriminate)).
  apply wp_Done in Hr as ([b3 r] & Hcount & _ & _ & Hr). cbn [raw_charged]. rewrite Hcount. cbn [wp].
  assert ((λ p : _ * _, p.2) <$> count {| identities := list_to_map [(lit "b", 0%nat); (lit "a", 1%nat)]; event_identity := [0%nat; 1%nat; 0%nat];
    raw_charged := 24 + 2 * (1 + 8 + ENTRY_OVERHEAD_BYTES) |} hidden_events Agent {| limit := 5000; used := 7 + (24 + 2 * (1 + 8 + ENTRY_OVERHEAD_BYTES)) |}
    = Done (inl [{| group_label := lit "? [1]"; group_count := 1 |}; {| group_label := lit "? [2]"; group_count := 2 |}])) as Hvalue by (vm_compute; reflexivity).
  rewrite Hcount in Hvalue. injection Hvalue as ->. split; [done|]. by destruct Hr as [-> _].
Defined.

Definition quoted_event : CommandEvent :=
  {| timestamp := None; ide := lit "codex"; agent := None; project := None; session := None; tool := lit "shell"; cwd := None;
     command := lit "echo " ++ quote ++ [10] ++ lit ","; category := Shell; call_id := None; maven := None; provenance := [] |}.
Lemma csv_round_trip_witness :
  ∃ text rows, render_events [quoted_event] Csv = Some text ∧ parse_csv text = Some rows ∧
    Forall2 (λ e fields, csv_fields e = Some fields) [quoted_event] rows.
Proof.
  destruct (render_events [quoted_event] Csv) as [text|] eqn:Htext; [|by vm_compute in Htext].
  destruct (csv_round_trip [quoted_event] text Htext) as (rows & ? & ?). by exists text, rows.
Defined.

(** One log of a call and a record that is too large, its events grouped. *)
Definition sample_tree : SourceTree :=
  {| is_file := λ p, bool_decide (p = [lit "a.jsonl"]); is_dir := λ _, false; canonical := Some; walk := λ _, [] |}.
Definition sample_cli : Cli :=
  {| inputs := [[lit "a.jsonl"]]; discover_sources := false; keep_duplicates := false; source := Auto; format := Csv; output := None;
     since_text := None; until_text := None; cli_ide := None; cli_agent := None; cli_project := None;
     cli_session := None; cli_category := None; group_by := None; workspace := None; redact_patterns := [];
     unsafe_no_redact := false; limits := {| max_input_bytes := 100; max_record_bytes := 4; max_state_bytes := 5000 |} |}.
Definition sample_report : str :=
  CSV_HEADER ++ csv_row [[]; lit "codex"; lit "codex"; []; []; lit "shell"; lit "<WORKSPACE>"; lit "shell"; lit "ls"; lit "1"; []].
Lemma report_exact_witness :
  run sample_cli (λ _, None) sample_tree [] None = Done (inl sample_report) ∧
  outcome sample_cli (λ _, None) [[lit "a.jsonl"]] None (inl sample_report).
Proof.
  assert (run sample_cli (λ _, None) sample_tree [] None = Done (inl sample_report)) as Hrun by (vm_compute; reflexivity).
  split; [exact Hrun|]. assert (Hexact := report_exact sample_cli (λ _, None) sample_tree [] None).
  rewrite Hrun in Hexact. destruct Hexact as (paths & Hpaths & Hout); [vm_compute; discriminate..|].
  assert (paths = [[lit "a.jsonl"]]) as <-; [|exact Hout]. apply (inj Some). rewrite <- Hpaths. vm_compute. reflexivity.
Defined.
