(* ===== verification/RuntimeStatus.v ===== *)
(** * RuntimeStatus: the status files of running servers

    Models [src/runtime_stats.rs]: what a server publishes about itself and when, and how a report
    tells live servers from stale files and removes the latter.  A function that touches files is
    a program of single system calls, so that [StatusFiles] can interleave the programs of
    several processes.  [serde_json] is the class [StatusCodec]; the figures of an index are those
    of the identity that stands for it in [ProjectCache]. *)

From S2P Require Import Prelude.
From S2P Require Import Text.
From S2P Require Import Paths.
From S2P Require Import TextSearch.
From S2P Require Import Ordering.
From S2P Require Import IndexBuild.
From S2P Require Import ProjectCache.

Open Scope N_scope.

(** ** Data *)

Definition RUNTIME_SCHEMA_VERSION : N := 1.
(** Durations and instants are in nanoseconds. *)
Definition HIT_PUBLICATION_DELAY : N := 10 ^ 9.

Record ProcessMemoryStatus := {
  rss_bytes : option N;
  peak_rss_bytes : option N;
}.
Record RuntimeConfigStatus := {
  max_results : N;
  max_source_bytes : N;
  max_project_indexes : N;
  max_project_index_bytes : N;
}.
Record RuntimeInstanceStatus := {
  schema_version : N;
  binary_version : str;
  build_commit : option str;
  executable : option str;
  pid : N;
  process_start_ticks : option N;
  started_unix_ms : N;
  updated_unix_ms : N;
  memory : ProcessMemoryStatus;
  config : RuntimeConfigStatus;
  cache : RuntimeCacheStatus;
  projects : list ProjectIndexStatus;
}.
Record RuntimeReport := {
  report_version : N;
  instances : list RuntimeInstanceStatus;
  unknown_instances : nat;
}.

Class StatusCodec := {
  to_vec_pretty : RuntimeInstanceStatus → option (list N);
  from_slice : list N → option RuntimeInstanceStatus;
}.
Class StatusCodecLaws `{StatusCodec} := {
  from_to_vec : ∀ s bytes, to_vec_pretty s = Some bytes → from_slice bytes = Some s;
}.

(** ** System calls *)

Inductive LinkResult := Linked | AlreadyExists | LinkFailed.
Inductive Listing := NoDirectory | Unlistable | Listed (names : list str) (complete : bool).
Inductive ProcEntry := EntryDirectory | EntryOther | EntryMissing | EntryDenied.
Inductive ProcStat := StatText (stat : str) | StatMissing | StatDenied.

(** A program over the files of the runtime directory, by name, and procfs. *)
Inductive program (A : Type) : Type :=
| Return (a : A)
| MakeDirectory (k : bool → program A)
| CreateFile (name : str) (k : bool → program A)
| AppendFile (name : str) (bytes : list N) (k : bool → program A)
| ReadFile (name : str) (k : option (list N) → program A)
| RenameFile (from to_ : str) (k : bool → program A)
| LinkFile (from to_ : str) (k : LinkResult → program A)
| RemoveFile (name : str) (k : program A)
| ListFiles (k : Listing → program A)
| ReadClock (k : N → program A)
| ProcMounted (k : bool → program A)
| ProcEntryOf (pid : N) (k : ProcEntry → program A)
| ProcStatOf (pid : N) (k : ProcStat → program A).
Arguments Return {A} a.
Arguments MakeDirectory {A} k.
Arguments CreateFile {A} name k.
Arguments AppendFile {A} name bytes k.
Arguments ReadFile {A} name k.
Arguments RenameFile {A} from to_ k.
Arguments LinkFile {A} from to_ k.
Arguments RemoveFile {A} name k.
Arguments ListFiles {A} k.
Arguments ReadClock {A} k.
Arguments ProcMounted {A} k.
Arguments ProcEntryOf {A} pid k.
Arguments ProcStatOf {A} pid k.

Fixpoint program_bind {A B} (f : A → program B) (m : program A) : program B :=
  match m with
  | Return a => f a
  | MakeDirectory k => MakeDirectory (λ x, program_bind f (k x))
  | CreateFile name k => CreateFile name (λ x, program_bind f (k x))
  | AppendFile name bytes k => AppendFile name bytes (λ x, program_bind f (k x))
  | ReadFile name k => ReadFile name (λ x, program_bind f (k x))
  | RenameFile from to_ k => RenameFile from to_ (λ x, program_bind f (k x))
  | LinkFile from to_ k => LinkFile from to_ (λ x, program_bind f (k x))
  | RemoveFile name k => RemoveFile name (program_bind f k)
  | ListFiles k => ListFiles (λ x, program_bind f (k x))
  | ReadClock k => ReadClock (λ x, program_bind f (k x))
  | ProcMounted k => ProcMounted (λ x, program_bind f (k x))
  | ProcEntryOf pid k => ProcEntryOf pid (λ x, program_bind f (k x))
  | ProcStatOf pid k => ProcStatOf pid (λ x, program_bind f (k x))
  end.
#[export] Instance program_mret : MRet program := @Return.
#[export] Instance program_mbind : MBind program := @program_bind.

(** ** Names *)

Definition status_name (pid : N) : str := to_dec pid ++ lit ".json".
(** [Path::with_extension] of a file name. *)
Definition with_extension (name extension : str) : str := (split_extension name).1 ++ lit "." ++ extension.
Definition temporary_name (name : str) : str := with_extension name (lit "json.tmp").
Definition quarantine_name (reader nanos : N) (name : str) : str :=
  with_extension name (lit "json." ++ to_dec reader ++ lit "-" ++ to_dec nanos ++ lit ".stale").

(** ** Publishing *)

Record PublisherState := {
  status : RuntimeInstanceStatus;
  last_written : N;
  dirty : bool;
  pending : bool;
  closed : bool;
}.
(** What a write takes from outside: the wall clock, the memory of the process, and the instant. *)
Record Reading := {
  reading_unix_ms : N;
  reading_memory : ProcessMemoryStatus;
  reading_instant : N;
}.
Definition refreshed (r : Reading) (s : RuntimeInstanceStatus) : RuntimeInstanceStatus :=
  {| schema_version := schema_version s; binary_version := binary_version s; build_commit := build_commit s;
     executable := executable s; pid := pid s; process_start_ticks := process_start_ticks s; started_unix_ms := started_unix_ms s;
     updated_unix_ms := reading_unix_ms r; memory := reading_memory r; config := config s; cache := cache s; projects := projects s |}.
Definition with_cache (c : RuntimeCacheStatus) (ps : list ProjectIndexStatus) (s : RuntimeInstanceStatus) : RuntimeInstanceStatus :=
  {| schema_version := schema_version s; binary_version := binary_version s; build_commit := build_commit s;
     executable := executable s; pid := pid s; process_start_ticks := process_start_ticks s; started_unix_ms := started_unix_ms s;
     updated_unix_ms := updated_unix_ms s; memory := memory s; config := config s; cache := c; projects := ps |}.

Section Publisher.
Context `{StatusCodec}.

Definition written (r : Reading) (s : PublisherState) : PublisherState :=
  {| status := refreshed r (status s); last_written := reading_instant r; dirty := false; pending := pending s; closed := closed s |}.
(** The state afterwards, and whether the file was replaced. *)
Definition write (name : str) (r : Reading) (s : PublisherState) : program (PublisherState * bool) :=
  let s := written r s in
  let temporary := temporary_name name in
  CreateFile temporary (λ created : bool,
    if negb created then Return (s, false)
    else match to_vec_pretty (status s) with
         | None => Return (s, false)
         | Some bytes => AppendFile temporary bytes (λ appended : bool,
             if negb appended then Return (s, false) else RenameFile temporary name (λ renamed, Return (s, renamed)))
         end).

Definition updated (c : RuntimeCacheStatus) (ps : list ProjectIndexStatus) (s : PublisherState) : PublisherState :=
  {| status := with_cache c ps (status s); last_written := last_written s; dirty := dirty s; pending := pending s; closed := closed s |}.
Definition update_cache (name : str) (c : RuntimeCacheStatus) (ps : list ProjectIndexStatus) (r : Reading) (s : PublisherState)
    : program (PublisherState * bool) :=
  if closed s then Return (s, true) else write name r (updated c ps s).
Definition record_hit_at (now : N) (s : PublisherState) : PublisherState * option N :=
  if closed s then (s, None)
  else
    let s := {| status := status s; last_written := last_written s; dirty := true; pending := pending s; closed := closed s |} in
    if pending s then (s, None)
    else ({| status := status s; last_written := last_written s; dirty := dirty s; pending := true; closed := closed s |},
          Some (saturating_sub HIT_PUBLICATION_DELAY (saturating_sub now (last_written s)))).
Definition flush_hits (name : str) (c : RuntimeCacheStatus) (ps : list ProjectIndexStatus) (r : Reading) (s : PublisherState)
    : program (PublisherState * bool) :=
  let s := {| status := status s; last_written := last_written s; dirty := dirty s; pending := false; closed := closed s |} in
  if closed s || negb (dirty s) then Return (s, true) else write name r (updated c ps s).
Definition close (name : str) (s : PublisherState) : program (PublisherState * bool) :=
  RemoveFile name (Return ({| status := status s; last_written := last_written s; dirty := dirty s; pending := pending s; closed := true |}, true)).
(** [Drop], and the removal of [close]. *)
Definition remove_status_file (name : str) : program unit := RemoveFile name (Return tt).

(** The program that registers a server, which fails when the directory or the file cannot be made. *)
Definition registered (r : Reading) (s : RuntimeInstanceStatus) : PublisherState :=
  {| status := s; last_written := reading_instant r; dirty := false; pending := false; closed := false |}.
Definition register_in (r : Reading) (s : RuntimeInstanceStatus) : program (option PublisherState) :=
  MakeDirectory (λ made : bool,
    if negb made then Return None
    else '(p, ok) ← write (status_name (pid s)) r (registered r s); Return (if ok : bool then Some p else None)).
End Publisher.

(** ** Reports *)

Inductive Liveness := Alive | Dead | Unknown.

(** Field 22 of a [stat] file, counted after the last parenthesis. *)
Definition START_TIME_INDEX_AFTER_COMMAND : nat := 19.
Definition parse_start_ticks (stat : str) : option N :=
  '(_, after_command) ← rsplit_once_str (lit ")") stat;
  field ← split_whitespace after_command !! START_TIME_INDEX_AFTER_COMMAND;
  parse_unsigned u64_max field.
Definition instance_liveness (s : RuntimeInstanceStatus) : program Liveness :=
  ProcEntryOf (pid s) (λ entry,
    match entry with
    | EntryOther | EntryDenied => Return Unknown
    | EntryMissing => Return Dead
    | EntryDirectory =>
        match process_start_ticks s with
        | None => Return Alive
        | Some recorded => ProcStatOf (pid s) (λ stat,
            match stat with
            | StatText stat =>
                match parse_start_ticks stat with
                | Some current => if current =? recorded then Return Alive else Return Dead
                | None => Return Unknown
                end
            | StatMissing => Return Dead
            | StatDenied => Return Unknown
            end)
        end
    end).

Section Reader.
Context `{StatusCodec}.

Definition is_same_instance (l r : RuntimeInstanceStatus) : bool :=
  (pid l =? pid r) && bool_decide (process_start_ticks l = process_start_ticks r) && (started_unix_ms l =? started_unix_ms r).
(** The status in the bytes of a file whose name must be the one of its process. *)
Definition named_status (named : str) (bytes : option (list N)) : option RuntimeInstanceStatus :=
  s ← bytes ≫= from_slice;
  if bool_decide ((split_extension named).1 = to_dec (pid s)) then Some s else None.
Definition read_status_file_named (name named : str) : program (option RuntimeInstanceStatus) :=
  ReadFile name (λ bytes, Return (named_status named bytes)).
Definition read_status_file (name : str) : program (option RuntimeInstanceStatus) := read_status_file_named name name.

Context (reader : N).
Definition still_dead (current : option RuntimeInstanceStatus) (dead : RuntimeInstanceStatus) : bool :=
  match current with Some current => is_same_instance current dead | None => false end.
Definition remove_dead_status_file (name : str) (dead : RuntimeInstanceStatus) : program unit :=
  ReadClock (λ nanos,
    let quarantine := quarantine_name reader nanos name in
    RenameFile name quarantine (λ renamed : bool,
      if negb renamed then Return tt
      else
        current ← read_status_file_named quarantine name;
        if still_dead current dead then remove_status_file quarantine
        else LinkFile quarantine name (λ r,
          match r with
          | Linked | AlreadyExists => remove_status_file quarantine
          | LinkFailed => Return tt
          end))).

Definition report_entry (report : RuntimeReport) (name : str) : program RuntimeReport :=
  if bool_decide ((split_extension name).2 = Some (lit "json")) then
    found ← read_status_file name;
    match found with
    | None => Return report
    | Some s =>
        liveness ← instance_liveness s;
        match liveness with
        | Alive => Return {| report_version := report_version report; instances := instances report ++ [s]; unknown_instances := unknown_instances report |}
        | Dead => _ ← remove_dead_status_file name s; Return report
        | Unknown => Return {| report_version := report_version report; instances := instances report; unknown_instances := S (unknown_instances report) |}
        end
    end
  else Return report.
Fixpoint report_entries (names : list str) (report : RuntimeReport) : program RuntimeReport :=
  match names with
  | [] => Return report
  | name :: names => report ← report_entry report name; report_entries names report
  end.
Definition sorted_report (report : RuntimeReport) : RuntimeReport :=
  {| report_version := report_version report; instances := sort_by_key pid (instances report); unknown_instances := unknown_instances report |}.
Definition empty_report : RuntimeReport := {| report_version := RUNTIME_SCHEMA_VERSION; instances := []; unknown_instances := 0 |}.
(** No report without procfs, or when the directory cannot be listed. *)
Definition read_runtime_report_from : program (option RuntimeReport) :=
  ProcMounted (λ mounted : bool,
    if negb mounted then Return None
    else ListFiles (λ listing,
      match listing with
      | NoDirectory => Return (Some empty_report)
      | Unlistable => Return None
      | Listed names complete =>
          report ← report_entries names empty_report;
          Return (if complete : bool then Some (sorted_report report) else None)
      end)).
End Reader.

(** ** What a report shows *)

Definition proc_status_kb (text key : str) : option N :=
  (fix look (l : list str) : option N :=
    match l with
    | [] => None
    | line :: l =>
        match (rest ← strip_prefix key line; field ← head (split_whitespace (trim rest)); parse_unsigned u64_max field) with
        | Some kb => Some kb
        | None => look l
        end
    end) (lines text).
(** The text is empty when it cannot be read. *)
Definition process_memory (text : str) : exec ProcessMemoryStatus :=
  let bytes (kb : option N) : exec (option N) :=
    match kb with
    | None => mret None
    | Some kb => if u64_max <? kb * 1024 then Panic else mret (Some (kb * 1024))
    end in
  rss ← bytes (proc_status_kb text (lit "VmRSS:"));
  peak ← bytes (proc_status_kb text (lit "VmHWM:"));
  mret {| rss_bytes := rss; peak_rss_bytes := peak |}.
Definition runtime_dir (var_os : string → option path) : option path :=
  match var_os "MAVEN_MCP_RUNTIME_DIR"%string with
  | Some p => Some p
  | None =>
      match var_os "XDG_RUNTIME_DIR"%string with
      | Some p => Some (path_join p (lit "maven-mcp"))
      | None => (λ home, path_join home (lit ".cache/maven-mcp/runtime")) <$> var_os "HOME"%string
      end
  end.

Definition state_label (s : IndexState) : str :=
  match s with
  | Ready => lit "ready"
  | Building => lit "building"
  | NotIndexed => lit "not_indexed"
  end.
Definition optional_label (value : option N) : str := from_option to_dec (lit "unknown") value.
Definition seconds_since (now ms : N) : N := saturating_sub now ms / 1000.

Section Format.
(** A path as it is shown, and the figures of an index. *)
Context (display : path → str) (figures : N → IndexStats).

Definition format_project (now : N) (p : ProjectIndexStatus) : str :=
  let figure (f : IndexStats → N) : str := to_dec (from_option (λ i, f (figures i)) 0 (status_index p)) in
  lit "  project: " ++ display (project_path p) ++ lit " state=" ++ state_label (status_state p)
  ++ lit " classpath=" ++ optional_label (status_classpath_entries p)
  ++ lit " jars=" ++ figure jar_count ++ lit " sources=" ++ figure stats_source_jar_count
  ++ lit " classes=" ++ figure stats_class_count ++ lit " artifacts=" ++ figure artifact_count
  ++ lit " estimated_bytes=" ++ to_dec (status_estimated_bytes p) ++ lit " build_ms=" ++ optional_label (status_build_duration p)
  ++ lit " idle_s=" ++ to_dec (seconds_since now (status_last_used_unix_ms p)) ++ [10].
Definition format_instance (now : N) (i : RuntimeInstanceStatus) : str :=
  let c := cache i in
  lit "maven-mcp pid=" ++ to_dec (pid i) ++ lit " version=" ++ binary_version i
  ++ lit " commit=" ++ default (lit "unknown") (build_commit i) ++ lit " age_s=" ++ to_dec (seconds_since now (started_unix_ms i))
  ++ lit " rss=" ++ optional_label (rss_bytes (memory i)) ++ lit " peak_rss=" ++ optional_label (peak_rss_bytes (memory i)) ++ [10]
  ++ from_option (λ e, lit "  executable: " ++ e ++ [10]) [] (executable i)
  ++ lit "  cache: entries=" ++ to_dec (N.of_nat (rt_entries c)) ++ lit " hits=" ++ to_dec (rt_hits c)
  ++ lit " misses=" ++ to_dec (rt_misses c) ++ lit " evictions=" ++ to_dec (rt_evictions c)
  ++ lit " invalidations=" ++ to_dec (rt_invalidations c) ++ lit " max_project_indexes=" ++ to_dec (max_project_indexes (config i)) ++ [10]
  ++ lit "  retained: bytes=" ++ to_dec (rt_retained_bytes c) ++ lit " max_bytes=" ++ to_dec (max_project_index_bytes (config i))
  ++ lit " runners=" ++ to_dec (N.of_nat (rt_runners c)) ++ [10]
  ++ lit "  persisted: classpath_hits=" ++ to_dec (classpath_hits (rt_persisted c))
  ++ lit " record_hits=" ++ to_dec (record_hits (rt_persisted c)) ++ lit " record_misses=" ++ to_dec (record_misses (rt_persisted c)) ++ [10]
  ++ mjoin (format_project now <$> projects i).
Definition format_runtime_report (now : N) (r : RuntimeReport) : str :=
  (if bool_decide (length (instances r) = 0%nat) then lit "No live maven-mcp instances." ++ [10] else [])
  ++ mjoin (format_instance now <$> instances r)
  ++ (if (0 <? unknown_instances r)%nat
      then lit "Kept " ++ to_dec (N.of_nat (unknown_instances r)) ++ lit " status file(s) whose process could not be proven live or gone." ++ [10]
      else []).
End Format.

(** ** Hits over time *)

(** What a program may return, whatever its system calls answer. *)
Fixpoint may_return {A} (m : program A) (a : A) : Prop :=
  match m with
  | Return b => a = b
  | MakeDirectory k | CreateFile _ k | AppendFile _ _ k | RenameFile _ _ k | ProcMounted k => ∃ x, may_return (k x) a
  | ReadFile _ k => ∃ x, may_return (k x) a
  | LinkFile _ _ k => ∃ x, may_return (k x) a
  | RemoveFile _ k => may_return k a
  | ListFiles k => ∃ x, may_return (k x) a
  | ReadClock k => ∃ x, may_return (k x) a
  | ProcEntryOf _ k => ∃ x, may_return (k x) a
  | ProcStatOf _ k => ∃ x, may_return (k x) a
  end.

(** A server that records hits: the clock, its state, and when the task that flushes them wakes up.
    Of its past it is known since when there are hits that no write covers, and when hits were
    written, the latest first. *)
Record Serving := {
  clock : N;
  publisher : PublisherState;
  wake_up : option N;
  unwritten_since : option N;
  hits_written : list N;
}.
(** A flush at the time of the clock, which ends in [s]. *)
Definition after_flush (v : Serving) (before s : PublisherState) : Serving :=
  let wrote := negb (closed before) && dirty before in
  {| clock := clock v; publisher := s; wake_up := None;
     unwritten_since := if wrote then None else unwritten_since v;
     hits_written := if wrote then clock v :: hits_written v else hits_written v |}.
Definition since_hit (v : Serving) : option N :=
  if closed (publisher v) then unwritten_since v
  else match unwritten_since v with Some t => Some t | None => Some (clock v) end.

Section Serve.
Context `{StatusCodec} (name : str).

(** The clock does not pass the time a task wakes up at; a hit without delay is flushed at once. *)
Inductive serves (v : Serving) : Serving → Prop :=
| Passes nanos :
    (∀ t, wake_up v = Some t → clock v + nanos ≤ t) →
    serves v {| clock := clock v + nanos; publisher := publisher v; wake_up := wake_up v; unwritten_since := unwritten_since v;
                hits_written := hits_written v |}
| HitCovered s :
    record_hit_at (clock v) (publisher v) = (s, None) →
    serves v {| clock := clock v; publisher := s; wake_up := wake_up v; unwritten_since := since_hit v; hits_written := hits_written v |}
| HitScheduled s delay :
    record_hit_at (clock v) (publisher v) = (s, Some delay) → 0 < delay →
    serves v {| clock := clock v; publisher := s; wake_up := Some (clock v + delay); unwritten_since := since_hit v;
                hits_written := hits_written v |}
| HitWritten s c ps r s' ok :
    record_hit_at (clock v) (publisher v) = (s, Some 0) → reading_instant r = clock v →
    may_return (flush_hits name c ps r s) (s', ok) →
    serves v (after_flush {| clock := clock v; publisher := s; wake_up := wake_up v; unwritten_since := since_hit v; hits_written := hits_written v |} s s')
| WakesUp c ps r s ok :
    wake_up v = Some (clock v) → reading_instant r = clock v →
    may_return (flush_hits name c ps r (publisher v)) (s, ok) → serves v (after_flush v (publisher v) s)
| Changes c ps r s ok :
    reading_instant r = clock v → may_return (update_cache name c ps r (publisher v)) (s, ok) →
    serves v {| clock := clock v; publisher := s; wake_up := wake_up v;
                unwritten_since := if closed (publisher v) then unwritten_since v else None; hits_written := hits_written v |}
| Closes s ok :
    may_return (close name (publisher v)) (s, ok) →
    serves v {| clock := clock v; publisher := s; wake_up := wake_up v; unwritten_since := unwritten_since v; hits_written := hits_written v |}.

(** A server that was just registered. *)
Definition serving (r : Reading) (s : RuntimeInstanceStatus) : Serving :=
  {| clock := reading_instant r; publisher := registered r s; wake_up := None; unwritten_since := None; hits_written := [] |}.

(** ** Lemmas: what programs return *)

Lemma write_returns r s s' ok : may_return (write name r s) (s', ok) → s' = written r s.
Proof.
  unfold write. cbn [may_return]. intros [[] Hs]; cbn [negb may_return] in Hs; [|by injection Hs].
  destruct (to_vec_pretty _); cbn [may_return] in Hs; [|by injection Hs].
  destruct Hs as [[] Hs]; cbn [negb may_return] in Hs; [destruct Hs as [? Hs]|]; by injection Hs.
Qed.
Lemma update_returns c ps r s s' ok : may_return (update_cache name c ps r s) (s', ok) →
  s' = if closed s then s else written r (updated c ps s).
Proof. unfold update_cache. destruct (closed s); [cbn [may_return]; by intros [= -> _]|]. apply write_returns. Qed.
Definition not_pending (s : PublisherState) : PublisherState :=
  {| status := status s; last_written := last_written s; dirty := dirty s; pending := false; closed := closed s |}.
Lemma flush_returns c ps r s s' ok : may_return (flush_hits name c ps r s) (s', ok) →
  s' = if closed s || negb (dirty s) then not_pending s else written r (updated c ps (not_pending s)).
Proof.
  unfold flush_hits. cbn [closed dirty]. destruct (closed s || negb (dirty s)); [cbn [may_return]; by intros [= -> _]|]. apply write_returns.
Qed.

(** ** Lemmas: hits over time *)

Definition spaced : list N → Prop := StronglySorted (λ later earlier, earlier + HIT_PUBLICATION_DELAY ≤ later).
Record in_time (v : Serving) : Prop := {
  in_time_written : last_written (publisher v) ≤ clock v;
  in_time_pending : pending (publisher v) = is_some (wake_up v);
  in_time_dirty : dirty (publisher v) = true → pending (publisher v) = true;
  in_time_unwritten : dirty (publisher v) = is_some (unwritten_since v);
  in_time_wakes : ∀ t, wake_up v = Some t →
    clock v ≤ t ≤ clock v + HIT_PUBLICATION_DELAY ∧ (∀ h, h ∈ hits_written v → h + HIT_PUBLICATION_DELAY ≤ t);
  in_time_lag : ∀ t t0, wake_up v = Some t → unwritten_since v = Some t0 → t ≤ t0 + HIT_PUBLICATION_DELAY;
  in_time_hits : ∀ h, h ∈ hits_written v → h ≤ last_written (publisher v);
  in_time_spaced : spaced (hits_written v);
}.
Lemma in_time_flush v before s c ps r ok :
  closed before = false → dirty before = is_some (unwritten_since v) → reading_instant r = clock v →
  last_written before ≤ clock v →
  (∀ h, h ∈ hits_written v → h + HIT_PUBLICATION_DELAY ≤ clock v ∧ h ≤ last_written before) → spaced (hits_written v) →
  may_return (flush_hits name c ps r before) (s, ok) → in_time (after_flush v before s).
Proof.
  intros Hopen Hdirty Hr Hlast Hhits Hspaced Hs. apply flush_returns in Hs. rewrite Hopen in Hs. unfold after_flush. rewrite Hopen.
  destruct (dirty before) eqn:Hd; cbn [orb negb andb] in *; subst s; split; cbn [clock publisher wake_up unwritten_since hits_written
    written updated not_pending last_written dirty pending closed is_some]; rewrite ?Hd; try done.
  - rewrite Hr. lia.
  - intros h [->|Hh]%elem_of_cons; rewrite Hr; [lia|]. destruct (Hhits h Hh). lia.
  - constructor; [done|]. apply Forall_forall. intros h Hh. by apply Hhits.
  - intros h Hh. by apply Hhits.
Qed.

Lemma record_hit_open now s s' d : closed s = false → record_hit_at now s = (s', d) →
  last_written s' = last_written s ∧ dirty s' = true ∧ pending s' = true ∧ closed s' = false ∧
  match d with
  | None => pending s = true
  | Some delay => pending s = false ∧ delay = HIT_PUBLICATION_DELAY - (now - last_written s)
  end.
Proof.
  unfold record_hit_at. intros ->. cbn [pending]. destruct (pending s) eqn:Hp; intros [= <- <-]; cbn [last_written dirty pending closed]; by rewrite ?Hp.
Qed.
Lemma since_hit_open v : closed (publisher v) = false →
  ∃ t, since_hit v = Some t ∧ (unwritten_since v = Some t ∨ unwritten_since v = None ∧ t = clock v).
Proof. unfold since_hit. intros ->. destruct (unwritten_since v) as [t|]; [by exists t; split; [|left]|by exists (clock v); split; [|right]]. Qed.

Lemma in_time_step v w : in_time v → closed (publisher v) = false → closed (publisher w) = false → serves v w → in_time w.
Proof.
  intros [Hlast Hpending Hdirty Hunwritten Hwakes Hlag Hhits Hspaced] Hopen Hopen' Hstep.
  pose proof (since_hit_open v Hopen) as (since & Hsince & Hwhen).
  destruct Hstep as [nanos Hpass|s Hhit|s delay Hhit Hdelay|s c ps r s' ok Hhit Hr Hs|c ps r s ok Hwake Hr Hs|c ps r s ok Hr Hs|s ok Hs];
    try apply (record_hit_open _ _ _ _ Hopen) in Hhit as (Hl & Hd & Hp & Hc & Hdelayed).
  - split; cbn [clock publisher wake_up unwritten_since hits_written]; try done; [lia|].
    intros t Ht. destruct (Hwakes t Ht) as [? Hh]. split; [|done]. pose proof (Hpass t Ht). lia.
  - split; cbn [clock publisher wake_up unwritten_since hits_written]; rewrite ?Hl, ?Hd, ?Hp, ?Hsince; try done; [by rewrite <- Hpending|].
    intros t t0 Ht [= <-]. destruct Hwhen as [Hwhen|[_ ->]]; [by apply Hlag|]. by destruct (Hwakes t Ht) as [[_ ?] _].
  - destruct Hdelayed as [Hfree ->]. split; cbn [clock publisher wake_up unwritten_since hits_written is_some]; rewrite ?Hl, ?Hd, ?Hp, ?Hsince; try done.
    + intros t [= <-]. split; [lia|]. intros h Hh. pose proof (Hhits h Hh). lia.
    + intros t t0 [= <-] [= <-]. destruct Hwhen as [Hwhen|[_ ->]]; [|lia]. destruct (dirty (publisher v)); [by rewrite Hdirty in Hfree|].
      by rewrite Hwhen in Hunwritten.
  - destruct Hdelayed as [Hfree Hzero]. eapply in_time_flush; [done|cbn [unwritten_since]; by rewrite Hd, Hsince|exact Hr|cbn [clock]; lia| |done|exact Hs].
    cbn [clock hits_written]. intros h Hh. pose proof (Hhits h Hh). lia.
  - destruct (Hwakes _ Hwake) as [_ Hh]. eapply in_time_flush; [done|done|exact Hr|done|by split; [apply Hh|apply Hhits]|done|exact Hs].
  - apply update_returns in Hs. rewrite Hopen in *. subst s.
    split; cbn [clock publisher wake_up unwritten_since hits_written written updated last_written dirty pending closed is_some]; rewrite ?Hr; try done.
    intros h Hh. pose proof (Hhits h Hh). lia.
  - cbn [may_return close] in Hs. injection Hs as -> ->. done.
Qed.
Lemma closed_stays v w : closed (publisher v) = true → serves v w → closed (publisher w) = true.
Proof.
  intros Hc Hstep. destruct Hstep as [nanos Hpass|s Hhit|s delay Hhit Hdelay|s c ps r s' ok Hhit Hr Hs|c ps r s ok Hwake Hr Hs|c ps r s ok Hr Hs|s ok Hs];
    cbn [publisher after_flush]; try done; try (unfold record_hit_at in Hhit; rewrite Hc in Hhit; by injection Hhit as <-).
  - apply flush_returns in Hs. rewrite Hc in Hs. by subst s.
  - apply update_returns in Hs. rewrite Hc in Hs. by subst s.
  - cbn [may_return close] in Hs. by injection Hs as -> ->.
Qed.
Lemma in_time_reachable r s v : rtc serves (serving r s) v → closed (publisher v) = false → in_time v.
Proof.
  revert v. apply (rtc_ind_r (λ v, closed (publisher v) = false → in_time v)).
  - intros _. split; cbn [serving clock publisher registered wake_up unwritten_since hits_written last_written dirty pending is_some]; try done.
    + intros h Hh. by apply elem_of_nil in Hh.
    + constructor.
  - intros v w _ Hstep IH Hopen. destruct (closed (publisher v)) eqn:Hc; [by rewrite (closed_stays _ _ Hc Hstep) in Hopen|].
    by apply (in_time_step v); [apply IH|..].
Qed.

End Serve.

(** ** Field 22 *)

Definition no_space (s : str) : Prop := s ≠ [] ∧ Forall (λ c, is_whitespace c = false ∧ c ≠ ch ")") s.
(** [stat]: the process, its name in parentheses, whatever it is, and the fields after it. *)
Definition stat_text (process : N) (name : str) (fields : list str) : str :=
  to_dec process ++ lit " (" ++ name ++ lit ") " ++ join (lit " ") fields.
Lemma split_whitespace_join fields : Forall no_space fields → split_whitespace (join (lit " ") fields) = fields.
Proof.
  unfold split_whitespace. induction fields as [|f fields IH]; intros Hf; [done|]. apply Forall_cons in Hf as [[Hne Hf] Hfields].
  assert (Forall (λ c, is_whitespace c = false) f) as Hpiece by (eapply Forall_impl; [exact Hf|naive_solver]).
  destruct fields as [|f' fields].
  - cbn [join]. rewrite split_at_last by done. by rewrite filter_cons, decide_True.
  - change (join (lit " ") (f :: f' :: fields)) with (f ++ 32 :: join (lit " ") (f' :: fields)).
    rewrite split_at_piece by done. rewrite filter_cons, decide_True by done. by rewrite IH.
Qed.
Lemma parse_start_ticks_spec process name fields : Forall no_space fields →
  parse_start_ticks (stat_text process name fields) = fields !! START_TIME_INDEX_AFTER_COMMAND ≫= parse_unsigned u64_max.
Proof.
  intros Hf. unfold parse_start_ticks, stat_text.
  change (lit ") " ++ join (lit " ") fields) with (lit ")" ++ (32 :: join (lit " ") fields)).
  rewrite !app_assoc. rewrite <- (app_assoc _ (lit ")")). 
  change (lit ")") with [ch ")"]. rewrite (rsplit_once_str_last (ch ")") []); [|by apply not_elem_of_nil|].
  - cbn [mbind option_bind]. change (32 :: join (lit " ") fields) with ([] ++ 32 :: join (lit " ") fields).
    unfold split_whitespace at 1. rewrite split_at_piece by done. rewrite filter_cons, decide_False by auto.
    fold (split_whitespace (join (lit " ") fields)). by rewrite split_whitespace_join.
  - apply not_elem_of_cons. split; [done|]. intros Hin.
    assert (Forall (λ c, c ≠ ch ")") (join (lit " ") fields)) as Hjoin.
    { apply join_Forall; [by repeat constructor|]. eapply Forall_impl; [exact Hf|]. intros f [_ Hc]. eapply Forall_impl; [exact Hc|naive_solver]. }
    by eapply Forall_forall in Hjoin; [|exact Hin].
Qed.
(** A name of parentheses and spaces does not move the field. *)
Example start_ticks_of_stat :
  parse_start_ticks (stat_text 7 (lit "a) (b 1 2") ((λ n, to_dec (N.of_nat n)) <$> seq 3 30)) = Some 22.
Proof. vm_compute. reflexivity. Qed.

(** ** A report while nothing else happens *)

(** The runtime directory and procfs. *)
Record System := {
  files : gmap (list N) (list N);
  listed : list str;
  entry_of : N → ProcEntry;
  stat_of : N → ProcStat;
  nanos : N;
}.
Definition with_files (m : gmap (list N) (list N)) (s : System) : System :=
  {| files := m; listed := listed s; entry_of := entry_of s; stat_of := stat_of s; nanos := nanos s |}.
Definition rename (from to_ : str) (m : gmap (list N) (list N)) : option (gmap (list N) (list N)) :=
  (λ bytes, <[to_ := bytes]> (delete from m)) <$> m !! from.
(** A run whose system calls succeed where they can. *)
Fixpoint alone {A} (m : program A) (s : System) : System * A :=
  match m with
  | Return a => (s, a)
  | MakeDirectory k => alone (k true) s
  | CreateFile name k => alone (k true) (with_files (<[name := []]> (files s)) s)
  | AppendFile name bytes k =>
      match files s !! name with
      | Some before => alone (k true) (with_files (<[name := before ++ bytes]> (files s)) s)
      | None => alone (k true) s
      end
  | ReadFile name k => alone (k (files s !! name)) s
  | RenameFile from to_ k =>
      match rename from to_ (files s) with
      | Some m => alone (k true) (with_files m s)
      | None => alone (k false) s
      end
  | LinkFile from to_ k =>
      match files s !! to_, files s !! from with
      | Some _, _ => alone (k AlreadyExists) s
      | None, Some bytes => alone (k Linked) (with_files (<[to_ := bytes]> (files s)) s)
      | None, None => alone (k LinkFailed) s
      end
  | RemoveFile name k => alone k (with_files (delete name (files s)) s)
  | ListFiles k => alone (k (Listed (listed s) true)) s
  | ReadClock k => alone (k (nanos s)) s
  | ProcMounted k => alone (k true) s
  | ProcEntryOf pid k => alone (k (entry_of s pid)) s
  | ProcStatOf pid k => alone (k (stat_of s pid)) s
  end.

Section Alone.
Context `{StatusCodec} (reader : N).

Lemma alone_bind {A B} (m : program A) (f : A → program B) s : alone (m ≫= f) s = let '(s', a) := alone m s in alone (f a) s'.
Proof.
  change (m ≫= f) with (program_bind f m). revert s.
  induction m as [a|k IH|name k IH|name bytes k IH|name k IH|from to_ k IH|from to_ k IH|name k IH|k IH|k IH|k IH|p k IH|p k IH];
    intros s; cbn [program_bind alone]; try apply IH; [done|..].
  - destruct (files s !! name); apply IH.
  - destruct (rename from to_ (files s)); apply IH.
  - destruct (files s !! to_); [apply IH|]. destruct (files s !! from); apply IH.
Qed.

(** Whether the process of a status lives. *)
Definition liveness_of (s : System) (i : RuntimeInstanceStatus) : Liveness := (alone (instance_liveness i) s).2.
Lemma alone_liveness i s : alone (instance_liveness i) s = (s, liveness_of s i).
Proof. unfold liveness_of, instance_liveness. cbn [alone]. repeat (case_match; cbn [alone snd]; try done). Qed.
(** The status a listed file holds. *)
Definition status_in (m : gmap (list N) (list N)) (name : str) : option RuntimeInstanceStatus :=
  if bool_decide ((split_extension name).2 = Some (lit "json")) then named_status name (m !! name) else None.
Definition judged (s : System) (name : str) : option (RuntimeInstanceStatus * Liveness) :=
  (λ i, (i, liveness_of s i)) <$> status_in (files s) name.
Definition is_live (x : RuntimeInstanceStatus * Liveness) : option RuntimeInstanceStatus := match x.2 with Alive => Some x.1 | _ => None end.
Definition found_dead (s : System) (name : str) : bool := match judged s name with Some (_, Dead) => true | _ => false end.
Definition found_unknown (s : System) (name : str) : bool := match judged s name with Some (_, Unknown) => true | _ => false end.
Definition fresh_names (s : System) (names : list str) : Prop :=
  ∀ name, name ∈ names → files s !! quarantine_name reader (nanos s) name = None ∧ quarantine_name reader (nanos s) name ∉ names.

Lemma same_instance_refl i : is_same_instance i i = true.
Proof. unfold is_same_instance. by rewrite !N.eqb_refl, bool_decide_eq_true_2. Qed.
Lemma alone_remove name i s : files s !! quarantine_name reader (nanos s) name = None →
  quarantine_name reader (nanos s) name ≠ name → named_status name (files s !! name) = Some i →
  alone (remove_dead_status_file reader name i) s = (with_files (delete name (files s)) s, tt).
Proof.
  intros Hfree Hne Hi. unfold remove_dead_status_file, rename. cbn [alone]. set (q := quarantine_name _ _ _) in *.
  destruct (files s !! name) as [bytes|] eqn:Hbytes; [|done]. cbn [fmap option_fmap option_map rename].
  unfold rename. rewrite Hbytes. cbn [fmap option_fmap option_map negb].
  unfold read_status_file_named. rewrite alone_bind. cbn [alone]. cbn [with_files files]. rewrite lookup_insert_eq, Hi.
  cbn [still_dead]. rewrite same_instance_refl. cbn [remove_status_file alone with_files files listed entry_of stat_of nanos].
  f_equal. unfold with_files. f_equal. rewrite delete_insert_eq, delete_id; [done|]. rewrite lookup_delete_ne by done. done.
Qed.

Lemma liveness_of_files m i s : liveness_of (with_files m s) i = liveness_of s i.
Proof. unfold liveness_of, instance_liveness. cbn [alone with_files entry_of stat_of]. repeat (case_match; cbn [alone snd with_files entry_of stat_of]; try congruence). Qed.
Lemma judged_files m name s : m !! name = files s !! name → judged (with_files m s) name = judged s name.
Proof.
  intros Hm. unfold judged, status_in. cbn [with_files files]. rewrite Hm.
  destruct (bool_decide _); [|done]. destruct (named_status name (files s !! name)); [|done]. cbn. by rewrite liveness_of_files.
Qed.
Definition with_entry (s : System) (name : str) (r : RuntimeReport) : RuntimeReport :=
  {| report_version := report_version r;
     instances := instances r ++ option_list (judged s name ≫= is_live);
     unknown_instances := if found_unknown s name then S (unknown_instances r) else unknown_instances r |}.
Lemma report_eta r : {| report_version := report_version r; instances := instances r ++ []; unknown_instances := unknown_instances r |} = r.
Proof. rewrite app_nil_r. by destruct r. Qed.
Lemma alone_entry name r s : files s !! quarantine_name reader (nanos s) name = None → quarantine_name reader (nanos s) name ≠ name →
  alone (report_entry reader r name) s = (if found_dead s name then with_files (delete name (files s)) s else s, with_entry s name r).
Proof.
  intros Hfree Hne. unfold report_entry, with_entry, found_dead, found_unknown, judged, status_in.
  destruct (bool_decide _); [|cbn [alone fmap option_fmap option_map mbind option_bind option_list]; by rewrite report_eta].
  rewrite alone_bind. unfold read_status_file, read_status_file_named. cbn [alone].
  destruct (named_status name (files s !! name)) as [i|] eqn:Hi; [|cbn [alone fmap option_fmap option_map mbind option_bind option_list]; by rewrite report_eta].
  rewrite alone_bind, alone_liveness. cbn [fmap option_fmap option_map mbind option_bind is_live fst snd].
  destruct (liveness_of s i); cbn [alone option_list]; [done| |by rewrite app_nil_r].
  rewrite alone_bind, (alone_remove name i) by done. cbn [alone]. by rewrite report_eta.
Qed.
Lemma filter_in_ext {A} (f g : A → bool) (l : list A) : (∀ x, x ∈ l → f x = g x) → filter (λ x, f x = true) l = filter (λ x, g x = true) l.
Proof.
  induction l as [|x l IH]; intros Hfg; [done|]. rewrite !filter_cons, (Hfg x) by (by left). rewrite IH; [done|]. intros y Hy. apply Hfg. by right.
Qed.
Lemma alone_entries names : ∀ r s, NoDup names → fresh_names s names →
  let '(s', r') := alone (report_entries reader names r) s in
  entry_of s' = entry_of s ∧ stat_of s' = stat_of s ∧
  (∀ name, files s' !! name = if decide (name ∈ names ∧ found_dead s name = true) then None else files s !! name) ∧
  r' = {| report_version := report_version r;
          instances := instances r ++ omap (λ name, judged s name ≫= is_live) names;
          unknown_instances := (unknown_instances r + length (filter (λ name, found_unknown s name = true) names))%nat |}.
Proof.
  induction names as [|name names IH]; intros r s Hnd Hfresh; cbn [report_entries].
  - cbn [alone omap list_omap]. rewrite filter_nil. cbn [length]. rewrite Nat.add_0_r, report_eta. split_and!; [done|done| |done].
    intros name. rewrite decide_False; [done|]. by intros [[]%elem_of_nil _].
  - apply NoDup_cons in Hnd as [Hname Hnd]. rewrite alone_bind. destruct (Hfresh name ltac:(by left)) as [Hfree Hnot].
    rewrite alone_entry by (done || (intros Heq; apply Hnot; rewrite Heq; by left)).
    set (s1 := if found_dead s name then _ else s).
    assert (∀ other, other ≠ name → files s1 !! other = files s !! other) as Hfiles.
    { intros other Hne. unfold s1. destruct (found_dead s name); [|done]. cbn [with_files files]. by rewrite lookup_delete_ne. }
    assert (∀ other, other ∈ names → judged s1 other = judged s other) as Hjudged.
    { intros other Hin. assert (other ≠ name) as Hne by (by intros ->). unfold s1 in *. destruct (found_dead s name); [|done].
      apply judged_files. by apply lookup_delete_ne. }
    assert (entry_of s1 = entry_of s ∧ stat_of s1 = stat_of s ∧ nanos s1 = nanos s) as (He & Hst & Hn) by (unfold s1; by destruct (found_dead s name)).
    specialize (IH (with_entry s name r) s1 Hnd). destruct (alone _ s1) as [s' r'].
    destruct IH as (He' & Hst' & Hf & ->).
    { intros other Hin. rewrite Hn. destruct (Hfresh other ltac:(by right)) as [Hq1 Hq2]. split; [|intros Hq; apply Hq2; by right].
      rewrite Hfiles; [done|]. intros Heq. apply Hq2. rewrite Heq. by left. }
    split_and!; [congruence|congruence| |].
    + intros other. rewrite Hf. destruct (decide (other ∈ names)) as [Hin|Hout].
      * assert (found_dead s1 other = found_dead s other) as -> by (unfold found_dead; by rewrite Hjudged).
        assert (other ≠ name) as Hne by (by intros ->). rewrite Hfiles by done.
        destruct (decide (other ∈ names ∧ found_dead s other = true)) as [[? ?]|Hno].
        -- rewrite decide_True; [done|]. split; [by right|done].
        -- rewrite decide_False; [done|]. intros [_ ?]. by apply Hno.
      * rewrite decide_False by naive_solver. destruct (decide (other = name)) as [->|Hne].
        -- unfold s1. destruct (found_dead s name) eqn:Hdead.
           ++ rewrite decide_True by (split; [by left|done]). cbn [with_files files]. apply lookup_delete_eq.
           ++ rewrite decide_False by naive_solver. done.
        -- rewrite decide_False; [by apply Hfiles|]. intros [[?|?]%elem_of_cons _]; done.
    + unfold with_entry. cbn [report_version instances unknown_instances]. f_equal.
      * rewrite <- app_assoc. f_equal. cbn [omap list_omap].
        assert (omap (λ n, judged s1 n ≫= is_live) names = omap (λ n, judged s n ≫= is_live) names) as ->.
        { apply list_omap_ext. apply Forall_Forall2_diag, Forall_forall. intros n Hin. by rewrite Hjudged. }
        by destruct (judged s name ≫= is_live).
      * rewrite filter_cons. assert (filter (λ n, found_unknown s1 n = true) names = filter (λ n, found_unknown s n = true) names) as ->.
        { apply filter_in_ext. intros n Hin. unfold found_unknown. by rewrite Hjudged. }
        destruct (found_unknown s name) eqn:Hu; [rewrite decide_True by done|rewrite decide_False by done]; cbn [length]; lia.
Qed.

(** A process is proven gone when procfs has no entry for it, or another process has its number. *)
Definition proven_gone (s : System) (i : RuntimeInstanceStatus) : Prop :=
  entry_of s (pid i) = EntryMissing ∨
  entry_of s (pid i) = EntryDirectory ∧ ∃ recorded, process_start_ticks i = Some recorded ∧
    (stat_of s (pid i) = StatMissing ∨
     ∃ stat current, stat_of s (pid i) = StatText stat ∧ parse_start_ticks stat = Some current ∧ current ≠ recorded).
Lemma liveness_dead s i : liveness_of s i = Dead ↔ proven_gone s i.
Proof.
  unfold liveness_of, instance_liveness, proven_gone. cbn [alone].
  destruct (entry_of s (pid i)); cbn [alone snd]; [|naive_solver..].
  destruct (process_start_ticks i) as [recorded|]; cbn [alone snd]; [|naive_solver].
  destruct (stat_of s (pid i)) as [stat| |]; cbn [alone snd]; [|naive_solver..].
  destruct (parse_start_ticks stat) as [current|] eqn:Hp; cbn [alone snd]; [|naive_solver].
  destruct (N.eqb_spec current recorded); cbn [alone snd]; naive_solver.
Qed.

(** C34: A report read while nothing else happens changes nothing but the files of servers that are
    gone: of every listed file that holds a status under the name of its process, the status is
    shown when its process lives, the file is removed just when procfs proves the process gone,
    and the file is kept and counted when neither is known; every other file stays as it is, and
    the servers are shown in the order of their numbers. *)
Theorem runtime_report_exact s : NoDup (listed s) → fresh_names s (listed s) →
  let '(s', r) := alone (read_runtime_report_from reader) s in
  (∀ name, files s' !! name ≠ files s !! name ↔
    name ∈ listed s ∧ ∃ i, status_in (files s) name = Some i ∧ proven_gone s i) ∧
  (∀ name bytes, files s' !! name = Some bytes → files s !! name = Some bytes) ∧
  ∃ report, r = Some report ∧
    StronglySorted (λ a b, le_cmp (pid a) (pid b) = true) (instances report) ∧
    instances report ≡ₚ omap (λ name, judged s name ≫= is_live) (listed s) ∧
    unknown_instances report = length (filter (λ name, found_unknown s name = true) (listed s)).
Proof.
  intros Hnd Hfresh. unfold read_runtime_report_from. cbn [alone negb]. rewrite alone_bind.
  pose proof (alone_entries (listed s) empty_report s Hnd Hfresh) as He. destruct (alone _ s) as [s' r].
  destruct He as (_ & _ & Hf & ->). cbn [alone]. split_and!.
  - intros name. rewrite Hf. unfold found_dead, judged. split.
    + case_decide as Hd; [|done]. intros _. destruct Hd as [Hin Hd]. split; [done|].
      destruct (status_in (files s) name) as [i|]; [|done]. exists i. split; [done|]. apply liveness_dead. cbn in Hd. by destruct (liveness_of s i).
    + intros (Hin & i & Hi & Hgone%liveness_dead). rewrite Hi. cbn. rewrite Hgone, decide_True by done.
      unfold status_in, named_status in Hi. destruct (bool_decide _); [|done]. by destruct (files s !! name).
  - intros name bytes. rewrite Hf. by case_decide.
  - eexists. split; [done|]. cbn [sorted_report instances unknown_instances empty_report app]. split_and!; [apply sort_by_key_sorted|apply sort_with_perm|done].
Qed.
End Alone.

(** ** Samples *)

#[export] Instance IndexState_eq_dec : EqDecision IndexState.
Proof. solve_decision. Defined.
#[export] Instance ProjectIndexStatus_eq_dec : EqDecision ProjectIndexStatus.
Proof. solve_decision. Defined.
#[export] Instance PersistedCounters_eq_dec : EqDecision PersistedCounters.
Proof. solve_decision. Defined.
#[export] Instance RuntimeCacheStatus_eq_dec : EqDecision RuntimeCacheStatus.
Proof. solve_decision. Defined.
#[export] Instance ProcessMemoryStatus_eq_dec : EqDecision ProcessMemoryStatus.
Proof. solve_decision. Defined.
#[export] Instance RuntimeConfigStatus_eq_dec : EqDecision RuntimeConfigStatus.
Proof. solve_decision. Defined.
#[export] Instance RuntimeInstanceStatus_eq_dec : EqDecision RuntimeInstanceStatus.
Proof. solve_decision. Defined.

Definition sample_cache : RuntimeCacheStatus :=
  {| rt_entries := 0; rt_hits := 0; rt_misses := 0; rt_evictions := 0; rt_invalidations := 0; rt_retained_bytes := 0; rt_max_bytes := 0;
     rt_runners := 0; rt_persisted := {| classpath_hits := 0; record_hits := 0; record_misses := 0 |} |}.
(** The server that a process runs, which started at a time, as of another. *)
Definition sample_status (process ticks start updated : N) : RuntimeInstanceStatus :=
  {| schema_version := 1; binary_version := lit "1.0"; build_commit := None; executable := None; pid := process;
     process_start_ticks := Some ticks; started_unix_ms := start; updated_unix_ms := updated;
     memory := {| rss_bytes := None; peak_rss_bytes := None |};
     config := {| max_results := 0; max_source_bytes := 0; max_project_indexes := 0; max_project_index_bytes := 0 |};
     cache := sample_cache; projects := [] |}.
Definition sample_reading (instant : N) : Reading :=
  {| reading_unix_ms := instant; reading_memory := {| rss_bytes := None; peak_rss_bytes := None |}; reading_instant := instant |}.
(** A codec for these servers. *)
#[local] Instance sample_codec : StatusCodec := {
  to_vec_pretty s :=
    match process_start_ticks s with
    | Some ticks =>
        if bool_decide (s = sample_status (pid s) ticks (started_unix_ms s) (updated_unix_ms s))
        then Some [pid s; ticks; started_unix_ms s; updated_unix_ms s] else None
    | None => None
    end;
  from_slice bytes :=
    match bytes with
    | [process; ticks; start; updated] => Some (sample_status process ticks start updated)
    | _ => None
    end;
}.
#[local] Instance sample_codec_laws : StatusCodecLaws.
Proof.
  split. intros s bytes. cbn [to_vec_pretty from_slice sample_codec]. destruct (process_start_ticks s) as [ticks|]; [|done].
  case_bool_decide as Hs; [|done]. intros [= <-]. by rewrite <- Hs.
Qed.

Definition sample_hit : Serving := {|
  clock := 5; publisher := (record_hit_at 5 (registered (sample_reading 5) (sample_status 7 1 1 1))).1;
  wake_up := Some (5 + HIT_PUBLICATION_DELAY); unwritten_since := Some 5; hits_written := [] |}.
Definition sample_waiting : Serving := {|
  clock := 25; publisher := publisher sample_hit; wake_up := wake_up sample_hit; unwritten_since := Some 5; hits_written := [] |}.
Lemma sample_serves : rtc (serves (status_name 7)) (serving (sample_reading 5) (sample_status 7 1 1 1)) sample_waiting.
Proof.
  apply (rtc_l _ _ sample_hit).
  - apply (HitScheduled _ (serving (sample_reading 5) (sample_status 7 1 1 1)) _ HIT_PUBLICATION_DELAY); [vm_compute; reflexivity|vm_compute; reflexivity].
  - apply rtc_once. apply (Passes _ sample_hit 20). intros t [= <-]. vm_compute. discriminate.
Qed.

(** A directory with the files of three servers and a file of none: of the first the process has
    gone, of the second another process has the number, of the third it lives. *)
Definition sample_system : System := {|
  files := <[status_name 7 := [7; 1; 1; 1]]> (<[status_name 8 := [8; 1; 1; 1]]> (<[status_name 9 := [9; 1; 1; 1]]> {[lit "a.txt" := []]}));
  listed := [status_name 9; status_name 8; lit "a.txt"; status_name 7];
  entry_of p := if p =? 7 then EntryMissing else EntryDirectory;
  stat_of p := StatText (stat_text p (lit "maven-mcp") ((λ _, lit (if p =? 9 then "1" else "2")) <$> seq 3 30));
  nanos := 100;
|}.
Lemma sample_listed : NoDup (listed sample_system).
Proof. apply (bool_decide_unpack _). vm_compute. exact I. Qed.
Lemma sample_fresh : fresh_names 3 sample_system (listed sample_system).
Proof.
  intros name Hin. split.
  - assert (Forall (λ name, files sample_system !! quarantine_name 3 100 name = None) (listed sample_system)) as Hf
      by (repeat constructor; vm_compute; reflexivity).
    by eapply Forall_forall in Hf.
  - assert (Forall (λ name, bool_decide (quarantine_name 3 100 name ∈ listed sample_system) = false) (listed sample_system)) as Hf
      by (repeat constructor; vm_compute; reflexivity).
    eapply Forall_forall in Hf; [|exact Hin]. by apply bool_decide_eq_false in Hf.
Qed.
Lemma runtime_report_exact_witness :
  files (alone (read_runtime_report_from 3) sample_system).1 !! status_name 8 ≠ files sample_system !! status_name 8 ∧
  (alone (read_runtime_report_from 3) sample_system).2 =
    Some {| report_version := 1; instances := [sample_status 9 1 1 1]; unknown_instances := 0 |}.
Proof.
  split; [|vm_compute; reflexivity].
  pose proof (runtime_report_exact 3 sample_system sample_listed sample_fresh) as Hr.
  destruct (alone (read_runtime_report_from 3) sample_system) as [s' r]. apply (proj1 Hr (status_name 8)).
  split; [right; left|]. exists (sample_status 8 1 1 1). split; [vm_compute; reflexivity|].
  right. split; [reflexivity|]. exists 1. split; [reflexivity|]. right. eexists _, 2. split; [reflexivity|]. split; [vm_compute; reflexivity|discriminate].
Defined.
