(* ===== verification/StatusWorld.v ===== *)
(** * StatusWorld: the world in which status files are written and cleaned up

    Any number of servers publish their status with the programs of [RuntimeStatus] while any
    number of readers clean up the files of servers that are gone.  Every system call is a step of
    its own and may fail; processes start and end at any time, and the number of a process that
    ended is given to another.  The file ends with what a reader may do: [disciplined], and that
    the report of [RuntimeStatus] is such a program. *)

From S2P Require Import Prelude.
From S2P Require Import Text.
From S2P Require Import TextSearch.
From S2P Require Import ProjectCache.
From S2P Require Import RuntimeStatus.

Open Scope N_scope.

(** ** The world *)

(** What tells the instances of a server apart, as [is_same_instance] does. *)
Record Identity := {
  id_pid : N;
  id_ticks : option N;
  id_started : N;
}.
#[export] Instance Identity_eq_dec : EqDecision Identity.
Proof. solve_decision. Defined.
Definition identity_of (s : RuntimeInstanceStatus) : Identity :=
  {| id_pid := pid s; id_ticks := process_start_ticks s; id_started := started_unix_ms s |}.

(** A process: when the kernel says it started, and which server it is. *)
Record Process := {
  kernel_ticks : N;
  server : option Identity;
}.
(** A server that publishes: what is left of its call, nothing of which is left when it is idle;
    and whether it has replaced its file once, and has begun to close. *)
Record Publishing := {
  task : program (option PublisherState);
  published : bool;
  closing : bool;
}.
(** The server started in this run under a number, the quarantined files that could not be linked
    back, and all servers there have been. *)
Record World := {
  directory : gmap (list N) (list N);
  moment : N;
  live : gmap N Process;
  past : list Identity;
  started : gmap N Identity;
  publishers : gmap N Publishing;
  readers : gmap nat (program (option RuntimeReport));
  abandoned : list str;
}.

Definition with_directory (m : gmap (list N) (list N)) (w : World) : World :=
  {| directory := m; moment := moment w; live := live w; past := past w; started := started w; publishers := publishers w;
     readers := readers w; abandoned := abandoned w |}.
Definition with_moment (n : N) (w : World) : World :=
  {| directory := directory w; moment := n; live := live w; past := past w; started := started w; publishers := publishers w;
     readers := readers w; abandoned := abandoned w |}.
Definition with_abandoned (name : str) (w : World) : World :=
  {| directory := directory w; moment := moment w; live := live w; past := past w; started := started w; publishers := publishers w;
     readers := readers w; abandoned := name :: abandoned w |}.
Definition with_publishers (m : gmap N Publishing) (w : World) : World :=
  {| directory := directory w; moment := moment w; live := live w; past := past w; started := started w; publishers := m;
     readers := readers w; abandoned := abandoned w |}.
Definition with_readers (m : gmap nat (program (option RuntimeReport))) (w : World) : World :=
  {| directory := directory w; moment := moment w; live := live w; past := past w; started := started w; publishers := publishers w;
     readers := m; abandoned := abandoned w |}.

(** ** System calls *)

Inductive choice :=
| Succeeds
| Fails
| Partially (n : nat)
| Lists (l : Listing)
| Clock (n : N)
| StatSays (stat : str).
Definition is_json (name : str) : bool := bool_decide ((split_extension name).2 = Some (lit "json")).

(** The next system call of a program.  A file that was renamed can be read; the clock never gives
    one time twice; procfs tells which processes there are, if it says anything, and the start
    time of a process is the one the kernel knows, if it can be read. *)
Definition perform {A} (w : World) (m : program A) (c : choice) : option (World * program A) :=
  match m, c with
  | MakeDirectory k, Succeeds => Some (w, k true)
  | MakeDirectory k, Fails => Some (w, k false)
  | CreateFile name k, Succeeds => Some (with_directory (<[name := []]> (directory w)) w, k true)
  | CreateFile name k, Fails => Some (w, k false)
  | AppendFile name bytes k, Succeeds =>
      Some (with_directory (alter (λ before, before ++ bytes) name (directory w)) w, k true)
  | AppendFile name bytes k, Partially n =>
      Some (with_directory (alter (λ before, before ++ take n bytes) name (directory w)) w, k false)
  | ReadFile name k, Succeeds => Some (w, k (directory w !! name))
  | ReadFile name k, Fails => if is_json name then Some (w, k None) else None
  | RenameFile from to_ k, Succeeds =>
      match rename from to_ (directory w) with
      | Some m => Some (with_directory m w, k true)
      | None => Some (w, k false)
      end
  | RenameFile from to_ k, Fails => Some (w, k false)
  | LinkFile from to_ k, Succeeds =>
      match directory w !! to_, directory w !! from with
      | Some _, _ => Some (w, k AlreadyExists)
      | None, Some bytes => Some (with_directory (<[to_ := bytes]> (directory w)) w, k Linked)
      | None, None => Some (w, k LinkFailed)
      end
  | LinkFile from to_ k, Fails => Some (with_abandoned from w, k LinkFailed)
  | RemoveFile name k, Succeeds => Some (with_directory (delete name (directory w)) w, k)
  | RemoveFile name k, Fails => Some (w, k)
  | ListFiles k, Lists l => Some (w, k l)
  | ReadClock k, Clock n => if moment w <? n then Some (with_moment n w, k n) else None
  | ProcMounted k, Succeeds => Some (w, k true)
  | ProcMounted k, Fails => Some (w, k false)
  | ProcEntryOf p k, Succeeds => Some (w, k (match live w !! p with Some _ => EntryDirectory | None => EntryMissing end))
  | ProcEntryOf p k, Fails => Some (w, k EntryDenied)
  | ProcStatOf p k, Succeeds => match live w !! p with Some _ => None | None => Some (w, k StatMissing) end
  | ProcStatOf p k, StatSays stat =>
      match live w !! p, parse_start_ticks stat with
      | Some process, Some ticks => if ticks =? kernel_ticks process then Some (w, k (StatText stat)) else None
      | Some _, None => Some (w, k (StatText stat))
      | None, _ => None
      end
  | ProcStatOf p k, Fails => Some (w, k StatDenied)
  | _, _ => None
  end.

(** ** Steps *)

Inductive call :=
| CallUpdate (c : RuntimeCacheStatus) (ps : list ProjectIndexStatus) (r : Reading)
| CallHit (now : N)
| CallFlush (c : RuntimeCacheStatus) (ps : list ProjectIndexStatus) (r : Reading)
| CallClose
| CallDrop.
Definition closes (c : call) : bool := match c with CallClose | CallDrop => true | _ => false end.

Inductive event :=
| ServerStarts (ticks : N) (r : Reading) (s : RuntimeInstanceStatus)
| ProcessStarts (p ticks : N)
| ProcessEnds (p : N)
| PublisherCalled (p : N) (c : call)
| PublisherSteps (p : N) (c : choice)
| ReaderStarts (i : nat) (reader : N)
| ReaderSteps (i : nat) (c : choice).

Section Steps.
Context `{StatusCodec}.

Definition keeping (m : program (PublisherState * bool)) : program (option PublisherState) := '(s, _) ← m; Return (Some s).
Definition called (name : str) (c : call) (s : PublisherState) : program (option PublisherState) :=
  match c with
  | CallUpdate c ps r => keeping (update_cache name c ps r s)
  | CallHit now => Return (Some (record_hit_at now s).1)
  | CallFlush c ps r => keeping (flush_hits name c ps r s)
  | CallClose => keeping (close name s)
  | CallDrop => _ ← remove_status_file name; Return None
  end.
(** Whether a system call replaces the status file. *)
Definition replaces {A} (name : str) (w : World) (m : program A) (c : choice) : bool :=
  match m, c with
  | RenameFile from to_ _, Succeeds => bool_decide (to_ = name) && is_some (rename from to_ (directory w))
  | _, _ => false
  end.
Definition is_returned {A} (m : program A) : bool := match m with Return _ => true | _ => false end.

(** A server starts at most once under a number; it reads its own start time, or fails to. *)
Definition step (w : World) (e : event) : option World :=
  match e with
  | ServerStarts ticks r s =>
      if bool_decide (live w !! pid s = None ∧ started w !! pid s = None ∧ identity_of s ∉ past w ∧
           (process_start_ticks s = None ∨ process_start_ticks s = Some ticks))
      then Some {| directory := directory w; moment := moment w;
                   live := <[pid s := {| kernel_ticks := ticks; server := Some (identity_of s) |}]> (live w);
                   past := identity_of s :: past w; started := <[pid s := identity_of s]> (started w);
                   publishers := <[pid s := {| task := register_in r s; published := false; closing := false |}]> (publishers w);
                   readers := readers w; abandoned := abandoned w |}
      else None
  | ProcessStarts p ticks =>
      match live w !! p with
      | Some _ => None
      | None => Some {| directory := directory w; moment := moment w; live := <[p := {| kernel_ticks := ticks; server := None |}]> (live w);
                        past := past w; started := started w; publishers := publishers w; readers := readers w; abandoned := abandoned w |}
      end
  | ProcessEnds p =>
      Some {| directory := directory w; moment := moment w; live := delete p (live w); past := past w; started := started w;
              publishers := delete p (publishers w); readers := readers w; abandoned := abandoned w |}
  | PublisherCalled p c =>
      match publishers w !! p with
      | Some pub =>
          match task pub with
          | Return (Some s) =>
              Some (with_publishers (<[p := {| task := called (status_name p) c s; published := published pub;
                                               closing := closing pub || closes c |}]> (publishers w)) w)
          | _ => None
          end
      | None => None
      end
  | PublisherSteps p c =>
      match publishers w !! p with
      | Some pub =>
          match perform w (task pub) c with
          | Some (w', m) =>
              Some (with_publishers (<[p := {| task := m; published := published pub || replaces (status_name p) w (task pub) c;
                                               closing := closing pub |}]> (publishers w')) w')
          | None => None
          end
      | None => None
      end
  | ReaderStarts i reader =>
      match readers w !! i with
      | Some _ => None
      | None => Some (with_readers (<[i := read_runtime_report_from reader]> (readers w)) w)
      end
  | ReaderSteps i c =>
      match readers w !! i with
      | Some m =>
          match perform w m c with
          | Some (w', m) => Some (with_readers (if is_returned m then delete i (readers w') else <[i := m]> (readers w')) w')
          | None => None
          end
      | None => None
      end
  end.
Definition steps (w w' : World) : Prop := ∃ e, step w e = Some w'.
Fixpoint run (w : World) (l : list event) : option World :=
  match l with
  | [] => Some w
  | e :: l => match step w e with Some w => run w l | None => None end
  end.

(** A directory of files that earlier servers left, with nobody at work. *)
Record initial (w : World) : Prop := {
  initial_publishers : publishers w = ∅;
  initial_readers : readers w = ∅;
  initial_started : started w = ∅;
  initial_abandoned : abandoned w = [];
  initial_live : ∀ p process i, live w !! p = Some process → server process = Some i →
    i ∈ past w ∧ id_pid i = p ∧ (id_ticks i = None ∨ id_ticks i = Some (kernel_ticks process));
  initial_past : ∀ p s, named_status (status_name p) (directory w !! status_name p) = Some s → identity_of s ∈ past w;
}.
End Steps.

(** ** Lemmas: names *)

Lemma to_dec_no (c : char) n : is_ascii_digit c = false → c ∉ to_dec n.
Proof. intros Hc Hin. pose proof (to_dec_digits n) as Hd. eapply Forall_forall in Hd; [|exact Hin]. congruence. Qed.
Lemma to_dec_inj n m : to_dec n = to_dec m → n = m.
Proof.
  intros Heq. pose proof (parse_to_dec (N.max n m) n ltac:(lia)) as Hn. rewrite Heq, (parse_to_dec (N.max n m) m) in Hn by lia. by injection Hn.
Qed.
Lemma split_extension_name (stem extension : str) :
  stem ≠ [] → ch "." ∉ extension → split_extension (stem ++ lit "." ++ extension) = (stem, Some extension).
Proof.
  intros Hs He. unfold split_extension. change (lit ".") with [ch "."].
  rewrite (rsplit_once_str_last (ch ".") []) by (done || apply not_elem_of_nil). by destruct stem.
Qed.
Lemma to_dec_ne n : to_dec n ≠ [].
Proof. apply to_digits_ne. Qed.
Lemma split_extension_status p : split_extension (status_name p) = (to_dec p, Some (lit "json")).
Proof.
  unfold status_name. change (lit ".json") with (lit "." ++ lit "json"). apply split_extension_name; [apply to_dec_ne|].
  apply (bool_decide_unpack _). vm_compute. done.
Qed.
Lemma named_json name p : is_json name = true → (split_extension name).1 = to_dec p → name = status_name p.
Proof.
  unfold is_json, status_name, split_extension. intros Hj%bool_decide_eq_true Hstem.
  destruct (rsplit_once_str [ch "."] name) as [[[|c stem] extension]|] eqn:Hs; cbn [fst snd] in *; try done.
  apply rsplit_once_str_sound in Hs. injection Hj as ->. by rewrite Hs, Hstem.
Qed.
Lemma is_json_status p : is_json (status_name p) = true.
Proof. unfold is_json. rewrite split_extension_status. by apply bool_decide_eq_true. Qed.

Definition temporary_of (p : N) : str := temporary_name (status_name p).
Definition quarantine_of (reader n p : N) : str := quarantine_name reader n (status_name p).
Lemma temporary_of_eq p : temporary_of p = to_dec p ++ lit ".json.tmp".
Proof. unfold temporary_of, temporary_name, with_extension. by rewrite split_extension_status. Qed.
Lemma quarantine_of_eq reader n p : quarantine_of reader n p = (to_dec p ++ lit ".json." ++ to_dec reader) ++ [ch "-"] ++ to_dec n ++ lit ".stale".
Proof. unfold quarantine_of, quarantine_name, with_extension. rewrite split_extension_status. cbn [fst]. by rewrite <- !app_assoc. Qed.

Lemma last_of (s t : str) c : last t = Some c → last (s ++ t) = Some c.
Proof. intros Ht. by rewrite last_app, Ht. Qed.
Lemma last_status p : last (status_name p) = Some (ch "n").
Proof. unfold status_name. by apply last_of. Qed.
Lemma last_temporary p : last (temporary_of p) = Some (ch "p").
Proof. rewrite temporary_of_eq. by apply last_of. Qed.
Lemma last_quarantine reader n p : last (quarantine_of reader n p) = Some (ch "e").
Proof. rewrite quarantine_of_eq, !app_assoc. by apply last_of. Qed.
Lemma status_temporary p q : status_name p ≠ temporary_of q.
Proof. intros Heq. pose proof (last_status p) as Hl. by rewrite Heq, last_temporary in Hl. Qed.
Lemma status_quarantine p reader n q : status_name p ≠ quarantine_of reader n q.
Proof. intros Heq. pose proof (last_status p) as Hl. by rewrite Heq, last_quarantine in Hl. Qed.
Lemma temporary_quarantine p reader n q : temporary_of p ≠ quarantine_of reader n q.
Proof. intros Heq. pose proof (last_temporary p) as Hl. by rewrite Heq, last_quarantine in Hl. Qed.
Lemma status_name_inj p q : status_name p = status_name q → p = q.
Proof. intros Heq%app_inv_tail. by apply to_dec_inj. Qed.
Lemma temporary_of_inj p q : temporary_of p = temporary_of q → p = q.
Proof. rewrite !temporary_of_eq. intros Heq%app_inv_tail. by apply to_dec_inj. Qed.
(** The time at which a file was moved tells its quarantine from all others. *)
Lemma quarantine_of_inj r n p r' n' p' : quarantine_of r n p = quarantine_of r' n' p' → n = n'.
Proof.
  rewrite !quarantine_of_eq. intros Heq.
  assert (∀ a (b : N), rsplit_once_str [ch "-"] (a ++ [ch "-"] ++ to_dec b ++ lit ".stale") = Some (a, to_dec b ++ lit ".stale")) as Hsplit.
  { intros a b. apply (rsplit_once_str_last (ch "-") []); [apply not_elem_of_nil|]. rewrite elem_of_app. intros [Hin|Hin].
    - by apply to_dec_no in Hin.
    - revert Hin. apply (bool_decide_unpack _). vm_compute. done. }
  pose proof (Hsplit (to_dec p ++ lit ".json." ++ to_dec r) n) as H1. rewrite Heq, Hsplit in H1. injection H1 as _ H1.
  apply app_inv_tail in H1. symmetry. by apply to_dec_inj.
Qed.

(** ** Lemmas: what a reader may do *)

(** What a reader does with a file of a server it knows to be gone: nothing yet; a name chosen at
    a time; or the file moved there, and then to be removed, linked back or dropped. *)
Inductive Stage := Renamed | Removing | Linking | Dropping.
Inductive Hold := Free | Named (n : N) | Held (g : Stage) (n : N) (dead : RuntimeInstanceStatus).

Section Readers.
Context `{StatusCodec}.

Lemma same_instance_identity l r : is_same_instance l r = true ↔ identity_of l = identity_of r.
Proof.
  unfold is_same_instance, identity_of. rewrite !andb_true_iff, !N.eqb_eq, bool_decide_eq_true. split; [intros [[-> ->] ->]; done|by intros [= -> -> ->]].
Qed.
Lemma named_status_pid name bytes s : named_status name bytes = Some s → (split_extension name).1 = to_dec (pid s).
Proof.
  unfold named_status. rewrite bind_Some. intros (i & _ & Hs). destruct (bool_decide _) eqn:Hb; [|done]. injection Hs as ->. by apply bool_decide_eq_true in Hb.
Qed.
Lemma status_pid p bytes s : named_status (status_name p) bytes = Some s → pid s = p.
Proof. intros Hs%named_status_pid. rewrite split_extension_status in Hs. symmetry. by apply to_dec_inj. Qed.

(** The servers seen under a number are gone when its process is not there, or is another one. *)
Definition gone_without_entry (seen : list Identity) (p : N) (e : ProcEntry) : list Identity :=
  match e with EntryMissing => filter (λ i, id_pid i = p) seen | _ => [] end.
Definition gone_by_stat (seen : list Identity) (p : N) (t : ProcStat) : list Identity :=
  match t with
  | StatText stat =>
      match parse_start_ticks stat with
      | Some current => filter (λ i, id_pid i = p ∧ from_option (λ recorded, negb (recorded =? current)) false (id_ticks i) = true) seen
      | None => []
      end
  | StatMissing => filter (λ i, id_pid i = p) seen
  | StatDenied => []
  end.
End Readers.

Section Discipline.
Context `{StatusCodec} (reader : N).

Definition held_name (n : N) (dead : RuntimeInstanceStatus) : str := quarantine_of reader n (pid dead).
Definition found (name : str) (bytes : option (list N)) : list Identity := option_list (identity_of <$> named_status name bytes).
Definition judged_held (bytes : option (list N)) (dead : RuntimeInstanceStatus) : Stage :=
  if still_dead (named_status (status_name (pid dead)) bytes) dead then Removing else Linking.

(** A program that reads listed files, finds out which servers are gone, and moves only the file
    of such a server, which it then removes, or links back and drops. *)
Fixpoint disciplined {A} (seen gone : list Identity) (h : Hold) (m : program A) (Q : list Identity → list Identity → Hold → A → Prop) : Prop :=
  match m with
  | Return a => Q seen gone h a
  | ReadFile name k =>
      match h with
      | Free => is_json name = true ∧ ∀ bytes, disciplined (found name bytes ++ seen) gone Free (k bytes) Q
      | Held Renamed n dead => name = held_name n dead ∧ ∀ bytes, disciplined seen gone (Held (judged_held bytes dead) n dead) (k bytes) Q
      | _ => False
      end
  | RenameFile from to_ k =>
      match h with
      | Named n => ∃ dead, identity_of dead ∈ gone ∧ from = status_name (pid dead) ∧ to_ = held_name n dead ∧
          disciplined seen gone Free (k false) Q ∧ disciplined seen gone (Held Renamed n dead) (k true) Q
      | _ => False
      end
  | LinkFile from to_ k =>
      match h with
      | Held Linking n dead => from = held_name n dead ∧ to_ = status_name (pid dead) ∧
          disciplined seen gone (Held Dropping n dead) (k Linked) Q ∧ disciplined seen gone (Held Dropping n dead) (k AlreadyExists) Q ∧
          disciplined seen gone Free (k LinkFailed) Q
      | _ => False
      end
  | RemoveFile name k =>
      match h with
      | Held Removing n dead | Held Dropping n dead => name = held_name n dead ∧ disciplined seen gone Free k Q
      | _ => False
      end
  | ReadClock k => h = Free ∧ ∀ n, disciplined seen gone (Named n) (k n) Q
  | ListFiles k => h = Free ∧ ∀ l, disciplined seen gone Free (k l) Q
  | ProcMounted k => h = Free ∧ ∀ b, disciplined seen gone Free (k b) Q
  | ProcEntryOf p k => h = Free ∧ ∀ e, disciplined seen (gone_without_entry seen p e ++ gone) Free (k e) Q
  | ProcStatOf p k => h = Free ∧ ∀ t, disciplined seen (gone_by_stat seen p t ++ gone) Free (k t) Q
  | MakeDirectory _ | CreateFile _ _ | AppendFile _ _ _ => False
  end.

Lemma disciplined_mono {A} (m : program A) : ∀ seen gone h (Q Q' : list Identity → list Identity → Hold → A → Prop),
  (∀ s g h a, Q s g h a → Q' s g h a) → disciplined seen gone h m Q → disciplined seen gone h m Q'.
Proof.
  induction m as [a|k IH|name k IH|name bytes k IH|name k IH|from to_ k IH|from to_ k IH|name k IH|k IH|k IH|k IH|p k IH|p k IH];
    intros seen gone h Q Q' HQ; cbn [disciplined]; try done.
  - apply HQ.
  - destruct h as [|n|[] n dead]; try done; intros [? Hm]; (split; [done|]); intros bytes; (eapply IH; [exact HQ|apply Hm]).
  - destruct h as [|n|[] n dead]; try done. intros (dead & ? & ? & ? & ? & ?). exists dead. split_and!; [done..| |]; by eapply IH.
  - destruct h as [|n|[] n dead]; try done. intros (? & ? & ? & ? & ?). split_and!; [done..| | |]; by eapply IH.
  - destruct h as [|n|[] n dead]; try done; intros [? ?]; (split; [done|]); by eapply IH.
  - intros [? Hm]. split; [done|]. intros x. eapply IH; [exact HQ|apply Hm].
  - intros [? Hm]. split; [done|]. intros x. eapply IH; [exact HQ|apply Hm].
  - intros [? Hm]. split; [done|]. intros x. eapply IH; [exact HQ|apply Hm].
  - intros [? Hm]. split; [done|]. intros x. eapply IH; [exact HQ|apply Hm].
  - intros [? Hm]. split; [done|]. intros x. eapply IH; [exact HQ|apply Hm].
Qed.
Lemma disciplined_bind {A B} (m : program A) (f : A → program B) Q : ∀ seen gone h,
  disciplined seen gone h m (λ s g h a, disciplined s g h (f a) Q) → disciplined seen gone h (m ≫= f) Q.
Proof.
  change (m ≫= f) with (program_bind f m).
  induction m as [a|k IH|name k IH|name bytes k IH|name k IH|from to_ k IH|from to_ k IH|name k IH|k IH|k IH|k IH|p k IH|p k IH];
    intros seen gone h; cbn [disciplined program_bind]; try done.
  - destruct h as [|n|[] n dead]; try done; intros [? Hm]; (split; [done|]); intros bytes; apply IH, Hm.
  - destruct h as [|n|[] n dead]; try done. intros (dead & ? & ? & ? & ? & ?). exists dead. split_and!; [done..| |]; by apply IH.
  - destruct h as [|n|[] n dead]; try done. intros (? & ? & ? & ? & ?). split_and!; [done..| | |]; by apply IH.
  - destruct h as [|n|[] n dead]; try done; intros [? ?]; (split; [done|]); by apply IH.
  - intros [? Hm]. split; [done|]. intros x. apply IH, Hm.
  - intros [? Hm]. split; [done|]. intros x. apply IH, Hm.
  - intros [? Hm]. split; [done|]. intros x. apply IH, Hm.
  - intros [? Hm]. split; [done|]. intros x. apply IH, Hm.
  - intros [? Hm]. split; [done|]. intros x. apply IH, Hm.
Qed.

(** *** The report of [RuntimeStatus] is such a program *)

Lemma liveness_disciplined seen gone i : identity_of i ∈ seen →
  disciplined seen gone Free (instance_liveness i) (λ _ g h l, h = Free ∧ (l = Dead → identity_of i ∈ g)).
Proof.
  intros Hi. unfold instance_liveness. cbn [disciplined]. split; [done|]. intros e.
  destruct e; cbn [disciplined]; try (split; [done|by intros]).
  - destruct (process_start_ticks i) as [recorded|] eqn:Ht; cbn [disciplined]; [|by split].
    split; [done|]. intros t. destruct t as [stat| |]; cbn [disciplined gone_by_stat]; [| |by split].
    + destruct (parse_start_ticks stat) as [current|]; [|by split]. destruct (N.eqb_spec current recorded) as [|Hne]; cbn [disciplined]; [by split|].
      split; [done|]. intros _. apply elem_of_app. left. apply list_elem_of_filter. split; [|done]. cbn [identity_of id_pid id_ticks].
      rewrite Ht. cbn. split; [done|]. apply negb_true_iff, N.eqb_neq. congruence.
    + split; [done|]. intros _. apply elem_of_app. left. by apply list_elem_of_filter.
  - split; [done|]. intros _. apply elem_of_app. left. by apply list_elem_of_filter.
Qed.
Lemma remove_disciplined seen gone i : identity_of i ∈ gone →
  disciplined seen gone Free (remove_dead_status_file reader (status_name (pid i)) i) (λ _ _ h _, h = Free).
Proof.
  intros Hi. unfold remove_dead_status_file. cbn [disciplined]. split; [done|]. intros n. exists i. split_and!; [done..|].
  cbn [negb]. apply disciplined_bind. unfold read_status_file_named. cbn [disciplined]. split; [done|]. intros bytes.
  unfold judged_held. destruct (still_dead _ _); cbn [disciplined remove_status_file]; by split_and!.
Qed.
Lemma entry_disciplined seen gone r name :
  disciplined seen gone Free (report_entry reader r name) (λ _ _ h _, h = Free).
Proof.
  unfold report_entry. destruct (bool_decide _) eqn:Hjson; [|done]. apply disciplined_bind. unfold read_status_file, read_status_file_named.
  cbn [disciplined]. split; [exact Hjson|]. intros bytes. unfold found. destruct (named_status name bytes) as [i|] eqn:Hi; cbn [disciplined]; [|done].
  apply disciplined_bind. eapply disciplined_mono; [|apply liveness_disciplined; by left].
  intros s g h l [-> Hl]. destruct l; cbn [disciplined]; try done. apply disciplined_bind.
  rewrite (named_json name (pid i) Hjson (named_status_pid _ _ _ Hi)).
  eapply disciplined_mono; [|apply remove_disciplined; by apply Hl]. intros s' g' h' _ ->. done.
Qed.
Lemma entries_disciplined names : ∀ seen gone r, disciplined seen gone Free (report_entries reader names r) (λ _ _ h _, h = Free).
Proof.
  induction names as [|name names IH]; intros seen gone r; cbn [report_entries]; [done|]. apply disciplined_bind.
  eapply disciplined_mono; [|apply entry_disciplined]. intros s g h r' ->. apply IH.
Qed.
Lemma report_disciplined : disciplined [] [] Free (read_runtime_report_from reader) (λ _ _ h _, h = Free).
Proof.
  unfold read_runtime_report_from. cbn [disciplined]. split; [done|]. intros []; cbn [negb disciplined]; [|done]. split; [done|].
  intros l. destruct l as [| |names complete]; cbn [disciplined]; [done..|]. apply disciplined_bind.
  eapply disciplined_mono; [|apply entries_disciplined]. intros s g h r ->. done.
Qed.
End Discipline.
