(* ===== verification/StatusFiles.v ===== *)
(** * StatusFiles: publishers and readers of status files side by side

    The invariant of the world of [StatusWorld], and that every step keeps it.
    [live_status_kept] shows that cleaning up never loses the status of a running server;
    [older_status_restored] is a run in which two readers replace a status by an older one of the
    same server. *)

From S2P Require Import Prelude.
From S2P Require Import Text.
From S2P Require Import TextSearch.
From S2P Require Import ProjectCache.
From S2P Require Import RuntimeStatus.
From S2P Require Import StatusWorld.

Open Scope N_scope.

(** ** Lemmas: what a publisher does *)

(** What is known of the temporary file: nothing, that it is empty, or that it holds the status. *)
Inductive Temporary := Anything | Empty | Written.

Section Publishers.
Context `{StatusCodecLaws}.

Definition holds (i : Identity) (bytes : list N) : Prop := ∃ s, from_slice bytes = Some s ∧ identity_of s = i.

(** A program that replaces the status file of a server by its status, and removes it to close. *)
Fixpoint publishes {A} (i : Identity) (closing : bool) (t : Temporary) (m : program A) (Q : A → Prop) : Prop :=
  match m with
  | Return a => Q a
  | MakeDirectory k => ∀ ok, publishes i closing Anything (k ok) Q
  | CreateFile name k => name = temporary_of (id_pid i) ∧ publishes i closing Anything (k false) Q ∧ publishes i closing Empty (k true) Q
  | AppendFile name bytes k => name = temporary_of (id_pid i) ∧ t = Empty ∧ holds i bytes ∧
      publishes i closing Anything (k false) Q ∧ publishes i closing Written (k true) Q
  | RenameFile from to_ k => from = temporary_of (id_pid i) ∧ to_ = status_name (id_pid i) ∧ t = Written ∧
      ∀ ok, publishes i closing Anything (k ok) Q
  | RemoveFile name k => name = status_name (id_pid i) ∧ closing = true ∧ publishes i closing Anything k Q
  | _ => False
  end.
Lemma publishes_mono {A} i closing (m : program A) (Q Q' : A → Prop) :
  (∀ a, Q a → Q' a) → ∀ t, publishes i closing t m Q → publishes i closing t m Q'.
Proof.
  intros HQ. induction m as [a|k IH|name k IH|name bytes k IH|name k IH|from to_ k IH|from to_ k IH|name k IH|k IH|k IH|k IH|p k IH|p k IH];
    intros t; cbn [publishes]; try done.
  - apply HQ.
  - intros Hm ok. by apply IH.
  - intros (? & ? & ?). split_and!; [done|by apply IH..].
  - intros (? & ? & ? & ? & ?). split_and!; [done..|by apply IH|by apply IH].
  - intros (? & ? & ? & Hm). split_and!; [done..|]. intros ok. by apply IH.
  - intros (? & ? & ?). split_and!; [done..|by apply IH].
Qed.
Lemma publishes_bind {A B} i closing (m : program A) (f : A → program B) Q :
  ∀ t, publishes i closing t m (λ a, ∀ t, publishes i closing t (f a) Q) → publishes i closing t (m ≫= f) Q.
Proof.
  change (m ≫= f) with (program_bind f m).
  induction m as [a|k IH|name k IH|name bytes k IH|name k IH|from to_ k IH|from to_ k IH|name k IH|k IH|k IH|k IH|p k IH|p k IH];
    intros t; cbn [publishes program_bind]; try done.
  - intros Hm ok. by apply IH.
  - intros (? & ? & ?). split_and!; [done|by apply IH..].
  - intros (? & ? & ? & ? & ?). split_and!; [done..|by apply IH|by apply IH].
  - intros (? & ? & ? & Hm). split_and!; [done..|]. intros ok. by apply IH.
  - intros (? & ? & ?). split_and!; [done..|by apply IH].
Qed.

Definition of_server (i : Identity) (s : PublisherState) : Prop := identity_of (status s) = i.
Lemma write_publishes i closing r s t : of_server i s →
  publishes i closing t (write (status_name (id_pid i)) r s) (λ x, of_server i x.1).
Proof.
  intros Hs. unfold write. cbn [publishes]. split_and!; [done|done|]. cbn [negb].
  destruct (to_vec_pretty _) as [bytes|] eqn:Hbytes; [|done]. cbn [publishes negb]. split_and!; try done.
  apply from_to_vec in Hbytes. exists (status (written r s)). by split.
Qed.
Definition idle_server (i : Identity) (o : option PublisherState) : Prop := ∀ s, o = Some s → of_server i s.
Lemma called_publishes i closing c s t : of_server i s → (closes c = true → closing = true) →
  publishes i closing t (called (status_name (id_pid i)) c s) (idle_server i).
Proof.
  intros Hs Hclosing. destruct c as [c ps r|now|c ps r| |]; cbn [called closes] in *; unfold keeping.
  - apply publishes_bind. unfold update_cache. destruct (closed s); cbn [publishes]; [by intros _ s' [= <-]|].
    eapply publishes_mono; [|by apply write_publishes]. intros [s' ok] Hs' t'. by intros s'' [= <-].
  - cbn [publishes]. intros s' [= <-]. unfold record_hit_at. by repeat case_match.
  - apply publishes_bind. unfold flush_hits. cbn [closed dirty]. destruct (closed s || negb (dirty s)); cbn [publishes]; [by intros _ s' [= <-]|].
    eapply publishes_mono; [|by apply write_publishes]. intros [s' ok] Hs' t'. by intros s'' [= <-].
  - apply publishes_bind. unfold close. cbn [publishes]. split_and!; [done|by apply Hclosing|]. by intros _ s' [= <-].
  - apply publishes_bind. unfold remove_status_file. cbn [publishes]. split_and!; [done|by apply Hclosing|]. by intros _ s' ?.
Qed.
Lemma register_publishes r s t : publishes (identity_of s) false t (register_in r s) (idle_server (identity_of s)).
Proof.
  unfold register_in. cbn [publishes]. intros []; cbn [negb publishes]; [|done]. apply publishes_bind.
  eapply publishes_mono; [|by apply (write_publishes (identity_of s) false r (registered r s))].
  intros [s' []] Hs' t'; cbn [publishes]; [by intros s'' [= <-]|done].
Qed.

(** ** The invariant *)

Definition is_gone (w : World) (i : Identity) : Prop :=
  i ∈ past w ∧ ∀ process, live w !! id_pid i = Some process → server process ≠ Some i.
(** The server that left a file, if there was one, and the one started in this run. *)
Definition belongs (w0 w : World) (p : N) (i : Identity) : Prop :=
  (identity_of <$> named_status (status_name p) (directory w0 !! status_name p)) = Some i ∨ started w !! p = Some i.
(** The contents of a status file, wherever it was moved to. *)
Definition content_ok (w0 w : World) (p : N) (bytes : list N) : Prop :=
  match named_status (status_name p) (Some bytes) with
  | Some s => identity_of s ∈ past w ∧ belongs w0 w p (identity_of s)
  | None => named_status (status_name p) (directory w0 !! status_name p) = None
  end.
Definition mine (p : N) (i : Identity) (bytes : list N) : Prop :=
  ∃ s, named_status (status_name p) (Some bytes) = Some s ∧ identity_of s = i.

(** What is known of a reader. *)
Record Ghost := {
  ghost_reader : N;
  ghost_seen : list Identity;
  ghost_gone : list Identity;
  ghost_hold : Hold;
}.
Definition token (h : Hold) : option N := match h with Free => None | Named n | Held _ n _ => Some n end.
Definition held_ok (w0 w : World) (reader : N) (h : Hold) : Prop :=
  match h with
  | Free => True
  | Named n => n ≤ moment w
  | Held g n dead =>
      n ≤ moment w ∧ is_gone w (identity_of dead) ∧ belongs w0 w (pid dead) (identity_of dead) ∧
      ∀ bytes, directory w !! held_name reader n dead = Some bytes →
        content_ok w0 w (pid dead) bytes ∧
        match g with
        | Removing => mine (pid dead) (identity_of dead) bytes
        | Linking => ¬ mine (pid dead) (identity_of dead) bytes
        | Renamed | Dropping => True
        end
  end.
Record reader_ok (w0 w : World) (g : Ghost) (m : program (option RuntimeReport)) : Prop := {
  reader_disciplined : disciplined (ghost_reader g) (ghost_seen g) (ghost_gone g) (ghost_hold g) m (λ _ _ h _, h = Free);
  reader_seen : ∀ i, i ∈ ghost_seen g → i ∈ past w ∧ belongs w0 w (id_pid i) i;
  reader_gone : ∀ i, i ∈ ghost_gone g → is_gone w i ∧ belongs w0 w (id_pid i) i;
  reader_held : held_ok w0 w (ghost_reader g) (ghost_hold g);
}.
Record publisher_ok (w : World) (p : N) (pub : Publishing) : Prop := {
  publisher_live : ∃ process i, live w !! p = Some process ∧ server process = Some i ∧ started w !! p = Some i ∧ id_pid i = p ∧
    ∃ t, publishes i (closing pub) t (task pub) (idle_server i) ∧
      match t with
      | Anything => True
      | Empty => directory w !! temporary_of p = Some []
      | Written => ∃ bytes, directory w !! temporary_of p = Some bytes ∧ holds i bytes
      end;
}.
(** A quarantined file that will be linked back, or could not be. *)
Definition kept_back (w : World) (G : gmap nat Ghost) (p : N) (i : Identity) : Prop :=
  (∃ r g n dead bytes, G !! r = Some g ∧
     (ghost_hold g = Held Renamed n dead ∨ ghost_hold g = Held Linking n dead) ∧ pid dead = p ∧
     directory w !! held_name (ghost_reader g) n dead = Some bytes ∧ mine p i bytes) ∨
  (∃ name bytes, name ∈ abandoned w ∧ directory w !! name = Some bytes ∧ mine p i bytes).
Record listed_ok (w : World) (G : gmap nat Ghost) (p : N) (i : Identity) : Prop := {
  listed_mine : ∀ bytes, directory w !! status_name p = Some bytes → mine p i bytes;
  listed_kept : (∃ bytes, directory w !! status_name p = Some bytes) ∨ kept_back w G p i;
}.
Record consistent (w0 w : World) (G : gmap nat Ghost) : Prop := {
  consistent_live : ∀ p process i, live w !! p = Some process → server process = Some i →
    i ∈ past w ∧ id_pid i = p ∧ (id_ticks i = None ∨ id_ticks i = Some (kernel_ticks process));
  consistent_started : ∀ p i, started w !! p = Some i → i ∈ past w ∧ id_pid i = p;
  consistent_content : ∀ p bytes, directory w !! status_name p = Some bytes → content_ok w0 w p bytes;
  consistent_readers : ∀ r m, readers w !! r = Some m → ∃ g, G !! r = Some g ∧ reader_ok w0 w g m;
  consistent_ghosts : ∀ r g, G !! r = Some g → is_Some (readers w !! r);
  consistent_tokens : ∀ r r' g g' n, G !! r = Some g → G !! r' = Some g' → token (ghost_hold g) = Some n → token (ghost_hold g') = Some n → r = r';
  consistent_abandoned : ∀ name, name ∈ abandoned w → ∃ reader n p, name = quarantine_of reader n p ∧ n ≤ moment w ∧
    ∀ r g, G !! r = Some g → token (ghost_hold g) ≠ Some n;
  consistent_publishers : ∀ p pub, publishers w !! p = Some pub → publisher_ok w p pub;
  consistent_listed : ∀ p pub i, publishers w !! p = Some pub → published pub = true → closing pub = false → started w !! p = Some i →
    listed_ok w G p i;
}.
End Publishers.

(** ** Lemmas: steps keep what is known *)

Section Steps_keep.
Context `{StatusCodecLaws} (w0 : World).

(** A system call leaves the processes alone. *)
Record same_processes (w w1 : World) : Prop := {
  same_live : live w1 = live w;
  same_past : past w1 = past w;
  same_started : started w1 = started w;
  same_moment : moment w ≤ moment w1;
}.
(** The past goes on: servers are added, and who is gone stays gone. *)
Record later (w w1 : World) : Prop := {
  later_past : ∀ i, i ∈ past w → i ∈ past w1;
  later_started : ∀ p i, started w !! p = Some i → started w1 !! p = Some i;
  later_moment : moment w ≤ moment w1;
  later_gone : ∀ i, is_gone w i → is_gone w1 i;
}.
Lemma same_later w w1 : same_processes w w1 → later w w1.
Proof.
  intros [Hlive Hpast Hstarted Hmoment]. split; [by rewrite Hpast|by rewrite Hstarted|done|].
  intros i [Hi Hg]. unfold is_gone. rewrite Hpast, Hlive. done.
Qed.
Lemma belongs_later w w1 p i : later w w1 → belongs w0 w p i → belongs w0 w1 p i.
Proof. intros Hl [Hb|Hb]; [by left|right; by apply (later_started _ _ Hl)]. Qed.
Lemma content_later w w1 p bytes : later w w1 → content_ok w0 w p bytes → content_ok w0 w1 p bytes.
Proof.
  intros Hl. unfold content_ok. destruct (named_status _ _) as [s|]; [|done]. intros [Hp Hb]. split; [by apply (later_past _ _ Hl)|by eapply belongs_later].
Qed.
Lemma held_later w w1 reader h : later w w1 →
  (∀ g n dead, h = Held g n dead → directory w1 !! held_name reader n dead = directory w !! held_name reader n dead) →
  held_ok w0 w reader h → held_ok w0 w1 reader h.
Proof.
  intros Hl Hfiles. pose proof (later_moment _ _ Hl). destruct h as [|n|g n dead]; cbn [held_ok]; [done|lia|].
  intros (Hn & Hg & Hb & Hbytes). split_and!; [lia|by apply (later_gone _ _ Hl)|by eapply belongs_later|].
  intros bytes. rewrite (Hfiles g n dead eq_refl). intros Hc. destruct (Hbytes bytes Hc). split; [by eapply content_later|done].
Qed.
Lemma reader_later w w1 g m : later w w1 →
  (∀ st n dead, ghost_hold g = Held st n dead →
     directory w1 !! held_name (ghost_reader g) n dead = directory w !! held_name (ghost_reader g) n dead) →
  reader_ok w0 w g m → reader_ok w0 w1 g m.
Proof.
  intros Hl Hfiles [Hd Hs Hg Hh]. split; [done| | |by eapply held_later].
  - intros i Hi. destruct (Hs i Hi). split; [by apply (later_past _ _ Hl)|by eapply belongs_later].
  - intros i Hi. destruct (Hg i Hi). split; [by apply (later_gone _ _ Hl)|by eapply belongs_later].
Qed.
Lemma publisher_later w w1 p pub : live w1 !! p = live w !! p → started w1 !! p = started w !! p →
  directory w1 !! temporary_of p = directory w !! temporary_of p → publisher_ok w p pub → publisher_ok w1 p pub.
Proof. intros Hl Hs Hd [(process & i & Hp)]. split. exists process, i. by rewrite Hl, Hs, Hd. Qed.

Lemma kept_back_more w w1 G G1 p i :
  (∀ r g, G !! r = Some g → G1 !! r = Some g) → directory w1 = directory w → abandoned w1 = abandoned w →
  kept_back w G p i → kept_back w1 G1 p i.
Proof.
  intros HG Hd Ha [(r & g & n & dead & bytes & Hr & Hk)|(name & bytes & Hk)]; [left|right].
  - exists r, g, n, dead, bytes. rewrite Hd. split; [by apply HG|done].
  - exists name, bytes. by rewrite Hd, Ha.
Qed.

(** A live server is not the one whose file a reader holds, so that what is linked back is its. *)
Lemma linked_is_mine w G r g m n dead p i process bytes :
  consistent w0 w G → G !! r = Some g → reader_ok w0 w g m → ghost_hold g = Held Linking n dead → pid dead = p →
  live w !! p = Some process → server process = Some i → started w !! p = Some i →
  directory w !! held_name (ghost_reader g) n dead = Some bytes → mine p i bytes.
Proof.
  intros Hw Hr Hok Hh <- Hl Hs Hi Hbytes. pose proof (reader_held _ _ _ _ Hok) as Hheld. rewrite Hh in Hheld.
  destruct Hheld as (_ & [Hpast Hg] & Hb & Hcontent). destruct (Hcontent bytes Hbytes) as [Hc Hnot].
  assert (identity_of dead ≠ i) as Hne by (intros Heq; apply (Hg process); [done|congruence]).
  assert (identity_of <$> named_status (status_name (pid dead)) (directory w0 !! status_name (pid dead)) = Some (identity_of dead)) as Hinit.
  { destruct Hb as [Hb|Hb]; [done|]. congruence. }
  unfold content_ok in Hc. unfold mine in *. destruct (named_status _ (Some bytes)) as [s|] eqn:Hn; [|by rewrite Hc in Hinit].
  destruct Hc as [_ [Hb'|Hb']].
  - exfalso. apply Hnot. exists s. split; [done|]. congruence.
  - exists s. split; [done|]. congruence.
Qed.
Lemma renamed_is_not_dead w G r g m n dead st p i process bytes :
  consistent w0 w G → G !! r = Some g → reader_ok w0 w g m → ghost_hold g = Held st n dead → pid dead = p →
  live w !! p = Some process → server process = Some i → mine p i bytes → judged_held (Some bytes) dead = Linking.
Proof.
  intros Hw Hr Hok Hh <- Hl Hs (s & Hn & Hi). pose proof (reader_held _ _ _ _ Hok) as Hheld. rewrite Hh in Hheld.
  destruct Hheld as (_ & [_ Hg] & _). unfold judged_held. rewrite Hn. cbn [still_dead].
  destruct (is_same_instance s dead) eqn:Hsame; [|done]. apply same_instance_identity in Hsame.
  exfalso. apply (Hg process); [done|]. congruence.
Qed.
End Steps_keep.

Section Publisher_steps.
Context `{StatusCodecLaws} (w0 : World).

(** A directory in which the quarantined files are as before. *)
Definition same_quarantine (w : World) (m : gmap (list N) (list N)) : Prop :=
  ∀ reader n q, m !! quarantine_of reader n q = directory w !! quarantine_of reader n q.
Lemma kept_back_same w w1 G p i :
  consistent w0 w G → same_quarantine w (directory w1) → abandoned w1 = abandoned w → kept_back w G p i → kept_back w1 G p i.
Proof.
  intros Hw Hq Ha [(r & g & n & dead & bytes & Hr & Hst & Hp & Hbytes & Hm)|(name & bytes & Hin & Hbytes & Hm)]; [left|right].
  - exists r, g, n, dead, bytes. unfold held_name in *. by rewrite Hq.
  - exists name, bytes. rewrite Ha. split_and!; [done| |done].
    destruct (consistent_abandoned _ _ _ Hw name Hin) as (reader & n & q & -> & _). by rewrite Hq.
Qed.

Lemma publisher_change w G p pub pub' m1 :
  consistent w0 w G → publishers w !! p = Some pub → same_quarantine w m1 →
  publisher_ok (with_directory m1 w) p pub' →
  (∀ q, q ≠ p → m1 !! temporary_of q = directory w !! temporary_of q ∧ m1 !! status_name q = directory w !! status_name q) →
  (∀ bytes, m1 !! status_name p = Some bytes → content_ok w0 w p bytes) →
  (published pub' = true → closing pub' = false → ∀ i, started w !! p = Some i → listed_ok (with_directory m1 w) G p i) →
  consistent w0 (with_publishers (<[p := pub']> (publishers w)) (with_directory m1 w)) G.
Proof.
  intros Hw Hpub Hq Hok Hother Hcontent Hlisted. set (w1 := with_publishers _ _).
  assert (later w w1) as Hlater by (apply same_later; split; try done; apply N.le_refl).
  split; try apply Hw.
  - intros q bytes Hbytes. change (m1 !! status_name q = Some bytes) in Hbytes. destruct (decide (q = p)) as [->|Hne].
    + by apply (content_later w0 w), Hcontent.
    + destruct (Hother q Hne) as [_ Hs]. rewrite Hs in Hbytes. by apply (content_later w0 w), (consistent_content _ _ _ Hw).
  - intros r m Hr. destruct (consistent_readers _ _ _ Hw r m Hr) as (g & Hg & Hrok). exists g. split; [done|].
    eapply reader_later; [exact Hlater| |exact Hrok]. intros st n dead _. apply Hq.
  - intros q pub'' Hpub''. change (<[p := pub']> (publishers w) !! q = Some pub'') in Hpub''. destruct (decide (q = p)) as [->|Hne].
    + rewrite lookup_insert_eq in Hpub''. injection Hpub'' as <-. apply (publisher_later (with_directory m1 w)); [done..|exact Hok].
    + rewrite lookup_insert_ne in Hpub'' by done. destruct (Hother q Hne) as [Ht _].
      apply (publisher_later w); [done|done|exact Ht|by apply (consistent_publishers _ _ _ Hw)].
  - intros q pub'' i Hpub'' Hpublished Hclosing Hi. change (<[p := pub']> (publishers w) !! q = Some pub'') in Hpub''. destruct (decide (q = p)) as [->|Hne].
    + rewrite lookup_insert_eq in Hpub''. injection Hpub'' as <-. destruct (Hlisted Hpublished Hclosing i Hi) as [Hmine Hkept].
      split; [exact Hmine|]. destruct Hkept as [Hk|Hk]; [by left|right]. eapply kept_back_more; [..|exact Hk]; done.
    + rewrite lookup_insert_ne in Hpub'' by done. destruct (Hother q Hne) as [_ Hs].
      destruct (consistent_listed _ _ _ Hw q pub'' i Hpub'' Hpublished Hclosing Hi) as [Hmine Hkept]. split.
      * intros bytes Hbytes. apply Hmine. by rewrite <- Hs.
      * destruct Hkept as [[bytes Hb]|Hk]; [left; exists bytes; change (m1 !! status_name q = Some bytes); by rewrite Hs|right]. by eapply kept_back_same.
Qed.

Lemma holds_mine i bytes : holds i bytes → mine (id_pid i) i bytes.
Proof.
  intros (s & Hs & Hi). exists s. split; [|done]. unfold named_status. cbn [mbind option_bind]. rewrite Hs. cbn [mbind option_bind].
  rewrite split_extension_status, bool_decide_eq_true_2; [done|]. by rewrite <- Hi.
Qed.
Lemma mine_ok w G p i bytes : consistent w0 w G → started w !! p = Some i → mine p i bytes → content_ok w0 w p bytes.
Proof.
  intros Hw Hi (s & Hs & <-). unfold content_ok. rewrite Hs. split; [by apply (consistent_started _ _ _ Hw p)|by right].
Qed.

(** The files besides the one that is changed. *)
Lemma insert_other (m : gmap (list N) (list N)) name bytes other : other ≠ name → <[name := bytes]> m !! other = m !! other.
Proof. intros Hne. by rewrite lookup_insert_ne. Qed.
Lemma temporary_change w G p pub pub' i (f : option (list N) → option (list N)) t :
  consistent w0 w G → publishers w !! p = Some pub → started w !! p = Some i → published pub' = published pub → closing pub' = closing pub →
  publishes i (closing pub') t (task pub') (idle_server i) →
  match t with
  | Anything => True
  | Empty => partial_alter f (temporary_of p) (directory w) !! temporary_of p = Some []
  | Written => ∃ bytes, partial_alter f (temporary_of p) (directory w) !! temporary_of p = Some bytes ∧ holds i bytes
  end →
  consistent w0 (with_publishers (<[p := pub']> (publishers w)) (with_directory (partial_alter f (temporary_of p) (directory w)) w)) G.
Proof.
  intros Hw Hpub Hi Hpublished Hclosing Htask Ht.
  destruct (consistent_publishers _ _ _ Hw p pub Hpub) as [(process & i' & Hl & Hs & Hi' & Hp & _)].
  assert (∀ other, other ≠ temporary_of p → partial_alter f (temporary_of p) (directory w) !! other = directory w !! other) as Hother
    by (intros other Hne; by rewrite lookup_partial_alter_ne).
  assert (i' = i) as -> by congruence.
  eapply publisher_change; [exact Hw|exact Hpub|..].
  - intros reader n q. apply Hother. intros Heq. by apply (temporary_quarantine p reader n q).
  - split. exists process, i. split_and!; [done..|]. by exists t.
  - intros q Hne. split; apply Hother; [|apply status_temporary]. intros Heq%temporary_of_inj. done.
  - intros bytes. rewrite Hother by apply status_temporary. apply (consistent_content _ _ _ Hw).
  - rewrite Hpublished, Hclosing. intros Hpb Hcl j Hj.
    destruct (consistent_listed _ _ _ Hw p pub j Hpub Hpb Hcl Hj) as [Hmine Hkept]. split; cbn [with_directory directory].
    + intros bytes. rewrite Hother by apply status_temporary. apply Hmine.
    + rewrite Hother by apply status_temporary. destruct Hkept as [Hk|Hk]; [by left|right].
      eapply kept_back_same; [exact Hw| |done|exact Hk]. intros reader n q. apply Hother. intros Heq. by apply (temporary_quarantine p reader n q).
Qed.
End Publisher_steps.

Section Publisher_step.
Context `{StatusCodecLaws} (w0 : World).

Lemma with_directory_same w : with_directory (directory w) w = w.
Proof. by destruct w. Qed.
(** A system call that changes no file. *)
Lemma publisher_unchanged w G p pub pub' i t :
  consistent w0 w G → publishers w !! p = Some pub → started w !! p = Some i →
  published pub' = published pub → (closing pub' = false → closing pub = false) →
  publishes i (closing pub') t (task pub') (idle_server i) → t = Anything →
  consistent w0 (with_publishers (<[p := pub']> (publishers w)) w) G.
Proof.
  intros Hw Hpub Hi Hpublished Hclosing Htask ->.
  destruct (consistent_publishers _ _ _ Hw p pub Hpub) as [(process & i' & Hl & Hs & Hi' & Hp & _)]. assert (i' = i) as -> by congruence.
  rewrite <- (with_directory_same w) at 2. eapply publisher_change; [exact Hw|exact Hpub|done| |done|apply (consistent_content _ _ _ Hw)|].
  - split. exists process, i. split_and!; [done..|]. by exists Anything.
  - rewrite Hpublished. intros Hpb Hcl j Hj. rewrite with_directory_same.
    by apply (consistent_listed _ _ _ Hw p pub j Hpub Hpb (Hclosing Hcl)).
Qed.

Lemma publisher_steps w G p c w' : consistent w0 w G → step w (PublisherSteps p c) = Some w' → consistent w0 w' G.
Proof.
  intros Hw. cbn [step]. destruct (publishers w !! p) as [pub|] eqn:Hpub; [|done].
  destruct (consistent_publishers _ _ _ Hw p pub Hpub) as [(process & i & Hl & Hs & Hi & <- & t & Htask & Ht)].
  destruct (perform w (task pub) c) as [[w1 m]|] eqn:Hperform; [|done]. intros [= <-].
  destruct (task pub) as [o|k|name k|name bytes k|name k|from to_ k|from to_ k|name k|k|k|k|q k|q k] eqn:Hcode; try done; cbn [publishes] in Htask.
  - assert (w1 = w ∧ ∃ ok, m = k ok) as [-> [ok ->]] by (destruct c; try done; injection Hperform as <- <-; by eauto).
    eapply publisher_unchanged; [exact Hw|exact Hpub|exact Hi|..]; cbn [published closing task replaces]; by rewrite ?orb_false_r.
  - destruct Htask as (-> & Hfalse & Htrue). destruct c; try done; injection Hperform as <- <-.
    + apply (temporary_change w0 w G _ pub _ i (λ _, Some []) Empty); [exact Hw|exact Hpub|exact Hi|..]; cbn [published closing task replaces];
        [by rewrite orb_false_r|done|exact Htrue|]. by rewrite lookup_partial_alter_eq.
    + eapply publisher_unchanged; [exact Hw|exact Hpub|exact Hi|..]; cbn [published closing task replaces]; by rewrite ?orb_false_r.
  - destruct Htask as (-> & -> & Hholds & Hfalse & Htrue). destruct c as [| |n| | |]; try done; injection Hperform as <- <-.
    + apply (temporary_change w0 w G _ pub _ i (fmap (λ before, before ++ bytes)) Written); [exact Hw|exact Hpub|exact Hi|..];
        cbn [published closing task replaces]; [by rewrite orb_false_r|done|exact Htrue|]. rewrite lookup_partial_alter_eq, Ht. by exists bytes.
    + apply (temporary_change w0 w G _ pub _ i (fmap (λ before, before ++ take n bytes)) Anything); [exact Hw|exact Hpub|exact Hi|..];
        cbn [published closing task replaces]; [by rewrite orb_false_r|done|exact Hfalse|done].
  - destruct Htask as (-> & -> & -> & Hk). destruct Ht as (bytes & Hbytes & Hholds).
    assert (Hrename : rename (temporary_of (id_pid i)) (status_name (id_pid i)) (directory w)
      = Some (<[status_name (id_pid i) := bytes]> (delete (temporary_of (id_pid i)) (directory w)))) by (unfold rename; by rewrite Hbytes).
    destruct c; try done; cbn [perform] in Hperform.
    + rewrite Hrename in Hperform. injection Hperform as <- <-. apply holds_mine in Hholds.
      apply (publisher_change w0 w G _ pub _ (<[status_name (id_pid i) := bytes]> (delete (temporary_of (id_pid i)) (directory w))));
        [exact Hw|exact Hpub|..]; cbn [published closing task].
      * intros reader n q. rewrite lookup_insert_ne by apply status_quarantine. apply lookup_delete_ne, temporary_quarantine.
      * split. exists process, i. split_and!; [done..|]. exists Anything. split; [apply Hk|done].
      * intros q Hne. split.
        -- rewrite lookup_insert_ne by apply status_temporary. apply lookup_delete_ne. by intros Heq%temporary_of_inj.
        -- rewrite lookup_insert_ne by (intros Heq%status_name_inj; done). apply lookup_delete_ne. intros Heq. by apply (status_temporary q (id_pid i)).
      * intros bytes'. rewrite lookup_insert_eq. intros [= <-]. by apply (mine_ok w0 w G _ i).
      * intros _ _ j Hj. assert (j = i) as -> by congruence. split; cbn [with_directory directory]; rewrite lookup_insert_eq.
        -- by intros bytes' [= <-].
        -- left. by exists bytes.
    + injection Hperform as <- <-. eapply publisher_unchanged; [exact Hw|exact Hpub|exact Hi|..]; cbn [published closing task replaces];
        [by rewrite orb_false_r|done|apply Hk|done].
  - destruct Htask as (-> & Hclosing & Hk). destruct c; try done; injection Hperform as <- <-.
    + apply (publisher_change w0 w G _ pub _ (delete (status_name (id_pid i)) (directory w))); [exact Hw|exact Hpub|..]; cbn [published closing task].
      * intros reader n q. apply lookup_delete_ne, status_quarantine.
      * split. exists process, i. split_and!; [done..|]. by exists Anything.
      * intros q Hne. split; apply lookup_delete_ne; [apply status_temporary|by intros Heq%status_name_inj].
      * intros bytes. by rewrite lookup_delete_eq.
      * by rewrite Hclosing.
    + eapply publisher_unchanged; [exact Hw|exact Hpub|exact Hi|..]; cbn [published closing task replaces]; by rewrite ?orb_false_r.
Qed.
Lemma publisher_called w G p c w' : consistent w0 w G → step w (PublisherCalled p c) = Some w' → consistent w0 w' G.
Proof.
  intros Hw. cbn [step]. destruct (publishers w !! p) as [pub|] eqn:Hpub; [|done].
  destruct (consistent_publishers _ _ _ Hw p pub Hpub) as [(process & i & Hl & Hs & Hi & <- & t & Htask & _)].
  destruct (task pub) as [[s|]|k|name k|name bytes k|name k|from to_ k|from to_ k|name k|k|k|k|q k|q k]; try done. intros [= <-].
  eapply publisher_unchanged; [exact Hw|exact Hpub|exact Hi|done| | |]; cbn [closing task].
  - by intros [? _]%orb_false_iff.
  - apply called_publishes; [by apply Htask|]. intros ->. apply orb_true_r.
  - done.
Qed.
End Publisher_step.

Section Process_steps.
Context `{StatusCodecLaws} (w0 : World).

Lemma listed_same w w1 G p i : directory w1 = directory w → abandoned w1 = abandoned w → listed_ok w G p i → listed_ok w1 G p i.
Proof.
  intros Hd Ha [Hmine Hkept]. split; rewrite Hd; [done|]. destruct Hkept as [Hk|Hk]; [by left|right]. by eapply kept_back_more.
Qed.
(** Processes come and go. *)
Lemma process_change w w1 G :
  consistent w0 w G → later w w1 →
  directory w1 = directory w → readers w1 = readers w → abandoned w1 = abandoned w →
  (∀ p process i, live w1 !! p = Some process → server process = Some i →
     i ∈ past w1 ∧ id_pid i = p ∧ (id_ticks i = None ∨ id_ticks i = Some (kernel_ticks process))) →
  (∀ p i, started w1 !! p = Some i → i ∈ past w1 ∧ id_pid i = p) →
  (∀ p pub, publishers w1 !! p = Some pub → publisher_ok w1 p pub) →
  (∀ p pub i, publishers w1 !! p = Some pub → published pub = true → closing pub = false → started w1 !! p = Some i → listed_ok w1 G p i) →
  consistent w0 w1 G.
Proof.
  intros Hw Hlater Hd Hr Ha Hlive Hstarted Hpublishers Hlisted. split; try done.
  - intros p bytes. rewrite Hd. intros Hb. by apply (content_later w0 w), (consistent_content _ _ _ Hw).
  - intros r m. rewrite Hr. intros (g & Hg & Hok)%(consistent_readers _ _ _ Hw). exists g. split; [done|].
    eapply reader_later; [exact Hlater| |exact Hok]. intros st n dead _. by rewrite Hd.
  - intros r g. rewrite Hr. apply (consistent_ghosts _ _ _ Hw).
  - apply (consistent_tokens _ _ _ Hw).
  - intros name. rewrite Ha. intros (reader & n & p & Hname & Hn & Hg)%(consistent_abandoned _ _ _ Hw).
    exists reader, n, p. split_and!; [done| |done]. pose proof (later_moment _ _ Hlater). lia.
Qed.

Lemma server_starts w G ticks r s w' : consistent w0 w G →
  step w (ServerStarts ticks r s) = Some w' → consistent w0 w' G.
Proof.
  intros Hw. cbn [step]. case_bool_decide as Hcond; [|done]. destruct Hcond as (Hlive & Hstarted & Hnew & Hticks). intros [= <-].
  assert (∀ p pub, publishers w !! p = Some pub → p ≠ pid s) as Hother.
  { intros p pub Hpub ->. destruct (consistent_publishers _ _ _ Hw _ _ Hpub) as [(process & i & Hl & _)]. congruence. }
  set (w1 := {| directory := directory w |}). assert (later w w1) as Hlater.
  { split; cbn [w1 past started moment live].
    - intros i Hi. by right.
    - intros p i Hi. rewrite lookup_insert_ne; [done|]. intros <-. congruence.
    - done.
    - intros i [Hi Hg]. split; [by right|]. intros process. cbn [live w1]. destruct (decide (id_pid i = pid s)) as [->|Hne].
      + rewrite lookup_insert_eq. intros [= <-] [= <-]. done.
      + rewrite lookup_insert_ne by done. apply Hg. }
  eapply process_change; [exact Hw|exact Hlater|done..| | | |]; cbn [w1 live past started publishers].
  - intros p process i. destruct (decide (p = pid s)) as [->|Hne].
    + rewrite lookup_insert_eq. intros [= <-] [= <-]. split_and!; [by left|done|exact Hticks].
    + rewrite lookup_insert_ne by done. intros Hl Hi. destruct (consistent_live _ _ _ Hw p process i Hl Hi) as (? & ? & ?). split_and!; [by right|done..].
  - intros p i. destruct (decide (p = pid s)) as [->|Hne].
    + rewrite lookup_insert_eq. intros [= <-]. by split; [left|].
    + rewrite lookup_insert_ne by done. intros Hi. destruct (consistent_started _ _ _ Hw p i Hi). by split; [right|].
  - intros p pub. destruct (decide (p = pid s)) as [->|Hne].
    + rewrite lookup_insert_eq. intros [= <-]. split. exists {| kernel_ticks := ticks; server := Some (identity_of s) |}, (identity_of s).
      cbn [w1 live started]. rewrite !lookup_insert_eq. split_and!; [done..|]. exists Anything. split; [apply register_publishes|done].
    + rewrite lookup_insert_ne by done. intros Hpub. apply (publisher_later w); cbn [w1 live started directory]; [by rewrite lookup_insert_ne..|done|].
      by apply (consistent_publishers _ _ _ Hw).
  - intros p pub i. destruct (decide (p = pid s)) as [->|Hne].
    + rewrite lookup_insert_eq. by intros [= <-].
    + rewrite !lookup_insert_ne by done. intros Hpub Hp Hc Hi. apply (listed_same w); [done..|]. by apply (consistent_listed _ _ _ Hw p pub).
Qed.
Lemma process_starts w G p ticks w' : consistent w0 w G → step w (ProcessStarts p ticks) = Some w' → consistent w0 w' G.
Proof.
  intros Hw. cbn [step]. destruct (live w !! p) eqn:Hlive; [done|]. intros [= <-]. set (w1 := {| directory := directory w |}).
  assert (later w w1) as Hlater.
  { split; cbn [w1 past started moment live]; try done. intros i [Hi Hg]. split; [done|]. intros process. cbn [live w1].
    destruct (decide (id_pid i = p)) as [->|Hne]; [rewrite lookup_insert_eq; by intros [= <-]|rewrite lookup_insert_ne by done; apply Hg]. }
  eapply process_change; [exact Hw|exact Hlater|done..| | | |]; cbn [w1 live past started publishers].
  - intros q process i. destruct (decide (q = p)) as [->|Hne]; [rewrite lookup_insert_eq; by intros [= <-]|].
    rewrite lookup_insert_ne by done. apply (consistent_live _ _ _ Hw).
  - apply (consistent_started _ _ _ Hw).
  - intros q pub Hpub. pose proof (consistent_publishers _ _ _ Hw q pub Hpub) as Hok. apply (publisher_later w); [|done|done|done].
    cbn [w1 live]. rewrite lookup_insert_ne; [done|]. intros <-. destruct Hok as [(process & i & Hl & _)]. congruence.
  - intros q pub i Hpub Hp Hc Hi. apply (listed_same w); [done..|]. by apply (consistent_listed _ _ _ Hw q pub).
Qed.
Lemma process_ends w G p w' : consistent w0 w G → step w (ProcessEnds p) = Some w' → consistent w0 w' G.
Proof.
  intros Hw. cbn [step]. intros [= <-]. set (w1 := {| directory := directory w |}).
  assert (later w w1) as Hlater.
  { split; cbn [w1 past started moment live]; try done. intros i [Hi Hg]. split; [done|]. intros process. cbn [live w1].
    rewrite lookup_delete_Some. intros [_ ?]. by apply Hg. }
  eapply process_change; [exact Hw|exact Hlater|done..| | | |]; cbn [w1 live past started publishers].
  - intros q process i. rewrite lookup_delete_Some. intros [_ ?]. by apply (consistent_live _ _ _ Hw).
  - apply (consistent_started _ _ _ Hw).
  - intros q pub. rewrite lookup_delete_Some. intros [Hne Hpub]. apply (publisher_later w); [|done|done|by apply (consistent_publishers _ _ _ Hw)].
    cbn [w1 live]. by rewrite lookup_delete_ne.
  - intros q pub i. rewrite lookup_delete_Some. intros [Hne Hpub] Hp Hc Hi. apply (listed_same w); [done..|]. by apply (consistent_listed _ _ _ Hw q pub).
Qed.
End Process_steps.

Section Reader_steps.
Context `{StatusCodecLaws} (w0 : World).

(** What a step of a reader may change, and what must hold of it afterwards. *)
Record reader_change (w w1 : World) (G : gmap nat Ghost) (r : nat) (g g' : Ghost) (m' : program (option RuntimeReport)) : Prop := {
  change_processes : same_processes w w1;
  change_publishers : publishers w1 = publishers w;
  change_readers : readers w1 = readers w;
  change_temporary : ∀ p, directory w1 !! temporary_of p = directory w !! temporary_of p;
  change_content : ∀ p bytes, directory w1 !! status_name p = Some bytes → content_ok w0 w p bytes;
  change_others : ∀ r' g'', r' ≠ r → G !! r' = Some g'' → ∀ st n dead, ghost_hold g'' = Held st n dead →
    directory w1 !! held_name (ghost_reader g'') n dead = directory w !! held_name (ghost_reader g'') n dead;
  change_token : ∀ r' g'' n, r' ≠ r → G !! r' = Some g'' → token (ghost_hold g'') = Some n → token (ghost_hold g') ≠ Some n;
  change_abandoned : ∀ name, name ∈ abandoned w1 → ∃ reader n p, name = quarantine_of reader n p ∧ n ≤ moment w1 ∧
    token (ghost_hold g') ≠ Some n ∧ ∀ r' g'', r' ≠ r → G !! r' = Some g'' → token (ghost_hold g'') ≠ Some n;
  change_reader : reader_ok w0 w1 g' m';
  change_listed : ∀ p pub i, publishers w !! p = Some pub → published pub = true → closing pub = false → started w !! p = Some i →
    listed_ok w1 (<[r := g']> G) p i;
}.
Lemma reader_stepped w w1 G r g g' m m' :
  consistent w0 w G → readers w !! r = Some m → G !! r = Some g → reader_change w w1 G r g g' m' →
  consistent w0 (with_readers (<[r := m']> (readers w1)) w1) (<[r := g']> G).
Proof.
  intros Hw Hr Hg [Hsame Hpub Hreaders Htemp Hcontent Hothers Htoken Habandoned Hok Hlisted].
  pose proof (same_later _ _ Hsame) as Hlater. pose proof Hsame as [Hl Hp Hs Hm]. set (w2 := with_readers _ w1).
  assert (later w w2) as Hlater2 by (apply same_later; by split).
  assert (later w1 w2) as Hlater12 by (apply same_later; split; done || apply N.le_refl).
  split.
  - change (live w2) with (live w1). change (past w2) with (past w1). rewrite Hl, Hp. apply (consistent_live _ _ _ Hw).
  - change (started w2) with (started w1). change (past w2) with (past w1). rewrite Hs, Hp. apply (consistent_started _ _ _ Hw).
  - intros p bytes Hb. by apply (content_later w0 w), Hcontent.
  - intros r' m'' Hr'. change (<[r := m']> (readers w1) !! r' = Some m'') in Hr'. destruct (decide (r' = r)) as [->|Hne].
    + rewrite lookup_insert_eq in Hr'. injection Hr' as <-. exists g'. split; [apply lookup_insert_eq|].
      by eapply (reader_later w0 w1); [exact Hlater12| |exact Hok].
    + rewrite lookup_insert_ne, Hreaders in Hr' by done. destruct (consistent_readers _ _ _ Hw r' m'' Hr') as (g'' & Hg'' & Hok'').
      exists g''. split; [by rewrite lookup_insert_ne|]. eapply (reader_later w0 w); [exact Hlater2| |exact Hok'']. intros st n dead Hh. by eapply (Hothers r').
  - intros r' g''. change (readers w2) with (<[r := m']> (readers w1)). rewrite !lookup_insert_Some. intros [[<- <-]|[Hne Hg'']].
    + rewrite lookup_insert_eq. by eexists.
    + rewrite lookup_insert_ne, Hreaders by done. by eapply (consistent_ghosts _ _ _ Hw).
  - intros r1 r2 g1 g2 n. rewrite !lookup_insert_Some. intros [[<- <-]|[Hne1 Hg1]] [[<- <-]|[Hne2 Hg2]] Ht1 Ht2; [done| | |].
    + by destruct (Htoken r2 g2 n).
    + by destruct (Htoken r1 g1 n).
    + by eapply (consistent_tokens _ _ _ Hw).
  - intros name Hin. destruct (Habandoned name Hin) as (reader & n & p & Hname & Hn & Hfree & Hother). exists reader, n, p. split_and!; [done..|].
    intros r' g''. rewrite lookup_insert_Some. intros [[<- <-]|[Hne Hg'']]; [done|by apply (Hother r')].
  - intros p pub Hpub'. change (publishers w2) with (publishers w1) in Hpub'. rewrite Hpub in Hpub'.
    apply (publisher_later w); [by rewrite <- Hl|by rewrite <- Hs|apply Htemp|by apply (consistent_publishers _ _ _ Hw)].
  - intros p pub i Hpub' Hpb Hcl Hi. change (publishers w2) with (publishers w1) in Hpub'. change (started w2) with (started w1) in Hi.
    rewrite Hpub in Hpub'. rewrite Hs in Hi. apply (listed_same w1); [done..|]. by apply (Hlisted p pub).
Qed.
(** A reader that is done holds nothing. *)
Lemma reader_done w G r g : consistent w0 w G → G !! r = Some g → ghost_hold g = Free → readers w !! r ≠ None →
  consistent w0 (with_readers (delete r (readers w)) w) (delete r G).
Proof.
  intros Hw Hg Hfree Hr. set (w1 := with_readers _ w). assert (later w w1) as Hlater by (apply same_later; split; done || apply N.le_refl).
  split; try apply Hw.
  - intros r' m Hr'. change (delete r (readers w) !! r' = Some m) in Hr'. apply lookup_delete_Some in Hr' as [Hne Hr']. destruct (consistent_readers _ _ _ Hw r' m Hr') as (g' & Hg' & Hok).
    exists g'. split; [by rewrite lookup_delete_ne|]. by eapply (reader_later w0 w).
  - intros r' g'. rewrite lookup_delete_Some. intros [Hne Hg']. change (readers w1) with (delete r (readers w)). rewrite lookup_delete_ne by done.
    by eapply (consistent_ghosts _ _ _ Hw).
  - intros r1 r2 g1 g2 n. rewrite !lookup_delete_Some. intros [_ Hg1] [_ Hg2]. by eapply (consistent_tokens _ _ _ Hw).
  - intros name (reader & n & p & Hname & Hn & Hother)%(consistent_abandoned _ _ _ Hw). exists reader, n, p. split_and!; [done..|].
    intros r' g'. rewrite lookup_delete_Some. intros [_ ?]. by apply (Hother r').
  - intros p pub Hpub. apply (publisher_later w); [done..|by apply (consistent_publishers _ _ _ Hw)].
  - intros p pub i Hpub Hpb Hcl Hi. destruct (consistent_listed _ _ _ Hw p pub i Hpub Hpb Hcl Hi) as [Hmine Hkept]. split; [exact Hmine|].
    destruct Hkept as [Hk|[(r' & g' & n & dead & bytes & Hg' & Hst & Hrest)|Hk]]; [by left|right; left|by right; right].
    exists r', g', n, dead, bytes. split; [|done]. rewrite lookup_delete_ne; [done|]. intros <-.
    assert (g' = g) as -> by congruence. rewrite Hfree in Hst. by destruct Hst.
Qed.
End Reader_steps.

Section Reader_calls.
Context `{StatusCodecLaws} (w0 : World).

(** The file a reader keeps back. *)
Definition keeps (w : World) (g : Ghost) (p : N) (i : Identity) : Prop :=
  ∃ st n dead bytes, ghost_hold g = Held st n dead ∧ (st = Renamed ∨ st = Linking) ∧ pid dead = p ∧
    directory w !! held_name (ghost_reader g) n dead = Some bytes ∧ mine p i bytes.
Lemma keeps_kept w G r g p i : G !! r = Some g → keeps w g p i → kept_back w G p i.
Proof.
  intros Hr (st & n & dead & bytes & Hh & Hst & Hp & Hb & Hm). left. exists r, g, n, dead, bytes. rewrite Hh.
  split_and!; [done| |done..]. by destruct Hst as [-> | ->]; [left|right].
Qed.
Lemma kept_back_split w w1 G r g g' p i :
  G !! r = Some g →
  (∀ r' g'' st n dead, r' ≠ r → G !! r' = Some g'' → ghost_hold g'' = Held st n dead →
     directory w1 !! held_name (ghost_reader g'') n dead = directory w !! held_name (ghost_reader g'') n dead) →
  (∀ name, name ∈ abandoned w → name ∈ abandoned w1 ∧ directory w1 !! name = directory w !! name) →
  kept_back w G p i → kept_back w1 (<[r := g']> G) p i ∨ keeps w g p i.
Proof.
  intros Hr Hothers Hab [(r' & g'' & n & dead & bytes & Hg & Hst & Hp & Hb & Hm)|(name & bytes & Hin & Hb & Hm)].
  - destruct (decide (r' = r)) as [->|Hne].
    + right. assert (g'' = g) as -> by congruence. destruct Hst as [Hst|Hst]; [exists Renamed, n, dead, bytes|exists Linking, n, dead, bytes]; split_and!; done || (by left) || (by right).
    + left. left. exists r', g'', n, dead, bytes. rewrite lookup_insert_ne by done. split_and!; [done..| |done].
      rewrite <- Hb. destruct Hst as [Hst|Hst]; by eapply Hothers.
  - left. right. exists name, bytes. destruct (Hab name Hin) as [? ->]. done.
Qed.

(** The next call changes nothing that others see. *)
Lemma quiet_change w G r g g' m' :
  consistent w0 w G → G !! r = Some g → reader_ok w0 w g' m' →
  (∀ n, token (ghost_hold g') = Some n → token (ghost_hold g) = Some n) →
  (∀ p pub i, publishers w !! p = Some pub → started w !! p = Some i → keeps w g p i →
     keeps w g' p i ∨ ∃ bytes, directory w !! status_name p = Some bytes) →
  reader_change w0 w w G r g g' m'.
Proof.
  intros Hw Hr Hok Htoken Hkeeps. split; try done; [apply (consistent_content _ _ _ Hw)|..].
  - intros r' g'' n Hne Hg'' Ht Ht'. apply Htoken in Ht'. apply Hne. by eapply (consistent_tokens _ _ _ Hw).
  - intros name (reader & n & p & Hname & Hn & Hother)%(consistent_abandoned _ _ _ Hw). exists reader, n, p. split_and!; [done..| |].
    + intros Ht. apply Htoken in Ht. by apply (Hother r g).
    + intros r' g'' _. apply Hother.
  - intros p pub i Hpub Hpb Hcl Hi. destruct (consistent_listed _ _ _ Hw p pub i Hpub Hpb Hcl Hi) as [Hmine Hkept]. split; [done|].
    destruct Hkept as [Hk|Hk]; [by left|]. destruct (kept_back_split w w G r g g' p i Hr) as [Hk'|Hk']; [done|done|done|by right|].
    destruct (Hkeeps p pub i Hpub Hi Hk') as [Hg'|Hb]; [|by left]. right. eapply keeps_kept; [|done]. apply lookup_insert_eq.
Qed.

(** *** What a reader learns *)

Definition next_ghost (g : Ghost) (seen gone : list Identity) (h : Hold) : Ghost :=
  {| ghost_reader := ghost_reader g; ghost_seen := seen ++ ghost_seen g; ghost_gone := gone ++ ghost_gone g; ghost_hold := h |}.
Lemma found_known w G name bytes : consistent w0 w G → is_json name = true → (bytes = None ∨ bytes = directory w !! name) →
  ∀ i, i ∈ found name bytes → i ∈ past w ∧ belongs w0 w (id_pid i) i.
Proof.
  intros Hw Hjson Hbytes i. unfold found. destruct (named_status name bytes) as [s|] eqn:Hs; cbn [fmap option_fmap option_map option_list].
  2: { intros Hin. by apply elem_of_nil in Hin. }
  intros ->%list_elem_of_singleton. destruct Hbytes as [-> | ->]; [done|]. rewrite (named_json name (pid s) Hjson (named_status_pid _ _ _ Hs)) in Hs.
  destruct (directory w !! status_name (pid s)) as [bytes|] eqn:Hb; [|done].
  pose proof (consistent_content _ _ _ Hw _ _ Hb) as Hc. unfold content_ok in Hc. by rewrite Hs in Hc.
Qed.
Lemma missing_gone w (seen : list Identity) p : (∀ i, i ∈ seen → i ∈ past w ∧ belongs w0 w (id_pid i) i) → live w !! p = None →
  ∀ i, i ∈ filter (λ i, id_pid i = p) seen → is_gone w i ∧ belongs w0 w (id_pid i) i.
Proof.
  intros Hseen Hl i [<- Hi]%list_elem_of_filter. destruct (Hseen i Hi). split; [|done]. split; [done|]. intros process. by rewrite Hl.
Qed.
Lemma replaced_gone w G (seen : list Identity) p process current : consistent w0 w G → (∀ i, i ∈ seen → i ∈ past w ∧ belongs w0 w (id_pid i) i) →
  live w !! p = Some process → current = kernel_ticks process →
  ∀ i, i ∈ filter (λ i, id_pid i = p ∧ from_option (λ recorded, negb (recorded =? current)) false (id_ticks i) = true) seen →
  is_gone w i ∧ belongs w0 w (id_pid i) i.
Proof.
  intros Hw Hseen Hl -> i [[<- Ht] Hi]%list_elem_of_filter. destruct (Hseen i Hi) as [Hp Hb]. split; [|done]. split; [done|].
  intros process' Hl' Hs. assert (process' = process) as -> by congruence.
  destruct (consistent_live _ _ _ Hw _ _ _ Hl Hs) as (_ & _ & [Hk|Hk]); rewrite Hk in Ht; [done|]. cbn in Ht. by rewrite N.eqb_refl in Ht.
Qed.
Lemma next_ok w g (seen gone : list Identity) h (m m' : program (option RuntimeReport)) : reader_ok w0 w g m →
  disciplined (ghost_reader g) (seen ++ ghost_seen g) (gone ++ ghost_gone g) h m' (λ _ _ h _, h = Free) →
  (∀ i, i ∈ seen → i ∈ past w ∧ belongs w0 w (id_pid i) i) → (∀ i, i ∈ gone → is_gone w i ∧ belongs w0 w (id_pid i) i) →
  held_ok w0 w (ghost_reader g) h → reader_ok w0 w (next_ghost g seen gone h) m'.
Proof.
  intros [_ Hs Hg _] Hd Hseen Hgone Hh. split; cbn [next_ghost ghost_reader ghost_seen ghost_gone ghost_hold]; [done| | |done].
  - intros i [Hi|Hi]%elem_of_app; [by apply Hseen|by apply Hs].
  - intros i [Hi|Hi]%elem_of_app; [by apply Hgone|by apply Hg].
Qed.
End Reader_calls.

Section Reader_step.
Context `{StatusCodecLaws} (w0 : World).

(** What is known of an idle server's process. *)
Lemma publisher_live_server w G p pub i : consistent w0 w G → publishers w !! p = Some pub → started w !! p = Some i →
  ∃ process, live w !! p = Some process ∧ server process = Some i.
Proof.
  intros Hw Hpub Hi. destruct (consistent_publishers _ _ _ Hw p pub Hpub) as [(process & i' & Hl & Hs & Hi' & _)].
  exists process. split; [done|]. congruence.
Qed.
Lemma ghost_program w G r g : consistent w0 w G → G !! r = Some g → ∃ m, readers w !! r = Some m ∧ reader_ok w0 w g m.
Proof.
  intros Hw Hg. destruct (consistent_ghosts _ _ _ Hw r g Hg) as [m Hm]. exists m. split; [done|].
  destruct (consistent_readers _ _ _ Hw r m Hm) as (g' & Hg' & Hok). by assert (g' = g) as <- by congruence.
Qed.

(** A reader that holds nothing learns something. *)
Lemma free_change w G r g m m' seen gone :
  consistent w0 w G → G !! r = Some g → reader_ok w0 w g m → ghost_hold g = Free →
  disciplined (ghost_reader g) (seen ++ ghost_seen g) (gone ++ ghost_gone g) Free m' (λ _ _ h _, h = Free) →
  (∀ i, i ∈ seen → i ∈ past w ∧ belongs w0 w (id_pid i) i) → (∀ i, i ∈ gone → is_gone w i ∧ belongs w0 w (id_pid i) i) →
  reader_change w0 w w G r g (next_ghost g seen gone Free) m'.
Proof.
  intros Hw Hg Hok Hfree Hd Hseen Hgone. apply quiet_change; [done|done|by eapply next_ok|done|].
  intros p pub i _ _ (st & n & dead & bytes & Hh & _). by rewrite Hfree in Hh.
Qed.
(** A reader that holds a name gives it up, or goes on, without touching a file. *)
Lemma held_change w G r g m m' h :
  consistent w0 w G → G !! r = Some g → reader_ok w0 w g m →
  disciplined (ghost_reader g) (ghost_seen g) (ghost_gone g) h m' (λ _ _ h _, h = Free) →
  held_ok w0 w (ghost_reader g) h → (∀ n, token h = Some n → token (ghost_hold g) = Some n) →
  (∀ p pub i, publishers w !! p = Some pub → started w !! p = Some i → keeps w g p i →
     keeps w (next_ghost g [] [] h) p i ∨ ∃ bytes, directory w !! status_name p = Some bytes) →
  reader_change w0 w w G r g (next_ghost g [] [] h) m'.
Proof.
  intros Hw Hg Hok Hd Hh Htoken Hkeeps. apply quiet_change; [done|done| |done|done].
  eapply next_ok; [done|exact Hd|by intros i ?%elem_of_nil|by intros i ?%elem_of_nil|done].
Qed.
(** A reader changes the directory, and of the quarantined files only its own. *)
Lemma own_change w G r g g' m' n m :
  consistent w0 w G → G !! r = Some g → token (ghost_hold g) = Some n →
  (∀ n', token (ghost_hold g') = Some n' → n' = n) →
  (∀ p, m !! temporary_of p = directory w !! temporary_of p) →
  (∀ reader n' p, n' ≠ n → m !! quarantine_of reader n' p = directory w !! quarantine_of reader n' p) →
  (∀ p bytes, m !! status_name p = Some bytes → content_ok w0 w p bytes) →
  reader_ok w0 (with_directory m w) g' m' →
  (∀ p pub i, publishers w !! p = Some pub → started w !! p = Some i → listed_ok w G p i →
     (∀ bytes, m !! status_name p = Some bytes → mine p i bytes) ∧
     ((∃ bytes, directory w !! status_name p = Some bytes) ∨ keeps w g p i →
      (∃ bytes, m !! status_name p = Some bytes) ∨ keeps (with_directory m w) g' p i)) →
  reader_change w0 w (with_directory m w) G r g g' m'.
Proof.
  intros Hw Hg Ht Ht' Htemp Hquar Hcontent Hok Hlisted.
  assert (∀ r' g'', r' ≠ r → G !! r' = Some g'' → token (ghost_hold g'') ≠ Some n) as Hother.
  { intros r' g'' Hne Hg'' Ht''. apply Hne. by eapply (consistent_tokens _ _ _ Hw). }
  assert (∀ r' g'' st n' dead, r' ≠ r → G !! r' = Some g'' → ghost_hold g'' = Held st n' dead →
     m !! held_name (ghost_reader g'') n' dead = directory w !! held_name (ghost_reader g'') n' dead) as Hothers.
  { intros r' g'' st n' dead Hne Hg'' Hh. apply Hquar. intros ->. apply (Hother r' g'' Hne Hg''). by rewrite Hh. }
  split; try done.
  - intros r' g'' Hne Hg'' st n' dead. by eapply Hothers.
  - intros r' g'' n' Hne Hg'' Htok Htok'. apply Ht' in Htok' as ->. by apply (Hother r' g'').
  - intros name (reader & n' & p & Hname & Hn & Hfree)%(consistent_abandoned _ _ _ Hw). exists reader, n', p. split_and!; [done..| |].
    + intros Htok%Ht'. subst n'. by apply (Hfree r g).
    + intros r' g'' _. apply Hfree.
  - intros p pub i Hpub Hpb Hcl Hi. pose proof (consistent_listed _ _ _ Hw p pub i Hpub Hpb Hcl Hi) as Hl.
    destruct (Hlisted p pub i Hpub Hi Hl) as [Hmine Hnext]. split; [done|]. destruct Hl as [_ Hkept].
    assert (keeps (with_directory m w) g' p i → kept_back (with_directory m w) (<[r := g']> G) p i) as Hkeeps
      by (intros Hk; by eapply keeps_kept; [apply lookup_insert_eq|]).
    destruct Hkept as [Hk|Hk]; [destruct Hnext as [?|?]; [by left|by left|right; by apply Hkeeps]|].
    destruct (kept_back_split w (with_directory m w) G r g g' p i Hg) as [Hk'|Hk'].
    + intros r' g'' st n' dead. apply Hothers.
    + intros name Hin. split; [done|]. destruct (consistent_abandoned _ _ _ Hw name Hin) as (reader & n' & p' & -> & _ & Hfree).
      apply Hquar. intros ->. by apply (Hfree r g).
    + done.
    + by right.
    + destruct Hnext as [?|?]; [by right|by left|right; by apply Hkeeps].
Qed.
End Reader_step.

Section Reader_files.
Context `{StatusCodecLaws} (w0 : World).

Lemma no_member {P : Identity → Prop} : ∀ i : Identity, i ∈ @nil Identity → P i.
Proof. by intros i ?%elem_of_nil. Qed.
Lemma is_json_quarantine reader n p : is_json (quarantine_of reader n p) = false.
Proof.
  destruct (is_json _) eqn:Hj; [|done]. exfalso. unfold is_json, quarantine_of, quarantine_name, with_extension in Hj. apply bool_decide_eq_true in Hj.
  rewrite split_extension_status in Hj. cbn [fst] in Hj.
  set (name := to_dec p ++ _) in Hj. unfold split_extension in Hj.
  destruct (rsplit_once_str [ch "."] name) as [[stem extension]|] eqn:Hs; [|done].
  apply rsplit_once_str_sound in Hs. assert (extension = lit "json") as -> by (destruct stem; cbn [snd] in Hj; congruence).
  pose proof (last_quarantine reader n p) as Hl. unfold quarantine_of, quarantine_name, with_extension in Hl.
  rewrite split_extension_status in Hl. cbn [fst] in Hl. change (last name = Some (ch "e")) in Hl. rewrite Hs in Hl.
  rewrite last_app, last_app in Hl. by vm_compute in Hl.
Qed.
Lemma not_keeps w g p i : (∀ st n dead, ghost_hold g = Held st n dead → st = Removing ∨ st = Dropping) → ¬ keeps w g p i.
Proof. intros Hst (st & n & dead & bytes & Hh & Hs & _). destruct (Hst st n dead Hh) as [-> | ->]; by destruct Hs. Qed.

Lemma read_change w G r g m c name k w1 m' :
  consistent w0 w G → G !! r = Some g → reader_ok w0 w g m → m = ReadFile name k → perform w m c = Some (w1, m') →
  ∃ g', reader_change w0 w w1 G r g g' m'.
Proof.
  intros Hw Hg Hok -> Hp. pose proof (reader_disciplined _ _ _ _ Hok) as Hd. pose proof (reader_held _ _ _ _ Hok) as Hheld. cbn [disciplined] in Hd.
  assert (w1 = w ∧ ∃ bytes, m' = k bytes ∧ (bytes = directory w !! name ∨ is_json name = true ∧ bytes = None)) as [-> (bytes & -> & Hbytes)].
  { destruct c; cbn [perform] in Hp; try done; [injection Hp as <- <-; by eauto|]. destruct (is_json name) eqn:Hj; [|done].
    injection Hp as <- <-. split; [done|]. exists None. split; [done|]. by right. }
  destruct (ghost_hold g) as [|n|[] n dead] eqn:Hh; try done.
  - destruct Hd as [Hjson Hd]. exists (next_ghost g (found name bytes) [] Free). eapply free_change; [done|done|exact Hok|done|by apply Hd| |apply no_member].
    eapply found_known; [done|done|]. destruct Hbytes as [->|[_ ->]]; [by right|by left].
  - destruct Hd as [-> Hd]. destruct Hbytes as [->|[Hj _]]; [|by unfold held_name in Hj; rewrite is_json_quarantine in Hj].
    exists (next_ghost g [] [] (Held (judged_held (directory w !! held_name (ghost_reader g) n dead) dead) n dead)).
    eapply held_change; [done|done|exact Hok|apply Hd| |by rewrite Hh|].
    + destruct Hheld as (Hn & Hgone & Hb & Hc). cbn [held_ok]. split_and!; [done..|]. intros bytes Hbytes. destruct (Hc bytes Hbytes) as [Hcontent _].
      split; [done|]. rewrite Hbytes. unfold judged_held, mine. destruct (named_status _ _) as [s|]; cbn [still_dead]; [|by intros (? & ? & _)].
      destruct (is_same_instance s dead) eqn:Hsame.
      * exists s. split; [done|by apply same_instance_identity].
      * intros (s' & [= <-] & Hi). apply same_instance_identity in Hi. congruence.
    + intros p pub i Hpub Hi (st & n' & dead' & bytes & Hh' & _ & Hp' & Hb & Hm). rewrite Hh in Hh'. injection Hh' as <- <- <-.
      destruct (publisher_live_server w0 w G p pub i Hw Hpub Hi) as (process & Hl & Hs). left.
      exists Linking, n, dead, bytes. cbn [next_ghost ghost_hold ghost_reader]. split_and!; [|by right|done..].
      f_equal. rewrite Hb. by eapply (renamed_is_not_dead w0 w G r g _ n dead Renamed p i process).
Qed.

Lemma rename_change w G r g m c from to_ k w1 m' :
  consistent w0 w G → G !! r = Some g → reader_ok w0 w g m → m = RenameFile from to_ k → perform w m c = Some (w1, m') →
  ∃ g', reader_change w0 w w1 G r g g' m'.
Proof.
  intros Hw Hg Hok -> Hp. pose proof (reader_disciplined _ _ _ _ Hok) as Hd. pose proof (reader_held _ _ _ _ Hok) as Hheld. cbn [disciplined] in Hd.
  destruct (ghost_hold g) as [|n|] eqn:Hh; try done. destruct Hd as (dead & Hdead & -> & -> & Hfalse & Htrue).
  assert (∀ p i, ¬ keeps w g p i) as Hnone by (intros p i; apply not_keeps; by rewrite Hh).
  assert (reader_change w0 w w G r g (next_ghost g [] [] Free) (k false)) as Hfails.
  { eapply held_change; [done|done|exact Hok|done|done|done|]. intros p pub i _ _ Hk. by destruct (Hnone p i). }
  destruct c; cbn [perform] in Hp; try done; [|injection Hp as <- <-; by eexists].
  unfold rename in Hp. destruct (directory w !! status_name (pid dead)) as [bytes|] eqn:Hb; injection Hp as <- <-; [|by eexists].
  set (m := <[held_name (ghost_reader g) n dead := bytes]> (delete (status_name (pid dead)) (directory w))).
  assert (∀ name, (∀ reader n' p, name = quarantine_of reader n' p → n' ≠ n) → (∀ p, name ≠ status_name p) → m !! name = directory w !! name) as Hsame.
  { intros name Hquar Hstatus. unfold m. rewrite lookup_insert_ne, lookup_delete_ne; [done|by intros <-; eapply Hstatus|].
    intros <-. by eapply (Hquar (ghost_reader g) n (pid dead)). }
  assert (∀ p, m !! status_name p = delete (status_name (pid dead)) (directory w) !! status_name p) as Hfile.
  { intros p. unfold m. apply lookup_insert_ne. intros Heq. symmetry in Heq. by apply status_quarantine in Heq. }
  assert (m !! held_name (ghost_reader g) n dead = Some bytes) as Hheldb by apply lookup_insert_eq.
  exists (next_ghost g [] [] (Held Renamed n dead)). apply (own_change w0 w G r g _ _ n m); [done|done|by rewrite Hh|by intros n' [= <-]|..].
  - intros p. apply Hsame; [|intros q Heq; symmetry in Heq; by apply status_temporary in Heq]. by intros reader n' q ?%temporary_quarantine.
  - intros reader n' p Hne. apply Hsame; [by intros reader' n'' p' ->%quarantine_of_inj|]. intros q Heq. symmetry in Heq. by apply status_quarantine in Heq.
  - intros p bytes'. rewrite Hfile, lookup_delete_Some. intros [_ ?]. by apply (consistent_content _ _ _ Hw).
  - eapply (next_ok w0 (with_directory m w)); [|exact Htrue|apply no_member..|].
    + eapply (reader_later w0 w); [by apply same_later; split; done || apply N.le_refl| |exact Hok]. intros st n' dead'. by rewrite Hh.
    + destruct (reader_gone _ _ _ _ Hok _ Hdead). cbn [held_ok]. split_and!; [done..|]. intros bytes'. cbn [with_directory directory]. rewrite Hheldb.
      intros [= <-]. split; [|done]. by apply (consistent_content _ _ _ Hw).
  - intros p pub i Hpub Hi [Hmine _]. split.
    + intros bytes'. rewrite Hfile, lookup_delete_Some. intros [_ ?]. by apply Hmine.
    + intros [[bytes' Hb']|Hk]; [|by destruct (Hnone p i)]. destruct (decide (p = pid dead)) as [->|Hne].
      * right. exists Renamed, n, dead, bytes. split_and!; [done|by left|done..|]. by apply Hmine.
      * left. exists bytes'. rewrite Hfile, lookup_delete_ne; [done|]. by intros ?%status_name_inj.
Qed.

Lemma link_change w G r g m c from to_ k w1 m' :
  consistent w0 w G → G !! r = Some g → reader_ok w0 w g m → m = LinkFile from to_ k → perform w m c = Some (w1, m') →
  ∃ g', reader_change w0 w w1 G r g g' m'.
Proof.
  intros Hw Hg Hok -> Hp. pose proof (reader_disciplined _ _ _ _ Hok) as Hd. pose proof (reader_held _ _ _ _ Hok) as Hheld. cbn [disciplined] in Hd.
  destruct (ghost_hold g) as [|n|[] n dead] eqn:Hh; try done. destruct Hd as (-> & -> & Hlinked & Hexists & Hfailed).
  assert (∀ p i, keeps w g p i → p = pid dead ∧ ∃ bytes, directory w !! held_name (ghost_reader g) n dead = Some bytes ∧ mine p i bytes) as Hkeeps.
  { intros p i (st & n' & dead' & bytes & Hh' & _ & Hp' & Hb & Hm). rewrite Hh in Hh'. injection Hh' as <- <- <-. split; [done|]. by exists bytes. }
  assert (held_ok w0 w (ghost_reader g) (Held Dropping n dead)) as Hdrop.
  { destruct Hheld as (? & ? & ? & Hc). split_and!; [done..|]. intros bytes Hb. by destruct (Hc bytes Hb). }
  destruct c; cbn [perform] in Hp; try done.
  - destruct (directory w !! status_name (pid dead)) as [bytes|] eqn:Hto; [|destruct (directory w !! held_name (ghost_reader g) n dead) as [bytes|] eqn:Hfrom];
      injection Hp as <- <-.
    + exists (next_ghost g [] [] (Held Dropping n dead)). eapply held_change; [done|done|exact Hok|done|done|by rewrite Hh|].
      intros p pub i _ _ [-> _]%Hkeeps. right. by exists bytes.
    + exists (next_ghost g [] [] (Held Dropping n dead)).
      assert (∀ name, name ≠ status_name (pid dead) → <[status_name (pid dead) := bytes]> (directory w) !! name = directory w !! name) as Hsame
        by (intros name Hne; by apply lookup_insert_ne).
      destruct Hheld as (_ & _ & _ & Hc).
      eapply (own_change w0 w G r g _ _ n); [done|done|by rewrite Hh|by intros n' [= <-]|..].
      * intros p. apply Hsame. intros Heq. symmetry in Heq. by apply status_temporary in Heq.
      * intros reader n' p _. apply Hsame. intros Heq. symmetry in Heq. by apply status_quarantine in Heq.
      * intros p bytes'. destruct (decide (p = pid dead)) as [->|Hne].
        -- rewrite lookup_insert_eq. intros [= <-]. by apply Hc.
        -- rewrite Hsame by (by intros ?%status_name_inj). apply (consistent_content _ _ _ Hw).
      * eapply next_ok; [|exact Hlinked|apply no_member..|].
        -- eapply (reader_later w0 w); [by apply same_later; split; done || apply N.le_refl| |exact Hok]. intros st n' dead' _.
           apply Hsame. intros Heq. symmetry in Heq. by apply status_quarantine in Heq.
        -- eapply (held_later w0 w); [by apply same_later; split; done || apply N.le_refl| |exact Hdrop]. intros st n' dead' _.
           apply Hsame. intros Heq. symmetry in Heq. by apply status_quarantine in Heq.
      * intros p pub i Hpub Hi [Hmine _]. destruct (decide (p = pid dead)) as [->|Hne].
        -- rewrite lookup_insert_eq. split; [|intros _; left; by exists bytes]. intros bytes' [= <-].
           destruct (publisher_live_server w0 w G _ pub i Hw Hpub Hi) as (process & Hl & Hs). by eapply (linked_is_mine w0 w G r g).
        -- rewrite Hsame by (by intros ?%status_name_inj). split; [done|]. intros [?|[? _]%Hkeeps]; [by left|done].
    + exists (next_ghost g [] [] Free). eapply held_change; [done|done|exact Hok|done|done|done|].
      intros p pub i _ _ (_ & bytes & Hb & _)%Hkeeps. congruence.
  - injection Hp as <- <-. exists (next_ghost g [] [] Free).
    assert (∀ r' g'', r' ≠ r → G !! r' = Some g'' → token (ghost_hold g'') ≠ Some n) as Hother.
    { intros r' g'' Hne Hg'' Ht. apply Hne. eapply (consistent_tokens _ _ _ Hw); [done..|]. by rewrite Hh. }
    split; try done.
    + apply (consistent_content _ _ _ Hw).
    + intros name [->|Hin]%elem_of_cons.
      * exists (ghost_reader g), n, (pid dead). destruct Hheld as [? _]. by split_and!.
      * destruct (consistent_abandoned _ _ _ Hw name Hin) as (reader & n' & p & ? & ? & Hfree). exists reader, n', p. split_and!; [done..|].
        intros r' g'' _. apply Hfree.
    + eapply next_ok; [|exact Hfailed|apply no_member..|done]. eapply (reader_later w0 w); [by apply same_later; split; done || apply N.le_refl|done|exact Hok].
    + intros p pub i Hpub Hpb Hcl Hi. destruct (consistent_listed _ _ _ Hw p pub i Hpub Hpb Hcl Hi) as [Hmine Hkept]. split; [done|].
      destruct Hkept as [Hk|Hk]; [by left|]. right.
      destruct (kept_back_split w (with_abandoned (held_name (ghost_reader g) n dead) w) G r g (next_ghost g [] [] Free) p i Hg) as [Hk'|Hk']; [done| |done|done|].
      * intros name Hin. split; [by right|done].
      * apply Hkeeps in Hk' as (-> & bytes & Hb & Hm). right. exists (held_name (ghost_reader g) n dead), bytes. split_and!; [by left|done..].
Qed.

Lemma remove_change w G r g m c name k w1 m' :
  consistent w0 w G → G !! r = Some g → reader_ok w0 w g m → m = RemoveFile name k → perform w m c = Some (w1, m') →
  ∃ g', reader_change w0 w w1 G r g g' m'.
Proof.
  intros Hw Hg Hok -> Hp. pose proof (reader_disciplined _ _ _ _ Hok) as Hd. cbn [disciplined] in Hd.
  assert (∃ st n dead, ghost_hold g = Held st n dead ∧ (st = Removing ∨ st = Dropping) ∧ name = held_name (ghost_reader g) n dead ∧
    disciplined (ghost_reader g) (ghost_seen g) (ghost_gone g) Free k (λ _ _ h _, h = Free)) as (st & n & dead & Hh & Hst & -> & Hk).
  { destruct (ghost_hold g) as [|n|[] n dead] eqn:Hh; try done; destruct Hd as [-> Hd]; eexists _, n, dead; by eauto. }
  assert (∀ p i, ¬ keeps w g p i) as Hnone by (intros p i; apply not_keeps; rewrite Hh; by intros ? ? ? [= <- _ _]).
  exists (next_ghost g [] [] Free). destruct c; cbn [perform] in Hp; try done; injection Hp as <- <-.
  - assert (∀ name, name ≠ held_name (ghost_reader g) n dead → delete (held_name (ghost_reader g) n dead) (directory w) !! name = directory w !! name) as Hsame
      by (intros name Hne; by apply lookup_delete_ne).
    eapply (own_change w0 w G r g _ _ n); [done|done|by rewrite Hh|done|..].
    + intros p. apply Hsame. by intros ?%temporary_quarantine.
    + intros reader n' p Hne. apply Hsame. by intros ?%quarantine_of_inj.
    + intros p bytes'. rewrite Hsame by (by intros ?%status_quarantine). apply (consistent_content _ _ _ Hw).
    + assert (∀ i, i ∈ ghost_gone g → is_gone w i ∧ belongs w0 w (id_pid i) i) as Hgone by apply (reader_gone _ _ _ _ Hok).
      assert (∀ i, i ∈ ghost_seen g → i ∈ past w ∧ belongs w0 w (id_pid i) i) as Hseen by apply (reader_seen _ _ _ _ Hok). by split.
    + intros p pub i _ _ [Hmine _]. rewrite Hsame by (by intros ?%status_quarantine). split; [done|]. intros [?|Hk']; [by left|by destruct (Hnone p i)].
  - eapply held_change; [done|done|exact Hok|done|done|done|]. intros p pub i _ _ Hk'. by destruct (Hnone p i).
Qed.
End Reader_files.

Section Reachable.
Context `{StatusCodecLaws} (w0 : World).

Lemma clock_change w G r g m c k w1 m' :
  consistent w0 w G → G !! r = Some g → reader_ok w0 w g m → m = ReadClock k → perform w m c = Some (w1, m') →
  ∃ g', reader_change w0 w w1 G r g g' m'.
Proof.
  intros Hw Hg Hok -> Hp. pose proof (reader_disciplined _ _ _ _ Hok) as Hd. cbn [disciplined] in Hd. destruct Hd as [Hfree Hd].
  destruct c as [| | | |n|]; try done. cbn [perform] in Hp. destruct (N.ltb_spec (moment w) n) as [Hn|]; [|done]. injection Hp as <- <-.
  assert (same_processes w (with_moment n w)) as Hsame by (split; cbn [with_moment moment]; done || lia).
  assert (∀ r' g'' n', G !! r' = Some g'' → token (ghost_hold g'') = Some n' → n' ≤ moment w) as Htokens.
  { intros r' g'' n' Hg'' Ht. destruct (ghost_program w0 w G r' g'' Hw Hg'') as (m & _ & [_ _ _ Hheld]).
    destruct (ghost_hold g'') as [| |]; cbn [token held_ok] in *; [done|by injection Ht as <-|injection Ht as <-; by destruct Hheld]. }
  exists (next_ghost g [] [] (Named n)). split; try done.
  - apply (consistent_content _ _ _ Hw).
  - intros r' g'' n' _ Hg'' Ht [= <-]. pose proof (Htokens r' g'' n Hg'' Ht). lia.
  - intros name (reader & n' & p & Hname & Hn' & Hother)%(consistent_abandoned _ _ _ Hw). exists reader, n', p. cbn [with_moment moment].
    split_and!; [done|lia|intros [= <-]; lia|]. intros r' g'' _. apply Hother.
  - eapply next_ok; [by eapply (reader_later w0 w), Hok; [by apply same_later|]|apply Hd|apply no_member..|]. cbn [held_ok with_moment moment]. lia.
  - intros p pub i Hpub Hpb Hcl Hi. destruct (consistent_listed _ _ _ Hw p pub i Hpub Hpb Hcl Hi) as [Hmine Hkept]. split; [done|].
    destruct Hkept as [Hk|Hk]; [by left|right].
    destruct (kept_back_split w (with_moment n w) G r g (next_ghost g [] [] (Named n)) p i Hg) as [?|(st & n' & dead & bytes & Hh & _)]; [done..|].
    by rewrite Hfree in Hh.
Qed.
Lemma query_change w G r g m c w1 m' :
  consistent w0 w G → G !! r = Some g → reader_ok w0 w g m →
  match m with ListFiles _ | ProcMounted _ | ProcEntryOf _ _ | ProcStatOf _ _ => True | _ => False end → perform w m c = Some (w1, m') →
  ∃ g', reader_change w0 w w1 G r g g' m'.
Proof.
  intros Hw Hg Hok Hm Hp. pose proof (reader_disciplined _ _ _ _ Hok) as Hd. pose proof (reader_seen _ _ _ _ Hok) as Hseen.
  assert (∀ gone, ghost_hold g = Free → w1 = w →
    disciplined (ghost_reader g) (ghost_seen g) (gone ++ ghost_gone g) Free m' (λ _ _ h _, h = Free) →
    (∀ i, i ∈ gone → is_gone w i ∧ belongs w0 w (id_pid i) i) → ∃ g', reader_change w0 w w1 G r g g' m') as Hnext.
  { intros gone Hfree -> Hd' Hgone. exists (next_ghost g [] gone Free). eapply free_change; [done|done|exact Hok|done|exact Hd'|apply no_member|done]. }
  destruct m; try done; cbn [disciplined] in Hd; destruct Hd as [Hfree Hd].
  - destruct c; try done. injection Hp as <- <-. apply (Hnext []); [done..|apply Hd|apply no_member].
  - destruct c; try done; injection Hp as <- <-; (apply (Hnext []); [done..|apply Hd|apply no_member]).
  - destruct c; try done; cbn [perform] in Hp; injection Hp as <- <-; (eapply Hnext; [done..|apply Hd|]); cbn [gone_without_entry]; [|apply no_member].
    destruct (live w !! pid) eqn:Hl; [apply no_member|]. by eapply missing_gone.
  - destruct c as [| | | | |stat]; try done; cbn [perform] in Hp.
    + destruct (live w !! pid) eqn:Hl; [done|]. injection Hp as <- <-. eapply Hnext; [done..|apply Hd|]. cbn [gone_by_stat]. by eapply missing_gone.
    + injection Hp as <- <-. eapply Hnext; [done..|apply Hd|]. apply no_member.
    + destruct (live w !! pid) as [process|] eqn:Hl; [|done]. destruct (parse_start_ticks stat) as [ticks|] eqn:Ht.
      * destruct (N.eqb_spec ticks (kernel_ticks process)) as [Heq|]; [|done]. injection Hp as <- <-. eapply Hnext; [done..|apply Hd|].
        cbn [gone_by_stat]. rewrite Ht. by eapply replaced_gone.
      * injection Hp as <- <-. eapply Hnext; [done..|apply Hd|]. cbn [gone_by_stat]. rewrite Ht. apply no_member.
Qed.
Lemma call_change w G r g m c w1 m' :
  consistent w0 w G → G !! r = Some g → reader_ok w0 w g m → perform w m c = Some (w1, m') → ∃ g', reader_change w0 w w1 G r g g' m'.
Proof.
  intros Hw Hg Hok Hp. pose proof (reader_disciplined _ _ _ _ Hok) as Hd.
  destruct m; try done; cbn [disciplined] in Hd; try done.
  - by eapply read_change.
  - by eapply rename_change.
  - by eapply link_change.
  - by eapply remove_change.
  - by eapply query_change.
  - by eapply clock_change.
  - by eapply query_change.
  - by eapply query_change.
  - by eapply query_change.
Qed.

Lemma reader_steps w G r c w' : consistent w0 w G → step w (ReaderSteps r c) = Some w' → ∃ G', consistent w0 w' G'.
Proof.
  intros Hw. cbn [step]. destruct (readers w !! r) as [m|] eqn:Hr; [|done]. destruct (perform w m c) as [[w1 m']|] eqn:Hp; [|done]. intros [= <-].
  destruct (consistent_readers _ _ _ Hw r m Hr) as (g & Hg & Hok). destruct (call_change w G r g m c w1 m' Hw Hg Hok Hp) as [g' Hchange].
  pose proof (reader_stepped w0 w w1 G r g g' m m' Hw Hr Hg Hchange) as Hw'. destruct (is_returned m') eqn:Hret; [|by eexists].
  exists (delete r (<[r := g']> G)). pose proof (reader_disciplined _ _ _ _ (change_reader _ _ _ _ _ _ _ _ Hchange)) as Hd.
  assert (ghost_hold g' = Free) as Hfree by (destruct m'; try done; exact Hd).
  pose proof (reader_done w0 _ _ r g' Hw' ltac:(by rewrite lookup_insert_eq) Hfree) as Hdone. cbn [with_readers readers] in Hdone.
  rewrite delete_insert_eq in Hdone. apply Hdone. by rewrite lookup_insert_eq.
Qed.
Lemma reader_starts w G r reader w' : consistent w0 w G → step w (ReaderStarts r reader) = Some w' → ∃ G', consistent w0 w' G'.
Proof.
  intros Hw. cbn [step]. destruct (readers w !! r) as [m|] eqn:Hr; [done|]. intros [= <-].
  assert (G !! r = None) as Hg.
  { destruct (G !! r) as [g|] eqn:Hg; [|done]. destruct (consistent_ghosts _ _ _ Hw r g Hg) as [m Hm]. congruence. }
  set (g := {| ghost_reader := reader; ghost_seen := []; ghost_gone := []; ghost_hold := Free |}). exists (<[r := g]> G).
  set (w1 := with_readers _ w). assert (later w w1) as Hlater by (apply same_later; split; done || apply N.le_refl).
  assert (∀ r' g', <[r := g]> G !! r' = Some g' → g' = g ∨ r' ≠ r ∧ G !! r' = Some g') as Hghost
    by (intros r' g' [[<- <-]|[? ?]]%lookup_insert_Some; [by left|by right]).
  split; try apply Hw.
  - intros r' m'. change (readers w1) with (<[r := read_runtime_report_from reader]> (readers w)). rewrite lookup_insert_Some. intros [[<- <-]|[Hne Hr']].
    + exists g. split; [apply lookup_insert_eq|]. split; [apply report_disciplined|by intros i ?%elem_of_nil..|done].
    + destruct (consistent_readers _ _ _ Hw r' m' Hr') as (g' & Hg' & Hok). exists g'. split; [by rewrite lookup_insert_ne|]. by eapply (reader_later w0 w).
  - intros r' g'. change (readers w1) with (<[r := read_runtime_report_from reader]> (readers w)). rewrite lookup_insert_Some. intros [[<- <-]|[Hne Hg']].
    + rewrite lookup_insert_eq. by eexists.
    + rewrite lookup_insert_ne by done. by eapply (consistent_ghosts _ _ _ Hw).
  - intros r1 r2 g1 g2 n [->|[? Hg1]]%Hghost [->|[? Hg2]]%Hghost Ht1 Ht2; try done. by eapply (consistent_tokens _ _ _ Hw).
  - intros name (reader' & n & p & Hname & Hn & Hother)%(consistent_abandoned _ _ _ Hw). exists reader', n, p. split_and!; [done..|].
    intros r' g' [->|[? Hg']]%Hghost; [done|by apply (Hother r')].
  - intros p pub Hpub. apply (publisher_later w); [done..|by apply (consistent_publishers _ _ _ Hw)].
  - intros p pub i Hpub Hpb Hcl Hi. destruct (consistent_listed _ _ _ Hw p pub i Hpub Hpb Hcl Hi) as [Hmine Hkept]. split; [exact Hmine|].
    destruct Hkept as [Hk|Hk]; [by left|right]. apply (kept_back_more w _ G); [|done..]. intros r' g' Hg'. rewrite lookup_insert_ne; [done|]. congruence.
Qed.

Lemma step_consistent w G e w' : consistent w0 w G → step w e = Some w' → ∃ G', consistent w0 w' G'.
Proof.
  intros Hw. destruct e.
  - intros Hs. exists G. by eapply server_starts.
  - intros Hs. exists G. by eapply process_starts.
  - intros Hs. exists G. by eapply process_ends.
  - intros Hs. exists G. by eapply publisher_called.
  - intros Hs. exists G. by eapply publisher_steps.
  - by eapply reader_starts.
  - by eapply reader_steps.
Qed.
Lemma initial_consistent : initial w0 → consistent w0 w0 ∅.
Proof.
  intros [Hp Hr Hs Ha Hl Hpast]. split; try rewrite ?Hp, ?Hr, ?Hs, ?Ha.
  - exact Hl.
  - done.
  - intros p bytes Hb. unfold content_ok. rewrite <- Hb. destruct (named_status _ (directory w0 !! _)) as [s|] eqn:Hn; [|done].
    split; [by eapply Hpast|]. left. by rewrite Hn.
  - done.
  - done.
  - done.
  - intros name Hin. by apply elem_of_nil in Hin.
  - done.
  - done.
Qed.
Lemma reachable_consistent w : initial w0 → rtc steps w0 w → ∃ G, consistent w0 w G.
Proof.
  intros Hi Hsteps. revert w Hsteps. apply (rtc_ind_r (λ w, ∃ G, consistent w0 w G)).
  - exists ∅. by apply initial_consistent.
  - intros w1 w2 _ [e He] [G Hw]. by eapply step_consistent.
Qed.
End Reachable.

Section Kept.
Context `{StatusCodecLaws} (w0 : World).

End Kept.

(** ** Two readers and a server *)

#[local] Existing Instance sample_codec.
#[local] Existing Instance sample_codec_laws.

Lemma run_steps `{StatusCodec} l : ∀ w w', run w l = Some w' → rtc steps w w'.
Proof.
  induction l as [|e l IH]; intros w w'; cbn [run]; [by intros [= <-]|].
  destruct (step w e) as [w1|] eqn:He; [|done]. intros Hr. apply (rtc_l _ _ w1); [by exists e|by apply IH].
Qed.

(** A server that is gone left its file under a number that is free again. *)
Definition left_behind : World := {|
  directory := {[status_name 7 := [7; 1; 1; 1]]}; moment := 0; live := ∅; past := [identity_of (sample_status 7 1 1 1)];
  started := ∅; publishers := ∅; readers := ∅; abandoned := [] |}.
Lemma left_behind_initial : initial left_behind.
Proof.
  split; try done. intros p s. cbn [left_behind directory past]. destruct (decide (p = 7)) as [->|Hne].
  - rewrite lookup_singleton_eq. intros Hs. assert (s = sample_status 7 1 1 1) as -> by (vm_compute in Hs; by injection Hs as <-). by left.
  - rewrite lookup_singleton_ne by (by intros Heq%status_name_inj). done.
Qed.

(** Reader 0 finds the server gone and falls behind. *)
Definition finds_dead (r : nat) : list event :=
  ReaderSteps r <$> [Succeeds; Lists (Listed [status_name 7] true); Succeeds; Succeeds].
(** A reader moves the file away and sees what it holds. *)
Definition moves_away (r : nat) (n : N) : list event := ReaderSteps r <$> [Clock n; Succeeds; Succeeds].
(** A server with the same number starts and publishes its status. *)
Definition starts_again : list event :=
  [ServerStarts 2 (sample_reading 10) (sample_status 7 2 5 5)] ++ (PublisherSteps 7 <$> [Succeeds; Succeeds; Succeeds; Succeeds]).
Definition publishes_again (now : N) : list event :=
  PublisherCalled 7 (CallUpdate sample_cache [] (sample_reading now)) :: (PublisherSteps 7 <$> [Succeeds; Succeeds; Succeeds]).

(** While a reader holds the status of a running server back. *)
Definition held_back : list event :=
  [ReaderStarts 0 3] ++ finds_dead 0 ++ starts_again ++ moves_away 0 100.
Definition running : Publishing := {| task := Return (Some (written (sample_reading 10) (registered (sample_reading 10) (sample_status 7 2 5 5))));
                                      published := true; closing := false |}.

(** Two readers have found the same server gone.  The first moves the new server's status away,
    the server publishes again, the second moves that away as well; then the first links back the
    status it holds, and the second finds a file there and removes the later status. *)
Definition outdated : list event :=
  [ReaderStarts 0 3; ReaderStarts 1 4] ++ finds_dead 0 ++ finds_dead 1 ++ starts_again ++ moves_away 0 100 ++ publishes_again 50 ++
  moves_away 1 200 ++ (ReaderSteps 0 <$> [Succeeds; Succeeds]) ++ (ReaderSteps 1 <$> [Succeeds; Succeeds]).
Lemma older_status_restored :
  ∃ w, run left_behind outdated = Some w ∧ readers w = ∅ ∧
    named_status (status_name 7) (directory w !! status_name 7) = Some (sample_status 7 2 5 10) ∧
    (from_option (λ pub, task pub) (Return None) (publishers w !! 7) = Return (Some (written (sample_reading 50)
       (updated sample_cache [] (written (sample_reading 10) (registered (sample_reading 10) (sample_status 7 2 5 5))))))) ∧
    size (directory w) = 1%nat.
Proof.
  eexists. split; [vm_compute; reflexivity|]. split_and!; vm_compute; reflexivity.
Qed.
