(* ===== verification/MavenRun.v ===== *)
(** * MavenRun: the Maven processes of concurrent requests

    Models how [src/project.rs] runs Maven and what [src/project/run_trace.rs] logs of it: the
    permit that all runners share, the choice of a Java by [jenv], the start of the process, the
    two time limits, and what is cleaned up when a run ends, fails or is cancelled.  A request is
    suspended at the [await]s of the code; what happens between two of them is one step.  Redaction
    and the result are those of [MavenOutput]. *)

From S2P Require Import Prelude.
From S2P Require Import Text.
From S2P Require Import Paths.
From S2P Require Import TextSearch.
From S2P Require Import Utf8.
From S2P Require Import Config.
From S2P Require Import Redaction.
From S2P Require Import MavenEnvironment.
From S2P Require Import MavenProject.
From S2P Require Import MavenOutput.

Open Scope N_scope.

(** ** Traces *)

Inductive MavenOperation :=
| Lifecycle
| FocusedTest
| EffectivePom
| DependencyTree
| DependencyResolution
| Classpath
| Arguments.
Definition operation_label (o : MavenOperation) : str :=
  match o with
  | Lifecycle => lit "lifecycle"
  | FocusedTest => lit "focused_test"
  | EffectivePom => lit "effective_pom"
  | DependencyTree => lit "dependency_tree"
  | DependencyResolution => lit "dependency_resolution"
  | Classpath => lit "classpath"
  | Arguments => lit "arguments"
  end.
Definition failure_label (f : RunFailure) : str :=
  match f with
  | Permit => lit "permit"
  | Executable => lit "executable"
  | JavaSelection => lit "java_selection"
  | Spawn => lit "spawn"
  | Wait => lit "wait"
  | OutputRead => lit "output_read"
  end.
Definition status_label (s : MavenRunStatus) : str :=
  match s with
  | RunSuccess => lit "success"
  | RunBuildFailure => lit "build_failure"
  | RunTimeout => lit "timeout"
  | RunRunnerError => lit "runner_error"
  end.

(** Instants and durations are in nanoseconds. *)
Definition duration_ms (nanos : N) : N := N.min u64_max (nanos / 10 ^ 6).
Definition elapsed_ms (since now : N) : N := duration_ms (now - since).

Record MavenRunTrace := {
  trace_operation : MavenOperation;
  wait_ms : N;
  timeout_ms : N;
  trace_started : N;
}.
(** The figures of a result that are logged. *)
Record FinishedRun := {
  finished_exit_code : option Z;
  finished_timed_out : bool;
  finished_timeout_ms : N;
  finished_stdout_truncated : bool;
  finished_stderr_truncated : bool;
  finished_redaction_count : N;
}.
Inductive TraceEvent :=
| RunStarted (operation : str) (wait timeout : N)
| RunFinished (operation status : str) (run : option FinishedRun) (error_kind : option str) (wait : N) (run_and_total : option (N * N)).

Definition start (operation : MavenOperation) (wait timeout now : N) : MavenRunTrace * TraceEvent :=
  let trace := {| trace_operation := operation; wait_ms := duration_ms wait; timeout_ms := duration_ms timeout; trace_started := now |} in
  (trace, RunStarted (operation_label operation) (wait_ms trace) (timeout_ms trace)).
Definition total_ms (t : MavenRunTrace) (run_ms : N) : N := N.min u64_max (wait_ms t + run_ms).
Definition finish (t : MavenRunTrace) (now : N) (result : MavenRunResult) (failure : option RunFailure) : TraceEvent :=
  let run_ms := elapsed_ms (trace_started t) now in
  RunFinished (operation_label (trace_operation t)) (status_label (run_status result))
    (Some {| finished_exit_code := exit_code result; finished_timed_out := timed_out result; finished_timeout_ms := timeout_ms t;
             finished_stdout_truncated := stdout_truncated result; finished_stderr_truncated := stderr_truncated result;
             finished_redaction_count := redaction_count result |})
    (failure_label <$> failure) (wait_ms t) (Some (run_ms, total_ms t run_ms)).
(** [Drop] of a trace that was not finished. *)
Definition abandon (t : MavenRunTrace) (now : N) : TraceEvent :=
  let run_ms := elapsed_ms (trace_started t) now in
  RunFinished (operation_label (trace_operation t)) (lit "abandoned") None None (wait_ms t) (Some (run_ms, total_ms t run_ms)).
Definition log_permit_failure (operation : MavenOperation) (wait : N) : TraceEvent :=
  RunFinished (operation_label operation) (lit "runner_error") None (Some (failure_label Permit)) (duration_ms wait) None.

(** ** Commands *)

(** What a process is started with: variables taken from its environment, and variables set. *)
Record Command := {
  program : path;
  args : list str;
  current_dir : path;
  env_removed : list str;
  env_set : list (str * str);
}.
Definition variable_of (c : Command) (inherited : str → option str) (name : str) : option str :=
  match list_find (λ v, v.1 = name) (env_set c) with
  | Some (_, v) => Some v.2
  | None => if bool_decide (name ∈ env_removed c) then None else inherited name
  end.

Record MavenRunner := {
  root : path;
  executable : MavenExecutable;
  timeout : N;
  max_output_bytes : nat;
  java_environment : JavaEnvironment;
  execution_repository : option path;
}.
Definition maven_command (r : MavenRunner) (program : path) (arguments : list str) : Command :=
  {| program := program; args := arguments; current_dir := root r; env_removed := SERVER_ONLY_ENVIRONMENT; env_set := [] |}.

(** *** The Java that [jenv] selects *)

Definition JENV_RESOLUTION_TIMEOUT : N := 10 * 10 ^ 9.
Inductive JenvOutput :=
| JenvTimedOut
| JenvUnusable
| JenvExited (success : bool) (stdout : list N).

Section Jenv.
Context `{FileSystem}.
(** The text of an error of the file system. *)
Variable io_error : str.

Definition jenv_executable (jenv_root : str) : path + str :=
  match canonicalize (components jenv_root ++ [lit "bin"; lit "jenv"]) with
  | None => inr (lit "configured jenv executable is missing or unreadable")
  | Some executable =>
      match is_executable executable with
      | None => inr io_error
      | Some false => inr (lit "configured jenv executable is not executable")
      | Some true => inl executable
      end
  end.
Definition jenv_command (jenv_root : str) (project_root executable : path) : Command :=
  {| program := executable; args := [lit "prefix"]; current_dir := project_root;
     env_removed := [lit "JENV_DIR"; lit "JENV_VERSION"]; env_set := [(lit "JENV_ROOT", jenv_root)] |}.
Definition jenv_java_home (output : JenvOutput) : path + str :=
  match output with
  | JenvTimedOut => inr (lit "jenv Java resolution timed out")
  | JenvUnusable => inr (lit "cannot run configured jenv executable")
  | JenvExited false _ => inr (lit "jenv could not resolve Java for project_path; verify .java-version and installed jenv versions")
  | JenvExited true stdout =>
      match Utf8.from_utf8 stdout with
      | inr _ => inr (lit "jenv returned a non-UTF-8 Java home")
      | inl text =>
          let prefix := trim text in
          if bool_decide (prefix = []) || negb (bool_decide (length (lines prefix) = 1%nat)) then inr (lit "jenv returned an invalid Java home")
          else if negb (is_absolute prefix) then inr (lit "jenv returned a non-absolute Java home")
          else match canonicalize (components prefix) with
               | None => inr (lit "jenv-selected Java home is missing or unreadable")
               | Some java_home =>
                   let java := java_home ++ [lit "bin"; lit "java"] in
                   let missing := inr (lit "jenv-selected Java home does not contain executable bin/java") in
                   if negb (is_dir java_home) || negb (is_file java) then missing
                   else match is_executable java with
                        | None => inr io_error
                        | Some false => missing
                        | Some true => inl java_home
                        end
               end
      end
  end.
End Jenv.
(** [PATH] is empty when it is not set. *)
Definition with_java (java_home : path) (inherited_path : str) (c : Command) : Command + str :=
  let java_bin := display (java_home ++ [lit "bin"]) in
  if contains_char (ch ":") java_bin then inr (lit "cannot construct PATH for jenv-selected Java")
  else inl {| program := program c; args := args c; current_dir := current_dir c; env_removed := env_removed c;
              env_set := env_set c ++ [(lit "JAVA_HOME", display java_home); (lit "PATH", java_bin ++ lit ":" ++ inherited_path)] |}.

(** ** Requests *)

(** What both pipes of a process held, or the errors of reading them. *)
Definition Pipes : Type := (BoundedOutput + str) * (BoundedOutput + str).
(** Where a request is suspended, or how it ended.  A process group is terminated by a guard until
    its run is over. *)
Inductive Phase :=
| Waiting
| SelectingJava (c : Command) (java_by : N)
| RetryingSpawn (c : Command) (attempt : nat) (wake : N)
| Running (group : N) (exit : option (ExitStatus + str)) (pipes : option Pipes) (deadline : N)
| AwaitingExit (group : N) (pipes : option Pipes) (cleanup_deadline : N)
| AwaitingPipes (group : N) (exit : ExitStatus + str) (cleanup_deadline : N)
| Returned (result : MavenRunResult) (raw_stdout : str)
| Dropped.
(** The trace remains known after it was logged. *)
Record Request := {
  runner : MavenRunner;
  operation : MavenOperation;
  arguments : list str;
  began : N;
  trace : option MavenRunTrace;
  phase : Phase;
}.
(** All requests that share a permit; the process groups that live, and whose they are: of the
    request that started them, or unrelated; and unrelated ones that were killed. *)
Record World := {
  clock : N;
  available : N;
  is_closed : bool;
  requests : gmap nat Request;
  groups : gmap N (option nat);
  strangers_killed : list N;
  logged : list (nat * TraceEvent);
}.

(** ** Changes of the world *)

Definition in_phase (p : Phase) (r : Request) : Request :=
  {| runner := runner r; operation := operation r; arguments := arguments r; began := began r; trace := trace r; phase := p |}.
Definition with_request (i : nat) (r : Request) (w : World) : World :=
  {| clock := clock w; available := available w; is_closed := is_closed w; requests := <[i := r]> (requests w); groups := groups w;
     strangers_killed := strangers_killed w; logged := logged w |}.
Definition with_available (n : N) (w : World) : World :=
  {| clock := clock w; available := n; is_closed := is_closed w; requests := requests w; groups := groups w;
     strangers_killed := strangers_killed w; logged := logged w |}.
Definition with_groups (m : gmap N (option nat)) (w : World) : World :=
  {| clock := clock w; available := available w; is_closed := is_closed w; requests := requests w; groups := m;
     strangers_killed := strangers_killed w; logged := logged w |}.
Definition with_event (i : nat) (e : TraceEvent) (w : World) : World :=
  {| clock := clock w; available := available w; is_closed := is_closed w; requests := requests w; groups := groups w;
     strangers_killed := strangers_killed w; logged := logged w ++ [(i, e)] |}.

(** [terminate_process_group]: the group that has the number, if any. *)
Definition terminate_process_group (i : nat) (group : N) (w : World) : World :=
  match groups w !! group with
  | None => w
  | Some owner =>
      {| clock := clock w; available := available w; is_closed := is_closed w; requests := requests w; groups := delete group (groups w);
         strangers_killed := if bool_decide (owner = Some i) then strangers_killed w else group :: strangers_killed w; logged := logged w |}
  end.
Definition guarded (p : Phase) : option N :=
  match p with Running g _ _ _ | AwaitingExit g _ _ | AwaitingPipes g _ _ => Some g | _ => None end.
Definition holds_permit (p : Phase) : bool := match p with Waiting | Returned _ _ | Dropped => false | _ => true end.

(** A request that is dropped where it is suspended: the guard of its process group, its trace and
    its permit are dropped, in this order. *)
Definition drop_request (i : nat) (r : Request) (w : World) : World :=
  let w := match guarded (phase r) with Some g => terminate_process_group i g w | None => w end in
  let w := match trace r with
           | Some t => with_available (available w + 1) (with_event i (abandon t (clock w)) w)
           | None => w
           end in
  with_request i (in_phase Dropped r) w.

Section Steps.
Context `{Patterns, Unicode}.
(** [HOME] and [PATH]. *)
Variables (home path_variable : option str).

(** The end of [execute_permitted] and of the future that holds the permit. *)
Definition end_run (i : nat) (r : Request) (t : MavenRunTrace) (ran : (MavenRunResult * str) + (RunFailure * str)) (w : World) : World :=
  match executed (execution_repository (runner r)) (root (runner r)) home (elapsed_ms (began r) (clock w)) ran with
  | Done (result, raw_stdout) =>
      let failure := match ran with inl _ => None | inr (failure, _) => Some failure end in
      with_request i (in_phase (Returned result raw_stdout) r)
        (with_available (available w + 1) (with_event i (finish t (clock w) result failure) w))
  | _ => drop_request i (in_phase Dropped r) w
  end.
(** The end of [run_child] when the process was waited for and its pipes were read.  A failed wait
    leaves the guard armed. *)
Definition conclude (i : nat) (r : Request) (t : MavenRunTrace) (group : N) (timed_out : bool) (exit : ExitStatus + str) (pipes : Pipes)
    (w : World) : World :=
  let w := match exit with inl _ => w | inr _ => terminate_process_group i group w end in
  match finish_child (execution_repository (runner r)) (root (runner r)) home from_utf8_lossy (elapsed_ms (began r) (clock w))
          (Some exit) timed_out pipes.1 pipes.2 with
  | Done ran => end_run i r t ran w
  | _ => drop_request i (in_phase Dropped r) w
  end.

(** *** Starting the process *)

Definition MAX_ATTEMPTS : nat := 3.
Inductive SpawnResult := Spawned (group : N) | TextBusy (error : str) | SpawnFailed (error : str).
(** The number of a process that was not waited for is not given away. *)
Definition leads (p : Phase) : option N := match p with Running g None _ _ | AwaitingExit g _ _ => Some g | _ => None end.
Definition is_reserved (g : N) (w : World) : bool := existsb (λ r, bool_decide (leads (phase r.2) = Some g)) (map_to_list (requests w)).
Definition is_free (g : N) (w : World) : bool := bool_decide (groups w !! g = None) && negb (is_reserved g w).

Definition spawn_error (error : str) : (MavenRunResult * str) + (RunFailure * str) := inr (Spawn, lit "cannot start Maven: " ++ error).
Definition spawn_maven (i : nat) (r : Request) (t : MavenRunTrace) (c : Command) (attempt : nat) (s : SpawnResult) (w : World) : option World :=
  match s with
  | Spawned g =>
      if is_free g w
      then Some (with_request i (in_phase (Running g None None (clock w + timeout (runner r))) r) (with_groups (<[g := Some i]> (groups w)) w))
      else None
  | TextBusy error =>
      Some (if (attempt <? MAX_ATTEMPTS)%nat
            then with_request i (in_phase (RetryingSpawn c (S attempt) (clock w + 10 ^ 7)) r) w
            else end_run i r t (spawn_error error) w)
  | SpawnFailed error => Some (end_run i r t (spawn_error error) w)
  end.
(** [execute_permitted] up to where it is suspended; [error] is the text of an error of the file
    system. *)
Definition run_permitted (i : nat) (r : Request) (t : MavenRunTrace) (fs : FileSystem) (error : str) (s : SpawnResult) (w : World) : option World :=
  match validated_executable (root (runner r)) (executable (runner r)) with
  | None => Some (end_run i r t (inr (Executable, error)) w)
  | Some program =>
      let c := maven_command (runner r) program (arguments r) in
      match java_environment (runner r) with
      | Inherit => spawn_maven i r t c 1 s w
      | Jenv jenv_root =>
          Some match jenv_executable error jenv_root with
               | inr message => end_run i r t (inr (JavaSelection, message)) w
               | inl _ => with_request i (in_phase (SelectingJava c (clock w + JENV_RESOLUTION_TIMEOUT)) r) w
               end
      end
  end.
Definition run_with_java (i : nat) (r : Request) (t : MavenRunTrace) (c : Command) (output : JenvOutput) (fs : FileSystem) (error : str)
    (s : SpawnResult) (w : World) : option World :=
  match jenv_java_home error output with
  | inr message => Some (end_run i r t (inr (JavaSelection, message)) w)
  | inl java_home =>
      match with_java java_home (default [] path_variable) c with
      | inr message => Some (end_run i r t (inr (JavaSelection, message)) w)
      | inl c => spawn_maven i r t c 1 s w
      end
  end.

(** *** Steps *)

Inductive event :=
| Requested (i : nat) (r : MavenRunner) (o : MavenOperation) (l : list str)
| PermitGranted (i : nat) (fs : FileSystem) (error : str) (s : SpawnResult)
| PermitRefused (i : nat) (error : str)
| JavaSelected (i : nat) (output : JenvOutput) (fs : FileSystem) (error : str) (s : SpawnResult)
| SpawnRetried (i : nat) (s : SpawnResult)
| Exited (i : nat) (exit : ExitStatus + str)
| PipesRead (i : nat) (out err : option (list (list N + str)))
| TimerFired (i : nat)
| Cancelled (i : nat)
| TimePassed (nanos : N)
| GroupEnded (g : N)
| GroupAppeared (g : N)
| SemaphoreClosed.

Definition timer (p : Phase) : option N :=
  match p with
  | SelectingJava _ t | RetryingSpawn _ _ t | Running _ _ _ t | AwaitingExit _ _ t | AwaitingPipes _ _ t => Some t
  | _ => None
  end.
Definition no_timer_before (t : N) (w : World) : bool :=
  forallb (λ r, from_option (λ d, t <=? d) true (timer (phase r.2))) (map_to_list (requests w)).
Definition default_pipes : Pipes := (inl empty_output, inl empty_output).
Definition CLEANUP : N := 10 ^ 9.
Definition not_exited : ExitStatus + str := inr (lit "Maven did not exit after process-group termination").

(** A run is over once its process was waited for and both pipes were read; until then it stays
    suspended. *)
Definition running (i : nat) (r : Request) (t : MavenRunTrace) (g : N) (exit : option (ExitStatus + str)) (pipes : option Pipes)
    (deadline : N) (w : World) : World :=
  match exit, pipes with
  | Some exit, Some pipes => conclude i r t g false exit pipes (terminate_process_group i g w)
  | _, _ => with_request i (in_phase (Running g exit pipes deadline) r) w
  end.
Definition exited (i : nat) (r : Request) (t : MavenRunTrace) (g : N) (exit : ExitStatus + str) (pipes : option Pipes) (cleanup : N) (w : World) : World :=
  match pipes with
  | Some pipes => conclude i r t g true exit pipes w
  | None => with_request i (in_phase (AwaitingPipes g exit cleanup) r) w
  end.
(** A wake-up of a request that holds the permit. *)
Definition wake (i : nat) (r : Request) (t : MavenRunTrace) (e : event) (w : World) : option World :=
  match e, phase r with
  | JavaSelected _ output fs error s, SelectingJava c java_by =>
      match output with
      | JenvTimedOut => if java_by <=? clock w then run_with_java i r t c output fs error s w else None
      | _ => run_with_java i r t c output fs error s w
      end
  | SpawnRetried _ s, RetryingSpawn c attempt wake => if wake <=? clock w then spawn_maven i r t c attempt s w else None
  | Exited _ exit, Running g None pipes deadline => Some (running i r t g (Some exit) pipes deadline w)
  | Exited _ exit, AwaitingExit g pipes cleanup => Some (exited i r t g exit pipes cleanup w)
  | PipesRead _ out err, (Running _ _ None _ | AwaitingPipes _ _ _) =>
      match read_bounded out (max_output_bytes (runner r)), read_bounded err (max_output_bytes (runner r)) with
      | Done out, Done err =>
          match phase r with
          | Running g exit _ deadline => Some (running i r t g exit (Some (out, err)) deadline w)
          | AwaitingPipes g exit _ => Some (conclude i r t g true exit (out, err) w)
          | _ => None
          end
      | _, _ => Some (drop_request i r w)
      end
  | TimerFired _, Running g exit pipes deadline =>
      if clock w <? deadline then None
      else
        let w := terminate_process_group i g w in
        let cleanup := clock w + CLEANUP in
        Some match exit with
             | None => with_request i (in_phase (AwaitingExit g pipes cleanup) r) w
             | Some exit => exited i r t g exit pipes cleanup w
             end
  | TimerFired _, AwaitingExit g pipes cleanup => if clock w <? cleanup then None else Some (exited i r t g not_exited pipes cleanup w)
  | TimerFired _, AwaitingPipes g exit cleanup => if clock w <? cleanup then None else Some (conclude i r t g true exit default_pipes w)
  | _, _ => None
  end.
Definition request_of (e : event) : option nat :=
  match e with
  | Requested i _ _ _ | PermitGranted i _ _ _ | PermitRefused i _ | JavaSelected i _ _ _ _ | SpawnRetried i _ | Exited i _ | PipesRead i _ _
  | TimerFired i | Cancelled i => Some i
  | _ => None
  end.
Definition step (w : World) (e : event) : option World :=
  match e with
  | Requested i r o l =>
      match requests w !! i with
      | Some _ => None
      | None => Some (with_request i {| runner := r; operation := o; arguments := l; began := clock w; trace := None; phase := Waiting |} w)
      end
  | PermitGranted i fs error s =>
      match requests w !! i with
      | Some ({| phase := Waiting |} as r) =>
          if (available w =? 0) || is_closed w then None
          else
            let '(t, e) := start (operation r) (clock w - began r) (timeout (runner r)) (clock w) in
            let r := {| runner := runner r; operation := operation r; arguments := arguments r; began := began r; trace := Some t; phase := phase r |} in
            run_permitted i r t fs error s (with_event i e (with_available (available w - 1) w))
      | _ => None
      end
  | PermitRefused i error =>
      match requests w !! i with
      | Some ({| phase := Waiting |} as r) =>
          if negb (is_closed w) then None
          else match runner_error (execution_repository (runner r)) (root (runner r)) home (elapsed_ms (began r) (clock w)) error with
               | Done result =>
                   Some (with_request i (in_phase (Returned result []) r)
                     (with_event i (log_permit_failure (operation r) (clock w - began r)) w))
               | _ => Some (drop_request i r w)
               end
      | _ => None
      end
  | JavaSelected i _ _ _ _ | SpawnRetried i _ | Exited i _ | PipesRead i _ _ | TimerFired i =>
      match requests w !! i with
      | Some r => match trace r with Some t => wake i r t e w | None => None end
      | None => None
      end
  | Cancelled i =>
      match requests w !! i with
      | Some r => match phase r with Returned _ _ | Dropped => None | _ => Some (drop_request i r w) end
      | None => None
      end
  | TimePassed nanos =>
      if no_timer_before (clock w + nanos) w
      then Some {| clock := clock w + nanos; available := available w; is_closed := is_closed w; requests := requests w; groups := groups w;
                   strangers_killed := strangers_killed w; logged := logged w |}
      else None
  | GroupEnded g => if is_reserved g w then None else Some (with_groups (delete g (groups w)) w)
  | GroupAppeared g => if is_free g w then Some (with_groups (<[g := None]> (groups w)) w) else None
  | SemaphoreClosed => Some {| clock := clock w; available := available w; is_closed := true; requests := requests w; groups := groups w;
                               strangers_killed := strangers_killed w; logged := logged w |}
  end.
Definition steps (w w' : World) : Prop := ∃ e, step w e = Some w'.
Fixpoint run (w : World) (l : list event) : option World :=
  match l with
  | [] => Some w
  | e :: l => match step w e with Some w => run w l | None => None end
  end.
(** Nothing has been requested; the semaphore has one permit. *)
Definition idle (clock : N) (groups : gmap N (option nat)) : World :=
  {| clock := clock; available := 1; is_closed := false; requests := ∅; groups := groups; strangers_killed := []; logged := [] |}.
End Steps.

(** ** Lemmas: what holds of every world *)

Section Invariant.

Definition log_of (i : nat) (w : World) : list TraceEvent := (filter (λ x, x.1 = i) (logged w)).*2.
Definition started (t : MavenRunTrace) : TraceEvent := RunStarted (operation_label (trace_operation t)) (wait_ms t) (timeout_ms t).
(** Of a result: it is a runner error just when a failure is logged with it, and timed out just
    when that is its status. *)
Definition result_ok (result : MavenRunResult) (failure : option RunFailure) : Prop :=
  (is_Some failure ↔ run_status result = RunRunnerError) ∧ (timed_out result = true ↔ run_status result = RunTimeout).
(** What is logged of a request that got the permit, and of one that did not. *)
Definition traced (r : Request) (t : MavenRunTrace) (l : list TraceEvent) : Prop :=
  trace_operation t = operation r ∧
  ∃ rest, l = started t :: rest ∧
    match phase r with
    | Waiting => False
    | Returned result _ => ∃ now failure, rest = [finish t now result failure] ∧ result_ok result failure
    | Dropped => ∃ now, rest = [abandon t now]
    | _ => rest = []
    end.
Definition untraced (r : Request) (l : list TraceEvent) : Prop :=
  match phase r with
  | Waiting | Dropped => l = []
  | Returned result _ => ∃ wait, l = [log_permit_failure (operation r) wait] ∧ run_status result = RunRunnerError
  | _ => False
  end.
Definition accounted (r : Request) (l : list TraceEvent) : Prop :=
  match trace r with Some t => traced r t l | None => untraced r l end.

(** The longest a process may take to start, and a run to be over. *)
Definition START : N := JENV_RESOLUTION_TIMEOUT + 2 * 10 ^ 7.
Definition by_when (r : Request) (t : MavenRunTrace) : N :=
  match phase r with
  | SelectingJava _ _ => trace_started t + JENV_RESOLUTION_TIMEOUT
  | RetryingSpawn _ attempt _ => trace_started t + JENV_RESOLUTION_TIMEOUT + 10 ^ 7 * N.of_nat (attempt - 1)
  | Running _ _ _ _ => trace_started t + START + timeout (runner r)
  | _ => trace_started t + START + timeout (runner r) + CLEANUP
  end.
Definition on_time (w : World) (r : Request) (t : MavenRunTrace) : Prop :=
  (∀ d, timer (phase r) = Some d → clock w ≤ d ≤ by_when r t) ∧
  match phase r with RetryingSpawn _ attempt _ => (2 ≤ attempt ≤ MAX_ATTEMPTS)%nat | _ => True end.

Record consistent (w : World) : Prop := {
  consistent_permit : ∃ h : option nat, available w = (if h then 0 else 1) ∧
    ∀ i, h = Some i ↔ ∃ r, requests w !! i = Some r ∧ holds_permit (phase r) = true;
  consistent_groups : ∀ g i, groups w !! g = Some (Some i) →
    ∃ r exit pipes d, requests w !! i = Some r ∧ phase r = Running g exit pipes d;
  consistent_logged : ∀ i r, requests w !! i = Some r → accounted r (log_of i w);
  consistent_unlogged : ∀ i, requests w !! i = None → log_of i w = [];
  consistent_time : ∀ i r t, requests w !! i = Some r → trace r = Some t → holds_permit (phase r) = true → on_time w r t;
}.

(** While a request runs between two suspensions: it holds the permit, and of the process groups of
    requests only its own can live. *)
Record holding (w : World) (i : nat) (r : Request) (t : MavenRunTrace) (own : option N) : Prop := {
  holding_trace : trace r = Some t;
  holding_operation : trace_operation t = operation r;
  holding_permit : available w = 0;
  holding_others : ∀ j r', j ≠ i → requests w !! j = Some r' → holds_permit (phase r') = false;
  holding_groups : ∀ g j, groups w !! g = Some (Some j) → j = i ∧ own = Some g;
  holding_logged : ∀ j r', j ≠ i → requests w !! j = Some r' → accounted r' (log_of j w);
  holding_log : log_of i w = [started t];
  holding_unlogged : ∀ j, j ≠ i → requests w !! j = None → log_of j w = [];
}.

Lemma log_of_event i j e w : log_of j (with_event i e w) = log_of j w ++ (if decide (i = j) then [e] else []).
Proof.
  unfold log_of. cbn [with_event logged]. rewrite filter_app, fmap_app. f_equal. rewrite filter_cons. cbn [fst].
  destruct (decide (i = j)); rewrite filter_nil; done.
Qed.

Lemma consistent_holding w i r : consistent w → requests w !! i = Some r → holds_permit (phase r) = true →
  ∃ t own, trace r = Some t ∧ holding w i r t own ∧ on_time w r t ∧ (∀ g, own = Some g → ∃ exit pipes d, phase r = Running g exit pipes d).
Proof.
  intros Hw Hr Hp. pose proof (consistent_logged _ Hw i r Hr) as Hl. unfold accounted in Hl.
  destruct (trace r) as [t|] eqn:Ht; [|unfold untraced in Hl; by destruct (phase r)].
  destruct Hl as (Hop & rest & Hl & Hrest).
  assert (∀ j r', j ≠ i → requests w !! j = Some r' → holds_permit (phase r') = false) as Hothers.
  { intros j r' Hne Hj. destruct (holds_permit (phase r')) eqn:Hh; [|done]. destruct (consistent_permit _ Hw) as (h & _ & Hall).
    exfalso. apply Hne. assert (h = Some i) as -> by (apply Hall; by exists r). assert (Some i = Some j) as [=] by (apply Hall; by exists r'). done. }
  set (own := match phase r with Running g _ _ _ => Some g | _ => None end). exists t, own. split_and!; [done| |by eapply (consistent_time _ Hw)|].
  - split; [done..| |done| | | |].
    + destruct (consistent_permit _ Hw) as (h & Ha & Hall). assert (h = Some i) as -> by (apply Hall; by exists r). done.
    + intros g j Hg. destruct (consistent_groups _ Hw g j Hg) as (r' & exit & pipes & d & Hj & Hph).
      destruct (decide (j = i)) as [->|Hne]; [|specialize (Hothers j r' Hne Hj); by rewrite Hph in Hothers].
      assert (r' = r) as -> by congruence. unfold own. by rewrite Hph.
    + intros j r' _ Hj. by apply (consistent_logged _ Hw).
    + rewrite Hl. f_equal. destruct (phase r); done.
    + intros j _. apply (consistent_unlogged _ Hw).
  - unfold own. intros g. destruct (phase r); try done. intros [= <-]. by eexists _, _, _.
Qed.
Lemma terminate_holding w i r t own g : holding w i r t own → own = None ∨ own = Some g →
  holding (terminate_process_group i g w) i r t None.
Proof.
  intros [] Hown. unfold terminate_process_group. destruct (groups w !! g) as [o|] eqn:Hg.
  - split; try done. cbn [groups]. intros g' j. rewrite lookup_delete_Some. intros [Hne Hg']. apply holding_groups0 in Hg' as [_ Heq].
    destruct Hown; congruence.
  - split; try done. intros g' j Hg'. pose proof (holding_groups0 g' j Hg') as [_ ->]. destruct Hown as [|[= ->]]; [done|congruence].
Qed.
Lemma terminate_same w i g :
  clock (terminate_process_group i g w) = clock w ∧ requests (terminate_process_group i g w) = requests w.
Proof. unfold terminate_process_group. by destruct (groups w !! g). Qed.

(** The run of a request ends: its permit is given back and one event is logged. *)
Lemma release_consistent w i r t r' e :
  holding w i r t None → trace r' = Some t → operation r' = operation r → holds_permit (phase r') = false →
  match phase r' with
  | Returned result _ => ∃ now failure, e = finish t now result failure ∧ result_ok result failure
  | Dropped => ∃ now, e = abandon t now
  | _ => False
  end →
  (∀ j r'', j ≠ i → requests w !! j = Some r'' → holds_permit (phase r'') = false) →
  consistent (with_request i r' (with_available (available w + 1) (with_event i e w))).
Proof.
  intros Hh Ht Hop Hp He Hfree. set (w' := with_request _ _ _).
  assert (∀ j, log_of j w' = log_of j (with_event i e w)) as Hlog by done.
  assert (requests w' = <[i := r']> (requests w)) as Hreq by done.
  split.
  - exists None. split; [cbn; rewrite (holding_permit _ _ _ _ _ Hh); done|]. intros j. split; [done|]. rewrite Hreq. intros (r'' & Hj & Hph).
    apply lookup_insert_Some in Hj as [[<- <-]|[Hne Hj]]; [congruence|]. rewrite (Hfree j r'') in Hph; done.
  - intros g j Hg. by destruct (holding_groups _ _ _ _ _ Hh g j Hg).
  - intros j r''. rewrite Hreq, Hlog, log_of_event, lookup_insert_Some. intros [[<- <-]|[Hne Hj]].
    + rewrite decide_True by done. unfold accounted. rewrite Ht. split; [by rewrite Hop; apply Hh|].
      exists [e]. rewrite (holding_log _ _ _ _ _ Hh). split; [done|].
      destruct (phase r'); try done; [destruct He as (now & failure & -> & ?); by exists now, failure|destruct He as [now ->]; by exists now].
    + rewrite decide_False, app_nil_r by done. by apply (holding_logged _ _ _ _ _ Hh).
  - intros j. rewrite Hreq, Hlog, log_of_event, lookup_insert_None. intros [Hj Hne]. rewrite decide_False, app_nil_r by done.
    by apply (holding_unlogged _ _ _ _ _ Hh).
  - intros j r'' t'. rewrite Hreq, lookup_insert_Some. intros [[<- <-]|[Hne Hj]] _ Hph; [congruence|]. rewrite (Hfree j r'') in Hph; done.
Qed.
Lemma drop_holding w i r t own : holding w i r t own → own = None ∨ own = guarded (phase r) → consistent (drop_request i r w).
Proof.
  intros Hh Hown. unfold drop_request.
  set (w1 := match guarded (phase r) with Some g => terminate_process_group i g w | None => w end).
  assert (holding w1 i r t None) as Hh1.
  { unfold w1. destruct (guarded (phase r)) as [g|]; [by eapply terminate_holding|]. destruct Hown as [-> | ->]; done. }
  rewrite (holding_trace _ _ _ _ _ Hh). apply (release_consistent w1 i r t); cbn [in_phase trace operation began phase]; try done; [apply Hh|by eexists|].
  apply (holding_others _ _ _ _ _ Hh1).
Qed.
(** A request is suspended. *)
Lemma suspend_consistent w i r t own p :
  holding w i r t own → holds_permit p = true → (∀ g, own = Some g → ∃ exit pipes d, p = Running g exit pipes d) →
  on_time w (in_phase p r) t → consistent (with_request i (in_phase p r) w).
Proof.
  intros Hh Hp Hown Htime. set (w' := with_request _ _ _). assert (requests w' = <[i := in_phase p r]> (requests w)) as Hreq by done. split.
  - exists (Some i). split; [apply Hh|]. intros j. rewrite Hreq. split.
    + intros [= <-]. exists (in_phase p r). by rewrite lookup_insert_eq.
    + intros (r'' & Hj & Hph). apply lookup_insert_Some in Hj as [[<- <-]|[Hne Hj]]; [done|]. by rewrite (holding_others _ _ _ _ _ Hh j r'') in Hph.
  - intros g j Hg. destruct (holding_groups _ _ _ _ _ Hh g j Hg) as [-> Heq]. destruct (Hown g Heq) as (exit & pipes & d & ->).
    exists (in_phase (Running g exit pipes d) r), exit, pipes, d. split; [by rewrite Hreq, lookup_insert_eq|done].
  - intros j r''. change (log_of j w') with (log_of j w). rewrite Hreq, lookup_insert_Some. intros [[<- <-]|[Hne Hj]]; [|by apply (holding_logged _ _ _ _ _ Hh)].
    unfold accounted. cbn [in_phase trace]. rewrite (holding_trace _ _ _ _ _ Hh). split; [apply Hh|]. cbn [in_phase phase].
    exists []. split; [apply Hh|]. by destruct p.
  - intros j. change (log_of j w') with (log_of j w). rewrite Hreq, lookup_insert_None. intros [Hj Hne]. by apply (holding_unlogged _ _ _ _ _ Hh).
  - intros j r'' t'. rewrite Hreq, lookup_insert_Some. intros [[<- <-]|[Hne Hj]] Ht Hph.
    + cbn [in_phase trace] in Ht. rewrite (holding_trace _ _ _ _ _ Hh) in Ht. by injection Ht as <-.
    + by rewrite (holding_others _ _ _ _ _ Hh j r'') in Hph.
Qed.
End Invariant.

Section Runs.
Context `{PatternLaws, Unicode}.
Variables (home path_variable : option str).

Lemma runner_error_spec repository root elapsed message :
  wp (runner_error repository root home elapsed message) (λ result, run_status result = RunRunnerError ∧ timed_out result = false).
Proof. unfold runner_error. eapply wp_call; [apply redact_text_total|]. by intros [text count] _. Qed.
Lemma finish_child_spec repository root elapsed exit timed_out out err :
  wp (finish_child repository root home from_utf8_lossy elapsed (Some exit) timed_out out err)
     (λ ran, ∀ result raw, ran = inl (result, raw) → result_ok result None).
Proof.
  unfold finish_child. destruct exit as [status|error]; cbn [run_status_of]; [|by intros ? ?].
  set (verdict := if timed_out then _ else _).
  assert (∃ s code, verdict = inl (s, code) ∧ s ≠ RunRunnerError ∧ (timed_out = true ↔ s = RunTimeout)) as (s & code & -> & Hne & Htimed).
  { unfold verdict. destruct timed_out; [by eexists _, _|]. destruct (success status); by eexists _, _. }
  destruct out as [out|error]; [|by intros ? ?]. destruct err as [err|error]; [|by intros ? ?].
  eapply wp_call; [apply redact_text_total|]. intros [out_text out_count] _. eapply wp_call; [apply redact_text_total|]. intros [err_text err_count] _.
  intros result raw [= <- <-]. split; cbn [run_status MavenOutput.timed_out]; [|done]. split; [by intros [? ?]|done].
Qed.
Lemma read_bounded_total reads limit : total (read_bounded reads limit).
Proof.
  destruct reads as [reads|]; [|done]. eapply wp_mono; [apply (read_loop_holds limit [] empty_output)|done].
  split_and!; [by rewrite take_nil|done|]. by rewrite bool_decide_eq_false_2 by (simpl; lia).
Qed.

Lemma end_run_consistent w i r t ran : holding w i r t None → (∀ result raw, ran = inl (result, raw) → result_ok result None) →
  consistent (end_run home i r t ran w).
Proof.
  intros Hh Hran. unfold end_run.
  assert (wp (executed (execution_repository (runner r)) (root (runner r)) home (elapsed_ms (began r) (clock w)) ran)
    (λ x, result_ok x.1 (match ran with inl _ => None | inr (failure, _) => Some failure end))) as Hx.
  { destruct ran as [[result raw]|[failure message]]; cbn [executed]; [by eapply Hran|].
    eapply wp_call; [apply runner_error_spec|]. intros result [Hs Ht]. change (result_ok result (Some failure)). unfold result_ok. rewrite Hs, Ht. split; [|done]. by split. }
  destruct (executed _ _ _ _ ran) as [[result raw]| |]; [|done|done]. cbn [wp fst] in Hx.
  eapply release_consistent; [exact Hh|apply Hh|done..| |apply Hh]. cbn [in_phase phase]. by eexists _, _.
Qed.
Lemma conclude_consistent w i r t g timed_out exit pipes : holding w i r t None → consistent (conclude home i r t g timed_out exit pipes w).
Proof.
  intros Hh. unfold conclude. set (w1 := match exit with inl _ => w | inr _ => _ end).
  assert (holding w1 i r t None) as Hh1 by (unfold w1; destruct exit; [done|]; eapply terminate_holding; [done|by left]).
  pose proof (finish_child_spec (execution_repository (runner r)) (root (runner r)) (elapsed_ms (began r) (clock w1)) exit timed_out pipes.1 pipes.2) as Hf.
  destruct (finish_child _ _ _ _ _ _ _ _) as [ran| |]; [|done|done]. by apply end_run_consistent.
Qed.
Lemma spawn_consistent w i r t c attempt s w' : holding w i r t None → (1 ≤ attempt ≤ MAX_ATTEMPTS)%nat →
  clock w ≤ trace_started t + JENV_RESOLUTION_TIMEOUT + 10 ^ 7 * N.of_nat (attempt - 1) →
  spawn_maven home i r t c attempt s w = Some w' → consistent w'.
Proof.
  unfold MAX_ATTEMPTS. intros Hh Ha Hc. unfold spawn_maven. destruct s as [g|error|error].
  - destruct (is_free g w) eqn:Hfree; [|done]. intros [= <-]. set (w1 := with_groups _ w).
    change (consistent (with_request i (in_phase (Running g None None (clock w1 + timeout (runner r))) r) w1)).
    eapply (suspend_consistent w1 i r t (Some g)); [|done|by intros g' [= <-]; eexists _, _, _|].
    + destruct Hh. split; try done. intros g' j. cbn [w1 with_groups groups]. rewrite lookup_insert_Some. intros [[<- [= <-]]|[_ Hg]]; [done|].
      by destruct (holding_groups0 g' j Hg).
    + split; [|done]. cbn [in_phase phase timer]. intros d [= <-]. unfold by_when, START. cbn [in_phase phase runner]. change (clock w1) with (clock w). lia.
  - intros [= <-]. destruct (Nat.ltb_spec attempt MAX_ATTEMPTS) as [Hlt|Hge]; unfold MAX_ATTEMPTS in *; [|by apply end_run_consistent].
    eapply suspend_consistent; [exact Hh|done|done|]. split; cbn [in_phase phase timer]; [|unfold MAX_ATTEMPTS; lia].
    intros d [= <-]. unfold by_when. cbn [in_phase phase]. replace (S attempt - 1)%nat with (S (attempt - 1)) by lia. lia.
  - intros [= <-]. by apply end_run_consistent.
Qed.
Lemma run_permitted_consistent w i r t fs error s w' : holding w i r t None → clock w = trace_started t →
  run_permitted home i r t fs error s w = Some w' → consistent w'.
Proof.
  intros Hh Hc. unfold run_permitted. destruct (validated_executable _ _) as [program|]; [|intros [= <-]; by apply end_run_consistent].
  destruct (java_environment (runner r)) as [|jenv_root]; [apply spawn_consistent; [done|unfold MAX_ATTEMPTS; lia|lia]|].
  intros [= <-]. destruct (jenv_executable error jenv_root); [|by apply end_run_consistent].
  eapply suspend_consistent; [exact Hh|done|done|]. split; [|done]. cbn [in_phase phase timer]. intros d [= <-]. unfold by_when. cbn [in_phase phase]. lia.
Qed.
Lemma run_with_java_consistent w i r t c output fs error s w' : holding w i r t None → clock w ≤ trace_started t + JENV_RESOLUTION_TIMEOUT →
  run_with_java home path_variable i r t c output fs error s w = Some w' → consistent w'.
Proof.
  intros Hh Hc. unfold run_with_java. destruct (jenv_java_home error output); [|intros [= <-]; by apply end_run_consistent].
  destruct (with_java _ _ _); [|intros [= <-]; by apply end_run_consistent]. apply spawn_consistent; [done|unfold MAX_ATTEMPTS; lia|lia].
Qed.
Lemma exited_consistent w i r t g exit pipes cleanup : holding w i r t None →
  clock w ≤ cleanup ≤ trace_started t + START + timeout (runner r) + CLEANUP → consistent (exited home i r t g exit pipes cleanup w).
Proof.
  intros Hh Hc. unfold exited. destruct pipes; [by apply conclude_consistent|]. eapply suspend_consistent; [exact Hh|done|done|].
  split; [|done]. cbn [in_phase phase timer]. by intros d [= <-].
Qed.
Lemma running_consistent w i r t g exit pipes deadline own : holding w i r t own → own = None ∨ own = Some g →
  clock w ≤ deadline ≤ trace_started t + START + timeout (runner r) → consistent (running home i r t g exit pipes deadline w).
Proof.
  intros Hh Hown Hc. unfold running.
  assert (consistent (with_request i (in_phase (Running g exit pipes deadline) r) w)) as Hsuspend.
  { eapply suspend_consistent; [exact Hh|done| |split; [|done]; cbn [in_phase phase timer]; by intros d [= <-]].
    intros g' ->. destruct Hown as [|[= ->]]; [done|]. by eexists _, _, _. }
  destruct exit as [exit|]; [|done]. destruct pipes as [pipes|]; [|done]. eapply conclude_consistent, terminate_holding; [exact Hh|done].
Qed.

Lemma wake_consistent w i r t e w' : consistent w → requests w !! i = Some r → trace r = Some t →
  wake home path_variable i r t e w = Some w' → consistent w'.
Proof.
  intros Hw Hr Ht Hstep. destruct (holds_permit (phase r)) eqn:Hp; [|unfold wake in Hstep; by destruct e, (phase r)].
  destruct (consistent_holding w i r Hw Hr Hp) as (t' & own & Ht' & Hh & [Htime Hattempt] & Hown). assert (t' = t) as -> by congruence.
  unfold by_when in Htime.
  destruct (phase r) as [|c java_by|c attempt wake_up|g exit pipes deadline|g pipes cleanup|g exit cleanup| |] eqn:Hph; try done; cbn [timer] in Htime;
    specialize (Htime _ eq_refl).
  - assert (own = None) as -> by (destruct own as [g|]; [by destruct (Hown g eq_refl) as (? & ? & ? & ?)|done]).
    unfold wake in Hstep. rewrite Hph in Hstep. destruct e; try done.
    assert (run_with_java home path_variable i r t c output fs error s w = Some w') as Hrun
      by (destruct output; [destruct (_ <=? _); done|done..]).
    eapply (run_with_java_consistent w i r t c output fs error s); [exact Hh|lia|exact Hrun].
  - assert (own = None) as -> by (destruct own as [g|]; [by destruct (Hown g eq_refl) as (? & ? & ? & ?)|done]).
    unfold wake in Hstep. rewrite Hph in Hstep. destruct e; try done. destruct (_ <=? _); [|done].
    eapply (spawn_consistent w i r t c attempt s); [exact Hh|lia|lia|exact Hstep].
  - assert (own = None ∨ own = Some g) as Hg.
    { destruct own as [g'|]; [right|by left]. by destruct (Hown g' eq_refl) as (? & ? & ? & [= -> _ _ _]). }
    unfold wake in Hstep. rewrite Hph in Hstep. destruct e as [| | | | |? exit'|? out err|?| | | | |]; try done.
    + destruct exit as [exit|]; [done|]. apply Some_inj in Hstep as <-. by eapply running_consistent.
    + destruct pipes as [pipes|]; [done|].
      pose proof (read_bounded_total out (max_output_bytes (runner r))) as Hout. pose proof (read_bounded_total err (max_output_bytes (runner r))) as Herr.
      destruct (read_bounded out _) as [out'| |]; [|done|done]. destruct (read_bounded err _) as [err'| |]; [|done|done].
      apply Some_inj in Hstep as <-. by eapply running_consistent.
    + destruct (N.ltb_spec (clock w) deadline) as [|Hd]; [done|]. apply Some_inj in Hstep as <-.
      pose proof (terminate_holding w i r t own g Hh Hg) as Hh'. destruct (terminate_same w i g) as [Hc _].
      destruct exit as [exit|]; [apply exited_consistent; [done|rewrite Hc; lia]|].
      eapply suspend_consistent; [exact Hh'|done|done|]. split; [|done]. cbn [in_phase phase timer]. intros d [= <-]. unfold by_when.
      cbn [in_phase phase runner]. rewrite Hc. lia.
  - assert (own = None) as -> by (destruct own as [g'|]; [by destruct (Hown g' eq_refl) as (? & ? & ? & ?)|done]).
    unfold wake in Hstep. rewrite Hph in Hstep. destruct e; try done.
    + apply Some_inj in Hstep as <-. by apply exited_consistent.
    + destruct (N.ltb_spec (clock w) cleanup); [done|]. apply Some_inj in Hstep as <-. by apply exited_consistent.
  - assert (own = None) as -> by (destruct own as [g'|]; [by destruct (Hown g' eq_refl) as (? & ? & ? & ?)|done]).
    unfold wake in Hstep. rewrite Hph in Hstep. destruct e as [| | | | |? exit'|? out err|?| | | | |]; try done.
    + pose proof (read_bounded_total out (max_output_bytes (runner r))) as Hout. pose proof (read_bounded_total err (max_output_bytes (runner r))) as Herr.
      destruct (read_bounded out _) as [out'| |]; [|done|done]. destruct (read_bounded err _) as [err'| |]; [|done|done].
      apply Some_inj in Hstep as <-. by apply conclude_consistent.
    + destruct (N.ltb_spec (clock w) cleanup); [done|]. apply Some_inj in Hstep as <-. by apply conclude_consistent.
Qed.
End Runs.

Section Reachable.
Context `{PatternLaws, Unicode}.
Variables (home path_variable : option str).

(** A request without the permit changes, and nothing else does. *)
Lemma aside_consistent w w1 i r' :
  consistent w → (∀ r, requests w !! i = Some r → holds_permit (phase r) = false) → holds_permit (phase r') = false →
  clock w1 = clock w → available w1 = available w → groups w1 = groups w → requests w1 = requests w →
  (∀ j, j ≠ i → log_of j w1 = log_of j w) → accounted r' (log_of i w1) →
  consistent (with_request i r' w1).
Proof.
  intros Hw Hfree Hp Hc Ha Hg Hr Hlog Hacc. set (w2 := with_request i r' w1).
  assert (requests w2 = <[i := r']> (requests w)) as Hreq by (cbn; by rewrite Hr).
  assert (∀ j, log_of j w2 = log_of j w1) as Hlog2 by done. split.
  - destruct (consistent_permit _ Hw) as (h & Hav & Hall). exists h. split; [cbn; by rewrite Ha|]. intros j. rewrite Hall, Hreq.
    destruct (decide (j = i)) as [->|Hne]; [|by rewrite lookup_insert_ne]. rewrite lookup_insert_eq. split.
    + intros (r & Hi & Hh). by rewrite (Hfree r Hi) in Hh.
    + intros (r & [= <-] & Hh). congruence.
  - intros g j Hgj. change (groups w1 !! g = Some (Some j)) in Hgj. rewrite Hg in Hgj.
    destruct (consistent_groups _ Hw g j Hgj) as (r & exit & pipes & d & Hj & Hph). exists r, exit, pipes, d. split; [|done]. rewrite Hreq, lookup_insert_ne; [done|].
    intros <-. specialize (Hfree r Hj). by rewrite Hph in Hfree.
  - intros j r. rewrite Hreq, Hlog2, lookup_insert_Some. intros [[<- <-]|[Hne Hj]]; [done|]. rewrite Hlog by done. by apply (consistent_logged _ Hw).
  - intros j. rewrite Hreq, Hlog2, lookup_insert_None. intros [Hj Hne]. rewrite Hlog by done. by apply (consistent_unlogged _ Hw).
  - intros j r t. rewrite Hreq, lookup_insert_Some. intros [[<- <-]|[Hne Hj]] Ht Hh; [congruence|].
    pose proof (consistent_time _ Hw j r t Hj Ht Hh) as Htime. unfold on_time in *. change (clock w2) with (clock w1). by rewrite Hc.
Qed.
Lemma requested_consistent w i r o l w' : consistent w → step home path_variable w (Requested i r o l) = Some w' → consistent w'.
Proof.
  intros Hw. cbn [step]. destruct (requests w !! i) eqn:Hi; [done|]. intros [= <-].
  apply (aside_consistent w); [done|congruence|done..|]. by apply (consistent_unlogged _ Hw).
Qed.
Lemma waiting_untraced w i r : consistent w → requests w !! i = Some r → phase r = Waiting → trace r = None ∧ log_of i w = [].
Proof.
  intros Hw Hi Hp. pose proof (consistent_logged _ Hw i r Hi) as Hl. unfold accounted, traced, untraced in Hl. rewrite Hp in Hl.
  destruct (trace r); [by destruct Hl as (_ & ? & _ & [])|done].
Qed.
Lemma granted_holding w i r : consistent w → requests w !! i = Some r → phase r = Waiting → available w ≠ 0 →
  let '(t, e) := start (operation r) (clock w - began r) (timeout (runner r)) (clock w) in
  holding (with_event i e (with_available (available w - 1) w)) i
    {| runner := runner r; operation := operation r; arguments := arguments r; began := began r; trace := Some t; phase := phase r |} t None.
Proof.
  intros Hw Hi Hp Ha. cbn [start]. destruct (waiting_untraced w i r Hw Hi Hp) as [_ Hlog].
  destruct (consistent_permit _ Hw) as ([h|] & Hav & Hall); [done|].
  assert (∀ j r', requests w !! j = Some r' → holds_permit (phase r') = false) as Hfree.
  { intros j r' Hj. destruct (holds_permit (phase r')) eqn:Hh; [|done]. assert (None = Some j) by (apply Hall; by exists r'). done. }
  split; cbn [trace operation began trace_operation trace_started]; try done.
  - cbn [with_event with_available available]. by rewrite Hav.
  - intros j r' _. apply Hfree.
  - intros g j Hg. destruct (consistent_groups _ Hw g j Hg) as (r' & exit & pipes & d & Hj & Hph). specialize (Hfree j r' Hj). by rewrite Hph in Hfree.
  - intros j r' Hne Hj. rewrite log_of_event, decide_False, app_nil_r by done. by apply (consistent_logged _ Hw).
  - rewrite log_of_event, decide_True by done. change (log_of i (with_available _ w)) with (log_of i w). by rewrite Hlog.
  - intros j Hne Hj. rewrite log_of_event, decide_False, app_nil_r by done. by apply (consistent_unlogged _ Hw).
Qed.

Lemma event_consistent w e w' : consistent w → step home path_variable w e = Some w' → consistent w'.
Proof.
  intros Hw Hstep.
  assert (∀ i, (match requests w !! i with Some r => match trace r with Some t => wake home path_variable i r t e w | None => None end | None => None end)
    = Some w' → consistent w') as Hwake.
  { intros i Hs. destruct (requests w !! i) as [r|] eqn:Hr; [|done]. destruct (trace r) as [t|] eqn:Ht; [|done]. by eapply wake_consistent. }
  destruct e as [i r o l|i fs error s|i error|i output fs error s|i s|i exit|i out err|i|i|nanos|g|g|]; cbn [step] in Hstep;
    try (by apply (Hwake i)).
  - by apply (requested_consistent w i r o l).
  - destruct (requests w !! i) as [r|] eqn:Hr; [|done]. destruct r as [runner0 operation0 arguments0 began0 trace0 []]; try done.
    destruct (N.eqb_spec (available w) 0) as [|Ha]; [done|]. destruct (is_closed w); [done|]. cbn [orb] in Hstep.
    pose proof (granted_holding w i _ Hw Hr eq_refl Ha) as Hh. destruct (start _ _ _ _) as [t e] eqn:Hstart.
    eapply run_permitted_consistent; [exact Hh| |exact Hstep]. injection Hstart as <- _. done.
  - destruct (requests w !! i) as [r|] eqn:Hr; [|done]. destruct r as [runner0 operation0 arguments0 began0 trace0 []]; try done.
    destruct (negb (is_closed w)); [done|]. destruct (waiting_untraced w i _ Hw Hr eq_refl) as [Ht Hlog]. cbn [trace] in Ht. subst.
    pose proof (runner_error_spec home (execution_repository runner0) (root runner0) (elapsed_ms began0 (clock w)) error) as He.
    cbn [runner began] in Hstep. destruct (runner_error _ _ _ _ _) as [result| |]; [|done|done]. destruct He as [Hs _]. apply Some_inj in Hstep as <-.
    apply (aside_consistent w); try done.
    + intros r. rewrite Hr. by intros [= <-].
    + intros j Hne. rewrite log_of_event, decide_False, app_nil_r by done. done.
    + rewrite log_of_event, decide_True by done. rewrite Hlog. unfold accounted. cbn [in_phase trace]. unfold untraced. cbn [in_phase phase operation].
      by eexists.
  - destruct (requests w !! i) as [r|] eqn:Hr; [|done].
    assert (∃ p, p = phase r ∧ match p with Returned _ _ | Dropped => False | _ => True end ∧ w' = drop_request i r w) as (p & Hp & Hopen & ->).
    { eexists. split; [done|]. destruct (phase r); try done; split; try done; by apply Some_inj in Hstep. }
    destruct (holds_permit (phase r)) eqn:Hh.
    + destruct (consistent_holding w i r Hw Hr Hh) as (t & own & _ & Hhold & _ & Hown). eapply drop_holding; [exact Hhold|].
      destruct own as [g|]; [right|by left]. destruct (Hown g eq_refl) as (exit & pipes & d & ->). done.
    + assert (phase r = Waiting) as Hwait by (subst p; by destruct (phase r)). destruct (waiting_untraced w i r Hw Hr Hwait) as [Ht Hlog].
      unfold drop_request. rewrite Hwait, Ht. cbn [guarded]. apply (aside_consistent w); try done.
      * intros r'. rewrite Hr. by intros [= <-].
      * unfold accounted. cbn [in_phase trace]. by rewrite Ht.
  - destruct (no_timer_before _ w) eqn:Ht; [|done]. apply Some_inj in Hstep as <-. split; try apply Hw. intros i r t Hr Hrt Hh.
    destruct (consistent_time _ Hw i r t Hr Hrt Hh) as [Htime Hattempt]. split; [|done]. intros d Hd. cbn [clock]. destruct (Htime d Hd) as [_ Hbound].
    split; [|done]. unfold no_timer_before in Ht. rewrite forallb_forall in Ht. specialize (Ht (i, r)). rewrite <- list_elem_of_In, elem_of_map_to_list in Ht.
    specialize (Ht Hr). cbn [snd] in Ht. rewrite Hd in Ht. cbn [from_option] in Ht. by apply N.leb_le.
  - destruct (is_reserved g w); [done|]. apply Some_inj in Hstep as <-. split; try apply Hw. intros g' j. cbn [with_groups groups].
    rewrite lookup_delete_Some. intros [_ Hg]. by apply (consistent_groups _ Hw).
  - destruct (is_free g w); [|done]. apply Some_inj in Hstep as <-. split; try apply Hw. intros g' j. cbn [with_groups groups].
    rewrite lookup_insert_Some. intros [[_ [=]]|[_ Hg]]. by apply (consistent_groups _ Hw).
  - apply Some_inj in Hstep as <-. by split; apply Hw.
Qed.
Lemma idle_consistent clock m : map_Forall (λ _ o, o = None) m → consistent (idle clock m).
Proof.
  intros Hm. split; cbn [idle available requests groups]; try done.
  - exists None. split; [done|]. intros i. split; [done|]. by intros (r & ? & _).
  - intros g i Hg. by specialize (Hm g _ Hg).
Qed.
Lemma runs_consistent clock m w : map_Forall (λ _ o, o = None) m → rtc (steps home path_variable) (idle clock m) w → consistent w.
Proof.
  intros Hm. revert w. apply (rtc_ind_r consistent).
  - by apply idle_consistent.
  - intros w1 w2 _ [e He] Hw. by eapply event_consistent.
Qed.
End Reachable.

Section Theorems.
Context `{PatternLaws, Unicode}.
Variables (home path_variable : option str).

(** C31: Requests run Maven one at a time and leave nothing behind.  However the requests, their
    processes, their timers and their cancellations interleave: at most one request holds the
    permit, and when none does it is available again; and a process group that a request started
    lives only while that request holds the permit and guards it, so that no run that returned, that
    failed or that was cancelled leaves a process of its group, and no two Maven processes run at
    the same time. *)
Theorem maven_runs_one_at_a_time clock m w :
  map_Forall (λ _ o, o = None) m → rtc (steps home path_variable) (idle clock m) w →
  (∀ i j r r', requests w !! i = Some r → requests w !! j = Some r' → holds_permit (phase r) = true → holds_permit (phase r') = true → i = j) ∧
  ((∀ i r, requests w !! i = Some r → holds_permit (phase r) = false) → available w = 1) ∧
  (∀ g i, groups w !! g = Some (Some i) →
    ∃ r, requests w !! i = Some r ∧ holds_permit (phase r) = true ∧ guarded (phase r) = Some g) ∧
  (∀ g g' i j, groups w !! g = Some (Some i) → groups w !! g' = Some (Some j) → g = g').
Proof.
  intros Hm Hsteps. pose proof (runs_consistent home path_variable clock m w Hm Hsteps) as Hw.
  destruct (consistent_permit _ Hw) as (h & Hav & Hall).
  assert (∀ i j r r', requests w !! i = Some r → requests w !! j = Some r' → holds_permit (phase r) = true → holds_permit (phase r') = true → i = j) as Hone.
  { intros i j r r' Hi Hj Hp Hp'. assert (h = Some i) as -> by (apply Hall; by exists r). assert (Some i = Some j) as [=] by (apply Hall; by exists r'). done. }
  assert (∀ g i, groups w !! g = Some (Some i) → ∃ r, requests w !! i = Some r ∧ holds_permit (phase r) = true ∧ guarded (phase r) = Some g) as Hgroups.
  { intros g i (r & exit & pipes & d & Hi & Hp)%(consistent_groups _ Hw). exists r. by rewrite Hp. }
  split_and!; [exact Hone| |exact Hgroups|].
  - intros Hfree. rewrite Hav. destruct h as [i|]; [|done]. destruct (proj1 (Hall i) eq_refl) as (r & Hi & Hp). by rewrite (Hfree i r) in Hp.
  - intros g g' i j Hg Hg'. destruct (Hgroups g i Hg) as (r & Hi & Hp & Hgr). destruct (Hgroups g' j Hg') as (r' & Hj & Hp' & Hgr').
    assert (i = j) as <- by (by eapply Hone). congruence.
Qed.

(** Every request that got the permit is logged once when it starts and, when it is over, once
    with its result, or as abandoned when it was cancelled; until then only its start is.  A request
    that did not get the permit is logged once when it was refused, and not at all otherwise. *)
Theorem maven_runs_traced clock m w i r :
  map_Forall (λ _ o, o = None) m → rtc (steps home path_variable) (idle clock m) w → requests w !! i = Some r → accounted r (log_of i w).
Proof. intros Hm Hsteps. apply (consistent_logged w), (runs_consistent home path_variable clock m w Hm Hsteps). Qed.

(** How many timers may still fire. *)
Definition remaining (p : Phase) : nat :=
  match p with
  | SelectingJava _ _ => 6
  | RetryingSpawn _ attempt _ => 4 + (MAX_ATTEMPTS - attempt)
  | Running _ _ _ _ => 3
  | AwaitingExit _ _ _ => 2
  | AwaitingPipes _ _ _ => 1
  | _ => 0
  end.
Lemma ended_remaining i r t ran w r' : requests (end_run home i r t ran w) !! i = Some r' → remaining (phase r') = 0%nat.
Proof.
  unfold end_run, drop_request. destruct (executed _ _ _ _ _) as [[result raw]| |]; cbn [with_request requests]; rewrite lookup_insert_eq; by intros [= <-].
Qed.
Lemma concluded_remaining i r t g timed_out exit pipes w r' :
  requests (conclude home i r t g timed_out exit pipes w) !! i = Some r' → remaining (phase r') = 0%nat.
Proof.
  unfold conclude, drop_request. destruct (finish_child _ _ _ _ _ _ _ _); [apply ended_remaining|..]; cbn [with_request requests];
    rewrite lookup_insert_eq; by intros [= <-].
Qed.
Lemma exited_remaining i r t g exit pipes cleanup w r' :
  requests (exited home i r t g exit pipes cleanup w) !! i = Some r' → (remaining (phase r') ≤ 1)%nat.
Proof.
  unfold exited. destruct pipes; [intros Hr%concluded_remaining; lia|]. cbn [with_request requests]. rewrite lookup_insert_eq. by intros [= <-].
Qed.
Lemma timer_fires w i r t d : consistent w → requests w !! i = Some r → trace r = Some t → timer (phase r) = Some d → d ≤ clock w →
  ∃ e w', request_of e = Some i ∧ step home path_variable w e = Some w' ∧
    ∀ r', requests w' !! i = Some r' → (remaining (phase r') < remaining (phase r))%nat.
Proof.
  intros Hw Hr Ht Hd Hc. pose ({| canonicalize _ := None; is_file _ := false; is_dir _ := false; is_executable _ := None |} : FileSystem) as fs.
  destruct (phase r) as [|c java_by|c attempt wake_up|g exit pipes deadline|g pipes cleanup|g exit cleanup| |] eqn:Hp; try done; injection Hd as ->.
  - exists (JavaSelected i JenvTimedOut fs [] (SpawnFailed [])). eexists. split; [done|]. cbn [step]. rewrite Hr, Ht. unfold wake. rewrite Hp.
    rewrite (proj2 (N.leb_le _ _) Hc). split; [done|]. intros r' Hr'%ended_remaining. cbn [remaining]. lia.
  - exists (SpawnRetried i (SpawnFailed [])). eexists. split; [done|]. cbn [step]. rewrite Hr, Ht. unfold wake. rewrite Hp.
    rewrite (proj2 (N.leb_le _ _) Hc). split; [done|]. intros r' Hr'%ended_remaining. cbn [remaining]. lia.
  - exists (TimerFired i). eexists. split; [done|]. cbn [step]. rewrite Hr, Ht. unfold wake. rewrite Hp, (proj2 (N.ltb_ge _ _) Hc). split; [done|].
    intros r'. destruct exit as [exit|]; [intros Hr'%exited_remaining; cbn [remaining]; lia|].
    cbn [with_request requests]. rewrite lookup_insert_eq. intros [= <-]. cbn [in_phase phase remaining]. lia.
  - exists (TimerFired i). eexists. split; [done|]. cbn [step]. rewrite Hr, Ht. unfold wake. rewrite Hp, (proj2 (N.ltb_ge _ _) Hc). split; [done|].
    intros r' Hr'%exited_remaining. cbn [remaining]. lia.
  - exists (TimerFired i). eexists. split; [done|]. cbn [step]. rewrite Hr, Ht. unfold wake. rewrite Hp, (proj2 (N.ltb_ge _ _) Hc). split; [done|].
    intros r' Hr'%concluded_remaining. cbn [remaining]. lia.
Qed.

End Theorems.

(** Maven gets no variable that is only meant for the server, whichever Java it runs with. *)
Lemma server_variables_withheld r program arguments java_home inherited_path inherited name c :
  name ∈ SERVER_ONLY_ENVIRONMENT →
  c = maven_command r program arguments ∨ with_java java_home inherited_path (maven_command r program arguments) = inl c →
  variable_of c inherited name = None.
Proof.
  intros Hname Hc. assert (name ≠ lit "JAVA_HOME" ∧ name ≠ lit "PATH") as [Hjava Hpath].
  { assert (Forall (λ n, n ≠ lit "JAVA_HOME" ∧ n ≠ lit "PATH") SERVER_ONLY_ENVIRONMENT) as Hall
      by (apply (bool_decide_unpack _); vm_compute; exact I). by eapply Forall_forall in Hall. }
  assert (env_removed c = SERVER_ONLY_ENVIRONMENT ∧ list_find (λ v, v.1 = name) (env_set c) = None) as [Hremoved Hset].
  { destruct Hc as [->|Hc]; [done|]. unfold with_java in Hc. destruct (contains_char _ _); [done|]. injection Hc as <-.
    cbn [maven_command env_removed env_set app]. split; [done|]. cbn [list_find fst]. rewrite !decide_False by (cbn [fst]; congruence). done. }
  unfold variable_of. rewrite Hset, Hremoved. by rewrite bool_decide_eq_true_2.
Qed.

(** ** Samples *)

#[local] Existing Instance sample_patterns.
#[local] Existing Instance sample_pattern_laws.
#[local] Existing Instance sample_unicode.

Definition sample_runner : MavenRunner :=
  {| root := [lit "work"]; executable := System [lit "opt"; lit "mvn"]; timeout := 60 * 10 ^ 9; max_output_bytes := 100;
     java_environment := Inherit; execution_repository := None |}.
Definition sample_files : FileSystem :=
  {| canonicalize p := Some p; is_file _ := true; is_dir _ := true; is_executable _ := Some true |}.
(** Two requests, of which the first runs Maven while the second waits. *)
Definition sample_requests : list event :=
  [Requested 0 sample_runner Lifecycle [lit "verify"]; Requested 1 sample_runner FocusedTest [lit "test"]; TimePassed (3 * 10 ^ 6);
   PermitGranted 0 sample_files [] (Spawned 7)].
Lemma event_steps `{PatternLaws, Unicode} home path_variable l : ∀ w w', run home path_variable w l = Some w' → rtc (steps home path_variable) w w'.
Proof.
  induction l as [|e l IH]; intros w w'; cbn [run]; [by intros [= <-]|].
  destruct (step home path_variable w e) as [w1|] eqn:He; [|done]. intros Hr. apply (rtc_l _ _ w1); [by exists e|by apply IH].
Qed.
Definition sample_world (l : list event) : option World := run None None (idle 0 ∅) l.

Lemma maven_runs_one_at_a_time_witness :
  ∃ w, sample_world sample_requests = Some w ∧ groups w !! 7 = Some (Some 0%nat) ∧
    ∃ r, requests w !! 0%nat = Some r ∧ guarded (phase r) = Some 7.
Proof.
  destruct (sample_world sample_requests) as [w|] eqn:Hrun; [|vm_compute in Hrun; discriminate]. exists w.
  assert (sample_world sample_requests ≫= (λ w, groups w !! 7) = Some (Some 0%nat)) as Hg by (vm_compute; reflexivity).
  rewrite Hrun in Hg. cbn [mbind option_bind] in Hg. split; [reflexivity|]. split; [exact Hg|].
  destruct (maven_runs_one_at_a_time None None 0 ∅ w (map_Forall_empty _) (event_steps _ _ _ _ _ Hrun)) as (_ & _ & Hgroups & _).
  destruct (Hgroups 7 0%nat Hg) as (r & Hr & _ & Hguard). exists r. split; [exact Hr|exact Hguard].
Defined.

(** A process that Maven started outside its group keeps the output open after Maven exited; the
    number of Maven's group is given to an unrelated one, which the time limit then kills. *)
Lemma stranger_killed :
  strangers_killed <$> sample_world (sample_requests ++
    [Exited 0 (inl {| success := true; code := Some 0%Z |}); GroupEnded 7; GroupAppeared 7; TimePassed (60 * 10 ^ 9); TimerFired 0])
  = Some [7].
Proof. vm_compute. reflexivity. Qed.
(** Maven's output is logged as a timeout although Maven succeeded, since its pipes stayed open. *)
Lemma success_reported_as_timeout :
  (λ w, (log_of 0 w, available w, map fst (map_to_list (groups w)))) <$> sample_world (sample_requests ++
    [Exited 0 (inl {| success := true; code := Some 0%Z |}); TimePassed (60 * 10 ^ 9); TimerFired 0; TimePassed (10 ^ 9); TimerFired 0])
  = Some ([RunStarted (lit "lifecycle") 3 60000;
           RunFinished (lit "lifecycle") (lit "timeout")
             (Some {| finished_exit_code := None; finished_timed_out := true; finished_timeout_ms := 60000; finished_stdout_truncated := false;
                      finished_stderr_truncated := false; finished_redaction_count := 0 |}) None 3 (Some (61000, 61003))], 1, []).
Proof. vm_compute. reflexivity. Qed.
