(* ===== verification/CoverageReports.v ===== *)
(** * CoverageReports: which JaCoCo reports a project has

    Models the reading of coverage reports in [src/project.rs]: the walk that finds them, the
    module each belongs to, whether it is older than the classes of its module, and the modules
    without one.  What is shown of the reports is in [Coverage].  Files are the class
    [CoverageFiles]; the deserializer of a report is the class [JacocoXml]. *)

From S2P Require Import Prelude.
From S2P Require Import Text.
From S2P Require Import Ordering.
From S2P Require Import Paths.
From S2P Require Import TextSearch.
From S2P Require Import Config.
From S2P Require Import Coverage.

Open Scope N_scope.

(** ** Files *)

(** [walk] is [WalkDir] without links, entry by entry, [None] being one that cannot be read, with
    whether it is a file. *)
Class CoverageFiles := {
  walk : path → list (option (path * bool));
  canonical_path : path → option path;
  is_directory : path → bool;
  modified : path → option N;
}.
Record RawJacocoReport := {
  jacoco_packages : list RawJacocoPackage;
  jacoco_counters : list RawJacocoCounter;
}.
Class JacocoXml := parse_jacoco : str → option RawJacocoReport.

Inductive CoverageError :=
| WalkFailed
| CanonicalizeFailed
| ReportEscaped
| TooManyReports
| ReadFailed (e : XmlReadError)
| InvalidReport (module : str)
| TimeUnknown
| ClassesUnreadable.

Section Reports.
Context `{CoverageFiles, JacocoXml, XmlFiles} (limits : ResourceLimits).
Variables (root : path) (expected : gmap (list N) (list (list N))).

(** ** Operations *)

Definition is_jacoco (p : path) : bool :=
  bool_decide (file_name p = Some (lit "jacoco.xml")) && bool_decide (lit "target" ∈ p).
Fixpoint discover (l : list (option (path * bool))) (found : list path) : list path + CoverageError :=
  match l with
  | [] => inl found
  | None :: _ => inr WalkFailed
  | Some (p, is_file) :: l =>
      if negb is_file || negb (is_jacoco p) then discover l found
      else
        match canonical_path p with
        | None => inr CanonicalizeFailed
        | Some canonical =>
            if negb (path_starts_with root canonical) then inr ReportEscaped
            else if MAX_XML_FILES <=? N.of_nat (length found) then inr TooManyReports
            else discover l (found ++ [canonical])
        end
  end.
Definition discover_jacoco_reports : list path + CoverageError :=
  match discover (walk root) [] with inl found => inl (sort found) | inr e => inr e end.

(** A file that is newer ends the walk. *)
Fixpoint newer_file (time : N) (l : list (option (path * bool))) : bool + CoverageError :=
  match l with
  | [] => inl false
  | None :: _ => inr ClassesUnreadable
  | Some (_, false) :: l => newer_file time l
  | Some (p, true) :: l =>
      match modified p with
      | None => inr TimeUnknown
      | Some t => if time <? t then inl true else newer_file time l
      end
  end.
Definition CLASS_DIRECTORIES : list path := [[lit "target"; lit "classes"]; [lit "target"; lit "test-classes"]].
Fixpoint newer_class (time : N) (module_root : path) (directories : list path) : bool + CoverageError :=
  match directories with
  | [] => inl false
  | d :: directories =>
      if negb (is_directory (module_root ++ d)) then newer_class time module_root directories
      else match newer_file time (walk (module_root ++ d)) with
           | inl false => newer_class time module_root directories
           | r => r
           end
  end.
Definition report_is_stale (report module_root : path) : bool + CoverageError :=
  match modified report with
  | None => inr TimeUnknown
  | Some time => newer_class time module_root CLASS_DIRECTORIES
  end.

(** [max_by_key]: of equally deep roots the last. *)
Definition deeper (report : path) (best : option (str * path)) (e : str * path) : option (str * path) :=
  if path_starts_with e.2 report then
    match best with
    | Some b => if (length b.2 <=? length e.2)%nat then Some e else best
    | None => Some e
    end
  else best.
Definition module_of (report : path) : str * path :=
  default (lit ".", root) (foldl (deeper report) None (sorted_entries expected)).

Fixpoint read_reports (l : list path) (b : XmlBudget) (found : list ParsedCoverageReport)
    : exec (list ParsedCoverageReport + CoverageError) :=
  match l with
  | [] => mret (inl found)
  | p :: l =>
      let '(module, module_root) := module_of p in
      r ← read limits b p;
      match r with
      | inr e => mret (inr (ReadFailed e))
      | inl (xml, b) =>
          match parse_jacoco xml with
          | None => mret (inr (InvalidReport module))
          | Some raw =>
              match report_is_stale p module_root with
              | inr e => mret (inr e)
              | inl stale =>
                  metrics ← coverage_metrics (jacoco_counters raw);
                  read_reports l b (found ++ [{| report_module := module; report_metrics := metrics;
                                                 report_packages := jacoco_packages raw; report_stale := stale |}])
              end
          end
      end
  end.
Definition missing_of (found : list ParsedCoverageReport) : list str :=
  filter (λ m, m ∉ report_module <$> found) (sorted_entries expected).*1.
Definition read_jacoco_reports : exec (ParsedCoverageReports + CoverageError) :=
  match discover_jacoco_reports with
  | inr e => mret (inr e)
  | inl paths =>
      r ← read_reports paths empty_budget [];
      mret match r with
           | inr e => inr e
           | inl found => inl {| reports := sort_by_key report_module found; missing_modules := missing_of found |}
           end
  end.

(** [jacoco_coverage] and [jacoco_coverage_gaps], with what an error says. *)
Variable error_text : CoverageError → str.
Definition no_metrics : CoverageMetrics :=
  {| instructions := None; branches := None; metric_lines := None; methods := None; classes := None |}.
Definition jacoco_coverage : exec (CoverageSummaryResult * option str) :=
  r ← read_jacoco_reports;
  match r with
  | inl parsed => s ← coverage_summary parsed; mret (s, None)
  | inr e => mret ({| summary_status := CoverageInvalid; project_metrics := no_metrics; summary_reports := [];
                      summary_missing_modules := [] |}, Some (error_text e))
  end.
Definition jacoco_coverage_gaps (max_results : nat) (limit : option nat) : exec (CoverageGapResult * option str) :=
  r ← read_jacoco_reports;
  match r with
  | inl parsed => g ← coverage_gaps parsed (gap_limit limit max_results); mret (g, None)
  | inr e => mret ({| gap_status := CoverageInvalid; gaps := []; gap_missing_modules := []; incomplete := false |}, Some (error_text e))
  end.
End Reports.

(** ** Lemmas *)

Section Exact.
Context `{CoverageFiles, JacocoXml, XmlLaws} (limits : ResourceLimits).
Variables (root : path) (expected : gmap (list N) (list (list N))).

(** The reports in a walk, by their canonical paths. *)
Definition report_in (e : option (path * bool)) : option path :=
  match e with Some (p, true) => if is_jacoco p then canonical_path p else None | _ => None end.
Lemma discover_exact l : ∀ found,
  match discover root l found with
  | inl all => all = found ++ omap report_in l ∧ None ∉ l ∧ Forall (λ p, path_starts_with root p = true) (omap report_in l) ∧
      (N.of_nat (length found) ≤ MAX_XML_FILES → N.of_nat (length all) ≤ MAX_XML_FILES)
  | inr e => e = WalkFailed ∧ None ∈ l ∨
      (∃ p, Some (p, true) ∈ l ∧ is_jacoco p = true ∧
         (e = CanonicalizeFailed ∧ canonical_path p = None ∨
          e = ReportEscaped ∧ ∃ c, canonical_path p = Some c ∧ path_starts_with root c = false)) ∨
      e = TooManyReports ∧ MAX_XML_FILES < N.of_nat (length found + length (omap report_in l))
  end.
Proof.
  induction l as [|[[p is_file]|] l IH]; intros found; cbn [discover].
  - cbn. rewrite app_nil_r. split_and!; [done|by intros ?%elem_of_nil|constructor|done].
  - assert (∀ e, (e = WalkFailed ∧ None ∈ l ∨
      (∃ p, Some (p, true) ∈ l ∧ is_jacoco p = true ∧
         (e = CanonicalizeFailed ∧ canonical_path p = None ∨ e = ReportEscaped ∧ ∃ c, canonical_path p = Some c ∧ path_starts_with root c = false)) ∨
      e = TooManyReports ∧ MAX_XML_FILES < N.of_nat (length found + length (omap report_in (Some (p, is_file) :: l)))) →
      (e = WalkFailed ∧ None ∈ Some (p, is_file) :: l ∨
      (∃ q, Some (q, true) ∈ Some (p, is_file) :: l ∧ is_jacoco q = true ∧
         (e = CanonicalizeFailed ∧ canonical_path q = None ∨ e = ReportEscaped ∧ ∃ c, canonical_path q = Some c ∧ path_starts_with root c = false)) ∨
      e = TooManyReports ∧ MAX_XML_FILES < N.of_nat (length found + length (omap report_in (Some (p, is_file) :: l))))) as Hmore.
    { intros e [[-> ?]|[(q & ? & ?)|?]]; [left; split; [done|by right]|right; left; exists q; split; [by right|done]|by right; right]. }
    destruct is_file; cbn [negb orb].
    + destruct (is_jacoco p) eqn:Hj; cbn [negb].
      * destruct (canonical_path p) as [c|] eqn:Hc; [|right; left; exists p; split_and!; [by left|done|by left]].
        destruct (path_starts_with root c) eqn:Hin; cbn [negb]; [|right; left; exists p; split_and!; [by left|done|right; split; [done|by exists c]]].
        assert (omap report_in (Some (p, true) :: l) = c :: omap report_in l) as Homap by (cbn [omap list_omap report_in]; by rewrite Hj, Hc).
        destruct (N.leb_spec MAX_XML_FILES (N.of_nat (length found))) as [Hle|Hlt].
        -- right. right. split; [done|]. rewrite Homap. cbn [length]. lia.
        -- specialize (IH (found ++ [c])). destruct (discover root l (found ++ [c])) as [all|e].
           ++ destruct IH as (-> & Hnone & Hall & Hlen). rewrite Homap. split_and!.
              ** by rewrite <- app_assoc.
              ** by intros [?|?]%elem_of_cons.
              ** by constructor.
              ** intros _. apply Hlen. rewrite length_app. cbn [length]. lia.
           ++ apply Hmore. rewrite Homap. destruct IH as [?|[?|[-> Hlen]]]; [by left|by right; left|right; right]. split; [done|].
              rewrite length_app in Hlen. cbn [length] in *. lia.
      * assert (omap report_in (Some (p, true) :: l) = omap report_in l) as Homap by (cbn [omap list_omap report_in]; by rewrite Hj).
        specialize (IH found). destruct (discover root l found) as [all|e]; [|apply Hmore; by rewrite Homap].
        destruct IH as (-> & Hnone & Hall & Hlen). rewrite Homap. split_and!; [done|by intros [?|?]%elem_of_cons|done..].
    + assert (omap report_in (Some (p, false) :: l) = omap report_in l) as Homap by done.
      specialize (IH found). destruct (discover root l found) as [all|e]; [|apply Hmore; by rewrite Homap].
      destruct IH as (-> & Hnone & Hall & Hlen). rewrite Homap. split_and!; [done|by intros [?|?]%elem_of_cons|done..].
  - left. split; [done|by left].
Qed.

(** A module's file that is newer than a report. *)
Definition newer_in (time : N) (l : list (option (path * bool))) : Prop := ∃ p t, Some (p, true) ∈ l ∧ modified p = Some t ∧ time < t.
Definition newer_than (time : N) (module_root : path) (directories : list path) : Prop :=
  ∃ d, d ∈ directories ∧ is_directory (module_root ++ d) = true ∧ newer_in time (walk (module_root ++ d)).
(** The errors of a report itself. *)
Definition own_error (e : CoverageError) : Prop := e ≠ ReportEscaped ∧ e ≠ TooManyReports.
Lemma newer_file_exact time l : match newer_file time l with inl b => b = true ↔ newer_in time l | inr e => own_error e end.
Proof.
  induction l as [|[[p []]|] l IH]; cbn [newer_file].
  - split; [done|]. intros (p & t & Hp & _). by apply elem_of_nil in Hp.
  - destruct (modified p) as [t|] eqn:Ht; [|done]. destruct (N.ltb_spec time t) as [Hlt|Hge].
    + split; [|done]. intros _. exists p, t. split_and!; [by left|done..].
    + destruct (newer_file time l); [|done]. rewrite IH. split; intros (q & t' & Hq & Ht' & Hlt); exists q, t'; [split_and!; [by right|done..]|].
      apply elem_of_cons in Hq as [[= ->]|Hq]; [|done]. rewrite Ht in Ht'. injection Ht' as <-. lia.
  - destruct (newer_file time l); [|done]. rewrite IH. split; intros (q & t' & Hq & Ht' & Hlt); exists q, t'; [split_and!; [by right|done..]|].
    by apply elem_of_cons in Hq as [?|Hq].
  - done.
Qed.
Lemma newer_class_exact time module_root l :
  match newer_class time module_root l with inl b => b = true ↔ newer_than time module_root l | inr e => own_error e end.
Proof.
  induction l as [|d l IH]; cbn [newer_class]; [split; [done|]; by intros (d & ?%elem_of_nil & _)|].
  destruct (is_directory (module_root ++ d)) eqn:Hd; cbn [negb].
  - pose proof (newer_file_exact time (walk (module_root ++ d))) as Hf. destruct (newer_file _ _) as [[]|]; [|..|done].
    + split; [|done]. intros _. exists d. split_and!; [by left|done|by apply Hf].
    + destruct (newer_class time module_root l); [|done]. rewrite IH. split; intros (d' & Hin & Hdir & Hnew); exists d'; [split_and!; [by right|done..]|].
      apply elem_of_cons in Hin as [->|Hin]; [|done]. apply Hf in Hnew. done.
  - destruct (newer_class time module_root l); [|done]. rewrite IH. split; intros (d' & Hin & Hdir & Hnew); exists d'; [split_and!; [by right|done..]|].
    apply elem_of_cons in Hin as [->|Hin]; [congruence|done].
Qed.

(** The module of a report: the deepest one it lies in, or the project itself. *)
Definition owns (m : str) (module_root p : path) : Prop :=
  (expected !! m = Some module_root ∧ path_starts_with module_root p = true ∧
   ∀ m' root', expected !! m' = Some root' → path_starts_with root' p = true → (length root' ≤ length module_root)%nat) ∨
  ((∀ m' root', expected !! m' = Some root' → path_starts_with root' p = false) ∧ m = lit "." ∧ module_root = root).
Lemma deeper_exact p l : ∀ best,
  (∀ b, best = Some b → path_starts_with b.2 p = true) →
  match foldl (deeper p) best l with
  | Some e => (e ∈ l ∨ best = Some e) ∧ path_starts_with e.2 p = true ∧
      (∀ e', e' ∈ l ∨ best = Some e' → path_starts_with e'.2 p = true → (length e'.2 ≤ length e.2)%nat)
  | None => best = None ∧ ∀ e, e ∈ l → path_starts_with e.2 p = false
  end.
Proof.
  induction l as [|e l IH]; intros best Hbest; cbn [foldl].
  - destruct best as [b|]; [|split; [done|]; by intros e ?%elem_of_nil]. split_and!; [by right|by apply Hbest|].
    intros e' [?%elem_of_nil|[= ->]]; done.
  - assert (∀ b, deeper p best e = Some b → path_starts_with b.2 p = true) as Hnext.
    { unfold deeper. intros b. destruct (path_starts_with e.2 p) eqn:He; [|by apply Hbest].
      destruct best as [b'|]; [|by intros [= <-]]. destruct (_ <=? _)%nat; [by intros [= <-]|by apply Hbest]. }
    specialize (IH (deeper p best e) Hnext). destruct (foldl (deeper p) (deeper p best e) l) as [x|].
    + destruct IH as (Hin & Hx & Hmax). split_and!; [|done|].
      * destruct Hin as [?|Hin]; [left; by right|]. unfold deeper in Hin. destruct (path_starts_with e.2 p); [|by right].
        destruct best as [b|]; [|injection Hin as <-; left; by left]. destruct (_ <=? _)%nat; [injection Hin as <-; left; by left|by right].
      * assert (∀ b, best = Some b → (length b.2 ≤ length x.2)%nat) as Hb.
        { intros b ->. unfold deeper in Hmax, Hnext. destruct (path_starts_with e.2 p) eqn:He.
          - destruct (Nat.leb_spec (length b.2) (length e.2)); [etrans; [done|]; apply Hmax; [by right|done]|apply Hmax; [by right|by apply Hbest]].
          - apply Hmax; [by right|by apply Hbest]. }
        intros e' [[->|Hin']%elem_of_cons|Hin'] He'; [|apply Hmax; [by left|done]|by apply Hb].
        unfold deeper in Hmax. rewrite He' in Hmax. destruct best as [b|]; [|apply Hmax; [by right|done]].
        destruct (Nat.leb_spec (length b.2) (length e.2)); [apply Hmax; [by right|done]|]. specialize (Hb b eq_refl). lia.
    + destruct IH as [Hnone Hall]. unfold deeper in Hnone. destruct (path_starts_with e.2 p) eqn:He.
      * destruct best; [by destruct (_ <=? _)%nat|done].
      * split; [done|]. intros e' [->|Hin]%elem_of_cons; [done|by apply Hall].
Qed.
Lemma module_of_owns p : owns (module_of root expected p).1 (module_of root expected p).2 p.
Proof.
  unfold module_of. pose proof (deeper_exact p (sorted_entries expected) None ltac:(done)) as Hd.
  destruct (foldl (deeper p) None (sorted_entries expected)) as [[m module_root]|]; cbn [default fst snd] in *.
  - left. destruct Hd as ([Hin|?] & Hp & Hmax); [|done]. split_and!; [by apply elem_of_sorted_entries|done|].
    intros m' root' Hm' Hp'. apply (Hmax (m', root')); [|done]. left. by apply elem_of_sorted_entries.
  - right. destruct Hd as [_ Hall]. split_and!; [|done..]. intros m' root' Hm'. apply (Hall (m', root')). by apply elem_of_sorted_entries.
Qed.

(** *** The reports *)

(** What is read of a report. *)
Definition describes (p : path) (r : ParsedCoverageReport) : Prop :=
  ∃ module_root time xml raw, owns (report_module r) module_root p ∧ modified p = Some time ∧
    (∃ limit, read_bounded_xml_with_limit p limit = inl xml) ∧ parse_jacoco xml = Some raw ∧
    coverage_metrics (jacoco_counters raw) = Done (report_metrics r) ∧ report_packages r = jacoco_packages raw ∧
    (report_stale r = true ↔ newer_than time module_root CLASS_DIRECTORIES).
Lemma find_counter_total counters kind_name : Forall counter_fits counters → total (find_counter counters kind_name).
Proof.
  intros Hfits. unfold find_counter. destruct (list_find _ counters) as [[n c]|] eqn:Hc; [|done].
  apply list_find_Some in Hc as (Hc & _ & _). apply list_elem_of_lookup_2 in Hc. rewrite Forall_forall in Hfits.
  apply total_fmap. unfold coverage_counter, u64_add, or_panic, checked_add. specialize (Hfits c Hc). unfold counter_fits in Hfits.
  rewrite decide_True; [done|exact Hfits].
Qed.
Lemma metrics_total counters : Forall counter_fits counters → total (coverage_metrics counters).
Proof.
  intros Hfits. unfold coverage_metrics. do 5 (eapply wp_call; [by apply find_counter_total|intros ? _]). done.
Qed.
Lemma read_some b p xml b' : read limits b p = Done (inl (xml, b')) → ∃ limit, read_bounded_xml_with_limit p limit = inl xml.
Proof.
  unfold read. destruct (_ <=? _); [done|]. destruct (or_panic (checked_sub _ _)) as [remaining| |]; cbn [mbind exec_bind]; [|done..].
  destruct (read_bounded_xml_with_limit p _) as [x|e] eqn:Hx; [|done].
  destruct (or_panic (checked_add (budget_bytes b) _)) as [bytes| |]; cbn [mbind exec_bind]; [|done..]. destruct (or_panic (checked_add (budget_files b) _)) as [n| |]; cbn [mbind exec_bind]; [|done..].
  intros [= <- _]. by eexists.
Qed.
Lemma read_reports_exact l : (∀ xml raw, parse_jacoco xml = Some raw → Forall counter_fits (jacoco_counters raw)) →
  ∀ b found, budget_within b →
  wp (read_reports limits root expected l b found) (λ r, match r with
    | inl all => ∃ new, all = found ++ new ∧ Forall2 describes l new
    | inr e => own_error e
    end).
Proof.
  intros Hfits. induction l as [|p l IH]; intros b found Hb; cbn [read_reports].
  - apply wp_mret. exists []. by rewrite app_nil_r.
  - pose proof (module_of_owns p) as Howns. destruct (module_of root expected p) as [m module_root]. cbn [fst snd] in Howns.
    pose proof (budget_kept limits b p Hb) as Hread. destruct (read limits b p) as [[[xml b']|e]| |] eqn:Hxml; [|done..].
    cbn [wp] in Hread. destruct Hread as (_ & _ & _ & Hb'). apply read_some in Hxml. cbn [mbind exec_bind].
    destruct (parse_jacoco xml) as [raw|] eqn:Hraw; [|done].
    unfold report_is_stale. destruct (modified p) as [time|] eqn:Htime; [|done].
    pose proof (newer_class_exact time module_root CLASS_DIRECTORIES) as Hstale. destruct (newer_class _ _ _) as [stale|]; [|done].
    pose proof (metrics_total _ (Hfits xml raw Hraw)) as Hm. destruct (coverage_metrics _) as [metrics| |] eqn:Hmetrics; [|done..]. cbn [mbind exec_bind].
    eapply wp_mono; [by apply IH|]. intros [all|e]; [|done]. intros (new & -> & Hnew). eexists. split; [by rewrite <- app_assoc|].
    constructor; [|done]. exists module_root, time, xml, raw. by split_and!.
Qed.

(** C?: The coverage reports of a project are complete and attributed: when reading them
    succeeds, there is exactly one report for every [jacoco.xml] below a [target] directory of the
    project, none outside the project, with the counters of its file; each belongs to the deepest
    module it lies in, and counts as stale just when a class file of that module is newer; they come
    ordered by module, and the missing modules are exactly the expected ones without a report. *)
Theorem coverage_reports_exact :
  (∀ xml raw, parse_jacoco xml = Some raw → Forall counter_fits (jacoco_counters raw)) →
  wp (read_jacoco_reports limits root expected) (λ r, match r with
    | inl parsed => ∃ paths read,
        None ∉ walk root ∧ paths ≡ₚ omap report_in (walk root) ∧ Forall (λ p, path_starts_with root p = true) paths ∧
        Forall2 describes paths read ∧ reports parsed ≡ₚ read ∧
        StronglySorted (λ a b, le_cmp (report_module a) (report_module b) = true) (reports parsed) ∧
        StronglySorted lt_cmp (missing_modules parsed) ∧
        ∀ m, m ∈ missing_modules parsed ↔ is_Some (expected !! m) ∧ ∀ r, r ∈ reports parsed → report_module r ≠ m
    | inr ReportEscaped => ∃ p c, Some (p, true) ∈ walk root ∧ is_jacoco p = true ∧ canonical_path p = Some c ∧ path_starts_with root c = false
    | inr TooManyReports => MAX_XML_FILES < N.of_nat (length (omap report_in (walk root)))
    | inr _ => True
    end).
Proof.
  intros Hfits. unfold read_jacoco_reports, discover_jacoco_reports. pose proof (discover_exact (walk root) []) as Hd.
  destruct (discover root (walk root) []) as [found|e].
  - destruct Hd as (-> & Hnone & Hin & _). eapply wp_call; [apply read_reports_exact; [exact Hfits|by vm_compute]|].
    intros [new|e] Hnew; [|apply wp_mret; destruct Hnew; by destruct e].
    destruct Hnew as (read & -> & Hread). apply wp_mret. exists (sort (omap report_in (walk root))), read. cbn [app missing_modules reports].
    split_and!; [done|apply sort_with_perm| |done|apply sort_with_perm|apply sort_by_key_sorted| |].
    + apply Forall_forall. intros p Hp. apply elem_of_sort_with in Hp. by eapply Forall_forall in Hin.
    + unfold missing_of. apply filter_sorted, sorted_entries_strict.
    + intros m. unfold missing_of. rewrite list_elem_of_filter.
      assert (m ∈ (sorted_entries expected).*1 ↔ is_Some (expected !! m)) as ->.
      { rewrite list_elem_of_fmap. split.
        - intros ([m' root'] & -> & Hm%elem_of_sorted_entries). by eexists.
        - intros [root' Hm]. exists (m, root'). split; [done|by apply elem_of_sorted_entries]. }
      rewrite list_elem_of_fmap. split.
      * intros [Hno Hm]. split; [done|]. intros r Hr <-. apply Hno. exists r. split; [done|]. by apply elem_of_sort_with in Hr.
      * intros [Hm Hno]. split; [|done]. intros (r & -> & Hr). apply (Hno r); [|done]. by apply elem_of_sort_with.
  - apply wp_mret. destruct Hd as [[-> _]|[(p & Hp & Hj & [[-> _]|[-> (c & Hc & Hout)]])|[-> Hlen]]]; try done. by exists p, c.
Qed.
End Exact.


(** ** Samples *)

(** A project with the modules "a" and "a/b", of which the first has a report that is older than a
    class, and a report outside [target]. *)
Definition sample_root : path := [lit "p"].
Definition sample_expected : gmap (list N) (list (list N)) :=
  <[lit "a" := [lit "p"; lit "a"]]> {[lit "a/b" := [lit "p"; lit "a"; lit "b"]]}.
Definition sample_report : path := [lit "p"; lit "a"; lit "target"; lit "jacoco.xml"].
#[local] Instance sample_files : CoverageFiles := {|
  walk d :=
    if bool_decide (d = sample_root)
    then [Some ([lit "p"], false); Some ([lit "p"; lit "jacoco.xml"], true); Some (sample_report, true)]
    else [Some (d ++ [lit "A.class"], true)];
  canonical_path p := Some p;
  is_directory p := bool_decide (p = [lit "p"; lit "a"; lit "target"; lit "classes"]);
  modified p := if bool_decide (p = sample_report) then Some 10 else Some 20;
|}.
#[local] Instance sample_xml : JacocoXml := λ xml,
  Some {| jacoco_packages := []; jacoco_counters := [{| kind := lit "LINE"; raw_missed := 1; raw_covered := 3 |}] |}.
#[local] Instance sample_xml_files : XmlFiles := {|
  file_contents _ := Some (lit "<report/>");
  from_utf8 b := if forallb (λ c, c <? 128) b then Some b else None;
  xml_reader _ := [inl Config.Empty];
|}.
#[local] Instance sample_xml_laws : XmlLaws.
Proof.
  split. intros bytes s. cbn [from_utf8 sample_xml_files]. case_match eqn:E; [|done]. intros [= <-].
  rewrite <- utf8_blen, utf8_ascii; [done|]. apply Forall_forall. intros c Hc.
  rewrite forallb_forall in E. apply N.ltb_lt, E. by apply list_elem_of_In.
Qed.
Definition sample_parsed : ParsedCoverageReports := {|
  reports := [{| report_module := lit "a"; report_metrics := {| instructions := None; branches := None; metric_lines := Some (counter_of 1 3 4);
                                                               methods := None; classes := None |};
                 report_packages := []; report_stale := true |}];
  missing_modules := [lit "a/b"];
|}.
Lemma coverage_reports_exact_witness :
  read_jacoco_reports sample_limits sample_root sample_expected = Done (inl sample_parsed) ∧
  ∃ paths, paths ≡ₚ omap report_in (walk sample_root) ∧ length paths = 1%nat.
Proof.
  assert (read_jacoco_reports sample_limits sample_root sample_expected = Done (inl sample_parsed)) as Hr by (vm_compute; reflexivity).
  split; [exact Hr|].
  assert (∀ xml raw, parse_jacoco xml = Some raw → Forall counter_fits (jacoco_counters raw)) as Hfits.
  { intros xml raw [= <-]. repeat constructor. unfold counter_fits. vm_compute. discriminate. }
  pose proof (coverage_reports_exact sample_limits sample_root sample_expected Hfits) as Hexact. rewrite Hr in Hexact. cbn [wp] in Hexact.
  destruct Hexact as (paths & read & _ & Hpaths & _). exists paths. split; [exact Hpaths|]. rewrite (Permutation_length Hpaths). vm_compute. reflexivity.
Defined.
