(* ===== verification/PomDescriptor.v ===== *)
(** * PomDescriptor: the POM of an artifact as a descriptor

    Models [pom_descriptor_at] of [src/index.rs]: the POM of an exact version below the local
    repository, read within the XML limits, as its declared dependencies, dependency management,
    imported BOMs and properties.  The deserializer is the class [PomXml]. *)

From S2P Require Import Prelude.
From S2P Require Import Text.
From S2P Require Import Paths.
From S2P Require Import Ordering.
From S2P Require Import TextSearch.
From S2P Require Import Redaction.
From S2P Require Import Config.
From S2P Require Import Artifacts.

Open Scope N_scope.

(** ** Data *)

Record PomCoordinate := {
  coordinate_group : option str;
  coordinate_artifact : str;
  coordinate_version : option str;
}.
(** A group and an artifact. *)
Abbreviation PomExclusion := (str * str)%type (only parsing).
Record PomDependency := {
  dependency_group : str;
  dependency_artifact : str;
  dependency_version : option str;
  dependency_type : option str;
  dependency_classifier : option str;
  dependency_scope : option str;
  dependency_optional : bool;
  dependency_exclusions : list PomExclusion;
}.
Record PomDescriptor := {
  descriptor_coordinate : str;
  descriptor_group : option str;
  descriptor_artifact : str;
  descriptor_version : option str;
  packaging : str;
  parent : option PomCoordinate;
  properties : gmap (list N) (list N);
  dependencies : list PomDependency;
  dependency_management : list PomDependency;
  bom_imports : list PomDependency;
}.
Record PomDescriptorLookup := {
  lookup_coordinate : str;
  pom_found : bool;
  descriptor : option PomDescriptor;
}.

Record RawPomDependency := {
  raw_group : str;
  raw_artifact : str;
  raw_version : option str;
  raw_type : option str;
  raw_classifier : option str;
  raw_scope : option str;
  raw_optional : option str;
  raw_exclusions : list PomExclusion;
}.
Record RawPomParent := {
  parent_group : str;
  parent_artifact : str;
  parent_version : str;
}.
Record RawPomProject := {
  project_group : option str;
  project_artifact : str;
  project_version : option str;
  project_packaging : option str;
  project_parent : option RawPomParent;
  project_properties : gmap (list N) (list N);
  project_dependencies : list RawPomDependency;
  project_management : list RawPomDependency;
}.
Class PomXml := parse_pom : str → option RawPomProject.

Inductive PomLookupError :=
| BadCoordinate
| PomPath (e : ArtifactPathError)
| PomUnreadable (e : XmlReadError)
| PomMalformed.

(** ** Operations *)

(** The derived order of dependencies: field by field. *)
Definition dependency_key (d : PomDependency)
    : str * str * option str * option str * option str * option str * bool * list PomExclusion :=
  (dependency_group d, dependency_artifact d, dependency_version d, dependency_type d, dependency_classifier d,
   dependency_scope d, dependency_optional d, dependency_exclusions d).

Definition convert_dependency (raw : RawPomDependency) : PomDependency :=
  {| dependency_group := raw_group raw; dependency_artifact := raw_artifact raw; dependency_version := raw_version raw;
     dependency_type := raw_type raw; dependency_classifier := raw_classifier raw; dependency_scope := raw_scope raw;
     dependency_optional := bool_decide (raw_optional raw = Some (lit "true"));
     dependency_exclusions := sort (raw_exclusions raw) |}.
Definition convert_dependencies (raws : list RawPomDependency) : list PomDependency := convert_dependency <$> raws.

Definition is_bom_import (d : PomDependency) : bool :=
  bool_decide (dependency_type d = Some (lit "pom")) && bool_decide (dependency_scope d = Some (lit "import")).

Definition from_raw `{Patterns, Unicode} (coordinate : str) (raw : RawPomProject) : exec PomDescriptor :=
  let managed := convert_dependencies (project_management raw) in
  shown ← redact_properties (project_properties raw);
  mret {| descriptor_coordinate := coordinate;
          descriptor_group := project_group raw; descriptor_artifact := project_artifact raw; descriptor_version := project_version raw;
          packaging := default (lit "jar") (project_packaging raw);
          parent := (λ p, {| coordinate_group := Some (parent_group p); coordinate_artifact := parent_artifact p;
                             coordinate_version := Some (parent_version p) |}) <$> project_parent raw;
          properties := shown;
          dependencies := sort_by_key dependency_key (convert_dependencies (project_dependencies raw));
          dependency_management := sort_by_key dependency_key (filter (λ d, is_bom_import d = false) managed);
          bom_imports := sort_by_key dependency_key (filter (λ d, is_bom_import d = true) managed) |}.

Section Lookup.
Context `{Patterns, Unicode, RepositoryFiles, XmlFiles, PomXml} (limits : ResourceLimits).

Definition exact_coordinate (key : ArtifactKey) : str := join (lit ":") [group_id key; artifact_id key; version key].
Definition pom_name (key : ArtifactKey) : str := artifact_id key ++ lit "-" ++ version key ++ lit ".pom".

Definition pom_descriptor_at (root : path) (text : str) : exec (PomDescriptorLookup + PomLookupError) :=
  match parse_exact_coordinate text with
  | None => mret (inr BadCoordinate)
  | Some key =>
      let coordinate := exact_coordinate key in
      match contained_artifact_path root key (Some (pom_name key)) with
      | inr e => mret (inr (PomPath e))
      | inl None => mret (inl {| lookup_coordinate := coordinate; pom_found := false; descriptor := None |})
      | inl (Some p) =>
          match read_bounded_xml limits p with
          | inr e => mret (inr (PomUnreadable e))
          | inl xml =>
              match parse_pom xml with
              | None => mret (inr PomMalformed)
              | Some raw =>
                  d ← from_raw coordinate raw;
                  mret (inl {| lookup_coordinate := coordinate; pom_found := true; descriptor := Some d |})
              end
          end
      end
  end.
End Lookup.

(** ** The descriptor of a POM *)

Definition in_order (l : list PomDependency) : Prop := StronglySorted (λ a b, le_cmp (dependency_key a) (dependency_key b) = true) l.

Section Exact.
Context `{PatternLaws, Unicode, RepositoryFiles, XmlFiles, PomXml} (limits : ResourceLimits).

(** What a descriptor shows of a project: its own data; every dependency once, in order, the
    managed ones apart from the BOMs they import. *)
Record describes (coordinate : str) (raw : RawPomProject) (d : PomDescriptor) : Prop := {
  own_coordinate : descriptor_coordinate d = coordinate ∧ descriptor_group d = project_group raw ∧
    descriptor_artifact d = project_artifact raw ∧ descriptor_version d = project_version raw;
  own_packaging : packaging d = default (lit "jar") (project_packaging raw);
  own_parent : match project_parent raw, parent d with
    | Some p, Some c => c = {| coordinate_group := Some (parent_group p); coordinate_artifact := parent_artifact p; coordinate_version := Some (parent_version p) |}
    | None, None => True
    | _, _ => False
    end;
  own_properties : masked (project_properties raw) (properties d);
  own_dependencies : dependencies d ≡ₚ convert_dependencies (project_dependencies raw) ∧ in_order (dependencies d);
  own_management : dependency_management d ++ bom_imports d ≡ₚ convert_dependencies (project_management raw) ∧
    in_order (dependency_management d) ∧ in_order (bom_imports d);
  own_imports : ∀ m, (m ∈ bom_imports d → dependency_type m = Some (lit "pom") ∧ dependency_scope m = Some (lit "import")) ∧
    (m ∈ dependency_management d → ¬ (dependency_type m = Some (lit "pom") ∧ dependency_scope m = Some (lit "import")));
}.

Lemma partition_perm {A} (f : A → bool) (l : list A) : filter (λ x, f x = false) l ++ filter (λ x, f x = true) l ≡ₚ l.
Proof.
  induction l as [|x l IH]; [done|]. rewrite !filter_cons. destruct (f x); cbn [decide].
  - rewrite decide_False by done. rewrite decide_True by done. rewrite <- Permutation_middle. by rewrite IH.
  - rewrite decide_True by done. rewrite decide_False by done. cbn [app]. by rewrite IH.
Qed.
Lemma bom_import_spec d : is_bom_import d = true ↔ dependency_type d = Some (lit "pom") ∧ dependency_scope d = Some (lit "import").
Proof. unfold is_bom_import. rewrite andb_true_iff, !bool_decide_eq_true. done. Qed.

Lemma from_raw_describes coordinate raw : wp (from_raw coordinate raw) (describes coordinate raw).
Proof.
  unfold from_raw. eapply wp_call; [apply properties_masked|]. intros shown Hshown. apply wp_mret.
  split; cbn [descriptor_coordinate descriptor_group descriptor_artifact descriptor_version packaging parent properties dependencies
              dependency_management bom_imports]; [done|done| |exact Hshown| | |].
  - by destruct (project_parent raw).
  - split; [apply sort_with_perm|apply sort_by_key_sorted].
  - split; [|split; apply sort_by_key_sorted]. unfold sort_by_key. rewrite !sort_with_perm. apply partition_perm.
  - intros m. rewrite <- bom_import_spec. unfold sort_by_key. rewrite !elem_of_sort_with, !list_elem_of_filter.
    destruct (is_bom_import m); split; intros [? _]; done.
Qed.

(** C?: The POM of an exact version is shown as it is: the file read lies below the repository and
    within the XML limit, the descriptor has every declared dependency once and in order, the
    managed ones split exactly into imported BOMs and the rest, and no secret property; a missing
    POM is not an error, and an error says what kept the POM from being read. *)
Theorem pom_descriptor_exact root text :
  wp (pom_descriptor_at limits root text) (λ r,
    match parse_exact_coordinate text with
    | None => r = inr BadCoordinate
    | Some key =>
        let path := contained_artifact_path root key (Some (pom_name key)) in
        match r with
        | inl l => lookup_coordinate l = exact_coordinate key ∧
            match descriptor l with
            | None => pom_found l = false ∧ path = inl None
            | Some d => pom_found l = true ∧ ∃ p canonical_root xml raw, path = inl (Some p) ∧
                canonicalize root = inl canonical_root ∧ path_starts_with canonical_root p = true ∧
                read_bounded_xml limits p = inl xml ∧ parse_pom xml = Some raw ∧ describes (exact_coordinate key) raw d
            end
        | inr BadCoordinate => False
        | inr (PomPath e) => path = inr e
        | inr (PomUnreadable e) => ∃ p, path = inl (Some p) ∧ read_bounded_xml limits p = inr e
        | inr PomMalformed => ∃ p xml, path = inl (Some p) ∧ read_bounded_xml limits p = inl xml ∧ parse_pom xml = None
        end
    end).
Proof.
  unfold pom_descriptor_at. destruct (parse_exact_coordinate text) as [key|]; [|by apply wp_mret]. cbv zeta.
  destruct (contained_artifact_path root key (Some (pom_name key))) as [[p|]|e] eqn:Hp; [|by apply wp_mret..].
  destruct (read_bounded_xml limits p) as [xml|e] eqn:Hxml; [|apply wp_mret; by exists p].
  destruct (parse_pom xml) as [raw|] eqn:Hraw; [|apply wp_mret; by exists p, xml].
  eapply wp_call; [apply from_raw_describes|]. intros d Hd. apply wp_mret. split; [done|]. split; [done|].
  destruct (contained_below _ _ _ _ Hp) as (canonical_root & Hroot & Hbelow). by exists p, canonical_root, xml, raw.
Qed.
End Exact.
