(* ===== verification/ClassSource.v ===== *)
(** * ClassSource: the source of a class

    Models [class_source] of [src/index.rs]: for every archive that has the class, the best entry
    of the sources JAR that documents it.  What a request pairs is shown in [IndexSearch], what
    the best entry is in [Contents]. *)

From S2P Require Import Prelude.
From S2P Require Import Text.
From S2P Require Import TextSearch.
From S2P Require Import Paths.
From S2P Require Import Ordering.
From S2P Require Import Artifacts.
From S2P Require Import IndexRecord.
From S2P Require Import IndexBuild.
From S2P Require Import IndexSearch.
From S2P Require Import Contents.
From S2P Require Import SourceLookup.

Open Scope N_scope.

Record SourceResult := {
  source_class : str;
  source_summary : JarSummary;
  source_entry : str;
  source_text : str;
  source_truncated : bool;
}.

Section ClassSource.
Context `{Unicode, SourceArchives} (index : MavenIndex).

(** What a sources JAR has for a request; nothing is no error. *)
Definition read_request (q : JarRecord * JarRecord * str * SourceEntryNames) : exec (option SourceResult + ContentError) :=
  let '(_, source_jar, class_name, names) := q in
  found ← read_source (jar_path source_jar) names (max_source_bytes index);
  mret match found with
       | inl (Some (entry, text, truncated)) =>
           inl (Some {| source_class := class_name; source_summary := summary source_jar; source_entry := entry;
                        source_text := text; source_truncated := truncated |})
       | inl None => inl None
       | inr e => inr e
       end.
Definition add_source (normalized : str) (selector wanted : option str) (results : list SourceResult) (jar_index : nat)
    : exec (list SourceResult + ContentError) :=
  request ← source_request index normalized selector wanted jar_index;
  match request with
  | None => mret (inl results)
  | Some q =>
      found ← read_request q;
      mret match found with inl found => inl (results ++ option_list found) | inr e => inr e end
  end.
Definition class_source (class_name : str) (selector wanted : option str) : exec (list SourceResult + ContentError) :=
  let normalized := normalize_class_query class_name in
  match class_locations index !! to_lowercase normalized with
  | None => mret (inl [])
  | Some locations => for_try (add_source normalized selector wanted) locations []
  end.
End ClassSource.

(** ** Every sources JAR is asked *)

Section Exact.
Context `{Unicode, SourceArchives} (index : MavenIndex).
Context (Htyped : typed_index index) (Hmax : max_source_bytes index < usize_max).

(** The sources the requests have, each read, or the first that cannot be read. *)
Definition sources_of (requests : list (JarRecord * JarRecord * str * SourceEntryNames)) (r : list SourceResult + ContentError) : Prop :=
  match r with
  | inl results => ∃ found, Forall2 (λ q s, read_request index q = Done (inl s)) requests found ∧ results = omap id found
  | inr e => ∃ q, q ∈ requests ∧ read_request index q = Done (inr e)
  end.

Lemma read_request_total q : total (read_request index q).
Proof.
  destruct q as [[[binary source_jar] class_name] names]. unfold read_request.
  destruct (wp_Done _ _ (read_source_best (jar_path source_jar) names (max_source_bytes index) Hmax)) as (r & Hr & _).
  rewrite Hr. cbn [mbind exec_bind]. by destruct r as [[[[? ?] ?]|]|].
Qed.

Lemma add_sources_spec query selector wanted locations : ∀ results,
  (∀ i, i ∈ locations → i ∈ default [] (class_locations index !! to_lowercase query)) →
  wp (for_try (add_source index query selector wanted) locations results) (λ r, match r with
    | inl all => ∃ found, Forall2 (λ q s, read_request index q = Done (inl s)) (omap (request_at index query selector wanted) locations) found ∧
        all = results ++ omap id found
    | inr e => ∃ q, q ∈ omap (request_at index query selector wanted) locations ∧ read_request index q = Done (inr e)
    end).
Proof.
  induction locations as [|i locations IH]; intros results Hl; cbn [for_try].
  { apply wp_mret. exists []. cbn. by rewrite app_nil_r. }
  assert (∀ j, j ∈ locations → j ∈ default [] (class_locations index !! to_lowercase query)) as Hrest by (intros j Hj; apply Hl; by right).
  assert (add_source index query selector wanted results i = match request_at index query selector wanted i with
    | None => Done (inl results)
    | Some q => found ← read_request index q; mret match found with inl found => inl (results ++ option_list found) | inr e => inr e end
    end) as -> by (unfold add_source; by rewrite (request_at_spec index Htyped query selector wanted i) by (apply Hl; by left)).
  cbn [omap list_omap]. destruct (request_at index query selector wanted i) as [q|]; [|cbn [mret exec_ret mbind exec_bind]; by apply IH].
  pose proof (read_request_total q) as (found & Hfound & _)%wp_Done. rewrite Hfound. cbn [mbind exec_bind].
  destruct found as [s|e]; cbn [mret exec_ret mbind exec_bind]; [|exists q; split; [by left|done]].
  eapply wp_mono; [by apply IH|]. intros [all|e].
  - intros (found & Hf & ->). exists (s :: found). split; [by constructor|]. rewrite <- app_assoc. by destruct s.
  - intros (q' & Hq & He). exists q'. split; [by right|done].
Qed.

(** Asking for the source of a class asks every sources JAR that documents an archive with the
    class, and shows what each has: it never panics, its requests are sound, the results are what
    reading each of them in turn gives, and it fails only when one of them cannot be read. *)
Theorem class_source_exact class_name selector wanted :
  wp (class_source index class_name selector wanted) (λ r, ∃ requests,
    source_requests index class_name selector wanted = Done requests ∧
    Forall (request_sound index (normalize_class_query class_name) selector wanted) requests ∧ sources_of requests r).
Proof.
  pose proof (source_requests_omap index Htyped class_name selector wanted) as Hreq. cbv zeta in Hreq.
  pose proof (source_requests_sound index class_name selector wanted Htyped) as Hsound. rewrite Hreq in Hsound. cbn [wp] in Hsound.
  unfold class_source. set (query := normalize_class_query class_name) in *.
  destruct (class_locations index !! to_lowercase query) as [locations|] eqn:Hl.
  - eapply wp_mono; [apply add_sources_spec; intros i; by rewrite Hl|]. intros r Hr. eexists. split; [exact Hreq|]. split; [exact Hsound|].
    destruct r; exact Hr.
  - apply wp_mret. eexists. split; [exact Hreq|]. split; [exact Hsound|]. exists []. split; [constructor|done].
Qed.
End Exact.
