(* ===== verification/RunnerTools.v ===== *)
(** * RunnerTools: what a runner does with Maven

    Models the tools of [MavenRunner] in [src/project.rs]: the discovery of a runner, and for
    each tool whether Maven is started, with which arguments, and what is made of its output.
    How a run goes is in [MavenRun]; here it is an answer.  The parts are in [MavenProject],
    [MavenOutput], [DependencyTree], [TestReports] and [EffectivePom]. *)

From S2P Require Import Prelude.
From S2P Require Import Text.
From S2P Require Import TextSearch.
From S2P Require Import Paths.
From S2P Require Import Redaction.
From S2P Require Import Config.
From S2P Require Import MavenProject.
From S2P Require Import MavenOutput.
From S2P Require DependencyTree.
From S2P Require TestReports.
From S2P Require EffectivePom.
From S2P Require Import MavenRun.

Open Scope N_scope.

(** ** Runners *)

Record Runner := {
  maven : MavenRunner;
  project : MavenProject;
  network : bool;
  max_results : nat;
}.

(** Why there is no runner for a directory. *)
Inductive RunnerError :=
| NoRootPom
| NoExecutable
| NoModel (e : option DiscoveryError)
| BadRepository.

(** The part of [MavenExecutionConfig] a runner takes, its paths parsed; an executable comes with
    whether its path is absolute. *)
Record RunnerConfig := {
  configured_executable : option (bool * path);
  configured_repository : option path;
  configured_timeout : N;
  configured_output_bytes : nat;
  configured_results : nat;
  configured_network : bool;
  configured_java : JavaEnvironment;
}.

Section Discover.
Context `{FileSystem}.
Variable read_pom : XmlBudget → path → (str * XmlBudget) + str.
Variable parse_pom : str → RawProject + str.

Definition canonicalize_directory (p : path) : option path :=
  p ← canonicalize p; if is_dir p then Some p else None.
Definition is_wrapper (e : MavenExecutable) : bool := match e with Wrapper _ => true | System _ => false end.

Definition discover_canonical (root : path) (config : RunnerConfig) : Runner + RunnerError :=
  if negb (is_dir root) || negb (is_file (root ++ [lit "pom.xml"])) then inr NoRootPom
  else
    match select_executable root (configured_executable config) with
    | None => inr NoExecutable
    | Some executable =>
        match discover_project read_pom parse_pom root (is_wrapper executable) with
        | None => inr (NoModel None)
        | Some (inr e) => inr (NoModel (Some e))
        | Some (inl project) =>
            let runner repository :=
              {| maven := {| root := root; executable := executable; timeout := configured_timeout config;
                             max_output_bytes := configured_output_bytes config; java_environment := configured_java config;
                             MavenRun.execution_repository := repository |};
                 project := project; network := configured_network config; max_results := configured_results config |} in
            match configured_repository config with
            | None => inl (runner None)
            | Some p => match canonicalize_directory p with Some p => inl (runner (Some p)) | None => inr BadRepository end
            end
        end
    end.
(** [rediscover]: the last test result is of the old runner and stays where it is. *)
Definition rediscover (r : Runner) (config : RunnerConfig) : Runner + RunnerError := discover_canonical (root (maven r)) config.

(** *** The installations of the Maven Wrapper *)

Definition WRAPPER_DISTRIBUTION_DEPTH : nat := 3.
Definition MAX_WRAPPER_DISTRIBUTION_ENTRIES : nat := 4096.
(** [walk] gives the entries of a directory down to a depth, with whether each is a directory. *)
Definition wrapper_distribution_homes (walk : path → nat → list (option (path * bool))) (maven_user_home home : option path) : list path :=
  let user_home := match maven_user_home with Some p => Some p | None => (λ home, home ++ [lit ".m2"]) <$> home end in
  match user_home with
  | None => []
  | Some user_home =>
      (filter (λ e : path * bool, e.2 = true ∧ is_file (e.1 ++ [lit "bin"; lit "mvn"]) = true)
        (take MAX_WRAPPER_DISTRIBUTION_ENTRIES
          (omap id (walk (user_home ++ [lit "wrapper"; lit "dists"]) WRAPPER_DISTRIBUTION_DEPTH)))).*1
  end.
End Discover.

(** ** Tools *)

(** What a run of Maven gives its caller: the permit could not be had, or what [run_child] gave;
    with the time since the request began. *)
Inductive Executed :=
| NoPermit (elapsed : N) (error : str)
| Permitted (elapsed : N) (ran : (MavenRunResult * str) + (RunFailure * str)).

(** A tool is refused before Maven is started, or starts it once. *)
Inductive tool (E A : Type) : Type :=
| Refused (a : exec A)
| Starts (operation : MavenOperation) (arguments : list str) (k : E → exec A).
Arguments Refused {E A} a.
Arguments Starts {E A} operation arguments k.

Record DependencyTreeResult := {
  tree_dependencies : list DependencyTree.DependencyNode;
  tree_incomplete : bool;
  tree_build : MavenBuildResult;
}.
Record DependencyResolutionResult := {
  resolution_status : DependencyTree.DependencyResolutionStatus;
  explanations : list DependencyTree.DependencyResolutionExplanation;
  resolution_incomplete : bool;
  resolution_error : option str;
  resolution_build : MavenBuildResult;
}.
Record MavenClasspathResult := {
  artifacts : list str;
  incomplete : bool;
  classpath_build : MavenBuildResult;
}.
Record MavenClasspathPaths := {
  paths_artifacts : list str;
  paths : list path;
  all_incomplete : bool;
  paths_incomplete : bool;
  paths_build : MavenBuildResult;
}.

Definition invalid_dependency_resolution (build : MavenBuildResult) (error : str) : DependencyResolutionResult :=
  {| resolution_status := DependencyTree.Invalid; explanations := []; resolution_incomplete := false;
     resolution_error := Some error; resolution_build := build |}.
Definition MALFORMED : str := lit "Maven dependency tree contained malformed dependency entries".

(** What a focused test gives besides: the reports before and after the run. *)
Inductive FocusedRun :=
| NotPermitted (elapsed : N) (error : str)
| Tested (before : TestReports.ReportTree) (elapsed : N) (ran : (MavenRunResult * str) + (RunFailure * str))
    (after : TestReports.ReportTree).
(** The answers of a run that writes the effective POM, as in [EffectivePom.PomRun]. *)
Record PomSteps := {
  directory_created : unit + str;
  directory_found : option path;
  pom_permit : unit + str;
  output_cleared : unit + str;
  pom_elapsed : N;
  pom_ran : (MavenRunResult * str) + (RunFailure * str);
  pom_written : bool;
}.

Section Tools.
Context `{Patterns, Unicode}.
(** [HOME] and the runner. *)
Variables (home : option str) (r : Runner).
Notation repository := (MavenRun.execution_repository (maven r)).

Definition base (module : option str) (also_make : bool) : list str + str :=
  base_arguments (project r) (network r) repository display module also_make.

Definition run_error (elapsed : N) (message : str) : exec MavenRunResult :=
  runner_error repository (root (maven r)) home elapsed message.
Definition build_error (elapsed : N) (message : str) : exec MavenBuildResult := from_run <$> run_error elapsed message.

(** [execute_permitted] and [execute_with_raw_stdout]. *)
Definition execute_permitted (elapsed : N) (ran : (MavenRunResult * str) + (RunFailure * str)) : exec (MavenRunResult * str) :=
  executed repository (root (maven r)) home elapsed ran.
Definition execute_with_raw_stdout (e : Executed) : exec (MavenRunResult * str) :=
  match e with
  | NoPermit elapsed error => result ← run_error elapsed error; mret (result, [])
  | Permitted elapsed ran => execute_permitted elapsed ran
  end.
Definition execute (e : Executed) : exec MavenRunResult := fst <$> execute_with_raw_stdout e.

(** Each tool with the time until it is refused. *)
Definition run (elapsed : N) (invocation : MavenInvocation) : tool Executed MavenRunResult :=
  match MavenProject.arguments (project r) (network r) repository display invocation with
  | inr e => Refused (run_error elapsed e)
  | inl arguments => Starts Lifecycle arguments execute
  end.

Definition run_arguments (arguments : list str) : tool Executed (MavenRunResult + str) :=
  match check_arguments arguments with
  | inr e => Refused (mret (inr e))
  | inl () => Starts Arguments arguments (λ e, inl <$> execute e)
  end.

Definition dependency_tree (elapsed : N) (module : option str) (scope : option DependencyScope) (coordinate_filter : option str)
    : tool Executed DependencyTreeResult :=
  match dependency_tree_arguments (project r) (network r) repository display module scope coordinate_filter with
  | inr e =>
      Refused (build ← build_error elapsed e; mret {| tree_dependencies := []; tree_incomplete := false; tree_build := build |})
  | inl arguments =>
      Starts DependencyTree arguments (λ e,
        '(run, raw_stdout) ← execute_with_raw_stdout e;
        mret {| tree_dependencies := DependencyTree.parse_dependency_tree raw_stdout; tree_incomplete := stdout_truncated run;
                tree_build := from_run run |})
  end.

(** The filter is not given to Maven. *)
Definition resolution_arguments (module : option str) (scope : option DependencyScope) (coordinate_filter : option str)
    : list str + str :=
  match match coordinate_filter with Some filter => validate_coordinate_filter filter | None => inl () end with
  | inr e => inr e
  | inl () =>
      match base module false with
      | inr e => inr e
      | inl arguments =>
          inl (arguments ++ [lit "dependency:tree"; lit "-DoutputType=text"; lit "-Dverbose"]
               ++ match scope with Some scope => [lit "-Dscope=" ++ scope_argument scope] | None => [] end)
      end
  end.
Definition resolved (coordinate_filter : option str) (run : MavenRunResult) (raw_stdout : str) : exec DependencyResolutionResult :=
  let build := from_run run in
  if negb (bool_decide (outcome build = Success)) then
    mret {| resolution_status := DependencyTree.ResolutionFailed; explanations := []; resolution_incomplete := stdout_truncated run;
            resolution_error := None; resolution_build := build |}
  else
    '(status, explanations, incomplete) ←
      DependencyTree.explain_output (project r) (max_results r) raw_stdout (stdout_truncated run) coordinate_filter;
    mret {| resolution_status := status; explanations := explanations; resolution_incomplete := incomplete;
            resolution_error := match status with DependencyTree.Invalid => Some MALFORMED | _ => None end;
            resolution_build := build |}.
Definition explain_dependency_resolution (elapsed : N) (module : option str) (scope : option DependencyScope)
    (coordinate_filter : option str) : tool Executed DependencyResolutionResult :=
  match resolution_arguments module scope coordinate_filter with
  | inr e => Refused (build ← build_error elapsed e; mret (invalid_dependency_resolution build e))
  | inl arguments =>
      Starts DependencyResolution arguments (λ e,
        '(run, raw_stdout) ← execute_with_raw_stdout e; resolved coordinate_filter run raw_stdout)
  end.

Definition classpath_of (run : MavenRunResult) (raw_stdout : str) : MavenClasspathPaths :=
  let (artifacts, normalization_incomplete) := parse_classpath (stdout run) in
  let (paths, path_incomplete) := parse_classpath_paths raw_stdout in
  {| paths_artifacts := artifacts; paths := paths;
     all_incomplete := stdout_truncated run || normalization_incomplete || path_incomplete;
     paths_incomplete := stdout_truncated run || path_incomplete;
     paths_build := from_run run |}.
Definition build_classpath_paths (elapsed : N) (module : option str) (kind : ClasspathKind) : tool Executed MavenClasspathPaths :=
  match classpath_arguments (project r) (network r) repository display module kind with
  | inr e =>
      Refused (build ← build_error elapsed e;
               mret {| paths_artifacts := []; paths := []; all_incomplete := false; paths_incomplete := false; paths_build := build |})
  | inl arguments =>
      Starts Classpath arguments (λ e, '(run, raw_stdout) ← execute_with_raw_stdout e; mret (classpath_of run raw_stdout))
  end.
Definition tool_map {E A B} (f : A → B) (t : tool E A) : tool E B :=
  match t with
  | Refused a => Refused (f <$> a)
  | Starts operation arguments k => Starts operation arguments (λ e, f <$> k e)
  end.
Definition build_classpath (elapsed : N) (module : option str) (kind : ClasspathKind) : tool Executed MavenClasspathResult :=
  tool_map (λ result, {| artifacts := paths_artifacts result; incomplete := all_incomplete result; classpath_build := paths_build result |})
    (build_classpath_paths elapsed module kind).
End Tools.

(** *** Tests and the effective POM *)

Section Reports.
Context `{Patterns, Unicode, XmlFiles, TestReports.SurefireXml, EffectivePom.EffectivePomXml}.
Variables (limits : ResourceLimits) (home : option str) (report_text : TestReports.ReportError → str)
  (pom_text : EffectivePom.PomParseError → str) (r : Runner).
Notation redact := (redacted (MavenRun.execution_repository (maven r)) (root (maven r)) home).

(** The result, and the last result kept. *)
Definition run_focused_test (elapsed : N) (invocation : FocusedTestInvocation) (last_result : option TestReports.FocusedTestResult)
    : tool FocusedRun (TestReports.FocusedTestResult * option TestReports.FocusedTestResult) :=
  let judge started := TestReports.run_focused_test limits redact report_text (root (maven r)) started last_result in
  match focused_test_arguments (project r) (network r) (MavenRun.execution_repository (maven r)) display invocation with
  | inr e => Refused (build ← build_error home r elapsed e; judge (inl build))
  | inl arguments =>
      Starts FocusedTest arguments (λ f,
        match f with
        | NotPermitted elapsed error => build ← build_error home r elapsed error; judge (inl build)
        | Tested before elapsed ran after =>
            '(run, _) ← execute_permitted home r elapsed ran; judge (inr (before, from_run run, after))
        end)
  end.

(** The result, and the arguments Maven was started with. *)
Definition effective_pom (elapsed : N) (module : option str) (s : PomSteps) : exec (EffectivePom.EffectivePomResult * option (list str)) :=
  '(run, _) ← execute_permitted home r (pom_elapsed s) (pom_ran s);
  EffectivePom.effective_pom limits redact pom_text display (build_error home r elapsed) (root (maven r))
    {| EffectivePom.created := directory_created s; EffectivePom.output_directory := directory_found s;
       EffectivePom.permit := pom_permit s; EffectivePom.base := base r module false; EffectivePom.cleared := output_cleared s;
       EffectivePom.ran := from_run run; EffectivePom.written := pom_written s |}.
End Reports.

(** ** The command of every tool *)

Section Commands.
Context `{PatternLaws, Unicode}.
Variables (home : option str) (r : Runner).

(** The options every tool but [run_arguments] begins with. *)
Definition flags : list str :=
  lit "--batch-mode" :: lit "--no-transfer-progress" :: (if network r then [] else [lit "--offline"])
  ++ match MavenRun.execution_repository (maven r) with Some p => [lit "-Dmaven.repo.local=" ++ display p] | None => [] end.
(** A module of the project, with what it needs. *)
Definition selects (l : list str) : Prop :=
  l = [] ∨ ∃ m also_make, m ∈ modules (project r) ∧ l = [lit "--projects"; selector m] ++ (if also_make : bool then [lit "--also-make"] else []).

Definition goal_of (o : MavenOperation) (goal : str) : Prop :=
  match o with
  | Lifecycle => ∃ phase, goal = phase_argument phase
  | FocusedTest => goal = lit "test"
  | EffectivePom => goal = lit "help:effective-pom"
  | DependencyTree | DependencyResolution => goal = lit "dependency:tree"
  | Classpath => goal = lit "dependency:build-classpath"
  | Arguments => False
  end.
Definition filter_character (c : char) : bool :=
  is_ascii_alphanumeric c || (c =? ch "_") || (c =? ch ".") || (c =? ch "-") || (c =? ch ":") || (c =? ch "*").
Definition option_of (o : MavenOperation) (x : str) : Prop :=
  match o with
  | FocusedTest => x = lit "-Dsurefire.failIfNoSpecifiedTests=false" ∨
      ∃ test, x = lit "-Dtest=" ++ test ∧ Forall (λ c, test_character c = true) test
  | EffectivePom => ∃ p, x = lit "-Doutput=" ++ display p ∧ path_starts_with (root (maven r)) p = true
  | DependencyTree | DependencyResolution => x = lit "-DoutputType=text" ∨ x = lit "-Dverbose" ∨
      (∃ scope, x = lit "-Dscope=" ++ scope_argument scope) ∨
      ∃ filter, x = lit "-Dincludes=" ++ filter ∧ Forall (λ c, filter_character c = true) filter
  | Classpath => x = lit "-DincludeScope=compile" ∨ x = lit "-DincludeScope=test"
  | Lifecycle | Arguments => False
  end.
(** The policy of the server, a module, one goal of the operation and its options: nothing of a
    request can be read as another option. *)
Definition launches (o : MavenOperation) (args : list str) : Prop :=
  match o with
  | Arguments => Forall (λ a, 0 ∉ a) args
  | _ => ∃ selected goal options, args = flags ++ selected ++ goal :: options ∧
      selects selected ∧ goal_of o goal ∧ Forall (option_of o) options
  end.
Definition starts_only {E A} (P : MavenOperation → list str → Prop) (t : tool E A) : Prop :=
  match t with Refused _ => True | Starts o args _ => P o args end.

Lemma base_flags module also_make args : base r module also_make = inl args → ∃ selected, args = flags ++ selected ∧ selects selected.
Proof.
  unfold base. intros (selected & -> & Hsel)%base_arguments_shape. exists selected. split.
  - unfold flags. cbn [app]. by rewrite <- app_assoc.
  - destruct module as [m|]; [|left; by destruct Hsel]. destruct Hsel as [(x & Hx & <-) ->]. right. by exists x, also_make.
Qed.
Lemma valid_filter_chars filter : validate_coordinate_filter filter = inl () → Forall (λ c, filter_character c = true) filter.
Proof.
  unfold validate_coordinate_filter, valid_name. case_match eqn:E; [|done]. intros _.
  apply andb_true_iff in E as [_ Hc]. apply Forall_forall. intros c Hin%list_elem_of_In. rewrite forallb_forall in Hc.
  specialize (Hc c Hin). unfold filter_character. revert Hc. rewrite !orb_true_iff. tauto.
Qed.
Lemma launch o args selected goal options :
  o ≠ Arguments → args = flags ++ selected → selects selected → goal_of o goal → Forall (option_of o) options →
  launches o (args ++ goal :: options).
Proof. intros Ho -> Hs Hg Hopt. destruct o; [..|done]; exists selected, goal, options; by rewrite <- app_assoc. Qed.

Lemma run_launches elapsed invocation : starts_only (λ o args, o = Lifecycle ∧ launches o args) (run home r elapsed invocation).
Proof.
  unfold run, MavenProject.arguments. fold (base r (invocation_module invocation) (also_make invocation)).
  destruct (base r _ _) as [args|] eqn:Hb; [|done]. apply base_flags in Hb as (selected & Hargs & Hs).
  split; [done|]. apply (launch Lifecycle args selected); [done|done|done|by exists (MavenProject.phase invocation)|constructor].
Qed.
Lemma run_arguments_launches arguments : starts_only (λ o args, o = Arguments ∧ launches o args ∧ args = arguments) (run_arguments home r arguments).
Proof.
  unfold run_arguments, check_arguments. destruct (existsb (contains_char 0) arguments) eqn:E; [done|]. split; [done|]. split; [|done].
  apply Forall_forall. intros a Ha Hnul. assert (existsb (contains_char 0) arguments = true) as Ht; [|congruence].
  apply existsb_exists. exists a. split; [by apply list_elem_of_In|]. unfold contains_char. apply existsb_exists.
  exists 0. split; [by apply list_elem_of_In|done].
Qed.

Lemma scope_options o (scope : option DependencyScope) : o = DependencyTree ∨ o = DependencyResolution →
  Forall (option_of o) match scope with Some scope => [lit "-Dscope=" ++ scope_argument scope] | None => [] end.
Proof.
  intros Ho. destruct scope as [scope|]; [|constructor]. constructor; [|constructor].
  destruct Ho as [-> | ->]; right; right; left; by exists scope.
Qed.
Lemma dependency_tree_launches elapsed module scope coordinate_filter :
  starts_only (λ o args, o = DependencyTree ∧ launches o args) (dependency_tree home r elapsed module scope coordinate_filter).
Proof.
  unfold dependency_tree, dependency_tree_arguments. fold (base r module false).
  destruct (match coordinate_filter with Some _ => _ | None => _ end) as [[]|] eqn:Hf; [|done].
  destruct (base r module false) as [args|] eqn:Hb; [|done]. apply base_flags in Hb as (selected & Hargs & Hs).
  split; [done|]. apply (launch DependencyTree args selected); [done..|]. constructor; [by left|]. apply Forall_app. split; [by apply scope_options; left|].
  destruct coordinate_filter as [filter|]; [|constructor]. constructor; [|constructor]. right. right. right. exists filter.
  split; [done|]. by apply valid_filter_chars.
Qed.
Lemma explain_launches elapsed module scope coordinate_filter :
  starts_only (λ o args, o = DependencyResolution ∧ launches o args) (explain_dependency_resolution home r elapsed module scope coordinate_filter).
Proof.
  unfold explain_dependency_resolution, resolution_arguments.
  destruct (match coordinate_filter with Some _ => _ | None => _ end) as [[]|]; [|done].
  destruct (base r module false) as [args|] eqn:Hb; [|done]. apply base_flags in Hb as (selected & Hargs & Hs).
  split; [done|]. apply (launch DependencyResolution args selected); [done..|]. constructor; [by left|]. constructor; [right; by left|].
  by apply scope_options; right.
Qed.
Lemma classpath_launches elapsed module kind : starts_only (λ o args, o = Classpath ∧ launches o args) (build_classpath_paths home r elapsed module kind).
Proof.
  unfold build_classpath_paths, classpath_arguments. fold (base r module false).
  destruct (base r module false) as [args|] eqn:Hb; [|done]. apply base_flags in Hb as (selected & Hargs & Hs).
  split; [done|]. apply (launch Classpath args selected); [done..|]. constructor; [destruct kind; [by left|by right]|constructor].
Qed.
Lemma tool_map_launches {E A B} (f : A → B) (t : tool E A) P : starts_only P t → starts_only P (tool_map f t).
Proof. by destruct t. Qed.
End Commands.

Section ReportCommands.
Context `{PatternLaws, Unicode, XmlFiles, TestReports.SurefireXml, EffectivePom.EffectivePomXml}.
Variables (limits : ResourceLimits) (home : option str) (report_text : TestReports.ReportError → str)
  (pom_text : EffectivePom.PomParseError → str) (r : Runner).

Lemma focused_test_launches elapsed invocation last_result :
  starts_only (λ o args, o = FocusedTest ∧ launches r o args) (run_focused_test limits home report_text r elapsed invocation last_result).
Proof.
  unfold run_focused_test, focused_test_arguments.
  destruct (validate_java_selector (test_class invocation) _) as [[]|] eqn:Hc; [|done]. apply valid_selector_chars in Hc as [_ Hc].
  destruct (match test_method invocation with Some _ => _ | None => _ end) as [[]|] eqn:Hm; [|done].
  fold (base r (test_module invocation) (test_also_make invocation)).
  destruct (base r _ _) as [args|] eqn:Hb; [|done]. apply base_flags in Hb as (selected & Hargs & Hs).
  split; [done|]. apply (launch r FocusedTest args selected); [done..|]. constructor; [right|constructor; [by left|constructor]].
  eexists. split; [done|]. destruct (test_method invocation) as [m|]; [|done]. apply valid_selector_chars in Hm as [_ Hm].
  apply Forall_app. split; [done|]. constructor; [vm_compute; reflexivity|done].
Qed.

Lemma path_starts_with_snoc (p : path) : ∀ (q : path) name, path_starts_with p q = true → path_starts_with p (q ++ [name]) = true.
Proof.
  unfold path_starts_with. induction p as [|c p IH]; intros [|d q] name; simpl; try done.
  rewrite !andb_true_iff. intros [? ?]. split; [done|by apply IH].
Qed.
Lemma effective_pom_launches elapsed module s result args :
  effective_pom limits home pom_text r elapsed module s = Done (result, Some args) → launches r EffectivePom args.
Proof.
  unfold effective_pom. destruct (execute_permitted _ _ _ _) as [[run raw]| |]; [|done..]. cbn [mbind exec_bind].
  unfold EffectivePom.effective_pom, EffectivePom.failed_run.
  cbn [EffectivePom.created EffectivePom.output_directory EffectivePom.permit EffectivePom.base EffectivePom.cleared EffectivePom.written EffectivePom.ran].
  assert (∀ error message,
    (result ← (build ← build_error home r elapsed message; mret (EffectivePom.without_projects EffectivePom.PomInvalid (Some error) build)); mret (result, None))
    ≠ Done (result, Some args)) as Hfail by (intros error message; by destruct (build_error home r elapsed message)).
  destruct (directory_created s) as [[]|e]; [|by intros ?%Hfail].
  destruct (directory_found s) as [directory|]; [|by intros ?%Hfail].
  destruct (path_starts_with _ directory) eqn:Hin; cbn [negb]; [|by intros ?%Hfail].
  destruct (pom_permit s) as [[]|e]; [|by intros ?%Hfail].
  destruct (base r module false) as [arguments|e] eqn:Hb; [|by intros ?%Hfail].
  destruct (output_cleared s) as [[]|e]; [|by intros ?%Hfail].
  intros Hdone. assert (args = arguments ++ [lit "help:effective-pom"; lit "-Doutput=" ++ display (directory ++ [lit "effective-pom.xml"])]) as ->.
  { destruct (pom_written s); cbn [negb] in Hdone; [|by injection Hdone].
    destruct (EffectivePom.parse_effective_pom _ _) as [[ps|e]| |]; cbn [mbind exec_bind] in Hdone; [by injection Hdone| |done..].
    destruct (redacted _ _ _ _); cbn [mbind exec_bind] in Hdone; [by injection Hdone|done..]. }
  apply base_flags in Hb as (selected & Hargs & Hs).
  apply (launch r EffectivePom arguments selected); [done..|]. constructor; [|constructor]. eexists. split; [done|].
  by apply path_starts_with_snoc.
Qed.
End ReportCommands.
