(* ===== verification/HeavyJobs.v ===== *)
(** * HeavyJobs: what the tools ask of an index, the repository and the project

    The blocking work of the tools of [src/server.rs], as data: the questions about an index, the
    questions about the local repository and those about the files of a project, with what each
    gives.  [evaluate] is the closure the server hands to the pool of heavy jobs; a job sees the
    files as they are when it runs, the record [Files]. *)

From S2P Require Import Prelude.
From S2P Require Import Text.
From S2P Require Import Paths.
From S2P Require Import Redaction.
From S2P Require Import Config.
From S2P Require Import Artifacts.
From S2P Require Import IndexRecord.
From S2P Require Import IndexBuild.
From S2P Require IndexSearch.
From S2P Require ClassEntries.
From S2P Require ClassFacts.
From S2P Require Contents.
From S2P Require Hierarchy.
From S2P Require SourceLookup.
From S2P Require ClassSource.
From S2P Require ClassApi.
From S2P Require Health.
From S2P Require PomDescriptor.
From S2P Require Preflight.
From S2P Require TestReports.
From S2P Require Coverage.
From S2P Require CoverageReports.
From S2P Require Import MavenProject.
From S2P Require Import RunnerTools.

Open Scope N_scope.

(** ** Questions *)

Inductive query :=
| Stats
| SearchClasses (query : str) (limit : option N)
| SearchJars (query : str) (limit : option N)
| SearchEntries (query : str) (jar : option str) (limit : option N)
| ListClasses (jar : str) (offset : N) (limit : option N)
| ReadSource (class_name : str) (jar version : option str)
| ReadEntry (jar entry : str)
| DescribeClass (class_name : str) (jar version : option str) (public_only : bool)
| SearchMembers (query : str) (jar : option str) (limit : option N)
| SearchContent (query : str) (jar : option str) (limit : option N)
| SearchHierarchy (type_name : str) (transitive : bool) (jar : option str) (limit : option N)
| SearchSource (query : str) (regex : bool) (jar : option str) (context_lines : N) (limit : option N)
| ReadDeclaration (class_name : str) (member_name descriptor jar version : option str)
| SearchReferences (class_name : str) (direction : IndexSearch.ReferenceDirection) (kind : option ClassFacts.ClassReferenceKind)
    (member_name descriptor jar : option str) (limit : option N)
| SearchProviders (service provider : option str) (kind : option ClassEntries.ProviderDescriptorKind) (jar : option str) (limit : option N)
| ArtifactVersions (artifact : str) (group : option str).

(** A reading of a class that failed. *)
Inductive DescriptionError := NotDescribed.

(** What a question gives, and why it may fail. *)
Definition found_by (q : query) : Type :=
  match q with
  | Stats => IndexStats
  | SearchClasses _ _ => list IndexSearch.ClassLocation
  | SearchJars _ _ => list JarSummary
  | SearchEntries _ _ _ => list IndexSearch.EntryMatch
  | ListClasses _ _ _ => list IndexSearch.ClassList
  | ReadSource _ _ _ => list ClassSource.SourceResult
  | ReadEntry _ _ => list Contents.JarEntryContent
  | DescribeClass _ _ _ _ => list ClassApi.ClassDescription
  | SearchMembers _ _ _ => list ClassApi.ClassMemberMatch
  | SearchContent _ _ _ => Contents.Scan Contents.JarContentMatch
  | SearchHierarchy _ _ _ _ => list Hierarchy.TypeHierarchyMatch
  | SearchSource _ _ _ _ _ => Contents.Scan Contents.SourceMatch
  | ReadDeclaration _ _ _ _ _ => SourceLookup.DeclarationSourceLookup
  | SearchReferences _ _ _ _ _ _ _ => list IndexSearch.ClassReference
  | SearchProviders _ _ _ _ _ => list IndexSearch.ProviderFact
  | ArtifactVersions _ _ => gmap (list N) (list (list N))
  end.
Definition failure_of (q : query) : Type :=
  match q with
  | ReadSource _ _ _ | ReadEntry _ _ | SearchContent _ _ _ | SearchSource _ _ _ _ _ => Contents.ContentError
  | DescribeClass _ _ _ _ => DescriptionError
  | ReadDeclaration _ _ _ _ _ => SourceLookup.LookupError
  | _ => Empty_set
  end.

(** About the repository at a path; [CompareApi] within a limit on a class file. *)
Inductive repository_job :=
| ReadPom (coordinate : str)
| CheckHealth (coordinate : str)
| CompareApi (max_source_bytes : N) (group artifact previous current : str).
Definition read_by (j : repository_job) : Type :=
  match j with
  | ReadPom _ => PomDescriptor.PomDescriptorLookup
  | CheckHealth _ => Health.ArtifactHealth
  | CompareApi _ _ _ _ _ => ClassApi.ArtifactApiDiff
  end.
Definition fault_of (j : repository_job) : Type :=
  match j with
  | ReadPom _ => PomDescriptor.PomLookupError
  | CheckHealth _ => Health.HealthError
  | CompareApi _ _ _ _ _ => ClassApi.ApiError
  end.

(** About the files of a runner's project. *)
Inductive project_job := ListTests | ReadCoverage | RankGaps (limit : option nat).
Definition seen_by (j : project_job) : Type :=
  match j with
  | ListTests => list str + TestReports.TestClassError
  | ReadCoverage => Coverage.CoverageSummaryResult * option str
  | RankGaps _ => Coverage.CoverageGapResult * option str
  end.

Inductive job :=
| OnIndex (index : N) (q : query)
| OnRepository (repository : path) (j : repository_job)
| OnProject (runner : N) (j : project_job).
Definition outcome (j : job) : Type :=
  match j with
  | OnIndex _ q => found_by q + failure_of q
  | OnRepository _ j => read_by j + fault_of j
  | OnProject _ j => seen_by j
  end.

(** ** Jobs *)

(** What a job sees of the world, and where it notices that it was cancelled. *)
Record Files := {
  archive_files : Contents.ArchiveFiles;
  class_archives : ClassFacts.ClassArchives;
  source_archives : Contents.SourceArchives;
  jar_files : ClassApi.JarFiles;
  repository_files : RepositoryFiles;
  artifact_directories : Health.ArtifactDirectories;
  xml_files : XmlFiles;
  coverage_files : CoverageReports.CoverageFiles;
  source_tree : path → TestReports.ReportTree;
  stop : option nat;
  cancelled : ClassApi.Cancellation;
}.

Section Evaluate.
Context `{Unicode, Patterns, PomDescriptor.PomXml, CoverageReports.JacocoXml}.
(** The regular expressions of [regex], the limits of the server, and what an error says. *)
Variables (compile : str → option (str → bool)) (limits : ResourceLimits) (budget : Preflight.ArchiveBudget)
  (coverage_text : CoverageReports.CoverageError → str).
(** The indexes and the runners that identities stand for. *)
Variables (index_of : N → MavenIndex) (runner_of : N → Runner).

Definition found {A E} (r : exec A) : exec (A + E) := inl <$> r.
Definition ask_index (w : Files) (index : MavenIndex) (q : query) : exec (found_by q + failure_of q) :=
  match q return exec (found_by q + failure_of q) with
  | Stats => found (stats index)
  | SearchClasses query limit => found (IndexSearch.search_classes index query limit)
  | SearchJars query limit => found (IndexSearch.search_jars index query limit)
  | SearchEntries query jar limit => found (IndexSearch.search_entries index query jar limit)
  | ListClasses jar offset limit => found (IndexSearch.list_classes index jar offset limit)
  | ReadSource class_name jar version => @ClassSource.class_source _ (source_archives w) index class_name jar version
  | ReadEntry jar entry => mret (@Contents.jar_entry (archive_files w) _ index jar entry)
  | DescribeClass class_name jar version public_only =>
      r ← @ClassApi.class_descriptions _ (class_archives w) index class_name jar version public_only;
      mret match r with Some l => inl l | None => inr NotDescribed end
  | SearchMembers query jar limit => found (@ClassApi.search_class_members _ (class_archives w) index query jar limit)
  | SearchContent query jar limit => @Contents.search_jar_content _ (archive_files w) index (stop w) query jar limit
  | SearchHierarchy type_name transitive jar limit => found (Hierarchy.search_type_hierarchy index type_name transitive jar limit)
  | SearchSource query regex jar context_lines limit =>
      @Contents.search_source (archive_files w) index (stop w) compile query regex jar context_lines limit
  | ReadDeclaration class_name member_name descriptor jar version =>
      @SourceLookup.get_declaration_source _ (class_archives w) (source_archives w) index class_name member_name descriptor jar version
  | SearchReferences class_name direction kind member_name descriptor jar limit =>
      found (IndexSearch.search_class_references index class_name direction kind member_name descriptor jar limit)
  | SearchProviders service provider kind jar limit => found (IndexSearch.search_providers index service provider kind jar limit)
  | ArtifactVersions artifact group => found (mret (IndexSearch.artifact_versions index artifact group))
  end.

Definition read_repository (w : Files) (repository : path) (j : repository_job) : exec (read_by j + fault_of j) :=
  match j return exec (read_by j + fault_of j) with
  | ReadPom coordinate =>
      @PomDescriptor.pom_descriptor_at _ _ (repository_files w) (xml_files w) _ limits repository coordinate
  | CheckHealth coordinate => mret (@Health.artifact_health_at (repository_files w) (artifact_directories w) repository coordinate)
  | CompareApi max_source_bytes group artifact previous current =>
      @ClassApi.compare_artifact_api_at (jar_files w) (class_archives w) (cancelled w) (repository_files w)
        budget repository max_source_bytes group artifact previous current
  end.

(** The modules that can have a report: [coverage_module_roots]. *)
Definition module_roots (r : Runner) : gmap str path :=
  coverage_module_roots (MavenRun.root (maven r)) (project r) (path_join (MavenRun.root (maven r))).
Definition see_project (w : Files) (r : Runner) (j : project_job) : exec (seen_by j) :=
  let root := MavenRun.root (maven r) in
  match j return exec (seen_by j) with
  | ListTests => mret (TestReports.test_classes root (source_tree w root))
  | ReadCoverage =>
      @CoverageReports.jacoco_coverage (coverage_files w) _ (xml_files w) limits root (module_roots r) coverage_text
  | RankGaps limit =>
      @CoverageReports.jacoco_coverage_gaps (coverage_files w) _ (xml_files w) limits root (module_roots r) coverage_text
        (max_results r) limit
  end.

Definition evaluate (w : Files) (j : job) : exec (outcome j) :=
  match j return exec (outcome j) with
  | OnIndex index q => ask_index w (index_of index) q
  | OnRepository repository j => read_repository w repository j
  | OnProject runner j => see_project w (runner_of runner) j
  end.
End Evaluate.
